(* ===== verification/_CoqProject ===== *)
-Q . S2P
Prelude.v
Text.v
SliceOps.v
BulkIngest.v
ErrorKernel.v
EnvModel.v
KeyKernel.v
BatchKernel.v
WalFormat.v
ValueLog.v
Spill.v
WalFragment.v
WalSource.v
WalReader.v
WalRecovery.v
Visibility.v
StreamHeap.v
StreamMerge.v
CompactGc.v
GcStream.v
CompactFilter.v
OrdMap.v
MemIndex.v
MemTable.v
MemFamily.v
MemRead.v
MemIter.v
MemBulk.v
WalWriter.v
WalLog.v
WalSystem.v
Bloom.v
SstBlock.v
SstFile.v
SstTable.v
SstWrite.v
SstOpen.v
SstRead.v
SstLookup.v
SstScan.v
SstRange.v
TableMerge.v
Flush.v
Manifest.v
ManifestStore.v
BulkRun.v
DbLookup.v
OccProbe.v
PointCache.v
DbTables.v
Occ.v
GroupCommit.v
DbOpen.v
