(* ===== verification/Prelude.v ===== *)
(** * PedraDB: a verification library

    PedraDB is an embedded, ordered key-value engine: an LSM tree with
    multi-version keys, snapshots, range deletions, a write-ahead log, optimistic
    transactions and a value log for large values. This library models the engine
    of [src/crates/pedradb-core/src] (paths below are relative to it) as executable
    Rocq definitions, function by function, and proves what makes the parts and
    their composition correct.

    ** The program and the files

    A write is encoded as a batch, framed into the log, applied to the memtable,
    flushed into a table, merged and collected by compaction; the manifest names
    the live tables. A read asks memtables, bulk runs and tables, newest first.

    Foundations.
    - [Prelude]: results, machine integers, byte order, little and big endian
      codecs, the development's tactics. [Text]: Rust strings and UTF-8.
      [SliceOps], [OrdMap]: the standard library's sort, binary search and BTreeMap.
    - [ErrorKernel] ([error_kernel.rs]): the errors. [EnvModel] ([env_kernel.rs],
      [env_crash_kernel.rs]): file-system calls as programs, and the states a crash
      may leave.
    - [KeyKernel] ([key_kernel.rs]): internal keys and their order. [BatchKernel]
      ([batch_kernel.rs]): the payload of a commit.

    The log.
    - [WalFormat], [WalFragment], [WalSource], [WalReader]
      ([wal/format_kernel.rs], [wal/writer_kernel.rs], [wal/reader_kernel.rs],
      [wal/crc_kernel.rs], [wal/recover_kernel.rs], [wal_segment_seal_kernel.rs]):
      framing, the streaming encoder, the reader with its block buffer.
    - [WalRecovery]: what recovery returns for a written, torn or sealed log.
    - [WalWriter], [WalLog], [WalSystem] ([wal/writer_kernel.rs],
      [wal/mod_kernel.rs], the ticket path of [concurrent_kernel.rs]): a file with
      its unsynced spans, which a crash may lose or tear ([crash_image]); writers
      that share a log as a step relation without guards of its own, and the
      discipline of its callers ([orderly]) under which a sync and the watermark
      mean what they should.

    Versions and reads.
    - [Visibility] ([merge_kernel.rs]): the visibility rule [reads], the reference
      range read. [StreamHeap], [StreamMerge]: the streaming range read over layers.
    - [CompactGc], [GcStream], [CompactFilter] ([compact_kernel.rs],
      [merge_kernel.rs], [db_kernel.rs]): collection of versions below the live
      snapshots, the k-way merge that feeds it, and user filters.
    - [MemIndex], [MemTable], [MemFamily], [MemRead], [MemIter], [MemBulk]
      ([memtable_kernel.rs]): the write buffer, its map, tail and sharded index.

    Tables.
    - [Bloom], [SstBlock], [SstFile], [SstTable], [SstWrite], [SstOpen]
      ([bloom_kernel.rs], [filter_partition_kernel.rs], [sst/]): blocks, file
      images, the writer, and opening what it wrote; [table_ok] says that a table
      represents a list of entries.
    - [SstRead], [SstLookup], [SstScan], [SstRange] ([sst/table_kernel.rs],
      [sst/scan_kernel.rs]): point lookups (decoding, and seeking in encoded
      blocks through the raw-block cache), merge inputs, range collection.
    - [TableMerge], [Flush] ([db_kernel.rs], [sst/table_kernel.rs]): the bodies of
      compaction and flush. [Manifest], [ManifestStore]
      ([manifest_mod_kernel.rs]): the version set and its atomic replacement.

    The database.
    - [ValueLog] ([vlog_kernel.rs]): separated values, pending records, rewrite.
      [Spill] ([db_kernel.rs], [vlog_kernel.rs]): which values are separated, blob
      rotation, and the barrier before the log.
    - [GroupCommit] ([db_kernel.rs], [write_admission_kernel.rs],
      [group_commit_kernel.rs]): the commit of a group of batches through value
      log, write-ahead log, memtable and publication, for any behaviour of the rest
      of the engine (class [Engine]).
    - [DbOpen] ([db_open_kernel.rs], [wal/reopen_kernel.rs], [corrupt_kernel.rs]):
      archived segments, log and damage decisions at an open, the replay into a
      memtable, repair and cut of the log, the next sequence.
    - [BulkIngest], [BulkRun] ([bulk_ingest_kernel.rs], [bulk_run_kernel.rs],
      [db_kernel.rs]): the latch that sends append-only families past the memtable,
      and the sorted runs they fill.
    - [DbLookup] ([db_kernel.rs], [lookup_kernel.rs], [probe_order_kernel.rs]): the
      point lookup over all layers, against the class [SstReads] of what a table
      promises; [DbTables] discharges that class for tables of [SstRead] that share
      one cache.
    - [OccProbe], [Occ] ([db_kernel.rs], [concurrent_kernel.rs],
      [group_commit_kernel.rs], [occ_kernel.rs]): conflict probes, validation of
      write groups, and the transaction object.
    - [PointCache] ([cache_kernel.rs], [db_kernel.rs], [lookup_kernel.rs]): the
      sharded cache of latest answers, and as a step relation the protocol of
      fills, publications and readers that hold no lock.

    ** What the theorems show

    - Durability: what a sync covered is recovered from every file a crash may
      leave, right after it and later ([sync_recovers_all]); in an orderly run the
      watermark covers only recovered records ([watermark_recovered]) and reaches
      the frontier ([watermark_reaches_frontier]), while
      [staged_drain_overwrites_ticket], [preframed_ticket_overtakes_frame] and
      [record_after_failed_ticket_lost] show runs that lose records. A crash at any
      point of a manifest store with directory syncs leaves the old or the new
      version ([store_atomic]; without them [unsynced_store_can_dangle]), and the
      clean-up removes nothing live ([cleanup_keeps_live]).
    - Commits: a group commit acknowledges exactly what it sequenced and applied
      ([group_commit_atomic]), and an acknowledged synchronous batch is recovered
      from the log a crash leaves and decodes to its operations
      ([group_commit_durable]); a database opened after a crash has the memtable
      the commit left ([commit_survives_crash]). Damage in a log never costs the
      records before it ([wal_durable_prefix], [open_serves_intact_prefix]), but
      the walk over it can end silently ([unanchored_resync_is_silent]).
    - Reads: every optimised path, from block seek ([block_seek_equiv]) and table
      lookup ([sst_lookup_correct]) over the memtable ([get_entry_refines_log],
      [range_snapshot_correct]) and the streaming merge
      ([streaming_read_correct]) to the database's lookup
      ([db_lookup_correct]), returns what the visibility rule reads.
    - Maintenance preserves reads: collection ([gc_preserves_reads]) and merge
      ([merge_preserves_reads]), for reads over their input together with all
      other layers; flush ([flush_preserves_reads]), bulk append
      ([bulk_append_exact]).
    - Transactions: the key probe is exact ([key_probe_exact]) and transactions
      accepted with the database's probes are serializable ([occ_serializable],
      [transaction_serializable]); the range probe does not ask the bulk runs,
      which the statements say. A cached answer that passes the double check is
      current ([double_check_sound]) when publishers exclude fills, and can be
      stale when they do not ([fill_inside_publish_is_stale]).
    - Formats: log, batch, table, manifest and value log round-trip.
    - Errors: failed operations leave nothing behind ([merge_error_cleans]) and
      refusals have a cause ([occ_refused_for_cause]). Theorems of kind error also
      state behaviours where the code departs from its intent
      ([span_split_drops_key], [flush_loses_keys], [vlog_mixed_corrupts],
      [absorb_failure_commits_refused], [fill_inside_publish_is_stale]);
      hypotheses such as [orderly], [log_readable], [single_range], [iterable] and
      [proper_ranges] mark what the positive theorems need because of them.

    ** Conventions

    Bytes are [Byte.byte]; machine integers are [Z] with their wrap-around, checks
    or saturation written out; lengths and indexes are [nat]. [Result] is Rust's;
    [option] around it ([Comp]) is a panic or an abort. State is passed explicitly;
    the file system is a value ([Files], [disk]), and where crashes matter it
    keeps what is not yet durable: unsynced spans of the log ([Sink]) and directory
    changes a crash may undo ([Disk]). Loops that are not structural
    take fuel; each has a lemma that the fuel the callers give is enough, so the
    theorems speak of results and not of partial runs ([recovery_terminates],
    [iter_fuel], the drains of [SstScan] and [GcStream]).

    Code outside the repository is a parameter with its documented laws: the
    checksum ([Crc32c], [Crc32cFile]: width and incremental computation) and the
    compressor ([Lz4], [Lz4Laws]: decompression inverts compression). The witnesses
    instantiate them with a polynomial checksum and a storing codec.

    ** Not modelled

    Thread scheduling (leader election, catch-up windows, condition variables), the
    flush and compaction drivers of [db_kernel.rs] beyond the operations above,
    policies over measured load (admission, back-pressure, leveling), caches other
    than the raw-block and the point cache (their answers are inputs), history and change feed,
    the single-owner [Transaction], the RocksDB facade, simulators, benchmarks and
    operation tools, and the stand-alone kernels that no engine path calls.
    Counters and log output are left out everywhere. *)

From Stdlib Require Export Strings.Byte NArith ZArith Lia.
From stdpp Require Export base tactics sets list numbers option sorting strings gmap.

#[local] Open Scope Z_scope.
#[global] Set Default Proof Using "Type".

(** * Results

    Rust's [Result<T, E>]; [?] is the bind of the error monad. *)
Inductive Result (E A : Type) : Type :=
| Ok (a : A)
| Err (e : E).
Arguments Ok {E A} a.
Arguments Err {E A} e.

Definition res_bind {E A B} (r : Result E A) (k : A → Result E B) : Result E B :=
  match r with
  | Ok a => k a
  | Err e => Err e
  end.

Declare Scope result_scope.
Delimit Scope result_scope with result.
Notation "'let?' x := r 'in' k" := (res_bind r (λ x, k))
  (at level 10, x name, r at level 100, k at level 200) : result_scope.
Notation "'let?' ' p := r 'in' k" := (res_bind r (λ x, match x with p => k end))
  (at level 10, p pattern, r at level 100, k at level 200) : result_scope.
#[global] Open Scope result_scope.

(** * Machine integers *)

Definition U16_MAX : Z := 65535.
Definition U32_MAX : Z := 4294967295.
Definition U64_MAX : Z := 18446744073709551615.

(** [u64::saturating_add] and [u64::saturating_sub]. *)
Definition sat_add (a b : Z) : Z := Z.min (a + b) U64_MAX.
Definition sat_sub (a b : Z) : Z := Z.max (a - b) 0.

(** [u32::try_from(n).unwrap_or(u32::MAX)] on a [usize]. *)
Definition u32_or_max (n : nat) : Z := Z.min (Z.of_nat n) U32_MAX.

(** * Bytes

    A [u8] is the Standard Library's [byte]; [b2Z] reads it as an integer and
    [Z2b] truncates an integer to its low byte ([as u8]). *)
#[export] Instance byte_eq_dec : EqDecision byte := Byte.byte_eq_dec.
#[export] Instance byte_countable : Countable byte := inj_countable Byte.to_N Byte.of_N Byte.of_to_N.

Definition b2Z (b : byte) : Z := Z.of_N (Byte.to_N b).
Definition Z2b (z : Z) : byte :=
  match Byte.of_N (Z.to_N (z mod 256)) with
  | Some b => b
  | None => x00
  end.

Lemma b2Z_range b : 0 ≤ b2Z b < 256.
Proof. unfold b2Z. pose proof (Byte.to_N_bounded b). lia. Qed.

Lemma Z2b_b2Z b : Z2b (b2Z b) = b.
Proof.
  pose proof (b2Z_range b). unfold Z2b. rewrite Z.mod_small by lia.
  unfold b2Z. rewrite N2Z.id, Byte.of_to_N. done.
Qed.

Lemma b2Z_Z2b z : b2Z (Z2b z) = z mod 256.
Proof.
  unfold Z2b. pose proof (Z.mod_pos_bound z 256 ltac:(lia)) as Hz.
  destruct (Byte.of_N (Z.to_N (z mod 256))) as [b|] eqn:Hb.
  - apply Byte.to_of_N in Hb. unfold b2Z. rewrite Hb. lia.
  - apply Byte.of_N_None_iff in Hb. lia.
Qed.

Lemma b2Z_Z2b_small z : 0 ≤ z < 256 → b2Z (Z2b z) = z.
Proof. intros. rewrite b2Z_Z2b. by apply Z.mod_small. Qed.

Lemma b2Z_inj a b : b2Z a = b2Z b → a = b.
Proof. intros H. by rewrite <-(Z2b_b2Z a), <-(Z2b_b2Z b), H. Qed.

(** Disjoint bit fields add. *)
Lemma lor_shiftl_add n a b :
  0 ≤ n → 0 ≤ b < 2 ^ n → Z.lor (Z.shiftl a n) b = a * 2 ^ n + b.
Proof.
  intros Hn Hb. pose proof (Z.add_lor_land (Z.shiftl a n) b) as Hadd.
  assert (Z.land (Z.shiftl a n) b = 0) as Hland.
  { apply Z.bits_inj'. intros i Hi. rewrite Z.land_spec, Z.bits_0, Z.shiftl_spec by done.
    destruct (decide (i < n)); [by rewrite Z.testbit_neg_r by lia|].
    destruct (decide (b = 0)) as [->|]; [by rewrite Z.bits_0, andb_false_r|].
    rewrite (Z.bits_above_log2 b i); [apply andb_false_r|lia|].
    assert (Z.log2 b < n) by (apply Z.log2_lt_pow2; lia). lia. }
  rewrite Hland, Z.shiftl_mul_pow2 in Hadd by lia. rewrite Z.shiftl_mul_pow2 by lia. lia.
Qed.

(** ** Fixed-width integers on the wire ([to_le_bytes] / [from_le_bytes] and
    the big-endian pair). *)
Fixpoint to_le (n : nat) (z : Z) : list byte :=
  match n with
  | O => []
  | S m => Z2b z :: to_le m (z / 256)
  end.

Fixpoint from_le (l : list byte) : Z :=
  match l with
  | [] => 0
  | b :: r => b2Z b + 256 * from_le r
  end.

Definition to_be (n : nat) (z : Z) : list byte := reverse (to_le n z).
Definition from_be (l : list byte) : Z := from_le (reverse l).

Lemma length_to_le n z : length (to_le n z) = n.
Proof. revert z. induction n as [|n IH]; intros z; simpl; [done|]. by rewrite IH. Qed.

Lemma length_to_be n z : length (to_be n z) = n.
Proof. unfold to_be. by rewrite length_reverse, length_to_le. Qed.

Lemma from_le_bound l : 0 ≤ from_le l < 256 ^ Z.of_nat (length l).
Proof.
  induction l as [|b l IH]; [simpl; lia|].
  cbn [from_le length]. rewrite Nat2Z.inj_succ, Z.pow_succ_r by lia.
  pose proof (b2Z_range b). lia.
Qed.

Lemma from_le_to_le n z :
  0 ≤ z < 256 ^ Z.of_nat n → from_le (to_le n z) = z.
Proof.
  revert z. induction n as [|n IH]; intros z Hz.
  - simpl in *. lia.
  - cbn [to_le from_le]. rewrite Nat2Z.inj_succ, Z.pow_succ_r in Hz by lia.
    rewrite b2Z_Z2b, IH.
    + pose proof (Z.div_mod z 256 ltac:(lia)). lia.
    + split; [apply Z.div_pos; lia|apply Z.div_lt_upper_bound; lia].
Qed.

Lemma to_le_from_le l : to_le (length l) (from_le l) = l.
Proof.
  induction l as [|b l IH]; [done|]. cbn [length to_le from_le].
  pose proof (b2Z_range b) as Hb.
  assert ((b2Z b + 256 * from_le l) / 256 = from_le l) as ->.
  { rewrite Z.add_comm, Z.mul_comm, Z.div_add_l by lia.
    rewrite Z.div_small by lia. lia. }
  rewrite IH. f_equal. apply b2Z_inj. rewrite b2Z_Z2b.
  rewrite Z.add_comm, Z.mul_comm, Z.add_comm, Z.mod_add by lia.
  apply Z.mod_small. lia.
Qed.

Lemma from_be_to_be n z :
  0 ≤ z < 256 ^ Z.of_nat n → from_be (to_be n z) = z.
Proof. unfold from_be, to_be. rewrite reverse_involutive. apply from_le_to_le. Qed.

Lemma to_le_inj n x y :
  0 ≤ x < 256 ^ Z.of_nat n → 0 ≤ y < 256 ^ Z.of_nat n →
  to_le n x = to_le n y → x = y.
Proof. intros Hx Hy H. by rewrite <-(from_le_to_le n x), <-(from_le_to_le n y), H. Qed.

(** Reading back the fields of a buffer. *)
Lemma take_to_le n z rest : take n (to_le n z ++ rest) = to_le n z.
Proof. apply take_app_length'. symmetry. apply length_to_le. Qed.

Lemma drop_to_le n z rest : drop n (to_le n z ++ rest) = rest.
Proof. apply drop_app_length'. symmetry. apply length_to_le. Qed.

Lemma drop_to_le_add n m z rest : drop (n + m) (to_le n z ++ rest) = drop m rest.
Proof. by rewrite <-drop_drop, drop_to_le. Qed.

Lemma from_le_nil : from_le [] = 0.
Proof. done. Qed.
Lemma from_le_cons b l : from_le (b :: l) = b2Z b + 256 * from_le l.
Proof. done. Qed.

Lemma from_le_app a b : from_le (a ++ b) = from_le a + 256 ^ Z.of_nat (length a) * from_le b.
Proof.
  induction a as [|x a IH]; [change (from_le b = 0 + 1 * from_le b); ring|].
  rewrite <-app_comm_cons, !from_le_cons, IH. cbn [length]. rewrite Nat2Z.inj_succ, Z.pow_succ_r by lia. ring.
Qed.

Lemma from_be_cons x l : from_be (x :: l) = b2Z x * 256 ^ Z.of_nat (length l) + from_be l.
Proof.
  unfold from_be. rewrite reverse_cons, from_le_app, length_reverse, from_le_cons. change (from_le []) with 0. ring.
Qed.

#[global] Arguments to_le : simpl never.
#[global] Arguments from_le : simpl never.

(** ** Bytewise order ([Ord for [u8]]): lexicographic, a prefix is smaller. *)
Fixpoint bytes_cmp (a b : list byte) : comparison :=
  match a, b with
  | [], [] => Eq
  | [], _ :: _ => Lt
  | _ :: _, [] => Gt
  | x :: a', y :: b' =>
      match b2Z x ?= b2Z y with
      | Eq => bytes_cmp a' b'
      | c => c
      end
  end.

Definition bytes_ltb (a b : list byte) : bool :=
  match bytes_cmp a b with Lt => true | _ => false end.
Definition bytes_leb (a b : list byte) : bool :=
  match bytes_cmp a b with Gt => false | _ => true end.
Definition bytes_eqb (a b : list byte) : bool := bool_decide (a = b).

Lemma bytes_cmp_refl a : bytes_cmp a a = Eq.
Proof. induction a as [|x a IH]; simpl; [done|]. by rewrite Z.compare_refl. Qed.

Lemma bytes_cmp_eq a b : bytes_cmp a b = Eq ↔ a = b.
Proof.
  split; [|intros ->; apply bytes_cmp_refl].
  revert b. induction a as [|x a IH]; intros [|y b]; simpl; try done.
  destruct (b2Z x ?= b2Z y) eqn:E; [|done|done]. intros H.
  apply Z.compare_eq, b2Z_inj in E. by rewrite E, (IH b).
Qed.

Lemma bytes_cmp_antisym a b : bytes_cmp b a = CompOpp (bytes_cmp a b).
Proof.
  revert b. induction a as [|x a IH]; intros [|y b]; simpl; try done.
  rewrite Z.compare_antisym. destruct (b2Z x ?= b2Z y); simpl; auto.
Qed.

Lemma bytes_cmp_lt_trans a b c :
  bytes_cmp a b = Lt → bytes_cmp b c = Lt → bytes_cmp a c = Lt.
Proof.
  revert b c. induction a as [|x a IH]; intros [|y b] [|z c]; simpl; try done.
  destruct (Z.compare_spec (b2Z x) (b2Z y)) as [E1|E1|E1];
  destruct (Z.compare_spec (b2Z y) (b2Z z)) as [E2|E2|E2];
  destruct (Z.compare_spec (b2Z x) (b2Z z)) as [E3|E3|E3]; try done; try lia.
  apply IH.
Qed.

Definition bytes_lt (a b : list byte) : Prop := bytes_cmp a b = Lt.
#[export] Instance bytes_lt_dec : RelDecision bytes_lt.
Proof. intros a b. unfold bytes_lt. apply _. Defined.
#[export] Instance bytes_lt_trans : Transitive bytes_lt.
Proof. intros a b c. apply bytes_cmp_lt_trans. Qed.
#[export] Instance bytes_lt_irrefl : Irreflexive bytes_lt.
Proof. intros a H. unfold bytes_lt in H. by rewrite bytes_cmp_refl in H. Qed.

Lemma bytes_lt_cmp_gt a b : bytes_cmp a b = Gt ↔ bytes_lt b a.
Proof. unfold bytes_lt. rewrite (bytes_cmp_antisym a b). by destruct (bytes_cmp a b). Qed.

Lemma bytes_trichotomy a b : bytes_lt a b ∨ a = b ∨ bytes_lt b a.
Proof.
  destruct (bytes_cmp a b) eqn:E.
  - right; left. by apply bytes_cmp_eq.
  - by left.
  - right; right. by apply bytes_lt_cmp_gt.
Qed.

Lemma bytes_ltb_spec a b : bytes_ltb a b = true ↔ bytes_lt a b.
Proof. unfold bytes_ltb, bytes_lt. by destruct (bytes_cmp a b). Qed.

Lemma bytes_leb_spec a b : bytes_leb a b = true ↔ ¬ bytes_lt b a.
Proof.
  unfold bytes_leb, bytes_lt. rewrite (bytes_cmp_antisym a b). by destruct (bytes_cmp a b).
Qed.

Lemma bytes_le_lt_trans a b c : ¬ bytes_lt b a → bytes_lt b c → bytes_lt a c.
Proof. intros H1 H2. destruct (bytes_trichotomy a b) as [?|[->|?]]; [by etrans|done|done]. Qed.

Lemma bytes_lt_le_trans a b c : bytes_lt a b → ¬ bytes_lt c b → bytes_lt a c.
Proof. intros H1 H2. destruct (bytes_trichotomy b c) as [?|[->|?]]; [by etrans|done|done]. Qed.

Lemma bytes_eqb_spec a b : bytes_eqb a b = true ↔ a = b.
Proof. unfold bytes_eqb. apply bool_decide_eq_true. Qed.

(** ** Lists *)

(** [filter] looks at the elements only. *)
Lemma list_filter_ext_in {A} (P Q : A → Prop) `{∀ x, Decision (P x), ∀ x, Decision (Q x)} (l : list A) :
  (∀ x, x ∈ l → P x ↔ Q x) → filter P l = filter Q l.
Proof.
  induction l as [|x l IH]; intros HPQ; [done|]. rewrite !filter_cons.
  assert (P x ↔ Q x) as Hx by (apply HPQ; set_solver). rewrite IH by (intros; apply HPQ; set_solver).
  destruct (decide (P x)), (decide (Q x)); naive_solver.
Qed.

Lemma list_filter_nil {A} (P : A → Prop) `{∀ x, Decision (P x)} (l : list A) :
  (∀ x, x ∈ l → ¬ P x) → filter P l = [].
Proof.
  induction l as [|x l IH]; intros Hn; [done|]. rewrite filter_cons_False by (apply Hn; left).
  apply IH. intros y Hy. apply Hn. by right.
Qed.

Lemma sorted_lookup {A} (R : relation A) l i j a b :
  StronglySorted R l → (i < j)%nat → l !! i = Some a → l !! j = Some b → R a b.
Proof.
  intros Hs. revert i j. induction Hs as [|x l Hs IH Hx]; intros i j Hij Ha Hb; [done|].
  destruct j as [|j]; [lia|]. cbn in Hb. destruct i as [|i]; cbn in Ha.
  - injection Ha as ->. rewrite Forall_lookup in Hx. by eapply Hx.
  - apply (IH i j); [lia|done|done].
Qed.

(** ** Automation *)

(** Decompose an equation and close its arithmetic leaves. *)
Ltac f_equal_lia := repeat first [reflexivity | lia | progress f_equal].

(** Length arithmetic: normalise every [length] and finish with [lia]. *)
Create HintDb lens.
#[export] Hint Rewrite @length_app @length_take @length_drop @length_replicate
  @length_reverse @length_insert length_to_le length_to_be : lens.
Ltac len :=
  repeat (progress (cbn [length] in *; autorewrite with lens in *)); cbn [length] in *; lia.

Lemma elem_of_concat {A} (x : A) (ls : list (list A)) : x ∈ concat ls ↔ ∃ l, l ∈ ls ∧ x ∈ l.
Proof.
  rewrite list_elem_of_In, List.in_concat. by setoid_rewrite <-list_elem_of_In.
Qed.
