(* ===== verification/Text.v ===== *)
(** Rust strings: a [str] or [String] is its list of characters (Unicode scalar
    values); UTF-8 encoding ([as_bytes]), validation and lossy decoding
    ([String::from_utf8_lossy], [read_to_string]), [trim], [lines], and the
    numbers the engine prints and parses: [{:06}], [{:08x}], [str::parse::<u64>]
    and [u32::from_str_radix(_, 16)]. *)

From S2P Require Import Prelude.

Local Open Scope Z_scope.

Abbreviation text := (list Z).

(** The characters of an ASCII literal. *)
Definition lit (s : string) : text := (λ a, Z.of_N (Ascii.N_of_ascii a)) <$> String.list_ascii_of_string s.

(** * UTF-8 *)

Definition encode_char (c : Z) : list byte :=
  if c <? 128 then [Z2b c]
  else if c <? 2048 then [Z2b (192 + c / 64); Z2b (128 + c mod 64)]
  else if c <? 65536 then [Z2b (224 + c / 4096); Z2b (128 + c / 64 mod 64); Z2b (128 + c mod 64)]
  else [Z2b (240 + c / 262144); Z2b (128 + c / 4096 mod 64); Z2b (128 + c / 64 mod 64); Z2b (128 + c mod 64)].

Definition as_bytes (t : text) : list byte := t ≫= encode_char.

(** [safe_get(i) & 192 == 128] *)
Definition is_cont (b : byte) : bool := (128 <=? b2Z b) && (b2Z b <? 192).

(** The second byte a three- or four-byte head accepts. *)
Definition second_ok (head second : Z) : bool :=
  (head =? 224) && (160 <=? second) && (second <=? 191) ||
  (225 <=? head) && (head <=? 236) && (128 <=? second) && (second <=? 191) ||
  (head =? 237) && (128 <=? second) && (second <=? 159) ||
  (238 <=? head) && (head <=? 239) && (128 <=? second) && (second <=? 191) ||
  (head =? 240) && (144 <=? second) && (second <=? 191) ||
  (241 <=? head) && (head <=? 243) && (128 <=? second) && (second <=? 191) ||
  (head =? 244) && (128 <=? second) && (second <=? 143).

(** [utf8_char_width] *)
Definition char_width (b : Z) : nat :=
  if b <? 128 then 1
  else if (194 <=? b) && (b <=? 223) then 2
  else if (224 <=? b) && (b <=? 239) then 3
  else if (240 <=? b) && (b <=? 244) then 4
  else 0.

(** The characters of a byte string, [None] for each ill-formed part that
    [Utf8Chunks] reports. *)
Fixpoint utf8_chunks (l : list byte) : list (option Z) :=
  match l with
  | [] => []
  | a :: l1 =>
      let a' := b2Z a in
      match char_width a' with
      | 1%nat => Some a' :: utf8_chunks l1
      | 2%nat =>
          match l1 with
          | b :: l2 => if is_cont b then Some ((a' - 192) * 64 + (b2Z b - 128)) :: utf8_chunks l2 else None :: utf8_chunks l1
          | [] => [None]
          end
      | 3%nat =>
          match l1 with
          | b :: l2 =>
              if second_ok a' (b2Z b) then
                match l2 with
                | c :: l3 =>
                    if is_cont c then Some ((a' - 224) * 4096 + (b2Z b - 128) * 64 + (b2Z c - 128)) :: utf8_chunks l3
                    else None :: utf8_chunks l2
                | [] => [None]
                end
              else None :: utf8_chunks l1
          | [] => [None]
          end
      | 4%nat =>
          match l1 with
          | b :: l2 =>
              if second_ok a' (b2Z b) then
                match l2 with
                | c :: l3 =>
                    if is_cont c then
                      match l3 with
                      | d :: l4 =>
                          if is_cont d
                          then Some ((a' - 240) * 262144 + (b2Z b - 128) * 4096 + (b2Z c - 128) * 64 + (b2Z d - 128)) :: utf8_chunks l4
                          else None :: utf8_chunks l3
                      | [] => [None]
                      end
                    else None :: utf8_chunks l2
                | [] => [None]
                end
              else None :: utf8_chunks l1
          | [] => [None]
          end
      | _ => None :: utf8_chunks l1
      end
  end.

(** [String::from_utf8_lossy] and the validation of [read_to_string]. *)
Definition REPLACEMENT : Z := 65533.
Definition from_utf8_lossy (l : list byte) : text := from_option id REPLACEMENT <$> utf8_chunks l.
Definition from_utf8 (l : list byte) : option text := mapM id (utf8_chunks l).

(** * Whitespace and lines *)

(** [char::is_whitespace] *)
Definition is_whitespace (c : Z) : bool :=
  (9 <=? c) && (c <=? 13) || (c =? 32) || (c =? 133) || (c =? 160) || (c =? 5760) ||
  (8192 <=? c) && (c <=? 8202) || (c =? 8232) || (c =? 8233) || (c =? 8239) || (c =? 8287) || (c =? 12288).

Fixpoint trim_start (t : text) : text :=
  match t with
  | c :: t' => if is_whitespace c then trim_start t' else t
  | [] => []
  end.
Definition trim_end (t : text) : text := reverse (trim_start (reverse t)).
Definition trim (t : text) : text := trim_end (trim_start t).

(** [str::lines]: pieces that end with a line feed or the end of the text, a
    carriage return before the line feed removed, no last empty piece. *)
Fixpoint split_lines (cur : text) (t : text) : list text :=
  match t with
  | [] => if bool_decide (cur = []) then [] else [cur]
  | c :: t =>
      if c =? 10 then (match reverse cur with 13 :: r => reverse r | _ => cur end) :: split_lines [] t
      else split_lines (cur ++ [c]) t
  end.
Definition lines (t : text) : list text := split_lines [] t.

Definition text_starts_with (t p : text) : bool := bool_decide (take (length p) t = p).
Definition strip_suffix (t p : text) : option text :=
  if bool_decide (drop (length t - length p) t = p) && (length p <=? length t)%nat
  then Some (take (length t - length p) t) else None.
Fixpoint text_contains (t p : text) : bool :=
  text_starts_with t p || match t with [] => false | _ :: t => text_contains t p end.
Definition contains_char (t : text) (c : Z) : bool := existsb (Z.eqb c) t.

(** * Numbers *)

(** Digits of a number, most significant first, in at most [fuel] digits. *)
Fixpoint digits (fuel : nat) (base n : Z) : list Z :=
  match fuel with
  | O => []
  | S f => if n <? base then [n] else digits f base (n / base) ++ [n mod base]
  end.

Definition digit_char (d : Z) : Z := if d <? 10 then 48 + d else 87 + d.

(** [{:06}] of a [u64] and [{:08x}] of a [u32]. *)
Definition pad_zero (width : nat) (t : text) : text := replicate (width - length t) 48 ++ t.
Definition fmt_06 (n : Z) : text := pad_zero 6 (digit_char <$> digits 20 10 n).
Definition fmt_08x (n : Z) : text := pad_zero 8 (digit_char <$> digits 8 16 n).

(** [char::to_digit(radix)] *)
Definition to_digit (base c : Z) : option Z :=
  let d := if (48 <=? c) && (c <=? 57) then Some (c - 48)
           else if (97 <=? c) && (c <=? 122) then Some (c - 87)
           else if (65 <=? c) && (c <=? 90) then Some (c - 55)
           else None in
  d ← d; if d <? base then Some d else None.

Fixpoint parse_digits (base max acc : Z) (t : text) : option Z :=
  match t with
  | [] => Some acc
  | c :: t => d ← to_digit base c; let acc := acc * base + d in if acc <=? max then parse_digits base max acc t else None
  end.

(** [from_str_radix] of an unsigned type: an optional plus sign, at least one
    digit, no overflow. *)
Definition from_str_radix (base max : Z) (t : text) : option Z :=
  let t := match t with 43 :: c :: r => c :: r | _ => t end in
  match t with [] => None | _ => parse_digits base max 0 t end.

(** * Lemmas *)

(** A [char]. *)
Definition is_char (c : Z) : Prop := 0 ≤ c < 55296 ∨ 57344 ≤ c < 1114112.

Lemma b2Z_Z2b_byte z : 0 ≤ z < 256 → b2Z (Z2b z) = z.
Proof. apply b2Z_Z2b_small. Qed.

Lemma is_cont_low z : 0 ≤ z < 64 → is_cont (Z2b (128 + z)) = true.
Proof. intros. unfold is_cont. rewrite b2Z_Z2b_byte by lia. lia. Qed.

Lemma mod64 z : 0 ≤ z mod 64 < 64.
Proof. apply Z.mod_pos_bound. lia. Qed.

Lemma char_width_of z n :
  (0 ≤ z < 128 ∧ n = 1%nat) ∨ (194 ≤ z ≤ 223 ∧ n = 2%nat) ∨ (224 ≤ z ≤ 239 ∧ n = 3%nat) ∨ (240 ≤ z ≤ 244 ∧ n = 4%nat) →
  char_width z = n.
Proof. unfold char_width. intros H. repeat (case_match; [lia|]). lia. Qed.

Lemma second_ok_of a b :
  128 ≤ b ≤ 191 ∧ (a = 224 ∧ 160 ≤ b ∨ 225 ≤ a ≤ 236 ∨ a = 237 ∧ b ≤ 159 ∨ 238 ≤ a ≤ 239 ∨ a = 240 ∧ 144 ≤ b ∨
    241 ≤ a ≤ 243 ∨ a = 244 ∧ b ≤ 143) → second_ok a b = true.
Proof. unfold second_ok. lia. Qed.

Lemma encode_char_chunks c l : is_char c → utf8_chunks (encode_char c ++ l) = Some c :: utf8_chunks l.
Proof.
  intros Hc. unfold encode_char. pose proof (mod64 c) as H0. pose proof (mod64 (c / 64)) as H1. pose proof (mod64 (c / 4096)) as H2.
  assert (c = c / 64 * 64 + c mod 64) as E0 by (pose proof (Z.div_mod c 64); lia).
  assert (c / 64 = c / 4096 * 64 + c / 64 mod 64) as E1.
  { pose proof (Z.div_mod (c / 64) 64). rewrite Z.div_div in H by lia. change (64 * 64) with 4096 in H. lia. }
  assert (c / 4096 = c / 262144 * 64 + c / 4096 mod 64) as E2.
  { pose proof (Z.div_mod (c / 4096) 64). rewrite Z.div_div in H by lia. change (4096 * 64) with 262144 in H. lia. }
  unfold is_char in Hc.
  destruct (Z.ltb_spec c 128); [|destruct (Z.ltb_spec c 2048); [|destruct (Z.ltb_spec c 65536)]]; cbn [app utf8_chunks].
  - by rewrite b2Z_Z2b_byte, (char_width_of c 1) by lia.
  - rewrite (b2Z_Z2b_byte (192 + c / 64)), (char_width_of _ 2) by lia. rewrite is_cont_low, b2Z_Z2b_byte by lia.
    do 2 f_equal. lia.
  - rewrite (b2Z_Z2b_byte (224 + c / 4096)), (char_width_of _ 3) by lia.
    rewrite is_cont_low, (b2Z_Z2b_byte (128 + c / 64 mod 64)), (b2Z_Z2b_byte (128 + c mod 64)) by lia.
    rewrite second_ok_of by lia. do 2 f_equal. lia.
  - rewrite (b2Z_Z2b_byte (240 + c / 262144)), (char_width_of _ 4) by lia.
    rewrite (b2Z_Z2b_byte (128 + c / 4096 mod 64)), (b2Z_Z2b_byte (128 + c / 64 mod 64)), (b2Z_Z2b_byte (128 + c mod 64)) by lia.
    rewrite !is_cont_low, second_ok_of by lia. do 2 f_equal. lia.
Qed.

Lemma utf8_round_trip t : Forall is_char t → utf8_chunks (as_bytes t) = Some <$> t.
Proof.
  induction 1 as [|c t Hc Ht IH]; [done|]. change (as_bytes (c :: t)) with (encode_char c ++ as_bytes t).
  rewrite encode_char_chunks by done. by rewrite IH.
Qed.

Lemma from_utf8_lossy_as_bytes t : Forall is_char t → from_utf8_lossy (as_bytes t) = t.
Proof.
  intros Ht. unfold from_utf8_lossy. rewrite utf8_round_trip by done. rewrite <-list_fmap_compose. apply list_fmap_id.
Qed.

Lemma from_utf8_as_bytes t : Forall is_char t → from_utf8 (as_bytes t) = Some t.
Proof.
  intros Ht. unfold from_utf8. rewrite utf8_round_trip by done. clear Ht. induction t as [|c t IH]; [done|].
  cbn [fmap list_fmap mapM]. cbn. by rewrite IH.
Qed.

Lemma as_bytes_app a b : as_bytes (a ++ b) = as_bytes a ++ as_bytes b.
Proof. unfold as_bytes. apply bind_app. Qed.

(** ** Numbers *)

Lemma digits_bound fuel base n : 1 < base → 0 ≤ n → Forall (λ d, 0 ≤ d < base) (digits fuel base n).
Proof.
  intros Hb. revert n. induction fuel as [|f IH]; intros n Hn; [constructor|]. cbn.
  destruct (Z.ltb_spec n base); [repeat constructor; lia|]. apply Forall_app. split; [apply IH, Z.div_pos; lia|].
  repeat constructor; apply Z.mod_pos_bound; lia.
Qed.

Lemma digits_ne fuel base n : (0 < fuel)%nat → digits fuel base n ≠ [].
Proof. destruct fuel as [|f]; [lia|]. intros _. cbn. case_match; [done|]. by intros [_ ?]%app_nil. Qed.

Lemma to_digit_char base d : 0 ≤ d < base → base ≤ 36 → to_digit base (digit_char d) = Some d.
Proof.
  intros Hd Hb. unfold to_digit, digit_char. destruct (Z.ltb_spec d 10).
  - rewrite (proj2 (andb_true_iff _ _)) by lia. cbn. rewrite (proj2 (Z.ltb_lt _ _)) by lia. f_equal. lia.
  - rewrite (proj2 (andb_false_iff _ _)) by lia. rewrite (proj2 (andb_true_iff _ _)) by lia. cbn.
    rewrite (proj2 (Z.ltb_lt _ _)) by lia. f_equal. lia.
Qed.

Lemma parse_digits_app base max acc a b :
  parse_digits base max acc (a ++ b) = (r ← parse_digits base max acc a; parse_digits base max r b).
Proof.
  revert acc. induction a as [|c a IH]; intros acc; [done|]. cbn. destruct (to_digit base c) as [d|]; [|done]. cbn.
  case_match; [apply IH|done].
Qed.

Lemma parse_zeros base max k t : 1 < base → 0 ≤ max → parse_digits base max 0 (replicate k 48 ++ t) = parse_digits base max 0 t.
Proof.
  intros Hb Hm. induction k as [|k IH]; [done|]. cbn [replicate app parse_digits].
  change (to_digit base 48) with (if 0 <? base then Some 0 else None). rewrite (proj2 (Z.ltb_lt _ _)) by lia. cbn.
  by rewrite (proj2 (Z.leb_le _ _)) by lia.
Qed.

Lemma parse_digits_digits fuel base max n :
  1 < base ≤ 36 → 0 ≤ n ≤ max → n < base ^ Z.of_nat fuel → (0 < fuel)%nat →
  parse_digits base max 0 (digit_char <$> digits fuel base n) = Some n.
Proof.
  intros Hb. revert n. induction fuel as [|f IH]; intros n Hn Hlt Hf; [lia|]. cbn [digits].
  destruct (Z.ltb_spec n base) as [Hs|Hs].
  - cbn. rewrite to_digit_char by lia. cbn. by rewrite (proj2 (Z.leb_le _ _)) by lia.
  - rewrite Nat2Z.inj_succ, Z.pow_succ_r in Hlt by lia. pose proof (Z.div_mod n base).
    pose proof (Z.mod_pos_bound n base). assert (0 ≤ n / base) by (apply Z.div_pos; lia).
    assert (n / base < base ^ Z.of_nat f) by (apply Z.div_lt_upper_bound; lia).
    assert (n / base ≤ n) by (apply Z.div_le_upper_bound; nia).
    assert (0 < f)%nat. { destruct f; [|lia]. cbn in *. lia. }
    rewrite fmap_app, parse_digits_app, IH by lia. cbn. rewrite to_digit_char by lia. cbn.
    rewrite (proj2 (Z.leb_le _ _)) by nia. f_equal. lia.
Qed.

Lemma from_str_radix_padded width fuel base max n :
  1 < base ≤ 36 → 0 ≤ n ≤ max → n < base ^ Z.of_nat fuel → (0 < fuel)%nat →
  from_str_radix base max (pad_zero width (digit_char <$> digits fuel base n)) = Some n.
Proof.
  intros Hb Hn Hlt Hf. unfold from_str_radix, pad_zero. set (t := digit_char <$> _).
  assert (∀ c, c ∈ t → c ≠ 43) as Hne.
  { intros c (d & -> & Hd)%list_elem_of_fmap. pose proof (digits_bound fuel base n ltac:(lia) ltac:(lia)) as Hall.
    rewrite Forall_forall in Hall. specialize (Hall d Hd). unfold digit_char. case_match; lia. }
  assert (t ≠ []) as Htne by (intros Ht%fmap_nil_inv; by apply (digits_ne fuel base n) in Ht).
  set (u := replicate _ 48 ++ t).
  assert (head u ≠ Some 43) as Hhead.
  { unfold u. destruct (width - length t)%nat; cbn; [|done]. destruct t as [|c t']; [done|]. cbn. intros [= ->]. by apply (Hne 43); [left|]. }
  assert (u ≠ []) as Hu by (by intros [_ ?]%app_nil).
  assert (match u with 43 :: c :: r => c :: r | _ => u end = u) as ->.
  { destruct u as [|c u']; [done|]. cbn in Hhead. do 8 (destruct c as [|c|c]; try done). }
  assert (parse_digits base max 0 u = Some n) as Hp by (unfold u; rewrite parse_zeros by lia; by apply parse_digits_digits).
  by destruct u.
Qed.
