(* ===== verification/SliceOps.v ===== *)
(** The slice operations of the Rust standard library that the engine's
    in-memory indexes use: the stable [sort_by], [binary_search_by] (the
    halving loop of the pinned toolchain, 1.97), [windows(2)] tests and
    [Iterator::min]. *)

From S2P Require Import Prelude.

(** * Stable sorting *)

Section sort.
Context {A : Type} (cmp : A → A → comparison).

(** Behind every element that is not greater. *)
Fixpoint insert_by (x : A) (l : list A) : list A :=
  match l with
  | [] => [x]
  | y :: l' => match cmp y x with Gt => x :: l | _ => y :: insert_by x l' end
  end.

(** [slice::sort_by]: the stable order, which is unique. *)
Definition sort_by (l : list A) : list A := foldl (λ acc x, insert_by x acc) [] l.

Lemma insert_by_perm x l : insert_by x l ≡ₚ x :: l.
Proof. induction l as [|y l IH]; cbn; [done|]. destruct (cmp y x); [| |done]; rewrite IH; apply Permutation_swap. Qed.

Lemma sort_by_perm l : sort_by l ≡ₚ l.
Proof.
  unfold sort_by. assert (∀ acc, foldl (λ acc x, insert_by x acc) acc l ≡ₚ acc ++ l) as H; [|by rewrite H].
  induction l as [|x l IH]; intros acc; cbn; [by rewrite app_nil_r|].
  rewrite IH, insert_by_perm. cbn. by rewrite Permutation_middle.
Qed.

(** A comparison that is a total preorder. *)
Definition not_after (a b : A) : Prop := cmp a b ≠ Gt.
Context (cmp_anti : ∀ a b, cmp b a = CompOpp (cmp a b)).
Context (cmp_trans : ∀ a b c, not_after a b → not_after b c → not_after a c).

Lemma insert_by_sorted x l : StronglySorted not_after l → StronglySorted not_after (insert_by x l).
Proof using cmp_anti cmp_trans.
  induction l as [|y l IH]; intros Hs; cbn; [by repeat constructor|]. pose proof Hs as [Hs' Hy]%StronglySorted_inv.
  assert (cmp y x = Gt → not_after x y) as Hxy by (unfold not_after; rewrite (cmp_anti y x); by intros ->).
  destruct (cmp y x) eqn:E.
  3: { constructor; [done|]. constructor; [by apply Hxy|]. eapply Forall_impl; [exact Hy|]. intros z. by apply cmp_trans, Hxy. }
  all: (constructor; [by apply IH|]); rewrite insert_by_perm; constructor; [unfold not_after; by rewrite E|done].
Qed.

Lemma sort_by_sorted l : StronglySorted not_after (sort_by l).
Proof using cmp_anti cmp_trans.
  unfold sort_by. assert (∀ acc, StronglySorted not_after acc → StronglySorted not_after (foldl (λ acc x, insert_by x acc) acc l)) as H.
  { induction l as [|x l IH]; intros acc Hacc; [done|]. cbn. by apply IH, insert_by_sorted. }
  apply H. constructor.
Qed.

End sort.

(** Sorting a sorted slice changes nothing. *)
Lemma insert_by_last {A} (cmp : A → A → comparison) x l :
  Forall (λ y, cmp y x ≠ Gt) l → insert_by cmp x l = l ++ [x].
Proof. induction 1 as [|y l Hy _ IH]; cbn; [done|]. destruct (cmp y x); try done; by rewrite IH. Qed.

Lemma sort_by_id {A} (cmp : A → A → comparison) l : StronglySorted (not_after cmp) l → sort_by cmp l = l.
Proof.
  unfold sort_by. assert (∀ acc, StronglySorted (not_after cmp) (acc ++ l) → foldl (λ acc x, insert_by cmp x acc) acc l = acc ++ l) as H.
  2: { intros Hs. by apply (H []). }
  induction l as [|x l IH]; intros acc Hs; cbn; [by rewrite app_nil_r|].
  rewrite insert_by_last; [rewrite IH; [by rewrite <-app_assoc|by rewrite <-app_assoc]|].
  clear IH. induction acc as [|a acc IH']; [constructor|]. cbn in Hs. apply StronglySorted_inv in Hs as [Hs Ha]. constructor; [|by apply IH'].
  apply Forall_app in Ha as [_ Ha]. by apply Forall_cons in Ha as [Ha _].
Qed.

(** * Binary search *)

(** The loop of [slice::binary_search_by]: [base] and [size]. *)
Fixpoint bsearch_loop {A} (fuel : nat) (f : A → comparison) (l : list A) (base size : nat) : nat :=
  match fuel with
  | O => base
  | S fuel =>
      if (size <=? 1)%nat then base
      else
        let half := (size / 2)%nat in
        let mid := (base + half)%nat in
        let base := match f <$> l !! mid with Some Gt => base | _ => mid end in
        bsearch_loop fuel f l base (size - half)
  end.

(** [Ok] is an index that compares equal, [Err] where it would be inserted. *)
Definition binary_search_by {A} (f : A → comparison) (l : list A) : Result nat nat :=
  if (length l =? 0)%nat then Err 0%nat
  else
    let base := bsearch_loop (length l) f l 0 (length l) in
    match f <$> l !! base with
    | Some Eq => Ok base
    | Some Lt => Err (S base)
    | _ => Err base
    end.

(** [Ok(i) | Err(i) => i]. *)
Definition either_index (r : Result nat nat) : nat := match r with Ok i | Err i => i end.

(** The comparison answers less, then equal, then greater. *)
Definition monotone {A} (f : A → comparison) (l : list A) : Prop :=
  ∀ i j a b, (i < j)%nat → l !! i = Some a → l !! j = Some b →
    (f a = Gt → f b = Gt) ∧ (f b = Lt → f a = Lt).

Lemma bsearch_loop_ok {A} (f : A → comparison) l fuel base size :
  monotone f l → (1 ≤ size ≤ fuel)%nat → (base + size ≤ length l)%nat →
  (∀ j a, (j < base)%nat → l !! j = Some a → f a ≠ Gt) → (base = 0%nat ∨ ∃ a, l !! base = Some a ∧ f a ≠ Gt) →
  (∀ j a, (base + size ≤ j)%nat → l !! j = Some a → f a = Gt) →
  let r := bsearch_loop fuel f l base size in
  (r < length l)%nat ∧ (∀ j a, (j < r)%nat → l !! j = Some a → f a ≠ Gt) ∧ (r = 0%nat ∨ ∃ a, l !! r = Some a ∧ f a ≠ Gt) ∧
  (∀ j a, (r < j)%nat → l !! j = Some a → f a = Gt).
Proof.
  intros Hm. revert base size. induction fuel as [|fuel IH]; intros base size Hsz Hlen Hlo Hb Hhi; [lia|]. cbn [bsearch_loop].
  destruct (Nat.leb_spec size 1).
  { split; [lia|]. split; [done|]. split; [done|]. intros j a Hj. apply Hhi. lia. }
  pose proof (Nat.div_mod_eq size 2) as Hdiv. pose proof (Nat.mod_upper_bound size 2 ltac:(lia)) as Hmod.
  destruct (lookup_lt_is_Some_2 l (base + size / 2)) as [x Hx]; [lia|]. rewrite Hx. cbn [fmap option_fmap option_map].
  assert (f x ≠ Gt → let r := bsearch_loop fuel f l (base + size / 2) (size - size / 2) in
    (r < length l)%nat ∧ (∀ j a, (j < r)%nat → l !! j = Some a → f a ≠ Gt) ∧ (r = 0%nat ∨ ∃ a, l !! r = Some a ∧ f a ≠ Gt) ∧
    (∀ j a, (r < j)%nat → l !! j = Some a → f a = Gt)) as Hup.
  { intros Hf. apply IH; [lia|lia| |by right; exists x|intros j a Hj; apply Hhi; lia].
    intros j a Hj Ha Hc. apply Hf. by apply (proj1 (Hm j _ a x Hj Ha Hx)). }
  destruct (f x) eqn:E; [by apply Hup|by apply Hup|]. apply IH; [lia|lia|done|done|].
  intros j a Hj Ha. destruct (decide (j = base + size / 2)%nat) as [->|]; [congruence|].
  apply (proj1 (Hm (base + size / 2)%nat j x a ltac:(lia) Hx Ha) E).
Qed.

Lemma binary_search_ok {A} (f : A → comparison) l :
  monotone f l →
  match binary_search_by f l with
  | Ok i => ∃ x, l !! i = Some x ∧ f x = Eq ∧ ∀ j y, (i < j)%nat → l !! j = Some y → f y = Gt
  | Err i => (i ≤ length l)%nat ∧ (∀ j y, (j < i)%nat → l !! j = Some y → f y = Lt) ∧ (∀ j y, (i ≤ j)%nat → l !! j = Some y → f y = Gt)
  end.
Proof.
  intros Hm. unfold binary_search_by. destruct (Nat.eqb_spec (length l) 0) as [H0|H0].
  { apply nil_length_inv in H0 as ->. split; [done|]. by split; intros j y _ Hy. }
  destruct (bsearch_loop_ok f l (length l) 0 (length l)) as (Hr & Hlo & Hb & Hhi); [done|lia|lia|by intros j a ?%Nat.nlt_0_r|by left| |].
  { intros j a Hj Ha%lookup_lt_Some. lia. }
  set (r := bsearch_loop _ _ _ _ _) in *. destruct (lookup_lt_is_Some_2 l r Hr) as [x Hx]. rewrite Hx. cbn.
  destruct (f x) eqn:E.
  - exists x. split; [done|]. split; [done|]. intros j y Hj. by apply Hhi.
  - split; [lia|]. split; [|intros j y Hj; apply Hhi; lia]. intros j y Hj Hy.
    destruct (decide (j = r)) as [->|]; [congruence|]. apply (proj2 (Hm j r y x ltac:(lia) Hy Hx) E).
  - destruct Hb as [Hb|(a & Ha & Hc)]; [|congruence]. rewrite Hb in *. split; [lia|]. split; [by intros j y ?%Nat.nlt_0_r|].
    intros j y Hj Hy. destruct (decide (j = 0%nat)) as [->|]; [congruence|]. apply (Hhi j); [lia|done].
Qed.

(** A search in strictly increasing keys. *)
Definition key_at (uk : list byte) (k : list byte) : comparison := bytes_cmp k uk.

Lemma key_at_monotone uk keys : StronglySorted bytes_lt keys → monotone (key_at uk) keys.
Proof.
  intros Hs i j a b Hij Ha Hb. pose proof (sorted_lookup _ _ _ _ _ _ Hs Hij Ha Hb) as Hab. unfold key_at. split.
  - intros Hg%bytes_lt_cmp_gt. apply bytes_lt_cmp_gt. by etrans.
  - intros Hl. change (bytes_lt a uk). by etrans.
Qed.

Lemma search_key_ok uk keys : StronglySorted bytes_lt keys →
  match binary_search_by (key_at uk) keys with
  | Ok i => keys !! i = Some uk
  | Err i => uk ∉ keys ∧ (i ≤ length keys)%nat
  end.
Proof.
  intros Hs. pose proof (binary_search_ok (key_at uk) keys (key_at_monotone uk keys Hs)) as H.
  destruct (binary_search_by _ _) as [i|i].
  - destruct H as (x & Hx & Heq & _). by apply bytes_cmp_eq in Heq as <-.
  - destruct H as (Hi & Hlo & Hhi). split; [|done]. intros (j & Hj)%list_elem_of_lookup.
    destruct (decide (j < i)%nat) as [Hlt|Hge]; [specialize (Hlo j uk Hlt Hj)|specialize (Hhi j uk ltac:(lia) Hj)];
      unfold key_at in *; by rewrite bytes_cmp_refl in *.
Qed.

(** * Windows *)

(** [windows(2).all(p)] and [windows(2).any(p)]. *)
Fixpoint windows_all {A} (p : A → A → bool) (l : list A) : bool :=
  match l with
  | a :: (b :: _) as l' => p a b && windows_all p l'
  | _ => true
  end.
Definition windows_any {A} (p : A → A → bool) (l : list A) : bool := negb (windows_all (λ a b, negb (p a b)) l).

Lemma windows_all_sorted {A} (p : A → A → bool) (R : relation A) `{!Transitive R} l :
  (∀ a b, p a b = true ↔ R a b) → windows_all p l = true ↔ StronglySorted R l.
Proof.
  intros Hp. induction l as [|a [|b l] IH]; [split; [constructor|done]|split; [repeat constructor|done]|].
  change (p a b && windows_all p (b :: l) = true ↔ StronglySorted R (a :: b :: l)). rewrite andb_true_iff, IH, Hp. split.
  - intros [Hab Hs]. constructor; [done|]. apply StronglySorted_inv in Hs as [_ Hb]. constructor; [done|].
    eapply Forall_impl; [exact Hb|]. intros c. by etrans.
  - intros [Hs Ha]%StronglySorted_inv. by apply Forall_cons in Ha as [Ha _].
Qed.

(** [Iterator::min] on keys. *)
Definition min_key (l : list (list byte)) : option (list byte) :=
  foldl (λ m k, match m with Some b => Some (if bytes_ltb k b then k else b) | None => Some k end) None l.

Lemma min_key_ok l : match min_key l with
  | None => l = []
  | Some m => m ∈ l ∧ ∀ k, k ∈ l → ¬ bytes_lt k m
  end.
Proof.
  unfold min_key. induction l as [|k l IH] using rev_ind; [done|]. rewrite foldl_app. cbn. destruct (foldl _ _ _) as [m|].
  - destruct IH as [Hm Hmin]. destruct (bytes_ltb k m) eqn:E.
    + apply bytes_ltb_spec in E. split; [set_solver|]. intros x [Hx|Hx%list_elem_of_singleton]%elem_of_app; [|subst; apply irreflexivity, _].
      intros Hc. apply (Hmin x Hx). by etrans.
    + split; [set_solver|]. intros x [Hx|Hx%list_elem_of_singleton]%elem_of_app; [by apply Hmin|]. subst.
      rewrite <-bytes_ltb_spec. congruence.
  - subst. split; [set_solver|]. intros x ->%list_elem_of_singleton. apply irreflexivity, _.
Qed.
