(* ===== verification/BulkIngest.v ===== *)
(** The sorted-ingest latch ([bulk_ingest_kernel.rs]): the decision kernel that
    routes the batches of an append-only family past the memtable ladder.

    The latch keeps, for every family, a state (probing, latched, dead) and a
    high-water key; each observed batch is judged and ratchets the high water.
    The diagnostic counters are unbounded here ([u64] in the code). *)

From S2P Require Import Prelude SliceOps.

Local Open Scope Z_scope.

Definition BULK_LATCH_STREAK : Z := 8.
Definition BULK_NEARLY_SORTED_WINDOW : nat := 8.

(** A family's name. *)
Abbreviation Family := (list byte).

Inductive BulkOp :=
| BulkPut (family : Family) (key : list byte)
| BulkDelete (family : Family) (key : list byte)
| BulkDeleteRange (start_family : Family) (start : list byte) (end_family : Family) (end_ : list byte).

(** [BulkOp::families] *)
Definition op_families (op : BulkOp) : Family * option Family :=
  match op with
  | BulkPut family _ | BulkDelete family _ => (family, None)
  | BulkDeleteRange start_family _ end_family _ => (start_family, Some end_family)
  end.

Inductive FamilyRoute := Ladder | Bulk.
Inductive FamilyState := Probing (streak : Z) | Latched | Dead.
Inductive Verdict := Admissible | Ineligible | Kill.
#[export] Instance family_state_eq_dec : EqDecision FamilyState.
Proof. solve_decision. Defined.

Record BulkLatch := mkLatch {
  threshold : Z;
  state : gmap Family FamilyState;
  high_water : gmap Family (list byte);
  bulk_batches : Z;
  ladder_batches : Z;
  killed : Z
}.

Definition latch_new : BulkLatch := mkLatch BULK_LATCH_STREAK ∅ ∅ 0 0 0.

Definition set_state (l : BulkLatch) (f : Family) (s : FamilyState) : BulkLatch :=
  mkLatch (threshold l) (<[f := s]> (state l)) (high_water l) (bulk_batches l) (ladder_batches l) (killed l).
Definition note_route (l : BulkLatch) (r : FamilyRoute) : BulkLatch :=
  match r with
  | Bulk => mkLatch (threshold l) (state l) (high_water l) (bulk_batches l + 1) (ladder_batches l) (killed l)
  | Ladder => mkLatch (threshold l) (state l) (high_water l) (bulk_batches l) (ladder_batches l + 1) (killed l)
  end.

Definition is_latched (l : BulkLatch) (f : Family) : bool := bool_decide (state l !! f = Some Latched).
Definition has_high_water (l : BulkLatch) (f : Family) : bool := bool_decide (is_Some (high_water l !! f)).

Definition kill (l : BulkLatch) (f : Family) : BulkLatch :=
  let k := if bool_decide (state l !! f = Some Dead) then killed l else killed l + 1 in
  mkLatch (threshold l) (<[f := Dead]> (state l)) (high_water l) (bulk_batches l) (ladder_batches l) k.

Definition ratchet (f : Family) (l : BulkLatch) (key : list byte) : BulkLatch :=
  let hw := match high_water l !! f with
            | Some e => if bytes_ltb e key then <[f := key]> (high_water l) else high_water l
            | None => <[f := key]> (high_water l)
            end in
  mkLatch (threshold l) (state l) hw (bulk_batches l) (ladder_batches l) (killed l).

Definition keys_have_duplicate (ops : list (bool * list byte)) : bool :=
  windows_any bytes_eqb (sort_by bytes_cmp ops.*2).

(** The scan of [judge]: an early verdict, or the number of inversions. *)
Fixpoint judge_loop (ops : list (bool * list byte)) (prev : option (list byte)) (inversions : nat) : Result Verdict nat :=
  match ops with
  | [] => Ok inversions
  | (is_put, key) :: ops =>
      if negb is_put then Err Ineligible
      else
        match prev with
        | None => judge_loop ops (Some key) inversions
        | Some p =>
            if bytes_eqb key p then Err Kill
            else if bytes_ltb key p then
              if (BULK_NEARLY_SORTED_WINDOW <? S inversions)%nat then Err Kill
              else judge_loop ops (Some key) (S inversions)
            else judge_loop ops (Some key) inversions
        end
  end.

(** [family_max_in_db] is the answer of the closure, which is pure. *)
Definition judge (l : BulkLatch) (family : Family) (st : FamilyState) (ops : list (bool * list byte))
    (spanning : bool) (family_max_in_db : option (list byte)) : Verdict :=
  if bool_decide (st = Dead) then Ineligible
  else if spanning then Ineligible
  else
    match judge_loop ops None 0 with
    | Err v => v
    | Ok inversions =>
        if negb (inversions =? 0)%nat && keys_have_duplicate ops then Kill
        else
          match min_key ops.*2 with
          | None => Ineligible
          | Some first =>
              match high_water l !! family with
              | Some hw => if bytes_leb first hw then Kill else Admissible
              | None =>
                  match family_max_in_db with
                  | Some max => if bytes_leb first max then Kill else Admissible
                  | None => Admissible
                  end
              end
          end
    end.

Definition classify_family (l : BulkLatch) (family : Family) (ops : list (bool * list byte)) (spanning : bool)
    (family_max_in_db : option (list byte)) : BulkLatch * FamilyRoute :=
  let st := default (Probing 0) (state l !! family) in
  match st with
  | Dead => (note_route l Ladder, Ladder)
  | _ =>
      let verdict := judge l family st ops spanning family_max_in_db in
      let l := foldl (ratchet family) l ops.*2 in
      match verdict with
      | Admissible =>
          let new_state := match st with
                           | Dead => Dead
                           | Latched => Latched
                           | Probing streak => if threshold l <=? streak + 1 then Latched else Probing (streak + 1)
                           end in
          let r := if bool_decide (new_state = Latched) then Bulk else Ladder in
          (note_route (set_state l family new_state) r, r)
      | Ineligible =>
          let l := if bool_decide (st = Latched) then l else set_state l family (Probing 0) in
          (note_route l Ladder, Ladder)
      | Kill => (note_route (kill l family) Ladder, Ladder)
      end
  end.

(** Pass 1 of [classify_batch]: the families in order of appearance, each one's
    operations, and the families a range deletion spans. *)
Record Grouped := mkGrouped {
  g_families : list Family;
  per_family : gmap Family (list (bool * list byte));
  g_spanning : gset Family
}.
Definition add_family (f : Family) (fs : list Family) : list Family :=
  if bool_decide (f ∈ fs) then fs else fs ++ [f].
Definition push_op (f : Family) (o : bool * list byte) (m : gmap Family (list (bool * list byte)))
    : gmap Family (list (bool * list byte)) :=
  <[f := default [] (m !! f) ++ [o]]> m.

Definition group_op (g : Grouped) (op : BulkOp) : Grouped :=
  let '(f1, f2) := op_families op in
  let fs := add_family f1 (g_families g) in
  let '(fs, sp) := match f2 with
                   | None => (fs, g_spanning g)
                   | Some f2 => (add_family f2 fs, if bool_decide (f2 = f1) then g_spanning g else {[f1; f2]} ∪ g_spanning g)
                   end in
  let pf := match op with
            | BulkPut family key => push_op family (true, key) (per_family g)
            | BulkDelete family key => push_op family (false, key) (per_family g)
            | BulkDeleteRange sf s ef e => push_op ef (false, e) (push_op sf (false, s) (per_family g))
            end in
  mkGrouped fs pf sp.
Definition group_ops (ops : list BulkOp) : Grouped := foldl group_op (mkGrouped [] ∅ ∅) ops.

(** Pass 2. *)
Definition classify_step (g : Grouped) (max : Family → option (list byte)) (a : BulkLatch * gmap Family FamilyRoute)
    (f : Family) : BulkLatch * gmap Family FamilyRoute :=
  let '(l, route) := classify_family a.1 f (default [] (per_family g !! f)) (bool_decide (f ∈ g_spanning g)) (max f) in
  (l, <[f := route]> a.2).
Definition classify_batch (l : BulkLatch) (ops : list BulkOp) (family_max_in_db : Family → option (list byte))
    : BulkLatch * gmap Family FamilyRoute :=
  let g := group_ops ops in
  foldl (classify_step g family_max_in_db) (l, ∅) (g_families g).

Definition observe_latched_span (l : BulkLatch) (family : Family) (keys : list (list byte)) : BulkLatch * FamilyRoute :=
  let slow := classify_family l family (pair true <$> keys) false None in
  if negb (is_latched l family) then slow
  else
    match keys with
    | [] => (l, Bulk)
    | k0 :: _ =>
        let ok := windows_all (λ a b, negb (bytes_leb b a)) keys &&
                  match high_water l !! family with Some hw => negb (bytes_leb k0 hw) | None => true end in
        if negb ok then slow
        else
          let l := match last keys with Some k => ratchet family l k | None => l end in
          (note_route l Bulk, Bulk)
    end.

(** * Observations

    What the engine shows the latch in a session: whole batches, the batches of
    one family, and spans of a latched family. *)
Inductive Observation :=
| ObsBatch (ops : list BulkOp) (family_max_in_db : Family → option (list byte))
| ObsFamily (family : Family) (ops : list (bool * list byte)) (family_max_in_db : option (list byte))
| ObsSpan (family : Family) (keys : list (list byte)).

Definition observe (l : BulkLatch) (o : Observation) : BulkLatch * gmap Family FamilyRoute :=
  match o with
  | ObsBatch ops max => classify_batch l ops max
  | ObsFamily f ops max => let '(l, r) := classify_family l f ops false max in (l, {[f := r]})
  | ObsSpan f keys => let '(l, r) := observe_latched_span l f keys in (l, {[f := r]})
  end.
Definition run (os : list Observation) : BulkLatch := foldl (λ l o, (observe l o).1) latch_new os.

(** The operations an observation shows on a family. *)
Definition seen (o : Observation) (f : Family) : list (bool * list byte) :=
  match o with
  | ObsBatch ops _ => default [] (per_family (group_ops ops) !! f)
  | ObsFamily g ops _ => if bool_decide (g = f) then ops else []
  | ObsSpan g keys => if bool_decide (g = f) then pair true <$> keys else []
  end.

(** * Lemmas *)

(** ** Judging *)

Lemma judge_loop_ok ops prev inv n : judge_loop ops prev inv = Ok n →
  Forall (λ o, o.1 = true) ops ∧ (inv ≤ n)%nat ∧ (n = inv → StronglySorted bytes_lt (option_list prev ++ ops.*2)).
Proof.
  revert prev inv. induction ops as [|[p k] ops IH]; intros prev inv; cbn [judge_loop].
  { intros [= <-]. split; [done|]. split; [done|]. intros _. destruct prev; cbn; repeat constructor. }
  destruct p; cbn [negb]; [|done]. destruct prev as [q|].
  - destruct (bytes_eqb k q) eqn:Ee; [done|]. destruct (bytes_ltb k q) eqn:El.
    + destruct (_ <? _)%nat; [done|]. intros (Hp & Hn & _)%IH. split; [by constructor|]. split; [lia|]. lia.
    + intros (Hp & Hn & Hs)%IH. split; [by constructor|]. split; [done|]. intros E. specialize (Hs E). cbn in *.
      assert (bytes_lt q k) as Hqk.
      { destruct (bytes_trichotomy q k) as [|[->|Hc%bytes_ltb_spec]]; [done| |congruence].
        by rewrite (proj2 (bytes_eqb_spec _ _)) in Ee. }
      constructor; [done|]. apply StronglySorted_inv in Hs as [_ Hk]. constructor; [done|].
      eapply Forall_impl; [exact Hk|]. intros x. by etrans.
  - intros (Hp & Hn & Hs)%IH. split; [by constructor|]. by split.
Qed.

Lemma strict_nodup (l : list (list byte)) : StronglySorted bytes_lt l → NoDup l.
Proof.
  induction 1 as [|k l _ IH Hk]; constructor; [|done]. intros Hin. rewrite Forall_forall in Hk. by apply (irreflexivity bytes_lt k), Hk.
Qed.

Lemma keys_no_duplicate ops : keys_have_duplicate ops = false → NoDup ops.*2.
Proof.
  unfold keys_have_duplicate, windows_any. rewrite negb_false_iff. intros H. rewrite <-(sort_by_perm bytes_cmp).
  assert (StronglySorted (not_after bytes_cmp) (sort_by bytes_cmp ops.*2)) as Hs.
  { apply sort_by_sorted; [apply bytes_cmp_antisym|]. intros a b c. unfold not_after. rewrite !bytes_lt_cmp_gt.
    intros Hab Hbc Hc. destruct (bytes_trichotomy a b) as [Hl|[->|]]; [|done..]. by apply Hbc; etrans. }
  apply strict_nodup. clear -H Hs. induction Hs as [|a l Hs IH Ha]; [constructor|].
  destruct l as [|b l]; [repeat constructor|]. change (negb (bytes_eqb a b) && windows_all (λ a b, negb (bytes_eqb a b)) (b :: l) = true) in H.
  apply andb_true_iff in H as [Hab H]. specialize (IH H). constructor; [done|].
  apply Forall_cons in Ha as [Hb _]. assert (bytes_lt a b) as Hlt.
  { unfold not_after in Hb. rewrite bytes_lt_cmp_gt in Hb. destruct (bytes_trichotomy a b) as [|[->|]]; [done| |done].
    by rewrite (proj2 (bytes_eqb_spec _ _)) in Hab. }
  apply StronglySorted_inv in IH as [_ IH]. constructor; [done|]. eapply Forall_impl; [exact IH|]. intros x. by etrans.
Qed.

Lemma bytes_leb_false a b : bytes_leb a b = false ↔ bytes_lt b a.
Proof. rewrite <-not_true_iff_false, bytes_leb_spec. split; [apply dec_stable|auto]. Qed.

(** An admissible batch: only puts, distinct keys, all above the high water or,
    without one, above the family's largest key. *)
Definition floor_of (l : BulkLatch) (f : Family) (max : option (list byte)) : option (list byte) :=
  match high_water l !! f with Some hw => Some hw | None => max end.

Lemma judge_admissible l f st ops spanning max : judge l f st ops spanning max = Admissible →
  Forall (λ o, o.1 = true) ops ∧ NoDup ops.*2 ∧ ops ≠ [] ∧
  ∀ m k, floor_of l f max = Some m → k ∈ ops.*2 → bytes_lt m k.
Proof.
  unfold judge. case_bool_decide; [done|]. destruct spanning; [done|].
  destruct (judge_loop ops None 0) as [n|v] eqn:Ej.
  2: { intros ->. exfalso. revert Ej. generalize (@None (list byte)) 0%nat. induction ops as [|[p k] ops IH]; intros prev inv; cbn; [done|].
       repeat case_match; try done; apply IH. }
  apply judge_loop_ok in Ej as (Hp & _ & Hs). destruct (negb (n =? 0)%nat && keys_have_duplicate ops) eqn:Ed; [done|].
  assert (NoDup ops.*2) as Hnd.
  { apply andb_false_iff in Ed as [->%negb_false_iff%Nat.eqb_eq|Ed]; [by apply strict_nodup, Hs|by apply keys_no_duplicate]. }
  pose proof (min_key_ok ops.*2) as Hmin. destruct (min_key ops.*2) as [first|]; [|done]. destruct Hmin as [Hin Hmin].
  intros H0. split; [done|]. split; [done|]. split; [intros ->; by apply not_elem_of_nil in Hin|]. intros m k Hm Hk.
  apply (bytes_lt_le_trans _ first); [|by apply Hmin]. apply bytes_leb_false. unfold floor_of in Hm.
  destruct (high_water l !! f); simplify_eq; by destruct (bytes_leb first m).
Qed.

(** A batch of puts is admitted or kills the family. *)
Lemma judge_puts l f st ops max : st ≠ Dead → Forall (λ o, o.1 = true) ops → ops ≠ [] →
  judge l f st ops false max = Admissible ∨ judge l f st ops false max = Kill.
Proof.
  intros Hst Hp Hne. unfold judge. rewrite bool_decide_eq_false_2 by done.
  assert (∀ prev inv v, judge_loop ops prev inv = Err v → v = Kill) as Hl.
  { clear Hne. induction Hp as [|[p k] ops Hp _ IH]; intros prev inv v; cbn; [done|]. cbn in Hp. subst p. cbn.
    repeat case_match; try (by intros [= <-]); apply IH. }
  destruct (judge_loop ops None 0) as [n|v] eqn:E; [|right; by eapply Hl].
  pose proof (min_key_ok ops.*2) as Hmin. destruct (min_key ops.*2) as [first|]; [|by apply fmap_nil_inv in Hmin].
  repeat case_match; auto.
Qed.

(** ** The high water *)

Definition covered (l : BulkLatch) (f : Family) (k : list byte) : Prop :=
  ∃ hw, high_water l !! f = Some hw ∧ ¬ bytes_lt hw k.

Lemma ratchet_covers f l k : covered (ratchet f l k) f k.
Proof.
  unfold covered, ratchet. cbn. destruct (high_water l !! f) as [e|] eqn:E.
  - destruct (bytes_ltb e k) eqn:El.
    + exists k. rewrite lookup_insert_eq. split; [done|]. apply irreflexivity, _.
    + exists e. split; [done|]. rewrite <-bytes_ltb_spec. congruence.
  - exists k. rewrite lookup_insert_eq. split; [done|]. apply irreflexivity, _.
Qed.

Lemma ratchet_keeps f l k k' : covered l f k' → covered (ratchet f l k) f k'.
Proof.
  unfold covered, ratchet. cbn. intros (hw & E & Hk). rewrite E. destruct (bytes_ltb hw k) eqn:El; [|by exists hw].
  exists k. rewrite lookup_insert_eq. split; [done|]. intros Hc. apply bytes_ltb_spec in El. apply Hk. by etrans.
Qed.

Lemma ratchets_some f l l' (ops : list (bool * list byte)) : high_water l' = high_water (foldl (ratchet f) l ops.*2) →
  is_Some (high_water l' !! f) → is_Some (high_water l !! f) ∨ ops ≠ [].
Proof. intros ->. destruct ops; [by left|by right]. Qed.

(** A family's part of the latch. *)
Definition view (l : BulkLatch) (f : Family) : option FamilyState * option (list byte) := (state l !! f, high_water l !! f).

Lemma ratchet_state f l k : state (ratchet f l k) = state l.
Proof. done. Qed.

Lemma ratchet_frame f l k g : f ≠ g → high_water (ratchet f l k) !! g = high_water l !! g.
Proof. intros Hne. unfold ratchet. cbn. repeat case_match; try done; by rewrite lookup_insert_ne. Qed.

Lemma ratchets_state f l ks : state (foldl (ratchet f) l ks) = state l.
Proof. revert l. induction ks as [|k ks IH]; intros l; [done|]. cbn. by rewrite IH. Qed.

Lemma ratchets_frame f l ks g : f ≠ g → high_water (foldl (ratchet f) l ks) !! g = high_water l !! g.
Proof. intros Hne. revert l. induction ks as [|k ks IH]; intros l; [done|]. cbn. by rewrite IH, ratchet_frame. Qed.

Lemma ratchets_cover f l ks k : covered l f k ∨ k ∈ ks → covered (foldl (ratchet f) l ks) f k.
Proof.
  revert l. induction ks as [|x ks IH]; intros l Hk; cbn; [by destruct Hk as [|?%not_elem_of_nil]|].
  apply IH. rewrite elem_of_cons in Hk. destruct Hk as [Hk|[->|Hk]]; [left; by apply ratchet_keeps|left; apply ratchet_covers|by right].
Qed.

Lemma note_route_view l r f : view (note_route l r) f = view l f.
Proof. by destruct r. Qed.

(** ** One family *)

Definition alive (l : BulkLatch) (f : Family) : Prop := state l !! f ≠ Some Dead.

(** What one classification does to its family and to the others. *)
Record classified (l : BulkLatch) (f : Family) (ops : list (bool * list byte)) (spanning : bool) (max : option (list byte))
    (l' : BulkLatch) (r : FamilyRoute) : Prop := {
  cl_frame g : f ≠ g → view l' g = view l g;
  cl_dead : ¬ alive l f → ¬ alive l' f ∧ r = Ladder;
  cl_cover k : alive l' f → covered l f k ∨ k ∈ ops.*2 → covered l' f k;
  cl_bulk : r = Bulk → alive l f ∧ Forall (λ o, o.1 = true) ops ∧ NoDup ops.*2 ∧
    ∀ m k, floor_of l f max = Some m → k ∈ ops.*2 → bytes_lt m k;
  cl_water : is_Some (high_water l' !! f) → is_Some (high_water l !! f) ∨ ops ≠ [];
  cl_first m k : alive l' f → spanning = false → Forall (λ o, o.1 = true) ops → ops ≠ [] →
    floor_of l f max = Some m → k ∈ ops.*2 → bytes_lt m k
}.

(** What the family's record is after a live classification. *)
Lemma ratcheted_view l f ops s r g :
  f ≠ g → view (note_route (set_state (foldl (ratchet f) l ops) f s) r) g = view l g.
Proof.
  intros Hne. rewrite note_route_view. unfold view, set_state. cbn. by rewrite lookup_insert_ne, ratchets_state, ratchets_frame.
Qed.

Lemma covered_view l l' f k : high_water l' !! f = high_water l !! f → covered l f k → covered l' f k.
Proof. unfold covered. by intros ->. Qed.

Lemma classify_family_ok l f ops spanning max l' r :
  classify_family l f ops spanning max = (l', r) → classified l f ops spanning max l' r.
Proof.
  unfold classify_family. destruct (decide (state l !! f = Some Dead)) as [Ed|Ed].
  { rewrite Ed. cbn. intros [= <- <-]. split; try done. by left. }
  set (st := default (Probing 0) (state l !! f)). assert (st ≠ Dead) as Hst by (unfold st; destruct (state l !! f) as [[]|]; cbn; congruence).
  replace (match st with Dead => _ | _ => _ end) with
    (match judge l f st ops spanning max with
     | Admissible =>
          let new_state := match st with
                           | Dead => Dead
                           | Latched => Latched
                           | Probing streak => if threshold (foldl (ratchet f) l ops.*2) <=? streak + 1 then Latched else Probing (streak + 1)
                           end in
          let r := if bool_decide (new_state = Latched) then Bulk else Ladder in
          (note_route (set_state (foldl (ratchet f) l ops.*2) f new_state) r, r)
      | Ineligible =>
          (note_route (if bool_decide (st = Latched) then foldl (ratchet f) l ops.*2 else set_state (foldl (ratchet f) l ops.*2) f (Probing 0)) Ladder, Ladder)
      | Kill => (note_route (kill (foldl (ratchet f) l ops.*2) f) Ladder, Ladder)
     end) by by destruct st.
  destruct (judge l f st ops spanning max) eqn:Ej.
  - intros [= <- <-]. set (ns := match st with Probing _ => _ | Latched => _ | Dead => _ end).
    split; [intros g Hne; by apply ratcheted_view| | | | |].
    + intros Hd. by destruct Hd.
    + intros k _ Hk. eapply covered_view; [|by apply ratchets_cover]. by case_bool_decide.
    + intros _. apply judge_admissible in Ej as (Hp & Hn & _ & Hm). by split_and!.
    + apply ratchets_some. by case_bool_decide.
    + intros m k _ _ _ _. apply judge_admissible in Ej as (_ & _ & _ & Hm). apply Hm.
  - intros [= <- <-]. split; [| | |done| |].
    + intros g Hne. case_bool_decide; [|by apply (ratcheted_view l f ops.*2 (Probing 0) Ladder)]. unfold view. cbn. by rewrite ratchets_state, ratchets_frame.
    + intros Hd. by destruct Hd.
    + intros k _ Hk. eapply covered_view; [|by apply ratchets_cover]. by case_bool_decide.
    + apply ratchets_some. by case_bool_decide.
    + intros m k _ -> Hp Hne. by destruct (judge_puts l f st ops max Hst Hp Hne); congruence.
  - intros [= <- <-]. split; [| | |done| |].
    + intros g Hne. unfold view. cbn. by rewrite lookup_insert_ne, ratchets_state, ratchets_frame.
    + intros Hd. by destruct Hd.
    + intros k Ha _. exfalso. apply Ha. cbn. apply lookup_insert_eq.
    + by apply ratchets_some.
    + intros m k Ha. exfalso. apply Ha. cbn. apply lookup_insert_eq.
Qed.

(** ** Observations *)

(** What the closure answers for a family. *)
Definition max_of (o : Observation) (f : Family) : option (list byte) :=
  match o with ObsBatch _ max => max f | ObsFamily _ _ max => max | ObsSpan _ _ => None end.

(** What an observation does to a family, whatever else it classifies. *)
Record observed (l : BulkLatch) (f : Family) (ops : list (bool * list byte)) (max : option (list byte))
    (l' : BulkLatch) (r : option FamilyRoute) : Prop := {
  ob_dead : ¬ alive l f → ¬ alive l' f ∧ r ≠ Some Bulk;
  ob_cover k : alive l' f → covered l f k ∨ k ∈ ops.*2 → covered l' f k;
  ob_bulk : r = Some Bulk → alive l f ∧ Forall (λ o, o.1 = true) ops ∧ NoDup ops.*2 ∧
    ∀ m k, floor_of l f max = Some m → k ∈ ops.*2 → bytes_lt m k;
  ob_water : is_Some (high_water l' !! f) → is_Some (high_water l !! f) ∨ ops ≠ [];
  ob_first m k : alive l' f → Forall (λ o, o.1 = true) ops → ops ≠ [] → floor_of l f max = Some m → k ∈ ops.*2 → bytes_lt m k
}.

(** Everything the properties speak of is in the family's view. *)
Lemma observed_view l1 l f ops max l2 l' r :
  view l1 f = view l f → view l' f = view l2 f → observed l1 f ops max l2 r → observed l f ops max l' r.
Proof.
  unfold view. intros [= Es Eh] [= Es' Eh'] [Hd Hc Hb Hw Hf]. unfold alive, covered, floor_of in *.
  split; unfold alive, covered, floor_of; rewrite ?Es', ?Eh', <-?Es, <-?Eh; done.
Qed.

Lemma classified_observed l f ops spanning max l' r : classified l f ops spanning max l' r →
  (spanning = true → ∃ k, (false, k) ∈ ops) → observed l f ops max l' (Some r).
Proof.
  intros [_ Hd Hc Hb Hw Hf] Hsp. split; [|done|by intros [= ->]; apply Hb|done|].
  - intros Ha. destruct (Hd Ha) as [? ->]. by split.
  - intros m k Ha Hp. destruct spanning; [|by apply Hf]. destruct (Hsp eq_refl) as [k' Hk']. rewrite Forall_forall in Hp.
    by specialize (Hp _ Hk').
Qed.

Lemma unobserved l f max l' r : view l' f = view l f → r ≠ Some Bulk → observed l f [] max l' r.
Proof.
  unfold view. intros [= Es Eh] Hr. split; unfold alive, covered; rewrite ?Es, ?Eh; [by split| |done|by left|done].
  intros k _ [|?%not_elem_of_nil]; done.
Qed.

Definition grouped_ok (g : Grouped) : Prop :=
  NoDup (g_families g) ∧ (∀ f, is_Some (per_family g !! f) → f ∈ g_families g) ∧
  ∀ f, f ∈ g_spanning g → ∃ k, (false, k) ∈ default [] (per_family g !! f).

Lemma classify_fold g max fs l routes f : grouped_ok g → NoDup fs →
  let a := foldl (classify_step g max) (l, routes) fs in
  let ops := default [] (per_family g !! f) in
  if bool_decide (f ∈ fs) then observed l f ops (max f) a.1 (a.2 !! f)
  else view a.1 f = view l f ∧ a.2 !! f = routes !! f.
Proof.
  intros (_ & _ & Hsp). revert l routes. induction fs as [|h fs IH]; intros l routes Hnd; cbn; [done|].
  apply NoDup_cons in Hnd as [Hh Hnd]. 
  destruct (classify_family l h (default [] (per_family g !! h)) (bool_decide (h ∈ g_spanning g)) (max h)) as [l1 r] eqn:Ec.
  replace (classify_step g max (l, routes) h) with (l1, <[h := r]> routes) by (unfold classify_step; cbn; by rewrite Ec).
  apply classify_family_ok in Ec.
  specialize (IH l1 (<[h := r]> routes) Hnd). cbn in IH. set (a := foldl _ (l1, _) fs) in *.
  destruct (decide (f = h)) as [->|Hne].
  - rewrite (bool_decide_eq_false_2 _ Hh) in IH. destruct IH as [Hv Hr]. rewrite bool_decide_eq_true_2 by left.
    rewrite Hr, lookup_insert_eq. eapply observed_view; [done|exact Hv|].
    eapply classified_observed; [done|]. intros Hs%bool_decide_eq_true. by apply Hsp.
  - pose proof (cl_frame _ _ _ _ _ _ _ Ec f ltac:(done)) as Hf. destruct (decide (f ∈ fs)) as [Hin|Hin].
    + rewrite (bool_decide_eq_true_2 _ Hin) in IH. rewrite bool_decide_eq_true_2 by (by right). by eapply observed_view; [exact Hf|done|].
    + rewrite (bool_decide_eq_false_2 _ Hin) in IH. rewrite bool_decide_eq_false_2 by (rewrite elem_of_cons; naive_solver).
      rewrite lookup_insert_ne in IH by done.
      destruct IH as [Hv Hr]. by split; [rewrite <-Hf|].
Qed.

Lemma add_family_ok f fs : NoDup fs → NoDup (add_family f fs) ∧ ∀ h, h ∈ add_family f fs ↔ h = f ∨ h ∈ fs.
Proof.
  intros Hn. unfold add_family. case_bool_decide as Hf; [split; [done|]; naive_solver|].
  split; [apply NoDup_app; split_and!; [done|set_solver|apply NoDup_singleton]|set_solver].
Qed.

Lemma push_op_some f o m h : is_Some (push_op f o m !! h) → h = f ∨ is_Some (m !! h).
Proof. unfold push_op. destruct (decide (f = h)) as [->|Hne]; [by left|]. rewrite lookup_insert_ne by done. by right. Qed.

Lemma push_op_keeps f o m h x : x ∈ default [] (m !! h) → x ∈ default [] (push_op f o m !! h).
Proof.
  unfold push_op. destruct (decide (f = h)) as [->|Hne]; [|by rewrite lookup_insert_ne].
  rewrite lookup_insert_eq. cbn. set_solver.
Qed.

Lemma push_op_here f o m : o ∈ default [] (push_op f o m !! f).
Proof. unfold push_op. rewrite lookup_insert_eq. cbn. set_solver. Qed.

Lemma group_ops_ok ops : grouped_ok (group_ops ops).
Proof.
  unfold group_ops. induction ops as [|op ops IH] using rev_ind; [split; [apply NoDup_nil_2|split; [by intros f [x Hx]|set_solver]]|].
  rewrite foldl_app. cbn. destruct (foldl _ _ ops) as [fs pf sp]. destruct IH as (Hn & Hs & Hsp). cbn in *.
  unfold group_op. destruct op as [f k|f k|sf s ef e]; cbn.
  3: { destruct (add_family_ok sf fs Hn) as [Hn1 Hin1]. destruct (add_family_ok ef _ Hn1) as [Hn2 Hin2]. split; [done|]. cbn.
       split; [intros h [->|[->|Hh]%push_op_some]%push_op_some; rewrite Hin2, Hin1; auto|].
       intros h Hh. assert (h = sf ∨ h = ef ∨ h ∈ sp) as [->|[->|Hin]] by (case_bool_decide; set_solver).
       - exists s. apply push_op_keeps, push_op_here.
       - exists e. apply push_op_here.
       - destruct (Hsp h Hin) as [k Hk]. exists k. by apply push_op_keeps, push_op_keeps. }
  all: destruct (add_family_ok f fs Hn) as [Hn1 Hin1]; (split; [done|]); cbn;
    (split; [intros h [->|Hh]%push_op_some; rewrite Hin1; auto|]);
    intros h Hin; destruct (Hsp h Hin) as [k' Hk']; exists k'; by apply push_op_keeps.
Qed.

Lemma max_is_last (k : list byte) ks x : StronglySorted bytes_lt (k :: ks) → last (k :: ks) = Some x → ∀ y, y ∈ k :: ks → ¬ bytes_lt x y.
Proof.
  revert k. induction ks as [|k' ks IH]; intros k Hs Hl y Hy.
  - cbn in Hl. simplify_eq. apply list_elem_of_singleton in Hy as ->. apply irreflexivity, _.
  - apply StronglySorted_inv in Hs as [Hs Hk]. rewrite last_cons_cons in Hl. apply elem_of_cons in Hy as [->|Hy]; [|by eapply IH].
    apply Forall_cons in Hk as [Hk _]. intros Hc. apply (IH k' Hs Hl k'); [left|]. by etrans.
Qed.

Lemma observe_span_ok l f keys l' r : observe_latched_span l f keys = (l', r) →
  observed l f (pair true <$> keys) None l' (Some r) ∧ ∀ g, f ≠ g → view l' g = view l g.
Proof.
  unfold observe_latched_span. assert (∀ l' r, classify_family l f (pair true <$> keys) false None = (l', r) →
    observed l f (pair true <$> keys) None l' (Some r) ∧ ∀ g, f ≠ g → view l' g = view l g) as Hslow.
  { intros l1 r1 Ec%classify_family_ok. split; [by eapply classified_observed|apply Ec]. }
  destruct (is_latched l f) eqn:El; cbn [negb]; [|by apply Hslow]. apply bool_decide_eq_true in El.
  assert (alive l f) as Ha by (unfold alive; rewrite El; done).
  destruct keys as [|k0 keys]; [intros [= <- <-]; split; [|done]; split|].
  { done. } { intros k _ [|?%not_elem_of_nil]; done. } { intros _. split_and!; [done|done|apply NoDup_nil_2|]. by intros m k _ ?%not_elem_of_nil. } { by left. } { done. }
  destruct (windows_all _ _ && _) eqn:Eok; cbn [negb]; [|by apply Hslow]. apply andb_true_iff in Eok as [Hw Hhw].
  apply (windows_all_sorted _ bytes_lt) in Hw; [|intros a b; by rewrite negb_true_iff, bytes_leb_false].
  destruct (last (k0 :: keys)) as [x|] eqn:Elast; [|by apply last_None in Elast].
  intros [= <- <-]. assert ((pair true <$> k0 :: keys).*2 = k0 :: keys) as Ekeys by (rewrite <-list_fmap_compose; apply list_fmap_id).
  split; [split; rewrite ?Ekeys|].
  - done.
  - intros k _ Hk. eapply covered_view; [done|]. destruct Hk as [Hk|Hk]; [by apply ratchet_keeps|].
    destruct (ratchet_covers f l x) as (hw & E & Hx). exists hw. split; [done|]. intros Hc.
    pose proof (max_is_last _ _ _ Hw Elast k Hk) as Hkx. apply Hx. eapply bytes_lt_le_trans; [exact Hc|done].
  - intros _. split; [done|]. split; [by apply Forall_fmap, Forall_forall|]. split; [by apply strict_nodup|].
    intros m k Hm Hk. unfold floor_of in Hm. destruct (high_water l !! f) as [hw|]; [|done]. simplify_eq.
    rewrite negb_true_iff, bytes_leb_false in Hhw. apply elem_of_cons in Hk as [->|Hk]; [done|].
    apply StronglySorted_inv in Hw as [_ Hw]. rewrite Forall_forall in Hw. etrans; [exact Hhw|]. by apply Hw.
  - by right.
  - intros m k _ _ _ Hm Hk. unfold floor_of in Hm. destruct (high_water l !! f) as [hw|]; [|done]. simplify_eq.
    rewrite negb_true_iff, bytes_leb_false in Hhw. apply elem_of_cons in Hk as [->|Hk]; [done|].
    apply StronglySorted_inv in Hw as [_ Hw]. rewrite Forall_forall in Hw. etrans; [exact Hhw|]. by apply Hw.
  - intros g Hne. unfold view. cbn. f_equal. by apply ratchet_frame.
Qed.

Lemma observe_ok l o f : observed l f (seen o f) (max_of o f) (observe l o).1 ((observe l o).2 !! f).
Proof.
  destruct o as [ops max|g ops max|g keys]; cbn.
  - unfold classify_batch. pose proof (group_ops_ok ops) as Hg. pose proof Hg as (Hn & Hin & _).
    pose proof (classify_fold (group_ops ops) max (g_families (group_ops ops)) l ∅ f Hg Hn) as H. cbn in H. case_bool_decide as Hf; [done|].
    destruct H as [Hv Hr]. destruct (per_family (group_ops ops) !! f) eqn:E; [by destruct Hf; apply Hin|]. cbn.
    apply unobserved; [done|]. by rewrite Hr, lookup_empty.
  - destruct (classify_family l g ops false max) as [l' r] eqn:Ec. apply classify_family_ok in Ec. cbn. case_bool_decide as Hg.
    + subst. rewrite lookup_singleton_eq. by eapply classified_observed.
    + apply unobserved; [by apply Ec|]. by rewrite lookup_singleton_ne.
  - destruct (observe_latched_span l g keys) as [l' r] eqn:Ec. apply observe_span_ok in Ec as [Ho Hf]. cbn. case_bool_decide as Hg.
    + subst. by rewrite lookup_singleton_eq.
    + apply unobserved; [by apply Hf|]. by rewrite lookup_singleton_ne.
Qed.

Lemma run_snoc os o : run (os ++ [o]) = (observe (run os) o).1.
Proof. unfold run. by rewrite foldl_app. Qed.

(** The high water of a family that can still be routed covers its history. *)
Lemma run_covers os f k : alive (run os) f → (∃ o, o ∈ os ∧ k ∈ (seen o f).*2) → covered (run os) f k.
Proof.
  revert k. induction os as [|o os IH] using rev_ind; intros k Ha (o' & Ho & Hk); [by apply not_elem_of_nil in Ho|].
  rewrite run_snoc in *. pose proof (observe_ok (run os) o f) as [Hd Hc _ _ _]. apply Hc; [done|].
  apply elem_of_app in Ho as [Ho| ->%list_elem_of_singleton]; [left|by right]. apply IH; [|by exists o'].
  intros E. destruct (Hd (λ H, H E)) as [Hn _]. by apply Hn.
Qed.

(** Death is permanent. *)
Lemma dead_stays before after f : alive (run (before ++ after)) f → alive (run before) f.
Proof.
  induction after as [|o after IH] using rev_ind; [by rewrite app_nil_r|]. rewrite app_assoc, run_snoc. intros Ha. apply IH. intros E.
  destruct (observe_ok (run (before ++ after)) o f) as [Hdead _ _ _ _]. destruct (Hdead (λ H, H E)) as [Hn _]. by apply Hn.
Qed.

(** A family nothing was seen of has no high water. *)
Lemma unseen_no_water os f : (∀ o, o ∈ os → seen o f = []) → high_water (run os) !! f = None.
Proof.
  induction os as [|o os IH] using rev_ind; intros Hs; [done|]. rewrite run_snoc.
  destruct (observe_ok (run os) o f) as [_ _ _ Hw _]. apply eq_None_not_Some. intros [Hc|Hc]%Hw; [|by destruct Hc; apply Hs; set_solver].
  rewrite IH in Hc; [by destruct Hc|]. intros o' Ho. apply Hs. set_solver.
Qed.

Lemma bulk_above os o f o' k' k : (observe (run os) o).2 !! f = Some Bulk →
  o' ∈ os → k' ∈ (seen o' f).*2 → k ∈ (seen o f).*2 → bytes_lt k' k.
Proof.
  intros Hr Ho Hk' Hk. destruct (observe_ok (run os) o f) as [_ _ Hb _ _]. destruct (Hb Hr) as (Ha & _ & _ & Hm).
  destruct (run_covers os f k' Ha) as (hw & Ehw & Hle); [by exists o'|].
  apply (bytes_le_lt_trans _ hw); [done|]. apply Hm; [|done]. unfold floor_of. by rewrite Ehw.
Qed.

(** * Properties *)

(** The first thing the session observes of a family is a batch of puts. *)
Definition first_puts (os : list Observation) (f : Family) (o0 : Observation) : Prop :=
  ∃ before after, os = before ++ o0 :: after ∧ (∀ o, o ∈ before → seen o f = []) ∧
    seen o0 f ≠ [] ∧ Forall (λ o, o.1 = true) (seen o0 f).

(** C20: bulk routing is append-only. In a session of any observations, a batch
    routed in bulk for a family holds only puts, on distinct keys, each strictly
    above every key of the family that any earlier batch wrote, deleted or
    bounded a range deletion with, and, when the family was first observed
    through puts, above its largest key at that time; so bulk runs never meet
    an older or a repeated key. The family was never dead before. *)
Theorem bulk_keys_fresh os o f :
  (observe (run os) o).2 !! f = Some Bulk →
  Forall (λ x, x.1 = true) (seen o f) ∧ NoDup (seen o f).*2 ∧
  (∀ o' k' k, o' ∈ os → k' ∈ (seen o' f).*2 → k ∈ (seen o f).*2 → bytes_lt k' k) ∧
  (∀ o0 m k, first_puts os f o0 → max_of o0 f = Some m → k ∈ (seen o f).*2 → bytes_lt m k) ∧
  (∀ before after, os = before ++ after → state (run before) !! f ≠ Some Dead).
Proof.
  intros Hr. destruct (observe_ok (run os) o f) as [_ _ Hb _ _]. destruct (Hb Hr) as (Ha & Hp & Hn & _).
  split; [done|]. split; [done|]. split; [intros o' k' k; by apply bulk_above|]. split; [|intros before after ->; by eapply dead_stays].
  intros o0 m k (before & after & -> & Hbef & Hne & Hputs) Hmax Hk.
  assert (alive (run (before ++ [o0])) f) as Ha0 by (apply (dead_stays _ after); by rewrite <-app_assoc).
  rewrite run_snoc in Ha0. destruct (observe_ok (run before) o0 f) as [_ _ _ _ Hf].
  destruct (seen o0 f) as [|x ops] eqn:E; [done|]. etrans; [apply (Hf m x.2 Ha0 Hputs Hne)|].
  - unfold floor_of. by rewrite (unseen_no_water _ _ Hbef).
  - left.
  - eapply (bulk_above _ _ _ o0); [exact Hr|set_solver|rewrite E; left|done].
Qed.

(** Eight ascending batches of one put each. *)
Definition ascending (from : Z) : list Observation :=
  (λ i, ObsFamily [x64] [(true, [Z2b (from + Z.of_nat i)])] (Some [x7a])) <$> seq 0 8.

(** A deletion seen first lets bulk puts land inside existing data. The
    family's largest key is [z]; the session first deletes [a] and then puts
    [b] to [i], one batch each: the first batch is ineligible before the
    largest key is consulted, it sets the high water all the same, and the
    eighth put is routed in bulk although it is below [z]. *)
Theorem first_delete_skips_max :
  let os := ObsFamily [x64] [(false, [x61])] (Some [x7a]) :: take 7 (ascending 98) in
  let o := ObsFamily [x64] [(true, [x69])] (Some [x7a]) in
  (observe (run os) o).2 !! [x64] = Some Bulk ∧ bytes_lt [x69] [x7a] ∧
  (* with the put first, the family is dead *)
  state (run (take 7 (ascending 98))) !! [x64] = Some Dead.
Proof. vm_compute. done. Qed.

(** ** Witnesses *)

(** The eighth batch above the family's largest key [a] is bulk. *)
Definition climb : list Observation :=
  (λ i, ObsFamily [x64] [(true, [Z2b (98 + Z.of_nat i)]); (true, [Z2b (98 + Z.of_nat i); x00])] (Some [x61])) <$> seq 0 7.

Lemma bulk_keys_fresh_witness :
  (observe (run climb) (ObsSpan [x64] [[x69]; [x70]])).2 !! [x64] = Some Bulk ∧
  NoDup (seen (ObsSpan [x64] [[x69]; [x70]]) [x64]).*2 ∧ bytes_lt [x61] [x69].
Proof.
  assert ((observe (run climb) (ObsSpan [x64] [[x69]; [x70]])).2 !! [x64] = Some Bulk) as Hr by (vm_compute; reflexivity).
  destruct (bulk_keys_fresh climb (ObsSpan [x64] [[x69]; [x70]]) [x64] Hr) as (_ & Hn & _ & Hm & _).
  split; [exact Hr|]. split; [exact Hn|].
  apply (Hm (ObsFamily [x64] [(true, [x62]); (true, [x62; x00])] (Some [x61]))); [|vm_compute; reflexivity|].
  - exists [], (drop 1 climb). split; [vm_compute; reflexivity|]. split; [intros o Ho; destruct (not_elem_of_nil o Ho)|].
    cbn. split; [discriminate|]. repeat constructor.
  - cbn. left.
Defined.
