(* ===== verification/ErrorKernel.v ===== *)
(** Errors of the engine: [crates/pedradb-core/src/error_kernel.rs].

    [CoreError] has the source's constructors. A [String] built by [format!] is
    the list of its literal pieces and displayed arguments, so that [str::contains] on a message (the WAL reader classifies
    errors that way) is a search in the literal pieces. *)

From S2P Require Import Prelude Text.


(** One piece of a [format!] template: literal text, a displayed number or a
    displayed string. *)
Inductive MsgPart :=
| Lit (s : string)
| Num (z : Z)
| Str (t : text).

Abbreviation Message := (list MsgPart).

(** [std::io::Error] is left abstract: [Io] stands for it, without payload. *)
Inductive CoreError :=
| Io
| Crc (offset expected found : Z)
| Truncated (offset : Z)
| WalZeroHeader (offset : Z)
| CorruptionEscalated (events limit : Z)
| Internal (msg : Message)
| ManifestCommittedUnsynced
| TransactionFinished
| Transaction (msg : Message)
| AlreadyOpen (path : string) (holder_pid : option Z)
| CorruptManifest (msg : Message)
| CorruptHistory (msg : Message)
| CorruptValue (msg : Message)
| DurabilityFenced
| TransactionConflict
| CasMismatch
| SnapshotTooOld (requested earliest : Z)
| WriteStall (l0_files limit : nat)
| WriteStallMem (mem_bytes limit : nat)
| DiskPressure (available need : Z)
| WriteStallCompactionDebt (pending_bytes limit : Z)
| SnapshotExpired (age_secs max_age_secs : Z)
| SnapshotPinDebt (lag hard_lag : Z)
| ConcurrencyQueueFull (active limit : nat)
| DbPoisoned (reason : Message).

Fixpoint string_prefix (pat s : string) : bool :=
  match pat, s with
  | EmptyString, _ => true
  | String _ _, EmptyString => false
  | String a pat', String b s' => if Ascii.eqb a b then string_prefix pat' s' else false
  end.

(** [str::contains] on a string: is [pat] a prefix of some suffix? *)
Fixpoint str_contains (pat s : string) : bool :=
  string_prefix pat s ||
  match s with
  | EmptyString => false
  | String _ s' => str_contains pat s'
  end.

(** [msg.contains(pat)] for a formatted message and an alphabetic pattern. *)
Definition msg_contains (pat : string) (m : Message) : bool :=
  existsb (λ p, match p with Lit s => str_contains pat s | Num _ => false | Str t => text_contains t (lit pat) end) m.
