(* ===== verification/EnvModel.v ===== *)
(** The environment: the calls the engine makes through the [Env] and [EnvFile]
    traits ([env_kernel.rs]) on whole files, programs over them, and the
    in-memory environment with crashes of the simulation crate
    ([pedradb-sim/src/recording.rs]).

    A program is a finite tree of calls. [env_step] and [undo_step] are the
    interface the engine's theorems are proved against: what a call may do to the
    files of an environment whose syncs do not lie, failures included, and which
    directory changes are still undone by a crash. [crashed] is a crash of the
    machine: every directory entry is as it is or as it was at some point since
    the last successful sync of its directory, each independently of the others,
    and its file keeps its synced bytes and a prefix of the unsynced ones
    ([env_crash_kernel.rs], [crash_legal]). A rename that is undone shows the file
    as it was when it was renamed. *)

From S2P Require Import Prelude Text ErrorKernel.

Local Open Scope Z_scope.

(** A path is the list of its components. *)
Abbreviation Path := (list (list Z)).

(** * Files *)

Record FileRec := mkFile { durable : list byte; pending : list byte }.
#[export] Instance FileRec_eq_dec : EqDecision FileRec.
Proof. solve_decision. Defined.
Definition file_empty : FileRec := mkFile [] [].
Definition logical (f : FileRec) : list byte := durable f ++ pending f.
Definition promote (f : FileRec) : FileRec := mkFile (durable f ++ pending f) [].
Definition drop_pending (f : FileRec) : FileRec := mkFile (durable f) [].

Abbreviation FileMap := (gmap (list (list Z)) FileRec).

(** [Vec::resize(len, 0)] *)
Definition resize_bytes (len : nat) (l : list byte) : list byte := take len l ++ replicate (len - length l) x00.

(** The body of [RecordingFile::write]: [buf] at [pos], over the unsynced part, or
    cutting into the synced one. *)
Definition write_at (f : FileRec) (pos : nat) (buf : list byte) : FileRec :=
  let n := length buf in
  let dur_len := length (durable f) in
  if (pos <? dur_len)%nat then mkFile (take pos (durable f)) buf
  else
    let pend_off := (pos - dur_len)%nat in
    let pend := if (length (pending f) <? pend_off)%nat then resize_bytes pend_off (pending f) else pending f in
    if (pend_off + n <=? length pend)%nat
    then mkFile (durable f) (take pend_off pend ++ buf ++ drop (pend_off + n) pend)
    else mkFile (durable f) (take pend_off pend ++ buf).

(** * Calls and programs *)

(** [std::io::Error]; [?] turns it into [CoreError::Io]. *)
Inductive IoError := io_error.

(** Calls on handles name the path and, for writes, the handle's position.
    [EWriteAll] is [write_all] (and [writeln!]); [EReadToEnd] reads a handle just
    opened. *)
Inductive EnvCall : Type → Type :=
| ECreate (p : Path) : EnvCall (Result IoError unit)
| EWriteAll (p : Path) (pos : nat) (buf : list byte) : EnvCall (Result IoError unit)
| ESyncData (p : Path) : EnvCall (Result IoError unit)
| ERename (from to : Path) : EnvCall (Result IoError unit)
| ESyncDir (p : Path) : EnvCall (Result IoError unit)
| EReadDirNames (p : Path) : EnvCall (Result IoError (list text))
| ERemoveFile (p : Path) : EnvCall (Result IoError unit)
| EExists (p : Path) : EnvCall bool
| EOpenRead (p : Path) : EnvCall (Result IoError unit)
| EReadToEnd (p : Path) : EnvCall (Result IoError (list byte)).

Inductive Prog (A : Type) : Type :=
| Ret (a : A)
| Call (X : Type) (c : EnvCall X) (k : X → Prog A).
Arguments Ret {A} a.
Arguments Call {A} {X} c k.

(** [let x = call;] and [let x = call?;] *)
Declare Scope prog_scope.
Delimit Scope prog_scope with prog.
Notation "'do!' x := c 'in' k" := (Call c (λ x, k)) (at level 10, x name, c at level 100, k at level 200) : prog_scope.
Notation "'do?' x := c 'in' k" := (Call c (λ r, match r with Ok x => k | Err _ => Ret (Err Io) end))
  (at level 10, x name, c at level 100, k at level 200) : prog_scope.
#[global] Open Scope prog_scope.

(** * What an environment may do *)

Definition parent (p : Path) : Path := take (length p - 1) p.

(** Files an unsuccessful or spurious sync may promote. *)
Definition some_promoted (m m' : FileMap) : Prop :=
  ∀ p, m' !! p = m !! p ∨ m' !! p = promote <$> m !! p.

Definition env_step {X} (c : EnvCall X) (m m' : FileMap) : X → Prop :=
  match c in EnvCall X return X → Prop with
  | ECreate p => λ r, match r with Ok _ => m' = <[p := file_empty]> m | Err _ => m' = m end
  | EWriteAll p pos buf => λ r,
      match r with
      | Ok _ => (buf = [] ∧ m' = m) ∨ ∃ f, m !! p = Some f ∧ m' = <[p := write_at f pos buf]> m
      | Err _ => m' = m ∨ ∃ f k, m !! p = Some f ∧ m' = <[p := write_at f pos (take k buf)]> m
      end
  | ESyncData p => λ r,
      match r with
      | Ok _ => m' = match m !! p with Some f => <[p := promote f]> m | None => m end
      | Err _ => some_promoted m m'
      end
  | ERename from to => λ r,
      match r with
      | Ok _ => ∃ f, m !! from = Some f ∧ m' = <[to := f]> (delete from m)
      | Err _ => m' = m
      end
  | ESyncDir _ => λ _, some_promoted m m'
  | EReadDirNames p => λ r,
      m' = m ∧ match r with Ok names => ∀ n, n ∈ names ↔ is_Some (m !! (p ++ [n])) | Err _ => True end
  | ERemoveFile p => λ r, match r with Ok _ => m' = delete p m | Err _ => m' = m end
  | EExists p => λ b, m' = m ∧ (is_Some (m !! p) → b = true)
  | EOpenRead p => λ r, m' = m ∧ match r with Ok _ => is_Some (m !! p) | Err _ => True end
  | EReadToEnd p => λ r,
      m' = m ∧ match r with Ok data => ∃ f, m !! p = Some f ∧ data = logical f | Err _ => True end
  end.

(** ** Directory entries *)

(** The files, and the entries that a crash may bring back: for every change of a
    directory not synced since, the path and what was there before. *)
Record Disk := mkDisk { d_files : FileMap; d_undo : list (list (list Z) * option FileRec) }.

(** The entries a call changes. *)
Definition changed {X} (c : EnvCall X) : X → list Path :=
  match c in EnvCall X return X → list Path with
  | ECreate p => λ r, match r with Ok _ => [p] | Err _ => [] end
  | ERename from to => λ r, match r with Ok _ => [from; to] | Err _ => [] end
  | ERemoveFile p => λ r, match r with Ok _ => [p] | Err _ => [] end
  | _ => λ _, []
  end.

Definition in_dir (dir : Path) (e : Path * option FileRec) : Prop := parent e.1 = dir.
#[export] Instance in_dir_dec dir e : Decision (in_dir dir e).
Proof. unfold in_dir. apply _. Defined.

(** A successful [sync_dir] makes the entries of the directory final, a failed one
    some of them. *)
Definition undo_step {X} (c : EnvCall X) (m : FileMap) (u u' : list (Path * option FileRec)) (x : X) : Prop :=
  match c in EnvCall X return X → Prop with
  | ESyncDir d => λ r, match r with Ok _ => u' = filter (λ e, ¬ in_dir d e) u | Err _ => u' ⊆ u end
  | c => λ r, u' = ((λ p, (p, m !! p)) <$> changed c r) ++ u
  end x.

Definition disk_step {X} (c : EnvCall X) (d d' : Disk) (x : X) : Prop :=
  env_step c (d_files d) (d_files d') x ∧ undo_step c (d_files d) (d_undo d) (d_undo d') x.

(** ** Runs and crashes *)

Inductive runs {A : Type} : Prog A → Disk → Prog A → Disk → Prop :=
| runs_here p d : runs p d p d
| runs_call X (c : EnvCall X) k d d' x p d'' :
    disk_step c d d' x → runs (k x) d' p d'' → runs (Call c k) d p d''.

(** [crash_legal]: the cut falls between the synced and the written length. *)
Definition crash_legal (synced written cut : nat) : bool := (synced <=? cut)%nat && (cut <=? written)%nat.

(** What a crash leaves of the file of an entry. *)
Definition crash_entry (e e' : option FileRec) : Prop :=
  match e with
  | None => e' = None
  | Some f => ∃ cut, crash_legal (length (durable f)) (length (logical f)) cut = true ∧
                e' = Some (mkFile (take cut (logical f)) [])
  end.

Definition crashed (d : Disk) (m' : FileMap) : Prop :=
  ∀ p, ∃ e, (e = d_files d !! p ∨ (p, e) ∈ d_undo d) ∧ crash_entry e (m' !! p).

Lemma crash_entry_synced data e' : crash_entry (Some (mkFile data [])) e' → e' = Some (mkFile data []).
Proof.
  intros (cut & Hl & ->). unfold crash_legal, logical in *. cbn in *. rewrite app_nil_r in *.
  apply andb_true_iff in Hl as [Hl _]. apply Nat.leb_le in Hl. by rewrite take_ge.
Qed.

(** A path whose entry is final. *)
Definition firm (d : Disk) (p : Path) : Prop := ∀ e, (p, e) ∉ d_undo d.

Lemma undo_elem {X} (c : EnvCall X) d d' x p e :
  disk_step c d d' x → (p, e) ∈ d_undo d' → (p, e) ∈ d_undo d ∨ p ∈ changed c x ∧ e = d_files d !! p.
Proof.
  intros [_ Hu] Hin. destruct c; cbn in Hu; try (left; by rewrite Hu in Hin).
  3: { left. destruct x; [rewrite Hu in Hin; by apply list_elem_of_filter in Hin as [_ ?]|by apply Hu]. }
  all: rewrite Hu in Hin; destruct x; cbn in Hin |- *; try (by left);
    repeat (apply elem_of_cons in Hin as [[= -> ->]|Hin]; [right; set_solver|]); by left.
Qed.

Lemma firm_step {X} (c : EnvCall X) d d' x p : disk_step c d d' x → p ∉ changed c x → firm d p → firm d' p.
Proof. intros Hs Hn Hf e Hin. destruct (undo_elem _ _ _ _ _ _ Hs Hin) as [?|[? _]]; [by eapply Hf|done]. Qed.

(** A synced file whose entry is final survives. *)
Lemma crashed_firm d m' p data :
  crashed d m' → firm d p → d_files d !! p = Some (mkFile data []) → m' !! p = Some (mkFile data []).
Proof.
  intros Hx Hf Hm. destruct (Hx p) as (e & He & H). destruct He as [->|He]; [|by destruct (Hf e)].
  rewrite Hm in H. by apply crash_entry_synced.
Qed.

(** ** Reasoning about programs

    [wp I Q p d]: from [d], whatever the environment answers, [I] holds of the
    disk at every point and [Q] of the result at the end. *)
Fixpoint wp {A : Type} (I : Disk → Prop) (Q : A → Disk → Prop) (p : Prog A) (d : Disk) : Prop :=
  match p with
  | Ret a => I d ∧ Q a d
  | Call c k => I d ∧ ∀ d' x, disk_step c d d' x → wp I Q (k x) d'
  end.

Lemma wp_runs {A : Type} I Q (p p' : Prog A) d d' : wp I Q p d → runs p d p' d' → wp I Q p' d'.
Proof.
  intros Hw Hr. induction Hr as [|X c k d d1 x p d2 Hs Hr IH]; [done|]. apply IH. destruct Hw as [_ Hw]. by apply Hw.
Qed.

Lemma wp_inv {A : Type} I Q (p : Prog A) d : wp I Q p d → I d.
Proof. destruct p; by intros [? _]. Qed.

(** A call under [?]: its failure ends the program. *)
Lemma wp_try {X A : Type} (I : Disk → Prop) (Q : Result CoreError A → Disk → Prop) (c : EnvCall (Result IoError X)) k d :
  I d → (∀ d', disk_step c d d' (Err io_error) → I d' ∧ Q (Err Io) d') →
  (∀ d' x, disk_step c d d' (Ok x) → wp I Q (k x) d') → wp I Q (do? x := c in k x) d.
Proof. intros Hi He Hk. split; [done|]. intros d' [x|[]] Hs; [by apply Hk|]. cbn. by apply He. Qed.

(** The paths whose file or entry a call may change, syncs apart. *)
Definition touches {X} (c : EnvCall X) : list Path :=
  match c with
  | ECreate p | EWriteAll p _ _ | ERemoveFile p => [p]
  | ERename from to => [from; to]
  | _ => []
  end.

Lemma changed_touches {X} (c : EnvCall X) x p : p ∈ changed c x → p ∈ touches c.
Proof. destruct c, x; cbn; set_solver. Qed.

Lemma untouched_step {X} (c : EnvCall X) d d' x p :
  disk_step c d d' x → p ∉ touches c → d_files d' !! p = d_files d !! p ∨ d_files d' !! p = promote <$> d_files d !! p.
Proof.
  intros [Hs _] Hn. destruct c; cbn in Hs, Hn; [| | | | |destruct Hs as [-> _]; by left| |destruct Hs as [-> _]; by left..].
  - destruct x; rewrite Hs; [|by left]. left. apply lookup_insert_ne. set_solver.
  - destruct x.
    + destruct Hs as [[_ ->]|(f & _ & ->)]; left; [done|]. apply lookup_insert_ne. set_solver.
    + destruct Hs as [->|(f & k & _ & ->)]; left; [done|]. apply lookup_insert_ne. set_solver.
  - destruct x; [|apply Hs]. rewrite Hs. destruct (d_files d !! p0) as [f|] eqn:Ef; [|by left].
    destruct (decide (p = p0)) as [->|Hne]; [right; by rewrite lookup_insert_eq, Ef|left; by apply lookup_insert_ne].
  - destruct x; [|rewrite Hs; by left]. destruct Hs as (f & _ & ->). left.
    rewrite lookup_insert_ne, lookup_delete_ne by set_solver. done.
  - apply Hs.
  - destruct x; rewrite Hs; [|by left]. left. apply lookup_delete_ne. set_solver.
Qed.

(** A synced file stays as it is. *)
Lemma synced_step {X} (c : EnvCall X) d d' x p data :
  disk_step c d d' x → p ∉ touches c → d_files d !! p = Some (mkFile data []) → d_files d' !! p = Some (mkFile data []).
Proof.
  intros Hs Hn Hp. destruct (untouched_step _ _ _ _ _ Hs Hn) as [-> | ->]; [done|]. rewrite Hp. cbn. unfold promote. cbn.
  by rewrite app_nil_r.
Qed.

(** * The recording environment *)

Inductive SyncPolicy := Honest | Lying.

Record Image := mkImage { files : FileMap; dirs : gset (list (list Z)); short_write_left : option nat; policy : SyncPolicy }.

Definition set_files (i : Image) (m : FileMap) : Image := mkImage m (dirs i) (short_write_left i) (policy i).
Definition with_policy (p : SyncPolicy) : Image := mkImage ∅ ∅ None p.
Definition recording_new : Image := with_policy Honest.
Definition arm_short_write (i : Image) (n : nat) : Image := mkImage (files i) (dirs i) (Some n) (policy i).

(** [RecordingEnv::crash] *)
Definition recording_crash (i : Image) : Image := set_files i (drop_pending <$> files i).

(** [fsync_promotes_pending] *)
Definition fsync_promotes_pending (honest : bool) : bool := honest.
Definition is_honest (p : SyncPolicy) : bool := match p with Honest => true | Lying => false end.

(** [RecordingFile::write], with the short write armed on the image; [write_all]
    calls it once, since it writes everything or fails. *)
Definition recording_write (i : Image) (p : Path) (pos : nat) (buf : list byte) : Image * Result IoError unit :=
  if (length buf =? 0)%nat then (i, Ok tt)
  else
    let put (i : Image) (b : list byte) (r : Result IoError unit) :=
      match files i !! p with
      | None => (i, Err io_error)
      | Some f => (set_files i (<[p := write_at f pos b]> (files i)), r)
      end in
    match short_write_left i with
    | None => put i buf (Ok tt)
    | Some room =>
        if (room =? 0)%nat then (i, Err io_error)
        else
          let n := Nat.min room (length buf) in
          let i := mkImage (files i) (dirs i) (Some (room - n)%nat) (policy i) in
          put i (take n buf) (if (n <? length buf)%nat then Err io_error else Ok tt)
    end.

Definition names_in (m : FileMap) (dir : Path) : list text :=
  omap (λ kv : Path * FileRec, if bool_decide (kv.1 ≠ [] ∧ parent kv.1 = dir) then last kv.1 else None) (map_to_list m).

(** The lexicographic order of names. *)
Fixpoint text_leb (a b : text) : bool :=
  match a, b with
  | [], _ => true
  | _ :: _, [] => false
  | x :: a, y :: b => if x <? y then true else if y <? x then false else text_leb a b
  end.
Definition text_le (a b : text) : Prop := text_leb a b = true.
#[export] Instance text_le_dec : RelDecision text_le := λ a b, bool_eq_dec (text_leb a b) true.
Definition sort_names (l : list text) : list text := merge_sort text_le l.

(** [impl Env for RecordingEnv] and [impl EnvFile for RecordingFile]. *)
Definition recording_call {X} (c : EnvCall X) (i : Image) : Image * X :=
  match c in EnvCall X return Image * X with
  | ECreate p =>
      (mkImage (<[p := file_empty]> (files i)) ({[parent p]} ∪ dirs i) (short_write_left i) (policy i), Ok tt)
  | EWriteAll p pos buf => recording_write i p pos buf
  | ESyncData p =>
      if fsync_promotes_pending (is_honest (policy i)) then
        match files i !! p with
        | Some f => (set_files i (<[p := promote f]> (files i)), Ok tt)
        | None => (i, Ok tt)
        end
      else (i, Ok tt)
  | ERename from to =>
      match files i !! from with
      | None => (i, Err io_error)
      | Some f => (set_files i (<[to := f]> (delete from (files i))), Ok tt)
      end
  | ESyncDir _ => (if is_honest (policy i) then set_files i (promote <$> files i) else i, Ok tt)
  | EReadDirNames p => (i, Ok (sort_names (names_in (files i) p)))
  | ERemoveFile p => (set_files i (delete p (files i)), Ok tt)
  | EExists p => (i, bool_decide (is_Some (files i !! p)) || bool_decide (p ∈ dirs i))
  | EOpenRead p => (i, if decide (is_Some (files i !! p)) then Ok tt else Err io_error)
  | EReadToEnd p => (i, match files i !! p with Some f => Ok (logical f) | None => Err io_error end)
  end.

(** Run a program in the recording environment. *)
Fixpoint recording_run {A : Type} (p : Prog A) (i : Image) : Image * A :=
  match p with
  | Ret a => (i, a)
  | Call c k => let '(i, x) := recording_call c i in recording_run (k x) i
  end.

(** ** It is an environment *)

Lemma names_in_elem m dir n : n ∈ names_in m dir ↔ is_Some (m !! (dir ++ [n])).
Proof.
  unfold names_in. rewrite list_elem_of_omap. split.
  - intros ([p f] & Hin & Hp). apply elem_of_map_to_list in Hin. cbn in Hp. case_bool_decide as Hd; [|done].
    destruct Hd as [Hne <-]. unfold parent. rewrite last_lookup in Hp. replace (pred (length p)) with (length p - 1)%nat in Hp by lia.
    exists f.
    assert (p = take (length p - 1) p ++ [n]) as <-; [|done].
    rewrite <-(take_drop (length p - 1) p) at 1. f_equal. destruct p as [|x p]; [done|]. cbn [length] in *.
    rewrite (drop_S _ n) by done. f_equal. rewrite drop_ge; [done|]. cbn. lia.
  - intros [f Hf]. exists (dir ++ [n], f). split; [by apply elem_of_map_to_list|]. cbn.
    rewrite bool_decide_eq_true_2, last_snoc; [done|]. split; [by intros [_ ?]%app_nil|].
    unfold parent. rewrite length_app. cbn. replace (length dir + 1 - 1)%nat with (length dir) by lia. by rewrite take_app_length.
Qed.

Lemma recording_write_sound i p pos buf i' r :
  recording_write i p pos buf = (i', r) → env_step (EWriteAll p pos buf) (files i) (files i') r ∧ policy i' = policy i.
Proof.
  unfold recording_write. destruct (Nat.eqb_spec (length buf) 0) as [H0|H0].
  { intros [= <- <-]. split; [|done]. left. by apply nil_length_inv in H0. }
  destruct (short_write_left i) as [room|].
  - case_match; [intros [= <- <-]; split; [by left|done]|]. cbn [files].
    destruct (files i !! p) as [f|] eqn:Ef; [|intros [= <- <-]; split; [by left|done]].
    destruct (Nat.ltb_spec (Nat.min room (length buf)) (length buf)); intros [= <- <-]; (split; [|done]).
    + right. by exists f, (Nat.min room (length buf)).
    + right. exists f. split; [done|]. cbn. by rewrite take_ge by lia.
  - destruct (files i !! p) as [f|] eqn:Ef; intros [= <- <-]; (split; [|done]); [|by left]. right. by exists f.
Qed.

Lemma recording_sound {X : Type} (c : EnvCall X) i i' x :
  policy i = Honest → recording_call c i = (i', x) → env_step c (files i) (files i') x ∧ policy i' = Honest.
Proof.
  intros Hp. destruct c; cbn [recording_call].
  - by intros [= <- <-].
  - intros H%recording_write_sound. destruct H as [? ->]. done.
  - rewrite Hp. cbn [is_honest fsync_promotes_pending].
    destruct (files i !! p) as [f|] eqn:Ef; intros [= <- <-]; (split; [|done]); cbn; by rewrite Ef.
  - destruct (files i !! from) as [f|] eqn:Ef; intros [= <- <-]; (split; [|done]); [|done]. by exists f.
  - rewrite Hp. cbn [is_honest]. intros [= <- <-]. split; [|done]. intros q. right. cbn. by rewrite lookup_fmap.
  - intros [= <- <-]. split; [|done]. split; [done|]. intros n. unfold sort_names. rewrite merge_sort_Permutation. apply names_in_elem.
  - by intros [= <- <-].
  - intros [= <- <-]. split; [|done]. split; [done|]. intros H. by rewrite bool_decide_eq_true_2.
  - intros [= <- <-]. split; [|done]. split; [done|]. by case_decide.
  - intros [= <- <-]. split; [|done]. split; [done|]. destruct (files i !! p) as [f|]; [|done]. by exists f.
Qed.

(** The directory changes a run leaves unsynced. *)
Definition undo_after {X} (c : EnvCall X) (m : FileMap) (u : list (Path * option FileRec)) (x : X) : list (Path * option FileRec) :=
  match c in EnvCall X return X → list (Path * option FileRec) with
  | ESyncDir d => λ r, match r with Ok _ => filter (λ e, ¬ in_dir d e) u | Err _ => u end
  | c => λ r, ((λ p, (p, m !! p)) <$> changed c r) ++ u
  end x.

Fixpoint recording_undo {A : Type} (p : Prog A) (i : Image) (u : list (Path * option FileRec)) : list (Path * option FileRec) :=
  match p with
  | Ret _ => u
  | Call c k => let '(i', x) := recording_call c i in recording_undo (k x) i' (undo_after c (files i) u x)
  end.

Lemma undo_after_step {X : Type} (c : EnvCall X) m u x : undo_step c m u (undo_after c m u x) x.
Proof. destruct c; cbn; try reflexivity. destruct x; reflexivity. Qed.

Lemma recording_undo_runs {A : Type} (p : Prog A) i i' a u :
  policy i = Honest → recording_run p i = (i', a) →
  runs p (mkDisk (files i) u) (Ret a) (mkDisk (files i') (recording_undo p i u)) ∧ policy i' = Honest.
Proof.
  revert i u. induction p as [b|X c k IH]; intros i u Hp; cbn [recording_run recording_undo].
  { intros [= <- <-]. split; [constructor|done]. }
  destruct (recording_call c i) as [i1 x] eqn:E. apply recording_sound in E as [Hs Hp1]; [|done]. intros Hr.
  destruct (IH x i1 (undo_after c (files i) u x) Hp1 Hr) as [Hr' ?]. split; [|done].
  apply (runs_call X c k _ (mkDisk (files i1) (undo_after c (files i) u x)) x); [split; [exact Hs|apply undo_after_step]|exact Hr'].
Qed.

Lemma recording_run_runs {A : Type} (p : Prog A) i i' a u :
  policy i = Honest → recording_run p i = (i', a) →
  ∃ u', runs p (mkDisk (files i) u) (Ret a) (mkDisk (files i') u') ∧ policy i' = Honest.
Proof. intros Hp Hr. eexists. by apply recording_undo_runs. Qed.

(** The crash of the recording environment, which undoes no entry, is a legal
    one. *)
Lemma recording_crashed i u : crashed (mkDisk (files i) u) (files (recording_crash i)).
Proof.
  intros p. exists (files i !! p). split; [by left|]. cbn. rewrite lookup_fmap. destruct (files i !! p) as [f|]; [|done].
  exists (length (durable f)). cbn. split.
  - unfold crash_legal, logical. rewrite length_app. apply andb_true_iff. rewrite !Nat.leb_le. lia.
  - unfold logical. by rewrite take_app_length.
Qed.
