(* ===== verification/KeyKernel.v ===== *)
(** Internal keys: [crates/pedradb-core/src/key_kernel.rs].

    A user key, a sequence number and a value type; the 8-byte packed trailer;
    the wire codec; and the MVCC order (user key ascending, sequence
    descending, kind descending) under which a snapshot read is a lower-bound
    probe. *)

From S2P Require Import Prelude ErrorKernel.

Local Open Scope Z_scope.

Definition MAX_SEQUENCE_NUMBER : Z := 2 ^ 56 - 1.
Definition MAX_ASSIGNABLE_SEQUENCE_NUMBER : Z := MAX_SEQUENCE_NUMBER - 1.

Inductive ValueType := Deletion | Value | RangeDeletion.

#[export] Instance ValueType_eq_dec : EqDecision ValueType.
Proof. solve_decision. Defined.

(** [ValueType::as_u8] and [ValueType::from_u8]. *)
Definition as_u8 (k : ValueType) : Z :=
  match k with Deletion => 0 | Value => 1 | RangeDeletion => 2 end.

Definition from_u8 (b : Z) : option ValueType :=
  match b with
  | 0 => Some Deletion
  | 1 => Some Value
  | 2 => Some RangeDeletion
  | _ => None
  end.

(** [(sequence << 8) | kind] on a [u64]: the shift drops the bits above 64. *)
Definition pack_sequence_and_type (sequence : Z) (kind : ValueType) : Z :=
  Z.lor (Z.shiftl sequence 8 mod 2 ^ 64) (as_u8 kind).

(** The shipped faulty twin: no shift. *)
Definition pack_sequence_and_type_as_is (sequence : Z) (kind : ValueType) : Z :=
  Z.lor sequence (as_u8 kind).

Definition unpack_sequence_and_type (packed : Z) : Result CoreError (Z * ValueType) :=
  let type_byte := Z.land packed 255 in
  match from_u8 type_byte with
  | None => Err (Internal [Lit "unknown internal key value type: "; Num type_byte])
  | Some kind => Ok (Z.shiftr packed 8, kind)
  end.

Record InternalKey := mkIKey {
  user_key : list byte;
  sequence : Z;
  kind : ValueType
}.

#[export] Instance InternalKey_eq_dec : EqDecision InternalKey.
Proof. solve_decision. Defined.

(** [InternalKey::for_lookup]. *)
Definition for_lookup (uk : list byte) (snapshot : Z) : InternalKey :=
  mkIKey uk snapshot Value.

(** [InternalKey::encode_into] appends to [out]; [encode] starts empty. *)
Definition encode_into (k : InternalKey) (out : list byte) : list byte :=
  out ++ user_key k ++ to_be 8 (pack_sequence_and_type (sequence k) (kind k)).

Definition encode (k : InternalKey) : list byte := encode_into k [].

Definition decode (encoded : list byte) : Result CoreError InternalKey :=
  if (length encoded <? 8)%nat then
    Err (Internal [Lit "internal key too short: "; Num (Z.of_nat (length encoded)); Lit " bytes"])
  else
    let split := (length encoded - 8)%nat in
    let uk := take split encoded in
    let packed := from_be (drop split encoded) in
    let? '(sequence, kind) := unpack_sequence_and_type packed in
    Ok (mkIKey uk sequence kind).

(** [ikey_seq_cmp]: the higher sequence is smaller. *)
Definition ikey_seq_cmp (a b : Z) : comparison := b ?= a.

(** [Ord for InternalKey] with the mutation switch off. *)
Definition ikey_cmp (a b : InternalKey) : comparison :=
  match bytes_cmp (user_key a) (user_key b) with
  | Eq =>
      match ikey_seq_cmp (sequence a) (sequence b) with
      | Eq => as_u8 (kind b) ?= as_u8 (kind a)
      | ord => ord
      end
  | ord => ord
  end.

Definition ikey_lt (a b : InternalKey) : Prop := ikey_cmp a b = Lt.
Definition ikey_ltb (a b : InternalKey) : bool :=
  match ikey_cmp a b with Lt => true | _ => false end.

(** [map.range(probe..).next()] over entries sorted by [ikey_cmp]. *)
Definition lower_bound (probe : InternalKey) (l : list InternalKey) : option InternalKey :=
  head (filter (λ e, ikey_cmp e probe ≠ Lt) l).

(** An entry the probe [for_lookup uk snapshot] is meant to see. *)
Definition probe_visible (uk : list byte) (snapshot : Z) (e : InternalKey) : Prop :=
  user_key e = uk ∧
  (sequence e < snapshot ∨ sequence e = snapshot ∧ kind e ≠ RangeDeletion).

(** ** Packing *)

Lemma from_u8_as_u8 k : from_u8 (as_u8 k) = Some k.
Proof. by destruct k. Qed.

Lemma as_u8_range k : 0 ≤ as_u8 k < 3.
Proof. destruct k; simpl; lia. Qed.

Lemma from_u8_Some b k : from_u8 b = Some k → b = as_u8 k.
Proof. unfold from_u8. repeat case_match; naive_solver. Qed.

Lemma as_u8_inj a b : as_u8 a = as_u8 b → a = b.
Proof. intros H. apply (f_equal from_u8) in H. rewrite !from_u8_as_u8 in H. congruence. Qed.

Lemma pack_eq seq k :
  0 ≤ seq ≤ MAX_SEQUENCE_NUMBER → pack_sequence_and_type seq k = seq * 256 + as_u8 k.
Proof.
  unfold MAX_SEQUENCE_NUMBER, pack_sequence_and_type. intros Hs.
  rewrite Z.mod_small.
  - apply (lor_shiftl_add 8); pose proof (as_u8_range k); lia.
  - rewrite Z.shiftl_mul_pow2 by lia. change (2 ^ 8) with 256.
    change (2 ^ 56) with 72057594037927936 in Hs.
    change (2 ^ 64) with 18446744073709551616. lia.
Qed.

Lemma unpack_eq p :
  0 ≤ p → unpack_sequence_and_type p =
    match from_u8 (p mod 256) with
    | None => Err (Internal [Lit "unknown internal key value type: "; Num (p mod 256)])
    | Some k => Ok (p / 256, k)
    end.
Proof.
  intros Hp. unfold unpack_sequence_and_type.
  change 255 with (Z.ones 8). rewrite Z.land_ones, Z.shiftr_div_pow2 by lia. done.
Qed.

Lemma unpack_pack seq k :
  0 ≤ seq ≤ MAX_SEQUENCE_NUMBER →
  unpack_sequence_and_type (pack_sequence_and_type seq k) = Ok (seq, k).
Proof.
  intros Hs. rewrite pack_eq by done. pose proof (as_u8_range k).
  rewrite unpack_eq by lia.
  rewrite Z.add_comm, Z.mod_add, Z.mod_small, from_u8_as_u8 by lia.
  rewrite Z.div_add, Z.div_small by lia. done.
Qed.

(** ** Order *)

Lemma ikey_cmp_refl a : ikey_cmp a a = Eq.
Proof. unfold ikey_cmp, ikey_seq_cmp. by rewrite bytes_cmp_refl, !Z.compare_refl. Qed.

Lemma ikey_cmp_eq a b : ikey_cmp a b = Eq ↔ a = b.
Proof.
  split; [|intros ->; apply ikey_cmp_refl].
  unfold ikey_cmp, ikey_seq_cmp. destruct a as [ua sa ka], b as [ub sb kb]; simpl.
  destruct (bytes_cmp ua ub) eqn:Eu; [|done|done].
  apply bytes_cmp_eq in Eu as ->.
  destruct (Z.compare_spec sb sa) as [->|?|?]; [|done|done].
  destruct (Z.compare_spec (as_u8 kb) (as_u8 ka)) as [E|?|?]; [|done|done].
  by apply as_u8_inj in E as ->.
Qed.

Lemma ikey_cmp_antisym a b : ikey_cmp b a = CompOpp (ikey_cmp a b).
Proof.
  unfold ikey_cmp, ikey_seq_cmp. rewrite (bytes_cmp_antisym (user_key a)).
  destruct (bytes_cmp (user_key a) (user_key b)); simpl; try done.
  rewrite (Z.compare_antisym (sequence b)).
  destruct (sequence b ?= sequence a); simpl; try done.
  apply Z.compare_antisym.
Qed.

(** The order in arithmetic form. *)
Lemma ikey_lt_iff a b :
  ikey_lt a b ↔
    bytes_lt (user_key a) (user_key b) ∨
    user_key a = user_key b ∧
      (sequence b < sequence a ∨
       sequence a = sequence b ∧ as_u8 (kind b) < as_u8 (kind a)).
Proof.
  unfold ikey_lt, ikey_cmp, ikey_seq_cmp, bytes_lt.
  destruct (bytes_cmp (user_key a) (user_key b)) eqn:Eu.
  - apply bytes_cmp_eq in Eu as ->.
    destruct (Z.compare_spec (sequence b) (sequence a)) as [E|E|E];
      [destruct (Z.compare_spec (as_u8 (kind b)) (as_u8 (kind a)))|..];
      naive_solver lia.
  - naive_solver.
  - apply bytes_lt_cmp_gt in Eu. split; [done|].
    intros [H|[H _]]; [done|]. rewrite H in Eu.
    by apply bytes_lt_irrefl in Eu.
Qed.

#[export] Instance ikey_lt_trans : Transitive ikey_lt.
Proof.
  intros a b c. rewrite !ikey_lt_iff.
  intros [H1|[E1 H1]] [H2|[E2 H2]].
  - left. by etrans.
  - left. by rewrite <-E2.
  - left. by rewrite E1.
  - right. split; [congruence|lia].
Qed.

#[export] Instance ikey_lt_irrefl : Irreflexive ikey_lt.
Proof. intros a. unfold complement, ikey_lt. by rewrite ikey_cmp_refl. Qed.

#[export] Instance ikey_lt_dec : RelDecision ikey_lt.
Proof. intros a b. unfold ikey_lt. apply _. Defined.

Lemma ikey_ltb_spec a b : ikey_ltb a b = true ↔ ikey_lt a b.
Proof. unfold ikey_ltb, ikey_lt. by destruct (ikey_cmp a b). Qed.

Lemma ikey_cmp_gt a b : ikey_cmp a b = Gt ↔ ikey_lt b a.
Proof. unfold ikey_lt. rewrite (ikey_cmp_antisym a b). by destruct (ikey_cmp a b). Qed.

Lemma ikey_trichotomy a b : ikey_lt a b ∨ a = b ∨ ikey_lt b a.
Proof.
  unfold ikey_lt. rewrite (ikey_cmp_antisym a b).
  destruct (ikey_cmp a b) eqn:E; [|auto..]. apply ikey_cmp_eq in E. auto.
Qed.

Lemma ikey_not_lt a b : ¬ ikey_lt a b ↔ a = b ∨ ikey_lt b a.
Proof.
  split.
  - destruct (ikey_trichotomy a b) as [|[]]; naive_solver.
  - intros [->|H] H'; [by apply ikey_lt_irrefl in H'|].
    assert (ikey_lt a a) as Hc by (by etrans). by apply ikey_lt_irrefl in Hc.
Qed.

(** ** Theorems *)

Lemma decode_encode k :
  0 ≤ sequence k ≤ MAX_SEQUENCE_NUMBER → decode (encode k) = Ok k.
Proof.
  intros Hs. unfold decode, encode, encode_into. cbn [app].
  rewrite !length_app, length_to_be.
  rewrite (proj2 (Nat.ltb_ge _ 8)) by lia.
  rewrite Nat.add_sub. rewrite take_app_length, drop_app_length.
  rewrite from_be_to_be, unpack_pack by
    (rewrite ?pack_eq by done; unfold MAX_SEQUENCE_NUMBER in *;
     pose proof (as_u8_range (kind k));
     change (256 ^ Z.of_nat 8) with 18446744073709551616;
     change (2 ^ 56) with 72057594037927936 in *; lia).
  by destruct k.
Qed.

(** [decode] inverts [encode] on every key whose sequence fits the 56-bit
    field: user key, sequence and kind all come back. *)
Theorem ikey_decode_encode k :
  0 ≤ sequence k ≤ MAX_SEQUENCE_NUMBER → decode (encode k) = Ok k.
Proof. apply decode_encode. Qed.

Lemma ikey_decode_encode_witness :
  let k := mkIKey [x68; x69] 99 Deletion in
  0 ≤ sequence k ≤ MAX_SEQUENCE_NUMBER ∧ decode (encode k) = Ok k.
Proof.
  cbv zeta. split; [vm_compute; split; discriminate|].
  apply (ikey_decode_encode (mkIKey [x68; x69] 99 Deletion)).
  vm_compute; split; discriminate.
Defined.

(** Whatever [decode] accepts is the encoding of the key it returns, so
    the wire form is canonical; it refuses exactly the buffers shorter than the
    trailer and those with an unknown kind byte. *)
Theorem ikey_encode_decode b :
  match decode b with
  | Ok k => encode k = b ∧ 0 ≤ sequence k ≤ MAX_SEQUENCE_NUMBER
  | Err _ => (length b < 8)%nat ∨ from_u8 (from_be (drop (length b - 8) b) mod 256) = None
  end.
Proof.
  unfold decode. destruct (Nat.ltb_spec (length b) 8) as [Hl|Hl]; [by left|].
  pose proof (from_le_bound (reverse (drop (length b - 8) b))) as Hbnd.
  assert (length (drop (length b - 8) b) = 8%nat) as H8 by (rewrite length_drop; lia).
  rewrite length_reverse, H8 in Hbnd.
  change (256 ^ Z.of_nat 8) with 18446744073709551616 in Hbnd.
  fold (from_be (drop (length b - 8) b)) in Hbnd.
  set (p := from_be (drop (length b - 8) b)) in *.
  rewrite unpack_eq by lia.
  destruct (from_u8 (p mod 256)) as [k|] eqn:Hk; simpl; [|by right].
  apply from_u8_Some in Hk.
  assert (0 ≤ p / 256 ≤ MAX_SEQUENCE_NUMBER) as Hseq.
  { unfold MAX_SEQUENCE_NUMBER. change (2 ^ 56) with 72057594037927936.
    split; [apply Z.div_pos; lia|].
    enough (p / 256 < 72057594037927936) by lia. apply Z.div_lt_upper_bound; lia. }
  split; [|done].
  unfold encode, encode_into. cbn [app user_key sequence KeyKernel.kind].
  rewrite pack_eq, <-Hk by done.
  assert (p / 256 * 256 + p mod 256 = p) as -> by (pose proof (Z.div_mod p 256); lia).
  subst p. unfold to_be, from_be.
  pose proof (to_le_from_le (reverse (drop (length b - 8) b))) as Hrt.
  rewrite length_reverse, H8 in Hrt. rewrite Hrt, reverse_involutive. apply take_drop.
Qed.

Lemma lower_bound_spec probe l :
  StronglySorted ikey_lt l →
  match lower_bound probe l with
  | Some e => e ∈ l ∧ ¬ ikey_lt e probe ∧
              ∀ e', e' ∈ l → ¬ ikey_lt e' probe → e' = e ∨ ikey_lt e e'
  | None => ∀ e', e' ∈ l → ikey_lt e' probe
  end.
Proof.
  unfold lower_bound. induction 1 as [|x l Hl IH Hx]; simpl.
  - intros e' He'. by apply not_elem_of_nil in He'.
  - rewrite filter_cons. case_decide as Hd; simpl.
    + split_and!; [by left|done|]. intros e' [->|He']%elem_of_cons _; [by left|].
      right. rewrite Forall_forall in Hx. by apply Hx.
    + fold (ikey_lt x probe) in Hd.
      destruct (head _); set_solver.
Qed.

Lemma probe_visible_iff uk snap e :
  probe_visible uk snap e ↔ user_key e = uk ∧ ¬ ikey_lt e (for_lookup uk snap).
Proof.
  unfold probe_visible. rewrite ikey_lt_iff. simpl.
  split; intros [-> H]; (split; [done|]).
  - intros [Hlt|[_ Hc]]; [by apply bytes_lt_irrefl in Hlt|].
    destruct H as [H|[H Hk]], Hc as [Hc|[Hc Hc']]; try lia.
    by destruct (kind e); simpl in Hc'.
  - destruct (Z.lt_trichotomy (sequence e) snap) as [?|[Heq|?]]; [by left| |].
    + right. split; [done|]. intros Hk. apply H. right. split; [done|]. rewrite Hk; simpl. lia.
    + exfalso. apply H. right. split; [done|lia].
Qed.

(** Over entries sorted in internal-key order, the first entry at or after
    [for_lookup uk snapshot] is the newest version of [uk] the snapshot sees;
    when that entry belongs to another key, or there is none, no version of
    [uk] is visible. *)
Theorem lookup_probe_newest uk snap l :
  StronglySorted ikey_lt l →
  match lower_bound (for_lookup uk snap) l with
  | Some e =>
      if decide (user_key e = uk) then
        probe_visible uk snap e ∧
        ∀ e', e' ∈ l → probe_visible uk snap e' → sequence e' ≤ sequence e
      else ∀ e', e' ∈ l → ¬ probe_visible uk snap e'
  | None => ∀ e', e' ∈ l → ¬ probe_visible uk snap e'
  end.
Proof.
  intros Hs. pose proof (lower_bound_spec (for_lookup uk snap) l Hs) as Hlb.
  destruct (lower_bound _ l) as [e|].
  - destruct Hlb as (Hin & Hge & Hmin). case_decide as Huk.
    + split; [by apply probe_visible_iff|].
      intros e' He' [Hu' Hv]%probe_visible_iff.
      destruct (Hmin e' He' Hv) as [->|Hlt]; [done|].
      apply ikey_lt_iff in Hlt as [Hlt|[_ ?]]; [|lia].
      rewrite Hu', Huk in Hlt. by apply bytes_lt_irrefl in Hlt.
    + intros e' He' [Hu' Hv]%probe_visible_iff.
      destruct (Hmin e' He' Hv) as [->|Hlt]; [done|].
      apply ikey_not_lt in Hge as [->|Hge]; [done|].
      apply ikey_lt_iff in Hlt as [Hlt|[? _]], Hge as [Hge|[? _]]; simpl in *; try congruence.
      rewrite Hu' in Hlt. assert (bytes_lt uk uk) as Hc by (by etrans).
      by apply bytes_lt_irrefl in Hc.
  - intros e' He' [_ Hv]%probe_visible_iff. by apply Hv, Hlb.
Qed.

Lemma lookup_probe_newest_witness :
  let l := [mkIKey [x6b] 10 Value; mkIKey [x6b] 5 Value; mkIKey [x6b] 1 Value] in
  StronglySorted ikey_lt l ∧
  lower_bound (for_lookup [x6b] 7) l = Some (mkIKey [x6b] 5 Value) ∧
  (∀ e', e' ∈ l → probe_visible [x6b] 7 e' → sequence e' ≤ 5).
Proof.
  cbv zeta.
  assert (StronglySorted ikey_lt
    [mkIKey [x6b] 10 Value; mkIKey [x6b] 5 Value; mkIKey [x6b] 1 Value]) as Hs
    by (repeat constructor).
  split; [exact Hs|]. split; [reflexivity|].
  pose proof (lookup_probe_newest [x6b] 7 _ Hs) as H. exact (proj2 H).
Defined.
