(* ===== verification/BatchKernel.v ===== *)
(** Write batches: [crates/pedradb-core/src/batch_kernel.rs].

    The logical WAL payload of a commit: a versioned list of operations. Version
    2 omits the value of an operation whose [Bytes] handle is the same pointer
    as the previous one. A [Bytes] handle is modelled by its pointer and its
    contents, so sharing is visible; the encoder is modelled as written, by
    indexed copies into a pre-sized buffer that would panic out of range. *)

From S2P Require Import Prelude ErrorKernel KeyKernel.

Local Open Scope Z_scope.

Definition WRITE_RECORD_VERSION : Z := 1.
Definition WRITE_RECORD_VERSION_V2 : Z := 2.
Definition KIND_REUSE_PREV : Z := 128.

(** [write_admission_kernel::batch_is_empty]. *)
Definition batch_is_empty (n : nat) : bool := (n =? 0)%nat.

(** A [bytes::Bytes] handle: [as_ptr] and the bytes it views. *)
Record Bytes := mkBytes { as_ptr : Z; as_ref : list byte }.

Definition bytes_len (b : Bytes) : nat := length (as_ref b).

Record WriteOp := mkOp {
  op_kind : ValueType;
  op_sequence : Z;
  op_key : list byte;
  op_value : Bytes
}.

(** [WriteOp::put] / [delete] / [delete_range]; [Bytes::new()] is the empty
    static slice. *)
Definition bytes_new : Bytes := mkBytes 0 [].
Definition op_put (seq : Z) (key : list byte) (value : Bytes) : WriteOp :=
  mkOp Value seq key value.
Definition op_delete (seq : Z) (key : list byte) : WriteOp :=
  mkOp Deletion seq key bytes_new.
Definition op_delete_range (seq : Z) (start : list byte) (end_ : Bytes) : WriteOp :=
  mkOp RangeDeletion seq start end_.

(** [PartialEq for WriteOp]: [Bytes] compare by contents. *)
Definition op_eq (a b : WriteOp) : Prop :=
  op_kind a = op_kind b ∧ op_sequence a = op_sequence b ∧
  op_key a = op_key b ∧ as_ref (op_value a) = as_ref (op_value b).

(** [value_ptr_eq]. *)
Definition value_ptr_eq (a b : WriteOp) : bool :=
  negb (batch_is_empty (bytes_len (op_value a))) &&
  (bytes_len (op_value a) =? bytes_len (op_value b))%nat &&
  (as_ptr (op_value a) =? as_ptr (op_value b)).

(** [share_consecutive_equal_values]: index [i] from 1, [prev] is the already
    rewritten predecessor. *)
Definition share_step (prev cur : WriteOp) : WriteOp :=
  if bool_decide (op_kind cur ≠ Value) || bool_decide (op_kind prev ≠ Value)
     || batch_is_empty (bytes_len (op_value cur))
     || (as_ptr (op_value prev) =? as_ptr (op_value cur))
     || negb (bytes_eqb (as_ref (op_value prev)) (as_ref (op_value cur)))
  then cur
  else mkOp (op_kind cur) (op_sequence cur) (op_key cur) (op_value prev).

Fixpoint share_from (prev : WriteOp) (ops : list WriteOp) : list WriteOp :=
  match ops with
  | [] => []
  | cur :: rest => let cur' := share_step prev cur in cur' :: share_from cur' rest
  end.

Definition share_consecutive_equal_values (ops : list WriteOp) : list WriteOp :=
  match ops with
  | [] => []
  | op :: rest => op :: share_from op rest
  end.

(** [ops.windows(2).any(..)]. *)
Fixpoint record_uses_v2 (ops : list WriteOp) : bool :=
  match ops with
  | a :: (b :: _) as rest => value_ptr_eq a b || record_uses_v2 rest
  | _ => false
  end.

Definition op_encoded_len (o : WriteOp) : nat :=
  (1 + 8 + 4 + length (op_key o) + 4 + bytes_len (op_value o))%nat.

(** Is [op] encoded without its value, given the previous operation? *)
Definition reuses (v2 : bool) (prev : option WriteOp) (op : WriteOp) : bool :=
  match prev with
  | Some p => v2 && value_ptr_eq p op
  | None => false
  end.

Fixpoint encoded_len_from (v2 : bool) (prev : option WriteOp) (ops : list WriteOp) : nat :=
  match ops with
  | [] => 0
  | o :: rest =>
      ((if reuses v2 prev o then 1 + 8 + 4 + length (op_key o) else op_encoded_len o)
       + encoded_len_from v2 (Some o) rest)%nat
  end.

Definition encoded_len (ops : list WriteOp) : nat :=
  (1 + 4 + encoded_len_from (record_uses_v2 ops) None ops)%nat.

(** [buf[i..i + n].copy_from_slice(src)]: panics ([None]) out of range. *)
Definition copy_at (i : nat) (src buf : list byte) : option (list byte) :=
  if (i + length src <=? length buf)%nat
  then Some (take i buf ++ src ++ drop (i + length src) buf)
  else None.

(** The write head of [encode_ops]: next index and buffer. *)
Definition put (src : list byte) (st : nat * list byte) : option (nat * list byte) :=
  let '(i, buf) := st in
  buf' ← copy_at i src buf; Some ((i + length src)%nat, buf').

Definition kind_byte (op : WriteOp) (reuse : bool) : byte :=
  Z2b (Z.lor (as_u8 (op_kind op)) (if reuse then KIND_REUSE_PREV else 0)).

Definition encode_op_at (reuse : bool) (op : WriteOp) (st : nat * list byte)
    : option (nat * list byte) :=
  st ← put [kind_byte op reuse] st;
  st ← put (to_le 8 (op_sequence op)) st;
  st ← put (to_le 4 (u32_or_max (length (op_key op)))) st;
  st ← put (op_key op) st;
  if reuse then Some st
  else
    st ← put (to_le 4 (u32_or_max (bytes_len (op_value op)))) st;
    put (as_ref (op_value op)) st.

Fixpoint encode_ops_at (v2 : bool) (prev : option WriteOp) (ops : list WriteOp)
    (st : nat * list byte) : option (nat * list byte) :=
  match ops with
  | [] => Some st
  | op :: rest =>
      st ← encode_op_at (reuses v2 prev op) op st;
      encode_ops_at v2 (Some op) rest st
  end.

(** [encode_ops(ops, out)]: one resize, then indexed copies. *)
Definition encode_ops (ops : list WriteOp) (out : list byte) : option (list byte) :=
  let n := encoded_len ops in
  let v2 := record_uses_v2 ops in
  let version := if v2 then WRITE_RECORD_VERSION_V2 else WRITE_RECORD_VERSION in
  st ← put [Z2b version] (0%nat, replicate n x00);
  st ← put (to_le 4 (u32_or_max (length ops))) st;
  st ← encode_ops_at v2 None ops st;
  Some (out ++ snd st).

(** [write_record_count_ok] and its shipped faulty twin. *)
Definition write_record_count_ok (count : Z) (decoded_len : nat) : bool :=
  Z.of_nat decoded_len =? count.
Definition write_record_count_ok_as_is (_count : Z) (_decoded_len : nat) : bool := true.

(** ** Decoding *)

Record Cursor := mkCursor { cur_data : list byte; cur_pos : nat }.

Definition read_slice (len : nat) (c : Cursor) : Result CoreError (list byte * Cursor) :=
  let end_ := (cur_pos c + len)%nat in
  if U64_MAX <? Z.of_nat end_ then
    Err (Internal [Lit "write record length overflow"])
  else if (length (cur_data c) <? end_)%nat then
    Err (Internal [Lit "write record truncated: need "; Num (Z.of_nat len);
                   Lit " bytes at pos "; Num (Z.of_nat (cur_pos c))])
  else Ok (take len (drop (cur_pos c) (cur_data c)), mkCursor (cur_data c) end_).

Definition read_u8 (c : Cursor) : Result CoreError (Z * Cursor) :=
  let? '(s, c) := read_slice 1 c in Ok (from_le s, c).
Definition read_u32 (c : Cursor) : Result CoreError (Z * Cursor) :=
  let? '(s, c) := read_slice 4 c in Ok (from_le s, c).
Definition read_u64 (c : Cursor) : Result CoreError (Z * Cursor) :=
  let? '(s, c) := read_slice 8 c in Ok (from_le s, c).

(** One iteration of the decode loop. [heap] is the next free pointer:
    [Bytes::copy_from_slice] allocates, [prev.value.clone()] shares. *)
Definition decode_op (version : Z) (prev : option WriteOp) (heap : Z) (c : Cursor)
    : Result CoreError (WriteOp * Z * Cursor) :=
  let? '(kb, c) := read_u8 c in
  let reuse := (version =? WRITE_RECORD_VERSION_V2) && negb (Z.land kb KIND_REUSE_PREV =? 0) in
  match from_u8 (Z.land kb 127) with
  | None => Err (Internal [Lit "unknown write op kind: "; Num kb])
  | Some k =>
      let? '(seq, c) := read_u64 c in
      let? '(key_len, c) := read_u32 c in
      let? '(key, c) := read_slice (Z.to_nat key_len) c in
      if reuse then
        match prev with
        | None => Err (Internal [Lit "v2 value-reuse with no previous op"])
        | Some p => Ok (mkOp k seq key (op_value p), heap, c)
        end
      else
        let? '(val_len, c) := read_u32 c in
        let? '(v, c) := read_slice (Z.to_nat val_len) c in
        Ok (mkOp k seq key (mkBytes heap v), heap + 1, c)
  end.

Fixpoint decode_loop (version : Z) (count : nat) (ops : list WriteOp) (heap : Z) (c : Cursor)
    : Result CoreError (list WriteOp * Z * Cursor) :=
  match count with
  | O => Ok (ops, heap, c)
  | S n =>
      let? '(op, heap, c) := decode_op version (last ops) heap c in
      decode_loop version n (ops ++ [op]) heap c
  end.

(** [WriteRecord::decode]. *)
Definition decode_record (heap : Z) (bytes : list byte) : Result CoreError (list WriteOp) :=
  let? '(version, c) := read_u8 (mkCursor bytes 0) in
  if negb (version =? WRITE_RECORD_VERSION) && negb (version =? WRITE_RECORD_VERSION_V2) then
    Err (Internal [Lit "unsupported write record version: "; Num version])
  else
    let? '(count_raw, c) := read_u32 c in
    let min_op := if version =? WRITE_RECORD_VERSION_V2
                  then (1 + 8 + 4)%nat else (1 + 8 + 4 + 4)%nat in
    let rem := (length bytes - cur_pos c)%nat in
    let max_ops := (rem / min_op)%nat in
    if Z.of_nat max_ops <? count_raw then
      Err (Internal [Lit "write record op count "; Num count_raw;
                     Lit " exceeds remaining "; Num (Z.of_nat rem); Lit " bytes"])
    else
      let? '(ops, _, c) := decode_loop version (Z.to_nat count_raw) [] heap c in
      if negb (batch_is_empty (length (cur_data c) - cur_pos c)) then
        Err (Internal [Lit "trailing bytes after write record"])
      else if negb (write_record_count_ok count_raw (length ops)) then
        Err (Internal [Lit "write record decoded "; Num (Z.of_nat (length ops));
                       Lit " ops, header count "; Num count_raw])
      else Ok ops.

(** [WriteRecord::max_sequence]. *)
Definition max_sequence (ops : list WriteOp) : option Z :=
  foldl (λ m o, Some (match m with None => op_sequence o | Some x => Z.max x (op_sequence o) end))
        None ops.

(** ** Specification of the encoding, as a concatenation *)

Definition encode_op (reuse : bool) (op : WriteOp) : list byte :=
  [kind_byte op reuse] ++ to_le 8 (op_sequence op) ++
  to_le 4 (u32_or_max (length (op_key op))) ++ op_key op ++
  (if reuse then [] else to_le 4 (u32_or_max (bytes_len (op_value op))) ++ as_ref (op_value op)).

Fixpoint encode_ops_from (v2 : bool) (prev : option WriteOp) (ops : list WriteOp) : list byte :=
  match ops with
  | [] => []
  | op :: rest => encode_op (reuses v2 prev op) op ++ encode_ops_from v2 (Some op) rest
  end.

Definition record_head (v2 : bool) (count : nat) : list byte :=
  [Z2b (if v2 then WRITE_RECORD_VERSION_V2 else WRITE_RECORD_VERSION)] ++
  to_le 4 (u32_or_max count).

Definition encode_spec (ops : list WriteOp) : list byte :=
  let v2 := record_uses_v2 ops in
  record_head v2 (length ops) ++ encode_ops_from v2 None ops.

(** Two handles with the same pointer and length view the same bytes: what the
    immutability of live [Bytes] gives for the operations of a batch. *)
Definition ptr_coherent (ops : list WriteOp) : Prop :=
  ∀ a b, a ∈ ops → b ∈ ops → value_ptr_eq a b = true →
    as_ref (op_value a) = as_ref (op_value b).

(** The part of it the codec needs: adjacent operations. *)
Fixpoint ptr_coherent_from (prev : option WriteOp) (ops : list WriteOp) : Prop :=
  match ops with
  | [] => True
  | op :: rest =>
      match prev with
      | Some p => value_ptr_eq p op = true → as_ref (op_value p) = as_ref (op_value op)
      | None => True
      end ∧ ptr_coherent_from (Some op) rest
  end.

(** The widths the codec has: 64-bit sequences, 32-bit lengths and count. *)
Definition op_fits (o : WriteOp) : Prop :=
  0 ≤ op_sequence o ≤ U64_MAX ∧ Z.of_nat (length (op_key o)) ≤ U32_MAX ∧
  Z.of_nat (bytes_len (op_value o)) ≤ U32_MAX.

Definition record_fits (ops : list WriteOp) : Prop :=
  Forall op_fits ops ∧ Z.of_nat (length ops) ≤ U32_MAX ∧
  Z.of_nat (encoded_len ops) ≤ U64_MAX.

(** ** The indexed encoder is the concatenation *)

Lemma length_encode_op reuse op :
  length (encode_op reuse op) =
    (if reuse then 1 + 8 + 4 + length (op_key op) else op_encoded_len op)%nat.
Proof.
  unfold encode_op, op_encoded_len, bytes_len.
  destruct reuse; rewrite ?length_app, ?length_to_le; simpl; rewrite ?length_app, ?length_to_le;
    simpl; lia.
Qed.

Lemma length_encode_ops_from v2 prev ops :
  length (encode_ops_from v2 prev ops) = encoded_len_from v2 prev ops.
Proof.
  revert prev. induction ops as [|o ops IH]; intros prev; [done|].
  cbn [encode_ops_from encoded_len_from]. by rewrite length_app, length_encode_op, IH.
Qed.

Lemma length_encode_spec ops : length (encode_spec ops) = encoded_len ops.
Proof.
  unfold encode_spec, encoded_len, record_head.
  rewrite !length_app, length_to_le, length_encode_ops_from. done.
Qed.

Lemma put_ok d k src :
  (length src ≤ k)%nat →
  put src (length d, d ++ replicate k x00) =
    Some (length (d ++ src), (d ++ src) ++ replicate (k - length src) x00).
Proof.
  intros Hk. unfold put, copy_at. rewrite length_app, length_replicate.
  rewrite (proj2 (Nat.leb_le _ _)) by lia. cbn [mbind option_bind].
  rewrite take_app_length, drop_app_ge by lia.
  replace (length d + length src - length d)%nat with (length src) by lia.
  rewrite drop_replicate, length_app, (assoc_L (++)). done.
Qed.

Lemma encode_op_at_ok reuse op d k :
  (length (encode_op reuse op) ≤ k)%nat →
  encode_op_at reuse op (length d, d ++ replicate k x00) =
    Some (length (d ++ encode_op reuse op),
          (d ++ encode_op reuse op) ++ replicate (k - length (encode_op reuse op)) x00).
Proof.
  rewrite length_encode_op. intros Hk. unfold encode_op_at.
  unfold op_encoded_len, bytes_len in Hk.
  rewrite put_ok by (destruct reuse; simpl in *; lia). cbn [mbind option_bind].
  rewrite put_ok by (rewrite length_to_le; destruct reuse; simpl in *; lia).
  cbn [mbind option_bind].
  rewrite put_ok by (rewrite !length_to_le; destruct reuse; simpl in *; lia).
  cbn [mbind option_bind].
  rewrite put_ok by (rewrite !length_to_le; destruct reuse; simpl in *; lia).
  cbn [mbind option_bind]. unfold encode_op.
  destruct reuse.
  - rewrite app_nil_r, <-!(assoc_L (++)), !length_to_le. cbn [length].
    f_equal_lia.
  - unfold bytes_len.
    rewrite put_ok by (rewrite !length_to_le; simpl in *; lia). cbn [mbind option_bind].
    rewrite put_ok by (rewrite !length_to_le; simpl in *; lia).
    rewrite <-!(assoc_L (++)), !length_to_le. cbn [length].
    unfold op_encoded_len, bytes_len. f_equal_lia.
Qed.

Lemma encode_ops_at_ok v2 ops prev d k :
  (length (encode_ops_from v2 prev ops) ≤ k)%nat →
  encode_ops_at v2 prev ops (length d, d ++ replicate k x00) =
    Some (length (d ++ encode_ops_from v2 prev ops),
          (d ++ encode_ops_from v2 prev ops) ++
          replicate (k - length (encode_ops_from v2 prev ops)) x00).
Proof.
  revert prev d k. induction ops as [|op ops IH]; intros prev d k Hk.
  - cbn [encode_ops_from encode_ops_at length]. by rewrite app_nil_r, Nat.sub_0_r.
  - cbn [encode_ops_from encode_ops_at] in *. rewrite length_app in Hk.
    rewrite encode_op_at_ok by lia. cbn [mbind option_bind].
    rewrite IH by lia. rewrite <-!(assoc_L (++)), (length_app (encode_op _ _)). f_equal_lia.
Qed.

Lemma encode_ops_spec ops out : encode_ops ops out = Some (out ++ encode_spec ops).
Proof.
  unfold encode_ops. rewrite <-length_encode_spec. unfold encode_spec, record_head.
  rewrite !length_app, length_to_le.
  pose proof (put_ok [] ) as Hput. cbn [length app] in Hput.
  rewrite Hput by (simpl; lia). cbn [mbind option_bind].
  rewrite (put_ok [_]) by (rewrite length_to_le; simpl; lia). cbn [mbind option_bind].
  rewrite encode_ops_at_ok by (rewrite length_to_le; simpl; lia). cbn [mbind option_bind snd].
  rewrite length_to_le. cbn [length].
  replace (_ - _)%nat with 0%nat by lia. by rewrite app_nil_r.
Qed.

(** ** Reading back what was written *)

Definition cur_at (d r : list byte) : Cursor := mkCursor (d ++ r) (length d).

Lemma read_slice_at d s r :
  Z.of_nat (length (d ++ s ++ r)) ≤ U64_MAX →
  read_slice (length s) (cur_at d (s ++ r)) = Ok (s, cur_at (d ++ s) r).
Proof.
  intros Hl. unfold read_slice, cur_at. cbn [cur_pos cur_data].
  rewrite !length_app in Hl.
  rewrite (proj2 (Z.ltb_ge _ _)) by lia.
  rewrite (proj2 (Nat.ltb_ge _ _)) by (rewrite !length_app; lia).
  rewrite drop_app_length, take_app_length, length_app, (assoc_L (++)). done.
Qed.

Lemma read_int_at n z d r :
  0 ≤ z < 256 ^ Z.of_nat n →
  Z.of_nat (length (d ++ to_le n z ++ r)) ≤ U64_MAX →
  (let? '(s, c) := read_slice n (cur_at d (to_le n z ++ r)) in Ok (from_le s, c)) =
    Ok (z, cur_at (d ++ to_le n z) r).
Proof.
  intros Hz Hl. pose proof (read_slice_at d (to_le n z) r Hl) as H.
  rewrite length_to_le in H. rewrite H. simpl. by rewrite from_le_to_le.
Qed.

Lemma kind_byte_spec op reuse :
  b2Z (kind_byte op reuse) = as_u8 (op_kind op) + (if reuse then 128 else 0).
Proof. unfold kind_byte. destruct reuse, (op_kind op); reflexivity. Qed.

Lemma kind_byte_kind k (reuse : bool) :
  from_u8 (Z.land (as_u8 k + (if reuse then 128 else 0)) 127) = Some k.
Proof. by destruct reuse, k. Qed.

Lemma kind_byte_reuse k (reuse : bool) :
  negb (Z.land (as_u8 k + (if reuse then 128 else 0)) KIND_REUSE_PREV =? 0) = reuse.
Proof. by destruct reuse, k. Qed.

Lemma read_u8_at b d r :
  Z.of_nat (length (d ++ [b] ++ r)) ≤ U64_MAX →
  read_u8 (cur_at d ([b] ++ r)) = Ok (b2Z b, cur_at (d ++ [b]) r).
Proof.
  intros Hl. unfold read_u8. change 1%nat with (length [b]).
  rewrite (read_slice_at d [b] r Hl). cbn [res_bind].
  by rewrite from_le_cons, from_le_nil, Z.mul_0_r, Z.add_0_r.
Qed.

Lemma read_u32_at z d r :
  0 ≤ z ≤ U32_MAX → Z.of_nat (length (d ++ to_le 4 z ++ r)) ≤ U64_MAX →
  read_u32 (cur_at d (to_le 4 z ++ r)) = Ok (z, cur_at (d ++ to_le 4 z) r).
Proof.
  unfold U32_MAX. intros Hz Hl. apply read_int_at; [|done].
  assert (256 ^ Z.of_nat 4 = 4294967296) as -> by reflexivity. lia.
Qed.

Lemma read_u64_at z d r :
  0 ≤ z ≤ U64_MAX → Z.of_nat (length (d ++ to_le 8 z ++ r)) ≤ U64_MAX →
  read_u64 (cur_at d (to_le 8 z ++ r)) = Ok (z, cur_at (d ++ to_le 8 z) r).
Proof.
  unfold U64_MAX at 1. intros Hz Hl. apply read_int_at; [|done].
  assert (256 ^ Z.of_nat 8 = 18446744073709551616) as -> by reflexivity. lia.
Qed.

Lemma read_len_at s d r :
  Z.of_nat (length s) ≤ U32_MAX →
  Z.of_nat (length (d ++ to_le 4 (u32_or_max (length s)) ++ s ++ r)) ≤ U64_MAX →
  (let? '(n, c) := read_u32 (cur_at d (to_le 4 (u32_or_max (length s)) ++ s ++ r)) in
   read_slice (Z.to_nat n) c) =
    Ok (s, cur_at (d ++ to_le 4 (u32_or_max (length s)) ++ s) r).
Proof.
  intros Hs Hl. assert (u32_or_max (length s) = Z.of_nat (length s)) as Hu
    by (unfold u32_or_max; lia).
  rewrite Hu in *. rewrite read_u32_at by (done || lia). cbn [res_bind].
  rewrite Nat2Z.id, read_slice_at by (rewrite <-(assoc_L (++)); done).
  by rewrite <-(assoc_L (++)).
Qed.

(** What decoding one encoded operation returns: the value is shared with the
    predecessor or freshly allocated. *)
Definition decoded_op (heap : Z) (prev : option WriteOp) (reuse : bool) (op : WriteOp) : WriteOp :=
  mkOp (op_kind op) (op_sequence op) (op_key op)
       (match reuse, prev with
        | true, Some p => op_value p
        | _, _ => mkBytes heap (as_ref (op_value op))
        end).

Lemma res_bind_assoc {E A B C} (r : Result E A) (f : A → Result E B) (g : B → Result E C) :
  res_bind (res_bind r f) g = res_bind r (λ x, res_bind (f x) g).
Proof. by destruct r. Qed.

Lemma decode_op_at version heap prev reuse op d r :
  op_fits op →
  (reuse = true → version = WRITE_RECORD_VERSION_V2 ∧ is_Some prev) →
  Z.of_nat (length (d ++ encode_op reuse op ++ r)) ≤ U64_MAX →
  decode_op version prev heap (cur_at d (encode_op reuse op ++ r)) =
    Ok (decoded_op heap prev reuse op,
        (if reuse then heap else heap + 1),
        cur_at (d ++ encode_op reuse op) r).
Proof.
  intros (Hseq & Hk & Hv) Hreuse Hl. unfold decode_op, encode_op in *.
  rewrite <-!(assoc_L (++)) in *.
  rewrite read_u8_at by done. cbn [res_bind].
  rewrite kind_byte_spec, kind_byte_kind, kind_byte_reuse.
  rewrite (assoc_L (++)) in Hl. rewrite read_u64_at by done. cbn [res_bind].
  rewrite (assoc_L (++)) in Hl.
  pose proof (read_len_at _ _ _ Hk Hl) as Hkey.
  destruct (read_u32 _) as [[n c]|] eqn:Hn; [|done]. cbn [res_bind] in *.
  rewrite Hkey. cbn [res_bind]. clear Hkey Hn n c.
  destruct reuse.
  - destruct (Hreuse eq_refl) as [-> [p ->]]. cbn [andb Z.eqb Pos.eqb WRITE_RECORD_VERSION_V2].
    cbn [decoded_op]. rewrite app_nil_l, app_nil_r, <-!(assoc_L (++)). done.
  - rewrite andb_false_r. rewrite <-!(assoc_L (++)) in *.
    rewrite (assoc_L (++) d), (assoc_L (++) (d ++ _)), (assoc_L (++) ((d ++ _) ++ _)),
      (assoc_L (++) (((d ++ _) ++ _) ++ _)) in Hl.
    pose proof (read_len_at _ _ _ Hv Hl) as Hval.
    rewrite <-!(assoc_L (++)) in *. unfold bytes_len in *.
    destruct (read_u32 _) as [[n c]|] eqn:Hn; [|done]. cbn [res_bind] in *.
    rewrite Hval. cbn [res_bind]. unfold decoded_op. by destruct prev.
Qed.

#[export] Instance op_eq_equiv : Equivalence op_eq.
Proof.
  split.
  - by intros a.
  - intros a b (?&?&?&?). by split_and!.
  - intros a b c (?&?&?&?) (?&?&?&?). split_and!; congruence.
Qed.

Lemma reuses_Some v2 prev op :
  reuses v2 prev op = true → v2 = true ∧ ∃ p, prev = Some p ∧ value_ptr_eq p op = true.
Proof. unfold reuses. destruct prev as [p|]; [|done]. intros [-> ?]%andb_true_iff. eauto. Qed.

Lemma ptr_coherent_adjacent ops : ptr_coherent ops → ptr_coherent_from None ops.
Proof.
  intros Hc. assert (∀ prev l, (∀ p, prev = Some p → p ∈ ops) → l ⊆ ops →
                     ptr_coherent_from prev l) as H; [|by apply H].
  intros prev l. revert prev. induction l as [|o l IH]; intros prev Hp Hl; [done|].
  assert (o ∈ ops) as Ho by set_solver.
  split; [|apply IH; [|set_solver]].
  - destruct prev as [p|]; [|done]. apply Hc; [by apply Hp|done].
  - by intros ? [= <-].
Qed.

(** The decoder's accumulator agrees with the encoder's predecessor. *)
Definition prev_agrees (prev : option WriteOp) (acc : list WriteOp) : Prop :=
  match prev with
  | None => acc = []
  | Some p => ∃ q, last acc = Some q ∧ op_eq p q
  end.

Lemma decode_loop_at (v2 : bool) ops prev acc heap d r :
  Forall op_fits ops → ptr_coherent_from prev ops → prev_agrees prev acc →
  Z.of_nat (length (d ++ encode_ops_from v2 prev ops ++ r)) ≤ U64_MAX →
  ∃ ops' heap',
    decode_loop (if v2 then WRITE_RECORD_VERSION_V2 else WRITE_RECORD_VERSION)
      (length ops) acc heap (cur_at d (encode_ops_from v2 prev ops ++ r)) =
      Ok (acc ++ ops', heap', cur_at (d ++ encode_ops_from v2 prev ops) r) ∧
    Forall2 op_eq ops ops'.
Proof.
  revert prev acc heap d. induction ops as [|op ops IH]; intros prev acc heap d Hf Hc Ha Hl.
  { exists [], heap. cbn [encode_ops_from decode_loop length app]. by rewrite !app_nil_r. }
  apply Forall_cons_1 in Hf as [Hop Hf]. destruct Hc as [Hcp Hc].
  cbn [encode_ops_from length decode_loop] in *. rewrite <-(assoc_L (++)) in *.
  assert (reuses v2 prev op = true →
          (if v2 then WRITE_RECORD_VERSION_V2 else WRITE_RECORD_VERSION)
            = WRITE_RECORD_VERSION_V2 ∧ is_Some (last acc)) as Hre.
  { intros (-> & p & -> & _)%reuses_Some. destruct Ha as (q & Hq & _). eauto. }
  rewrite (decode_op_at _ _ _ _ _ _ _ Hop Hre Hl). cbn [res_bind].
  set (op' := decoded_op _ _ _ _).
  assert (op_eq op op') as Heq.
  { unfold op', decoded_op, op_eq. cbn. split_and!; try done.
    destruct (reuses v2 prev op) eqn:Hr; [|by destruct (last acc)].
    apply reuses_Some in Hr as (-> & p & -> & Hpe).
    destruct Ha as (q & -> & Hq). rewrite <-(Hcp Hpe). apply Hq. }
  destruct (IH (Some op) (acc ++ [op']) (if reuses v2 prev op then heap else heap + 1)
              (d ++ encode_op (reuses v2 prev op) op)) as (ops' & heap' & Hdec & Hall);
    [done|done| |by rewrite <-(assoc_L (++))|].
  { exists op'. by rewrite last_snoc. }
  exists (op' :: ops'), heap'. rewrite Hdec, <-!(assoc_L (++)). split; [done|]. by constructor.
Qed.

Lemma encoded_len_from_ge (v2 : bool) prev ops :
  ((if v2 then 13 else 17) * length ops ≤ encoded_len_from v2 prev ops)%nat.
Proof.
  revert prev. induction ops as [|o ops IH]; intros prev; [simpl; lia|].
  specialize (IH (Some o)). cbn [encoded_len_from length].
  unfold op_encoded_len. destruct v2; [case_match; lia|].
  assert (reuses false prev o = false) as -> by (by destruct prev). lia.
Qed.

(** A batch survives its encoding. For every batch within the codec's
    widths whose equal pointers view equal bytes, [encode_ops] does not panic,
    appends exactly [encoded_len] bytes, and [WriteRecord::decode] of those
    bytes succeeds with operations equal to the originals, whether or not the
    encoder chose the value-sharing version 2. *)
Theorem decode_encode_ops ops out heap :
  record_fits ops → ptr_coherent ops →
  ∃ enc ops',
    encode_ops ops out = Some (out ++ enc) ∧ length enc = encoded_len ops ∧
    decode_record heap enc = Ok ops' ∧ Forall2 op_eq ops ops'.
Proof.
  intros (Hf & Hn & Hlen) Hc. exists (encode_spec ops).
  rewrite encode_ops_spec, length_encode_spec.
  pose proof (length_encode_spec ops) as Hle.
  set (v2 := record_uses_v2 ops) in *.
  destruct (decode_loop_at v2 ops None [] heap (record_head v2 (length ops)) [])
    as (ops' & heap' & Hdec & Hall); [done|by apply ptr_coherent_adjacent|done| |].
  { rewrite app_nil_r. fold v2 in Hle. unfold encode_spec in Hle. fold v2 in Hle. lia. }
  exists ops'. split_and!; [done|done| |done].
  unfold decode_record, encode_spec in *. fold v2 in Hle |- *. unfold record_head in *.
  rewrite app_nil_r in Hdec. rewrite <-!(assoc_L (++)) in *.
  change (mkCursor ?b 0) with (cur_at [] b).
  rewrite read_u8_at by len. cbn [res_bind].
  assert (b2Z (Z2b (if v2 then WRITE_RECORD_VERSION_V2 else WRITE_RECORD_VERSION)) =
          if v2 then WRITE_RECORD_VERSION_V2 else WRITE_RECORD_VERSION) as ->
    by (by destruct v2).
  assert (u32_or_max (length ops) = Z.of_nat (length ops)) as Hu by (unfold u32_or_max; lia).
  rewrite Hu in *. rewrite read_u32_at by len. cbn [res_bind].
  rewrite (Nat2Z.id (length ops)).
  pose proof (encoded_len_from_ge v2 None ops) as Hge.
  rewrite <-length_encode_ops_from in Hge.
  assert (length ops ≤ (length ([Z2b (if v2 then WRITE_RECORD_VERSION_V2 else
      WRITE_RECORD_VERSION)] ++ to_le 4 (Z.of_nat (length ops)) ++ encode_ops_from v2 None ops)
      - 5) / (if v2 then 13 else 17))%nat as Hcnt.
  { apply Nat.div_le_lower_bound; [by destruct v2|]. len. }
  unfold cur_at in *. cbn [cur_pos cur_data app] in *. rewrite app_nil_r in Hdec.
  assert (∀ b, length (b :: to_le 4 (Z.of_nat (length ops))) = 5%nat) as H5 by (intros; len).
  rewrite !H5 in *.
  destruct v2; cbn [Z.eqb Pos.eqb WRITE_RECORD_VERSION_V2 WRITE_RECORD_VERSION negb andb] in *;
    (rewrite (proj2 (Z.ltb_ge _ _)) by (apply Nat2Z.inj_le, Hcnt); rewrite Hdec; cbn [res_bind cur_data cur_pos];
     unfold batch_is_empty, write_record_count_ok; rewrite <-(Forall2_length _ _ _ Hall);
     rewrite Z.eqb_refl; rewrite (proj2 (Nat.eqb_eq _ 0)) by len; done).
Qed.

(** Three puts sharing one interned payload (so version 2 is chosen) and a
    delete. *)
Definition sample_ops : list WriteOp :=
  [op_put 1 [x61] (mkBytes 7 [x70; x70]); op_put 2 [x62] (mkBytes 7 [x70; x70]);
   op_delete 3 [x63]].

Lemma decode_encode_ops_witness :
  record_fits sample_ops ∧ ptr_coherent sample_ops ∧ record_uses_v2 sample_ops = true ∧
  ∃ enc ops',
    encode_ops sample_ops [xde] = Some ([xde] ++ enc) ∧ length enc = encoded_len sample_ops ∧
    decode_record 100 enc = Ok ops' ∧ Forall2 op_eq sample_ops ops'.
Proof.
  assert (record_fits sample_ops) as Hf.
  { split; [repeat constructor; vm_compute; discriminate|].
    split; vm_compute; discriminate. }
  assert (ptr_coherent sample_ops) as Hc.
  { intros a b. unfold sample_ops. rewrite !elem_of_cons, !elem_of_nil.
    intros [->|[->|[->|[]]]] [->|[->|[->|[]]]]; try reflexivity; discriminate. }
  split; [exact Hf|]. split; [exact Hc|]. split; [reflexivity|].
  exact (decode_encode_ops sample_ops [xde] 100 Hf Hc).
Defined.

(** ** Prefix freedom *)

(** Extending the input keeps every successful read, and a read never leaves
    the input. *)
Definition reader_mono {A} (f : Cursor → Result CoreError (A * Cursor)) : Prop :=
  ∀ d p s v c, Z.of_nat (length (d ++ s)) ≤ U64_MAX →
    f (mkCursor d p) = Ok (v, c) →
    ((p ≤ length d)%nat → (cur_pos c ≤ length d)%nat) ∧
    cur_data c = d ∧ f (mkCursor (d ++ s) p) = Ok (v, mkCursor (d ++ s) (cur_pos c)).

Lemma reader_mono_slice n : reader_mono (read_slice n).
Proof.
  intros d p s v c Hl. unfold read_slice. cbn [cur_data cur_pos].
  destruct (Z.ltb_spec U64_MAX (Z.of_nat (p + n))); [done|].
  destruct (Nat.ltb_spec (length d) (p + n)); [done|].
  intros [= <- <-]. cbn [cur_data cur_pos]. split_and!; [done|done|].
  rewrite (proj2 (Nat.ltb_ge _ _)) by len.
  rewrite drop_app_le, take_app_le by len. done.
Qed.

Lemma reader_mono_bind {A B} (f : Cursor → Result CoreError (A * Cursor))
    (g : A → Cursor → Result CoreError (B * Cursor)) :
  reader_mono f → (∀ a, reader_mono (g a)) →
  reader_mono (λ c, let? '(a, c) := f c in g a c).
Proof.
  intros Hf Hg d p s v c Hl Hfg.
  destruct (f (mkCursor d p)) as [[a [d' p']]|] eqn:E; [|done]. cbn [res_bind] in Hfg.
  destruct (Hf _ _ s _ _ Hl E) as (Hp & Hd & E'). simpl in Hd, Hp. subst d'. rewrite E'.
  cbn [res_bind cur_pos]. destruct (Hg _ _ _ s _ _ Hl Hfg) as (? & ? & ?). naive_solver.
Qed.

Lemma reader_mono_ret {A} (a : A) : reader_mono (λ c, Ok (a, c)).
Proof. intros d p s v c _ [= <- <-]. done. Qed.

Lemma reader_mono_err {A} e : reader_mono (λ _, Err e : Result CoreError (A * Cursor)).
Proof. by intros d p s v c. Qed.

#[local] Hint Resolve reader_mono_slice reader_mono_ret reader_mono_err : rmono.
Ltac rmono :=
  repeat match goal with
         | |- reader_mono (λ _, res_bind _ _) => apply reader_mono_bind; [|intros ?]
         | |- reader_mono (λ _, match ?x with _ => _ end) => destruct x
         | _ => solve [auto with rmono]
         end.

Lemma reader_mono_ints :
  reader_mono read_u8 ∧ reader_mono read_u32 ∧ reader_mono read_u64.
Proof. unfold read_u8, read_u32, read_u64. split_and!; rmono. Qed.

Lemma reader_mono_op version prev heap : reader_mono (decode_op version prev heap).
Proof. destruct reader_mono_ints as (?&?&?). unfold decode_op. rmono. Qed.

Lemma reader_mono_loop version n acc heap : reader_mono (decode_loop version n acc heap).
Proof.
  revert acc heap. induction n as [|n IH]; intros acc heap; cbn [decode_loop]; [rmono|].
  assert (∀ oh, reader_mono (λ c, decode_loop version n (acc ++ [fst oh]) (snd oh) c)) as IH'
    by (intros []; apply IH).
  pose proof (reader_mono_bind _ _ (reader_mono_op version (last acc) heap) IH') as Hb.
  intros d p s v c Hl Hok. specialize (Hb d p s v c Hl). cbv beta in Hb.
  destruct (decode_op _ _ _ (mkCursor d p)) as [[[]]|];
    destruct (decode_op _ _ _ (mkCursor (d ++ s) p)) as [[[]]|]; by apply Hb.
Qed.

(** The encoding is prefix free. If a byte string decodes, every proper
    extension of it is refused (as trailing bytes or as a count that no longer
    fits); hence no torn batch is ever applied as a shorter batch. *)
Theorem decode_record_prefix_free heap b s ops :
  Z.of_nat (length (b ++ s)) ≤ U64_MAX → s ≠ [] →
  decode_record heap b = Ok ops → ∃ e, decode_record heap (b ++ s) = Err e.
Proof.
  intros Hl Hs. destruct reader_mono_ints as (H8 & H32 & _). unfold decode_record.
  destruct (read_u8 (mkCursor b 0)) as [[v [d1 p1]]|] eqn:E1; [|done]. cbn [res_bind].
  destruct (H8 _ _ s _ _ Hl E1) as (Hp1 & Hd1 & ->). simpl in Hd1, Hp1. subst d1.
  cbn [res_bind cur_pos]. destruct (negb (v =? _) && _); [done|].
  destruct (read_u32 (mkCursor b p1)) as [[cnt [d2 p2]]|] eqn:E2; [|done]. cbn [res_bind].
  destruct (H32 _ _ s _ _ Hl E2) as (Hp2 & Hd2 & ->). simpl in Hd2, Hp2. subst d2.
  cbn [res_bind cur_pos].
  destruct (Z.of_nat _ <? cnt); [done|]. destruct (Z.of_nat _ <? cnt); [eauto|].
  destruct (decode_loop v (Z.to_nat cnt) [] heap (mkCursor b p2)) as [[[l h] [d3 p3]]|] eqn:E3;
    [|done]. cbn [res_bind].
  destruct (reader_mono_loop _ _ _ _ _ _ s _ _ Hl E3) as (Hp3 & Hd3 & ->).
  simpl in Hd3, Hp3. subst d3. cbn [res_bind cur_pos cur_data]. intros _.
  unfold batch_is_empty at 1. rewrite (proj2 (Nat.eqb_neq _ _)); [simpl; eauto|].
  destruct s; [done|]. len.
Qed.

Lemma decode_record_prefix_free_witness :
  ∃ e, decode_record 0 ([x01; x00; x00; x00; x00] ++ [x2a]) = Err e.
Proof.
  apply (decode_record_prefix_free 0 [x01; x00; x00; x00; x00] [x2a] []);
    [vm_compute; discriminate|discriminate|reflexivity].
Defined.

(** ** Value interning *)

Lemma share_step_op_eq prev cur : op_eq cur (share_step prev cur).
Proof.
  unfold share_step. destruct (bool_decide _ || _ || _ || _ || _) eqn:E; [done|].
  rewrite !orb_false_iff, negb_false_iff, bytes_eqb_spec in E.
  unfold op_eq; cbn. naive_solver.
Qed.

Lemma share_from_op_eq prev ops : Forall2 op_eq ops (share_from prev ops).
Proof.
  revert prev. induction ops as [|o ops IH]; intros prev; constructor; [|apply IH].
  apply share_step_op_eq.
Qed.

Lemma share_from_values prev ops o :
  o ∈ share_from prev ops → op_value o = op_value prev ∨ ∃ x, x ∈ ops ∧ op_value o = op_value x.
Proof.
  revert prev. induction ops as [|c ops IH]; intros prev; cbn [share_from].
  { by intros ?%not_elem_of_nil. }
  assert (op_value (share_step prev c) = op_value prev ∨
          op_value (share_step prev c) = op_value c) as Hs
    by (unfold share_step; case_match; auto).
  setoid_rewrite elem_of_cons.
  intros [->|Hin]; [naive_solver|].
  destruct (IH _ Hin) as [Hv|(x&Hx&Hv)]; rewrite Hv; naive_solver.
Qed.

Lemma share_values ops o :
  o ∈ share_consecutive_equal_values ops → ∃ x, x ∈ ops ∧ op_value o = op_value x.
Proof.
  destruct ops as [|p ops]; cbn [share_consecutive_equal_values].
  { by intros ?%not_elem_of_nil. }
  setoid_rewrite elem_of_cons. intros [->|Hin]; [naive_solver|].
  apply share_from_values in Hin as [Hv|(x&Hx&Hv)]; naive_solver.
Qed.

Lemma share_from_adjacent prev ops i a b :
  (prev :: share_from prev ops) !! i = Some a →
  (prev :: share_from prev ops) !! S i = Some b →
  ∃ c, b = share_step a c.
Proof.
  revert prev i. induction ops as [|c ops IH]; intros prev i Ha Hb.
  { destruct i; done. }
  destruct i as [|i]; simpl in *; simplify_eq; [eauto|]. by eapply IH.
Qed.

(** Interning values before encoding is invisible to readers and always
    enables the sharing encoding. The rewritten batch is equal operation by
    operation, still views each pointer consistently, and any two adjacent
    puts with equal non-empty payloads end up on the same pointer. *)
Theorem share_consecutive_equal_values_sound ops :
  ptr_coherent ops →
  Forall2 op_eq ops (share_consecutive_equal_values ops) ∧
  ptr_coherent (share_consecutive_equal_values ops) ∧
  ∀ i a b, share_consecutive_equal_values ops !! i = Some a →
    share_consecutive_equal_values ops !! S i = Some b →
    op_kind a = Value → op_kind b = Value → as_ref (op_value a) ≠ [] →
    as_ref (op_value a) = as_ref (op_value b) → value_ptr_eq a b = true.
Proof.
  intros Hc. split_and!.
  - destruct ops as [|p ops]; constructor; [done|apply share_from_op_eq].
  - intros a b (x&Hx&Hax)%share_values (y&Hy&Hby)%share_values.
    unfold value_ptr_eq. rewrite Hax, Hby. by apply Hc.
  - destruct ops as [|p ops]; [done|]. cbn [share_consecutive_equal_values].
    intros i a b Ha Hb Hka Hkb Hne Heq.
    destruct (share_from_adjacent _ _ _ _ _ Ha Hb) as [c ->].
    assert (value_ptr_eq a a = true) as Haa.
    { unfold value_ptr_eq, batch_is_empty, bytes_len. rewrite Nat.eqb_refl, Z.eqb_refl.
      by destruct (as_ref (op_value a)). }
    destruct (share_step_op_eq a c) as (Hk & _ & _ & Hv).
    unfold share_step. destruct (bool_decide _ || _ || _ || _ || _) eqn:E; [|done].
    rewrite !orb_true_iff, !bool_decide_eq_true, negb_true_iff in E.
    destruct E as [[[[?|?]|Hemp]|Hptr]|Hdiff]; try congruence.
    + unfold batch_is_empty, bytes_len in Hemp. rewrite Hv, <-Heq in Hemp.
      by destruct (as_ref (op_value a)).
    + unfold value_ptr_eq, batch_is_empty, bytes_len in *. rewrite Hptr, Hv, <-Heq.
      rewrite Nat.eqb_refl in *. by destruct (as_ref (op_value a)).
    + unfold bytes_eqb in Hdiff. rewrite bool_decide_eq_false in Hdiff. congruence.
Qed.

Lemma share_consecutive_equal_values_sound_witness :
  let ops := [op_put 1 [x61] (mkBytes 7 [x70]); op_put 2 [x62] (mkBytes 8 [x70])] in
  ptr_coherent ops ∧ record_uses_v2 ops = false ∧
  record_uses_v2 (share_consecutive_equal_values ops) = true ∧
  Forall2 op_eq ops (share_consecutive_equal_values ops).
Proof.
  cbv zeta.
  assert (ptr_coherent [op_put 1 [x61] (mkBytes 7 [x70]); op_put 2 [x62] (mkBytes 8 [x70])]) as Hc.
  { intros a b. rewrite !elem_of_cons, !elem_of_nil.
    intros [->|[->|[]]] [->|[->|[]]]; try reflexivity; discriminate. }
  split; [exact Hc|]. split; [reflexivity|]. split; [reflexivity|].
  exact (proj1 (share_consecutive_equal_values_sound _ Hc)).
Defined.
