(* ===== verification/WalFormat.v ===== *)
(** WAL format: [wal/format_kernel.rs], [wal/crc_kernel.rs],
    [wal/recover_kernel.rs] and [wal_segment_seal_kernel.rs].

    Constants and record types, checksum masking, the pure recovery decisions,
    and the sentinel seal frame. The CRC-32C function itself comes from the
    [crc32c] crate: it is a parameter, the class [Crc32c]. *)

From S2P Require Import Prelude ErrorKernel BatchKernel.

Local Open Scope Z_scope.

(** * The checksum crate *)

(** [crc32c::crc32c_append] returns a [u32]; [crc32c::crc32c(data)] is
    [crc32c_append(0, data)]. *)
Class Crc32c := {
  crc32c_append : Z → list byte → Z;
  crc32c_append_u32 crc data : 0 ≤ crc32c_append crc data ≤ U32_MAX
}.

Definition crc32c `{Crc32c} (data : list byte) : Z := crc32c_append 0 data.

(** * [format_kernel.rs] *)

Definition BLOCK_SIZE : nat := Z.to_nat 32768.
Definition HEADER_SIZE : nat := 7.

(** As inequalities, for [lia]. *)
Lemma BLOCK_SIZE_val : 32768 ≤ Z.of_nat BLOCK_SIZE ≤ 32768.
Proof. split; vm_compute; discriminate. Qed.
#[global] Arguments BLOCK_SIZE : simpl never.
#[global] Opaque BLOCK_SIZE.

Inductive RecordType := RZero | RFull | RFirst | RMiddle | RLast.
#[export] Instance RecordType_eq_dec : EqDecision RecordType.
Proof. solve_decision. Defined.

Definition rtype_u8 (t : RecordType) : Z :=
  match t with RZero => 0 | RFull => 1 | RFirst => 2 | RMiddle => 3 | RLast => 4 end.

Definition from_byte (b : Z) : option RecordType :=
  match b with
  | 0 => Some RZero
  | 1 => Some RFull
  | 2 => Some RFirst
  | 3 => Some RMiddle
  | 4 => Some RLast
  | _ => None
  end.

Definition decode_length (b : list byte) : nat := Z.to_nat (from_le b).
Definition decode_crc (b : list byte) : Z := from_le b.

(** * [crc_kernel.rs] *)

Definition MASK_DELTA : Z := 0xa282ead8.

(** [u32::rotate_right] / [rotate_left]. *)
Definition rotate_right32 (x n : Z) : Z :=
  Z.lor (Z.shiftr x n) (Z.shiftl x (32 - n) mod 2 ^ 32).
Definition rotate_left32 (x n : Z) : Z :=
  Z.lor (Z.shiftl x n mod 2 ^ 32) (Z.shiftr x (32 - n)).

Definition mask (crc : Z) : Z := (rotate_right32 crc 15 + MASK_DELTA) mod 2 ^ 32.
Definition unmask (masked_crc : Z) : Z := rotate_left32 ((masked_crc - MASK_DELTA) mod 2 ^ 32) 15.

(** The checksum covers the little-endian length, the type byte and the
    payload. *)
Definition record_checksum `{Crc32c} (record_type : Z) (length : Z) (data : list byte) : Z :=
  let crc := crc32c_append 0 (to_le 2 length) in
  let crc := crc32c_append crc [Z2b record_type] in
  let crc := crc32c_append crc data in
  mask crc.

Definition crc_match_ok (stored computed : Z) : bool := stored =? computed.
Definition crc_match_ok_as_is (_stored _computed : Z) : bool := true.

(** * [recover_kernel.rs] *)

Definition MAX_CONSECUTIVE_SKIPS : Z := 4 * 1024 * 1024.

Inductive RecoverKind :=
| KRecord | KCleanEof | KTruncated | KLengthCorrupt | KUnknownType
| KOrphanFragment | KCrc | KZeroHeaderTail | KOther.
#[export] Instance RecoverKind_eq_dec : EqDecision RecoverKind.
Proof. solve_decision. Defined.

Inductive RecoverAct := KeepRecord | Stop | Resync | KeepPrefix | FailStop.

Inductive PhysicalAct := PContinue | PFailStop | PTruncated | PCleanEof.

Inductive FragKind := FFull | FFirst | FMiddle | FLast | FZero.

Inductive FragAct := AYield | AStart | AAccumulate | AFailStop | ASkip | ACleanEof.

(** [FragKind::from_record_type] and its faulty twin. *)
Definition from_record_type (t : RecordType) : FragKind :=
  match t with
  | RZero => FZero
  | RFull => FFull
  | RFirst => FFirst
  | RMiddle => FMiddle
  | RLast => FLast
  end.
Definition from_record_type_as_is (t : RecordType) : FragKind :=
  match t with
  | RZero => FZero
  | RFull => FFull
  | RFirst => FMiddle
  | RMiddle => FMiddle
  | RLast => FLast
  end.

Definition is_length_resyncable (k : RecoverKind) : bool :=
  match k with KTruncated | KLengthCorrupt | KUnknownType => true | _ => false end.
Definition is_length_resyncable_as_is (k : RecoverKind) : bool :=
  is_length_resyncable k || match k with KCrc => true | _ => false end.

Definition recover_collect_act (k : RecoverKind) (prefix_n : Z) (can_skip : bool)
    (consecutive_skips : Z) (in_resync : bool) : RecoverAct :=
  match k with
  | KRecord => KeepRecord
  | KCleanEof => Stop
  | KTruncated | KLengthCorrupt | KUnknownType =>
      if negb can_skip then if prefix_n =? 0 then FailStop else KeepPrefix
      else if MAX_CONSECUTIVE_SKIPS <? consecutive_skips then FailStop
      else Resync
  | KCrc | KZeroHeaderTail =>
      if in_resync then
        if can_skip then Resync
        else if prefix_n =? 0 then FailStop
        else KeepPrefix
      else FailStop
  | KOrphanFragment | KOther => FailStop
  end.

Definition recover_collect_act_as_is (k : RecoverKind) (_prefix_n : Z) (_can_skip : bool)
    (_consecutive_skips : Z) : RecoverAct :=
  match k with
  | KRecord => KeepRecord
  | KCleanEof | KTruncated | KLengthCorrupt | KUnknownType | KZeroHeaderTail => Stop
  | KCrc => Resync
  | KOrphanFragment | KOther => FailStop
  end.

Definition physical_payload_act (length max_payload payload_end block_end block_size : Z)
    : PhysicalAct :=
  if max_payload <? length then PFailStop
  else if block_end <? payload_end then
    if block_end =? block_size then PFailStop else PTruncated
  else PContinue.

Definition physical_payload_act_as_is (length max_payload payload_end block_end _block_size : Z)
    : PhysicalAct :=
  if (max_payload <? length) || (block_end <? payload_end) then PCleanEof else PContinue.

Definition fragment_act (k : FragKind) (scratch_empty : bool) : FragAct :=
  match k with
  | FFull => AYield
  | FFirst => AStart
  | FMiddle => if scratch_empty then AFailStop else AAccumulate
  | FLast => if scratch_empty then AFailStop else AYield
  | FZero => ASkip
  end.

Definition fragment_act_as_is (k : FragKind) (scratch_empty : bool) : FragAct :=
  if scratch_empty && match k with FMiddle | FLast => true | _ => false end
  then ACleanEof else fragment_act k scratch_empty.

(** * [wal_segment_seal_kernel.rs] *)

Definition SEAL_MAGIC : Z := 0x5345414C.
Definition SEAL_FRAME_LEN : nat := 16.

Inductive WalSealError :=
| AlreadySealed
| ExceedsCapacity (requested available : Z)
| InsufficientHeadroomForSeal (available : Z) (needed : nat)
| InvalidPreallocationSize (n : Z).

Inductive SealParseResult :=
| ValidSeal (logical_eof : Z)
| TrailingZeroes
| CorruptFrame (msg : Message).

Record WalPreallocationTracker := mkTracker {
  allocated_bytes : Z;
  logical_bytes : Z;
  sealed : bool
}.

Definition tracker_try_new (allocated : Z) : Result WalSealError WalPreallocationTracker :=
  if allocated =? 0 then Err (InvalidPreallocationSize 0) else Ok (mkTracker allocated 0 false).

Definition remaining_headroom (t : WalPreallocationTracker) : Z :=
  sat_sub (allocated_bytes t) (logical_bytes t).

Definition can_append (t : WalPreallocationTracker) (len : Z) : bool :=
  if sealed t then false else sat_add (logical_bytes t) len <=? allocated_bytes t.

Definition advance_logical (len : Z) (t : WalPreallocationTracker)
    : Result WalSealError WalPreallocationTracker :=
  if sealed t then Err AlreadySealed
  else
    let new_offset := sat_add (logical_bytes t) len in
    if allocated_bytes t <? new_offset then Err (ExceedsCapacity len (remaining_headroom t))
    else Ok (mkTracker (allocated_bytes t) new_offset (sealed t)).

Definition encode_seal `{Crc32c} (t : WalPreallocationTracker)
    : Result WalSealError (list byte * WalPreallocationTracker) :=
  if sealed t then Err AlreadySealed
  else if allocated_bytes t <? sat_add (logical_bytes t) (Z.of_nat SEAL_FRAME_LEN) then
    Err (InsufficientHeadroomForSeal (remaining_headroom t) SEAL_FRAME_LEN)
  else
    let body := to_le 4 SEAL_MAGIC ++ to_le 8 (logical_bytes t) in
    let buf := body ++ to_le 4 (crc32c body) in
    Ok (buf, mkTracker (allocated_bytes t)
               (sat_add (logical_bytes t) (Z.of_nat SEAL_FRAME_LEN)) true).

(** [verify_trailing_zeroes]: whole 8-byte chunks compared as [u64], then the
    remainder byte by byte. *)
Fixpoint chunks8_zero (fuel : nat) (buf : list byte) : bool :=
  match fuel with
  | O => forallb (λ b, b2Z b =? 0) buf
  | S n =>
      if (length buf <? 8)%nat then forallb (λ b, b2Z b =? 0) buf
      else if negb (from_le (take 8 buf) =? 0) then false
      else chunks8_zero n (drop 8 buf)
  end.

Definition verify_trailing_zeroes (buf : list byte) : bool := chunks8_zero (length buf) buf.

Definition parse_frame_or_seal `{Crc32c} (buf : list byte) : SealParseResult :=
  if bool_decide (buf = []) then TrailingZeroes
  else if verify_trailing_zeroes buf then TrailingZeroes
  else if (length buf <? SEAL_FRAME_LEN)%nat then
    CorruptFrame [Lit "Buffer too short to contain a valid seal frame"]
  else
    let magic := from_le (take 4 buf) in
    if negb (magic =? SEAL_MAGIC) then
      CorruptFrame [Lit "Invalid seal magic: expected "; Num SEAL_MAGIC; Lit ", got "; Num magic]
    else
      let logical_eof := from_le (take 8 (drop 4 buf)) in
      let expected_crc := from_le (take 4 (drop 12 buf)) in
      let actual_crc := crc32c (take 12 buf) in
      if negb (actual_crc =? expected_crc) then
        CorruptFrame [Lit "Seal frame CRC mismatch: expected "; Num expected_crc;
                      Lit ", computed "; Num actual_crc]
      else ValidSeal logical_eof.

Definition parse_and_verify_seal_extent `{Crc32c} (buf : list byte) : SealParseResult :=
  if bool_decide (buf = []) then TrailingZeroes
  else if verify_trailing_zeroes buf then TrailingZeroes
  else
    match parse_frame_or_seal (take (SEAL_FRAME_LEN `min` length buf) buf) with
    | ValidSeal logical_eof =>
        if negb (verify_trailing_zeroes (drop SEAL_FRAME_LEN buf)) then
          CorruptFrame [Lit "Non-zero trailing bytes found after sentinel seal frame"]
        else ValidSeal logical_eof
    | other => other
    end.

Definition determine_recovery_truncation_offset (result : SealParseResult)
    (last_valid_record_offset : Z) : option Z :=
  match result with
  | ValidSeal logical_eof => Some (sat_add logical_eof (Z.of_nat SEAL_FRAME_LEN))
  | TrailingZeroes => Some last_valid_record_offset
  | CorruptFrame _ => None
  end.

(** * Lemmas *)

Lemma from_byte_rtype t : from_byte (rtype_u8 t) = Some t.
Proof. by destruct t. Qed.

Lemma rtype_u8_range t : 0 ≤ rtype_u8 t ≤ 4.
Proof. destruct t; simpl; lia. Qed.

Lemma mask_u32 c : 0 ≤ mask c ≤ U32_MAX.
Proof. unfold mask, U32_MAX. pose proof (Z.mod_pos_bound (rotate_right32 c 15 + MASK_DELTA) (2 ^ 32)). lia. Qed.

Lemma record_checksum_u32 `{Crc32c} t n data : 0 ≤ record_checksum t n data ≤ U32_MAX.
Proof. apply mask_u32. Qed.

Lemma rotate_right32_eq x n :
  0 ≤ x < 2 ^ 32 → 0 < n < 32 →
  rotate_right32 x n = (x mod 2 ^ n) * 2 ^ (32 - n) + x / 2 ^ n.
Proof.
  intros Hx Hn. unfold rotate_right32. rewrite Z.shiftr_div_pow2 by lia.
  assert (Z.shiftl x (32 - n) mod 2 ^ 32 = Z.shiftl (x mod 2 ^ n) (32 - n)) as ->.
  { rewrite !Z.shiftl_mul_pow2 by lia.
    replace (2 ^ 32) with (2 ^ n * 2 ^ (32 - n)) by (rewrite <-Z.pow_add_r by lia; f_equal; lia).
    rewrite Z.mul_mod_distr_r; [done| |]; apply Z.pow_nonzero; lia. }
  rewrite Z.lor_comm, lor_shiftl_add; [done|lia|].
  assert (2 ^ 32 = 2 ^ n * 2 ^ (32 - n)) as E by (rewrite <-Z.pow_add_r by lia; f_equal; lia).
  split; [apply Z.div_pos; [lia|apply Z.pow_pos_nonneg; lia]|].
  apply Z.div_lt_upper_bound; [apply Z.pow_pos_nonneg; lia|lia].
Qed.

Lemma rotate_left32_right x : rotate_left32 x 15 = rotate_right32 x 17.
Proof. unfold rotate_left32, rotate_right32. apply Z.lor_comm. Qed.

(** Masking is reversible: [unmask] gives back every 32-bit checksum. *)
Theorem unmask_mask v : 0 ≤ v ≤ U32_MAX → unmask (mask v) = v.
Proof.
  unfold U32_MAX. intros Hv. unfold unmask, mask.
  pose proof (rotate_right32_eq v 15 ltac:(lia) ltac:(lia)) as Hr.
  pose proof (Z.div_mod v (2 ^ 15) ltac:(lia)) as Hdm.
  pose proof (Z.mod_pos_bound v (2 ^ 15) ltac:(lia)) as Hm.
  set (q := v / 2 ^ 15) in *. set (r := v mod 2 ^ 15) in *.
  change (2 ^ (32 - 15)) with 131072 in Hr. change (2 ^ 15) with 32768 in *.
  rewrite Zminus_mod_idemp_l, Z.add_simpl_r. rewrite Z.mod_small by (change (2 ^ 32) with 4294967296; lia).
  rewrite rotate_left32_right, Hr, rotate_right32_eq; [|change (2 ^ 32) with 4294967296; lia|lia].
  change (2 ^ 17) with 131072. change (2 ^ (32 - 17)) with 32768.
  assert (0 ≤ q < 131072) by lia.
  rewrite (Z.add_comm (r * 131072)), Z.mod_add, Z.mod_small by lia.
  rewrite Z.div_add, Z.div_small by lia. lia.
Qed.

Lemma unmask_mask_witness : 0 ≤ 0xdeadbeef ≤ U32_MAX ∧ unmask (mask 0xdeadbeef) = 0xdeadbeef.
Proof.
  split; [vm_compute; split; discriminate|].
  apply (unmask_mask 0xdeadbeef). vm_compute; split; discriminate.
Defined.

(** ** Zero runs and seals *)

Lemma from_le_zero l : from_le l = 0 ↔ Forall (λ b, b2Z b = 0) l.
Proof.
  induction l as [|b l IH]; [by split|]. rewrite from_le_cons, Forall_cons, <-IH.
  pose proof (b2Z_range b). pose proof (from_le_bound l). lia.
Qed.

Lemma forallb_zero l : forallb (λ b, b2Z b =? 0) l = true ↔ Forall (λ b, b2Z b = 0) l.
Proof.
  induction l as [|b l IH]; [by split|]. cbn [forallb].
  rewrite andb_true_iff, Z.eqb_eq, Forall_cons, IH. done.
Qed.

Lemma chunks8_zero_spec fuel l :
  (length l ≤ fuel)%nat → chunks8_zero fuel l = true ↔ Forall (λ b, b2Z b = 0) l.
Proof.
  revert l. induction fuel as [|n IH]; intros l Hl; cbn [chunks8_zero]; [apply forallb_zero|].
  destruct (Nat.ltb_spec (length l) 8); [apply forallb_zero|].
  rewrite <-(take_drop 8 l) at 3. rewrite Forall_app, <-from_le_zero.
  destruct (Z.eqb_spec (from_le (take 8 l)) 0) as [E|E]; cbn [negb].
  - rewrite IH by len. naive_solver.
  - split; [done|]. naive_solver.
Qed.

Lemma verify_trailing_zeroes_spec l :
  verify_trailing_zeroes l = true ↔ Forall (λ b, b2Z b = 0) l.
Proof. by apply chunks8_zero_spec. Qed.

(** A seal is recognised. On a tracker with 64-bit counters, if sealing
    succeeds then the frame is 16 bytes, the tracker is closed for good
    (no further append or seal), the frame parses back to the logical end of
    file, and it still does when followed by preallocated zeros, in which case
    recovery truncates exactly after the frame. *)
Theorem seal_round_trip `{Crc32c} t buf t' zeros :
  0 ≤ logical_bytes t ≤ U64_MAX → encode_seal t = Ok (buf, t') →
  Forall (λ b, b2Z b = 0) zeros →
  length buf = SEAL_FRAME_LEN ∧
  parse_frame_or_seal buf = ValidSeal (logical_bytes t) ∧
  parse_and_verify_seal_extent (buf ++ zeros) = ValidSeal (logical_bytes t) ∧
  determine_recovery_truncation_offset (parse_and_verify_seal_extent (buf ++ zeros)) 0 =
    Some (logical_bytes t') ∧
  (∀ n, can_append t' n = false ∧ advance_logical n t' = Err AlreadySealed) ∧
  encode_seal t' = Err AlreadySealed.
Proof.
  intros Hlb Henc Hz. unfold encode_seal in Henc.
  destruct (sealed t) eqn:Hs; [done|]. destruct (allocated_bytes t <? _); [done|].
  set (body := to_le 4 SEAL_MAGIC ++ to_le 8 (logical_bytes t)) in *.
  assert (t' = mkTracker (allocated_bytes t)
            (sat_add (logical_bytes t) (Z.of_nat SEAL_FRAME_LEN)) true) as -> by congruence.
  assert (buf = body ++ to_le 4 (crc32c body)) as Hbuf by congruence. clear Henc.
  assert (length body = 12%nat) as Hb by (subst body; len).
  assert (length buf = SEAL_FRAME_LEN) as Hlen by (rewrite Hbuf; unfold SEAL_FRAME_LEN; len).
  assert (∀ z, parse_frame_or_seal (take SEAL_FRAME_LEN (buf ++ z)) = ValidSeal (logical_bytes t))
    as Hparse.
  { intros z. rewrite <-Hlen, take_app_length. unfold parse_frame_or_seal.
    rewrite bool_decide_eq_false_2 by (intros E; by rewrite E in Hlen).
    assert (take 4 buf = to_le 4 SEAL_MAGIC) as Hmagic.
    { rewrite Hbuf; subst body. rewrite <-(assoc_L (++)). by rewrite take_app_length'. }
    assert (verify_trailing_zeroes buf = false) as ->.
    { apply not_true_iff_false. rewrite verify_trailing_zeroes_spec.
      rewrite <-(take_drop 4 buf), Forall_app, Hmagic. intros [Hf _].
      apply from_le_zero in Hf. by vm_compute in Hf. }
    rewrite Hlen, Nat.ltb_irrefl, Hmagic.
    assert (take 12 buf = body) as -> by (rewrite Hbuf; by rewrite take_app_length').
    assert (drop 12 buf = to_le 4 (crc32c body)) as -> by (rewrite Hbuf; by rewrite drop_app_length').
    assert (take 8 (drop 4 buf) = to_le 8 (logical_bytes t)) as ->.
    { rewrite Hbuf; subst body. rewrite <-(assoc_L (++)), drop_app_length' by done.
      by rewrite take_app_length' by len. }
    change (from_le (to_le 4 SEAL_MAGIC)) with SEAL_MAGIC. rewrite Z.eqb_refl. cbn [negb].
    rewrite take_ge by len.
    rewrite !from_le_to_le, Z.eqb_refl; [done|..].
    - unfold U64_MAX in Hlb. change (256 ^ Z.of_nat 8) with 18446744073709551616. lia.
    - pose proof (crc32c_append_u32 0 body) as Hc. unfold U32_MAX in Hc. unfold crc32c.
      change (256 ^ Z.of_nat 4) with 4294967296. lia. }
  assert (parse_and_verify_seal_extent (buf ++ zeros) = ValidSeal (logical_bytes t)) as Hext.
  { unfold parse_and_verify_seal_extent.
    rewrite bool_decide_eq_false_2 by (by destruct buf).
    assert (verify_trailing_zeroes (buf ++ zeros) = false) as ->.
    { apply not_true_iff_false. rewrite verify_trailing_zeroes_spec, Forall_app. intros [Hf _].
      specialize (Hparse []). rewrite app_nil_r, take_ge in Hparse by lia.
      unfold parse_frame_or_seal in Hparse.
      rewrite (proj2 (verify_trailing_zeroes_spec buf) Hf) in Hparse. by case_match. }
    rewrite Nat.min_l by len. rewrite Hparse, <-Hlen, drop_app_length.
    by rewrite (proj2 (verify_trailing_zeroes_spec zeros) Hz). }
  specialize (Hparse []). rewrite app_nil_r, take_ge in Hparse by lia.
  split_and!; [done|done|done|by rewrite Hext|done|done].
Qed.

(** A checksum crate for closed examples: bitwise CRC-32C (reflected
    polynomial [0x82F63B78]). *)
Fixpoint crc_bits (n : nat) (c : Z) : Z :=
  match n with
  | O => c
  | S n => crc_bits n (if Z.odd c then Z.lxor (Z.shiftr c 1) 0x82F63B78 else Z.shiftr c 1)
  end.
Definition crc_bitwise (crc : Z) (data : list byte) : Z :=
  let c := foldl (λ c b, crc_bits 8 (Z.lxor c (b2Z b))) (Z.lxor crc U32_MAX) data in
  Z.land (Z.lxor c U32_MAX) U32_MAX.
Definition crc32c_bitwise : Crc32c.
Proof.
  refine {| crc32c_append := crc_bitwise |}. intros crc data. unfold crc_bitwise.
  set (x := Z.lxor _ U32_MAX). change U32_MAX with (Z.ones 32). rewrite Z.land_ones by lia.
  pose proof (Z.mod_pos_bound x (2 ^ 32) ltac:(lia)). change (Z.ones 32) with (2 ^ 32 - 1). lia.
Defined.

(** The published check value of CRC-32C on the ASCII digits 1 to 9. *)
Example crc32c_bitwise_check :
  @crc32c crc32c_bitwise [x31; x32; x33; x34; x35; x36; x37; x38; x39] = 0xE3069283.
Proof. vm_compute. reflexivity. Qed.

Lemma seal_round_trip_witness :
  let t := mkTracker 4096 100 false in
  ∃ buf t', @encode_seal crc32c_bitwise t = Ok (buf, t') ∧
    @parse_and_verify_seal_extent crc32c_bitwise (buf ++ [x00; x00]) = ValidSeal 100.
Proof.
  cbv zeta.
  destruct (@encode_seal crc32c_bitwise (mkTracker 4096 100 false)) as [[buf t']|] eqn:E;
    [|vm_compute in E; discriminate].
  exists buf, t'. split; [reflexivity|].
  apply (@seal_round_trip crc32c_bitwise (mkTracker 4096 100 false) buf t' [x00; x00]);
    [vm_compute; split; discriminate|exact E|repeat constructor].
Defined.
