(* ===== verification/ValueLog.v ===== *)
(** The value log ([vlog_kernel.rs]): pointers in place of large values, the
    append buffer, reads of staged and written records, and the rewrite of the
    live records; with the escape of inline values ([db_kernel.rs],
    [escape_inline_value] and [resolve_stored_value]).

    A log is its file's bytes and the staged tail. A write takes what the file
    system does with it; reserving space ([preallocate]) and the fault-injection
    hook are left out. *)

From S2P Require Import Prelude Text ErrorKernel WalFormat.

Local Open Scope Z_scope.

Definition byte_slice (a b : nat) (l : list byte) : list byte := take (b - a) (drop a l).

(** * Pointers *)

Definition VLOG_VALUE_PREFIX : list byte := [x56; x4c; x47; x31].
Definition VLOG_BLOB_PREFIX : list byte := [x56; x4c; x47; x33].
Definition VLOG_MAGIC : list byte := [x50; x44; x42; x56; x4c; x4f; x47; x31].

Record VlogPtr := mkPtr { ptr_file_num : Z; ptr_offset : Z; ptr_len : Z; ptr_crc : Z }.

Definition encode_vlog_ref (offset len data_crc : Z) : list byte :=
  VLOG_VALUE_PREFIX ++ to_le 8 offset ++ to_le 4 len ++ to_le 4 data_crc.

Definition decode_vlog_ref (value : list byte) : option (Z * Z * Z) :=
  if negb (length value =? 20)%nat || negb (bool_decide (take 4 value = VLOG_VALUE_PREFIX)) then None
  else Some (from_le (byte_slice 4 12 value), from_le (byte_slice 12 16 value), from_le (byte_slice 16 20 value)).

Definition decode_vlog_ptr (value : list byte) : option VlogPtr :=
  if (length value =? 20)%nat && bool_decide (take 4 value = VLOG_VALUE_PREFIX) then
    '(offset, len, crc) ← decode_vlog_ref value; Some (mkPtr 0 offset len crc)
  else if (length value =? 24)%nat && bool_decide (take 4 value = VLOG_BLOB_PREFIX) then
    Some (mkPtr (from_le (byte_slice 4 8 value)) (from_le (byte_slice 8 16 value)) (from_le (byte_slice 16 20 value))
            (from_le (byte_slice 20 24 value)))
  else None.

Definition encode_vlog_ptr (p : VlogPtr) : list byte :=
  if ptr_file_num p =? 0 then encode_vlog_ref (ptr_offset p) (ptr_len p) (ptr_crc p)
  else VLOG_BLOB_PREFIX ++ to_le 4 (ptr_file_num p) ++ to_le 8 (ptr_offset p) ++ to_le 4 (ptr_len p) ++ to_le 4 (ptr_crc p).

(** ** Inline values *)

Definition INLINE_ESCAPE : byte := x01.

Definition escape_inline_value (value : list byte) : list byte :=
  match value with
  | [] => value
  | b :: _ =>
      if bool_decide (b = INLINE_ESCAPE) || bool_decide (is_Some (decode_vlog_ptr value)) then INLINE_ESCAPE :: value
      else value
  end.

(** * The log *)

Definition VLOG_FILE_NAME : text := lit "VALUES.vlog".
Definition VLOG_NEW_NAME : text := lit "VALUES.vlog.new".
Definition BLOB_SUFFIX : text := lit ".blob".
Definition blob_name (num : Z) : text := fmt_06 num ++ BLOB_SUFFIX.

Definition ASYNC_VLOG_BUFFER : Z := 65536.
Definition LARGE_PENDING : Z := 4096.

Record PendingLarge := mkLarge { pl_offset : Z; pl_hdr : list byte; pl_data : list byte }.

Record ValueLog := mkVlog {
  vl_name : text;
  vl_file : list byte;
  next_offset : Z;
  pending_start : Z;
  vl_pending : list byte;
  pending_large : list PendingLarge;
  pending_large_bytes : Z;
  needs_sync : bool
}.

(** [open_path] on a file's contents. *)
Definition open_path (name : text) (contents : list byte) : Result CoreError ValueLog :=
  let len := Z.of_nat (length contents) in
  if len <? 8 then Err (Internal [Lit "vlog too short: "; Str name])
  else if negb (bool_decide (take 8 contents = VLOG_MAGIC)) then Err (Internal [Lit "bad vlog magic in "; Str name])
  else Ok (mkVlog name contents len len [] [] 0 false).

(** What [write_all] does: everything, or a part and an error. *)
Inductive WriteOutcome := WriteOk | WriteFail (written : nat).

Definition set_file (l : ValueLog) (file : list byte) : ValueLog :=
  mkVlog (vl_name l) file (next_offset l) (pending_start l) (vl_pending l) (pending_large l) (pending_large_bytes l) (needs_sync l).

Definition staged_len (l : ValueLog) : Z := sat_add (Z.of_nat (length (vl_pending l))) (pending_large_bytes l).

Definition large_bytes (rs : list PendingLarge) : list byte := rs ≫= λ r, pl_hdr r ++ pl_data r.

(** The second half of [flush_pending]. *)
Definition flush_large (o : WriteOutcome) (l : ValueLog) : ValueLog * Result CoreError unit :=
  let done_ l := mkVlog (vl_name l) (vl_file l) (next_offset l) (next_offset l) (vl_pending l) (pending_large l) (pending_large_bytes l) true in
  match pending_large l with
  | [] => (done_ l, Ok tt)
  | rs =>
      let buf := large_bytes rs in
      match o with
      | WriteFail k => (set_file l (vl_file l ++ take k buf), Err Io)
      | WriteOk => (done_ (mkVlog (vl_name l) (vl_file l ++ buf) (next_offset l) (pending_start l) (vl_pending l) [] 0 (needs_sync l)), Ok tt)
      end
  end.

Definition flush_pending (o1 o2 : WriteOutcome) (l : ValueLog) : ValueLog * Result CoreError unit :=
  match vl_pending l, pending_large l with
  | [], [] => (l, Ok tt)
  | [], _ => flush_large o2 l
  | p, _ =>
      match o1 with
      | WriteFail k => (set_file l (vl_file l ++ take k p), Err Io)
      | WriteOk => flush_large o2 (mkVlog (vl_name l) (vl_file l ++ p) (next_offset l) (pending_start l) [] (pending_large l) (pending_large_bytes l) (needs_sync l))
      end
  end.

(** [sync_pending]; [r] is the answer of the barrier. *)
Definition sync_pending (o1 o2 : WriteOutcome) (r : Result CoreError unit) (l : ValueLog) : ValueLog * Result CoreError unit :=
  if (length (vl_pending l) =? 0)%nat && (length (pending_large l) =? 0)%nat && negb (needs_sync l) then (l, Ok tt)
  else
    match flush_pending o1 o2 l with
    | (l, Err e) => (l, Err e)
    | (l, Ok _) =>
        match r with
        | Err e => (l, Err e)
        | Ok _ => (mkVlog (vl_name l) (vl_file l) (next_offset l) (pending_start l) (vl_pending l) (pending_large l) (pending_large_bytes l) false, Ok tt)
        end
    end.

Section crc.
Context `{CC : Crc32c}.

Definition record_hdr (data : list byte) : list byte := to_le 4 (Z.of_nat (length data)) ++ to_le 4 (crc32c data).

(** The flush before a record that does not fit, and the one after a full
    buffer; the outcomes of their writes. *)
Record AppendIo := mkAppendIo { before1 : WriteOutcome; before2 : WriteOutcome; after1 : WriteOutcome; after2 : WriteOutcome }.
Definition append_io_ok : AppendIo := mkAppendIo WriteOk WriteOk WriteOk WriteOk.

(** What [append_pending_small] and [append_pending_bytes] share; [stage] puts
    the record of the given offset into the buffer. *)
Definition append_record (io : AppendIo) (stage : Z → ValueLog → ValueLog) (data : list byte) (l : ValueLog)
    : ValueLog * Result CoreError (Z * Z * Z) :=
  let len := Z.of_nat (length data) in
  if U32_MAX <? len then (l, Err (Internal [Lit "vlog value too large"]))
  else
    let crc := crc32c data in
    let rec_len := 8 + len in
    let '(l, r) := if (ASYNC_VLOG_BUFFER <=? staged_len l) || ((ASYNC_VLOG_BUFFER <? sat_add (staged_len l) rec_len) && (0 <? staged_len l))
                   then flush_pending (before1 io) (before2 io) l else (l, Ok tt) in
    match r with
    | Err e => (l, Err e)
    | Ok _ =>
        let offset := next_offset l in
        let l := stage offset l in
        if U64_MAX <? offset + rec_len then (l, Err (Internal [Lit "vlog offset overflow"]))
        else
          let l := mkVlog (vl_name l) (vl_file l) (offset + rec_len) (pending_start l) (vl_pending l) (pending_large l) (pending_large_bytes l) (needs_sync l) in
          let '(l, r) := if ASYNC_VLOG_BUFFER <=? staged_len l then flush_pending (after1 io) (after2 io) l else (l, Ok tt) in
          (l, let? _ := r in Ok (offset, len, crc))
    end.

Definition stage_small (data : list byte) (_ : Z) (l : ValueLog) : ValueLog :=
  mkVlog (vl_name l) (vl_file l) (next_offset l) (pending_start l) (vl_pending l ++ record_hdr data ++ data) (pending_large l)
    (pending_large_bytes l) (needs_sync l).
Definition stage_large (data : list byte) (offset : Z) (l : ValueLog) : ValueLog :=
  mkVlog (vl_name l) (vl_file l) (next_offset l) (pending_start l) (vl_pending l)
    (pending_large l ++ [mkLarge offset (record_hdr data) data])
    (sat_add (pending_large_bytes l) (8 + Z.of_nat (length data))) (needs_sync l).

Definition is_large (data : list byte) : bool := LARGE_PENDING <=? Z.of_nat (length data).
Definition append_pending_small (io : AppendIo) (data : list byte) (l : ValueLog) := append_record io (stage_small data) data l.
Definition append_pending_bytes (io : AppendIo) (data : list byte) (l : ValueLog) : ValueLog * Result CoreError (Z * Z * Z) :=
  if negb (is_large data) then append_pending_small io data l else append_record io (stage_large data) data l.
(** [append_pending] *)
Definition append_pending (io : AppendIo) (data : list byte) (l : ValueLog) : ValueLog * Result CoreError (Z * Z * Z) :=
  if is_large data then append_pending_bytes io data l else append_pending_small io data l.

(** [append] *)
Definition append_durable (io : AppendIo) (o1 o2 : WriteOutcome) (sync : Result CoreError unit) (data : list byte) (l : ValueLog)
    : ValueLog * Result CoreError (Z * Z * Z) :=
  match append_pending io data l with
  | (l, Err e) => (l, Err e)
  | (l, Ok rec) => let '(l, r) := sync_pending o1 o2 sync l in (l, let? _ := r in Ok rec)
  end.

(** ** Reads *)

Definition corrupt_at (s : string) (offset : Z) : CoreError := CorruptValue [Lit s; Num offset].

(** The checks of a staged record. *)
Definition check_record (hdr data : list byte) (offset len expect_crc : Z) : Result CoreError (list byte) :=
  let stored_len := from_le (byte_slice 0 4 hdr) in
  let stored_crc := from_le (byte_slice 4 8 hdr) in
  if negb (stored_len =? len) then
    Err (CorruptValue [Lit "len mismatch in vlog pending at "; Num offset; Lit ": stored "; Num stored_len; Lit " expect "; Num len])
  else if negb (crc_match_ok stored_crc expect_crc) then Err (corrupt_at "crc mismatch in vlog pending at " offset)
  else if negb (crc_match_ok (crc32c data) expect_crc) then Err (corrupt_at "data crc mismatch in vlog pending at " offset)
  else Ok data.

Definition read_pending (l : ValueLog) (offset len expect_crc : Z) : Result CoreError (option (list byte)) :=
  match list_find (λ r, pl_offset r = offset) (pending_large l) with
  | Some (_, r) => let? data := check_record (pl_hdr r) (pl_data r) offset len expect_crc in Ok (Some data)
  | None =>
      if (length (vl_pending l) =? 0)%nat then Ok None
      else
        let rec_len := sat_add 8 len in
        let end_ := sat_add offset rec_len in
        if (offset <? pending_start l) || (next_offset l <? end_) then Ok None
        else
          let idx := Z.to_nat (offset - pending_start l) in
          let need := Z.to_nat rec_len in
          if (length (vl_pending l) <? idx + need)%nat then Ok None
          else
            let? data := check_record (byte_slice idx (idx + 8) (vl_pending l)) (byte_slice (idx + 8) (idx + need) (vl_pending l))
                           offset len expect_crc in
            Ok (Some data)
  end.

(** [read_record_at] on a file's contents, [Err] when it cannot be opened. *)
Definition read_record_at (file : Result CoreError (list byte)) (offset len expect_crc : Z) : Result CoreError (list byte) :=
  let? bytes := file in
  let rest := drop (Z.to_nat offset) bytes in
  if (length rest <? 8)%nat then Err Io
  else
    let stored_len := from_le (byte_slice 0 4 rest) in
    let stored_crc := from_le (byte_slice 4 8 rest) in
    if negb (stored_len =? len) then
      Err (CorruptValue [Lit "len mismatch at "; Num offset; Lit ": stored "; Num stored_len; Lit " expect "; Num len])
    else if negb (crc_match_ok stored_crc expect_crc) then Err (corrupt_at "crc mismatch at " offset)
    else if (length rest <? 8 + Z.to_nat len)%nat then Err Io
    else
      let buf := byte_slice 8 (8 + Z.to_nat len) rest in
      if negb (crc_match_ok (crc32c buf) expect_crc) then Err (corrupt_at "data crc mismatch at " offset)
      else Ok buf.

(** [read_at_on]: the log's own file. *)
Definition read_at_on (l : ValueLog) (offset len expect_crc : Z) : Result CoreError (list byte) :=
  let? staged := read_pending l offset len expect_crc in
  match staged with
  | Some bytes => Ok bytes
  | None => read_record_at (Ok (vl_file l)) offset len expect_crc
  end.

(** The other files of the directory. *)
Context (others : text → option (list byte)).
Definition open_read (l : ValueLog) (name : text) : Result CoreError (list byte) :=
  if bool_decide (name = vl_name l) then Ok (vl_file l) else from_option Ok (Err Io) (others name).
Definition exists_in (l : ValueLog) (name : text) : bool := match open_read l name with Ok _ => true | Err _ => false end.

Definition resolve_path (l : ValueLog) (use_new : bool) : text :=
  if use_new then if exists_in l VLOG_NEW_NAME then VLOG_NEW_NAME else VLOG_FILE_NAME else VLOG_FILE_NAME.
Definition path_for_ptr (l : ValueLog) (p : VlogPtr) (use_new : bool) : text :=
  if ptr_file_num p =? 0 then
    if bool_decide (vl_name l = VLOG_FILE_NAME) || bool_decide (vl_name l = VLOG_NEW_NAME) then vl_name l else resolve_path l use_new
  else blob_name (ptr_file_num p).
Definition read_ptr_on (l : ValueLog) (p : VlogPtr) (use_new : bool) : Result CoreError (list byte) :=
  let? staged := read_pending l (ptr_offset p) (ptr_len p) (ptr_crc p) in
  match staged with
  | Some bytes => Ok bytes
  | None => read_record_at (open_read l (path_for_ptr l p use_new)) (ptr_offset p) (ptr_len p) (ptr_crc p)
  end.

(** [Db::resolve_stored_value] *)
Definition resolve_stored_value (vlog : option ValueLog) (use_new : bool) (stored : list byte) : Result CoreError (list byte) :=
  if bool_decide (head stored = Some INLINE_ESCAPE) then Ok (drop 1 stored)
  else
    match decode_vlog_ptr stored with
    | None => Ok stored
    | Some p =>
        match vlog with
        | None => Err (Internal [Lit "vlog ref in DB but VALUES.vlog not open"])
        | Some l => read_ptr_on l p use_new
        end
    end.

(** ** Rewriting the live records *)

(** The loop of [rewrite_live_to_new] and [rewrite_live_to_blob]: the body, the
    next offset and the map from old offsets to new references. *)
Fixpoint rewrite_loop (file_num : Z) (live : list (Z * list byte)) (body : list byte) (next : Z) (remap : gmap Z (list byte))
    : Result CoreError (list byte * gmap Z (list byte)) :=
  match live with
  | [] => Ok (body, remap)
  | (old_off, data) :: live =>
      let len := Z.of_nat (length data) in
      if U32_MAX <? len then Err (Internal [Lit "vlog value too large"])
      else if U64_MAX <? next + (8 + len) then
        Err (Internal [Lit (if file_num =? 0 then "vlog rewrite overflow" else "blob rewrite overflow")])
      else rewrite_loop file_num live (body ++ record_hdr data ++ data) (next + (8 + len))
             (<[old_off := encode_vlog_ptr (mkPtr file_num next len (crc32c data))]> remap)
  end.
Definition rewrite_live (file_num : Z) (live : list (Z * list byte)) : Result CoreError (list byte * gmap Z (list byte)) :=
  rewrite_loop file_num live VLOG_MAGIC 8 ∅.

(** [remap_stored_value] and [remap_stored_blob]. *)
Definition remap_stored_value (stored : list byte) (remap : gmap Z (list byte)) : list byte :=
  match decode_vlog_ptr stored with
  | Some p => if negb (ptr_file_num p =? 0) then stored else default stored (remap !! ptr_offset p)
  | None => stored
  end.
Definition remap_stored_blob (stored : list byte) (file_num : Z) (remap : gmap Z (list byte)) : list byte :=
  match decode_vlog_ptr stored with
  | Some p => if ptr_file_num p =? file_num then default stored (remap !! ptr_offset p) else stored
  | None => stored
  end.
End crc.

(** * Pointers and inline values *)

Definition ptr_ok (p : VlogPtr) : Prop :=
  0 ≤ ptr_file_num p ≤ U32_MAX ∧ 0 ≤ ptr_offset p ≤ U64_MAX ∧ 0 ≤ ptr_len p ≤ U32_MAX ∧ 0 ≤ ptr_crc p ≤ U32_MAX.

Lemma byte_slice_app (pre mid post : list byte) a b :
  length pre = a → length (pre ++ mid) = b → byte_slice a b (pre ++ mid ++ post) = mid.
Proof.
  intros <- <-. unfold byte_slice. rewrite drop_app_length, length_app. replace (_ - _)%nat with (length mid) by lia.
  by rewrite take_app_length.
Qed.

Lemma length_encode_ptr p : length (encode_vlog_ptr p) = if ptr_file_num p =? 0 then 20%nat else 24%nat.
Proof. unfold encode_vlog_ptr, encode_vlog_ref. destruct (_ =? _); by rewrite !length_app, !length_to_le. Qed.

(** Lengths of encoded fields. *)
Ltac field_len := rewrite ?length_app, ?length_to_le; done.

Lemma decode_encode_ptr p : ptr_ok p → decode_vlog_ptr (encode_vlog_ptr p) = Some p.
Proof.
  destruct p as [fn off len crc]. intros (Hf & Ho & Hl & Hc). unfold U32_MAX, U64_MAX in *. cbn in *.
  unfold decode_vlog_ptr. rewrite length_encode_ptr. unfold encode_vlog_ptr, encode_vlog_ref. cbn [ptr_file_num ptr_offset ptr_len ptr_crc].
  destruct (Z.eqb_spec fn 0) as [->|Hne]; cbn [Nat.eqb andb].
  - rewrite bool_decide_eq_true_2 by done. unfold decode_vlog_ref. rewrite !length_app, !length_to_le. cbn [length Nat.add Nat.eqb negb orb].
    rewrite bool_decide_eq_true_2 by done. cbn [negb mbind option_bind].
    rewrite (byte_slice_app VLOG_VALUE_PREFIX (to_le 8 off)) by field_len.
    rewrite (app_assoc VLOG_VALUE_PREFIX (to_le 8 off)), (byte_slice_app (VLOG_VALUE_PREFIX ++ to_le 8 off) (to_le 4 len)) by field_len.
    rewrite (app_assoc _ (to_le 4 len)), <-(app_nil_r (to_le 4 crc)).
    rewrite (byte_slice_app ((VLOG_VALUE_PREFIX ++ to_le 8 off) ++ to_le 4 len) (to_le 4 crc)) by field_len.
    by rewrite !from_le_to_le by lia.
  - rewrite bool_decide_eq_true_2 by done.
    rewrite (byte_slice_app VLOG_BLOB_PREFIX (to_le 4 fn)) by field_len.
    rewrite (app_assoc VLOG_BLOB_PREFIX (to_le 4 fn)), (byte_slice_app (VLOG_BLOB_PREFIX ++ to_le 4 fn) (to_le 8 off)) by field_len.
    rewrite (app_assoc _ (to_le 8 off)), (byte_slice_app ((VLOG_BLOB_PREFIX ++ to_le 4 fn) ++ to_le 8 off) (to_le 4 len)) by field_len.
    rewrite (app_assoc _ (to_le 4 len)), <-(app_nil_r (to_le 4 crc)).
    rewrite (byte_slice_app (((VLOG_BLOB_PREFIX ++ to_le 4 fn) ++ to_le 8 off) ++ to_le 4 len) (to_le 4 crc)) by field_len.
    by rewrite !from_le_to_le by lia.
Qed.

Section log.
Context `{CC : Crc32c}.

(** An inline value is stored so that it is not taken for a pointer. *)
Lemma resolve_escaped others vlog use_new v : resolve_stored_value others vlog use_new (escape_inline_value v) = Ok v.
Proof.
  unfold resolve_stored_value, escape_inline_value. destruct v as [|b v]; [done|].
  destruct (bool_decide (b = INLINE_ESCAPE)) eqn:Hb; cbn [orb]; [done|].
  destruct (decode_vlog_ptr (b :: v)) as [p|] eqn:Hp.
  { rewrite (bool_decide_eq_true_2 (is_Some _)) by done. done. }
  rewrite (bool_decide_eq_false_2 (is_Some _)) by (by intros [? ?]). apply bool_decide_eq_false in Hb.
  rewrite bool_decide_eq_false_2 by (cbn; congruence). by rewrite Hp.
Qed.

(** ** Records in an image *)

Definition record_of (data : list byte) : list byte := record_hdr data ++ data.

(** The record of [data] is at [off] in the image. *)
Definition at_ (image : list byte) (off : Z) (data : list byte) : Prop :=
  ∃ pre post, image = pre ++ record_of data ++ post ∧ off = Z.of_nat (length pre) ∧ Z.of_nat (length data) ≤ U32_MAX.

Lemma length_record data : length (record_of data) = (8 + length data)%nat.
Proof. unfold record_of, record_hdr. by rewrite !length_app, !length_to_le. Qed.

Lemma hdr_len data : Z.of_nat (length data) ≤ U32_MAX → from_le (byte_slice 0 4 (record_hdr data)) = Z.of_nat (length data).
Proof.
  intros Hd. unfold U32_MAX in Hd. unfold record_hdr. 
  change (to_le 4 ?x ++ ?y) with ([] ++ to_le 4 x ++ y). rewrite byte_slice_app by field_len.
  apply from_le_to_le. lia.
Qed.

Lemma hdr_crc data : from_le (byte_slice 4 8 (record_hdr data)) = crc32c data.
Proof.
  unfold record_hdr. rewrite <-(app_nil_r (to_le 4 (crc32c data))), (byte_slice_app (to_le 4 _) (to_le 4 _)) by field_len.
  apply from_le_to_le. pose proof (crc32c_append_u32 0 data). unfold crc32c, U32_MAX in *. lia.
Qed.

Lemma check_record_ok data off : Z.of_nat (length data) ≤ U32_MAX →
  check_record (record_hdr data) data off (Z.of_nat (length data)) (crc32c data) = Ok data.
Proof.
  intros Hd. unfold check_record, crc_match_ok. by rewrite hdr_len, hdr_crc, !Z.eqb_refl by done.
Qed.

Lemma at_app image off data more : at_ image off data → at_ (image ++ more) off data.
Proof. intros (pre & post & -> & Ho & Hd). exists pre, (post ++ more). by rewrite <-!app_assoc. Qed.

Lemma at_bound image off data : at_ image off data → 0 ≤ off ∧ off + 8 + Z.of_nat (length data) ≤ Z.of_nat (length image).
Proof. intros (pre & post & -> & -> & _). rewrite !length_app, length_record. lia. Qed.

Lemma at_end image data : Z.of_nat (length data) ≤ U32_MAX → at_ (image ++ record_of data) (Z.of_nat (length image)) data.
Proof. intros Hd. exists image, []. by rewrite app_nil_r. Qed.

Lemma at_shorten a b off data : at_ (a ++ b) off data → off + 8 + Z.of_nat (length data) ≤ Z.of_nat (length a) → at_ a off data.
Proof.
  intros (pre & post & E & -> & Hd) Hle. rewrite (app_assoc pre) in E.
  assert (length (pre ++ record_of data) ≤ length a)%nat as Hl by (rewrite length_app, length_record; lia).
  exists pre, (drop (length (pre ++ record_of data)) a). split_and!; [|done|done]. rewrite app_assoc.
  rewrite <-(take_drop (length (pre ++ record_of data)) a) at 1. f_equal.
  rewrite <-(take_app_length (pre ++ record_of data) post) at 2. rewrite <-E. by rewrite take_app_le.
Qed.

(** A record's bytes determine its data. *)
Lemma at_inj image off d d' : at_ image off d → at_ image off d' → d = d'.
Proof.
  intros (pre & post & E & -> & Hd) (pre' & post' & E' & Ho & Hd'). rewrite E in E'.
  apply app_inj_1 in E' as [<- E']; [|lia]. unfold record_of, record_hdr in E'. rewrite <-!app_assoc in E'.
  apply app_inj_1 in E' as [El E']; [|by rewrite !length_to_le].
  apply to_le_inj in El; [|unfold U32_MAX in *; lia..]. apply app_inj_1 in E' as [_ E']; [|by rewrite !length_to_le].
  apply app_inj_1 in E' as [-> _]; [done|lia].
Qed.

Lemma read_at_ok image off data : at_ image off data →
  read_record_at (Ok image) off (Z.of_nat (length data)) (crc32c data) = Ok data.
Proof.
  intros (pre & post & -> & -> & Hd). unfold read_record_at. cbn [res_bind]. rewrite Nat2Z.id, drop_app_length.
  assert (length (record_of data ++ post) = 8 + length data + length post)%nat as Hlen by (rewrite length_app, length_record; lia).
  rewrite Hlen. rewrite (proj2 (Nat.ltb_ge _ _)) by lia.
  assert (∀ a b, (b ≤ 8)%nat → byte_slice a b (record_of data ++ post) = byte_slice a b (record_hdr data)) as Hsl.
  { intros a b Hb. unfold byte_slice, record_of. rewrite <-app_assoc.
    destruct (decide (a ≤ 8)%nat).
    - rewrite drop_app_le, take_app_le by (rewrite ?length_drop; unfold record_hdr; rewrite !length_app, !length_to_le; lia). done.
    - replace (b - a)%nat with 0%nat by lia. done. }
  rewrite !Hsl, hdr_len, hdr_crc by (done || lia). unfold crc_match_ok. rewrite !Z.eqb_refl. cbn [negb].
  rewrite (proj2 (Nat.ltb_ge _ _)) by lia.
  assert (byte_slice 8 (8 + Z.to_nat (Z.of_nat (length data))) (record_of data ++ post) = data) as ->; [|by rewrite Z.eqb_refl].
  rewrite Nat2Z.id. unfold record_of. rewrite <-app_assoc.
  apply byte_slice_app; unfold record_hdr; by rewrite !length_app, !length_to_le.
Qed.

(** ** The staged image *)

Definition image (l : ValueLog) : list byte := vl_file l ++ vl_pending l ++ large_bytes (pending_large l).

(** Only one kind of record is staged at a time. *)
Definition unmixed (l : ValueLog) (data : list byte) : Prop :=
  if is_large data then vl_pending l = [] else pending_large l = [].

Record vlog_inv (l : ValueLog) (recs : list (Z * list byte)) : Prop := {
  vi_next : next_offset l = Z.of_nat (length (image l));
  vi_start : pending_start l = Z.of_nat (length (vl_file l));
  vi_bytes : pending_large_bytes l = Z.of_nat (length (large_bytes (pending_large l)));
  vi_width : next_offset l ≤ U64_MAX;
  vi_kind : vl_pending l = [] ∨ pending_large l = [];
  vi_recs o d : (o, d) ∈ recs → at_ (image l) o d ∧
    (o + 8 + Z.of_nat (length d) ≤ pending_start l ∨
     pending_start l ≤ o ∧ (pending_large l = [] ∨ ∃ r, r ∈ pending_large l ∧ pl_offset r = o));
  vi_large r : r ∈ pending_large l → pl_hdr r = record_hdr (pl_data r) ∧ at_ (image l) (pl_offset r) (pl_data r)
}.

(** The log as written out. *)
Definition flushed (l l' : ValueLog) : Prop :=
  vl_file l' = image l ∧ vl_pending l' = [] ∧ pending_large l' = [] ∧ pending_large_bytes l' = 0 ∧
  next_offset l' = next_offset l ∧ pending_start l' = next_offset l.

Lemma flush_ok l recs l' : vlog_inv l recs → flush_pending WriteOk WriteOk l = (l', Ok tt) → flushed l l'.
Proof.
  intros [Hn Hs Hb _ _ _ _]. unfold flush_pending, flush_large, flushed, image in *.
  destruct (vl_pending l) as [|x p] eqn:Ep; destruct (pending_large l) as [|r rs] eqn:Er; cbn; intros [= <-]; cbn in *;
    rewrite ?app_nil_r in *; rewrite ?Ep, ?Er; split_and!; try done; try lia. by rewrite <-!app_assoc.
Qed.

Lemma flush_total l : ∃ l', flush_pending WriteOk WriteOk l = (l', Ok tt).
Proof.
  unfold flush_pending, flush_large. destruct (vl_pending l) as [|x p]; destruct (pending_large l) as [|r rs] eqn:Er; cbn; rewrite ?Er; eauto.
Qed.

Lemma flushed_image l l' : flushed l l' → image l' = image l.
Proof. intros (Ef & Ep & Er & _). unfold image at 1. by rewrite Ef, Ep, Er, !app_nil_r. Qed.

Lemma flushed_inv l l' recs : vlog_inv l recs → flushed l l' → vlog_inv l' recs.
Proof.
  intros [Hn Hs Hb Hw Hk Hr Hl] Hf. pose proof (flushed_image _ _ Hf) as Ei. destruct Hf as (Ef & Ep & Er & Eb & En & Es).
  split; rewrite ?Ei, ?Ef, ?Ep, ?Er, ?En, ?Es, ?Eb; try done; try by left.
  - intros o d Hin. destruct (Hr o d Hin) as [Ha _]. split; [done|]. left. apply at_bound in Ha. lia.
  - intros r Hin. by apply not_elem_of_nil in Hin.
Qed.

(** Staging a record appends it to the image. *)
Definition stage (data : list byte) (l : ValueLog) : ValueLog :=
  let l' := if is_large data then stage_large data (next_offset l) l else stage_small data (next_offset l) l in
  mkVlog (vl_name l') (vl_file l') (next_offset l + (8 + Z.of_nat (length data))) (pending_start l') (vl_pending l') (pending_large l')
    (pending_large_bytes l') (needs_sync l').

Lemma stage_image data l : unmixed l data → image (stage data l) = image l ++ record_of data.
Proof.
  unfold unmixed, stage, image, record_of. destruct (is_large data); cbn; intros ->; cbn.
  - unfold large_bytes. rewrite bind_app. cbn. by rewrite app_nil_r, <-!app_assoc.
  - by rewrite !app_nil_r, <-!app_assoc.
Qed.

Lemma stage_inv data l recs : vlog_inv l recs → unmixed l data → Z.of_nat (length data) ≤ U32_MAX →
  next_offset l + (8 + Z.of_nat (length data)) ≤ U64_MAX → vlog_inv (stage data l) (recs ++ [(next_offset l, data)]).
Proof.
  intros [Hn Hs Hb Hw Hk Hr Hl] Hu Hd Hfit. pose proof (stage_image data l Hu) as Ei.
  assert (next_offset (stage data l) = next_offset l + (8 + Z.of_nat (length data))) as En by done.
  assert (pending_start (stage data l) = pending_start l ∧ vl_file (stage data l) = vl_file l) as [Es Ef]
    by (unfold stage; by destruct (is_large data)).
  assert (at_ (image (stage data l)) (next_offset l) data) as Hat by (rewrite Ei, Hn; by apply at_end).
  assert (pending_start l ≤ next_offset l) as Hle by (rewrite Hn, Hs; unfold image; rewrite !length_app; lia).
  split; rewrite ?Es, ?Ef, ?En.
  - rewrite Ei, length_app, length_record. lia.
  - done.
  - assert (Z.of_nat (length (large_bytes (pending_large l))) ≤ next_offset l) as Hsz by (rewrite Hn; unfold image; rewrite !length_app; lia).
    unfold stage, stage_large, stage_small. destruct (is_large data); cbn; [|done]. unfold large_bytes in *. rewrite bind_app, length_app. cbn.
    rewrite app_nil_r, length_app. unfold record_hdr. rewrite length_app, !length_to_le. unfold sat_add. lia.
  - done.
  - unfold unmixed, stage in *. destruct (is_large data); cbn; [by left|by right].
  - intros o d [Hin|[= -> ->]%list_elem_of_singleton]%elem_of_app.
    + destruct (Hr o d Hin) as [Ha Hc]. rewrite Ei. split; [by apply at_app|].
      destruct Hc as [Hc|[Hc Hc']]; [by left|right]. split; [done|]. unfold unmixed, stage, image in *.
      destruct (is_large data); cbn; [|by left]. destruct Hc' as [Hc'|(r & Hc' & Eo)].
      * exfalso. rewrite Hu, Hc' in Ha. cbn in Ha. rewrite app_nil_r in Ha. apply at_bound in Ha. lia.
      * right. exists r. split; [set_solver|done].
    + split; [done|]. right. split; [done|]. unfold stage, unmixed in *. destruct (is_large data); cbn; [right|by left].
      eexists. split; [by apply elem_of_app; right; left|done].
  - intros r Hin. unfold unmixed, stage in Hin, Hu. rewrite Ei. destruct (is_large data) eqn:El; cbn in Hin.
    + apply elem_of_app in Hin as [Hin| ->%list_elem_of_singleton]; [|cbn; by rewrite <-Ei].
      destruct (Hl r Hin) as [? ?]. split; [done|]. by apply at_app.
    + rewrite Hu in Hin. by apply not_elem_of_nil in Hin.
Qed.

Lemma maybe_flush_inv (b : bool) l recs l' : vlog_inv l recs →
  (if b then flush_pending WriteOk WriteOk l else (l, Ok tt)) = (l', Ok tt) → vlog_inv l' recs ∧ next_offset l' = next_offset l ∧
  ∀ data, unmixed l data → unmixed l' data.
Proof.
  intros Hi. destruct b; [|by intros [= <-]]. intros Hf%(flush_ok _ recs); [|done]. split; [by eapply flushed_inv|].
  destruct Hf as (_ & Ep & Er & _ & En & _). split; [done|]. intros data _. unfold unmixed. by destruct (is_large data).
Qed.

Lemma append_ok l recs data l' off len crc : vlog_inv l recs → unmixed l data →
  append_pending append_io_ok data l = (l', Ok (off, len, crc)) →
  vlog_inv l' (recs ++ [(off, data)]) ∧ len = Z.of_nat (length data) ∧ crc = crc32c data.
Proof.
  intros Hi Hu Ha. assert (append_record append_io_ok (if is_large data then stage_large data else stage_small data) data l = (l', Ok (off, len, crc))) as Ha'.
  { revert Ha. unfold append_pending, append_pending_bytes, append_pending_small. by destruct (is_large data). }
  clear Ha. unfold append_record in Ha'. cbn in Ha'.
  destruct (Z.ltb_spec U32_MAX (Z.of_nat (length data))) as [|Hd]; [done|].
  set (b := (_ || _)) in Ha'. destruct (if b then flush_pending WriteOk WriteOk l else (l, Ok tt)) as [l1 [[]|]] eqn:E1; [|done].
  destruct (maybe_flush_inv _ _ _ _ Hi E1) as (Hi1 & En & Hu1).
  destruct (Z.ltb_spec U64_MAX (next_offset l1 + (8 + Z.of_nat (length data)))) as [|Hfit]; [done|].
  pose proof (stage_inv data l1 recs Hi1 (Hu1 _ Hu) Hd Hfit) as Hi2.
  assert ((if is_large data then stage_large data else stage_small data) (next_offset l1) l1 =
          (if is_large data then stage_large data (next_offset l1) l1 else stage_small data (next_offset l1) l1)) as Es by by destruct (is_large data).
  rewrite Es in Ha'. fold (stage data l1) in Ha'.
  set (c := (_ <=? _)) in Ha'. destruct (if c then flush_pending WriteOk WriteOk (stage data l1) else (stage data l1, Ok tt)) as [l3 [[]|]] eqn:E3; [|done].
  destruct (maybe_flush_inv _ _ _ _ Hi2 E3) as (Hi3 & _ & _). cbn in Ha'. by injection Ha' as <- <- <- <-.
Qed.

(** What a session does with a log: open it, append, flush and sync; every
    write succeeds. *)
Inductive vlog_reach : ValueLog → list (Z * list byte) → Prop :=
| vr_open name contents l :
    Z.of_nat (length contents) ≤ U64_MAX → open_path name contents = Ok l → vlog_reach l []
| vr_append l recs data l' off len crc :
    vlog_reach l recs → unmixed l data → append_pending append_io_ok data l = (l', Ok (off, len, crc)) →
    vlog_reach l' (recs ++ [(off, data)])
| vr_flush l recs l' : vlog_reach l recs → flush_pending WriteOk WriteOk l = (l', Ok tt) → vlog_reach l' recs
| vr_sync l recs l' : vlog_reach l recs → sync_pending WriteOk WriteOk (Ok tt) l = (l', Ok tt) → vlog_reach l' recs.

Lemma sync_inv l recs l' : vlog_inv l recs → sync_pending WriteOk WriteOk (Ok tt) l = (l', Ok tt) → vlog_inv l' recs.
Proof.
  intros Hi. unfold sync_pending. case_match; [by intros [= <-]|]. destruct (flush_pending WriteOk WriteOk l) as [l1 [[]|]] eqn:E; [|done].
  intros [= <-]. apply (flush_ok _ recs) in E; [|done]. destruct (flushed_inv _ _ _ Hi E). by split.
Qed.

Lemma reach_inv l recs : vlog_reach l recs → vlog_inv l recs.
Proof.
  induction 1 as [name contents l Hw Ho|l recs data l' off len crc _ IH Hu Ha|l recs l' _ IH Hf|l recs l' _ IH Hs].
  - unfold open_path in Ho. repeat case_match; try done. injection Ho as <-. unfold image.
    split; cbn; rewrite ?app_nil_r; try done; try lia; [by left| |].
    + intros o d Hin. by apply not_elem_of_nil in Hin.
    + intros r Hin. by apply not_elem_of_nil in Hin.
  - by destruct (append_ok _ _ _ _ _ _ _ IH Hu Ha).
  - eapply flushed_inv; [done|]. by eapply flush_ok.
  - by eapply sync_inv.
Qed.

(** Reads of the staged tail. *)
Lemma read_pending_ok l recs off data : vlog_inv l recs → (off, data) ∈ recs →
  read_pending l off (Z.of_nat (length data)) (crc32c data) = Ok (Some data) ∨
  (read_pending l off (Z.of_nat (length data)) (crc32c data) = Ok None ∧ at_ (vl_file l) off data).
Proof.
  intros [Hn Hs Hb Hw Hk Hr Hl] Hin. destruct (Hr off data Hin) as [Ha Hc]. pose proof (at_bound _ _ _ Ha) as Hbd.
  assert (Z.of_nat (length data) ≤ U32_MAX) as Hd by (destruct Ha as (? & ? & _ & _ & Hd); done).
  unfold read_pending. destruct (list_find _ (pending_large l)) as [[i r]|] eqn:Ef.
  { apply list_find_Some in Ef as (Hr' & Eo & _). apply list_elem_of_lookup_2 in Hr'. destruct (Hl r Hr') as [Eh Har].
    rewrite Eo in Har. rewrite (at_inj _ _ _ _ Har Ha) in *. rewrite Eh, check_record_ok by done. by left. }
  assert (off + 8 + Z.of_nat (length data) ≤ pending_start l → at_ (vl_file l) off data) as Hfile.
  { intros Hle. eapply at_shorten; [exact Ha|]. lia. }
  assert (∀ r, r ∈ pending_large l → pl_offset r ≠ off) as Hno by (apply list_find_None in Ef; by rewrite Forall_forall in Ef).
  destruct (Nat.eqb_spec (length (vl_pending l)) 0) as [Hp|Hp].
  { right. split; [done|]. apply Hfile. destruct Hc as [|[Hge [Hnil|(r & Hr' & Eo)]]]; [done| |by destruct (Hno r Hr')].
    exfalso. unfold image in Ha. rewrite (nil_length_inv _ Hp), Hnil in Ha. cbn in Ha. rewrite app_nil_r in Ha. apply at_bound in Ha. lia. }
  destruct Hk as [Hk|Hk]; [by rewrite Hk in Hp|]. unfold image in *. rewrite Hk in *. change (large_bytes []) with (@nil byte) in *. rewrite app_nil_r in *.
  unfold sat_add. rewrite (Z.min_l (8 + _)) by (unfold U32_MAX, U64_MAX in *; lia). rewrite length_app in Hn, Hbd.
  rewrite (Z.min_l (off + _)) by lia. destruct (Z.ltb_spec off (pending_start l)) as [Hlt|Hge]; cbn [orb].
  { right. split; [done|]. apply Hfile. destruct Hc as [|[]]; lia. }
  rewrite (proj2 (Z.ltb_ge _ _)) by lia. rewrite (proj2 (Nat.ltb_ge _ _)) by lia. left.
  destruct Ha as (pre & post & Ei & Eo & _). assert (pre = vl_file l ++ drop (length (vl_file l)) pre) as Epre.
  { rewrite <-(take_drop (length (vl_file l)) pre) at 1. f_equal. transitivity (take (length (vl_file l)) (pre ++ record_of data ++ post));
      [by rewrite take_app_le by lia|by rewrite <-Ei, take_app_length]. }
  set (q := drop _ pre) in *. rewrite Epre, <-app_assoc in Ei. apply app_inv_head in Ei.
  assert (Z.to_nat (off - pending_start l) = length q) as -> by (rewrite Eo, Hs, Epre, length_app; lia).
  rewrite Ei. unfold record_of. rewrite <-!app_assoc.
  assert (byte_slice (length q) (length q + 8) (q ++ record_hdr data ++ data ++ post) = record_hdr data) as ->.
  { apply byte_slice_app; [done|]. rewrite length_app. unfold record_hdr. by rewrite length_app, !length_to_le. }
  assert (byte_slice (length q + 8) (length q + Z.to_nat (8 + Z.of_nat (length data))) (q ++ record_hdr data ++ data ++ post) = data) as ->.
  { rewrite (app_assoc q). apply byte_slice_app; unfold record_hdr; rewrite !length_app, !length_to_le; lia. }
  by rewrite check_record_ok.
Qed.

Lemma read_at_on_ok l recs off data : vlog_inv l recs → (off, data) ∈ recs →
  read_at_on l off (Z.of_nat (length data)) (crc32c data) = Ok data.
Proof.
  intros Hi Hin. unfold read_at_on. destruct (read_pending_ok l recs off data Hi Hin) as [->|[-> Hat]]; cbn; [done|].
  by apply read_at_ok.
Qed.

(** ** The rewritten log *)

Lemma rewrite_loop_ok fn live body next remap body' remap' :
  rewrite_loop fn live body next remap = Ok (body', remap') → next = Z.of_nat (length body) →
  (∃ more, body' = body ++ more) ∧
  (∀ o, o ∉ live.*1 → remap' !! o = remap !! o) ∧
  (NoDup live.*1 → ∀ o d, (o, d) ∈ live → ∃ off, at_ body' off d ∧ off ≤ U64_MAX ∧
     remap' !! o = Some (encode_vlog_ptr (mkPtr fn off (Z.of_nat (length d)) (crc32c d)))).
Proof.
  revert body next remap. induction live as [|[o d] live IH]; intros body next remap; cbn [rewrite_loop].
  { intros [= <- <-] _. split; [exists []; by rewrite app_nil_r|]. split; [done|]. by intros _ o d Hin%not_elem_of_nil. }
  destruct (Z.ltb_spec U32_MAX (Z.of_nat (length d))) as [|Hd]; [done|]. destruct (Z.ltb_spec U64_MAX (next + (8 + Z.of_nat (length d)))) as [|Hn]; [done|].
  intros Hl Enext. destruct (IH _ _ _ Hl) as ([more ->] & Hout & Hin).
  { rewrite Enext. change (body ++ record_hdr d ++ d) with (body ++ record_of d). rewrite length_app, length_record. lia. }
  split; [exists ((record_hdr d ++ d) ++ more); by rewrite <-!app_assoc|]. cbn. split.
  - intros o' Ho. rewrite Hout by set_solver. rewrite lookup_insert_ne by set_solver. done.
  - intros [Ho Hnd]%NoDup_cons o' d' [[= -> ->]|Hi]%elem_of_cons; [|by apply Hin]. exists next. split_and!; [|lia|].
    + rewrite Enext. apply at_app. by apply at_end.
    + rewrite Hout by done. by rewrite lookup_insert_eq.
Qed.
End log.

(** * Properties *)

Section props.
Context `{CC : Crc32c}.

(** The file a pointer of the open log names. *)
Definition names_log (l : ValueLog) (file_num : Z) : Prop :=
  file_num = 0 ∧ vl_name l = VLOG_FILE_NAME ∨ 0 < file_num ≤ U32_MAX ∧ vl_name l = blob_name file_num.

(** A stored pointer to a record of the open log reads its value. *)
Lemma resolve_ptr_ok others l recs off data fn use_new :
  vlog_inv l recs → (off, data) ∈ recs → names_log l fn →
  resolve_stored_value others (Some l) use_new (encode_vlog_ptr (mkPtr fn off (Z.of_nat (length data)) (crc32c data))) = Ok data.
Proof.
  intros Hi Hin Hfn. destruct (vi_recs _ _ Hi _ _ Hin) as [Ha _]. pose proof (at_bound _ _ _ Ha) as Hb.
  destruct Ha as (_ & _ & _ & _ & Hd). pose proof (vi_next _ _ Hi). pose proof (vi_width _ _ Hi).
  pose proof (crc32c_append_u32 0 data) as Hc. unfold resolve_stored_value.
  rewrite decode_encode_ptr by (destruct Hfn as [[-> _]|[? _]]; unfold ptr_ok, crc32c, U32_MAX in *; cbn; lia).
  rewrite bool_decide_eq_false_2 by (unfold encode_vlog_ptr; by destruct (_ =? _)).
  unfold read_ptr_on. cbn [ptr_offset ptr_len ptr_crc]. destruct (read_pending_ok l recs off data Hi Hin) as [->|[-> Hat]]; cbn [res_bind]; [done|].
  assert (path_for_ptr others l (mkPtr fn off (Z.of_nat (length data)) (crc32c data)) use_new = vl_name l) as ->.
  { unfold path_for_ptr. cbn [ptr_file_num]. destruct Hfn as [[-> En]|[Hfn En]]; [by rewrite (bool_decide_eq_true_2 (vl_name l = _))|].
    by rewrite (proj2 (Z.eqb_neq fn 0)) by lia. }
  unfold open_read. rewrite bool_decide_eq_true_2 by done. by apply read_at_ok.
Qed.

(** C18: the value log gives back what it took. After any sequence of appends,
    flushes and syncs on an opened log in which every write succeeds and no
    buffer holds both large and small records, every pointer an append returned reads its value back,
    directly and through the stored reference, whether the record is still
    staged or already in the file; an append that fits never fails, and an
    inline value that looks like a pointer or starts with the escape byte is
    stored so that it reads back too. *)
Theorem vlog_reads_back others l recs off data :
  vlog_reach l recs → (off, data) ∈ recs →
  read_at_on l off (Z.of_nat (length data)) (crc32c data) = Ok data ∧
  (∀ fn use_new, names_log l fn →
     resolve_stored_value others (Some l) use_new (encode_vlog_ptr (mkPtr fn off (Z.of_nat (length data)) (crc32c data))) = Ok data) ∧
  (∀ data', unmixed l data' → Z.of_nat (length data') ≤ U32_MAX → next_offset l + (8 + Z.of_nat (length data')) ≤ U64_MAX →
     ∃ l' off', append_pending append_io_ok data' l = (l', Ok (off', Z.of_nat (length data'), crc32c data'))) ∧
  (∀ v use_new, resolve_stored_value others (Some l) use_new (escape_inline_value v) = Ok v).
Proof.
  intros Hr Hin. pose proof (reach_inv _ _ Hr) as Hi. split; [by eapply read_at_on_ok|]. split; [|split; [|intros; apply resolve_escaped]].
  - intros fn use_new Hfn. by eapply resolve_ptr_ok.
  - intros data' Hu Hd Hfit. unfold append_pending, append_pending_bytes, append_pending_small.
    assert (∀ stage, ∃ l' off', append_record append_io_ok stage data' l = (l', Ok (off', Z.of_nat (length data'), crc32c data'))) as Hap; [|destruct (is_large data'); cbn [negb]; apply Hap].
    intros stage. unfold append_record. rewrite (proj2 (Z.ltb_ge _ _)) by done. cbn [before1 before2 append_io_ok].
    set (b := _ || _). destruct (if b then flush_pending WriteOk WriteOk l else (l, Ok tt)) as [l1 r1] eqn:E1.
    assert (r1 = Ok tt) as ->. { destruct b; [|by simplify_eq]. destruct (flush_total l) as [? E]. rewrite E in E1. by simplify_eq. }
    destruct (maybe_flush_inv _ _ _ _ Hi E1) as (_ & En & _). rewrite En, (proj2 (Z.ltb_ge _ _)) by done.
    set (l2 := mkVlog _ _ _ _ _ _ _ _). cbn [after1 after2 append_io_ok]. destruct (ASYNC_VLOG_BUFFER <=? staged_len l2); [|by eauto].
    destruct (flush_total l2) as [l3 ->]. by eauto.
Qed.

(** The rewrite keeps every live value. When the live records (distinct
    offsets) are rewritten to a new file, the file opens as a log, and the
    reference a stored pointer to a live record is remapped to decodes to a
    record of the new file that holds the same value. *)
Theorem rewrite_reads_back fn live body remap o d name :
  0 ≤ fn ≤ U32_MAX → rewrite_live fn live = Ok (body, remap) → NoDup live.*1 → (o, d) ∈ live → 0 ≤ o ≤ U64_MAX →
  (∃ l, open_path name body = Ok l ∧ vl_file l = body) ∧
  ∃ off, remap_stored_value (encode_vlog_ptr (mkPtr 0 o (Z.of_nat (length d)) (crc32c d))) remap =
           encode_vlog_ptr (mkPtr fn off (Z.of_nat (length d)) (crc32c d)) ∧
    decode_vlog_ptr (encode_vlog_ptr (mkPtr fn off (Z.of_nat (length d)) (crc32c d))) = Some (mkPtr fn off (Z.of_nat (length d)) (crc32c d)) ∧
    read_record_at (Ok body) off (Z.of_nat (length d)) (crc32c d) = Ok d.
Proof.
  intros Hfn Hrw Hnd Hin Ho. unfold rewrite_live in Hrw. destruct (rewrite_loop_ok _ _ _ _ _ _ _ Hrw eq_refl) as ([more ->] & _ & Hat).
  split.
  - unfold open_path. rewrite (proj2 (Z.ltb_ge _ _)) by (rewrite length_app; cbn; lia). eexists. split; [done|done].
  - destruct (Hat Hnd o d Hin) as (off & Ha & Hoff & Hm). exists off. pose proof (at_bound _ _ _ Ha) as Hb.
    assert (Z.of_nat (length d) ≤ U32_MAX) as Hd by (by destruct Ha as (? & ? & _ & _ & Hd)).
    pose proof (crc32c_append_u32 0 d) as Hc. split_and!; [|by apply decode_encode_ptr; unfold ptr_ok, crc32c; cbn; lia|by apply read_at_ok].
    unfold remap_stored_value. rewrite decode_encode_ptr by (unfold ptr_ok, crc32c, U32_MAX in *; cbn; lia). cbn. by rewrite Hm.
Qed.

(** An empty log. *)
Definition fresh_log (name : text) : ValueLog := mkVlog name VLOG_MAGIC 8 8 [] [] 0 false.

(** Staging into a buffer that stays below its limit. *)
Lemma append_stages l data : Z.of_nat (length data) ≤ U32_MAX → staged_len l + 8 + Z.of_nat (length data) < ASYNC_VLOG_BUFFER →
  0 ≤ staged_len l → staged_len (stage data l) < ASYNC_VLOG_BUFFER → next_offset l + (8 + Z.of_nat (length data)) ≤ U64_MAX →
  append_pending append_io_ok data l = (stage data l, Ok (next_offset l, Z.of_nat (length data), crc32c data)).
Proof.
  intros Hd Hs H0 Hs' Hfit. assert (append_record append_io_ok (if is_large data then stage_large data else stage_small data) data l =
    (stage data l, Ok (next_offset l, Z.of_nat (length data), crc32c data))) as E;
    [|unfold append_pending, append_pending_bytes, append_pending_small; revert E; by destruct (is_large data)].
  unfold append_record. rewrite (proj2 (Z.ltb_ge _ _)) by done. unfold sat_add, U64_MAX, ASYNC_VLOG_BUFFER in *.
  rewrite (proj2 (Z.leb_gt _ _)) by lia. cbn [orb]. rewrite (proj2 (Z.ltb_ge _ (Z.min _ _))) by lia. cbn [andb].
  rewrite (proj2 (Z.ltb_ge _ (next_offset l + _))) by lia.
  assert ((if is_large data then stage_large data else stage_small data) (next_offset l) l =
          (if is_large data then stage_large data (next_offset l) l else stage_small data (next_offset l) l)) as Es by by destruct (is_large data).
  rewrite Es. fold (stage data l). rewrite (proj2 (Z.leb_gt _ _)) by done. done.
Qed.

(** C40: a buffer of large and small records is written in the wrong order. Take
    any log a session reaches with nothing staged, a value of at least 4096 bytes
    and then a smaller one, which together do not fill the buffer. Both appends
    are staged and return the offsets of the order of the appends, but the flush,
    which succeeds, writes the small records before the large ones: the pointer
    to the large value then reads as corrupt. *)
Theorem vlog_mixed_corrupts l recs large small :
  vlog_reach l recs → vl_pending l = [] → pending_large l = [] →
  LARGE_PENDING ≤ Z.of_nat (length large) → Z.of_nat (length small) < LARGE_PENDING →
  16 + Z.of_nat (length large) + Z.of_nat (length small) < ASYNC_VLOG_BUFFER →
  next_offset l + 16 + Z.of_nat (length large) + Z.of_nat (length small) ≤ U64_MAX →
  ∃ l1 l2 l3,
    append_pending append_io_ok large l = (l1, Ok (next_offset l, Z.of_nat (length large), crc32c large)) ∧
    append_pending append_io_ok small l1 = (l2, Ok (next_offset l + (8 + Z.of_nat (length large)), Z.of_nat (length small), crc32c small)) ∧
    flush_pending WriteOk WriteOk l2 = (l3, Ok tt) ∧
    ∃ m, read_at_on l3 (next_offset l) (Z.of_nat (length large)) (crc32c large) = Err (CorruptValue m).
Proof.
  intros Hr%reach_inv Hp Hl HL Hs Hfit Hw. unfold LARGE_PENDING, ASYNC_VLOG_BUFFER in *.
  assert (is_large large = true) as El by (apply Z.leb_le; done). assert (is_large small = false) as Es by (apply Z.leb_gt; done).
  assert (pending_large_bytes l = 0) as Eb by (rewrite (vi_bytes _ _ Hr), Hl; done).
  set (l1 := stage large l). set (l2 := stage small l1).
  assert (staged_len l = 0) as S0 by (unfold staged_len; by rewrite Hp, Eb).
  assert (staged_len l1 = 8 + Z.of_nat (length large)) as S1.
  { unfold l1, stage, staged_len. rewrite El. cbn. rewrite Hp, Eb. unfold sat_add, U64_MAX. cbn [length]. lia. }
  assert (staged_len l2 = 16 + Z.of_nat (length large) + Z.of_nat (length small)) as S2.
  { unfold l2, l1, stage, staged_len. rewrite Es, El. cbn. rewrite Hp, Eb. cbn. unfold record_hdr. rewrite !length_app, !length_to_le. unfold sat_add, U64_MAX. lia. }
  exists l1, l2, (flush_pending WriteOk WriteOk l2).1. split; [|split; [|split]].
  - apply append_stages; unfold U32_MAX, ASYNC_VLOG_BUFFER; rewrite ?S0; fold l1; rewrite ?S1; lia.
  - apply append_stages; unfold U32_MAX, ASYNC_VLOG_BUFFER; rewrite ?S1; fold l2; rewrite ?S2; try lia. unfold l1, stage. cbn. lia.
  - destruct (flush_total l2) as [l3 ->]. done.
  - assert ((flush_pending WriteOk WriteOk l2).1 = mkVlog (vl_name l) ((vl_file l ++ record_of small) ++ record_of large)
      (next_offset l2) (next_offset l2) [] [] 0 true) as ->.
    { unfold l2, l1, stage. rewrite Es, El. unfold flush_pending, flush_large. cbn [stage_small stage_large vl_pending pending_large]. rewrite Hp, Hl. cbn [app].
      destruct (record_hdr small ++ small) as [|x q] eqn:Ex; [by apply (f_equal length) in Ex; unfold record_hdr in Ex; rewrite !length_app, !length_to_le in Ex|].
      unfold record_of. rewrite Ex. cbn. by rewrite app_nil_r. }
    unfold read_at_on, read_pending. cbn [pending_large list_find vl_pending length Nat.eqb res_bind vl_file]. unfold read_record_at. cbn [res_bind].
    assert (next_offset l = Z.of_nat (length (vl_file l))) as -> by (rewrite (vi_next _ _ Hr); unfold image; by rewrite Hp, Hl, !app_nil_r).
    rewrite Nat2Z.id, <-app_assoc, drop_app_length. rewrite (proj2 (Nat.ltb_ge _ _)) by (rewrite length_app, length_record; lia).
    assert (from_le (byte_slice 0 4 (record_of small ++ record_of large)) = Z.of_nat (length small)) as ->.
    { unfold record_of at 1, record_hdr. rewrite <-!app_assoc. change (to_le 4 ?x ++ ?y) with ([] ++ to_le 4 x ++ y) at 1.
      rewrite byte_slice_app by field_len. apply from_le_to_le. lia. }
    rewrite (proj2 (Z.eqb_neq _ _)) by lia. cbn [negb]. by eexists.
Qed.

(** A staged record answers for another file. With blob 2 open and a longer
    record staged at its first offset, a pointer to blob 1 with the same offset is
    checked against the staged record: the read reports corruption although
    blob 1 holds the value. *)
Theorem vlog_pending_shadows_blob :
  let blob1 := VLOG_MAGIC ++ record_of [x61; x62] in
  let others n := if bool_decide (n = blob_name 1) then Some blob1 else None in
  let '(l, r) := append_pending append_io_ok [x63; x64; x65] (fresh_log (blob_name 2)) in
  r = Ok (8, 3, crc32c [x63; x64; x65]) ∧
  read_record_at (Ok blob1) 8 2 (crc32c [x61; x62]) = Ok [x61; x62] ∧
  (∃ m, read_ptr_on others l (mkPtr 1 8 2 (crc32c [x61; x62])) false = Err (CorruptValue m)).
Proof.
  intros blob1 others. destruct (append_pending append_io_ok [x63; x64; x65] (fresh_log (blob_name 2))) as [l r] eqn:E.
  vm_compute in E. injection E as <- <-. split; [reflexivity|]. split; [|eexists; unfold read_ptr_on; lazy -[others]; reflexivity].
  apply (read_at_ok _ _ [x61; x62]). exists VLOG_MAGIC, []. by rewrite app_nil_r.
Qed.
End props.

(** ** Witnesses *)

#[local] Existing Instance crc32c_bitwise.

Lemma vlog_reads_back_witness :
  ∃ l, vlog_reach l [(8, [x61; x62]); (18, [x63])] ∧
    resolve_stored_value (λ _, None) (Some l) false (encode_vlog_ptr (mkPtr 0 18 1 (crc32c [x63]))) = Ok [x63].
Proof.
  destruct (append_pending append_io_ok [x61; x62] (fresh_log VLOG_FILE_NAME)) as [l1 r1] eqn:E1.
  destruct (append_pending append_io_ok [x63] l1) as [l2 r2] eqn:E2.
  assert (vlog_reach l2 [(8, [x61; x62]); (18, [x63])]) as Hr.
  { apply (vr_append l1 [(8, [x61; x62])] [x63] _ _ 1 (crc32c [x63])).
    - apply (vr_append (fresh_log VLOG_FILE_NAME) [] [x61; x62] _ _ 2 (crc32c [x61; x62])).
      + apply (vr_open VLOG_FILE_NAME VLOG_MAGIC); [vm_compute; discriminate|reflexivity].
      + reflexivity.
      + rewrite E1. f_equal. vm_compute in E1. injection E1 as _ <-. vm_compute. reflexivity.
    - vm_compute in E1. injection E1 as <- _. reflexivity.
    - rewrite E2. f_equal. vm_compute in E1. injection E1 as <- _. vm_compute in E2. injection E2 as _ <-. vm_compute. reflexivity. }
  exists l2. split; [exact Hr|].
  destruct (vlog_reads_back (λ _, None) l2 _ 18 [x63] Hr) as (_ & Hres & _); [right; left|]. apply (Hres 0 false).
  left. split; [reflexivity|]. vm_compute in E1. injection E1 as <- _. vm_compute in E2. by injection E2 as <- _.
Defined.

Lemma vlog_mixed_corrupts_witness :
  ∃ l1 l2 l3, append_pending append_io_ok (replicate (Z.to_nat 4096) x00) (fresh_log VLOG_FILE_NAME) = (l1, Ok (8, 4096, crc32c (replicate (Z.to_nat 4096) x00))) ∧
    append_pending append_io_ok [x61] l1 = (l2, Ok (4112, 1, crc32c [x61])) ∧ flush_pending WriteOk WriteOk l2 = (l3, Ok tt) ∧
    ∃ m, read_at_on l3 8 4096 (crc32c (replicate (Z.to_nat 4096) x00)) = Err (CorruptValue m).
Proof.
  assert (Z.of_nat (length (replicate (Z.to_nat 4096) x00)) = 4096) as El by (rewrite length_replicate; lia).
  destruct (vlog_mixed_corrupts (fresh_log VLOG_FILE_NAME) [] (replicate (Z.to_nat 4096) x00) [x61]) as (l1 & l2 & l3 & E1 & E2 & E3 & E4).
  - apply (vr_open VLOG_FILE_NAME VLOG_MAGIC); [vm_compute; discriminate|reflexivity].
  - reflexivity.
  - reflexivity.
  - rewrite El. vm_compute. discriminate.
  - reflexivity.
  - rewrite El. reflexivity.
  - rewrite El. vm_compute. discriminate.
  - rewrite El in *. exists l1, l2, l3. split; [exact E1|]. split; [exact E2|]. split; [exact E3|exact E4].
Defined.

Lemma rewrite_reads_back_witness :
  ∃ body remap off, rewrite_live 3 [(8, [x61]); (40, [x62; x63])] = Ok (body, remap) ∧
    read_record_at (Ok body) off 2 (crc32c [x62; x63]) = Ok [x62; x63].
Proof.
  destruct (rewrite_live 3 [(8, [x61]); (40, [x62; x63])]) as [[body remap]|e] eqn:E; [|vm_compute in E; discriminate].
  destruct (rewrite_reads_back 3 [(8, [x61]); (40, [x62; x63])] body remap 40 [x62; x63] VLOG_NEW_NAME) as (_ & off & _ & _ & Hread);
    [vm_compute; split; discriminate|exact E| |right; left|vm_compute; split; discriminate|].
  - repeat constructor; [|by intros ?%not_elem_of_nil]. by intros [=]%list_elem_of_singleton.
  - exists body, remap, off. split; [reflexivity|exact Hread].
Defined.
