(* ===== verification/Spill.v ===== *)
(** Large values on the write path ([db_kernel.rs]): which value is spilled to
    the value log, the rotation of blob files, and the barrier that precedes the
    write-ahead log; with the opening of the logs ([vlog_kernel.rs]).

    Each call takes one entry of a script that says what the file system does
    during it; an exhausted script succeeds on an empty directory. *)

From S2P Require Import Prelude Text ErrorKernel BatchKernel WalFormat ValueLog.

Local Open Scope Z_scope.

(** What a call meets: the files of the directory, whether a file can be
    created, the writes and the barrier of a flush, the writes of an append. *)
Record VIo := mkVio {
  vio_disk : text → option (list byte);
  vio_create : Result CoreError unit;
  vio_write1 : WriteOutcome;
  vio_write2 : WriteOutcome;
  vio_barrier : Result CoreError unit;
  vio_append : AppendIo
}.
Definition vio_ok : VIo := mkVio (λ _, None) (Ok tt) WriteOk WriteOk (Ok tt) append_io_ok.

(** The fields of [Db] that concern the value log. *)
Record Spill := mkSpill {
  sp_vlog : option ValueLog;
  large_value_threshold : option Z;
  vlog_rotate_bytes : option Z;
  vlog_use_new : bool;
  blob_active : Z;
  sp_script : list VIo
}.
Definition set_vlog (v : option ValueLog) (s : Spill) : Spill :=
  mkSpill v (large_value_threshold s) (vlog_rotate_bytes s) (vlog_use_new s) (blob_active s) (sp_script s).
Definition set_active (v : option ValueLog) (n : Z) (s : Spill) : Spill :=
  mkSpill v (large_value_threshold s) (vlog_rotate_bytes s) (vlog_use_new s) n (sp_script s).
Definition next_vio (s : Spill) : VIo * Spill :=
  match sp_script s with
  | [] => (vio_ok, s)
  | io :: rest =>
      (io, mkSpill (sp_vlog s) (large_value_threshold s) (vlog_rotate_bytes s) (vlog_use_new s) (blob_active s) rest)
  end.

(** [ValueLog::open_with_flag]: an empty log is created unless the manifest says
    that the pointers name the staged file. *)
Definition open_with_flag (io : VIo) (use_new : bool) : Result CoreError ValueLog :=
  let path := if use_new then if vio_disk io VLOG_NEW_NAME then VLOG_NEW_NAME else VLOG_FILE_NAME else VLOG_FILE_NAME in
  match vio_disk io path with
  | Some contents => open_path path contents
  | None =>
      if use_new then Err (Internal [Lit "vlog missing under vlog_use_new (mid-promote?). refuse empty create"])
      else let? _ := vio_create io in open_path VLOG_FILE_NAME VLOG_MAGIC
  end.

(** [ValueLog::open_blob] *)
Definition open_blob (io : VIo) (num : Z) : Result CoreError ValueLog :=
  if num =? 0 then open_with_flag io false
  else
    match vio_disk io (blob_name num) with
    | Some contents => open_path (blob_name num) contents
    | None => let? _ := vio_create io in open_path (blob_name num) VLOG_MAGIC
    end.

(** [vlog_flush_pending], [vlog_sync_pending] *)
Definition vlog_flush_pending (io : VIo) (s : Spill) : Spill * Result CoreError unit :=
  match sp_vlog s with
  | None => (s, Ok tt)
  | Some v => let '(v, r) := flush_pending (vio_write1 io) (vio_write2 io) v in (set_vlog (Some v) s, r)
  end.
Definition vlog_sync_pending (io : VIo) (s : Spill) : Spill * Result CoreError unit :=
  match sp_vlog s with
  | None => (s, Ok tt)
  | Some v => let '(v, r) := sync_pending (vio_write1 io) (vio_write2 io) (vio_barrier io) v in (set_vlog (Some v) s, r)
  end.

(** [write_admission_kernel]: what follows an append to the log. *)
Inductive WalCommitPlan := AppendApplyOk | AppendSyncApplyOk | AppendSyncFence.
Definition fence_on_sync_fail (sync_required sync_failed : bool) : bool := sync_required && sync_failed.
Definition wal_commit_plan (need_sync sync_failed : bool) : WalCommitPlan :=
  if fence_on_sync_fail need_sync sync_failed then AppendSyncFence
  else if need_sync then AppendSyncApplyOk else AppendApplyOk.

(** [vlog_prepare_wal]; its assertion holds by the plan's definition. *)
Definition vlog_prepare_wal (do_sync : bool) (s : Spill) : Spill * Result CoreError unit :=
  let '(io, s) := next_vio s in
  match wal_commit_plan do_sync false with
  | AppendApplyOk => vlog_flush_pending io s
  | AppendSyncApplyOk | AppendSyncFence => vlog_sync_pending io s
  end.

(** [rotate_blob] *)
Definition rotate_blob (io : VIo) (s : Spill) : Spill * Result CoreError unit :=
  match vlog_sync_pending io s with
  | (s, Err e) => (s, Err e)
  | (s, Ok _) =>
      if negb (blob_active s =? 0) && (U32_MAX <? blob_active s + 1) then (s, Err (Internal [Lit "blob generation overflow"]))
      else
        let next := if blob_active s =? 0 then 1 else blob_active s + 1 in
        match open_blob io next with
        | Err e => (s, Err e)
        | Ok log => (set_active (Some log) next s, Ok tt)
        end
  end.

(** [maybe_spill_large_value], split at its three steps: the log is open; in
    rotation mode it is a blob below the cap; the value is appended. *)
Definition ensure_vlog (io : VIo) (s : Spill) : Spill * Result CoreError unit :=
  match sp_vlog s with
  | Some _ => (s, Ok tt)
  | None =>
      match vlog_rotate_bytes s with
      | Some _ => rotate_blob io s
      | None =>
          match open_with_flag io (vlog_use_new s) with
          | Err e => (s, Err e)
          | Ok log => (set_vlog (Some log) s, Ok tt)
          end
      end
  end.
Definition ensure_generation (io : VIo) (s : Spill) : Spill * Result CoreError unit :=
  match vlog_rotate_bytes s with
  | None => (s, Ok tt)
  | Some cap =>
      if blob_active s =? 0 then rotate_blob io s
      else
        let len := match sp_vlog s with Some v => next_offset v | None => 0 end in
        if cap <=? len then rotate_blob io s else (s, Ok tt)
  end.

Section spill.
Context `{CC : Crc32c}.

(** [None] is the failure of [expect("just opened")]. *)
Definition append_large (io : VIo) (value : list byte) (s : Spill) : option (Spill * Result CoreError (list byte)) :=
  v ← sp_vlog s;
  let '(v, r) := append_pending_bytes (vio_append io) value v in
  let s := set_vlog (Some v) s in
  Some (s, match r with
           | Err e => Err e
           | Ok (off, len, crc) => Ok (encode_vlog_ptr (mkPtr (blob_active s) off len crc))
           end).

Definition maybe_spill_large_value (value : list byte) (s : Spill) : option (Spill * Result CoreError (list byte)) :=
  match large_value_threshold s with
  | None => Some (s, Ok (escape_inline_value value))
  | Some threshold =>
      if Z.of_nat (length value) <? threshold then Some (s, Ok (escape_inline_value value))
      else
        let '(io, s) := next_vio s in
        match ensure_vlog io s with
        | (s, Err e) => Some (s, Err e)
        | (s, Ok _) =>
            match ensure_generation io s with
            | (s, Err e) => Some (s, Err e)
            | (s, Ok _) => append_large io value s
            end
        end
  end.
End spill.

(** * Lemmas *)

(** A call during which the file system does not fail. *)
Definition calm (io : VIo) : Prop :=
  vio_write1 io = WriteOk ∧ vio_write2 io = WriteOk ∧ vio_barrier io = Ok tt ∧ vio_append io = append_io_ok ∧
  ∀ name c, vio_disk io name = Some c → Z.of_nat (length c) ≤ U64_MAX.

Section lemmas.
Context `{CC : Crc32c}.

(** The open log is one a session can reach, and new pointers name it. *)
Definition spill_ok (s : Spill) : Prop :=
  0 ≤ blob_active s ≤ U32_MAX ∧ vlog_use_new s = false ∧ (sp_vlog s = None → blob_active s = 0) ∧
  ∀ l, sp_vlog s = Some l → (∃ recs, vlog_reach l recs) ∧ names_log l (blob_active s).

Definition takes (value : list byte) (s : Spill) : Prop := ∀ l, sp_vlog s = Some l → unmixed l value.

Lemma open_path_fresh name c l :
  Z.of_nat (length c) ≤ U64_MAX → open_path name c = Ok l →
  (∃ recs, vlog_reach l recs) ∧ vl_name l = name ∧ ∀ value, unmixed l value.
Proof.
  intros Hc E. split; [eexists; by eapply vr_open|]. unfold open_path in E. repeat case_match; try done.
  injection E as <-. split; [done|]. intros value. unfold unmixed. by destruct (is_large value).
Qed.

Lemma open_with_flag_fresh io l :
  calm io → open_with_flag io false = Ok l →
  (∃ recs, vlog_reach l recs) ∧ names_log l 0 ∧ ∀ value, unmixed l value.
Proof.
  intros (_ & _ & _ & _ & Hd) E. unfold open_with_flag in E.
  assert (∃ c, Z.of_nat (length c) ≤ U64_MAX ∧ open_path VLOG_FILE_NAME c = Ok l) as (c & Hc & Ho).
  { destruct (vio_disk io VLOG_FILE_NAME) as [c|] eqn:Ec; [by eauto|]. exists VLOG_MAGIC. split; [done|].
    by destruct (vio_create io). }
  destruct (open_path_fresh _ _ _ Hc Ho) as (? & ? & ?). split_and!; [done|by left|done].
Qed.

Lemma open_blob_fresh io n l :
  calm io → 0 < n ≤ U32_MAX → open_blob io n = Ok l →
  (∃ recs, vlog_reach l recs) ∧ names_log l n ∧ ∀ value, unmixed l value.
Proof.
  intros (_ & _ & _ & _ & Hd) Hn E. unfold open_blob in E. rewrite (proj2 (Z.eqb_neq n 0)) in E by lia.
  assert (∃ c, Z.of_nat (length c) ≤ U64_MAX ∧ open_path (blob_name n) c = Ok l) as (c & Hc & Ho).
  { destruct (vio_disk io (blob_name n)) as [c|] eqn:Ec; [by eauto|]. exists VLOG_MAGIC. split; [done|].
    by destruct (vio_create io). }
  destruct (open_path_fresh _ _ _ Hc Ho) as (? & ? & ?). split_and!; [done|by right|done].
Qed.

Lemma rotate_ok io s s' :
  calm io → spill_ok s → rotate_blob io s = (s', Ok tt) → spill_ok s' ∧ is_Some (sp_vlog s') ∧ ∀ value, takes value s'.
Proof.
  intros Hc (Hb & Hu & Hz & Hl) E. unfold rotate_blob in E.
  assert (∀ s1 r, vlog_sync_pending io s = (s1, r) → ∃ v, s1 = set_vlog v s) as Hs.
  { intros s1 r. unfold vlog_sync_pending. destruct (sp_vlog s) as [v|] eqn:Ev.
    - destruct (sync_pending _ _ _ v) as [v' r']. intros [= <- _]. by exists (Some v').
    - intros [= <- _]. exists None. rewrite <-Ev. by destruct s. }
  destruct (vlog_sync_pending io s) as [s1 [[]|e]] eqn:E1; [|done]. destruct (Hs _ _ eq_refl) as [v ->]. cbn in E.
  destruct (negb _ && _) eqn:Eo; [done|]. set (next := if (_ : bool) then _ else _) in E.
  destruct (open_blob io next) as [log|] eqn:El; [|done]. injection E as <-.
  assert (0 < next ≤ U32_MAX) as Hn.
  { unfold next. destruct (Z.eqb_spec (blob_active s) 0); [unfold U32_MAX; lia|].
    apply andb_false_iff in Eo as [Eo|Eo]; [done|]. apply Z.ltb_ge in Eo. lia. }
  destruct (open_blob_fresh _ _ _ Hc Hn El) as (Hr & Hnm & Ht). split_and!.
  - split; [cbn; lia|]. split; [done|]. split; [done|]. cbn. by intros l [= <-].
  - by eexists.
  - intros value l [= <-]. apply Ht.
Qed.

Lemma ensure_vlog_ok io s s' value :
  calm io → spill_ok s → takes value s → ensure_vlog io s = (s', Ok tt) →
  spill_ok s' ∧ is_Some (sp_vlog s') ∧ takes value s'.
Proof.
  intros Hc Hs Ht E. unfold ensure_vlog in E. destruct (sp_vlog s) as [l|] eqn:El.
  { injection E as <-. rewrite El. by eauto. }
  destruct (vlog_rotate_bytes s).
  - destruct (rotate_ok _ _ _ Hc Hs E) as (? & ? & ?). by auto.
  - destruct Hs as (Hb & Hu & Hz & _). rewrite Hu in E. destruct (open_with_flag io false) as [log|] eqn:Eo; [|done].
    injection E as <-. destruct (open_with_flag_fresh _ _ Hc Eo) as (Hr & Hn & Hf). split_and!; [|by eexists|by intros l [= <-]].
    split; [done|]. split; [done|]. split; [done|]. cbn. rewrite (Hz El). by intros l [= <-].
Qed.

Lemma ensure_generation_ok io s s' value :
  calm io → spill_ok s → is_Some (sp_vlog s) → takes value s → ensure_generation io s = (s', Ok tt) →
  spill_ok s' ∧ is_Some (sp_vlog s') ∧ takes value s'.
Proof.
  intros Hc Hs Hl Ht E. unfold ensure_generation in E.
  assert (rotate_blob io s = (s', Ok tt) → spill_ok s' ∧ is_Some (sp_vlog s') ∧ takes value s') as Hrot.
  { intros Hr. destruct (rotate_ok _ _ _ Hc Hs Hr) as (? & ? & ?). by auto. }
  destruct (vlog_rotate_bytes s); [|by simplify_eq]. repeat case_match; auto; by simplify_eq.
Qed.

Lemma flush_name o1 o2 l : vl_name (flush_pending o1 o2 l).1 = vl_name l.
Proof.
  unfold flush_pending, flush_large.
  destruct (vl_pending l), (pending_large l), o1, o2; cbn; repeat case_match; done.
Qed.

Lemma append_name io data l : vl_name (append_pending_bytes io data l).1 = vl_name l.
Proof.
  assert (∀ stage, (∀ o l, vl_name (stage o l) = vl_name l) → vl_name (append_record io stage data l).1 = vl_name l) as Hap.
  { intros stage Hst. unfold append_record. destruct (U32_MAX <? _); [done|].
    assert (∀ (c : bool) o1 o2 v, vl_name (if c then flush_pending o1 o2 v else (v, Ok tt)).1 = vl_name v) as Hf
      by (intros [] **; [apply flush_name|done]).
    set (c1 := _ || _). pose proof (Hf c1 (before1 io) (before2 io) l) as H1.
    destruct (if c1 then _ else _) as [l1 [[]|]]; cbn in H1; [|done].
    destruct (U64_MAX <? _); [by cbn; rewrite Hst|]. set (l2 := mkVlog _ _ _ _ _ _ _ _).
    pose proof (Hf (ASYNC_VLOG_BUFFER <=? staged_len l2) (after1 io) (after2 io) l2) as H2.
    destruct (if ASYNC_VLOG_BUFFER <=? staged_len l2 then _ else _) as [l3 r3]. cbn in *. by rewrite H2, Hst. }
  unfold append_pending_bytes, append_pending_small. destruct (is_large data); by apply Hap.
Qed.

Lemma append_large_ok others io value s s' stored use_new :
  calm io → spill_ok s → takes value s → append_large io value s = Some (s', Ok stored) →
  spill_ok s' ∧ resolve_stored_value others (sp_vlog s') use_new stored = Ok value.
Proof.
  intros (_ & _ & _ & Ha & _) (Hb & Hu & Hz & Hl) Ht E. unfold append_large in E. rewrite Ha in E.
  destruct (sp_vlog s) as [l|] eqn:El; [|done]. cbn [mbind option_bind] in E.
  destruct (append_pending_bytes append_io_ok value l) as [l' [[[off len] crc]|]] eqn:Eap; [|done]. injection E as <- <-.
  destruct (Hl l eq_refl) as [[recs Hr] Hn].
  assert (append_pending append_io_ok value l = (l', Ok (off, len, crc))) as Eap'.
  { rewrite <-Eap. unfold append_pending, append_pending_bytes. by destruct (is_large value). }
  pose proof (vr_append _ _ _ _ _ _ _ Hr (Ht l El) Eap') as Hr'.
  destruct (append_ok _ _ _ _ _ _ _ (reach_inv _ _ Hr) (Ht l El) Eap') as (Hi & -> & ->).
  pose proof (append_name append_io_ok value l) as Hnm. rewrite Eap in Hnm. cbn in Hnm.
  assert (names_log l' (blob_active s)) as Hn' by (unfold names_log in *; by rewrite Hnm).
  split; [split; [done|]; split; [done|]; split; [done|]; cbn; intros ? [= <-]; by eauto|].
  cbn. eapply resolve_ptr_ok; [done| |done]. set_solver.
Qed.

Lemma rotate_opens io s s' : rotate_blob io s = (s', Ok tt) → is_Some (sp_vlog s').
Proof. unfold rotate_blob. intros E. repeat case_match; simplify_eq; by eexists. Qed.

(** The spill never meets a missing log. *)
Lemma maybe_spill_total value s : is_Some (maybe_spill_large_value value s).
Proof.
  unfold maybe_spill_large_value. destruct (large_value_threshold s); [|done]. destruct (_ <? _); [done|].
  destruct (next_vio s) as [io s0]. destruct (ensure_vlog io s0) as [s1 [[]|]] eqn:E1; [|done].
  destruct (ensure_generation io s1) as [s2 [[]|]] eqn:E2; [|done].
  assert (is_Some (sp_vlog s1)) as H1.
  { unfold ensure_vlog in E1. destruct (sp_vlog s0) eqn:E0; [injection E1 as <-; by rewrite E0|].
    destruct (vlog_rotate_bytes s0); [by eapply rotate_opens|]. case_match; by simplify_eq. }
  assert (is_Some (sp_vlog s2)) as [v Hv].
  { unfold ensure_generation in E2. repeat case_match; simplify_eq; try done; by eapply rotate_opens. }
  unfold append_large. rewrite Hv. cbn [mbind option_bind]. by destruct (append_pending_bytes _ _ _) as [? []].
Qed.

(** What is stored for a value: the value itself, escaped, or a pointer with its
    length and checksum. *)
Definition stores (value stored : list byte) : Prop :=
  stored = escape_inline_value value ∨
  ∃ p, stored = encode_vlog_ptr p ∧ ptr_len p = Z.of_nat (length value) ∧ ptr_crc p = crc32c value.

Lemma append_answer io value l l' off len crc :
  append_pending_bytes io value l = (l', Ok (off, len, crc)) → len = Z.of_nat (length value) ∧ crc = crc32c value.
Proof.
  unfold append_pending_bytes, append_pending_small, append_record, res_bind. intros E.
  repeat (case_match; simplify_eq; try done).
Qed.

Lemma maybe_spill_stores value s s' stored : maybe_spill_large_value value s = Some (s', Ok stored) → stores value stored.
Proof.
  unfold maybe_spill_large_value. destruct (large_value_threshold s); [|intros [= _ <-]; by left].
  destruct (_ <? _); [intros [= _ <-]; by left|]. destruct (next_vio s) as [io s0].
  destruct (ensure_vlog io s0) as [s1 [[]|]]; [|done]. destruct (ensure_generation io s1) as [s2 [[]|]]; [|done].
  unfold append_large. destruct (sp_vlog s2) as [l|]; [|done]. cbn [mbind option_bind].
  destruct (append_pending_bytes _ _ l) as [l' [[[off len] crc]|]] eqn:E; [|done]. intros [= _ <-].
  apply append_answer in E as [-> ->]. right. by eexists.
Qed.

(** The barrier leaves nothing staged, and a required one nothing unsynced. *)
Definition flushed_out (s : Spill) : Prop := ∀ l, sp_vlog s = Some l → vl_pending l = [] ∧ pending_large l = [].
Definition synced_out (s : Spill) : Prop := ∀ l, sp_vlog s = Some l → needs_sync l = false.

Lemma flush_drains o1 o2 l l' : flush_pending o1 o2 l = (l', Ok tt) → vl_pending l' = [] ∧ pending_large l' = [].
Proof.
  unfold flush_pending, flush_large.
  destruct (vl_pending l) eqn:Ep, (pending_large l) eqn:El, o1, o2; cbn; rewrite ?El; intros [= <-]; cbn; auto.
Qed.

Lemma prepare_drains do_sync s s' :
  vlog_prepare_wal do_sync s = (s', Ok tt) → flushed_out s' ∧ (do_sync = true → synced_out s').
Proof.
  unfold vlog_prepare_wal. destruct (next_vio s) as [io s0]. unfold flushed_out, synced_out.
  destruct do_sync; cbn; unfold vlog_sync_pending, vlog_flush_pending; destruct (sp_vlog s0) as [v|] eqn:Ev;
    try (intros [= <-]; rewrite Ev; split; [|intros _]; by intros l).
  - unfold sync_pending. destruct (_ && _) eqn:Ec; cbn.
    + intros [= <-]. apply andb_true_iff in Ec as [[H1 H2]%andb_true_iff H3]. apply Nat.eqb_eq, nil_length_inv in H1, H2.
      apply negb_true_iff in H3. cbn. split; [|intros _]; by intros l [= <-].
    + destruct (flush_pending _ _ v) as [v' [[]|]] eqn:Ef; cbn; [|done]. apply flush_drains in Ef.
      destruct (vio_barrier io) as [[]|]; [|done]. intros [= <-]. cbn. split; [|intros _]; by intros l [= <-].
  - destruct (flush_pending _ _ v) as [v' r] eqn:Ef. intros [= <- ->]. apply flush_drains in Ef. cbn. split; [by intros l [= <-]|done].
Qed.
End lemmas.

(** * Properties *)

(** What the write path stores reads back. While the file system does not fail,
    [maybe_spill_large_value] (inline and escaped below the threshold; else
    appended to the value log, after opening it or rotating to a new blob file
    where the configuration says so) answers bytes that [resolve_stored_value]
    turns into the value again, and leaves the log fit for the next value. *)
Theorem spill_resolves `{CC : Crc32c} others value s s' stored use_new :
  spill_ok s → takes value s → calm (next_vio s).1 → maybe_spill_large_value value s = Some (s', Ok stored) →
  spill_ok s' ∧ resolve_stored_value others (sp_vlog s') use_new stored = Ok value.
Proof.
  intros Hs Ht Hc E. unfold maybe_spill_large_value in E.
  assert (stored = escape_inline_value value → resolve_stored_value others (sp_vlog s') use_new stored = Ok value) as Hin
    by (intros ->; apply resolve_escaped).
  destruct (large_value_threshold s); [|injection E as <- <-; by auto].
  destruct (_ <? _); [injection E as <- <-; by auto|].
  assert (spill_ok (next_vio s).2 ∧ takes value (next_vio s).2) as [Hs0 Ht0] by (unfold next_vio; by destruct (sp_script s)).
  destruct (next_vio s) as [io s0]. cbn [fst snd] in *.
  destruct (ensure_vlog io s0) as [s1 [[]|]] eqn:E1; [|done]. destruct (ensure_vlog_ok _ _ _ _ Hc Hs0 Ht0 E1) as (Hs1 & Hl1 & Ht1).
  destruct (ensure_generation io s1) as [s2 [[]|]] eqn:E2; [|done].
  destruct (ensure_generation_ok _ _ _ _ Hc Hs1 Hl1 Ht1 E2) as (Hs2 & _ & Ht2). by eapply append_large_ok.
Qed.

(** A rotating configuration on a fresh directory: the first value of four
    bytes opens the first blob. *)
Definition sample_spill : Spill := mkSpill None (Some 4) (Some 64) false 0 [].

Lemma spill_resolves_witness :
  ∃ s' stored, maybe_spill_large_value (CC := crc32c_bitwise) [x61; x62; x63; x64] sample_spill = Some (s', Ok stored) ∧
    blob_active s' = 1 ∧ length stored = 24%nat ∧
    resolve_stored_value (CC := crc32c_bitwise) (λ _, None) (sp_vlog s') false stored = Ok [x61; x62; x63; x64].
Proof.
  eexists _, _. split; [vm_compute; reflexivity|]. split; [reflexivity|]. split; [reflexivity|].
  refine (proj2 (spill_resolves (CC := crc32c_bitwise) (λ _, None) [x61; x62; x63; x64] sample_spill _ _ false _ _ _ _)).
  - split; [vm_compute; split; discriminate|]. split; [done|]. split; [done|]. by intros l.
  - by intros l.
  - repeat split. by intros name c.
  - vm_compute. reflexivity.
Defined.
