(* ===== verification/WalFragment.v ===== *)
(** Record fragmentation: the part of [wal/writer_kernel.rs] that lays logical
    records out in blocks ([fragment_from], the header patching, the
    [RecordSource] trait and its slice implementation).

    [fragment_from] is written against an interface, [RecordSource]; the laws a
    source promises are the class [RecordSourceLaws], and the layout theorem is
    proved from them. *)

From S2P Require Import Prelude ErrorKernel BatchKernel WalFormat.

Local Open Scope nat_scope.

(** * The source interface ([trait RecordSource]) *)

Class RecordSource (S : Type) := {
  total_len : S → nat;
  (** [append_exact_to(dst, n)]: the bytes appended and the advanced source;
      [None] is the panic of an exhausted source. *)
  append_exact : nat → S → option (list byte * S)
}.

(** [produces s c]: the bytes still to come from [s] are [c]. *)
Class RecordSourceLaws (S : Type) `{RecordSource S} := {
  produces : S → list byte → Prop;
  fresh : S → list byte → Prop;
  fresh_produces s c : fresh s c → produces s c;
  fresh_total s c : fresh s c → total_len s = length c;
  produces_append s c n :
    produces s c → n ≤ length c →
    ∃ s', append_exact n s = Some (take n c, s') ∧ produces s' (drop n c)
}.

(** [struct SliceSource(&[u8])]. *)
Record SliceSource := mkSlice { slice : list byte }.

#[export] Instance SliceSource_source : RecordSource SliceSource := {
  total_len s := length (slice s);
  append_exact n s :=
    if n <=? length (slice s) then Some (take n (slice s), mkSlice (drop n (slice s))) else None
}.

(** * Fragmentation *)

(** [write_physical_header]: checksum everything after the placeholder, then
    patch the placeholder. Panics ([None]) when the fragment does not fit a
    [u16]. *)
Definition write_physical_header `{Crc32c} (rtype : RecordType) (payload_len hdr_pos : nat)
    (buf : list byte) : option (list byte) :=
  if (U16_MAX <? Z.of_nat payload_len)%Z then None
  else
    let checksum := record_checksum (rtype_u8 rtype) (Z.of_nat payload_len)
                      (drop (hdr_pos + HEADER_SIZE) buf) in
    let header := to_le 4 checksum ++ to_le 2 (Z.of_nat payload_len) ++ [Z2b (rtype_u8 rtype)] in
    copy_at hdr_pos header buf.

(** [patch_physical_record] also advances [block_offset]. *)
Definition patch_physical_record `{Crc32c} (rtype : RecordType) (payload_len hdr_pos : nat)
    (block_offset : nat) (buf : list byte) : option (nat * list byte) :=
  buf' ← write_physical_header rtype payload_len hdr_pos buf;
  Some (block_offset + (HEADER_SIZE + payload_len), buf').

Definition fragment_type (begin end_ : bool) : RecordType :=
  if begin && end_ then RFull
  else if begin then RFirst
  else if end_ then RLast
  else RMiddle.

(** One pass of the loop of [fragment_from]: the new block offset, remaining
    length, source and buffer. *)
Definition fragment_step `{Crc32c} {S} `{RecordSource S} (block_offset left : nat) (begin : bool)
    (src : S) (buf : list byte) : option (nat * nat * S * list byte) :=
  if BLOCK_SIZE <? block_offset then None
  else
    let leftover := BLOCK_SIZE - block_offset in
    let '(block_offset, buf) :=
      if leftover <? HEADER_SIZE then (0, buf ++ take leftover (replicate HEADER_SIZE x00))
      else (block_offset, buf) in
    let avail := BLOCK_SIZE - block_offset - HEADER_SIZE in
    let fragment_len := left `min` avail in
    let end_ := left - fragment_len =? 0 in
    let rtype := fragment_type begin end_ in
    let hdr_pos := length buf in
    let buf := buf ++ replicate HEADER_SIZE x00 in
    '(payload, src) ← append_exact fragment_len src;
    let buf := buf ++ payload in
    '(block_offset, buf) ← patch_physical_record rtype fragment_len hdr_pos block_offset buf;
    Some (block_offset, left - fragment_len, src, buf).

Fixpoint fragment_loop `{Crc32c} {S} `{RecordSource S} (fuel block_offset left : nat)
    (begin : bool) (src : S) (buf : list byte) : option (nat * S * list byte) :=
  match fuel with
  | O => None
  | Datatypes.S n =>
      '(block_offset, left, src, buf) ← fragment_step block_offset left begin src buf;
      if batch_is_empty left then Some (block_offset, src, buf)
      else fragment_loop n block_offset left false src buf
  end.

(** [fragment_from]: at most one zero-length fragment can precede fragments
    that each consume at least one byte, so [total_len + 2] passes suffice. *)
Definition fragment_from `{Crc32c} {S} `{RecordSource S} (block_offset : nat) (src : S)
    (buf : list byte) : option (nat * S * list byte) :=
  fragment_loop (total_len src + 2) block_offset (total_len src) true src buf.

(** [fragment_into]. *)
Definition fragment_into `{Crc32c} (block_offset : nat) (data : list byte) (buf : list byte)
    : option (nat * list byte) :=
  '(off, _, buf) ← fragment_from block_offset (mkSlice data) buf; Some (off, buf).

(** * The layout, as a specification *)

(** A physical fragment: padding before it, its type, its payload. *)
Record Frame := mkFrame { fr_pad : nat; fr_type : RecordType; fr_payload : list byte }.

Definition frame_checksum `{Crc32c} (f : Frame) : Z :=
  record_checksum (rtype_u8 (fr_type f)) (Z.of_nat (length (fr_payload f))) (fr_payload f).

Definition frame_header `{Crc32c} (f : Frame) : list byte :=
  to_le 4 (frame_checksum f) ++ to_le 2 (Z.of_nat (length (fr_payload f))) ++
  [Z2b (rtype_u8 (fr_type f))].

Definition frame_bytes `{Crc32c} (f : Frame) : list byte :=
  replicate (fr_pad f) x00 ++ frame_header f ++ fr_payload f.

Definition frames_bytes `{Crc32c} (fs : list Frame) : list byte := concat (frame_bytes <$> fs).

(** Block offset after the padding rule. *)
Definition pad_len (off : nat) : nat :=
  if BLOCK_SIZE - off <? HEADER_SIZE then BLOCK_SIZE - off else 0.
Definition pad_off (off : nat) : nat :=
  if BLOCK_SIZE - off <? HEADER_SIZE then 0 else off.

(** [plan off begin data fs off']: [data] starting at block offset [off] is cut
    into the frames [fs], leaving the writer at block offset [off']. *)
Inductive plan : nat → bool → list byte → list Frame → nat → Prop :=
| plan_last off begin data :
    off ≤ BLOCK_SIZE →
    length data ≤ BLOCK_SIZE - pad_off off - HEADER_SIZE →
    plan off begin data
      [mkFrame (pad_len off) (if begin then RFull else RLast) data]
      (pad_off off + HEADER_SIZE + length data)
| plan_more off begin d1 d2 fs off' :
    off ≤ BLOCK_SIZE →
    length d1 = BLOCK_SIZE - pad_off off - HEADER_SIZE →
    d2 ≠ [] →
    plan BLOCK_SIZE false d2 fs off' →
    plan off begin (d1 ++ d2)
      (mkFrame (pad_len off) (if begin then RFirst else RMiddle) d1 :: fs) off'.

(** * Lemmas *)

#[export] Instance SliceSource_laws : RecordSourceLaws SliceSource.
Proof.
  refine {| produces s c := slice s = c; fresh s c := slice s = c |}; [done|by intros ?? <-|].
  intros s c n <- Hn. exists (mkSlice (drop n (slice s))). cbn.
  by rewrite (proj2 (Nat.leb_le _ _)) by done.
Defined.

Lemma slice_fresh c : fresh (mkSlice c) c.
Proof. reflexivity. Qed.

Lemma pad_off_bound off : off ≤ BLOCK_SIZE → pad_off off + HEADER_SIZE ≤ BLOCK_SIZE.
Proof.
  intros. unfold pad_off, HEADER_SIZE in *. pose proof BLOCK_SIZE_val.
  destruct (Nat.ltb_spec (BLOCK_SIZE - off) 7); lia.
Qed.

Lemma pad_len_off off : off ≤ BLOCK_SIZE →
  pad_len off < HEADER_SIZE ∧
  (pad_off off = off + pad_len off ∧ pad_len off = 0 ∨
   pad_off off = 0 ∧ off + pad_len off = BLOCK_SIZE ∧ BLOCK_SIZE - off < HEADER_SIZE).
Proof.
  intros. unfold pad_off, pad_len, HEADER_SIZE in *.
  destruct (Nat.ltb_spec (BLOCK_SIZE - off) 7); lia.
Qed.

Lemma write_physical_header_ok `{Crc32c} t pad payload buf :
  length payload ≤ BLOCK_SIZE →
  write_physical_header t (length payload) (length (buf ++ replicate pad x00))
    (((buf ++ replicate pad x00) ++ replicate HEADER_SIZE x00) ++ payload) =
  Some (buf ++ frame_bytes (mkFrame pad t payload)).
Proof.
  intros Hlen. pose proof BLOCK_SIZE_val. unfold write_physical_header, U16_MAX.
  rewrite (proj2 (Z.ltb_ge _ _)) by lia.
  set (b := buf ++ replicate pad x00).
  rewrite drop_app_length' by (unfold HEADER_SIZE; len).
  unfold copy_at. rewrite (proj2 (Nat.leb_le _ _)) by (unfold HEADER_SIZE; len).
  rewrite <-(assoc_L (++) b), take_app_length.
  rewrite drop_app_ge by len.
  rewrite drop_app_length' by (unfold HEADER_SIZE; len).
  unfold frame_bytes, frame_header, frame_checksum. cbn [fr_pad fr_type fr_payload].
  subst b. by rewrite <-!(assoc_L (++)).
Qed.

(** One pass writes one frame. *)
Lemma fragment_step_ok `{Crc32c} {S} `{RecordSourceLaws S} off begin (src : S) c buf :
  off ≤ BLOCK_SIZE → produces src c →
  let avail := BLOCK_SIZE - pad_off off - HEADER_SIZE in
  let payload := take avail c in
  ∃ src',
    fragment_step off (length c) begin src buf =
      Some (pad_off off + (HEADER_SIZE + length payload), length (drop avail c), src',
            buf ++ frame_bytes (mkFrame (pad_len off)
                     (fragment_type begin (length (drop avail c) =? 0)) payload)) ∧
    produces src' (drop avail c).
Proof.
  intros Hoff Hp avail payload. unfold fragment_step.
  rewrite (proj2 (Nat.ltb_ge _ _)) by done.
  assert (∀ (P : nat → list byte → option (nat * nat * S * list byte)),
    (let '(o, b) := if BLOCK_SIZE - off <? HEADER_SIZE
       then (0, buf ++ take (BLOCK_SIZE - off) (replicate HEADER_SIZE x00)) else (off, buf) in P o b) =
    P (pad_off off) (buf ++ replicate (pad_len off) x00)) as ->.
  { intros P. unfold pad_off, pad_len. destruct (Nat.ltb_spec (BLOCK_SIZE - off) HEADER_SIZE).
    - by rewrite take_replicate, Nat.min_l by lia.
    - by rewrite app_nil_r. }
  fold avail.
  destruct (produces_append src c (length c `min` avail) Hp ltac:(lia)) as (src' & -> & Hp').
  cbn [mbind option_bind].
  assert (take (length c `min` avail) c = payload) as Hpay.
  { unfold payload. destruct (Nat.le_ge_cases (length c) avail).
    - by rewrite Nat.min_l, !take_ge by lia.
    - by rewrite Nat.min_r by lia. }
  assert (drop (length c `min` avail) c = drop avail c) as Hdrop.
  { destruct (Nat.le_ge_cases (length c) avail).
    - by rewrite Nat.min_l, !drop_ge by lia.
    - by rewrite Nat.min_r by lia. }
  assert (length payload = length c `min` avail) as Hlp by (unfold payload; len).
  assert (length (drop avail c) = length c - length c `min` avail) as Hld by len.
  rewrite Hpay, <-Hlp in *. rewrite Hdrop in Hp'.
  exists src'. split; [|done]. unfold patch_physical_record.
  rewrite write_physical_header_ok by (rewrite Hlp; unfold avail; lia).
  cbn [mbind option_bind]. by rewrite Hld.
Qed.

Lemma frames_bytes_cons `{Crc32c} f fs : frames_bytes (f :: fs) = frame_bytes f ++ frames_bytes fs.
Proof. done. Qed.

Lemma frames_bytes_app `{Crc32c} fs gs :
  frames_bytes (fs ++ gs) = frames_bytes fs ++ frames_bytes gs.
Proof. unfold frames_bytes. by rewrite fmap_app, concat_app. Qed.

(** Enough passes: one per byte after the first, which may be empty. *)
Lemma fragment_loop_ok `{Crc32c} {S} `{RecordSourceLaws S} fuel off begin (src : S) c buf :
  off ≤ BLOCK_SIZE → produces src c →
  length c + (if decide (pad_off off + HEADER_SIZE = BLOCK_SIZE) then 2 else 1) ≤ fuel →
  ∃ src' fs off', fragment_loop fuel off (length c) begin src buf =
      Some (off', src', buf ++ frames_bytes fs) ∧
    plan off begin c fs off' ∧ off' ≤ BLOCK_SIZE.
Proof.
  revert off begin src c buf. induction fuel as [|n IH]; intros off begin src c buf Hoff Hp Hf.
  { case_decide; lia. }
  cbn [fragment_loop].
  destruct (fragment_step_ok off begin src c buf Hoff Hp) as (src' & -> & Hp').
  cbn [mbind option_bind]. pose proof (pad_off_bound off Hoff) as Hpo.
  set (avail := BLOCK_SIZE - pad_off off - HEADER_SIZE) in *. unfold batch_is_empty.
  destruct (Nat.eqb_spec (length (drop avail c)) 0) as [E|E].
  - assert (length c ≤ avail) as Hc by len. rewrite take_ge by done.
    eexists src', [_], _. rewrite frames_bytes_cons. unfold frames_bytes at 1. cbn [fmap list_fmap concat].
    rewrite app_nil_r. split; [done|]. rewrite Nat.add_assoc. unfold fragment_type.
    replace (if begin && true then RFull else if begin then RFirst else RLast)
      with (if begin then RFull else RLast) by (by destruct begin).
    split; [by constructor|]. unfold avail in *. lia.
  - assert (length (take avail c) = avail) as Hta by len.
    rewrite Hta. replace (pad_off off + (HEADER_SIZE + avail)) with BLOCK_SIZE by (unfold avail; lia).
    destruct (IH BLOCK_SIZE false src' (drop avail c)
                (buf ++ frame_bytes (mkFrame (pad_len off) (fragment_type begin false) (take avail c))))
      as (src'' & fs & off' & Hloop & Hplan & Hoff'); [lia|done| |].
    { assert (pad_off BLOCK_SIZE = 0) as -> by (unfold pad_off; by rewrite Nat.sub_diag).
      pose proof BLOCK_SIZE_val. unfold HEADER_SIZE in *. rewrite decide_False by lia.
      case_decide; len. }
    eexists src'', (_ :: fs), off'. rewrite Hloop, frames_bytes_cons, (assoc_L (++)).
    split; [done|]. split; [|done]. rewrite <-(take_drop avail c) at 1.
    unfold fragment_type. rewrite andb_false_r. apply plan_more; try done.
    by intros E'; rewrite E' in E.
Qed.

Lemma fragment_from_ok `{Crc32c} {S} `{RecordSourceLaws S} off (src : S) c buf :
  off ≤ BLOCK_SIZE → fresh src c →
  ∃ src' fs off', fragment_from off src buf = Some (off', src', buf ++ frames_bytes fs) ∧
    plan off true c fs off' ∧ off' ≤ BLOCK_SIZE.
Proof.
  intros Hoff Hf. unfold fragment_from. rewrite (fresh_total _ _ Hf).
  apply fragment_loop_ok; [done|by apply fresh_produces|case_decide; lia].
Qed.

Lemma plan_functional off begin data fs1 fs2 o1 o2 :
  plan off begin data fs1 o1 → plan off begin data fs2 o2 → fs1 = fs2 ∧ o1 = o2.
Proof.
  intros H1. revert fs2 o2.
  induction H1 as [off b d Ho Hd|off b d1 d2 fs off' Ho Hd Hne H1 IH]; intros fs2 o2 H2;
    inversion H2; subst; try done;
    repeat match goal with
           | E : length (?x ++ ?y) ≤ _, N : ?y ≠ [] |- _ =>
               exfalso; rewrite length_app in E; destruct y; [done|]; simpl in E; lia
           end.
  match goal with
  | E : _ ++ _ = d1 ++ d2 |- _ => apply app_inj_1 in E as [-> ->]; [|lia]
  end.
  match goal with H2' : plan _ _ d2 _ _ |- _ => destruct (IH _ _ H2') as [-> ->] end. done.
Qed.

(** Fragmentation is total and canonical: from any legal block offset, any
    source that keeps the interface's promise is fragmented without panic and
    without exhausting the loop bound, into the same bytes and the same final
    offset as the plain slice of its contents. *)
Lemma fragment_from_equiv `{Crc32c} {S} `{RecordSourceLaws S} off (src : S) c buf :
  off ≤ BLOCK_SIZE → fresh src c →
  ∃ src' buf' off', fragment_from off src buf = Some (off', src', buf') ∧
    fragment_into off c buf = Some (off', buf') ∧ off' ≤ BLOCK_SIZE.
Proof.
  intros Hoff Hf.
  destruct (fragment_from_ok off src c buf Hoff Hf) as (s1 & fs1 & o1 & H1' & Hp1 & Ho1).
  destruct (fragment_from_ok off (mkSlice c) c buf Hoff (slice_fresh c)) as (s2 & fs2 & o2 & H2' & Hp2 & Ho2).
  destruct (plan_functional _ _ _ _ _ _ _ Hp1 Hp2) as [-> ->].
  eexists s1, _, o2. split; [done|]. unfold fragment_into. by rewrite H2'.
Qed.
