(* ===== verification/WalSource.v ===== *)
(** The streaming encoder of [wal/writer_kernel.rs]: [EncodedOpsSource] feeds a
    batch to the fragmenter field by field, without materialising the encoded
    record. It implements the [RecordSource] interface, and its bytes are those
    of the batch codec. *)

From S2P Require Import Prelude ErrorKernel KeyKernel BatchKernel WalFormat WalFragment.

Local Open Scope nat_scope.

Record EncodedOpsSource := mkEOS {
  eo_ops : list WriteOp;
  eo_head : list byte;
  eo_head_done : bool;
  eo_idx : nat;
  (** 0 preamble, 1 key, 2 value length, 3 value, 4 between operations. *)
  eo_stage : nat;
  eo_preamble : list byte;
  eo_vlen : list byte;
  eo_off : nat;
  eo_total : nat;
  eo_v2 : bool;
  eo_reuse : bool
}.

Definition eos_new (ops : list WriteOp) : EncodedOpsSource :=
  let v2 := record_uses_v2 ops in
  mkEOS ops (record_head v2 (length ops)) false 0 4 (replicate 13 x00) (replicate 4 x00) 0
        (encoded_len ops) v2 false.

Definition set_stage_off (stage off : nat) (s : EncodedOpsSource) : EncodedOpsSource :=
  mkEOS (eo_ops s) (eo_head s) (eo_head_done s) (eo_idx s) stage (eo_preamble s) (eo_vlen s) off
        (eo_total s) (eo_v2 s) (eo_reuse s).

(** [self.v2 && self.idx > 0 && value_ptr_eq(&self.ops[self.idx - 1], op)]. *)
Definition eos_reuse (s : EncodedOpsSource) (op : WriteOp) : bool :=
  eo_v2 s && (0 <? eo_idx s) &&
  match eo_ops s !! (eo_idx s - 1) with
  | Some prev => value_ptr_eq prev op
  | None => false
  end.

Definition enter_op (s : EncodedOpsSource) : EncodedOpsSource :=
  match eo_ops s !! eo_idx s with
  | None => set_stage_off 4 (eo_off s) s
  | Some op =>
      let reuse := eos_reuse s op in
      let preamble := [kind_byte op reuse] ++ to_le 8 (op_sequence op) ++
                      to_le 4 (u32_or_max (length (op_key op))) in
      let vlen := if reuse then eo_vlen s
                  else to_le 4 (u32_or_max (bytes_len (op_value op))) in
      mkEOS (eo_ops s) (eo_head s) (eo_head_done s) (eo_idx s) 0 preamble vlen 0
            (eo_total s) (eo_v2 s) reuse
  end.

Definition next_op (s : EncodedOpsSource) : EncodedOpsSource :=
  let s := mkEOS (eo_ops s) (eo_head s) (eo_head_done s) (eo_idx s + 1) (eo_stage s)
             (eo_preamble s) (eo_vlen s) 0 (eo_total s) (eo_v2 s) (eo_reuse s) in
  if eo_idx s <? length (eo_ops s) then enter_op s else set_stage_off 4 (eo_off s) s.

Definition finish_key_field (s : EncodedOpsSource) : EncodedOpsSource :=
  let s := set_stage_off (eo_stage s) 0 s in
  if eo_reuse s then next_op s else set_stage_off 2 (eo_off s) s.

(** One turn of the loop of [current]: a run to return, or a state to retry.
    [ops[idx]] panics ([None]) out of range. *)
Definition current_step (s : EncodedOpsSource)
    : option (list byte * EncodedOpsSource + EncodedOpsSource) :=
  if negb (eo_head_done s) then Some (inl (drop (eo_off s) (eo_head s), s))
  else match eo_stage s with
  | 0 => Some (inl (drop (eo_off s) (eo_preamble s), s))
  | 1 =>
      op ← eo_ops s !! eo_idx s;
      if batch_is_empty (length (op_key op)) then Some (inr (finish_key_field s))
      else Some (inl (drop (eo_off s) (op_key op), s))
  | 2 => if eo_reuse s then Some (inr (next_op s))
         else Some (inl (drop (eo_off s) (eo_vlen s), s))
  | 3 =>
      if eo_reuse s then Some (inr (next_op s))
      else
        op ← eo_ops s !! eo_idx s;
        if batch_is_empty (bytes_len (op_value op)) then Some (inr (next_op s))
        else Some (inl (drop (eo_off s) (as_ref (op_value op)), s))
  | _ => if length (eo_ops s) <=? eo_idx s then Some (inl ([], s)) else Some (inr (enter_op s))
  end.

Fixpoint current_loop (fuel : nat) (s : EncodedOpsSource) : option (list byte * EncodedOpsSource) :=
  match fuel with
  | O => None
  | S n =>
      r ← current_step s;
      match r with
      | inl run => Some run
      | inr s => current_loop n s
      end
  end.

(** An empty key and an empty value can be skipped before a field is returned:
    three turns suffice. *)
Definition current (s : EncodedOpsSource) : option (list byte * EncodedOpsSource) :=
  current_loop 3 s.

Definition advance (taken : nat) (s : EncodedOpsSource) : option EncodedOpsSource :=
  let off := eo_off s + taken in
  if negb (eo_head_done s) then
    if off =? length (eo_head s) then
      let s := mkEOS (eo_ops s) (eo_head s) true (eo_idx s) (eo_stage s) (eo_preamble s)
                 (eo_vlen s) 0 (eo_total s) (eo_v2 s) (eo_reuse s) in
      Some (if eo_idx s <? length (eo_ops s) then enter_op s else s)
    else Some (set_stage_off (eo_stage s) off s)
  else match eo_stage s with
  | 0 | 2 =>
      let end_ := if eo_stage s =? 0 then length (eo_preamble s) else length (eo_vlen s) in
      if off =? end_ then Some (set_stage_off (eo_stage s + 1) 0 s)
      else Some (set_stage_off (eo_stage s) off s)
  | 1 =>
      op ← eo_ops s !! eo_idx s;
      let s := set_stage_off (eo_stage s) off s in
      Some (if off =? length (op_key op) then finish_key_field s else s)
  | 3 =>
      op ← eo_ops s !! eo_idx s;
      let s := set_stage_off (eo_stage s) off s in
      Some (if off =? bytes_len (op_value op) then next_op s else s)
  | _ => Some s
  end.

(** The loop of [append_exact_to]; an empty run is the assertion failure. *)
Fixpoint append_loop (fuel n : nat) (s : EncodedOpsSource) (dst : list byte)
    : option (list byte * EncodedOpsSource) :=
  if n =? 0 then Some (dst, s)
  else match fuel with
  | O => None
  | S fuel =>
      '(run, s) ← current s;
      if batch_is_empty (length run) then None
      else
        let take_n := n `min` length run in
        s ← advance take_n s;
        append_loop fuel (n - take_n) s (dst ++ take take_n run)
  end.

#[export] Instance EncodedOpsSource_source : RecordSource EncodedOpsSource := {
  total_len := eo_total;
  append_exact n s := append_loop n n s []
}.

(** * The bytes still to come *)

Definition prev_of (ops : list WriteOp) (i : nat) : option WriteOp :=
  match i with O => None | S j => ops !! j end.

(** The encoding of the operations from index [i] on. *)
Definition rest (v2 : bool) (ops : list WriteOp) (i : nat) : list byte :=
  encode_ops_from v2 (prev_of ops i) (drop i ops).

Definition op_preamble (reuse : bool) (op : WriteOp) : list byte :=
  [kind_byte op reuse] ++ to_le 8 (op_sequence op) ++ to_le 4 (u32_or_max (length (op_key op))).

Definition op_tail (reuse : bool) (op : WriteOp) : list byte :=
  if reuse then []
  else to_le 4 (u32_or_max (bytes_len (op_value op))) ++ as_ref (op_value op).

(** The fields of the state describe operation [op] at the current index. *)
Definition op_ctx (s : EncodedOpsSource) (op : WriteOp) : Prop :=
  eo_ops s !! eo_idx s = Some op ∧
  eo_reuse s = reuses (eo_v2 s) (prev_of (eo_ops s) (eo_idx s)) op ∧
  eo_preamble s = op_preamble (eo_reuse s) op ∧
  (eo_reuse s = false → eo_vlen s = to_le 4 (u32_or_max (bytes_len (op_value op)))).

Definition next_rest (s : EncodedOpsSource) : list byte :=
  rest (eo_v2 s) (eo_ops s) (eo_idx s + 1).

Definition eos_tail (s : EncodedOpsSource) (c : list byte) : Prop :=
  match eo_stage s with
  | 0 => ∃ op, op_ctx s op ∧ eo_off s < 13 ∧
      c = drop (eo_off s) (eo_preamble s) ++ op_key op ++ op_tail (eo_reuse s) op ++ next_rest s
  | 1 => ∃ op, op_ctx s op ∧ (eo_off s < length (op_key op) ∨ eo_off s = 0 ∧ op_key op = []) ∧
      c = drop (eo_off s) (op_key op) ++ op_tail (eo_reuse s) op ++ next_rest s
  | 2 => ∃ op, op_ctx s op ∧ eo_reuse s = false ∧ eo_off s < 4 ∧
      c = drop (eo_off s) (eo_vlen s) ++ as_ref (op_value op) ++ next_rest s
  | 3 => ∃ op, op_ctx s op ∧ eo_reuse s = false ∧
      (eo_off s < bytes_len (op_value op) ∨ eo_off s = 0 ∧ as_ref (op_value op) = []) ∧
      c = drop (eo_off s) (as_ref (op_value op)) ++ next_rest s
  | _ => length (eo_ops s) ≤ eo_idx s ∧ c = []
  end.

Definition eos_produces (s : EncodedOpsSource) (c : list byte) : Prop :=
  if eo_head_done s then eos_tail s c
  else eo_idx s = 0 ∧ eo_stage s = 4 ∧ eo_off s < length (eo_head s) ∧
       c = drop (eo_off s) (eo_head s) ++ rest (eo_v2 s) (eo_ops s) 0.

(** * Lemmas *)

Lemma rest_cons v2 ops i op :
  ops !! i = Some op →
  rest v2 ops i =
    op_preamble (reuses v2 (prev_of ops i) op) op ++ op_key op ++
    op_tail (reuses v2 (prev_of ops i) op) op ++ rest v2 ops (i + 1).
Proof.
  intros Hi. unfold rest. rewrite (drop_S ops op i Hi). cbn [encode_ops_from].
  rewrite Nat.add_1_r. cbn [prev_of]. rewrite Hi.
  unfold encode_op, op_preamble, op_tail. by rewrite <-!(assoc_L (++)).
Qed.

Lemma rest_nil v2 ops i : length ops ≤ i → rest v2 ops i = [].
Proof. intros Hi. unfold rest. by rewrite drop_ge. Qed.

Lemma eos_reuse_spec s op : eos_reuse s op = reuses (eo_v2 s) (prev_of (eo_ops s) (eo_idx s)) op.
Proof.
  unfold eos_reuse, reuses. destruct (eo_idx s) as [|j]; cbn [prev_of].
  - by rewrite andb_false_r.
  - rewrite andb_true_r. replace (S j - 1) with j by lia.
    destruct (eo_ops s !! j); [done|apply andb_false_r].
Qed.

Lemma enter_op_produces s :
  eo_head_done s = true → eo_idx s < length (eo_ops s) →
  eos_produces (enter_op s) (rest (eo_v2 s) (eo_ops s) (eo_idx s)).
Proof.
  intros Hh Hi. destruct (lookup_lt_is_Some_2 _ _ Hi) as [op Hop].
  rewrite (rest_cons _ _ _ _ Hop). unfold enter_op. rewrite Hop, eos_reuse_spec.
  unfold eos_produces, eos_tail. cbn. rewrite Hh. exists op.
  unfold op_ctx; cbn. rewrite Hop.
  split; [split_and!; try done; by intros ->|]. split; [lia|].
  done.
Qed.

Lemma next_op_produces s :
  eo_head_done s = true → eos_produces (next_op s) (next_rest s).
Proof.
  intros Hh. unfold next_op. cbn [eo_idx eo_ops].
  destruct (Nat.ltb_spec (eo_idx s + 1) (length (eo_ops s))) as [Hi|Hi].
  - match goal with |- eos_produces (enter_op ?x) _ => apply (enter_op_produces x) end; done.
  - unfold next_rest. rewrite rest_nil by done.
    unfold eos_produces, eos_tail. cbn. rewrite Hh. by split.
Qed.

Lemma op_ctx_set_stage_off stage off s op : op_ctx s op → op_ctx (set_stage_off stage off s) op.
Proof. done. Qed.

Lemma finish_key_produces s op :
  eo_head_done s = true → op_ctx s op →
  eos_produces (finish_key_field s) (op_tail (eo_reuse s) op ++ next_rest s).
Proof.
  intros Hh Hop. unfold finish_key_field. cbn [eo_reuse set_stage_off].
  destruct (eo_reuse s) eqn:Hr.
  - unfold op_tail. rewrite app_nil_l.
    match goal with |- eos_produces (next_op ?x) _ => apply (next_op_produces x) end. done.
  - unfold eos_produces, eos_tail. cbn. rewrite Hh. exists op.
    split; [done|]. split; [done|]. split; [lia|].
    destruct Hop as (_ & _ & _ & Hv). rewrite drop_0, Hv by done.
    unfold op_tail. by rewrite <-(assoc_L (++)).
Qed.

(** A run returned by [current]: non-empty, a prefix of what is to come, and
    any part of it can be consumed by [advance]. *)
Definition run_ok (s : EncodedOpsSource) (run c : list byte) : Prop :=
  run ≠ [] ∧ ∃ r, c = run ++ r ∧
    ∀ taken, 0 < taken ≤ length run →
      ∃ s', advance taken s = Some s' ∧ eos_produces s' (drop taken c).

Lemma drop_run (taken : nat) (run r : list byte) :
  taken ≤ length run → drop taken (run ++ r) = drop taken run ++ r.
Proof. intros. by rewrite drop_app_le. Qed.

(** Consuming part of a field that starts at the current offset. *)
Lemma field_run s (field r : list byte) (next : EncodedOpsSource) :
  eo_off s < length field →
  (∀ taken, 0 < taken ≤ length (drop (eo_off s) field) →
     advance taken s =
       Some (if eo_off s + taken =? length field then next
             else set_stage_off (eo_stage s) (eo_off s + taken) s)) →
  eos_produces next r →
  (∀ off, off < length field →
     eos_produces (set_stage_off (eo_stage s) off s) (drop off field ++ r)) →
  run_ok s (drop (eo_off s) field) (drop (eo_off s) field ++ r).
Proof.
  intros Hoff Hadv Hnext Hstay. split.
  { intros E. apply (f_equal length) in E. len. }
  exists r. split; [done|]. intros taken Ht. rewrite Hadv by done.
  eexists. split; [done|]. rewrite drop_run, drop_drop by lia.
  destruct (Nat.eqb_spec (eo_off s + taken) (length field)) as [E|E].
  - rewrite drop_ge by lia. done.
  - apply Hstay. len.
Qed.

Lemma current_head s c :
  eo_head_done s = false → eos_produces s c → run_ok s (drop (eo_off s) (eo_head s)) c.
Proof.
  intros Hh. unfold eos_produces. rewrite Hh. intros (Hi & Hst & Hoff & ->).
  set (done_s := mkEOS (eo_ops s) (eo_head s) true (eo_idx s) (eo_stage s) (eo_preamble s)
                 (eo_vlen s) 0 (eo_total s) (eo_v2 s) (eo_reuse s)).
  apply (field_run s (eo_head s) _
           (if eo_idx s <? length (eo_ops s) then enter_op done_s else done_s)); [done|..].
  - intros taken _. unfold advance. rewrite Hh. cbn [negb].
    by destruct (eo_off s + taken =? length (eo_head s)).
  - destruct (Nat.ltb_spec (eo_idx s) (length (eo_ops s))) as [Hl|Hl].
    + rewrite <-Hi. by apply (enter_op_produces done_s).
    + rewrite rest_nil by lia. unfold eos_produces, eos_tail. cbn. by rewrite Hst.
  - intros off Ho. unfold eos_produces. cbn. by rewrite Hh.
Qed.

Lemma length_op_preamble reuse op : length (op_preamble reuse op) = 13.
Proof. unfold op_preamble. len. Qed.

(** Only the key and value stages can be skipped (empty fields). *)
Definition rank (s : EncodedOpsSource) : nat :=
  if eo_head_done s then match eo_stage s with 1 | 3 => 1 | _ => 0 end else 0.

Lemma next_op_rank s : rank (next_op s) = 0.
Proof.
  unfold next_op, enter_op, rank. repeat (case_match; cbn in *; try done).
Qed.

Lemma finish_key_rank s : rank (finish_key_field s) = 0.
Proof.
  unfold finish_key_field. cbn [eo_reuse set_stage_off].
  destruct (eo_reuse s); [apply next_op_rank|]. unfold rank. cbn. by case_match.
Qed.

Section stage_runs.
Context (s : EncodedOpsSource) (op : WriteOp).
Context (Hh : eo_head_done s = true) (Hop : op_ctx s op).

Lemma preamble_run :
  eo_stage s = 0 → eo_off s < 13 →
  run_ok s (drop (eo_off s) (eo_preamble s))
    (drop (eo_off s) (eo_preamble s) ++ op_key op ++ op_tail (eo_reuse s) op ++ next_rest s).
Proof using Hh Hop.
  intros Hst Hoff. pose proof Hop as (_ & _ & Hpre & _).
  apply (field_run s _ _ (set_stage_off 1 0 s)).
  - by rewrite Hpre, length_op_preamble.
  - intros taken _. unfold advance. rewrite Hh, Hst. cbn [negb Nat.eqb].
    by destruct (eo_off s + taken =? length (eo_preamble s)).
  - unfold eos_produces, eos_tail. cbn. rewrite Hh. exists op. split; [done|].
    split; [destruct (op_key op); [by right|left; simpl; lia]|done].
  - intros off Ho. rewrite Hpre, length_op_preamble in Ho.
    unfold eos_produces, eos_tail. cbn. rewrite Hh, Hst. by exists op.
Qed.

Lemma key_run :
  eo_stage s = 1 → eo_off s < length (op_key op) →
  run_ok s (drop (eo_off s) (op_key op))
    (drop (eo_off s) (op_key op) ++ op_tail (eo_reuse s) op ++ next_rest s).
Proof using Hh Hop.
  intros Hst Hoff. pose proof Hop as (Hl & _).
  apply (field_run s _ _ (finish_key_field (set_stage_off 1 (length (op_key op)) s))); [done|..].
  - intros taken _. unfold advance. rewrite Hh, Hst. cbn [negb]. rewrite Hl. cbn [mbind option_bind].
    by destruct (Nat.eqb_spec (eo_off s + taken) (length (op_key op))) as [->|].
  - by apply (finish_key_produces (set_stage_off 1 (length (op_key op)) s)).
  - intros off Ho. unfold eos_produces, eos_tail. cbn. rewrite Hh, Hst. exists op. by auto.
Qed.

Lemma vlen_run :
  eo_stage s = 2 → eo_reuse s = false → eo_off s < 4 →
  run_ok s (drop (eo_off s) (eo_vlen s))
    (drop (eo_off s) (eo_vlen s) ++ as_ref (op_value op) ++ next_rest s).
Proof using Hh Hop.
  intros Hst Hr Hoff. pose proof Hop as (_ & _ & _ & Hv). specialize (Hv Hr).
  apply (field_run s _ _ (set_stage_off 3 0 s)).
  - by rewrite Hv, length_to_le.
  - intros taken _. unfold advance. rewrite Hh, Hst. cbn [negb Nat.eqb].
    by destruct (eo_off s + taken =? length (eo_vlen s)).
  - unfold eos_produces, eos_tail. cbn. rewrite Hh. exists op. split; [done|]. split; [done|].
    split; [unfold bytes_len; destruct (as_ref (op_value op)); [by right|left; simpl; lia]|done].
  - intros off Ho. rewrite Hv, length_to_le in Ho.
    unfold eos_produces, eos_tail. cbn. rewrite Hh, Hst. by exists op.
Qed.

Lemma value_run :
  eo_stage s = 3 → eo_reuse s = false → eo_off s < bytes_len (op_value op) →
  run_ok s (drop (eo_off s) (as_ref (op_value op)))
    (drop (eo_off s) (as_ref (op_value op)) ++ next_rest s).
Proof using Hh Hop.
  intros Hst Hr Hoff. pose proof Hop as (Hl & _).
  apply (field_run s _ _ (next_op (set_stage_off 3 (bytes_len (op_value op)) s))); [done|..].
  - intros taken _. unfold advance. rewrite Hh, Hst. cbn [negb]. rewrite Hl.
    cbn [mbind option_bind]. unfold bytes_len.
    by destruct (Nat.eqb_spec (eo_off s + taken) (length (as_ref (op_value op)))) as [->|].
  - by apply (next_op_produces (set_stage_off 3 (bytes_len (op_value op)) s)).
  - intros off Ho. unfold eos_produces, eos_tail. cbn. rewrite Hh, Hst. exists op. by auto.
Qed.
End stage_runs.

(** One turn of [current] on a state with bytes to come either returns a good
    run, or skips an empty field. *)
Lemma current_step_ok s c :
  eos_produces s c → c ≠ [] →
  ∃ r, current_step s = Some r ∧
    match r with
    | inl (run, s') => s' = s ∧ run_ok s run c
    | inr s' => eos_produces s' c ∧ rank s = 1 ∧ rank s' = 0
    end.
Proof.
  intros Hp Hc. unfold current_step.
  destruct (eo_head_done s) eqn:Hh; cbn [negb].
  2: { eexists. split; [done|]. split; [done|]. by apply current_head. }
  unfold eos_produces in Hp. rewrite Hh in Hp. unfold eos_tail in Hp.
  assert (∀ k, eo_stage s = k → rank s = match k with 1 | 3 => 1 | _ => 0 end) as Hrank
    by (intros k <-; unfold rank; by rewrite Hh).
  destruct (eo_stage s) as [|[|[|[|n]]]] eqn:Hst; specialize (Hrank _ eq_refl).
  - destruct Hp as (op & Hop & Hoff & ->). eexists. split; [done|]. split; [done|]. by apply preamble_run.
  - destruct Hp as (op & Hop & Hoff & ->). rewrite (proj1 Hop). cbn [mbind option_bind].
    unfold batch_is_empty. destruct (Nat.eqb_spec (length (op_key op)) 0) as [E|E].
    + apply nil_length_inv in E. rewrite E, drop_nil, app_nil_l.
      eexists. split; [done|].
      split_and!; [by apply finish_key_produces|done|apply finish_key_rank].
    + destruct Hoff as [?|[? E']]; [|by rewrite E' in E]. eexists. split; [done|]. split; [done|]. by apply key_run.
  - destruct Hp as (op & Hop & Hr & Hoff & ->). rewrite Hr. eexists. split; [done|]. split; [done|]. by apply vlen_run.
  - destruct Hp as (op & Hop & Hr & Hoff & ->). rewrite Hr, (proj1 Hop). cbn [mbind option_bind].
    unfold batch_is_empty. destruct (Nat.eqb_spec (bytes_len (op_value op)) 0) as [E|E].
    + unfold bytes_len in E. apply nil_length_inv in E. rewrite E, drop_nil, app_nil_l.
      eexists. split; [done|].
      split_and!; [by apply next_op_produces|done|apply next_op_rank].
    + destruct Hoff as [?|[? E']]; [|by unfold bytes_len in E; rewrite E' in E].
      eexists. split; [done|]. split; [done|]. by apply value_run.
  - by destruct Hp as [_ ->].
Qed.

Lemma current_ok s c :
  eos_produces s c → c ≠ [] →
  ∃ run s', current s = Some (run, s') ∧ run_ok s' run c.
Proof.
  intros Hp Hc. unfold current. cbn [current_loop].
  destruct (current_step_ok s c Hp Hc) as ([[run s']|s1] & -> & H1); cbn [mbind option_bind].
  { destruct H1 as [-> ?]. eauto. }
  destruct H1 as (Hp1 & _ & Hr1).
  destruct (current_step_ok s1 c Hp1 Hc) as ([[run s']|s2] & -> & H2); cbn [mbind option_bind].
  { destruct H2 as [-> ?]. eauto. }
  destruct H2 as (_ & Hr & _). congruence.
Qed.

Lemma append_loop_ok fuel n s c dst :
  n ≤ fuel → eos_produces s c → n ≤ length c →
  ∃ s', append_loop fuel n s dst = Some (dst ++ take n c, s') ∧ eos_produces s' (drop n c).
Proof.
  revert n s c dst. induction fuel as [|fuel IH]; intros n s c dst Hf Hp Hn.
  { replace n with 0 by lia. exists s. cbn. rewrite app_nil_r. done. }
  cbn [append_loop]. destruct (Nat.eqb_spec n 0) as [->|Hn0].
  { exists s. cbn. by rewrite app_nil_r. }
  destruct (current_ok s c Hp) as (run & s1 & -> & Hne & r & -> & Hadv);
    [intros ->; simpl in Hn; lia|].
  cbn [mbind option_bind]. unfold batch_is_empty.
  destruct (Nat.eqb_spec (length run) 0) as [E|E]; [by apply nil_length_inv in E|].
  destruct (Hadv (n `min` length run) ltac:(lia)) as (s2 & -> & Hp2). cbn [mbind option_bind].
  destruct (IH (n - n `min` length run) s2 (drop (n `min` length run) (run ++ r))
              (dst ++ take (n `min` length run) run)) as (s' & -> & Hp'); [lia|done|len|].
  exists s'. rewrite drop_drop in Hp'.
  replace (n `min` length run + (n - n `min` length run)) with n in Hp' by lia.
  split; [|done]. do 2 f_equal. rewrite <-(assoc_L (++)). f_equal.
  rewrite <-(take_app_le run r) by lia. rewrite take_take_drop. f_equal. lia.
Qed.

#[export] Instance EncodedOpsSource_laws : RecordSourceLaws EncodedOpsSource.
Proof.
  refine {| produces := eos_produces;
            fresh s c := ∃ ops, s = eos_new ops ∧ c = encode_spec ops |}.
  - intros s c (ops & -> & ->). unfold eos_produces, eos_new. cbn.
    split_and!; [done|done|unfold record_head; len|].
    unfold encode_spec, rest. cbn [prev_of]. by rewrite !drop_0.
  - intros s c (ops & -> & ->). symmetry. apply length_encode_spec.
  - intros s c n Hp Hn. cbn. destruct (append_loop_ok n n s c [] ltac:(lia) Hp Hn) as (s' & -> & ?).
    eauto.
Defined.

(** * Batches into the frame: [fragment_encoded_len] *)

(** [encode_one_op_full_detached]: a single operation as one Full frame, built
    without the streaming source. *)
Definition encode_one_op_full_detached `{Crc32c} (op : WriteOp) : option (list byte) :=
  let logical := 5 + 1 + 8 + 4 + length (op_key op) + 4 + bytes_len (op_value op) in
  if BLOCK_SIZE <? HEADER_SIZE + logical then None
  else
    let buf := replicate HEADER_SIZE x00 ++
      [Z2b WRITE_RECORD_VERSION] ++ to_le 4 1 ++
      [Z2b (as_u8 (op_kind op))] ++ to_le 8 (op_sequence op) ++
      to_le 4 (u32_or_max (length (op_key op))) ++ op_key op ++
      to_le 4 (u32_or_max (bytes_len (op_value op))) ++ as_ref (op_value op) in
    write_physical_header RFull logical 0 buf.

(** [fragment_one_op]: the fast path when the frame fits the block as it is.
    Returns the logical length, the new block offset and buffer. *)
Definition fragment_one_op `{Crc32c} (block_offset : nat) (op : WriteOp) (buf : list byte)
    : option (nat * nat * list byte) :=
  if BLOCK_SIZE <? block_offset then None
  else
    let leftover := BLOCK_SIZE - block_offset in
    if leftover <? HEADER_SIZE then None
    else
      rec ← encode_one_op_full_detached op;
      if leftover <? length rec then None
      else Some (length rec - HEADER_SIZE, block_offset + length rec, buf ++ rec).

(** [fragment_encoded_len]: logical length, block offset, buffer. *)
Definition fragment_encoded_len `{Crc32c} (block_offset : nat) (ops : list WriteOp)
    (buf : list byte) : option (nat * nat * list byte) :=
  let stream :=
    let src := eos_new ops in
    '(off, _, buf) ← fragment_from block_offset src buf;
    Some (eo_total src, off, buf) in
  match ops with
  | [op] =>
      match fragment_one_op block_offset op buf with
      | Some r => Some r
      | None => stream
      end
  | _ => stream
  end.

Lemma encode_spec_single op :
  encode_spec [op] =
    [Z2b WRITE_RECORD_VERSION] ++ to_le 4 1 ++ [Z2b (as_u8 (op_kind op))] ++
    to_le 8 (op_sequence op) ++ to_le 4 (u32_or_max (length (op_key op))) ++ op_key op ++
    to_le 4 (u32_or_max (bytes_len (op_value op))) ++ as_ref (op_value op).
Proof.
  unfold encode_spec, record_head. cbn [record_uses_v2 encode_ops_from reuses].
  unfold encode_op, kind_byte. rewrite Z.lor_0_r, app_nil_r, <-!(assoc_L (++)). done.
Qed.

Lemma encode_one_op_ok `{Crc32c} op rec :
  encode_one_op_full_detached op = Some rec →
  rec = frame_bytes (mkFrame 0 RFull (encode_spec [op])) ∧
  HEADER_SIZE + length (encode_spec [op]) ≤ BLOCK_SIZE.
Proof.
  unfold encode_one_op_full_detached. set (logical := _ + bytes_len _).
  assert (logical = length (encode_spec [op])) as Hlog
    by (rewrite encode_spec_single; unfold logical, bytes_len; len).
  destruct (Nat.ltb_spec BLOCK_SIZE (HEADER_SIZE + logical)) as [|Hle]; [done|].
  rewrite <-encode_spec_single, Hlog in *.
  pose proof (write_physical_header_ok RFull 0 (encode_spec [op]) []) as Hw.
  cbn [replicate app length] in Hw. rewrite Hw by lia. intros [= <-]. done.
Qed.

Lemma fragment_one_op_ok `{Crc32c} off op buf n off' buf' :
  fragment_one_op off op buf = Some (n, off', buf') →
  n = length (encode_spec [op]) ∧ fragment_into off (encode_spec [op]) buf = Some (off', buf').
Proof.
  unfold fragment_one_op. destruct (Nat.ltb_spec BLOCK_SIZE off) as [|Ho]; [done|].
  destruct (Nat.ltb_spec (BLOCK_SIZE - off) HEADER_SIZE) as [|Hl]; [done|].
  destruct (encode_one_op_full_detached op) as [rec|] eqn:E; [|done]. cbn [mbind option_bind].
  destruct (Nat.ltb_spec (BLOCK_SIZE - off) (length rec)) as [|Hr]; [done|]. intros [= <- <- <-].
  apply encode_one_op_ok in E as [-> Hlen].
  assert (length (frame_bytes (mkFrame 0 RFull (encode_spec [op]))) =
          HEADER_SIZE + length (encode_spec [op])) as Hfl
    by (unfold frame_bytes, frame_header, HEADER_SIZE; cbn [fr_pad fr_payload fr_type]; len).
  rewrite Hfl in *. split; [lia|].
  destruct (fragment_from_ok off (mkSlice (encode_spec [op])) _ buf Ho (slice_fresh _))
    as (s & fs & o & Hff & Hp & _).
  unfold fragment_into. rewrite Hff. cbn [mbind option_bind].
  assert (pad_off off = off ∧ pad_len off = 0) as [Hpo Hpl]
    by (unfold pad_off, pad_len; by rewrite (proj2 (Nat.ltb_ge _ _)) by done).
  destruct (plan_functional _ _ _ _ _ _ _ Hp (plan_last off true (encode_spec [op]) Ho
              ltac:(rewrite Hpo; lia))) as [-> ->].
  rewrite Hpo, Hpl. unfold frames_bytes. cbn [fmap list_fmap concat]. rewrite app_nil_r.
  f_equal_lia.
Qed.

(** Streaming a batch into the frame is fragmenting its encoding. *)
Lemma fragment_encoded_len_ok `{Crc32c} off ops buf :
  off ≤ BLOCK_SIZE →
  ∃ enc off' buf', encode_ops ops [] = Some enc ∧
    fragment_into off enc buf = Some (off', buf') ∧
    fragment_encoded_len off ops buf = Some (length enc, off', buf').
Proof.
  intros Hoff. exists (encode_spec ops). rewrite encode_ops_spec.
  destruct (fragment_from_equiv off (eos_new ops) (encode_spec ops) buf Hoff)
    as (src' & buf' & off' & Hstream & Hslice & _); [by exists ops|].
  exists off', buf'. split; [done|]. split; [done|]. unfold fragment_encoded_len.
  assert ((let src := eos_new ops in
     '(off0, _, buf0) ← fragment_from off src buf; Some (eo_total src, off0, buf0)) =
     Some (length (encode_spec ops), off', buf')) as Hst.
  { cbv zeta. rewrite Hstream. cbn [mbind option_bind]. by rewrite length_encode_spec. }
  destruct ops as [|op [|op' ops]]; [done| |done].
  destruct (fragment_one_op off op buf) as [[[n o] b]|] eqn:E; [|done].
  apply fragment_one_op_ok in E as [-> E]. congruence.
Qed.

(** Writing a batch straight into the frame is the same as encoding it to a
    scratch buffer and fragmenting that buffer. From any legal block offset,
    [fragment_encoded_len] (the one-operation fast path and the streaming
    [EncodedOpsSource] alike) never panics, reports the encoded length, and
    leaves exactly the bytes and block offset of [fragment_into] on
    [encode_ops]. *)
Theorem fragment_encoded_len_equiv `{Crc32c} off ops buf :
  off ≤ BLOCK_SIZE →
  ∃ enc off' buf', encode_ops ops [] = Some enc ∧
    fragment_into off enc buf = Some (off', buf') ∧
    fragment_encoded_len off ops buf = Some (length enc, off', buf').
Proof. apply fragment_encoded_len_ok. Qed.

Lemma fragment_encoded_len_equiv_witness :
  BLOCK_SIZE - 30 ≤ BLOCK_SIZE ∧ ∃ enc off' buf', encode_ops sample_ops [] = Some enc ∧
    @fragment_into crc32c_bitwise (BLOCK_SIZE - 30) enc [] = Some (off', buf') ∧
    @fragment_encoded_len crc32c_bitwise (BLOCK_SIZE - 30) sample_ops [] =
      Some (length enc, off', buf').
Proof.
  assert (BLOCK_SIZE - 30 ≤ BLOCK_SIZE) as Hle by lia. split; [exact Hle|].
  exact (@fragment_encoded_len_equiv crc32c_bitwise (BLOCK_SIZE - 30) sample_ops [] Hle).
Defined.
