(* ===== verification/WalReader.v ===== *)
(** The WAL reader: [wal/reader_kernel.rs].

    The reader state with its block buffer, one pass of the [read_record] loop,
    and the [collect_prefix_all] recovery walk. The underlying [Read] is a byte
    stream with an arbitrary schedule of short reads. *)

From S2P Require Import Prelude ErrorKernel BatchKernel WalFormat WalFragment.

Local Open Scope nat_scope.

(** * The byte stream ([R: Read]) *)

(** What is left to read, and how many bytes (plus one) the next calls of
    [read] return at most; past the schedule, as many as asked. *)
Record Src := mkSrc { src_data : list byte; src_sched : list nat }.

Definition src_read (want : nat) (s : Src) : list byte * Src :=
  match src_sched s with
  | [] => (take want (src_data s), mkSrc (drop want (src_data s)) [])
  | k :: ks =>
      let n := want `min` S k in
      (take n (src_data s), mkSrc (drop n (src_data s)) ks)
  end.

(** * State *)

Record WalReader := mkReader {
  src : Src;
  block : list byte;
  block_end : nat;
  block_cursor : nat;
  scratch : list byte;
  block_start_offset : Z;
  last_good_offset : Z;
  pending_resync : option Z;
  resync_origin : option Z
}.

(** [WalReader::new]. *)
Definition reader_new (s : Src) : WalReader :=
  mkReader s (replicate BLOCK_SIZE x00) 0 0 [] 0 0 None None.

Definition set_cursor (c : nat) (r : WalReader) : WalReader :=
  mkReader (src r) (block r) (block_end r) c (scratch r) (block_start_offset r)
           (last_good_offset r) (pending_resync r) (resync_origin r).
Definition set_scratch (x : list byte) (r : WalReader) : WalReader :=
  mkReader (src r) (block r) (block_end r) (block_cursor r) x (block_start_offset r)
           (last_good_offset r) (pending_resync r) (resync_origin r).
Definition set_resync (lg : Z) (p o : option Z) (r : WalReader) : WalReader :=
  mkReader (src r) (block r) (block_end r) (block_cursor r) (scratch r) (block_start_offset r)
           lg p o.

Definition current_record_stream_offset (r : WalReader) : Z :=
  (block_start_offset r + Z.of_nat (block_cursor r))%Z.

(** [&buf[a..b]]. *)
Definition slice_of (a b : nat) (l : list byte) : list byte := take (b - a) (drop a l).

(** The fill loop of [read_next_block]. Every successful [read] adds at least
    one byte, so [BLOCK_SIZE] turns suffice. *)
Fixpoint fill_loop (fuel filled : nat) (blk : list byte) (s : Src) : nat * list byte * Src :=
  match fuel with
  | O => (filled, blk, s)
  | S n =>
      if filled <? BLOCK_SIZE then
        let '(chunk, s) := src_read (BLOCK_SIZE - filled) s in
        if batch_is_empty (length chunk) then (filled, blk, s)
        else fill_loop n (filled + length chunk)
               (take filled blk ++ chunk ++ drop (filled + length chunk) blk) s
      else (filled, blk, s)
  end.

Definition read_next_block (r : WalReader) : bool * WalReader :=
  let '(filled, blk, s) := fill_loop BLOCK_SIZE 0 (block r) (src r) in
  (0 <? filled,
   mkReader s blk filled 0 (scratch r) (block_start_offset r + Z.of_nat (block_end r))
            (last_good_offset r) (pending_resync r) (resync_origin r)).

(** [WalReader::from_offset] on a file [data] (the reader seeks to the start of
    the block that holds [offset]). *)
Definition from_offset (data : list byte) (sched : list nat) (offset : Z)
    : Result CoreError WalReader :=
  let block_size := Z.of_nat BLOCK_SIZE in
  let block_start := (offset / block_size * block_size)%Z in
  let r := reader_new (mkSrc (drop (Z.to_nat block_start) data) sched) in
  let r := mkReader (src r) (block r) (block_end r) (block_cursor r) (scratch r) block_start offset
             (pending_resync r) (resync_origin r) in
  let '(ok, r) := read_next_block r in
  if negb ok then Ok r
  else
    let within := Z.to_nat (offset - block_start) in
    if block_end r <? within then
      Err (Internal [Lit "WAL offset "; Num offset; Lit " past end of block starting at ";
                     Num block_start])
    else Ok (set_cursor within r).

(** * [read_record] *)

Inductive StepOut :=
| SDone (x : Result CoreError (option (list byte)))
| SContinue.

(** The CRC-valid fragment with type [rtype] and [payload], cursor already past
    it. *)
Definition apply_fragment (rtype : RecordType) (payload : list byte) (r : WalReader)
    : StepOut * WalReader :=
  match fragment_act (from_record_type rtype) (batch_is_empty (length (scratch r))) with
  | AYield =>
      if decide (rtype = RFull) then (SDone (Ok (Some payload)), set_scratch [] r)
      else (SDone (Ok (Some (scratch r ++ payload))), set_scratch [] r)
  | AStart => (SContinue, set_scratch payload r)
  | AAccumulate => (SContinue, set_scratch (scratch r ++ payload) r)
  | AFailStop =>
      let name := if decide (rtype = RMiddle) then "Middle"%string else "Last"%string in
      (SDone (Err (Internal [Lit "WAL orphan "; Lit name; Lit " fragment at offset ";
                             Num (current_record_stream_offset r)])), r)
  | ASkip => (SContinue, r)
  | ACleanEof => (SDone (Ok None), r)
  end.

Definition max_payload : nat := BLOCK_SIZE - HEADER_SIZE.

(** The physical record at the cursor, once a header fits. *)
Definition read_physical `{Crc32c} (r : WalReader) : StepOut * WalReader :=
  let h := block_cursor r in
  let rtype_byte := from_le (slice_of (h + 6) (h + 7) (block r)) in
  let length_ := decode_length (slice_of (h + 4) (h + 6) (block r)) in
  let at_ := Num (current_record_stream_offset r) in
  if (rtype_byte =? rtype_u8 RZero)%Z && batch_is_empty length_ then
    if existsb (λ b, negb (b2Z b =? 0)%Z) (slice_of (h + HEADER_SIZE) (block_end r) (block r)) then
      (SDone (Err (WalZeroHeader (current_record_stream_offset r))), r)
    else (SContinue, set_cursor (block_end r) r)
  else
    match from_byte rtype_byte with
    | None => (SDone (Err (Internal [Lit "unknown record type "; Num rtype_byte;
                                     Lit " at stream offset "; at_])), r)
    | Some rtype =>
        let payload_start := h + HEADER_SIZE in
        let payload_end := payload_start + length_ in
        match physical_payload_act (Z.of_nat length_) (Z.of_nat max_payload) (Z.of_nat payload_end)
                (Z.of_nat (block_end r)) (Z.of_nat BLOCK_SIZE) with
        | PFailStop =>
            if max_payload <? length_ then
              (SDone (Err (Internal [Lit "WAL record length "; Num (Z.of_nat length_);
                                     Lit " exceeds max physical payload ";
                                     Num (Z.of_nat max_payload); Lit " at offset "; at_])), r)
            else
              (SDone (Err (Internal [Lit "WAL record length "; Num (Z.of_nat length_);
                                     Lit " exceeds remainder of full block at offset "; at_])), r)
        | PTruncated => (SDone (Err (Truncated (current_record_stream_offset r))), r)
        | PCleanEof => (SDone (Ok None), r)
        | PContinue =>
            let stored_crc := decode_crc (slice_of h (h + 4) (block r)) in
            let length_u16 := Z.min (Z.of_nat length_) U16_MAX in
            let payload := slice_of payload_start payload_end (block r) in
            let actual_crc := record_checksum rtype_byte length_u16 payload in
            if negb (crc_match_ok stored_crc actual_crc) then
              (SDone (Err (Crc (current_record_stream_offset r) stored_crc actual_crc)), r)
            else apply_fragment rtype payload (set_cursor payload_end r)
        end
    end.

(** The seal check, then the physical record. *)
Definition read_header `{Crc32c} (r : WalReader) : StepOut * WalReader :=
  let h := block_cursor r in
  if (h + SEAL_FRAME_LEN <=? block_end r) &&
     bool_decide (slice_of h (h + 4) (block r) = to_le 4 SEAL_MAGIC)
  then
    match parse_frame_or_seal (slice_of h (h + SEAL_FRAME_LEN) (block r)) with
    | ValidSeal _ => (SDone (Ok None), r)
    | CorruptFrame msg =>
        (SDone (Err (Internal ([Lit "Corrupt seal frame at offset ";
                                Num (current_record_stream_offset r); Lit ": "] ++ msg))), r)
    | TrailingZeroes => read_physical r
    end
  else read_physical r.

(** One pass of the loop. *)
Definition read_step `{Crc32c} (r : WalReader) : StepOut * WalReader :=
  if block_end r <? block_cursor r + HEADER_SIZE then
    let '(ok, r) := read_next_block r in
    if negb ok || (block_end r <? block_cursor r + HEADER_SIZE) then (SDone (Ok None), r)
    else read_header r
  else read_header r.

Fixpoint read_loop `{Crc32c} (fuel : nat) (r : WalReader)
    : option (Result CoreError (option (list byte)) * WalReader) :=
  match fuel with
  | O => None
  | S n =>
      match read_step r with
      | (SDone x, r) => Some (x, r)
      | (SContinue, r) => read_loop n r
      end
  end.

(** Bytes not yet consumed. *)
Definition remaining (r : WalReader) : nat :=
  (block_end r - block_cursor r) + length (src_data (src r)).

Definition read_record `{Crc32c} (r : WalReader)
    : option (Result CoreError (option (list byte)) * WalReader) :=
  read_loop (S (remaining r)) r.

(** * Recovery walk *)

Definition recover_kind (e : CoreError) : RecoverKind :=
  match e with
  | Truncated _ => KTruncated
  | Crc _ _ _ => KCrc
  | WalZeroHeader _ => KZeroHeaderTail
  | Internal msg =>
      if msg_contains "orphan" msg then KOrphanFragment
      else if msg_contains "WAL record length" msg || msg_contains "exceeds max physical" msg
              || msg_contains "exceeds remainder of full block" msg then KLengthCorrupt
      else if msg_contains "unknown record type" msg then KUnknownType
      else KOther
  | _ => KOther
  end.

Definition recover_kind_from_read (x : Result CoreError (option (list byte))) : RecoverKind :=
  match x with
  | Ok (Some _) => KRecord
  | Ok None => KCleanEof
  | Err e => recover_kind e
  end.

Definition skip_byte_for_resync (r : WalReader) : bool * WalReader :=
  let r := set_scratch [] r in
  if block_cursor r <? block_end r then (true, set_cursor (block_cursor r + 1) r)
  else read_next_block r.

(** The loop variables of [collect_prefix_all]. *)
Record Walk := mkWalk {
  wk_out : list (list byte);
  wk_skips : Z;
  wk_in_resync : bool;
  wk_reader : WalReader
}.

Definition option_or {A} (a b : option A) : option A :=
  match a with Some _ => a | None => b end.

(** One turn: continue with a new state, or finish with the prefix and an
    optional error. [None] is the reader running out of fuel. *)
Definition collect_step `{Crc32c} (w : Walk)
    : option (Walk + (list (list byte) * option CoreError * WalReader)) :=
  '(outcome, r) ← read_record (wk_reader w);
  let kind := recover_kind_from_read outcome in
  let prefix_n := Z.of_nat (length (wk_out w)) in
  let '(can_skip, r) :=
    if is_length_resyncable kind ||
       (wk_in_resync w && match kind with KCrc | KZeroHeaderTail => true | _ => false end)
    then skip_byte_for_resync r
    else (false, r) in
  let skips := if can_skip then sat_add (wk_skips w) 1 else wk_skips w in
  match recover_collect_act kind prefix_n can_skip skips (wk_in_resync w) with
  | KeepRecord =>
      match outcome with
      | Ok (Some rec) =>
          let '(pending, origin) :=
            if wk_in_resync w then
              match pending_resync r with
              | Some p => (None, option_or (resync_origin r) (Some p))
              | None => (None, resync_origin r)
              end
            else (pending_resync r, resync_origin r) in
          Some (inl (mkWalk (wk_out w ++ [rec]) 0 false
                       (set_resync (current_record_stream_offset r) pending origin r)))
      | _ => Some (inr (wk_out w,
                        Some (Internal [Lit "WAL recover KeepRecord without a record"]), r))
      end
  | Stop | KeepPrefix =>
      Some (inr (wk_out w, None, set_resync (last_good_offset r) None (resync_origin r) r))
  | Resync =>
      let pending :=
        if negb (wk_in_resync w) && bool_decide (pending_resync r = None)
        then Some (current_record_stream_offset r) else pending_resync r in
      Some (inl (mkWalk (wk_out w) skips true
                   (set_resync (last_good_offset r) pending (resync_origin r) r)))
  | FailStop =>
      Some (inr (wk_out w,
                 match outcome with
                 | Err e => Some e
                 | Ok _ => Some (Internal [Lit "WAL recover fail-stop on clean read"])
                 end, r))
  end.

Fixpoint collect_loop `{Crc32c} (fuel : nat) (w : Walk)
    : option (list (list byte) * option CoreError * WalReader) :=
  match fuel with
  | O => None
  | S n =>
      x ← collect_step w;
      match x with
      | inl w => collect_loop n w
      | inr res => Some res
      end
  end.

Definition collect_prefix_all `{Crc32c} (r : WalReader)
    : option (list (list byte) * option CoreError * WalReader) :=
  collect_loop (S (remaining r)) (mkWalk [] 0 false r).

Definition collect_all `{Crc32c} (r : WalReader)
    : option (Result CoreError (list (list byte)) * WalReader) :=
  '(out, err, r) ← collect_prefix_all r;
  Some (match err with Some e => Err e | None => Ok out end, r).
