(* ===== verification/WalRecovery.v ===== *)
(** What WAL recovery guarantees: the theorems about [wal/reader_kernel.rs] and
    its match with the layout of [wal/writer_kernel.rs].

    - reading a block does not depend on how the stream splits its reads;
    - [read_record] and the recovery walk always return (every turn consumes a
      byte of the file), whatever the bytes;
    - what the writer lays out is read back, record by record, and survives any
      bytes that follow it. *)

From S2P Require Import Prelude ErrorKernel BatchKernel WalFormat WalFragment WalReader.

Local Open Scope nat_scope.

(** * Filling a block *)

Lemma src_read_spec want s :
  0 < want → let '(chunk, s') := src_read want s in
  src_data s = chunk ++ src_data s' ∧ length chunk ≤ want ∧
  (chunk = [] → src_data s = []).
Proof.
  intros Hw. unfold src_read. destruct (src_sched s) as [|k ks]; cbn [src_data].
  - rewrite take_drop. split_and!; [done|len|]. destruct (src_data s); [done|].
    destruct want; [lia|done].
  - rewrite take_drop. split_and!; [done|len|]. destruct (src_data s); [done|].
    destruct want; [lia|done].
Qed.

(** Short reads do not matter: the block holds the next [BLOCK_SIZE] bytes. *)
Lemma fill_loop_spec fuel filled blk s :
  length blk = BLOCK_SIZE → filled ≤ BLOCK_SIZE → BLOCK_SIZE - filled ≤ fuel →
  let '(filled', blk', s') := fill_loop fuel filled blk s in
  filled' = (filled + length (src_data s)) `min` BLOCK_SIZE ∧
  length blk' = BLOCK_SIZE ∧
  take filled' blk' = take filled blk ++ take (BLOCK_SIZE - filled) (src_data s) ∧
  src_data s' = drop (BLOCK_SIZE - filled) (src_data s).
Proof.
  revert filled blk s. induction fuel as [|n IH]; intros filled blk s Hb Hf Hn; cbn [fill_loop].
  { replace (BLOCK_SIZE - filled) with 0 by lia. rewrite drop_0, take_0, app_nil_r.
    split_and!; [lia|done|done|done]. }
  destruct (Nat.ltb_spec filled BLOCK_SIZE) as [Hlt|Hge].
  2:{ replace (BLOCK_SIZE - filled) with 0 by lia. rewrite drop_0, take_0, app_nil_r.
      split_and!; [lia|done|done|done]. }
  pose proof (src_read_spec (BLOCK_SIZE - filled) s ltac:(lia)) as Hr.
  destruct (src_read (BLOCK_SIZE - filled) s) as [chunk s1]. destruct Hr as (Hd & Hc & He).
  unfold batch_is_empty. destruct (Nat.eqb_spec (length chunk) 0) as [E|E].
  - apply nil_length_inv in E as ->. specialize (He eq_refl). simpl in Hd. rewrite He in *.
    rewrite <-Hd, take_nil, drop_nil, app_nil_r. split_and!; [simpl; lia|done|done|done].
  - specialize (IH (filled + length chunk)
      (take filled blk ++ chunk ++ drop (filled + length chunk) blk) s1
      ltac:(len) ltac:(lia) ltac:(lia)).
    destruct (fill_loop n _ _ s1) as [[filled' blk'] s']. destruct IH as (-> & Hl & Ht & ->).
    rewrite Hd. split_and!.
    + len.
    + done.
    + rewrite Ht, (assoc_L (++) (take filled blk)), take_app_length' by len.
      rewrite <-(assoc_L (++)). f_equal. rewrite (take_app_ge chunk) by lia.
      f_equal. f_equal. lia.
    + rewrite drop_app_ge by lia. f_equal. lia.
Qed.

(** * The reader invariant *)

(** The block buffer keeps its size, the cursor stays in it, and a short block
    is followed by nothing (except before the first fill). *)
Definition reader_ok (r : WalReader) : Prop :=
  length (block r) = BLOCK_SIZE ∧ block_cursor r ≤ block_end r ≤ BLOCK_SIZE.

Lemma reader_new_ok s : reader_ok (reader_new s).
Proof. unfold reader_ok, reader_new. cbn. rewrite length_replicate. lia. Qed.

Lemma read_next_block_spec r :
  length (block r) = BLOCK_SIZE →
  let '(ok, r') := read_next_block r in
  let data := src_data (src r) in
  ok = (0 <? block_end r') ∧
  block_end r' = length data `min` BLOCK_SIZE ∧
  length (block r') = BLOCK_SIZE ∧
  block_cursor r' = 0 ∧
  take (block_end r') (block r') = take BLOCK_SIZE data ∧
  src_data (src r') = drop BLOCK_SIZE data ∧
  scratch r' = scratch r ∧
  block_start_offset r' = (block_start_offset r + Z.of_nat (block_end r))%Z ∧
  last_good_offset r' = last_good_offset r ∧
  pending_resync r' = pending_resync r ∧ resync_origin r' = resync_origin r.
Proof.
  intros Hb. unfold read_next_block.
  pose proof (fill_loop_spec BLOCK_SIZE 0 (block r) (src r) Hb ltac:(lia) ltac:(lia)) as H.
  destruct (fill_loop _ _ _ _) as [[filled blk] s]. cbn -[take drop]. rewrite take_0, Nat.sub_0_r in H.
  destruct H as (-> & ? & ? & ?). split_and!; done.
Qed.

Lemma read_next_block_ok r :
  reader_ok r → reader_ok (read_next_block r).2 ∧
  remaining (read_next_block r).2 = length (src_data (src r)).
Proof.
  intros [Hb Hc]. pose proof (read_next_block_spec r Hb) as H.
  destruct (read_next_block r) as [ok r']. cbn [snd].
  destruct H as (-> & He & Hl & Hcur & _ & Hd & _). unfold reader_ok, remaining.
  rewrite Hl, Hcur, He, Hd. len.
Qed.

(** * Every turn consumes bytes *)

(** The outcome of a turn, as the recovery walk needs it: continuing or yielding
    a record consumes at least a header; an error that the walk may skip over
    leaves the cursor before the end of the block. *)
Definition turn_ok (r : WalReader) (o : StepOut) (r' : WalReader) : Prop :=
  reader_ok r' ∧
  match o with
  | SContinue | SDone (Ok (Some _)) => remaining r' < remaining r
  | SDone (Ok None) => remaining r' ≤ remaining r
  | SDone (Err e) =>
      remaining r' ≤ remaining r ∧
      (recover_kind e = KOrphanFragment ∨ recover_kind e = KOther ∨ block_cursor r' < block_end r')
  end.

Lemma apply_fragment_ok t p r r0 :
  reader_ok r → remaining r < remaining r0 →
  let '(o, r') := apply_fragment t p r in turn_ok r0 o r'.
Proof.
  intros Hr Hlt. unfold apply_fragment.
  assert (∀ x, reader_ok (set_scratch x r) ∧ remaining (set_scratch x r) = remaining r) as Hs
    by done.
  destruct t, (batch_is_empty _); cbn [from_record_type fragment_act];
    repeat (rewrite decide_True by done || rewrite decide_False by done);
    split; try apply Hs; try done; try (cbn; unfold remaining in *; cbn in *; lia).
  all: split; [lia|left; reflexivity].
Qed.

Lemma set_cursor_ok c r :
  reader_ok r → c ≤ block_end r → reader_ok (set_cursor c r).
Proof. intros [??] ?. split; [done|]. cbn. lia. Qed.

Lemma remaining_set_cursor c r :
  remaining (set_cursor c r) = block_end r - c + length (src_data (src r)).
Proof. done. Qed.

Lemma turn_ok_error r e :
  reader_ok r → block_cursor r < block_end r → turn_ok r (SDone (Err e)) r.
Proof. intros. split; [done|]. split; [lia|]. by right; right. Qed.

Lemma physical_payload_act_continue len mx pe be bs :
  physical_payload_act len mx pe be bs = PContinue → (pe ≤ be)%Z.
Proof.
  unfold physical_payload_act. destruct (Z.ltb_spec mx len); [done|].
  destruct (Z.ltb_spec be pe); [by destruct (be =? bs)%Z|lia].
Qed.

Lemma read_physical_ok `{Crc32c} r :
  reader_ok r → block_cursor r + HEADER_SIZE ≤ block_end r →
  let '(o, r') := read_physical r in turn_ok r o r'.
Proof.
  intros Hr Hh. unfold HEADER_SIZE in *.
  assert (∀ e, turn_ok r (SDone (Err e)) r) as Herr by (intros; apply turn_ok_error; [done|lia]).
  unfold read_physical. destruct (_ && _).
  { destruct (existsb _ _); [apply Herr|]. split; [apply set_cursor_ok; [done|lia]|].
    rewrite remaining_set_cursor. unfold remaining. lia. }
  destruct (from_byte _) as [rtype|]; [|apply Herr].
  destruct (physical_payload_act _ _ _ _ _) eqn:Hact.
  - destruct (negb _); [apply Herr|]. apply physical_payload_act_continue in Hact.
    apply apply_fragment_ok; [apply set_cursor_ok; [done|lia]|].
    rewrite remaining_set_cursor. unfold remaining, HEADER_SIZE in *. lia.
  - destruct (_ <? _); apply Herr.
  - apply Herr.
  - split; [done|lia].
Qed.

Lemma read_header_ok `{Crc32c} r :
  reader_ok r → block_cursor r + HEADER_SIZE ≤ block_end r →
  let '(o, r') := read_header r in turn_ok r o r'.
Proof.
  intros Hr Hh. unfold read_header. destruct (_ && _); [|by apply read_physical_ok].
  destruct (parse_frame_or_seal _); [split; [done|lia]|by apply read_physical_ok|].
  apply turn_ok_error; [done|]. unfold HEADER_SIZE in *. lia.
Qed.

Lemma turn_ok_weaken r r0 o r' : remaining r ≤ remaining r0 → turn_ok r o r' → turn_ok r0 o r'.
Proof. intros Hle [? H]. split; [done|]. destruct o as [[[?|]|?]|]; [lia|lia|naive_solver lia|lia]. Qed.

Lemma read_step_ok `{Crc32c} r :
  reader_ok r → let '(o, r') := read_step r in turn_ok r o r'.
Proof.
  intros Hr. unfold read_step.
  destruct (Nat.ltb_spec (block_end r) (block_cursor r + HEADER_SIZE)) as [Hlt|Hge];
    [|by apply read_header_ok].
  pose proof (read_next_block_ok r Hr) as [Hr1 Hrem]. destruct (read_next_block r) as [ok r1].
  cbn [snd] in *. assert (remaining r1 ≤ remaining r) as Hle by (unfold remaining in *; lia).
  destruct ok; cbn [negb orb]; [|by split].
  destruct (Nat.ltb_spec (block_end r1) (block_cursor r1 + HEADER_SIZE)) as [?|Hge1]; [by split|].
  pose proof (read_header_ok r1 Hr1 Hge1) as H1. destruct (read_header r1) as [o r2].
  by eapply turn_ok_weaken.
Qed.

(** With fuel above the bytes left, a [read_record] returns. *)
Lemma read_loop_ok `{Crc32c} fuel r :
  reader_ok r → remaining r < fuel →
  ∃ x r', read_loop fuel r = Some (x, r') ∧ turn_ok r (SDone x) r'.
Proof.
  revert r. induction fuel as [|n IH]; intros r Hr Hf; [lia|]. cbn [read_loop].
  pose proof (read_step_ok r Hr) as H1. destruct (read_step r) as [[x|] r1]; [by eauto|].
  destruct H1 as [Hr1 Hlt]. destruct (IH r1 Hr1 ltac:(lia)) as (x & r' & -> & Hx).
  exists x, r'. split; [done|]. eapply turn_ok_weaken; [|done]. lia.
Qed.

(** More fuel does not change the result. *)
Lemma read_loop_mono `{Crc32c} n m r x :
  n ≤ m → read_loop n r = Some x → read_loop m r = Some x.
Proof.
  revert m r. induction n as [|n IH]; intros m r Hle Hn; [done|].
  destruct m as [|m]; [lia|]. cbn [read_loop] in *.
  destruct (read_step r) as [[?|] r1]; [done|]. apply IH; [lia|done].
Qed.

Lemma read_loop_record `{Crc32c} n r x :
  reader_ok r → read_loop n r = Some x → read_record r = Some x.
Proof.
  intros Hr Hn. unfold read_record.
  destruct (read_loop_ok (S (remaining r)) r Hr ltac:(lia)) as (y & r' & Hy & _).
  destruct (Nat.le_ge_cases n (S (remaining r))) as [Hle|Hle].
  - by eapply read_loop_mono.
  - rewrite Hy. apply (read_loop_mono _ n) in Hy; [|done]. congruence.
Qed.

(** * The recovery walk terminates *)

Lemma set_resync_ok lg p o r :
  reader_ok (set_resync lg p o r) ↔ reader_ok r.
Proof. done. Qed.

Lemma remaining_set_resync lg p o r : remaining (set_resync lg p o r) = remaining r.
Proof. done. Qed.

Lemma skip_byte_ok r :
  reader_ok r → block_cursor r < block_end r →
  ∃ r', skip_byte_for_resync r = (true, r') ∧ reader_ok r' ∧ remaining r' < remaining r.
Proof.
  intros Hr Hlt. unfold skip_byte_for_resync. cbn [block_cursor block_end set_scratch].
  rewrite (proj2 (Nat.ltb_lt _ _)) by done. eexists. split; [done|].
  split; [apply set_cursor_ok; [done|cbn; lia]|]. rewrite remaining_set_cursor. cbn.
  unfold remaining. lia.
Qed.

(** A turn of the walk either finishes or leaves fewer bytes. *)
Definition walk_turn_ok (w : Walk) (x : Walk + (list (list byte) * option CoreError * WalReader))
    : Prop :=
  match x with
  | inl w' =>
      reader_ok (wk_reader w') ∧ remaining (wk_reader w') < remaining (wk_reader w) ∧
      wk_out w `prefix_of` wk_out w'
  | inr (out, _, _) => out = wk_out w
  end.

Lemma collect_step_ok `{Crc32c} w :
  reader_ok (wk_reader w) → ∃ x, collect_step w = Some x ∧ walk_turn_ok w x.
Proof.
  intros Hr. unfold collect_step.
  destruct (read_loop_ok (S (remaining (wk_reader w))) _ Hr ltac:(lia)) as (o & r & Ho & Hr1 & Hm).
  unfold read_record. rewrite Ho. cbn [mbind option_bind].
  destruct o as [[rec|]|e]; cbn [recover_kind_from_read is_length_resyncable].
  - rewrite andb_false_r. cbn [orb recover_collect_act].
    destruct (if wk_in_resync w then _ else _) as [pending origin].
    eexists. split; [reflexivity|]. cbn. split_and!; [done|done|by apply prefix_app_r].
  - rewrite andb_false_r. by eexists.
  - destruct Hm as (Hle & Hcur). set (k := recover_kind e) in *.
    destruct (_ || _) eqn:Hskip.
    + assert (block_cursor r < block_end r) as Hlt.
      { destruct Hcur as [E|[E|]]; [| |done]; rewrite E in Hskip; cbn in Hskip;
          by rewrite andb_false_r in Hskip. }
      destruct (skip_byte_ok r Hr1 Hlt) as (r2 & -> & Hr2 & Hlt2).
      destruct (recover_collect_act _ _ _ _ _) eqn:Hact;
        (eexists; split; [reflexivity|]); try done.
      split_and!; [done| |done]. cbn [wk_reader]. rewrite remaining_set_resync. lia.
    + destruct (recover_collect_act _ _ _ _ _) eqn:Hact;
        (eexists; split; [reflexivity|]); try done; cbn.
      exfalso. clear -Hskip Hact. fold k in Hact.
      destruct k, (wk_in_resync w); cbn in *; try done; by destruct (_ =? _)%Z.
Qed.

Lemma collect_prefix_loop_ok `{Crc32c} fuel w :
  reader_ok (wk_reader w) → remaining (wk_reader w) < fuel →
  ∃ out err r, collect_loop fuel w = Some (out, err, r) ∧ wk_out w `prefix_of` out.
Proof.
  revert w. induction fuel as [|n IH]; intros w Hr Hf; [lia|]. cbn [collect_loop].
  destruct (collect_step_ok w Hr) as (x & -> & Hx). cbn [mbind option_bind].
  destruct x as [w'|[[out err] r]].
  - destruct Hx as (Hr' & Hlt & Hpre). destruct (IH w' Hr' ltac:(lia)) as (out & err & r & -> & Hp).
    exists out, err, r. split; [done|]. by etrans.
  - cbn in Hx. subst. by eauto.
Qed.

(** * Reading what was written *)

(** [in_block r off rest]: the cursor is at block offset [off] of a filled
    block, and the bytes from there on are [rest]. *)
Definition in_block (r : WalReader) (off : nat) (rest : list byte) : Prop :=
  length (block r) = BLOCK_SIZE ∧ block_cursor r = off ∧ off ≤ BLOCK_SIZE ∧
  block_end r = (off + length rest) `min` BLOCK_SIZE ∧
  slice_of off (block_end r) (block r) ++ src_data (src r) = rest.

(** Or the block is used up (also the state before the first fill), which is
    how offset [BLOCK_SIZE] shows. *)
Definition view (r : WalReader) (off : nat) (rest : list byte) : Prop :=
  in_block r off rest ∨
  (off = BLOCK_SIZE ∧ length (block r) = BLOCK_SIZE ∧ block_cursor r = block_end r ∧
   block_end r ≤ BLOCK_SIZE ∧ src_data (src r) = rest).

(** Fields a turn leaves alone. *)
Definition same_marks (r r' : WalReader) : Prop :=
  scratch r' = scratch r ∧ last_good_offset r' = last_good_offset r ∧
  pending_resync r' = pending_resync r ∧ resync_origin r' = resync_origin r.

Lemma view_reader_ok r off rest : view r off rest → reader_ok r.
Proof. intros [(?&?&?&?&_)|(?&?&?&?&_)]; unfold reader_ok; lia. Qed.

Lemma view_remaining r off rest : view r off rest → remaining r = length rest.
Proof.
  intros [(Hb&Hc&Ho&He&<-)|(?&?&?&?&<-)]; unfold remaining, slice_of in *; len.
Qed.

Lemma slice_of_slice a b x y l :
  x ≤ y → a + y ≤ b → slice_of (a + x) (a + y) l = take (y - x) (drop x (slice_of a b l)).
Proof.
  intros. unfold slice_of. rewrite skipn_firstn_comm, drop_drop, take_take.
  f_equal; lia.
Qed.

Lemma in_block_slice r off rest x y :
  in_block r off rest → x ≤ y → off + y ≤ block_end r →
  slice_of (off + x) (off + y) (block r) = take (y - x) (drop x rest).
Proof.
  intros (Hb & Hc & Ho & He & Hs) Hxy Hy.
  rewrite (slice_of_slice off (block_end r)) by lia. rewrite <-Hs.
  assert (length (slice_of off (block_end r) (block r)) = block_end r - off) as Hl
    by (unfold slice_of; len).
  rewrite drop_app_le, take_app_le by len. done.
Qed.

Lemma in_block_advance r off a b :
  in_block r off (a ++ b) → off + length a ≤ BLOCK_SIZE →
  in_block (set_cursor (off + length a) r) (off + length a) b.
Proof.
  intros (Hb & Hc & Ho & He & Hs) Hle. unfold in_block. cbn -[slice_of] in *. split_and!; try done.
  - len.
  - assert (off + length a ≤ block_end r) as Hae by len. clear He.
    unfold slice_of in *. apply (f_equal (drop (length a))) in Hs.
    rewrite drop_app_length in Hs. rewrite <-Hs.
    rewrite drop_app_le by len. f_equal. rewrite skipn_firstn_comm, drop_drop. f_equal; lia.
Qed.

(** Crossing into the next block: the padding is skipped. *)
Lemma next_block_view r off pad rest :
  view r off (replicate pad x00 ++ rest) → off + pad = BLOCK_SIZE → pad < HEADER_SIZE →
  rest ≠ [] →
  block_end r < block_cursor r + HEADER_SIZE ∧
  ∃ r', read_next_block r = (true, r') ∧ in_block r' 0 rest ∧ same_marks r r' ∧
    current_record_stream_offset r' = (current_record_stream_offset r + Z.of_nat pad)%Z.
Proof.
  intros Hv Hp Hlt Hne.
  assert (block_end r = block_cursor r + pad ∧ src_data (src r) = rest ∧ length (block r) = BLOCK_SIZE)
    as (He & Hd & Hb).
  { destruct Hv as [(Hb & Hc & Ho & He & Hs)|(-> & Hb & Hc & He & Hs)].
    - assert (0 < length rest) by (destruct rest; [done|simpl; lia]).
      assert (block_end r = BLOCK_SIZE) as He' by (rewrite He; len).
      split_and!; [lia| |done]. apply app_inj_1 in Hs as [_ ?]; [done|]. unfold slice_of. len.
    - assert (pad = 0) as -> by lia. split_and!; [lia|done|done]. }
  split; [lia|]. pose proof (read_next_block_spec r Hb) as H.
  destruct (read_next_block r) as [ok r']. rewrite Hd in H.
  destruct H as (-> & He' & Hb' & Hc' & Ht & Hs' & Hsc & Hbs & Hlg & Hpr & Hro).
  exists r'. assert (0 < block_end r') as Hpos.
  { rewrite He'. destruct rest; [done|]. pose proof BLOCK_SIZE_val. cbn [length]. lia. }
  rewrite (proj2 (Nat.ltb_lt _ _) Hpos). split_and!; [done| |by split_and!|].
  - unfold in_block, slice_of. rewrite drop_0, Nat.sub_0_r, Ht, Hs', take_drop, Hc', He'.
    split_and!; [done|done|lia|lia|done].
  - unfold current_record_stream_offset. rewrite Hbs, Hc', He. lia.
Qed.

(** A frame the reader takes for a frame: a writer type (not [Zero]), and not
    the seal's magic number where the checksum goes. *)
Definition frame_readable `{Crc32c} (f : Frame) : Prop :=
  fr_type f ≠ RZero ∧ frame_checksum f ≠ SEAL_MAGIC.

Lemma frame_checksum_u32 `{Crc32c} f : (0 ≤ frame_checksum f < 256 ^ Z.of_nat 4)%Z.
Proof.
  pose proof (record_checksum_u32 (rtype_u8 (fr_type f)) (Z.of_nat (length (fr_payload f))) (fr_payload f)).
  unfold frame_checksum, U32_MAX in *. assert (256 ^ Z.of_nat 4 = 4294967296)%Z as -> by reflexivity. lia.
Qed.

Lemma length_frame_header `{Crc32c} f : length (frame_header f) = HEADER_SIZE.
Proof. unfold frame_header, HEADER_SIZE. len. Qed.

Lemma length_frame_bytes `{Crc32c} f :
  length (frame_bytes f) = fr_pad f + HEADER_SIZE + length (fr_payload f).
Proof. unfold frame_bytes. rewrite !length_app, length_frame_header. len. Qed.

(** The header fields, as the reader slices them. *)
Lemma frame_header_fields `{Crc32c} f rest :
  length (fr_payload f) ≤ BLOCK_SIZE →
  take 4 (frame_header f ++ rest) = to_le 4 (frame_checksum f) ∧
  decode_crc (take 4 (frame_header f ++ rest)) = frame_checksum f ∧
  decode_length (take 2 (drop 4 (frame_header f ++ rest))) = length (fr_payload f) ∧
  from_le (take 1 (drop 6 (frame_header f ++ rest))) = rtype_u8 (fr_type f).
Proof.
  intros Hl. unfold frame_header. rewrite <-!(assoc_L (++)). split_and!.
  - by rewrite take_app_length'.
  - rewrite take_app_length' by done. apply from_le_to_le, frame_checksum_u32.
  - rewrite drop_app_length', take_app_length' by done. unfold decode_length.
    rewrite from_le_to_le; [lia|]. pose proof BLOCK_SIZE_val.
    assert (256 ^ Z.of_nat 2 = 65536)%Z as -> by reflexivity. lia.
  - rewrite (assoc_L (++)), drop_app_length', take_app_length' by done.
    rewrite from_le_cons, from_le_nil, b2Z_Z2b_small; [lia|].
    pose proof (rtype_u8_range (fr_type f)). lia.
Qed.

Lemma physical_payload_act_fits len be bs cur :
  cur + HEADER_SIZE + len ≤ be → be ≤ BLOCK_SIZE →
  physical_payload_act (Z.of_nat len) (Z.of_nat max_payload) (Z.of_nat (cur + HEADER_SIZE + len))
    (Z.of_nat be) bs = PContinue.
Proof.
  intros. unfold physical_payload_act, max_payload.
  rewrite (proj2 (Z.ltb_ge _ _)) by lia. by rewrite (proj2 (Z.ltb_ge _ _)) by lia.
Qed.

(** At a header in the block, the reader takes exactly the frame. *)
Lemma read_header_frame `{Crc32c} r off f tail :
  in_block r off (frame_header f ++ fr_payload f ++ tail) →
  off + HEADER_SIZE + length (fr_payload f) ≤ BLOCK_SIZE → frame_readable f →
  let r' := set_cursor (off + HEADER_SIZE + length (fr_payload f)) r in
  read_header r = apply_fragment (fr_type f) (fr_payload f) r' ∧
  in_block r' (off + HEADER_SIZE + length (fr_payload f)) tail.
Proof.
  intros Hv Hfit [Hz Hseal] r'. pose proof Hv as (Hb & Hc & Ho & He & _).
  destruct (frame_header_fields f (fr_payload f ++ tail) ltac:(lia)) as (Hm & Hcrc & Hlen & Hty).
  assert (off + HEADER_SIZE + length (fr_payload f) ≤ block_end r) as Hend
    by (rewrite He, length_app, length_frame_header; len).
  pose proof (λ x y, in_block_slice r off _ x y Hv) as Hsl. unfold HEADER_SIZE in Hend.
  split.
  - unfold read_header. rewrite Hc.
    assert (slice_of off (off + 4) (block r) = to_le 4 (frame_checksum f)) as Hcrc'.
    { rewrite <-Hm, <-(Nat.add_0_r off) at 1. rewrite Hsl by lia. by rewrite drop_0, Nat.sub_0_r. }
    rewrite Hcrc', (bool_decide_eq_false_2 (to_le 4 _ = _)).
    2:{ intros E. apply Hseal, (to_le_inj 4); [apply frame_checksum_u32| |done].
        split; [by vm_compute|by vm_compute]. }
    rewrite andb_false_r. unfold read_physical. rewrite Hc, Hcrc', !Hsl by lia.
    replace (7 - 6) with 1 by lia. replace (6 - 4) with 2 by lia. rewrite Hty, Hlen.
    assert ((rtype_u8 (fr_type f) =? rtype_u8 RZero)%Z = false) as -> by (by destruct (fr_type f)).
    cbn [andb]. rewrite from_byte_rtype, physical_payload_act_fits by (unfold HEADER_SIZE; lia).
    assert (slice_of (off + HEADER_SIZE) (off + HEADER_SIZE + length (fr_payload f)) (block r) =
            fr_payload f) as Hp.
    { rewrite <-Nat.add_assoc, Hsl by (unfold HEADER_SIZE; lia).
      rewrite drop_app_length' by (by rewrite length_frame_header).
      by rewrite take_app_length' by lia. }
    rewrite Hp, <-Hm, Hcrc.
    rewrite Z.min_l by (pose proof BLOCK_SIZE_val; unfold U16_MAX; lia).
    unfold crc_match_ok, frame_checksum. by rewrite Z.eqb_refl.
  - unfold r'. rewrite <-Nat.add_assoc. rewrite (assoc_L (++)) in Hv.
    assert (HEADER_SIZE + length (fr_payload f) = length (frame_header f ++ fr_payload f)) as ->
      by (rewrite length_app, length_frame_header; lia).
    apply in_block_advance; [done|]. rewrite length_app, length_frame_header. lia.
Qed.

Lemma same_marks_refl r : same_marks r r.
Proof. by split_and!. Qed.

(** One turn reads one laid-out frame, across the block boundary if need be. *)
Lemma read_step_frame `{Crc32c} r off f tail :
  view r off (frame_bytes f ++ tail) → off ≤ BLOCK_SIZE → fr_pad f = pad_len off →
  length (fr_payload f) ≤ BLOCK_SIZE - pad_off off - HEADER_SIZE → frame_readable f →
  ∃ r', read_step r = apply_fragment (fr_type f) (fr_payload f) r' ∧
    view r' (pad_off off + HEADER_SIZE + length (fr_payload f)) tail ∧ same_marks r r' ∧
    current_record_stream_offset r' =
      (current_record_stream_offset r + Z.of_nat (length (frame_bytes f)))%Z.
Proof.
  intros Hv Ho Hpad Hfit Hf. pose proof (pad_off_bound off Ho) as Hpo.
  rewrite length_frame_bytes, Hpad.
  unfold frame_bytes in Hv. rewrite Hpad, <-!(assoc_L (++)) in Hv.
  destruct (decide (BLOCK_SIZE - off < HEADER_SIZE)) as [Hlt|Hge].
  - assert (pad_len off = BLOCK_SIZE - off ∧ pad_off off = 0) as [Hpl Hp0].
    { unfold pad_len, pad_off. by rewrite (proj2 (Nat.ltb_lt _ _)) by done. }
    rewrite Hpl, Hp0 in *.
    destruct (next_block_view r off _ _ Hv ltac:(lia) Hlt) as (Hend & r1 & Hn & Hin & Hm & Hoff);
      [intros E; apply (f_equal length) in E; rewrite length_app, length_frame_header in E;
       unfold HEADER_SIZE in E; simpl in E; lia|].
    destruct (read_header_frame r1 0 f tail Hin ltac:(lia) Hf) as [Hrd Hin'].
    eexists. unfold read_step. rewrite (proj2 (Nat.ltb_lt _ _)) by done. rewrite Hn. cbn [negb orb].
    pose proof Hin as (_ & Hc1 & _ & He1 & _).
    rewrite (proj2 (Nat.ltb_ge _ _)) by (rewrite Hc1, He1, length_app, length_frame_header; lia).
    split_and!; [exact Hrd|by left|exact Hm|].
    unfold current_record_stream_offset in *. cbn [set_cursor block_start_offset block_cursor].
    rewrite Hc1 in Hoff. lia.
  - assert (pad_len off = 0 ∧ pad_off off = off) as [Hpl Hp0].
    { unfold pad_len, pad_off. by rewrite (proj2 (Nat.ltb_ge _ _)) by lia. }
    rewrite Hpl, Hp0 in *. cbn [replicate app] in Hv.
    destruct Hv as [Hin|(-> & _)]; [|unfold HEADER_SIZE in *; lia].
    destruct (read_header_frame r off f tail Hin ltac:(lia) Hf) as [Hrd Hin'].
    eexists. unfold read_step. pose proof Hin as (_ & Hc1 & _ & He1 & _).
    rewrite (proj2 (Nat.ltb_ge _ _)) by (rewrite Hc1, He1, length_app, length_frame_header; lia).
    split_and!; [exact Hrd|by left|by split_and!|].
    unfold current_record_stream_offset. cbn [set_cursor block_start_offset block_cursor]. lia.
Qed.

Lemma view_set_scratch r x off rest : view r off rest → view (set_scratch x r) off rest.
Proof. done. Qed.

(** [frames_readable fs]: no frame is mistaken for a seal, and a first fragment
    is not empty (the reader recognises a record in progress by a non-empty
    scratch buffer). *)
Definition frames_readable `{Crc32c} (fs : list Frame) : Prop :=
  Forall (λ f, frame_checksum f ≠ SEAL_MAGIC ∧ (fr_type f = RFirst → fr_payload f ≠ [])) fs.

Definition same_log_marks (r r' : WalReader) : Prop :=
  last_good_offset r' = last_good_offset r ∧
  pending_resync r' = pending_resync r ∧ resync_origin r' = resync_origin r.

(** The frames of one record are read as that record. *)
Lemma read_loop_plan `{Crc32c} off begin data fs off' r tail :
  plan off begin data fs off' → frames_readable fs → view r off (frames_bytes fs ++ tail) →
  (if begin then True else scratch r ≠ []) →
  ∃ fuel r', read_loop fuel r = Some (Ok (Some ((if begin then [] else scratch r) ++ data)), r') ∧
    view r' off' tail ∧ scratch r' = [] ∧ same_log_marks r r' ∧
    current_record_stream_offset r' =
      (current_record_stream_offset r + Z.of_nat (length (frames_bytes fs)))%Z.
Proof.
  intros Hp. revert r. induction Hp as [off b d Ho Hd|off b d1 d2 fs off' Ho Hd Hne Hp IH];
    intros r Hr Hv Hsc; apply Forall_cons in Hr as [[Hseal Hfirst] Hr]; cbn [fr_payload fr_type] in *.
  - unfold frames_bytes in Hv |- *. cbn [fmap list_fmap concat] in Hv |- *. rewrite app_nil_r in *.
    edestruct (read_step_frame r off _ tail Hv Ho) as (r1 & Hst & Hv1 & (Hs1 & Hm1) & Hoff1);
      [done|done|split; [by destruct b|done]|]. cbn [fr_payload fr_type] in *.
    exists 1, (set_scratch [] r1). cbn [read_loop]. rewrite Hst.
    split_and!; [|by apply view_set_scratch|done|apply Hm1..|exact Hoff1].
    unfold apply_fragment. destruct b; [done|].
    destruct (scratch r1) eqn:E; [by rewrite <-Hs1 in Hsc|]. cbn. by rewrite <-Hs1.
  - rewrite frames_bytes_cons, <-(assoc_L (++)) in Hv.
    edestruct (read_step_frame r off _ _ Hv Ho) as (r1 & Hst & Hv1 & (Hs1 & Hm1) & Hoff1);
      [done|cbn; lia|split; [by destruct b|done]|]. cbn [fr_payload fr_type] in *.
    pose proof (pad_off_bound off Ho) as Hpo.
    replace (pad_off off + HEADER_SIZE + length d1) with BLOCK_SIZE in Hv1 by lia.
    set (x := (if b then [] else scratch r) ++ d1).
    assert (apply_fragment (if b then RFirst else RMiddle) d1 r1 =
            (SContinue, set_scratch x r1)) as Hap.
    { unfold apply_fragment, x. destruct b; [done|].
      destruct (scratch r1) eqn:E; [by rewrite <-Hs1 in Hsc|]. cbn. by rewrite <-Hs1. }
    destruct (IH (set_scratch x r1) Hr (view_set_scratch _ x _ _ Hv1))
      as (n & r' & Hl & Hv' & Hs' & Hm' & Hoff').
    { cbn. unfold x. destruct b; [by apply Hfirst|]. by destruct (scratch r). }
    exists (S n), r'. cbn [read_loop]. rewrite Hst, Hap, Hl. cbn [scratch set_scratch].
    split_and!; try done.
    + unfold x. by rewrite (assoc_L (++)).
    + destruct Hm1 as (?&?&?), Hm' as (?&?&?). cbn in *. split_and!; congruence.
    + rewrite Hoff'. unfold current_record_stream_offset in *. cbn [set_scratch block_start_offset block_cursor].
      rewrite Hoff1, frames_bytes_cons, length_app. lia.
Qed.

(** * Logs of several records *)

(** [layout off recs fs off']: the records [recs] written one after the other
    from block offset [off]. *)
Inductive layout : nat → list (list byte) → list Frame → nat → Prop :=
| layout_nil off : off ≤ BLOCK_SIZE → layout off [] [] off
| layout_cons off d fs off1 recs gs off2 :
    plan off true d fs off1 → off1 ≤ BLOCK_SIZE → layout off1 recs gs off2 →
    layout off (d :: recs) (fs ++ gs) off2.

(** Appending records one after the other, as [add_record] does. *)
Fixpoint append_records `{Crc32c} (off : nat) (recs : list (list byte)) (buf : list byte)
    : option (nat * list byte) :=
  match recs with
  | [] => Some (off, buf)
  | d :: recs => '(off, buf) ← fragment_into off d buf; append_records off recs buf
  end.

(** The records of [rs], laid out from the start of a log, can be read
    back: no frame has the checksum of a seal, and no record starts where only
    a header fits in its block (its first fragment would be empty, and the
    reader takes the next one for an orphan). *)
Definition log_readable `{Crc32c} (rs : list (list byte)) : Prop :=
  ∃ fs o, layout 0 rs fs o ∧ frames_readable fs.

Lemma append_records_layout `{Crc32c} off recs buf :
  off ≤ BLOCK_SIZE →
  ∃ fs off', append_records off recs buf = Some (off', buf ++ frames_bytes fs) ∧
    layout off recs fs off' ∧ off' ≤ BLOCK_SIZE.
Proof.
  revert off buf. induction recs as [|d recs IH]; intros off buf Ho; cbn [append_records].
  { exists [], off. rewrite app_nil_r. split_and!; [done|by constructor|done]. }
  destruct (fragment_from_ok off (mkSlice d) d buf Ho (slice_fresh d)) as (s & fs & o1 & Hf & Hp & Ho1).
  unfold fragment_into. rewrite Hf. cbn [mbind option_bind].
  destruct (IH o1 (buf ++ frames_bytes fs) Ho1) as (gs & o2 & -> & Hl & Ho2).
  exists (fs ++ gs), o2. rewrite frames_bytes_app, (assoc_L (++)).
  split_and!; [done|by econstructor|done].
Qed.

Lemma layout_functional off recs fs1 fs2 o1 o2 :
  layout off recs fs1 o1 → layout off recs fs2 o2 → fs1 = fs2 ∧ o1 = o2.
Proof.
  intros H1. revert fs2 o2. induction H1 as [|off d fs off1 recs gs off2 Hp Ho Hl IH];
    intros fs2 o2 H2; inversion H2; subst; [done|].
  match goal with Hp' : plan off true d _ _ |- _ =>
    destruct (plan_functional _ _ _ _ _ _ _ Hp Hp') as [-> ->] end.
  match goal with Hl' : layout _ recs _ _ |- _ => destruct (IH _ _ Hl') as [-> ->] end. done.
Qed.

(** Before the first fill the reader stands at the end of an empty block, which
    the writer's offset 0 matches. *)
Lemma plan_block_start begin data fs off' :
  plan 0 begin data fs off' → plan BLOCK_SIZE begin data fs off'.
Proof.
  assert (pad_len 0 = pad_len BLOCK_SIZE ∧ pad_off 0 = pad_off BLOCK_SIZE) as [E1 E2].
  { pose proof BLOCK_SIZE_val. unfold pad_len, pad_off, HEADER_SIZE.
    rewrite Nat.sub_diag, Nat.sub_0_r, (proj2 (Nat.ltb_ge _ 7)) by lia. done. }
  inversion 1; subst; rewrite E1, E2 in *; constructor; done.
Qed.

(** One turn of the walk keeps one record. *)
Lemma collect_step_plan `{Crc32c} w off d fs off' tail :
  plan off true d fs off' → frames_readable fs → wk_in_resync w = false →
  view (wk_reader w) off (frames_bytes fs ++ tail) →
  ∃ r', collect_step w = Some (inl (mkWalk (wk_out w ++ [d]) 0 false r')) ∧
    view r' off' tail ∧ scratch r' = [] ∧ pending_resync r' = pending_resync (wk_reader w) ∧
    resync_origin r' = resync_origin (wk_reader w) ∧
    current_record_stream_offset r' =
      (current_record_stream_offset (wk_reader w) + Z.of_nat (length (frames_bytes fs)))%Z ∧
    last_good_offset r' = current_record_stream_offset r'.
Proof.
  intros Hp Hr Hin Hv.
  destruct (read_loop_plan _ _ _ _ _ _ tail Hp Hr Hv I) as (n & r1 & Hl & Hv1 & Hs1 & Hm & Ho).
  apply read_loop_record in Hl; [|by eapply view_reader_ok].
  unfold collect_step. rewrite Hl, Hin. cbn.
  eexists. split; [reflexivity|]. destruct Hm as (? & ? & ?). cbn. by split_and!.
Qed.

Lemma collect_loop_layout `{Crc32c} off recs fs off' w tail :
  layout off recs fs off' → frames_readable fs → wk_in_resync w = false →
  view (wk_reader w) off (frames_bytes fs ++ tail) →
  last_good_offset (wk_reader w) = current_record_stream_offset (wk_reader w) →
  ∃ r' k, (∀ m, collect_loop (length recs + m) w =
             collect_loop m (mkWalk (wk_out w ++ recs) k false r')) ∧
    view r' off' tail ∧ pending_resync r' = pending_resync (wk_reader w) ∧
    resync_origin r' = resync_origin (wk_reader w) ∧
    current_record_stream_offset r' =
      (current_record_stream_offset (wk_reader w) + Z.of_nat (length (frames_bytes fs)))%Z ∧
    last_good_offset r' = current_record_stream_offset r'.
Proof.
  intros Hl. revert w. induction Hl as [off Ho|off d fs off1 recs gs off2 Hp Ho1 Hl IH];
    intros w Hr Hin Hv Hlg.
  { exists (wk_reader w), (wk_skips w). cbn. split_and!; try done; [|lia].
    intros m. rewrite app_nil_r, <-Hin. by destruct w. }
  apply Forall_app in Hr as [Hr1 Hr2]. rewrite frames_bytes_app, <-(assoc_L (++)) in Hv.
  destruct (collect_step_plan w off d fs off1 _ Hp Hr1 Hin Hv)
    as (r1 & Hst & Hv1 & _ & Hpr & Hor & Hoff & Hlg1).
  destruct (IH (mkWalk (wk_out w ++ [d]) 0 false r1) Hr2 eq_refl Hv1 Hlg1)
    as (r' & k & Hloop & Hv' & Hpr' & Hor' & Hoff' & Hlg'). cbn [wk_reader wk_out] in *.
  exists r', k. split_and!; [|done|congruence|congruence| |done].
  - intros m. cbn [length Nat.add collect_loop]. rewrite Hst. cbn [mbind option_bind].
    rewrite Hloop. by rewrite <-(assoc_L (++)).
  - rewrite Hoff', Hoff, frames_bytes_app, length_app. lia.
Qed.

(** Every record takes at least a header, so the walk has fuel left. *)
Lemma layout_length `{Crc32c} off recs fs off' :
  layout off recs fs off' → length recs ≤ length (frames_bytes fs).
Proof.
  induction 1 as [|off d fs off1 recs gs off2 Hp Ho1 Hl IH]; [done|].
  rewrite frames_bytes_app, length_app. cbn [length].
  enough (0 < length (frames_bytes fs)) by lia.
  inversion Hp; subst; rewrite frames_bytes_cons, length_app, length_frame_bytes; unfold HEADER_SIZE; lia.
Qed.

Lemma layout_block_start off' recs fs :
  layout 0 recs fs off' → ∃ off'', layout BLOCK_SIZE recs fs off''.
Proof.
  inversion 1; subst; [exists BLOCK_SIZE; by constructor|].
  eexists. econstructor; [by apply plan_block_start|done|done].
Qed.

Lemma reader_new_view data sched : view (reader_new (mkSrc data sched)) BLOCK_SIZE data.
Proof. right. cbn. rewrite length_replicate. split_and!; lia || done. Qed.

(** From a fresh reader: after the laid-out records the walk continues on the
    tail, with fuel for it. *)
Lemma collect_prefix_layout `{Crc32c} recs fs off' tail sched :
  layout 0 recs fs off' → frames_readable fs →
  ∃ r' k m off'', collect_prefix_all (reader_new (mkSrc (frames_bytes fs ++ tail) sched)) =
      collect_loop m (mkWalk recs k false r') ∧
    length tail < m ∧ view r' off'' tail ∧ pending_resync r' = None ∧ resync_origin r' = None ∧
    last_good_offset r' = Z.of_nat (length (frames_bytes fs)) ∧
    (recs ≠ [] → off'' = off') ∧
    current_record_stream_offset r' = Z.of_nat (length (frames_bytes fs)).
Proof.
  intros Hl Hr. destruct (layout_block_start _ _ _ Hl) as [off'' Hl'].
  pose proof (reader_new_view (frames_bytes fs ++ tail) sched) as Hv.
  destruct (collect_loop_layout _ _ _ _ (mkWalk [] 0 false _) tail Hl' Hr eq_refl Hv eq_refl)
    as (r' & k & Hloop & Hv' & Hpr & Hor & Hoff & Hlg).
  pose proof (layout_length _ _ _ _ Hl). unfold collect_prefix_all.
  rewrite (view_remaining _ _ _ Hv), length_app.
  exists r', k, (S (length (frames_bytes fs) - length recs + length tail)), off''.
  replace (S (length (frames_bytes fs) + length tail)) with
    (length recs + S (length (frames_bytes fs) - length recs + length tail)) by lia.
  rewrite Hloop. cbn [wk_reader wk_out app] in *.
  assert (current_record_stream_offset r' = Z.of_nat (length (frames_bytes fs))) as Hcur.
  { rewrite Hoff. unfold current_record_stream_offset. cbn [reader_new block_start_offset block_cursor]. lia. }
  split_and!; [done|lia|done|done|done|congruence| |done].
  - intros Hne. inversion Hl; subst; [done|]. inversion Hl'; subst.
    match goal with P1 : plan 0 true ?d ?f ?o, P2 : plan BLOCK_SIZE true ?d ?f' ?o' |- _ =>
      apply plan_block_start in P1; destruct (plan_functional _ _ _ _ _ _ _ P1 P2) as [-> ->] end.
    match goal with L1 : layout ?o ?rs _ _, L2 : layout ?o ?rs _ _ |- _ =>
      by destruct (layout_functional _ _ _ _ _ _ L1 L2) as [_ ->] end.
Qed.

(** * Zeros after the log *)

Lemma in_block_zero_step `{Crc32c} r off n :
  in_block r off (replicate n x00) → off + HEADER_SIZE ≤ block_end r →
  read_header r = (SContinue, set_cursor (block_end r) r).
Proof.
  intros Hv Hle. unfold HEADER_SIZE in Hle. pose proof Hv as (Hb & Hc & Ho & He & _).
  rewrite length_replicate in He.
  assert (∀ a b, a ≤ b → off + b ≤ block_end r →
            slice_of (off + a) (off + b) (block r) = replicate (b - a) x00) as Hsl.
  { intros a b Hab Hbe. rewrite (in_block_slice r off _ a b Hv Hab Hbe).
    rewrite drop_replicate, take_replicate. f_equal. lia. }
  unfold read_header. rewrite Hc.
  replace (slice_of off (off + 4) (block r)) with (replicate 4 x00)
    by (rewrite <-(Nat.add_0_r off) at 1; symmetry; apply Hsl; lia).
  rewrite (bool_decide_eq_false_2 (replicate 4 x00 = _)) by (by vm_compute).
  rewrite andb_false_r. unfold read_physical. rewrite Hc, !Hsl by lia.
  assert ((from_le (replicate (7 - 6) x00) =? rtype_u8 RZero)%Z = true) as -> by reflexivity.
  assert (batch_is_empty (decode_length (replicate (6 - 4) x00)) = true) as -> by reflexivity.
  cbn [andb].
  assert (slice_of (off + HEADER_SIZE) (block_end r) (block r) =
          replicate (block_end r - off - HEADER_SIZE) x00) as ->.
  { replace (block_end r) with (off + (block_end r - off)) at 1 by lia.
    rewrite Hsl; [done|unfold HEADER_SIZE; lia|lia]. }
  by induction (block_end r - off - HEADER_SIZE).
Qed.

Lemma view_zeros r off n :
  view r off (replicate n x00) → ∃ m, src_data (src r) = replicate m x00 ∧
    n = block_end r - block_cursor r + m.
Proof.
  intros Hv. pose proof (view_remaining _ _ _ Hv) as Hrem. rewrite length_replicate in Hrem.
  destruct Hv as [(Hb & Hc & Ho & He & Hs)|(_ & _ & Hc & _ & Hd)].
  - apply (f_equal (drop (length (slice_of off (block_end r) (block r))))) in Hs.
    rewrite drop_app_length, drop_replicate in Hs. eexists. split; [exact Hs|].
    unfold remaining in Hrem. rewrite Hs, length_replicate in Hrem. lia.
  - exists n. split; [done|]. lia.
Qed.

Lemma next_block_zeros r n :
  reader_ok r → src_data (src r) = replicate n x00 →
  let '(ok, r') := read_next_block r in
  in_block r' 0 (replicate n x00) ∧ same_marks r r'.
Proof.
  intros [Hb _] Hd. pose proof (read_next_block_spec r Hb) as H.
  destruct (read_next_block r) as [ok r']. rewrite Hd in H.
  destruct H as (-> & He' & Hb' & Hc' & Ht & Hs' & Hsc & Hbs & Hlg & Hpr & Hro).
  split; [|by split_and!]. unfold in_block, slice_of.
  rewrite drop_0, Nat.sub_0_r, Ht, Hs', take_drop, Hc', He'. split_and!; done || lia.
Qed.

(** A zero tail (preallocation) reads as the end of the log. *)
Lemma read_loop_zeros `{Crc32c} fuel r off n :
  view r off (replicate n x00) → n < fuel →
  ∃ r', read_loop fuel r = Some (Ok None, r') ∧ same_marks r r'.
Proof.
  revert r off n. induction fuel as [|fuel IH]; intros r off n Hv Hf; [lia|].
  cbn [read_loop]. pose proof (view_reader_ok _ _ _ Hv) as Hok.
  assert (∀ r1 off1 n1, in_block r1 off1 (replicate n1 x00) → n1 ≤ n → same_marks r r1 →
            block_cursor r1 + HEADER_SIZE ≤ block_end r1 →
            ∃ r', match read_header r1 with
                  | (SDone x, r) => Some (x, r)
                  | (SContinue, r) => read_loop fuel r
                  end = Some (Ok None, r') ∧ same_marks r r') as Hhdr.
  { intros r1 off1 n1 Hin Hle Hm Hh. pose proof Hin as (Hb1 & Hc1 & Ho1 & He1 & _).
    rewrite (in_block_zero_step r1 off1 n1 Hin) by lia.
    rewrite length_replicate in He1. unfold HEADER_SIZE in *.
    assert (replicate n1 x00 = replicate (block_end r1 - off1) x00 ++
                               replicate (n1 - (block_end r1 - off1)) x00) as E
      by (rewrite <-replicate_add; f_equal; lia).
    rewrite E in Hin. apply in_block_advance in Hin; [|rewrite length_replicate; lia].
    rewrite length_replicate in Hin. replace (off1 + (block_end r1 - off1)) with (block_end r1) in Hin by lia.
    destruct (IH (set_cursor (block_end r1) r1) _ _ (or_introl Hin) ltac:(lia)) as (r' & Hr' & Hm').
    exists r'. split; [exact Hr'|]. destruct Hm as (?&?&?&?), Hm' as (?&?&?&?). cbn in *.
    split_and!; congruence. }
  unfold read_step.
  destruct (Nat.ltb_spec (block_end r) (block_cursor r + HEADER_SIZE)) as [Hlt|Hge].
  - destruct (view_zeros _ _ _ Hv) as (m & Hd & Hn).
    pose proof (next_block_zeros r m Hok Hd) as H1. destruct (read_next_block r) as [ok r1].
    destruct H1 as [Hin Hm]. destruct (Nat.ltb_spec (block_end r1) (block_cursor r1 + HEADER_SIZE)).
    + rewrite orb_true_r. by exists r1.
    + rewrite orb_false_r. destruct ok; cbn [negb]; [|by exists r1]. eapply Hhdr; [done|lia|done|lia].
  - destruct Hv as [Hin|(_ & _ & Hc & _)]; [|unfold HEADER_SIZE in *; lia].
    eapply Hhdr; [done|lia|by split_and!|lia].
Qed.

(** * Properties *)

(** C34: recovery always returns. For every file, however damaged, and every
    way the stream splits its reads, the walk ends within one turn per byte of
    the file, each turn being a [read_record] that itself returns. *)
Theorem recovery_terminates `{Crc32c} data sched :
  ∃ out err r, collect_prefix_all (reader_new (mkSrc data sched)) = Some (out, err, r).
Proof.
  destruct (collect_prefix_loop_ok (S (remaining (reader_new (mkSrc data sched))))
              (mkWalk [] 0 false (reader_new (mkSrc data sched))))
    as (out & err & r & H1 & _); [apply reader_new_ok|cbn; lia|]. by exists out, err, r.
Qed.

(** The log alone, or with zeros after it, yields exactly its records. *)
Lemma layout_recovers `{Crc32c} recs fs off' sched zeros :
  layout 0 recs fs off' → frames_readable fs →
  ∃ r, collect_all (reader_new (mkSrc (frames_bytes fs ++ replicate zeros x00) sched)) =
         Some (Ok recs, r) ∧
       last_good_offset r = Z.of_nat (length (frames_bytes fs)) ∧
       resync_origin r = None ∧ pending_resync r = None.
Proof.
  intros Hl Hr.
  destruct (collect_prefix_layout recs fs off' (replicate zeros x00) sched Hl Hr)
    as (r & k & m & off'' & Hc & Hm & Hv & Hpr & Hor & Hlg & _).
  unfold collect_all. rewrite Hc. destruct m as [|m]; [lia|]. cbn [collect_loop].
  unfold collect_step. cbn [wk_reader].
  destruct (read_loop_zeros (S (remaining r)) r off'' zeros Hv
              ltac:(rewrite (view_remaining _ _ _ Hv); len)) as (r' & Hrd & _ & Hlg' & _ & Hor').
  unfold read_record. rewrite Hrd. cbn.
  eexists. split; [reflexivity|]. cbn. split_and!; [congruence|congruence|done].
Qed.

(** The records of a log come first, whatever follows it. *)
Lemma layout_recovers_prefix `{Crc32c} recs fs off' sched tail :
  layout 0 recs fs off' → frames_readable fs →
  ∃ more err r, collect_prefix_all (reader_new (mkSrc (frames_bytes fs ++ tail) sched)) =
    Some (recs ++ more, err, r).
Proof.
  intros Hl Hr.
  destruct (collect_prefix_layout recs fs off' tail sched Hl Hr)
    as (r & k & m & off'' & -> & Hm & Hv & _).
  destruct (collect_prefix_loop_ok m (mkWalk recs k false r)) as (out & err & r' & -> & more & Hp).
  { by eapply view_reader_ok. }
  { cbn. rewrite (view_remaining _ _ _ Hv). done. }
  exists more, err, r'. cbn in Hp. by rewrite Hp.
Qed.

(** ** Where an error is found *)

(** The offset of the end of the file, which no turn changes. *)
Definition end_offset (r : WalReader) : Z :=
  (block_start_offset r + Z.of_nat (block_end r) + Z.of_nat (length (src_data (src r))))%Z.

Lemma offset_remaining r :
  reader_ok r → (current_record_stream_offset r + Z.of_nat (remaining r) = end_offset r)%Z.
Proof. unfold reader_ok, end_offset, current_record_stream_offset, remaining. lia. Qed.

(** A turn keeps the end, and reports a truncation where it stands. *)
Definition located (r : WalReader) (o : StepOut) (r' : WalReader) : Prop :=
  end_offset r' = end_offset r ∧ ∀ t, o = SDone (Err (Truncated t)) → t = current_record_stream_offset r'.

Lemma read_next_block_end r : reader_ok r → end_offset (read_next_block r).2 = end_offset r.
Proof.
  intros [Hb _]. pose proof (read_next_block_spec r Hb) as H. destruct (read_next_block r) as [ok r']. cbn [snd].
  destruct H as (_ & He & _ & _ & _ & Hd & _ & Hs & _). unfold end_offset. rewrite Hs, He, Hd. len.
Qed.

Lemma read_header_located `{Crc32c} r : let '(o, r') := read_header r in located r o r'.
Proof.
  assert (let '(o, r') := read_physical r in located r o r') as Hp.
  { unfold read_physical. destruct (_ && _); [destruct (existsb _ _); by split|].
    destruct (from_byte _) as [rtype|]; [|by split].
    destruct (physical_payload_act _ _ _ _ _); [| |split; [done|]; by intros t [= <-]|by split].
    - destruct (negb _); [by split|]. unfold apply_fragment. destruct (fragment_act _ _); repeat case_decide; by split.
    - destruct (_ <? _); by split. }
  unfold read_header. destruct (_ && _); [|done]. destruct (parse_frame_or_seal _); [by split|done|by split].
Qed.

Lemma read_step_located `{Crc32c} r : reader_ok r → let '(o, r') := read_step r in located r o r'.
Proof.
  intros Hr. unfold read_step. destruct (_ <? _); [|apply read_header_located].
  pose proof (read_next_block_end r Hr) as He. destruct (read_next_block r) as [ok r1]. cbn [snd] in He.
  destruct (negb ok || _); [by split|]. pose proof (read_header_located r1) as Hl.
  destruct (read_header r1) as [o r2]. destruct Hl as [H1 H2]. split; [congruence|done].
Qed.

Lemma read_loop_located `{Crc32c} fuel r x r' :
  reader_ok r → read_loop fuel r = Some (x, r') → located r (SDone x) r'.
Proof.
  revert r. induction fuel as [|n IH]; intros r Hr E; [done|]. cbn [read_loop] in E.
  pose proof (read_step_ok r Hr) as H1. pose proof (read_step_located r Hr) as H2.
  destruct (read_step r) as [[y|] r1]; [by simplify_eq|].
  destruct H1 as [Hr1 _], H2 as [He _]. destruct (IH r1 Hr1 E) as [H1 H2]. split; [congruence|done].
Qed.

(** A truncation the walk ends with lies at or behind where the walk stood. *)
Lemma collect_loop_truncated `{Crc32c} fuel w out t r :
  reader_ok (wk_reader w) → collect_loop fuel w = Some (out, Some (Truncated t), r) →
  (current_record_stream_offset (wk_reader w) ≤ t)%Z.
Proof.
  revert w. induction fuel as [|n IH]; intros w Hr E; [done|]. cbn [collect_loop] in E.
  destruct (read_loop_ok (S (remaining (wk_reader w))) _ Hr ltac:(lia)) as (o & r1 & Ho & Hr1 & Hm).
  pose proof (read_loop_located _ _ _ _ Hr Ho) as [He Ht].
  pose proof (offset_remaining _ Hr) as Ew. pose proof (offset_remaining _ Hr1) as E1.
  destruct (collect_step_ok w Hr) as (x & Hx & Hok). rewrite Hx in E. cbn [mbind option_bind] in E.
  assert (remaining r1 ≤ remaining (wk_reader w)) as Hrem by (destruct o as [[|]|]; cbn in Hm; lia).
  destruct x as [w'|[[out' err] r2]].
  - destruct Hok as (Hr' & Hlt & _). specialize (IH w' Hr' E).
    assert (end_offset (wk_reader w') = end_offset (wk_reader w)) as Hend; [|pose proof (offset_remaining _ Hr'); lia].
    clear -Hx Ho He Hr1. unfold collect_step, read_record in Hx. rewrite Ho in Hx. cbn [mbind option_bind] in Hx.
    assert (∀ ok r3, skip_byte_for_resync r1 = (ok, r3) → end_offset r3 = end_offset r1) as Hsk.
    { intros ok r3. unfold skip_byte_for_resync. destruct (_ <? _); [by intros [= _ <-]|]. intros Es.
      pose proof (read_next_block_end (set_scratch [] r1) Hr1) as Hn. by rewrite Es in Hn. }
    assert (∀ lg p q r3, end_offset (set_resync lg p q r3) = end_offset r3) as Hset by done.
    repeat (case_match; simplify_eq; try done); cbn [wk_reader]; rewrite Hset, <-He; try done; by eapply Hsk.
  - injection E as <- -> <-. unfold collect_step, read_record in Hx. rewrite Ho in Hx. cbn [mbind option_bind] in Hx.
    assert (o = Err (Truncated t)) as ->; [|rewrite (Ht t eq_refl); lia].
    clear -Hx. repeat (case_match; simplify_eq; try done).
Qed.

(** Behind intact records a truncation is never reported at the start. *)
Lemma layout_truncated_late `{Crc32c} recs fs off' sched tail out t r :
  layout 0 recs fs off' → frames_readable fs →
  collect_prefix_all (reader_new (mkSrc (frames_bytes fs ++ tail) sched)) = Some (out, Some (Truncated t), r) →
  (Z.of_nat (length (frames_bytes fs)) ≤ t)%Z.
Proof.
  intros Hl Hr E. destruct (collect_prefix_layout recs fs off' tail sched Hl Hr)
    as (r' & k & m & off'' & Hc & Hm & Hv & _ & _ & _ & _ & Hcur).
  rewrite Hc in E. apply collect_loop_truncated in E; [|by eapply view_reader_ok]. cbn in E. lia.
Qed.

(** The log round trip. Records appended to an empty log are recovered
    exactly, in order and without error, from the bytes written, also when
    preallocated zeros follow and whatever the read sizes; the reported good
    offset is the length of the log and no resync is reported. *)
Theorem wal_round_trip `{Crc32c} recs fs off' sched zeros :
  layout 0 recs fs off' → frames_readable fs →
  append_records 0 recs [] = Some (off', frames_bytes fs) ∧
  ∃ r, collect_all (reader_new (mkSrc (frames_bytes fs ++ replicate zeros x00) sched)) =
         Some (Ok recs, r) ∧
       last_good_offset r = Z.of_nat (length (frames_bytes fs)) ∧
       resync_origin r = None ∧ pending_resync r = None.
Proof.
  intros Hl Hr. split.
  { destruct (append_records_layout 0 recs [] ltac:(lia)) as (fs' & o & -> & Hl' & _).
    by destruct (layout_functional _ _ _ _ _ _ Hl Hl') as [-> ->]. }
  by apply layout_recovers with off'.
Qed.

(** C22: durability of the log's prefix. The bytes that [fragment_into] lays out
    for records that can be read back ([log_readable]: no frame checksum is the
    seal's, no record starts with only a header's room left in its block) are
    followed by anything at all (a torn write, garbage, another epoch's data):
    recovery returns, and those records are the first it yields, in order. *)
Theorem wal_durable_prefix `{Crc32c} recs sched tail :
  log_readable recs →
  ∃ o bytes more err r, append_records 0 recs [] = Some (o, bytes) ∧
    collect_prefix_all (reader_new (mkSrc (bytes ++ tail) sched)) = Some (recs ++ more, err, r).
Proof.
  intros (fs & o & Hl & Hrd).
  destruct (append_records_layout 0 recs [] ltac:(lia)) as (fs' & o' & E & Hl' & _).
  destruct (layout_functional _ _ _ _ _ _ Hl Hl') as [-> ->].
  destruct (layout_recovers_prefix _ _ _ sched tail Hl' Hrd) as (more & err & r & Hc).
  by exists o', (frames_bytes fs'), more, err, r.
Qed.

(** A continuation fragment with nothing in progress is an orphan. *)
Lemma read_step_orphan `{Crc32c} r off f tail :
  view r off (frame_bytes f ++ tail) → off ≤ BLOCK_SIZE → fr_pad f = pad_len off →
  length (fr_payload f) ≤ BLOCK_SIZE - pad_off off - HEADER_SIZE →
  fr_type f = RMiddle ∨ fr_type f = RLast → frame_checksum f ≠ SEAL_MAGIC → scratch r = [] →
  ∃ msg r', read_step r = (SDone (Err (Internal msg)), r') ∧ msg_contains "orphan" msg = true.
Proof.
  intros Hv Ho Hpad Hfit Ht Hseal Hsc.
  destruct (read_step_frame r off f tail Hv Ho Hpad Hfit) as (r1 & -> & _ & (Hsc1 & _) & _).
  { split; [by destruct Ht as [-> | ->]|done]. }
  unfold apply_fragment. rewrite Hsc1, Hsc.
  destruct Ht as [-> | ->]; by eexists _, _.
Qed.

Lemma pad_header_room :
  pad_len (BLOCK_SIZE - HEADER_SIZE) = 0 ∧
  pad_off (BLOCK_SIZE - HEADER_SIZE) = BLOCK_SIZE - HEADER_SIZE.
Proof.
  pose proof BLOCK_SIZE_val. unfold pad_len, pad_off.
  by rewrite (proj2 (Nat.ltb_ge _ _)) by (unfold HEADER_SIZE; lia).
Qed.

(** With a header's worth of room, a non-empty record starts with an empty
    fragment and continues at the next block. *)
Lemma plan_empty_first d fs off2 :
  d ≠ [] → plan (BLOCK_SIZE - HEADER_SIZE) true d fs off2 →
  ∃ g gs, fs = mkFrame 0 RFirst [] :: g :: gs ∧ (fr_type g = RMiddle ∨ fr_type g = RLast) ∧
    fr_pad g = pad_len BLOCK_SIZE ∧
    length (fr_payload g) ≤ BLOCK_SIZE - pad_off BLOCK_SIZE - HEADER_SIZE.
Proof.
  intros Hd Hp. pose proof BLOCK_SIZE_val. destruct pad_header_room as [Hpl Hpo].
  remember (BLOCK_SIZE - HEADER_SIZE) as o eqn:Eo.
  inversion Hp as [? ? ? Ho Hd1|? ? d1 d2 fs' ? Ho Hd1 Hd2 Hp2]; subst d fs; rewrite Hpo, Eo in Hd1.
  { destruct data; [done|]. cbn [length] in Hd1. lia. }
  assert (d1 = []) as -> by (destruct d1; [done|cbn [length] in Hd1; lia]). rewrite Hpl.
  clear Hd1. remember BLOCK_SIZE as b eqn:Eb in Hp2.
  inversion Hp2 as [? ? ? ? Hd3|? ? d3 ? ? ? ? Hd3]; subst.
  { eexists _, _; cbn [fr_type fr_pad fr_payload]; (split_and!; [reflexivity|by right|reflexivity|exact Hd3]). }
  eexists _, _; cbn [fr_type fr_pad fr_payload]; (split_and!; [reflexivity|by left|reflexivity|cbn [fr_payload]; lia]).
Qed.

(** The gap in the format. When exactly a header's worth of bytes is left
    in the block and the next record is not empty, the writer emits an empty
    first fragment; the reader, which detects a record in progress by a
    non-empty scratch buffer, then rejects the continuation as an orphan and
    recovery fails although every byte is intact. *)
Theorem empty_first_fragment_rejected `{Crc32c} recs fs d f gs off2 sched :
  layout 0 recs fs (BLOCK_SIZE - HEADER_SIZE) → frames_readable fs → recs ≠ [] → d ≠ [] →
  plan (BLOCK_SIZE - HEADER_SIZE) true d (f :: gs) off2 →
  Forall (λ g, frame_checksum g ≠ SEAL_MAGIC) (f :: gs) →
  fr_type f = RFirst ∧ fr_payload f = [] ∧
  ∃ at_ r, collect_prefix_all (reader_new (mkSrc (frames_bytes fs ++ frames_bytes (f :: gs)) sched)) =
    Some (recs, Some (Internal at_), r) ∧ msg_contains "orphan" at_ = true.
Proof.
  intros Hl Hr Hne Hd Hp Hs. pose proof BLOCK_SIZE_val. destruct pad_header_room as [Hpl Hpo].
  destruct (plan_empty_first _ _ _ Hd Hp) as (g & gs' & E & Ht & Hgp & Hgl).
  injection E as -> ->. split; [done|]. split; [done|].
  apply Forall_cons in Hs as [Hs1 Hs]. apply Forall_cons in Hs as [Hsg _].
  destruct (collect_prefix_layout recs fs _ (frames_bytes (mkFrame 0 RFirst [] :: g :: gs')) sched Hl Hr)
    as (r & k & m & off'' & -> & Hm & Hv & _ & _ & _ & Hoff & _). rewrite (Hoff Hne) in Hv.
  rewrite !frames_bytes_cons in Hv.
  edestruct (read_step_frame r _ _ _ Hv) as (r1 & Hst & Hv1 & _ & _);
    [lia|by rewrite Hpl|cbn [length fr_payload]; lia|by split|].
  destruct (read_step_orphan (set_scratch [] r1) BLOCK_SIZE g (frames_bytes gs'))
    as (msg & r2 & Hst2 & Hmsg); [|lia|exact Hgp|exact Hgl|exact Ht|exact Hsg|reflexivity|].
  { apply view_set_scratch. cbn [length fr_payload] in Hv1.
    replace (pad_off (BLOCK_SIZE - HEADER_SIZE) + HEADER_SIZE + 0) with BLOCK_SIZE in Hv1;
      [exact Hv1|]. rewrite Hpo. unfold HEADER_SIZE. lia. }
  assert (read_record r = Some (Err (Internal msg), r2)) as Hrd.
  { apply (read_loop_record 2); [by eapply view_reader_ok|]. cbn [read_loop].
    rewrite Hst. cbn. by rewrite Hst2. }
  exists msg, r2. split; [|done]. destruct m as [|m]; [lia|]. cbn [collect_loop].
  unfold collect_step. cbn [wk_reader wk_in_resync]. rewrite Hrd. cbn. by rewrite Hmsg.
Qed.

(** * Witnesses *)

Definition sample_recs : list (list byte) := [[x61]; []; [x62; x63]].

(** A record that fits the room left is one full frame. *)
Lemma layout_full off d recs fs off' :
  off + HEADER_SIZE + length d ≤ BLOCK_SIZE →
  layout (off + HEADER_SIZE + length d) recs fs off' →
  layout off (d :: recs) (mkFrame 0 RFull d :: fs) off'.
Proof.
  intros Ho Hl. assert (pad_len off = 0 ∧ pad_off off = off) as [Hpl Hpo].
  { unfold pad_len, pad_off. by rewrite (proj2 (Nat.ltb_ge _ _)) by lia. }
  apply (layout_cons off d [mkFrame 0 RFull d] (off + HEADER_SIZE + length d) recs fs); [|lia|done].
  rewrite <-Hpl. rewrite <-Hpo at 3. apply (plan_last off true); [lia|]. rewrite Hpo. lia.
Qed.

Lemma sample_layout :
  layout 0 sample_recs (mkFrame 0 RFull <$> sample_recs) (3 * HEADER_SIZE + 3).
Proof.
  pose proof BLOCK_SIZE_val. cbn [fmap list_fmap sample_recs].
  repeat (apply layout_full; [unfold HEADER_SIZE; cbn [length]; lia|]).
  apply layout_nil. unfold HEADER_SIZE. cbn [length]. lia.
Qed.

Lemma sample_readable : @frames_readable crc32c_bitwise (mkFrame 0 RFull <$> sample_recs).
Proof. repeat constructor; vm_compute; discriminate. Qed.

Lemma wal_round_trip_witness :
  ∃ r, @collect_all crc32c_bitwise
         (reader_new (mkSrc (@frames_bytes crc32c_bitwise (mkFrame 0 RFull <$> sample_recs) ++
                             replicate 9 x00) [0; 2; 0])) = Some (Ok sample_recs, r).
Proof.
  destruct (proj2 (@wal_round_trip crc32c_bitwise _ _ _ [0; 2; 0] 9 sample_layout sample_readable))
    as (r & Hr & _). by exists r.
Defined.

Lemma wal_durable_prefix_witness :
  ∃ o bytes more err r, @append_records crc32c_bitwise 0 sample_recs [] = Some (o, bytes) ∧
    @collect_prefix_all crc32c_bitwise
      (reader_new (mkSrc (bytes ++ [xff; x01; xff; xff; xff; xff; xff; xff; xff]) [])) =
    Some (sample_recs ++ more, err, r).
Proof.
  apply (@wal_durable_prefix crc32c_bitwise sample_recs [] [xff; x01; xff; xff; xff; xff; xff; xff; xff]).
  eexists _, _. split; [exact sample_layout|exact sample_readable].
Defined.

(** A first record that leaves a header's worth of the block, and a one-byte
    record after it. *)
Definition long_rec : list byte := replicate (BLOCK_SIZE - 2 * HEADER_SIZE) x2a.

Lemma long_layout :
  layout 0 [long_rec] [mkFrame 0 RFull long_rec] (BLOCK_SIZE - HEADER_SIZE).
Proof.
  pose proof BLOCK_SIZE_val.
  apply layout_full; [unfold long_rec, HEADER_SIZE; len|].
  assert (0 + HEADER_SIZE + length long_rec = BLOCK_SIZE - HEADER_SIZE) as ->
    by (unfold long_rec, HEADER_SIZE; len).
  constructor. lia.
Qed.

Lemma empty_first_fragment_rejected_witness :
  ∃ fs gs at_ r,
    layout 0 [long_rec] fs (BLOCK_SIZE - HEADER_SIZE) ∧
    @collect_prefix_all crc32c_bitwise
      (reader_new (mkSrc (@frames_bytes crc32c_bitwise fs ++ @frames_bytes crc32c_bitwise gs) [])) =
      Some ([long_rec], Some (Internal at_), r).
Proof.
  pose proof BLOCK_SIZE_val. destruct pad_header_room as [Hpl Hpo].
  exists [mkFrame 0 RFull long_rec], [mkFrame 0 RFirst []; mkFrame (pad_len BLOCK_SIZE) RLast [x2a]].
  destruct (@empty_first_fragment_rejected crc32c_bitwise [long_rec] [mkFrame 0 RFull long_rec] [x2a]
              (mkFrame 0 RFirst []) [mkFrame (pad_len BLOCK_SIZE) RLast [x2a]]
              (pad_off BLOCK_SIZE + HEADER_SIZE + 1) [] long_layout) as (_ & _ & at_ & r & Hr & _).
  - repeat constructor; [vm_compute|]; discriminate.
  - discriminate.
  - discriminate.
  - pose proof (plan_more (BLOCK_SIZE - HEADER_SIZE) true [] [x2a]) as Hm. rewrite Hpl in Hm.
    apply Hm; [lia|rewrite Hpo; cbn [length]; lia|discriminate|].
    apply (plan_last BLOCK_SIZE false [x2a]); [lia|].
    pose proof (pad_off_bound BLOCK_SIZE). unfold pad_off, HEADER_SIZE in *. cbn [length].
    rewrite Nat.sub_diag. cbn [Nat.ltb Nat.leb]. lia.
  - repeat constructor; vm_compute; discriminate.
  - exists at_, r. split; [exact long_layout|exact Hr].
Defined.
