(* ===== verification/Visibility.v ===== *)
(** Snapshot visibility: the decisions of [merge_kernel.rs] and its reference
    range read [visible_range].

    A database layer is a list of entries (internal key, value). The value of a
    range-deletion entry is the exclusive end of the deleted range. A
    [BTreeMap<InternalKey, Bytes>] is the list of its entries in key order. *)

From S2P Require Import Prelude ErrorKernel KeyKernel.

Local Open Scope Z_scope.

Abbreviation entry := (InternalKey * list byte)%type.

Record VisibleKv := mkVisible { kv_key : list byte; kv_value : list byte }.

Record RangeTombstone := mkTomb { rt_start : list byte; rt_end : list byte; rt_sequence : Z }.

(** [std::ops::Bound<&[u8]>]. *)
Inductive Bound := Unbounded | Included (b : list byte) | Excluded (b : list byte).

(** * Decisions *)

Definition range_tombstone_covers (start end_ key : list byte) : bool :=
  bytes_leb start key && bytes_ltb key end_.
Definition range_tombstone_covers_as_is (start _end key : list byte) : bool :=
  bytes_eqb key start.

Definition write_op_covers_key (kind : ValueType) (start end_ key : list byte) : bool :=
  match kind with
  | RangeDeletion => range_tombstone_covers start end_ key
  | Value | Deletion => bytes_eqb start key
  end.
Definition write_op_covers_key_as_is (kind : ValueType) (start end_ key : list byte) : bool :=
  match kind with
  | RangeDeletion => range_tombstone_covers_as_is start end_ key
  | Value | Deletion => false
  end.

Definition write_op_range_end (kind : ValueType) (value : list byte) : option (list byte) :=
  match kind with
  | RangeDeletion => Some value
  | Value | Deletion => None
  end.
Definition write_op_range_end_as_is (_kind : ValueType) (_value : list byte) : option (list byte) :=
  None.

(** [visible_at], mutation switch off. *)
Definition visible_at (kind : ValueType) (range_hidden : bool) : bool :=
  match kind with
  | Value => negb range_hidden
  | Deletion | RangeDeletion => false
  end.
Definition visible_at_as_is (_kind : ValueType) (_range_hidden : bool) : bool := true.

(** [get_live]: the loop runs to the end but only the first version decides. *)
Fixpoint get_live_loop (kinds : list ValueType) (hiddens : list bool) (live decided : bool) : bool :=
  match kinds, hiddens with
  | k :: ks, h :: hs =>
      if negb decided then get_live_loop ks hs (visible_at k h) true
      else get_live_loop ks hs live decided
  | _, _ => live
  end.
Definition get_live (kinds : list ValueType) (hiddens : list bool) : bool :=
  get_live_loop kinds hiddens false false.
Definition get_live_as_is (_kinds : list ValueType) (_hiddens : list bool) : bool := true.

Definition iter_window_keep (snapshot_live : bool) : bool := snapshot_live.
Definition iter_window_keep_as_is (_snapshot_live : bool) : bool := true.

Definition covers (t : RangeTombstone) (user_key : list byte) : bool :=
  range_tombstone_covers (rt_start t) (rt_end t) user_key.

Definition user_key_in_range (user_key : list byte) (start end_ : Bound) : bool :=
  let after_start :=
    match start with
    | Unbounded => true
    | Included s => bytes_leb s user_key
    | Excluded s => bytes_ltb s user_key
    end in
  let before_end :=
    match end_ with
    | Unbounded => true
    | Included e => bytes_leb user_key e
    | Excluded e => bytes_ltb user_key e
    end in
  after_start && before_end.

Definition past_end (user_key : list byte) (end_ : Bound) : bool :=
  match end_ with
  | Unbounded => false
  | Included e => bytes_ltb e user_key
  | Excluded e => bytes_leb e user_key
  end.

Definition tomb_of (e : entry) : RangeTombstone :=
  mkTomb (user_key e.1) e.2 (sequence e.1).

(** [collect_range_tombstones]. *)
Fixpoint collect_range_tombstones (entries : list entry) (snapshot : Z) : list RangeTombstone :=
  match entries with
  | [] => []
  | e :: entries =>
      if bool_decide (kind e.1 ≠ RangeDeletion) || (snapshot <? sequence e.1)
      then collect_range_tombstones entries snapshot
      else tomb_of e :: collect_range_tombstones entries snapshot
  end.

Definition range_deleted (user_key : list byte) (point_seq : Z) (tombstones : list RangeTombstone)
    : bool :=
  existsb (λ t, covers t user_key && (point_seq <? rt_sequence t)) tombstones.

(** * [visible_range_limited] *)

(** [BTreeMap::insert]: an equal key keeps its place and takes the new value. *)
Fixpoint bt_insert (k : InternalKey) (v : list byte) (m : list entry) : list entry :=
  match m with
  | [] => [(k, v)]
  | (k', v') :: m' =>
      match ikey_cmp k k' with
      | Lt => (k, v) :: m
      | Eq => (k', v) :: m'
      | Gt => (k', v') :: bt_insert k v m'
      end
  end.

(** The collecting loop. *)
Fixpoint gather (entries : list entry) (snapshot : Z) (start end_ : Bound)
    (map : list entry) (range_dels : list RangeTombstone) : list entry * list RangeTombstone :=
  match entries with
  | [] => (map, range_dels)
  | (ikey, value) :: entries =>
      if snapshot <? sequence ikey then gather entries snapshot start end_ map range_dels
      else if bool_decide (kind ikey = RangeDeletion) then
        gather entries snapshot start end_ map (range_dels ++ [tomb_of (ikey, value)])
      else if negb (user_key_in_range (user_key ikey) start end_) then
        gather entries snapshot start end_ map range_dels
      else gather entries snapshot start end_ (bt_insert ikey value map) range_dels
  end.

(** [while let Some((next, _)) = iter.peek()]: skip older versions of the key. *)
Fixpoint skip_user (u : list byte) (l : list entry) : list entry :=
  match l with
  | (k, v) :: l' => if bytes_eqb (user_key k) u then skip_user u l' else l
  | [] => []
  end.

(** The emitting loop, one turn per distinct user key (at most one per entry). *)
Fixpoint emit_loop (fuel : nat) (limit : option nat) (range_dels : list RangeTombstone)
    (l : list entry) (out : list VisibleKv) : list VisibleKv :=
  match fuel, l with
  | S n, (ikey, value) :: l' =>
      if match limit with Some max => (max <=? length out)%nat | None => false end then out
      else
        let range_hidden := range_deleted (user_key ikey) (sequence ikey) range_dels in
        let snapshot_live := get_live [kind ikey] [range_hidden] in
        let out := if iter_window_keep snapshot_live
                   then out ++ [mkVisible (user_key ikey) value] else out in
        emit_loop n limit range_dels (skip_user (user_key ikey) l') out
  | _, _ => out
  end.

Definition visible_range_limited (entries : list entry) (snapshot : Z) (start end_ : Bound)
    (limit : option nat) : list VisibleKv :=
  let '(map, range_dels) := gather entries snapshot start end_ [] [] in
  emit_loop (length map) limit range_dels map [].

Definition visible_range (entries : list entry) (snapshot : Z) (start end_ : Bound)
    : list VisibleKv :=
  visible_range_limited entries snapshot start end_ None.

(** * What a read should return *)

(** A version of [uk] the snapshot can see. *)
Definition candidate (entries : list entry) (snapshot : Z) (uk : list byte) (e : entry) : Prop :=
  e ∈ entries ∧ user_key e.1 = uk ∧ kind e.1 ≠ RangeDeletion ∧ sequence e.1 ≤ snapshot.

(** A range deletion the snapshot can see that hides sequence [s] of [uk]. *)
Definition hidden (entries : list entry) (snapshot : Z) (uk : list byte) (s : Z) : Prop :=
  ∃ k v, (k, v) ∈ entries ∧ kind k = RangeDeletion ∧ sequence k ≤ snapshot ∧ s < sequence k ∧
         range_tombstone_covers (user_key k) v uk = true.

(** The newest version of [uk] at the snapshot is a value [v], not hidden. *)
Definition reads (entries : list entry) (snapshot : Z) (uk v : list byte) : Prop :=
  ∃ e, candidate entries snapshot uk e ∧ e.2 = v ∧ kind e.1 = Value ∧
    (∀ e', candidate entries snapshot uk e' → ¬ ikey_lt e'.1 e.1) ∧
    ¬ hidden entries snapshot uk (sequence e.1).

(** The result of a range read: the visible pairs in range, once each, in key
    order. *)
Definition range_result (entries : list entry) (snapshot : Z) (start end_ : Bound)
    (out : list VisibleKv) : Prop :=
  StronglySorted bytes_lt (kv_key <$> out) ∧
  ∀ k v, mkVisible k v ∈ out ↔
    user_key_in_range k start end_ = true ∧ reads entries snapshot k v.

(** Layers agree on the value of a version. *)
Definition coherent (entries : list entry) : Prop :=
  ∀ k v v', (k, v) ∈ entries → (k, v') ∈ entries → v = v'.

(** Every range deletion ends after it starts, as [delete_range_with] checks. *)
Definition proper_ranges (log : list entry) : Prop :=
  ∀ e, e ∈ log → kind e.1 = RangeDeletion → bytes_lt (user_key e.1) e.2.

(** * Lemmas *)

(** ** Ordered maps *)

Lemma bt_insert_elem k v m e :
  StronglySorted ikey_lt m.*1 →
  e ∈ bt_insert k v m ↔ e = (k, v) ∨ e ∈ m ∧ e.1 ≠ k.
Proof.
  induction m as [|[k' v'] m IH]; intros Hs; cbn [bt_insert]; [set_solver|].
  apply StronglySorted_inv in Hs as [Hs Hk]. rewrite Forall_forall in Hk.
  destruct (ikey_cmp k k') eqn:E.
  - apply ikey_cmp_eq in E as ->. rewrite !elem_of_cons. split.
    + intros [->|He]; [by left|right]. split; [by right|]. intros Heq.
      apply (ikey_lt_irrefl k'). apply Hk. rewrite <-Heq. by apply list_elem_of_fmap_2.
    + intros [->|[[->|He] Hne]]; [by left|done|by right].
  - fold (ikey_lt k k') in E. rewrite !elem_of_cons. split.
    + intros [->|[->|He]]; [by left| |].
      * right. split; [by left|]. cbn. intros ->. by apply ikey_lt_irrefl in E.
      * right. split; [by right|]. intros Heq.
        assert (ikey_lt k' e.1) as Hlt by (apply Hk; by apply list_elem_of_fmap_2).
        rewrite Heq in Hlt. apply (ikey_lt_irrefl k'). by etrans.
    + intros [->|[[->|He] _]]; [by left|by right; left|by right; right].
  - rewrite !elem_of_cons, IH by done. split.
    + intros [->|[->|[??]]]; [|by left|naive_solver]. right. split; [by left|]. cbn.
      intros ->. by rewrite ikey_cmp_refl in E.
    + naive_solver.
Qed.

Lemma bt_insert_keys k v m x :
  x ∈ (bt_insert k v m).*1 → x = k ∨ x ∈ m.*1.
Proof.
  induction m as [|[k' v'] m IH]; cbn [bt_insert]; [set_solver|].
  destruct (ikey_cmp k k'); cbn; set_solver.
Qed.

Lemma bt_insert_sorted k v m :
  StronglySorted ikey_lt m.*1 → StronglySorted ikey_lt (bt_insert k v m).*1.
Proof.
  induction m as [|[k' v'] m IH]; intros Hs; cbn [bt_insert]; [by repeat constructor|].
  pose proof Hs as Hs0. apply StronglySorted_inv in Hs as [Hs Hk].
  destruct (ikey_cmp k k') eqn:E; cbn.
  - by constructor.
  - constructor; [done|]. constructor; [done|].
    eapply Forall_impl; [done|]. intros x Hx. by trans k'.
  - constructor; [by apply IH|]. apply Forall_forall. intros x [->|Hx]%bt_insert_keys.
    + by apply ikey_cmp_gt.
    + rewrite Forall_forall in Hk. by apply Hk.
Qed.

(** ** Layers in key order *)

Lemma sorted_sub_head (l : list entry) (e : entry) :
  StronglySorted ikey_lt l.*1 →
  head l = Some e ↔ e ∈ l ∧ ∀ e', e' ∈ l → ¬ ikey_lt e'.1 e.1.
Proof.
  destruct l as [|x l]; intros Hs; cbn; [set_solver|]. cbn in Hs.
  apply StronglySorted_inv in Hs as [_ Hx]. rewrite Forall_forall in Hx.
  assert (∀ y, y ∈ l → ikey_lt x.1 y.1) as Hx' by (intros; apply Hx; by apply list_elem_of_fmap_2).
  split.
  - intros [= <-]. split; [set_solver|]. intros e' [->|He]%elem_of_cons; [apply ikey_lt_irrefl|].
    apply ikey_not_lt. right. by apply Hx'.
  - intros [[->|He]%elem_of_cons Hmin]; [done|]. exfalso. apply (Hmin x); [set_solver|by apply Hx'].
Qed.

Lemma sorted_lt_filter (P : entry → Prop) `{∀ e, Decision (P e)} (s : list entry) :
  StronglySorted ikey_lt s.*1 → StronglySorted ikey_lt (filter P s).*1.
Proof.
  induction s as [|x s IH]; intros Hs; [constructor|]. cbn in Hs.
  apply StronglySorted_inv in Hs as [Hs Hx]. rewrite filter_cons. case_decide; [|by apply IH].
  cbn. constructor; [by apply IH|]. rewrite Forall_forall in Hx |- *.
  intros k (y & -> & [_ Hy]%list_elem_of_filter)%list_elem_of_fmap. apply Hx. by apply list_elem_of_fmap_2.
Qed.

Lemma sorted_sublist (a b : list entry) :
  a `sublist_of` b → StronglySorted ikey_lt b.*1 → StronglySorted ikey_lt a.*1.
Proof.
  induction 1 as [|x a b Hab IH|x a b Hab IH]; intros Hs; [done| |]; cbn in Hs |- *;
    apply StronglySorted_inv in Hs as [Hs Hx]; [|by apply IH].
  constructor; [by apply IH|]. rewrite Forall_forall in Hx |- *.
  intros k (y & -> & Hy)%list_elem_of_fmap. apply Hx, list_elem_of_fmap_2. by eapply elem_of_sublist.
Qed.

Lemma sorted_keys_nodup_keys (l : list entry) : StronglySorted ikey_lt l.*1 → NoDup l.*1.
Proof.
  generalize l.*1. intros ks. induction 1 as [|k ks ? IH Hk]; constructor; [|done].
  intros Hin. rewrite Forall_forall in Hk. by apply (ikey_lt_irrefl k), Hk.
Qed.

Lemma sorted_unique (a b : list entry) :
  StronglySorted ikey_lt a.*1 → StronglySorted ikey_lt b.*1 → (∀ e, e ∈ a ↔ e ∈ b) → a = b.
Proof.
  revert b. induction a as [|x a IH]; intros [|y b] Ha Hb Hab.
  - done.
  - exfalso. apply (not_elem_of_nil y), Hab. set_solver.
  - exfalso. apply (not_elem_of_nil x), Hab. set_solver.
  - pose proof Ha as Ha0. pose proof Hb as Hb0.
    cbn in Ha, Hb. apply StronglySorted_inv in Ha as [Ha Hx], Hb as [Hb Hy].
    assert (x = y) as ->.
    { assert (head (x :: a) = Some x) as Hhx by done. apply sorted_sub_head in Hhx as [Hxin Hxmin]; [|done].
      assert (head (y :: b) = Some y) as Hhy by done. apply sorted_sub_head in Hhy as [Hyin Hymin]; [|done].
      assert (head (x :: a) = Some y) as Hxy; [|by injection Hxy].
      apply sorted_sub_head; [done|]. split; [by apply Hab|]. intros e He. by apply Hymin, Hab. }
    f_equal. apply IH; [done|done|]. intros e. rewrite Forall_forall in Hx, Hy.
    specialize (Hab e). rewrite !elem_of_cons in Hab. split; intros He.
    + destruct Hab as [[->|?] _]; [by right| |done]. exfalso. apply (ikey_lt_irrefl y.1), Hx.
      by apply list_elem_of_fmap_2.
    + destruct Hab as [_ [->|?]]; [by right| |done]. exfalso. apply (ikey_lt_irrefl y.1), Hy.
      by apply list_elem_of_fmap_2.
Qed.

Lemma sorted_app_inv (a b : list entry) :
  StronglySorted ikey_lt (a ++ b).*1 →
  StronglySorted ikey_lt a.*1 ∧ StronglySorted ikey_lt b.*1 ∧
  ∀ x y, x ∈ a → y ∈ b → ikey_lt x.1 y.1.
Proof.
  induction a as [|z a IH]; intros Hs.
  { split_and!; [constructor|done|set_solver]. }
  cbn in Hs. apply StronglySorted_inv in Hs as [Hs Hz]. destruct (IH Hs) as (? & ? & Hab).
  rewrite Forall_forall in Hz. split_and!; [|done|].
  - cbn. constructor; [done|]. apply Forall_forall. intros k (x & -> & Hx)%list_elem_of_fmap.
    apply Hz. apply list_elem_of_fmap_2. set_solver.
  - intros x y [->|Hx]%elem_of_cons Hy; [|by apply Hab]. apply Hz, list_elem_of_fmap_2. set_solver.
Qed.

Lemma sorted_app (a b : list entry) :
  StronglySorted ikey_lt a.*1 → StronglySorted ikey_lt b.*1 →
  (∀ x y, x ∈ a → y ∈ b → ikey_lt x.1 y.1) → StronglySorted ikey_lt (a ++ b).*1.
Proof.
  induction a as [|z a IH]; intros Ha Hb Hab; [done|]. cbn in Ha |- *.
  apply StronglySorted_inv in Ha as [Ha Hz]. constructor; [apply IH; set_solver|].
  rewrite fmap_app. apply Forall_app. split; [done|]. apply Forall_forall.
  intros k (y & -> & Hy)%list_elem_of_fmap. apply Hab; set_solver.
Qed.

(** ** Gathering *)

(** The points a range read considers. *)
Definition point_in (snapshot : Z) (start end_ : Bound) (e : entry) : Prop :=
  sequence e.1 ≤ snapshot ∧ kind e.1 ≠ RangeDeletion ∧
  user_key_in_range (user_key e.1) start end_ = true.
#[export] Instance point_in_dec snapshot start end_ e : Decision (point_in snapshot start end_ e).
Proof. unfold point_in. apply _. Defined.

(** The tombstones it considers. *)
Definition tombs_of (entries : list entry) (snapshot : Z) (t : RangeTombstone) : Prop :=
  ∃ e, e ∈ entries ∧ kind e.1 = RangeDeletion ∧ sequence e.1 ≤ snapshot ∧ t = tomb_of e.

Lemma coherent_insert e map entries :
  coherent (map ++ e :: entries) → StronglySorted ikey_lt map.*1 →
  coherent (bt_insert e.1 e.2 map ++ entries).
Proof.
  intros Hc Hs. destruct e as [k0 v0]. cbn. intros k v v' Hv Hv'. apply (Hc k).
  - apply elem_of_app in Hv as [Hv|Hv]; [apply bt_insert_elem in Hv; [|done]|]; set_solver.
  - apply elem_of_app in Hv' as [Hv'|Hv']; [apply bt_insert_elem in Hv'; [|done]|]; set_solver.
Qed.

Lemma coherent_drop e map entries : coherent (map ++ e :: entries) → coherent (map ++ entries).
Proof. intros Hc k v v' Hv Hv'. apply (Hc k); set_solver. Qed.

Lemma gather_spec entries snapshot start end_ map dels :
  coherent (map ++ entries) → StronglySorted ikey_lt map.*1 →
  let '(map', dels') := gather entries snapshot start end_ map dels in
  StronglySorted ikey_lt map'.*1 ∧
  (∀ e, e ∈ map' ↔ e ∈ map ∨ e ∈ entries ∧ point_in snapshot start end_ e) ∧
  (∀ t, t ∈ dels' ↔ t ∈ dels ∨ tombs_of entries snapshot t).
Proof.
  revert map dels. induction entries as [|[k v] entries IH]; intros map dels Hc Hs; cbn [gather].
  { split_and!; [done|set_solver|]. intros t. unfold tombs_of. set_solver. }
  assert (∀ t, tombs_of ((k, v) :: entries) snapshot t ↔
    kind k = RangeDeletion ∧ sequence k ≤ snapshot ∧ t = tomb_of (k, v) ∨ tombs_of entries snapshot t)
    as Ht.
  { intros t. unfold tombs_of. split.
    - intros (e & [->|He]%elem_of_cons & ?); [by left|]. right. by exists e.
    - intros [?|(e & ? & ?)]; [exists (k, v); set_solver|exists e; set_solver]. }
  assert (coherent (map ++ entries)) as Hc' by (by eapply coherent_drop).
  destruct (Z.ltb_spec snapshot (sequence k)).
  { specialize (IH map dels Hc' Hs). destruct (gather _ _ _ _ _ _) as [map' dels'].
    destruct IH as (? & He & Hd). split_and!; [done| |].
    - intros e. rewrite He, elem_of_cons. unfold point_in. naive_solver lia.
    - intros t. rewrite Hd, Ht. naive_solver lia. }
  destruct (bool_decide_reflect (kind k = RangeDeletion)) as [Hk|Hk].
  { specialize (IH map (dels ++ [tomb_of (k, v)]) Hc' Hs).
    destruct (gather _ _ _ _ _ _) as [map' dels']. destruct IH as (? & He & Hd). split_and!; [done| |].
    - intros e. rewrite He, elem_of_cons. unfold point_in. naive_solver.
    - intros t. rewrite Hd, Ht, elem_of_app, list_elem_of_singleton. naive_solver. }
  destruct (user_key_in_range (user_key k) start end_) eqn:Hin; cbn [negb].
  - specialize (IH (bt_insert k v map) dels (coherent_insert (k, v) _ _ Hc Hs) (bt_insert_sorted _ _ _ Hs)).
    destruct (gather _ _ _ _ _ _) as [map' dels']. destruct IH as (? & He & Hd). split_and!; [done| |].
    + intros [k' v']. rewrite He, bt_insert_elem, elem_of_cons by done. unfold point_in. cbn.
      destruct (decide (k' = k)) as [->|]; [|naive_solver].
      split; [naive_solver|]. intros [Hm|[[|] _]]; [|naive_solver|naive_solver].
      left. left. f_equal. apply (Hc k); set_solver.
    + intros t. rewrite Hd, Ht. naive_solver.
  - specialize (IH map dels Hc' Hs). destruct (gather _ _ _ _ _ _) as [map' dels'].
    destruct IH as (? & He & Hd). split_and!; [done| |].
    + intros e. rewrite He, elem_of_cons. unfold point_in. naive_solver congruence.
    + intros t. rewrite Hd, Ht. naive_solver.
Qed.

(** ** Newest version per key *)

(** [newest_rows l rows]: one row per user key of [l], in key order, each the
    first version of its key. Only the elements of [l] matter. *)
Definition newest_rows (l rows : list entry) : Prop :=
  StronglySorted bytes_lt ((λ e, user_key e.1) <$> rows) ∧
  (∀ r, r ∈ rows → r ∈ l ∧ ∀ e, e ∈ l → user_key e.1 = user_key r.1 → ¬ ikey_lt e.1 r.1) ∧
  (∀ e, e ∈ l → ∃ r, r ∈ rows ∧ user_key r.1 = user_key e.1).

(** A row as the reader returns it, when live. *)
Definition live_row (tombs : list RangeTombstone) (r : entry) : option VisibleKv :=
  if iter_window_keep (get_live [kind r.1] [range_deleted (user_key r.1) (sequence r.1) tombs])
  then Some (mkVisible (user_key r.1) r.2) else None.

Lemma range_deleted_hidden entries snapshot tombs uk s :
  (∀ t, t ∈ tombs ↔ tombs_of entries snapshot t) →
  range_deleted uk s tombs = true ↔ hidden entries snapshot uk s.
Proof.
  intros Ht. unfold range_deleted, hidden. rewrite existsb_exists. split.
  - intros (t & Hin & [Hc Hlt]%andb_true_iff). apply list_elem_of_In, Ht in Hin as ([k v] & ? & ? & ? & ->).
    exists k, v. apply Z.ltb_lt in Hlt. by split_and!.
  - intros (k & v & ? & ? & ? & ? & Hc). exists (tomb_of (k, v)). split.
    + apply list_elem_of_In, Ht. by exists (k, v).
    + apply andb_true_iff. split; [done|]. by apply Z.ltb_lt.
Qed.

Lemma live_row_spec entries snapshot tombs r k v :
  (∀ t, t ∈ tombs ↔ tombs_of entries snapshot t) →
  live_row tombs r = Some (mkVisible k v) ↔
    user_key r.1 = k ∧ r.2 = v ∧ kind r.1 = Value ∧ ¬ hidden entries snapshot k (sequence r.1).
Proof.
  intros Ht. unfold live_row, iter_window_keep, get_live. cbn.
  pose proof (range_deleted_hidden entries snapshot tombs (user_key r.1) (sequence r.1) Ht) as Hh.
  unfold visible_at. destruct (kind r.1) eqn:Hk; [naive_solver| |naive_solver].
  destruct (range_deleted _ _ _); cbn; naive_solver.
Qed.

Lemma live_row_key tombs r kv : live_row tombs r = Some kv → kv_key kv = user_key r.1.
Proof. unfold live_row. case_match; naive_solver. Qed.

Lemma omap_live_sorted tombs rows :
  StronglySorted bytes_lt ((λ e, user_key e.1) <$> rows) →
  StronglySorted bytes_lt (kv_key <$> omap (live_row tombs) rows).
Proof.
  induction rows as [|r rows IH]; intros Hs; [constructor|]. cbn in *.
  apply StronglySorted_inv in Hs as [Hs Hr]. specialize (IH Hs).
  destruct (live_row tombs r) as [kv|] eqn:E; [|done]. cbn. constructor; [done|].
  apply live_row_key in E as ->. apply Forall_forall. intros x Hx.
  apply list_elem_of_fmap in Hx as (kv' & -> & (r' & Hr' & E')%list_elem_of_omap).
  apply live_row_key in E' as ->. rewrite Forall_forall in Hr. apply Hr.
  by apply (list_elem_of_fmap_2 (λ e : entry, user_key e.1)).
Qed.

Lemma newest_rows_result entries snapshot start end_ tombs l rows :
  coherent entries →
  (∀ e, e ∈ l ↔ e ∈ entries ∧ point_in snapshot start end_ e) →
  (∀ t, t ∈ tombs ↔ tombs_of entries snapshot t) →
  newest_rows l rows → range_result entries snapshot start end_ (omap (live_row tombs) rows).
Proof.
  intros Hc Hl Ht (Hs & Hr & Hcov). split; [by apply omap_live_sorted|]. intros k v.
  rewrite list_elem_of_omap. split.
  - intros (r & Hin & (<- & <- & Hk & Hh)%(live_row_spec entries snapshot)); [|done].
    destruct (Hr r Hin) as [(He & Hle & Hnd & Hir)%Hl Hmin]. split; [done|].
    exists r. split_and!; try done. intros e' (He' & Hu & Hnd' & Hle'). apply Hmin; [|done].
    apply Hl. split; [done|]. split_and!; [done|done|]. by rewrite Hu.
  - intros (Hir & e & (He & Hu & Hnd & Hle) & Hv & Hk & Hmin & Hh).
    assert (e ∈ l) as Hel by (apply Hl; unfold point_in; by rewrite Hu).
    destruct (Hcov e Hel) as (r & Hin & Hur). exists r. split; [done|].
    destruct (Hr r Hin) as [Hrl Hrmin].
    assert (r = e) as ->; [|by apply (live_row_spec entries snapshot)].
    assert (r.1 = e.1) as Hkey.
    { destruct (ikey_trichotomy r.1 e.1) as [Hlt|[?|Hlt]]; [|done|].
      - apply Hl in Hrl as (? & ? & ? & ?). exfalso. apply (Hmin r); [|done].
        split_and!; [done|congruence|done|done].
      - exfalso. by apply (Hrmin e Hel). }
    destruct r as [rk rv], e as [ek ev]. cbn in Hkey. subst rk. f_equal.
    apply Hl in Hrl as [? _]. by apply (Hc ek).
Qed.

(** The first entry of each run of equal user keys. *)
Fixpoint newest (skip : option (list byte)) (l : list entry) : list entry :=
  match l with
  | [] => []
  | e :: l =>
      if bool_decide (skip = Some (user_key e.1)) then newest skip l
      else e :: newest (Some (user_key e.1)) l
  end.

Lemma newest_skip_user u l : newest None (skip_user u l) = newest (Some u) l.
Proof.
  induction l as [|[k v] l IH]; [done|]. cbn [skip_user newest fst].
  unfold bytes_eqb. destruct (bool_decide_reflect (user_key k = u)) as [->|Hne].
  - by rewrite bool_decide_eq_true_2.
  - rewrite (bool_decide_eq_false_2 (Some u = _)) by congruence. done.
Qed.

Lemma skip_user_length u l : (length (skip_user u l) ≤ length l)%nat.
Proof.
  induction l as [|[k v] l IH]; cbn [skip_user]; [done|]. destruct (bytes_eqb _ _); cbn [length]; lia.
Qed.

Definition take_limit {A} (limit : option nat) (l : list A) : list A :=
  match limit with Some n => take n l | None => l end.

Lemma emit_loop_spec fuel limit tombs l out :
  (length l ≤ fuel)%nat →
  emit_loop fuel limit tombs l out =
    out ++ take_limit ((λ m, m - length out)%nat <$> limit) (omap (live_row tombs) (newest None l)).
Proof.
  revert l out. induction fuel as [|n IH]; intros [|[k v] l] out Hl; cbn [length] in Hl;
    try (cbn; rewrite ?take_nil; destruct limit; cbn; by rewrite ?take_nil, app_nil_r); [lia|].
  cbn [emit_loop]. destruct limit as [m|]; cbn [fmap option_fmap option_map take_limit].
  - destruct (Nat.leb_spec m (length out)).
    { replace (m - length out)%nat with 0%nat by lia. by rewrite take_0, app_nil_r. }
    rewrite IH by (pose proof (skip_user_length (user_key k) l); lia).
    rewrite newest_skip_user. cbn [newest fst]. rewrite bool_decide_eq_false_2 by done.
    cbn [omap list_omap]. unfold live_row at 2. cbn [fst snd].
    destruct (iter_window_keep _); cbn [fmap option_fmap option_map take_limit]; [|done].
    rewrite <-(assoc_L (++)). f_equal. rewrite length_app. cbn [length].
    replace (m - length out)%nat with (S (m - (length out + 1)))%nat by lia. done.
  - rewrite IH by (pose proof (skip_user_length (user_key k) l); lia).
    rewrite newest_skip_user. cbn [newest fst]. rewrite bool_decide_eq_false_2 by done.
    cbn [omap list_omap]. unfold live_row at 2. cbn [fst snd fmap option_fmap option_map take_limit].
    destruct (iter_window_keep _); [|done]. by rewrite <-(assoc_L (++)).
Qed.

(** On a sorted list [newest] gives the rows. *)
Lemma newest_sub skip l e : e ∈ newest skip l → e ∈ l.
Proof.
  revert skip. induction l as [|x l IH]; intros skip; cbn [newest]; [done|].
  case_bool_decide; set_solver.
Qed.

Lemma newest_some u l e : e ∈ l → user_key e.1 ≠ u →
  ∃ r, r ∈ newest (Some u) l ∧ user_key r.1 = user_key e.1.
Proof.
  revert u. induction l as [|x l IH]; intros u; [by intros ?%not_elem_of_nil|].
  intros [->|He]%elem_of_cons Hne; cbn [newest].
  - rewrite bool_decide_eq_false_2 by congruence. exists x. set_solver.
  - case_bool_decide; [by apply IH|]. destruct (decide (user_key e.1 = user_key x.1)) as [E|E].
    + exists x. set_solver.
    + destruct (IH _ He E) as (r & ? & ?). exists r. set_solver.
Qed.

(** Sorted here is non-strict: equal keys of several layers may follow each
    other. *)
Definition ikey_le (a b : InternalKey) : Prop := ¬ ikey_lt b a.

Lemma ikey_le_user a b : ikey_le a b → ¬ bytes_lt (user_key b) (user_key a).
Proof. intros H Hlt. apply H, ikey_lt_iff. by left. Qed.

Lemma ikey_le_trans a b c : ikey_le a b → ikey_le b c → ikey_le a c.
Proof.
  unfold ikey_le. rewrite !ikey_not_lt. intros [->|H1] [->|H2]; [by left|by right|by right|].
  right. by etrans.
Qed.

Lemma newest_sorted_from u l :
  StronglySorted ikey_le l.*1 → Forall (λ e, ¬ bytes_lt (user_key e.1) u) l →
  StronglySorted bytes_lt ((λ e, user_key e.1) <$> newest (Some u) l) ∧
  Forall (λ e, bytes_lt u (user_key e.1)) (newest (Some u) l) ∧
  (∀ r, r ∈ newest (Some u) l → ∀ e, e ∈ l → user_key e.1 = user_key r.1 → ¬ ikey_lt e.1 r.1).
Proof.
  revert u. induction l as [|x l IH]; intros u Hs Hu; cbn [newest].
  { split_and!; [constructor|constructor|set_solver]. }
  cbn in Hs. apply StronglySorted_inv in Hs as [Hs Hx]. apply Forall_cons in Hu as [Hux Hu].
  case_bool_decide as E.
  - injection E as ->. destruct (IH _ Hs Hu) as (H1 & H2 & H3). split_and!; [done|done|].
    intros r Hr e [->|He]%elem_of_cons Heq; [|by apply H3]. rewrite Forall_forall in H2.
    specialize (H2 r Hr). cbn in H2. rewrite Heq in H2. by apply bytes_lt_irrefl in H2.
  - assert (bytes_lt u (user_key x.1)) as Hlt.
    { destruct (bytes_trichotomy u (user_key x.1)) as [?|[->|?]]; done. }
    destruct (IH (user_key x.1) Hs) as (H1 & H2 & H3).
    { apply Forall_forall. intros e He. rewrite Forall_forall in Hx. apply ikey_le_user, Hx.
      by apply list_elem_of_fmap_2. }
    split_and!.
    + cbn. constructor; [done|]. rewrite Forall_fmap. exact H2.
    + constructor; [done|]. eapply Forall_impl; [exact H2|]. cbn. intros e He. by etrans.
    + intros r Hr e He Heq. apply elem_of_cons in Hr as [->|Hr], He as [->|He].
      * apply ikey_lt_irrefl.
      * rewrite Forall_forall in Hx. apply Hx. by apply list_elem_of_fmap_2.
      * rewrite Forall_forall in H2. specialize (H2 r Hr). cbn in H2. rewrite Heq in H2.
        by apply bytes_lt_irrefl in H2.
      * by apply H3.
Qed.

Lemma newest_rows_sorted l : StronglySorted ikey_le l.*1 → newest_rows l (newest None l).
Proof.
  intros Hs. destruct l as [|x l].
  { split_and!; [constructor|set_solver|set_solver]. }
  cbn [newest]. rewrite bool_decide_eq_false_2 by done.
  cbn in Hs. apply StronglySorted_inv in Hs as [Hs Hx]. rewrite Forall_forall in Hx.
  assert (∀ e, e ∈ l → ikey_le x.1 e.1) as Hx' by (intros; apply Hx; by apply list_elem_of_fmap_2).
  destruct (newest_sorted_from (user_key x.1) l Hs) as (H1 & H2 & H3).
  { apply Forall_forall. intros e He. by apply ikey_le_user, Hx'. }
  split_and!.
  - cbn. constructor; [done|]. by rewrite Forall_fmap.
  - intros r [->|Hr]%elem_of_cons.
    + split; [set_solver|]. intros e [->|He]%elem_of_cons _; [apply ikey_lt_irrefl|]. by apply Hx'.
    + split; [apply newest_sub in Hr; set_solver|]. intros e [->|He]%elem_of_cons Heq; [|by apply H3].
      rewrite Forall_forall in H2. specialize (H2 r Hr). cbn in H2. rewrite Heq in H2.
      by apply bytes_lt_irrefl in H2.
  - intros e He. destruct (decide (user_key e.1 = user_key x.1)) as [E|E]; [exists x; set_solver|].
    apply elem_of_cons in He as [->|He]; [done|].
    destruct (newest_some _ _ _ He E) as (r & ? & ?). exists r. set_solver.
Qed.

Lemma ikey_lt_le_sorted l : StronglySorted ikey_lt l → StronglySorted ikey_le l.
Proof.
  induction 1 as [|x l ? IH Hx]; constructor; [done|]. eapply Forall_impl; [done|].
  intros y Hxy. apply ikey_not_lt. by right.
Qed.

(** A result is determined by what it must contain. *)
Lemma range_result_unique entries snapshot start end_ out1 out2 :
  range_result entries snapshot start end_ out1 → range_result entries snapshot start end_ out2 →
  out1 = out2.
Proof.
  intros [Hs1 H1] [Hs2 H2].
  assert (∀ kv, kv ∈ out1 ↔ kv ∈ out2) as Hmem by (intros [k v]; by rewrite H1, H2).
  clear H1 H2. revert out2 Hs2 Hmem. induction out1 as [|a out1 IH]; intros [|b out2] Hs2 Hmem.
  - done.
  - exfalso. assert (b ∈ []) as Hb by (apply Hmem; set_solver). by apply not_elem_of_nil in Hb.
  - exfalso. assert (a ∈ []) as Ha by (apply Hmem; set_solver). by apply not_elem_of_nil in Ha.
  - cbn in Hs1, Hs2. apply StronglySorted_inv in Hs1 as [Hs1 Ha], Hs2 as [Hs2 Hb].
    rewrite Forall_forall in Ha, Hb.
    assert (∀ x, x ∈ out1 → bytes_lt (kv_key a) (kv_key x)) as Ha'
      by (intros; apply Ha; by apply list_elem_of_fmap_2).
    assert (∀ x, x ∈ out2 → bytes_lt (kv_key b) (kv_key x)) as Hb'
      by (intros; apply Hb; by apply list_elem_of_fmap_2).
    assert (a = b) as ->.
    { assert (a ∈ b :: out2) as [->|Hab]%elem_of_cons by (apply Hmem; set_solver); [done|].
      assert (b ∈ a :: out1) as [->|Hba]%elem_of_cons by (apply Hmem; set_solver); [done|].
      exfalso. apply (bytes_lt_irrefl (kv_key a)). trans (kv_key b); [by apply Ha'|by apply Hb']. }
    f_equal. apply IH; [done|done|]. intros kv. specialize (Hmem kv).
    rewrite !elem_of_cons in Hmem. split; intros Hkv.
    + destruct Hmem as [[->|?] _]; [by right| |done]. exfalso. by apply (bytes_lt_irrefl (kv_key b)), Ha'.
    + destruct Hmem as [_ [->|?]]; [by right| |done]. exfalso. by apply (bytes_lt_irrefl (kv_key b)), Hb'.
Qed.

Lemma visible_range_result entries snapshot start end_ :
  coherent entries →
  range_result entries snapshot start end_ (visible_range entries snapshot start end_) ∧
  ∀ limit, visible_range_limited entries snapshot start end_ (Some limit) =
           take limit (visible_range entries snapshot start end_).
Proof.
  intros Hc. unfold visible_range, visible_range_limited.
  pose proof (gather_spec entries snapshot start end_ [] [] Hc ltac:(constructor)) as H.
  destruct (gather _ _ _ _ _ _) as [map dels]. destruct H as (Hs & Hm & Ht).
  rewrite emit_loop_spec by done. cbn [app fmap option_fmap option_map take_limit]. split.
  - apply newest_rows_result with (l := map); [done| | |].
    + intros e. rewrite Hm. set_solver.
    + intros t. rewrite Ht. set_solver.
    + by apply newest_rows_sorted, ikey_lt_le_sorted.
  - intros limit. rewrite emit_loop_spec by done. cbn. by rewrite Nat.sub_0_r.
Qed.

(** C23: the reference range read is right. On layers that agree on every
    version, for every snapshot and bounds, it returns exactly the keys in
    range whose newest visible version is a value that no newer visible range
    deletion covers, with that value, once each and in key order; a limit keeps
    that many of the first. *)
Theorem visible_range_correct entries snapshot start end_ :
  coherent entries →
  range_result entries snapshot start end_ (visible_range entries snapshot start end_) ∧
  ∀ limit, visible_range_limited entries snapshot start end_ (Some limit) =
           take limit (visible_range entries snapshot start end_).
Proof. apply visible_range_result. Qed.

Definition sample_entries : list entry :=
  [(mkIKey [x61] 3 Value, [x33]); (mkIKey [x61] 1 Value, [x31]); (mkIKey [x62] 2 Value, [x32]);
   (mkIKey [x62] 5 Deletion, []); (mkIKey [x61] 4 RangeDeletion, [x63]); (mkIKey [x63] 1 Value, [x39])].

Lemma sample_coherent : coherent sample_entries.
Proof.
  intros k v v' H1 H2. unfold sample_entries in *.
  repeat (apply elem_of_cons in H1 as [H1|H1]); [..|by apply not_elem_of_nil in H1];
  repeat (apply elem_of_cons in H2 as [H2|H2]); try (by apply not_elem_of_nil in H2); congruence.
Qed.

Lemma visible_range_correct_witness :
  visible_range sample_entries 3 Unbounded Unbounded =
    [mkVisible [x61] [x33]; mkVisible [x62] [x32]; mkVisible [x63] [x39]] ∧
  visible_range sample_entries 6 Unbounded Unbounded = [mkVisible [x63] [x39]] ∧
  reads sample_entries 3 [x61] [x33].
Proof.
  split; [reflexivity|]. split; [reflexivity|].
  apply (proj2 (proj1 (visible_range_correct sample_entries 3 Unbounded Unbounded sample_coherent))).
  vm_compute. by left.
Defined.
