(* ===== verification/StreamHeap.v ===== *)
(** The array heap of [StreamingVisibleIter] in [merge_kernel.rs]:
    [sift_step], [heapify], [sift_down], [heap_push], [heap_pop].

    The heap holds stream indices; [lt a b] is [head_lt], the comparison of the
    streams' head entries. The proofs need only that [lt] is a strict weak
    order. *)

From S2P Require Import Prelude.

Local Open Scope nat_scope.

(** * Operations *)

Inductive SiftStep := Stay | SwapLeft | SwapRight.

Definition sift_step (r_exists r_lt_l best_lt_hole : bool) : SiftStep :=
  if negb best_lt_hole then Stay
  else if r_exists && r_lt_l then SwapRight
  else SwapLeft.
Definition sift_step_as_is (_r_exists _r_lt_l _best_lt_hole : bool) : SiftStep := Stay.

(** Every index below is guarded by the length in the code. *)
Definition at_ (h : list nat) (i : nat) : nat := default 0 (h !! i).

(** [heap.swap(i, j)]. *)
Definition swap (i j : nat) (h : list nat) : list nat :=
  <[i := at_ h j]> (<[j := at_ h i]> h).

Section heap.
Context (lt : nat → nat → bool).

(** [sift_down]: the hole goes down at each turn, so [heap.len()] turns
    suffice. *)
Fixpoint sift_down (fuel hole : nat) (h : list nat) : list nat :=
  match fuel with
  | O => h
  | S fuel =>
      let n := length h in
      let l := 2 * hole + 1 in
      if n <=? l then h
      else
        let r := l + 1 in
        let r_in := r <? n in
        let r_lt_l := r_in && lt (at_ h r) (at_ h l) in
        let best := if r_lt_l then r else l in
        let best_lt_hole := lt (at_ h best) (at_ h hole) in
        match sift_step r_in r_lt_l best_lt_hole with
        | Stay => h
        | SwapLeft => sift_down fuel l (swap l hole h)
        | SwapRight => sift_down fuel r (swap r hole h)
        end
  end.

(** [for start in (0..len / 2).rev()]. *)
Fixpoint heapify_loop (starts : nat) (h : list nat) : list nat :=
  match starts with
  | O => h
  | S start => heapify_loop start (sift_down (length h) start h)
  end.
Definition heapify (h : list nat) : list nat := heapify_loop (length h / 2) h.

(** The loop of [heap_push]: the hole halves. *)
Fixpoint sift_up (fuel hole : nat) (h : list nat) : list nat :=
  match fuel with
  | O => h
  | S fuel =>
      if 0 <? hole then
        let parent := (hole - 1) / 2 in
        if lt (at_ h hole) (at_ h parent) then sift_up fuel parent (swap hole parent h)
        else h
      else h
  end.
Definition heap_push (i : nat) (h : list nat) : list nat :=
  sift_up (S (length h)) (length h) (h ++ [i]).

(** [heap_pop]: the popped index and the heap left. *)
Definition heap_pop (h : list nat) : option (nat * list nat) :=
  match h with
  | [] => None
  | top :: _ =>
      let last := at_ h (length h - 1) in
      let h := take (length h - 1) h in
      if negb (length h =? 0) then Some (top, sift_down (length h) 0 (<[0 := last]> h))
      else Some (top, h)
  end.

(** * Order *)

(** [le x y]: [y] is not before [x]. *)
Definition le (x y : nat) : Prop := lt y x = false.

Definition parent (i : nat) : nat := (i - 1) / 2.

(** The heap property for the parents from [s] on. *)
Definition heap_from (s : nat) (h : list nat) : Prop :=
  ∀ i, 0 < i → i < length h → s ≤ parent i → le (at_ h (parent i)) (at_ h i).

Definition is_heap (h : list nat) : Prop := heap_from 0 h.

(** [lt] is a strict weak order. *)
Class WeakOrder := {
  lt_asym x y : lt x y = true → lt y x = false;
  le_trans x y z : le x y → le y z → le x z
}.

Lemma at_insert_eq i x h : i < length h → at_ (<[i:=x]> h) i = x.
Proof. intros. unfold at_. by rewrite list_lookup_insert_eq. Qed.
Lemma at_insert_ne i j x h : i ≠ j → at_ (<[i:=x]> h) j = at_ h j.
Proof. intros. unfold at_. by rewrite list_lookup_insert_ne. Qed.

Lemma length_swap i j h : length (swap i j h) = length h.
Proof. unfold swap. by rewrite !length_insert. Qed.

Lemma at_swap i j k h : i < length h → j < length h → i ≠ j →
  at_ (swap i j h) k = if decide (k = i) then at_ h j else if decide (k = j) then at_ h i else at_ h k.
Proof.
  intros Hi Hj Hij. unfold swap. case_decide; subst.
  - by rewrite at_insert_eq by (rewrite length_insert; lia).
  - rewrite at_insert_ne by done. case_decide; subst; [by rewrite at_insert_eq|].
    by rewrite at_insert_ne.
Qed.

Lemma swap_perm i j h : i < length h → j < length h → swap i j h ≡ₚ h.
Proof.
  intros Hi Hj. unfold swap, at_.
  destruct (lookup_lt_is_Some_2 h i Hi) as [x Hx], (lookup_lt_is_Some_2 h j Hj) as [y Hy].
  rewrite Hx, Hy. cbn. by apply Permutation_insert_swap.
Qed.

Lemma parent_child i hole : 0 < i → parent i = hole ↔ i = 2 * hole + 1 ∨ i = 2 * hole + 2.
Proof. intros. unfold parent. pose proof (Nat.div_mod (i - 1) 2). pose proof (Nat.mod_upper_bound (i - 1) 2). lia. Qed.

Lemma parent_lt i : 0 < i → parent i < i.
Proof. intros. unfold parent. apply Nat.Div0.div_lt_upper_bound. lia. Qed.

Context `{!WeakOrder}.
#[local] Set Default Proof Using "All".

Lemma le_refl x : le x x.
Proof. unfold le. destruct (lt x x) eqn:E; [|done]. by rewrite (lt_asym _ _ E) in E. Qed.

(** The heap property but at the hole, whose children are not before its
    parent. *)
Definition hole_ok (s hole : nat) (h : list nat) : Prop :=
  (∀ i, 0 < i → i < length h → s ≤ parent i → parent i ≠ hole → le (at_ h (parent i)) (at_ h i)) ∧
  (∀ i, 0 < i → i < length h → parent i = hole → 0 < hole → s ≤ parent hole →
        le (at_ h (parent hole)) (at_ h i)).

(** Swapping the hole with its first child. *)
Lemma hole_down s hole c h :
  hole_ok s hole h → s ≤ hole → 0 < c → c < length h → parent c = hole →
  (∀ i, 0 < i → i < length h → parent i = hole → le (at_ h c) (at_ h i)) →
  le (at_ h c) (at_ h hole) → hole_ok s c (swap c hole h).
Proof.
  intros [H1 H2] Hs Hc0 Hc Hpc Hbest Hle.
  assert (hole < c) as Hlt by (rewrite <-Hpc; by apply parent_lt).
  assert (∀ k, at_ (swap c hole h) k = if decide (k = c) then at_ h hole
               else if decide (k = hole) then at_ h c else at_ h k) as Hat
    by (intros; apply at_swap; lia).
  split; intros i Hi Hl; rewrite length_swap in Hl; pose proof (parent_lt i Hi) as Hpi; rewrite !Hat.
  - intros Hsp Hne. rewrite (decide_False (P := parent i = c)) by done.
    destruct (decide (i = c)) as [->|].
    { by rewrite decide_True by done. }
    destruct (decide (parent i = hole)) as [E|E].
    { rewrite decide_False by lia. by apply Hbest. }
    destruct (decide (i = hole)) as [->|]; [by apply H2|by apply H1].
  - intros Hp _ Hsp. rewrite Hpc. rewrite (decide_False (P := hole = c)) by lia.
    rewrite decide_True, !decide_False by lia. rewrite <-Hp. apply H1; lia.
Qed.

Lemma sift_down_ok fuel s hole h :
  hole_ok s hole h → s ≤ hole → length h - hole ≤ fuel →
  heap_from s (sift_down fuel hole h) ∧ sift_down fuel hole h ≡ₚ h.
Proof.
  revert hole h. induction fuel as [|fuel IH]; intros hole h Hok Hs Hf; cbn [sift_down].
  { split; [|done]. intros i Hi Hl Hsp. apply Hok; [done..|]. pose proof (parent_lt i Hi). lia. }
  destruct (Nat.leb_spec (length h) (2 * hole + 1)) as [Hl|Hl].
  { split; [|done]. intros i Hi Hil Hsp. apply Hok; [done..|].
    intros E%parent_child; [lia|done]. }
  set (r_in := 2 * hole + 1 + 1 <? length h).
  set (r_lt_l := r_in && lt (at_ h (2 * hole + 1 + 1)) (at_ h (2 * hole + 1))).
  set (best := if r_lt_l then 2 * hole + 1 + 1 else 2 * hole + 1).
  assert (0 < best ∧ best < length h ∧ parent best = hole) as (Hb0 & Hbl & Hbp).
  { unfold best. assert (r_lt_l = true → 2 * hole + 1 + 1 < length h).
    { unfold r_lt_l, r_in. intros [?%Nat.ltb_lt _]%andb_true_iff. done. }
    destruct r_lt_l; (split_and!; [lia|naive_solver lia|apply parent_child; lia]). }
  assert (∀ i, 0 < i → i < length h → parent i = hole → le (at_ h best) (at_ h i)) as Hbest.
  { intros i Hi Hil [E|E]%parent_child; [| |done]; unfold best, le.
    - subst i. destruct r_lt_l eqn:Er.
      + apply lt_asym. unfold r_lt_l in Er. apply andb_true_iff in Er as [_ Er]. done.
      + apply le_refl.
    - subst i. replace (2 * hole + 2) with (2 * hole + 1 + 1) in * by lia.
      destruct r_lt_l eqn:Er; unfold r_lt_l in Er.
      + apply le_refl.
      + unfold r_in in Er. rewrite (proj2 (Nat.ltb_lt _ _)) in Er by done. done. }
  assert (sift_step r_in r_lt_l (lt (at_ h best) (at_ h hole)) =
          if lt (at_ h best) (at_ h hole) then if r_lt_l then SwapRight else SwapLeft else Stay) as ->.
  { unfold sift_step. destruct (lt _ (at_ h hole)); [|done]. cbn [negb]. unfold r_lt_l.
    case r_in; reflexivity. }
  destruct (lt (at_ h best) (at_ h hole)) eqn:Ebh.
  - assert (hole_ok s best (swap best hole h)) as Hok' by (apply hole_down; try done; by apply lt_asym).
    pose proof (parent_lt best Hb0) as Hlt. rewrite Hbp in Hlt.
    destruct (IH best (swap best hole h)) as [Hh Hp]; [done|lia|rewrite length_swap; lia|].
    unfold best in *. destruct r_lt_l; (split; [done|]); rewrite Hp; apply swap_perm; lia.
  - split; [|done]. intros i Hi Hil Hsp. destruct (decide (parent i = hole)) as [E|E]; [|by apply Hok].
    rewrite E. apply le_trans with (y := at_ h best); [done|by apply Hbest].
Qed.

(** A hole under a heap that starts just below it. *)
Lemma heap_from_hole s h : heap_from (S s) h → hole_ok s s h.
Proof.
  intros Hh. split.
  - intros i Hi Hl Hsp Hne. apply Hh; [done|done|lia].
  - intros i Hi Hl Hp Hs Hsp. pose proof (parent_lt s Hs). lia.
Qed.

Lemma heapify_loop_ok starts h :
  heap_from starts h → is_heap (heapify_loop starts h) ∧ heapify_loop starts h ≡ₚ h.
Proof.
  revert h. induction starts as [|start IH]; intros h Hh; cbn [heapify_loop]; [done|].
  destruct (sift_down_ok (length h) start start h) as [Hh' Hp]; [by apply heap_from_hole|lia|lia|].
  destruct (IH _ Hh') as [? Hp']. split; [done|]. by rewrite Hp'.
Qed.

Lemma heapify_ok h : is_heap (heapify h) ∧ heapify h ≡ₚ h.
Proof.
  apply heapify_loop_ok. intros i Hi Hl Hsp. exfalso.
  pose proof (proj1 (parent_child i (parent i) Hi) eq_refl).
  pose proof (Nat.div_mod (length h) 2). pose proof (Nat.mod_upper_bound (length h) 2). lia.
Qed.

(** The heap property but above the hole, whose children are not before its
    parent. *)
Definition up_ok (hole : nat) (h : list nat) : Prop :=
  (∀ i, 0 < i → i < length h → i ≠ hole → le (at_ h (parent i)) (at_ h i)) ∧
  (∀ i, 0 < i → i < length h → parent i = hole → 0 < hole → le (at_ h (parent hole)) (at_ h i)).

Lemma hole_up hole h :
  up_ok hole h → 0 < hole → hole < length h → le (at_ h hole) (at_ h (parent hole)) →
  up_ok (parent hole) (swap hole (parent hole) h).
Proof.
  intros [H1 H2] Hh0 Hhl Hle. pose proof (parent_lt hole Hh0) as Hp.
  assert (∀ k, at_ (swap hole (parent hole) h) k = if decide (k = hole) then at_ h (parent hole)
               else if decide (k = parent hole) then at_ h hole else at_ h k) as Hat
    by (intros; apply at_swap; lia).
  split; intros i Hi Hl; rewrite length_swap in Hl; pose proof (parent_lt i Hi) as Hpi; rewrite !Hat.
  - intros Hne. destruct (decide (i = hole)) as [->|Hih].
    { rewrite decide_False by lia. by rewrite decide_True by done. }
    rewrite (decide_False (P := i = parent hole)) by done.
    destruct (decide (parent i = hole)) as [E|E].
    { by apply H2. }
    destruct (decide (parent i = parent hole)) as [E'|E'].
    { apply le_trans with (y := at_ h (parent hole)); [done|]. rewrite <-E'. by apply H1. }
    by apply H1.
  - intros E Hpp. pose proof (parent_lt _ Hpp) as Hpp'.
    rewrite (decide_False (P := parent (parent hole) = hole)) by lia.
    rewrite (decide_False (P := parent (parent hole) = parent hole)) by lia.
    assert (le (at_ h (parent (parent hole))) (at_ h (parent hole))) as Hgp by (apply H1; lia).
    destruct (decide (i = hole)) as [->|Hih]; [done|].
    rewrite decide_False by lia. apply le_trans with (y := at_ h (parent hole)); [done|].
    rewrite <-E. by apply H1.
Qed.

Lemma sift_up_ok fuel hole h :
  up_ok hole h → hole < length h → hole < fuel →
  is_heap (sift_up fuel hole h) ∧ sift_up fuel hole h ≡ₚ h.
Proof.
  revert hole h. induction fuel as [|fuel IH]; intros hole h Hok Hl Hf; [lia|]. cbn [sift_up].
  destruct (Nat.ltb_spec 0 hole) as [Hh0|Hh0].
  2:{ split; [|done]. intros i Hi Hil _. apply Hok; [done|done|lia]. }
  fold (parent hole). pose proof (parent_lt hole Hh0) as Hp.
  destruct (lt (at_ h hole) (at_ h (parent hole))) eqn:E.
  - destruct (IH (parent hole) (swap hole (parent hole) h)) as [? Hperm].
    { apply hole_up; [done..|]. by apply lt_asym. }
    { rewrite length_swap. lia. }
    { lia. }
    split; [done|]. rewrite Hperm. apply swap_perm; lia.
  - split; [|done]. intros i Hi Hil _. destruct (decide (i = hole)) as [->|]; [done|by apply Hok].
Qed.

Lemma at_app_l h h' i : i < length h → at_ (h ++ h') i = at_ h i.
Proof. intros. unfold at_. by rewrite lookup_app_l. Qed.

(** [heap_push] keeps a heap and adds the index. *)
Lemma heap_push_ok i h : is_heap h → is_heap (heap_push i h) ∧ heap_push i h ≡ₚ i :: h.
Proof.
  intros Hh. unfold heap_push.
  destruct (sift_up_ok (S (length h)) (length h) (h ++ [i])) as [? Hp]; [|len|lia|].
  - split; intros j Hj Hjl; pose proof (parent_lt j Hj) as Hpj; rewrite length_app in Hjl; cbn in Hjl.
    + intros Hne. rewrite !at_app_l by lia. apply Hh; lia.
    + lia.
  - split; [done|]. rewrite Hp. by rewrite Permutation_app_comm.
Qed.

(** The top of a heap is not after any element. *)
Lemma heap_top h i : is_heap h → i < length h → le (at_ h 0) (at_ h i).
Proof.
  intros Hh. induction (lt_wf i) as [i _ IH]. intros Hi.
  destruct (decide (i = 0)) as [->|]; [apply le_refl|]. pose proof (parent_lt i ltac:(lia)).
  apply le_trans with (y := at_ h (parent i)); [apply IH; lia|]. apply Hh; lia.
Qed.

Lemma heap_top_elem h x : is_heap h → x ∈ h → le (at_ h 0) x.
Proof.
  intros Hh Hx. apply list_elem_of_lookup in Hx as [i Hi].
  replace x with (at_ h i) by (unfold at_; by rewrite Hi).
  apply heap_top; [done|]. by eapply lookup_lt_Some.
Qed.

(** [heap_pop] removes a first element and keeps a heap. *)
Lemma heap_pop_ok h :
  is_heap h →
  match heap_pop h with
  | None => h = []
  | Some (top, h') => is_heap h' ∧ top :: h' ≡ₚ h ∧ ∀ x, x ∈ h → le top x
  end.
Proof.
  intros Hh. destruct h as [|top h]; [done|].
  assert (∀ x, x ∈ top :: h → le top x) as Htop by (intros x; by apply heap_top_elem).
  unfold heap_pop. cbn [length]. rewrite Nat.sub_succ, Nat.sub_0_r.
  destruct h as [|y h].
  { cbn. split_and!; [|done|done]. intros i Hi Hl. cbn in Hl. lia. }
  set (h0 := top :: y :: h) in *. set (n := length (y :: h)).
  assert (length (take n h0) = n) as Hlen by (unfold h0, n; len).
  rewrite Hlen. destruct (Nat.eqb_spec n 0) as [En|En]; [done|]. cbn [negb].
  assert (∀ j, j < n → at_ (take n h0) j = at_ h0 j) as Hat
    by (intros; unfold at_; by rewrite lookup_take_lt).
  destruct (sift_down_ok n 0 0 (<[0:=at_ h0 n]> (take n h0))) as [Hs Hp].
  { split; intros i Hi; rewrite length_insert, Hlen; intros Hl; [|lia].
    intros _ Hne. rewrite !at_insert_ne by lia. pose proof (parent_lt i Hi).
    rewrite !Hat by lia. apply Hh; [done|unfold h0; cbn; unfold n in *; cbn in *; lia|lia]. }
  { lia. }
  { rewrite length_insert. lia. }
  split_and!; [done| |done]. rewrite Hp. clear Hs Hp.
  assert (∃ mid, h0 = top :: mid ++ [at_ h0 n] ∧ length mid = n - 1) as (mid & E & Hm).
  { exists (take (n - 1) (y :: h)). split; [|unfold n; len]. unfold h0 at 1. f_equal.
    rewrite <-(take_drop (n - 1) (y :: h)) at 1. f_equal.
    assert (at_ h0 n = at_ (y :: h) (n - 1)) as -> 
      by (unfold h0, at_, n; cbn [length]; by rewrite Nat.sub_succ, Nat.sub_0_r).
    unfold at_. destruct (lookup_lt_is_Some_2 (y :: h) (n - 1)) as [z Hz]; [unfold n; cbn; lia|].
    rewrite Hz. cbn [default id]. rewrite (drop_S _ z) by done. f_equal.
    apply drop_ge. unfold n. cbn. lia. }
  assert (take n h0 = top :: mid) as ->.
  { rewrite E. rewrite app_comm_cons. apply take_app_length'. cbn [length]. lia. }
  cbn [insert list_insert]. rewrite E at 2. apply perm_skip. symmetry.
  apply (Permutation_app_comm mid [at_ h0 n]).
Qed.
End heap.

Arguments is_heap _ _ : clear implicits.
