(* ===== verification/StreamMerge.v ===== *)
(** The streaming range read: [StreamingVisibleIter] of [merge_kernel.rs].

    Each layer is a stream of entries in internal-key order; a heap of stream
    indices, ordered by the streams' heads, merges them; the iterator emits the
    newest visible version of each user key in range. The theorem of the file is
    that it returns what the reference read [visible_range] returns. *)

From S2P Require Import Prelude ErrorKernel KeyKernel Visibility StreamHeap.

Local Open Scope nat_scope.

Record WindowKv := mkWindow { w_key : list byte; w_value : list byte; w_live : bool }.

(** * State *)

Record StreamingVisibleIter := mkIter {
  heap : list nat;
  heads : list (option entry);
  streams : list (list entry);
  snapshot : Z;
  range_dels : list RangeTombstone;
  start : Bound;
  end_ : Bound;
  limit : option nat;
  emitted : nat;
  skip_user : option (list byte)
}.

Definition with_streams (h : list nat) (hd : list (option entry)) (ss : list (list entry))
    (it : StreamingVisibleIter) : StreamingVisibleIter :=
  mkIter h hd ss (snapshot it) (range_dels it) (start it) (end_ it) (limit it) (emitted it)
         (skip_user it).
Definition with_skip (s : option (list byte)) (it : StreamingVisibleIter) : StreamingVisibleIter :=
  mkIter (heap it) (heads it) (streams it) (snapshot it) (range_dels it) (start it) (end_ it)
         (limit it) (emitted it) s.
Definition with_emitted (n : nat) (it : StreamingVisibleIter) : StreamingVisibleIter :=
  mkIter (heap it) (heads it) (streams it) (snapshot it) (range_dels it) (start it) (end_ it)
         (limit it) n (skip_user it).

(** [head_before]: a missing head is after every other. *)
Definition head_before (a b : option entry) : bool :=
  match a, b with
  | Some (ka, _), Some (kb, _) => ikey_ltb ka kb
  | Some _, None => true
  | None, _ => false
  end.

Definition head_at (hd : list (option entry)) (i : nat) : option entry := mjoin (hd !! i).

Definition head_lt (hd : list (option entry)) (a b : nat) : bool :=
  head_before (head_at hd a) (head_at hd b).

(** [streams[i].next()]. *)
Definition stream_next (i : nat) (ss : list (list entry)) : option entry * list (list entry) :=
  match ss !! i with
  | Some (e :: rest) => (Some e, <[i := rest]> ss)
  | _ => (None, ss)
  end.

Definition in_range (it : StreamingVisibleIter) (uk : list byte) : bool :=
  user_key_in_range uk (start it) (end_ it).
Definition beyond_end (it : StreamingVisibleIter) (uk : list byte) : bool := past_end uk (end_ it).
Definition skips_user (it : StreamingVisibleIter) (uk : list byte) : bool :=
  match skip_user it with Some skip => bytes_eqb uk skip | None => false end.

Definition head_beyond (it : StreamingVisibleIter) (e : option entry) : bool :=
  match e with Some (k, _) => beyond_end it (user_key k) | None => false end.

(** * Construction *)

(** The loop of [from_point_streams]: heads and heap indices, with the streams
    advanced past their heads. *)
Fixpoint init_heads (i : nat) (ss : list (list entry)) (endb : Bound)
    (h : list nat) (hd : list (option entry)) (rest : list (list entry))
    : list nat * list (option entry) * list (list entry) :=
  match ss with
  | [] => (h, hd, rest)
  | s :: ss =>
      let '(e, s') := match s with [] => (None, []) | e :: s' => (Some e, s') end in
      let retire := match e with Some (k, _) => past_end (user_key k) endb | None => false end in
      if retire then init_heads (S i) ss endb h (hd ++ [None]) (rest ++ [s'])
      else init_heads (S i) ss endb (if bool_decide (is_Some e) then h ++ [i] else h)
             (hd ++ [e]) (rest ++ [s'])
  end.

Definition from_point_streams (ss : list (list entry)) (dels : list RangeTombstone) (snap : Z)
    (startb endb : Bound) (lim : option nat) : StreamingVisibleIter :=
  let '(h, hd, rest) := init_heads 0 ss endb [] [] [] in
  mkIter (heapify (head_lt hd) h) hd rest snap dels startb endb lim 0 None.

(** [StreamingVisibleIter::new]: split every layer into points and range
    deletions. *)
Fixpoint split_layer (s : list entry) (snap : Z) (dels : list RangeTombstone) (points : list entry)
    : list RangeTombstone * list entry :=
  match s with
  | [] => (dels, points)
  | (ikey, value) :: s =>
      if (snap <? sequence ikey)%Z then split_layer s snap dels points
      else if bool_decide (kind ikey = RangeDeletion) then
        split_layer s snap (dels ++ [tomb_of (ikey, value)]) points
      else split_layer s snap dels (points ++ [(ikey, value)])
  end.

Fixpoint split_layers (ss : list (list entry)) (snap : Z) (dels : list RangeTombstone)
    (out : list (list entry)) : list RangeTombstone * list (list entry) :=
  match ss with
  | [] => (dels, out)
  | s :: ss =>
      let '(dels, points) := split_layer s snap dels [] in
      split_layers ss snap dels (out ++ [points])
  end.

Definition iter_new (ss : list (list entry)) (snap : Z) (startb endb : Bound) (lim : option nat)
    : StreamingVisibleIter :=
  let '(dels, points) := split_layers ss snap [] [] in
  from_point_streams points dels snap startb endb lim.

(** * Iteration *)

(** [emit]. *)
Definition emit (e : entry) (it : StreamingVisibleIter) : WindowKv * StreamingVisibleIter :=
  let it := with_skip (Some (user_key e.1)) it in
  let range_hidden := range_deleted (user_key e.1) (sequence e.1) (range_dels it) in
  (mkWindow (user_key e.1) e.2 (get_live [kind e.1] [range_hidden]), it).

(** The fast path with one stream left. [None] is running out of fuel. *)
Fixpoint single_loop (fuel si : nat) (it : StreamingVisibleIter)
    : option (option WindowKv * StreamingVisibleIter) :=
  match fuel with
  | O => None
  | S fuel =>
      let '(hd, ss) := stream_next si (streams it) in
      let cur := head_at (heads it) si in
      let it :=
        match hd with
        | None => with_streams [] (<[si := None]> (heads it)) ss it
        | Some _ => with_streams (heap it) (<[si := hd]> (heads it)) ss it
        end in
      match cur with
      | None => Some (None, it)
      | Some e =>
          if (snapshot it <? sequence e.1)%Z then single_loop fuel si it
          else if skips_user it (user_key e.1) then single_loop fuel si it
          else if negb (in_range it (user_key e.1)) then
            if beyond_end it (user_key e.1)
            then Some (None, with_streams [] (<[si := None]> (heads it)) (streams it) it)
            else single_loop fuel si it
          else let '(row, it) := emit e it in Some (Some row, it)
      end
  end.

(** The state after popping stream [si], before its entry is examined. *)
Definition advance (si : nat) (h : list nat) (it : StreamingVisibleIter)
    : option entry * StreamingVisibleIter :=
  let '(hd, ss) := stream_next si (streams it) in
  let cur := head_at (heads it) si in
  if head_beyond it cur then (cur, with_streams h (<[si := None]> (heads it)) ss it)
  else if head_beyond it hd then (cur, with_streams h (<[si := None]> (heads it)) ss it)
  else
    let heads' := <[si := hd]> (heads it) in
    (cur, with_streams (if bool_decide (is_Some hd) then heap_push (head_lt heads') si h else h)
            heads' ss it).

(** The merging loop. *)
Fixpoint merge_loop (fuel : nat) (it : StreamingVisibleIter)
    : option (option WindowKv * StreamingVisibleIter) :=
  match fuel with
  | O => None
  | S fuel =>
      match heap_pop (head_lt (heads it)) (heap it) with
      | None => Some (None, it)
      | Some (si, h) =>
          let '(cur, it) := advance si h it in
          match cur with
          | None => merge_loop fuel it
          | Some e =>
              if (snapshot it <? sequence e.1)%Z then merge_loop fuel it
              else if skips_user it (user_key e.1) then merge_loop fuel it
              else if negb (in_range it (user_key e.1)) then merge_loop fuel it
              else let '(row, it) := emit e it in Some (Some row, it)
          end
      end
  end.

(** The entries a stream still holds, its head first. *)
Definition source (it : StreamingVisibleIter) (i : nat) : list entry :=
  match head_at (heads it) i with
  | Some e => e :: default [] (streams it !! i)
  | None => []
  end.
Definition pend (it : StreamingVisibleIter) : list entry := mjoin (source it <$> heap it).

(** [next_window_kv_inner]; every turn consumes an entry. *)
Definition next_window_kv (it : StreamingVisibleIter) : option (option WindowKv * StreamingVisibleIter) :=
  let fuel := S (length (pend it)) in
  match heap it with
  | [si] => single_loop fuel si it
  | _ => merge_loop fuel it
  end.

(** [Iterator::next] for [StreamingVisibleIter]. *)
Fixpoint next_loop (fuel : nat) (it : StreamingVisibleIter)
    : option (option VisibleKv * StreamingVisibleIter) :=
  match fuel with
  | O => None
  | S fuel =>
      '(row, it) ← next_window_kv it;
      match row with
      | None => Some (None, it)
      | Some row =>
          if iter_window_keep (w_live row)
          then Some (Some (mkVisible (w_key row) (w_value row)), with_emitted (S (emitted it)) it)
          else next_loop fuel it
      end
  end.

Definition next (it : StreamingVisibleIter) : option (option VisibleKv * StreamingVisibleIter) :=
  if match limit it with Some max => max <=? emitted it | None => false end then Some (None, it)
  else next_loop (S (length (pend it))) it.

(** [collect()] on the iterator. *)
Fixpoint collect_loop (fuel : nat) (it : StreamingVisibleIter) (out : list VisibleKv)
    : option (list VisibleKv) :=
  match fuel with
  | O => None
  | S fuel =>
      '(kv, it) ← next it;
      match kv with
      | None => Some out
      | Some kv => collect_loop fuel it (out ++ [kv])
      end
  end.
Definition collect (it : StreamingVisibleIter) : option (list VisibleKv) :=
  collect_loop (S (length (pend it))) it [].

(** * Lemmas *)

Lemma head_before_false a b :
  head_before b a = false ↔
    match a, b with
    | Some x, Some y => ikey_le x.1 y.1
    | Some _, None => True
    | None, b => b = None
    end.
Proof.
  destruct a as [[ka ?]|], b as [[kb ?]|]; cbn; [|done|done|done].
  rewrite <-not_true_iff_false, ikey_ltb_spec. done.
Qed.

#[export] Instance head_lt_order hd : WeakOrder (head_lt hd).
Proof.
  split.
  - intros x y. unfold head_lt. destruct (head_at hd x) as [[kx ?]|], (head_at hd y) as [[ky ?]|];
      cbn; try done. rewrite <-not_true_iff_false, !ikey_ltb_spec. intros H1 H2.
    apply (ikey_lt_irrefl kx). by etrans.
  - intros x y z. unfold le, head_lt. rewrite !head_before_false.
    destruct (head_at hd x), (head_at hd y), (head_at hd z); try done. apply ikey_le_trans.
Qed.

(** ** The invariant *)

Definition inv (it : StreamingVisibleIter) : Prop :=
  NoDup (heap it) ∧ length (streams it) = length (heads it) ∧
  (∀ i, i ∈ heap it → is_Some (head_at (heads it) i)) ∧
  is_heap (head_lt (heads it)) (heap it) ∧
  (∀ i, i ∈ heap it → StronglySorted ikey_le (source it i).*1).

(** Entries a snapshot read over the range may return. *)
Definition eligible (it : StreamingVisibleIter) (e : entry) : Prop :=
  (sequence e.1 ≤ snapshot it)%Z ∧ in_range it (user_key e.1) = true.

Definition same_params (it it' : StreamingVisibleIter) : Prop :=
  snapshot it' = snapshot it ∧ range_dels it' = range_dels it ∧ start it' = start it ∧
  end_ it' = end_ it ∧ limit it' = limit it ∧ emitted it' = emitted it.

(** [stepped it cur it']: [cur], a first entry of [it], is consumed; nothing
    else is lost but entries past the end. *)
Definition stepped (it : StreamingVisibleIter) (cur : entry) (it' : StreamingVisibleIter) : Prop :=
  inv it' ∧ same_params it it' ∧ skip_user it' = skip_user it ∧
  cur ∈ pend it ∧ (∀ e, e ∈ pend it → ikey_le cur.1 e.1) ∧
  (∀ e, e ∈ pend it' → e ∈ pend it) ∧
  (∀ e, e ∈ pend it → e = cur ∨ e ∈ pend it' ∨ beyond_end it (user_key e.1) = true) ∧
  length (pend it') < length (pend it).

Lemma elem_of_pend it e : e ∈ pend it ↔ ∃ i, i ∈ heap it ∧ e ∈ source it i.
Proof.
  unfold pend. rewrite list_elem_of_join. split.
  - intros (l & He & (i & -> & Hi)%list_elem_of_fmap). by exists i.
  - intros (i & Hi & He). exists (source it i). split; [done|]. by apply list_elem_of_fmap_2.
Qed.

Lemma pend_perm it (h : list nat) : heap it ≡ₚ h → pend it ≡ₚ mjoin (source it <$> h).
Proof. intros Hp. unfold pend. by rewrite Hp. Qed.

Lemma sources_ext (f g : nat → list entry) (h : list nat) :
  (∀ i, i ∈ h → f i = g i) → mjoin (f <$> h) = mjoin (g <$> h).
Proof.
  induction h as [|i h IH]; intros Hfg; [done|]. cbn. rewrite (Hfg i) by set_solver.
  f_equal. apply IH. set_solver.
Qed.

Lemma is_heap_ext lt lt' h :
  (∀ x y, x ∈ h → y ∈ h → lt x y = lt' x y) → is_heap lt h → is_heap lt' h.
Proof.
  intros He Hh i Hi Hl Hs. specialize (Hh i Hi Hl Hs). pose proof (parent_lt i Hi). unfold le in *.
  rewrite <-He; [done|..]; unfold at_.
  - destruct (lookup_lt_is_Some_2 h i) as [x Hx]; [done|]. rewrite Hx. by eapply list_elem_of_lookup_2.
  - destruct (lookup_lt_is_Some_2 h (parent i)) as [x Hx]; [lia|]. rewrite Hx.
    by eapply list_elem_of_lookup_2.
Qed.

Lemma head_at_insert_ne hd (si i : nat) o : si ≠ i → head_at (<[si:=o]> hd) i = head_at hd i.
Proof. intros. unfold head_at. by rewrite list_lookup_insert_ne. Qed.

Lemma head_at_insert_eq hd (si : nat) o : si < length hd → head_at (<[si:=o]> hd) si = o.
Proof. intros. unfold head_at. by rewrite list_lookup_insert_eq. Qed.

Lemma head_at_Some_length hd i : is_Some (head_at hd i) → i < length hd.
Proof.
  unfold head_at. destruct (hd !! i) eqn:E; [|by intros []]. intros _. by eapply lookup_lt_Some.
Qed.

(** Updating one stream leaves the sources and the order of the others. *)
Lemma other_sources it si o (ss : list (list entry)) h h0 :
  (∀ i, i ≠ si → ss !! i = streams it !! i) → si ∉ h →
  let it' := with_streams h0 (<[si:=o]> (heads it)) ss it in
  (∀ i, i ∈ h → source it' i = source it i ∧ head_at (heads it') i = head_at (heads it) i) ∧
  (is_heap (head_lt (heads it)) h → is_heap (head_lt (heads it')) h).
Proof.
  intros Hss Hni it'. split.
  - intros i Hi. assert (i ≠ si) as Hne by set_solver. unfold source. cbn.
    rewrite head_at_insert_ne by done. by rewrite Hss.
  - apply is_heap_ext. intros x y Hx Hy. unfold head_lt. cbn.
    by rewrite !head_at_insert_ne by set_solver.
Qed.

(** [stream_next] on the stream whose rest is [s]. *)
Lemma stream_next_spec si ss s :
  ss !! si = Some s →
  let '(hd, ss') := stream_next si ss in
  length ss' = length ss ∧ (∀ i, i ≠ si → ss' !! i = ss !! i) ∧
  match hd with
  | None => s = []
  | Some e => ∃ s', s = e :: s' ∧ ss' !! si = Some s'
  end.
Proof.
  intros Hs. unfold stream_next. rewrite Hs. destruct s as [|e s']; [done|].
  rewrite length_insert. split_and!; [done| |].
  - intros i Hi. by rewrite list_lookup_insert_ne.
  - exists s'. split; [done|]. apply list_lookup_insert_eq. by eapply lookup_lt_Some.
Qed.

Lemma past_end_mono a b endb : ¬ bytes_lt b a → past_end a endb = true → past_end b endb = true.
Proof.
  intros Hle. destruct endb as [|e|e]; cbn; [done| |].
  - rewrite !bytes_ltb_spec. intros H. by eapply bytes_lt_le_trans.
  - rewrite !bytes_leb_spec. intros H Hlt. apply H. by eapply bytes_le_lt_trans.
Qed.

Lemma past_end_out uk startb endb : past_end uk endb = true → user_key_in_range uk startb endb = false.
Proof.
  intros H. unfold user_key_in_range. apply andb_false_iff. right.
  destruct endb as [|e|e]; cbn in *; [done| |].
  - apply not_true_iff_false. rewrite bytes_leb_spec. intros Hn. by apply Hn, bytes_ltb_spec.
  - apply not_true_iff_false. rewrite bytes_ltb_spec. by apply bytes_leb_spec.
Qed.

Lemma source_cons it i e :
  head_at (heads it) i = Some e → source it i = e :: default [] (streams it !! i).
Proof. intros E. unfold source. by rewrite E. Qed.

Lemma sorted_head (x : entry) l e : StronglySorted ikey_le (x :: l).*1 → e ∈ l → ikey_le x.1 e.1.
Proof.
  intros Hs He. cbn in Hs. apply StronglySorted_inv in Hs as [_ Hx]. rewrite Forall_forall in Hx.
  apply Hx. by apply list_elem_of_fmap_2.
Qed.

(** A top of the heap holds a first entry. *)
Lemma pend_min it si e :
  inv it → head_at (heads it) si = Some e →
  (∀ i, i ∈ heap it → le (head_lt (heads it)) si i) →
  ∀ x, x ∈ pend it → ikey_le e.1 x.1.
Proof.
  intros (_ & _ & Hsome & _ & Hsort) He Hmin x (i & Hi & Hx)%elem_of_pend.
  destruct (Hsome i Hi) as [ei Hei]. specialize (Hmin i Hi). specialize (Hsort i Hi).
  rewrite (source_cons it i ei Hei) in Hx, Hsort.
  unfold le, head_lt in Hmin. rewrite head_before_false, He, Hei in Hmin.
  apply elem_of_cons in Hx as [->|Hx]; [done|]. eapply ikey_le_trans; [done|].
  by eapply sorted_head.
Qed.

Section step.
Context (it : StreamingVisibleIter) (si : nat) (h : list nat) (e : entry) (s : list entry)
        (ss : list (list entry)).
Context (Hinv : inv it) (Hperm : si :: h ≡ₚ heap it)
        (Hmin : ∀ i, i ∈ heap it → le (head_lt (heads it)) si i)
        (Hh : is_heap (head_lt (heads it)) h)
        (He : head_at (heads it) si = Some e) (Hs : streams it !! si = Some s)
        (Hlen : length ss = length (streams it))
        (Hother : ∀ i, i ≠ si → ss !! i = streams it !! i).
#[local] Set Default Proof Using "All".

Lemma step_facts :
  si ∉ h ∧ NoDup h ∧ si < length (heads it) ∧ source it si = e :: s ∧
  pend it ≡ₚ (e :: s) ++ mjoin (source it <$> h) ∧
  StronglySorted ikey_le (e :: s).*1 ∧
  (∀ i, i ∈ h → is_Some (head_at (heads it) i) ∧ StronglySorted ikey_le (source it i).*1) ∧
  e ∈ pend it ∧ ∀ x, x ∈ pend it → ikey_le e.1 x.1.
Proof.
  pose proof Hinv as (Hnd & Hl & Hsome & _ & Hsort).
  rewrite <-Hperm in Hnd. apply NoDup_cons in Hnd as [Hni Hnd].
  assert (source it si = e :: s) as Hsrc by (rewrite (source_cons _ _ e) by done; by rewrite Hs).
  assert (si ∈ heap it) as Hsi by (rewrite <-Hperm; set_solver).
  split_and!; try done.
  - apply head_at_Some_length. by eexists.
  - rewrite (pend_perm it (si :: h)) by (by symmetry). cbn. by rewrite Hsrc.
  - rewrite <-Hsrc. by apply Hsort.
  - intros i Hi. assert (i ∈ heap it) by (rewrite <-Hperm; set_solver). by split; [apply Hsome|apply Hsort].
  - apply elem_of_pend. exists si. split; [done|]. rewrite Hsrc. set_solver.
  - by apply pend_min with (si := si).
Qed.

(** The stream leaves the heap: it is exhausted, or past the end. *)
Lemma step_drop :
  (∀ x, x ∈ s → beyond_end it (user_key x.1) = true) →
  stepped it e (with_streams h (<[si:=None]> (heads it)) ss it).
Proof.
  intros Hbeyond. destruct step_facts as (Hni & Hnd & Hsil & Hsrc & Hp & Hsort & Hoth & Hin & Hmin').
  destruct (other_sources it si None ss h h Hother Hni) as [Ho Hheap].
  set (it' := with_streams h _ ss it) in *.
  assert (pend it' = mjoin (source it <$> h)) as Hp'.
  { unfold pend. apply sources_ext. intros i Hi. by apply Ho. }
  unfold stepped. rewrite Hp'. split_and!; try done.
  - unfold inv. cbn. rewrite length_insert. destruct Hinv as (_ & Hl & _). split_and!; [done|congruence| |by apply Hheap|].
    + intros i Hi. destruct (Ho i Hi) as [_ Hhd]. cbn in Hhd. rewrite Hhd. by apply Hoth.
    + intros i Hi. rewrite (proj1 (Ho i Hi)). by apply Hoth.
  - intros x Hx. rewrite Hp. set_solver.
  - intros x Hx. rewrite Hp in Hx. set_solver.
  - rewrite Hp. len.
Qed.

(** The stream stays, with its next entry as head. *)
Lemma step_keep e2 s2 h' :
  s = e2 :: s2 → ss !! si = Some s2 →
  h' ≡ₚ si :: h → is_heap (head_lt (<[si:=Some e2]> (heads it))) h' →
  stepped it e (with_streams h' (<[si:=Some e2]> (heads it)) ss it).
Proof.
  intros Hs2 Hss Hph Hh'.
  destruct step_facts as (Hni & Hnd & Hsil & Hsrc & Hp & Hsort & Hoth & Hin & Hmin').
  destruct (other_sources it si (Some e2) ss h h' Hother Hni) as [Ho _].
  set (it' := with_streams h' _ ss it) in *.
  assert (source it' si = s) as Hsrc'.
  { rewrite (source_cons _ _ e2) by (cbn; by apply head_at_insert_eq). cbn. rewrite Hss. by rewrite Hs2. }
  assert (pend it' ≡ₚ s ++ mjoin (source it <$> h)) as Hp'.
  { rewrite (pend_perm it' (si :: h)) by done. cbn. rewrite Hsrc'. f_equiv.
    erewrite (sources_ext (source it')); [done|]. intros i Hi. by apply Ho. }
  unfold stepped. split_and!; try done.
  - unfold inv. cbn. rewrite length_insert. destruct Hinv as (_ & Hl & _).
    split_and!; [by rewrite Hph; apply NoDup_cons|congruence| |done|].
    + intros i Hi. rewrite Hph in Hi. apply elem_of_cons in Hi as [->|Hi].
      * rewrite head_at_insert_eq by done. by eexists.
      * destruct (Ho i Hi) as [_ Hhd]. cbn in Hhd. rewrite Hhd. by apply Hoth.
    + intros i Hi. rewrite Hph in Hi. apply elem_of_cons in Hi as [->|Hi].
      * rewrite Hsrc'. cbn in Hsort. by apply StronglySorted_inv in Hsort as [? _].
      * rewrite (proj1 (Ho i Hi)). by apply Hoth.
  - intros x Hx. rewrite Hp' in Hx. rewrite Hp. set_solver.
  - intros x Hx. rewrite Hp in Hx. rewrite Hp'. set_solver.
  - rewrite Hp, Hp'. len.
Qed.
End step.

Lemma source_rest it i : inv it → i ∈ heap it →
  ∃ e s, head_at (heads it) i = Some e ∧ streams it !! i = Some s.
Proof.
  intros (_ & Hl & Hsome & _) Hi. destruct (Hsome i Hi) as [e He].
  pose proof (head_at_Some_length _ _ (Hsome i Hi)) as Hlt. rewrite <-Hl in Hlt.
  destruct (lookup_lt_is_Some_2 _ _ Hlt) as [s Hs]. by exists e, s.
Qed.

(** Popping a stream and advancing it consumes a first entry. *)
Lemma advance_ok it si h :
  inv it → heap_pop (head_lt (heads it)) (heap it) = Some (si, h) →
  ∃ e it', advance si h it = (Some e, it') ∧ stepped it e it'.
Proof.
  intros Hinv Hpop. pose proof Hinv as (_ & _ & _ & Hheap & _).
  pose proof (heap_pop_ok _ _ Hheap) as Hp. rewrite Hpop in Hp. destruct Hp as (Hh & Hperm & Hmin).
  destruct (source_rest it si Hinv) as (e & s & He & Hs); [rewrite <-Hperm; set_solver|].
  pose proof (stream_next_spec si _ s Hs) as Hn. unfold advance. rewrite He.
  destruct (stream_next si (streams it)) as [hd ss]. destruct Hn as (Hlen & Hother & Hhd).
  destruct (step_facts it si h e s ss Hinv Hperm Hmin Hh He Hs Hlen Hother)
    as (Hni & _ & _ & _ & _ & Hsort & _).
  assert (∀ x y : entry, ikey_le x.1 y.1 → beyond_end it (user_key x.1) = true →
            beyond_end it (user_key y.1) = true) as Hmono.
  { intros x y Hle. apply past_end_mono. by apply ikey_le_user. }
  destruct (head_beyond it (Some e)) eqn:Hbe.
  { eexists e, _. split; [done|]. eapply step_drop; try done. intros x Hx.
    destruct e as [k v]. apply (Hmono (k, v)); [by eapply sorted_head|done]. }
  destruct hd as [e2|].
  - destruct Hhd as (s2 & -> & Hs2). destruct (head_beyond it (Some e2)) eqn:Hb2.
    + eexists e, _. split; [done|]. eapply step_drop; try done. intros x Hx. destruct e2 as [k2 v2].
      apply elem_of_cons in Hx as [->|Hx]; [done|]. apply (Hmono (k2, v2)); [|done].
      cbn in Hsort. apply StronglySorted_inv in Hsort as [Hsort _]. by eapply (sorted_head (k2, v2)).
    + eexists e, _. split; [done|]. rewrite bool_decide_eq_true_2 by (by eexists).
      destruct (other_sources it si (Some e2) ss h h Hother Hni) as [_ Hh']. cbn in Hh'.
      destruct (heap_push_ok (head_lt (<[si:=Some e2]> (heads it))) si h (Hh' Hh)) as [??].
      by eapply step_keep.
  - subst s. cbn [head_beyond]. rewrite bool_decide_eq_false_2 by (by intros []).
    eexists e, _. split; [done|]. eapply step_drop; try done. set_solver.
Qed.

(** ** What [next_window_kv] returns *)

Definition row_of (it : StreamingVisibleIter) (e : entry) : WindowKv := (emit e it).1.

Definition next_ok (it : StreamingVisibleIter) (row : option WindowKv) (it' : StreamingVisibleIter)
    : Prop :=
  inv it' ∧ same_params it it' ∧ (∀ e, e ∈ pend it' → e ∈ pend it) ∧
  match row with
  | None => ∀ e, e ∈ pend it → eligible it e → skip_user it = Some (user_key e.1)
  | Some row =>
      ∃ e, e ∈ pend it ∧ eligible it e ∧ skip_user it ≠ Some (user_key e.1) ∧ row = row_of it e ∧
        skip_user it' = Some (user_key e.1) ∧ length (pend it') < length (pend it) ∧
        (∀ x, x ∈ pend it' → ikey_le e.1 x.1) ∧
        ∀ x, x ∈ pend it → eligible it x → skip_user it = Some (user_key x.1) ∨
             ikey_le e.1 x.1 ∧ (user_key x.1 = user_key e.1 ∨ x ∈ pend it')
  end.

Lemma eligible_params it it' e : same_params it it' → eligible it' e ↔ eligible it e.
Proof.
  intros (Hs & _ & Hst & Hen & _). unfold eligible, in_range. by rewrite Hs, Hst, Hen.
Qed.

Lemma beyond_not_eligible it e : beyond_end it (user_key e.1) = true → ¬ eligible it e.
Proof.
  intros Hb [_ Hr]. unfold in_range, beyond_end in *. by rewrite (past_end_out _ (start it)) in Hr.
Qed.

Lemma same_params_trans a b c : same_params a b → same_params b c → same_params a c.
Proof. intros (?&?&?&?&?&?) (?&?&?&?&?&?). split_and!; congruence. Qed.

(** An entry that is not returned can be skipped. *)
Lemma next_ok_skip it cur it1 row it' :
  stepped it cur it1 → (eligible it cur → skip_user it = Some (user_key cur.1)) →
  next_ok it1 row it' → next_ok it row it'.
Proof.
  intros (_ & Hpar & Hskip & Hin & Hmin & Hsub & Hcov & Hlt) Hcur (Hinv' & Hpar' & Hsub' & Hrow).
  assert (∀ x, x ∈ pend it → eligible it x → skip_user it = Some (user_key x.1) ∨ x ∈ pend it1) as Hx.
  { intros x Hx Hel. destruct (Hcov x Hx) as [->|[?|Hb]]; [by left; apply Hcur|by right|].
    by apply beyond_not_eligible in Hb. }
  unfold next_ok. split_and!; [done|by eapply same_params_trans|naive_solver|].
  destruct row as [row|].
  - destruct Hrow as (e & He & Hel & Hne & -> & Hsk & Hlt' & Hge & Hall).
    rewrite eligible_params in Hel by done. rewrite Hskip in Hne, Hall.
    exists e. split_and!; [by apply Hsub|done|done| |done|lia|done|].
    + unfold row_of, emit. cbn. destruct Hpar as (_ & -> & _). done.
    + intros x Hx1 Hel1. destruct (Hx x Hx1 Hel1) as [?|Hx2]; [by left|].
      apply Hall; [done|]. by apply (eligible_params it it1).
  - intros x Hx1 Hel1. destruct (Hx x Hx1 Hel1) as [?|Hx2]; [done|].
    rewrite <-Hskip. apply Hrow; [done|]. by apply (eligible_params it it1).
Qed.

Lemma next_ok_emit it cur it1 row it' :
  stepped it cur it1 → eligible it cur → skip_user it ≠ Some (user_key cur.1) →
  emit cur it1 = (row, it') → next_ok it (Some row) it'.
Proof.
  intros (Hinv & Hpar & Hskip & Hin & Hmin & Hsub & Hcov & Hlt) Hel Hne Hem.
  unfold emit in Hem. injection Hem as <- <-.
  assert (pend (with_skip (Some (user_key cur.1)) it1) = pend it1) as Hpe by done.
  unfold next_ok. rewrite Hpe. split_and!; [done|done|done|]. exists cur. split_and!; try done.
  - unfold row_of, emit. cbn. destruct Hpar as (_ & -> & _). done.
  - intros x Hx. by apply Hmin, Hsub.
  - intros x Hx Helx. right. split; [by apply Hmin|].
    destruct (Hcov x Hx) as [->|[?|Hb]]; [by left|by right|]. by apply beyond_not_eligible in Hb.
Qed.

Lemma stepped_params it cur it1 : stepped it cur it1 → same_params it it1 ∧ skip_user it1 = skip_user it.
Proof. intros (_ & ? & ? & _). done. Qed.

(** The checks the loops make on a consumed entry. *)
Lemma skips_user_spec it uk : skips_user it uk = true ↔ skip_user it = Some uk.
Proof.
  unfold skips_user. destruct (skip_user it) as [u|]; [|naive_solver]. rewrite bytes_eqb_spec. naive_solver.
Qed.

Lemma not_eligible_seq it it1 e :
  same_params it it1 → (snapshot it1 <? sequence e.1)%Z = true → ¬ eligible it e.
Proof. intros (-> & _) Hlt%Z.ltb_lt [? _]. lia. Qed.

Lemma not_eligible_range it it1 e :
  same_params it it1 → negb (in_range it1 (user_key e.1)) = true → ¬ eligible it e.
Proof.
  intros (_ & _ & Hs & He & _) Hr [_ Hi]. unfold in_range in *. rewrite Hs, He, Hi in Hr. done.
Qed.

Lemma eligible_intro it it1 e :
  same_params it it1 → (snapshot it1 <? sequence e.1)%Z = false →
  negb (in_range it1 (user_key e.1)) = false → eligible it e.
Proof.
  intros (Hn & _ & Hs & He & _) Hlt%Z.ltb_ge Hr%negb_false_iff. unfold eligible, in_range in *.
  by rewrite Hs, He, Hn in *.
Qed.

Lemma merge_loop_ok fuel it :
  inv it → length (pend it) < fuel →
  ∃ row it', merge_loop fuel it = Some (row, it') ∧ next_ok it row it'.
Proof.
  revert it. induction fuel as [|fuel IH]; intros it Hinv Hf; [lia|]. cbn [merge_loop].
  destruct (heap_pop (head_lt (heads it)) (heap it)) as [[si h]|] eqn:Hpop.
  - destruct (advance_ok it si h Hinv Hpop) as (e & it1 & -> & Hst).
    pose proof (stepped_params _ _ _ Hst) as [Hpar Hsk].
    assert ((eligible it e → skip_user it = Some (user_key e.1)) →
            ∃ row it', merge_loop fuel it1 = Some (row, it') ∧ next_ok it row it') as Hgo.
    { intros Hskip. pose proof Hst as (Hinv1 & _ & _ & _ & _ & _ & _ & Hlt).
      destruct (IH it1 Hinv1 ltac:(lia)) as (row & it' & -> & Hok). exists row, it'.
      split; [done|]. by eapply next_ok_skip. }
    destruct (snapshot it1 <? sequence e.1)%Z eqn:E1.
    { apply Hgo. intros Hel. by eapply not_eligible_seq in Hel. }
    destruct (skips_user it1 (user_key e.1)) eqn:E2.
    { apply Hgo. intros _. rewrite <-Hsk. by apply skips_user_spec. }
    destruct (negb (in_range it1 (user_key e.1))) eqn:E3.
    { apply Hgo. intros Hel. by eapply not_eligible_range in Hel. }
    destruct (emit e it1) as [row it'] eqn:Hem. exists (Some row), it'. split; [done|].
    eapply next_ok_emit; [done|by eapply eligible_intro| |done].
    rewrite <-Hsk. intros Hc%skips_user_spec. congruence.
  - exists None, it. split; [done|]. pose proof Hinv as (_ & _ & _ & Hheap & _).
    pose proof (heap_pop_ok _ _ Hheap) as Hp. rewrite Hpop in Hp.
    split_and!; try done. intros e He. unfold pend in He. rewrite Hp in He.
    by apply not_elem_of_nil in He.
Qed.

Lemma single_heap lt i : is_heap lt [i].
Proof. intros j Hj Hl. cbn in Hl. lia. Qed.

Lemma nil_heap lt : is_heap lt [].
Proof. intros j Hj Hl. cbn in Hl. lia. Qed.

(** An exhausted iterator. *)
Lemma empty_next_ok it it' :
  inv it → heap it = [] → length (streams it') = length (heads it') → heap it' = [] →
  same_params it it' → next_ok it None it'.
Proof.
  intros Hinv Hh Hl Hh' Hpar.
  assert (pend it = [] ∧ pend it' = []) as [Hp Hp'] by (unfold pend; by rewrite Hh, Hh').
  unfold next_ok, inv. rewrite Hp, Hp', Hh'.
  split_and!; [constructor|done|set_solver|apply nil_heap|set_solver|done|set_solver|set_solver].
Qed.

Definition single_state (si : nat) (it : StreamingVisibleIter) : Prop :=
  heap it = [si] ∨ heap it = [] ∧ head_at (heads it) si = None ∧ streams it !! si = Some [].

(** One turn of the fast path. *)
Lemma single_step_ok si it :
  inv it → heap it = [si] →
  let '(hd, ss) := stream_next si (streams it) in
  let it1 := match hd with
             | None => with_streams [] (<[si := None]> (heads it)) ss it
             | Some _ => with_streams (heap it) (<[si := hd]> (heads it)) ss it
             end in
  ∃ e, head_at (heads it) si = Some e ∧ stepped it e it1 ∧ single_state si it1 ∧
       (∀ x, x ∈ pend it → ikey_le e.1 x.1).
Proof.
  intros Hinv Hh. destruct (source_rest it si Hinv) as (e & s & He & Hs); [rewrite Hh; set_solver|].
  pose proof (stream_next_spec si _ s Hs) as Hn.
  destruct (stream_next si (streams it)) as [hd ss] eqn:Hnext. destruct Hn as (Hlen & Hother & Hhd).
  assert (∀ i, i ∈ heap it → le (head_lt (heads it)) si i) as Hmin.
  { rewrite Hh. intros i ->%list_elem_of_singleton. apply le_refl. apply _. }
  assert ([si] ≡ₚ heap it) as Hperm by (by rewrite Hh).
  exists e. split; [done|]. cbn zeta. split_and!.
  - destruct hd as [e2|].
    + destruct Hhd as (s2 & -> & Hs2). rewrite Hh.
      eapply (step_keep it si [] e _ ss Hinv Hperm Hmin (nil_heap _) He Hs Hlen Hother); try done.
      apply single_heap.
    + subst s. apply (step_drop it si [] e _ ss Hinv Hperm Hmin (nil_heap _) He Hs Hlen Hother). set_solver.
  - destruct hd as [e2|]; [by left|right]. subst s. cbn. split_and!; [done| |].
    + apply head_at_insert_eq, head_at_Some_length. by eexists.
    + unfold stream_next in Hnext. rewrite Hs in Hnext. by injection Hnext as <-.
  - by apply pend_min with (si := si).
Qed.

Lemma single_loop_ok fuel si it :
  inv it → single_state si it → length (pend it) < fuel →
  ∃ row it', single_loop fuel si it = Some (row, it') ∧ next_ok it row it'.
Proof.
  revert it. induction fuel as [|fuel IH]; intros it Hinv Hst Hf; [lia|]. cbn [single_loop].
  destruct Hst as [Hh|(Hh & He & Hs)].
  2:{ unfold stream_next. rewrite Hs, He. eexists None, _. split; [done|].
      apply empty_next_ok; try done. cbn. rewrite length_insert. apply Hinv. }
  pose proof (single_step_ok si it Hinv Hh) as Hstep.
  destruct (stream_next si (streams it)) as [hd ss]. destruct Hstep as (e & -> & Hstep & Hst1 & Hmin).
  set (it1 := match hd with None => _ | Some _ => _ end) in *.
  pose proof (stepped_params _ _ _ Hstep) as [Hpar Hsk]. pose proof Hstep as (Hinv1 & _ & _ & _ & _ & _ & _ & Hlt).
  assert ((eligible it e → skip_user it = Some (user_key e.1)) →
          ∃ row it', single_loop fuel si it1 = Some (row, it') ∧ next_ok it row it') as Hgo.
  { intros Hskip. destruct (IH it1 Hinv1 Hst1 ltac:(lia)) as (row & it' & -> & Hok). exists row, it'.
    split; [done|]. by eapply next_ok_skip. }
  destruct (snapshot it1 <? sequence e.1)%Z eqn:E1.
  { apply Hgo. intros Hel. by eapply not_eligible_seq in Hel. }
  destruct (skips_user it1 (user_key e.1)) eqn:E2.
  { apply Hgo. intros _. rewrite <-Hsk. by apply skips_user_spec. }
  destruct (negb (in_range it1 (user_key e.1))) eqn:E3.
  { destruct (beyond_end it1 (user_key e.1)) eqn:Hbe.
    2:{ apply Hgo. intros Hel. by eapply not_eligible_range in Hel. }
    eexists None, _. split; [done|]. unfold next_ok. split_and!.
    - unfold inv. cbn. split_and!; [constructor| |set_solver|apply nil_heap|set_solver].
      rewrite length_insert. apply Hinv1.
    - done.
    - unfold pend. cbn. set_solver.
    - intros x Hx Hel. exfalso. apply (beyond_not_eligible it x); [|done].
      unfold beyond_end in *. destruct Hpar as (_ & _ & _ & Hen & _). rewrite Hen in Hbe.
      eapply past_end_mono; [|done]. by apply ikey_le_user, Hmin. }
  destruct (emit e it1) as [row it'] eqn:Hem. exists (Some row), it'. split; [done|].
  eapply next_ok_emit; [done|by eapply eligible_intro| |done].
  rewrite <-Hsk. intros Hc%skips_user_spec. congruence.
Qed.

Lemma next_window_kv_ok it :
  inv it → ∃ row it', next_window_kv it = Some (row, it') ∧ next_ok it row it'.
Proof.
  intros Hinv. unfold next_window_kv.
  destruct (heap it) as [|si [|sj h]] eqn:Hh; [apply merge_loop_ok; [done|lia]|
    |apply merge_loop_ok; [done|lia]].
  apply single_loop_ok; [done|by left|lia].
Qed.

(** ** Collecting *)

(** Entries still to be returned or superseded. *)
Definition due (it : StreamingVisibleIter) : list entry :=
  filter (λ e, (sequence e.1 <= snapshot it)%Z ∧ in_range it (user_key e.1) = true ∧
               skip_user it ≠ Some (user_key e.1)) (pend it).

Lemma elem_of_due it e :
  e ∈ due it ↔ e ∈ pend it ∧ eligible it e ∧ skip_user it ≠ Some (user_key e.1).
Proof. unfold due, eligible. rewrite list_elem_of_filter. naive_solver. Qed.

(** Nothing left is before the last key returned. *)
Definition skip_ok (it : StreamingVisibleIter) : Prop :=
  ∀ u, skip_user it = Some u → ∀ e, e ∈ pend it → ¬ bytes_lt (user_key e.1) u.

Lemma next_rows it row it' :
  next_ok it (Some row) it' → skip_ok it →
  skip_ok it' ∧ ∃ e, row = row_of it e ∧
    ∀ rows, newest_rows (due it') rows → newest_rows (due it) (e :: rows).
Proof.
  intros (_ & Hpar & Hsub & e & He & Hel & Hne & -> & Hsk & _ & Hge & Hall) Hok.
  split.
  { intros u Hu x Hx. rewrite Hsk in Hu. injection Hu as <-. by apply ikey_le_user, Hge. }
  exists e. split; [done|]. intros rows (Hs & Hr & Hcov).
  assert (∀ u, skip_user it = Some u → bytes_lt u (user_key e.1)) as Hue.
  { intros u Hu. specialize (Hok u Hu e He).
    destruct (bytes_trichotomy u (user_key e.1)) as [?|[->|?]]; done. }
  assert (∀ r, r ∈ due it' → r ∈ due it ∧ bytes_lt (user_key e.1) (user_key r.1)) as Hdue.
  { intros r (Hrp & Hrel & Hrn)%elem_of_due. rewrite Hsk in Hrn.
    assert (bytes_lt (user_key e.1) (user_key r.1)) as Hlt.
    { pose proof (ikey_le_user _ _ (Hge r Hrp)).
      destruct (bytes_trichotomy (user_key e.1) (user_key r.1)) as [?|[?|?]]; [done|congruence|done]. }
    split; [|done]. apply elem_of_due. split_and!; [by apply Hsub|by apply (eligible_params it it')|].
    intros Hu. apply Hue in Hu. apply (bytes_lt_irrefl (user_key r.1)). by etrans. }
  assert (∀ x, x ∈ due it → ikey_le e.1 x.1 ∧ (user_key x.1 = user_key e.1 ∨ x ∈ due it')) as Hx.
  { intros x (Hxp & Hxel & Hxn)%elem_of_due. destruct (Hall x Hxp Hxel) as [?|[Hle Hor]]; [done|].
    split; [done|]. destruct (decide (user_key x.1 = user_key e.1)) as [|Hnk]; [by left|right].
    destruct Hor as [?|Hxp']; [done|]. apply elem_of_due. split_and!; [done|by apply (eligible_params it it')|].
    rewrite Hsk. congruence. }
  split_and!.
  - cbn. constructor; [done|]. apply Forall_forall. intros k (r & -> & Hrr)%list_elem_of_fmap.
    by apply Hdue, Hr.
  - intros r [->|Hrr]%elem_of_cons.
    + split; [by apply elem_of_due|]. intros x Hxd _. by apply Hx.
    + destruct (Hr r Hrr) as [Hrd Hrmin]. destruct (Hdue r Hrd) as [? Hlt]. split; [done|].
      intros x Hxd Heq. destruct (Hx x Hxd) as [_ [Hk|Hxd']]; [|by apply Hrmin].
      rewrite <-Heq, Hk in Hlt. by apply bytes_lt_irrefl in Hlt.
  - intros x Hxd. destruct (Hx x Hxd) as [_ [Hk|Hxd']]; [exists e; set_solver|].
    destruct (Hcov x Hxd') as (r & ? & ?). exists r. set_solver.
Qed.

Lemma next_none_rows it it' : next_ok it None it' → newest_rows (due it) [].
Proof.
  intros (_ & _ & _ & Hall). split_and!; [constructor|set_solver|].
  intros e (Hp & Hel & Hn)%elem_of_due. by destruct Hn; apply Hall.
Qed.

(** The rows exist (they are what repeated calls return). *)
Lemma rows_exist it : inv it → skip_ok it → ∃ rows, newest_rows (due it) rows.
Proof.
  remember (length (pend it)) as n eqn:Hn. revert it Hn.
  induction (lt_wf n) as [n _ IH]. intros it -> Hinv Hok.
  destruct (next_window_kv_ok it Hinv) as (row & it' & _ & Hnext).
  destruct row as [row|]; [|exists []; by eapply next_none_rows].
  destruct (next_rows _ _ _ Hnext Hok) as (Hok' & e & _ & Hrows).
  destruct Hnext as (Hinv' & _ & _ & ? & _ & _ & _ & _ & _ & Hlt & _).
  destruct (IH _ Hlt it' eq_refl Hinv' Hok') as [rows Hr]. exists (e :: rows). by apply Hrows.
Qed.

Lemma row_of_live it e :
  (if iter_window_keep (w_live (row_of it e))
   then Some (mkVisible (w_key (row_of it e)) (w_value (row_of it e))) else None) =
  live_row (range_dels it) e.
Proof. done. Qed.

Lemma next_loop_ok fuel it :
  inv it → skip_ok it → length (pend it) < fuel →
  ∃ kv it', next_loop fuel it = Some (kv, it') ∧
    match kv with
    | None => ∃ rows, newest_rows (due it) rows ∧ omap (live_row (range_dels it)) rows = []
    | Some kv =>
        inv it' ∧ skip_ok it' ∧ length (pend it') < length (pend it) ∧
        range_dels it' = range_dels it ∧ limit it' = limit it ∧ emitted it' = S (emitted it) ∧
        ∀ rows', newest_rows (due it') rows' → ∃ rows, newest_rows (due it) rows ∧
          omap (live_row (range_dels it)) rows = kv :: omap (live_row (range_dels it)) rows'
    end.
Proof.
  revert it. induction fuel as [|fuel IH]; intros it Hinv Hok Hf; [lia|]. cbn [next_loop].
  destruct (next_window_kv_ok it Hinv) as (row & it1 & -> & Hnext). cbn [mbind option_bind].
  destruct row as [row|].
  2:{ eexists None, it1. split; [done|]. exists []. split; [by eapply next_none_rows|done]. }
  destruct (next_rows _ _ _ Hnext Hok) as (Hok1 & e & -> & Hrows).
  destruct Hnext as (Hinv1 & (_ & Hd & _ & _ & Hl & Hem) & _ & ? & _ & _ & _ & _ & _ & Hlt & _).
  pose proof (row_of_live it e) as Hlive.
  destruct (iter_window_keep (w_live (row_of it e))) eqn:Ekeep.
  - eexists (Some _), _. split; [done|]. split_and!; try done; [cbn; congruence|].
    intros rows' Hr. exists (e :: rows'). split; [by apply Hrows|]. cbn. by rewrite <-Hlive.
  - destruct (IH it1 Hinv1 Hok1 ltac:(lia)) as (kv & it' & -> & Hres). exists kv, it'. split; [done|].
    rewrite Hd in Hres. destruct kv as [kv|].
    + destruct Hres as (? & ? & ? & ? & ? & ? & Hrest). split_and!; try done; [lia|congruence|congruence|].
      intros rows' Hr. destruct (Hrest rows' Hr) as (rows & Hrs & Heq). exists (e :: rows).
      split; [by apply Hrows|]. cbn. by rewrite <-Hlive.
    + destruct Hres as (rows & Hrs & Heq). exists (e :: rows). split; [by apply Hrows|].
      cbn. by rewrite <-Hlive.
Qed.

Lemma collect_loop_ok fuel it out :
  inv it → skip_ok it → length (pend it) < fuel →
  ∃ rows, newest_rows (due it) rows ∧
    collect_loop fuel it out =
      Some (out ++ take_limit ((λ m, m - emitted it) <$> limit it)
                     (omap (live_row (range_dels it)) rows)).
Proof.
  revert it out. induction fuel as [|fuel IH]; intros it out Hinv Hok Hf; [lia|]. cbn [collect_loop].
  unfold next. destruct (match limit it with Some max => _ | None => false end) eqn:Hlim.
  { destruct (rows_exist it Hinv Hok) as [rows Hr]. exists rows. split; [done|]. cbn.
    destruct (limit it) as [m|]; [|done]. apply Nat.leb_le in Hlim. cbn.
    replace (m - emitted it) with 0 by lia. by rewrite take_0, app_nil_r. }
  destruct (next_loop_ok (S (length (pend it))) it Hinv Hok ltac:(lia)) as (kv & it' & -> & Hres).
  cbn [mbind option_bind]. destruct kv as [kv|].
  - destruct Hres as (Hinv' & Hok' & Hlt & Hd & Hl & Hem & Hrest).
    destruct (IH it' (out ++ [kv]) Hinv' Hok' ltac:(lia)) as (rows' & Hr' & ->).
    destruct (Hrest rows' Hr') as (rows & Hr & Heq). exists rows. split; [done|].
    rewrite Heq, Hd, Hl, Hem, <-(assoc_L (++)). f_equal. f_equal.
    destruct (limit it) as [m|]; cbn; [|done]. apply Nat.leb_gt in Hlim.
    by replace (m - emitted it) with (S (m - S (emitted it))) by lia.
  - destruct Hres as (rows & Hr & Heq). exists rows. split; [done|]. rewrite Heq.
    destruct (limit it); cbn; by rewrite ?take_nil, app_nil_r.
Qed.

(** ** Construction *)

Definition head_of (endb : Bound) (s : list entry) : option entry :=
  match s with
  | e :: _ => if past_end (user_key e.1) endb then None else Some e
  | [] => None
  end.

Lemma init_heads_spec i ss endb h hd rest :
  length hd = i → length rest = i → NoDup h → Forall (λ j, j < i) h →
  let '(h', hd', rest') := init_heads i ss endb h hd rest in
  hd' = hd ++ (head_of endb <$> ss) ∧ rest' = rest ++ (tail <$> ss) ∧ NoDup h' ∧
  ∀ j, j ∈ h' ↔ j ∈ h ∨ ∃ s, i ≤ j ∧ ss !! (j - i) = Some s ∧ is_Some (head_of endb s).
Proof.
  revert i h hd rest. induction ss as [|s ss IH]; intros i h hd rest Hhd Hrest Hnd Hlt; cbn [init_heads].
  { rewrite !app_nil_r. split_and!; [done|done|done|]. set_solver. }
  destruct s as [|[k v] s']; cbn [fmap list_fmap head_of tail fst].
  - rewrite bool_decide_eq_false_2 by (by intros []).
    specialize (IH (S i) h (hd ++ [None]) (rest ++ [[]])). destruct (init_heads _ _ _ _ _ _) as [[h' hd'] rest'].
    destruct IH as (-> & -> & ? & Hin); [len|len|done|eapply Forall_impl; [done|]; intros; cbn in *; lia|].
    rewrite <-!(assoc_L (++)). split_and!; [done|done|done|]. intros j. rewrite Hin. f_equiv.
    apply exist_proper. intros s. split; intros (? & Hj & [e He]).
    + split_and!; [lia| |by eexists]. by replace (j - i) with (S (j - S i)) by lia.
    + destruct (decide (j = i)) as [->|]; [rewrite Nat.sub_diag in Hj; naive_solver|].
      replace (j - i) with (S (j - S i)) in Hj by lia. split_and!; [lia|done|by eexists].
  - destruct (past_end (user_key k) endb) eqn:Hpe.
    + specialize (IH (S i) h (hd ++ [None]) (rest ++ [s'])). destruct (init_heads _ _ _ _ _ _) as [[h' hd'] rest'].
      destruct IH as (-> & -> & ? & Hin); [len|len|done|eapply Forall_impl; [done|]; intros; cbn in *; lia|].
      rewrite <-!(assoc_L (++)). split_and!; [done|done|done|]. intros j. rewrite Hin. f_equiv.
      apply exist_proper. intros s. split; intros (? & Hj & [e He]).
      * split_and!; [lia| |by eexists]. by replace (j - i) with (S (j - S i)) by lia.
      * destruct (decide (j = i)) as [->|].
        { rewrite Nat.sub_diag in Hj. injection Hj as <-. cbn in He. by rewrite Hpe in He. }
        replace (j - i) with (S (j - S i)) in Hj by lia. split_and!; [lia|done|by eexists].
    + rewrite bool_decide_eq_true_2 by (by eexists).
      specialize (IH (S i) (h ++ [i]) (hd ++ [Some (k, v)]) (rest ++ [s'])).
      destruct (init_heads _ _ _ _ _ _) as [[h' hd'] rest'].
      destruct IH as (-> & -> & ? & Hin); [len|len| | |].
      { apply NoDup_app. split_and!; [done| |by apply NoDup_singleton]. intros x Hx ->%list_elem_of_singleton.
        rewrite Forall_forall in Hlt. apply Hlt in Hx. lia. }
      { apply Forall_app. split; [eapply Forall_impl; [done|]; intros; cbn in *; lia|]. constructor; [lia|done]. }
      rewrite <-!(assoc_L (++)). split_and!; [done|done|done|]. intros j.
      rewrite Hin, elem_of_app, list_elem_of_singleton. split.
      * intros [[?| -> ]|(s & ? & Hj & He)]; [by left| |].
        -- right. exists ((k, v) :: s'). rewrite Nat.sub_diag. cbn. rewrite Hpe. split_and!; [lia|done|by eexists].
        -- right. exists s. split_and!; [lia| |done]. by replace (j - i) with (S (j - S i)) by lia.
      * intros [?|(s & ? & Hj & He)]; [by left; left|]. destruct (decide (j = i)) as [->|]; [by left; right|].
        right. exists s. replace (j - i) with (S (j - S i)) in Hj by lia. split_and!; [lia|done|done].
Qed.

Lemma from_point_streams_ok ss dels snap startb endb lim :
  Forall (λ s, StronglySorted ikey_le s.*1) ss →
  let it := from_point_streams ss dels snap startb endb lim in
  inv it ∧ skip_ok it ∧
  ∀ e, e ∈ due it ↔ e ∈ mjoin ss ∧ (sequence e.1 ≤ snap)%Z ∧
                    user_key_in_range (user_key e.1) startb endb = true.
Proof.
  intros Hsort. unfold from_point_streams.
  pose proof (init_heads_spec 0 ss endb [] [] [] eq_refl eq_refl (NoDup_nil_2) (Forall_nil_2 _)) as Hi.
  destruct (init_heads _ _ _ _ _ _) as [[h hd] rest]. destruct Hi as (-> & -> & Hnd & Hin). cbn zeta.
  cbn [app] in *. destruct (heapify_ok (head_lt (head_of endb <$> ss)) h) as [Hheap Hperm].
  set (it := mkIter _ _ _ _ _ _ _ _ _ _).
  assert (∀ i s, ss !! i = Some s → source it i = if decide (is_Some (head_of endb s)) then s else []) as Hsrc.
  { intros i s Hs. unfold source. cbn. unfold head_at. rewrite !list_lookup_fmap, Hs. cbn.
    destruct s as [|e s]; cbn; [done|]. destruct (past_end _ _); cbn; [done|]. by rewrite decide_True by (by eexists). }
  assert (∀ i, i ∈ heap it ↔ ∃ s, ss !! i = Some s ∧ is_Some (head_of endb s)) as Hhp.
  { intros i. cbn. rewrite Hperm, Hin. rewrite Nat.sub_0_r. set_solver by lia. }
  rewrite Forall_forall in Hsort. split_and!.
  - unfold inv. split_and!; [cbn; by rewrite Hperm|cbn; by rewrite !length_fmap| |done|].
    + intros i (s & Hs & [e He])%Hhp. cbn. unfold head_at. rewrite list_lookup_fmap, Hs. cbn. rewrite He. by eexists.
    + intros i (s & Hs & He)%Hhp. rewrite (Hsrc i s Hs), decide_True by done. apply Hsort.
      by eapply list_elem_of_lookup_2.
  - intros u Hu. done.
  - intros e. rewrite elem_of_due, elem_of_pend. unfold eligible, in_range. cbn [snapshot start end_ skip_user it].
    rewrite list_elem_of_join. split.
    + intros ((i & (s & Hs & He)%Hhp & Hes) & [? ?] & _). rewrite (Hsrc i s Hs), decide_True in Hes by done.
      split_and!; [|done|done]. exists s. split; [done|]. by eapply list_elem_of_lookup_2.
    + intros ((s & Hes & Hss) & Hseq & Hr). split_and!; [|done|done|done].
      apply list_elem_of_lookup in Hss as [i Hs]. exists i.
      assert (is_Some (head_of endb s)) as Hh.
      { destruct s as [|x s]; [by apply not_elem_of_nil in Hes|]. cbn.
        destruct (past_end (user_key x.1) endb) eqn:Hpe; [|by eexists]. exfalso.
        rewrite (past_end_out _ startb endb) in Hr; [done|]. eapply past_end_mono; [|done].
        apply elem_of_cons in Hes as [->|Hes]; [apply bytes_lt_irrefl|]. apply ikey_le_user.
        eapply sorted_head; [|done]. apply Hsort. by eapply list_elem_of_lookup_2. }
      split; [apply Hhp; by exists s|]. by rewrite (Hsrc i s Hs), decide_True.
Qed.

(** Splitting the layers. *)
Definition is_point (snap : Z) (e : entry) : Prop :=
  (sequence e.1 ≤ snap)%Z ∧ kind e.1 ≠ RangeDeletion.
Definition is_tomb (snap : Z) (e : entry) : Prop :=
  (sequence e.1 ≤ snap)%Z ∧ kind e.1 = RangeDeletion.
#[export] Instance is_point_dec snap e : Decision (is_point snap e).
Proof. unfold is_point. apply _. Defined.
#[export] Instance is_tomb_dec snap e : Decision (is_tomb snap e).
Proof. unfold is_tomb. apply _. Defined.

Lemma split_layer_spec s snap dels points :
  split_layer s snap dels points =
    (dels ++ (tomb_of <$> filter (is_tomb snap) s), points ++ filter (is_point snap) s).
Proof.
  revert dels points. induction s as [|[k v] s IH]; intros dels points; cbn [split_layer].
  { by rewrite !app_nil_r. }
  rewrite !filter_cons. destruct (Z.ltb_spec snap (sequence k)).
  { rewrite !decide_False by (unfold is_tomb, is_point; cbn; lia). apply IH. }
  destruct (bool_decide_reflect (kind k = RangeDeletion)) as [Hk|Hk]; rewrite IH, <-(assoc_L (++)).
  - rewrite decide_True by done. by rewrite decide_False by (by intros [_ ?]).
  - rewrite decide_False by (by intros [_ ?]). by rewrite decide_True by done.
Qed.

Lemma split_layers_spec ss snap dels out :
  split_layers ss snap dels out =
    (dels ++ (tomb_of <$> filter (is_tomb snap) (mjoin ss)), out ++ (filter (is_point snap) <$> ss)).
Proof.
  revert dels out. induction ss as [|s ss IH]; intros dels out; cbn [split_layers].
  { by rewrite !app_nil_r. }
  rewrite split_layer_spec, IH. cbn [mjoin list_join fmap list_fmap]. rewrite filter_app, fmap_app, <-!(assoc_L (++)). done.
Qed.

Lemma sorted_filter (P : entry → Prop) `{∀ e, Decision (P e)} (s : list entry) :
  StronglySorted ikey_le s.*1 → StronglySorted ikey_le (filter P s).*1.
Proof.
  induction s as [|x s IH]; intros Hs; [constructor|]. cbn in Hs.
  apply StronglySorted_inv in Hs as [Hs Hx]. rewrite filter_cons. case_decide; [|by apply IH].
  cbn. constructor; [by apply IH|]. rewrite Forall_forall in Hx |- *.
  intros k (y & -> & [_ Hy]%list_elem_of_filter)%list_elem_of_fmap. apply Hx. by apply list_elem_of_fmap_2.
Qed.

(** C7: the streaming read is the reference read. For layers each in
    internal-key order that agree on every version, for every snapshot, bounds
    and limit, the heap-based iterator (with its one-stream fast path, its
    retirement of streams past the end and its skip of superseded versions)
    terminates and collects exactly what [visible_range_limited] returns on the
    union of the layers. *)
Theorem streaming_read_correct layers snap startb endb lim :
  Forall (λ s, StronglySorted ikey_lt s.*1) layers → coherent (mjoin layers) →
  collect (iter_new layers snap startb endb lim) =
    Some (visible_range_limited (mjoin layers) snap startb endb lim).
Proof.
  intros Hs Hc. unfold iter_new. rewrite split_layers_spec. cbn [app].
  set (dels := tomb_of <$> _). set (points := filter (is_point snap) <$> layers).
  destruct (from_point_streams_ok points dels snap startb endb lim) as (Hinv & Hok & Hdue).
  { apply Forall_fmap. eapply Forall_impl; [done|]. intros s Hss. cbn.
    by apply sorted_filter, ikey_lt_le_sorted. }
  set (it := from_point_streams _ _ _ _ _ _) in *.
  destruct (collect_loop_ok (S (length (pend it))) it [] Hinv Hok ltac:(lia)) as (rows & Hrows & Hcol).
  unfold collect. rewrite Hcol. f_equal. cbn [app].
  assert (range_dels it = dels ∧ limit it = lim ∧ emitted it = 0) as (-> & -> & ->).
  { unfold it, from_point_streams. by destruct (init_heads _ _ _ _ _ _) as [[??]?]. }
  assert (range_result (mjoin layers) snap startb endb (omap (live_row dels) rows)) as Hres.
  { apply newest_rows_result with (l := due it); [done| | |done].
    - intros e. rewrite Hdue. unfold points, point_in. rewrite list_elem_of_join.
      split.
      + intros ((s & He & (s' & -> & Hs')%list_elem_of_fmap) & ? & ?).
        apply list_elem_of_filter in He as [[? ?] ?]. split; [|done]. apply list_elem_of_join. by exists s'.
      + intros ((s & He & Hss)%list_elem_of_join & ? & ? & ?). split_and!; [|done|done].
        exists (filter (is_point snap) s). split; [by apply list_elem_of_filter|]. by apply list_elem_of_fmap_2.
    - intros t. unfold dels, tombs_of. rewrite list_elem_of_fmap. split.
      + intros (e & -> & [[??] ?]%list_elem_of_filter). by exists e.
      + intros (e & ? & ? & ? & ->). exists e. split; [done|]. by apply list_elem_of_filter. }
  pose proof (visible_range_result (mjoin layers) snap startb endb Hc) as [Href Hlim].
  rewrite (range_result_unique _ _ _ _ _ _ Hres Href).
  destruct lim as [n|]; cbn; [|done]. rewrite Nat.sub_0_r. by rewrite Hlim.
Qed.

Definition sample_layers : list (list entry) :=
  [[(mkIKey [x61] 3 Value, [x33]); (mkIKey [x61] 1 Value, [x31]); (mkIKey [x62] 5 Deletion, [])];
   [(mkIKey [x61] 4 RangeDeletion, [x62]); (mkIKey [x62] 2 Value, [x32]); (mkIKey [x63] 1 Value, [x39])];
   [(mkIKey [x62] 2 Value, [x32]); (mkIKey [x64] 6 Value, [x36]); (mkIKey [x65] 2 Value, [x37])]].

Lemma streaming_read_correct_witness :
  collect (iter_new sample_layers 4 Unbounded (Excluded [x65]) (Some 2)) =
    Some [mkVisible [x62] [x32]; mkVisible [x63] [x39]].
Proof.
  rewrite (streaming_read_correct sample_layers 4 Unbounded (Excluded [x65]) (Some 2)).
  - reflexivity.
  - repeat constructor.
  - intros k v v' H1 H2. unfold sample_layers in *. cbn in H1, H2.
    repeat (apply elem_of_cons in H1 as [H1|H1]); [..|by apply not_elem_of_nil in H1];
    repeat (apply elem_of_cons in H2 as [H2|H2]); try (by apply not_elem_of_nil in H2); congruence.
Defined.
