(* ===== verification/CompactGc.v ===== *)
(** Version garbage collection: [compact_kernel.rs] and the batch collector
    [gc_compact_entries] of [merge_kernel.rs].

    The theorems say which reads survive a collection, and give the collected
    set in closed form ([gc_result]), which the streaming collector meets too. *)

From S2P Require Import Prelude ErrorKernel KeyKernel BatchKernel Visibility.

Local Open Scope Z_scope.

(** * [compact_kernel.rs] *)

Definition COMPACT_TARGET_FILE_BYTES : Z := 256 * 1024 * 1024.
Definition compact_should_split_at (written_bytes target : Z) : bool := target <=? written_bytes.
Definition compact_should_split (written_bytes : Z) : bool :=
  compact_should_split_at written_bytes COMPACT_TARGET_FILE_BYTES.
Definition compact_should_split_as_is (_written_bytes : Z) : bool := false.
Definition compact_should_split_at_as_is (_written_bytes _target : Z) : bool := false.

Inductive CompactPlan := Merge (from to : Z) | GcRewriteMax | NoOp.

Definition compact_pick (lowest_level_with_files : option Z) (files_at_max_level gc_requested : bool)
    (_max_level : Z) : CompactPlan :=
  match lowest_level_with_files with
  | Some l => Merge l (l + 1)
  | None => if gc_requested && files_at_max_level then GcRewriteMax else NoOp
  end.
Definition compact_pick_as_is (_lowest : option Z) (_files_at_max_level _gc_requested : bool)
    (_max_level : Z) : CompactPlan := NoOp.

Inductive VersionFate := Keep | Drop.
#[export] Instance VersionFate_eq_dec : EqDecision VersionFate.
Proof. solve_decision. Defined.

Definition point_version_fate (this_seq : Z) (newer_kept_seq : option Z) (oldest_snapshot : Z)
    : VersionFate :=
  if oldest_snapshot <=? this_seq then Keep
  else
    match newer_kept_seq with
    | None => Keep
    | Some newer_seq => if newer_seq <=? oldest_snapshot then Drop else Keep
    end.
Definition point_version_fate_as_is_drop_under_snapshot (this_seq : Z) (newer_kept_seq : option Z)
    (oldest_snapshot : Z) : VersionFate :=
  match newer_kept_seq with
  | None => Keep
  | Some _ => if this_seq <=? oldest_snapshot then Drop else Keep
  end.

Definition lone_tombstone_fate (bottommost lone_newest_tombstone : bool) : VersionFate :=
  if bottommost && lone_newest_tombstone then Drop else Keep.
Definition lone_tombstone_fate_as_is_ignore_bottommost (_bottommost lone_newest_tombstone : bool)
    : VersionFate :=
  if lone_newest_tombstone then Drop else Keep.

Definition gc_oldest_from_pin (oldest_pin : option Z) (last_seq visible_seq : Z) : Z :=
  match oldest_pin with
  | Some p => p
  | None => Z.min last_seq visible_seq
  end.
Definition gc_oldest_from_pin_as_is (_oldest_pin : option Z) (last_seq visible_seq : Z) : Z :=
  Z.min last_seq visible_seq.

(** [u64::saturating_mul]. *)
Definition sat_mul (a b : Z) : Z := Z.min (a * b) U64_MAX.

Definition DEFAULT_LETHE_TOMBSTONE_THRESHOLD_PCT : Z := 20.
Definition tombstone_compaction_due (tombstone_count total_keys threshold_pct : Z) : bool :=
  (0 <? total_keys) && (sat_mul total_keys threshold_pct <=? sat_mul tombstone_count 100).
Definition tombstone_compaction_due_as_is (_tombstone_count _total_keys _threshold_pct : Z) : bool :=
  false.

(** * [gc_compact_entries] *)

Record CompactGcOptions := mkGc {
  min_sequence : Z;
  keep_only_latest : bool;
  oldest_snapshot : option Z;
  bottommost : bool
}.

Definition latest_only : CompactGcOptions := mkGc 0 true None false.
Definition for_oldest_snapshot (oldest : Z) : CompactGcOptions := mkGc 0 false (Some oldest) false.
Definition requests_gc (gc : CompactGcOptions) : bool :=
  keep_only_latest gc || (0 <? min_sequence gc) || bool_decide (is_Some (oldest_snapshot gc)).

(** [sort_by(|a, b| a.0.cmp(&b.0))], stable. *)
Fixpoint sort_insert (e : entry) (l : list entry) : list entry :=
  match l with
  | [] => [e]
  | x :: l' => if ikey_ltb x.1 e.1 then x :: sort_insert e l' else e :: l
  end.
Fixpoint sort_entries (l : list entry) : list entry :=
  match l with
  | [] => []
  | e :: l => sort_insert e (sort_entries l)
  end.

(** The collecting loop: points into the map, range deletions aside. *)
Fixpoint gc_gather (entries : list entry) (gc : CompactGcOptions) (map range_dels : list entry)
    : list entry * list entry :=
  match entries with
  | [] => (map, range_dels)
  | (ikey, value) :: entries =>
      if sequence ikey <? min_sequence gc then gc_gather entries gc map range_dels
      else if bool_decide (kind ikey = RangeDeletion) then
        gc_gather entries gc map (range_dels ++ [(ikey, value)])
      else gc_gather entries gc (bt_insert ikey value map) range_dels
  end.

(** The versions of the run's key that follow its first one. *)
Fixpoint take_user (u : list byte) (l : list entry) : list entry :=
  match l with
  | (k, v) :: l' => if bytes_eqb (user_key k) u then (k, v) :: take_user u l' else []
  | [] => []
  end.

(** [for (ikey, value) in versions] of [gc_snapshot_safe]. *)
Fixpoint keep_loop (oldest : Z) (versions keep : list entry) : list entry :=
  match versions with
  | [] => keep
  | e :: versions =>
      if batch_is_empty (length keep) then keep_loop oldest versions (keep ++ [e])
      else
        let newer_seq := (λ x : entry, sequence x.1) <$> last keep in
        if decide (point_version_fate (sequence e.1) newer_seq oldest = Drop)
        then keep_loop oldest versions keep
        else keep_loop oldest versions (keep ++ [e])
  end.

Definition lone_tombstone (keep : list entry) : bool :=
  match keep with
  | [e] => bool_decide (kind e.1 = Deletion)
  | _ => false
  end.

(** One turn per user key, so at most one per entry. *)
Fixpoint gc_snapshot_loop (fuel : nat) (oldest : Z) (bottom : bool) (l out : list entry) : list entry :=
  match fuel, l with
  | S n, (ikey, value) :: l' =>
      let versions := (ikey, value) :: take_user (user_key ikey) l' in
      let keep := keep_loop oldest versions [] in
      let keep := if decide (lone_tombstone_fate bottom (lone_tombstone keep) = Drop) then [] else keep in
      gc_snapshot_loop n oldest bottom (skip_user (user_key ikey) l') (out ++ keep)
  | _, _ => out
  end.

Definition gc_snapshot_safe (map range_dels : list entry) (oldest : Z) (bottom : bool) : list entry :=
  sort_entries (gc_snapshot_loop (length map) oldest bottom map [] ++ range_dels).

(** The [keep_only_latest] loop. *)
Definition latest_keep (bottom : bool) (tombs : list RangeTombstone) (e : entry) : bool :=
  match kind e.1 with
  | Value => get_live [Value] [range_deleted (user_key e.1) (sequence e.1) tombs]
  | Deletion => negb bottom
  | RangeDeletion => false
  end.
Fixpoint gc_latest_loop (fuel : nat) (bottom : bool) (tombs : list RangeTombstone) (l out : list entry)
    : list entry :=
  match fuel, l with
  | S n, e :: l' =>
      gc_latest_loop n bottom tombs (skip_user (user_key e.1) l')
        (if latest_keep bottom tombs e then out ++ [e] else out)
  | _, _ => out
  end.

Definition gc_compact_entries (entries : list entry) (gc : CompactGcOptions) : list entry :=
  let '(map, range_dels) := gc_gather entries gc [] [] in
  match oldest_snapshot gc with
  | Some oldest => gc_snapshot_safe map range_dels oldest (bottommost gc)
  | None =>
      if negb (keep_only_latest gc) then sort_entries (map ++ range_dels)
      else
        let out := gc_latest_loop (length map) (bottommost gc) (tomb_of <$> range_dels) map [] in
        if bottommost gc then out else sort_entries (out ++ range_dels)
  end.

(** * What is kept *)

(** The kept versions among [versions], the point versions of one key from the
    newest, when [newer] was kept last. *)
Fixpoint keep_from (oldest : Z) (newer : option Z) (versions : list entry) : list entry :=
  match versions with
  | [] => []
  | e :: versions =>
      if decide (point_version_fate (sequence e.1) newer oldest = Drop)
      then keep_from oldest newer versions
      else e :: keep_from oldest (Some (sequence e.1)) versions
  end.

Definition kept_versions (gc : CompactGcOptions) (tombs : list RangeTombstone) (versions : list entry)
    : list entry :=
  match oldest_snapshot gc with
  | Some oldest =>
      let keep := keep_from oldest None versions in
      if bottommost gc && lone_tombstone keep then [] else keep
  | None =>
      if keep_only_latest gc then
        match versions with
        | e :: _ => if latest_keep (bottommost gc) tombs e then [e] else []
        | [] => []
        end
      else versions
  end.

Definition drops_tombs (gc : CompactGcOptions) : bool :=
  bool_decide (oldest_snapshot gc = None) && keep_only_latest gc && bottommost gc.

Definition versions_of (uk : list byte) (points : list entry) : list entry :=
  filter (λ e, user_key e.1 = uk) points.

(** [gc_result gc points dels out]: [out] holds the range deletions (unless
    dropped) and, of each key, the kept versions. *)
Definition gc_result (gc : CompactGcOptions) (points dels out : list entry) : Prop :=
  ∀ e, e ∈ out ↔
    e ∈ dels ∧ drops_tombs gc = false ∨
    e ∈ kept_versions gc (tomb_of <$> dels) (versions_of (user_key e.1) points).

(** The points and range deletions a collection considers. *)
Definition gc_points (gc : CompactGcOptions) (entries : list entry) (e : entry) : Prop :=
  e ∈ entries ∧ min_sequence gc ≤ sequence e.1 ∧ kind e.1 ≠ RangeDeletion.
Definition gc_dels (gc : CompactGcOptions) (entries : list entry) : list entry :=
  filter (λ e, min_sequence gc <= sequence e.1 ∧ kind e.1 = RangeDeletion) entries.

(** * Lemmas *)

(** ** Sorting *)

Lemma sort_insert_perm e l : sort_insert e l ≡ₚ e :: l.
Proof.
  induction l as [|x l IH]; [done|]. cbn. destruct (ikey_ltb x.1 e.1); [|done].
  rewrite IH. apply perm_swap.
Qed.

Lemma sort_entries_perm l : sort_entries l ≡ₚ l.
Proof. induction l as [|e l IH]; [done|]. cbn. rewrite sort_insert_perm. by f_equiv. Qed.

Lemma sort_insert_sorted e l :
  StronglySorted ikey_lt l.*1 → e.1 ∉ l.*1 → StronglySorted ikey_lt (sort_insert e l).*1.
Proof.
  induction l as [|x l IH]; intros Hs Hni; cbn; [by repeat constructor|].
  pose proof Hs as Hs0. cbn in Hs, Hni. apply StronglySorted_inv in Hs as [Hs Hx].
  destruct (ikey_ltb x.1 e.1) eqn:E; cbn.
  - constructor; [apply IH; [done|set_solver]|]. rewrite (sort_insert_perm e l).
    constructor; [by apply ikey_ltb_spec|done].
  - apply not_true_iff_false in E. rewrite ikey_ltb_spec in E.
    apply ikey_not_lt in E as [E|E]; [set_solver|]. constructor; [done|]. constructor; [done|].
    eapply Forall_impl; [done|]. intros y Hy. by trans x.1.
Qed.

Lemma sort_entries_sorted l : NoDup l.*1 → StronglySorted ikey_lt (sort_entries l).*1.
Proof.
  induction l as [|e l IH]; cbn; [constructor|]. intros [Hni Hnd]%NoDup_cons.
  apply sort_insert_sorted; [by apply IH|]. by rewrite sort_entries_perm.
Qed.

(** ** Gathering *)

Lemma gc_gather_spec entries gc map dels :
  coherent (map ++ entries) → StronglySorted ikey_lt map.*1 →
  let '(map', dels') := gc_gather entries gc map dels in
  StronglySorted ikey_lt map'.*1 ∧ (∀ e, e ∈ map' ↔ e ∈ map ∨ gc_points gc entries e) ∧
  dels' = dels ++ gc_dels gc entries.
Proof.
  revert map dels. induction entries as [|[k v] entries IH]; intros map dels Hc Hs; cbn [gc_gather].
  { split_and!; [done|unfold gc_points; set_solver|by rewrite app_nil_r]. }
  assert (coherent (map ++ entries)) as Hc' by (by eapply coherent_drop).
  unfold gc_dels. rewrite filter_cons. cbn [fst].
  destruct (Z.ltb_spec (sequence k) (min_sequence gc)).
  { specialize (IH map dels Hc' Hs). destruct (gc_gather _ _ _ _) as [map' dels'].
    destruct IH as (? & He & ->). rewrite decide_False by lia. split_and!; [done| |done].
    intros e. rewrite He. unfold gc_points. rewrite elem_of_cons. naive_solver lia. }
  destruct (bool_decide_reflect (kind k = RangeDeletion)) as [Hk|Hk].
  { specialize (IH map (dels ++ [(k, v)]) Hc' Hs). destruct (gc_gather _ _ _ _) as [map' dels'].
    destruct IH as (? & He & ->). rewrite decide_True by done. split_and!; [done| |].
    - intros e. rewrite He. unfold gc_points. rewrite elem_of_cons. naive_solver.
    - by rewrite <-(assoc_L (++)). }
  specialize (IH (bt_insert k v map) dels (coherent_insert (k, v) _ _ Hc Hs) (bt_insert_sorted _ _ _ Hs)).
  destruct (gc_gather _ _ _ _) as [map' dels']. destruct IH as (? & He & ->).
  rewrite decide_False by (by intros [_ ?]). split_and!; [done| |done].
  intros [k' v']. rewrite He, bt_insert_elem by done. unfold gc_points. rewrite elem_of_cons. cbn.
  destruct (decide (k' = k)) as [->|]; [|naive_solver].
  split; [naive_solver|]. intros [Hm|[[|] _]]; [|naive_solver|naive_solver].
  left. left. f_equal. apply (Hc k); set_solver.
Qed.

(** ** Runs of one key in a sorted list *)

Lemma versions_of_cons uk e l :
  versions_of uk (e :: l) = if decide (user_key e.1 = uk) then e :: versions_of uk l else versions_of uk l.
Proof. unfold versions_of. by rewrite filter_cons. Qed.

Lemma sorted_run u l :
  StronglySorted ikey_lt l.*1 → Forall (λ e, ¬ bytes_lt (user_key e.1) u) l →
  take_user u l = versions_of u l ∧
  (∀ uk, versions_of uk (skip_user u l) = if decide (uk = u) then [] else versions_of uk l) ∧
  StronglySorted ikey_lt (skip_user u l).*1.
Proof.
  induction l as [|[k v] l IH]; intros Hs Hu; cbn [take_user skip_user].
  { split_and!; [done|intros; by case_decide|constructor]. }
  cbn in Hs. pose proof Hs as Hs0. apply StronglySorted_inv in Hs as [Hs Hk].
  apply Forall_cons in Hu as [Hku Hu]. destruct (IH Hs Hu) as (IH1 & IH2 & IH3).
  unfold bytes_eqb. destruct (bool_decide_reflect (user_key k = u)) as [E|E].
  - rewrite versions_of_cons, decide_True, IH1 by done. split_and!; [done| |done].
    intros uk. rewrite IH2. case_decide; [done|]. rewrite versions_of_cons, decide_False by (cbn; congruence). done.
  - assert (Forall (λ e, user_key e.1 ≠ u) ((k, v) :: l)) as Hne.
    { constructor; [done|]. apply Forall_forall. intros e He Heq.
      rewrite Forall_forall in Hk. assert (ikey_lt k e.1) as Hlt by (apply Hk; by apply list_elem_of_fmap_2).
      apply ikey_lt_iff in Hlt as [Hlt|[Heq' _]]; [|congruence]. rewrite Heq in Hlt. done. }
    assert (versions_of u ((k, v) :: l) = []) as Hnil.
    { unfold versions_of. apply elem_of_nil_inv. intros e [He1 He2]%list_elem_of_filter.
      rewrite Forall_forall in Hne. by apply (Hne e). }
    rewrite Hnil. split_and!; [done| |done]. intros uk. case_decide; [by subst|done].
Qed.

Lemma sorted_head_users (e : entry) l :
  StronglySorted ikey_lt (e :: l).*1 → Forall (λ x, ¬ bytes_lt (user_key x.1) (user_key e.1)) l.
Proof.
  intros Hs. cbn in Hs. apply StronglySorted_inv in Hs as [_ Hk]. rewrite Forall_forall in Hk.
  apply Forall_forall. intros x Hx. apply ikey_le_user. apply ikey_not_lt. right. apply Hk.
  by apply list_elem_of_fmap_2.
Qed.

Lemma keep_loop_spec oldest versions keep :
  keep_loop oldest versions keep =
    keep ++ keep_from oldest ((λ x : entry, sequence x.1) <$> last keep) versions.
Proof.
  revert keep. induction versions as [|e versions IH]; intros keep; cbn [keep_loop keep_from].
  { by rewrite app_nil_r. }
  unfold batch_is_empty. destruct (Nat.eqb_spec (length keep) 0) as [E|E].
  - apply nil_length_inv in E as ->. rewrite IH. cbn. rewrite decide_False; [done|].
    unfold point_version_fate. by destruct (_ <=? _).
  - case_decide; rewrite IH; [done|]. rewrite last_snoc. by rewrite <-(assoc_L (++)).
Qed.

Lemma keep_from_sub oldest newer versions e : e ∈ keep_from oldest newer versions → e ∈ versions.
Proof.
  revert newer. induction versions as [|x versions IH]; intros newer; cbn; [done|].
  case_decide; set_solver.
Qed.

Lemma kept_versions_sub gc tombs versions e : e ∈ kept_versions gc tombs versions → e ∈ versions.
Proof.
  unfold kept_versions. destruct (oldest_snapshot gc).
  - destruct (_ && _); [by intros ?%not_elem_of_nil|apply keep_from_sub].
  - destruct (keep_only_latest gc); [|done]. destruct versions as [|x versions]; [done|].
    destruct (latest_keep _ _ _); set_solver.
Qed.

Lemma kept_versions_user gc tombs uk points e :
  e ∈ kept_versions gc tombs (versions_of uk points) → user_key e.1 = uk ∧ e ∈ points.
Proof. intros [? ?]%kept_versions_sub%list_elem_of_filter. done. Qed.

Lemma kept_versions_nil gc tombs : kept_versions gc tombs [] = [].
Proof.
  unfold kept_versions. destruct (oldest_snapshot gc); [by destruct (_ && _)|].
  by destruct (keep_only_latest gc).
Qed.

(** Handling the first run, then the rest. *)
Lemma run_step gc tombs x l e :
  StronglySorted ikey_lt (x :: l).*1 →
  e ∈ kept_versions gc tombs (versions_of (user_key x.1) (x :: l)) ∨
  e ∈ kept_versions gc tombs (versions_of (user_key e.1) (skip_user (user_key x.1) l)) ↔
  e ∈ kept_versions gc tombs (versions_of (user_key e.1) (x :: l)).
Proof.
  intros Hs. pose proof (sorted_head_users x l Hs) as Hu. cbn in Hs.
  apply StronglySorted_inv in Hs as [Hs _]. destruct (sorted_run _ _ Hs Hu) as (_ & Hskip & _).
  rewrite Hskip. destruct (decide (user_key e.1 = user_key x.1)) as [E|E].
  - rewrite E, kept_versions_nil. set_solver.
  - rewrite (versions_of_cons (user_key e.1)), decide_False by done. split; [|by right].
    intros [[? _]%kept_versions_user|]; done.
Qed.

Lemma run_split x l :
  StronglySorted ikey_lt (x :: l).*1 →
  x :: take_user (user_key x.1) l = versions_of (user_key x.1) (x :: l) ∧
  StronglySorted ikey_lt (skip_user (user_key x.1) l).*1.
Proof.
  intros Hs. pose proof (sorted_head_users x l Hs) as Hu. cbn in Hs.
  apply StronglySorted_inv in Hs as [Hs _]. destruct (sorted_run _ _ Hs Hu) as (Ht & _ & ?).
  rewrite versions_of_cons, decide_True, Ht by done. done.
Qed.

Lemma gc_snapshot_loop_spec gc oldest tombs fuel l out e :
  oldest_snapshot gc = Some oldest → (length l ≤ fuel)%nat → StronglySorted ikey_lt l.*1 →
  e ∈ gc_snapshot_loop fuel oldest (bottommost gc) l out ↔
    e ∈ out ∨ e ∈ kept_versions gc tombs (versions_of (user_key e.1) l).
Proof.
  intros Hgc. revert l out. induction fuel as [|n IH]; intros [|x l] out Hl Hs; cbn [length] in Hl;
    [|lia| |]; cbn [gc_snapshot_loop].
  1,2: rewrite kept_versions_nil; set_solver.
  destruct x as [k v]. pose proof (run_split (k, v) l Hs) as [Ht Hs']. cbn [fst] in Ht, Hs'.
  rewrite IH by (pose proof (skip_user_length (user_key k) l); done || lia).
  rewrite Ht, keep_loop_spec, elem_of_app.
  cbn [app last fmap option_fmap option_map].
  assert ((if decide (lone_tombstone_fate (bottommost gc)
             (lone_tombstone (keep_from oldest None (versions_of (user_key k) ((k, v) :: l)))) = Drop)
           then [] else keep_from oldest None (versions_of (user_key k) ((k, v) :: l))) =
          kept_versions gc tombs (versions_of (user_key k) ((k, v) :: l))) as ->.
  { unfold kept_versions, lone_tombstone_fate. rewrite Hgc.
    destruct (bottommost gc && _); by rewrite ?decide_True, ?decide_False by done. }
  rewrite <-(run_step gc tombs (k, v) l e Hs). cbn [fst]. tauto.
Qed.

Lemma gc_latest_loop_spec gc tombs fuel l out e :
  oldest_snapshot gc = None → keep_only_latest gc = true →
  (length l ≤ fuel)%nat → StronglySorted ikey_lt l.*1 →
  e ∈ gc_latest_loop fuel (bottommost gc) tombs l out ↔
    e ∈ out ∨ e ∈ kept_versions gc tombs (versions_of (user_key e.1) l).
Proof.
  intros Hgc Hlat. revert l out. induction fuel as [|n IH]; intros [|x l] out Hl Hs; cbn [length] in Hl;
    [|lia| |]; cbn [gc_latest_loop].
  1,2: rewrite kept_versions_nil; set_solver.
  pose proof (run_split x l Hs) as [Ht Hs'].
  rewrite IH by (pose proof (skip_user_length (user_key x.1) l); done || lia).
  rewrite <-(run_step gc tombs x l e Hs), <-Ht.
  assert (e ∈ (if latest_keep (bottommost gc) tombs x then out ++ [x] else out) ↔
          e ∈ out ∨ e ∈ kept_versions gc tombs (x :: take_user (user_key x.1) l)) as ->; [|tauto].
  unfold kept_versions. rewrite Hgc, Hlat. destruct (latest_keep _ _ _); set_solver.
Qed.

(** The batch collector meets the specification. *)
Lemma gc_compact_entries_result entries gc :
  coherent entries →
  ∃ points, StronglySorted ikey_lt points.*1 ∧ (∀ e, e ∈ points ↔ gc_points gc entries e) ∧
    gc_result gc points (gc_dels gc entries) (gc_compact_entries entries gc).
Proof.
  intros Hc. unfold gc_compact_entries.
  pose proof (gc_gather_spec entries gc [] [] Hc ltac:(constructor)) as H.
  destruct (gc_gather _ _ _ _) as [points dels]. destruct H as (Hs & Hp & ->). cbn [app].
  exists points. split_and!; [done|intros e; rewrite Hp; set_solver|]. intros e.
  unfold drops_tombs. destruct (oldest_snapshot gc) as [oldest|] eqn:Hold.
  - unfold gc_snapshot_safe. rewrite sort_entries_perm, elem_of_app.
    rewrite (gc_snapshot_loop_spec gc oldest (tomb_of <$> gc_dels gc entries)) by done.
    rewrite bool_decide_eq_false_2 by done. cbn [andb]. set_solver.
  - rewrite bool_decide_eq_true_2 by done. cbn [andb].
    destruct (keep_only_latest gc) eqn:Hlat; cbn [negb andb].
    + pose proof (gc_latest_loop_spec gc (tomb_of <$> gc_dels gc entries) (length points) points [] e
                    Hold Hlat ltac:(lia) Hs) as Hloop.
      destruct (bottommost gc) eqn:Hbot.
      * rewrite Hloop. set_solver.
      * rewrite sort_entries_perm, elem_of_app, Hloop. set_solver.
    + rewrite sort_entries_perm, elem_of_app. unfold kept_versions. rewrite Hold, Hlat.
      unfold versions_of. rewrite list_elem_of_filter. tauto.
Qed.

(** ** Reads *)

Lemma keep_from_sorted oldest newer versions :
  StronglySorted ikey_lt versions.*1 → StronglySorted ikey_lt (keep_from oldest newer versions).*1.
Proof.
  revert newer. induction versions as [|e versions IH]; intros newer Hs; cbn; [constructor|].
  cbn in Hs. apply StronglySorted_inv in Hs as [Hs He]. case_decide; [by apply IH|]. cbn.
  constructor; [by apply IH|]. rewrite Forall_forall in He |- *.
  intros k (y & -> & Hy%keep_from_sub)%list_elem_of_fmap. apply He. by apply list_elem_of_fmap_2.
Qed.

Lemma kept_versions_sorted gc tombs versions :
  StronglySorted ikey_lt versions.*1 → StronglySorted ikey_lt (kept_versions gc tombs versions).*1.
Proof.
  intros Hs. unfold kept_versions. destruct (oldest_snapshot gc).
  - destruct (_ && _); [constructor|by apply keep_from_sorted].
  - destruct (keep_only_latest gc); [|done]. destruct versions; [constructor|].
    destruct (latest_keep _ _ _); [by repeat constructor|constructor].
Qed.

(** ** The output is in key order *)

Lemma take_skip_user u l : take_user u l ++ skip_user u l = l.
Proof.
  induction l as [|[k v] l IH]; [done|]. cbn. destruct (bytes_eqb _ _); [|done]. cbn. by rewrite IH.
Qed.

Lemma keep_from_sublist oldest newer l : keep_from oldest newer l `sublist_of` l.
Proof.
  revert newer. induction l as [|x l IH]; intros newer; cbn; [done|]. case_decide; by constructor.
Qed.

Lemma gc_snapshot_loop_sublist fuel oldest bottom l out :
  ∃ r, gc_snapshot_loop fuel oldest bottom l out = out ++ r ∧ r `sublist_of` l.
Proof.
  revert l out. induction fuel as [|n IH]; intros [|[k v] l] out; cbn [gc_snapshot_loop];
    try (exists []; rewrite app_nil_r; split; [done|apply sublist_nil_l]).
  set (keep := if decide _ then _ else _). destruct (IH (skip_user (user_key k) l) (out ++ keep)) as (r & -> & Hr).
  exists (keep ++ r). rewrite <-(assoc_L (++)). split; [done|].
  rewrite <-(take_skip_user (user_key k) l), app_comm_cons. apply sublist_app; [|done].
  unfold keep. case_decide; [apply sublist_nil_l|]. rewrite keep_loop_spec. apply keep_from_sublist.
Qed.

Lemma gc_latest_loop_sublist fuel bottom tombs l out :
  ∃ r, gc_latest_loop fuel bottom tombs l out = out ++ r ∧ r `sublist_of` l.
Proof.
  revert l out. induction fuel as [|n IH]; intros [|x l] out; cbn [gc_latest_loop];
    try (exists []; rewrite app_nil_r; split; [done|apply sublist_nil_l]).
  assert (skip_user (user_key x.1) l `sublist_of` l) as Hskip.
  { rewrite <-(take_skip_user (user_key x.1) l) at 2. by apply sublist_inserts_l. }
  destruct (latest_keep _ _ _).
  - destruct (IH (skip_user (user_key x.1) l) (out ++ [x])) as (r & -> & Hr). exists (x :: r).
    rewrite <-(assoc_L (++)). split; [done|]. constructor. by trans (skip_user (user_key x.1) l).
  - destruct (IH (skip_user (user_key x.1) l) out) as (r & -> & Hr). exists r. split; [done|].
    constructor. by trans (skip_user (user_key x.1) l).
Qed.

Lemma gc_compact_entries_sorted entries gc :
  NoDup entries.*1 → coherent entries → StronglySorted ikey_lt (gc_compact_entries entries gc).*1.
Proof.
  intros Hnd Hc. unfold gc_compact_entries.
  pose proof (gc_gather_spec entries gc [] [] Hc ltac:(constructor)) as H.
  destruct (gc_gather _ _ _ _) as [points dels]. destruct H as (Hs & Hp & ->). cbn [app].
  assert (∀ r, r `sublist_of` points → NoDup (r ++ gc_dels gc entries).*1) as Hnd'.
  { intros r Hr. rewrite fmap_app. apply NoDup_app. split_and!.
    - by eapply sorted_keys_nodup_keys, sorted_sublist.
    - intros k (x & -> & Hx)%list_elem_of_fmap (y & Hxy & [[_ Hk] _]%list_elem_of_filter)%list_elem_of_fmap.
      pose proof (elem_of_sublist _ _ _ Hx Hr) as Hx'. apply Hp in Hx' as [?%not_elem_of_nil|(_ & _ & Hxk)]; [done|congruence].
    - eapply sublist_NoDup; [done|]. apply fmap_sublist, sublist_filter. }
  destruct (oldest_snapshot gc) as [oldest|].
  - unfold gc_snapshot_safe. destruct (gc_snapshot_loop_sublist (length points) oldest (bottommost gc) points [])
      as (r & -> & Hr). cbn [app]. apply sort_entries_sorted. by apply Hnd'.
  - destruct (negb _); [apply sort_entries_sorted; by apply Hnd'|].
    destruct (gc_latest_loop_sublist (length points) (bottommost gc) (tomb_of <$> gc_dels gc entries) points [])
      as (r & -> & Hr). cbn [app]. destruct (bottommost gc); [by eapply sorted_sublist|].
    apply sort_entries_sorted. by apply Hnd'.
Qed.

(** A list in strict key order is determined by its elements. *)
(** What is readable at snapshot [s] among versions from the newest. *)
Definition newest_at (s : Z) (versions : list entry) : option entry :=
  head (filter (λ e : entry, sequence e.1 <= s) versions).

Lemma reads_newest entries s uk v versions :
  StronglySorted ikey_lt versions.*1 →
  (∀ e, candidate entries s uk e ↔ e ∈ versions ∧ sequence e.1 ≤ s) →
  reads entries s uk v ↔
    ∃ e, newest_at s versions = Some e ∧ e.2 = v ∧ kind e.1 = Value ∧
         ¬ hidden entries s uk (sequence e.1).
Proof.
  intros Hs Hc. unfold reads, newest_at.
  assert (∀ e, e ∈ filter (λ e : entry, sequence e.1 <= s) versions ↔ candidate entries s uk e) as Hf
    by (intros; rewrite list_elem_of_filter, Hc; tauto).
  split.
  - intros (e & He & ? & ? & Hmin & ?). exists e. split_and!; [|done..].
    apply sorted_sub_head; [by apply sorted_lt_filter|]. rewrite Hf. split; [done|].
    intros e' He'%Hf. by apply Hmin.
  - intros (e & [He Hmin]%sorted_sub_head & ? & ? & ?); [|by apply sorted_lt_filter].
    exists e. apply Hf in He. split_and!; [done..| |done]. intros e' He'. apply Hmin. by apply Hf.
Qed.

(** The snapshot rule keeps what every snapshot from [oldest] on reads. *)
Lemma keep_from_newest oldest newer versions s :
  oldest ≤ s → (∀ n, newer = Some n → s < n) →
  newest_at s (keep_from oldest newer versions) = newest_at s versions.
Proof.
  intros Hos. revert newer. induction versions as [|e versions IH]; intros newer Hn; [done|].
  cbn [keep_from]. rewrite decide_False.
  - unfold newest_at in *. rewrite !filter_cons. case_decide; [done|]. apply IH.
    intros n [= <-]. lia.
  - unfold point_version_fate. destruct (oldest <=? sequence e.1); [done|].
    destruct newer as [n|]; [|done]. specialize (Hn n eq_refl). by rewrite (proj2 (Z.leb_gt _ _)) by lia.
Qed.

(** ** Reads over several groups of tables *)

Lemma candidate_app A R s uk e : candidate (A ++ R) s uk e ↔ candidate A s uk e ∨ candidate R s uk e.
Proof. unfold candidate. rewrite elem_of_app. naive_solver. Qed.

Lemma hidden_app A R s uk n : hidden (A ++ R) s uk n ↔ hidden A s uk n ∨ hidden R s uk n.
Proof. unfold hidden. setoid_rewrite elem_of_app. naive_solver. Qed.

(** Replacing [A] by a part [O] that keeps the newest visible version. *)
Lemma union_same A O R s uk v :
  coherent A → (∀ o, candidate O s uk o → candidate A s uk o) →
  (∀ a, candidate A s uk a → ∃ o, candidate O s uk o ∧ ¬ ikey_lt a.1 o.1) →
  (∀ e, candidate O s uk e ∨ candidate R s uk e → hidden O s uk (sequence e.1) ↔ hidden A s uk (sequence e.1)) →
  reads (O ++ R) s uk v ↔ reads (A ++ R) s uk v.
Proof.
  intros Hc Hsub Hdom Hh. unfold reads. setoid_rewrite candidate_app. setoid_rewrite hidden_app. split.
  - intros (e & He & Hv & Hk & Hmin & Hnh). exists e. split_and!; [naive_solver|done|done| |by rewrite <-Hh].
    intros e' [He'|He'] Hlt; [|by apply (Hmin e'); [right|]]. destruct (Hdom e' He') as (o & Ho & Hle). apply (Hmin o); [by left|].
    apply ikey_not_lt in Hle as [<-|Hle]; [done|]. by trans e'.1.
  - intros (e & He & Hv & Hk & Hmin & Hnh). assert (candidate O s uk e ∨ candidate R s uk e) as He'.
    { destruct He as [He|He]; [left|by right]. destruct (Hdom e He) as (o & Ho & Hle). pose proof (Hsub o Ho) as Hoa.
      assert (o = e) as <-; [|done]. destruct o as [ko vo], e as [ke ve]. cbn in Hle.
      assert (ko = ke) as <-. { apply ikey_not_lt in Hle as [<-|Hle]; [done|]. exfalso. apply (Hmin (ko, vo)); [by left|done]. }
      f_equal. by apply (Hc ko); [apply Hoa|apply He]. }
    exists e. split_and!; [done|done|done| |by rewrite Hh]. intros e' [He''|He'']; apply Hmin; [left; by apply Hsub|by right].
Qed.

(** Replacing [A], where the key is not readable, by a part without the key. *)
Lemma union_gone A O R s uk v :
  (∀ o, ¬ candidate O s uk o) →
  (∀ a, candidate A s uk a → (∀ a', candidate A s uk a' → ¬ ikey_lt a'.1 a.1) → kind a.1 = Value → hidden A s uk (sequence a.1)) →
  (∀ n, hidden O s uk n → hidden A s uk n) →
  (∀ e, candidate R s uk e → ¬ hidden O s uk (sequence e.1) → (∀ a, candidate A s uk a → ¬ ikey_lt a.1 e.1) ∧ ¬ hidden A s uk (sequence e.1)) →
  reads (O ++ R) s uk v ↔ reads (A ++ R) s uk v.
Proof.
  intros Hno Hdead Hsub Hrest. unfold reads. setoid_rewrite candidate_app. setoid_rewrite hidden_app. split.
  - intros (e & [He|He] & Hv & Hk & Hmin & Hnh); [by apply Hno in He|]. destruct (Hrest e He) as [Hnew Hnha]; [tauto|].
    exists e. split_and!; [by right|done|done| |tauto]. intros e' [He'|He']; [by apply Hnew|by apply Hmin; right].
  - intros (e & [He|He] & Hv & Hk & Hmin & Hnh).
    + exfalso. apply Hnh. left. apply Hdead; [done| |done]. intros a' Ha'. apply Hmin. by left.
    + exists e. split_and!; [by right|done|done| |naive_solver]. intros e' [He'|He']; [by apply Hno in He'|]. apply Hmin. by right.
Qed.

(** The collections that keep what snapshot [s] reads. *)
Definition gc_admits (gc : CompactGcOptions) (entries : list entry) (s : Z) : Prop :=
  Forall (λ e : entry, min_sequence gc ≤ sequence e.1) entries ∧
  match oldest_snapshot gc with
  | Some oldest => oldest ≤ s
  | None => if keep_only_latest gc then Forall (λ e : entry, sequence e.1 ≤ s) entries else True
  end.

(** What [bottommost] promises of the tables that are not collected: their
    versions of the keys the input writes, also by range deletions, are newer. *)
Definition input_covers (uk : list byte) (x : entry) : Prop :=
  match kind x.1 with
  | RangeDeletion => range_tombstone_covers (user_key x.1) x.2 uk = true
  | _ => user_key x.1 = uk
  end.
Definition nothing_below (entries rest : list entry) : Prop :=
  ∀ x e, x ∈ entries → e ∈ rest → kind e.1 ≠ RangeDeletion → input_covers (user_key e.1) x → sequence x.1 < sequence e.1.

Section gc_reads.
Context (gc : CompactGcOptions) (entries points rest : list entry) (s : Z) (uk : list byte).
Context (Hcoh : coherent entries) (Hadm : gc_admits gc entries s) (Hs : StronglySorted ikey_lt points.*1)
        (Hp : ∀ e, e ∈ points ↔ gc_points gc entries e)
        (Hres : gc_result gc points (gc_dels gc entries) (gc_compact_entries entries gc))
        (Hbelow : bottommost gc = true → nothing_below entries rest).
#[local] Set Default Proof Using "All".

Local Abbreviation out := (gc_compact_entries entries gc).
Local Abbreviation versions := (versions_of uk points).
Local Abbreviation kept := (kept_versions gc (tomb_of <$> gc_dels gc entries) versions).

Lemma candidates_before e : candidate entries s uk e ↔ e ∈ versions ∧ sequence e.1 ≤ s.
Proof.
  destruct Hadm as [Hmin _]. rewrite Forall_forall in Hmin.
  unfold candidate, versions_of. rewrite list_elem_of_filter, Hp. unfold gc_points. naive_solver.
Qed.

Lemma kept_is_point e : e ∈ kept → kind e.1 ≠ RangeDeletion ∧ user_key e.1 = uk.
Proof. intros [? (? & ? & ?)%Hp]%kept_versions_user. done. Qed.

Lemma candidates_after e : candidate out s uk e ↔ e ∈ kept ∧ sequence e.1 ≤ s.
Proof.
  unfold candidate. rewrite (Hres e). split.
  - intros ([[Hd _]|Hk] & <- & Hnd & ?); [|done]. by apply list_elem_of_filter in Hd as [[_ ?] _].
  - intros [Hk ?]. pose proof (kept_is_point e Hk) as [? Hu]. rewrite Hu. split_and!; try done.
    by right.
Qed.

Lemma candidates_sub e : candidate out s uk e → candidate entries s uk e.
Proof. rewrite candidates_after, candidates_before. intros [Hk ?]. split; [by eapply kept_versions_sub|done]. Qed.

Lemma hidden_after n : hidden out s uk n ↔ drops_tombs gc = false ∧ hidden entries s uk n.
Proof.
  destruct Hadm as [Hmin _]. rewrite Forall_forall in Hmin. unfold hidden. split.
  - intros (k & v & He & Hk & ?). apply Hres in He as [[He ?]|[_ (_ & _ & ?)%Hp]%kept_versions_user];
      [|done]. apply list_elem_of_filter in He as [_ He]. split; [done|]. by exists k, v.
  - intros (Hdrop & k & v & He & Hk & ?). exists k, v. split; [|done]. apply Hres. left.
    split; [|done]. apply list_elem_of_filter. split; [|done]. split; [by apply (Hmin (k, v))|done].
Qed.

Lemma versions_sorted : StronglySorted ikey_lt versions.*1.
Proof. by apply sorted_lt_filter. Qed.

(** The newest visible version of the input. *)
Lemma newest_before a : candidate entries s uk a → ∃ x, newest_at s versions = Some x ∧ candidate entries s uk x ∧ ¬ ikey_lt a.1 x.1.
Proof.
  intros Ha%candidates_before. unfold newest_at. assert (a ∈ filter (λ e : entry, sequence e.1 <= s) versions) as Hin by (apply list_elem_of_filter; tauto).
  destruct (filter _ versions) as [|x l] eqn:E; [by apply not_elem_of_nil in Hin|]. exists x. split; [done|].
  assert (head (filter (λ e : entry, sequence e.1 <= s) versions) = Some x) as [Hx Hmin]%sorted_sub_head by (by rewrite E || by apply sorted_lt_filter, versions_sorted); [|by apply sorted_lt_filter, versions_sorted].
  split; [apply candidates_before; by apply list_elem_of_filter in Hx as [? ?]|]. apply Hmin. by rewrite E.
Qed.

Lemma newest_is a : candidate entries s uk a → (∀ a', candidate entries s uk a' → ¬ ikey_lt a'.1 a.1) → newest_at s versions = Some a.
Proof.
  intros Ha Hmin. destruct (newest_before a Ha) as (x & Ex & Hx & Hle). rewrite Ex. f_equal. destruct a as [ka va], x as [kx vx]. cbn in *.
  assert (kx = ka) as -> by (apply ikey_not_lt in Hle as [<-|Hle]; [done|]; by apply (Hmin (kx, vx)) in Hle).
  f_equal. by apply (Hcoh ka); [apply Hx|apply Ha].
Qed.

(** Below the bottommost level nothing of the key is newer, nor hides it. *)
Lemma bottom_rest e : bottommost gc = true → candidate rest s uk e →
  (∀ a, candidate entries s uk a → ¬ ikey_lt a.1 e.1) ∧ ¬ hidden entries s uk (sequence e.1).
Proof.
  intros Hb (He & Hu & Hk & _). split.
  - intros a (Ha & Hau & Hak & _) Hlt. assert (sequence a.1 < sequence e.1) as Hseq.
    { apply (Hbelow Hb a e Ha He Hk). unfold input_covers. rewrite Hu. by destruct (kind a.1). }
    apply ikey_lt_iff in Hlt as [Hlt|[_ ?]]; [|lia]. rewrite Hau, Hu in Hlt. by apply bytes_lt_irrefl in Hlt.
  - intros (k & w & Hin & Hkd & _ & Hlt & Hcov). assert (sequence k < sequence e.1); [|lia].
    apply (Hbelow Hb (k, w) e Hin He Hk). unfold input_covers. cbn. by rewrite Hkd, Hu.
Qed.

(** The collection kept the newest visible version. *)
Lemma reads_iff_kept v :
  newest_at s kept = newest_at s versions →
  (drops_tombs gc = true → bottommost gc = true ∧ ∀ e, candidate out s uk e → ¬ hidden entries s uk (sequence e.1)) →
  reads (out ++ rest) s uk v ↔ reads (entries ++ rest) s uk v.
Proof.
  intros Hnew Hdrop. apply union_same; [done|apply candidates_sub|..].
  - intros a Ha. destruct (newest_before a Ha) as (x & Ex & Hx & Hle). exists x. split; [|done]. apply candidates_after.
    rewrite <-Hnew in Ex. unfold newest_at in Ex. apply head_Some_elem_of, list_elem_of_filter in Ex. tauto.
  - intros e He. rewrite hidden_after. destruct (drops_tombs gc); [|tauto]. destruct (Hdrop eq_refl) as [Hb Hnh]. split; [by intros [? _]|].
    intros Hh. exfalso. destruct He as [He|He]; [by apply (Hnh e)|]. by apply (bottom_rest e Hb He).
Qed.

(** The snapshot rule. *)
Lemma reads_iff_snapshot oldest v :
  oldest_snapshot gc = Some oldest → reads (out ++ rest) s uk v ↔ reads (entries ++ rest) s uk v.
Proof.
  intros Hold. assert (drops_tombs gc = false) as Hd by (unfold drops_tombs; by rewrite Hold, bool_decide_eq_false_2).
  assert (newest_at s (keep_from oldest None versions) = newest_at s versions) as Hnew.
  { apply keep_from_newest; [|done]. destruct Hadm as [_ Hgc]. by rewrite Hold in Hgc. }
  destruct (bottommost gc && lone_tombstone (keep_from oldest None versions)) eqn:Hlone.
  2: { apply reads_iff_kept; [|congruence]. unfold kept_versions. by rewrite Hold, Hlone. }
  assert (kept = []) as Ek by (unfold kept_versions; by rewrite Hold, Hlone).
  apply andb_true_iff in Hlone as [Hb Hlone]. apply union_gone.
  - intros o [Ho _]%candidates_after. rewrite Ek in Ho. by apply not_elem_of_nil in Ho.
  - intros a Ha Hmin Hk. pose proof (newest_is a Ha Hmin) as Ea. rewrite <-Hnew in Ea. unfold newest_at in Ea. apply head_Some_elem_of, list_elem_of_filter in Ea as [_ Ea].
    unfold lone_tombstone in Hlone. destruct (keep_from oldest None versions) as [|d [|? ?]]; try done. apply list_elem_of_singleton in Ea as ->.
    apply bool_decide_eq_true in Hlone. congruence.
  - intros n [_ ?]%hidden_after. done.
  - intros e He _. by apply bottom_rest.
Qed.

(** The gathered tombstones decide hiding when the snapshot sees everything. *)
Lemma all_tombs_hidden n :
  Forall (λ e : entry, sequence e.1 ≤ s) entries →
  range_deleted uk n (tomb_of <$> gc_dels gc entries) = true ↔ hidden entries s uk n.
Proof.
  intros Hall. destruct Hadm as [Hmin _]. rewrite Forall_forall in Hmin, Hall.
  apply range_deleted_hidden. intros t. unfold tombs_of, gc_dels. rewrite list_elem_of_fmap. split.
  - intros (y & -> & [[_ ?] Hy]%list_elem_of_filter). exists y. split_and!; try done. by apply Hall.
  - intros (y & Hy & ? & ? & ->). exists y. split; [done|]. apply list_elem_of_filter.
    split_and!; [by apply Hmin|done|done].
Qed.

(** An older version of a hidden one is hidden too. *)
Lemma hidden_older n m : m ≤ n → hidden entries s uk n → hidden entries s uk m.
Proof. intros Hle (k & w & ? & ? & ? & ? & ?). exists k, w. split_and!; try done. lia. Qed.

(** The newest version was dropped. *)
Lemma reads_iff_gone x v :
  newest_at s versions = Some x → kept = [] → (drops_tombs gc = true → bottommost gc = true) →
  (kind x.1 = Value → hidden entries s uk (sequence x.1)) → (bottommost gc = false → hidden entries s uk (sequence x.1)) →
  reads (out ++ rest) s uk v ↔ reads (entries ++ rest) s uk v.
Proof.
  intros Ex Ek Hdb Hval Hhid. apply union_gone.
  - intros o [Ho _]%candidates_after. rewrite Ek in Ho. by apply not_elem_of_nil in Ho.
  - intros a Ha Hmin Hk. pose proof (newest_is a Ha Hmin) as Ea. rewrite Ex in Ea. injection Ea as ->. by apply Hval.
  - intros n [_ ?]%hidden_after. done.
  - intros e He Hnh. assert (bottommost gc = true ∨ bottommost gc = false) as [Hb|Hb] by (clear; destruct (bottommost gc); auto); [by apply bottom_rest|].
    rewrite hidden_after in Hnh.
    assert (drops_tombs gc = false) as Hd by (destruct (drops_tombs gc); [by rewrite Hdb in Hb|done]). split; [|tauto].
    intros a Ha Hlt. apply Hnh. split; [done|]. apply (hidden_older (sequence x.1)); [|by apply Hhid].
    destruct (newest_before a Ha) as (y & Ey & Hy & Hle). rewrite Ex in Ey. injection Ey as <-.
    assert (∀ p q : entry, user_key p.1 = uk → user_key q.1 = uk → ¬ ikey_lt p.1 q.1 → sequence p.1 ≤ sequence q.1) as Hseq.
    { intros p q Hpu Hqu Hn. destruct (decide (sequence p.1 ≤ sequence q.1)) as [|Hgt]; [done|]. exfalso. apply Hn, ikey_lt_iff. right. split; [congruence|]. left. lia. }
    assert (sequence e.1 ≤ sequence a.1) as H1.
    { apply Hseq; [apply He|apply Ha|]. intros Hlt'. apply (irreflexivity ikey_lt a.1). by trans e.1. }
    assert (sequence a.1 ≤ sequence x.1) as H2 by (apply Hseq; [apply Ha|apply Hy|done]). lia.
Qed.

(** The latest-version rule. *)
Lemma reads_iff_latest v :
  oldest_snapshot gc = None → keep_only_latest gc = true → reads (out ++ rest) s uk v ↔ reads (entries ++ rest) s uk v.
Proof.
  intros Hold Hlat. destruct Hadm as [_ Hgc]. rewrite Hold, Hlat in Hgc.
  assert (drops_tombs gc = bottommost gc) as Hd by (unfold drops_tombs; by rewrite Hold, Hlat, bool_decide_eq_true_2).
  destruct versions as [|x l] eqn:Hv.
  { apply reads_iff_kept; [by rewrite Hv, kept_versions_nil|]. rewrite Hd. intros ->. split; [done|].
    intros e [He _]%candidates_after. rewrite Hv, kept_versions_nil in He. by apply not_elem_of_nil in He. }
  assert (x ∈ versions) as Hx by (rewrite Hv; set_solver). apply list_elem_of_filter in Hx as [Hxu (Hxe & _ & Hxk)%Hp].
  pose proof (all_tombs_hidden (sequence x.1) Hgc) as Hh. rewrite Forall_forall in Hgc. specialize (Hgc x Hxe) as Hxs. cbn in Hxs.
  assert (newest_at s versions = Some x) as Ex by (rewrite Hv; unfold newest_at; by rewrite filter_cons, decide_True by done).
  destruct (latest_keep (bottommost gc) (tomb_of <$> gc_dels gc entries) x) eqn:El.
  - assert (kept = [x]) as Ek by (rewrite Hv; unfold kept_versions; by rewrite Hold, Hlat, El). apply reads_iff_kept.
    + rewrite Ek, Ex. unfold newest_at. by rewrite filter_cons, decide_True by done.
    + rewrite Hd. intros Hb. split; [done|]. intros e [He _]%candidates_after. rewrite Ek in He. apply list_elem_of_singleton in He as ->.
      unfold latest_keep in El. rewrite Hb, Hxu in El. destruct (kind x.1); try done. cbn in El. intros Hhid%Hh. by rewrite Hhid in El.
  - assert (kept = []) as Ek by (rewrite Hv; unfold kept_versions; by rewrite Hold, Hlat, El).
    apply (reads_iff_gone x); [done|done|congruence|..]; unfold latest_keep in El; rewrite Hxu in El.
    + intros Hk. rewrite Hk in El. apply Hh. cbn in El. by destruct (range_deleted _ _ _).
    + intros Hb. rewrite Hb in El. destruct (kind x.1); try done. apply Hh. cbn in El. by destruct (range_deleted _ _ _).
Qed.

Lemma reads_iff v : reads (out ++ rest) s uk v ↔ reads (entries ++ rest) s uk v.
Proof.
  destruct (oldest_snapshot gc) as [oldest|] eqn:Hold; [by eapply reads_iff_snapshot|].
  destruct (keep_only_latest gc) eqn:Hlat; [by apply reads_iff_latest|].
  apply reads_iff_kept; [unfold kept_versions; by rewrite Hold, Hlat|]. unfold drops_tombs. by rewrite Hlat, andb_false_r.
Qed.
End gc_reads.

(** ** Properties *)

(** C12: garbage collection is invisible. Let [entries] be the input of a
    collection, layers that agree on every version, and [rest] what all the other
    layers hold; when the collection is told that it is bottommost, [rest] has,
    of the keys the input writes or deletes, only newer versions, and otherwise
    [rest] is arbitrary. Then collecting for an oldest snapshot changes no read
    of the whole database at that snapshot or a newer one, keeping only the
    latest versions changes no read that sees the whole input, and a rewrite
    without collection changes no read at all; also when lone tombstones (and,
    for the latest versions, range deletions) are dropped. No input entry is
    below the option's minimal sequence. *)
Theorem gc_preserves_reads gc entries rest s uk v :
  coherent entries → gc_admits gc entries s → (bottommost gc = true → nothing_below entries rest) →
  reads (gc_compact_entries entries gc ++ rest) s uk v ↔ reads (entries ++ rest) s uk v.
Proof.
  intros Hc Hadm Hb. destruct (gc_compact_entries_result entries gc Hc) as (points & Hs & Hp & Hres).
  by eapply reads_iff.
Qed.

(** Versions of one key, from the newest. *)
Definition newest_first (l : list entry) : Prop :=
  StronglySorted (λ a b : entry, sequence b.1 <= sequence a.1) l.

Lemma versions_newest_first uk l :
  StronglySorted ikey_lt l.*1 → newest_first (versions_of uk l).
Proof.
  induction l as [|x l IH]; intros Hs; [constructor|]. cbn in Hs.
  apply StronglySorted_inv in Hs as [Hs Hx]. rewrite Forall_forall in Hx.
  rewrite versions_of_cons. case_decide as E; [|by apply IH]. constructor; [by apply IH|].
  apply Forall_forall. intros y [Hyu Hy]%list_elem_of_filter.
  assert (ikey_lt x.1 y.1) as Hlt by (apply Hx; by apply list_elem_of_fmap_2).
  apply ikey_lt_iff in Hlt as [Hlt|[_ ?]]; [|lia]. rewrite Hyu, E in Hlt. by apply bytes_lt_irrefl in Hlt.
Qed.

(** Once a version at or below the oldest snapshot is kept, nothing below it is. *)
Lemma keep_from_below oldest n l e :
  newest_first l → Forall (λ x : entry, sequence x.1 ≤ n) l → n ≤ oldest →
  e ∈ keep_from oldest (Some n) l → oldest ≤ sequence e.1.
Proof.
  revert n. induction l as [|x l IH]; intros n Hd Hn Hno; cbn [keep_from]; [by intros ?%not_elem_of_nil|].
  apply StronglySorted_inv in Hd as [Hd Hx]. apply Forall_cons in Hn as [Hxn Hn].
  case_decide as Hf; [by apply IH|]. unfold point_version_fate in Hf.
  destruct (Z.leb_spec oldest (sequence x.1)); [|by rewrite (proj2 (Z.leb_le _ _)) in Hf by lia].
  intros [->|He]%elem_of_cons; [done|]. eapply IH; [done|exact Hx|lia|done].
Qed.

Lemma keep_from_old oldest newer l e1 e2 :
  newest_first l → (∀ n, newer = Some n → oldest < n) →
  e1 ∈ keep_from oldest newer l → e2 ∈ keep_from oldest newer l →
  sequence e1.1 ≤ oldest → sequence e2.1 < oldest → e1 = e2.
Proof.
  revert newer. induction l as [|x l IH]; intros newer Hd Hn; cbn [keep_from]; [by intros ?%not_elem_of_nil|].
  apply StronglySorted_inv in Hd as [Hd Hx]. rewrite decide_False.
  2:{ unfold point_version_fate. destruct (oldest <=? _); [done|]. destruct newer as [n|]; [|done].
      specialize (Hn n eq_refl). by rewrite (proj2 (Z.leb_gt _ _)) by lia. }
  intros He1 He2 Hle Hlt. destruct (decide (oldest < sequence x.1)) as [Hgt|Hle'].
  { apply elem_of_cons in He1 as [->|He1]; [lia|]. apply elem_of_cons in He2 as [->|He2]; [lia|].
    eapply (IH (Some (sequence x.1))); try done. intros n [= <-]. done. }
  assert (∀ y, y ∈ keep_from oldest (Some (sequence x.1)) l →
            oldest ≤ sequence y.1 ∧ sequence y.1 ≤ sequence x.1) as Hrest.
  { intros y Hy. split; [eapply keep_from_below; [exact Hd|exact Hx|lia|done]|].
    apply keep_from_sub in Hy. rewrite Forall_forall in Hx. by apply Hx. }
  apply elem_of_cons in He2 as [->|He2]; [|apply Hrest in He2; lia].
  apply elem_of_cons in He1 as [->|He1]; [done|]. apply Hrest in He1. lia.
Qed.

(** C35: garbage collection collects. After a collection for an oldest snapshot,
    of all the versions of a key at or below that snapshot at most one remains
    once any of them is strictly below it. *)
Theorem gc_collects gc entries oldest e1 e2 :
  coherent entries → oldest_snapshot gc = Some oldest →
  e1 ∈ gc_compact_entries entries gc → e2 ∈ gc_compact_entries entries gc →
  kind e1.1 ≠ RangeDeletion → kind e2.1 ≠ RangeDeletion → user_key e1.1 = user_key e2.1 →
  sequence e1.1 ≤ oldest → sequence e2.1 < oldest → e1 = e2.
Proof.
  intros Hc Hold He1 He2 Hk1 Hk2 Hu. destruct (gc_compact_entries_result entries gc Hc) as (points & Hs & _ & Hres).
  assert (∀ e, e ∈ gc_compact_entries entries gc → kind e.1 ≠ RangeDeletion →
            e ∈ keep_from oldest None (versions_of (user_key e.1) points)) as Hin.
  { intros e He Hk. apply Hres in He as [[[[_ ?] _]%list_elem_of_filter _]|He]; [done|].
    unfold kept_versions in He. rewrite Hold in He. destruct (_ && _); [by apply not_elem_of_nil in He|done]. }
  apply Hin in He1, He2; [|done..]. rewrite <-Hu in He2.
  eapply (keep_from_old oldest None); [by apply versions_newest_first|done|done|done].
Qed.

Definition gc_sample : CompactGcOptions := mkGc 0 false (Some 3) true.

(** A key of the input with a newer version elsewhere, and a key of another
    table. *)
Definition gc_rest : list entry := [(mkIKey [x62] 9 Value, [x37]); (mkIKey [x7a] 1 Value, [x38])].

Lemma gc_preserves_reads_witness :
  gc_admits gc_sample sample_entries 4 ∧
  (reads (gc_compact_entries sample_entries gc_sample ++ gc_rest) 4 [x62] [x32] ↔
   reads (sample_entries ++ gc_rest) 4 [x62] [x32]).
Proof.
  assert (gc_admits gc_sample sample_entries 4) as Hadm.
  { split; [repeat constructor; vm_compute; discriminate|vm_compute; discriminate]. }
  split; [exact Hadm|]. apply (gc_preserves_reads gc_sample sample_entries gc_rest 4 [x62] [x32] sample_coherent Hadm).
  intros _ x e Hx He Hk Hc. unfold sample_entries in Hx. unfold gc_rest in He.
  repeat (apply elem_of_cons in He as [->|He]; [repeat (apply elem_of_cons in Hx as [->|Hx]; [first [reflexivity|vm_compute in Hc; discriminate Hc]|]);
    by apply not_elem_of_nil in Hx|]). by apply not_elem_of_nil in He.
Defined.

Lemma gc_collects_witness :
  gc_compact_entries sample_entries gc_sample =
    [(mkIKey [x61] 4 RangeDeletion, [x63]); (mkIKey [x61] 3 Value, [x33]);
     (mkIKey [x62] 5 Deletion, []); (mkIKey [x62] 2 Value, [x32]); (mkIKey [x63] 1 Value, [x39])] ∧
  (mkIKey [x62] 2 Value, [x32] : list byte) = (mkIKey [x62] 2 Value, [x32]).
Proof.
  split; [reflexivity|].
  apply (gc_collects gc_sample sample_entries 3 (mkIKey [x62] 2 Value, [x32]) (mkIKey [x62] 2 Value, [x32]));
    try reflexivity; try discriminate; try (vm_compute; discriminate); try exact sample_coherent;
    vm_compute; do 3 right; left.
Defined.
