(* ===== verification/GcStream.v ===== *)
(** The streaming compaction input of [merge_kernel.rs]: [KwayInternalMerge]
    and [GcMergeSource].

    A leaf source is the list of what its [next_entry] calls return, errors
    included. [std::collections::BinaryHeap] is the collection of its elements;
    [pop] removes the greatest, which by the reversed [Ord for MergeHead] is the
    first key, lowest source index first. The theorems: the merge yields the
    union in order without duplicates, an error is never swallowed, and the
    streaming collection yields what the batch one does. *)

From S2P Require Import Prelude ErrorKernel KeyKernel BatchKernel Visibility CompactGc.

Local Open Scope nat_scope.

(** * Sources *)

Abbreviation Stream := (list (Result CoreError entry)).

(** [streams[i].next_entry()]. *)
Definition source_next (i : nat) (ss : list Stream) : Result CoreError (option entry) * list Stream :=
  match ss !! i with
  | Some (Ok e :: rest) => (Ok (Some e), <[i := rest]> ss)
  | Some (Err x :: rest) => (Err x, <[i := rest]> ss)
  | _ => (Ok None, ss)
  end.

Record MergeHead := mkHead { mh_key : InternalKey; mh_value : list byte; mh_src : nat }.

(** [a] is popped before [b]. *)
Definition head_first (a b : MergeHead) : bool :=
  match ikey_cmp (mh_key a) (mh_key b) with
  | Lt => true
  | Eq => mh_src a <? mh_src b
  | Gt => false
  end.

(** [BinaryHeap::pop]. *)
Fixpoint select (x : MergeHead) (l : list MergeHead) : MergeHead * list MergeHead :=
  match l with
  | [] => (x, [])
  | y :: l =>
      if head_first y x then let '(m, r) := select y l in (m, x :: r)
      else let '(m, r) := select x l in (m, y :: r)
  end.
Definition heap_pop (h : list MergeHead) : option (MergeHead * list MergeHead) :=
  match h with
  | [] => None
  | x :: l => Some (select x l)
  end.

(** * [KwayInternalMerge] *)

Record KwayInternalMerge := mkKway {
  k_streams : list Stream;
  k_heap : list MergeHead;
  k_last : option InternalKey
}.

(** [from_streams]: one head per source, in order; an error ends the loop. *)
Fixpoint from_streams_loop (todo src : nat) (ss : list Stream) (h : list MergeHead)
    : Result CoreError KwayInternalMerge :=
  match todo with
  | O => Ok (mkKway ss h None)
  | S todo =>
      let '(r, ss) := source_next src ss in
      let? x := r in
      match x with
      | Some (key, value) => from_streams_loop todo (S src) ss (h ++ [mkHead key value src])
      | None => from_streams_loop todo (S src) ss h
      end
  end.
Definition from_streams (ss : list Stream) : Result CoreError KwayInternalMerge :=
  from_streams_loop (length ss) 0 ss [].

(** [KwayInternalMerge::next_entry]; [None] is running out of fuel. *)
Fixpoint kway_loop (fuel : nat) (k : KwayInternalMerge)
    : option (Result CoreError (option entry) * KwayInternalMerge) :=
  match fuel with
  | O => None
  | S fuel =>
      match heap_pop (k_heap k) with
      | None => Some (Ok None, k)
      | Some (head, h) =>
          let '(r, ss) := source_next (mh_src head) (k_streams k) in
          match r with
          | Err x => Some (Err x, mkKway ss h (k_last k))
          | Ok n =>
              let h := match n with
                       | Some (key, value) => h ++ [mkHead key value (mh_src head)]
                       | None => h
                       end in
              if bool_decide (k_last k = Some (mh_key head)) then kway_loop fuel (mkKway ss h (k_last k))
              else Some (Ok (Some (mh_key head, mh_value head)), mkKway ss h (Some (mh_key head)))
          end
      end
  end.

(** Entries and errors not yet consumed; every turn consumes a head. *)
Definition kway_size (k : KwayInternalMerge) : nat :=
  length (k_heap k) + length (mjoin (k_streams k)).
Definition kway_next (k : KwayInternalMerge)
    : option (Result CoreError (option entry) * KwayInternalMerge) :=
  kway_loop (S (kway_size k)) k.

(** * [GcMergeSource] *)

Record GcMergeSource := mkGcSource {
  g_merge : KwayInternalMerge;
  g_gc : CompactGcOptions;
  g_tombs : list RangeTombstone;
  g_run : list entry;
  g_out : list entry
}.

Definition gc_source_new (merge : KwayInternalMerge) (gc : CompactGcOptions) : GcMergeSource :=
  mkGcSource merge gc [] [] [].

(** The keep flags of [close_run] under a snapshot, over the indices of the
    point versions. *)
Fixpoint keep_flags (oldest : Z) (run : list entry) (points : list nat) (newer : option Z)
    (keep : list bool) : list bool :=
  match points with
  | [] => keep
  | i :: points =>
      let s := default 0%Z ((λ e : entry, sequence e.1) <$> run !! i) in
      if decide (point_version_fate s newer oldest = Drop) then keep_flags oldest run points newer keep
      else keep_flags oldest run points (Some s) (<[i := true]> keep)
  end.

Definition clear_flags (kept : list nat) (keep : list bool) : list bool :=
  foldl (λ k i, <[i := false]> k) keep kept.

(** [0..run.len()] filtered to the point versions. *)
Definition point_indices (run : list entry) : list nat :=
  filter (λ i, ((λ e : entry, kind e.1) <$> run !! i) ≠ Some RangeDeletion) (seq 0 (length run)).

Definition run_flags (gc : CompactGcOptions) (tombs : list RangeTombstone) (run : list entry)
    : list bool :=
  let keep := replicate (length run) false in
  let points := point_indices run in
  match oldest_snapshot gc with
  | Some oldest =>
      let keep := keep_flags oldest run points None keep in
      let kept := filter (λ i, keep !! i = Some true) points in
      let lone :=
        match kept with
        | [i] => bool_decide (((λ e : entry, kind e.1) <$> run !! i) = Some Deletion)
        | _ => false
        end in
      if decide (lone_tombstone_fate (bottommost gc) lone = Drop) then clear_flags kept keep else keep
  | None =>
      if keep_only_latest gc then
        match points with
        | i :: _ =>
            match run !! i with
            | Some e => <[i := latest_keep (bottommost gc) tombs e]> keep
            | None => keep
            end
        | [] => keep
        end
      else foldl (λ k i, <[i := true]> k) keep points
  end.

(** The last loop of [close_run]. *)
Fixpoint push_kept (drop_tombs : bool) (run : list entry) (keep : list bool) : list entry :=
  match run, keep with
  | e :: run, k :: keep =>
      let out := push_kept drop_tombs run keep in
      if bool_decide (kind e.1 = RangeDeletion) then if negb drop_tombs then e :: out else out
      else if k then e :: out else out
  | _, _ => []
  end.

Definition close_run (g : GcMergeSource) : GcMergeSource :=
  let run := g_run g in
  let tombs := g_tombs g ++ (tomb_of <$> filter (λ e : entry, kind e.1 = RangeDeletion) run) in
  mkGcSource (g_merge g) (g_gc g) tombs []
    (g_out g ++ push_kept (drops_tombs (g_gc g)) run (run_flags (g_gc g) tombs run)).

Definition run_ends (run : list entry) (e : entry) : bool :=
  match last run with
  | Some l => negb (bytes_eqb (user_key l.1) (user_key e.1))
  | None => false
  end.

(** [GcMergeSource::next_entry]. *)
Fixpoint gc_loop (fuel : nat) (g : GcMergeSource)
    : option (Result CoreError (option entry) * GcMergeSource) :=
  match fuel with
  | O => None
  | S fuel =>
      match g_out g with
      | e :: out => Some (Ok (Some e), mkGcSource (g_merge g) (g_gc g) (g_tombs g) (g_run g) out)
      | [] =>
          '(r, merge) ← kway_next (g_merge g);
          let g := mkGcSource merge (g_gc g) (g_tombs g) (g_run g) [] in
          match r with
          | Err x => Some (Err x, g)
          | Ok (Some e) =>
              if (sequence e.1 <? min_sequence (g_gc g))%Z then gc_loop fuel g
              else
                let g := if run_ends (g_run g) e then close_run g else g in
                gc_loop fuel (mkGcSource (g_merge g) (g_gc g) (g_tombs g) (g_run g ++ [e]) (g_out g))
          | Ok None =>
              if batch_is_empty (length (g_run g)) then Some (Ok None, g)
              else gc_loop fuel (close_run g)
          end
      end
  end.
Definition gc_next (g : GcMergeSource) : option (Result CoreError (option entry) * GcMergeSource) :=
  gc_loop (kway_size (g_merge g) + 3) g.

(** Draining a source, as the compaction writer does: an error ends it. *)
Fixpoint kway_drain (fuel : nat) (k : KwayInternalMerge) (out : list entry)
    : option (Result CoreError (list entry)) :=
  match fuel with
  | O => None
  | S fuel =>
      '(r, k) ← kway_next k;
      match r with
      | Err x => Some (Err x)
      | Ok None => Some (Ok out)
      | Ok (Some e) => kway_drain fuel k (out ++ [e])
      end
  end.
Fixpoint gc_drain (fuel : nat) (g : GcMergeSource) (out : list entry)
    : option (Result CoreError (list entry)) :=
  match fuel with
  | O => None
  | S fuel =>
      '(r, g) ← gc_next g;
      match r with
      | Err x => Some (Err x)
      | Ok None => Some (Ok out)
      | Ok (Some e) => gc_drain fuel g (out ++ [e])
      end
  end.

(** * The merge *)

(** The entries a source still yields. *)
Definition ok_of (r : Result CoreError entry) : option entry :=
  match r with Ok e => Some e | Err _ => None end.
Definition oks (s : Stream) : list entry := omap ok_of s.

Definition head_entries (ss : list Stream) (h : MergeHead) : list entry :=
  (mh_key h, mh_value h) :: oks (default [] (ss !! mh_src h)).
Definition kpend (k : KwayInternalMerge) : list entry := mjoin (head_entries (k_streams k) <$> k_heap k).

Definition errors_in (ss : list Stream) (x : CoreError) : Prop := ∃ s, s ∈ ss ∧ Err x ∈ s.

Record kway_inv (k : KwayInternalMerge) : Prop := {
  ki_srcs : NoDup (mh_src <$> k_heap k);
  ki_heads h : h ∈ k_heap k → ∃ s, k_streams k !! mh_src h = Some s ∧
                 StronglySorted ikey_lt (head_entries (k_streams k) h).*1;
  ki_done i s : k_streams k !! i = Some s → i ∉ mh_src <$> k_heap k → s = [];
  ki_last l : k_last k = Some l → ∀ e, e ∈ kpend k → ikey_le l e.1
}.

Lemma select_spec x l : let '(m, r) := select x l in
  m :: r ≡ₚ x :: l ∧ ∀ y, y ∈ x :: l → ikey_le (mh_key m) (mh_key y).
Proof.
  revert x. induction l as [|y l IH]; intros x; cbn [select].
  { split; [done|]. intros y ->%list_elem_of_singleton. apply ikey_lt_irrefl. }
  destruct (head_first y x) eqn:E.
  - specialize (IH y). destruct (select y l) as [m r]. destruct IH as [Hp Hm]. split.
    + by rewrite (perm_swap x m r), Hp.
    + intros z [->|Hz]%elem_of_cons; [|by apply Hm].
      eapply ikey_le_trans; [apply (Hm y); set_solver|]. unfold head_first in E. unfold ikey_le, ikey_lt.
      rewrite ikey_cmp_antisym. by destruct (ikey_cmp (mh_key y) (mh_key x)).
  - specialize (IH x). destruct (select x l) as [m r]. destruct IH as [Hp Hm]. split.
    + rewrite (perm_swap y m r), Hp. apply perm_swap.
    + intros z [->|[->|Hz]%elem_of_cons]%elem_of_cons; [apply Hm; set_solver| |apply Hm; set_solver].
      eapply ikey_le_trans; [apply (Hm x); set_solver|]. unfold head_first in E. unfold ikey_le, ikey_lt.
      by destruct (ikey_cmp (mh_key y) (mh_key x)).
Qed.

Lemma oks_cons r s : oks (r :: s) = match r with Ok e => e :: oks s | Err _ => oks s end.
Proof. by destruct r. Qed.

(** [source_next] on the source whose rest is [s]. *)
Lemma source_next_spec i ss s :
  ss !! i = Some s →
  let '(r, ss') := source_next i ss in
  (∀ j, j ≠ i → ss' !! j = ss !! j) ∧
  match r with
  | Ok None => s = [] ∧ ss' = ss
  | Ok (Some e) => ∃ s', s = Ok e :: s' ∧ ss' = <[i := s']> ss
  | Err x => Err x ∈ s
  end.
Proof.
  intros Hs. unfold source_next. rewrite Hs. destruct s as [|[e|x] s']; (split; [|]); try done.
  - intros j Hj. by rewrite list_lookup_insert_ne.
  - by exists s'.
  - intros j Hj. by rewrite list_lookup_insert_ne.
  - set_solver.
Qed.

Lemma length_join_insert (ss : list Stream) i x s :
  ss !! i = Some (x :: s) → length (mjoin ss) = S (length (mjoin (<[i := s]> ss))).
Proof.
  revert i. induction ss as [|t ss IH]; intros [|i] Hi; try done; cbn in Hi;
    change (mjoin (t :: ss)) with (t ++ mjoin ss).
  - injection Hi as ->. change (<[0:=s]> ((x :: s) :: ss)) with (s :: ss).
    change (mjoin (s :: ss)) with (s ++ mjoin ss). len.
  - change (<[S i:=s]> (t :: ss)) with (t :: <[i:=s]> ss).
    change (mjoin (t :: <[i:=s]> ss)) with (t ++ mjoin (<[i:=s]> ss)).
    rewrite !length_app, (IH i Hi). lia.
Qed.

Lemma errors_in_insert (ss : list Stream) i e s x :
  ss !! i = Some (Ok e :: s) → errors_in ss x ↔ errors_in (<[i := s]> ss) x.
Proof.
  intros Hi. assert (i < length ss) as Hlen by (by eapply lookup_lt_Some). split.
  - intros (t & (j & Hj)%list_elem_of_lookup & Hx). destruct (decide (i = j)) as [->|Hne].
    + rewrite Hi in Hj. injection Hj as <-. exists s. split; [|set_solver].
      apply list_elem_of_lookup. exists j. by apply list_lookup_insert_eq.
    + exists t. split; [|done]. apply list_elem_of_lookup. exists j. by rewrite list_lookup_insert_ne.
  - intros (t & (j & Hj)%list_elem_of_lookup & Hx). destruct (decide (i = j)) as [->|Hne].
    + rewrite list_lookup_insert_eq in Hj by done. injection Hj as <-. exists (Ok e :: s).
      split; [by eapply list_elem_of_lookup_2|set_solver].
    + rewrite list_lookup_insert_ne in Hj by done. exists t. split; [by eapply list_elem_of_lookup_2|done].
Qed.

Lemma head_entries_other ss ss' (i : nat) (h : list MergeHead) :
  (∀ j, j ≠ i → ss' !! j = ss !! j) → i ∉ mh_src <$> h →
  ∀ y, y ∈ h → head_entries ss' y = head_entries ss y ∧ mh_src y ≠ i.
Proof.
  intros Hoth Hni y Hy. assert (mh_src y ≠ i) as Hne.
  { intros <-. apply Hni. by apply list_elem_of_fmap_2. }
  unfold head_entries. by rewrite Hoth.
Qed.

(** One pop: the head leaves, its source's next entry takes its place. *)
Lemma kway_pop k head h :
  kway_inv k → heap_pop (k_heap k) = Some (head, h) →
  let '(r, ss) := source_next (mh_src head) (k_streams k) in
  (∀ x, x ∈ kpend k → ikey_le (mh_key head) x.1) ∧
  match r with
  | Err x => errors_in (k_streams k) x
  | Ok n =>
      let h' := match n with Some (key, value) => h ++ [mkHead key value (mh_src head)] | None => h end in
      let k' := mkKway ss h' (k_last k) in
      kpend k ≡ₚ (mh_key head, mh_value head) :: kpend k' ∧
      kway_size k = S (kway_size k') ∧
      (∀ x, errors_in (k_streams k) x ↔ errors_in ss x) ∧
      NoDup (mh_src <$> h') ∧
      (∀ y, y ∈ h' → ∃ s, ss !! mh_src y = Some s ∧ StronglySorted ikey_lt (head_entries ss y).*1) ∧
      (∀ i s, ss !! i = Some s → i ∉ mh_src <$> h' → s = [])
  end.
Proof.
  intros Hinv Hpop. unfold heap_pop in Hpop. destruct (k_heap k) as [|x l] eqn:Hh; [done|].
  pose proof (select_spec x l) as Hsel. injection Hpop as Hpop. rewrite Hpop in Hsel.
  rewrite <-Hh in Hsel. destruct Hsel as [Hperm Hmin]. clear x l Hh Hpop.
  assert (head ∈ k_heap k) as Hin by (rewrite <-Hperm; set_solver).
  destruct (ki_heads k Hinv head Hin) as (s & Hs & Hsort).
  pose proof (ki_srcs k Hinv) as Hnd. rewrite <-Hperm in Hnd. cbn in Hnd. apply NoDup_cons in Hnd as [Hni Hnd].
  assert (kpend k ≡ₚ ((mh_key head, mh_value head) :: oks s) ++ mjoin (head_entries (k_streams k) <$> h)) as Hp.
  { unfold kpend. rewrite <-Hperm. cbn. unfold head_entries at 1. by rewrite Hs. }
  pose proof (source_next_spec _ _ _ Hs) as Hn. destruct (source_next _ _) as [r ss].
  destruct Hn as [Hoth Hr]. split.
  { intros y Hy. unfold kpend in Hy. apply list_elem_of_join in Hy as (es & Hy & (z & -> & Hz)%list_elem_of_fmap).
    eapply ikey_le_trans; [by apply Hmin|]. destruct (ki_heads k Hinv z Hz) as (sz & _ & Hsz).
    unfold head_entries in Hy, Hsz. apply elem_of_cons in Hy as [->|Hy]; [apply ikey_lt_irrefl|].
    cbn in Hsz. apply StronglySorted_inv in Hsz as [_ Hf]. rewrite Forall_forall in Hf.
    apply ikey_not_lt. right. apply Hf. by apply list_elem_of_fmap_2. }
  destruct r as [[[key value]|]|x].
  - destruct Hr as (s' & -> & ->). set (y0 := mkHead key value (mh_src head)).
    assert (mh_src head < length (k_streams k)) as Hlen by (by eapply lookup_lt_Some).
    pose proof (head_entries_other _ _ _ h Hoth Hni) as Hsame.
    assert (head_entries (<[mh_src head:=s']> (k_streams k)) y0 = (key, value) :: oks s') as Hy0.
    { unfold head_entries. cbn. by rewrite list_lookup_insert_eq. }
    split_and!.
    + rewrite Hp. unfold kpend. cbn [k_streams k_heap]. rewrite fmap_app, join_app.
      assert (mjoin (head_entries (<[mh_src head:=s']> (k_streams k)) <$> [y0]) =
              (key, value) :: oks s') as ->.
      { cbn [fmap list_fmap]. rewrite Hy0. apply app_nil_r. }
      rewrite (list_fmap_ext (head_entries (<[mh_src head:=s']> (k_streams k))) (head_entries (k_streams k)) h)
        by (intros; apply Hsame; by eapply list_elem_of_lookup_2).
      rewrite <-app_comm_cons. apply perm_skip. rewrite oks_cons. apply Permutation_app_comm.
    + unfold kway_size. cbn. rewrite <-Hperm, length_app, (length_join_insert _ _ _ _ Hs). cbn. lia.
    + intros x. by eapply errors_in_insert.
    + rewrite fmap_app. cbn. rewrite (Permutation_app_comm (mh_src <$> h)). cbn. by apply NoDup_cons.
    + intros y [Hy| ->%list_elem_of_singleton]%elem_of_app.
      * destruct (Hsame y Hy) as [-> Hne]. rewrite list_lookup_insert_ne by done.
        apply (ki_heads k Hinv). rewrite <-Hperm. set_solver.
      * exists s'. rewrite Hy0. split; [by apply list_lookup_insert_eq|].
        unfold head_entries in Hsort. rewrite Hs in Hsort. cbn in Hsort.
        by apply StronglySorted_inv in Hsort as [? _].
    + intros i s Hi Hnin. rewrite fmap_app in Hnin. cbn in Hnin.
      rewrite list_lookup_insert_ne in Hi by set_solver. apply (ki_done k Hinv i s Hi).
      rewrite <-Hperm. cbn. set_solver.
  - destruct Hr as [-> ->]. split_and!; try done.
    + unfold kway_size. cbn. rewrite <-Hperm. cbn. lia.
    + intros y Hy. apply (ki_heads k Hinv). rewrite <-Hperm. set_solver.
    + intros i s Hi Hnin. destruct (decide (i = mh_src head)) as [->|]; [congruence|].
      apply (ki_done k Hinv i s Hi). rewrite <-Hperm. cbn. set_solver.
  - exists s. split; [by eapply list_elem_of_lookup_2|done].
Qed.

Lemma heap_pop_None h : heap_pop h = None → h = [].
Proof. by destruct h. Qed.

(** What [next_entry] of the merge returns. *)
Definition kway_ok (k : KwayInternalMerge) (r : Result CoreError (option entry)) (k' : KwayInternalMerge)
    : Prop :=
  match r with
  | Err x => errors_in (k_streams k) x
  | Ok None =>
      (∀ e, e ∈ kpend k → k_last k = Some e.1) ∧ kpend k' = [] ∧ k_heap k' = [] ∧ kway_inv k' ∧
      (∀ x, ¬ errors_in (k_streams k) x) ∧ kway_size k' ≤ kway_size k
  | Ok (Some e) =>
      kway_inv k' ∧ kway_size k' < kway_size k ∧ k_last k' = Some e.1 ∧ e ∈ kpend k ∧
      k_last k ≠ Some e.1 ∧ (∀ l, k_last k = Some l → ikey_lt l e.1) ∧
      (∀ x, x ∈ kpend k' → x ∈ kpend k) ∧
      (∀ x, x ∈ kpend k → k_last k = Some x.1 ∨ x = e ∨ x ∈ kpend k') ∧
      (∀ x, errors_in (k_streams k) x ↔ errors_in (k_streams k') x)
  end.

Lemma kway_loop_ok fuel k :
  kway_inv k → kway_size k < fuel →
  ∃ r k', kway_loop fuel k = Some (r, k') ∧ kway_ok k r k'.
Proof.
  revert k. induction fuel as [|fuel IH]; intros k Hinv Hf; [lia|]. cbn [kway_loop].
  destruct (heap_pop (k_heap k)) as [[head h]|] eqn:Hpop.
  2:{ apply heap_pop_None in Hpop. eexists (Ok None), k. split; [done|].
      assert (kpend k = []) as Hp by (unfold kpend; by rewrite Hpop). cbn. rewrite Hp.
      split_and!; try done; [set_solver|]. intros x (s & (i & Hi)%list_elem_of_lookup & Hx).
      rewrite (ki_done k Hinv i s Hi) in Hx; [by apply not_elem_of_nil in Hx|]. rewrite Hpop. cbn. set_solver. }
  pose proof (kway_pop k head h Hinv Hpop) as Hstep.
  destruct (source_next (mh_src head) (k_streams k)) as [[n|x] ss]; [|by eexists (Err x), _; naive_solver].
  destruct Hstep as (Hmin & Hp & Hsz & Herr & Hnd & Hheads & Hdone).
  set (h' := match n with Some (key, value) => _ | None => h end) in *.
  destruct (bool_decide_reflect (k_last k = Some (mh_key head))) as [Hl|Hl].
  - assert (kway_inv (mkKway ss h' (k_last k))) as Hinv'.
    { split; try done. intros l Hkl e He. apply (ki_last k Hinv l Hkl). rewrite Hp. set_solver. }
    destruct (IH (mkKway ss h' (k_last k)) Hinv' ltac:(lia)) as (r & k' & -> & Hok).
    exists r, k'. split; [done|]. destruct r as [[e|]|x]; cbn in Hok |- *.
    + destruct Hok as (? & ? & ? & He & ? & ? & Hsub & Hall & Herr'). split_and!; try done.
      * cbn in *. lia.
      * rewrite Hp. set_solver.
      * intros y Hy. rewrite Hp. apply Hsub in Hy. set_solver.
      * intros y Hy. rewrite Hp in Hy. apply elem_of_cons in Hy as [->|Hy]; [by left|by apply Hall].
      * intros y. rewrite Herr. apply Herr'.
    + destruct Hok as (Hall & ? & ? & ? & Hne & ?). split_and!; try done; [|by intros x; rewrite Herr|cbn in *; lia].
      intros e He. rewrite Hp in He. apply elem_of_cons in He as [->|He]; [done|by apply Hall].
    + by apply Herr.
  - eexists (Ok (Some (mh_key head, mh_value head))), _. split; [done|]. cbn.
    assert ((mh_key head, mh_value head) ∈ kpend k) as Hin by (rewrite Hp; set_solver).
    split_and!; try done.
    + split; try done. intros l [= <-] e He. apply Hmin. rewrite Hp. set_solver.
    + cbn in *. lia.
    + intros l Hkl. pose proof (ki_last k Hinv l Hkl _ Hin) as Hle. cbn in Hle.
      destruct (ikey_trichotomy l (mh_key head)) as [?|[->|?]]; done.
    + intros x Hx. rewrite Hp. set_solver.
    + intros x Hx. rewrite Hp in Hx. set_solver.
Qed.

(** [yields k l]: repeated [next_entry] returns the entries [l] and then the end. *)
Inductive yields : KwayInternalMerge → list entry → Prop :=
| yields_end k k' : kway_next k = Some (Ok None, k') → yields k []
| yields_entry k e k' l : kway_next k = Some (Ok (Some e), k') → yields k' l → yields k (e :: l).

Lemma kway_next_ok k : kway_inv k → ∃ r k', kway_next k = Some (r, k') ∧ kway_ok k r k'.
Proof. intros. apply kway_loop_ok; [done|lia]. Qed.

Lemma yields_exists k :
  kway_inv k → (∀ x, ¬ errors_in (k_streams k) x) →
  ∃ l, yields k l ∧ length l ≤ kway_size k ∧ StronglySorted ikey_lt l.*1 ∧
    (∀ m, k_last k = Some m → Forall (ikey_lt m) l.*1) ∧
    (∀ x, x ∈ l → x ∈ kpend k) ∧ (∀ x, x ∈ kpend k → k_last k = Some x.1 ∨ x.1 ∈ l.*1).
Proof.
  remember (kway_size k) as n eqn:Hn. revert k Hn. induction (lt_wf n) as [n _ IH].
  intros k -> Hinv Herr. destruct (kway_next_ok k Hinv) as (r & k' & Hr & Hok).
  destruct r as [[e|]|x]; cbn in Hok; [|..|by apply Herr in Hok].
  - destruct Hok as (Hinv' & Hsz & Hl' & He & Hne & Hlt & Hsub & Hall & Herr').
    destruct (IH _ Hsz k' eq_refl Hinv') as (l & Hy & Hlen & Hs & Hf & Hin & Hcov).
    { intros x. rewrite <-Herr'. apply Herr. }
    exists (e :: l). split_and!.
    + by econstructor.
    + cbn. lia.
    + cbn. constructor; [done|]. by apply Hf.
    + intros m Hm. cbn. constructor; [by apply Hlt|]. eapply Forall_impl; [by apply Hf|].
      intros y Hy'. trans e.1; [by apply Hlt|done].
    + intros x [->|Hx]%elem_of_cons; [done|]. by apply Hsub, Hin.
    + intros x Hx. destruct (Hall x Hx) as [?|[->|Hx']]; [by left|right; cbn; set_solver|].
      right. cbn. destruct (Hcov x Hx') as [Hlx|]; [|set_solver]. rewrite Hl' in Hlx. injection Hlx as ->. set_solver.
  - destruct Hok as (Hall & ? & ? & _). exists []. split_and!; [by econstructor|cbn; lia|constructor|constructor|set_solver|].
    intros x Hx. left. by apply Hall.
Qed.

(** The initial heads. *)
Definition init_ok (ss0 : list Stream) (src : nat) (ss : list Stream) (h : list MergeHead) : Prop :=
  NoDup (mh_src <$> h) ∧ length ss = length ss0 ∧
  (∀ y, y ∈ h → mh_src y < src ∧ ∃ s, ss !! mh_src y = Some s ∧
          StronglySorted ikey_lt (head_entries ss y).*1) ∧
  (∀ i s, i < src → ss !! i = Some s → i ∉ mh_src <$> h → s = []) ∧
  (∀ i, src ≤ i → ss !! i = ss0 !! i) ∧
  (∀ x, errors_in ss0 x ↔ errors_in ss x) ∧
  (∀ e, e ∈ mjoin (oks <$> ss0) ↔
        e ∈ mjoin (head_entries ss <$> h) ∨ e ∈ mjoin (oks <$> drop src ss)).

Lemma init_ok_none ss0 src ss h :
  init_ok ss0 src ss h → ss !! src = Some [] → init_ok ss0 (S src) ss h.
Proof.
  intros (Hnd & Hlen & Hh & Hd & Ho & He & Hm) Hs. split_and!; try done.
  - intros y Hy. destruct (Hh y Hy) as [? ?]. split; [lia|done].
  - intros i s Hi Hsi Hni. destruct (decide (i = src)) as [->|]; [congruence|]. apply (Hd i s); [lia|done|done].
  - intros i Hi. apply Ho. lia.
  - intros e. rewrite Hm, (drop_S ss [] src) by done. done.
Qed.

Lemma init_ok_some ss0 src ss h key value s' :
  init_ok ss0 src ss h → ss !! src = Some (Ok (key, value) :: s') →
  StronglySorted ikey_lt (oks (Ok (key, value) :: s')).*1 →
  init_ok ss0 (S src) (<[src := s']> ss) (h ++ [mkHead key value src]).
Proof.
  intros (Hnd & Hlen & Hh & Hd & Ho & He & Hm) Hs Hsort.
  assert (src < length ss) as Hlt by (by eapply lookup_lt_Some).
  assert (src ∉ mh_src <$> h) as Hni.
  { intros (y & Hy & Hyh)%list_elem_of_fmap. destruct (Hh y Hyh) as [? _]. lia. }
  pose proof (head_entries_other ss (<[src:=s']> ss) src h
    ltac:(intros; by rewrite list_lookup_insert_ne) Hni) as Hsame.
  assert (head_entries (<[src:=s']> ss) (mkHead key value src) = (key, value) :: oks s') as Hnew.
  { unfold head_entries. cbn. by rewrite list_lookup_insert_eq. }
  split_and!.
  - rewrite fmap_app. cbn. rewrite (Permutation_app_comm (mh_src <$> h)). cbn. by apply NoDup_cons.
  - by rewrite length_insert.
  - intros y [Hy| ->%list_elem_of_singleton]%elem_of_app.
    + destruct (Hh y Hy) as (? & s & Hsy & ?). destruct (Hsame y Hy) as [-> ?]. split; [lia|].
      exists s. by rewrite list_lookup_insert_ne.
    + split; [cbn; lia|]. exists s'. rewrite Hnew. split; [by apply list_lookup_insert_eq|]. by rewrite oks_cons in Hsort.
  - intros i s Hi Hsi Hnin. rewrite fmap_app in Hnin. cbn in Hnin.
    assert (i ≠ src) by set_solver. rewrite list_lookup_insert_ne in Hsi by done.
    apply (Hd i s); [lia|done|set_solver].
  - intros i Hi. rewrite list_lookup_insert_ne by lia. apply Ho. lia.
  - intros x. rewrite He. by eapply errors_in_insert.
  - intros e. rewrite Hm, fmap_app, join_app, elem_of_app.
    rewrite (list_fmap_ext (head_entries (<[src:=s']> ss)) (head_entries ss) h)
      by (intros; apply Hsame; by eapply list_elem_of_lookup_2).
    rewrite (drop_S ss _ src) by done. rewrite drop_insert_lt by lia.
    assert (mjoin (head_entries (<[src:=s']> ss) <$> [mkHead key value src]) = (key, value) :: oks s') as ->.
    { cbn [fmap list_fmap]. rewrite Hnew. apply app_nil_r. }
    cbn [fmap list_fmap]. change (mjoin (oks (Ok (key, value) :: s') :: (oks <$> drop (S src) ss)))
      with (((key, value) :: oks s') ++ mjoin (oks <$> drop (S src) ss)).
    rewrite elem_of_app. tauto.
Qed.

Lemma from_streams_loop_ok todo src ss0 ss h :
  init_ok ss0 src ss h → src + todo = length ss0 →
  (∀ s, s ∈ ss0 → StronglySorted ikey_lt (oks s).*1) →
  match from_streams_loop todo src ss h with
  | Ok k => k_last k = None ∧ init_ok ss0 (length ss0) (k_streams k) (k_heap k)
  | Err x => errors_in ss0 x
  end.
Proof.
  revert src ss h. induction todo as [|todo IH]; intros src ss h Hinit Hlen Hsort; cbn [from_streams_loop].
  { cbn. split; [done|]. by replace (length ss0) with src by lia. }
  pose proof Hinit as (_ & Hl & _ & _ & Ho & He & _).
  destruct (lookup_lt_is_Some_2 ss src ltac:(lia)) as [s Hs].
  assert (s ∈ ss0) as Hin by (rewrite Ho in Hs by lia; by eapply list_elem_of_lookup_2).
  unfold source_next. rewrite Hs. destruct s as [|[[key value]|x] s']; cbn [res_bind].
  - apply IH; [by apply init_ok_none|lia|done].
  - apply IH; [|lia|done]. apply init_ok_some; [done|done|by apply Hsort].
  - exists (Err x :: s'). split; [done|set_solver].
Qed.

Lemma from_streams_ok ss :
  (∀ s, s ∈ ss → StronglySorted ikey_lt (oks s).*1) →
  match from_streams ss with
  | Ok k => kway_inv k ∧ k_last k = None ∧ (∀ x, errors_in ss x ↔ errors_in (k_streams k) x) ∧
            ∀ e, e ∈ mjoin (oks <$> ss) ↔ e ∈ kpend k
  | Err x => errors_in ss x
  end.
Proof.
  intros Hsort. unfold from_streams.
  assert (init_ok ss 0 ss []) as Hinit.
  { split_and!; try done; [constructor|set_solver|intros; lia|]. intros e. rewrite drop_0. set_solver. }
  pose proof (from_streams_loop_ok (length ss) 0 ss ss [] Hinit eq_refl Hsort) as H.
  destruct (from_streams_loop _ _ _ _) as [k|x]; [|done].
  destruct H as (Hlast & Hnd & Hlen & Hh & Hd & _ & He & Hm). split_and!; try done.
  - split; try done.
    + intros y Hy. by apply Hh.
    + intros i s Hs. apply Hd; [|done]. rewrite <-Hlen. by eapply lookup_lt_Some.
    + intros l. by rewrite Hlast.
  - intros e. rewrite Hm. rewrite drop_ge by lia. unfold kpend. set_solver.
Qed.

(** The merged sequence of error-free sources. *)
Lemma from_streams_yields ss :
  (∀ s, s ∈ ss → StronglySorted ikey_lt (oks s).*1) → (∀ x, ¬ errors_in ss x) →
  coherent (mjoin (oks <$> ss)) →
  ∃ k l, from_streams ss = Ok k ∧ kway_inv k ∧ yields k l ∧ length l ≤ kway_size k ∧
    StronglySorted ikey_lt l.*1 ∧ ∀ e, e ∈ l ↔ e ∈ mjoin (oks <$> ss).
Proof.
  intros Hsort Herr Hc. pose proof (from_streams_ok ss Hsort) as H.
  destruct (from_streams ss) as [k|x]; [|by apply Herr in H].
  destruct H as (Hinv & Hlast & He & Hm).
  destruct (yields_exists k Hinv) as (l & Hy & Hlen & Hs & _ & Hsub & Hcov).
  { intros x. rewrite <-He. apply Herr. }
  exists k, l. split_and!; try done. intros e. split.
  - intros Hin. by apply Hm, Hsub.
  - intros Hin. pose proof (proj1 (Hm e) Hin) as Hp. destruct (Hcov e Hp) as [?|(e' & Heq & He')%list_elem_of_fmap]; [congruence|].
    assert (e = e') as ->; [|done]. destruct e as [k1 v1], e' as [k2 v2]. cbn in Heq. subst. f_equal.
    apply (Hc k2); [done|]. by apply Hm, Hsub.
Qed.

Lemma kway_drain_yields k l fuel out :
  yields k l → length l < fuel → kway_drain fuel k out = Some (Ok (out ++ l)).
Proof.
  intros Hy. revert fuel out. induction Hy as [k k' Hn|k e k' l Hn Hy IH]; intros [|fuel] out Hf;
    cbn in Hf; try lia; cbn [kway_drain]; rewrite Hn; cbn [mbind option_bind].
  - by rewrite app_nil_r.
  - rewrite IH by lia. by rewrite <-(assoc_L (++)).
Qed.

(** Draining never reports success over a source that failed. *)
Lemma kway_drain_error k fuel out x :
  kway_inv k → errors_in (k_streams k) x → kway_size k < fuel →
  ∃ y, kway_drain fuel k out = Some (Err y).
Proof.
  revert k out. induction fuel as [|fuel IH]; intros k out Hinv Hx Hf; [lia|]. cbn [kway_drain].
  destruct (kway_next_ok k Hinv) as (r & k' & -> & Hok). cbn [mbind option_bind].
  destruct r as [[e|]|y]; cbn in Hok; [|naive_solver|by exists y].
  destruct Hok as (Hinv' & Hsz & _ & _ & _ & _ & _ & _ & Herr). apply IH; [done|by apply Herr|lia].
Qed.

(** The k-way merge. Over sources in key order that agree on every version:
    if no source fails, the merge drains to the union of the sources in strict
    key order, each version once; if some source fails, at any point, draining
    reports an error, so a failed read never passes for the end of the input. *)
Theorem kway_merge_correct ss k :
  (∀ s, s ∈ ss → StronglySorted ikey_lt (oks s).*1) → coherent (mjoin (oks <$> ss)) →
  from_streams ss = Ok k →
  (∀ x, errors_in ss x → ∃ y, kway_drain (S (kway_size k)) k [] = Some (Err y)) ∧
  ((∀ x, ¬ errors_in ss x) →
   ∃ l, kway_drain (S (kway_size k)) k [] = Some (Ok l) ∧ StronglySorted ikey_lt l.*1 ∧
        ∀ e, e ∈ l ↔ e ∈ mjoin (oks <$> ss)).
Proof.
  intros Hsort Hc Hk. split.
  - intros x Hx. pose proof (from_streams_ok ss Hsort) as H. rewrite Hk in H.
    destruct H as (Hinv & _ & He & _). eapply kway_drain_error; [done|by apply He|lia].
  - intros Herr. destruct (from_streams_yields ss Hsort Herr Hc) as (k' & l & Hk' & _ & Hy & Hlen & Hs & Hm).
    assert (k' = k) as -> by congruence. exists l.
    rewrite (kway_drain_yields k l) by (done || lia). done.
Qed.

(** * Closing a run *)

Definition points_of (l : list entry) : list entry := filter (λ e : entry, kind e.1 ≠ RangeDeletion) l.
Definition dels_of (l : list entry) : list entry := filter (λ e : entry, kind e.1 = RangeDeletion) l.

(** Indices and the entries they stand for. *)
Definition indexes (run : list entry) : list nat → list entry → Prop :=
  Forall2 (λ i e, run !! i = Some e).

Lemma point_indices_spec run : indexes run (point_indices run) (points_of run).
Proof.
  unfold point_indices.
  enough (∀ pre l, run = pre ++ l →
    indexes run (filter (λ i, ((λ e : entry, kind e.1) <$> run !! i) ≠ Some RangeDeletion)
                   (seq (length pre) (length l))) (points_of l)) as H by (by apply (H [])).
  intros pre l. revert pre. induction l as [|x l IH]; intros pre Hrun; [constructor|].
  cbn [length seq]. unfold points_of. rewrite !filter_cons.
  assert (run !! length pre = Some x) as Hx by (rewrite Hrun; by apply list_lookup_middle).
  assert (indexes run (filter (λ i, ((λ e : entry, kind e.1) <$> run !! i) ≠ Some RangeDeletion)
            (seq (S (length pre)) (length l))) (points_of l)) as Hrest.
  { specialize (IH (pre ++ [x])). rewrite length_app, Nat.add_comm in IH. cbn in IH. apply IH.
    by rewrite <-(assoc_L (++)). }
  rewrite Hx. cbn [fmap option_fmap option_map].
  destruct (decide (kind x.1 ≠ RangeDeletion)) as [Hk|Hk].
  - rewrite decide_True by congruence. by constructor.
  - rewrite decide_False by (intros Hc; apply Hk; congruence). done.
Qed.

Lemma indexes_nodup run idx es : NoDup run → indexes run idx es → NoDup idx → NoDup es.
Proof.
  intros Hnd Hi. induction Hi as [|i e idx es Hie Hi IH]; intros Hn; [constructor|].
  apply NoDup_cons in Hn as [Hni Hn]. apply NoDup_cons. split; [|by apply IH].
  intros He. apply Hni. clear IH Hn Hni. induction Hi as [|j y idx es Hjy Hi IH]; [by apply not_elem_of_nil in He|].
  apply elem_of_cons in He as [->|He]; [|right; by apply IH].
  assert (i = j) as ->; [|left]. by eapply NoDup_lookup.
Qed.

Lemma indexes_elem run idx es j e :
  NoDup run → indexes run idx es → run !! j = Some e → e ∈ es ↔ j ∈ idx.
Proof.
  intros Hnd Hi Hj. induction Hi as [|i x idx es Hix Hi IH]; [set_solver|].
  rewrite !elem_of_cons, IH. split; intros [->|?]; [left|by right|left|by right].
  - by eapply NoDup_lookup.
  - congruence.
Qed.

Lemma keep_flags_spec oldest run idx es newer keep j e :
  NoDup run → indexes run idx es → NoDup idx → Forall (λ i, i < length keep) idx →
  run !! j = Some e →
  keep_flags oldest run idx newer keep !! j = Some true ↔
    keep !! j = Some true ∨ e ∈ keep_from oldest newer es.
Proof.
  intros Hnd Hi. revert newer keep. induction Hi as [|i x idx es Hix Hi IH];
    intros newer keep Hn Hlt Hj; cbn [keep_flags keep_from]; [set_solver|].
  apply NoDup_cons in Hn as [Hni Hn]. apply Forall_cons in Hlt as [Hil Hlt].
  rewrite Hix. cbn [fmap option_fmap option_map default id].
  case_decide; [by apply IH|]. rewrite IH; [|done|by rewrite length_insert|done].
  rewrite elem_of_cons. destruct (decide (i = j)) as [->|Hne].
  - rewrite list_lookup_insert_eq by done. assert (e = x) as -> by congruence. set_solver.
  - rewrite list_lookup_insert_ne by done. split; [tauto|]. intros [?|[->|?]]; [tauto| |tauto].
    destruct Hne. by apply (NoDup_lookup run i j x).
Qed.

Lemma keep_flags_length oldest run idx newer keep :
  length (keep_flags oldest run idx newer keep) = length keep.
Proof.
  revert newer keep. induction idx as [|i idx IH]; intros newer keep; cbn [keep_flags]; [done|].
  case_decide; rewrite IH; [done|]. by rewrite length_insert.
Qed.

Lemma filter_keep_from oldest newer es :
  NoDup es → filter (λ e, e ∈ keep_from oldest newer es) es = keep_from oldest newer es.
Proof.
  revert newer. induction es as [|x es IH]; intros newer Hnd; [done|].
  apply NoDup_cons in Hnd as [Hni Hnd]. cbn [keep_from].
  destruct (decide (point_version_fate (sequence x.1) newer oldest = Drop)) as [Hd|Hd].
  - rewrite filter_cons, decide_False by (by intros ?%keep_from_sub). by apply IH.
  - rewrite filter_cons, decide_True by set_solver. f_equal.
    etrans; [|by apply (IH (Some (sequence x.1)))].
    apply list_filter_ext_in. intros y Hy. rewrite elem_of_cons.
    split; [intros [->|?]; [by destruct Hni|done]|by right].
Qed.

Lemma indexes_filter run idx es (P : nat → Prop) (Q : entry → Prop)
    `{∀ i, Decision (P i), ∀ e, Decision (Q e)} :
  indexes run idx es → (∀ i e, run !! i = Some e → P i ↔ Q e) →
  indexes run (filter P idx) (filter Q es).
Proof.
  intros Hi HPQ. induction Hi as [|i e idx es Hie Hi IH]; [constructor|].
  rewrite !filter_cons. destruct (decide (P i)), (decide (Q e)); try naive_solver. by constructor.
Qed.

Lemma foldl_set_spec (b : bool) (idx : list nat) (keep : list bool) j :
  Forall (λ i, i < length keep) idx →
  foldl (λ k i, <[i := b]> k) keep idx !! j = if decide (j ∈ idx) then Some b else keep !! j.
Proof.
  revert keep. induction idx as [|i idx IH]; intros keep Hlt; cbn [foldl]; [done|].
  apply Forall_cons in Hlt as [Hi Hlt]. rewrite IH by (by rewrite length_insert).
  destruct (decide (j ∈ idx)); [by rewrite decide_True by set_solver|].
  destruct (decide (i = j)) as [->|Hne].
  - rewrite list_lookup_insert_eq, decide_True by (done || set_solver). done.
  - rewrite list_lookup_insert_ne, decide_False by (done || set_solver). done.
Qed.

Lemma foldl_set_length (b : bool) (idx : list nat) (keep : list bool) :
  length (foldl (λ k i, <[i := b]> k) keep idx) = length keep.
Proof. revert keep. induction idx as [|i idx IH]; intros keep; cbn; [done|]. by rewrite IH, length_insert. Qed.

Lemma point_indices_nodup run : NoDup (point_indices run).
Proof. apply NoDup_filter, NoDup_seq. Qed.

Lemma point_indices_lt run : Forall (λ i, i < length run) (point_indices run).
Proof.
  apply Forall_forall. intros i [_ Hi]%list_elem_of_filter. apply elem_of_seq in Hi. lia.
Qed.

Lemma run_flags_length gc tombs run : length (run_flags gc tombs run) = length run.
Proof.
  unfold run_flags, clear_flags. repeat case_match;
    rewrite ?foldl_set_length, ?keep_flags_length, ?length_insert, ?length_replicate; done.
Qed.

Lemma replicate_not_true n j : replicate n false !! j ≠ Some true.
Proof. intros H. apply lookup_replicate_1 in H as [? _]. done. Qed.

(** The keep flags mark the kept versions. *)
Lemma run_flags_snapshot gc oldest tombs run j e :
  oldest_snapshot gc = Some oldest → NoDup run → run !! j = Some e → kind e.1 ≠ RangeDeletion →
  run_flags gc tombs run !! j = Some true ↔ e ∈ kept_versions gc tombs (points_of run).
Proof.
  intros Hold Hnd Hj Hk. unfold run_flags, kept_versions. rewrite Hold.
  pose proof (point_indices_spec run) as Hidx. pose proof (point_indices_lt run) as Hlt.
  set (flags := keep_flags oldest run (point_indices run) None (replicate (length run) false)).
  assert (∀ i x, run !! i = Some x → flags !! i = Some true ↔ x ∈ keep_from oldest None (points_of run)) as Hfl.
  { intros i x Hi. unfold flags. rewrite (keep_flags_spec _ _ _ (points_of run) _ _ i x);
      [|done|done|apply point_indices_nodup|by rewrite length_replicate|done].
    pose proof (replicate_not_true (length run) i). tauto. }
  assert (indexes run (filter (λ i, flags !! i = Some true) (point_indices run))
            (keep_from oldest None (points_of run))) as Hkept.
  { rewrite <-filter_keep_from by (eapply indexes_nodup; [done|done|apply point_indices_nodup]).
    by apply indexes_filter. }
  set (kept := filter _ (point_indices run)) in *.
  assert ((match kept with
           | [i] => bool_decide (((λ e : entry, kind e.1) <$> run !! i) = Some Deletion)
           | _ => false end) = lone_tombstone (keep_from oldest None (points_of run))) as ->.
  { unfold lone_tombstone. destruct Hkept as [|i x ? ? Hi [|]]; [done| |done]. rewrite Hi. cbn.
    apply bool_decide_ext. split; congruence. }
  unfold lone_tombstone_fate. destruct (bottommost gc && _).
  - rewrite decide_True by done. unfold clear_flags. rewrite foldl_set_spec.
    + split; [|by intros ?%not_elem_of_nil]. case_decide as Hjk; [done|]. intros Hf. destruct Hjk.
      unfold kept. apply list_elem_of_filter. split; [done|].
      apply (indexes_elem run _ (points_of run) j e); try done. by apply list_elem_of_filter; split; [|by eapply list_elem_of_lookup_2].
    + unfold kept, flags. rewrite keep_flags_length, length_replicate. rewrite Forall_forall in Hlt |- *.
      intros i [_ Hi]%list_elem_of_filter. by apply Hlt.
  - rewrite decide_False by done. by apply Hfl.
Qed.

Lemma run_flags_spec gc tombs run j e :
  NoDup run → run !! j = Some e → kind e.1 ≠ RangeDeletion →
  run_flags gc tombs run !! j = Some true ↔ e ∈ kept_versions gc tombs (points_of run).
Proof.
  intros Hnd Hj Hk. destruct (oldest_snapshot gc) as [oldest|] eqn:Hold; [by eapply run_flags_snapshot|].
  unfold run_flags, kept_versions. rewrite Hold.
  pose proof (point_indices_spec run) as Hidx. pose proof (point_indices_lt run) as Hlt.
  assert (e ∈ points_of run) as Hin.
  { apply list_elem_of_filter. split; [done|]. by eapply list_elem_of_lookup_2. }
  pose proof (proj1 (indexes_elem run _ _ j e Hnd Hidx Hj) Hin) as Hji.
  destruct (keep_only_latest gc).
  - destruct Hidx as [|i x idx es Hi Hidx]; [by apply not_elem_of_nil in Hin|]. rewrite Hi.
    assert (i < length run) as Hil by (by eapply lookup_lt_Some).
    destruct (decide (i = j)) as [->|Hne].
    + rewrite list_lookup_insert_eq by (by rewrite length_replicate).
      assert (e = x) as -> by congruence. destruct (latest_keep _ _ _); set_solver.
    + rewrite list_lookup_insert_ne by done. pose proof (replicate_not_true (length run) j).
      split; [done|]. destruct (latest_keep _ _ _); [|by intros ?%not_elem_of_nil].
      intros ->%list_elem_of_singleton. destruct Hne. by apply (NoDup_lookup run i j x).
  - rewrite foldl_set_spec by (by rewrite length_replicate). by rewrite decide_True.
Qed.

Lemma push_kept_elem d run flags e :
  length flags = length run →
  e ∈ push_kept d run flags ↔
    ∃ i, run !! i = Some e ∧ (kind e.1 = RangeDeletion ∧ d = false ∨
                              kind e.1 ≠ RangeDeletion ∧ flags !! i = Some true).
Proof.
  revert flags. induction run as [|x run IH]; intros [|f flags] Hl; cbn in Hl; try done; cbn [push_kept].
  { split; [by intros ?%not_elem_of_nil|]. intros (i & Hi & _). by rewrite lookup_nil in Hi. }
  assert ((∃ i, (x :: run) !! i = Some e ∧ (kind e.1 = RangeDeletion ∧ d = false ∨
                 kind e.1 ≠ RangeDeletion ∧ (f :: flags) !! i = Some true)) ↔
          (e = x ∧ (kind e.1 = RangeDeletion ∧ d = false ∨ kind e.1 ≠ RangeDeletion ∧ f = true)) ∨
          e ∈ push_kept d run flags) as ->.
  { rewrite IH by lia. split.
    - intros ([|i] & Hi & Hc); cbn in Hi, Hc; [left; naive_solver|right; by exists i].
    - intros [[-> Hc]|(i & Hi & Hc)]; [exists 0; cbn; naive_solver|by exists (S i)]. }
  destruct (bool_decide_reflect (kind x.1 = RangeDeletion)) as [Hk|Hk]; [destruct d|destruct f];
    cbn [negb]; rewrite ?elem_of_cons; naive_solver.
Qed.

Lemma push_kept_sub d run flags x : x ∈ (push_kept d run flags).*1 → x ∈ run.*1.
Proof.
  revert flags. induction run as [|y run IH]; intros [|f flags]; cbn [push_kept]; try (by intros ?%not_elem_of_nil).
  repeat case_match; cbn; rewrite ?elem_of_cons; naive_solver.
Qed.

Lemma push_kept_sorted d run flags :
  StronglySorted ikey_lt run.*1 → StronglySorted ikey_lt (push_kept d run flags).*1.
Proof.
  revert flags. induction run as [|y run IH]; intros [|f flags] Hs; cbn [push_kept]; try constructor.
  cbn in Hs. apply StronglySorted_inv in Hs as [Hs Hy]. rewrite Forall_forall in Hy.
  assert (StronglySorted ikey_lt (y :: push_kept d run flags).*1).
  { cbn. constructor; [by apply IH|]. apply Forall_forall. intros x Hx%push_kept_sub. by apply Hy. }
  repeat case_match; try done; by apply IH.
Qed.

(** What a closed run contributes. *)
Definition run_out (gc : CompactGcOptions) (tombs : list RangeTombstone) (run : list entry) : list entry :=
  push_kept (drops_tombs gc) run (run_flags gc tombs run).

Lemma run_out_elem gc tombs run e :
  NoDup run →
  e ∈ run_out gc tombs run ↔
    e ∈ dels_of run ∧ drops_tombs gc = false ∨ e ∈ kept_versions gc tombs (points_of run).
Proof.
  intros Hnd. unfold run_out. rewrite push_kept_elem by apply run_flags_length. split.
  - intros (i & Hi & [[Hk Hd]|[Hk Hf]]).
    + left. split; [|done]. apply list_elem_of_filter. split; [done|]. by eapply list_elem_of_lookup_2.
    + right. by eapply run_flags_spec.
  - intros [[[Hk He]%list_elem_of_filter Hd]|Hkept].
    + apply list_elem_of_lookup in He as [i Hi]. exists i. split; [done|by left].
    + pose proof (kept_versions_sub _ _ _ _ Hkept) as [Hk He]%list_elem_of_filter.
      apply list_elem_of_lookup in He as [i Hi]. exists i. split; [done|right]. split; [done|].
      by eapply run_flags_spec.
Qed.

(** * Collecting a merged sequence *)

(** What the collector emits from here on, given the tombstones gathered, the
    open run and the rest of the merged sequence. *)
Fixpoint gc_fold (gc : CompactGcOptions) (tombs : list RangeTombstone) (run l : list entry) : list entry :=
  let tombs' := tombs ++ (tomb_of <$> dels_of run) in
  match l with
  | [] => if batch_is_empty (length run) then [] else run_out gc tombs' run
  | e :: l =>
      if (sequence e.1 <? min_sequence gc)%Z then gc_fold gc tombs run l
      else if run_ends run e then run_out gc tombs' run ++ gc_fold gc tombs' [e] l
      else gc_fold gc tombs (run ++ [e]) l
  end.

Definition gc_rest (g : GcMergeSource) (l : list entry) : list entry :=
  g_out g ++ gc_fold (g_gc g) (g_tombs g) (g_run g) l.

Lemma kway_next_done k : k_heap k = [] → kway_next k = Some (Ok None, k).
Proof. intros Hh. unfold kway_next. cbn [kway_loop]. by rewrite Hh. Qed.

Lemma yields_length k l : kway_inv k → yields k l → length l ≤ kway_size k.
Proof.
  intros Hinv Hy. induction Hy as [k k' Hn|k e k' l Hn Hy IH]; [cbn; lia|].
  destruct (kway_next_ok k Hinv) as (r & k1 & Hr & Hok). rewrite Hn in Hr. injection Hr as <- <-.
  destruct Hok as (Hinv' & Hsz & _). specialize (IH Hinv'). cbn. lia.
Qed.

(** [gc_step g l g' r]: the state after [next_entry], matched with what was due. *)
Definition gc_step (g : GcMergeSource) (l : list entry) (r : option entry) (g' : GcMergeSource) : Prop :=
  match r with
  | None => gc_rest g l = []
  | Some e => ∃ l', g_gc g' = g_gc g ∧ kway_inv (g_merge g') ∧ yields (g_merge g') l' ∧
                    gc_rest g l = e :: gc_rest g' l'
  end.

Lemma gc_loop_out fuel g l e out :
  kway_inv (g_merge g) → yields (g_merge g) l → g_out g = e :: out → 0 < fuel →
  ∃ r g', gc_loop fuel g = Some (Ok r, g') ∧ gc_step g l r g'.
Proof.
  intros Hinv Hy Hout Hf. destruct fuel as [|fuel]; [lia|]. cbn [gc_loop]. rewrite Hout.
  eexists (Some e), _. split; [done|]. exists l. split_and!; try done.
  unfold gc_rest. rewrite Hout. done.
Qed.

(** Once the merge is drained and the last run closed. *)
Lemma gc_loop_end fuel g :
  kway_inv (g_merge g) → k_heap (g_merge g) = [] → g_run g = [] → 0 < fuel →
  ∃ r g', gc_loop fuel g = Some (Ok r, g') ∧ gc_step g [] r g'.
Proof.
  intros Hinv Hh Hrun Hf. destruct (g_out g) as [|e out] eqn:Hout.
  - destruct fuel as [|fuel]; [lia|]. cbn [gc_loop]. rewrite Hout, kway_next_done by done.
    cbn [mbind option_bind g_run]. rewrite Hrun. eexists None, _. split; [done|].
    cbn. unfold gc_rest. by rewrite Hout, Hrun.
  - eapply gc_loop_out; try done. econstructor. by apply kway_next_done.
Qed.

Lemma gc_loop_ok fuel g l :
  kway_inv (g_merge g) → yields (g_merge g) l → length l + 3 ≤ fuel →
  ∃ r g', gc_loop fuel g = Some (Ok r, g') ∧ gc_step g l r g'.
Proof.
  revert g l. induction fuel as [|fuel IH]; intros g l Hinv Hy Hf; [lia|].
  destruct (g_out g) as [|e0 out] eqn:Hout; [|eapply gc_loop_out; try done; lia].
  cbn [gc_loop]. rewrite Hout.
  destruct (kway_next_ok (g_merge g) Hinv) as (r & k' & Hr & Hok).
  inversion Hy as [k1 k2 Hn|k1 e k2 l' Hn Hy']; subst; rewrite Hn in Hr; injection Hr as <- <-;
    rewrite Hn; cbn [mbind option_bind g_gc g_run g_merge g_tombs g_out].
  - destruct Hok as (_ & _ & Hh & Hinv' & _).
    destruct (batch_is_empty (length (g_run g))) eqn:Hrun.
    + eexists None, _. split; [done|]. cbn. unfold gc_rest. rewrite Hout. cbn. by rewrite Hrun.
    + destruct (gc_loop_end fuel (close_run (mkGcSource k2 (g_gc g) (g_tombs g) (g_run g) [])))
        as (r & g' & -> & Hst); [done|done|done|cbn in Hf; lia|].
      exists r, g'. split; [done|].
      assert (gc_rest g [] = gc_rest (close_run (mkGcSource k2 (g_gc g) (g_tombs g) (g_run g) [])) []) as Heq.
      { unfold gc_rest. rewrite Hout. cbn. rewrite Hrun. by rewrite app_nil_r. }
      unfold gc_step in *. by rewrite Heq.
  - destruct Hok as (Hinv' & _). cbn in Hf.
    assert (∀ g1, g_gc g1 = g_gc g → g_merge g1 = k2 → gc_rest g (e :: l') = gc_rest g1 l' →
              ∃ r g', gc_loop fuel g1 = Some (Ok r, g') ∧ gc_step g (e :: l') r g') as Hgo.
    { intros g1 Hgc Hm Heq. destruct (IH g1 l') as (r & g' & -> & Hst); [by rewrite Hm|by rewrite Hm|lia|].
      exists r, g'. split; [done|]. unfold gc_step in *. rewrite Heq, <-Hgc. done. }
    destruct (sequence e.1 <? min_sequence (g_gc g))%Z eqn:Hmin.
    + apply Hgo; try done. unfold gc_rest. rewrite Hout. cbn. by rewrite Hmin.
    + destruct (run_ends (g_run g) e) eqn:Hends; apply Hgo; try done; unfold gc_rest; rewrite Hout; cbn;
        by rewrite Hmin, Hends.
Qed.

Lemma gc_drain_ok fuel g l out :
  kway_inv (g_merge g) → yields (g_merge g) l → length (gc_rest g l) < fuel →
  gc_drain fuel g out = Some (Ok (out ++ gc_rest g l)).
Proof.
  revert g l out. induction fuel as [|fuel IH]; intros g l out Hinv Hy Hf; [lia|]. cbn [gc_drain].
  destruct (gc_loop_ok (kway_size (g_merge g) + 3) g l Hinv Hy) as (r & g' & Hr & Hst).
  { pose proof (yields_length _ _ Hinv Hy). lia. }
  unfold gc_next. rewrite Hr. cbn [mbind option_bind]. destruct r as [e|]; cbn in Hst.
  - destruct Hst as (l' & Hgc & Hinv' & Hy' & Heq). rewrite Heq in Hf |- *. cbn in Hf.
    rewrite (IH g' l') by (done || lia). by rewrite <-(assoc_L (++)).
  - by rewrite Hst, app_nil_r.
Qed.

Lemma kept_versions_tombs gc t1 t2 vs :
  (∀ e, e ∈ vs → range_deleted (user_key e.1) (sequence e.1) t1 =
                 range_deleted (user_key e.1) (sequence e.1) t2) →
  kept_versions gc t1 vs = kept_versions gc t2 vs.
Proof.
  intros Ht. unfold kept_versions. destruct (oldest_snapshot gc); [done|].
  destruct (keep_only_latest gc); [|done]. destruct vs as [|e vs]; [done|].
  unfold latest_keep. destruct (kind e.1); [done| |done]. rewrite Ht; [done|set_solver].
Qed.

Lemma range_deleted_app uk s t1 t2 :
  range_deleted uk s (t1 ++ t2) = range_deleted uk s t1 || range_deleted uk s t2.
Proof. apply existsb_app. Qed.

(** Range deletions that start after a key do not hide it. *)
Lemma range_deleted_after uk s l :
  Forall (λ e : entry, bytes_lt uk (user_key e.1)) l → range_deleted uk s (tomb_of <$> l) = false.
Proof.
  intros Hl. apply not_true_iff_false. unfold range_deleted. rewrite existsb_exists.
  intros (t & Ht & [Hc _]%andb_true_iff). apply list_elem_of_In, list_elem_of_fmap in Ht as (e & -> & He).
  unfold covers, range_tombstone_covers in Hc. apply andb_true_iff in Hc as [Hc _].
  apply bytes_leb_spec in Hc. rewrite Forall_forall in Hl. by apply Hc, (Hl e).
Qed.

Lemma versions_points_app uk a b :
  versions_of uk (points_of (a ++ b)) = versions_of uk (points_of a) ++ versions_of uk (points_of b).
Proof. unfold versions_of, points_of. by rewrite !filter_app. Qed.

Lemma versions_of_same u l :
  Forall (λ e : entry, user_key e.1 = u) l → versions_of u (points_of l) = points_of l.
Proof.
  intros Hl. unfold versions_of, points_of. rewrite list_filter_filter.
  apply list_filter_ext_in. intros x Hx. rewrite Forall_forall in Hl. specialize (Hl x Hx). cbn in Hl. tauto.
Qed.

Lemma versions_of_none u l :
  Forall (λ e : entry, user_key e.1 ≠ u) l → versions_of u (points_of l) = [].
Proof.
  intros Hl. apply elem_of_nil_inv. intros x [Hu [_ Hx]%list_elem_of_filter]%list_elem_of_filter.
  rewrite Forall_forall in Hl. by apply (Hl x).
Qed.

(** Collecting a run and then later keys. *)
Lemma collect_run_app gc tombs run later u e rest :
  NoDup run → Forall (λ x : entry, user_key x.1 = u) run →
  Forall (λ x : entry, bytes_lt u (user_key x.1)) later →
  (e ∈ rest ↔
    e ∈ dels_of later ∧ drops_tombs gc = false ∨
    e ∈ kept_versions gc ((tombs ++ (tomb_of <$> dels_of run)) ++ (tomb_of <$> dels_of later))
          (versions_of (user_key e.1) (points_of later))) →
  e ∈ run_out gc (tombs ++ (tomb_of <$> dels_of run)) run ++ rest ↔
    e ∈ dels_of (run ++ later) ∧ drops_tombs gc = false ∨
    e ∈ kept_versions gc (tombs ++ (tomb_of <$> dels_of (run ++ later)))
          (versions_of (user_key e.1) (points_of (run ++ later))).
Proof.
  intros Hnd Hrun Hlater Hrest. rewrite elem_of_app, run_out_elem, Hrest by done. clear Hrest.
  assert (dels_of (run ++ later) = dels_of run ++ dels_of later) as -> by apply filter_app.
  rewrite fmap_app, elem_of_app, versions_points_app, (assoc_L (++) tombs). set (t1 := tombs ++ _).
  assert (Forall (λ x : entry, user_key x.1 ≠ u) later) as Hne.
  { eapply Forall_impl; [done|]. cbn. intros x Hx Heq. rewrite Heq in Hx. by apply bytes_lt_irrefl in Hx. }
  destruct (decide (user_key e.1 = u)) as [E|E].
  - rewrite E, (versions_of_none u later), app_nil_r, versions_of_same, kept_versions_nil by done.
    rewrite (kept_versions_tombs gc (t1 ++ _) t1); [set_solver|].
    intros x [_ Hx]%list_elem_of_filter. rewrite range_deleted_app, (range_deleted_after _ _ (dels_of later)).
    + by rewrite orb_false_r.
    + rewrite Forall_forall in Hrun, Hlater. apply Forall_forall. intros y [_ Hy]%list_elem_of_filter.
      rewrite (Hrun x Hx). by apply Hlater.
  - rewrite (versions_of_none (user_key e.1) run).
    2:{ eapply Forall_impl; [done|]. cbn. congruence. }
    cbn [app]. split; [|tauto].
    intros [[[? ?]|Hk]|?]; [left; tauto| |tauto]. exfalso.
    apply kept_versions_sub, list_elem_of_filter in Hk as [_ Hk]. rewrite Forall_forall in Hrun.
    by apply E, Hrun.
Qed.

(** The part of the sequence the collector looks at. *)
Definition recent (gc : CompactGcOptions) (l : list entry) : list entry :=
  filter (λ e : entry, (min_sequence gc <= sequence e.1)%Z) l.

Lemma sorted_keys_nodup (l : list entry) : StronglySorted ikey_lt l.*1 → NoDup l.
Proof.
  induction l as [|x l IH]; intros Hs; [constructor|]. cbn in Hs. apply StronglySorted_inv in Hs as [Hs Hx].
  rewrite Forall_forall in Hx. apply NoDup_cons. split; [|by apply IH].
  intros Hin. apply (ikey_lt_irrefl x.1), Hx. by apply list_elem_of_fmap_2.
Qed.

(** An open run closed by a new key: what follows has greater user keys. *)
Lemma run_ends_after run e l u :
  StronglySorted ikey_lt (run ++ e :: l).*1 → Forall (λ x : entry, user_key x.1 = u) run →
  run_ends run e = true → Forall (λ x : entry, bytes_lt u (user_key x.1)) (e :: l).
Proof.
  intros Hs Hrun Hends. unfold run_ends in Hends. destruct (last run) as [x|] eqn:Hlast; [|done].
  apply last_Some in Hlast as [pre ->]. apply Forall_app in Hrun as [_ Hx].
  apply Forall_cons in Hx as [Hx _]. rewrite <-(assoc_L (++)) in Hs.
  apply sorted_app_inv in Hs as (_ & Hs & _). cbn in Hs. apply StronglySorted_inv in Hs as [Hs Hxe].
  apply negb_true_iff, not_true_iff_false in Hends. rewrite bytes_eqb_spec, Hx in Hends.
  apply Forall_cons in Hxe as [Hxe _].
  assert (bytes_lt u (user_key e.1)) as Hue.
  { apply ikey_lt_iff in Hxe as [Hlt|[Heq _]]; [by rewrite Hx in Hlt|congruence]. }
  apply StronglySorted_inv in Hs as [_ Hel]. constructor; [done|].
  rewrite Forall_forall in Hel. apply Forall_forall. intros y Hy.
  assert (ikey_lt e.1 y.1) as Hlt by (apply Hel; by apply list_elem_of_fmap_2).
  apply ikey_lt_iff in Hlt as [Hlt|[Heq _]]; [by etrans|by rewrite <-Heq].
Qed.

Lemma run_continues run e u :
  Forall (λ x : entry, user_key x.1 = u) run → run_ends run e = false → run ≠ [] →
  user_key e.1 = u.
Proof.
  intros Hrun Hends Hne. unfold run_ends in Hends. destruct (last run) as [x|] eqn:Hlast.
  - apply last_Some in Hlast as [pre ->]. apply Forall_app in Hrun as [_ Hx].
    apply Forall_cons in Hx as [Hx _]. apply negb_false_iff, bytes_eqb_spec in Hends. congruence.
  - by apply last_None in Hlast.
Qed.

Lemma run_out_sub gc tombs run e : e ∈ run_out gc tombs run → e ∈ run.
Proof.
  unfold run_out. rewrite push_kept_elem by apply run_flags_length. intros (i & Hi & _).
  by eapply list_elem_of_lookup_2.
Qed.

Lemma gc_fold_sub gc tombs run l e : e ∈ gc_fold gc tombs run l → e ∈ run ++ l.
Proof.
  revert tombs run. induction l as [|x l IH]; intros tombs run; cbn [gc_fold]; rewrite ?elem_of_app, ?elem_of_cons.
  - destruct (batch_is_empty _); [by intros ?%not_elem_of_nil|]. intros ?%run_out_sub. by left.
  - destruct (_ <? _)%Z; [intros He%IH|]; [apply elem_of_app in He; tauto|].
    destruct (run_ends run x).
    + intros [?%run_out_sub|He%IH]%elem_of_app; [by left|]. right. by apply elem_of_cons.
    + intros He%IH. rewrite <-(assoc_L (++)) in He. rewrite !elem_of_app, list_elem_of_singleton in He. done.
Qed.

Lemma gc_fold_spec gc tombs run l u :
  StronglySorted ikey_lt (run ++ l).*1 → Forall (λ x : entry, user_key x.1 = u) run →
  StronglySorted ikey_lt (gc_fold gc tombs run l).*1 ∧
  ∀ e, e ∈ gc_fold gc tombs run l ↔
    e ∈ dels_of (run ++ recent gc l) ∧ drops_tombs gc = false ∨
    e ∈ kept_versions gc (tombs ++ (tomb_of <$> dels_of (run ++ recent gc l)))
          (versions_of (user_key e.1) (points_of (run ++ recent gc l))).
Proof.
  revert tombs run u. induction l as [|x l IH]; intros tombs run u Hs Hrun; cbn [gc_fold].
  - rewrite app_nil_r in Hs. assert (NoDup run) as Hnd by (by apply sorted_keys_nodup).
    unfold recent. cbn [filter list_filter]. split.
    + destruct (batch_is_empty _); [constructor|]. by apply push_kept_sorted.
    + intros e. pose proof (collect_run_app gc tombs run [] u e [] Hnd Hrun (Forall_nil_2 _)) as Hc.
      rewrite !app_nil_r in Hc. rewrite !app_nil_r. unfold batch_is_empty. destruct (Nat.eqb_spec (length run) 0) as [E|E].
      * apply nil_length_inv in E as ->. cbn. rewrite kept_versions_nil. set_solver.
      * apply Hc. cbn. rewrite kept_versions_nil. set_solver.
  - unfold recent. rewrite filter_cons. destruct (Z.ltb_spec (sequence x.1) (min_sequence gc)) as [Hm|Hm].
    + rewrite decide_False by lia. apply (IH tombs run u); [|done].
      apply sorted_app_inv in Hs as (? & Hxl & Hab). cbn in Hxl. apply StronglySorted_inv in Hxl as [? _].
      apply sorted_app; [done|done|]. intros y z Hy Hz. apply Hab; set_solver.
    + rewrite decide_True by lia. fold (recent gc l). destruct (run_ends run x) eqn:Hends.
      * pose proof (run_ends_after run x l u Hs Hrun Hends) as Hafter.
        pose proof Hs as (Hsr & Hsx & Hab)%sorted_app_inv.
        destruct (IH (tombs ++ (tomb_of <$> dels_of run)) [x] (user_key x.1)) as [IHs IHm]; [done|by constructor|].
        split.
        -- apply sorted_app; [by apply push_kept_sorted|done|]. intros y z Hy Hz. apply Hab.
           ++ by eapply run_out_sub.
           ++ by apply gc_fold_sub in Hz.
        -- intros e. apply (collect_run_app gc tombs run (x :: recent gc l) u); [by apply sorted_keys_nodup|done| |].
           ++ apply Forall_cons in Hafter as [? Hafter]. constructor; [done|]. unfold recent.
              rewrite Forall_forall in Hafter |- *. intros y [_ Hy]%list_elem_of_filter. by apply Hafter.
           ++ apply IHm.
      * destruct (IH tombs (run ++ [x]) (user_key x.1)) as [IHs IHm].
        -- by rewrite <-(assoc_L (++)).
        -- apply Forall_app. split; [|by constructor]. destruct run as [|y run]; [done|].
           by rewrite (run_continues (y :: run) x u).
        -- rewrite <-(assoc_L (++)) in IHm. done.
Qed.

Lemma run_out_length gc tombs run : length (run_out gc tombs run) ≤ length run.
Proof.
  unfold run_out. generalize (run_flags gc tombs run). induction run as [|x run IH]; intros [|f flags];
    cbn [push_kept length]; try lia. specialize (IH flags). repeat case_match; cbn [length]; lia.
Qed.

Lemma gc_fold_length gc tombs run l : length (gc_fold gc tombs run l) ≤ length run + length l.
Proof.
  revert tombs run. induction l as [|x l IH]; intros tombs run; cbn [gc_fold length].
  - destruct (batch_is_empty _); [cbn; lia|]. pose proof (run_out_length gc (tombs ++ (tomb_of <$> dels_of run)) run). lia.
  - destruct (_ <? _)%Z; [specialize (IH tombs run); lia|]. destruct (run_ends run x).
    + rewrite length_app. pose proof (run_out_length gc (tombs ++ (tomb_of <$> dels_of run)) run).
      specialize (IH (tombs ++ (tomb_of <$> dels_of run)) [x]). cbn in IH. lia.
    + specialize (IH tombs (run ++ [x])). rewrite length_app in IH. cbn in IH. lia.
Qed.

(** Which versions a collection keeps depends on the elements only. *)
Lemma gc_result_fold gc entries l :
  coherent entries → NoDup entries.*1 → StronglySorted ikey_lt l.*1 → (∀ e, e ∈ l ↔ e ∈ entries) →
  gc_fold gc [] [] l = gc_compact_entries entries gc.
Proof.
  intros Hc Hnd Hs Hl. destruct (gc_fold_spec gc [] [] l [] Hs (Forall_nil_2 _)) as [Hfs Hfm].
  apply sorted_unique; [done|by apply gc_compact_entries_sorted|]. intros e. rewrite Hfm.
  destruct (gc_compact_entries_result entries gc Hc) as (points & Hps & Hp & Hres). rewrite (Hres e).
  cbn [app]. assert (points = points_of (recent gc l)) as ->.
  { apply sorted_unique; [done|by apply sorted_lt_filter, sorted_lt_filter|]. intros x. rewrite Hp.
    unfold gc_points, points_of, recent. rewrite !list_elem_of_filter, Hl. tauto. }
  assert (∀ x, x ∈ dels_of (recent gc l) ↔ x ∈ gc_dels gc entries) as Hd.
  { intros x. unfold dels_of, recent, gc_dels. rewrite !list_elem_of_filter, Hl. tauto. }
  rewrite Hd. f_equiv. rewrite (kept_versions_tombs gc _ (tomb_of <$> gc_dels gc entries)); [done|].
  intros x _. apply eq_true_iff_eq. unfold range_deleted. rewrite !existsb_exists.
  assert (∀ t, In t (tomb_of <$> dels_of (recent gc l)) ↔ In t (tomb_of <$> gc_dels gc entries)) as Ht.
  { intros t. rewrite <-!list_elem_of_In, !list_elem_of_fmap. by setoid_rewrite Hd. }
  by setoid_rewrite Ht.
Qed.

(** C25: streaming collection is batch collection. Over sources in key order that
    hold every version once and do not fail, draining the run-by-run collector
    on top of the k-way merge, which keeps one user key in memory, returns
    exactly what [gc_compact_entries] returns on the union, for every option. *)
Theorem streaming_gc_correct ss gc k :
  (∀ s, s ∈ ss → StronglySorted ikey_lt (oks s).*1) → NoDup (mjoin (oks <$> ss)).*1 →
  (∀ x, ¬ errors_in ss x) → from_streams ss = Ok k →
  gc_drain (S (kway_size k)) (gc_source_new k gc) [] =
    Some (Ok (gc_compact_entries (mjoin (oks <$> ss)) gc)).
Proof.
  intros Hsort Hnd Herr Hk.
  assert (coherent (mjoin (oks <$> ss))) as Hc.
  { intros x v v' Hv Hv'. apply list_elem_of_lookup in Hv as [i Hi], Hv' as [j Hj].
    assert (i = j) as ->; [|congruence].
    apply (NoDup_lookup _ i j x Hnd); by rewrite list_lookup_fmap, ?Hi, ?Hj. }
  destruct (from_streams_yields ss Hsort Herr Hc) as (k' & l & Hk' & Hinv & Hy & Hlen & Hs & Hm).
  assert (k' = k) as -> by congruence.
  rewrite (gc_drain_ok _ (gc_source_new k gc) l); [|done|done|].
  - unfold gc_rest. cbn [app g_out g_gc g_tombs g_run gc_source_new].
    by rewrite (gc_result_fold gc (mjoin (oks <$> ss)) l).
  - unfold gc_rest. cbn [app g_out g_gc g_tombs g_run gc_source_new].
    pose proof (gc_fold_length gc [] [] l) as Hfl. cbn in Hfl. lia.
Qed.

(** * Witnesses *)

Definition sample_sources : list Stream :=
  [[Ok (mkIKey [x61] 4 RangeDeletion, [x62]); Ok (mkIKey [x61] 3 Value, [x33]);
    Ok (mkIKey [x62] 5 Deletion, [])];
   [Ok (mkIKey [x61] 1 Value, [x31]); Ok (mkIKey [x62] 2 Value, [x32])]].

Lemma sample_sources_sorted s : s ∈ sample_sources → StronglySorted ikey_lt (oks s).*1.
Proof.
  unfold sample_sources. intros [->|[->|Hs%not_elem_of_nil]%elem_of_cons]%elem_of_cons; [..|done]; repeat constructor.
Qed.

Lemma sample_sources_ok x : ¬ errors_in sample_sources x.
Proof.
  intros (s & Hs & Hx). unfold sample_sources in Hs.
  apply elem_of_cons in Hs as [->|[->|Hs%not_elem_of_nil]%elem_of_cons]; [..|done];
    repeat (apply elem_of_cons in Hx as [Hx|Hx]; [done|]); by apply not_elem_of_nil in Hx.
Qed.

Lemma sample_sources_nodup : NoDup (mjoin (oks <$> sample_sources)).*1.
Proof. apply (bool_decide_eq_true_1 _). vm_compute. reflexivity. Qed.

Lemma streaming_gc_correct_witness :
  ∃ k, from_streams sample_sources = Ok k ∧
    gc_drain (S (kway_size k)) (gc_source_new k (mkGc 0 true None true)) [] = Some (Ok []) ∧
    gc_drain (S (kway_size k)) (gc_source_new k (for_oldest_snapshot 2)) [] =
      Some (Ok (gc_compact_entries (mjoin (oks <$> sample_sources)) (for_oldest_snapshot 2))).
Proof.
  destruct (from_streams sample_sources) as [k|x] eqn:Hk; [|vm_compute in Hk; discriminate].
  exists k. split; [reflexivity|]. split.
  - rewrite (streaming_gc_correct sample_sources (mkGc 0 true None true) k sample_sources_sorted
               sample_sources_nodup sample_sources_ok Hk). reflexivity.
  - exact (streaming_gc_correct sample_sources (for_oldest_snapshot 2) k sample_sources_sorted
             sample_sources_nodup sample_sources_ok Hk).
Defined.

Lemma kway_merge_correct_witness :
  ∃ k l, from_streams sample_sources = Ok k ∧ kway_drain (S (kway_size k)) k [] = Some (Ok l) ∧
    StronglySorted ikey_lt l.*1.
Proof.
  destruct (from_streams sample_sources) as [k|x] eqn:Hk; [|vm_compute in Hk; discriminate].
  assert (coherent (mjoin (oks <$> sample_sources))) as Hc.
  { intros y v v' H1 H2. unfold sample_sources in *. cbn in H1, H2.
    repeat (apply elem_of_cons in H1 as [H1|H1]); [..|by apply not_elem_of_nil in H1];
    repeat (apply elem_of_cons in H2 as [H2|H2]); try (by apply not_elem_of_nil in H2); congruence. }
  destruct (proj2 (kway_merge_correct sample_sources k sample_sources_sorted Hc Hk) sample_sources_ok)
    as (l & Hd & Hs & _).
  exists k, l. split; [reflexivity|]. split; [exact Hd|exact Hs].
Defined.
