(* ===== verification/CompactFilter.v ===== *)
(** The native compaction filter: [db_kernel.rs], [FilterMergeSource], with the
    decisions of [merge_kernel.rs]. The filter is asked once per user key, about
    the newest version when it is a value, while the merge streams by; the
    closure it calls is a function of the key and the value here. *)

From S2P Require Import Prelude ErrorKernel KeyKernel BatchKernel Visibility CompactGc GcStream.

Local Open Scope Z_scope.

Inductive CompactFilterDecision := Keep | Remove | Change (nv : list byte).

(** [FilterMergeSource::next_entry] over the items of the inner source; the
    decision is a function of the family, the user key and the value. *)
Fixpoint filter_items (decision : list byte → list byte → CompactFilterDecision) (run_user : option (list byte))
    (dropping : bool) (items : Stream) : Stream :=
  match items with
  | [] => []
  | Err x :: items => Err x :: filter_items decision run_user dropping items
  | Ok (ik, val) :: items =>
      if negb (bool_decide (run_user = Some (user_key ik))) then
        let run_user := Some (user_key ik) in
        if bool_decide (kind ik = Value) then
          match decision (user_key ik) val with
          | Keep => Ok (ik, val) :: filter_items decision run_user false items
          | Remove =>
              Ok (mkIKey (user_key ik) (sequence ik) Deletion, []) :: filter_items decision run_user true items
          | Change nv => Ok (ik, nv) :: filter_items decision run_user false items
          end
        else Ok (ik, val) :: filter_items decision run_user false items
      else if dropping then filter_items decision run_user dropping items
      else Ok (ik, val) :: filter_items decision run_user dropping items
  end.

(** What the filter makes of the newest version of a key. *)
Definition filtered (decision : list byte → list byte → CompactFilterDecision) (e : entry) : entry :=
  match kind e.1, decision (user_key e.1) e.2 with
  | Value, Remove => (mkIKey (user_key e.1) (sequence e.1) Deletion, [])
  | Value, Change nv => (e.1, nv)
  | _, _ => e
  end.

(** The newest version is removed, and the older ones with it. *)
Definition removed (decision : list byte → list byte → CompactFilterDecision) (e : entry) : bool :=
  match kind e.1, decision (user_key e.1) e.2 with Value, Remove => true | _, _ => false end.

(** A read after the filter: the value the decision leaves of the value read. *)
Definition decided (decision : list byte → list byte → CompactFilterDecision) (uk v0 v : list byte) : Prop :=
  match decision uk v0 with Keep => v = v0 | Remove => False | Change nv => v = nv end.

Section filter.
Context (decision : list byte → list byte → CompactFilterDecision).

Abbreviation out ru dr es := (oks (filter_items decision ru dr (Ok <$> es))).

(** How an entry of a run passes: inside the current run unless it is being
    dropped, as the first of a new run through the decision, or behind a first
    one that was not removed. *)
Definition passes (ru : option (list byte)) (dr : bool) (es : list entry) (e x : entry) : Prop :=
  if decide (ru = Some (user_key e.1)) then dr = false ∧ x = e
  else ∃ h, head (versions_of (user_key e.1) es) = Some h ∧
    (e = h ∧ x = filtered decision e ∨ e ≠ h ∧ removed decision h = false ∧ x = e).

Lemma oks_ok_cons e s : oks (Ok e :: s) = e :: oks s.
Proof. done. Qed.

(** The first pass of a run. *)
Lemma filter_items_first ru dr e es :
  ru ≠ Some (user_key e.1) →
  out ru dr (e :: es) = filtered decision e :: out (Some (user_key e.1)) (removed decision e) es.
Proof.
  intros Hne. destruct e as [ik val]. cbn [fmap list_fmap filter_items fst snd] in *.
  rewrite bool_decide_eq_false_2 by done. cbn [negb]. unfold filtered, removed. cbn [fst snd].
  destruct (kind ik) eqn:Ek; [by rewrite bool_decide_eq_false_2| |by rewrite bool_decide_eq_false_2].
  rewrite bool_decide_eq_true_2 by done. by destruct (decision (user_key ik) val).
Qed.

Lemma filter_items_same dr e es u :
  u = user_key e.1 → out (Some u) dr (e :: es) = if dr then out (Some u) dr es else e :: out (Some u) dr es.
Proof.
  intros ->. destruct e as [ik val]. cbn [fmap list_fmap filter_items fst snd].
  rewrite bool_decide_eq_true_2 by done. cbn [negb]. by destruct dr.
Qed.

Lemma sorted_users (e : entry) (es : list entry) (x : entry) : StronglySorted ikey_lt (e :: es).*1 → x ∈ es → ¬ bytes_lt (user_key x.1) (user_key e.1).
Proof.
  intros [_ Hf]%StronglySorted_inv Hx. rewrite Forall_forall in Hf.
  assert (ikey_lt e.1 x.1) as Hlt by (by apply Hf, list_elem_of_fmap_2). apply ikey_le_user.
  apply ikey_not_lt. by right.
Qed.

Lemma passes_cons_other ru dr (e : entry) es (x y : entry) :
  user_key x.1 ≠ user_key e.1 → passes ru dr (e :: es) x y ↔ passes ru dr es x y.
Proof.
  intros Hne. unfold passes. replace (versions_of (user_key x.1) (e :: es)) with (versions_of (user_key x.1) es); [done|].
  unfold versions_of. by rewrite filter_cons_False by (by intros ?).
Qed.

(** A later entry, once the state has moved on to the run of [e]. *)
Lemma passes_later ru dr (e : entry) es (x y : entry) :
  ru ≠ Some (user_key e.1) → (∀ u, ru = Some u → ¬ bytes_lt (user_key e.1) u) →
  StronglySorted ikey_lt (e :: es).*1 → x ∈ es →
  passes (Some (user_key e.1)) (removed decision e) es x y ↔ passes ru dr (e :: es) x y.
Proof.
  intros Hru Hge Hs Hx. pose proof (sorted_users e es x Hs Hx) as Hle.
  destruct (decide (user_key x.1 = user_key e.1)) as [Heq|Hne].
  - unfold passes. rewrite decide_True by congruence. rewrite (decide_False (P := ru = _)) by congruence.
    assert (head (versions_of (user_key x.1) (e :: es)) = Some e) as ->.
    { unfold versions_of. by rewrite filter_cons_True by done. }
    assert (x ≠ e) as Hxe.
    { intros ->. apply StronglySorted_inv in Hs as [_ Hf]. rewrite Forall_forall in Hf.
      eapply (ikey_lt_irrefl e.1), Hf. by apply list_elem_of_fmap_2. }
    split; [intros [? ->]; eexists; split; [done|]; by right|]. intros (h & [= <-] & [[? _]|(_ & ? & ?)]); done.
  - rewrite passes_cons_other by done. unfold passes. rewrite decide_False by congruence.
    rewrite decide_False; [done|]. intros ->. specialize (Hge _ eq_refl). apply Hne.
    destruct (bytes_trichotomy (user_key x.1) (user_key e.1)) as [|[|]]; done.
Qed.

Lemma filter_members ru dr (es : list entry) :
  StronglySorted ikey_lt es.*1 → (∀ u e, ru = Some u → e ∈ es → ¬ bytes_lt (user_key e.1) u) →
  ∀ y, y ∈ out ru dr es ↔ ∃ x, x ∈ es ∧ passes ru dr es x y.
Proof.
  revert ru dr. induction es as [|e es IH]; intros ru dr Hs Hge y.
  { split; [by intros ?%not_elem_of_nil|]. by intros (? & ?%not_elem_of_nil & _). }
  assert (StronglySorted ikey_lt es.*1) as Hs' by (by apply StronglySorted_inv in Hs as [? _]).
  assert (∀ x, x ∈ es → ¬ bytes_lt (user_key x.1) (user_key e.1)) as Hle by (intros x; by apply sorted_users).
  destruct (decide (ru = Some (user_key e.1))) as [->|Hne].
  - rewrite filter_items_same by done. specialize (IH (Some (user_key e.1)) dr Hs').
    assert (∀ y, y ∈ out (Some (user_key e.1)) dr es ↔ ∃ x, x ∈ es ∧ passes (Some (user_key e.1)) dr (e :: es) x y) as IH'.
    { intros z. rewrite IH by (intros u x [= <-]; apply Hle). apply exist_proper. intros x.
      destruct (decide (user_key x.1 = user_key e.1)) as [Heq|Hn]; [|by rewrite passes_cons_other].
      unfold passes. by rewrite !decide_True by congruence. }
    transitivity (dr = false ∧ y = e ∨ y ∈ out (Some (user_key e.1)) dr es).
    { destruct dr; [naive_solver|]. rewrite elem_of_cons. naive_solver. }
    rewrite IH'. setoid_rewrite elem_of_cons. assert (∀ z, passes (Some (user_key e.1)) dr (e :: es) e z ↔ dr = false ∧ z = e) as He.
    { intros z. unfold passes. by rewrite decide_True. }
    split; [intros [H|(x & Hx & Hp)]; [exists e|exists x]; rewrite ?He; auto|].
    intros (x & [->|Hx] & Hp); [left; by apply He|right; by exists x].
  - rewrite filter_items_first, elem_of_cons by done.
    rewrite (IH (Some (user_key e.1)) (removed decision e) Hs') by (intros u x [= <-]; apply Hle).
    assert (∀ z, passes ru dr (e :: es) e z ↔ z = filtered decision e) as He.
    { intros z. unfold passes. rewrite decide_False by done. unfold versions_of. rewrite filter_cons_True by done. naive_solver. }
    setoid_rewrite elem_of_cons. assert (∀ x, x ∈ es →
      passes (Some (user_key e.1)) (removed decision e) es x y ↔ passes ru dr (e :: es) x y) as Hp.
    { intros x Hx. apply passes_later; [done| |done|done]. intros u Hu. by apply Hge; [|left]. }
    split; [intros [H|(x & Hx & H)]; [exists e|exists x]; [by rewrite He; auto|rewrite <-Hp by done; auto]|].
    intros (x & [->|Hx] & H); [left; by apply He|right; exists x; by rewrite Hp].
Qed.
End filter.

(** ** Reads after the filter *)

(** A key has one version at a sequence. *)
Definition one_version_per_sequence (es : list entry) : Prop :=
  ∀ a b, a ∈ es → b ∈ es → user_key a.1 = user_key b.1 → sequence a.1 = sequence b.1 → a = b.

Section filter_reads.
Context (decision : list byte → list byte → CompactFilterDecision) (es : list entry) (s : Z).
Context (Hs : StronglySorted ikey_lt es.*1) (Hall : Forall (λ e : entry, sequence e.1 ≤ s) es).
Context (Hp : proper_ranges es) (Hq : one_version_per_sequence es).
Context (Hr : ∀ h t, h ∈ es → t ∈ es → removed decision h = true → kind t.1 = RangeDeletion → user_key t.1 ≠ user_key h.1).

Local Abbreviation fs := (oks (filter_items decision None false (Ok <$> es))).

Lemma versions_head uk h : head (versions_of uk es) = Some h →
  h ∈ es ∧ user_key h.1 = uk ∧ ∀ e, e ∈ es → user_key e.1 = uk → e = h ∨ ikey_lt h.1 e.1.
Proof using Hs.
  intros Hh. unfold versions_of in Hh. destruct (filter _ es) as [|h' l] eqn:E; [done|]. injection Hh as ->.
  assert (∀ e, e ∈ es → user_key e.1 = uk → e ∈ h :: l) as Hin.
  { intros e He Hu. rewrite <-E. by apply list_elem_of_filter. }
  assert (h ∈ filter (λ e, user_key e.1 = uk) es) as [Hu He]%list_elem_of_filter by (rewrite E; left).
  split; [done|]. split; [done|]. intros e He' Hu'.
  assert (StronglySorted ikey_lt (h :: l).*1) as [_ Hf]%StronglySorted_inv by (rewrite <-E; by apply sorted_lt_filter).
  destruct (proj1 (elem_of_cons _ _ _) (Hin e He' Hu')) as [->|Hl]; [by left|right].
  rewrite Forall_forall in Hf. by apply Hf, list_elem_of_fmap_2.
Qed.

Lemma head_exists e : e ∈ es → ∃ h, head (versions_of (user_key e.1) es) = Some h.
Proof.
  intros He. unfold versions_of. destruct (filter _ es) as [|h l] eqn:E; [|by exists h].
  assert (e ∈ filter (λ x, user_key x.1 = user_key e.1) es) as Hin by (by apply list_elem_of_filter).
  rewrite E in Hin. by apply not_elem_of_nil in Hin.
Qed.

(** Members of the output, by the first version of their key. *)
Lemma filtered_members y : y ∈ fs ↔ ∃ x h, x ∈ es ∧ head (versions_of (user_key x.1) es) = Some h ∧
  (x = h ∧ y = filtered decision x ∨ x ≠ h ∧ removed decision h = false ∧ y = x).
Proof using Hs.
  rewrite filter_members; [|done|done]. split.
  - intros (x & Hx & h & Hh & Hc). by exists x, h.
  - intros (x & h & Hx & Hh & Hc). exists x. split; [done|]. unfold passes. rewrite decide_False by done. by exists h.
Qed.

Lemma filtered_key e : user_key (filtered decision e).1 = user_key e.1 ∧ sequence (filtered decision e).1 = sequence e.1 ∧
  (kind (filtered decision e).1 = RangeDeletion ↔ kind e.1 = RangeDeletion).
Proof. unfold filtered. destruct (kind e.1) eqn:Ek; [cbn; by rewrite Ek| |cbn; by rewrite Ek]. by destruct (decision _ _); cbn; rewrite ?Ek. Qed.

Lemma filtered_key_user e : user_key (filtered decision e).1 = user_key e.1.
Proof. apply filtered_key. Qed.

Lemma filtered_tombs t : kind t.1 = RangeDeletion → t ∈ fs ↔ t ∈ es.
Proof using Hs Hr.
  intros Hk. rewrite filtered_members. split.
  - intros (x & h & Hx & Hh & [[-> ->]|(_ & _ & ->)]); last done.
    apply (filtered_key h) in Hk. unfold filtered. by rewrite Hk.
  - intros Ht. destruct (head_exists t Ht) as [h Hh]. exists t, h. split; [done|]. split; [done|].
    destruct (decide (t = h)) as [->|Hne]; [left|right].
    + split; [done|]. unfold filtered. by rewrite Hk.
    + split; [done|]. split; [|done]. destruct (removed decision h) eqn:E; [|done]. exfalso.
      destruct (versions_head _ _ Hh) as (Hin & Hu & _). by apply (Hr h t).
Qed.

Lemma hidden_filtered uk n : hidden fs s uk n ↔ hidden es s uk n.
Proof using Hs Hr.
  unfold hidden. split; intros (k & v & Hin & Hk & Hrest); exists k, v;
    (split; [by apply (filtered_tombs (k, v))|done]).
Qed.

Lemma all_visible e : e ∈ es → sequence e.1 ≤ s.
Proof using Hall. rewrite Forall_forall in Hall. apply Hall. Qed.

(** A range deletion at the front of a run hides the rest of the run. *)
Lemma first_hides uk h (e : entry) : head (versions_of uk es) = Some h → kind h.1 = RangeDeletion →
  e ∈ es → user_key e.1 = uk → ikey_lt h.1 e.1 → hidden es s uk (sequence e.1).
Proof using Hs Hall Hp Hq.
  intros Hh Hd He Hue Hlt. destruct (versions_head _ _ Hh) as (Hin & Hu & _).
  exists h.1, h.2. rewrite <-surjective_pairing. split; [done|]. split; [done|].
  split; [by apply all_visible|]. assert (sequence e.1 < sequence h.1) as Hsq.
  { destruct (proj1 (ikey_lt_iff _ _) Hlt) as [Hl|[_ [|[Hc _]]]];
      [rewrite Hu, Hue in Hl; by apply (irreflexivity bytes_lt) in Hl|done|].
    assert (h = e) as -> by (apply Hq; congruence). by apply ikey_lt_irrefl in Hlt. }
  split; [done|]. unfold range_tombstone_covers. rewrite andb_true_iff, bytes_leb_spec, bytes_ltb_spec.
  rewrite <-Hu. split; [apply (irreflexivity bytes_lt)|by apply Hp].
Qed.

(** The first version decides a read, unless it is a range deletion, which then
    hides the key. *)
Lemma reads_first uk h v : head (versions_of uk es) = Some h →
  reads es s uk v ↔ kind h.1 = Value ∧ h.2 = v ∧ ¬ hidden es s uk (sequence h.1).
Proof using Hs Hall Hp Hq.
  intros Hh. destruct (versions_head _ _ Hh) as (Hin & Hu & Hfirst). split.
  - intros (e & (He & Hue & Hke & Hse) & <- & Hk & Hnew & Hhid).
    destruct (Hfirst e He Hue) as [->|Hlt]; [done|]. exfalso.
    destruct (decide (kind h.1 = RangeDeletion)) as [Hd|Hd]; [by eapply Hhid, first_hides|].
    apply (Hnew h); [|done]. split_and!; [done|done|done|by apply all_visible].
  - intros (Hk & <- & Hhid). exists h. split; [split_and!; [done|done|by rewrite Hk|by apply all_visible]|].
    split; [done|]. split; [done|]. split; [|done].
    intros e (He & Hue & _ & _) Hlt. destruct (Hfirst e He Hue) as [->|Hgt]; [by apply (ikey_lt_irrefl h.1)|].
    apply (ikey_lt_irrefl h.1). by etrans.
Qed.

(** What a kept first version becomes keeps its key and passes. *)
Lemma filtered_kept h : removed decision h = false → (filtered decision h).1 = h.1.
Proof. unfold removed, filtered. destruct (kind h.1); [done| |done]. by destruct (decision _ _). Qed.

Lemma filtered_head uk h : head (versions_of uk es) = Some h → filtered decision h ∈ fs.
Proof using Hs.
  intros Hh. apply filtered_members. destruct (versions_head _ _ Hh) as (Hin & Hu & _).
  exists h, h. rewrite Hu. split; [done|]. split; [done|]. by left.
Qed.

Lemma reads_filtered_first uk h v : head (versions_of uk es) = Some h →
  reads fs s uk v ↔ kind h.1 = Value ∧ decided decision uk h.2 v ∧ ¬ hidden es s uk (sequence h.1).
Proof using Hs Hall Hp Hq Hr.
  intros Hh. destruct (versions_head _ _ Hh) as (Hin & Hu & Hfirst). pose proof (filtered_head uk h Hh) as Hfh.
  destruct (filtered_key h) as (Hfu & Hfs & Hfk). split.
  - intros (e & (He & Hue & Hke & Hse) & <- & Hk & Hnew & Hhid). rewrite hidden_filtered in Hhid.
    apply filtered_members in He as (x & h' & Hx & Hh' & [[-> ->]|(Hne & Hrm & ->)]).
    + assert (h' = h) as -> by (rewrite filtered_key_user in Hue; congruence).
      rewrite Hfs in Hhid. unfold filtered in Hk |- *. unfold decided. subst uk.
      destruct (kind h.1) eqn:Ek; [congruence| |congruence]. destruct (decision _ _); [done|by cbn in Hk|done].
    + assert (h' = h) as -> by congruence. destruct (Hfirst x Hx Hue) as [->|Hlt]; [done|]. exfalso.
      destruct (decide (kind h.1 = RangeDeletion)) as [Hd|Hd]; [by eapply Hhid, first_hides|].
      apply (Hnew (filtered decision h)); [|by rewrite filtered_kept].
      split_and!; [done|congruence|tauto|rewrite Hfs; by apply all_visible].
  - intros (Hk & Hd & Hhid). assert (removed decision h = false ∧ (filtered decision h).2 = v) as [Hrm <-].
    { unfold decided in Hd. rewrite <-Hu in Hd. unfold removed, filtered. rewrite Hk. by destruct (decision _ _). }
    pose proof (filtered_kept h Hrm) as Hfe. exists (filtered decision h).
    split; [split_and!; [done|congruence|by rewrite Hfe, Hk|rewrite Hfs; by apply all_visible]|].
    split; [done|]. rewrite Hfe, hidden_filtered. split; [done|]. split; [|done].
    intros e (He & Hue & _ & _) Hlt. apply filtered_members in He as (x & h' & Hx & Hh' & [[-> ->]|(Hne & _ & ->)]).
    + assert (h' = h) as -> by (rewrite filtered_key_user in Hue; congruence). rewrite Hfe in Hlt. by apply ikey_lt_irrefl in Hlt.
    + destruct (Hfirst x Hx Hue) as [->|Hgt]; apply (ikey_lt_irrefl h.1); [done|by etrans].
Qed.

(** A compaction that runs the filter leaves, for every key, exactly what the
    filter decides about the value a read of that key returned before: kept
    values are still read, changed ones read as changed, removed ones are gone,
    and keys that read as absent stay absent. This holds over a merged stream
    with one version per key and sequence, when no range tombstone starts at
    the user key of a removed value. *)
Theorem filter_reads uk v :
  reads fs s uk v ↔ ∃ v0, reads es s uk v0 ∧ decided decision uk v0 v.
Proof using Hs Hall Hp Hq Hr.
  destruct (head (versions_of uk es)) as [h|] eqn:Hh.
  - rewrite (reads_filtered_first uk h) by done. setoid_rewrite (reads_first uk h); [|done].
    split; [intros (? & ? & ?); by exists h.2|]. by intros (v0 & (? & <- & ?) & ?).
  - assert (∀ e, e ∈ es → user_key e.1 ≠ uk) as Hno.
    { intros e He <-. destruct (head_exists e He) as [h Hh']. congruence. }
    split.
    + intros (e & (He & Hue & _) & _). apply filtered_members in He as (x & h & Hx & Hh' & Hc). exfalso.
      apply (Hno x Hx). destruct Hc as [[-> ->]|(_ & _ & ->)]; [|done]. by rewrite filtered_key_user in Hue.
    + intros (v0 & (e & (He & Hue & _) & _) & _). by apply Hno in He.
Qed.
End filter_reads.

(** A range tombstone that starts at the user key of a removed value is lost:
    the filter drops the older entries of the run, the tombstone among them, so
    a key it had deleted is read again after the compaction. *)
Theorem filter_drops_range_tombstone (decision : list byte → list byte → CompactFilterDecision) a b c v w s1 s2 s3 s :
  decision a v = Remove → decision b w = Keep → bytes_lt a b → bytes_lt b c → s1 < s2 → s2 < s3 → s3 ≤ s →
  let es := [(mkIKey a s3 Value, v); (mkIKey a s2 RangeDeletion, c); (mkIKey b s1 Value, w)] in
  ¬ reads es s b w ∧ reads (oks (filter_items decision None false (Ok <$> es))) s b w.
Proof.
  intros Hr Hk Hab Hbc H12 H23 H3 es. assert (a ≠ b) as Hne by (intros ->; by apply (irreflexivity bytes_lt) in Hab).
  assert (oks (filter_items decision None false (Ok <$> es)) =
    [(mkIKey a s3 Deletion, []); (mkIKey b s1 Value, w)]) as ->.
  { subst es. rewrite filter_items_first by done. cbn [user_key fst]. rewrite filter_items_same by done.
    unfold removed, filtered. cbn [kind user_key sequence fst snd]. rewrite Hr.
    rewrite filter_items_first by (cbn; congruence). unfold filtered. cbn. by rewrite Hk. }
  split.
  - intros (e & (He & Hu & _) & _ & _ & _ & Hh). apply Hh. exists (mkIKey a s2 RangeDeletion), c.
    assert (e = (mkIKey b s1 Value, w)) as ->.
    { subst es. set_unfold. destruct He as [->|[->|[->|[]]]]; cbn in Hu; congruence. }
    cbn. split; [subst es; set_solver|]. split; [done|]. split; [lia|]. split; [done|].
    unfold range_tombstone_covers. rewrite andb_true_iff, bytes_leb_spec, bytes_ltb_spec. split; [|done].
    intros Hba. apply (irreflexivity bytes_lt a). by etrans.
  - exists (mkIKey b s1 Value, w). split; [split_and!; [set_solver|done|done|cbn; lia]|]. split; [done|]. split; [done|].
    split; [|intros (k & x & Hin & Hkind & _); set_unfold; destruct Hin as [[= -> ->]|[[= -> ->]|[]]]; done].
    intros e (He & Hu & _) Hlt. set_unfold. destruct He as [->|[->|[]]]; [by cbn in Hu|by apply ikey_lt_irrefl in Hlt].
Qed.

(** ** Sample input *)

Definition filter_decision (k v : list byte) : CompactFilterDecision :=
  match v with [x01] => Remove | [x02] => Change [x09] | _ => Keep end.

Definition filter_entries : list entry :=
  [(mkIKey [x61] 5 Value, [x02]); (mkIKey [x61] 3 Value, [x01]); (mkIKey [x62] 4 Value, [x01]);
   (mkIKey [x62] 2 Value, [x03]); (mkIKey [x63] 1 RangeDeletion, [x65])].

Lemma filter_reads_witness :
  reads (oks (filter_items filter_decision None false (Ok <$> filter_entries))) 9 [x61] [x09] ∧
  ¬ reads (oks (filter_items filter_decision None false (Ok <$> filter_entries))) 9 [x62] [x03].
Proof.
  assert (StronglySorted ikey_lt filter_entries.*1) as Hs by (repeat constructor).
  assert (Forall (λ e : entry, sequence e.1 ≤ 9) filter_entries) as Hall by (repeat constructor; cbn; lia).
  assert (proper_ranges filter_entries) as Hp.
  { intros e He Hk. unfold filter_entries in He. set_unfold. destruct He as [->|[->|[->|[->|[->|[]]]]]]; done. }
  assert (one_version_per_sequence filter_entries) as Hq.
  { intros x y Hx Hy Hu Hn. unfold filter_entries in Hx, Hy. set_unfold.
    destruct Hx as [->|[->|[->|[->|[->|[]]]]]], Hy as [->|[->|[->|[->|[->|[]]]]]]; done. }
  assert (∀ h t, h ∈ filter_entries → t ∈ filter_entries → removed filter_decision h = true →
    kind t.1 = RangeDeletion → user_key t.1 ≠ user_key h.1) as Hr.
  { intros h t Hh Ht Hrm Hk. unfold filter_entries in Hh, Ht. set_unfold.
    destruct Ht as [->|[->|[->|[->|[->|[]]]]]], Hh as [->|[->|[->|[->|[->|[]]]]]]; done. }
  split.
  - apply (filter_reads _ _ _ Hs Hall Hp Hq Hr). exists [x02]. split; [|done].
    apply (reads_first _ _ Hs Hall Hp Hq _ (mkIKey [x61] 5 Value, [x02])); [done|]. split; [done|]. split; [done|].
    intros (k & v & Hin & Hk & _ & Hlt & Hc). unfold filter_entries in Hin. set_unfold. naive_solver lia.
  - rewrite (filter_reads _ _ _ Hs Hall Hp Hq Hr). intros (v0 & Hv0 & Hd).
    rewrite (reads_first _ _ Hs Hall Hp Hq _ (mkIKey [x62] 4 Value, [x01])) in Hv0 by done.
    destruct Hv0 as (_ & <- & _). done.
Defined.

Lemma filter_drops_range_tombstone_witness :
  let es := [(mkIKey [x61] 5 Value, [x01]); (mkIKey [x61] 3 RangeDeletion, [x63]); (mkIKey [x62] 1 Value, [x04])] in
  ¬ reads es 5 [x62] [x04] ∧ reads (oks (filter_items filter_decision None false (Ok <$> es))) 5 [x62] [x04].
Proof. by apply filter_drops_range_tombstone. Defined.
