(* ===== verification/OrdMap.v ===== *)
(** [std::collections::BTreeMap]: an ordered map as the list of its bindings in
    strictly increasing key order.

    A key type comes with its [Ord] through the class [KeyOrd]; the operations
    are the ones the engine calls ([get], [insert], [remove], [range],
    [split_off], [last_key_value]) and the laws of this file are what the
    clients use. *)

From S2P Require Import Prelude ErrorKernel KeyKernel Visibility.

(** * Ordered keys *)

(** [Ord] for a key type, with the laws of a total order. *)
Class KeyOrd (K : Type) := {
  kcmp : K → K → comparison;
  kcmp_eq a b : kcmp a b = Eq ↔ a = b;
  kcmp_antisym a b : kcmp b a = CompOpp (kcmp a b);
  kcmp_lt_trans a b c : kcmp a b = Lt → kcmp b c = Lt → kcmp a c = Lt;
}.

#[export] Instance bytes_ord : KeyOrd (list byte) := {
  kcmp := bytes_cmp; kcmp_eq := bytes_cmp_eq;
  kcmp_antisym := bytes_cmp_antisym; kcmp_lt_trans := bytes_cmp_lt_trans }.

(** Tuples compare lexicographically. *)
Definition pair_cmp {A B} `{KeyOrd A, KeyOrd B} (x y : A * B) : comparison :=
  match kcmp x.1 y.1 with Eq => kcmp x.2 y.2 | c => c end.

#[export] Instance Z_ord : KeyOrd Z.
Proof.
  refine {| kcmp := Z.compare |}.
  - apply Z.compare_eq_iff.
  - intros a b. apply Z.compare_antisym.
  - intros a b c. rewrite !Z.compare_lt_iff. lia.
Defined.

#[export] Instance pair_ord {A B} `{KeyOrd A, KeyOrd B} : KeyOrd (A * B).
Proof.
  refine {| kcmp := pair_cmp |}; unfold pair_cmp.
  - intros [a b] [a' b']. cbn. destruct (kcmp a a') eqn:E.
    + apply kcmp_eq in E as ->. rewrite kcmp_eq. naive_solver.
    + split; [done|]. intros [= -> ->]. by rewrite (proj2 (kcmp_eq a' a') eq_refl) in E.
    + split; [done|]. intros [= -> ->]. by rewrite (proj2 (kcmp_eq a' a') eq_refl) in E.
  - intros [a b] [a' b']. cbn. rewrite (kcmp_antisym a a'). destruct (kcmp a a'); cbn; [|done|done].
    apply kcmp_antisym.
  - intros [a b] [a' b'] [a'' b'']. cbn.
    destruct (kcmp a a') eqn:E1; destruct (kcmp a' a'') eqn:E2; try done.
    + apply kcmp_eq in E1 as ->. rewrite E2. apply kcmp_lt_trans.
    + apply kcmp_eq in E1 as ->. by rewrite E2.
    + apply kcmp_eq in E2 as ->. by rewrite E1.
    + by rewrite (kcmp_lt_trans a a' a'') by done.
Defined.

Section keys.
Context {K : Type} `{KeyOrd K}.

Definition klt (a b : K) : Prop := kcmp a b = Lt.

Lemma kcmp_refl a : kcmp a a = Eq.
Proof. by apply kcmp_eq. Qed.

#[export] Instance klt_trans : Transitive klt.
Proof. intros a b c. apply kcmp_lt_trans. Qed.
#[export] Instance klt_irrefl : Irreflexive klt.
Proof. intros a Ha. unfold klt in Ha. by rewrite kcmp_refl in Ha. Qed.

Lemma kcmp_gt a b : kcmp a b = Gt ↔ klt b a.
Proof. unfold klt. rewrite (kcmp_antisym a b). by destruct (kcmp a b). Qed.
End keys.

(** * Operations *)

Abbreviation OrdMap K V := (list (K * V)).

Section map.
Context {K V : Type} `{KeyOrd K}.
Implicit Types (m : list (K * V)) (k : K).

(** [BTreeMap::get]. *)
Fixpoint om_get k m : option V :=
  match m with
  | [] => None
  | (k', v) :: m =>
      match kcmp k k' with
      | Lt => None
      | Eq => Some v
      | Gt => om_get k m
      end
  end.

(** [BTreeMap::insert], also the write through [get_mut]. *)
Fixpoint om_insert k (v : V) m : list (K * V) :=
  match m with
  | [] => [(k, v)]
  | (k', v') :: m' =>
      match kcmp k k' with
      | Lt => (k, v) :: m
      | Eq => (k', v) :: m'
      | Gt => (k', v') :: om_insert k v m'
      end
  end.

(** [BTreeMap::remove]. *)
Fixpoint om_remove k m : list (K * V) :=
  match m with
  | [] => []
  | (k', v') :: m' =>
      match kcmp k k' with
      | Lt => m
      | Eq => m'
      | Gt => (k', v') :: om_remove k m'
      end
  end.

(** [BTreeMap::range] with the bounds as a predicate on keys. *)
Definition om_range (inside : K → bool) m : list (K * V) :=
  filter (λ kv, inside kv.1 = true) m.

(** [BTreeMap::split_off]: the bindings below the key, and the others. *)
Definition om_split_off k m : list (K * V) * list (K * V) :=
  (filter (λ kv, kcmp kv.1 k = Lt) m, filter (λ kv, kcmp kv.1 k ≠ Lt) m).

(** [BTreeMap::last_key_value]. *)
Definition om_last m : option (K * V) := last m.

Definition om_sorted m : Prop := StronglySorted klt m.*1.

(** * Laws *)

Lemma om_sorted_cons k v m :
  om_sorted ((k, v) :: m) ↔ om_sorted m ∧ ∀ k' v', (k', v') ∈ m → klt k k'.
Proof.
  unfold om_sorted. cbn. split.
  - intros [Hs Hk]%StronglySorted_inv. split; [done|]. intros k' v' Hin.
    rewrite Forall_forall in Hk. apply Hk. by apply (list_elem_of_fmap_2 fst _ (k', v')).
  - intros [Hs Hk]. constructor; [done|]. apply Forall_forall.
    intros x ([k' v'] & -> & Hin)%list_elem_of_fmap. by eapply Hk.
Qed.

Lemma om_get_elem k v m : om_sorted m → om_get k m = Some v ↔ (k, v) ∈ m.
Proof.
  induction m as [|[k' v'] m IH]; intros Hs; cbn [om_get]; [set_solver|].
  apply om_sorted_cons in Hs as [Hs Hk]. rewrite elem_of_cons. destruct (kcmp k k') eqn:E.
  - apply kcmp_eq in E as ->. split; [intros [= ->]; by left|].
    intros [[= ->]|Hin]; [done|]. apply Hk in Hin. by apply (irreflexivity klt) in Hin.
  - split; [done|]. intros [[= -> ->]|Hin]; [by rewrite kcmp_refl in E|].
    apply Hk in Hin. exfalso. apply (irreflexivity klt k). by trans k'.
  - rewrite IH by done. split; [by right|]. intros [[= -> ->]|Hin]; [by rewrite kcmp_refl in E|done].
Qed.

Lemma om_get_None k m : om_sorted m → om_get k m = None ↔ ∀ v, (k, v) ∉ m.
Proof.
  intros Hs. split.
  - intros Hn v Hin%om_get_elem; [congruence|done].
  - intros Hn. destruct (om_get k m) as [v|] eqn:E; [|done].
    apply om_get_elem in E; [|done]. by apply Hn in E.
Qed.

Lemma om_insert_elem k v m k' v' :
  om_sorted m → (k', v') ∈ om_insert k v m ↔ k' = k ∧ v' = v ∨ k' ≠ k ∧ (k', v') ∈ m.
Proof.
  induction m as [|[k0 v0] m IH]; intros Hs; cbn [om_insert].
  { rewrite list_elem_of_singleton. set_solver. }
  apply om_sorted_cons in Hs as [Hs Hk]. destruct (kcmp k k0) eqn:E.
  - apply kcmp_eq in E as <-. rewrite !elem_of_cons. split.
    + intros [[= -> ->]|Hin]; [by left|]. right. split; [|by right].
      intros ->. apply Hk in Hin. by apply (irreflexivity klt) in Hin.
    + intros [[-> ->]|[Hne [[= -> ->]|Hin]]]; [by left|done|by right].
  - rewrite !elem_of_cons. split.
    + intros [[= -> ->]|[[= -> ->]|Hin]]; [by left| |].
      * right. split; [|by left]. intros ->. by rewrite kcmp_refl in E.
      * right. split; [|by right]. intros ->. apply Hk in Hin.
        apply (irreflexivity klt k). by trans k0.
    + intros [[-> ->]|[Hne Hin]]; [by left|by right].
  - rewrite !elem_of_cons, IH by done. split.
    + intros [[= -> ->]|[?|[??]]]; [|by left|right; split; [done|by right]].
      right. split; [|by left]. intros ->. by rewrite kcmp_refl in E.
    + intros [?|[? [?|?]]]; [by right; left|by left|by right; right].
Qed.

Lemma om_insert_sorted k v m : om_sorted m → om_sorted (om_insert k v m).
Proof.
  induction m as [|[k0 v0] m IH]; intros Hs; cbn [om_insert]; [by repeat constructor|].
  pose proof Hs as Hs0. apply om_sorted_cons in Hs as [Hs Hk]. destruct (kcmp k k0) eqn:E.
  - apply om_sorted_cons. split; done.
  - apply om_sorted_cons. split; [done|]. intros k' v' [[= -> ->]|Hin]%elem_of_cons; [done|].
    trans k0; [done|]. by eapply Hk.
  - apply om_sorted_cons. split; [by apply IH|].
    intros k' v' [[-> ->]|[_ Hin]]%om_insert_elem; [by apply kcmp_gt| |done]. by eapply Hk.
Qed.

Lemma om_get_insert k v m : om_sorted m → om_get k (om_insert k v m) = Some v.
Proof. intros Hs. apply om_get_elem; [by apply om_insert_sorted|]. apply om_insert_elem; auto. Qed.

Lemma om_get_insert_ne k v m k' : om_sorted m → k' ≠ k → om_get k' (om_insert k v m) = om_get k' m.
Proof.
  intros Hs Hne. apply option_eq. intros x.
  rewrite !om_get_elem, om_insert_elem by (done || by apply om_insert_sorted). naive_solver.
Qed.

Lemma om_remove_elem k m k' v' :
  om_sorted m → (k', v') ∈ om_remove k m ↔ k' ≠ k ∧ (k', v') ∈ m.
Proof.
  induction m as [|[k0 v0] m IH]; intros Hs; cbn [om_remove]; [set_solver|].
  apply om_sorted_cons in Hs as [Hs Hk]. destruct (kcmp k k0) eqn:E.
  - apply kcmp_eq in E as <-. rewrite elem_of_cons. split.
    + intros Hin. split; [|by right]. intros ->. apply Hk in Hin. by apply (irreflexivity klt) in Hin.
    + intros [Hne [[= -> ->]|Hin]]; done.
  - split; [|naive_solver]. intros Hin. split; [|done]. intros ->.
    apply elem_of_cons in Hin as [[= -> ->]|Hin]; [by rewrite kcmp_refl in E|].
    apply Hk in Hin. apply (irreflexivity klt k). by trans k0.
  - rewrite !elem_of_cons, IH by done. split; [|naive_solver].
    intros [[= -> ->]|[??]]; [|naive_solver]. split; [|by left]. intros ->. by rewrite kcmp_refl in E.
Qed.

Lemma om_sorted_filter (P : K * V → Prop) `{∀ x, Decision (P x)} m :
  om_sorted m → om_sorted (filter P m).
Proof.
  induction m as [|[k v] m IH]; intros Hs; [done|]. apply om_sorted_cons in Hs as [Hs Hk].
  rewrite filter_cons. destruct (decide _); [|by apply IH]. apply om_sorted_cons.
  split; [by apply IH|]. intros k' v' [_ Hin]%list_elem_of_filter. by eapply Hk.
Qed.

Lemma om_insert_insert k v v' m : om_insert k v (om_insert k v' m) = om_insert k v m.
Proof.
  induction m as [|[k0 v0] m IH]; cbn [om_insert]; [by rewrite kcmp_refl|].
  destruct (kcmp k k0) eqn:E; cbn [om_insert]; rewrite ?kcmp_refl, ?E; [done|done|by rewrite IH].
Qed.

(** As multisets of bindings. *)
Lemma om_insert_fresh_perm k v m : om_get k m = None → om_sorted m → om_insert k v m ≡ₚ (k, v) :: m.
Proof.
  induction m as [|[k0 v0] m IH]; intros Hg Hs; cbn [om_insert om_get] in *; [done|].
  apply om_sorted_cons in Hs as [Hs Hk]. destruct (kcmp k k0) eqn:E; [done|done|].
  rewrite IH by done. apply Permutation_swap.
Qed.

Lemma om_insert_update_perm k v m :
  om_get k m = Some v → ∃ rest, m ≡ₚ (k, v) :: rest ∧ ∀ v', om_insert k v' m ≡ₚ (k, v') :: rest.
Proof.
  induction m as [|[k0 v0] m IH]; cbn [om_insert om_get]; intros Hg; [done|].
  destruct (kcmp k k0) eqn:E; [|done|].
  - apply kcmp_eq in E as ->. injection Hg as ->. by exists m.
  - destruct (IH Hg) as (rest & Hm & Hi). exists ((k0, v0) :: rest). split.
    + rewrite Hm. apply Permutation_swap.
    + intros v'. rewrite Hi. apply Permutation_swap.
Qed.
End map.
