(* ===== verification/MemIndex.v ===== *)
(** The memtable's tail index ([memtable_kernel.rs]): key prefixes, the packed
    32-byte keys, and the shards that map a user key to its newest version in
    the append-only tail. *)

From S2P Require Import Prelude ErrorKernel KeyKernel Visibility OrdMap.

Local Open Scope Z_scope.

(** [struct Version { key, value }]. *)
Abbreviation Version := entry.

(** * Prefixes *)

(** [key.iter().position(|&b| b == c)]. *)
Fixpoint position (c : byte) (key : list byte) : option nat :=
  match key with
  | [] => None
  | b :: key => if bool_decide (b = c) then Some 0%nat else S <$> position c key
  end.

Definition NUL : byte := x00.
Definition SLASH : byte := x2f.

Definition cf_prefix (key : list byte) : list byte :=
  match position NUL key with
  | Some i => take i key
  | None => []
  end.

(** The scan of [one_slash_idx]: [first] and [n] as the loop carries them;
    [None] is the early return on the second slash. *)
Fixpoint one_slash_loop (key : list byte) (i : nat) (first : option nat) (n : nat)
    : option (option nat) :=
  match key with
  | [] => Some first
  | b :: key =>
      if bool_decide (b = SLASH) then
        let n := S n in
        if (n =? 1)%nat then one_slash_loop key (S i) (Some i) n else None
      else one_slash_loop key (S i) first n
  end.

Definition one_slash_idx (key : list byte) : list byte :=
  match one_slash_loop key 0 None 0 with
  | Some (Some i) => take (S i) key
  | Some None => []
  | None => []
  end.

Definition idx_prefix (key : list byte) : list byte :=
  match position NUL key with
  | Some i => take i key
  | None => one_slash_idx key
  end.

(** * Packed keys *)

(** [type PackKey = (u128, u128, u16)]. *)
Abbreviation PackKey := (Z * Z * Z)%type.

Definition pack32 (key : list byte) : Z * Z :=
  let n := Nat.min (length key) 32 in
  let a := take n key ++ replicate (32 - n) x00 in
  (from_be (take 16 a), from_be (drop 16 a)).

(** [(p0, p1, key.len() as u16)], as every caller builds it. *)
Definition pack_key (key : list byte) : PackKey :=
  (pack32 key, Z.of_nat (length key) mod 65536).

(** [b"lock"] and [b"default"]. *)
Definition LOCK : list byte := [x6c; x6f; x63; x6b].
Definition DEFAULT : list byte := [x64; x65; x66; x61; x75; x6c; x74].

Definition point_cf (pfx : list byte) : bool := bytes_eqb pfx LOCK || bytes_eqb pfx DEFAULT.

(** * Shards *)

(** [point] is a [HashMap]; the engine never depends on its order. *)
Record TailShard := mkShard {
  short : OrdMap PackKey nat;
  point : gmap PackKey nat;
  long : OrdMap (list byte) nat;
}.
Definition shard_default : TailShard := mkShard [] ∅ [].

(** The ordered copies of the point maps, built on demand. *)
Abbreviation OrdCache := (OrdMap (list byte) (OrdMap PackKey nat)).

Definition point_ord_btree_insert_at (bt : OrdCache) (live : bool) (pfx : list byte) (sk : PackKey)
    (i : nat) : OrdCache :=
  if negb live then bt
  else match om_get pfx bt with
       | Some shard_bt => om_insert pfx (om_insert sk i shard_bt) bt
       | None => bt
       end.

(** [keep_newer]: the indexed version is newer than the one that arrives. *)
Definition keep_newer (tail : list Version) (new_seq : Z) (old_i : nat) : bool :=
  match tail !! old_i with
  | Some old => match ikey_seq_cmp (sequence old.1) new_seq with Lt => true | _ => false end
  | None => false
  end.

Definition is_some_and {A} (o : option A) (p : A → bool) : bool :=
  match o with Some a => p a | None => false end.

Definition shard_insert (s : TailShard) (ord_bt : OrdCache) (ord_live : bool) (pfx uk : list byte)
    (tail : list Version) (new_seq : Z) (i : nat) : TailShard * OrdCache :=
  if (length uk <=? 32)%nat then
    let sk := pack_key uk in
    if point_cf pfx then
      if is_some_and (point s !! sk) (keep_newer tail new_seq) then (s, ord_bt)
      else (mkShard (short s) (<[sk := i]> (point s)) (long s),
            point_ord_btree_insert_at ord_bt ord_live pfx sk i)
    else
      if is_some_and (om_get sk (short s)) (keep_newer tail new_seq) then (s, ord_bt)
      else (mkShard (om_insert sk i (short s)) (point s) (long s), ord_bt)
  else if is_some_and (om_get uk (long s)) (keep_newer tail new_seq) then (s, ord_bt)
  else (mkShard (short s) (point s) (om_insert uk i (long s)), ord_bt).

Definition shard_lookup (shard : TailShard) (uk : list byte) : option nat :=
  if (length uk <=? 32)%nat then
    let sk := pack_key uk in
    match point shard !! sk with
    | Some i => Some i
    | None => om_get sk (short shard)
    end
  else om_get uk (long shard).

(** [recount]'s re-indexing, which does not compare sequences. *)
Definition shard_set (s : TailShard) (pfx key : list byte) (i : nat) : TailShard :=
  if (length key <=? 32)%nat then
    let sk := pack_key key in
    if point_cf pfx then mkShard (short s) (<[sk := i]> (point s)) (long s)
    else mkShard (om_insert sk i (short s)) (point s) (long s)
  else mkShard (short s) (point s) (om_insert key i (long s)).

Definition tail_idx_insert_into (idx : OrdMap (list byte) TailShard) (key pfx : list byte) (i : nat)
    : OrdMap (list byte) TailShard :=
  om_insert pfx (shard_set (default shard_default (om_get pfx idx)) pfx key i) idx.

(** * Lemmas *)

(** ** Prefixes *)

Lemma position_Some c key i :
  position c key = Some i → key = take i key ++ c :: drop (S i) key ∧ c ∉ take i key.
Proof.
  revert i. induction key as [|b key IH]; intros i; cbn [position]; [done|].
  destruct (bool_decide_reflect (b = c)) as [->|Hne].
  - intros [= <-]. split; [done|]. cbn. apply not_elem_of_nil.
  - destruct (position c key) as [j|]; [|done]. intros [= <-]. destruct (IH j eq_refl) as [Hk Hn].
    cbn [take drop app]. split; [by f_equal|]. intros [->|?]%elem_of_cons; [done|by apply Hn].
Qed.

Lemma position_app c a r : c ∉ a → position c (a ++ c :: r) = Some (length a).
Proof.
  induction a as [|b a IH]; intros Ha; cbn [app position].
  - by rewrite bool_decide_eq_true_2.
  - rewrite bool_decide_eq_false_2 by set_solver. by rewrite IH by set_solver.
Qed.

(** ** Packed keys order like the keys *)

Lemma from_be_bound l : 0 ≤ from_be l < 256 ^ Z.of_nat (length l).
Proof. unfold from_be. rewrite <-(length_reverse l). apply from_le_bound. Qed.

Lemma bytes_cmp_from_be a b :
  length a = length b → bytes_cmp a b = (from_be a ?= from_be b).
Proof.
  revert b. induction a as [|x a IH]; intros [|y b] Hl; cbn in Hl; try done.
  injection Hl as Hl. cbn [bytes_cmp]. rewrite !from_be_cons, Hl, (IH b Hl).
  pose proof (from_be_bound a) as Ha. pose proof (from_be_bound b) as Hb. rewrite Hl in Ha.
  set (p := 256 ^ Z.of_nat (length b)) in *.
  destruct (Z.compare_spec (b2Z x) (b2Z y)) as [E|E|E].
  - rewrite E. symmetry. apply eq_trans with (Z.compare (b2Z y * p + from_be a) (b2Z y * p + from_be b)); [done|].
    apply Z.add_compare_mono_l.
  - symmetry. apply Z.compare_lt_iff. nia.
  - symmetry. apply Z.compare_gt_iff. nia.
Qed.

Lemma bytes_cmp_app a a' b b' :
  length a = length b →
  bytes_cmp (a ++ a') (b ++ b') = match bytes_cmp a b with Eq => bytes_cmp a' b' | c => c end.
Proof.
  revert b. induction a as [|x a IH]; intros [|y b] Hl; cbn in Hl; try done.
  cbn [app bytes_cmp]. rewrite (IH b) by lia. by destruct (b2Z x ?= b2Z y).
Qed.

(** Zero padding keeps the order except between a key and its extensions by
    zeros, which the length decides. *)
Lemma bytes_cmp_pad n a b :
  (length a ≤ n)%nat → (length b ≤ n)%nat →
  bytes_cmp a b =
    match bytes_cmp (a ++ replicate (n - length a) x00) (b ++ replicate (n - length b) x00) with
    | Eq => Z.of_nat (length a) ?= Z.of_nat (length b)
    | c => c
    end.
Proof.
  assert (∀ k c, (length c ≤ k)%nat →
            bytes_cmp (replicate k x00) (c ++ replicate (k - length c) x00) ≠ Gt) as Hz.
  { induction k as [|k IH]; intros [|y c] Hc; cbn [length] in Hc; try lia; [done| |]; cbn [length app replicate Nat.sub bytes_cmp].
    - rewrite Z.compare_refl. specialize (IH [] ltac:(cbn; lia)). cbn in IH. by rewrite Nat.sub_0_r in IH.
    - pose proof (b2Z_range y). change (b2Z x00) with 0.
      destruct (Z.compare_spec 0 (b2Z y)); [|done|lia]. apply IH. lia. }
  revert a b. induction n as [|n IH]; intros [|x a] [|y b] Ha Hb; cbn [length] in *; try lia.
  - done.
  - by rewrite !bytes_cmp_refl.
  - specialize (Hz (S n) (y :: b) ltac:(cbn; lia)). cbn [length] in Hz. cbn [app bytes_cmp].
    rewrite Nat.sub_0_r. destruct (bytes_cmp _ _) eqn:E; [|done|done].
    symmetry. apply Z.compare_lt_iff. lia.
  - specialize (Hz (S n) (x :: a) ltac:(cbn; lia)). cbn [length] in Hz.
    rewrite (bytes_cmp_antisym (replicate (S n - 0) x00)) by done.
    cbn [app length]. rewrite Nat.sub_0_r. cbn [bytes_cmp].
    destruct (bytes_cmp (replicate (S n) x00) _) eqn:E; cbn [CompOpp]; [|done|done].
    symmetry. apply Z.compare_gt_iff. lia.
  - cbn [app bytes_cmp Nat.sub]. destruct (b2Z x ?= b2Z y); [|done|done].
    rewrite (IH a b) by lia. destruct (bytes_cmp _ _); [|done|done].
    rewrite !Nat2Z.inj_succ, <-!Z.add_1_l. by rewrite Z.add_compare_mono_l.
Qed.

Lemma pack_key_cmp a b :
  (length a ≤ 32)%nat → (length b ≤ 32)%nat → kcmp (pack_key a) (pack_key b) = bytes_cmp a b.
Proof.
  intros Ha Hb. rewrite (bytes_cmp_pad 32 a b) by done.
  set (pa := a ++ replicate (32 - length a) x00). set (pb := b ++ replicate (32 - length b) x00).
  assert (length pa = 32%nat ∧ length pb = 32%nat) as [Hla Hlb].
  { unfold pa, pb. rewrite !length_app, !length_replicate. lia. }
  assert (∀ c, (length c ≤ 32)%nat →
    pack32 c = (from_be (take 16 (c ++ replicate (32 - length c) x00)),
                from_be (drop 16 (c ++ replicate (32 - length c) x00)))) as Hpack.
  { intros c Hc. unfold pack32. rewrite Nat.min_l by done. by rewrite (take_ge c (length c)) by done. }
  unfold pack_key. rewrite !Hpack, !Z.mod_small by lia. fold pa pb.
  cbn. unfold pair_cmp. cbn.
  rewrite <-(take_drop 16 pa) at 3. rewrite <-(take_drop 16 pb) at 3.
  rewrite bytes_cmp_app by (rewrite !length_take; lia).
  rewrite !bytes_cmp_from_be by (rewrite ?length_take, ?length_drop; lia).
  by destruct (_ ?= _).
Qed.

Lemma pack_key_inj a b :
  (length a ≤ 32)%nat → (length b ≤ 32)%nat → pack_key a = pack_key b → a = b.
Proof. intros Ha Hb Heq. apply bytes_cmp_eq. rewrite <-pack_key_cmp by done. by apply kcmp_eq. Qed.

(** ** One slot per key in a shard *)

(** Where a shard keeps a key of its prefix. *)
Definition slot (pfx uk : list byte) (s : TailShard) : option nat :=
  if (length uk <=? 32)%nat then
    if point_cf pfx then point s !! pack_key uk else om_get (pack_key uk) (short s)
  else om_get uk (long s).

(** Every binding of the shard is the slot of a key of its prefix and satisfies
    [Q]. *)
Record shard_all (pfx : list byte) (Q : list byte → nat → Prop) (s : TailShard) : Prop := {
  sa_short_sorted : om_sorted (short s);
  sa_long_sorted : om_sorted (long s);
  sa_point sk i : point s !! sk = Some i → point_cf pfx = true ∧
    ∃ uk, (length uk ≤ 32)%nat ∧ idx_prefix uk = pfx ∧ sk = pack_key uk ∧ Q uk i;
  sa_short sk i : om_get sk (short s) = Some i → point_cf pfx = false ∧
    ∃ uk, (length uk ≤ 32)%nat ∧ idx_prefix uk = pfx ∧ sk = pack_key uk ∧ Q uk i;
  sa_long uk i : om_get uk (long s) = Some i → (32 < length uk)%nat ∧ idx_prefix uk = pfx ∧ Q uk i;
}.

Lemma shard_all_default pfx Q : shard_all pfx Q shard_default.
Proof.
  by split; cbn; try constructor.
Qed.

Lemma shard_all_mono pfx (Q Q' : list byte → nat → Prop) s :
  (∀ uk i, Q uk i → Q' uk i) → shard_all pfx Q s → shard_all pfx Q' s.
Proof.
  intros HQ [H1 H2 H3 H4 H5]. split; [done|done| | |].
  - intros sk i [Hp (uk & ? & ? & ? & ?)]%H3. split; [done|]. exists uk. auto.
  - intros sk i [Hp (uk & ? & ? & ? & ?)]%H4. split; [done|]. exists uk. auto.
  - intros uk i (? & ? & ?)%H5. auto.
Qed.

Lemma slot_all pfx Q uk s i : shard_all pfx Q s → slot pfx uk s = Some i → idx_prefix uk = pfx ∧ Q uk i.
Proof.
  intros [H1 H2 H3 H4 H5]. unfold slot. destruct (Nat.leb_spec (length uk) 32) as [Hl|Hl].
  - destruct (point_cf pfx).
    + intros [_ (uk' & Hl' & Hp & Heq & HQ)]%H3. apply pack_key_inj in Heq as ->; auto.
    + intros [_ (uk' & Hl' & Hp & Heq & HQ)]%H4. apply pack_key_inj in Heq as ->; auto.
  - intros (? & ? & ?)%H5. auto.
Qed.

Lemma shard_lookup_slot pfx Q uk s : shard_all pfx Q s → shard_lookup s uk = slot pfx uk s.
Proof.
  intros [H1 H2 H3 H4 H5]. unfold shard_lookup, slot. destruct (_ <=? _)%nat; [|done].
  destruct (point s !! pack_key uk) as [i|] eqn:Ep.
  - apply H3 in Ep as [-> _]. done.
  - destruct (om_get (pack_key uk) (short s)) as [i|] eqn:Es.
    + apply H4 in Es as [-> _]. done.
    + by destruct (point_cf pfx).
Qed.

Lemma slot_set_eq pfx Q uk s i : shard_all pfx Q s → slot pfx uk (shard_set s pfx uk i) = Some i.
Proof.
  intros [H1 H2 _ _ _]. unfold slot, shard_set. destruct (_ <=? _)%nat; [destruct (point_cf pfx)|]; cbn.
  - by rewrite lookup_insert_eq.
  - by rewrite om_get_insert.
  - by rewrite om_get_insert.
Qed.

Lemma slot_set_ne pfx Q uk uk' s i :
  shard_all pfx Q s → uk' ≠ uk → slot pfx uk' (shard_set s pfx uk i) = slot pfx uk' s.
Proof.
  intros [H1 H2 _ _ _] Hne. unfold slot, shard_set.
  destruct (Nat.leb_spec (length uk') 32), (Nat.leb_spec (length uk) 32), (point_cf pfx); cbn; try done.
  - rewrite lookup_insert_ne; [done|]. intros Heq. by apply pack_key_inj in Heq as ->.
  - rewrite om_get_insert_ne; [done|done|]. intros Heq. by apply pack_key_inj in Heq as ->.
  - by rewrite om_get_insert_ne.
  - by rewrite om_get_insert_ne.
Qed.

Lemma shard_all_set pfx (Q Q' : list byte → nat → Prop) uk s i :
  shard_all pfx Q s → idx_prefix uk = pfx → Q' uk i →
  (∀ uk' j, uk' ≠ uk → Q uk' j → Q' uk' j) → shard_all pfx Q' (shard_set s pfx uk i).
Proof.
  intros Hs Hp HQ' Hmono. pose proof Hs as [H1 H2 H3 H4 H5].
  assert (∀ uk' j, slot pfx uk' (shard_set s pfx uk i) = Some j → idx_prefix uk' = pfx ∧ Q' uk' j) as Hslot.
  { intros uk' j Hj. destruct (decide (uk' = uk)) as [->|Hne].
    - rewrite (slot_set_eq _ Q) in Hj by done. injection Hj as <-. done.
    - rewrite (slot_set_ne _ Q) in Hj by done. apply (slot_all _ Q) in Hj as [? ?]; auto. }
  unfold shard_set, slot in Hslot. unfold shard_set.
  destruct (Nat.leb_spec (length uk) 32) as [Hl|Hl]; [destruct (point_cf pfx) eqn:Hcf|]; split; cbn;
    try done; try (by apply om_insert_sorted).
  - intros sk j Hj. split; [done|]. destruct (decide (sk = pack_key uk)) as [->|Hne].
    + rewrite lookup_insert_eq in Hj. injection Hj as <-. by exists uk.
    + rewrite lookup_insert_ne in Hj by done. apply H3 in Hj as [_ (uk' & ? & ? & -> & ?)].
      exists uk'. split_and!; try done. apply Hmono; [congruence|done].
  - intros sk j Hj. by apply H4 in Hj as [? _].
  - intros uk' j Hj. apply H5 in Hj as (? & ? & ?). split_and!; try done. apply Hmono; [intros ->; lia|done].
  - intros sk j Hj. by apply H3 in Hj as [? _].
  - intros sk j Hj. split; [done|]. destruct (decide (sk = pack_key uk)) as [->|Hne].
    + rewrite om_get_insert in Hj by done. injection Hj as <-. by exists uk.
    + rewrite om_get_insert_ne in Hj by done. apply H4 in Hj as [_ (uk' & ? & ? & -> & ?)].
      exists uk'. split_and!; try done. apply Hmono; [congruence|done].
  - intros uk' j Hj. apply H5 in Hj as (? & ? & ?). split_and!; try done. apply Hmono; [intros ->; lia|done].
  - intros sk j [? (uk' & ? & ? & -> & ?)]%H3. split; [done|]. exists uk'. split_and!; try done.
    apply Hmono; [intros ->; lia|done].
  - intros sk j [? (uk' & ? & ? & -> & ?)]%H4. split; [done|]. exists uk'. split_and!; try done.
    apply Hmono; [intros ->; lia|done].
  - intros uk' j Hj. destruct (decide (uk' = uk)) as [->|Hne].
    + rewrite om_get_insert in Hj by done. injection Hj as <-. done.
    + rewrite om_get_insert_ne in Hj by done. apply H5 in Hj as (? & ? & ?). auto.
Qed.

(** [shard_insert]: keep the indexed version if it is newer, else point the slot
    at the new one. *)
Lemma shard_insert_eq s bt live pfx uk tail seq i :
  shard_insert s bt live pfx uk tail seq i =
    if is_some_and (slot pfx uk s) (keep_newer tail seq) then (s, bt)
    else (shard_set s pfx uk i,
          if (length uk <=? 32)%nat && point_cf pfx
          then point_ord_btree_insert_at bt live pfx (pack_key uk) i else bt).
Proof.
  unfold shard_insert, slot, shard_set.
  destruct (_ <=? _)%nat; [destruct (point_cf pfx)|]; cbn [andb]; by destruct (is_some_and _ _).
Qed.

(** ** The index of a tail *)

(** Position [i] of the tail holds a version of [uk], as new as any there. *)
Definition newest_in (tail : list Version) (uk : list byte) (i : nat) : Prop :=
  ∃ v, tail !! i = Some v ∧ user_key v.1 = uk ∧
    ∀ w, w ∈ tail → user_key w.1 = uk → sequence w.1 ≤ sequence v.1.

Abbreviation TailIdx := (OrdMap (list byte) TailShard).

Record idx_ok (tail : list Version) (idx : TailIdx) : Prop := {
  io_sorted : om_sorted idx;
  io_sound pfx s : om_get pfx idx = Some s → shard_all pfx (newest_in tail) s;
  io_complete v : v ∈ tail →
    ∃ s i, om_get (idx_prefix (user_key v.1)) idx = Some s ∧
           slot (idx_prefix (user_key v.1)) (user_key v.1) s = Some i;
}.

(** A cached ordered copy holds the bindings of its shard's point map. *)
Record cache_ok (idx : TailIdx) (bt : OrdCache) (live : bool) : Prop := {
  co_sorted : om_sorted bt;
  co_live : live = false → bt = [];
  co_same pfx b : om_get pfx bt = Some b → om_sorted b ∧
    ∃ s, om_get pfx idx = Some s ∧ ∀ sk i, om_get sk b = Some i ↔ point s !! sk = Some i;
}.

Definition tail_idx_get (idx : TailIdx) (uk : list byte) : option nat :=
  s ← om_get (idx_prefix uk) idx; shard_lookup s uk.

Lemma idx_ok_nil : idx_ok [] [].
Proof. split; [constructor|done|]. intros v Hv. by apply not_elem_of_nil in Hv. Qed.

Lemma cache_ok_nil idx live : cache_ok idx [] live.
Proof. split; [constructor|done|done]. Qed.

Lemma tail_idx_get_Some tail idx uk i :
  idx_ok tail idx → tail_idx_get idx uk = Some i → newest_in tail uk i.
Proof.
  intros [_ Hsound _]. unfold tail_idx_get.
  destruct (om_get (idx_prefix uk) idx) as [s|] eqn:Es; [|done]. cbn.
  apply Hsound in Es. rewrite (shard_lookup_slot _ _ _ _ Es). intros Hs. by eapply slot_all.
Qed.

Lemma tail_idx_get_None tail idx uk v :
  idx_ok tail idx → tail_idx_get idx uk = None → v ∈ tail → user_key v.1 ≠ uk.
Proof.
  intros [_ Hsound Hcomp] Hnone Hv <-. destruct (Hcomp v Hv) as (s & i & Hs & Hi).
  unfold tail_idx_get in Hnone. rewrite Hs in Hnone. cbn in Hnone.
  rewrite (shard_lookup_slot _ _ _ _ (Hsound _ _ Hs)) in Hnone. congruence.
Qed.

(** One step of [tail_append], before the push. *)
Definition idx_append (tail : list Version) (idx : TailIdx) (bt : OrdCache) (live : bool)
    (key : InternalKey) : TailIdx * OrdCache :=
  let pfx := idx_prefix (user_key key) in
  let s := default shard_default (om_get pfx idx) in
  let '(s', bt') := shard_insert s bt live pfx (user_key key) tail (sequence key) (length tail) in
  (om_insert pfx s' idx, bt').

Lemma newest_in_keep tail uk i e :
  user_key e.1 ≠ uk ∨ (∀ v, tail !! i = Some v → sequence e.1 ≤ sequence v.1) →
  newest_in tail uk i → newest_in (tail ++ [e]) uk i.
Proof.
  intros Hle (v & Hi & Hu & Hv). exists v. split_and!; [by apply lookup_app_l_Some|done|].
  intros w [Hw| ->%list_elem_of_singleton]%elem_of_app Hwu; [by apply Hv|].
  destruct Hle as [Hle|Hle]; [done|by apply Hle].
Qed.

(** The step keeps a shard sound and covers the new version. *)
Lemma shard_append_ok tail e s bt live pfx s' bt' :
  pfx = idx_prefix (user_key e.1) → shard_all pfx (newest_in tail) s →
  (∀ v, v ∈ tail → user_key v.1 = user_key e.1 → is_Some (slot pfx (user_key e.1) s)) →
  shard_insert s bt live pfx (user_key e.1) tail (sequence e.1) (length tail) = (s', bt') →
  shard_all pfx (newest_in (tail ++ [e])) s' ∧ is_Some (slot pfx (user_key e.1) s') ∧
  (∀ uk, is_Some (slot pfx uk s) → is_Some (slot pfx uk s')).
Proof.
  intros Hpfx Hs Hcomp. rewrite shard_insert_eq.
  destruct (is_some_and (slot pfx (user_key e.1) s) _) eqn:Ek; intros [= <- <-].
  - destruct (slot pfx (user_key e.1) s) as [i|] eqn:Ei; [|done]. cbn in Ek.
    split_and!; [|by exists i|done].
    assert (∀ v, tail !! i = Some v → sequence e.1 ≤ sequence v.1) as Hold.
    { intros v Hv. unfold keep_newer in Ek. rewrite Hv in Ek. unfold ikey_seq_cmp in Ek.
      destruct (Z.compare_spec (sequence e.1) (sequence v.1)); [done|lia|done]. }
    destruct Hs as [H1 H2 H3 H4 H5]. pose proof (Build_shard_all pfx (newest_in tail) s H1 H2 H3 H4 H5) as Hs.
    assert (∀ uk j, slot pfx uk s = Some j → newest_in tail uk j → newest_in (tail ++ [e]) uk j) as Hkeep.
    { intros uk j Hj. apply newest_in_keep. destruct (decide (user_key e.1 = uk)) as [<-|?]; [|by left].
      right. assert (j = i) as -> by congruence. done. }
    split; [done|done| | |].
    + intros sk j Hj. destruct (H3 _ _ Hj) as [Hp (uk & Hl & ? & -> & ?)]. split; [done|].
      exists uk. split_and!; try done. apply Hkeep; [|done]. unfold slot.
      by rewrite (proj2 (Nat.leb_le _ _) Hl), Hp.
    + intros sk j Hj. destruct (H4 _ _ Hj) as [Hp (uk & Hl & ? & -> & ?)]. split; [done|].
      exists uk. split_and!; try done. apply Hkeep; [|done]. unfold slot.
      by rewrite (proj2 (Nat.leb_le _ _) Hl), Hp.
    + intros uk j Hj. destruct (H5 _ _ Hj) as (Hl & ? & ?). split_and!; try done.
      apply Hkeep; [|done]. unfold slot. by rewrite (proj2 (Nat.leb_gt _ _) Hl).
  - assert (newest_in (tail ++ [e]) (user_key e.1) (length tail)) as Hnew.
    { exists e. split_and!; [by rewrite lookup_app_r, Nat.sub_diag|done|].
      intros w [Hw| ->%list_elem_of_singleton]%elem_of_app Hwu; [|lia].
      destruct (Hcomp w Hw Hwu) as [i Hi]. rewrite Hi in Ek. cbn in Ek.
      destruct (slot_all _ _ _ _ _ Hs Hi) as [_ (v & Hv & _ & Hmax)]. specialize (Hmax w Hw Hwu).
      unfold keep_newer in Ek. rewrite Hv in Ek. unfold ikey_seq_cmp in Ek.
      destruct (Z.compare_spec (sequence e.1) (sequence v.1)); [lia|done|lia]. }
    split_and!.
    + eapply shard_all_set; [done|done|done|]. intros uk' j Hne HQ.
      apply newest_in_keep; [by left|done].
    + exists (length tail). by eapply slot_set_eq.
    + intros uk [j Hj]. destruct (decide (uk = user_key e.1)) as [->|Hne].
      * exists (length tail). by eapply slot_set_eq.
      * exists j. by erewrite slot_set_ne.
Qed.

Lemma idx_append_ok tail idx bt live e idx' bt' :
  idx_ok tail idx → cache_ok idx bt live →
  idx_append tail idx bt live e.1 = (idx', bt') →
  idx_ok (tail ++ [e]) idx' ∧ cache_ok idx' bt' live.
Proof.
  intros Hok Hcache. unfold idx_append. set (pfx := idx_prefix (user_key e.1)).
  set (s := default shard_default (om_get pfx idx)).
  destruct (shard_insert s bt live pfx (user_key e.1) tail (sequence e.1) (length tail)) as [s' b'] eqn:Ei.
  intros [= <- <-]. destruct Hok as [Hsort Hsound Hcomp].
  assert (shard_all pfx (newest_in tail) s) as Hs.
  { unfold s. destruct (om_get pfx idx) as [s0|] eqn:E0; cbn; [by apply Hsound|apply shard_all_default]. }
  assert (∀ v, v ∈ tail → idx_prefix (user_key v.1) = pfx → is_Some (slot pfx (user_key v.1) s)) as Hin.
  { intros v Hv Hp. destruct (Hcomp v Hv) as (s0 & i & Hs0 & Hi). rewrite Hp in Hs0, Hi.
    unfold s. rewrite Hs0. by exists i. }
  destruct (shard_append_ok tail e s bt live pfx s' b') as (Hs' & Hslot & Hmono); [done|done| |done|].
  { intros v Hv Hu. rewrite <-Hu. apply Hin; [done|]. unfold pfx. by rewrite Hu. }
  split.
  - split; [by apply om_insert_sorted| |].
    + intros p s0 Hp. destruct (decide (p = pfx)) as [->|Hne].
      * rewrite om_get_insert in Hp by done. by injection Hp as <-.
      * rewrite om_get_insert_ne in Hp by done. apply Hsound in Hp as HQ.
        pose proof HQ as HQ'. destruct HQ as [H1 H2 H3 H4 H5].
        assert (∀ uk j, idx_prefix uk = p → newest_in tail uk j → newest_in (tail ++ [e]) uk j) as Hk.
        { intros uk j Hup. apply newest_in_keep. left. intros <-. by apply Hne. }
        split; [done|done| | |].
        -- intros sk j [? (uk & ? & ? & ? & ?)]%H3. split; [done|]. exists uk. auto.
        -- intros sk j [? (uk & ? & ? & ? & ?)]%H4. split; [done|]. exists uk. auto.
        -- intros uk j (? & ? & ?)%H5. auto.
    + intros v Hv. destruct (decide (idx_prefix (user_key v.1) = pfx)) as [Hp|Hp].
      * rewrite Hp, om_get_insert by done. exists s'.
        assert (is_Some (slot pfx (user_key v.1) s')) as [i ?]; [|by exists i].
        apply elem_of_app in Hv as [Hv| ->%list_elem_of_singleton]; [|done]. apply Hmono, Hin; done.
      * rewrite om_get_insert_ne by done.
        apply elem_of_app in Hv as [Hv| ->%list_elem_of_singleton]; [by apply Hcomp|done].
  - destruct Hcache as [Hcs Hcl Hcsame]. rewrite shard_insert_eq in Ei.
    assert (∀ p b, p ≠ pfx → om_get p bt = Some b → om_sorted b ∧ ∃ s0, om_get p (om_insert pfx s' idx) = Some s0 ∧
              ∀ sk i, om_get sk b = Some i ↔ point s0 !! sk = Some i) as Hother.
    { intros p b Hne Hb. destruct (Hcsame p b Hb) as [? (s0 & Hs0 & ?)]. split; [done|].
      exists s0. by rewrite om_get_insert_ne. }
    assert (∀ b, om_get pfx bt = Some b → om_sorted b ∧
              ∀ sk i, om_get sk b = Some i ↔ point s !! sk = Some i) as Hmine.
    { intros b Hb. destruct (Hcsame pfx b Hb) as [? (s0 & Hs0 & ?)]. split; [done|].
      unfold s. by rewrite Hs0. }
    destruct (is_some_and (slot pfx (user_key e.1) s) _);
      [|destruct ((length (user_key e.1) <=? 32)%nat && point_cf pfx) eqn:Epoint]; injection Ei as <- <-.
    + split; [done|done|]. intros p b Hb. destruct (decide (p = pfx)) as [->|Hne]; [|by apply Hother].
      apply Hmine in Hb as [? ?]. split; [done|]. exists s. by rewrite om_get_insert.
    + apply andb_true_iff in Epoint as [Hl Hcf]. unfold point_ord_btree_insert_at. destruct live; cbn [negb].
      * destruct (om_get pfx bt) as [b|] eqn:Eb.
        -- destruct (Hmine b eq_refl) as [Hbs Hb]. split; [by apply om_insert_sorted|done|].
           intros p b0 Hb0. destruct (decide (p = pfx)) as [->|Hne].
           ++ rewrite om_get_insert in Hb0 by done. injection Hb0 as <-. split; [by apply om_insert_sorted|].
              eexists. rewrite om_get_insert by done. split; [done|]. intros sk i.
              unfold shard_set. rewrite Hl, Hcf. cbn [point].
              destruct (decide (sk = pack_key (user_key e.1))) as [->|Hne].
              ** by rewrite om_get_insert, lookup_insert_eq.
              ** by rewrite om_get_insert_ne, lookup_insert_ne.
           ++ rewrite om_get_insert_ne in Hb0 by done. by apply Hother.
        -- split; [done|done|]. intros p b Hb.
           destruct (decide (p = pfx)) as [->|Hne]; [congruence|by apply Hother].
      * rewrite (Hcl eq_refl). apply cache_ok_nil.
    + split; [done|done|]. intros p b Hb. destruct (decide (p = pfx)) as [->|Hne]; [|by apply Hother].
      apply Hmine in Hb as [? ?]. split; [done|]. eexists. rewrite om_get_insert by done. split; [done|].
      unfold shard_set. destruct (_ <=? _)%nat; [|done]. cbn in Epoint. by rewrite Epoint.
Qed.
