(* ===== verification/MemTable.v ===== *)
(** The in-memory write buffer ([memtable_kernel.rs]): a map from user keys to
    their versions, an append-only tail with its index, and size counters.

    Counters are [usize] with the saturating arithmetic of the code. The ordered
    copies of the point shards are the field [point_ord_btree] with its live
    flag; the probe counters and the dead [tail_ord] cache are left out. *)

From S2P Require Import Prelude ErrorKernel KeyKernel Visibility OrdMap MemIndex.

Local Open Scope Z_scope.

Inductive Lookup := Found (v : list byte) | Deleted | NotFound.

(** [One] is the common case; [Many] keeps the newest first. *)
Inductive Versions := One (v : Version) | Many (vs : list Version).

(** [Versions::iter]. *)
Definition vers_list (vers : Versions) : list Version :=
  match vers with One v => [v] | Many vs => vs end.

Record Dropped := mkDropped { dr_versions : Z; dr_bytes : Z }.
Definition dropped_default : Dropped := mkDropped 0 0.

Record SpanState := mkSpan { impure : bool; lo : list byte; hi : list byte }.
Definition span_default : SpanState := mkSpan false [] [].

Inductive BulkSpan := Absent | Pure (lo hi : list byte) | Impure | Unknown.

Record MemTable := mkMem {
  map : OrdMap (list byte) Versions;
  tail : list Version;
  tail_idx : OrdMap (list byte) TailShard;
  point_ord_btree : OrdCache;
  point_ord_btree_live : bool;
  tail_max_seq : Z;
  tail_ord_stale : bool;
  approx_bytes : Z;
  cf_bytes : OrdMap (list byte) Z;
  cf_span : OrdMap (list byte) SpanState;
  span_stale : bool;
  range_tombstones : Z;
  entries : Z;
}.

Definition mem_new : MemTable := mkMem [] [] [] [] false 0 false 0 [] [] false 0 0.

(** Updates of groups of fields. *)
Definition set_map (m : MemTable) map' : MemTable :=
  mkMem map' (tail m) (tail_idx m) (point_ord_btree m) (point_ord_btree_live m) (tail_max_seq m)
    (tail_ord_stale m) (approx_bytes m) (cf_bytes m) (cf_span m) (span_stale m) (range_tombstones m) (entries m).
Definition set_counts (m : MemTable) (approx range_tombs n : Z) : MemTable :=
  mkMem (map m) (tail m) (tail_idx m) (point_ord_btree m) (point_ord_btree_live m) (tail_max_seq m)
    (tail_ord_stale m) approx (cf_bytes m) (cf_span m) (span_stale m) range_tombs n.
Definition set_tail (m : MemTable) tail' idx bt live max_seq : MemTable :=
  mkMem (map m) tail' idx bt live max_seq true (approx_bytes m) (cf_bytes m) (cf_span m)
    (span_stale m) (range_tombstones m) (entries m).
Definition set_cf_bytes (m : MemTable) cf : MemTable :=
  mkMem (map m) (tail m) (tail_idx m) (point_ord_btree m) (point_ord_btree_live m) (tail_max_seq m)
    (tail_ord_stale m) (approx_bytes m) cf (cf_span m) (span_stale m) (range_tombstones m) (entries m).
Definition set_span (m : MemTable) span stale : MemTable :=
  mkMem (map m) (tail m) (tail_idx m) (point_ord_btree m) (point_ord_btree_live m) (tail_max_seq m)
    (tail_ord_stale m) (approx_bytes m) (cf_bytes m) span stale (range_tombstones m) (entries m).

(** * Version order *)

Definition version_newer (a b : Version) : bool :=
  match ikey_seq_cmp (sequence a.1) (sequence b.1) with
  | Lt => true
  | Gt => false
  | Eq => as_u8 (kind b.1) <? as_u8 (kind a.1)
  end.

Definition ver_cmp (a_seq : Z) (a_kind : ValueType) (b_seq : Z) (b_kind : ValueType) : comparison :=
  match ikey_seq_cmp a_seq b_seq with
  | Eq => as_u8 b_kind ?= as_u8 a_kind
  | o => o
  end.

(** [key.user_key.len() + value.len() + 8]. *)
Definition entry_bytes (e : Version) : Z :=
  Z.of_nat (length (user_key e.1)) + Z.of_nat (length e.2) + 8.

Definition is_rd (e : Version) : bool := bool_decide (kind e.1 = RangeDeletion).

(** [saturating_add(1)] under a condition. *)
Definition sat_add_if (b : bool) (n : Z) : Z := if b then sat_add n 1 else n.
Definition sat_sub_if (b : bool) (n : Z) : Z := if b then sat_sub n 1 else n.

(** * Per-family accounting *)

Definition bump_cf_bytes_map (cf : OrdMap (list byte) Z) (uk : list byte) (n : Z) (add : bool)
    : OrdMap (list byte) Z :=
  let p := cf_prefix uk in
  match om_get p cf with
  | Some slot => om_insert p (if add then sat_add slot n else sat_sub slot n) cf
  | None => if add && negb (n =? 0) then om_insert p n cf else cf
  end.

Definition approx_memory_usage_cf (m : MemTable) (family : list byte) : Z :=
  if bytes_eqb family DEFAULT then
    sat_add (default 0 (om_get [] (cf_bytes m))) (default 0 (om_get DEFAULT (cf_bytes m)))
  else default 0 (om_get family (cf_bytes m)).

Definition bump_span (m : MemTable) (uk : list byte) (k : ValueType) : MemTable :=
  if span_stale m then m
  else
    let pfx := cf_prefix uk in
    match om_get pfx (cf_span m) with
    | Some s =>
        if impure s then m
        else if bool_decide (k ≠ Value) || bytes_leb uk (hi s)
        then set_span m (om_insert pfx (mkSpan true [] []) (cf_span m)) (span_stale m)
        else set_span m (om_insert pfx (mkSpan (impure s) (lo s) uk) (cf_span m)) (span_stale m)
    | None =>
        let s := if bool_decide (k = Value) then mkSpan false uk uk else mkSpan true [] [] in
        set_span m (om_insert pfx s (cf_span m)) (span_stale m)
    end.

Definition bulk_span (m : MemTable) (family : list byte) : BulkSpan :=
  let of_state s := if impure s then Impure else Pure (lo s) (hi s) in
  if span_stale m || bytes_eqb family [] || existsb (λ b, bool_decide (b = NUL)) family then Unknown
  else if bytes_eqb family DEFAULT then
    match om_get [] (cf_span m), om_get DEFAULT (cf_span m) with
    | Some _, Some _ => Impure
    | Some s, None | None, Some s => of_state s
    | None, None => Absent
    end
  else match om_get family (cf_span m) with
       | Some s => of_state s
       | None => Absent
       end.

(** * Writes *)

Definition tail_append (m : MemTable) (key : InternalKey) (value : list byte) : MemTable :=
  let '(idx, bt) := idx_append (tail m) (tail_idx m) (point_ord_btree m) (point_ord_btree_live m) key in
  mkMem (map m) (tail m ++ [(key, value)]) idx bt (point_ord_btree_live m) (tail_max_seq m)
    (tail_ord_stale m) (approx_bytes m) (cf_bytes m) (cf_span m) (span_stale m) (range_tombstones m) (entries m).

(** [tail.last_mut()] with the same internal key: its value is replaced. *)
Definition replace_last (m : MemTable) (old : Version) (value : list byte) : MemTable :=
  let old_n := Z.of_nat (length old.2) in
  let new_n := Z.of_nat (length value) in
  let cf := if old_n <=? new_n
            then bump_cf_bytes_map (cf_bytes m) (user_key old.1) (new_n - old_n) true
            else bump_cf_bytes_map (cf_bytes m) (user_key old.1) (old_n - new_n) false in
  mkMem (map m) (<[(length (tail m) - 1)%nat := (old.1, value)]> (tail m)) (tail_idx m)
    (point_ord_btree m) (point_ord_btree_live m) (tail_max_seq m) (tail_ord_stale m)
    (sat_add (sat_sub (approx_bytes m) old_n) new_n) cf (cf_span m) (span_stale m)
    (range_tombstones m) (entries m).

Definition insert_fresh (m : MemTable) (key : InternalKey) (value : list byte) : MemTable :=
  let m := set_counts m (sat_add (approx_bytes m) (entry_bytes (key, value)))
             (range_tombstones m) (sat_add (entries m) 1) in
  let m := set_cf_bytes m (bump_cf_bytes_map (cf_bytes m) (user_key key) (entry_bytes (key, value)) true) in
  let m := bump_span m (user_key key) (kind key) in
  let m := set_counts m (approx_bytes m)
             (sat_add_if (is_rd (key, value)) (range_tombstones m)) (entries m) in
  let m := set_tail m (tail m) (tail_idx m) (point_ord_btree m) (point_ord_btree_live m)
             (Z.max (tail_max_seq m) (sequence key)) in
  tail_append m key value.

Definition insert (m : MemTable) (key : InternalKey) (value : list byte) : MemTable :=
  match last (tail m) with
  | Some v => if bool_decide (v.1 = key) then replace_last m v value else insert_fresh m key value
  | None => insert_fresh m key value
  end.

Definition put (m : MemTable) (uk : list byte) (seq : Z) (value : list byte) : MemTable :=
  insert m (mkIKey uk seq Value) value.
Definition delete (m : MemTable) (uk : list byte) (seq : Z) : MemTable :=
  insert m (mkIKey uk seq Deletion) [].
Definition delete_range (m : MemTable) (start end_ : list byte) (seq : Z) : MemTable :=
  insert m (mkIKey start seq RangeDeletion) end_.

(** * Spilling the tail into the map *)

(** [while lo < hi]: the first index in [lo, hi) where [p] fails, when [p]
    holds on a prefix. *)
Fixpoint bsearch (fuel : nat) (p : nat → bool) (lo hi : nat) : nat :=
  match fuel with
  | O => lo
  | S n =>
      if (lo <? hi)%nat then
        let mid := (lo + (hi - lo) / 2)%nat in
        if p mid then bsearch n p (S mid) hi else bsearch n p lo mid
      else lo
  end.
Definition partition_point (p : nat → bool) (len : nat) : nat := bsearch len p 0 len.

(** The run of versions with the sequence of [vs[lo]]. *)
Fixpoint keep_run (fuel : nat) (vs : list Version) (seq : Z) (keep : nat) : nat :=
  match fuel with
  | O => keep
  | S n =>
      match vs !! S keep with
      | Some v => if sequence v.1 =? seq then keep_run n vs seq (S keep) else keep
      | None => keep
      end
  end.

(** The drained suffix: range deletions go back, points are counted. *)
Fixpoint drop_suffix (suffix vs : list Version) (dropped : Dropped) : list Version * Dropped :=
  match suffix with
  | [] => (vs, dropped)
  | v :: suffix =>
      if is_rd v then drop_suffix suffix (vs ++ [v]) dropped
      else drop_suffix suffix vs
             (mkDropped (dr_versions dropped + 1) (dr_bytes dropped + entry_bytes v))
  end.

Definition gc_below_floor (vs : list Version) (floor : Z) (dropped : Dropped)
    : list Version * Dropped :=
  let p i := match vs !! i with Some v => floor <? sequence v.1 | None => false end in
  let lo := partition_point p (length vs) in
  match vs !! lo with
  | None => (vs, dropped)
  | Some v =>
      let keep := keep_run (length vs) vs (sequence v.1) lo in
      if (length vs <=? keep + 1)%nat then (vs, dropped)
      else drop_suffix (drop (keep + 1) vs) (take (keep + 1) vs) dropped
  end.

Definition gc_opt (vs : list Version) (floor : option Z) (dropped : Dropped)
    : list Version * Dropped :=
  match floor with
  | Some f => gc_below_floor vs f dropped
  | None => (vs, dropped)
  end.

(** [insert_into]: the new versions, whether one was added, the bytes counter
    and what the collection dropped. *)
Definition insert_into (vers : Versions) (key : InternalKey) (value : list byte) (bytes approx : Z)
    (floor : option Z) (dropped : Dropped) : Versions * bool * Z * Dropped :=
  match vers with
  | One existing =>
      if bool_decide (sequence existing.1 = sequence key ∧ kind existing.1 = kind key) then
        (One (existing.1, value), false,
         sat_add (sat_sub approx (Z.of_nat (length existing.2))) (Z.of_nat (length value)), dropped)
      else
        let existing_newer :=
          match ver_cmp (sequence existing.1) (kind existing.1) (sequence key) (kind key) with
          | Lt => true | _ => false end in
        let vs := if existing_newer then [existing; (key, value)] else [(key, value); existing] in
        let '(vs, dropped) := gc_opt vs floor dropped in
        (match vs with [] => Many [] | [v] => One v | _ => Many vs end,
         true, sat_add approx bytes, dropped)
  | Many vs =>
      let newer i :=
        match vs !! i with
        | Some v => match ver_cmp (sequence v.1) (kind v.1) (sequence key) (kind key) with
                    | Lt => true | _ => false end
        | None => false
        end in
      let lo := partition_point newer (length vs) in
      let '(vs, added, approx) :=
        match vs !! lo with
        | Some v =>
            if bool_decide (sequence v.1 = sequence key ∧ kind v.1 = kind key) then
              (<[lo := (v.1, value)]> vs, false,
               sat_add (sat_sub approx (Z.of_nat (length v.2))) (Z.of_nat (length value)))
            else (take lo vs ++ (key, value) :: drop lo vs, true, sat_add approx bytes)
        | None => (take lo vs ++ (key, value) :: drop lo vs, true, sat_add approx bytes)
        end in
      let '(vs, dropped) := gc_opt vs floor dropped in
      (match vs with [v] => One v | _ => Many vs end, added, approx, dropped)
  end.

(** The [Occupied] arm shared by [insert_map_gc] and [absorb_with_floor]. *)
Definition insert_occupied (m : MemTable) (uk : list byte) (vers : Versions) (e : Version)
    (floor : option Z) : MemTable :=
  let '(vers', added, approx, dropped) :=
    insert_into vers e.1 e.2 (entry_bytes e) (approx_bytes m) floor dropped_default in
  set_counts (set_map m (om_insert uk vers' (map m)))
    (sat_sub approx (dr_bytes dropped))
    (sat_add_if (added && is_rd e) (range_tombstones m))
    (sat_sub (sat_add_if added (entries m)) (dr_versions dropped)).

Definition insert_map_gc (m : MemTable) (key : InternalKey) (value : list byte) (floor : option Z)
    : MemTable :=
  let e := (key, value) in
  match om_get (user_key key) (map m) with
  | None =>
      set_counts (set_map m (om_insert (user_key key) (One e) (map m)))
        (sat_add (approx_bytes m) (entry_bytes e))
        (sat_add_if (is_rd e) (range_tombstones m)) (sat_add (entries m) 1)
  | Some vers => insert_occupied m (user_key key) vers e floor
  end.

Definition spill_step (floor : option Z) (m : MemTable) (v : Version) : MemTable :=
  let m := set_counts m (sat_sub (approx_bytes m) (entry_bytes v))
             (sat_sub_if (is_rd v) (range_tombstones m)) (sat_sub (entries m) 1) in
  insert_map_gc m v.1 v.2 floor.

Definition spill_tail_with_gc (m : MemTable) (floor : option Z) : MemTable :=
  foldl (spill_step floor) (set_tail m [] [] [] false 0) (tail m).

Definition spill_tail (m : MemTable) : MemTable := spill_tail_with_gc m None.

(** * Invariant *)

(** Every version the table holds. *)
Definition map_entries (m : MemTable) : list entry := mjoin ((λ kv, vers_list kv.2) <$> map m).
Definition mem_entries (m : MemTable) : list entry := map_entries m ++ tail m.

Definition total_bytes (l : list entry) : Z := foldr (λ e n, entry_bytes e + n) 0 l.
Definition rd_count (l : list entry) : Z := Z.of_nat (length (filter (λ e, is_rd e = true) l)).

(** No two versions of a key share a sequence: the writer draws a fresh sequence
    for every operation. *)
Definition uniq (l : list entry) : Prop := NoDup ((λ e : entry, (user_key e.1, sequence e.1)) <$> l).

(** The versions of a key, newest first. *)
Record vers_ok (uk : list byte) (vs : list Version) : Prop := {
  vo_sorted : StronglySorted ikey_lt vs.*1;
  vo_user v : v ∈ vs → user_key v.1 = uk;
  vo_some : vs ≠ [];
}.

(** The counters measure the versions [l]. *)
Record counts_ok (m : MemTable) (l : list entry) : Prop := {
  ct_entries : entries m = Z.of_nat (length l);
  ct_bytes : approx_bytes m = total_bytes l;
  ct_rds : range_tombstones m = rd_count l;
}.

Record map_ok (m : MemTable) : Prop := {
  mo_sorted : om_sorted (map m);
  mo_vers uk vers : (uk, vers) ∈ map m → vers_ok uk (vers_list vers);
}.

Record mem_ok (m : MemTable) : Prop := {
  mo_map : map_ok m;
  mo_uniq : uniq (mem_entries m);
  mo_idx : idx_ok (tail m) (tail_idx m);
  mo_cache : cache_ok (tail_idx m) (point_ord_btree m) (point_ord_btree_live m);
  mo_max v : v ∈ tail m → sequence v.1 ≤ tail_max_seq m;
  mo_counts : counts_ok m (mem_entries m);
  mo_room : total_bytes (mem_entries m) ≤ U64_MAX;
}.

(** [gc_rel floor l l']: [l'] is what a collection under [floor] may leave of
    [l]: nothing new, every range deletion, and every dropped version is older
    than a kept one at or below the floor. *)
Record gc_rel (floor : option Z) (l l' : list entry) : Prop := {
  gr_sub : l' ⊆+ l;
  gr_rds e : e ∈ l → kind e.1 = RangeDeletion → e ∈ l';
  gr_shadow e : e ∈ l → e ∈ l' ∨
    ∃ e' f, e' ∈ l' ∧ floor = Some f ∧ user_key e'.1 = user_key e.1 ∧
            sequence e.1 < sequence e'.1 ≤ f;
}.

(** * Lemmas *)

(** ** Sums over versions *)

#[export] Instance total_bytes_perm : Proper ((≡ₚ) ==> (=)) total_bytes.
Proof. intros a b Hab. unfold total_bytes. induction Hab; cbn; lia. Qed.

#[export] Instance rd_count_perm : Proper ((≡ₚ) ==> (=)) rd_count.
Proof. intros a b Hab. unfold rd_count. by rewrite Hab. Qed.

#[export] Instance counts_ok_perm m : Proper ((≡ₚ) ==> iff) (counts_ok m).
Proof.
  assert (∀ a b, a ≡ₚ b → counts_ok m a → counts_ok m b) as Hgo.
  { intros a b Hab [H1 H2 H3]. split; by rewrite <-Hab. }
  intros a b Hab. split; by apply Hgo.
Qed.

#[export] Instance uniq_perm : Proper ((≡ₚ) ==> iff) uniq.
Proof. intros a b Hab. unfold uniq. by rewrite Hab. Qed.

Lemma total_bytes_app a b : total_bytes (a ++ b) = total_bytes a + total_bytes b.
Proof. unfold total_bytes. induction a as [|x a IH]; cbn; lia. Qed.

Lemma total_bytes_cons e l : total_bytes (e :: l) = entry_bytes e + total_bytes l.
Proof. done. Qed.

Lemma entry_bytes_pos e : 8 ≤ entry_bytes e.
Proof. unfold entry_bytes. lia. Qed.

Lemma total_bytes_length l : 8 * Z.of_nat (length l) ≤ total_bytes l.
Proof. unfold total_bytes. induction l as [|e l IH]; cbn [foldr length]; [lia|]. pose proof (entry_bytes_pos e). lia. Qed.

Lemma rd_count_cons e l : rd_count (e :: l) = (if is_rd e then 1 else 0) + rd_count l.
Proof. unfold rd_count. rewrite filter_cons. destruct (is_rd e); cbn; case_decide; cbn [length]; (lia || done). Qed.

Lemma rd_count_app a b : rd_count (a ++ b) = rd_count a + rd_count b.
Proof. unfold rd_count. rewrite filter_app, length_app. lia. Qed.

Lemma rd_count_bound l : 0 ≤ rd_count l ≤ Z.of_nat (length l).
Proof. unfold rd_count. pose proof (length_filter (λ e, is_rd e = true) l). lia. Qed.

Lemma uniq_same l e e' :
  uniq l → e ∈ l → e' ∈ l → user_key e.1 = user_key e'.1 → sequence e.1 = sequence e'.1 → e = e'.
Proof.
  intros Hu He He' Hk Hs. apply list_elem_of_lookup in He as [i Hi], He' as [j Hj].
  assert (i = j) as ->; [|congruence].
  eapply (NoDup_lookup _ i j _ Hu); rewrite list_lookup_fmap; [by rewrite Hi|].
  rewrite Hj. cbn. by rewrite Hk, Hs.
Qed.

Lemma uniq_sub a b : uniq b → a ⊆+ b → uniq a.
Proof.
  intros Hb [r Hr]%submseteq_Permutation. rewrite Hr in Hb. unfold uniq in *.
  rewrite fmap_app in Hb. by apply NoDup_app in Hb as [? _].
Qed.

(** ** Collection as a relation *)

Lemma gc_rel_refl floor l : gc_rel floor l l.
Proof. split; [done|done|by left]. Qed.

Lemma gc_rel_trans floor a b c : gc_rel floor a b → gc_rel floor b c → gc_rel floor a c.
Proof.
  intros [H1 H2 H3] [H4 H5 H6]. split.
  - by etrans.
  - intros e He Hk. apply H5; [by apply H2|done].
  - intros e He. destruct (H3 e He) as [Hb|(e' & f & He' & Hf & Hu & Hs)]; [by apply H6|].
    right. destruct (H6 e' He') as [Hc|(e'' & f' & Hc & Hf' & Hu' & Hs')]; [by exists e', f|].
    exists e'', f'. split_and!; [done|done|congruence|lia|lia].
Qed.

Lemma gc_rel_app floor a a' r : gc_rel floor a a' → gc_rel floor (a ++ r) (a' ++ r).
Proof.
  intros [H1 H2 H3]. split.
  - by apply submseteq_skips_r.
  - intros e He Hk. apply elem_of_app in He as [He|He]; apply elem_of_app; auto.
  - intros e He. apply elem_of_app in He as [He|He]; [|left; apply elem_of_app; auto].
    destruct (H3 e He) as [?|(e' & f & ? & ?)]; [left; apply elem_of_app; auto|].
    right. exists e', f. split; [apply elem_of_app; auto|done].
Qed.

#[export] Instance gc_rel_perm floor : Proper ((≡ₚ) ==> (≡ₚ) ==> iff) (gc_rel floor).
Proof.
  assert (∀ a b a' b', a ≡ₚ b → a' ≡ₚ b' → gc_rel floor a a' → gc_rel floor b b') as Hgo.
  { intros a b a' b' Ha Hb [H1 H2 H3]. split.
    - by rewrite <-Ha, <-Hb.
    - intros e. rewrite <-Ha, <-Hb. apply H2.
    - intros e. rewrite <-Ha, <-Hb. setoid_rewrite <-Hb. apply H3. }
  intros a b Ha a' b' Hb. split; by apply Hgo.
Qed.

(** ** Binary search *)

Lemma bsearch_spec fuel p n lo hi :
  (hi - lo ≤ fuel)%nat → (lo ≤ n ≤ hi)%nat →
  (∀ i, (lo ≤ i < hi)%nat → p i = (i <? n)%nat) → bsearch fuel p lo hi = n.
Proof.
  revert lo hi. induction fuel as [|fuel IH]; intros lo hi Hf Hn Hp; cbn [bsearch]; [lia|].
  destruct (Nat.ltb_spec lo hi) as [Hlt|]; [|lia].
  pose proof (Nat.div_lt (hi - lo) 2 ltac:(lia) ltac:(lia)) as Hmid.
  set (mid := (lo + (hi - lo) / 2)%nat) in *. rewrite (Hp mid) by lia.
  destruct (Nat.ltb_spec mid n); apply IH; try lia; intros i Hi; apply Hp; lia.
Qed.

(** On a list split by [P], the search finds the split. *)
Lemma partition_point_split (P : Version → bool) a b :
  Forall (λ v, P v = true) a → Forall (λ v, P v = false) b →
  partition_point (λ i, match (a ++ b) !! i with Some v => P v | None => false end) (length (a ++ b))
    = length a.
Proof.
  intros Ha Hb. unfold partition_point. apply bsearch_spec; [lia|rewrite length_app; lia|].
  intros i Hi. destruct (Nat.ltb_spec i (length a)) as [Hlt|Hge].
  - rewrite lookup_app_l by lia. destruct (lookup_lt_is_Some_2 a i Hlt) as [v Hv]. rewrite Hv.
    rewrite Forall_lookup in Ha. by eapply Ha.
  - rewrite lookup_app_r by lia. destruct (b !! (i - length a)%nat) as [v|] eqn:Hv; [|done].
    rewrite Forall_lookup in Hb. by eapply Hb.
Qed.

(** A monotone test splits a sorted list. *)
Lemma sorted_split (P : Version → bool) (R : InternalKey → InternalKey → Prop) vs :
  StronglySorted R vs.*1 → (∀ x y, x ∈ vs → y ∈ vs → R x.1 y.1 → P y = true → P x = true) →
  ∃ a b, vs = a ++ b ∧ Forall (λ v, P v = true) a ∧ Forall (λ v, P v = false) b.
Proof.
  induction vs as [|x vs IH]; intros Hs HP; [by exists [], []|]. cbn in Hs.
  apply StronglySorted_inv in Hs as [Hs Hx]. destruct (P x) eqn:E.
  - destruct IH as (a & b & -> & Ha & Hb); [done|set_solver|]. exists (x :: a), b. auto.
  - exists [], (x :: vs). split_and!; [done|constructor|]. constructor; [done|].
    rewrite Forall_forall in Hx. apply Forall_forall. intros y Hy.
    destruct (P y) eqn:Ey; [|done]. rewrite <-E. symmetry.
    apply (HP x y); [set_solver|set_solver| |done]. apply Hx. by apply list_elem_of_fmap_2.
Qed.

(** ** Collection below the floor *)

Lemma drop_suffix_spec suffix vs d :
  drop_suffix suffix vs d =
    (vs ++ filter (λ e, is_rd e = true) suffix,
     mkDropped (dr_versions d + Z.of_nat (length (filter (λ e, is_rd e ≠ true) suffix)))
               (dr_bytes d + total_bytes (filter (λ e, is_rd e ≠ true) suffix))).
Proof.
  revert vs d. induction suffix as [|v suffix IH]; intros vs d; cbn [drop_suffix].
  - rewrite app_nil_r. destruct d. cbn. do 2 f_equal; lia.
  - rewrite !filter_cons. destruct (is_rd v) eqn:E; rewrite IH; cbn [dr_versions dr_bytes].
    + rewrite !decide_True by done. rewrite decide_False by (intros H; by apply H).
      by rewrite <-app_assoc.
    + rewrite decide_False by done. rewrite decide_True by done. cbn [length].
      rewrite total_bytes_cons. do 2 f_equal; lia.
Qed.

Lemma total_bytes_filter (P : entry → Prop) `{∀ e, Decision (P e)} l :
  total_bytes l = total_bytes (filter P l) + total_bytes (filter (λ e, ¬ P e) l).
Proof. rewrite <-total_bytes_app. by rewrite filter_app_complement. Qed.

Lemma keep_run_ge fuel vs seq keep : (keep ≤ keep_run fuel vs seq keep)%nat.
Proof.
  revert keep. induction fuel as [|fuel IH]; intros keep; cbn [keep_run]; [done|].
  destruct (vs !! S keep) as [v|]; [|done]. destruct (_ =? _); [|done]. specialize (IH (S keep)). lia.
Qed.

(** The run covers every version with its sequence. *)
Lemma keep_run_after fuel vs seq keep v i :
  StronglySorted (λ a b : Version, sequence b.1 ≤ sequence a.1) vs →
  (∃ w, vs !! keep = Some w ∧ sequence w.1 = seq) → (length vs ≤ fuel + keep)%nat →
  vs !! i = Some v → (keep_run fuel vs seq keep < i)%nat → sequence v.1 < seq.
Proof.
  intros Hs. revert keep. induction fuel as [|fuel IH]; intros keep (w & Hw & Hseq) Hf Hi Hlt.
  { apply lookup_lt_Some in Hw. lia. }
  cbn [keep_run] in Hlt.
  assert (∀ j a b, (j < i)%nat → vs !! j = Some a → vs !! i = Some b → sequence b.1 ≤ sequence a.1) as Hle.
  { intros j a b Hj Ha Hb. by apply (sorted_lookup _ vs j i a b Hs). }
  destruct (vs !! S keep) as [x|] eqn:Hx.
  - destruct (Z.eqb_spec (sequence x.1) seq) as [Hxs|Hxs].
    + apply (IH (S keep)); [by exists x|lia|done|done].
    + assert (sequence x.1 ≤ seq) as Hxle.
      { rewrite <-Hseq. apply (sorted_lookup _ vs keep (S keep) w x Hs); [lia|done|done]. }
      destruct (decide (i = S keep)) as [->|]; [assert (v = x) by congruence; subst; lia|].
      specialize (Hle (S keep) x v ltac:(lia) Hx Hi). lia.
  - apply lookup_lt_Some in Hi. apply lookup_ge_None in Hx. lia.
Qed.

Lemma vers_seq_sorted uk vs :
  vers_ok uk vs → StronglySorted (λ a b : Version, sequence b.1 ≤ sequence a.1) vs.
Proof.
  intros [Hs Hu _]. induction vs as [|x vs IH]; [constructor|]. cbn in Hs.
  apply StronglySorted_inv in Hs as [Hs Hx]. constructor; [apply IH; set_solver|].
  rewrite Forall_forall in Hx. apply Forall_forall. intros y Hy.
  assert (ikey_lt x.1 y.1) as Hlt by (apply Hx; by apply list_elem_of_fmap_2).
  apply ikey_lt_iff in Hlt. rewrite (Hu x), (Hu y) in Hlt by set_solver.
  destruct Hlt as [Hlt|[_ [?|[? _]]]]; [by apply bytes_lt_irrefl in Hlt|lia|lia].
Qed.

(** What a collection leaves, with its accounting. *)
Record collected (uk : list byte) (floor : option Z) (vs vs' : list Version) (d d' : Dropped) : Prop := {
  cl_vers : vers_ok uk vs';
  cl_rel : gc_rel floor vs vs';
  cl_versions : dr_versions d' = dr_versions d + (Z.of_nat (length vs) - Z.of_nat (length vs'));
  cl_bytes : dr_bytes d' = dr_bytes d + (total_bytes vs - total_bytes vs');
  cl_rds : rd_count vs' = rd_count vs;
}.

Lemma collected_id uk floor vs d : vers_ok uk vs → collected uk floor vs vs d d.
Proof. intros Hv. split; [done|apply gc_rel_refl|lia|lia|done]. Qed.

(** Keeping a prefix and the range deletions after it. *)
Lemma collected_suffix uk f a b d :
  vers_ok uk (a ++ b) → (∃ w, w ∈ a ∧ sequence w.1 ≤ f ∧ ∀ v, v ∈ b → sequence v.1 < sequence w.1) →
  collected uk (Some f) (a ++ b) (drop_suffix b a d).1 d (drop_suffix b a d).2.
Proof.
  intros Hv (w & Hw & Hf & Hlt). rewrite drop_suffix_spec. cbn [fst snd].
  set (keep := filter (λ e, is_rd e = true) b). set (gone := filter (λ e, is_rd e ≠ true) b).
  assert (a ++ keep `sublist_of` a ++ b) as Hsub.
  { apply sublist_app; [done|]. apply sublist_filter. }
  assert (keep ++ gone ≡ₚ b) as Hperm by apply filter_app_complement.
  split.
  - destruct Hv as [Hs Hu Hne]. split.
    + by eapply sorted_sublist.
    + intros v Hin. apply Hu. by eapply elem_of_sublist.
    + destruct a; [by apply not_elem_of_nil in Hw|done].
  - split; [by apply sublist_submseteq| |].
    + intros e [He|He]%elem_of_app Hk; apply elem_of_app; [by left|right].
      apply list_elem_of_filter. unfold is_rd. by rewrite bool_decide_eq_true_2.
    + intros e [He|He]%elem_of_app; [left; apply elem_of_app; by left|right].
      exists w, f. split_and!; [apply elem_of_app; by left|done| |by apply Hlt|done].
      destruct Hv as [_ Hu _]. rewrite !Hu; [done|apply elem_of_app..]; auto.
  - cbn [dr_versions]. rewrite <-Hperm, !length_app. lia.
  - cbn [dr_bytes]. rewrite <-Hperm, !total_bytes_app. lia.
  - rewrite !rd_count_app. unfold keep, rd_count. by rewrite list_filter_filter_r.
Qed.

Lemma gc_below_floor_ok uk vs f d :
  vers_ok uk vs → collected uk (Some f) vs (gc_below_floor vs f d).1 d (gc_below_floor vs f d).2.
Proof.
  intros Hv. pose proof (vers_seq_sorted uk vs Hv) as Hseq. unfold gc_below_floor.
  assert (∃ a b, vs = a ++ b ∧ Forall (λ v, (f <? sequence v.1) = true) a ∧
            Forall (λ v, (f <? sequence v.1) = false) b) as (a & b & Hab & Ha & Hb).
  { eapply sorted_split; [apply Hv|]. intros x y Hx Hy Hxy.
    destruct Hv as [_ Hu _]. apply ikey_lt_iff in Hxy. rewrite (Hu x), (Hu y) in Hxy by done.
    rewrite !Z.ltb_lt. destruct Hxy as [Hlt|[_ [?|[? _]]]]; [by apply bytes_lt_irrefl in Hlt|lia|lia]. }
  assert (partition_point (λ i, match vs !! i with Some v => f <? sequence v.1 | None => false end)
            (length vs) = length a) as ->.
  { rewrite Hab. by apply (partition_point_split (λ v, f <? sequence v.1)). }
  destruct (vs !! length a) as [w|] eqn:Hw; [|by apply collected_id].
  set (keep := keep_run (length vs) vs (sequence w.1) (length a)).
  destruct (Nat.leb_spec (length vs) (keep + 1)); [by apply collected_id|].
  rewrite <-(take_drop (keep + 1) vs) at 1. apply collected_suffix; [by rewrite take_drop|].
  exists w. split_and!.
  - apply list_elem_of_lookup. exists (length a). rewrite lookup_take_lt; [done|].
    pose proof (keep_run_ge (length vs) vs (sequence w.1) (length a)) as Hk. fold keep in Hk. lia.
  - rewrite Hab, lookup_app_r, Nat.sub_diag in Hw by lia. destruct b as [|w' b]; [done|].
    injection Hw as ->. apply Forall_cons in Hb as [Hb _]. lia.
  - intros v [i Hi]%list_elem_of_lookup. rewrite lookup_drop in Hi.
    eapply (keep_run_after (length vs) vs _ (length a) v _ Hseq); [by exists w|lia|exact Hi|].
    fold keep. lia.
Qed.

Lemma gc_opt_ok uk vs floor d :
  vers_ok uk vs → collected uk floor vs (gc_opt vs floor d).1 d (gc_opt vs floor d).2.
Proof. destruct floor; [apply gc_below_floor_ok|apply collected_id]. Qed.

(** ** Inserting a version *)

Lemma ver_cmp_ikey a b :
  user_key a = user_key b → ver_cmp (sequence a) (kind a) (sequence b) (kind b) = ikey_cmp a b.
Proof. intros Hu. unfold ver_cmp, ikey_cmp. rewrite Hu, bytes_cmp_refl. by destruct (ikey_seq_cmp _ _). Qed.

(** A new version goes before the first one that is not newer. *)
Lemma vers_ok_insert uk a b e :
  vers_ok uk (a ++ b) → user_key e.1 = uk →
  Forall (λ v : Version, ikey_lt v.1 e.1) a → Forall (λ v : Version, ikey_lt e.1 v.1) b →
  vers_ok uk (a ++ e :: b).
Proof.
  intros [Hs Hu _] He Ha Hb. apply sorted_app_inv in Hs as (Hsa & Hsb & Hab). split.
  - apply sorted_app; [done| |].
    + cbn. constructor; [done|]. by rewrite Forall_fmap.
    + rewrite Forall_forall in Ha. intros x y Hx [->|Hy]%elem_of_cons; [by apply Ha|by apply Hab].
  - intros v [Hv|[->|Hv]%elem_of_cons]%elem_of_app; [|done|]; apply Hu, elem_of_app; auto.
  - by destruct a.
Qed.

(** No version of the list is the new one. *)
Definition fresh_in (e : Version) (vs : list Version) : Prop :=
  ∀ v, v ∈ vs → sequence v.1 ≠ sequence e.1.

Lemma vers_split uk vs e :
  vers_ok uk vs → user_key e.1 = uk → fresh_in e vs →
  ∃ a b, vs = a ++ b ∧ Forall (λ v : Version, ikey_lt v.1 e.1) a ∧ Forall (λ v : Version, ikey_lt e.1 v.1) b ∧
    partition_point (λ i, match vs !! i with
      | Some v => match ver_cmp (sequence v.1) (kind v.1) (sequence e.1) (kind e.1) with
                  | Lt => true | _ => false end
      | None => false end) (length vs) = length a.
Proof.
  intros [Hs Hu _] He Hf.
  set (P := λ v : Version, match ver_cmp (sequence v.1) (kind v.1) (sequence e.1) (kind e.1) with
                           | Lt => true | _ => false end).
  assert (∀ v, v ∈ vs → P v = true ↔ ikey_lt v.1 e.1) as HP.
  { intros v Hv. unfold P, ikey_lt. rewrite ver_cmp_ikey by (rewrite Hu; done).
    by destruct (ikey_cmp v.1 e.1). }
  destruct (sorted_split P ikey_lt vs Hs) as (a & b & Hab & Ha & Hb).
  { intros x y Hx Hy Hxy. rewrite !HP by done. intros Hy'. by trans y.1. }
  exists a, b. split_and!; [done| | |].
  - rewrite Forall_forall in Ha. apply Forall_forall. intros v Hv.
    apply HP; [rewrite Hab; apply elem_of_app; auto|by apply Ha].
  - rewrite Forall_forall in Hb. apply Forall_forall. intros v Hv.
    assert (v ∈ vs) as Hin by (rewrite Hab; apply elem_of_app; auto).
    destruct (ikey_trichotomy v.1 e.1) as [Hlt|[Heq|Hgt]]; [|by destruct (Hf v Hin); rewrite Heq|done].
    apply HP in Hlt; [|done]. rewrite (Hb v Hv) in Hlt. done.
  - rewrite Hab. by apply (partition_point_split P).
Qed.

Lemma insert_into_ok uk vers k v bytes approx floor d :
  vers_ok uk (vers_list vers) → user_key k = uk → fresh_in (k, v) (vers_list vers) →
  ∃ vers' d' ins, insert_into vers k v bytes approx floor d = (vers', true, sat_add approx bytes, d') ∧
    ins ≡ₚ (k, v) :: vers_list vers ∧ collected uk floor ins (vers_list vers') d d'.
Proof.
  intros Hv Hu Hf. destruct vers as [x|vs]; cbn [vers_list insert_into] in *.
  - rewrite bool_decide_eq_false_2.
    2:{ intros [Hseq _]. by apply (Hf x); [set_solver|]. }
    assert (user_key x.1 = uk) as Hx by (apply Hv; set_solver).
    rewrite ver_cmp_ikey by (rewrite Hx; done).
    set (vs := if match ikey_cmp x.1 k with Lt => true | _ => false end then [x; (k, v)] else [(k, v); x]).
    assert (vers_ok uk vs ∧ vs ≡ₚ [(k, v); x]) as [Hvs Hperm].
    { unfold vs. destruct (ikey_cmp x.1 k) eqn:E; (split; [|done || apply Permutation_swap]).
      - apply ikey_cmp_eq in E. exfalso. apply (Hf x); [set_solver|by rewrite E].
      - apply (vers_ok_insert uk [x] [] (k, v)); auto.
      - apply (vers_ok_insert uk [] [x] (k, v)); auto. constructor; [by apply ikey_cmp_gt|done]. }
    pose proof (gc_opt_ok uk vs floor d Hvs) as Hc. destruct (gc_opt vs floor d) as [vs' d'].
    cbn [fst snd] in Hc. eexists _, d', vs. split; [done|]. split; [done|].
    by destruct vs' as [|y [|z vs']].
  - destruct (vers_split uk vs (k, v) Hv Hu Hf) as (a & b & Hab & Ha & Hb & Hpp). cbn [fst] in Hpp.
    rewrite Hpp.
    assert (∀ y, vs !! length a = Some y → ¬ (sequence y.1 = sequence k ∧ kind y.1 = kind k)) as Hne.
    { intros y Hy [Hseq _]. apply (Hf y); [by eapply list_elem_of_lookup_2|done]. }
    assert (vers_ok uk (a ++ (k, v) :: b)) as Hok.
    { apply vers_ok_insert; [by rewrite <-Hab|done|done|done]. }
    pose proof (gc_opt_ok uk _ floor d Hok) as Hc.
    assert (take (length a) vs ++ (k, v) :: drop (length a) vs = a ++ (k, v) :: b) as Hins.
    { by rewrite Hab, take_app_length, drop_app_length. }
    assert (match vs !! length a with
      | Some y => if bool_decide (sequence y.1 = sequence k ∧ kind y.1 = kind k)
          then (<[length a := (y.1, v)]> vs, false,
                sat_add (sat_sub approx (Z.of_nat (length y.2))) (Z.of_nat (length v)))
          else (take (length a) vs ++ (k, v) :: drop (length a) vs, true, sat_add approx bytes)
      | None => (take (length a) vs ++ (k, v) :: drop (length a) vs, true, sat_add approx bytes)
      end = (a ++ (k, v) :: b, true, sat_add approx bytes)) as ->.
    { destruct (vs !! length a) as [y|] eqn:Hy; [rewrite bool_decide_eq_false_2 by auto|]; by rewrite Hins. }
    destruct (gc_opt (a ++ (k, v) :: b) floor d) as [vs' d']. cbn [fst snd] in Hc.
    eexists _, d', _. split; [done|]. split; [rewrite Hab; symmetry; apply Permutation_middle|].
    by destruct vs' as [|y [|z vs']].
Qed.

(** ** The map side *)

(** The versions under the bindings of a map. *)
Definition bindings (l : OrdMap (list byte) Versions) : list entry := mjoin ((λ kv, vers_list kv.2) <$> l).

#[export] Instance bindings_perm : Proper ((≡ₚ) ==> (≡ₚ)) bindings.
Proof.
  unfold bindings. induction 1 as [|x a b _ IH|x y a|a b c _ IH1 _ IH2]; cbn.
  - done.
  - by rewrite IH.
  - rewrite !(assoc_L (++)). by rewrite (comm (++) (vers_list y.2)).
  - by rewrite IH1.
Qed.

Lemma elem_of_bindings e l : e ∈ bindings l ↔ ∃ uk vers, (uk, vers) ∈ l ∧ e ∈ vers_list vers.
Proof.
  unfold bindings. rewrite list_elem_of_join. split.
  - intros (vs & He & ([uk vers] & -> & Hin)%list_elem_of_fmap). by exists uk, vers.
  - intros (uk & vers & Hin & He). exists (vers_list vers). split; [done|].
    by apply (list_elem_of_fmap_2 (λ kv, vers_list kv.2) _ (uk, vers)).
Qed.

Lemma map_get_entries m uk e :
  map_ok m → e ∈ map_entries m → user_key e.1 = uk →
  ∃ vers, om_get uk (map m) = Some vers ∧ e ∈ vers_list vers.
Proof.
  intros [Hs Hv] (uk' & vers & Hin & He)%elem_of_bindings Hu.
  assert (uk' = uk) as -> by (rewrite <-Hu; symmetry; by apply (Hv uk' vers)).
  exists vers. split; [by apply om_get_elem|done].
Qed.

Lemma get_map_entries m uk vers e :
  map_ok m → om_get uk (map m) = Some vers → e ∈ vers_list vers → e ∈ map_entries m ∧ user_key e.1 = uk.
Proof.
  intros [Hs Hv] Hget He. apply om_get_elem in Hget; [|done]. split.
  - apply elem_of_bindings. by exists uk, vers.
  - by apply (Hv uk vers).
Qed.

(** The fields a map insertion leaves alone. *)
Definition same_tail (m m' : MemTable) : Prop :=
  tail m' = tail m ∧ tail_idx m' = tail_idx m ∧ point_ord_btree m' = point_ord_btree m ∧
  point_ord_btree_live m' = point_ord_btree_live m ∧ tail_max_seq m' = tail_max_seq m.

Lemma same_tail_trans a b c : same_tail a b → same_tail b c → same_tail a c.
Proof. unfold same_tail. intros (-> & -> & -> & -> & ->) H. done. Qed.

Lemma map_ok_insert m uk vers :
  map_ok m → vers_ok uk (vers_list vers) → ∀ m', map m' = om_insert uk vers (map m) → map_ok m'.
Proof.
  intros [Hs Hv] Hok m' Hm'. split; rewrite Hm'; [by apply om_insert_sorted|].
  intros uk' vers' [[-> ->]|[_ Hin]]%om_insert_elem; [done|by apply Hv|done].
Qed.

(** Counting an insertion that collects. *)
Lemma counts_insert m m0 uk floor e ins vs vs' d' R :
  counts_ok m (vs ++ R) → ins ≡ₚ e :: vs → collected uk floor ins vs' dropped_default d' →
  total_bytes (e :: vs ++ R) ≤ U64_MAX →
  counts_ok (set_counts m0 (sat_sub (sat_add (approx_bytes m) (entry_bytes e)) (dr_bytes d'))
               (sat_add_if (true && is_rd e) (range_tombstones m))
               (sat_sub (sat_add_if true (entries m)) (dr_versions d'))) (vs' ++ R).
Proof.
  intros [Hn Hb Hr] Hperm [Hv' Hrel Hdv Hdb Hdr] Hroom.
  assert (vs' ⊆+ ins) as [x Hx]%submseteq_Permutation by apply Hrel.
  assert (length ins = S (length vs)) as Hil by (apply Permutation_length in Hperm; by rewrite Hperm).
  assert (total_bytes ins = entry_bytes e + total_bytes vs) as Hib by (by rewrite Hperm).
  assert (length ins = (length vs' + length x)%nat) as Hxl
    by (apply Permutation_length in Hx; by rewrite Hx, length_app).
  assert (total_bytes ins = total_bytes vs' + total_bytes x) as Hxb by (by rewrite Hx, total_bytes_app).
  rewrite Hperm, rd_count_cons in Hdr. pose proof (total_bytes_length x). pose proof (total_bytes_length vs').
  pose proof (total_bytes_length (e :: vs ++ R)) as Htot. pose proof (rd_count_bound (vs ++ R)).
  pose proof (total_bytes_length R). cbn [dr_versions dr_bytes dropped_default length] in *.
  rewrite ?total_bytes_cons, ?length_app, ?total_bytes_app, ?rd_count_app in *.
  split; cbn [entries approx_bytes range_tombstones set_counts];
    rewrite ?length_app, ?total_bytes_app, ?rd_count_app; cbn [andb];
    unfold sat_add_if, sat_add, sat_sub, U64_MAX in *.
  - lia.
  - lia.
  - destruct (is_rd e); lia.
Qed.

(** Counting a new key. *)
Lemma counts_vacant m m0 e l :
  counts_ok m l → total_bytes (e :: l) ≤ U64_MAX →
  counts_ok (set_counts m0 (sat_add (approx_bytes m) (entry_bytes e))
               (sat_add_if (is_rd e) (range_tombstones m)) (sat_add (entries m) 1)) (e :: l).
Proof.
  intros [Hn Hb Hr] Hroom. pose proof (total_bytes_length (e :: l)). pose proof (rd_count_bound l).
  rewrite total_bytes_cons in *. cbn [length] in *.
  split; rewrite ?total_bytes_cons, ?rd_count_cons; cbn [entries approx_bytes range_tombstones set_counts length];
    unfold sat_add, sat_add_if, sat_add, U64_MAX in *; [lia|lia|].
  destruct (is_rd e); lia.
Qed.

Lemma insert_map_gc_ok m e floor r :
  map_ok m → uniq (e :: map_entries m) → counts_ok m (map_entries m ++ r) →
  total_bytes (e :: map_entries m ++ r) ≤ U64_MAX →
  let m' := insert_map_gc m e.1 e.2 floor in
  map_ok m' ∧ gc_rel floor (e :: map_entries m) (map_entries m') ∧
  counts_ok m' (map_entries m' ++ r) ∧ same_tail m m'.
Proof.
  intros Hmap Huniq Hcounts Hroom. destruct e as [k v]. cbn [fst snd].
  unfold insert_map_gc. destruct (om_get (user_key k) (map m)) as [vers|] eqn:Hget.
  - assert ((user_key k, vers) ∈ map m) as Hin by (by apply om_get_elem; [apply Hmap|]).
    destruct (insert_into_ok (user_key k) vers k v (entry_bytes (k, v)) (approx_bytes m) floor dropped_default)
      as (vers' & d' & ins & Hins & Hperm & Hcol); [by apply Hmap|done| |].
    { intros x Hx Hseq. apply get_map_entries with (e := x) in Hget as [Hxm Hxu]; [|done|done].
      apply NoDup_cons in Huniq as [Huniq _]. apply Huniq. apply list_elem_of_fmap. exists x.
      cbn. by rewrite Hxu, Hseq. }
    unfold insert_occupied. cbn [fst snd]. rewrite Hins. cbn zeta.
    destruct (om_insert_update_perm _ _ _ Hget) as (rest & Hm & Hm').
    assert (map_entries m ≡ₚ vers_list vers ++ bindings rest) as He.
    { change (map_entries m) with (bindings (map m)). by rewrite Hm. }
    set (m' := set_counts _ _ _ _).
    assert (map_entries m' ≡ₚ vers_list vers' ++ bindings rest) as He'.
    { change (map_entries m') with (bindings (om_insert (user_key k) vers' (map m))). by rewrite Hm'. }
    split_and!; [eapply map_ok_insert; [done|by apply Hcol|done]| | |done..].
    + rewrite He, He'. rewrite app_comm_cons. apply gc_rel_app. rewrite <-Hperm. apply Hcol.
    + rewrite He, <-app_assoc in Hcounts, Hroom. rewrite He', <-app_assoc. by eapply counts_insert.
  - set (m' := set_counts _ _ _ _).
    assert (map_entries m' ≡ₚ (k, v) :: map_entries m) as He'.
    { change (bindings (om_insert (user_key k) (One (k, v)) (map m)) ≡ₚ (k, v) :: bindings (map m)).
      rewrite om_insert_fresh_perm by (done || apply Hmap). done. }
    split_and!; [|rewrite He'; apply gc_rel_refl| |done..].
    + eapply map_ok_insert; [done| |done]. cbn [vers_list]. split; [by repeat constructor|set_solver|done].
    + rewrite He', <-app_comm_cons. by apply counts_vacant.
Qed.

(** ** Spilling *)

(** Uncounting a tail version before it is inserted again. *)
Lemma counts_uncount m e l :
  counts_ok m (e :: l) →
  counts_ok (set_counts m (sat_sub (approx_bytes m) (entry_bytes e))
               (sat_sub_if (is_rd e) (range_tombstones m)) (sat_sub (entries m) 1)) l.
Proof.
  intros [Hn Hb Hr]. pose proof (total_bytes_length l). pose proof (rd_count_bound l).
  rewrite ?total_bytes_cons, ?rd_count_cons in *. cbn [length] in *.
  split; cbn [entries approx_bytes range_tombstones set_counts]; unfold sat_sub_if, sat_sub; [lia|lia|].
  destruct (is_rd e); lia.
Qed.

Lemma gc_rel_uniq floor a b : gc_rel floor a b → uniq a → uniq b.
Proof. intros [Hsub _ _] Hu. by eapply uniq_sub. Qed.

Lemma gc_rel_bytes floor a b : gc_rel floor a b → total_bytes b ≤ total_bytes a.
Proof.
  intros [[x Hx]%submseteq_Permutation _ _]. rewrite Hx, total_bytes_app.
  pose proof (total_bytes_length x). lia.
Qed.

Lemma spill_loop_ok floor t m :
  map_ok m → uniq (map_entries m ++ t) → counts_ok m (map_entries m ++ t) →
  total_bytes (map_entries m ++ t) ≤ U64_MAX →
  let m' := foldl (spill_step floor) m t in
  map_ok m' ∧ gc_rel floor (map_entries m ++ t) (map_entries m') ∧
  counts_ok m' (map_entries m') ∧ same_tail m m'.
Proof.
  revert m. induction t as [|e t IH]; intros m Hmap Hu Hc Hroom; cbn [foldl].
  { rewrite app_nil_r in *. split_and!; [done|apply gc_rel_refl|done|done..]. }
  rewrite <-Permutation_middle in Hu, Hc, Hroom.
  set (m1 := set_counts m (sat_sub (approx_bytes m) (entry_bytes e))
               (sat_sub_if (is_rd e) (range_tombstones m)) (sat_sub (entries m) 1)).
  assert (counts_ok m1 (map_entries m1 ++ t)) as Hc1 by (by apply counts_uncount).
  destruct (insert_map_gc_ok m1 e floor t) as (Hmap2 & Hrel & Hc2 & Hst); [by destruct Hmap| |done|done|].
  { rewrite app_comm_cons in Hu. unfold uniq in *. rewrite fmap_app in Hu. by apply NoDup_app in Hu as [? _]. }
  change (insert_map_gc m1 e.1 e.2 floor) with (spill_step floor m e) in *.
  set (m2 := spill_step floor m e) in *.
  assert (gc_rel floor (e :: map_entries m ++ t) (map_entries m2 ++ t)) as Hrel2.
  { rewrite app_comm_cons. by apply gc_rel_app. }
  destruct (IH m2) as (Hmap3 & Hrel3 & Hc3 & Hst3); [done|by eapply gc_rel_uniq|done| |].
  { apply gc_rel_bytes in Hrel2. lia. }
  split_and!; [done| |done|].
  - rewrite <-Permutation_middle. by eapply gc_rel_trans.
  - by eapply same_tail_trans.
Qed.

Lemma spill_ok m floor :
  mem_ok m → mem_ok (spill_tail_with_gc m floor) ∧
  gc_rel floor (mem_entries m) (mem_entries (spill_tail_with_gc m floor)) ∧
  tail (spill_tail_with_gc m floor) = [] ∧ tail_idx (spill_tail_with_gc m floor) = [] ∧
  point_ord_btree (spill_tail_with_gc m floor) = [].
Proof.
  intros [Hmap Hu Hidx Hcache Hmax Hc Hroom].
  destruct (spill_loop_ok floor (tail m) (set_tail m [] [] [] false 0)) as (Hm & Hrel & Hc' & Hst);
    [by destruct Hmap|done|by destruct Hc|done|].
  fold (spill_tail_with_gc m floor) in *. set (m' := spill_tail_with_gc m floor) in *.
  destruct Hst as (Ht & Hi & Hb & Hl & Hs). cbn in Ht, Hi, Hb, Hl, Hs.
  assert (mem_entries m' = map_entries m') as He by (unfold mem_entries; by rewrite Ht, app_nil_r).
  change (map_entries (set_tail m [] [] [] false 0) ++ tail m) with (mem_entries m) in Hrel.
  rewrite He. split_and!; [|done..]. split; rewrite ?He.
  - done.
  - by eapply gc_rel_uniq.
  - rewrite Ht, Hi. apply idx_ok_nil.
  - rewrite Hi, Hb, Hl. apply cache_ok_nil.
  - rewrite Ht. intros v Hv. by apply not_elem_of_nil in Hv.
  - done.
  - apply gc_rel_bytes in Hrel. lia.
Qed.

(** Without a floor nothing is lost. *)
Lemma gc_rel_none l l' : uniq l → gc_rel None l l' → l' ≡ₚ l.
Proof.
  intros Hu Hrel. apply NoDup_Permutation.
  - apply gc_rel_uniq in Hrel; [|done]. by eapply NoDup_fmap_1.
  - by eapply NoDup_fmap_1.
  - intros e. split.
    + intros He. by eapply elem_of_submseteq; [|apply Hrel].
    + intros He. destruct Hrel as [_ _ Hsh]. by destruct (Hsh e He) as [?|(? & ? & _ & ? & _)].
Qed.

(** ** Inserting *)

Lemma mem_new_ok : mem_ok mem_new.
Proof.
  split.
  - split; [constructor|]. intros uk vers Hin. by apply not_elem_of_nil in Hin.
  - constructor.
  - apply idx_ok_nil.
  - apply cache_ok_nil.
  - intros v Hv. by apply not_elem_of_nil in Hv.
  - done.
  - cbn. unfold U64_MAX. lia.
Qed.

Lemma bump_span_fields m uk k :
  map (bump_span m uk k) = map m ∧ same_tail m (bump_span m uk k) ∧
  approx_bytes (bump_span m uk k) = approx_bytes m ∧
  range_tombstones (bump_span m uk k) = range_tombstones m ∧ entries (bump_span m uk k) = entries m.
Proof.
  unfold bump_span. destruct (span_stale m); [done|].
  destruct (om_get (cf_prefix uk) (cf_span m)) as [s|]; [|done].
  destruct (impure s); [done|]. by destruct (_ || _).
Qed.

(** A version whose key and sequence are not in the table. *)
Definition fresh_id (e : entry) (l : list entry) : Prop :=
  ∀ x, x ∈ l → user_key x.1 = user_key e.1 → sequence x.1 ≠ sequence e.1.

Lemma fresh_uniq e l : fresh_id e l → uniq l → uniq (e :: l).
Proof.
  intros Hf Hu. unfold uniq. rewrite fmap_cons. constructor; [|done].
  intros (x & [= Hk Hs] & Hx)%list_elem_of_fmap. by apply (Hf x).
Qed.

Lemma insert_fresh_fields m k v :
  ∃ idx bt, let m' := insert_fresh m k v in
  idx_append (tail m) (tail_idx m) (point_ord_btree m) (point_ord_btree_live m) k = (idx, bt) ∧
  map m' = map m ∧ tail m' = tail m ++ [(k, v)] ∧ tail_idx m' = idx ∧ point_ord_btree m' = bt ∧
  point_ord_btree_live m' = point_ord_btree_live m ∧
  tail_max_seq m' = Z.max (tail_max_seq m) (sequence k) ∧
  approx_bytes m' = sat_add (approx_bytes m) (entry_bytes (k, v)) ∧
  range_tombstones m' = sat_add_if (is_rd (k, v)) (range_tombstones m) ∧
  entries m' = sat_add (entries m) 1.
Proof.
  unfold insert_fresh. cbn zeta.
  set (m2 := set_cf_bytes _ _).
  destruct (bump_span_fields m2 (user_key k) (kind k)) as (Hmap & (Ht & Hi & Hb & Hl & Hs) & Ha & Hr & He).
  unfold tail_append. cbn [tail tail_idx point_ord_btree point_ord_btree_live set_tail set_counts].
  rewrite Ht, Hi, Hb, Hl. cbn [tail tail_idx point_ord_btree point_ord_btree_live m2 set_cf_bytes set_counts].
  destruct (idx_append _ _ _ _ _) as [idx bt]. exists idx, bt. cbn.
  rewrite Hmap, Hs, Ha, Hr, He. done.
Qed.

Lemma insert_ok m k v :
  mem_ok m → fresh_id (k, v) (mem_entries m) → total_bytes (mem_entries m) + entry_bytes (k, v) ≤ U64_MAX →
  mem_ok (insert m k v) ∧ mem_entries (insert m k v) = mem_entries m ++ [(k, v)].
Proof.
  intros Hok Hf Hroom.
  assert (insert m k v = insert_fresh m k v) as ->.
  { unfold insert. destruct (last (tail m)) as [x|] eqn:Hl; [|done]. rewrite bool_decide_eq_false_2; [done|].
    intros Heq. apply (Hf x); [|by rewrite Heq|by rewrite Heq]. apply elem_of_app. right.
    apply last_Some in Hl as [l' ->]. apply elem_of_app. right. by apply list_elem_of_singleton. }
  destruct (insert_fresh_fields m k v) as (idx & bt & Hidx' & Hm & Ht & Hi & Hb & Hl & Hs & Ha & Hr & He).
  set (m' := insert_fresh m k v) in *. destruct Hok as [Hmap Hu Hidx Hcache Hmax Hc Hr0].
  assert (mem_entries m' = mem_entries m ++ [(k, v)]) as Hme.
  { unfold mem_entries, map_entries. by rewrite Hm, Ht, app_assoc. }
  destruct (idx_append_ok _ _ _ _ (k, v) _ _ Hidx Hcache Hidx') as [Hidx2 Hcache2].
  assert (mem_entries m' ≡ₚ (k, v) :: mem_entries m) as Hperm.
  { rewrite Hme. symmetry. apply Permutation_cons_append. }
  split; [|done]. split.
  - destruct Hmap as [? ?]. split; by rewrite Hm.
  - rewrite Hperm. by apply fresh_uniq.
  - by rewrite Ht, Hi.
  - by rewrite Hi, Hb, Hl.
  - rewrite Ht, Hs. intros x [Hx| ->%list_elem_of_singleton]%elem_of_app; [specialize (Hmax x Hx)|cbn]; lia.
  - rewrite Hperm. pose proof (counts_vacant m m (k, v) (mem_entries m) Hc) as [H1 H2 H3].
    { rewrite total_bytes_cons. lia. }
    split; [by rewrite He|by rewrite Ha|by rewrite Hr].
  - rewrite Hperm, total_bytes_cons. lia.
Qed.
