(* ===== verification/MemFamily.v ===== *)
(** Whole-table moves of the memtable ([memtable_kernel.rs]): folding one table
    into another ([absorb_with_floor]), recounting, and taking one column
    family out ([take_family]), with the family test of [cf_kernel.rs]. *)

From S2P Require Import Prelude ErrorKernel KeyKernel Visibility OrdMap MemIndex MemTable.

Local Open Scope Z_scope.

(** * Absorbing *)

(** The [Vacant] arm for a key with several versions. *)
Definition absorb_vacant (m : MemTable) (uk : list byte) (vs : list Version) (floor : option Z) : MemTable :=
  let '(vs, _) := gc_opt vs floor dropped_default in
  let count := length vs in
  set_counts
    (set_map m (if (count =? 1)%nat then
                  match vs with v :: _ => om_insert uk (One v) (map m) | [] => map m end
                else if (1 <? count)%nat then om_insert uk (Many vs) (map m) else map m))
    (sat_add (approx_bytes m) (total_bytes vs))
    (sat_add (range_tombstones m) (rd_count vs))
    (sat_add (entries m) (Z.of_nat count)).

(** The [Occupied] arm, one version at a time through the entry. *)
Definition absorb_occupied (uk : list byte) (floor : option Z) (m : MemTable) (v : Version) : MemTable :=
  match om_get uk (map m) with
  | Some vers => insert_occupied m uk vers v floor
  | None => m
  end.

Definition absorb_step (floor : option Z) (m : MemTable) (kv : list byte * Versions) : MemTable :=
  match kv.2 with
  | One v => insert_map_gc m v.1 v.2 floor
  | Many vs =>
      match om_get kv.1 (map m) with
      | None => absorb_vacant m kv.1 vs floor
      | Some _ => foldl (absorb_occupied kv.1 floor) m (reverse vs)
      end
  end.

Definition absorb_with_floor (m other : MemTable) (floor : option Z) : MemTable :=
  let m := spill_tail_with_gc m floor in
  let other := spill_tail_with_gc other floor in
  if entries m =? 0 then other
  else if entries other =? 0 then m
  else foldl (absorb_step floor) (set_span m [] true) (map other).

Definition absorb (m other : MemTable) : MemTable := absorb_with_floor m other None.

(** * Families *)

Definition starts_with (key p : list byte) : bool := bool_decide (take (length p) key = p).

Definition key_in_cf_family (uk family : list byte) : bool :=
  if bytes_eqb family DEFAULT then
    match position NUL uk with
    | None | Some 0%nat => true
    | Some i => bytes_eqb (take i uk) DEFAULT
    end
  else (length family <? length uk)%nat && starts_with uk family &&
       bool_decide (uk !! length family = Some NUL).

(** One version counted by [recount]. *)
Record Recount := mkRecount { rc_bytes : Z; rc_entries : Z; rc_cf : OrdMap (list byte) Z; rc_max : Z; rc_rds : Z }.
Definition recount_step (r : Recount) (uk : list byte) (v : Version) : Recount :=
  let n := Z.of_nat (length uk) + Z.of_nat (length v.2) + 8 in
  mkRecount (sat_add (rc_bytes r) n) (sat_add (rc_entries r) 1) (bump_cf_bytes_map (rc_cf r) uk n true)
    (Z.max (rc_max r) (sequence v.1)) (sat_add_if (is_rd v) (rc_rds r)).

Fixpoint recount_tail (t : list Version) (i : nat) (r : Recount) (idx : TailIdx) : Recount * TailIdx :=
  match t with
  | [] => (r, idx)
  | v :: t =>
      let uk := user_key v.1 in
      recount_tail t (S i) (recount_step r uk v) (tail_idx_insert_into idx uk (idx_prefix uk) i)
  end.

Definition recount (m : MemTable) : MemTable :=
  let r := foldl (λ r kv, foldl (λ r v, recount_step r kv.1 v) r (vers_list kv.2))
             (mkRecount 0 0 [] 0 0) (map m) in
  let '(r, idx) := recount_tail (tail m) 0 r [] in
  mkMem (map m) (tail m) idx [] false (rc_max r) true (rc_bytes r) (rc_cf r) (cf_span m)
    (span_stale m) (rc_rds r) (rc_entries r).

(** [cf_span.remove] on one side, [insert] on the other. *)
Definition move_span (pfx : list byte) (ms : MemTable * MemTable) : MemTable * MemTable :=
  let '(m, taken) := ms in
  match om_get pfx (cf_span m) with
  | Some s => (set_span m (om_remove pfx (cf_span m)) (span_stale m),
               set_span taken (om_insert pfx s (cf_span taken)) (span_stale taken))
  | None => (m, taken)
  end.

(** The sums of [take_family_contiguous]. *)
Definition sum_step (r : Recount) (uk : list byte) (v : Version) : Recount :=
  let n := Z.of_nat (length uk) + Z.of_nat (length v.2) + 8 in
  mkRecount (sat_add (rc_bytes r) n) (sat_add (rc_entries r) 1) (rc_cf r)
    (if rc_max r <? sequence v.1 then sequence v.1 else rc_max r) (sat_add_if (is_rd v) (rc_rds r)).

(** The remaining table first, the taken one second. *)
Definition take_family_contiguous (m : MemTable) (family : list byte) : MemTable * MemTable :=
  let start := family ++ [x00] in
  let end_ := family ++ [x01] in
  let '(low, upper) := om_split_off end_ (map m) in
  let '(lower, taken_map) := om_split_off start low in
  let r := foldl (λ r kv, foldl (λ r v, sum_step r kv.1 v) r (vers_list kv.2))
             (mkRecount 0 0 [] 0 0) taken_map in
  let m1 := mkMem (lower ++ upper) (tail m) (tail_idx m) (point_ord_btree m) (point_ord_btree_live m)
              (tail_max_seq m) true (approx_bytes m) (cf_bytes m) (cf_span m) (span_stale m)
              (range_tombstones m) (entries m) in
  let taken := mkMem taken_map [] [] [] false (rc_max r) false (rc_bytes r) [] [] false (rc_rds r) (rc_entries r) in
  let '(m2, taken) :=
    if (length taken_map =? 0)%nat then (m1, taken)
    else move_span family (m1, set_cf_bytes taken (om_insert family (rc_bytes r) (cf_bytes taken))) in
  let m3 := set_counts m2 (sat_sub (approx_bytes m2) (rc_bytes r)) (sat_sub (range_tombstones m2) (rc_rds r))
              (sat_sub (entries m2) (rc_entries r)) in
  let m4 := set_cf_bytes m3 (om_remove family (cf_bytes m3)) in
  (m4, set_span taken (cf_span taken) (span_stale m4)).

Definition take_family (m : MemTable) (family : list byte) : MemTable * MemTable :=
  let m := spill_tail m in
  if negb (length family =? 0)%nat && negb (bytes_eqb family DEFAULT) &&
     negb (existsb (λ b, bool_decide (b = NUL)) family) && negb (length (map m) =? 0)%nat
  then take_family_contiguous m family
  else
    let taken_map := filter (λ kv, key_in_cf_family kv.1 family = true) (map m) in
    let rest := filter (λ kv, key_in_cf_family kv.1 family ≠ true) (map m) in
    let m := recount (set_map m rest) in
    let taken := recount (set_map mem_new taken_map) in
    let taken := set_span taken (cf_span taken) (span_stale m) in
    if bytes_eqb family DEFAULT then move_span DEFAULT (move_span [] (m, taken)) else (m, taken).

(** * Absorbing keeps every version the floor protects *)

(** Map insertions one after the other. *)
Lemma insert_all_ok floor t m :
  map_ok m → uniq (map_entries m ++ t) → counts_ok m (map_entries m) →
  total_bytes (map_entries m ++ t) ≤ U64_MAX →
  let m' := foldl (λ m v, insert_map_gc m v.1 v.2 floor) m t in
  map_ok m' ∧ gc_rel floor (map_entries m ++ t) (map_entries m') ∧
  counts_ok m' (map_entries m') ∧ same_tail m m'.
Proof.
  revert m. induction t as [|e t IH]; intros m Hmap Hu Hc Hroom; cbn [foldl].
  { rewrite app_nil_r in *. split_and!; [done|apply gc_rel_refl|done|done..]. }
  rewrite <-Permutation_middle in Hu, Hroom. rewrite app_comm_cons in Hu, Hroom.
  destruct (insert_map_gc_ok m e floor []) as (Hmap2 & Hrel & Hc2 & Hst); [done| |by rewrite app_nil_r| |].
  { eapply uniq_sub; [done|]. by apply submseteq_inserts_r. }
  { rewrite app_nil_r, total_bytes_app in *. pose proof (total_bytes_length t). lia. }
  rewrite app_nil_r in Hc2. set (m2 := insert_map_gc m e.1 e.2 floor) in *.
  assert (gc_rel floor ((e :: map_entries m) ++ t) (map_entries m2 ++ t)) as Hrel2 by (by apply gc_rel_app).
  destruct (IH m2) as (Hmap3 & Hrel3 & Hc3 & Hst3); [done|by eapply gc_rel_uniq|done| |].
  { apply gc_rel_bytes in Hrel2. lia. }
  split_and!; [done| |done|by eapply same_tail_trans].
  rewrite <-Permutation_middle, app_comm_cons. by eapply gc_rel_trans.
Qed.

(** Through an occupied entry, the arms coincide. *)
Lemma absorb_occupied_eq uk floor vs m :
  (∀ v, v ∈ vs → user_key v.1 = uk) → om_sorted (map m) → is_Some (om_get uk (map m)) →
  foldl (absorb_occupied uk floor) m vs = foldl (λ m v, insert_map_gc m v.1 v.2 floor) m vs.
Proof.
  revert m. induction vs as [|v vs IH]; intros m Hvs Hs [vers Hget]; [done|]. cbn [foldl].
  assert (user_key v.1 = uk) as Hv by (apply Hvs; set_solver).
  assert (absorb_occupied uk floor m v = insert_map_gc m v.1 v.2 floor) as Heq.
  { unfold absorb_occupied, insert_map_gc. rewrite Hv, Hget. by destruct v. }
  rewrite <-Heq. apply IH; [set_solver| |]; unfold absorb_occupied; rewrite Hget; unfold insert_occupied; destruct (insert_into _ _ _ _ _ _ _) as [[[??]?]?]; cbn.
  - by apply om_insert_sorted.
  - rewrite om_get_insert by done. done.
Qed.

Lemma absorb_vacant_ok uk floor vs m :
  map_ok m → om_get uk (map m) = None → vers_ok uk vs → counts_ok m (map_entries m) →
  total_bytes (map_entries m ++ vs) ≤ U64_MAX →
  let m' := absorb_vacant m uk vs floor in
  map_ok m' ∧ gc_rel floor (map_entries m ++ vs) (map_entries m') ∧
  counts_ok m' (map_entries m') ∧ same_tail m m'.
Proof.
  intros Hmap Hget Hvs Hc Hroom. unfold absorb_vacant.
  destruct (gc_opt vs floor dropped_default) as [vs' d'] eqn:Egc.
  pose proof (gc_opt_ok uk vs floor dropped_default Hvs) as [Hv' Hrel _ _ _]. rewrite Egc in Hv', Hrel.
  cbn [fst snd] in Hv', Hrel. cbn zeta.
  set (map' := if (length vs' =? 1)%nat then _ else _).
  assert (∃ vers, vers_list vers = vs' ∧ map' = om_insert uk vers (map m)) as (vers & Hvers & Hmap').
  { unfold map'. destruct vs' as [|x [|y vs']]; [by destruct (vo_some _ _ Hv')| |]; cbn.
    - by exists (One x).
    - by exists (Many (x :: y :: vs')). }
  set (m' := set_counts _ _ _ _).
  assert (map_entries m' ≡ₚ vs' ++ map_entries m) as He'.
  { change (map_entries m') with (bindings map'). rewrite Hmap', om_insert_fresh_perm by (done || apply Hmap).
    by rewrite <-Hvers. }
  split_and!; [| | |done..].
  - eapply (map_ok_insert m uk vers); [done|by rewrite Hvers|done].
  - rewrite He', (comm (++) (map_entries m)). by apply gc_rel_app.
  - rewrite He'. destruct Hc as [Hn Hb Hr]. apply gc_rel_bytes in Hrel.
    rewrite total_bytes_app in Hroom. pose proof (total_bytes_length (vs' ++ map_entries m)).
    pose proof (rd_count_bound (vs' ++ map_entries m)). pose proof (total_bytes_length vs').
    rewrite ?length_app, ?total_bytes_app, ?rd_count_app in *.
    split; unfold m'; cbn [entries approx_bytes range_tombstones set_counts set_map];
      rewrite ?length_app, ?total_bytes_app, ?rd_count_app; unfold sat_add; lia.
Qed.

Lemma absorb_step_ok floor m kv :
  map_ok m → vers_ok kv.1 (vers_list kv.2) → uniq (map_entries m ++ vers_list kv.2) →
  counts_ok m (map_entries m) → total_bytes (map_entries m ++ vers_list kv.2) ≤ U64_MAX →
  let m' := absorb_step floor m kv in
  map_ok m' ∧ gc_rel floor (map_entries m ++ vers_list kv.2) (map_entries m') ∧
  counts_ok m' (map_entries m') ∧ same_tail m m'.
Proof.
  intros Hmap Hv Hu Hc Hroom. destruct kv as [uk [v|vs]]; unfold absorb_step; cbn [fst snd vers_list] in *.
  - by apply (insert_all_ok floor [v]).
  - destruct (om_get uk (map m)) as [vers|] eqn:Hget; [|by apply absorb_vacant_ok].
    rewrite absorb_occupied_eq; [|intros v Hin; rewrite elem_of_reverse in Hin; by apply (vo_user _ _ Hv)|apply Hmap|by rewrite Hget].
    rewrite <-(reverse_Permutation vs) in Hu, Hroom.
    destruct (insert_all_ok floor (reverse vs) m) as (? & Hrel & ? & ?); [done..|].
    split_and!; [done| |done|done]. set (m' := foldl _ _ _) in *. by rewrite reverse_Permutation in Hrel.
Qed.

Lemma absorb_loop_ok floor l m :
  map_ok m → (∀ kv, kv ∈ l → vers_ok kv.1 (vers_list kv.2)) → uniq (map_entries m ++ bindings l) →
  counts_ok m (map_entries m) → total_bytes (map_entries m ++ bindings l) ≤ U64_MAX →
  let m' := foldl (absorb_step floor) m l in
  map_ok m' ∧ gc_rel floor (map_entries m ++ bindings l) (map_entries m') ∧
  counts_ok m' (map_entries m') ∧ same_tail m m'.
Proof.
  revert m. induction l as [|kv l IH]; intros m Hmap Hl Hu Hc Hroom; cbn [foldl].
  { rewrite app_nil_r. split_and!; [done|apply gc_rel_refl|done|done..]. }
  change (bindings (kv :: l)) with (vers_list kv.2 ++ bindings l) in *. rewrite app_assoc in *.
  destruct (absorb_step_ok floor m kv) as (Hmap2 & Hrel & Hc2 & Hst); [done|apply Hl; set_solver| |done| |].
  { eapply uniq_sub; [done|]. by apply submseteq_inserts_r. }
  { rewrite total_bytes_app in Hroom. pose proof (total_bytes_length (bindings l)). lia. }
  set (m2 := absorb_step floor m kv) in *.
  apply (gc_rel_app _ _ _ (bindings l)) in Hrel.
  destruct (IH m2) as (Hmap3 & Hrel3 & Hc3 & Hst3); [done|set_solver|by eapply gc_rel_uniq|done| |].
  { apply gc_rel_bytes in Hrel. lia. }
  split_and!; [done|by eapply gc_rel_trans|done|by eapply same_tail_trans].
Qed.

Lemma counts_zero m l : counts_ok m l → entries m = 0 → l = [].
Proof. intros [Hn _ _] H0. destruct l; [done|]. cbn [length] in Hn. lia. Qed.

Lemma absorb_ok m o floor :
  mem_ok m → mem_ok o → uniq (mem_entries m ++ mem_entries o) →
  total_bytes (mem_entries m ++ mem_entries o) ≤ U64_MAX →
  mem_ok (absorb_with_floor m o floor) ∧
  gc_rel floor (mem_entries m ++ mem_entries o) (mem_entries (absorb_with_floor m o floor)).
Proof.
  intros Hm Ho Hu Hroom. unfold absorb_with_floor.
  destruct (spill_ok m floor Hm) as (Hm1 & Hrel1 & Ht1 & _), (spill_ok o floor Ho) as (Ho1 & Hrel2 & Ht2 & _).
  set (m1 := spill_tail_with_gc m floor) in *. set (o1 := spill_tail_with_gc o floor) in *.
  assert (gc_rel floor (mem_entries m ++ mem_entries o) (mem_entries m1 ++ mem_entries o1)) as Hrel.
  { eapply gc_rel_trans; [by apply gc_rel_app|]. rewrite !(comm (++) (mem_entries m1)). by apply gc_rel_app. }
  destruct (Z.eqb_spec (entries m1) 0) as [H0|_].
  { rewrite (counts_zero m1 (mem_entries m1)) in Hrel by (done || apply Hm1). done. }
  destruct (Z.eqb_spec (entries o1) 0) as [H0|_].
  { rewrite (counts_zero o1 (mem_entries o1)), app_nil_r in Hrel by (done || apply Ho1). done. }
  assert (∀ x, tail x = [] → mem_entries x = map_entries x) as Hflat.
  { intros x Hx. unfold mem_entries. by rewrite Hx, app_nil_r. }
  assert (uniq (map_entries m1 ++ map_entries o1)) as Hu1.
  { rewrite <-!Hflat by done. by eapply gc_rel_uniq. }
  assert (total_bytes (map_entries m1 ++ map_entries o1) ≤ U64_MAX) as Hroom1.
  { rewrite <-!Hflat by done. apply gc_rel_bytes in Hrel. lia. }
  destruct (absorb_loop_ok floor (map o1) (set_span m1 [] true)) as (Hmap & Hrel3 & Hc & (Ht & Hi & Hb & Hl & Hs)).
  { destruct Hm1 as [[? ?] _ _ _ _ _ _]. by split. }
  { intros [uk vers]. apply (mo_vers o1); apply Ho1. }
  { done. }
  { destruct Hm1 as [_ _ _ _ _ [? ? ?] _]. rewrite Hflat in * by done. by split. }
  { done. }
  set (m' := foldl _ _ _) in *. cbn in Ht, Hi, Hb, Hl, Hs.
  change (map_entries (set_span m1 [] true)) with (map_entries m1) in Hrel3.
  change (bindings (map o1)) with (map_entries o1) in Hrel3.
  assert (gc_rel floor (mem_entries m ++ mem_entries o) (mem_entries m')) as Hfin.
  { rewrite (Hflat m') by (by rewrite Ht). eapply gc_rel_trans; [done|]. by rewrite !Hflat. }
  split; [|done]. destruct Hm1 as [_ _ Hidx Hcache Hmax _ _]. split.
  - done.
  - by eapply gc_rel_uniq.
  - by rewrite Ht, Hi.
  - by rewrite Hi, Hb, Hl.
  - rewrite Ht, Hs. done.
  - by rewrite (Hflat m') by (by rewrite Ht).
  - apply gc_rel_bytes in Hfin. lia.
Qed.

(** * Taking a family *)

(** ** Recounting *)

Record sums (r : Recount) (l : list entry) : Prop := {
  su_bytes : rc_bytes r = total_bytes l;
  su_entries : rc_entries r = Z.of_nat (length l);
  su_rds : rc_rds r = rd_count l;
  su_max v : v ∈ l → sequence v.1 ≤ rc_max r;
}.

(** Both counting steps add one version. *)
Definition sums_step (step : Recount → list byte → Version → Recount) : Prop :=
  ∀ r uk v l, user_key v.1 = uk → sums r l → total_bytes (l ++ [v]) ≤ U64_MAX →
    sums (step r uk v) (l ++ [v]).

Lemma recount_step_sums : sums_step recount_step.
Proof.
  intros r uk v l <- [Hb He Hr Hm] Hroom. pose proof (total_bytes_length (l ++ [v])) as Hl.
  pose proof (rd_count_bound (l ++ [v])). rewrite ?total_bytes_app, ?length_app, ?rd_count_app in *.
  cbn [length] in *. rewrite total_bytes_cons, rd_count_cons in *. change (total_bytes []) with 0 in *.
  change (rd_count []) with 0 in *. change (Z.of_nat (length (user_key v.1)) + Z.of_nat (length v.2) + 8) with (entry_bytes v).
  split; cbn [recount_step rc_bytes rc_entries rc_rds rc_max];
    rewrite ?total_bytes_app, ?length_app, ?rd_count_app, ?total_bytes_cons, ?rd_count_cons;
    change (total_bytes []) with 0; change (rd_count []) with 0; cbn [length];
    change (Z.of_nat (length (user_key v.1)) + Z.of_nat (length v.2) + 8) with (entry_bytes v);
    unfold sat_add, sat_add_if, sat_add, U64_MAX in *; [lia|lia|destruct (is_rd v); lia|].
  intros x [Hx| ->%list_elem_of_singleton]%elem_of_app; [specialize (Hm x Hx)|]; lia.
Qed.

Lemma sum_step_sums : sums_step sum_step.
Proof.
  intros r uk v l Hu Hs Hroom. destruct (recount_step_sums r uk v l Hu Hs Hroom) as [H1 H2 H3 H4].
  split; [done|done|done|]. intros x Hx. specialize (H4 x Hx). cbn [sum_step recount_step rc_max] in *.
  destruct (Z.ltb_spec (rc_max r) (sequence v.1)); lia.
Qed.

Lemma sums_fold step l r done_ :
  sums_step step → (∀ kv, kv ∈ l → vers_ok kv.1 (vers_list kv.2)) → sums r done_ →
  total_bytes (done_ ++ bindings l) ≤ U64_MAX →
  sums (foldl (λ r (kv : list byte * Versions), foldl (λ r v, step r kv.1 v) r (vers_list kv.2)) r l)
    (done_ ++ bindings l).
Proof.
  intros Hstep. revert r done_. induction l as [|kv l IH]; intros r done_ Hl Hs Hroom; cbn [foldl].
  { by rewrite app_nil_r. }
  change (bindings (kv :: l)) with (vers_list kv.2 ++ bindings l) in *. rewrite app_assoc in *.
  apply IH; [set_solver| |done]. rewrite total_bytes_app in Hroom. pose proof (total_bytes_length (bindings l)).
  assert (∀ v, v ∈ vers_list kv.2 → user_key v.1 = kv.1) as Hu.
  { intros v Hv. eapply vo_user; [apply Hl; set_solver|done]. }
  assert (total_bytes (done_ ++ vers_list kv.2) ≤ U64_MAX) as Hr by lia. clear Hroom IH Hl.
  revert r done_ Hs Hr. generalize (vers_list kv.2) Hu. intros vs.
  induction vs as [|v vs IHv]; intros Hvs r done_ Hs Hr; cbn [foldl]; [by rewrite app_nil_r|].
  rewrite cons_middle, app_assoc in *. apply IHv; [set_solver| |done].
  apply Hstep; [apply Hvs; set_solver|done|]. rewrite total_bytes_app in Hr. pose proof (total_bytes_length vs). lia.
Qed.

Lemma sums_init : sums (mkRecount 0 0 [] 0 0) [].
Proof. split; [done|done|done|]. intros v Hv. by apply not_elem_of_nil in Hv. Qed.

(** ** Splitting the map *)

Lemma map_ok_filter (P : list byte * Versions → Prop) `{∀ x, Decision (P x)} m m' :
  map_ok m → map m' = filter P (map m) → map_ok m'.
Proof.
  intros [Hs Hv] Heq. split; rewrite Heq; [by apply om_sorted_filter|].
  intros uk vers [_ Hin]%list_elem_of_filter. by apply Hv.
Qed.

(** Filtering bindings by key filters versions by user key. *)
Lemma bindings_filter (p : list byte → bool) l :
  (∀ kv, kv ∈ l → vers_ok kv.1 (vers_list kv.2)) →
  bindings (filter (λ kv, p kv.1 = true) l) = filter (λ e : entry, p (user_key e.1) = true) (bindings l).
Proof.
  induction l as [|kv l IH]; intros Hl; [done|].
  change (bindings (kv :: l)) with (vers_list kv.2 ++ bindings l). rewrite filter_app, filter_cons.
  assert (∀ v, v ∈ vers_list kv.2 → user_key v.1 = kv.1) as Hu.
  { intros v Hv. eapply vo_user; [apply Hl; set_solver|done]. }
  rewrite <-IH by set_solver. destruct (decide (p kv.1 = true)) as [Hp|Hp].
  - change (bindings (kv :: filter (λ kv, p kv.1 = true) l))
      with (vers_list kv.2 ++ bindings (filter (λ kv, p kv.1 = true) l)).
    f_equal. rewrite (list_filter_ext_in _ (λ _, True)); [|intros v Hv; rewrite Hu by done; by split].
    generalize (vers_list kv.2). clear. intros vs. induction vs as [|x vs IH]; [done|].
    rewrite filter_cons_True by done. by rewrite <-IH.
  - rewrite (list_filter_ext_in _ (λ _, False) (vers_list kv.2)); [|intros v Hv; rewrite Hu by done; by split].
    generalize (vers_list kv.2). clear. intros vs. induction vs as [|x vs IH]; [done|].
    rewrite filter_cons_False by (by intros []). done.
Qed.

(** [f\0 ≤ k < f\1] are the keys that start with [f\0]. *)
Lemma family_window f uk :
  bytes_cmp uk (f ++ [x00]) ≠ Lt ∧ bytes_cmp uk (f ++ [x01]) = Lt ↔ ∃ rest, uk = f ++ x00 :: rest.
Proof.
  revert uk. induction f as [|x f IH]; intros uk; cbn [app].
  - destruct uk as [|b uk]; cbn [bytes_cmp].
    { split; [intros [Hn _]; by destruct Hn|intros [r Hr]; done]. }
    pose proof (b2Z_range b). change (b2Z x00) with 0. change (b2Z x01) with 1.
    destruct (Z.compare_spec (b2Z b) 0) as [E|E|E]; [| lia|].
    + rewrite E. assert (b = x00) as -> by (by apply b2Z_inj). split; [by exists uk|]. intros _.
      split; [by destruct uk|done].
    + split.
      * intros [_ Hlt]. destruct (Z.compare_spec (b2Z b) 1); [by destruct uk|lia|done].
      * intros [r [= -> _]]. done.
  - destruct uk as [|b uk]; cbn [bytes_cmp].
    { split; [intros [Hn _]; by destruct Hn|intros [r Hr]; done]. }
    destruct (Z.compare_spec (b2Z b) (b2Z x)) as [E|E|E].
    + apply b2Z_inj in E as ->. rewrite IH. split; [intros [r ->]; by exists r|intros [r [= ->]]; by exists r].
    + split; [intros [Hn _]; by destruct Hn|]. intros [r [= -> _]]. lia.
    + split; [by intros [_ ?]|]. intros [r [= -> _]]. lia.
Qed.

Lemma key_in_cf_family_window f uk :
  f ≠ DEFAULT → key_in_cf_family uk f = true ↔
    bytes_cmp uk (f ++ [x00]) ≠ Lt ∧ bytes_cmp uk (f ++ [x01]) = Lt.
Proof.
  intros Hf. rewrite family_window. unfold key_in_cf_family, starts_with.
  unfold bytes_eqb. rewrite bool_decide_eq_false_2 by done.
  rewrite !andb_true_iff, !bool_decide_eq_true, Nat.ltb_lt. split.
  - intros [[Hl Ht] Hn]. exists (drop (S (length f)) uk).
    apply (take_drop_middle uk) in Hn. rewrite Ht in Hn. by rewrite <-Hn at 1.
  - intros [r ->]. rewrite length_app, take_app_length, lookup_app_r, Nat.sub_diag by lia.
    cbn [length lookup list_lookup]. split_and!; [lia|done|done].
Qed.

(** A table without tail whose counters measure its map. *)
Lemma mem_ok_flat m :
  map_ok m → uniq (map_entries m) → tail m = [] → tail_idx m = [] → point_ord_btree m = [] →
  counts_ok m (map_entries m) → total_bytes (map_entries m) ≤ U64_MAX → mem_ok m.
Proof.
  intros Hmap Hu Ht Hi Hb Hc Hroom.
  assert (mem_entries m = map_entries m) as He by (unfold mem_entries; by rewrite Ht, app_nil_r).
  split; rewrite ?He; [done|done| | | |done|done].
  - rewrite Ht, Hi. apply idx_ok_nil.
  - rewrite Hb. apply cache_ok_nil.
  - rewrite Ht. intros v Hv. by apply not_elem_of_nil in Hv.
Qed.

Lemma move_span_fields pfx m taken :
  let '(m', taken') := move_span pfx (m, taken) in
  ∃ s s', m' = set_span m s (span_stale m) ∧ taken' = set_span taken s' (span_stale taken).
Proof.
  unfold move_span. destruct (om_get pfx (cf_span m)); [by eexists _, _|].
  exists (cf_span m), (cf_span taken). by destruct m, taken.
Qed.

Lemma mem_ok_span m s b : mem_ok m → mem_ok (set_span m s b) ∧ mem_entries (set_span m s b) = mem_entries m.
Proof. intros [[? ?] ? ? ? ? [? ? ?] ?]. split; [|done]. split; try done; by split. Qed.

Lemma recount_ok m :
  map_ok m → tail m = [] → uniq (map_entries m) → total_bytes (map_entries m) ≤ U64_MAX →
  mem_ok (recount m) ∧ mem_entries (recount m) = map_entries m.
Proof.
  intros Hmap Ht Hu Hroom. unfold recount. rewrite Ht. cbn [recount_tail].
  pose proof (sums_fold recount_step (map m) (mkRecount 0 0 [] 0 0) [] recount_step_sums) as Hs.
  destruct Hs as [Hb He Hr Hmax]; [intros [uk vers]; apply Hmap|apply sums_init|done|].
  set (r := foldl _ _ _) in *. cbn [app] in *. split.
  - apply mem_ok_flat; try done. by destruct Hmap.
  - unfold mem_entries. cbn [tail]. by rewrite app_nil_r.
Qed.

(** The two halves of a table split by user key. *)
Definition split_by (p : list byte → bool) (m rest taken : MemTable) : Prop :=
  mem_ok rest ∧ mem_ok taken ∧
  mem_entries rest ≡ₚ filter (λ e : entry, p (user_key e.1) ≠ true) (mem_entries m) ∧
  mem_entries taken ≡ₚ filter (λ e : entry, p (user_key e.1) = true) (mem_entries m).

Lemma bindings_filter_not (p : list byte → bool) l :
  (∀ kv, kv ∈ l → vers_ok kv.1 (vers_list kv.2)) →
  bindings (filter (λ kv, p kv.1 ≠ true) l) = filter (λ e : entry, p (user_key e.1) ≠ true) (bindings l).
Proof.
  intros Hl. rewrite (list_filter_iff _ (λ kv, negb (p kv.1) = true)).
  2:{ intros kv. by destruct (p kv.1). }
  rewrite (bindings_filter (λ k, negb (p k))) by done.
  apply list_filter_iff. intros e. by destruct (p _).
Qed.

Lemma filter_room (P : entry → Prop) `{∀ e, Decision (P e)} l :
  uniq l → total_bytes l ≤ U64_MAX → uniq (filter P l) ∧ total_bytes (filter P l) ≤ U64_MAX.
Proof.
  intros Hu Hroom. split.
  - eapply uniq_sub; [done|]. apply sublist_submseteq, sublist_filter.
  - rewrite (total_bytes_filter P) in Hroom. pose proof (total_bytes_length (filter (λ e, ¬ P e) l)). lia.
Qed.

Lemma take_family_general_ok m family :
  mem_ok m → tail m = [] →
  let p k := key_in_cf_family k family in
  split_by p m (recount (set_map m (filter (λ kv, p kv.1 ≠ true) (map m))))
               (recount (set_map mem_new (filter (λ kv, p kv.1 = true) (map m)))).
Proof.
  intros Hm Ht p. destruct Hm as [Hmap Hu _ _ _ _ Hroom].
  assert (mem_entries m = bindings (map m)) as He by (unfold mem_entries; by rewrite Ht, app_nil_r).
  rewrite He in Hu, Hroom.
  assert (∀ kv, kv ∈ map m → vers_ok kv.1 (vers_list kv.2)) as Hv by (intros [uk vers]; apply Hmap).
  set (r := filter (λ kv, p kv.1 ≠ true) (map m)). set (t := filter (λ kv, p kv.1 = true) (map m)).
  assert (map_entries (set_map m r) = filter (λ e : entry, p (user_key e.1) ≠ true) (bindings (map m))) as Hr
    by (by apply bindings_filter_not).
  assert (map_entries (set_map mem_new t) = filter (λ e : entry, p (user_key e.1) = true) (bindings (map m))) as Htk
    by (by apply bindings_filter).
  destruct (recount_ok (set_map m r)) as [H1 H2]; [by eapply (map_ok_filter _ m)|done| | |].
  { rewrite Hr. by apply filter_room. }
  { rewrite Hr. by apply filter_room. }
  destruct (recount_ok (set_map mem_new t)) as [H3 H4]; [by eapply (map_ok_filter _ m)|done| | |].
  { rewrite Htk. by apply filter_room. }
  { rewrite Htk. by apply filter_room. }
  unfold split_by. rewrite H2, H4, Hr, Htk, He. done.
Qed.

(** The two [split_off] calls cut out the family's keys. *)
Lemma split_off_family m family :
  map_ok m → family ≠ DEFAULT →
  let '(low, upper) := om_split_off (family ++ [x01]) (map m) in
  let '(lower, taken) := om_split_off (family ++ [x00]) low in
  taken = filter (λ kv, key_in_cf_family kv.1 family = true) (map m) ∧
  lower ++ upper ≡ₚ filter (λ kv, key_in_cf_family kv.1 family ≠ true) (map m) ∧
  om_sorted (lower ++ upper).
Proof.
  intros [Hs _] Hf. unfold om_split_off. cbn zeta.
  set (lower := filter (λ kv, kcmp kv.1 (family ++ [x00]) = Lt) (filter _ _)). set (upper := filter (λ kv, kcmp kv.1 (family ++ [x01]) ≠ Lt) (map m)).
  set (taken := filter _ (filter _ _)).
  assert (taken = filter (λ kv, key_in_cf_family kv.1 family = true) (map m)) as Ht.
  { unfold taken. rewrite list_filter_filter. apply list_filter_iff. intros kv.
    rewrite key_in_cf_family_window by done. apply iff_refl. }
  assert (bytes_lt (family ++ [x00]) (family ++ [x01])) as Hlt.
  { unfold bytes_lt. rewrite bytes_cmp_app by done. by rewrite bytes_cmp_refl. }
  split_and!; [done| |].
  - apply (Permutation_app_inv_l taken). rewrite Ht at 2. rewrite filter_app_complement.
    rewrite app_assoc, (comm (++) taken lower). unfold taken, lower.
    rewrite (filter_app_complement (λ kv : list byte * Versions, kcmp kv.1 (family ++ [x00]) = Lt)).
    apply (filter_app_complement (λ kv : list byte * Versions, kcmp kv.1 (family ++ [x01]) = Lt)).
  - unfold om_sorted. rewrite fmap_app. apply StronglySorted_app_2.
    + intros a b (kv & -> & [Hk _]%list_elem_of_filter)%list_elem_of_fmap
        (kv' & -> & [Hk' _]%list_elem_of_filter)%list_elem_of_fmap.
      eapply bytes_lt_le_trans; [by etrans|done].
    + by apply om_sorted_filter, om_sorted_filter.
    + by apply om_sorted_filter.
Qed.

Lemma take_family_contiguous_ok m family :
  mem_ok m → tail m = [] → tail_idx m = [] → point_ord_btree m = [] → family ≠ DEFAULT →
  let '(rest, taken) := take_family_contiguous m family in
  split_by (λ k, key_in_cf_family k family) m rest taken.
Proof.
  intros Hm Ht Hi Hb Hf. destruct Hm as [Hmap Hu _ _ _ Hc Hroom].
  assert (mem_entries m = bindings (map m)) as He by (unfold mem_entries; by rewrite Ht, app_nil_r).
  rewrite He in Hu, Hroom, Hc.
  assert (∀ kv, kv ∈ map m → vers_ok kv.1 (vers_list kv.2)) as Hv by (intros [uk vers]; apply Hmap).
  unfold take_family_contiguous. pose proof (split_off_family m family Hmap Hf) as Hsplit.
  destruct (om_split_off (family ++ [x01]) (map m)) as [low upper].
  destruct (om_split_off (family ++ [x00]) low) as [lower taken_map].
  destruct Hsplit as (Htk & Hrest & Hsort).
  assert (bindings taken_map = filter (λ e : entry, key_in_cf_family (user_key e.1) family = true) (bindings (map m))) as Hbt.
  { rewrite Htk. by apply (bindings_filter (λ k, key_in_cf_family k family)). }
  assert (bindings (lower ++ upper) ≡ₚ filter (λ e : entry, key_in_cf_family (user_key e.1) family ≠ true) (bindings (map m))) as Hbr.
  { rewrite Hrest. by rewrite (bindings_filter_not (λ k, key_in_cf_family k family)). }
  assert (bindings taken_map ++ bindings (lower ++ upper) ≡ₚ bindings (map m)) as Hall.
  { rewrite Hbt, Hbr. apply filter_app_complement. }
  destruct (filter_room (λ e : entry, key_in_cf_family (user_key e.1) family = true) _ Hu Hroom) as [Hu1 Hr1].
  destruct (filter_room (λ e : entry, key_in_cf_family (user_key e.1) family ≠ true) _ Hu Hroom) as [Hu2 Hr2].
  rewrite <-Hbt in Hu1, Hr1. rewrite <-Hbr in Hu2, Hr2.
  destruct (sums_fold sum_step taken_map (mkRecount 0 0 [] 0 0) [] sum_step_sums) as [Hsb Hse Hsr _];
    [intros kv Hin; apply Hv; rewrite Htk in Hin; by apply list_elem_of_filter in Hin as [_ ?]|apply sums_init|done|].
  cbn zeta. set (r := foldl _ _ taken_map) in *. cbn [app] in *.
  set (m1 := mkMem (lower ++ upper) _ _ _ _ _ _ _ _ _ _ _ _).
  set (tk := mkMem taken_map _ _ _ _ _ _ _ _ _ _ _ _).
  destruct (if (length taken_map =? 0)%nat then _ else _) as [m2 tk2] eqn:Emove.
  assert (∃ s s' cf, m2 = set_span m1 s (span_stale m1) ∧ tk2 = set_span (set_cf_bytes tk cf) s' (span_stale tk))
    as (s & s' & cf & -> & ->).
  { destruct (length taken_map =? 0)%nat.
    - injection Emove as <- <-. exists (cf_span m1), (cf_span tk), (cf_bytes tk). done.
    - pose proof (move_span_fields family m1 (set_cf_bytes tk (om_insert family (rc_bytes r) (cf_bytes tk)))) as Hmv.
      rewrite Emove in Hmv. destruct Hmv as (s & s' & -> & ->). by eexists s, s', _. }
  destruct Hc as [Hn Hbb Hrr]. rewrite <-Hall in Hn, Hbb, Hrr.
  rewrite length_app in Hn. rewrite total_bytes_app in Hbb. rewrite rd_count_app in Hrr.
  pose proof (total_bytes_length (bindings (lower ++ upper))). pose proof (rd_count_bound (bindings (lower ++ upper))).
  split; [|split; [|split]].
  - apply mem_ok_flat; try done.
    + split; [done|]. intros uk vers Hin. apply Hmap.
      assert ((uk, vers) ∈ lower ++ upper) as Hin2 by done. rewrite Hrest in Hin2.
      by apply list_elem_of_filter in Hin2 as [_ ?].
    + change (map_entries _) with (bindings (lower ++ upper)).
      split; cbn [entries approx_bytes range_tombstones set_counts set_cf_bytes set_span m1]; unfold sat_sub; lia.
  - apply mem_ok_flat; try done. eapply (map_ok_filter _ m); [done|]. exact Htk.
  - rewrite He, <-Hbr. unfold mem_entries. cbn [tail set_cf_bytes set_counts set_span m1]. by rewrite Ht, app_nil_r.
  - rewrite He, <-Hbt. unfold mem_entries. cbn [tail set_cf_bytes set_counts set_span tk]. by rewrite app_nil_r.
Qed.

Lemma split_by_perm p m m' rest taken :
  mem_entries m ≡ₚ mem_entries m' → split_by p m rest taken → split_by p m' rest taken.
Proof. intros Hp (H1 & H2 & H3 & H4). unfold split_by. rewrite <-Hp. done. Qed.

Lemma split_by_span p m rest taken s b s' b' :
  split_by p m rest taken → split_by p m (set_span rest s b) (set_span taken s' b').
Proof.
  intros (H1 & H2 & H3 & H4). destruct (mem_ok_span rest s b H1) as [H5 H6].
  destruct (mem_ok_span taken s' b' H2) as [H7 H8]. done.
Qed.

Lemma take_family_ok m family :
  mem_ok m →
  let '(rest, taken) := take_family m family in
  split_by (λ k, key_in_cf_family k family) m rest taken.
Proof.
  intros Hm. unfold take_family. destruct (spill_ok m None Hm) as (Hm1 & Hrel & Ht & Hi & Hb).
  fold (spill_tail m) in *. set (m1 := spill_tail m) in *.
  assert (mem_entries m1 ≡ₚ mem_entries m) as Hperm by (apply gc_rel_none; [apply Hm|done]).
  destruct (_ && _) eqn:Ecase.
  - rewrite !andb_true_iff, !negb_true_iff in Ecase. destruct Ecase as [[[_ Hd] _] _].
    assert (family ≠ DEFAULT) as Hf by (intros ->; by rewrite (proj2 (bytes_eqb_spec _ _) eq_refl) in Hd).
    pose proof (take_family_contiguous_ok m1 family Hm1 Ht Hi Hb Hf) as Hs.
    destruct (take_family_contiguous m1 family) as [rest taken]. by eapply split_by_perm.
  - pose proof (take_family_general_ok m1 family Hm1 Ht) as Hs. cbn zeta in *.
    set (rest := recount _) in *. set (taken := recount (set_map mem_new _)) in *.
    apply (split_by_perm _ m1 m) in Hs; [|done].
    destruct (bytes_eqb family DEFAULT).
    + pose proof (move_span_fields [] rest (set_span taken (cf_span taken) (span_stale rest))) as H1.
      destruct (move_span [] _) as [r1 t1]. destruct H1 as (s1 & s1' & -> & ->).
      pose proof (move_span_fields DEFAULT (set_span rest s1 (span_stale rest))
        (set_span (set_span taken (cf_span taken) (span_stale rest)) s1'
           (span_stale (set_span taken (cf_span taken) (span_stale rest))))) as H2.
      destruct (move_span DEFAULT _) as [r2 t2]. destruct H2 as (s2 & s2' & -> & ->).
      by apply (split_by_span _ m rest taken).
    + assert (rest = set_span rest (cf_span rest) (span_stale rest)) as -> by (by destruct rest).
      by apply split_by_span.
Qed.
