(* ===== verification/MemRead.v ===== *)
(** Point reads of the memtable ([memtable_kernel.rs]: [get], [get_entry],
    [tail_best], [range_deleted], [collect_range_tombstones]) and their
    refinement: whatever the sequence of inserts, spills, collections, absorbs
    and family splits, a read returns what the log of writes says. *)

From S2P Require Import Prelude ErrorKernel KeyKernel Visibility OrdMap MemIndex MemTable MemFamily.

Local Open Scope Z_scope.

(** * Reads *)

(** The body of both loops of [range_deleted]. *)
Definition tomb_hides (uk : list byte) (point_seq snapshot : Z) (start : list byte) (v : Version) : bool :=
  if bool_decide (kind v.1 ≠ RangeDeletion) || (snapshot <? sequence v.1) then false
  else (point_seq <? sequence v.1) && bytes_leb start uk && bytes_ltb uk v.2.

Definition mem_range_deleted (m : MemTable) (uk : list byte) (point_seq snapshot : Z) : bool :=
  if range_tombstones m =? 0 then false
  else
    existsb (λ kv, existsb (tomb_hides uk point_seq snapshot kv.1) (vers_list kv.2)) (map m) ||
    existsb (λ v, tomb_hides uk point_seq snapshot (user_key v.1) v) (tail m).

Definition mem_collect_range_tombstones (m : MemTable) (snapshot : Z) (out : list RangeTombstone)
    : list RangeTombstone :=
  if range_tombstones m =? 0 then out
  else
    let push start out (v : Version) :=
      if bool_decide (kind v.1 ≠ RangeDeletion) || (snapshot <? sequence v.1) then out
      else out ++ [mkTomb start v.2 (sequence v.1)] in
    let out := foldl (λ out kv, foldl (push kv.1) out (vers_list kv.2)) out (map m) in
    foldl (λ out v, push (user_key v.1) out v) out (tail m).

(** The linear scan of [tail_best]. *)
Definition scan_step (uk : list byte) (snapshot : Z) (best : option Version) (v : Version) : option Version :=
  if negb (bytes_eqb (user_key v.1) uk) || (snapshot <? sequence v.1) then best
  else match best with
       | None => Some v
       | Some b => if version_newer v b then Some v else best
       end.
Definition scan_newest (l : list Version) (uk : list byte) (snapshot : Z) : option Version :=
  foldl (scan_step uk snapshot) None l.

Definition tail_best (m : MemTable) (uk : list byte) (snapshot : Z) : option Version :=
  shard ← om_get (idx_prefix uk) (tail_idx m);
  i ← shard_lookup shard uk;
  newest ← tail m !! i;
  if sequence newest.1 <=? snapshot then Some newest else scan_newest (tail m) uk snapshot.

(** [vers.iter().find(|v| v.key.sequence <= snapshot)]. *)
Definition find_visible (vs : list Version) (snapshot : Z) : option Version :=
  head (filter (λ v : Version, sequence v.1 ≤ snapshot) vs).

(** The older versions [get_entry] pushes. *)
Definition older_versions (m : MemTable) (uk : list byte) (v : Version) (snapshot : Z) : list Version :=
  match om_get uk (map m) with
  | Some vers =>
      filter (λ o : Version, ¬ (sequence v.1 ≤ sequence o.1 ∨ snapshot < sequence o.1)) (vers_list vers)
  | None => []
  end.

Definition get_entry (m : MemTable) (uk : list byte) (snapshot : Z) : option (Z * Lookup) :=
  let from_tail := tail_best m uk snapshot in
  let from_map := vers ← om_get uk (map m); find_visible (vers_list vers) snapshot in
  v ← match from_tail, from_map with
      | Some t, Some p => Some (if version_newer p t then p else t)
      | Some t, None => Some t
      | None, Some p => Some p
      | None, None => None
      end;
  if bool_decide (kind v.1 = RangeDeletion) then None
  else
    let hidden_by (o : Version) :=
      bool_decide (kind o.1 = Value) && mem_range_deleted m uk (sequence o.1) snapshot in
    let pushed := v :: older_versions m uk v snapshot in
    let look := if get_live ((λ o : Version, kind o.1) <$> pushed) (hidden_by <$> pushed)
                then Found v.2 else Deleted in
    Some (sequence v.1, look).

Definition get (m : MemTable) (uk : list byte) (snapshot : Z) : Lookup :=
  match get_entry m uk snapshot with
  | Some (_, look) => look
  | None => NotFound
  end.

(** * What a table of writes says *)

(** The newest version of the key at the snapshot decides; a range deletion that
    starts at the key is left to the caller's range tombstones. *)
Definition lookup_log (log : list entry) (uk : list byte) (snapshot : Z) : option (Z * Lookup) :=
  v ← scan_newest log uk snapshot;
  match kind v.1 with
  | RangeDeletion => None
  | Deletion => Some (sequence v.1, Deleted)
  | Value =>
      Some (sequence v.1,
            if range_deleted uk (sequence v.1) (collect_range_tombstones log snapshot)
            then Deleted else Found v.2)
  end.

(** * Lemmas *)

(** ** The newest version *)

Definition newest_of (l : list entry) (uk : list byte) (s : Z) (v : entry) : Prop :=
  v ∈ l ∧ user_key v.1 = uk ∧ sequence v.1 ≤ s ∧
  ∀ w, w ∈ l → user_key w.1 = uk → sequence w.1 ≤ s → sequence w.1 ≤ sequence v.1.

Lemma newest_of_unique l uk s v w : uniq l → newest_of l uk s v → newest_of l uk s w → v = w.
Proof.
  intros Hu (Hv & Hvu & Hvs & Hvm) (Hw & Hwu & Hws & Hwm).
  apply (uniq_same l); [done|done|done|congruence|]. apply Z.le_antisymm; [by apply Hwm|by apply Hvm].
Qed.

Lemma version_newer_seq v b : sequence v.1 ≠ sequence b.1 → version_newer v b = (sequence b.1 <? sequence v.1).
Proof.
  intros Hne. unfold version_newer, ikey_seq_cmp.
  destruct (Z.compare_spec (sequence b.1) (sequence v.1)); [congruence| |];
    [by rewrite (proj2 (Z.ltb_lt _ _))|symmetry; apply Z.ltb_ge; lia].
Qed.

(** The scan's accumulator is the newest of what it has seen. *)
Definition scan_ok (l : list entry) (uk : list byte) (s : Z) (best : option entry) : Prop :=
  match best with
  | Some v => newest_of l uk s v
  | None => ∀ w, w ∈ l → user_key w.1 = uk → s < sequence w.1
  end.

Lemma scan_step_ok l uk s best v :
  uniq (l ++ [v]) → scan_ok l uk s best → scan_ok (l ++ [v]) uk s (scan_step uk s best v).
Proof.
  intros Hu Hok. unfold scan_step.
  assert (∀ w, w ∈ l → user_key w.1 = user_key v.1 → sequence w.1 ≠ sequence v.1) as Hne.
  { intros w Hw Hk Hs. assert (w = v) as ->.
    { apply (uniq_same _ _ _ Hu); [apply elem_of_app; auto|apply elem_of_app; right; set_solver|done|done]. }
    unfold uniq in Hu. rewrite fmap_app in Hu. apply NoDup_app in Hu as (_ & Hd & _).
    apply (Hd (user_key v.1, sequence v.1)); [by apply (list_elem_of_fmap_2 (λ e : entry, (user_key e.1, sequence e.1)) l v)|].
    set_solver. }
  destruct (bool_decide_reflect (user_key v.1 = uk)) as [Hk|Hk]; unfold bytes_eqb.
  - rewrite bool_decide_eq_true_2 by done. cbn [negb orb]. destruct (Z.ltb_spec s (sequence v.1)) as [Hs|Hs].
    + destruct best as [b|]; cbn in *.
      * destruct Hok as (Hb & Hbu & Hbs & Hbm). split_and!; [apply elem_of_app; auto|done|done|].
        intros w [Hw| ->%list_elem_of_singleton]%elem_of_app; [auto|lia].
      * intros w [Hw| ->%list_elem_of_singleton]%elem_of_app; auto.
    + destruct best as [b|]; cbn in *.
      * destruct Hok as (Hb & Hbu & Hbs & Hbm).
        assert (sequence b.1 ≠ sequence v.1) as Hbv by (apply Hne; congruence).
        rewrite version_newer_seq by congruence. destruct (Z.ltb_spec (sequence b.1) (sequence v.1)); cbn.
        -- split_and!; [apply elem_of_app; right; set_solver|done|lia|].
           intros w [Hw| ->%list_elem_of_singleton]%elem_of_app Hwu Hws; [specialize (Hbm w Hw Hwu Hws)|]; lia.
        -- split_and!; [apply elem_of_app; auto|done|done|].
           intros w [Hw| ->%list_elem_of_singleton]%elem_of_app Hwu Hws; [by apply Hbm|lia].
      * split_and!; [apply elem_of_app; right; set_solver|done|lia|].
        intros w [Hw| ->%list_elem_of_singleton]%elem_of_app Hwu Hws; [specialize (Hok w Hw Hwu)|]; lia.
  - rewrite bool_decide_eq_false_2 by done. cbn [negb orb]. destruct best as [b|]; cbn in *.
    + destruct Hok as (Hb & Hbu & Hbs & Hbm). split_and!; [apply elem_of_app; auto|done|done|].
      intros w [Hw| ->%list_elem_of_singleton]%elem_of_app; auto. done.
    + intros w [Hw| ->%list_elem_of_singleton]%elem_of_app; auto. done.
Qed.

Lemma scan_newest_ok l uk s : uniq l → scan_ok l uk s (scan_newest l uk s).
Proof.
  unfold scan_newest. induction l as [|v l IH] using rev_ind; intros Hu.
  - intros w Hw. by apply not_elem_of_nil in Hw.
  - rewrite foldl_app. cbn [foldl]. apply scan_step_ok; [done|]. apply IH.
    eapply uniq_sub; [done|]. by apply submseteq_inserts_r.
Qed.

Lemma scan_newest_Some l uk s v : uniq l → scan_newest l uk s = Some v ↔ newest_of l uk s v.
Proof.
  intros Hu. pose proof (scan_newest_ok l uk s Hu) as Hok. destruct (scan_newest l uk s) as [w|]; cbn in Hok.
  - split; [by intros [= <-]|]. intros Hv. f_equal. by eapply newest_of_unique.
  - split; [done|]. intros (Hv & Hk & Hs & _). specialize (Hok v Hv Hk). lia.
Qed.

(** ** The two sides of a read *)

Lemma tail_best_ok m uk s :
  mem_ok m → scan_ok (tail m) uk s (tail_best m uk s).
Proof.
  intros Hm. pose proof (mo_idx m Hm) as Hidx.
  assert (uniq (tail m)) as Hu.
  { eapply uniq_sub; [apply (mo_uniq m Hm)|]. by apply submseteq_inserts_l. }
  assert (tail_best m uk s = i ← tail_idx_get (tail_idx m) uk; newest ← tail m !! i;
    if sequence newest.1 <=? s then Some newest else scan_newest (tail m) uk s) as ->.
  { unfold tail_best, tail_idx_get. by destruct (om_get (idx_prefix uk) (tail_idx m)). }
  destruct (tail_idx_get (tail_idx m) uk) as [i|] eqn:Hi; cbn.
  - apply (tail_idx_get_Some _ _ _ _ Hidx) in Hi as (v & Hv & Hk & Hmax). rewrite Hv. cbn.
    destruct (Z.leb_spec (sequence v.1) s); [|by apply scan_newest_ok].
    split_and!; [by eapply list_elem_of_lookup_2|done|done|]. intros w Hw Hwk _. by apply Hmax.
  - intros w Hw Hwk. by apply (tail_idx_get_None _ _ _ _ Hidx Hi) in Hw.
Qed.

Lemma find_visible_ok uk vs s : vers_ok uk vs → scan_ok vs uk s (find_visible vs s).
Proof.
  intros Hv. pose proof (vers_seq_sorted uk vs Hv) as Hs. destruct Hv as [_ Hu _]. unfold find_visible.
  induction Hs as [|x vs Hs IH Hx].
  - cbn. intros w Hw. by apply not_elem_of_nil in Hw.
  - rewrite filter_cons. destruct (decide (sequence x.1 ≤ s)) as [Hle|Hgt]; cbn.
    + split_and!; [set_solver|apply Hu; set_solver|done|]. rewrite Forall_forall in Hx.
      intros w [->|Hw]%elem_of_cons _ _; [lia|by apply Hx].
    + specialize (IH ltac:(set_solver)). destruct (head _) as [v|]; cbn in *.
      * destruct IH as (Hv & Hvk & Hvs & Hvm). split_and!; [set_solver|done|done|].
        intros w [->|Hw]%elem_of_cons Hwk Hws; [lia|auto].
      * intros w [->|Hw]%elem_of_cons Hwk; [lia|auto].
Qed.

Lemma from_map_ok m uk s :
  map_ok m → scan_ok (map_entries m) uk s (vers ← om_get uk (map m); find_visible (vers_list vers) s).
Proof.
  intros Hm. destruct (om_get uk (map m)) as [vers|] eqn:Hget; cbn.
  - assert (vers_ok uk (vers_list vers)) as Hv.
    { eapply mo_vers; [done|]. by apply om_get_elem; [apply Hm|]. }
    pose proof (find_visible_ok uk _ s Hv) as Hok.
    assert (∀ w, w ∈ map_entries m → user_key w.1 = uk → w ∈ vers_list vers) as Hin.
    { intros w Hw Hk. destruct (map_get_entries m uk w Hm Hw Hk) as (vers' & Hget' & ?). congruence. }
    destruct (find_visible _ s) as [v|]; cbn in *.
    + destruct Hok as (Hvin & Hvk & Hvs & Hvm). split_and!; [by eapply get_map_entries|done|done|auto].
    + auto.
  - intros w Hw Hk. destruct (map_get_entries m uk w Hm Hw Hk) as (vers & Hget' & _). congruence.
Qed.

(** Merging the two sides, newest first. *)
Definition merge_best (from_tail from_map : option Version) : option Version :=
  match from_tail, from_map with
  | Some t, Some p => Some (if version_newer p t then p else t)
  | Some t, None => Some t
  | None, Some p => Some p
  | None, None => None
  end.

Lemma merge_best_ok l l' uk s t p :
  uniq (l ++ l') → scan_ok l' uk s t → scan_ok l uk s p → scan_ok (l ++ l') uk s (merge_best t p).
Proof.
  intros Hu Ht Hp. destruct t as [t|], p as [p|]; cbn in *.
  - destruct Ht as (Ht & Htk & Hts & Htm), Hp as (Hp & Hpk & Hps & Hpm).
    assert (sequence p.1 ≠ sequence t.1) as Hne.
    { intros Heq. unfold uniq in Hu. rewrite fmap_app in Hu. apply NoDup_app in Hu as (_ & Hd & _).
      apply (Hd (user_key p.1, sequence p.1)).
      - by apply (list_elem_of_fmap_2 (λ e : entry, (user_key e.1, sequence e.1)) l p).
      - rewrite Heq, Hpk, <-Htk. by apply (list_elem_of_fmap_2 (λ e : entry, (user_key e.1, sequence e.1)) l' t). }
    rewrite version_newer_seq by done. destruct (Z.ltb_spec (sequence t.1) (sequence p.1));
      (split_and!; [apply elem_of_app; auto|done|done|]);
      intros w [Hw|Hw]%elem_of_app Hwk Hws; auto; [specialize (Htm w Hw Hwk Hws)|specialize (Hpm w Hw Hwk Hws)]; lia.
  - destruct Ht as (Ht & Htk & Hts & Htm). split_and!; [apply elem_of_app; auto|done|done|].
    intros w [Hw|Hw]%elem_of_app Hwk Hws; [specialize (Hp w Hw Hwk); lia|auto].
  - destruct Hp as (Hp & Hpk & Hps & Hpm). split_and!; [apply elem_of_app; auto|done|done|].
    intros w [Hw|Hw]%elem_of_app Hwk Hws; [auto|specialize (Ht w Hw Hwk); lia].
  - intros w [Hw|Hw]%elem_of_app Hwk; auto.
Qed.

Lemma merge_best_scan m uk s :
  mem_ok m →
  merge_best (tail_best m uk s) (vers ← om_get uk (map m); find_visible (vers_list vers) s) =
    scan_newest (mem_entries m) uk s.
Proof.
  intros Hm. pose proof (merge_best_ok _ _ _ _ _ _ (mo_uniq m Hm) (tail_best_ok m uk s Hm)
    (from_map_ok m uk s (mo_map m Hm))) as Hok. fold (mem_entries m) in Hok.
  pose proof (scan_newest_Some (mem_entries m) uk s) as Hscan.
  destruct (merge_best _ _) as [v|]; cbn in Hok.
  - symmetry. apply Hscan; [apply Hm|done].
  - destruct (scan_newest _ _ _) as [v|]; [|done].
    destruct (proj1 (Hscan v (mo_uniq m Hm)) eq_refl) as (Hv & Hk & Hs & _). specialize (Hok v Hv Hk). lia.
Qed.

(** ** Range deletions *)

Lemma collect_hidden l s uk n :
  range_deleted uk n (collect_range_tombstones l s) = true ↔ hidden l s uk n.
Proof.
  apply range_deleted_hidden. intros t. unfold tombs_of. induction l as [|e l IH]; cbn [collect_range_tombstones].
  - split; [intros Ht; by apply not_elem_of_nil in Ht|intros (e & He & _); by apply not_elem_of_nil in He].
  - destruct (bool_decide_reflect (kind e.1 ≠ RangeDeletion)) as [Hk|Hk]; cbn [orb].
    { rewrite IH. split; intros (x & Hx & ?); exists x; [set_solver|].
      apply elem_of_cons in Hx as [->|Hx]; [naive_solver|done]. }
    apply dec_stable in Hk. destruct (Z.ltb_spec s (sequence e.1)).
    { rewrite IH. split; intros (x & Hx & Hr); exists x; [set_solver|].
      apply elem_of_cons in Hx as [->|Hx]; [lia|done]. }
    rewrite elem_of_cons, IH. split.
    + intros [->|(x & Hx & ?)]; [exists e; set_solver|exists x; set_solver].
    + intros (x & [->|Hx]%elem_of_cons & ?); [left; naive_solver|right; by exists x].
Qed.

Lemma mem_range_deleted_ok m uk n s :
  mem_ok m → mem_range_deleted m uk n s = true ↔ hidden (mem_entries m) s uk n.
Proof.
  intros Hm. unfold mem_range_deleted, hidden. destruct (Z.eqb_spec (range_tombstones m) 0) as [H0|H0].
  - split; [done|]. intros (k & v & Hin & Hk & _). exfalso.
    pose proof (ct_rds _ _ (mo_counts m Hm)) as Hr. rewrite H0 in Hr. unfold rd_count in Hr.
    assert ((k, v) ∈ filter (λ e, is_rd e = true) (mem_entries m)) as Hf.
    { apply list_elem_of_filter. split; [|done]. unfold is_rd. by rewrite bool_decide_eq_true_2. }
    destruct (filter _ _); [by apply not_elem_of_nil in Hf|cbn [length] in Hr; lia].
  - set (hides := tomb_hides uk n s).
    assert (∀ v, hides (user_key v.1) v = true ↔ kind v.1 = RangeDeletion ∧ sequence v.1 ≤ s ∧
              n < sequence v.1 ∧ range_tombstone_covers (user_key v.1) v.2 uk = true) as Hh.
    { intros v. unfold hides, tomb_hides, range_tombstone_covers. destruct (bool_decide_reflect (kind v.1 ≠ RangeDeletion)) as [Hk|Hk]; cbn [orb].
      { split; [done|naive_solver]. }
      apply dec_stable in Hk. destruct (Z.ltb_spec s (sequence v.1)); [split; [done|lia]|].
      rewrite !andb_true_iff, Z.ltb_lt. naive_solver. }
    rewrite orb_true_iff, !existsb_exists. split.
    + intros [([uk' vers] & Hin & (v & Hv & Hhv)%existsb_exists)|(v & Hv & Hhv)].
      * apply list_elem_of_In in Hin, Hv. cbn [fst snd] in *.
        assert (user_key v.1 = uk') as <- by (by apply (vo_user _ _ (mo_vers m (mo_map m Hm) _ _ Hin))).
        apply Hh in Hhv as (? & ? & ? & ?). destruct v as [k v]. exists k, v. split_and!; try done.
        apply elem_of_app. left. apply elem_of_bindings. by eexists _, _.
      * apply list_elem_of_In in Hv. apply Hh in Hhv as (? & ? & ? & ?). destruct v as [k v]. exists k, v.
        split_and!; try done. apply elem_of_app. by right.
    + intros (k & v & [Hin|Hin]%elem_of_app & Hr).
      * left. apply elem_of_bindings in Hin as (uk' & vers & Hb & Hin). exists (uk', vers).
        split; [by apply list_elem_of_In|]. apply existsb_exists. exists (k, v).
        split; [by apply list_elem_of_In|]. cbn [fst].
        assert (user_key k = uk') as <- by (by apply (vo_user _ _ (mo_vers m (mo_map m Hm) _ _ Hb) (k, v))).
        by apply (Hh (k, v)).
      * right. exists (k, v). split; [by apply list_elem_of_In|by apply (Hh (k, v))].
Qed.

(** ** A read is a lookup in the contents *)

Lemma get_live_first k ks h hs : get_live (k :: ks) (h :: hs) = visible_at k h.
Proof.
  unfold get_live. cbn. generalize (visible_at k h). intros b. revert hs.
  induction ks as [|k' ks IH]; intros [|h' hs]; cbn; auto.
Qed.

Lemma get_entry_contents m uk s : mem_ok m → get_entry m uk s = lookup_log (mem_entries m) uk s.
Proof.
  intros Hm. unfold get_entry, lookup_log. fold (merge_best (tail_best m uk s)
    (vers ← om_get uk (map m); find_visible (vers_list vers) s)).
  rewrite merge_best_scan by done. destruct (scan_newest (mem_entries m) uk s) as [v|]; [|done].
  cbn [mbind option_bind fmap list_fmap]. rewrite get_live_first.
  assert (mem_range_deleted m uk (sequence v.1) s =
          range_deleted uk (sequence v.1) (collect_range_tombstones (mem_entries m) s)) as Hr.
  { apply eq_true_iff_eq. by rewrite collect_hidden, mem_range_deleted_ok. }
  destruct (kind v.1); cbn; [done| |done]. rewrite Hr. by destruct (range_deleted _ _ _).
Qed.

(** * Reachable tables *)

(** [mem_reach m log floor]: the table [m] after the writes [log] and any spills,
    collections, absorbs and family splits, with floors up to [floor]. Writers
    draw fresh sequences and a table holds less than 2^64 bytes. *)
Inductive mem_reach : MemTable → list entry → Z → Prop :=
  | reach_new : mem_reach mem_new [] 0
  | reach_insert m log fl k v :
      mem_reach m log fl → fresh_id (k, v) log → total_bytes log + entry_bytes (k, v) ≤ U64_MAX →
      mem_reach (insert m k v) (log ++ [(k, v)]) fl
  | reach_spill m log fl floor :
      mem_reach m log fl →
      mem_reach (spill_tail_with_gc m floor) log (Z.max fl (default fl floor))
  | reach_absorb m o log log' fl fl' floor :
      mem_reach m log fl → mem_reach o log' fl' → uniq (log ++ log') →
      total_bytes (log ++ log') ≤ U64_MAX →
      mem_reach (absorb_with_floor m o floor) (log ++ log') (Z.max (Z.max fl fl') (default fl floor))
  | reach_rest m log fl family :
      mem_reach m log fl →
      mem_reach (take_family m family).1
        (filter (λ e : entry, key_in_cf_family (user_key e.1) family ≠ true) log) fl
  | reach_taken m log fl family :
      mem_reach m log fl →
      mem_reach (take_family m family).2
        (filter (λ e : entry, key_in_cf_family (user_key e.1) family = true) log) fl.

(** The table holds what a collection under [fl] may leave of the log. *)
Record mem_sim (m : MemTable) (log : list entry) (fl : Z) : Prop := {
  ms_ok : mem_ok m;
  ms_uniq : uniq log;
  ms_room : total_bytes log ≤ U64_MAX;
  ms_rel : gc_rel (Some fl) log (mem_entries m);
}.

Lemma gc_rel_floor floor fl l l' :
  match floor with Some f => f ≤ fl | None => True end → gc_rel floor l l' → gc_rel (Some fl) l l'.
Proof.
  intros Hf [H1 H2 H3]. split; [done|done|]. intros e He.
  destruct (H3 e He) as [?|(e' & f & He' & -> & ? & ?)]; [by left|right].
  exists e', fl. split_and!; try done; lia.
Qed.

Lemma gc_rel_filter floor (p : list byte → Prop) `{∀ k, Decision (p k)} l l' :
  gc_rel floor l l' →
  gc_rel floor (filter (λ e : entry, p (user_key e.1)) l) (filter (λ e : entry, p (user_key e.1)) l').
Proof.
  intros [[x Hx]%submseteq_Permutation H2 H3]. split.
  - rewrite Hx, filter_app. by apply submseteq_inserts_r.
  - intros e [Hp He]%list_elem_of_filter Hk. apply list_elem_of_filter. auto.
  - intros e [Hp He]%list_elem_of_filter. destruct (H3 e He) as [?|(e' & f & He' & ? & Hu & ?)].
    + left. by apply list_elem_of_filter.
    + right. exists e', f. split; [|done]. apply list_elem_of_filter. by rewrite Hu.
Qed.

Lemma gc_rel_incl floor l l' e : gc_rel floor l l' → e ∈ l' → e ∈ l.
Proof. intros [Hsub _ _] He. by eapply elem_of_submseteq. Qed.

Lemma mem_sim_split m log fl p rest taken :
  mem_sim m log fl → split_by p m rest taken →
  mem_sim rest (filter (λ e : entry, p (user_key e.1) ≠ true) log) fl ∧
  mem_sim taken (filter (λ e : entry, p (user_key e.1) = true) log) fl.
Proof.
  intros [Hm Hu Hroom Hrel] (Hr & Ht & Hre & Hte).
  split; split; try done; try by apply filter_room.
  - rewrite Hre. exact (gc_rel_filter (Some fl) (λ k, p k ≠ true) log (mem_entries m) Hrel).
  - rewrite Hte. exact (gc_rel_filter (Some fl) (λ k, p k = true) log (mem_entries m) Hrel).
Qed.

Lemma mem_reach_sim m log fl : mem_reach m log fl → mem_sim m log fl.
Proof.
  induction 1 as [|m log fl k v _ IH Hf Hroom|m log fl floor _ IH|m o log log' fl fl' floor _ IH _ IH' Hu Hroom
                 |m log fl family _ IH|m log fl family _ IH].
  - split; [apply mem_new_ok|constructor|done|apply gc_rel_refl].
  - destruct IH as [Hm Hu Hr Hrel]. destruct (insert_ok m k v Hm) as [Hm' He].
    { intros x Hx. apply Hf. by eapply gc_rel_incl. }
    { apply gc_rel_bytes in Hrel. lia. }
    assert (log ++ [(k, v)] ≡ₚ (k, v) :: log) as Hp by (symmetry; apply Permutation_cons_append).
    split; [done| | |rewrite He; by apply gc_rel_app].
    + rewrite Hp. by apply fresh_uniq.
    + rewrite Hp, total_bytes_cons. lia.
  - destruct IH as [Hm Hu Hr Hrel]. destruct (spill_ok m floor Hm) as (Hm' & Hrel' & _). split; [done..|].
    eapply gc_rel_trans; eapply gc_rel_floor; try done; [cbn; lia|]. destruct floor; cbn; [lia|done].
  - destruct IH as [Hm Hu1 Hr1 Hrel], IH' as [Ho Hu2 Hr2 Hrel'].
    assert (gc_rel (Some (Z.max fl fl')) (log ++ log') (mem_entries m ++ mem_entries o)) as Hrel2.
    { eapply gc_rel_trans; [apply gc_rel_app; eapply (gc_rel_floor (Some fl)); [lia|done]|].
      rewrite !(comm (++) (mem_entries m)). apply gc_rel_app. eapply (gc_rel_floor (Some fl')); [lia|done]. }
    destruct (absorb_ok m o floor Hm Ho) as [Hm' Hrel3]; [by eapply gc_rel_uniq| |].
    { apply gc_rel_bytes in Hrel2. lia. }
    split; [done..|]. eapply gc_rel_trans; eapply gc_rel_floor; try done; [cbn; lia|]. destruct floor; cbn; [lia|done].
  - pose proof (take_family_ok m family (ms_ok _ _ _ IH)) as Hs. destruct (take_family m family) as [rest taken].
    by apply (mem_sim_split m log fl (λ k, key_in_cf_family k family) rest taken).
  - pose proof (take_family_ok m family (ms_ok _ _ _ IH)) as Hs. destruct (take_family m family) as [rest taken].
    by apply (mem_sim_split m log fl (λ k, key_in_cf_family k family) rest taken).
Qed.

(** ** Reads at or above the floor *)

Lemma newest_of_rel fl l l' uk s v :
  gc_rel (Some fl) l l' → fl ≤ s → newest_of l' uk s v ↔ newest_of l uk s v.
Proof.
  intros Hrel Hs. pose proof (λ e, gc_rel_incl _ _ _ e Hrel) as Hin. destruct Hrel as [_ _ Hsh]. split.
  - intros (Hv & Hk & Hvs & Hm). split_and!; [auto|done|done|]. intros w Hw Hwk Hws.
    destruct (Hsh w Hw) as [?|(e' & f & He' & [= <-] & Hu & Hseq)]; [auto|].
    assert (sequence e'.1 ≤ sequence v.1) by (apply Hm; [done|congruence|lia]). lia.
  - intros (Hv & Hk & Hvs & Hm). split_and!; [|done|done|auto].
    destruct (Hsh v Hv) as [?|(e' & f & He' & [= <-] & Hu & Hseq)]; [done|].
    assert (sequence e'.1 ≤ sequence v.1) by (apply Hm; [auto|congruence|lia]). lia.
Qed.

Lemma hidden_rel floor l l' s uk n : gc_rel floor l l' → hidden l' s uk n ↔ hidden l s uk n.
Proof.
  intros Hrel. split; intros (k & v & Hin & Hk & Hr); exists k, v; (split; [|done]).
  - by eapply gc_rel_incl.
  - by eapply gr_rds.
Qed.

Lemma lookup_log_rel fl l l' uk s :
  uniq l → gc_rel (Some fl) l l' → fl ≤ s → lookup_log l' uk s = lookup_log l uk s.
Proof.
  intros Hu Hrel Hs. unfold lookup_log.
  assert (scan_newest l' uk s = scan_newest l uk s) as ->.
  { apply option_eq. intros v. rewrite !scan_newest_Some by (done || by eapply gc_rel_uniq). by eapply newest_of_rel. }
  destruct (scan_newest l uk s) as [v|]; [|done]. cbn.
  assert (range_deleted uk (sequence v.1) (collect_range_tombstones l' s) =
          range_deleted uk (sequence v.1) (collect_range_tombstones l s)) as ->; [|done].
  apply eq_true_iff_eq. rewrite !collect_hidden. by eapply hidden_rel.
Qed.

Lemma get_entry_log m log fl uk s :
  mem_reach m log fl → fl ≤ s → get_entry m uk s = lookup_log log uk s.
Proof.
  intros [Hm Hu _ Hrel]%mem_reach_sim Hs. rewrite get_entry_contents by done. by eapply lookup_log_rel.
Qed.

(** The visibility rule reads the newest version, when ranges are proper. *)
Lemma reads_newest_of log uk s v :
  uniq log → proper_ranges log →
  reads log s uk v ↔ ∃ e, newest_of log uk s e ∧ kind e.1 = Value ∧ e.2 = v ∧ ¬ hidden log s uk (sequence e.1).
Proof.
  intros Hu Hp. unfold reads, candidate. split.
  - intros (e & (Hin & Hk & Hkind & Hs) & <- & Hv & Hm & Hh). exists e. split_and!; try done.
    split_and!; [done|done|done|]. intros w Hw Hwk Hws.
    destruct (decide (sequence w.1 ≤ sequence e.1)) as [|Hgt]; [done|exfalso].
    destruct (decide (kind w.1 = RangeDeletion)) as [Hrd|Hrd].
    + apply Hh. destruct w as [k x]. exists k, x. cbn [fst snd] in *. split_and!; [done..|lia|].
      specialize (Hp (k, x) Hw Hrd). cbn [fst snd] in Hp. unfold range_tombstone_covers.
      rewrite Hwk in *. apply andb_true_iff. split; [|by apply bytes_ltb_spec].
      apply bytes_leb_spec. apply bytes_lt_irrefl.
    + apply (Hm w); [done|]. apply ikey_lt_iff. right. split; [congruence|]. left. lia.
  - intros (e & (Hin & Hk & Hs & Hm) & Hv & <- & Hh). exists e.
    split_and!; [done|done|congruence|done|done|done| |done].
    intros e' (He' & Hk' & _ & Hs') Hlt. specialize (Hm e' He' Hk' Hs'). apply ikey_lt_iff in Hlt.
    rewrite Hk, Hk' in Hlt. destruct Hlt as [Hlt|[_ [?|[Heq Hlt]]]]; [by apply bytes_lt_irrefl in Hlt|lia|].
    assert (e' = e) as -> by (apply (uniq_same log); [done..|congruence|done]). lia.
Qed.

Lemma lookup_log_reads log uk s v :
  uniq log → proper_ranges log → (∃ n, lookup_log log uk s = Some (n, Found v)) ↔ reads log s uk v.
Proof.
  intros Hu Hp. rewrite reads_newest_of by done. unfold lookup_log. split.
  - intros [n Hl]. destruct (scan_newest log uk s) as [e|] eqn:He; [|done]. cbn in Hl.
    apply scan_newest_Some in He; [|done]. exists e.
    destruct (kind e.1) eqn:Ek; [done| |done].
    destruct (range_deleted _ _ _) eqn:Hr; [done|]. injection Hl as <- <-.
    rewrite <-collect_hidden, Hr. done.
  - intros (e & He & Hv & <- & Hh). exists (sequence e.1).
    apply scan_newest_Some in He; [|done]. rewrite He. cbn. rewrite Hv.
    rewrite <-collect_hidden in Hh. by destruct (range_deleted _ _ _).
Qed.

(** * Properties *)

(** C15: a memtable read is a lookup in the log of writes. After any sequence of
    inserts, spills, collections with a floor, absorbs of other tables and
    family splits, for every key and every snapshot at or above the floors
    used, [get_entry] returns exactly what the newest write of the key at the
    snapshot and the newer range deletions over it say: the split of versions
    between the map, the tail and its three-way index, and the dropped old
    versions, cannot be seen. *)
Theorem get_entry_refines_log m log fl uk s :
  mem_reach m log fl → fl ≤ s → get_entry m uk s = lookup_log log uk s.
Proof. apply get_entry_log. Qed.

(** A memtable read agrees with the range read of the engine. When range
    deletions end after they start, [get] finds a value exactly when the
    reference visibility rule [reads] shows that value in the log. *)
Theorem get_found_iff_reads m log fl uk s v :
  mem_reach m log fl → fl ≤ s → proper_ranges log →
  get m uk s = Found v ↔ reads log s uk v.
Proof.
  intros Hm Hs Hp. rewrite <-lookup_log_reads by (done || by apply mem_reach_sim in Hm as [? ? ? ?]).
  unfold get. rewrite (get_entry_log m log fl) by done.
  destruct (lookup_log log uk s) as [[n look]|]; [|naive_solver].
  split; [intros ->; by exists n|intros [n' [= -> ->]]; done].
Qed.

(** The memtable's counters are exact. In every reachable table the number
    of entries, the byte estimate and the number of range tombstones are those
    of the versions the table holds, through every spill, collection, absorb
    and split; the per-family bytes are not covered, a collecting spill and an
    absorb leave them inexact. *)
Theorem mem_counters_exact m log fl :
  mem_reach m log fl →
  entries m = Z.of_nat (length (mem_entries m)) ∧ approx_bytes m = total_bytes (mem_entries m) ∧
  range_tombstones m = rd_count (mem_entries m).
Proof. intros [Hm _ _ _]%mem_reach_sim. by destruct (mo_counts m Hm). Qed.

(** Taking a family out splits the table. Every version whose user key is in
    the family goes to the taken table, every other one stays, and both tables
    satisfy the memtable invariant, on the contiguous path (two [split_off]
    cuts) as on the filtering one. *)
Theorem take_family_splits m family :
  mem_ok m →
  let '(rest, taken) := take_family m family in
  split_by (λ k, key_in_cf_family k family) m rest taken.
Proof. apply take_family_ok. Qed.

(** An empty range deletion hides its start key. A range deletion that does
    not end after it starts deletes nothing, but when it is the newest version
    at its start key, [get] reports the key missing although the reference
    visibility rule shows its value. The memtable relies on callers to refuse
    such ranges. *)
Theorem empty_range_hides_key uk v end_ :
  ¬ bytes_lt uk end_ → entry_bytes (mkIKey uk 1 Value, v) + entry_bytes (mkIKey uk 2 RangeDeletion, end_) ≤ U64_MAX →
  get (delete_range (put mem_new uk 1 v) uk end_ 2) uk 2 = NotFound ∧
  reads [(mkIKey uk 1 Value, v); (mkIKey uk 2 RangeDeletion, end_)] 2 uk v.
Proof.
  intros He Hroom. pose proof (entry_bytes_pos (mkIKey uk 2 RangeDeletion, end_)).
  pose proof (entry_bytes_pos (mkIKey uk 1 Value, v)). split.
  - assert (mem_reach (delete_range (put mem_new uk 1 v) uk end_ 2)
              (([] ++ [(mkIKey uk 1 Value, v)]) ++ [(mkIKey uk 2 RangeDeletion, end_)]) 0) as Hr.
    { apply reach_insert; [apply reach_insert; [constructor| |]| |]; cbn [app]; unfold total_bytes; cbn [foldr]; try lia.
      - intros x Hx. by apply not_elem_of_nil in Hx.
      - intros x ->%list_elem_of_singleton. done. }
    unfold get. rewrite (get_entry_log _ _ 0) by (done || lia). unfold lookup_log, scan_newest, scan_step. cbn.
    by rewrite !(proj2 (bytes_eqb_spec uk uk) eq_refl).
  - exists (mkIKey uk 1 Value, v). unfold candidate. cbn. split_and!; try done; [set_solver| |].
    + intros e' (Hin & _ & Hk & _). apply elem_of_cons in Hin as [->|[->|Hn]%elem_of_cons]; [apply ikey_lt_irrefl|done|].
      by apply not_elem_of_nil in Hn.
    + intros (k & x & [[= -> ->]|[[= -> ->]|Hn]%elem_of_cons]%elem_of_cons & Hk & _ & _ & Hc); [done| |by apply not_elem_of_nil in Hn].
      unfold range_tombstone_covers in Hc. cbn in Hc. apply andb_true_iff in Hc as [_ Hc%bytes_ltb_spec]. done.
Qed.

(** ** Witnesses *)

(** A table with a spilled and collected key, a range deletion and a tail. *)
Definition sample_log : list entry :=
  [(mkIKey [x61] 1 Value, [x31]); (mkIKey [x61] 2 Value, [x32]); (mkIKey [x62] 3 Value, [x33]);
   (mkIKey [x62] 4 RangeDeletion, [x63]); (mkIKey [x61] 5 Deletion, [])].
Definition sample_mem : MemTable :=
  let m := put (put (put mem_new [x61] 1 [x31]) [x61] 2 [x32]) [x62] 3 [x33] in
  delete (delete_range (spill_tail_with_gc m (Some 2)) [x62] [x63] 4) [x61] 5.

Lemma sample_reach : mem_reach sample_mem sample_log 2.
Proof.
  unfold sample_mem, sample_log.
  apply (reach_insert _ [_; _; _; _] 2); [apply (reach_insert _ [_; _; _] 2);
    [apply (reach_spill _ [_; _; _] 0 (Some 2)); apply (reach_insert _ [_; _] 0);
       [apply (reach_insert _ [_] 0); [apply (reach_insert _ [] 0); [constructor| |]| |]| |]| |]| |];
    try (vm_compute; discriminate);
    intros x Hx; repeat (apply elem_of_cons in Hx as [->|Hx]; [done|]); by apply not_elem_of_nil in Hx.
Qed.

Lemma get_entry_refines_log_witness :
  get_entry sample_mem [x61] 4 = Some (2, Found [x32]) ∧ get_entry sample_mem [x62] 3 = Some (3, Found [x33]).
Proof.
  split; (rewrite (get_entry_refines_log sample_mem sample_log 2); [vm_compute; reflexivity|apply sample_reach|lia]).
Defined.

Lemma get_found_iff_reads_witness : reads sample_log 4 [x61] [x32].
Proof.
  apply (get_found_iff_reads sample_mem sample_log 2 [x61] 4 [x32]); [apply sample_reach|lia| |vm_compute; reflexivity].
  intros e He Hk. repeat (apply elem_of_cons in He as [->|He]; [first [discriminate Hk|vm_compute; reflexivity]|]).
  by apply not_elem_of_nil in He.
Defined.

Lemma mem_counters_exact_witness : entries sample_mem = 4.
Proof. destruct (mem_counters_exact sample_mem sample_log 2 sample_reach) as [-> _]. vm_compute. reflexivity. Defined.

Lemma take_family_splits_witness :
  mem_entries (take_family (put mem_new [x66; x00; x61] 1 [x31]) [x66]).2 ≡ₚ [(mkIKey [x66; x00; x61] 1 Value, [x31])].
Proof.
  assert (mem_ok (put mem_new [x66; x00; x61] 1 [x31])) as Hok.
  { apply insert_ok; [apply mem_new_ok|intros x Hx; by apply not_elem_of_nil in Hx|vm_compute; discriminate]. }
  pose proof (take_family_splits (put mem_new [x66; x00; x61] 1 [x31]) [x66] Hok) as H.
  destruct (take_family _ _) as [rest taken]. destruct H as (_ & _ & _ & ->). vm_compute. reflexivity.
Defined.

Lemma empty_range_hides_key_witness :
  get (delete_range (put mem_new [x61] 1 [x31]) [x61] [x61] 2) [x61] 2 = NotFound.
Proof.
  apply (empty_range_hides_key [x61] [x31] [x61]); [vm_compute; discriminate|vm_compute; discriminate].
Defined.
