(* ===== verification/MemIter.v ===== *)
(** Range iteration over the memtable ([memtable_kernel.rs]): the cursor over the
    map, its merge with the sorted tail or with one index shard, and the
    snapshot range read [range_snapshot] on top.

    An index of the tail that is out of bounds, and bounds a [BTreeMap::range]
    refuses, are panics of the code: the outer [option] of the model. *)

From S2P Require Import Prelude ErrorKernel KeyKernel Visibility CompactGc OrdMap MemIndex MemTable MemFamily MemRead.

Local Open Scope Z_scope.

(** * Cursors *)

Inductive VersIter := ItOne (v : option Version) | ItMany (vs : list Version).

Definition vers_iter (vers : Versions) : VersIter :=
  match vers with One v => ItOne (Some v) | Many vs => ItMany vs end.

Definition vers_iter_next (it : VersIter) : option Version * VersIter :=
  match it with
  | ItOne v => (v, ItOne None)
  | ItMany [] => (None, ItMany [])
  | ItMany (v :: vs) => (Some v, ItMany vs)
  end.

Record MemInternalRange := mkRange { users : OrdMap (list byte) Versions; cur : VersIter }.

(** [MemInternalRange::next]: the loop pulls the next user when the current one
    is exhausted. *)
Fixpoint range_next_from (us : OrdMap (list byte) Versions) (c : VersIter) : option Version * MemInternalRange :=
  match vers_iter_next c with
  | (Some v, c') => (Some v, mkRange us c')
  | (None, c') =>
      match us with
      | [] => (None, mkRange [] c')
      | kv :: us => range_next_from us (vers_iter kv.2)
      end
  end.
Definition range_next (r : MemInternalRange) : option Version * MemInternalRange :=
  range_next_from (users r) (cur r).

Definition range_peek (r : MemInternalRange) : option Version :=
  match cur r with
  | ItOne (Some v) => Some v
  | ItMany vs => head vs
  | ItOne None =>
      match users r with
      | [] => None
      | (_, One v) :: _ => Some v
      | (_, Many vs) :: _ => head vs
      end
  end.

Definition peeks_user (r : MemInternalRange) (uk : list byte) : bool :=
  match range_peek r with Some v => bytes_eqb (user_key v.1) uk | None => false end.

(** [MemInternalRange::step_user]; every turn takes a user or ends with the
    cursor empty, so one turn more than the users is enough. *)
Fixpoint range_step_user (fuel : nat) (r : MemInternalRange) (uk : list byte) : MemInternalRange :=
  match fuel with
  | O => r
  | S n =>
      if peeks_user r uk then
        match users r with
        | [] => range_step_user n (mkRange [] (ItOne None)) uk
        | kv :: us => range_step_user n (mkRange us (vers_iter kv.2)) uk
        end
      else r
  end.

Record MemInternalMerge := mkMerge { mg_map : MemInternalRange; mg_tail : list Version }.

Definition merge_next (it : MemInternalMerge) : option Version * MemInternalMerge :=
  match range_peek (mg_map it), mg_tail it with
  | None, [] => (None, it)
  | Some _, [] =>
      let '(v, r) := range_next (mg_map it) in (v, mkMerge r [])
  | None, t :: ts => (Some t, mkMerge (mg_map it) ts)
  | Some p, t :: ts =>
      match ikey_cmp p.1 t.1 with
      | Lt => let '(v, r) := range_next (mg_map it) in (v, mkMerge r (t :: ts))
      | Gt => (Some t, mkMerge (mg_map it) ts)
      | Eq => let '(_, r) := range_next (mg_map it) in (Some t, mkMerge r ts)
      end
  end.

Record MemInternalIdx := mkIdx { ix_map : MemInternalRange; ix_idx : list (PackKey * nat); ix_tail : list Version }.

(** [None] is the panic of [self.tail[i]] out of bounds. *)
Definition idx_next (it : MemInternalIdx) : option (option Version * MemInternalIdx) :=
  tail_item ← match ix_idx it with
              | [] => Some None
              | (_, i) :: _ => Some <$> ix_tail it !! i
              end;
  Some (match range_peek (ix_map it), tail_item, ix_idx it with
        | None, None, _ => (None, it)
        | Some _, None, _ =>
            let '(v, r) := range_next (ix_map it) in (v, mkIdx r (ix_idx it) (ix_tail it))
        | None, Some t, _ :: rest => (Some t, mkIdx (ix_map it) rest (ix_tail it))
        | Some p, Some t, _ :: rest =>
            if ikey_ltb t.1 p.1 then (Some t, mkIdx (ix_map it) rest (ix_tail it))
            else let '(v, r) := range_next (ix_map it) in (v, mkIdx r (ix_idx it) (ix_tail it))
        | _, Some _, [] => (None, it)
        end).

Inductive MemInternalIter :=
  | ItMap (it : MemInternalRange)
  | ItMerge (it : MemInternalMerge)
  | ItIdx (it : MemInternalIdx).

Definition iter_next (it : MemInternalIter) : option (option Version * MemInternalIter) :=
  match it with
  | ItMap r => let '(v, r) := range_next r in Some (v, ItMap r)
  | ItMerge g => let '(v, g) := merge_next g in Some (v, ItMerge g)
  | ItIdx x => '(v, x) ← idx_next x; Some (v, ItIdx x)
  end.

(** [iter_internal_iter(..).collect()]: [None] is a panic or out of fuel. *)
Fixpoint iter_drain (fuel : nat) (it : MemInternalIter) : option (list Version) :=
  match fuel with
  | O => None
  | S n =>
      '(v, it) ← iter_next it;
      match v with
      | None => Some []
      | Some v => cons v <$> iter_drain n it
      end
  end.

(** * Building an iterator *)

(** [BTreeMap::range] panics on bounds that cross. *)
Definition bounds_cross (start end_ : Bound) : bool :=
  match start, end_ with
  | Excluded s, Excluded e => bytes_leb e s
  | Included s, (Included e | Excluded e) => bytes_ltb e s
  | Excluded s, Included e => bytes_ltb e s
  | _, _ => false
  end.

Definition iter_internal_range_cursor (m : MemTable) (start end_ : Bound) : option MemInternalRange :=
  if bounds_cross start end_ then None
  else Some (mkRange (om_range (λ k, user_key_in_range k start end_) (map m)) (ItOne None)).

Definition iter_internal_iter (m : MemTable) (start end_ : Bound) : option MemInternalIter :=
  cursor ← iter_internal_range_cursor m start end_;
  if (length (tail m) =? 0)%nat then Some (ItMap cursor)
  else
    let t := filter (λ v : Version, user_key_in_range (user_key v.1) start end_ = true) (tail m) in
    Some (ItMerge (mkMerge cursor (sort_entries t))).

Definition bound_cf_prefix (b : Bound) : option (list byte) :=
  match b with
  | Included k | Excluded k => Some (idx_prefix k)
  | Unbounded => None
  end.

Definition bound_len_le_32 (b : Bound) : bool :=
  match b with
  | Unbounded => true
  | Included k | Excluded k => (length k <=? 32)%nat
  end.

(** The [short] range between [packed_short_bound]s. *)
Definition in_packed_range (start end_ : Bound) (sk : PackKey) : bool :=
  match start with
  | Unbounded => true
  | Included k => match kcmp sk (pack_key k) with Lt => false | _ => true end
  | Excluded k => match kcmp sk (pack_key k) with Gt => true | _ => false end
  end &&
  match end_ with
  | Unbounded => true
  | Included k => match kcmp sk (pack_key k) with Gt => false | _ => true end
  | Excluded k => match kcmp sk (pack_key k) with Lt => true | _ => false end
  end.

(** The shard a range may be read from. *)
Definition pick_shard (m : MemTable) (start end_ : Bound) : option TailShard :=
  let only := match tail_idx m with [(_, s)] => Some s | _ => None end in
  match bound_cf_prefix start, bound_cf_prefix end_ with
  | Some a, Some b =>
      if bytes_eqb a b && negb (length a =? 0)%nat && (length a <? 32)%nat then om_get a (tail_idx m)
      else only
  | _, _ => only
  end.

Definition iter_internal_iter_at (m : MemTable) (start end_ : Bound) (snapshot : Z) : option MemInternalIter :=
  if (length (tail m) =? 0)%nat || (snapshot <? tail_max_seq m) then iter_internal_iter m start end_
  else match pick_shard m start end_ with
       | None => iter_internal_iter m start end_
       | Some shard =>
           if negb (length (long shard) =? 0)%nat || (length (short shard) =? 0)%nat ||
              negb (bound_len_le_32 start) || negb (bound_len_le_32 end_)
           then iter_internal_iter m start end_
           else
             cursor ← iter_internal_range_cursor m start end_;
             Some (ItIdx (mkIdx cursor (om_range (in_packed_range start end_) (short shard)) (tail m)))
       end.

(** * [range_snapshot] *)

Definition iter_fuel (m : MemTable) : nat := S (length (mem_entries m)).

Fixpoint snapshot_loop (m : MemTable) (snapshot : Z) (l : list Version) (last : option (list byte))
    (out : list VisibleKv) : list VisibleKv :=
  match l with
  | [] => out
  | (k, v) :: l =>
      if snapshot <? sequence k then snapshot_loop m snapshot l last out
      else if bool_decide (last = Some (user_key k)) then snapshot_loop m snapshot l last out
      else
        let range_hidden :=
          bool_decide (kind k = Value) && mem_range_deleted m (user_key k) (sequence k) snapshot in
        snapshot_loop m snapshot l (Some (user_key k))
          (if visible_at (kind k) range_hidden then out ++ [mkVisible (user_key k) v] else out)
  end.

Definition range_snapshot (m : MemTable) (start end_ : Bound) (snapshot : Z) : option (list VisibleKv) :=
  it ← iter_internal_iter_at m start end_ snapshot;
  l ← iter_drain (iter_fuel m) it;
  Some (snapshot_loop m snapshot l None []).

(** * Lemmas *)

(** ** The map cursor *)

Definition iter_list (c : VersIter) : list Version :=
  match c with ItOne (Some v) => [v] | ItOne None => [] | ItMany vs => vs end.

(** What the cursor has still to yield. *)
Definition pend (r : MemInternalRange) : list Version := iter_list (cur r) ++ bindings (users r).

Lemma range_next_pend r :
  ∃ r', range_next r = (head (pend r), r') ∧ pend r' = List.tail (pend r).
Proof.
  destruct r as [us c]. unfold range_next, pend. cbn [users cur]. revert c.
  induction us as [|kv us IH]; intros c; cbn [range_next_from].
  - destruct c as [[v|]|[|v vs]]; cbn; eexists; (split; [done|]); cbn; by rewrite ?app_nil_r.
  - change (bindings (kv :: us)) with (vers_list kv.2 ++ bindings us).
    destruct c as [[v|]|[|v vs]]; cbn.
    + eexists; by split.
    + destruct (IH (vers_iter kv.2)) as (r' & -> & Hr). exists r'. by destruct kv as [? [|]].
    + destruct (IH (vers_iter kv.2)) as (r' & -> & Hr). exists r'. by destruct kv as [? [|]].
    + eexists; by split.
Qed.

Lemma map_drain_ok fuel r :
  (length (pend r) < fuel)%nat → iter_drain fuel (ItMap r) = Some (pend r).
Proof.
  revert r. induction fuel as [|fuel IH]; intros r Hf; [lia|]. cbn [iter_drain iter_next].
  destruct (range_next_pend r) as (r' & -> & Hr'). cbn.
  destruct (pend r) as [|v l] eqn:E; cbn in *; [done|]. rewrite IH by (rewrite Hr'; lia).
  by rewrite Hr'.
Qed.

(** Cursors over keys with one version each. *)
Definition single (vers : Versions) : Prop := match vers with One _ => True | Many _ => False end.
Record singles (r : MemInternalRange) : Prop := {
  sg_cur : match cur r with ItOne _ => True | ItMany _ => False end;
  sg_users uk vers : (uk, vers) ∈ users r → single vers;
}.

Lemma singles_peek r : singles r → range_peek r = head (pend r).
Proof.
  destruct r as [us c]. intros [Hc Hu]. unfold range_peek, pend. cbn in *.
  destruct c as [[v|]|]; [done| |done]. destruct us as [|[uk [v|vs]] us]; [done|done|].
  destruct (Hu uk (Many vs)). set_solver.
Qed.

Lemma singles_next r v r' : singles r → range_next r = (v, r') → singles r'.
Proof.
  destruct r as [us c]. intros [Hc Hu]. unfold range_next. cbn in *. revert c Hc.
  induction us as [|[uk vers] us IH]; intros c Hc; cbn [range_next_from];
    destruct c as [[w|]|]; cbn; try done.
  - intros [= <- <-]. split; cbn; [done|set_solver].
  - intros [= <- <-]. split; cbn; [done|set_solver].
  - intros [= <- <-]. split; cbn; [done|set_solver].
  - apply IH; [set_solver|]. assert (single vers) as Hs by (apply (Hu uk); set_solver). by destruct vers.
Qed.

(** ** Merging two sorted sides *)

Definition before_head (p : Version) (l : list Version) : Prop :=
  match l with [] => True | t :: _ => ikey_lt p.1 t.1 end.

Inductive merged : list Version → list Version → list Version → Prop :=
  | merged_nil : merged [] [] []
  | merged_left p P T out : before_head p T → merged P T out → merged (p :: P) T (p :: out)
  | merged_right t P T out : before_head t P → merged P T out → merged P (t :: T) (t :: out).

Lemma merged_perm P T out : merged P T out → out ≡ₚ P ++ T.
Proof.
  induction 1 as [|p P T out _ _ IH|t P T out _ _ IH]; cbn; [done|by f_equiv|].
  rewrite <-Permutation_middle. by f_equiv.
Qed.

Lemma sorted_before_head p l :
  StronglySorted ikey_lt l.*1 → before_head p l → ∀ x, x ∈ l → ikey_lt p.1 x.1.
Proof.
  destruct l as [|t l]; cbn; intros Hs Hb x Hx; [by apply not_elem_of_nil in Hx|].
  apply elem_of_cons in Hx as [->|Hx]; [done|]. apply StronglySorted_inv in Hs as [_ Ht].
  rewrite Forall_forall in Ht. trans t.1; [done|]. apply Ht. by apply list_elem_of_fmap_2.
Qed.

Lemma merged_sorted P T out :
  merged P T out → StronglySorted ikey_lt P.*1 → StronglySorted ikey_lt T.*1 → StronglySorted ikey_lt out.*1.
Proof.
  assert (∀ (x : Version) (a b c : list Version), c ≡ₚ a ++ b → (∀ y, y ∈ a → ikey_lt x.1 y.1) → (∀ y, y ∈ b → ikey_lt x.1 y.1) →
            StronglySorted ikey_lt c.*1 → StronglySorted ikey_lt (x :: c).*1) as Hcons.
  { intros x a b c Hp Ha Hb Hc. cbn. constructor; [done|]. apply Forall_forall.
    intros k (y & -> & Hy)%list_elem_of_fmap. rewrite Hp in Hy. apply elem_of_app in Hy as [?|?]; auto. }
  induction 1 as [|p P T out Hb Hm IH|t P T out Hb Hm IH]; intros HP HT; [constructor| |].
  - cbn in HP. apply StronglySorted_inv in HP as [HP Hp]. rewrite Forall_forall in Hp.
    eapply Hcons; [by apply merged_perm| |by apply sorted_before_head|by apply IH].
    intros y Hy. apply Hp. by apply list_elem_of_fmap_2.
  - cbn in HT. apply StronglySorted_inv in HT as [HT Ht]. rewrite Forall_forall in Ht.
    eapply Hcons; [by apply merged_perm|by apply sorted_before_head| |by apply IH].
    intros y Hy. apply Ht. by apply list_elem_of_fmap_2.
Qed.

Definition apart (P T : list Version) : Prop := ∀ p t, p ∈ P → t ∈ T → p.1 ≠ t.1.

Lemma merge_drain_ok fuel it :
  singles (mg_map it) → apart (pend (mg_map it)) (mg_tail it) →
  (length (pend (mg_map it)) + length (mg_tail it) < fuel)%nat →
  ∃ out, iter_drain fuel (ItMerge it) = Some out ∧ merged (pend (mg_map it)) (mg_tail it) out.
Proof.
  revert it. induction fuel as [|fuel IH]; intros [r T] Hs Hap Hf; [lia|]. cbn [mg_map mg_tail] in *.
  cbn [iter_drain iter_next]. unfold merge_next. cbn [mg_map mg_tail]. rewrite singles_peek by done.
  destruct (range_next_pend r) as (r' & Hnext & Hr'). pose proof (singles_next _ _ _ Hs Hnext) as Hs'.
  rewrite Hnext. destruct (pend r) as [|p P] eqn:EP; cbn in Hr' |- *; destruct T as [|t T]; cbn in Hf |- *.
  - exists []. split; [done|constructor].
  - destruct (IH (mkMerge r T)) as (out & -> & Hm); cbn; rewrite ?EP; [done|intros ? ? H; by apply not_elem_of_nil in H|cbn; lia|].
    exists (t :: out). split; [done|]. cbn in Hm. rewrite EP in Hm. by constructor.
  - destruct (IH (mkMerge r' [])) as (out & -> & Hm); cbn; rewrite ?Hr'; [done|intros ? ? _ H; by apply not_elem_of_nil in H|cbn; lia|].
    exists (p :: out). split; [done|]. cbn in Hm. rewrite Hr' in Hm. by constructor.
  - assert (p.1 ≠ t.1) as Hne by (apply Hap; set_solver). destruct (ikey_cmp p.1 t.1) eqn:E.
    + by apply ikey_cmp_eq in E.
    + destruct (IH (mkMerge r' (t :: T))) as (out & Ho & Hm); cbn; rewrite ?Hr'; [done| |cbn; lia|].
      { intros x y Hx Hy. apply Hap; set_solver. }
      cbn. rewrite Ho. exists (p :: out). split; [done|]. cbn in Hm. rewrite Hr' in Hm. by constructor.
    + destruct (IH (mkMerge r T)) as (out & Ho & Hm); cbn; rewrite ?EP; [done| |cbn; lia|].
      { intros x y Hx Hy. apply Hap; set_solver. }
      cbn. rewrite Ho. exists (t :: out). split; [done|]. cbn in Hm. rewrite EP in Hm.
      constructor; [by apply ikey_cmp_gt|done].
Qed.

Definition resolve (t : list Version) (idx : list (PackKey * nat)) : list Version :=
  omap (λ ki, t !! ki.2) idx.

Lemma idx_drain_ok fuel r idx t :
  singles r → Forall (λ ki : PackKey * nat, is_Some (t !! ki.2)) idx → apart (pend r) (resolve t idx) →
  (length (pend r) + length idx < fuel)%nat →
  ∃ out, iter_drain fuel (ItIdx (mkIdx r idx t)) = Some out ∧ merged (pend r) (resolve t idx) out.
Proof.
  revert r idx. induction fuel as [|fuel IH]; intros r idx Hs Hidx Hap Hf; [lia|].
  cbn [iter_drain iter_next]. unfold idx_next. cbn [ix_map ix_idx ix_tail]. rewrite singles_peek by done.
  destruct (range_next_pend r) as (r' & Hnext & Hr'). pose proof (singles_next _ _ _ Hs Hnext) as Hs'.
  rewrite Hnext. destruct idx as [|[sk i] idx].
  - cbn. destruct (pend r) as [|p P] eqn:EP; cbn in *.
    + exists []. split; [done|constructor].
    + destruct (IH r' []) as (out & -> & Hm); rewrite ?Hr'; [done|done|intros ? ? _ H; by apply not_elem_of_nil in H|cbn; lia|].
      exists (p :: out). split; [done|]. rewrite Hr' in Hm. by constructor.
  - apply Forall_cons in Hidx as [[w Hw] Hidx]. cbn in Hw. cbn [resolve omap list_omap snd] in *.
    rewrite Hw in *. cbn. destruct (pend r) as [|p P] eqn:EP; cbn [head List.tail length] in *.
    + destruct (IH r idx) as (out & Ho & Hm); rewrite ?EP; [done|done|intros ? ? H; by apply not_elem_of_nil in H|cbn; lia|].
      cbn. rewrite Ho. exists (w :: out). split; [done|]. rewrite EP in Hm. by constructor.
    + assert (p.1 ≠ w.1) as Hne by (apply Hap; set_solver). unfold ikey_ltb. destruct (ikey_cmp w.1 p.1) eqn:E.
      * by apply ikey_cmp_eq in E.
      * destruct (IH r idx) as (out & Ho & Hm); rewrite ?EP; [done|done| |cbn; lia|].
        { intros x y Hx Hy. apply Hap; set_solver. }
        cbn. rewrite Ho. exists (w :: out). split; [done|]. rewrite EP in Hm. by constructor.
      * destruct (IH r' ((sk, i) :: idx)) as (out & Ho & Hm); rewrite ?Hr'.
        { done. }
        { constructor; [by exists w|done]. }
        { cbn [resolve omap list_omap snd]. rewrite Hw. intros x y Hx Hy. apply Hap; set_solver. }
        { cbn; lia. }
        cbn. rewrite Ho. exists (p :: out). split; [done|]. cbn [resolve omap list_omap snd] in Hm.
        rewrite Hw, Hr' in Hm. constructor; [by apply ikey_cmp_gt|done].
Qed.

(** ** What an iterator yields *)

(** The map's versions in a range are in key order. *)
Lemma bindings_sorted l :
  om_sorted l → (∀ kv, kv ∈ l → vers_ok kv.1 (vers_list kv.2)) → StronglySorted ikey_lt (bindings l).*1.
Proof.
  induction l as [|[uk vers] l IH]; intros Hs Hv; [constructor|]. apply om_sorted_cons in Hs as [Hs Hlt].
  change (bindings ((uk, vers) :: l)) with (vers_list vers ++ bindings l).
  apply sorted_app; [apply (Hv (uk, vers)); set_solver|apply IH; [done|set_solver]|].
  intros x y Hx (uk' & vers' & Hin & Hy)%elem_of_bindings. apply ikey_lt_iff. left.
  rewrite (vo_user uk (vers_list vers) (Hv (uk, vers) ltac:(set_solver)) x Hx).
  rewrite (vo_user uk' (vers_list vers') (Hv (uk', vers') ltac:(set_solver)) y Hy). by eapply Hlt.
Qed.

(** No key of the range has several versions in the map. *)
Definition single_range (m : MemTable) (start end_ : Bound) : Prop :=
  ∀ uk vers, (uk, vers) ∈ map m → user_key_in_range uk start end_ = true → single vers.

(** [yields m start end s l]: [l] is in key order, holds only versions of the
    table in the range, and holds the newest version at [s] of every key of
    the range. *)
Record yields (m : MemTable) (start end_ : Bound) (s : Z) (l : list Version) : Prop := {
  yd_sorted : StronglySorted ikey_lt l.*1;
  yd_sound e : e ∈ l → e ∈ mem_entries m ∧ user_key_in_range (user_key e.1) start end_ = true;
  yd_newest uk e : user_key_in_range uk start end_ = true → newest_of (mem_entries m) uk s e → e ∈ l;
}.

Definition in_range_entries (start end_ : Bound) (l : list entry) : list entry :=
  filter (λ e : entry, user_key_in_range (user_key e.1) start end_ = true) l.

Lemma cursor_ok m start end_ r :
  map_ok m → iter_internal_range_cursor m start end_ = Some r →
  pend r = in_range_entries start end_ (map_entries m) ∧ StronglySorted ikey_lt (pend r).*1 ∧
  (single_range m start end_ → singles r).
Proof.
  intros Hm. unfold iter_internal_range_cursor. destruct (bounds_cross _ _); [done|]. intros [= <-].
  assert (∀ kv, kv ∈ map m → vers_ok kv.1 (vers_list kv.2)) as Hv by (intros [uk vers]; apply Hm).
  unfold pend. cbn [cur users iter_list app]. split_and!.
  - by apply (bindings_filter (λ k, user_key_in_range k start end_)).
  - apply bindings_sorted; [by apply om_sorted_filter, Hm|]. intros kv [_ Hin]%list_elem_of_filter. by apply Hv.
  - intros Hsr. split; cbn; [done|]. intros uk vers [Hr Hin]%list_elem_of_filter. by apply (Hsr uk).
Qed.

Lemma uniq_apart a b : uniq (a ++ b) → apart a b.
Proof.
  intros Hu p t Hp Ht Heq. unfold uniq in Hu. rewrite fmap_app in Hu. apply NoDup_app in Hu as (_ & Hd & _).
  apply (Hd (user_key p.1, sequence p.1)).
  - by apply (list_elem_of_fmap_2 (λ e : entry, (user_key e.1, sequence e.1)) a p).
  - rewrite Heq. by apply (list_elem_of_fmap_2 (λ e : entry, (user_key e.1, sequence e.1)) b t).
Qed.

Lemma uniq_keys l : uniq l → NoDup l.*1.
Proof.
  intros Hu. apply (NoDup_fmap_1 (λ k, (user_key k, sequence k))). by rewrite <-list_fmap_compose.
Qed.

(** [iter_internal_iter] lists every version in range, in key order. *)
Lemma iter_internal_iter_ok m start end_ it :
  mem_ok m → tail m = [] ∨ single_range m start end_ → iter_internal_iter m start end_ = Some it →
  ∃ l, iter_drain (iter_fuel m) it = Some l ∧ StronglySorted ikey_lt l.*1 ∧
       l ≡ₚ in_range_entries start end_ (mem_entries m).
Proof.
  intros Hm Hone. unfold iter_internal_iter.
  destruct (iter_internal_range_cursor m start end_) as [r|] eqn:Er; [|done]. cbn [mbind option_bind].
  destruct (cursor_ok m start end_ r (mo_map m Hm) Er) as (Hp & Hs & Hsg).
  assert (length (pend r) ≤ length (map_entries m))%nat as Hlen.
  { rewrite Hp. apply length_filter. }
  unfold iter_fuel, mem_entries, in_range_entries. rewrite length_app.
  destruct (Nat.eqb_spec (length (tail m)) 0) as [H0|H0]; intros [= <-].
  - apply nil_length_inv in H0. exists (pend r). rewrite map_drain_ok by lia. split_and!; [done|done|].
    rewrite H0, app_nil_r. by rewrite Hp.
  - destruct Hone as [Ht|Hone]; [by rewrite Ht in H0|].
    set (t := filter _ (tail m)).
    assert (uniq (pend r ++ t)) as Hu.
    { eapply uniq_sub; [apply (mo_uniq m Hm)|]. rewrite Hp. unfold t, in_range_entries. rewrite <-filter_app.
      apply sublist_submseteq, sublist_filter. }
    destruct (merge_drain_ok (S (length (map_entries m) + length (tail m))) (mkMerge r (sort_entries t)))
      as (out & Ho & Hmg); cbn [mg_map mg_tail] in *.
    + by apply Hsg.
    + intros p x Hpp Hx. rewrite sort_entries_perm in Hx. by apply (uniq_apart _ _ Hu).
    + rewrite sort_entries_perm. pose proof (length_filter (λ v : Version, user_key_in_range (user_key v.1) start end_ = true) (tail m)).
      fold t in H. lia.
    + exists out. split_and!; [done| |].
      * eapply merged_sorted; [done|done|]. apply sort_entries_sorted, uniq_keys. eapply uniq_sub; [done|].
        by apply submseteq_inserts_l.
      * rewrite (merged_perm _ _ _ Hmg), sort_entries_perm, Hp, filter_app. done.
Qed.

Lemma yields_all m start end_ s l :
  StronglySorted ikey_lt l.*1 → l ≡ₚ in_range_entries start end_ (mem_entries m) → yields m start end_ s l.
Proof.
  intros Hs Hp. split; [done| |].
  - intros e He. rewrite Hp in He. by apply list_elem_of_filter in He as [? ?].
  - intros uk e Hr (He & Hk & _ & _). rewrite Hp. apply list_elem_of_filter. by rewrite Hk.
Qed.

(** ** Reading one shard *)

(** Every tail key of the range is indexed in the shard. *)
Definition covers_range (m : MemTable) (start end_ : Bound) (pfx : list byte) (shard : TailShard) : Prop :=
  om_get pfx (tail_idx m) = Some shard ∧
  ∀ v, v ∈ tail m → user_key_in_range (user_key v.1) start end_ = true → idx_prefix (user_key v.1) = pfx.

Lemma in_packed_range_eq start end_ uk :
  bound_len_le_32 start = true → bound_len_le_32 end_ = true → (length uk ≤ 32)%nat →
  in_packed_range start end_ (pack_key uk) = user_key_in_range uk start end_.
Proof.
  intros Hs He Hl. unfold in_packed_range, user_key_in_range.
  assert (∀ k, (length k ≤ 32)%nat → kcmp (pack_key uk) (pack_key k) = bytes_cmp uk k) as Hc.
  { intros k Hk. by apply pack_key_cmp. }
  f_equal.
  - destruct start as [|k|k]; [done| |]; cbn in Hs; apply Nat.leb_le in Hs; rewrite Hc by done;
      unfold bytes_leb, bytes_ltb; rewrite (bytes_cmp_antisym uk k); by destruct (bytes_cmp uk k).
  - destruct end_ as [|k|k]; [done| |]; cbn in He; apply Nat.leb_le in He; rewrite Hc by done;
      unfold bytes_leb, bytes_ltb; by destruct (bytes_cmp uk k).
Qed.

(** An ordered index whose bindings point at the newest version of their key. *)
Definition points_newest (t : list Version) (b : OrdMap PackKey nat) : Prop :=
  om_sorted b ∧ ∀ sk i, om_get sk b = Some i →
    ∃ uk, (length uk ≤ 32)%nat ∧ sk = pack_key uk ∧ newest_in t uk i.

(** The versions a range of such an index resolves to. *)
Lemma resolve_ok t b start end_ :
  points_newest t b → bound_len_le_32 start = true → bound_len_le_32 end_ = true →
  let idx := om_range (in_packed_range start end_) b in
  Forall (λ ki : PackKey * nat, is_Some (t !! ki.2)) idx ∧
  StronglySorted bytes_lt ((λ e : Version, user_key e.1) <$> resolve t idx) ∧
  (∀ e, e ∈ resolve t idx ↔ ∃ i, om_get (pack_key (user_key e.1)) b = Some i ∧
     (length (user_key e.1) ≤ 32)%nat ∧ t !! i = Some e ∧ newest_in t (user_key e.1) i ∧
     user_key_in_range (user_key e.1) start end_ = true).
Proof.
  intros [Hss Hshort] Hbs Hbe idx.
  assert (∀ sk i, (sk, i) ∈ b → ∃ v, t !! i = Some v ∧ sk = pack_key (user_key v.1) ∧
            (length (user_key v.1) ≤ 32)%nat ∧ newest_in t (user_key v.1) i) as Hres.
  { intros sk i Hin. apply om_get_elem in Hin; [|done].
    destruct (Hshort sk i Hin) as (uk & Hl & -> & Hn). pose proof Hn as (v & Hv & <- & _). by exists v. }
  split_and!.
  - apply Forall_forall. intros [sk i] [_ Hin]%list_elem_of_filter. cbn.
    destruct (Hres sk i Hin) as (v & -> & _). done.
  - assert (om_sorted idx) as Hsi by (by apply om_sorted_filter).
    assert (∀ sk i, (sk, i) ∈ idx → (sk, i) ∈ b) as Hsub by (by intros ? ? [_ ?]%list_elem_of_filter).
    clearbody idx. induction idx as [|[sk i] idx IH]; [constructor|].
    apply om_sorted_cons in Hsi as [Hsi Hlt]. cbn [resolve omap list_omap snd].
    destruct (Hres sk i) as (v & Hv & -> & Hvl & _); [apply Hsub; set_solver|]. rewrite Hv. cbn.
    constructor; [apply IH; [done|set_solver]|]. apply Forall_forall.
    intros k (w & -> & ([sk' j] & Hin & Hw)%list_elem_of_omap)%list_elem_of_fmap. cbn in Hw.
    destruct (Hres sk' j) as (w' & Hw' & -> & Hwl & _); [apply Hsub; set_solver|]. assert (w' = w) as -> by congruence.
    unfold bytes_lt. rewrite <-pack_key_cmp by done. by eapply Hlt.
  - intros e. unfold resolve. rewrite list_elem_of_omap. split.
    + intros ([sk i] & [Hr Hin]%list_elem_of_filter & He). cbn in He, Hr.
      destruct (Hres sk i Hin) as (v & Hv & -> & Hl & Hn). assert (v = e) as -> by congruence.
      exists i. rewrite <-in_packed_range_eq by done. split_and!; [by apply om_get_elem|done..].
    + intros (i & Hi & Hl & He & Hn & Hr). exists (pack_key (user_key e.1), i). split; [|done].
      apply list_elem_of_filter. cbn. rewrite in_packed_range_eq by done. split; [done|]. by apply om_get_elem.
Qed.

Lemma short_points_newest m pfx shard :
  mem_ok m → om_get pfx (tail_idx m) = Some shard → points_newest (tail m) (short shard).
Proof.
  intros Hm Hget. pose proof (io_sound _ _ (mo_idx m Hm) pfx shard Hget) as [Hss _ _ Hshort _].
  split; [done|]. intros sk i Hi. destruct (Hshort sk i Hi) as [_ (uk & ? & _ & ? & ?)]. by exists uk.
Qed.

(** Strictly increasing user keys are strictly increasing internal keys. *)
Lemma users_sorted_keys (l : list Version) :
  StronglySorted bytes_lt ((λ e : Version, user_key e.1) <$> l) → StronglySorted ikey_lt l.*1.
Proof.
  induction l as [|x l IH]; intros Hs; [constructor|]. cbn in Hs |- *. apply StronglySorted_inv in Hs as [Hs Hx].
  constructor; [by apply IH|]. rewrite Forall_forall in Hx. apply Forall_forall.
  intros k (y & -> & Hy)%list_elem_of_fmap. apply ikey_lt_iff. left. apply Hx.
  by apply (list_elem_of_fmap_2 (λ e : Version, user_key e.1)).
Qed.

Lemma idx_iter_ok m pfx shard start end_ s r :
  mem_ok m → single_range m start end_ → covers_range m start end_ pfx shard →
  long shard = [] → short shard ≠ [] → bound_len_le_32 start = true → bound_len_le_32 end_ = true →
  tail_max_seq m ≤ s → iter_internal_range_cursor m start end_ = Some r →
  ∃ l, iter_drain (iter_fuel m)
         (ItIdx (mkIdx r (om_range (in_packed_range start end_) (short shard)) (tail m))) = Some l ∧
       yields m start end_ s l.
Proof.
  intros Hm Hone [Hget Hcov] Hlong Hshort Hbs Hbe Hmax Hr.
  destruct (cursor_ok m start end_ r (mo_map m Hm) Hr) as (Hp & Hps & Hsg).
  destruct (resolve_ok _ _ start end_ (short_points_newest m pfx shard Hm Hget) Hbs Hbe) as (Hall & HTu & HT).
  pose proof (users_sorted_keys _ HTu) as HTs.
  set (idx := om_range _ _) in *. set (T := resolve (tail m) idx) in *.
  assert (length T = length idx) as HlT.
  { unfold T, resolve. clear -Hall. induction Hall as [|[sk i] idx [v Hv] _ IH]; [done|]. cbn in *. rewrite Hv. cbn. by rewrite IH. }
  assert (T ⊆+ tail m) as HTsub.
  { apply NoDup_submseteq; [by eapply (NoDup_fmap_1 fst), sorted_keys_nodup_keys|].
    intros e (i & _ & _ & He & _)%HT. by eapply list_elem_of_lookup_2. }
  assert (apart (pend r) T) as Hap.
  { rewrite Hp. intros p t [_ Hpin]%list_elem_of_filter Ht. apply (uniq_apart _ _ (mo_uniq m Hm)); [done|].
    by eapply elem_of_submseteq. }
  destruct (idx_drain_ok (iter_fuel m) r idx (tail m)) as (l & Hl & Hmg); [by apply Hsg|done|done| |].
  { apply submseteq_length in HTsub. unfold iter_fuel, mem_entries. rewrite length_app, Hp.
    pose proof (length_filter (λ e : entry, user_key_in_range (user_key e.1) start end_ = true) (map_entries m)).
    unfold in_range_entries. lia. }
  exists l. split; [done|]. pose proof (merged_perm _ _ _ Hmg) as Hperm. split.
  - by eapply merged_sorted.
  - intros e He. rewrite Hperm in He. apply elem_of_app in He as [He|He].
    + rewrite Hp in He. apply list_elem_of_filter in He as [? ?]. split; [apply elem_of_app; by left|done].
    + apply HT in He as (i & _ & _ & He & _ & ?). split; [|done]. apply elem_of_app. right. by eapply list_elem_of_lookup_2.
  - intros uk e Hir (He & Hk & Hes & Hem). rewrite Hperm. apply elem_of_app.
    apply elem_of_app in He as [He|He]; [left; rewrite Hp; apply list_elem_of_filter; by rewrite Hk|right].
    assert (idx_prefix (user_key e.1) = pfx) as Hpfx by (apply Hcov; [done|by rewrite Hk]).
    destruct (io_complete _ _ (mo_idx m Hm) e He) as (s0 & i & Hs0 & Hi).
    rewrite Hpfx, Hget in Hs0. injection Hs0 as <-. rewrite Hpfx in Hi.
    pose proof (io_sound _ _ (mo_idx m Hm) pfx shard Hget) as Hsa.
    destruct (slot_all _ _ _ _ _ Hsa Hi) as [_ Hn]. pose proof Hn as (v & Hv & Hvk & Hvm).
    assert (v ∈ tail m) as Hvin by (by eapply list_elem_of_lookup_2).
    assert (v = e) as ->.
    { apply (uniq_same (mem_entries m)); [apply Hm|apply elem_of_app; by right|apply elem_of_app; by right|done|].
      apply Z.le_antisymm; [|by apply Hvm]. apply Hem; [apply elem_of_app; by right|congruence|].
      pose proof (mo_max m Hm v Hvin). lia. }
    assert (point_cf pfx = false) as Hcf.
    { destruct (short shard) as [|[sk j] rest] eqn:Es; [done|]. eapply (sa_short _ _ _ Hsa sk j).
      apply om_get_elem; [apply Hsa|]. rewrite Es. by left. }
    apply HT. exists i. unfold slot in Hi. rewrite Hlong, Hcf in Hi.
    destruct (Nat.leb_spec (length (user_key e.1)) 32); [|done]. split_and!; [done|done|done|done|by rewrite Hk].
Qed.

(** ** Choosing the shard *)

(** Bounds with a common non-empty shard prefix are keys of a column family:
    they have a NUL. *)
Definition family_bounds (start end_ : Bound) : Prop :=
  match start, end_ with
  | (Included k | Excluded k), (Included k' | Excluded k') =>
      idx_prefix k = idx_prefix k' → idx_prefix k ≠ [] →
      position NUL k ≠ None ∧ position NUL k' ≠ None
  | _, _ => True
  end.

Lemma idx_prefix_nul a r : NUL ∉ a → idx_prefix (a ++ NUL :: r) = a.
Proof. intros Ha. unfold idx_prefix. rewrite position_app by done. by rewrite take_app_length. Qed.

(** A family key is [prefix\0rest]. *)
Lemma family_key k : position NUL k ≠ None → ∃ r, k = idx_prefix k ++ NUL :: r ∧ NUL ∉ idx_prefix k.
Proof.
  intros Hn. unfold idx_prefix. destruct (position NUL k) as [i|] eqn:Hi; [|done].
  apply position_Some in Hi as [Hk Hni]. by exists (drop (S i) k).
Qed.

Lemma between_family a k k' uk :
  NUL ∉ a → (∃ r, k = a ++ NUL :: r) → (∃ r, k' = a ++ NUL :: r) →
  ¬ bytes_lt uk k → ¬ bytes_lt k' uk → idx_prefix uk = a.
Proof.
  intros Ha Hk Hk' Hlo Hhi. apply family_window in Hk as [Hk1 _], Hk' as [_ Hk2].
  assert (∃ r, uk = a ++ x00 :: r) as [r ->]; [|by apply idx_prefix_nul].
  apply family_window. split.
  - intros Hlt. apply Hlo. eapply bytes_lt_le_trans; [exact Hlt|]. exact Hk1.
  - eapply bytes_le_lt_trans; [exact Hhi|]. exact Hk2.
Qed.

Lemma pinned_covers start end_ a uk :
  family_bounds start end_ → bound_cf_prefix start = Some a → bound_cf_prefix end_ = Some a → a ≠ [] →
  user_key_in_range uk start end_ = true → idx_prefix uk = a.
Proof.
  intros Hf Hs He Ha Hr.
  assert (∀ k k', idx_prefix k = a → idx_prefix k' = a → position NUL k ≠ None ∧ position NUL k' ≠ None →
            ¬ bytes_lt uk k → ¬ bytes_lt k' uk → idx_prefix uk = a) as Hgo.
  { intros k k' Hk Hk' [Hn Hn'] Hlo Hhi. destruct (family_key k Hn) as (r & Hr1 & Hna), (family_key k' Hn') as (r' & Hr2 & _).
    rewrite Hk in Hr1, Hna. rewrite Hk' in Hr2. eapply between_family; [done|by exists r|by exists r'|done|done]. }
  unfold user_key_in_range in Hr. apply andb_true_iff in Hr as [Hlo Hhi].
  assert (∀ x y, bytes_ltb x y = true → ¬ bytes_lt y x) as Hlt.
  { intros x y Hxy%bytes_ltb_spec Hyx. apply (bytes_lt_irrefl x). by trans y. }
  destruct start as [|k|k], end_ as [|k'|k']; cbn in Hs, He; try done; injection Hs as Hs; injection He as He;
    (apply (Hgo k k'); [done|done|apply Hf; congruence|rewrite ?bytes_leb_spec in Hlo; auto|rewrite ?bytes_leb_spec in Hhi; auto]).
Qed.

Lemma pick_shard_covers m start end_ shard :
  mem_ok m → family_bounds start end_ → pick_shard m start end_ = Some shard →
  ∃ pfx, covers_range m start end_ pfx shard.
Proof.
  intros Hm Hf Hpick.
  assert (match tail_idx m with [(_, s)] => Some s | _ => None end = Some shard →
          ∃ pfx, covers_range m start end_ pfx shard) as Honly.
  { destruct (tail_idx m) as [|[p s] [|]] eqn:Ei; [done| |done]. intros [= ->]. exists p. split.
    - rewrite Ei. cbn [om_get]. by rewrite kcmp_refl.
    - intros v Hv _. destruct (io_complete _ _ (mo_idx m Hm) v Hv) as (s & i & Hs & _). rewrite Ei in Hs.
      cbn [om_get] in Hs. destruct (kcmp (idx_prefix (user_key v.1)) p) eqn:E; [|done|done].
      by apply kcmp_eq in E. }
  unfold pick_shard in Hpick. cbn zeta in Hpick.
  destruct (bound_cf_prefix start) as [a|] eqn:Hs; [|by apply Honly].
  destruct (bound_cf_prefix end_) as [b|] eqn:He; [|by apply Honly].
  destruct (bytes_eqb a b && negb (length a =? 0)%nat && (length a <? 32)%nat) eqn:Hpin; [|by apply Honly].
  rewrite !andb_true_iff, negb_true_iff in Hpin. destruct Hpin as [[->%bytes_eqb_spec Hne] _].
  exists b. split; [done|]. intros v _ Hr. eapply pinned_covers; [done|done|done| |done].
  by intros ->.
Qed.

Lemma iter_at_ok m start end_ s it :
  mem_ok m → tail m = [] ∨ single_range m start end_ → family_bounds start end_ →
  iter_internal_iter_at m start end_ s = Some it →
  ∃ l, iter_drain (iter_fuel m) it = Some l ∧ yields m start end_ s l.
Proof.
  intros Hm Hone Hf. unfold iter_internal_iter_at.
  assert (iter_internal_iter m start end_ = Some it →
          ∃ l, iter_drain (iter_fuel m) it = Some l ∧ yields m start end_ s l) as Hfull.
  { intros Hit. destruct (iter_internal_iter_ok m start end_ it Hm Hone Hit) as (l & Hl & Hs & Hp).
    exists l. split; [done|]. by apply yields_all. }
  destruct (Nat.eqb_spec (length (tail m)) 0) as [|H0]; [done|]. cbn [orb].
  destruct (Z.ltb_spec s (tail_max_seq m)) as [|Hmax]; [done|].
  destruct (pick_shard m start end_) as [shard|] eqn:Hpick; [|done].
  destruct (_ || _) eqn:Hfb; [done|]. rewrite !orb_false_iff, !negb_false_iff in Hfb.
  destruct Hfb as [[[Hlong%Nat.eqb_eq Hshort%Nat.eqb_neq] Hbs] Hbe].
  destruct (pick_shard_covers m start end_ shard Hm Hf Hpick) as [pfx Hcov].
  destruct (iter_internal_range_cursor m start end_) as [r|] eqn:Hr; [|done]. cbn. intros [= <-].
  eapply idx_iter_ok; try done.
  - destruct Hone as [Ht|?]; [by rewrite Ht in H0|done].
  - by apply nil_length_inv.
  - intros Hn. by rewrite Hn in Hshort.
Qed.

(** ** The snapshot read *)

Definition mem_live (m : MemTable) (s : Z) (r : Version) : option VisibleKv :=
  if visible_at (kind r.1) (bool_decide (kind r.1 = Value) && mem_range_deleted m (user_key r.1) (sequence r.1) s)
  then Some (mkVisible (user_key r.1) r.2) else None.

Lemma snapshot_loop_spec m s l last out :
  snapshot_loop m s l last out =
    out ++ omap (mem_live m s) (newest last (filter (λ v : Version, sequence v.1 ≤ s) l)).
Proof.
  revert last out. induction l as [|[k v] l IH]; intros last out; cbn [snapshot_loop]; [by rewrite app_nil_r|].
  rewrite filter_cons. cbn [fst]. destruct (Z.ltb_spec s (sequence k)) as [Hlt|Hle].
  - rewrite decide_False by lia. apply IH.
  - rewrite decide_True by lia. cbn [newest fst]. destruct (bool_decide (last = Some (user_key k))); [apply IH|].
    rewrite IH. cbn [omap list_omap]. unfold mem_live at 2. cbn [fst snd].
    destruct (visible_at _ _); [by rewrite <-app_assoc|done].
Qed.

Lemma mem_live_Some m s r k v :
  mem_ok m → mem_live m s r = Some (mkVisible k v) ↔
    user_key r.1 = k ∧ r.2 = v ∧ kind r.1 = Value ∧ ¬ hidden (mem_entries m) s k (sequence r.1).
Proof.
  intros Hm. unfold mem_live. pose proof (mem_range_deleted_ok m (user_key r.1) (sequence r.1) s Hm) as Hh.
  destruct (kind r.1) eqn:Ek; cbn; [naive_solver| |naive_solver].
  destruct (mem_range_deleted _ _ _ _); cbn; naive_solver.
Qed.

Lemma mem_live_key m s r kv : mem_live m s r = Some kv → kv_key kv = user_key r.1.
Proof. unfold mem_live. destruct (visible_at _ _); [by intros [= <-]|done]. Qed.

Lemma omap_mem_live_sorted m s rows :
  StronglySorted bytes_lt ((λ e, user_key e.1) <$> rows) →
  StronglySorted bytes_lt (kv_key <$> omap (mem_live m s) rows).
Proof.
  induction rows as [|r rows IH]; intros Hs; [constructor|]. cbn in *.
  apply StronglySorted_inv in Hs as [Hs Hr]. specialize (IH Hs).
  destruct (mem_live m s r) as [kv|] eqn:E; [|done]. cbn. constructor; [done|].
  apply mem_live_key in E as ->. apply Forall_forall. intros x Hx.
  apply list_elem_of_fmap in Hx as (kv' & -> & (r' & Hr' & E')%list_elem_of_omap).
  apply mem_live_key in E' as ->. rewrite Forall_forall in Hr. apply Hr.
  by apply (list_elem_of_fmap_2 (λ e : entry, user_key e.1)).
Qed.

(** Among the visible versions of a yielded list, the first of a key is the
    newest of the table. *)
Lemma yields_row m start end_ s l r :
  mem_ok m → yields m start end_ s l →
  let lv := filter (λ v : Version, sequence v.1 ≤ s) l in
  r ∈ newest None lv ↔
    user_key_in_range (user_key r.1) start end_ = true ∧ newest_of (mem_entries m) (user_key r.1) s r.
Proof.
  intros Hm [Hs Hsound Hnew] lv.
  destruct (newest_rows_sorted lv) as (Hus & Hrow & Hcov).
  { apply ikey_lt_le_sorted. by apply sorted_lt_filter. }
  assert (∀ e, e ∈ lv ↔ sequence e.1 ≤ s ∧ e ∈ l) as Hlv
    by (intros e; unfold lv; by rewrite list_elem_of_filter).
  assert (∀ x, x ∈ newest None lv → ∀ e, user_key_in_range (user_key x.1) start end_ = true →
            newest_of (mem_entries m) (user_key x.1) s e → x = e) as Heq.
  { intros x Hx e Hir He. destruct (Hrow x Hx) as [[Hxs Hxl]%Hlv Hmin].
    assert (e ∈ lv) as Hel by (apply Hlv; split; [apply He|by apply (Hnew (user_key x.1))]).
    destruct He as (Hein & Hek & Hes & Hem). specialize (Hmin e Hel Hek).
    apply (uniq_same (mem_entries m)); [apply Hm|by apply Hsound|done|done|].
    apply Z.le_antisymm; [by apply Hem; [apply Hsound| |]|].
    destruct (decide (sequence e.1 ≤ sequence x.1)); [done|]. exfalso. apply Hmin. apply ikey_lt_iff.
    right. split; [done|]. left. lia. }
  split.
  - intros Hr. destruct (Hrow r Hr) as [[Hrs Hrl]%Hlv _]. destruct (Hsound r Hrl) as [Hrin Hir]. split; [done|].
    destruct (scan_newest (mem_entries m) (user_key r.1) s) as [e|] eqn:He.
    + apply scan_newest_Some in He; [|apply Hm]. rewrite (Heq r Hr e Hir He). by rewrite (Heq r Hr e Hir He) in He.
    + pose proof (scan_newest_ok (mem_entries m) (user_key r.1) s (mo_uniq m Hm)) as Hok. rewrite He in Hok.
      specialize (Hok r Hrin eq_refl). lia.
  - intros [Hir He]. assert (r ∈ lv) as Hel by (apply Hlv; split; [apply He|by apply (Hnew (user_key r.1))]).
    destruct (Hcov r Hel) as (x & Hx & Hxk). rewrite <-Hxk in Hir, He. by rewrite <-(Heq x Hx r Hir He).
Qed.

Lemma snapshot_rows m start end_ s l :
  mem_ok m → proper_ranges (mem_entries m) → yields m start end_ s l →
  range_result (mem_entries m) s start end_ (snapshot_loop m s l None []).
Proof.
  intros Hm Hp Hy. rewrite snapshot_loop_spec. cbn [app].
  set (lv := filter _ l). split.
  - apply omap_mem_live_sorted. apply newest_rows_sorted, ikey_lt_le_sorted, sorted_lt_filter, Hy.
  - intros k v. rewrite reads_newest_of by (done || apply Hm). rewrite list_elem_of_omap. split.
    + intros (r & Hr & (<- & <- & Hk & Hh)%mem_live_Some); [|done].
      apply (yields_row m start end_ s l r Hm Hy) in Hr as [? ?]. split; [done|]. by exists r.
    + intros [Hir (r & Hr & Hk & <- & Hh)]. assert (user_key r.1 = k) as <- by apply Hr.
      exists r. split; [by apply (yields_row m start end_ s l r Hm Hy)|]. by apply mem_live_Some.
Qed.

(** * Properties *)

(** C24: a memtable range read is the reference range read. In a table whose
    range deletions end after they start, with an empty tail or with one map
    version per key of the range, and for bounds that are both raw keys of one
    shard or both keys of a column family, [range_snapshot] (over the map, the
    merge with the sorted tail, or one index shard) returns exactly what
    [visible_range] returns on the versions of the table. *)
Theorem range_snapshot_correct m start end_ s :
  mem_ok m → proper_ranges (mem_entries m) → tail m = [] ∨ single_range m start end_ →
  family_bounds start end_ → bounds_cross start end_ = false →
  range_snapshot m start end_ s = Some (visible_range (mem_entries m) s start end_).
Proof.
  intros Hm Hp Hone Hf Hb. unfold range_snapshot.
  destruct (iter_internal_iter_at m start end_ s) as [it|] eqn:Hit.
  - destruct (iter_at_ok m start end_ s it Hm Hone Hf Hit) as (l & Hl & Hy). cbn [mbind option_bind].
    rewrite Hl. cbn [mbind option_bind]. f_equal.
    eapply range_result_unique; [by apply snapshot_rows|]. apply visible_range_result.
    intros k v v' Hv Hv'. assert ((k, v) = (k, v')) as [= <-]; [|done].
    by apply (uniq_same (mem_entries m)); [apply Hm|..].
  - exfalso. revert Hit. unfold iter_internal_iter_at, iter_internal_iter, iter_internal_range_cursor.
    rewrite Hb. cbn. repeat case_match; done.
Qed.

(** ** Where the iterators lose keys *)

(** Behind an exhausted version list the cursor peeks nothing: the merge yields
    the tail and stops. *)
Lemma merge_after_many fuel us T :
  (length T < fuel)%nat → iter_drain fuel (ItMerge (mkMerge (mkRange us (ItMany [])) T)) = Some T.
Proof.
  revert T. induction fuel as [|fuel IH]; intros T Hf; [lia|]. cbn [iter_drain iter_next].
  unfold merge_next. cbn. destruct T as [|t T]; cbn in *; [done|]. by rewrite IH by lia.
Qed.

Lemma merge_in_many fuel us vs T :
  (∀ v w, v ∈ vs → w ∈ T → ikey_lt v.1 w.1) → (length vs + length T < fuel)%nat →
  iter_drain fuel (ItMerge (mkMerge (mkRange us (ItMany vs)) T)) = Some (vs ++ T).
Proof.
  revert vs. induction fuel as [|fuel IH]; intros vs Hlt Hf; [lia|].
  destruct vs as [|v vs]; [cbn in Hf |- *; apply (merge_after_many (S fuel)); lia|].
  cbn [iter_drain iter_next]. unfold merge_next, range_peek, range_next. cbn.
  assert (range_next_from us (ItMany (v :: vs)) = (Some v, mkRange us (ItMany vs))) as -> by (by destruct us).
  destruct T as [|t T].
  - cbn. rewrite IH; [done|intros ? ? _ Hw; by apply not_elem_of_nil in Hw|cbn in *; lia].
  - assert (ikey_lt v.1 t.1) as Hvt by (apply Hlt; set_solver). unfold ikey_lt in Hvt. rewrite Hvt. cbn.
    rewrite IH; [done|intros x w Hx Hw; apply Hlt; [by right|done]|cbn in *; lia].
Qed.

Lemma bindings_filter_length (P : list byte * Versions → Prop) `{∀ x, Decision (P x)} l :
  (length (bindings (filter P l)) ≤ length (bindings l))%nat.
Proof.
  induction l as [|kv l IH]; [done|]. rewrite filter_cons.
  change (bindings (kv :: l)) with (vers_list kv.2 ++ bindings l). rewrite length_app.
  case_decide; [|lia]. change (bindings (kv :: filter P l)) with (vers_list kv.2 ++ bindings (filter P l)).
  rewrite length_app. lia.
Qed.

(** A spilled key with several versions ends a scan. When the first key of a
    range has several versions in the map and the tail is not empty, the merged
    iteration lists that key's versions and the tail, and then stops: no other
    key of the map is listed, whatever the map holds. [peek] answers nothing
    once the version list is exhausted, instead of looking at the next key. *)
Lemma multi_version_key_ends_scan m start end_ uk vs rest :
  om_range (λ k, user_key_in_range k start end_) (map m) = (uk, Many vs) :: rest →
  vs ≠ [] → tail m ≠ [] → bounds_cross start end_ = false →
  (∀ v w, v ∈ vs → w ∈ tail m → user_key_in_range (user_key w.1) start end_ = true → ikey_lt v.1 w.1) →
  ∃ it, iter_internal_iter m start end_ = Some it ∧
    iter_drain (iter_fuel m) it = Some (vs ++ sort_entries (in_range_entries start end_ (tail m))).
Proof.
  intros Hmap Hvs Ht Hb Hlt. unfold iter_internal_iter, iter_internal_range_cursor. rewrite Hb, Hmap. cbn [mbind option_bind].
  rewrite (proj2 (Nat.eqb_neq _ _)) by (by intros ?%nil_length_inv).
  eexists. split; [done|]. fold (in_range_entries start end_ (tail m)).
  set (T := in_range_entries start end_ (tail m)).
  assert (length vs ≤ length (map_entries m))%nat as Hlen.
  { pose proof (bindings_filter_length (λ kv : list byte * Versions, user_key_in_range kv.1 start end_ = true) (map m)) as Hl.
    fold (om_range (λ k, user_key_in_range k start end_) (map m)) in Hl. rewrite Hmap in Hl.
    change (bindings ((uk, Many vs) :: rest)) with (vs ++ bindings rest) in Hl. rewrite length_app in Hl.
    change (map_entries m) with (bindings (map m)). lia. }
  assert (length (sort_entries T) ≤ length (tail m))%nat as HlT by (rewrite sort_entries_perm; apply length_filter).
  assert (∀ v w, v ∈ vs → w ∈ sort_entries T → ikey_lt v.1 w.1) as HltT.
  { intros v w Hv Hw. rewrite sort_entries_perm in Hw. apply list_elem_of_filter in Hw as [? ?]. by apply Hlt. }
  unfold iter_fuel, mem_entries. rewrite length_app.
  destruct vs as [|v vs]; [done|]. cbn [length] in Hlen.
  assert (length vs + length (sort_entries T) < length (map_entries m) + length (tail m))%nat as Hfuel by lia.
  revert Hfuel. generalize (length (map_entries m) + length (tail m))%nat. intros fuel Hfuel.
  cbn [iter_drain iter_next]. unfold merge_next, range_peek, range_next. cbn.
  assert (range_next_from rest (ItMany (v :: vs)) = (Some v, mkRange rest (ItMany vs))) as -> by (by destruct rest).
  destruct (sort_entries T) as [|t T'] eqn:ET.
  - cbn. rewrite merge_in_many; [done|intros ? ? _ Hw; by apply not_elem_of_nil in Hw|cbn; lia].
  - assert (ikey_lt v.1 t.1) as Hvt by (apply HltT; set_solver). unfold ikey_lt in Hvt. rewrite Hvt. cbn.
    rewrite merge_in_many; [done|intros x w Hx Hw; apply HltT; [by right|done]|cbn in *; lia].
Qed.

(** A scan between two keys of one slash shard misses keys of other shards.
    After [put "a/1"] and [put "a/2/x"], with both writes in the tail, the range
    ["a/1", "a/3") holds both keys and [get] finds both, but [range_snapshot]
    reads only the shard ["a/"] that the two bounds share: ["a/2/x"] has two
    slashes, lives in another shard, and is not listed. *)
Theorem slash_shard_scan_misses_key v1 v2 :
  let k1 := [x61; x2f; x31] in let k2 := [x61; x2f; x32; x2f; x78] in let stop := [x61; x2f; x33] in
  let m := put (put mem_new k1 1 v1) k2 2 v2 in
  user_key_in_range k2 (Included k1) (Excluded stop) = true ∧ get m k2 2 = Found v2 ∧
  range_snapshot m (Included k1) (Excluded stop) 2 = Some [mkVisible k1 v1].
Proof. vm_compute. done. Qed.

(** ** Witnesses *)

(** Two versions of [a] and one of [b] spilled into the map, then [c] written. *)
Definition spilled_mem : MemTable :=
  put (spill_tail (put (put (put mem_new [x61] 1 [x31]) [x61] 2 [x32]) [x62] 3 [x33])) [x63] 4 [x34].

Lemma multi_version_key_ends_scan_witness :
  get spilled_mem [x62] 4 = Found [x33] ∧
  ∃ it l, iter_internal_iter spilled_mem Unbounded Unbounded = Some it ∧
    iter_drain (iter_fuel spilled_mem) it = Some l ∧ [x62] ∉ (λ e : entry, user_key e.1) <$> l.
Proof.
  split; [vm_compute; reflexivity|].
  destruct (multi_version_key_ends_scan spilled_mem Unbounded Unbounded [x61]
    [(mkIKey [x61] 2 Value, [x32]); (mkIKey [x61] 1 Value, [x31])] [([x62], One (mkIKey [x62] 3 Value, [x33]))])
    as (it & Hit & Hl); [vm_compute; reflexivity|done|vm_compute; discriminate|reflexivity| |].
  - intros v w Hv Hw _. change (tail spilled_mem) with [(mkIKey [x63] 4 Value, [x34])] in Hw.
    apply list_elem_of_singleton in Hw as ->.
    apply elem_of_cons in Hv as [->|[->|Hv]%elem_of_cons]; [reflexivity|reflexivity|by apply not_elem_of_nil in Hv].
  - eexists it, _. split; [exact Hit|]. split; [exact Hl|]. apply (bool_decide_unpack _). vm_compute. exact I.
Defined.

(** A table with a range deletion in the map and a tail of family keys. *)
Definition family_mem : MemTable :=
  put (put (spill_tail (delete_range (put mem_new [x66; x00; x61] 1 [x31]) [x66; x00; x62] [x66; x00; x64] 2))
         [x66; x00; x63] 3 [x33]) [x66; x00; x65] 4 [x34].

Lemma family_mem_ok : mem_ok family_mem.
Proof.
  assert (∀ x l, x ∈ @nil entry → l) as Hnil by (intros x l Hx; by apply not_elem_of_nil in Hx).
  unfold family_mem, put, delete_range.
  apply insert_ok; [apply insert_ok; [apply spill_ok; apply insert_ok; [apply insert_ok; [apply mem_new_ok| |]| |]| |]| |];
    try (vm_compute; discriminate);
    match goal with |- fresh_id _ ?l => let l' := eval vm_compute in l in change l with l' end;
    intros x Hx; repeat (apply elem_of_cons in Hx as [->|Hx]; [done|]); by apply not_elem_of_nil in Hx.
Qed.

Lemma range_snapshot_correct_witness :
  range_snapshot family_mem (Included [x66; x00; x61]) (Excluded [x66; x00; x7a]) 4 =
    Some [mkVisible [x66; x00; x61] [x31]; mkVisible [x66; x00; x63] [x33]; mkVisible [x66; x00; x65] [x34]].
Proof.
  rewrite (range_snapshot_correct family_mem); [vm_compute; reflexivity|apply family_mem_ok| | | |reflexivity].
  - intros e He Hk. change (e ∈ mem_entries family_mem) in He.
    let l := eval vm_compute in (mem_entries family_mem) in change (mem_entries family_mem) with l in He.
    repeat (apply elem_of_cons in He as [->|He]; [first [discriminate Hk|vm_compute; reflexivity]|]).
    by apply not_elem_of_nil in He.
  - right. intros uk vers Hin _. let l := eval vm_compute in (map family_mem) in change (map family_mem) with l in Hin.
    repeat (apply elem_of_cons in Hin as [[= -> ->]|Hin]; [exact I|]). by apply not_elem_of_nil in Hin.
  - intros _ _. vm_compute. split; discriminate.
Defined.
