(* ===== verification/MemBulk.v ===== *)
(** Bulk operations of the memtable ([memtable_kernel.rs]): the batched insert
    with its per-prefix accumulators, value rewriting, and the ordered copies
    of the point shards behind the range count. *)

From S2P Require Import Prelude ErrorKernel KeyKernel Visibility OrdMap MemIndex MemTable MemFamily MemRead MemIter.

Local Open Scope Z_scope.

(** * [insert_many] *)

Definition flush_cf_delta (cf : OrdMap (list byte) Z) (pfx : option (list byte)) (delta : Z)
    : OrdMap (list byte) Z :=
  match pfx with
  | None => cf
  | Some p =>
      if delta =? 0 then cf
      else match om_get p cf with
           | Some slot => om_insert p (if 0 <? delta then sat_add slot delta else sat_sub slot (- delta)) cf
           | None => if 0 <? delta then om_insert p delta cf else cf
           end
  end.

(** The loop's state: the table, whose maps the memoised slots point into, and
    the byte delta not yet flushed for the current prefix. *)
Record ManyState := mkMany {
  mn_mem : MemTable;
  mn_pfx : option (list byte);
  mn_delta : Z;
  mn_any : bool;
}.

(** A version appended to the tail. *)
Definition many_fresh (m : MemTable) (pfx : option (list byte)) (delta : Z) (e : InternalKey * list byte)
    : ManyState :=
  let m := set_counts m (sat_add (approx_bytes m) (entry_bytes e)) (range_tombstones m) (sat_add (entries m) 1) in
  let m := bump_span m (user_key e.1) (kind e.1) in
  let m := set_counts m (approx_bytes m) (sat_add_if (is_rd e) (range_tombstones m)) (entries m) in
  let '(idx, bt) := idx_append (tail m) (tail_idx m) (point_ord_btree m) (point_ord_btree_live m) e.1 in
  let m := mkMem (map m) (tail m ++ [e]) idx bt (point_ord_btree_live m)
             (Z.max (tail_max_seq m) (sequence e.1)) (tail_ord_stale m) (approx_bytes m) (cf_bytes m)
             (cf_span m) (span_stale m) (range_tombstones m) (entries m) in
  mkMany m pfx (delta + entry_bytes e) true.

(** The last version's value replaced. *)
Definition many_replace (m : MemTable) (v : Version) (value : list byte) (pfx : option (list byte)) (delta : Z)
    (any : bool) : ManyState :=
  let old_n := Z.of_nat (length v.2) in
  let new_n := Z.of_nat (length value) in
  let m := mkMem (map m) (<[(length (tail m) - 1)%nat := (v.1, value)]> (tail m)) (tail_idx m)
             (point_ord_btree m) (point_ord_btree_live m) (tail_max_seq m) (tail_ord_stale m)
             (sat_add (sat_sub (approx_bytes m) old_n) new_n) (cf_bytes m) (cf_span m)
             (span_stale m) (range_tombstones m) (entries m) in
  mkMany m pfx (if old_n <=? new_n then delta + (new_n - old_n) else delta - (old_n - new_n)) any.

Definition many_step (skip_replace : bool) (st : ManyState) (e : InternalKey * list byte) : ManyState :=
  let m := mn_mem st in
  let cf_p := cf_prefix (user_key e.1) in
  let '(m, pfx, delta) :=
    if bool_decide (mn_pfx st ≠ Some cf_p)
    then (set_cf_bytes m (flush_cf_delta (cf_bytes m) (mn_pfx st) (mn_delta st)), Some cf_p, 0)
    else (m, mn_pfx st, mn_delta st) in
  if skip_replace then many_fresh m pfx delta e
  else match last (tail m) with
       | Some v => if bool_decide (v.1 = e.1) then many_replace m v e.2 pfx delta (mn_any st)
                   else many_fresh m pfx delta e
       | None => many_fresh m pfx delta e
       end.

Definition insert_many (m : MemTable) (items : list (InternalKey * list byte)) (hint : nat) : MemTable :=
  let skip_replace := (16 <=? hint)%nat in
  let st := foldl (many_step skip_replace) (mkMany m None 0 false) items in
  let m := set_cf_bytes (mn_mem st) (flush_cf_delta (cf_bytes (mn_mem st)) (mn_pfx st) (mn_delta st)) in
  if mn_any st then set_tail m (tail m) (tail_idx m) (point_ord_btree m) (point_ord_btree_live m) (tail_max_seq m)
  else m.

(** * [map_values] *)

Definition map_values_step (f : list byte → list byte) (m : MemTable) (uk : list byte) (v : Version)
    : MemTable * Version :=
  let v' := (v.1, f v.2) in
  let n := Z.of_nat (length uk) + Z.of_nat (length v'.2) + 8 in
  (set_cf_bytes (set_counts m (sat_add (approx_bytes m) n) (range_tombstones m) (entries m))
     (bump_cf_bytes_map (cf_bytes m) uk n true), v').

Fixpoint map_values_list (f : list byte → list byte) (m : MemTable) (key_of : Version → list byte) (vs : list Version)
    : MemTable * list Version :=
  match vs with
  | [] => (m, [])
  | v :: vs =>
      let '(m, v') := map_values_step f m (key_of v) v in
      let '(m, vs') := map_values_list f m key_of vs in
      (m, v' :: vs')
  end.

Fixpoint map_values_map (f : list byte → list byte) (m : MemTable) (l : OrdMap (list byte) Versions)
    : MemTable * OrdMap (list byte) Versions :=
  match l with
  | [] => (m, [])
  | (uk, vers) :: l =>
      let '(m, vs) := map_values_list f m (λ _, uk) (vers_list vers) in
      let vers' := match vers, vs with One _, [v] => One v | _, _ => Many vs end in
      let '(m, l') := map_values_map f m l in
      (m, (uk, vers') :: l')
  end.

Definition map_values (m : MemTable) (f : list byte → list byte) : MemTable :=
  let m := set_cf_bytes (set_counts m 0 (range_tombstones m) (entries m)) [] in
  let '(m, map') := map_values_map f m (map m) in
  let '(m, tail') := map_values_list f m (λ v, user_key v.1) (tail m) in
  mkMem map' tail' (tail_idx m) (point_ord_btree m) (point_ord_btree_live m) (tail_max_seq m)
    (tail_ord_stale m) (approx_bytes m) (cf_bytes m) (cf_span m) (span_stale m) (range_tombstones m) (entries m).

(** * [count_latest_in_range] *)

(** A [BTreeMap] collected from the bindings of a [HashMap]. *)
Definition om_of_gmap (g : gmap PackKey nat) : OrdMap PackKey nat :=
  foldr (λ kv l, om_insert kv.1 kv.2 l) [] (map_to_list g).

(** [point_ord_btree]: builds the ordered copy of a shard once. *)
Definition build_point_ord (m : MemTable) (pfx : list byte) (shard : TailShard) : MemTable :=
  match om_get pfx (point_ord_btree m) with
  | Some _ => m
  | None =>
      mkMem (map m) (tail m) (tail_idx m) (om_insert pfx (om_of_gmap (point shard)) (point_ord_btree m)) true
        (tail_max_seq m) (tail_ord_stale m) (approx_bytes m) (cf_bytes m) (cf_span m) (span_stale m)
        (range_tombstones m) (entries m)
  end.

(** The counting loops: [None] is the panic of [self.tail[i]]; the loop tests
    the limit after counting. *)
Fixpoint count_values (t : list Version) (idx : list (PackKey * nat)) (limit n : nat) : option nat :=
  match idx with
  | [] => Some n
  | (_, i) :: idx =>
      v ← t !! i;
      if bool_decide (kind v.1 = Value) then
        let n := S n in
        if (limit <=? n)%nat then Some n else count_values t idx limit n
      else count_values t idx limit n
  end.

(** Counting over [range((lo, hi))], which panics on crossing bounds. *)
Definition count_range (m : MemTable) (start end_ : Bound) (b : OrdMap PackKey nat) (limit : nat)
    : option (option nat) :=
  if bounds_cross start end_ then None
  else Some <$> count_values (tail m) (om_range (in_packed_range start end_) b) limit 0.

(** The outer [option] is a panic, the inner one the code's [None] (the caller
    falls back to a scan). *)
Definition count_latest_in_range (m : MemTable) (start end_ : Bound) (limit : nat) (snapshot : Z)
    : option (option nat) * MemTable :=
  if (snapshot <? tail_max_seq m) || negb (length (map m) =? 0)%nat || negb (range_tombstones m =? 0)
  then (Some None, m)
  else if (length (tail m) =? 0)%nat then (Some (Some 0%nat), m)
  else
    let pinned :=
      match bound_cf_prefix start, bound_cf_prefix end_ with
      | Some a, Some b =>
          if bytes_eqb a b && negb (length a =? 0)%nat && (length a <? 32)%nat then Some a
          else if bytes_eqb a b && (length a =? 0)%nat && (length (tail_idx m) =? 1)%nat then Some []
          else None
      | _, _ => None
      end in
    match pinned with
    | None => (Some None, m)
    | Some pfx =>
        if negb (bound_len_le_32 start) || negb (bound_len_le_32 end_) then (Some None, m)
        else match om_get pfx (tail_idx m) with
             | None => (Some None, m)
             | Some shard =>
                 if negb (length (long shard) =? 0)%nat then (Some None, m)
                 else if negb (size (point shard) =? 0)%nat then
                   let m := build_point_ord m pfx shard in
                   match om_get pfx (point_ord_btree m) with
                   | None => (Some None, m)
                   | Some bt => (count_range m start end_ bt limit, m)
                   end
                 else if (length (short shard) =? 0)%nat then (Some None, m)
                 else (count_range m start end_ (short shard) limit, m)
             end
    end.

(** * Lemmas *)

(** ** Counting *)

Definition values_of (l : list Version) : list Version := filter (λ e : Version, kind e.1 = Value) l.

Lemma count_values_ok t idx limit n :
  Forall (λ ki : PackKey * nat, is_Some (t !! ki.2)) idx →
  count_values t idx limit n =
    Some (n + Nat.min (length (values_of (resolve t idx))) (Nat.max (limit - n) 1))%nat.
Proof.
  intros Hall. revert n. induction Hall as [|[sk i] idx [v Hv] Hall IH]; intros n; cbn [count_values].
  - cbn. f_equal. lia.
  - cbn in Hv. cbn [resolve omap list_omap snd]. rewrite Hv. cbn [mbind option_bind]. unfold values_of.
    rewrite filter_cons. fold (values_of (omap (λ ki : PackKey * nat, t !! ki.2) idx)). fold (resolve t idx).
    destruct (bool_decide_reflect (kind v.1 = Value)) as [Hk|Hk].
    + rewrite decide_True by done. cbn [length]. destruct (Nat.leb_spec limit (S n)); [f_equal; lia|].
      rewrite IH. f_equal. lia.
    + rewrite decide_False by done. apply IH.
Qed.

(** The live rows of a table with only a tail, no range deletion, and an index
    that points at the newest version of every key of the range. *)
Lemma tail_rows m b start end_ s :
  mem_ok m → map m = [] → range_tombstones m = 0 → tail_max_seq m ≤ s →
  points_newest (tail m) b → bound_len_le_32 start = true → bound_len_le_32 end_ = true →
  (∀ v, v ∈ tail m → user_key_in_range (user_key v.1) start end_ = true →
     (length (user_key v.1) ≤ 32)%nat ∧ ∃ i, om_get (pack_key (user_key v.1)) b = Some i) →
  visible_range (mem_entries m) s start end_ =
    (λ e : Version, mkVisible (user_key e.1) e.2) <$> values_of (resolve (tail m) (om_range (in_packed_range start end_) b)).
Proof.
  intros Hm Hmap Hrd Hmax Hb Hbs Hbe Hcov. pose proof (mo_uniq m Hm) as Hu. pose proof (mo_counts m Hm) as [_ _ Hrc].
  assert (mem_entries m = tail m) as He by (unfold mem_entries, map_entries; by rewrite Hmap).
  rewrite He in *. destruct (resolve_ok _ _ start end_ Hb Hbs Hbe) as (Hall & HTu & HT). set (T := resolve _ _) in *.
  assert (∀ e, e ∈ tail m → kind e.1 ≠ RangeDeletion) as Hnord.
  { intros e Hin Hk. rewrite Hrd in Hrc. unfold rd_count in Hrc.
    assert (e ∈ filter (λ e, is_rd e = true) (tail m)) as Hf.
    { apply list_elem_of_filter. unfold is_rd. by rewrite bool_decide_eq_true_2. }
    destruct (filter _ _); [by apply not_elem_of_nil in Hf|cbn in Hrc; lia]. }
  assert (proper_ranges (tail m)) as Hp by (intros e Hin Hk; by apply Hnord in Hk).
  assert (∀ n uk, ¬ hidden (tail m) s uk n) as Hnh.
  { intros n uk (k & v & Hin & Hk & _). by apply (Hnord (k, v)) in Hin. }
  assert (∀ e, e ∈ T ↔ user_key_in_range (user_key e.1) start end_ = true ∧ newest_of (tail m) (user_key e.1) s e) as HT'.
  { intros e. rewrite HT. split.
    - intros (i & Hi & Hl & Hei & (v & Hv & _ & Hvm) & Hr). split; [done|]. assert (v = e) as -> by congruence.
      assert (e ∈ tail m) as Hin by (by eapply list_elem_of_lookup_2). pose proof (mo_max m Hm e Hin).
      split_and!; [done|done|lia|]. intros w Hw Hwk _. by apply Hvm.
    - intros [Hr (Hin & _ & Hes & Hem)]. destruct (Hcov e Hin Hr) as [Hl [i Hi]]. exists i.
      destruct (proj2 Hb _ _ Hi) as (uk & Hul & Hpk & Hn). apply pack_key_inj in Hpk as <-; [|done|done].
      pose proof Hn as (v & Hv & Hvk & Hvm). assert (v ∈ tail m) as Hvin by (by eapply list_elem_of_lookup_2).
      assert (v = e) as ->; [|done]. apply (uniq_same (tail m)); [done..|]. apply Z.le_antisymm; [|by apply Hvm].
      apply Hem; [done|done|]. pose proof (mo_max m Hm v Hvin). lia. }
  eapply range_result_unique.
  { apply visible_range_result. intros k v v' Hv Hv'. assert ((k, v) = (k, v')) as [= <-]; [|done].
    by apply (uniq_same (tail m)). }
  split.
  - rewrite <-list_fmap_compose. unfold compose. cbn.
    assert (StronglySorted bytes_lt ((λ e : Version, user_key e.1) <$> values_of T)) as Hs; [|exact Hs].
    clear -HTu. unfold values_of. induction T as [|x T IH]; [constructor|]. cbn in HTu. apply StronglySorted_inv in HTu as [Hs Hx].
    rewrite filter_cons. case_decide; [|by apply IH]. cbn. constructor; [by apply IH|].
    rewrite Forall_forall in Hx. apply Forall_forall. intros k (y & -> & [_ Hy]%list_elem_of_filter)%list_elem_of_fmap.
    apply Hx. by apply (list_elem_of_fmap_2 (λ e : Version, user_key e.1)).
  - intros k v. rewrite reads_newest_of by done. rewrite list_elem_of_fmap. split.
    + intros (e & [= -> ->] & [Hk [Hr Hn]%HT']%list_elem_of_filter). split; [done|]. exists e. auto.
    + intros [Hr (e & Hn & Hk & <- & _)]. assert (user_key e.1 = k) as <- by apply Hn. exists e.
      split; [done|]. apply list_elem_of_filter. split; [done|]. by apply HT'.
Qed.

(** ** The ordered copy of a point shard *)

Lemma om_of_gmap_ok g :
  om_sorted (om_of_gmap g) ∧ ∀ k i, om_get k (om_of_gmap g) = Some i ↔ g !! k = Some i.
Proof.
  unfold om_of_gmap. assert (∀ l, NoDup l.*1 →
    let b := foldr (λ (kv : PackKey * nat) l, om_insert kv.1 kv.2 l) [] l in
    om_sorted b ∧ ∀ k i, (k, i) ∈ b ↔ (k, i) ∈ l) as Hgo.
  { induction l as [|[k0 i0] l IH]; intros Hnd; cbn.
    - split; [constructor|done].
    - cbn in Hnd. apply NoDup_cons in Hnd as [Hni Hnd]. destruct (IH Hnd) as [Hs Hmem]. split; [by apply om_insert_sorted|].
      intros k i. rewrite om_insert_elem, Hmem, elem_of_cons by done. split.
      + intros [[-> ->]|[_ ?]]; [by left|by right].
      + intros [[= -> ->]|Hin]; [by left|right]. split; [|done]. intros ->. apply Hni.
        by apply (list_elem_of_fmap_2 fst _ (k0, i)). }
  destruct (Hgo (map_to_list g)) as [Hs Hmem]; [apply NoDup_fst_map_to_list|]. split; [done|].
  intros k i. rewrite om_get_elem, Hmem by done. apply elem_of_map_to_list.
Qed.

Lemma build_point_ord_ok m pfx shard :
  mem_ok m → om_get pfx (tail_idx m) = Some shard →
  let m' := build_point_ord m pfx shard in
  mem_ok m' ∧ mem_entries m' = mem_entries m ∧ tail m' = tail m ∧
  ∃ bt, om_get pfx (point_ord_btree m') = Some bt ∧ om_sorted bt ∧
    ∀ sk i, om_get sk bt = Some i ↔ point shard !! sk = Some i.
Proof.
  intros Hm Hget. unfold build_point_ord.
  destruct (om_get pfx (point_ord_btree m)) as [bt|] eqn:Hbt.
  - split_and!; [done..|]. exists bt. split; [done|].
    destruct (co_same _ _ _ (mo_cache m Hm) pfx bt Hbt) as [Hs (s & Hs' & Hsame)]. split; [done|].
    assert (s = shard) as -> by congruence. done.
  - destruct (om_of_gmap_ok (point shard)) as [Hs Hsame]. destruct Hm as [[? ?] ? ? [Hcs Hcl Hcm] ? [? ? ?] ?].
    split_and!; [|done..|].
    + split; try done. cbn. split; [by apply om_insert_sorted|done|]. intros p b Hp.
      destruct (decide (p = pfx)) as [->|Hne].
      * rewrite om_get_insert in Hp by done. injection Hp as <-. split; [done|]. by exists shard.
      * rewrite om_get_insert_ne in Hp by done. by apply Hcm.
    + cbn. exists (om_of_gmap (point shard)). rewrite om_get_insert by done. done.
Qed.

(** The shard of a pinned prefix, as [count_latest_in_range] looks it up. *)
Definition pinned_prefix (m : MemTable) (start end_ : Bound) : option (list byte) :=
  match bound_cf_prefix start, bound_cf_prefix end_ with
  | Some a, Some b =>
      if bytes_eqb a b && negb (length a =? 0)%nat && (length a <? 32)%nat then Some a
      else if bytes_eqb a b && (length a =? 0)%nat && (length (tail_idx m) =? 1)%nat then Some []
      else None
  | _, _ => None
  end.

Lemma pinned_prefix_covers m start end_ pfx shard :
  mem_ok m → family_bounds start end_ → pinned_prefix m start end_ = Some pfx →
  om_get pfx (tail_idx m) = Some shard → covers_range m start end_ pfx shard.
Proof.
  intros Hm Hf Hpin Hget. split; [done|]. intros v Hv Hr. unfold pinned_prefix in Hpin.
  destruct (bound_cf_prefix start) as [a|] eqn:Hs; [|done]. destruct (bound_cf_prefix end_) as [b|] eqn:He; [|done].
  destruct (bytes_eqb a b && negb (length a =? 0)%nat && (length a <? 32)%nat) eqn:Hp.
  - injection Hpin as <-. rewrite !andb_true_iff, negb_true_iff in Hp. destruct Hp as [[<-%bytes_eqb_spec Hne] _].
    eapply pinned_covers; [done|done|done| |done]. by intros ->.
  - destruct (_ && _) eqn:Hp2 in Hpin; [|done]. injection Hpin as <-. rewrite !andb_true_iff, Nat.eqb_eq in Hp2.
    destruct Hp2 as [_ Hone%Nat.eqb_eq]. destruct (tail_idx m) as [|[p s] [|]] eqn:Ei; [done| |done].
    destruct (io_complete _ _ (mo_idx m Hm) v Hv) as (s' & i & Hs' & _). rewrite Ei in Hs'. cbn [om_get] in Hs', Hget.
    destruct (kcmp (idx_prefix (user_key v.1)) p) eqn:E1; [|done|done]. destruct (kcmp [] p) eqn:E2; [|done|done].
    apply kcmp_eq in E1, E2. congruence.
Qed.

(** Counting a covering index counts the rows of the reference read. *)
Lemma count_range_ok m b start end_ s limit n :
  mem_ok m → map m = [] → range_tombstones m = 0 → tail_max_seq m ≤ s →
  points_newest (tail m) b → bound_len_le_32 start = true → bound_len_le_32 end_ = true →
  (∀ v, v ∈ tail m → user_key_in_range (user_key v.1) start end_ = true →
     (length (user_key v.1) ≤ 32)%nat ∧ ∃ i, om_get (pack_key (user_key v.1)) b = Some i) →
  count_range m start end_ b limit = Some (Some n) →
  n = Nat.min (length (visible_range (mem_entries m) s start end_)) (Nat.max limit 1).
Proof.
  intros Hm Hmap Hrd Hmax Hb Hbs Hbe Hcov. unfold count_range. destruct (bounds_cross _ _); [done|].
  destruct (resolve_ok _ _ start end_ Hb Hbs Hbe) as (Hall & _). rewrite count_values_ok by done. intros [= <-].
  rewrite (tail_rows m b) by done. rewrite length_fmap. lia.
Qed.

(** A key the shard covers is in its point map or in its short map. *)
Lemma covered_slot m start end_ pfx shard v :
  mem_ok m → covers_range m start end_ pfx shard → long shard = [] → v ∈ tail m →
  user_key_in_range (user_key v.1) start end_ = true →
  (length (user_key v.1) ≤ 32)%nat ∧
  ∃ i, if point_cf pfx then point shard !! pack_key (user_key v.1) = Some i
       else om_get (pack_key (user_key v.1)) (short shard) = Some i.
Proof.
  intros Hm [Hget Hcov] Hlong Hv Hr. specialize (Hcov v Hv Hr).
  destruct (io_complete _ _ (mo_idx m Hm) v Hv) as (s & i & Hs & Hi). rewrite Hcov, Hget in Hs. injection Hs as <-.
  rewrite Hcov in Hi. unfold slot in Hi. rewrite Hlong in Hi.
  destruct (Nat.leb_spec (length (user_key v.1)) 32); [|done]. split; [done|]. exists i. by destruct (point_cf pfx).
Qed.

Lemma count_latest_ok m start end_ limit s n m' :
  mem_ok m → family_bounds start end_ →
  count_latest_in_range m start end_ limit s = (Some (Some n), m') →
  n = Nat.min (length (visible_range (mem_entries m) s start end_)) (Nat.max limit 1) ∧
  mem_ok m' ∧ mem_entries m' = mem_entries m.
Proof.
  intros Hm Hf. unfold count_latest_in_range.
  destruct (_ || _) eqn:Hguard; [done|]. rewrite !orb_false_iff, !negb_false_iff in Hguard.
  destruct Hguard as [[Hmax%Z.ltb_ge Hmap%Nat.eqb_eq%nil_length_inv] Hrd%Z.eqb_eq].
  destruct (Nat.eqb_spec (length (tail m)) 0) as [H0|H0].
  { apply nil_length_inv in H0. intros [= <- <-]. unfold mem_entries, map_entries. by rewrite Hmap, H0. }
  fold (pinned_prefix m start end_). destruct (pinned_prefix m start end_) as [pfx|] eqn:Hpin; [|done].
  destruct (negb _ || negb _) eqn:Hb; [done|]. rewrite orb_false_iff, !negb_false_iff in Hb. destruct Hb as [Hbs Hbe].
  destruct (om_get pfx (tail_idx m)) as [shard|] eqn:Hget; [|done].
  destruct (negb (length (long shard) =? 0)%nat) eqn:Hlong; [done|].
  apply negb_false_iff, Nat.eqb_eq, nil_length_inv in Hlong.
  pose proof (pinned_prefix_covers m start end_ pfx shard Hm Hf Hpin Hget) as Hcov.
  pose proof (λ v, covered_slot m start end_ pfx shard v Hm Hcov Hlong) as Hslot.
  pose proof (io_sound _ _ (mo_idx m Hm) pfx shard Hget) as [_ _ Hpt Hsh _].
  destruct (negb (size (point shard) =? 0)%nat) eqn:Hsz.
  - destruct (build_point_ord_ok m pfx shard Hm Hget) as (Hm2 & He2 & Ht2 & bt & Hbt & Hbs2 & Hsame).
    set (m2 := build_point_ord m pfx shard) in *. rewrite Hbt. intros [= Hc <-].
    split_and!; [|done|done].
    assert (∃ sk i, point shard !! sk = Some i) as (sk & i & Hski).
    { destruct (map_choose (point shard)) as (sk & i & ?); [|by exists sk, i]. intros Hemp. rewrite Hemp in Hsz. done. }
    destruct (Hpt sk i Hski) as [Hcf _]. rewrite Hcf in Hslot.
    assert (count_range m start end_ bt limit = Some (Some n)) as Hc' by (rewrite <-Hc; unfold count_range; by rewrite Ht2).
    eapply (count_range_ok m bt); try done.
    + split; [done|]. intros sk' j Hj%Hsame. destruct (Hpt sk' j Hj) as [_ (uk & ? & _ & ? & ?)]. by exists uk.
    + intros v Hv Hr. destruct (Hslot v Hv Hr) as [? [j ?]]. split; [done|]. exists j. by apply Hsame.
  - destruct (Nat.eqb_spec (length (short shard)) 0) as [|Hne]; [done|]. intros [= Hc <-]. split_and!; [|done|done].
    assert (point_cf pfx = false) as Hcf.
    { pose proof (short_points_newest m pfx shard Hm Hget) as [Hss _].
      destruct (short shard) as [|[sk i] rest] eqn:Es; [done|]. apply (Hsh sk i). apply om_get_elem; [done|by left]. }
    rewrite Hcf in Hslot. eapply (count_range_ok m (short shard)); try done. by eapply short_points_newest.
Qed.

(** ** [insert_many] is repeated [insert] *)

(** What the caller sees if the loop stopped here. *)
Definition settle (st : ManyState) : MemTable :=
  let m := set_cf_bytes (mn_mem st) (flush_cf_delta (cf_bytes (mn_mem st)) (mn_pfx st) (mn_delta st)) in
  if mn_any st then set_tail m (tail m) (tail_idx m) (point_ord_btree m) (point_ord_btree_live m) (tail_max_seq m)
  else m.

(** The spans after one key. *)
Definition span_after (m : MemTable) (uk : list byte) (k : ValueType) : OrdMap (list byte) SpanState :=
  cf_span (bump_span m uk k).

Lemma bump_span_eq m uk k : bump_span m uk k = set_span m (span_after m uk k) (span_stale m).
Proof.
  unfold span_after, bump_span. destruct m as [? ? ? ? ? ? ? ? ? span stale ? ?]. cbn. destruct stale; [done|].
  destruct (om_get (cf_prefix uk) span) as [s|]; [|done]. destruct (impure s); [done|]. by destruct (_ || _).
Qed.

Lemma bump_span_ext m m' uk k :
  cf_span m = cf_span m' → span_stale m = span_stale m' → span_after m uk k = span_after m' uk k.
Proof.
  intros Hs Hst. unfold span_after, bump_span. rewrite <-Hs, <-Hst. destruct (span_stale m); [done|].
  destruct (om_get _ (cf_span m)) as [s|]; [|done]. destruct (impure s); [done|]. by destruct (_ || _).
Qed.

Lemma sat_add_assoc a b c : 0 ≤ b → 0 ≤ c → sat_add (sat_add a b) c = sat_add a (b + c).
Proof. unfold sat_add. lia. Qed.

(** Flushing a delta and then counting one version is flushing their sum. *)
Lemma flush_bump cf uk d n :
  0 ≤ d → 0 < n → d + n ≤ U64_MAX → om_sorted cf →
  bump_cf_bytes_map (flush_cf_delta cf (Some (cf_prefix uk)) d) uk n true =
    flush_cf_delta cf (Some (cf_prefix uk)) (d + n).
Proof.
  intros Hd Hn Hb Hs. unfold bump_cf_bytes_map, flush_cf_delta.
  rewrite (proj2 (Z.eqb_neq (d + n) 0)), (proj2 (Z.ltb_lt 0 (d + n))) by lia.
  destruct (Z.eqb_spec d 0) as [->|Hd0].
  - destruct (om_get (cf_prefix uk) cf); [done|]. cbn. by rewrite (proj2 (Z.eqb_neq n 0)) by lia.
  - rewrite (proj2 (Z.ltb_lt 0 d)) by lia. destruct (om_get (cf_prefix uk) cf) as [slot|] eqn:Hg.
    + rewrite om_get_insert, om_insert_insert by done. by rewrite sat_add_assoc by lia.
    + rewrite om_get_insert, om_insert_insert by done. f_equal. unfold sat_add. lia.
Qed.

Lemma flush_sorted cf pfx d : om_sorted cf → om_sorted (flush_cf_delta cf pfx d).
Proof.
  intros Hs. unfold flush_cf_delta. destruct pfx; [|done]. destruct (d =? 0); [done|].
  destruct (om_get _ _); [by apply om_insert_sorted|]. destruct (0 <? d); [by apply om_insert_sorted|done].
Qed.

(** The loop's accounting is sound: the delta is small and belongs to a prefix. *)
Record many_ok (st : ManyState) (room : Z) : Prop := {
  mk_sorted : om_sorted (cf_bytes (mn_mem st));
  mk_delta : 0 ≤ mn_delta st ≤ room;
}.

Lemma many_step_ok skip st e room :
  many_ok st room → room + entry_bytes e ≤ U64_MAX → 0 ≤ room →
  (∀ v, last (tail (mn_mem st)) = Some v → v.1 ≠ e.1) →
  settle (many_step skip st e) = insert (settle st) e.1 e.2 ∧ many_ok (many_step skip st e) (room + entry_bytes e).
Proof.
  intros [Hs Hd] Hroom H0 Hlast. destruct e as [key value]. cbn [fst snd] in *.
  pose proof (entry_bytes_pos (key, value)) as Hpos.
  set (m := mn_mem st) in *. set (p := cf_prefix (user_key key)).
  assert (∃ cf d, (if bool_decide (mn_pfx st ≠ Some p)
                   then (set_cf_bytes m (flush_cf_delta (cf_bytes m) (mn_pfx st) (mn_delta st)), Some p, 0)
                   else (m, mn_pfx st, mn_delta st)) = (set_cf_bytes m cf, Some p, d) ∧
            om_sorted cf ∧ 0 ≤ d ≤ room ∧
            flush_cf_delta cf (Some p) d = flush_cf_delta (cf_bytes m) (mn_pfx st) (mn_delta st))
    as (cf & d & Hmemo & Hcs & Hdr & Hflush).
  { destruct (bool_decide_reflect (mn_pfx st ≠ Some p)) as [Hne|Heq].
    - eexists _, 0. split; [done|]. split; [by apply flush_sorted|]. split; [lia|done].
    - apply dec_stable in Heq. exists (cf_bytes m), (mn_delta st). rewrite Heq. split; [by destruct m|]. done. }
  assert (insert (settle st) key value = insert_fresh (settle st) key value) as ->.
  { assert (tail (settle st) = tail m) as Ht by (unfold settle; by destruct (mn_any st)).
    unfold insert. rewrite Ht. destruct (last (tail m)) as [v|] eqn:Hl; [|done].
    rewrite bool_decide_eq_false_2; [done|]. by apply Hlast. }
  assert (many_step skip st (key, value) = many_fresh (set_cf_bytes m cf) (Some p) d (key, value)) as ->.
  { unfold many_step. cbn [fst snd]. fold m p. rewrite Hmemo. destruct skip; [done|]. cbn [tail set_cf_bytes].
    destruct (last (tail m)) as [v|] eqn:Hl; [|done]. rewrite bool_decide_eq_false_2; [done|]. by apply Hlast. }
  unfold many_fresh. cbn zeta. cbn [fst snd].
  rewrite bump_span_eq. cbn [tail tail_idx point_ord_btree point_ord_btree_live set_counts set_span set_cf_bytes].
  destruct (idx_append (tail m) (tail_idx m) (point_ord_btree m) (point_ord_btree_live m) key) as [idx bt] eqn:Hidx.
  split.
  - unfold insert_fresh. cbn zeta. rewrite bump_span_eq. unfold tail_append, settle. fold m.
    rewrite <-Hflush. destruct (mn_any st);
      cbn [mn_mem mn_pfx mn_delta mn_any map tail tail_idx point_ord_btree point_ord_btree_live tail_max_seq tail_ord_stale
           approx_bytes cf_bytes cf_span span_stale range_tombstones entries set_tail set_cf_bytes set_counts set_span];
      rewrite Hidx; unfold set_tail, set_cf_bytes; cbn; f_equal;
      try (unfold p; symmetry; apply flush_bump; (done || lia));
      by apply bump_span_ext.
  - split; cbn; [done|lia].
Qed.

Lemma insert_many_ok m items hint :
  mem_ok m → om_sorted (cf_bytes m) → uniq (mem_entries m ++ items) →
  total_bytes (mem_entries m ++ items) ≤ U64_MAX →
  insert_many m items hint = foldl (λ m e, insert m e.1 e.2) m items.
Proof.
  intros Hm Hcf Hu Hroom. change (insert_many m items hint)
    with (settle (foldl (many_step (16 <=? hint)%nat) (mkMany m None 0 false) items)).
  assert (settle (mkMany m None 0 false) = m) as Hset by (by destruct m).
  assert (many_ok (mkMany m None 0 false) (total_bytes (mem_entries m))) as Hok.
  { split; [done|]. cbn. pose proof (total_bytes_length (mem_entries m)). lia. }
  revert Hok Hset Hm Hu Hroom. generalize (mkMany m None 0 false). clear Hcf. revert m.
  induction items as [|e items IH]; intros m st Hok Hset Hm Hu Hroom; cbn [foldl]; [done|].
  assert (tail (mn_mem st) = tail m) as Ht by (rewrite <-Hset; unfold settle; by destruct (mn_any st)).
  assert (fresh_id e (mem_entries m)) as Hf.
  { intros x Hx Hk Hs. unfold uniq in Hu. rewrite fmap_app in Hu. apply NoDup_app in Hu as (_ & Hd & _).
    apply (Hd (user_key x.1, sequence x.1)); [by apply (list_elem_of_fmap_2 (λ e : entry, (user_key e.1, sequence e.1)))|].
    rewrite Hk, Hs. cbn. by left. }
  rewrite total_bytes_app, total_bytes_cons in Hroom. pose proof (total_bytes_length items).
  pose proof (total_bytes_length (mem_entries m)).
  destruct (many_step_ok (16 <=? hint)%nat st e (total_bytes (mem_entries m))) as [Hst Hok']; [done|lia|lia| |].
  { rewrite Ht. intros v Hl Heq. apply last_Some in Hl as [l' Hl]. apply (Hf v); [|by rewrite Heq..].
    unfold mem_entries. rewrite Hl, !elem_of_app. right. right. set_solver. }
  destruct e as [k v]. cbn [fst snd] in *. destruct (insert_ok m k v Hm Hf) as [Hm' He]; [lia|].
  rewrite Hset in Hst. apply IH; rewrite ?He; [|done|done|by rewrite <-app_assoc|].
  - rewrite total_bytes_app, total_bytes_cons. change (total_bytes []) with 0. by rewrite Z.add_0_r.
  - rewrite <-app_assoc. cbn [app]. rewrite total_bytes_app, total_bytes_cons. lia.
Qed.

(** * Properties *)

(** The batched insert is repeated insertion. For operations with fresh
    sequences, and whatever the size hint, [insert_many] (one shard lookup per
    prefix run, bytes accumulated per family and flushed when the prefix
    changes, spans updated in place) leaves exactly the table that inserting the
    operations one by one leaves, every field included. *)
Theorem insert_many_is_inserts m items hint :
  mem_ok m → om_sorted (cf_bytes m) → uniq (mem_entries m ++ items) →
  total_bytes (mem_entries m ++ items) ≤ U64_MAX →
  insert_many m items hint = foldl (λ m e, insert m e.1 e.2) m items.
Proof. apply insert_many_ok. Qed.

(** The index count is the number of live keys. When
    [count_latest_in_range] answers, on bounds that are keys of a column family
    or raw keys of the only shard, the answer is the number of rows of the
    reference range read, cut at the limit (a limit of zero still counts one);
    building the ordered copy of a point shard on the way keeps the table's
    invariant and contents. *)
Theorem count_latest_exact m start end_ limit s n m' :
  mem_ok m → family_bounds start end_ →
  count_latest_in_range m start end_ limit s = (Some (Some n), m') →
  n = Nat.min (length (visible_range (mem_entries m) s start end_)) (Nat.max limit 1) ∧
  mem_ok m' ∧ mem_entries m' = mem_entries m.
Proof. apply count_latest_ok. Qed.

(** ** Witnesses *)

Definition sample_items : list (InternalKey * list byte) :=
  [(mkIKey [x66; x00; x61] 1 Value, [x31]); (mkIKey [x66; x00; x62] 2 Value, [x32; x33]);
   (mkIKey [x67; x00; x61] 3 Deletion, []); (mkIKey [x66; x00; x61] 4 RangeDeletion, [x66; x00; x62])].

Lemma insert_many_is_inserts_witness :
  approx_memory_usage_cf (insert_many mem_new sample_items 4) [x66] =
  approx_memory_usage_cf (foldl (λ m e, insert m e.1 e.2) mem_new sample_items) [x66].
Proof.
  rewrite (insert_many_is_inserts mem_new sample_items 4); [reflexivity|apply mem_new_ok|constructor| |vm_compute; discriminate].
  apply (bool_decide_unpack _). vm_compute. exact I.
Defined.

(** A lock-family tail: point shard, counted through its ordered copy. *)
Definition lock_mem : MemTable :=
  delete (put (put mem_new (LOCK ++ [x00; x61]) 1 [x31]) (LOCK ++ [x00; x62]) 2 [x32]) (LOCK ++ [x00; x61]) 3.

Lemma lock_mem_ok : mem_ok lock_mem.
Proof.
  unfold lock_mem, put, delete.
  apply insert_ok; [apply insert_ok; [apply insert_ok; [apply mem_new_ok| |]| |]| |];
    try (vm_compute; discriminate);
    match goal with |- fresh_id _ ?l => let l' := eval vm_compute in l in change l with l' end;
    intros x Hx; repeat (apply elem_of_cons in Hx as [->|Hx]; [done|]); by apply not_elem_of_nil in Hx.
Qed.

Lemma count_latest_exact_witness :
  Nat.min (length (visible_range (mem_entries lock_mem) 3 (Included (LOCK ++ [x00])) (Excluded (LOCK ++ [x00; x7a])))) 8 = 1%nat.
Proof.
  destruct (count_latest_in_range lock_mem (Included (LOCK ++ [x00])) (Excluded (LOCK ++ [x00; x7a])) 8 3)
    as [r m'] eqn:E.
  assert (r = Some (Some 1%nat)) as ->.
  { change r with (fst (r, m')). rewrite <-E. vm_compute. reflexivity. }
  symmetry. apply (count_latest_exact lock_mem _ _ 8 3 1%nat m' lock_mem_ok); [|exact E].
  intros _ _. vm_compute. split; discriminate.
Defined.
