(* ===== verification/WalWriter.v ===== *)
(** The append-only log writer and its file wrapper: [WalWriter] of
    [wal/writer_kernel.rs] (staging buffer, reservation frontier, completed
    tickets, drained watermark), [Wal] and [PwriteJob] of [wal/mod_kernel.rs],
    and the kernels they call ([wal_ticket_kernel.rs], [wal_buffer_kernel.rs]).

    The sink is a file of bytes with positional writes, together with the spans
    written since the last successful sync: a crash of the machine may leave
    anything there ([crash_image]). What the operating system answers to each
    sink call is a script, consumed one outcome per call, so that every
    operation is an executable function of the writer and its script. A [None]
    result is a panic of the fragmentation step (proved unreachable from a legal
    block offset). *)

From S2P Require Import Prelude ErrorKernel KeyKernel BatchKernel WalFormat WalFragment WalSource OrdMap.

Local Open Scope Z_scope.

(** * The sink *)

(** The outcome of one sink call; a failed write may have put a prefix of its
    bytes in the file. *)
Inductive Outcome := IoOk | IoErr (written : nat).

(** [sk_file] is what a reader of the file sees; [sk_dirty] are the spans that
    were written or cut since the last successful sync. *)
Record Sink := mkSink { sk_file : list byte; sk_dirty : list (Z * Z); sk_script : list Outcome }.

(** A file just created. *)
Definition fresh_sink (script : list Outcome) : Sink := mkSink [] [] script.

Definition zlen (l : list byte) : Z := Z.of_nat (length l).

(** The longest the file was since the last sync. *)
Definition sk_high (s : Sink) : Z := foldr (λ d n, Z.max d.2 n) (zlen (sk_file s)) (sk_dirty s).

(** What a crash of the machine may leave of the file: a byte no unsynced span
    covers is as it was; the covered bytes, and the length above the synced
    part, are arbitrary. *)
Definition crash_image (s : Sink) (f : list byte) : Prop :=
  zlen f ≤ sk_high s ∧
  ∀ i b, sk_file s !! i = Some b → Forall (λ d, ¬ (d.1 ≤ Z.of_nat i < d.2)) (sk_dirty s) → f !! i = Some b.

Definition next_io (s : Sink) : Outcome * Sink :=
  match sk_script s with
  | [] => (IoOk, s)
  | o :: os => (o, mkSink (sk_file s) (sk_dirty s) os)
  end.

(** [pwrite]: a write past the end fills the gap with zeros. *)
Definition pwrite (f : list byte) (at_ : Z) (buf : list byte) : list byte :=
  let n := Z.to_nat at_ in
  take n f ++ replicate (n - length f) x00 ++ buf ++ drop (n + length buf) f.

(** The bytes a write touches, the zeros that fill a gap included. *)
Definition write_span (f : list byte) (at_ : Z) (buf : list byte) : Z * Z :=
  (Z.min (zlen f) at_, at_ + zlen buf).

(** [EnvFile::write_wal], [write_wal_at_shared] and [write_all_at]: all of
    [buf] at offset [at]; nothing of it is durable yet. *)
Definition sink_write (buf : list byte) (at_ : Z) (s : Sink) : Result CoreError unit * Sink :=
  let '(o, s) := next_io s in
  match o with
  | IoOk => (Ok tt, mkSink (pwrite (sk_file s) at_ buf) (write_span (sk_file s) at_ buf :: sk_dirty s)
                      (sk_script s))
  | IoErr n => (Err Io, mkSink (pwrite (sk_file s) at_ (take n buf))
                          (write_span (sk_file s) at_ (take n buf) :: sk_dirty s) (sk_script s))
  end.

(** [sync_data], [sync_data_strong], [sync_all]: on success everything written
    so far is durable. *)
Definition sink_sync (s : Sink) : Result CoreError unit * Sink :=
  let '(o, s) := next_io s in
  match o with
  | IoOk => (Ok tt, mkSink (sk_file s) [] (sk_script s))
  | IoErr _ => (Err Io, s)
  end.

(** [flush], [preallocate]: neither the bytes of the file nor what a crash
    keeps of them change. *)
Definition sink_call (s : Sink) : Result CoreError unit * Sink :=
  let '(o, s) := next_io s in
  match o with IoOk => (Ok tt, s) | IoErr _ => (Err Io, s) end.

(** [set_len]: truncate, or extend with zeros. *)
Definition sink_set_len (len : Z) (s : Sink) : Result CoreError unit * Sink :=
  let '(o, s) := next_io s in
  let n := Z.to_nat len in
  match o with
  | IoOk => (Ok tt, mkSink (take n (sk_file s) ++ replicate (n - length (sk_file s)) x00)
                      ((Z.min len (zlen (sk_file s)), Z.max len (zlen (sk_file s))) :: sk_dirty s)
                      (sk_script s))
  | IoErr _ => (Err Io, s)
  end.

(** * Decision kernels *)

(** [wal_ticket_kernel::reserve_frame] *)
Definition reserve_frame (reserved_to len : Z) : Z * Z :=
  if len =? 0 then (reserved_to, reserved_to) else (reserved_to, sat_add reserved_to len).

(** [wal_ticket_kernel::pwrite_off_lock] *)
Definition pwrite_off_lock (want can : bool) : bool := want && can.

(** [wal_buffer_kernel::should_flush] *)
Definition should_flush (staged max : Z) : bool := (max =? 0) || (max <=? staged).

(** * The writer *)

Record StagedBuf := mkStaged { sb_buf : list byte; sb_start : Z; sb_max : Z }.

Record WalWriter := mkWriter {
  w_sink : Sink;
  (** [WalSink::Shared]; [Exclusive] otherwise. *)
  w_shared : bool;
  block_offset : nat;
  position : Z;
  frame : list byte;
  staged : option StagedBuf;
  reserved_to : Z;
  completed_pwrite_intervals : list (Z * Z)
}.

Definition set_sink s w :=
  mkWriter s (w_shared w) (block_offset w) (position w) (frame w) (staged w) (reserved_to w)
    (completed_pwrite_intervals w).
Definition set_block_offset o w :=
  mkWriter (w_sink w) (w_shared w) o (position w) (frame w) (staged w) (reserved_to w)
    (completed_pwrite_intervals w).
Definition set_position p w :=
  mkWriter (w_sink w) (w_shared w) (block_offset w) p (frame w) (staged w) (reserved_to w)
    (completed_pwrite_intervals w).
Definition set_frame f w :=
  mkWriter (w_sink w) (w_shared w) (block_offset w) (position w) f (staged w) (reserved_to w)
    (completed_pwrite_intervals w).
Definition set_staged s w :=
  mkWriter (w_sink w) (w_shared w) (block_offset w) (position w) (frame w) s (reserved_to w)
    (completed_pwrite_intervals w).
Definition set_reserved_to r w :=
  mkWriter (w_sink w) (w_shared w) (block_offset w) (position w) (frame w) (staged w) r
    (completed_pwrite_intervals w).
Definition set_intervals m w :=
  mkWriter (w_sink w) (w_shared w) (block_offset w) (position w) (frame w) (staged w)
    (reserved_to w) m.

Definition file (w : WalWriter) : list byte := sk_file (w_sink w).

(** A writer operation: an error leaves the state it reached; [None] panics. *)
Definition Op A := WalWriter → option (Result CoreError A * WalWriter).

Definition op_ret {A} (a : A) : Op A := λ w, Some (Ok a, w).
Definition op_bind {A B} (m : Op A) (k : A → Op B) : Op B := λ w,
  match m w with
  | None => None
  | Some (Ok a, w) => k a w
  | Some (Err e, w) => Some (Err e, w)
  end.
Definition op_modify (f : WalWriter → WalWriter) : Op unit := λ w, Some (Ok tt, f w).
(** A sink call under [?]. *)
Definition op_sink (f : Sink → Result CoreError unit * Sink) : Op unit := λ w,
  let '(r, s) := f (w_sink w) in Some (r, set_sink s w).

Declare Scope op_scope.
Delimit Scope op_scope with op.
Notation "'do!' m ; k" := (op_bind m (λ _, k)) (at level 100, m at level 99, k at level 200) : op_scope.
Local Open Scope op_scope.

(** [emit_bytes]: the exclusive and the shared sink both honour the offset. *)
Definition emit_bytes (buf : list byte) (at_ : Z) : Op unit := op_sink (sink_write buf at_).

(** [WalWriter::new] on a handle whose cursor stands at [raw_pos]. *)
Definition writer_new (out : Sink) (raw_pos : Z) (positional want_pwrite : bool) : WalWriter :=
  mkWriter out (positional && want_pwrite) (Z.to_nat raw_pos mod BLOCK_SIZE)%nat raw_pos [] None raw_pos [].

Definition enable_staging (max : Z) (w : WalWriter) : WalWriter :=
  set_staged (Some (mkStaged [] (reserved_to w) max)) w.

(** The [while let] of [commit_pwrite]: each pass removes one interval. *)
Fixpoint absorb_completed (fuel : nat) (w : WalWriter) : WalWriter :=
  match fuel with
  | O => w
  | S n =>
      match om_get (position w) (completed_pwrite_intervals w) with
      | None => w
      | Some end_offset =>
          absorb_completed n
            (set_position end_offset
              (set_intervals (om_remove (position w) (completed_pwrite_intervals w)) w))
      end
  end.

(** [commit_pwrite] *)
Definition commit_pwrite (ticket len : Z) (w : WalWriter) : WalWriter :=
  if len =? 0 then w
  else
    let end_ := sat_add ticket len in
    let w :=
      if ticket <=? position w then
        if position w <? end_ then set_position end_ w else w
      else set_intervals (om_insert ticket end_ (completed_pwrite_intervals w)) w in
    absorb_completed (S (length (completed_pwrite_intervals w))) w.

(** [drain_staged]: a failed drain puts the bytes back, for a retry at the same
    offset. *)
Definition drain_staged : Op unit := λ w,
  match staged w with
  | None => Some (Ok tt, w)
  | Some st =>
      if (length (sb_buf st) =? 0)%nat then Some (Ok tt, w)
      else
        let w := set_staged (Some (mkStaged [] (sb_start st) (sb_max st))) w in
        match emit_bytes (sb_buf st) (sb_start st) w with
        | None => None
        | Some (Ok _, w) => Some (Ok tt, commit_pwrite (sb_start st) (zlen (sb_buf st)) w)
        | Some (Err e, w) => Some (Err e, set_staged (Some st) w)
        end
  end.

(** [reserve_pending] *)
Definition reserve_pending (len : Z) (w : WalWriter) : Z * WalWriter :=
  let '(ticket, next) := reserve_frame (reserved_to w) len in (ticket, set_reserved_to next w).

(** [write_owned] *)
Definition write_owned (buf : list byte) : Op unit := λ w,
  if batch_is_empty (length buf) then Some (Ok tt, w)
  else
    let '(at_, w) := reserve_pending (zlen buf) w in
    (do! emit_bytes buf at_; op_modify (commit_pwrite at_ (zlen buf))) w.

(** Fragment records into a frame buffer, advancing [block_offset]. *)
Definition fragment_all `{Crc32c} (datas : list (list byte)) (w : WalWriter) (buf : list byte)
    : option (WalWriter * list byte) :=
  foldl (λ acc d, '(w, buf) ← acc; '(off, buf) ← fragment_into (block_offset w) d buf;
                  Some (set_block_offset off w, buf)) (Some (w, buf)) datas.

(** [add_record]: the frame buffer is cleared first, and lost on an error. *)
Definition add_record `{Crc32c} (data : list byte) : Op unit := λ w,
  '(w, buf) ← fragment_all [data] (set_frame [] w) [];
  (do! drain_staged; do! write_owned buf; op_modify (set_frame [])) w.

(** [add_records] *)
Definition add_records `{Crc32c} (datas : list (list byte)) : Op unit := λ w,
  if batch_is_empty (length datas) then Some (Ok tt, w)
  else
    '(w, buf) ← fragment_all datas (set_frame [] w) [];
    (do! drain_staged; do! write_owned buf; op_modify (set_frame [])) w.

(** [take_preframed_layout] *)
Definition take_preframed_layout (rec_len : nat) (w : WalWriter) : option (nat * WalWriter) :=
  if (rec_len =? 0)%nat || (BLOCK_SIZE <? rec_len)%nat then None
  else
    let leftover := (BLOCK_SIZE - block_offset w)%nat in
    let pad := if (leftover <? HEADER_SIZE)%nat then leftover else 0%nat in
    let room := if (leftover <? HEADER_SIZE)%nat then BLOCK_SIZE else leftover in
    if (room <? rec_len)%nat then None
    else
      let off := if (leftover <? HEADER_SIZE)%nat then 0%nat else block_offset w in
      Some (pad, set_block_offset (off + rec_len)%nat w).

(** [write_lone_frame] *)
Definition write_lone_frame (buf : list byte) : Op unit := λ w,
  if batch_is_empty (length buf) then Some (Ok tt, w)
  else (do! drain_staged; write_owned buf) w.

(** [write_frame]: with staging, the frame reserves its span, joins the buffer
    and is drained once the buffer is full. *)
Definition write_frame (buf : list byte) : Op unit := λ w,
  if batch_is_empty (length buf) then Some (Ok tt, w)
  else
    match staged w with
    | Some _ =>
        let '(at_, w) := reserve_pending (zlen buf) w in
        match staged w with
        | None => None
        | Some st =>
            let start := if (length (sb_buf st) =? 0)%nat then at_ else sb_start st in
            let buf' := sb_buf st ++ buf in
            let w := set_staged (Some (mkStaged buf' start (sb_max st))) w in
            if should_flush (zlen buf') (sb_max st) then drain_staged w else Some (Ok tt, w)
        end
    | None => write_owned buf w
    end.

(** [WalWriter::flush]; a shared sink has no cursor to flush. *)
Definition writer_flush : Op unit :=
  do! drain_staged; λ w, if w_shared w then Some (Ok tt, w) else op_sink sink_call w.

(** [write_all_at] *)
Definition write_all_at (buf : list byte) (at_ : Z) : Op unit :=
  do! op_sink (sink_write buf at_); op_modify (commit_pwrite at_ (zlen buf)).

(** [truncate_to_logical] *)
Definition truncate_to_logical : Op unit :=
  do! drain_staged; λ w, op_sink (sink_set_len (position w)) w.

(** [WalWriter::discard_uncommitted] *)
Definition writer_discard_uncommitted (offset : Z) : Op unit := λ w,
  let w := match staged w with
           | Some st => set_staged (Some (mkStaged [] offset (sb_max st))) w
           | None => w
           end in
  let w := set_intervals (filter (λ iv, iv.1 < offset) (completed_pwrite_intervals w)) w in
  let w := set_block_offset (Z.to_nat offset mod BLOCK_SIZE)%nat
             (set_reserved_to offset (set_position offset w)) in
  op_sink (sink_set_len offset) w.

(** * The file wrapper *)

Definition WAL_PREALLOC_CHUNK : Z := 64 * 1024 * 1024.

(** [struct Wal]; [inflight] counts the tickets whose write has not returned. *)
Record Wal := mkWal { writer : WalWriter; prealloc_to : Z; pwrite_want : bool; inflight : nat }.

Definition set_writer w (l : Wal) := mkWal w (prealloc_to l) (pwrite_want l) (inflight l).
Definition set_inflight n (l : Wal) := mkWal (writer l) (prealloc_to l) (pwrite_want l) n.

Definition WalOp A := Wal → option (Result CoreError A * Wal).

Definition on_writer {A} (m : Op A) : WalOp A := λ l,
  match m (writer l) with
  | None => None
  | Some (r, w) => Some (r, set_writer w l)
  end.

Definition wal_bind {A B} (m : WalOp A) (k : A → WalOp B) : WalOp B := λ l,
  match m l with
  | None => None
  | Some (Ok a, l) => k a l
  | Some (Err e, l) => Some (Err e, l)
  end.
Declare Scope wal_scope.
Delimit Scope wal_scope with wal.
Notation "'wal!' m ; k" := (wal_bind m (λ _, k)) (at level 100, m at level 99, k at level 200) : wal_scope.
Local Open Scope wal_scope.

(** The loop of [reserve_space]: reserve chunks until [need] is covered or the
    platform refuses. *)
Fixpoint prealloc_loop (fuel : nat) (need : Z) (l : Wal) : Wal :=
  match fuel with
  | O => l
  | S n =>
      if prealloc_to l <? need then
        let '(r, s) := sink_call (w_sink (writer l)) in
        let l := set_writer (set_sink s (writer l)) l in
        match r with
        | Err _ => l
        | Ok _ => prealloc_loop n need
                    (mkWal (writer l) (sat_add (prealloc_to l) WAL_PREALLOC_CHUNK)
                       (pwrite_want l) (inflight l))
        end
      else l
  end.

(** [reserve_space]: each pass but the last moves [prealloc_to] by a chunk. *)
Definition reserve_space (upcoming : Z) (l : Wal) : Wal :=
  let pos := reserved_to (writer l) in
  let l := mkWal (writer l) (Z.max (prealloc_to l) pos) (pwrite_want l) (inflight l) in
  let need := sat_add (sat_add pos upcoming) WAL_PREALLOC_CHUNK in
  prealloc_loop (Z.to_nat ((need - prealloc_to l) / WAL_PREALLOC_CHUNK + 2)) need l.

(** [create_on]: [out] is the freshly created (empty) file. *)
Definition create_on (out : Sink) (staged_max : Z) (positional want_pwrite : bool) : Wal :=
  let w := writer_new out 0 positional want_pwrite in
  let w := if 0 <? staged_max then enable_staging staged_max w else w in
  reserve_space 1 (mkWal w 0 want_pwrite 0).

(** [append_record], [append_records] *)
Definition append_record `{Crc32c} (data : list byte) : WalOp unit := λ l,
  on_writer (add_record data) (reserve_space (zlen data + 2 * Z.of_nat HEADER_SIZE) l).

Definition wal_append_records `{Crc32c} (datas : list (list byte)) : WalOp unit := λ l,
  on_writer (add_records datas)
    (reserve_space (Z.of_nat (sum_list (length <$> datas)) + 2 * Z.of_nat HEADER_SIZE) l).

(** [append_write_ops] *)
Definition append_write_ops `{Crc32c} (ops : list WriteOp) : WalOp Z := λ l,
  logical ← encode_ops ops [];
  wal_bind (append_record logical) (λ _ l, Some (Ok (zlen logical), l)) l.

(** [encode_write_op_batches]: each batch is framed at the end of the pending
    frame. *)
Definition encode_write_op_batches `{Crc32c} (batches : list (list WriteOp)) : WalOp Z := λ l,
  if batch_is_empty (length batches) then Some (Ok 0, l)
  else
    '(n, off, buf) ← foldl
       (λ acc ops, '(n, off, buf) ← acc; '(len, off, buf) ← fragment_encoded_len off ops buf;
                   Some (sat_add n (Z.of_nat len), off, buf))
       (Some (0, block_offset (writer l), frame (writer l))) batches;
    Some (Ok n, set_writer (set_frame buf (set_block_offset off (writer l))) l).

(** [write_pending_inner]: the frame is cleared whatever the outcome. *)
Definition write_pending_inner (lone_writer : bool) : WalOp unit := λ l,
  let buf := frame (writer l) in
  if batch_is_empty (length buf) then Some (Ok tt, l)
  else
    let l := reserve_space (zlen buf) (set_writer (set_frame [] (writer l)) l) in
    on_writer (if lone_writer then write_lone_frame buf else write_frame buf) l.

(** [write_pending_frame], [write_pending_frame_lone] *)
Definition write_pending_frame : WalOp unit := write_pending_inner false.
Definition write_pending_frame_lone : WalOp unit := write_pending_inner true.

(** [struct PwriteJob] *)
Record PwriteJob := mkJob { job_buf : list byte; job_ticket : Z }.

Definition positional_writes (positional : bool) (w : WalWriter) : bool :=
  if w_shared w then true else positional.

(** [take_pwrite_job]; [positional] is what the exclusive handle answers. *)
Definition take_pwrite_job (positional : bool) : WalOp (option PwriteJob) := λ l,
  if negb (pwrite_off_lock (pwrite_want l) (positional_writes positional (writer l))) then
    Some (Ok None, l)
  else
    let buf := frame (writer l) in
    if batch_is_empty (length buf) then Some (Ok None, l)
    else
      let l := reserve_space (zlen buf) (set_writer (set_frame [] (writer l)) l) in
      let '(ticket, w) := reserve_pending (zlen buf) (writer l) in
      if w_shared w then
        Some (Ok (Some (mkJob buf ticket)), set_inflight (S (inflight l)) (set_writer w l))
      else
        match write_all_at buf ticket w with
        | None => None
        | Some (Err e, w) => Some (Err e, set_writer (set_frame buf w) l)
        | Some (Ok _, w) => Some (Ok None, set_writer (commit_pwrite ticket (zlen buf) w) l)
        end.

(** [take_preframed_pwrite_job] *)
Definition take_preframed_pwrite_job (positional : bool) (rec : list byte)
    : WalOp (option PwriteJob) := λ l,
  if batch_is_empty (length rec) then Some (Ok None, l)
  else if negb (pwrite_off_lock (pwrite_want l) (positional_writes positional (writer l))) then
    Some (Ok None, l)
  else if negb (w_shared (writer l)) then Some (Ok None, l)
  else
    match take_preframed_layout (length rec) (writer l) with
    | None => Some (Ok None, l)
    | Some (pad, w) =>
        let buf := replicate pad x00 ++ rec in
        let l := reserve_space (zlen buf) (set_writer w l) in
        let '(ticket, w) := reserve_pending (zlen buf) (writer l) in
        Some (Ok (Some (mkJob buf ticket)), set_inflight (S (inflight l)) (set_writer w l))
    end.

(** [PwriteJob::run]: the write happens without the log's lock; the count of
    writes in flight drops whatever the outcome. *)
Definition run_job (j : PwriteJob) : WalOp (Z * Z) := λ l,
  let '(r, s) := sink_write (job_buf j) (job_ticket j) (w_sink (writer l)) in
  let l := set_inflight (pred (inflight l)) (set_writer (set_sink s (writer l)) l) in
  match r with
  | Err e => Some (Err e, l)
  | Ok _ => Some (Ok (job_ticket j, zlen (job_buf j)), l)
  end.

(** [Drop for PwriteJob]: a job dropped before [run] still writes its bytes, so
    that the reserved span is no gap; the outcome is ignored and the ticket is
    never committed. *)
Definition drop_job (j : PwriteJob) (l : Wal) : Wal :=
  let '(_, s) := sink_write (job_buf j) (job_ticket j) (w_sink (writer l)) in
  set_inflight (pred (inflight l)) (set_writer (set_sink s (writer l)) l).

(** [finish_pwrite] *)
Definition finish_pwrite (ticket len : Z) (l : Wal) : Wal :=
  if len =? 0 then l else set_writer (commit_pwrite ticket len (writer l)) l.

(** [flush], [sync_all], and [sync_data_inner], whose wait for the writes in
    flight makes it enabled only when there are none. *)
Definition wal_flush : WalOp unit :=
  wal! write_pending_frame; wal! on_writer drain_staged; on_writer writer_flush.
Definition sync_data_inner : WalOp unit := λ l,
  if (inflight l =? 0)%nat then
    (wal! write_pending_frame; wal! on_writer writer_flush; on_writer (op_sink sink_sync)) l
  else None.
Definition sync_all : WalOp unit :=
  wal! write_pending_frame; wal! on_writer writer_flush; on_writer (op_sink sink_sync).

(** [close], [discard_uncommitted] *)
Definition close : WalOp unit := wal! wal_flush; on_writer truncate_to_logical.
Definition discard_uncommitted (offset : Z) : WalOp unit := on_writer (writer_discard_uncommitted offset).
