(* ===== verification/WalLog.v ===== *)
(** The log as a concurrent system: what the file holds while writers stage,
    reserve, write out of order and fail.

    The specification is a byte stream, the frames in reservation order.
    [writer_ok] relates a writer to it: the spans still owed to the file (the
    staged buffer, the completed intervals above the watermark, and the tickets
    held outside the writer) tile the gap between the drained watermark
    [position] and the frontier [reserved_to], everything below the watermark is
    in the file, and no byte below an earlier sync point [D] was written since
    that sync, so that a crash keeps them all. *)

From S2P Require Import Prelude ErrorKernel KeyKernel BatchKernel WalFormat WalFragment WalSource WalReader WalRecovery OrdMap WalWriter.

Local Open Scope Z_scope.

(** * Files and streams *)

(** [f] and [s] hold the same bytes at the offsets of [a, b). *)
Definition agree (a b : Z) (f s : list byte) : Prop :=
  ∀ i, a ≤ Z.of_nat i < b → f !! i = s !! i.

(** The stream [s] has [buf] at offset [at_]. *)
Definition placed (at_ : Z) (buf s : list byte) : Prop :=
  0 ≤ at_ ≤ zlen s ∧ buf `prefix_of` drop (Z.to_nat at_) s.

Lemma pwrite_lookup f at_ buf i :
  pwrite f at_ buf !! i =
    if decide (i < Z.to_nat at_)%nat then
      if decide (i < length f)%nat then f !! i else Some x00
    else if decide (i < Z.to_nat at_ + length buf)%nat then buf !! (i - Z.to_nat at_)%nat
    else f !! i.
Proof.
  unfold pwrite. set (n := Z.to_nat at_).
  assert (length (take n f ++ replicate (n - length f) x00) = n) as Hn by len.
  rewrite (assoc_L (++)). repeat case_decide.
  - rewrite !lookup_app_l by len. by rewrite lookup_take_lt.
  - rewrite lookup_app_l by lia. rewrite lookup_app_r, lookup_replicate_2 by len. done.
  - rewrite lookup_app_r by lia. rewrite Hn, lookup_app_l by lia. done.
  - rewrite lookup_app_r by lia. rewrite Hn, lookup_app_r by lia.
    rewrite lookup_drop. f_equal. lia.
Qed.

Lemma placed_lookup at_ buf s k :
  placed at_ buf s → (k < length buf)%nat → s !! (Z.to_nat at_ + k)%nat = buf !! k.
Proof.
  intros [_ [q Hq]] Hk. rewrite <-lookup_drop, Hq, lookup_app_l; done.
Qed.

Lemma placed_bound at_ buf s : placed at_ buf s → at_ + zlen buf ≤ zlen s.
Proof.
  unfold zlen. intros [H0 [q Hq]]. apply (f_equal length) in Hq. unfold zlen in *. len.
Qed.

Lemma pwrite_length at_ buf f s :
  placed at_ buf s → zlen f ≤ zlen s → zlen (pwrite f at_ buf) ≤ zlen s.
Proof.
  intros Hp Hf. pose proof (placed_bound _ _ _ Hp). destruct Hp as [? _].
  unfold pwrite, zlen in *. len.
Qed.

Lemma placed_take at_ buf s n : placed at_ buf s → placed at_ (take n buf) s.
Proof. intros [H0 H]. split; [done|]. trans buf; [apply prefix_take|done]. Qed.

Lemma placed_app at_ buf s x : placed at_ buf s → placed at_ buf (s ++ x).
Proof.
  unfold placed, zlen. intros [H0 [q Hq]]. split; [len|].
  rewrite drop_app_le by lia. rewrite Hq. exists (q ++ x). by rewrite (assoc_L (++)).
Qed.

Lemma placed_end s x : placed (zlen s) x (s ++ x).
Proof. split; [unfold zlen; len|]. unfold zlen. rewrite Nat2Z.id, drop_app_length. done. Qed.

Lemma agree_app a b f s x : b ≤ zlen s → agree a b f s → agree a b f (s ++ x).
Proof.
  unfold zlen. intros Hb Ha i Hi. rewrite (Ha i Hi). rewrite lookup_app_l; [done|lia].
Qed.

(** A write of stream bytes never undoes agreement with the stream. *)
Lemma pwrite_agree at_ buf f s a b :
  placed at_ buf s → b ≤ zlen s → agree a b f s → agree a b (pwrite f at_ buf) s.
Proof.
  unfold zlen. intros Hp Hb Ha i Hi. rewrite pwrite_lookup.
  assert (is_Some (s !! i)) as [c Hc] by (apply lookup_lt_is_Some; lia).
  repeat case_decide; [by apply Ha| |symmetry|by apply Ha].
  - rewrite <-(Ha i Hi) in Hc. apply lookup_lt_Some in Hc. lia.
  - rewrite <-(placed_lookup at_ buf s) by (done || lia). f_equal. lia.
Qed.

Lemma pwrite_agree_new at_ buf f s :
  placed at_ buf s → agree at_ (at_ + zlen buf) (pwrite f at_ buf) s.
Proof.
  unfold zlen. intros Hp i Hi. rewrite pwrite_lookup. pose proof (proj1 Hp).
  rewrite decide_False, decide_True by lia.
  rewrite <-(placed_lookup at_ buf s) by (done || lia). f_equal. lia.
Qed.

Lemma agree_join a b c f s : agree a b f s → agree b c f s → agree a c f s.
Proof. intros H1 H2 i Hi. destruct (decide (Z.of_nat i < b)); [apply H1|apply H2]; lia. Qed.

Lemma agree_prefix b f s : b ≤ zlen s → agree 0 b f s → take (Z.to_nat b) f = take (Z.to_nat b) s.
Proof.
  unfold zlen. intros Hb Ha. apply list_eq. intros i. destruct (decide (i < Z.to_nat b)%nat).
  - rewrite !lookup_take_lt by done. apply Ha. lia.
  - rewrite !lookup_take_ge by lia. done.
Qed.

Lemma agree_length b f s : b ≤ zlen s → agree 0 b f s → b ≤ zlen f.
Proof.
  unfold zlen. intros Hb Ha. apply Z.nlt_ge. intros Hlt.
  assert (is_Some (s !! length f)) as [c Hc] by (apply lookup_lt_is_Some; lia).
  rewrite <-Ha in Hc by lia. apply lookup_lt_Some in Hc. lia.
Qed.

(** * Spans *)

(** Consecutive non-empty spans from [p] to [r]. *)
Inductive tiles : Z → list (Z * Z) → Z → Prop :=
| tiles_nil p : tiles p [] p
| tiles_cons p q spans r : p < q → tiles q spans r → tiles p ((p, q) :: spans) r.

Lemma tiles_le p spans r : tiles p spans r → p ≤ r.
Proof. induction 1; lia. Qed.

Lemma tiles_bounds p spans r a b : tiles p spans r → (a, b) ∈ spans → p ≤ a < b ∧ b ≤ r.
Proof.
  induction 1 as [|p q spans r Hpq Ht IH]; [by intros ?%not_elem_of_nil|].
  intros [[= -> ->]|Hin]%elem_of_cons; [apply tiles_le in Ht; lia|]. apply IH in Hin. lia.
Qed.

Lemma tiles_head p spans r e :
  tiles p spans r → (p, e) ∈ spans → ∃ spans', spans = (p, e) :: spans' ∧ tiles e spans' r.
Proof.
  inversion 1 as [|? q spans' ? Hpq Ht]; subst; [by intros ?%not_elem_of_nil|].
  intros [[= ->]|Hin]%elem_of_cons; [by exists spans'|].
  eapply tiles_bounds in Hin; [|done]. lia.
Qed.

Lemma tiles_snoc p spans r r' : tiles p spans r → r < r' → tiles p (spans ++ [(r, r')]) r'.
Proof.
  induction 1 as [p|p q spans r Hpq Ht IH]; intros Hr; cbn; [by repeat constructor|].
  constructor; [done|by apply IH].
Qed.

Lemma tiles_last p spans r a :
  tiles p spans r → (a, r) ∈ spans → ∃ spans', spans = spans' ++ [(a, r)] ∧ tiles p spans' a.
Proof.
  induction 1 as [|p q spans r Hpq Ht IH]; [by intros ?%not_elem_of_nil|].
  intros [[= -> ->]|Hin]%elem_of_cons.
  - inversion Ht; subst; [|apply tiles_le in Ht; match goal with H : tiles _ _ _ |- _ => apply tiles_le in H end; lia].
    exists []. split; [done|constructor].
  - destruct (IH Hin) as (sp & -> & Hsp). exists ((p, q) :: sp). split; [done|by constructor].
Qed.

Lemma tiles_starts p spans r : tiles p spans r → NoDup spans.*1.
Proof.
  induction 1 as [|p q spans r Hpq Ht IH]; [constructor|]. cbn. constructor; [|done].
  intros ([a b] & [= ->] & Hin)%list_elem_of_fmap. eapply tiles_bounds in Hin; [|done]. lia.
Qed.

(** * The writer's invariant *)

(** The same sink with other outcomes to come. *)
Definition rescript (sc : list Outcome) (s : Sink) : Sink := mkSink (sk_file s) (sk_dirty s) sc.

(** The staged bytes own one span. *)
Definition staged_span (w : WalWriter) : list (Z * Z) :=
  match staged w with
  | Some st => if decide (sb_buf st = []) then [] else [(sb_start st, sb_start st + zlen (sb_buf st))]
  | None => []
  end.

Section durable.
(** An offset below which everything was synced. *)
Context (D : Z).

Record writer_core (s : list byte) (others : list (Z * Z)) (w : WalWriter) : Prop := {
  core_width : zlen s ≤ U64_MAX;
  core_frontier : reserved_to w = zlen s;
  core_position : 0 ≤ position w;
  core_length : zlen (file w) ≤ zlen s;
  core_tiles : ∃ spans, tiles (position w) spans (reserved_to w) ∧
    spans ≡ₚ staged_span w ++ completed_pwrite_intervals w ++ others;
  core_sorted : om_sorted (completed_pwrite_intervals w);
  core_drained : agree 0 (position w) (file w) s;
  core_completed t e : (t, e) ∈ completed_pwrite_intervals w → agree t e (file w) s;
  core_staged st : staged w = Some st → sb_buf st ≠ [] →
    placed (sb_start st) (sb_buf st) s ∧ sb_start st + zlen (sb_buf st) = reserved_to w ∧ D ≤ sb_start st;
  core_synced : D ≤ zlen s ∧ agree 0 D (file w) s;
  core_dirty : Forall (λ d, D ≤ d.1) (sk_dirty (w_sink w))
}.

(** [others] are the spans of the tickets held outside the writer: in flight,
    written but not yet committed, or failed. *)
Record writer_ok (s : list byte) (others : list (Z * Z)) (w : WalWriter) : Prop := {
  ok_core : writer_core s others w;
  ok_absorbed : om_get (position w) (completed_pwrite_intervals w) = None
}.

Lemma writer_ok_perm s others others' w :
  others ≡ₚ others' → writer_ok s others w → writer_ok s others' w.
Proof.
  intros Hp [[C1 C2 C3 C9 (sp & Ht & Hsp) C5 C6 C7 C8 C10 C11] Ha]. split; [|done].
  split; try done. exists sp. by rewrite <-Hp.
Qed.

(** The invariant does not look at the framing state. *)
Lemma writer_ok_framing s others w o f sc :
  writer_ok s others w →
  writer_ok s others (set_sink (rescript sc (w_sink w)) (set_frame f (set_block_offset o w))).
Proof. intros [[C1 C2 C3 C9 C4 C5 C6 C7 C8 C10 C11] Ha]. by split. Qed.

(** * Map lemmas *)

Lemma om_remove_perm {V} k (v : V) (m : list (Z * V)) :
  om_get k m = Some v → m ≡ₚ (k, v) :: om_remove k m.
Proof.
  induction m as [|[k0 v0] m IH]; cbn [om_get om_remove]; [done|].
  destruct (kcmp k k0) eqn:E; [|done|].
  - apply kcmp_eq in E as ->. by intros [= ->].
  - intros Hg. rewrite (IH Hg) at 1. apply Permutation_swap.
Qed.

Lemma om_remove_sorted {V} k (m : list (Z * V)) : om_sorted m → om_sorted (om_remove k m).
Proof.
  induction m as [|[k0 v0] m IH]; intros Hs; [done|]. cbn [om_remove].
  destruct (kcmp k k0) eqn:E; [|done|]; apply om_sorted_cons in Hs as [Hs Hk]; [done|].
  apply om_sorted_cons. split; [by apply IH|]. intros k' v' Hin.
  apply om_remove_elem in Hin as [_ Hin]; [|done]. by eapply Hk.
Qed.

(** * Committing *)

Lemma core_bounds s others w t e :
  writer_core s others w → (t, e) ∈ completed_pwrite_intervals w ++ others →
  position w ≤ t < e ∧ e ≤ zlen s.
Proof.
  intros Hw Hin. destruct (core_tiles _ _ _ Hw) as (spans & Ht & Hp).
  rewrite <-(core_frontier _ _ _ Hw). eapply tiles_bounds; [done|]. rewrite Hp. set_solver.
Qed.

(** The watermark passes a span whose bytes are in the file. *)
Lemma advance_core s others w e m :
  writer_core s others w → (position w, e) :: m ++ others ≡ₚ completed_pwrite_intervals w ++ others →
  om_sorted m → agree (position w) e (file w) s →
  (∀ t e', (t, e') ∈ m → (t, e') ∈ completed_pwrite_intervals w) →
  writer_core s others (set_position e (set_intervals m w)).
Proof.
  intros Hw Hm Hs Ha Hsub. pose proof Hw as [Hwd Hf Hp Hle (spans & Ht & Hperm) _ Hd Hc Hst Hsy Hdi].
  destruct (tiles_head _ _ _ e Ht) as (spans' & -> & Ht').
  { rewrite Hperm. apply elem_of_app. right. rewrite <-Hm. set_solver. }
  assert (position w < e) by (inversion Ht; lia).
  split; cbn; try done; [lia| |by eapply agree_join|by intros; apply Hc, Hsub].
  exists spans'. split; [done|]. apply (Permutation_cons_inv (a := (position w, e))).
  rewrite Hperm. unfold staged_span at 2. cbn. fold (staged_span w).
  rewrite Permutation_middle. by rewrite <-Hm.
Qed.

Lemma absorb_core n s others w :
  writer_core s others w → writer_core s others (absorb_completed n w).
Proof.
  revert w. induction n as [|n IH]; intros w Hw; cbn [absorb_completed]; [done|].
  destruct (om_get _ _) as [e|] eqn:E; [|done]. apply IH.
  pose proof (om_remove_perm _ _ _ E) as Hperm.
  apply advance_core; [done| | | |].
  - by rewrite Hperm at 2.
  - apply om_remove_sorted, Hw.
  - apply (core_completed _ _ _ Hw). by apply om_get_elem; [apply Hw|].
  - intros t e' Hin. apply om_remove_elem in Hin as [_ Hin]; [done|apply Hw].
Qed.

Lemma absorb_exhausted n w :
  (length (completed_pwrite_intervals w) < n)%nat →
  om_get (position (absorb_completed n w)) (completed_pwrite_intervals (absorb_completed n w)) = None.
Proof.
  revert w. induction n as [|n IH]; intros w Hn; [lia|]. cbn [absorb_completed].
  destruct (om_get (position w) (completed_pwrite_intervals w)) as [e|] eqn:E; [|done].
  apply IH. cbn. apply om_remove_perm, Permutation_length in E. cbn in E. lia.
Qed.

(** A ticket whose bytes are in the file is committed: it leaves the spans
    owed, whether or not it is the next one. *)
Lemma commit_ok s others w t e :
  writer_core s ((t, e) :: others) w → agree t e (file w) s →
  writer_ok s others (commit_pwrite t (e - t) w).
Proof.
  intros Hw Ha. destruct (core_bounds _ _ _ t e Hw) as [[H1 H2] H3]; [set_solver|].
  pose proof (core_width _ _ _ Hw). unfold commit_pwrite.
  rewrite (proj2 (Z.eqb_neq _ _)) by lia. unfold sat_add. rewrite Z.min_l by lia.
  replace (t + (e - t)) with e by lia.
  match goal with |- context [absorb_completed _ ?x] => set (w' := x) end.
  enough (writer_core s others w') as Hw'.
  { split; [by apply absorb_core|apply absorb_exhausted; lia]. }
  pose proof Hw as [Hwd Hf Hp Hle (spans & Ht & Hperm) Hs Hd Hc Hst Hsy Hdi]. unfold w'.
  destruct (Z.leb_spec t (position w)) as [Hle2|Hgt].
  - assert (t = position w) as -> by lia. rewrite (proj2 (Z.ltb_lt _ _)) by lia.
    destruct (tiles_head _ _ _ e Ht) as (spans' & -> & Ht'); [rewrite Hperm; set_solver|].
    split; cbn; try done; [lia| |by eapply agree_join].
    exists spans'. split; [done|]. apply (Permutation_cons_inv (a := (position w, e))).
    rewrite Hperm. unfold staged_span at 2. cbn. fold (staged_span w).
    by rewrite <-!Permutation_middle.
  - assert (om_get t (completed_pwrite_intervals w) = None) as Hnone.
    { apply om_get_None; [done|]. intros e' Hin.
      apply tiles_starts in Ht. rewrite Hperm, !fmap_app in Ht.
      apply NoDup_app in Ht as (_ & _ & Ht). apply NoDup_app in Ht as (_ & Ht & _).
      apply (Ht t); [|cbn; set_solver]. apply list_elem_of_fmap. by exists (t, e'). }
    split; cbn; try done.
    + exists spans. split; [done|]. rewrite Hperm. unfold staged_span at 2. cbn. fold (staged_span w).
      rewrite om_insert_fresh_perm by done. cbn. by rewrite <-!Permutation_middle.
    + by apply om_insert_sorted.
    + intros t' e' [[-> ->]|[_ Hin]]%om_insert_elem; [done|by apply Hc|done].
Qed.

(** * Writing *)

(** What every sink access keeps: agreement with the stream, and the framing
    state of the writer. *)
Record io_step (s : list byte) (w w' : WalWriter) : Prop := {
  io_agree a b : b ≤ zlen s → agree a b (file w) s → agree a b (file w') s;
  io_block : block_offset w' = block_offset w;
  io_frame : frame w' = frame w;
  io_shared : w_shared w' = w_shared w
}.

#[export] Instance io_step_preorder s : PreOrder (io_step s).
Proof.
  split; [by intros w; split|]. intros w1 w2 w3 [A1 B1 C1 D1] [A2 B2 C2 D2].
  split; [by eauto| | |]; congruence.
Qed.

Lemma absorb_io n s w : io_step s w (absorb_completed n w).
Proof.
  revert w. induction n as [|n IH]; intros w; cbn [absorb_completed]; [done|].
  destruct (om_get _ _) as [e|]; [|done]. etrans; [|apply IH]. by split.
Qed.

Lemma commit_io s t len w : io_step s w (commit_pwrite t len w).
Proof.
  unfold commit_pwrite. destruct (len =? 0); [done|]. etrans; [|apply absorb_io].
  repeat case_match; by split.
Qed.

Lemma absorb_staged n w : staged (absorb_completed n w) = staged w.
Proof.
  revert w. induction n as [|n IH]; intros w; cbn [absorb_completed]; [done|].
  destruct (om_get _ _) as [e|]; [|done]. by rewrite IH.
Qed.

Lemma commit_staged t len w : staged (commit_pwrite t len w) = staged w.
Proof.
  unfold commit_pwrite. destruct (len =? 0); [done|]. rewrite absorb_staged. by repeat case_match.
Qed.

(** A write of stream bytes, complete or cut short. *)
Lemma sink_write_ok s others w at_ buf :
  writer_core s others w → placed at_ buf s → D ≤ at_ →
  ∃ r sk, sink_write buf at_ (w_sink w) = (r, sk) ∧
    writer_core s others (set_sink sk w) ∧ io_step s w (set_sink sk w) ∧
    match r with Ok _ => agree at_ (at_ + zlen buf) (sk_file sk) s | Err e => e = Io end.
Proof.
  intros Hw Hp Hat. unfold sink_write, next_io.
  assert (∀ buf' sc, placed at_ buf' s →
    let w' := set_sink (mkSink (pwrite (file w) at_ buf')
                          (write_span (file w) at_ buf' :: sk_dirty (w_sink w)) sc) w in
    writer_core s others w' ∧ io_step s w w') as Hany.
  { intros buf' sc Hp'. pose proof Hw as [Hwd Hf Hp0 Hle0 Ht Hs Hd Hc Hst Hsy Hdi].
    assert (∀ a b, b ≤ zlen s → agree a b (file w) s → agree a b (pwrite (file w) at_ buf') s)
      as Hag by (intros; by apply pwrite_agree).
    split; [|by split]. split; cbn; try done.
    - by apply pwrite_length.
    - apply Hag; [|done]. destruct Ht as (spans & Ht & _). apply tiles_le in Ht. lia.
    - intros t e Hin. apply Hag; [|by apply Hc].
      eapply (core_bounds s others w t e); [done|set_solver].
    - destruct Hsy. split; [done|by apply Hag].
    - constructor; [|done]. cbn. destruct Hsy as [HD Hsy]. apply agree_length in Hsy; [|done].
      unfold file in *. lia. }
  destruct (sk_script (w_sink w)) as [|[|n] os]; cbn [sk_file sk_script];
    eexists _, _; (split; [reflexivity|]).
  - destruct (Hany buf (sk_script (w_sink w)) Hp) as [??]. split_and!; [done|done|by apply pwrite_agree_new].
  - destruct (Hany buf os Hp) as [??]. split_and!; [done|done|by apply pwrite_agree_new].
  - destruct (Hany (take n buf) os (placed_take _ _ _ _ Hp)) as [??]. by split_and!.
Qed.

Lemma staged_span_unstage w st :
  staged_span (set_staged (Some (mkStaged [] (sb_start st) (sb_max st))) w) = [].
Proof. done. Qed.

Lemma staged_span_nil w st : staged w = Some st → sb_buf st = [] → staged_span w = [].
Proof. unfold staged_span. intros -> ->. done. Qed.

(** Draining: on success nothing is staged, on failure everything still is. *)
Lemma drain_staged_ok s others w :
  writer_ok s others w →
  ∃ r w', drain_staged w = Some (r, w') ∧ writer_ok s others w' ∧ io_step s w w' ∧
    match r with Ok _ => staged_span w' = [] | Err e => e = Io ∧ staged w' = staged w end.
Proof.
  intros [Hw Habs]. unfold drain_staged. destruct (staged w) as [st|] eqn:Est.
  2: { exists (Ok tt), w. split_and!; [done|done|done|]. unfold staged_span. by rewrite Est. }
  destruct (Nat.eqb_spec (length (sb_buf st)) 0) as [El|El].
  { exists (Ok tt), w. split_and!; [done|done|done|]. apply nil_length_inv in El.
    by eapply staged_span_nil. }
  assert (sb_buf st ≠ []) as Hne by (intros E; by rewrite E in El).
  destruct (core_staged _ _ _ Hw st Est Hne) as (Hpl & Hend & Hat).
  set (w1 := set_staged _ w). set (t := sb_start st) in *. set (e := t + zlen (sb_buf st)) in *.
  assert (staged_span w = [(t, e)]) as Hspan.
  { unfold staged_span. rewrite Est. by rewrite decide_False. }
  assert (writer_core s ((t, e) :: others) w1) as Hw1.
  { pose proof Hw as [Hwd Hf Hp0 Hle0 (spans & Ht & Hperm) Hs Hd Hc Hst Hsy Hdi]. split; cbn; try done.
    - exists spans. split; [done|]. rewrite Hperm, Hspan. cbn.
      by rewrite <-Permutation_middle.
    - intros st' [= <-]. done. }
  unfold emit_bytes, op_sink.
  destruct (sink_write_ok s _ w1 t (sb_buf st) Hw1 Hpl Hat) as (r & sk & -> & Hc2 & Hio & Hr).
  assert (io_step s w w1) as Hio0 by (by split).
  destruct r as [[]|err]; eexists _, _; (split; [reflexivity|]).
  - replace (zlen (sb_buf st)) with (e - t) by (unfold e; lia).
    split; [by apply commit_ok|]. split; [|unfold staged_span; by rewrite commit_staged].
    etrans; [done|]. etrans; [done|]. apply commit_io.
  - subst err. split; [|split; [etrans; [done|]; etrans; [done|]; by split|done]].
    split; [|done]. pose proof Hc2 as [Hwd Hf Hp0 Hle0 (spans & Ht & Hperm) Hs Hd Hc Hst Hsy Hdi].
    split; cbn in *; try done.
    + exists spans. split; [done|]. rewrite Hperm. unfold staged_span. cbn.
      rewrite (decide_False (P := sb_buf st = [])), decide_True by done. fold t e. cbn.
      by rewrite Permutation_middle.
    + by intros st' [= <-].
Qed.

(** A reservation: the new span is owed by whoever holds the ticket. *)
Lemma reserve_ok s others w buf :
  writer_ok s others w → staged_span w = [] → buf ≠ [] → zlen (s ++ buf) ≤ U64_MAX →
  ∃ w', reserve_pending (zlen buf) w = (zlen s, w') ∧
    writer_ok (s ++ buf) ((zlen s, zlen (s ++ buf)) :: others) w' ∧
    w' = set_reserved_to (zlen (s ++ buf)) w.
Proof.
  intros [Hw Habs] Hst0 Hne Hwid. pose proof Hw as [Hwd Hf Hp0 Hle0 (spans & Ht & Hperm) Hs Hd Hc Hst Hsy Hdi].
  assert (0 < zlen buf ∧ zlen (s ++ buf) = zlen s + zlen buf) as [Hb Happ].
  { unfold zlen. rewrite length_app. destruct buf; [done|]. cbn. lia. }
  unfold reserve_pending, reserve_frame. rewrite (proj2 (Z.eqb_neq _ _)) by lia.
  rewrite Hf. unfold sat_add. rewrite Z.min_l by lia. rewrite <-Happ.
  eexists. split; [reflexivity|]. split; [|done]. split; [|done]. split; cbn; try done.
  - change (file (set_reserved_to _ w)) with (file w). lia.
  - exists (spans ++ [(zlen s, zlen (s ++ buf))]). split.
    + rewrite <-Hf. apply tiles_snoc; [done|lia].
    + rewrite Hperm. unfold staged_span at 2. cbn. fold (staged_span w). rewrite Hst0. cbn.
      rewrite <-(assoc_L (++)). by rewrite (Permutation_app_comm others).
  - apply agree_app; [|done]. apply tiles_le in Ht. lia.
  - intros t e Hin. apply agree_app; [|by apply Hc].
    eapply (core_bounds s others w t e); [done|set_solver].
  - intros st E1 E2. unfold staged_span in Hst0. rewrite E1, decide_False in Hst0 by done. done.
  - destruct Hsy as [HD Hsy]. split; [lia|by apply agree_app].
Qed.

Lemma agree_app_inv a b f s x : b ≤ zlen s → agree a b f (s ++ x) → agree a b f s.
Proof.
  unfold zlen. intros Hb Ha i Hi. rewrite (Ha i Hi). rewrite lookup_app_l; [done|lia].
Qed.

Lemma io_step_shrink s x w w' : io_step (s ++ x) w w' → io_step s w w'.
Proof.
  intros [Ha Hb Hf Hs]. split; [|done..]. intros a b Hle H. apply (agree_app_inv _ _ _ _ x Hle).
  apply Ha; [unfold zlen in *; len|]. by apply agree_app.
Qed.

(** What an attempt to append [buf] may leave behind. *)
Inductive appended (s : list byte) (others : list (Z * Z)) (buf : list byte)
    : Result CoreError unit → WalWriter → Prop :=
| appended_ok w : writer_ok (s ++ buf) others w → appended s others buf (Ok tt) w
(** an earlier drain failed, nothing was reserved *)
| appended_refused w : writer_ok s others w → appended s others buf (Err Io) w
(** the bytes are staged, the drain that followed failed *)
| appended_staged w : writer_ok (s ++ buf) others w → appended s others buf (Err Io) w
(** the span is reserved and will never be committed *)
| appended_torn w :
    writer_ok (s ++ buf) ((zlen s, zlen (s ++ buf)) :: others) w → appended s others buf (Err Io) w.

Lemma batch_is_empty_false (buf : list byte) : buf ≠ [] → batch_is_empty (length buf) = false.
Proof. by destruct buf. Qed.

Lemma write_owned_ok s others w buf :
  writer_ok s others w → staged_span w = [] → zlen (s ++ buf) ≤ U64_MAX →
  ∃ r w', write_owned buf w = Some (r, w') ∧ appended s others buf r w' ∧ io_step s w w'.
Proof.
  intros Hw Hst Hwid. unfold write_owned. destruct (decide (buf = [])) as [->|Hne].
  { eexists _, _. split; [reflexivity|]. split; [|done]. constructor. by rewrite app_nil_r. }
  rewrite batch_is_empty_false by done.
  destruct (reserve_ok s others w buf Hw Hst Hne Hwid) as (w1 & -> & [Hw1 _] & Ew1).
  unfold op_bind, emit_bytes, op_sink.
  assert (D ≤ zlen s) as Hat by apply Hw.
  destruct (sink_write_ok _ _ w1 (zlen s) buf Hw1 (placed_end s buf) Hat) as (r & sk & -> & Hc2 & Hio & Hr).
  assert (io_step s w (set_sink sk w1)) as Hio1.
  { etrans; [|by eapply io_step_shrink]. subst w1. by split. }
  assert (zlen (s ++ buf) - zlen s = zlen buf ∧ zlen s + zlen buf = zlen (s ++ buf)) as [E1 E2]
    by (unfold zlen; len).
  destruct r as [[]|err].
  - eexists _, _. split; [reflexivity|]. split; [|etrans; [done|apply commit_io]].
    constructor. rewrite <-E1. apply commit_ok; [done|]. cbn. by rewrite E2 in Hr.
  - eexists _, _. split; [reflexivity|]. split; [|done]. subst err. apply appended_torn.
    split; [done|]. subst w1. cbn. apply Hw.
Qed.

(** Direct writes drain first. *)
Lemma write_direct_ok s others w buf :
  writer_ok s others w → zlen (s ++ buf) ≤ U64_MAX →
  ∃ r w', op_bind drain_staged (λ _, write_owned buf) w = Some (r, w') ∧
    appended s others buf r w' ∧ io_step s w w'.
Proof.
  intros Hw Hwid. unfold op_bind.
  destruct (drain_staged_ok s others w Hw) as (r & w1 & -> & Hw1 & Hio & Hr).
  destruct r as [[]|err].
  - destruct (write_owned_ok s others w1 buf Hw1 Hr Hwid) as (r & w2 & -> & Ha & Hio2).
    eexists _, _. split; [reflexivity|]. split; [done|]. by etrans.
  - destruct Hr as [-> _]. eexists _, _. split; [reflexivity|]. split; [by constructor|done].
Qed.

(** Staged writes extend the staged span, which is the last one. *)
Lemma stage_ok s others w st buf :
  writer_ok s others w → staged w = Some st → buf ≠ [] → zlen (s ++ buf) ≤ U64_MAX →
  let start := if (length (sb_buf st) =? 0)%nat then zlen s else sb_start st in
  writer_ok (s ++ buf) others
    (set_staged (Some (mkStaged (sb_buf st ++ buf) start (sb_max st)))
       (set_reserved_to (zlen (s ++ buf)) w)).
Proof.
  intros [Hw Habs] Est Hne Hwid. pose proof Hw as [Hwd Hf Hp0 Hle0 (spans & Ht & Hperm) Hs Hd Hc Hst Hsy Hdi].
  assert (zlen (s ++ buf) = zlen s + zlen buf ∧ 0 < zlen buf) as [Happ Hb].
  { unfold zlen. rewrite length_app. destruct buf; [done|]. cbn. lia. }
  assert (∃ spans0 start, tiles (position w) (spans0 ++ [(start, zlen (s ++ buf))]) (zlen (s ++ buf)) ∧
    spans0 ≡ₚ completed_pwrite_intervals w ++ others ∧ placed start (sb_buf st ++ buf) (s ++ buf) ∧
    start + zlen (sb_buf st ++ buf) = zlen (s ++ buf) ∧
    start = if (length (sb_buf st) =? 0)%nat then zlen s else sb_start st)
    as (spans0 & start & Ht0 & Hp & Hpl & Hend & Hstart).
  { unfold staged_span in Hperm. rewrite Est in Hperm.
    destruct (decide (sb_buf st = [])) as [E|E].
    - exists spans, (zlen s). rewrite E. cbn. split_and!;
        [rewrite <-Hf; apply tiles_snoc; [done|lia]|done|apply placed_end|lia|done].
    - destruct (Hst st Est E) as (Hpl & Hend & _). rewrite Hend in Hperm.
      destruct (tiles_last _ _ _ (sb_start st) Ht) as (sp & -> & Ht'); [rewrite Hperm; set_solver|].
      exists sp, (sb_start st). assert (zlen (sb_buf st ++ buf) = zlen (sb_buf st) + zlen buf)
        by (unfold zlen; len).
      assert (0 < zlen (sb_buf st)) by (unfold zlen; destruct (sb_buf st); [done|cbn; lia]).
      split_and!; [apply tiles_snoc; [done|lia]| | |lia|].
      + rewrite (Permutation_app_comm sp) in Hperm. cbn in Hperm. by apply Permutation_cons_inv in Hperm.
      + pose proof (proj1 Hpl). split; [lia|]. rewrite drop_app_le by (unfold zlen in *; lia).
        destruct Hpl as [Hnn [q Hq]]. assert (q = []) as ->.
        { apply nil_length_inv. apply (f_equal length) in Hq. unfold zlen in *. len. }
        rewrite app_nil_r in Hq. by rewrite Hq.
      + rewrite (proj2 (Nat.eqb_neq _ _)); [done|]. by destruct (sb_buf st). }
  cbv zeta. rewrite <-Hstart. split; [|done]. split; cbn; try done.
  - change (file _) with (file w). lia.
  - exists (spans0 ++ [(start, zlen (s ++ buf))]). split; [done|]. unfold staged_span. cbn.
    rewrite decide_False by (intros [_ ?]%app_nil; done). rewrite Hend.
    rewrite (Permutation_app_comm spans0). cbn. by rewrite Hp.
  - apply agree_app; [|done]. apply tiles_le in Ht. lia.
  - intros t e Hin. apply agree_app; [|by apply Hc].
    eapply (core_bounds s others w t e); [done|set_solver].
  - intros st' [= <-] _. split; [done|]. split; [done|]. cbn. rewrite Hstart.
    destruct (Nat.eqb_spec (length (sb_buf st)) 0) as [|Hl]; [by apply Hsy|].
    apply (Hst st Est). intros E. by rewrite E in Hl.
  - destruct Hsy as [HD Hsy]. split; [lia|by apply agree_app].
Qed.

Lemma write_frame_ok s others w buf :
  writer_ok s others w → zlen (s ++ buf) ≤ U64_MAX →
  ∃ r w', write_frame buf w = Some (r, w') ∧ appended s others buf r w' ∧ io_step s w w'.
Proof.
  intros Hw Hwid. unfold write_frame. destruct (decide (buf = [])) as [->|Hne].
  { eexists _, _. split; [reflexivity|]. split; [|done]. constructor. by rewrite app_nil_r. }
  rewrite batch_is_empty_false by done. destruct (staged w) as [st|] eqn:Est.
  2: { apply write_owned_ok; [done| |done]. unfold staged_span. by rewrite Est. }
  pose proof (stage_ok s others w st buf Hw Est Hne Hwid) as Hw1. cbv zeta in Hw1.
  assert (reserve_pending (zlen buf) w = (zlen s, set_reserved_to (zlen (s ++ buf)) w)) as ->.
  { unfold reserve_pending, reserve_frame.
    assert (zlen (s ++ buf) = zlen s + zlen buf ∧ 0 < zlen buf) as [Happ Hb].
    { unfold zlen. rewrite length_app. destruct buf; [done|]. cbn. lia. }
    rewrite (proj2 (Z.eqb_neq _ _)) by lia. rewrite (core_frontier _ _ _ (ok_core _ _ _ Hw)).
    unfold sat_add. rewrite Z.min_l by lia. by rewrite Happ. }
  cbn [staged set_reserved_to]. rewrite Est.
  match goal with |- context [drain_staged ?x] => set (w1 := x) in * end.
  assert (io_step s w w1) as Hio1 by (by split).
  destruct (should_flush _ _).
  - destruct (drain_staged_ok _ _ _ Hw1) as (r & w2 & -> & Hw2 & Hio & Hr).
    eexists _, _. split; [reflexivity|]. split; [|etrans; [done|by eapply io_step_shrink]].
    destruct r as [[]|err]; [by constructor|]. destruct Hr as [-> _]. by apply appended_staged.
  - eexists _, _. split; [reflexivity|]. split; [by constructor|done].
Qed.

End durable.

(** Preallocation only consumes outcomes. *)
Lemma next_io_file s : sk_file (next_io s).2 = sk_file s.
Proof. unfold next_io. by destruct (sk_script s). Qed.

Lemma prealloc_loop_sink n need l :
  ∃ sc p, prealloc_loop n need l =
    mkWal (set_sink (rescript sc (w_sink (writer l))) (writer l)) p (pwrite_want l) (inflight l).
Proof.
  revert l. induction n as [|n IH]; intros [[[f di sc] sh bo po fr st re iv] pt pw inf]; cbn [prealloc_loop].
  { by exists sc, pt. }
  destruct (Z.ltb _ _); [|by exists sc, pt]. unfold sink_call, next_io.
  destruct sc as [|[|k] sc]; cbn; [| |by eexists _, _]; match goal with
  |- context [prealloc_loop n need ?x] => destruct (IH x) as (sc' & p' & ->) end; by eexists _, _.
Qed.

Lemma reserve_space_sink n l :
  ∃ sc p, reserve_space n l =
    mkWal (set_sink (rescript sc (w_sink (writer l))) (writer l)) p (pwrite_want l) (inflight l).
Proof. unfold reserve_space. match goal with |- context [prealloc_loop ?k ?d ?x] => apply (prealloc_loop_sink k d x) end. Qed.

(** The loop's fuel is enough: without a refusal the reservation covers [need]. *)
Lemma prealloc_loop_reaches n need l :
  sk_script (w_sink (writer l)) = [] → need ≤ U64_MAX →
  need ≤ prealloc_to l ∨ (need - prealloc_to l) / WAL_PREALLOC_CHUNK < Z.of_nat n →
  need ≤ prealloc_to (prealloc_loop n need l).
Proof.
  unfold WAL_PREALLOC_CHUNK. revert l. induction n as [|n IH]; intros l Hsc Hn Hf; cbn [prealloc_loop].
  { destruct Hf as [|Hf]; [done|]. assert (need - prealloc_to l < 0); [|lia]. apply Z.nle_gt. intros Hle.
    assert (0 ≤ (need - prealloc_to l) / (64 * 1024 * 1024)) by (apply Z.div_pos; lia). lia. }
  destruct (Z.ltb_spec (prealloc_to l) need) as [Hlt|]; [|done]. destruct Hf as [|Hf]; [lia|].
  unfold sink_call, next_io. rewrite Hsc. apply IH; [done|done|]. cbn. unfold sat_add, WAL_PREALLOC_CHUNK.
  destruct (Z.min_spec (prealloc_to l + 64 * 1024 * 1024) U64_MAX) as [[_ ->]|[_ ->]]; [right|by left].
  replace (need - (prealloc_to l + 64 * 1024 * 1024)) with
    ((need - prealloc_to l) + (-1) * (64 * 1024 * 1024)) by lia. rewrite Z.div_add by lia. lia.
Qed.

(** * Framing *)

Lemma append_records_app `{Crc32c} off recs more buf :
  append_records off (recs ++ more) buf =
    '(o, b) ← append_records off recs buf; append_records o more b.
Proof.
  revert off buf. induction recs as [|d recs IH]; intros off buf; [done|]. cbn [app append_records].
  destruct (fragment_into off d buf) as [[o b]|]; [|done]. cbn [mbind option_bind]. apply IH.
Qed.

(** The layout of records does not depend on what is in the buffer already. *)
Lemma append_records_prefix `{Crc32c} off recs buf :
  (off ≤ BLOCK_SIZE)%nat →
  ∃ o x, append_records off recs [] = Some (o, x) ∧ append_records off recs buf = Some (o, buf ++ x) ∧
    (o ≤ BLOCK_SIZE)%nat.
Proof.
  intros Ho. destruct (append_records_layout off recs [] Ho) as (fs & o & E & Hl & Ho').
  destruct (append_records_layout off recs buf Ho) as (fs' & o' & E' & Hl' & _).
  destruct (layout_functional _ _ _ _ _ _ Hl Hl') as [-> ->]. by exists o', (frames_bytes fs').
Qed.

(** The records [recs] lay out as the stream reserved so far, then the pending
    frame; [block_offset] is the block offset after both. *)
Definition framed `{Crc32c} (recs : list (list byte)) (s : list byte) (w : WalWriter) : Prop :=
  append_records 0 recs [] = Some (block_offset w, s ++ frame w).

Lemma framed_block `{Crc32c} recs s w : framed recs s w → (block_offset w ≤ BLOCK_SIZE)%nat.
Proof.
  unfold framed. destruct (append_records_prefix 0 recs [] ltac:(lia)) as (o & x & -> & _ & Ho).
  by intros [= <- _].
Qed.

Lemma framed_more `{Crc32c} recs more s w :
  framed recs s w →
  ∃ o x, append_records (block_offset w) more [] = Some (o, x) ∧ (o ≤ BLOCK_SIZE)%nat ∧
    append_records 0 (recs ++ more) [] = Some (o, s ++ frame w ++ x).
Proof.
  intros Hf. pose proof (framed_block _ _ _ Hf) as Ho. rewrite append_records_app, Hf.
  cbn [mbind option_bind].
  destruct (append_records_prefix (block_offset w) more (s ++ frame w) Ho) as (o & x & -> & -> & Ho').
  exists o, x. by rewrite (assoc_L (++)).
Qed.

Lemma fragment_all_records `{Crc32c} datas w buf :
  fragment_all datas w buf =
    '(o, b) ← append_records (block_offset w) datas buf; Some (set_block_offset o w, b).
Proof.
  unfold fragment_all. revert w buf. induction datas as [|d datas IH]; intros w buf; cbn [foldl].
  { cbn. by destruct w. }
  cbn [append_records mbind option_bind].
  destruct (fragment_into (block_offset w) d buf) as [[o b]|]; cbn [mbind option_bind].
  - rewrite IH. done.
  - clear IH. by induction datas.
Qed.

(** Encoding batches into the pending frame. *)
Lemma encode_batches_ok `{Crc32c} batches l :
  (block_offset (writer l) ≤ BLOCK_SIZE)%nat →
  ∃ n encs o x, Forall2 (λ ops e, encode_ops ops [] = Some e) batches encs ∧
    append_records (block_offset (writer l)) encs [] = Some (o, x) ∧
    encode_write_op_batches batches l =
      Some (Ok n, set_writer (set_frame (frame (writer l) ++ x) (set_block_offset o (writer l))) l).
Proof.
  intros Ho. unfold encode_write_op_batches.
  assert (∀ batches n0 off buf, (off ≤ BLOCK_SIZE)%nat →
    ∃ n encs o x, Forall2 (λ ops e, encode_ops ops [] = Some e) batches encs ∧
      append_records off encs [] = Some (o, x) ∧
      foldl (λ acc ops, '(n, off, buf) ← acc; '(len, off, buf) ← fragment_encoded_len off ops buf;
                   Some (sat_add n (Z.of_nat len), off, buf)) (Some (n0, off, buf)) batches =
      Some (n, o, buf ++ x)) as Hfold.
  { clear. intros batches. induction batches as [|ops batches IH]; intros n0 off buf Ho; cbn [foldl].
    { exists n0, [], off, []. rewrite app_nil_r. split_and!; [constructor|done|done]. }
    destruct (fragment_encoded_len_ok off ops buf Ho) as (enc & o1 & b1 & He & Hfi & Hfe).
    cbn [mbind option_bind]. rewrite Hfe. cbn [mbind option_bind].
    destruct (append_records_prefix off [enc] buf Ho) as (o2 & x & Ha & Ha' & Ho2).
    cbn [append_records] in Ha'. rewrite Hfi in Ha'. cbn [mbind option_bind] in Ha'.
    injection Ha' as -> ->.
    destruct (IH (sat_add n0 (Z.of_nat (length enc))) o2 (buf ++ x) Ho2) as (n & encs & o & y & H1 & H2 & H3).
    exists n, (enc :: encs), o, (x ++ y). rewrite H3, (assoc_L (++)).
    split_and!; [by constructor| |done].
    change (enc :: encs) with ([enc] ++ encs). rewrite append_records_app, Ha. cbn [mbind option_bind].
    destruct (append_records_prefix o2 encs x Ho2) as (o' & y' & E1 & E2 & _). congruence. }
  destruct batches as [|ops batches]; cbn [length batch_is_empty Nat.eqb].
  - exists 0, [], (block_offset (writer l)), []. rewrite app_nil_r.
    split_and!; [constructor|done|]. by destruct l as [[] ? ? ?].
  - destruct (Hfold (ops :: batches) 0 (block_offset (writer l)) (frame (writer l)) Ho)
      as (n & encs & o & x & H1 & H2 & H3).
    exists n, encs, o, x. rewrite H3. done.
Qed.

(** [add_record] and [add_records] from a legal block offset. *)
Lemma add_direct_ok `{Crc32c} D s others w datas o x :
  writer_ok D s others w → append_records (block_offset w) datas [] = Some (o, x) →
  zlen (s ++ x) ≤ U64_MAX →
  let w0 := set_block_offset o (set_frame [] w) in
  ∃ r w', ('(w, buf) ← fragment_all datas (set_frame [] w) [];
           op_bind drain_staged (λ _, op_bind (write_owned buf) (λ _, op_modify (set_frame []))) w) =
          Some (r, w') ∧ appended D s others x r w' ∧ io_step s w0 w'.
Proof.
  intros Hw Ha Hwid w0. rewrite fragment_all_records. cbn [block_offset set_frame]. rewrite Ha.
  cbn [mbind option_bind]. fold w0.
  assert (writer_ok D s others w0) as Hw0.
  { pose proof (writer_ok_framing D s others w o [] (sk_script (w_sink w)) Hw) as Hw'.
    unfold w0. by destruct w as [[]]. }
  destruct (write_direct_ok D s others w0 x Hw0 Hwid) as (r & w' & E & Happ & Hio).
  unfold op_bind in *. destruct (drain_staged w0) as [[[[]|e] w1]|]; [|simplify_eq; by eexists _, _|done].
  rewrite E. destruct r as [[]|e]; [|by eexists _, _].
  eexists _, _. split; [reflexivity|]. split.
  - inversion Happ as [? Hw'| | |]; subst. constructor.
    pose proof (writer_ok_framing _ _ _ _ (block_offset w') [] (sk_script (w_sink w')) Hw') as Hw2.
    by destruct w' as [[]].
  - destruct Hio as [I1 I2 I3 I4]. by split.
Qed.

(** * The log's operations return *)

Lemma drain_total w : is_Some (drain_staged w).
Proof. unfold drain_staged, emit_bytes, op_sink. repeat case_match; by eexists. Qed.

Lemma write_owned_total buf w : is_Some (write_owned buf w).
Proof. unfold write_owned, op_bind, emit_bytes, op_sink, op_modify, reserve_pending. repeat case_match; simplify_eq; by eexists. Qed.

Lemma write_frame_total buf w : is_Some (write_frame buf w).
Proof.
  unfold write_frame. destruct (batch_is_empty _); [by eexists|]. destruct (staged w) as [st|] eqn:Est; [|apply write_owned_total].
  unfold reserve_pending. destruct (reserve_frame _ _) as [at_ next]. cbn [staged set_reserved_to]. rewrite Est.
  destruct (should_flush _ _); [apply drain_total|by eexists].
Qed.

Lemma write_pending_total l : is_Some (write_pending_frame l).
Proof.
  unfold write_pending_frame, write_pending_inner. destruct (batch_is_empty _); [by eexists|].
  unfold on_writer. cbv iota. match goal with |- context [write_frame ?b ?w] => destruct (write_frame_total b w) as [[r w'] ->] end. by eexists.
Qed.

Lemma wal_bind_total {A B} (m : WalOp A) (k : A → WalOp B) l :
  is_Some (m l) → (∀ a l', is_Some (k a l')) → is_Some (wal_bind m k l).
Proof. intros [[r l'] E] Hk. unfold wal_bind. rewrite E. destruct r; [apply Hk|by eexists]. Qed.

Lemma sync_total l : inflight l = 0%nat → is_Some (sync_data_inner l).
Proof.
  intros E. unfold sync_data_inner. rewrite E. cbn [Nat.eqb]. apply wal_bind_total; [apply write_pending_total|]. intros _ l'.
  apply wal_bind_total.
  - unfold on_writer, writer_flush, op_bind. destruct (drain_total (writer l')) as [[[[]|e] w] ->]; [|by eexists].
    destruct (w_shared w); [by eexists|]. unfold op_sink. destruct (sink_call _). by eexists.
  - intros _ l''. unfold on_writer, op_sink. destruct (sink_sync _). by eexists.
Qed.

Lemma writer_flush_total l : is_Some (on_writer writer_flush l).
Proof.
  unfold on_writer, writer_flush, op_bind. destruct (drain_total (writer l)) as [[[[]|e] w] ->]; [|by eexists].
  destruct (w_shared w); [by eexists|]. unfold op_sink. destruct (sink_call _). by eexists.
Qed.

Lemma wal_flush_total l : is_Some (wal_flush l).
Proof.
  apply wal_bind_total; [apply write_pending_total|]. intros _ l'. apply wal_bind_total.
  - unfold on_writer. destruct (drain_total (writer l')) as [[r w] ->]. by eexists.
  - intros _ l''. apply writer_flush_total.
Qed.

(** * A sink that answers every call *)

(** No failure is to come. *)
Definition healthy (w : WalWriter) : Prop := sk_script (w_sink w) = [].

(** Such a writer's operations succeed. *)
Definition succeeds (m : Op unit) : Prop :=
  ∀ w r w', healthy w → m w = Some (r, w') → r = Ok tt ∧ healthy w'.

Lemma succeeds_bind m k : succeeds m → succeeds k → succeeds (op_bind m (λ _, k)).
Proof.
  intros Hm Hk w r w' Hw E. unfold op_bind in E. destruct (m w) as [[r1 w1]|] eqn:E1; [|done].
  destruct (Hm _ _ _ Hw E1) as [-> Hw1]. by eapply Hk.
Qed.

Lemma absorb_sink n w : w_sink (absorb_completed n w) = w_sink w.
Proof.
  revert w. induction n as [|n IH]; intros w; cbn [absorb_completed]; [done|].
  destruct (om_get _ _) as [e|]; [|done]. by rewrite IH.
Qed.

Lemma commit_sink t len w : w_sink (commit_pwrite t len w) = w_sink w.
Proof.
  unfold commit_pwrite. destruct (len =? 0); [done|]. rewrite absorb_sink. by repeat case_match.
Qed.

Lemma emit_succeeds buf at_ : succeeds (emit_bytes buf at_).
Proof.
  intros w r w' Hw E. unfold emit_bytes, op_sink, sink_write, next_io in E. rewrite Hw in E. by simplify_eq.
Qed.

Lemma drain_succeeds : succeeds drain_staged.
Proof.
  intros w r w' Hw E. unfold drain_staged in E. destruct (staged w) as [st|]; [|by simplify_eq].
  destruct (length (sb_buf st) =? 0)%nat; [by simplify_eq|].
  destruct (emit_bytes _ _ _) as [[r1 w1]|] eqn:E1; [|done].
  eapply emit_succeeds in E1 as [-> Hw1]; [|done]. simplify_eq. split; [done|].
  unfold healthy. by rewrite commit_sink.
Qed.

Lemma write_owned_succeeds buf : succeeds (write_owned buf).
Proof.
  intros w r w' Hw E. unfold write_owned in E. destruct (batch_is_empty _); [by simplify_eq|].
  unfold reserve_pending in E. destruct (reserve_frame _ _) as [at_ next].
  refine (succeeds_bind _ _ (emit_succeeds buf at_) _ (set_reserved_to next w) _ _ Hw E).
  intros w1 r1 w1' Hw1 [= <- <-]. split; [done|]. unfold healthy. by rewrite commit_sink.
Qed.

Lemma write_frame_succeeds buf : succeeds (write_frame buf).
Proof.
  intros w r w' Hw E. unfold write_frame in E. destruct (batch_is_empty _); [by simplify_eq|].
  destruct (staged w) as [st|] eqn:Est; [|by eapply write_owned_succeeds].
  unfold reserve_pending in E. destruct (reserve_frame _ _) as [at_ next]. cbn [staged set_reserved_to] in E.
  rewrite Est in E. destruct (should_flush _ _); [|by simplify_eq]. by eapply drain_succeeds in E.
Qed.

Lemma writer_flush_succeeds : succeeds writer_flush.
Proof.
  apply succeeds_bind; [apply drain_succeeds|]. intros w r w' Hw E. destruct (w_shared w); [by simplify_eq|].
  unfold op_sink, sink_call, next_io in E. rewrite Hw in E. by simplify_eq.
Qed.

Lemma prealloc_healthy n need l : healthy (writer l) → healthy (writer (prealloc_loop n need l)).
Proof.
  revert l. induction n as [|n IH]; intros l Hl; cbn [prealloc_loop]; [done|].
  destruct (Z.ltb _ _); [|done]. unfold sink_call, next_io. rewrite Hl. by apply IH.
Qed.

Lemma write_pending_succeeds l r l' :
  healthy (writer l) → write_pending_frame l = Some (r, l') → r = Ok tt ∧ healthy (writer l').
Proof.
  intros Hl E. unfold write_pending_frame, write_pending_inner in E. destruct (batch_is_empty _); [by simplify_eq|].
  unfold on_writer in E. cbv iota in E.
  destruct (write_frame _ _) as [[r1 w1]|] eqn:E1; [|done]. injection E as <- <-.
  eapply write_frame_succeeds; [|exact E1]. unfold reserve_space. by apply prealloc_healthy.
Qed.

Lemma flush_succeeds l :
  healthy (writer l) → ∃ l', wal_flush l = Some (Ok tt, l') ∧ healthy (writer l').
Proof.
  intros Hl. destruct (wal_flush_total l) as [[r l'] E]. rewrite E. unfold wal_flush, wal_bind in E.
  destruct (write_pending_frame l) as [[r1 l1]|] eqn:E1; [|done].
  destruct (write_pending_succeeds _ _ _ Hl E1) as [-> Hl1]. unfold on_writer in E.
  destruct (drain_staged (writer l1)) as [[r2 w2]|] eqn:E2; [|done].
  destruct (drain_succeeds _ _ _ Hl1 E2) as [-> Hw2]. cbn [writer set_writer] in E.
  destruct (writer_flush w2) as [[r3 w3]|] eqn:E3; [|done]. injection E as <- <-.
  destruct (writer_flush_succeeds _ _ _ Hw2 E3) as [-> Hw3]. by eexists.
Qed.
