(* ===== verification/WalSystem.v ===== *)
(** Writers sharing one log, as a step relation: encoding, locked and staged
    writes, off-lock tickets that run, are dropped and commit in any order,
    failures, and the sync barrier. The steps are the calls as the code makes
    them, with no guard the code does not check; [orderly] names the discipline
    the log's format needs of its callers (and the last part of the file shows
    what happens without it). The invariant is proved by induction on orderly
    runs; its consequences say what a recovery finds, in the file and in every
    image a crash may leave of it. *)

From S2P Require Import Prelude ErrorKernel KeyKernel BatchKernel WalFormat WalFragment WalSource WalReader WalRecovery OrdMap WalWriter WalLog.

Local Open Scope Z_scope.

(** A log and what its clients hold: tickets whose write has not started
    ([jobs]), tickets written but not committed ([ran], with their length), the
    records handed to the log in order, whether a locked operation failed (the
    engine then fences new writes) and whether a ticket's write failed. *)
Record Sys := mkSys {
  wal : Wal;
  jobs : list PwriteJob;
  ran : list (Z * Z);
  recs : list (list byte);
  fenced : bool;
  lost : bool
}.

Definition is_err {E A} (r : Result E A) : bool := match r with Ok _ => false | Err _ => true end.

(** The calls. *)
Inductive Act := ActEncode | ActAppend | ActWrite | ActTake | ActPreframed | ActRun | ActDrop | ActFinish
  | ActFlush | ActSync.

Section system.
Context `{Crc32c} (positional : bool).

Inductive step : Sys → Act → Sys → Prop :=
| step_encode σ batches encs n l :
    fenced σ = false → Forall2 (λ ops e, encode_ops ops [] = Some e) batches encs →
    encode_write_op_batches batches (wal σ) = Some (Ok n, l) →
    step σ ActEncode (mkSys l (jobs σ) (ran σ) (recs σ ++ encs) false (lost σ))
| step_append σ datas r l :
    fenced σ = false → wal_append_records datas (wal σ) = Some (r, l) →
    step σ ActAppend (mkSys l (jobs σ) (ran σ) (recs σ ++ datas) (is_err r) (lost σ))
| step_append_one σ data r l :
    fenced σ = false → append_record data (wal σ) = Some (r, l) →
    step σ ActAppend (mkSys l (jobs σ) (ran σ) (recs σ ++ [data]) (is_err r) (lost σ))
| step_write σ lone r l :
    fenced σ = false → write_pending_inner lone (wal σ) = Some (r, l) →
    step σ ActWrite (mkSys l (jobs σ) (ran σ) (recs σ) (is_err r) (lost σ))
| step_take σ r l :
    fenced σ = false → take_pwrite_job positional (wal σ) = Some (r, l) →
    step σ ActTake (mkSys l (match r with Ok j => option_list j | Err _ => [] end ++ jobs σ) (ran σ)
      (recs σ) (is_err r) (lost σ))
| step_take_preframed σ op enc rec j l :
    fenced σ = false → encode_one_op_full_detached op = Some rec → encode_ops [op] [] = Some enc →
    take_preframed_pwrite_job positional rec (wal σ) = Some (Ok j, l) →
    step σ ActPreframed (mkSys l (option_list j ++ jobs σ) (ran σ)
      (recs σ ++ match j with Some _ => [enc] | None => [] end) false (lost σ))
| step_run σ js1 j js2 r l :
    jobs σ = js1 ++ j :: js2 → run_job j (wal σ) = Some (r, l) →
    step σ ActRun (mkSys l (js1 ++ js2)
      (match r with Ok tl => tl :: ran σ | Err _ => ran σ end) (recs σ) (fenced σ)
      (lost σ || is_err r))
| step_drop σ js1 j js2 :
    jobs σ = js1 ++ j :: js2 →
    step σ ActDrop (mkSys (drop_job j (wal σ)) (js1 ++ js2) (ran σ) (recs σ) (fenced σ) true)
| step_finish σ rs1 t len rs2 :
    ran σ = rs1 ++ (t, len) :: rs2 →
    step σ ActFinish
      (mkSys (finish_pwrite t len (wal σ)) (jobs σ) (rs1 ++ rs2) (recs σ) (fenced σ) (lost σ))
| step_flush σ r l :
    fenced σ = false → wal_flush (wal σ) = Some (r, l) →
    step σ ActFlush (mkSys l (jobs σ) (ran σ) (recs σ) (is_err r) (lost σ))
| step_sync σ r l :
    fenced σ = false → sync_data_inner (wal σ) = Some (r, l) →
    step σ ActSync (mkSys l (jobs σ) (ran σ) (recs σ) (is_err r) (lost σ)).

(** The discipline: no ticket is taken while bytes are staged, and no
    pre-framed ticket or direct append overtakes a batch that is encoded and
    not yet written. The code keeps it only where one caller at a time uses the
    log, or where staging and off-lock writes are not both on. *)
Definition unstaged (l : Wal) : Prop := staged_span (writer l) = [].
Definition no_frame (l : Wal) : Prop := frame (writer l) = [].

Definition orderly (σ : Sys) (a : Act) : Prop :=
  match a with
  | ActAppend => no_frame (wal σ)
  | ActTake => unstaged (wal σ)
  | ActPreframed => unstaged (wal σ) ∧ no_frame (wal σ)
  | _ => True
  end.

(** A call allowed by [ok]; without a discipline every call is. *)
Definition move (ok : Sys → Act → Prop) (σ σ' : Sys) : Prop := ∃ a, ok σ a ∧ step σ a σ'.
Definition anything (σ : Sys) (a : Act) : Prop := True.

(** A log just created on an empty file. *)
Definition initial (script : list Outcome) (staged_max : Z) (want_pwrite : bool) : Sys :=
  mkSys (create_on (fresh_sink script) staged_max positional want_pwrite) [] [] [] false false.

Definition reachable (ok : Sys → Act → Prop) (σ : Sys) : Prop :=
  ∃ script staged_max want, rtc (move ok) (initial script staged_max want) σ.

(** * The invariant *)

Definition job_span (j : PwriteJob) : Z * Z := (job_ticket j, job_ticket j + zlen (job_buf j)).
Definition ran_span (tl : Z * Z) : Z * Z := (tl.1, tl.1 + tl.2).

(** A log that wants off-lock writes and can have them has a shared sink. *)
Definition share_ok (l : Wal) : Prop :=
  pwrite_want l = true → positional = true → w_shared (writer l) = true.

Lemma share_ok_same l l' :
  pwrite_want l' = pwrite_want l → w_shared (writer l') = w_shared (writer l) → share_ok l → share_ok l'.
Proof. unfold share_ok. by intros -> ->. Qed.

Section durable.
(** Everything below [D] was synced. *)
Context (D : Z).

(** The stream [s] reserved so far and the spans [torn] of failed or dropped
    writes. *)
Record sys_inv (s : list byte) (torn : list (Z * Z)) (σ : Sys) : Prop := {
  inv_writer : writer_ok D s ((job_span <$> jobs σ) ++ (ran_span <$> ran σ) ++ torn) (writer (wal σ));
  inv_jobs j : j ∈ jobs σ → job_buf j ≠ [] ∧ placed (job_ticket j) (job_buf j) s ∧ D ≤ job_ticket j;
  inv_ran t len : (t, len) ∈ ran σ → 0 < len ∧ agree t (t + len) (file (writer (wal σ))) s;
  inv_inflight : inflight (wal σ) = length (jobs σ);
  inv_framed : if fenced σ then ∃ o rest, append_records 0 (recs σ) [] = Some (o, s ++ rest)
               else framed (recs σ) s (writer (wal σ));
  inv_torn : fenced σ = false → lost σ = false → torn = [];
  inv_shared : share_ok (wal σ)
}.

(** The log stays below the width of an offset. *)
Definition fits (rs : list (list byte)) : Prop :=
  ∀ o x, append_records 0 rs [] = Some (o, x) → zlen x ≤ U64_MAX.

Lemma fits_computed rs o x : append_records 0 rs [] = Some (o, x) → zlen x ≤ U64_MAX → fits rs.
Proof. intros E Hx o' x' E'. rewrite E in E'. by injection E' as _ <-. Qed.

Lemma fits_app rs more : fits (rs ++ more) → fits rs.
Proof.
  intros Hf o x E. destruct (append_records_prefix 0 rs [] ltac:(lia)) as (o' & x' & E' & _ & Ho).
  rewrite E in E'. injection E' as <- <-.
  destruct (append_records_prefix o more x Ho) as (o2 & y & _ & E2 & _).
  assert (zlen (x ++ y) ≤ U64_MAX); [|unfold zlen in *; len].
  apply (Hf o2). rewrite append_records_app, E. done.
Qed.

(** Agreement of the spans written outside the writer survives an operation
    that extends the stream. *)
Lemma inv_ran_step s x w w' t len :
  io_step s w w' → t + len ≤ zlen s → agree t (t + len) (file w) s →
  agree t (t + len) (file w') (s ++ x).
Proof. intros Hio Hle Ha. apply agree_app; [done|]. by apply Hio. Qed.

Lemma inv_ran_bound s torn σ t len :
  sys_inv s torn σ → (t, len) ∈ ran σ → t + len ≤ zlen s.
Proof.
  intros Hi Hin. eapply (core_bounds D s _ _ t (t + len)); [apply Hi|].
  rewrite !elem_of_app. right. right. left. apply list_elem_of_fmap. by exists (t, len).
Qed.

Lemma inv_jobs_app s x torn σ j :
  sys_inv s torn σ → j ∈ jobs σ →
  job_buf j ≠ [] ∧ placed (job_ticket j) (job_buf j) (s ++ x) ∧ D ≤ job_ticket j.
Proof. intros Hi Hj. destruct (inv_jobs _ _ _ Hi j Hj) as (? & ? & ?). by split_and!; [|apply placed_app|]. Qed.

(** Any locked write keeps the invariant, whatever its outcome. *)
Lemma inv_appended s torn σ buf recs' r l w0 :
  sys_inv s torn σ → fenced σ = false →
  append_records 0 recs' [] = Some (block_offset w0, s ++ buf) →
  file w0 = file (writer (wal σ)) → w_shared w0 = w_shared (writer (wal σ)) → frame w0 = [] →
  io_step s w0 (writer l) → inflight l = inflight (wal σ) → pwrite_want l = pwrite_want (wal σ) →
  appended D s ((job_span <$> jobs σ) ++ (ran_span <$> ran σ) ++ torn) buf r (writer l) →
  ∃ s' torn', sys_inv s' torn' (mkSys l (jobs σ) (ran σ) recs' (is_err r) (lost σ)).
Proof.
  intros Hi Hnf Hlay Hfile Hsh Hfr Hio Hinf Hpw Happ.
  assert (∀ x t len, (t, len) ∈ ran σ → 0 < len ∧ agree t (t + len) (file (writer l)) (s ++ x)) as Hran.
  { intros x t len Hin. split; [by eapply inv_ran|]. eapply inv_ran_step; [done| |].
    - by eapply inv_ran_bound.
    - rewrite Hfile. by eapply inv_ran. }
  assert (∀ s' torn', writer_ok D s' ((job_span <$> jobs σ) ++ (ran_span <$> ran σ) ++ torn') (writer l) →
    (∃ x, s' = s ++ x) → (∃ rest, s ++ buf = s' ++ rest) →
    (is_err r = false → s' = s ++ buf ∧ torn' = torn) →
    sys_inv s' torn' (mkSys l (jobs σ) (ran σ) recs' (is_err r) (lost σ))) as Hmk.
  { intros s' torn' Hw [x ->] [rest Hrest] Hok. split; cbn; [done| | | | | |].
    - intros j Hj. by eapply inv_jobs_app.
    - apply Hran.
    - rewrite Hinf. apply Hi.
    - destruct (is_err r); [rewrite Hlay, Hrest; by eexists _, _|].
      destruct Hok as [Hs _]; [done|]. unfold framed.
      by rewrite Hlay, (io_block _ _ _ Hio), (io_frame _ _ _ Hio), Hfr, Hs, app_nil_r.
    - intros Hr Hl. destruct Hok as [_ ->]; [done|]. by apply Hi.
    - eapply share_ok_same; [exact Hpw| |apply Hi]. by rewrite (io_shared _ _ _ Hio). }
  destruct Happ as [w Hw|w Hw|w Hw|w Hw].
  - exists (s ++ buf), torn. apply Hmk; [done|by eexists|exists []; by rewrite app_nil_r|done].
  - exists s, torn. apply Hmk; [done|exists []; by rewrite app_nil_r|by eexists|done].
  - exists (s ++ buf), torn. apply Hmk; [done|by eexists|exists []; by rewrite app_nil_r|done].
  - exists (s ++ buf), ((zlen s, zlen (s ++ buf)) :: torn).
    apply Hmk; [|by eexists|exists []; by rewrite app_nil_r|done].
    eapply writer_ok_perm, Hw. by rewrite !Permutation_middle.
Qed.

(** Steps that leave the stream alone. *)
Lemma inv_io s torn σ l r :
  sys_inv s torn σ → fenced σ = false →
  writer_ok D s ((job_span <$> jobs σ) ++ (ran_span <$> ran σ) ++ torn) (writer l) →
  io_step s (writer (wal σ)) (writer l) → inflight l = inflight (wal σ) →
  pwrite_want l = pwrite_want (wal σ) →
  sys_inv s torn (mkSys l (jobs σ) (ran σ) (recs σ) (is_err (A := unit) (E := CoreError) r) (lost σ)).
Proof.
  intros Hi Hnf Hw Hio Hinf Hpw. pose proof Hi as [I1 I2 I3 I4 I5 I6 I7]. rewrite Hnf in I5.
  split; cbn; [done|done| |congruence| |by intros _; apply I6|].
  - intros t len Hin. split; [by eapply I3|]. apply Hio; [by eapply inv_ran_bound|by apply I3].
  - destruct Hio as [_ Hb Hf _]. unfold framed in *. rewrite Hb, Hf.
    destruct (is_err r); [by eexists _, _|done].
  - eapply share_ok_same; [done|apply Hio|done].
Qed.

Lemma inv_set_sink s torn σ sc p :
  sys_inv s torn σ → fenced σ = false →
  let l := mkWal (set_sink (rescript sc (w_sink (writer (wal σ)))) (writer (wal σ))) p
             (pwrite_want (wal σ)) (inflight (wal σ)) in
  sys_inv s torn (mkSys l (jobs σ) (ran σ) (recs σ) false (lost σ)).
Proof.
  intros Hi Hnf l. apply (inv_io s torn σ l (Ok tt)); [done|done| |by split|done|done].
  destruct (inv_writer _ _ _ Hi) as [[] Ha]. by split.
Qed.

Lemma inv_encode s torn σ batches encs n l :
  sys_inv s torn σ → fenced σ = false → Forall2 (λ ops e, encode_ops ops [] = Some e) batches encs →
  encode_write_op_batches batches (wal σ) = Some (Ok n, l) →
  sys_inv s torn (mkSys l (jobs σ) (ran σ) (recs σ ++ encs) false (lost σ)).
Proof.
  intros Hi Hnf Henc E. pose proof Hi as [I1 I2 I3 I4 I5 I6 I7]. rewrite Hnf in I5.
  pose proof (framed_block _ _ _ I5) as Hb.
  destruct (encode_batches_ok batches (wal σ) Hb) as (n' & encs' & o & x & Henc' & Ha & E').
  rewrite E in E'. injection E' as <- ->.
  assert (encs' = encs) as ->.
  { clear -Henc Henc'. revert encs' Henc'. induction Henc; intros encs' He; inversion He; subst; [done|].
    f_equal; [congruence|by apply IHHenc]. }
  destruct (framed_more _ encs _ _ I5) as (o' & x' & Ha' & _ & Hlay). rewrite Ha in Ha'. simplify_eq.
  split; cbn; [|done|done|done|done|by intros _; apply I6|done].
  pose proof (writer_ok_framing _ _ _ _ o' (frame (writer (wal σ)) ++ x')
    (sk_script (w_sink (writer (wal σ)))) I1) as Hw. by destruct (writer (wal σ)) as [[]].
Qed.

Lemma inv_append s torn σ datas upcoming r l :
  sys_inv s torn σ → fenced σ = false → no_frame (wal σ) → fits (recs σ ++ datas) →
  on_writer (λ w, '(w, buf) ← fragment_all datas (set_frame [] w) [];
     op_bind drain_staged (λ _, op_bind (write_owned buf) (λ _, op_modify (set_frame []))) w)
    (reserve_space upcoming (wal σ)) = Some (r, l) →
  ∃ s' torn', sys_inv s' torn' (mkSys l (jobs σ) (ran σ) (recs σ ++ datas) (is_err r) (lost σ)).
Proof.
  intros Hi Hnf Hfr Hfits E. pose proof (inv_framed _ _ _ Hi) as Hframed. rewrite Hnf in Hframed.
  destruct (framed_more _ datas _ _ Hframed) as (o & x & Ha & _ & Hlay). rewrite Hfr in Hlay.
  cbn [app] in Hlay. destruct (reserve_space_sink upcoming (wal σ)) as (sc & p & Ers). rewrite Ers in E.
  pose proof (inv_set_sink s torn σ sc p Hi Hnf) as Hi1. cbv zeta in Hi1.
  match type of Hi1 with sys_inv _ _ ?x => set (σ1 := x) in Hi1 end.
  unfold on_writer in E. cbn [writer] in E.
  destruct (add_direct_ok D s _ (writer (wal σ1)) datas o x (inv_writer _ _ _ Hi1) Ha (Hfits _ _ Hlay))
    as (r' & w' & E' & Happ & Hio).
  cbn [writer wal σ1] in E'. rewrite E' in E. injection E as <- <-.
  exact (inv_appended s torn σ1 x _ _ (set_writer w' (wal σ1))
           (set_block_offset o (set_frame [] (writer (wal σ1)))) Hi1 eq_refl Hlay eq_refl eq_refl eq_refl Hio
           eq_refl eq_refl Happ).
Qed.

Lemma inv_write s torn σ lone r l :
  sys_inv s torn σ → fenced σ = false → fits (recs σ) → write_pending_inner lone (wal σ) = Some (r, l) →
  (∃ s' torn', sys_inv s' torn' (mkSys l (jobs σ) (ran σ) (recs σ) (is_err r) (lost σ))) ∧
  no_frame l ∧ inflight l = inflight (wal σ).
Proof.
  intros Hi Hnf Hfits E. pose proof (inv_framed _ _ _ Hi) as Hframed. rewrite Hnf in Hframed.
  unfold write_pending_inner in E. set (buf := frame (writer (wal σ))) in *.
  destruct (batch_is_empty (length buf)) eqn:Eb.
  { injection E as <- <-. split; [exists s, torn; cbn; by destruct σ as [? ? ? ? []]|].
    split; [|done]. apply Nat.eqb_eq, nil_length_inv in Eb. done. }
  set (l0 := set_writer _ _) in E.
  destruct (reserve_space_sink (zlen buf) l0) as (sc & p & Ers). rewrite Ers in E.
  unfold on_writer in E. cbn [writer] in E.
  match type of E with context [match ?m with _ => _ end] => set (res := m) in E end.
  set (w0 := set_sink (rescript sc (w_sink (writer l0))) (writer l0)) in *.
  assert (writer_ok D s ((job_span <$> jobs σ) ++ (ran_span <$> ran σ) ++ torn) w0) as Hw0.
  { pose proof (writer_ok_framing _ _ _ _ (block_offset (writer (wal σ))) [] sc (inv_writer _ _ _ Hi)).
    unfold w0, l0. by destruct (writer (wal σ)). }
  assert (∃ r w', res = Some (r, w') ∧
    appended D s ((job_span <$> jobs σ) ++ (ran_span <$> ran σ) ++ torn) buf r w' ∧ io_step s w0 w')
    as (r' & w' & E' & Happ & Hio).
  { pose proof (Hfits _ _ Hframed) as Hwid. unfold res. destruct lone.
    - unfold write_lone_frame. rewrite Eb. by apply write_direct_ok.
    - by apply write_frame_ok. }
  rewrite E' in E. injection E as <- <-. split; [|split; [by apply Hio|done]].
  eapply (inv_appended s torn σ buf _ _ (mkWal w' p (pwrite_want (wal σ)) (inflight (wal σ)))
           w0 Hi Hnf Hframed eq_refl eq_refl eq_refl Hio eq_refl eq_refl Happ).
Qed.

(** A ticket reserves the span of its bytes. *)
Lemma inv_ticket s torn σ w0 buf p recs' :
  sys_inv s torn σ → fenced σ = false →
  writer_ok D s ((job_span <$> jobs σ) ++ (ran_span <$> ran σ) ++ torn) w0 →
  staged_span w0 = [] → buf ≠ [] → frame w0 = [] → file w0 = file (writer (wal σ)) →
  w_shared w0 = w_shared (writer (wal σ)) →
  append_records 0 recs' [] = Some (block_offset w0, s ++ buf) → zlen (s ++ buf) ≤ U64_MAX →
  ∃ t w, reserve_pending (zlen buf) w0 = (t, w) ∧ w_shared w = w_shared w0 ∧
    sys_inv (s ++ buf) torn (mkSys (mkWal w p (pwrite_want (wal σ)) (S (inflight (wal σ))))
      (mkJob buf t :: jobs σ) (ran σ) recs' false (lost σ)).
Proof.
  intros Hi Hnf Hw Hst Hne Hfr Hfile Hsh Hlay Hwid.
  destruct (reserve_ok _ _ _ _ _ Hw Hst Hne Hwid) as (w & E & Hw' & ->). exists (zlen s), (set_reserved_to (zlen (s ++ buf)) w0).
  split; [done|]. split; [done|]. split; cbn.
  - unfold job_span at 1. cbn. replace (zlen s + zlen buf) with (zlen (s ++ buf)) by (unfold zlen; len).
    exact Hw'.
  - intros j [->|Hj]%elem_of_cons; [|by eapply inv_jobs_app].
    split_and!; [done|apply placed_end|apply (ok_core _ _ _ _ Hw)].
  - intros t len Hin. split; [by eapply inv_ran|]. apply agree_app; [by eapply inv_ran_bound|].
    unfold file in *. cbn. rewrite Hfile. by eapply inv_ran.
  - by rewrite (inv_inflight _ _ _ Hi).
  - unfold framed. cbn. by rewrite Hfr, app_nil_r.
  - intros _. by apply (inv_torn _ _ _ Hi).
  - eapply share_ok_same; [| |apply Hi]; done.
Qed.

Lemma inv_take s torn σ r l :
  sys_inv s torn σ → fenced σ = false → unstaged (wal σ) →
  fits (recs σ) → take_pwrite_job positional (wal σ) = Some (r, l) →
  ∃ s', sys_inv s' torn (mkSys l (match r with Ok j => option_list j | Err _ => [] end ++ jobs σ) (ran σ)
    (recs σ) (is_err r) (lost σ)).
Proof.
  intros Hi Hnf Hst Hfits E. pose proof (inv_framed _ _ _ Hi) as Hframed. rewrite Hnf in Hframed.
  assert (Some (Ok (E := CoreError) None, wal σ) = Some (r, l) → ∃ s' : list byte,
    sys_inv s' torn (mkSys l (match r with Ok j => option_list j | Err _ => [] end ++ jobs σ) (ran σ)
      (recs σ) (is_err r) (lost σ))) as Hidle.
  { intros [= <- <-]. exists s. cbn. by destruct σ as [? ? ? ? []]. }
  unfold take_pwrite_job in E.
  destruct (pwrite_off_lock _ _) eqn:Eoff; cbn [negb] in E; [|by apply Hidle].
  assert (w_shared (writer (wal σ)) = true) as Hsh.
  { apply andb_true_iff in Eoff as [Hw Hp]. unfold positional_writes in Hp.
    destruct (w_shared (writer (wal σ))) eqn:E1; [done|]. by rewrite (inv_shared _ _ _ Hi Hw Hp) in E1. }
  set (buf := frame (writer (wal σ))) in *.
  destruct (batch_is_empty (length buf)) eqn:Eb; [by apply Hidle|].
  set (l0 := set_writer _ _) in E.
  destruct (reserve_space_sink (zlen buf) l0) as (sc & p & Ers). rewrite Ers in E.
  cbn [writer] in E. set (w0 := set_sink (rescript sc (w_sink (writer l0))) (writer l0)) in *.
  destruct (inv_ticket s torn σ w0 buf p (recs σ)) as (t & w & Er & Hsh' & Hi'); try done.
  - pose proof (writer_ok_framing _ _ _ _ (block_offset (writer (wal σ))) [] sc (inv_writer _ _ _ Hi)).
    unfold w0, l0. by destruct (writer (wal σ)).
  - intros Ebuf. by rewrite Ebuf in Eb.
  - by apply (Hfits _ _ Hframed).
  - rewrite Er in E. rewrite Hsh' in E. cbn [w_shared w0 set_sink l0 set_writer writer set_frame] in E.
    rewrite Hsh in E. injection E as <- <-. by exists (s ++ buf).
Qed.

(** A record framed off the lock is the fragment the writer would have laid
    out. *)
Lemma preframed_layout w rec op enc pad w' :
  (block_offset w ≤ BLOCK_SIZE)%nat → encode_one_op_full_detached op = Some rec →
  encode_ops [op] [] = Some enc → take_preframed_layout (length rec) w = Some (pad, w') →
  ∃ o, w' = set_block_offset o w ∧
    append_records (block_offset w) [enc] [] = Some (o, replicate pad x00 ++ rec).
Proof.
  intros Hb Hrec Henc Hlay. rewrite encode_ops_spec in Henc. injection Henc as <-.
  apply encode_one_op_ok in Hrec as [-> Hlen].
  set (data := encode_spec [op]) in *.
  assert (length (frame_bytes (mkFrame 0 RFull data)) = HEADER_SIZE + length data)%nat as Hfl
    by (rewrite length_frame_bytes; cbn; lia).
  unfold take_preframed_layout in Hlay. rewrite Hfl in Hlay.
  destruct (_ || _) eqn:E0; [done|]. apply orb_false_iff in E0 as [_ _].
  destruct (Nat.ltb _ (HEADER_SIZE + length data)) eqn:E1; [done|]. apply Nat.ltb_ge in E1.
  match type of Hlay with Some (?a, ?b) = _ =>
    assert (pad = a ∧ w' = b) as [-> ->] by (split; congruence) end.
  eexists. split; [reflexivity|]. cbn [append_records].
  destruct (fragment_from_ok (block_offset w) (mkSlice data) data [] Hb (slice_fresh _))
    as (sl & fs & o & Hff & Hp & _).
  unfold fragment_into. rewrite Hff. cbn [mbind option_bind app].
  assert (length data ≤ BLOCK_SIZE - pad_off (block_offset w) - HEADER_SIZE)%nat as Hroom.
  { unfold pad_off. destruct (BLOCK_SIZE - block_offset w <? HEADER_SIZE)%nat; lia. }
  destruct (plan_functional _ _ _ _ _ _ _ Hp (plan_last _ true data Hb Hroom)) as [-> ->].
  unfold frames_bytes. cbn [fmap list_fmap concat]. rewrite app_nil_r.
  unfold frame_bytes, pad_off, pad_len. cbn [fr_pad replicate app fr_payload].
  do 2 f_equal. lia.
Qed.

Lemma inv_take_preframed s torn σ op enc rec j l :
  sys_inv s torn σ → fenced σ = false → unstaged (wal σ) → no_frame (wal σ) →
  encode_one_op_full_detached op = Some rec → encode_ops [op] [] = Some enc →
  fits (recs σ ++ match j with Some _ => [enc] | None => [] end) →
  take_preframed_pwrite_job positional rec (wal σ) = Some (Ok j, l) →
  ∃ s', sys_inv s' torn (mkSys l (option_list j ++ jobs σ) (ran σ)
    (recs σ ++ match j with Some _ => [enc] | None => [] end) false (lost σ)).
Proof.
  intros Hi Hnf Hst Hfr Hrec Henc Hfits E. pose proof (inv_framed _ _ _ Hi) as Hframed. rewrite Hnf in Hframed.
  assert (Some (Ok (E := CoreError) None, wal σ) = Some (Ok j, l) → ∃ s' : list byte,
    sys_inv s' torn (mkSys l (option_list j ++ jobs σ) (ran σ)
      (recs σ ++ match j with Some _ => [enc] | None => [] end) false (lost σ))) as Hidle.
  { intros [= <- <-]. exists s. rewrite app_nil_r. cbn. by destruct σ as [? ? ? ? []]. }
  unfold take_preframed_pwrite_job in E. destruct (batch_is_empty (length rec)) eqn:Eb; [by apply Hidle|].
  destruct (negb _); [by apply Hidle|]. destruct (negb _); [by apply Hidle|].
  destruct (take_preframed_layout _ _) as [[pad w1]|] eqn:El; [|by apply Hidle].
  destruct (preframed_layout _ _ _ _ _ _ (framed_block _ _ _ Hframed) Hrec Henc El) as (o & -> & Ha).
  set (buf := replicate pad x00 ++ rec) in *. set (l0 := set_writer _ _) in E.
  destruct (reserve_space_sink (zlen buf) l0) as (sc & p & Ers). rewrite Ers in E.
  cbn [writer] in E. set (w0 := set_sink (rescript sc (w_sink (writer l0))) (writer l0)) in *.
  destruct (framed_more _ [enc] _ _ Hframed) as (o' & x & Ha' & _ & Hlay).
  rewrite Ha in Ha'. injection Ha' as <- <-. rewrite Hfr in Hlay. cbn [app] in Hlay.
  destruct (inv_ticket s torn σ w0 buf p (recs σ ++ [enc])) as (t & w & Er & _ & Hi'); try done.
  - pose proof (writer_ok_framing _ _ _ _ o (frame (writer (wal σ))) sc (inv_writer _ _ _ Hi)).
    unfold w0, l0. by destruct (writer (wal σ)).
  - unfold buf. intros [_ ->]%app_nil. done.
  - destruct (reserve_pending _ _) in E. injection E as <- <-. by apply (Hfits _ _ Hlay).
  - rewrite Er in E. injection E as <- <-. by exists (s ++ buf).
Qed.

(** The bytes of a ticket reach the file, all or a prefix; its span stays owed
    until it is committed. *)
Lemma inv_job_written s torn σ js1 j js2 r sk :
  sys_inv s torn σ → jobs σ = js1 ++ j :: js2 →
  sink_write (job_buf j) (job_ticket j) (w_sink (writer (wal σ))) = (r, sk) →
  sys_inv s (job_span j :: torn)
    (mkSys (set_inflight (pred (inflight (wal σ))) (set_writer (set_sink sk (writer (wal σ))) (wal σ)))
       (js1 ++ js2) (ran σ) (recs σ) (fenced σ) true) ∧
  match r with Ok _ => agree (job_ticket j) (job_ticket j + zlen (job_buf j)) (sk_file sk) s | Err _ => True end.
Proof.
  intros Hi Hj Es. pose proof Hi as [I1 I2 I3 I4 I5 I6 I7].
  destruct (I2 j) as (Hne & Hpl & HD); [rewrite Hj; set_solver|].
  destruct (sink_write_ok _ _ _ _ _ _ (ok_core _ _ _ _ I1) Hpl HD) as (r' & sk' & Es' & Hc & Hio & Hr).
  rewrite Es in Es'. injection Es' as <- <-. split; [|by destruct r].
  set (others := (job_span <$> js1 ++ js2) ++ (ran_span <$> ran σ) ++ torn).
  assert ((job_span <$> jobs σ) ++ (ran_span <$> ran σ) ++ torn ≡ₚ job_span j :: others) as Hp.
  { unfold others. rewrite Hj, !fmap_app, fmap_cons, <-!(assoc_L (++)). cbn. by rewrite <-Permutation_middle. }
  assert (writer_ok D s (job_span j :: others) (set_sink sk (writer (wal σ)))) as Hw.
  { apply (writer_ok_perm _ _ _ _ _ Hp). split; [done|apply I1]. }
  split; cbn; [| | | |done|done|done].
  - eapply writer_ok_perm, Hw. unfold others. by rewrite <-!Permutation_middle.
  - intros j' Hj'. apply I2. rewrite Hj. set_solver.
  - intros t len Hin. split; [by eapply I3|]. apply Hio; [by eapply inv_ran_bound|by apply I3].
  - rewrite I4, Hj, !length_app. cbn. lia.
Qed.

Lemma inv_run s torn σ js1 j js2 r l :
  sys_inv s torn σ → jobs σ = js1 ++ j :: js2 → run_job j (wal σ) = Some (r, l) →
  ∃ torn', sys_inv s torn' (mkSys l (js1 ++ js2)
    (match r with Ok tl => tl :: ran σ | Err _ => ran σ end) (recs σ) (fenced σ) (lost σ || is_err r)).
Proof.
  intros Hi Hj E. unfold run_job in E. destruct (sink_write _ _ _) as [r' sk] eqn:Es.
  destruct (inv_job_written _ _ _ _ _ _ _ _ Hi Hj Es) as [Hi' Hr].
  destruct r' as [[]|e]; injection E as <- <-; [|eexists; rewrite orb_true_r; exact Hi'].
  exists torn. pose proof Hi' as [I1 I2 I3 I4 I5 I6 I7]. rewrite orb_false_r.
  split; cbn in *; [|done| |done|done|apply Hi|done].
  - eapply writer_ok_perm, I1. unfold job_span, ran_span. cbn. by rewrite <-!Permutation_middle.
  - intros t len [[= -> ->]|Hin]%elem_of_cons; [|by apply I3]. split; [|done].
    destruct (inv_jobs _ _ _ Hi j) as [Hne _]; [rewrite Hj; set_solver|].
    unfold zlen. destruct (job_buf j); [done|]. cbn. lia.
Qed.

Lemma inv_drop s torn σ js1 j js2 :
  sys_inv s torn σ → jobs σ = js1 ++ j :: js2 →
  ∃ torn', sys_inv s torn' (mkSys (drop_job j (wal σ)) (js1 ++ js2) (ran σ) (recs σ) (fenced σ) true).
Proof.
  intros Hi Hj. unfold drop_job. destruct (sink_write _ _ _) as [r' sk] eqn:Es.
  eexists. by apply (inv_job_written _ _ _ _ _ _ _ _ Hi Hj Es).
Qed.

Lemma inv_finish s torn σ rs1 t len rs2 :
  sys_inv s torn σ → ran σ = rs1 ++ (t, len) :: rs2 →
  sys_inv s torn (mkSys (finish_pwrite t len (wal σ)) (jobs σ) (rs1 ++ rs2) (recs σ) (fenced σ) (lost σ)).
Proof.
  intros Hi Hr. pose proof Hi as [I1 I2 I3 I4 I5 I6 I7].
  destruct (I3 t len) as [Hlen Ha]; [rewrite Hr; set_solver|].
  unfold finish_pwrite. rewrite (proj2 (Z.eqb_neq _ _)) by lia.
  pose proof (commit_io s t len (writer (wal σ))) as Hio.
  split; cbn; [|done| |done| |done|].
  - replace len with (t + len - t) by lia. apply commit_ok; [|by replace (t + len - t) with len by lia].
    eapply writer_ok_perm, I1. rewrite Hr, !fmap_app, fmap_cons, <-!(assoc_L (++)). cbn.
    by rewrite <-!Permutation_middle.
  - intros t' len' Hin. assert ((t', len') ∈ ran σ) as Hin' by (rewrite Hr; set_solver).
    split; [by eapply I3|]. apply Hio; [by eapply inv_ran_bound|by apply I3].
  - unfold framed in *. by rewrite (io_block _ _ _ Hio), (io_frame _ _ _ Hio).
  - eapply (share_ok_same (wal σ)); [done|apply Hio|done].
Qed.

(** Sink accesses between locked writes. *)
Lemma inv_drain s torn σ :
  sys_inv s torn σ → fenced σ = false →
  ∃ r l, on_writer drain_staged (wal σ) = Some (r, l) ∧
    sys_inv s torn (mkSys l (jobs σ) (ran σ) (recs σ) (is_err r) (lost σ)) ∧
    (is_err r = false → unstaged l) ∧ w_shared (writer l) = w_shared (writer (wal σ)) ∧
    inflight l = inflight (wal σ).
Proof.
  intros Hi Hnf. unfold on_writer.
  destruct (drain_staged_ok _ _ _ _ (inv_writer _ _ _ Hi)) as (r & w & -> & Hw & Hio & Hr).
  eexists _, _. split; [reflexivity|]. split; [by apply inv_io|].
  split; [by destruct r as [[]|]|]. split; [apply Hio|done].
Qed.

(** Calls on the handle that change no byte: a flush, and a sync, which leaves
    nothing dirty when it succeeds. *)
Definition sink_idle (f : Sink → Result CoreError unit * Sink) : Prop :=
  ∀ k r k', f k = (r, k') → sk_file k' = sk_file k ∧ (sk_dirty k' = sk_dirty k ∨ sk_dirty k' = []).

Lemma sink_call_idle : sink_idle sink_call.
Proof. intros k r k' E. unfold sink_call, next_io in E. repeat case_match; simplify_eq; auto. Qed.
Lemma sink_sync_idle : sink_idle sink_sync.
Proof. intros k r k' E. unfold sink_sync, next_io in E. repeat case_match; simplify_eq; cbn; auto. Qed.

Lemma inv_call f s torn σ :
  sink_idle f → sys_inv s torn σ → fenced σ = false →
  ∃ r k, f (w_sink (writer (wal σ))) = (r, k) ∧
    let l := set_writer (set_sink k (writer (wal σ))) (wal σ) in
    on_writer (op_sink f) (wal σ) = Some (r, l) ∧
    sys_inv s torn (mkSys l (jobs σ) (ran σ) (recs σ) (is_err r) (lost σ)).
Proof.
  intros Hf Hi Hnf. unfold on_writer, op_sink. destruct (f _) as [r k] eqn:Ef.
  destruct (Hf _ _ _ Ef) as [Hfile Hdirty]. exists r, k. split; [done|]. cbv zeta. split; [done|].
  apply inv_io; [done|done| |by split; cbn; unfold file; cbn; rewrite ?Hfile|done|done].
  destruct (inv_writer _ _ _ Hi) as [[] Ha]. split; [|done].
  split; unfold file in *; cbn; rewrite ?Hfile; try done. by destruct Hdirty as [->| ->].
Qed.

(** Locked sequences, as triples over the invariant. *)
Definition keeps (P : Wal → Prop) (m : WalOp unit) (Q : Wal → Prop) : Prop :=
  ∀ s torn σ r l, sys_inv s torn σ → fenced σ = false → fits (recs σ) → P (wal σ) →
    m (wal σ) = Some (r, l) →
    (∃ s' torn', sys_inv s' torn' (mkSys l (jobs σ) (ran σ) (recs σ) (is_err r) (lost σ))) ∧
    (is_err r = false → Q l).

Lemma keeps_bind P Q R m k : keeps P m Q → keeps Q k R → keeps P (wal_bind m (λ _, k)) R.
Proof.
  intros Hm Hk s torn σ r l Hi Hnf Hfits HP E. unfold wal_bind in E.
  destruct (m (wal σ)) as [[[[]|e] l1]|] eqn:E1; [| |done].
  - destruct (Hm s torn σ _ _ Hi Hnf Hfits HP E1) as [(s' & torn' & Hi') HQ].
    by apply (Hk s' torn' _ r l Hi'); [|..|apply HQ|].
  - injection E as <- <-. split; [|done]. by apply (Hm s torn σ _ _ Hi Hnf Hfits HP E1).
Qed.

Definition quiet (n : nat) (l : Wal) : Prop := no_frame l ∧ inflight l = n.
Definition drained (n : nat) (l : Wal) : Prop := quiet n l ∧ unstaged l.

Lemma keeps_write n : keeps (λ l, inflight l = n) write_pending_frame (quiet n).
Proof.
  intros s torn σ r l Hi Hnf Hfits HP E.
  destruct (inv_write s torn σ false r l Hi Hnf Hfits E) as (? & ? & Hinf). split; [done|].
  intros _. split; [done|congruence].
Qed.

Lemma frame_of_inv s torn s' torn' σ l :
  sys_inv s torn σ → fenced σ = false →
  sys_inv s' torn' (mkSys l (jobs σ) (ran σ) (recs σ) false (lost σ)) → s = s' → no_frame (wal σ) → no_frame l.
Proof.
  intros Hi Hnf Hi' <- Hno. pose proof (inv_framed _ _ _ Hi) as H1. pose proof (inv_framed _ _ _ Hi') as H2.
  rewrite Hnf in H1. cbn in H2. unfold framed in *. rewrite H1 in H2. injection H2 as _ H2.
  apply app_inv_head in H2. unfold no_frame in *. congruence.
Qed.

Lemma keeps_drain n : keeps (quiet n) (on_writer drain_staged) (drained n).
Proof.
  intros s torn σ r l Hi Hnf Hfits [Hno Hinf] E.
  destruct (inv_drain s torn σ Hi Hnf) as (r' & l' & E' & Hi' & Hun & _ & Hinf'). simplify_eq.
  split; [by eexists _, _|]. intros Hr. rewrite Hr in Hi'. split; [|by apply Hun]. split; [|congruence].
  by apply (frame_of_inv s torn s torn σ).
Qed.

Lemma keeps_call f n : sink_idle f → keeps (drained n) (on_writer (op_sink f)) (drained n).
Proof.
  intros Hf s torn σ r l Hi Hnf Hfits [[Hno Hinf] Hun] E.
  destruct (inv_call f s torn σ Hf Hi Hnf) as (r' & k & _ & E' & Hi'). simplify_eq.
  split; [by eexists _, _|]. intros Hr. by repeat split.
Qed.

(** A successful sync leaves nothing dirty. *)
Definition synced (l : Wal) : Prop := drained 0 l ∧ sk_dirty (w_sink (writer l)) = [].

Lemma keeps_sink_sync : keeps (drained 0) (on_writer (op_sink sink_sync)) synced.
Proof.
  intros s torn σ r l Hi Hnf Hfits Hd E.
  destruct (keeps_call sink_sync 0 sink_sync_idle s torn σ r l Hi Hnf Hfits Hd E) as [Hi' Hd'].
  split; [done|]. intros Hr. split; [by apply Hd'|]. clear -E Hr.
  unfold on_writer, op_sink, sink_sync, next_io in E. repeat case_match; simplify_eq; done.
Qed.

Lemma keeps_writer_flush n : keeps (quiet n) (on_writer writer_flush) (drained n).
Proof.
  intros s torn σ r l Hi Hnf Hfits HP E.
  refine (keeps_bind (quiet n) (drained n) (drained n) (on_writer drain_staged)
    (λ l, if w_shared (writer l) then Some (Ok tt, l) else on_writer (op_sink sink_call) l)
    (keeps_drain n) _ s torn σ r l Hi Hnf Hfits HP _).
  - clear. intros s torn σ r l Hi Hnf Hfits HP E. destruct (w_shared _).
    + injection E as <- <-. split; [|done]. exists s, torn. cbn. by destruct σ as [? ? ? ? []].
    + by eapply keeps_call; [apply sink_call_idle|..].
  - rewrite <-E. unfold on_writer, wal_bind, writer_flush, op_bind.
    destruct (drain_staged (writer (wal σ))) as [[[[]|e] w]|]; [|done|done]. cbn [writer set_writer].
    destruct (w_shared w); [done|]. by destruct (op_sink sink_call w) as [[]|].
Qed.

Lemma keeps_flush n : keeps (λ l, inflight l = n) wal_flush (drained n).
Proof.
  eapply keeps_bind; [apply keeps_write|]. eapply keeps_bind; [apply keeps_drain|].
  intros s torn σ r l Hi Hnf Hfits [HP _]. by apply (keeps_writer_flush n s torn σ).
Qed.

Lemma keeps_sync : keeps (λ _, True) sync_data_inner synced.
Proof.
  intros s torn σ r l Hi Hnf Hfits _ E. unfold sync_data_inner in E.
  destruct (Nat.eqb_spec (inflight (wal σ)) 0) as [H0|]; [|done].
  assert (keeps (λ l, inflight l = 0%nat)
    (wal_bind write_pending_frame (λ _, wal_bind (on_writer writer_flush)
       (λ _, on_writer (op_sink sink_sync)))) synced) as Hk.
  { eapply keeps_bind; [apply keeps_write|]. eapply keeps_bind; [apply keeps_writer_flush|apply keeps_sink_sync]. }
  exact (Hk s torn σ r l Hi Hnf Hfits H0 E).
Qed.

(** * Reachable states *)

Lemma inv_initial script staged_max want : D ≤ 0 → sys_inv [] [] (initial script staged_max want).
Proof.
  intros HD. unfold initial, create_on. match goal with |- context [reserve_space 1 ?x] => set (l0 := x) end.
  destruct (reserve_space_sink 1 l0) as (sc & p & ->).
  assert (∀ st, (∀ b, st = Some b → sb_buf b = []) → writer_ok D [] []
    (mkWriter (fresh_sink sc) (positional && want) 0 0 [] st 0 [])) as Hw.
  { intros st Hst. split; [|done]. split; cbn; try done.
    - exists []. split; [constructor|]. unfold staged_span. cbn. destruct st as [b|]; [|done].
      by rewrite decide_True by (by apply Hst).
    - constructor.
    - intros b E Hb. by destruct Hb; apply Hst. }
  split; cbn.
  - subst l0. cbn. destruct (Z.ltb 0 staged_max); apply Hw; [|done]. by intros b [= <-].
  - set_solver.
  - set_solver.
  - subst l0. done.
  - unfold framed. subst l0. cbn. by destruct (Z.ltb 0 staged_max).
  - done.
  - subst l0. unfold share_ok. cbn. by destruct (Z.ltb 0 staged_max); intros -> ->.
Qed.

Lemma step_recs σ a σ' : step σ a σ' → ∃ more, recs σ' = recs σ ++ more.
Proof. destruct 1; cbn; try (exists []; by rewrite app_nil_r); by eexists. Qed.

Lemma inv_step s torn σ a σ' :
  sys_inv s torn σ → orderly σ a → step σ a σ' → fits (recs σ') → ∃ s' torn', sys_inv s' torn' σ'.
Proof.
  intros Hi Hord Hst Hfits. destruct Hst as [σ batches encs n l Hnf He E|σ datas r l Hnf E|
    σ data r l Hnf E|σ lone r l Hnf E|σ r l Hnf E|σ op enc rec j l Hnf Hrec Henc E|
    σ js1 j js2 r l Hj E|σ js1 j js2 Hj|σ rs1 t len rs2 Hr|σ r l Hnf E|σ r l Hnf E]; cbn in Hfits, Hord.
  - exists s, torn. by eapply inv_encode.
  - unfold wal_append_records, add_records in E. destruct datas as [|d datas].
    + unfold on_writer in E. cbn in E. injection E as <- <-. rewrite app_nil_r.
      match goal with |- context [reserve_space ?n ?x] =>
        destruct (reserve_space_sink n x) as (sc & p & ->) end.
      exists s, torn. by apply (inv_set_sink s torn σ sc p).
    + eapply inv_append; [done|done|done|done|exact E].
  - unfold append_record, add_record in E. eapply inv_append; [done|done|done|done|exact E].
  - by eapply inv_write.
  - destruct (inv_take s torn σ r l Hi Hnf Hord Hfits E) as [s' Hi']. by exists s', torn.
  - destruct Hord as [Hun Hfr].
    destruct (inv_take_preframed s torn σ op enc rec j l Hi Hnf Hun Hfr Hrec Henc Hfits E) as [s' Hi'].
    by exists s', torn.
  - destruct (inv_run s torn σ js1 j js2 r l Hi Hj E) as [torn' Hi']. by exists s, torn'.
  - destruct (inv_drop s torn σ js1 j js2 Hi Hj) as [torn' Hi']. by exists s, torn'.
  - exists s, torn. by apply inv_finish.
  - by apply (keeps_flush (inflight (wal σ)) s torn σ r l Hi Hnf Hfits eq_refl).
  - by apply (keeps_sync s torn σ r l Hi Hnf Hfits I).
Qed.

Lemma run_recs ok σ σ' : rtc (move ok) σ σ' → ∃ more, recs σ' = recs σ ++ more.
Proof.
  induction 1 as [σ|σ σ1 σ' (a & _ & Hst) _ [more IH]]; [exists []; by rewrite app_nil_r|].
  destruct (step_recs _ _ _ Hst) as [m Hm]. exists (m ++ more). by rewrite IH, Hm, (assoc_L (++)).
Qed.

Lemma run_inv s torn σ σ' :
  sys_inv s torn σ → rtc (move orderly) σ σ' → fits (recs σ') → ∃ s' torn', sys_inv s' torn' σ'.
Proof.
  intros Hi Hrun. revert s torn Hi. induction Hrun as [σ|σ σ1 σ' (a & Ho & Hst) Hrun IH]; intros s torn Hi Hfits.
  { by exists s, torn. }
  destruct (run_recs _ _ _ Hrun) as [more Hm].
  destruct (inv_step _ _ _ _ _ Hi Ho Hst) as (s1 & torn1 & Hi1); [|by eapply IH].
  apply (fits_app _ more). by rewrite <-Hm.
Qed.

(** Every reserved byte is a byte of the records' layout. *)
Lemma inv_layout s torn σ fs o :
  sys_inv s torn σ → layout 0 (recs σ) fs o → ∃ rest, frames_bytes fs = s ++ rest.
Proof.
  intros Hi Hl. destruct (append_records_layout 0 (recs σ) [] ltac:(lia)) as (fs' & o' & E & Hl' & _).
  destruct (layout_functional _ _ _ _ _ _ Hl Hl') as [-> ->].
  pose proof (inv_framed _ _ _ Hi) as Hf. destruct (fenced σ).
  - destruct Hf as (o & rest & Hf). rewrite E in Hf. injection Hf as _ Hf. by exists rest.
  - unfold framed in Hf. rewrite E in Hf. injection Hf as _ Hf. by eexists.
Qed.

Lemma layout_app off rs more fs o :
  layout off (rs ++ more) fs o → ∃ fs1 fs2 o1, fs = fs1 ++ fs2 ∧ layout off rs fs1 o1 ∧ layout o1 more fs2 o.
Proof.
  revert off fs. induction rs as [|d rs IH]; intros off fs Hl; cbn [app] in Hl.
  - exists [], fs, off. split_and!; [done| |done]. constructor.
    inversion Hl; subst; [done|]. by match goal with H : plan _ _ _ _ _ |- _ => inversion H end.
  - inversion Hl as [|? ? gs o1 ? gs2 ? Hp Ho Hl']; subst.
    destruct (IH _ _ Hl') as (f1 & f2 & o2 & -> & H1 & H2).
    exists (gs ++ f1), f2, o2. rewrite (assoc_L (++)). split_and!; [done|by econstructor|done].
Qed.

(** The frames of the first records are the start of the stream, as far as it
    reaches. *)
Lemma inv_layout_prefix s torn σ rs more fs o :
  sys_inv s torn σ → recs σ = rs ++ more → layout 0 rs fs o → zlen (frames_bytes fs) ≤ zlen s →
  take (Z.to_nat (zlen (frames_bytes fs))) s = frames_bytes fs.
Proof.
  intros Hi Hm Hl Hle. destruct (append_records_layout 0 (recs σ) [] ltac:(lia)) as (fs' & o' & _ & Hl' & _).
  destruct (inv_layout _ _ _ _ _ Hi Hl') as [rest Hs]. rewrite Hm in Hl'.
  destruct (layout_app _ _ _ _ _ Hl') as (f1 & f2 & o1 & -> & Hl1 & _).
  destruct (layout_functional _ _ _ _ _ _ Hl Hl1) as [-> ->]. rewrite frames_bytes_app in Hs.
  unfold zlen in *. rewrite Nat2Z.id. apply (f_equal (take (length (frames_bytes f1)))) in Hs.
  by rewrite take_app_length, take_app_le in Hs by lia.
Qed.

(** The file below the watermark is the layout of the records, however far the
    tickets above it have come. *)
Lemma inv_watermark s torn σ k fs' o' :
  sys_inv s torn σ → layout 0 (take k (recs σ)) fs' o' →
  zlen (frames_bytes fs') ≤ position (writer (wal σ)) →
  ∃ tail, file (writer (wal σ)) = frames_bytes fs' ++ tail.
Proof.
  intros Hi Hk Hpos.
  destruct (ok_core _ _ _ _ (inv_writer _ _ _ Hi)) as [C1 C2 C3 C9 (sp & Ht & _) C5 C6 C7 C8 C10 C11].
  apply tiles_le in Ht. set (n := zlen (frames_bytes fs')) in *.
  rewrite <-(inv_layout_prefix s torn σ (take k (recs σ)) (drop k (recs σ)) fs' o' Hi); [| |done|unfold n in *; lia].
  2: { by rewrite take_drop. }
  exists (drop (Z.to_nat n) (file (writer (wal σ)))). fold n.
  rewrite <-(take_drop (Z.to_nat n) (file (writer (wal σ)))) at 1. f_equal.
  apply agree_prefix; [lia|]. intros i Hi'. apply C6. lia.
Qed.

(** With no ticket in flight and nothing buffered or torn, the file is the
    stream. *)
Lemma inv_complete s σ :
  sys_inv s [] σ → jobs σ = [] → unstaged (wal σ) → file (writer (wal σ)) = s.
Proof.
  intros Hi Hj Hun. pose proof Hi as [I1 I2 I3 I4 I5 I6 I7].
  destruct (ok_core _ _ _ _ I1) as [C1 C2 C3 C9 (sp & Ht & Hp) C5 C6 C7 C8 C10 C11].
  rewrite Hj, Hun, app_nil_r in Hp. cbn in Hp. set (f := file (writer (wal σ))) in *.
  assert (∀ t e, (t, e) ∈ sp → agree t e f s) as Hall.
  { intros t e Hin. rewrite Hp in Hin. apply elem_of_app in Hin as [Hin|Hin]; [by apply C7|].
    apply list_elem_of_fmap in Hin as ([t' len] & [= -> ->] & Hin). by apply I3. }
  assert (agree (position (writer (wal σ))) (reserved_to (writer (wal σ))) f s) as Ha.
  { clear -Ht Hall. induction Ht as [p|p q sp r Hpq Ht IH]; [intros i; lia|].
    eapply agree_join; [apply (Hall p q); set_solver|]. apply IH. intros t e Hin. apply Hall. set_solver. }
  pose proof (agree_join _ _ _ _ _ C6 Ha) as Hag. rewrite C2 in Hag. unfold zlen in *.
  apply agree_prefix in Hag; [|unfold zlen; lia]. rewrite Nat2Z.id in Hag.
  rewrite !take_ge in Hag by lia. done.
Qed.

(** The file as a reader sees it is always one of its crash images' upper
    bounds: where nothing below [D] is dirty, a crash keeps the stream there. *)
Lemma inv_crash s torn σ f :
  sys_inv s torn σ → 0 ≤ D → crash_image (w_sink (writer (wal σ))) f →
  ∃ tail, f = take (Z.to_nat D) s ++ tail.
Proof.
  intros Hi HD [_ Hf]. destruct (ok_core _ _ _ _ (inv_writer _ _ _ Hi)) as
    [C1 C2 C3 C9 _ C5 C6 C7 C8 [C10 C10'] C11].
  exists (drop (Z.to_nat D) f). rewrite <-(take_drop (Z.to_nat D) f) at 1. f_equal.
  apply agree_prefix; [done|]. intros i Hi'. unfold zlen in C10.
  assert (is_Some (s !! i)) as [b Hb] by (apply lookup_lt_is_Some; lia).
  rewrite Hb. apply Hf; [by rewrite <-Hb; apply C10'|].
  eapply Forall_impl; [exact C11|]. cbn. lia.
Qed.
End durable.

Lemma fits_layout rs fs o : layout 0 rs fs o → zlen (frames_bytes fs) ≤ U64_MAX → fits rs.
Proof.
  intros Hl Hle o' x E. destruct (append_records_layout 0 rs [] ltac:(lia)) as (fs' & o2 & E' & Hl' & _).
  destruct (layout_functional _ _ _ _ _ _ Hl Hl') as [-> ->]. rewrite E in E'. by injection E' as _ ->.
Qed.

Lemma reachable_inv σ : reachable orderly σ → fits (recs σ) → ∃ s torn, sys_inv 0 s torn σ.
Proof. intros (sc & m & want & Hrun). eapply run_inv; [by apply inv_initial|done]. Qed.

Lemma reachable_move ok σ σ' : reachable ok σ → move ok σ σ' → reachable ok σ'.
Proof. intros (sc & m & want & Hr) Hm. exists sc, m, want. by eapply rtc_r. Qed.

(** Once everything is synced, the sync point can be raised to the frontier. *)
Lemma inv_raise D s σ :
  sys_inv D s [] σ → jobs σ = [] → synced (wal σ) → sys_inv (zlen s) s [] σ.
Proof.
  intros Hi Hj [[_ Hun] Hclean]. pose proof (inv_complete _ _ _ Hi Hj Hun) as Hfile.
  pose proof Hi as [[[C1 C2 C3 C9 C4 C5 C6 C7 C8 C10 C11] Ha] I2 I3 I4 I5 I6 I7].
  split; try done; [|rewrite Hj; set_solver]. split; [|done]. split; try done.
  - intros st Est Hne. unfold unstaged, staged_span in Hun. by rewrite Est, decide_False in Hun.
  - split; [done|]. by rewrite Hfile.
  - by rewrite Hclean.
Qed.
End system.

(** A sink with nothing dirty has one crash image. *)
Lemma crash_clean sk f : sk_dirty sk = [] → crash_image sk f → f = sk_file sk.
Proof.
  unfold crash_image, sk_high, zlen. intros -> [Hlen Hf]. cbn in Hlen. apply list_eq. intros i.
  destruct (sk_file sk !! i) as [b|] eqn:E; [by apply Hf|].
  apply lookup_ge_None in E. apply lookup_ge_None. lia.
Qed.

(** After a barrier the file is the layout of the records, all of it durable. *)
Lemma sync_layout `{Crc32c} positional σ fs o l :
  reachable positional orderly σ → layout 0 (recs σ) fs o → fits (recs σ) →
  fenced σ = false → lost σ = false → sync_data_inner (wal σ) = Some (Ok tt, l) →
  file (writer l) = frames_bytes fs ∧ sk_dirty (w_sink (writer l)) = [] ∧
  let σ' := mkSys l (jobs σ) (ran σ) (recs σ) false false in
  sys_inv positional (zlen (frames_bytes fs)) (frames_bytes fs) [] σ'.
Proof.
  intros Hr Hl Hfits Hnf Hnl E. destruct (reachable_inv _ _ Hr Hfits) as (s & torn & Hi).
  destruct (keeps_sync _ _ s torn σ _ _ Hi Hnf Hfits I E) as [(s' & torn' & Hi') Hd].
  pose proof (Hd eq_refl) as Hs. destruct Hs as [[[Hno Hinf] Hun] Hclean]. cbn [is_err] in Hi'.
  assert (torn' = []) as -> by (by apply (inv_torn _ _ _ _ _ Hi')).
  assert (jobs σ = []) as Hj by (apply nil_length_inv; pose proof (inv_inflight _ _ _ _ _ Hi'); cbn in *; congruence).
  pose proof (inv_complete _ _ _ _ Hi' Hj Hun) as Hfile. cbn in Hfile.
  pose proof (inv_framed _ _ _ _ _ Hi') as Hf. cbn in Hf. unfold framed in Hf. rewrite Hno, app_nil_r in Hf.
  destruct (append_records_layout 0 (recs σ) [] ltac:(lia)) as (fs' & o2 & E' & Hl' & _).
  destruct (layout_functional _ _ _ _ _ _ Hl Hl') as [-> ->]. rewrite Hf in E'. injection E' as _ Hs.
  cbn in Hs. rewrite <-Hs. split; [done|]. split; [done|]. cbv zeta. rewrite Hnl in Hi'.
  by eapply inv_raise; [exact Hi'|done|].
Qed.

(** What the barrier makes durable: right after it every crash leaves exactly
    the records, and whatever happens later, crashes keep them first. *)
Lemma sync_recovered `{Crc32c} positional σ l :
  reachable positional orderly σ → fits (recs σ) → log_readable (recs σ) →
  fenced σ = false → lost σ = false → sync_data_inner (wal σ) = Some (Ok tt, l) →
  (∀ f sched, crash_image (w_sink (writer l)) f →
     ∃ r, collect_all (reader_new (mkSrc f sched)) = Some (Ok (recs σ), r)) ∧
  (∀ σ' f sched, rtc (move positional orderly) (mkSys l (jobs σ) (ran σ) (recs σ) false false) σ' →
     fits (recs σ') → crash_image (w_sink (writer (wal σ'))) f →
     ∃ more err r, collect_prefix_all (reader_new (mkSrc f sched)) = Some (recs σ ++ more, err, r)).
Proof.
  intros Hr Hfits (fs & o & Hl & Hrd) Hnf Hnl E.
  destruct (sync_layout _ _ _ _ _ Hr Hl Hfits Hnf Hnl E) as (Hfile & Hclean & Hi). cbv zeta in Hi. split.
  - intros f sched Hf. apply (crash_clean _ _ Hclean) in Hf as ->. unfold file in Hfile. rewrite Hfile.
    destruct (layout_recovers _ _ _ sched 0 Hl Hrd) as (r & Hc & _). rewrite app_nil_r in Hc. by exists r.
  - intros σ' f sched Hrun Hfits' Hf.
    destruct (run_inv _ _ _ _ _ _ Hi Hrun Hfits') as (s' & torn' & Hi').
    destruct (inv_crash _ _ _ _ _ f Hi' ltac:(unfold zlen; lia) Hf) as [tail ->].
    destruct (run_recs _ _ _ _ Hrun) as [more Hm]. cbn [recs] in Hm.
    rewrite (inv_layout_prefix _ _ _ _ _ _ _ _ _ Hi' Hm Hl); [by eapply layout_recovers_prefix|].
    apply (ok_core _ _ _ _ (inv_writer _ _ _ _ _ Hi')).
Qed.

(** * The watermark moves *)

Lemma inv_frontier `{Crc32c} positional D s σ :
  sys_inv positional D s [] σ → unstaged (wal σ) → jobs σ = [] → ran σ = [] →
  position (writer (wal σ)) = reserved_to (writer (wal σ)).
Proof.
  intros Hi E1 E2 E3. destruct (inv_writer _ _ _ _ _ Hi) as [Hc Ha].
  destruct (core_tiles _ _ _ _ Hc) as (sp & Ht & Hp). inversion Ht as [|p q sp' r Hpq Ht']; subst; [done|].
  exfalso. unfold unstaged in E1. rewrite E1, E2, E3, app_nil_r in Hp. cbn in Hp.
  assert ((position (writer (wal σ)), q) ∈ completed_pwrite_intervals (writer (wal σ))) as Hin
    by (rewrite <-Hp; set_solver).
  apply om_get_elem in Hin; [congruence|apply Hc].
Qed.

Section settle.
Context `{Crc32c} (positional : bool).
Implicit Types σ : Sys.

(** Nothing failed and no failure is to come. *)
Definition unfailed σ : Prop := fenced σ = false ∧ lost σ = false.
Definition calm σ : Prop := unfailed σ ∧ healthy (writer (wal σ)).

Lemma settle_jobs σ :
  calm σ → ∃ σ', rtc (move positional orderly) σ σ' ∧ calm σ' ∧ jobs σ' = [] ∧ recs σ' = recs σ.
Proof.
  remember (jobs σ) as js eqn:Ej. revert σ Ej. induction js as [|j js IH]; intros σ Ej Hσ.
  { by exists σ. }
  destruct Hσ as [[Hf Hl] Hh].
  assert (∃ l, run_job j (wal σ) = Some (Ok (job_ticket j, zlen (job_buf j)), l) ∧ healthy (writer l))
    as (l & E & Hh').
  { unfold run_job, sink_write, next_io. rewrite Hh. by eexists. }
  set (σ1 := mkSys l js ((job_ticket j, zlen (job_buf j)) :: ran σ) (recs σ) (fenced σ) (lost σ)).
  destruct (IH σ1) as (σ' & Hrun & Hσ' & Hj & Hr); [done|by repeat split|].
  exists σ'. split; [|done]. eapply rtc_l; [|exact Hrun]. exists ActRun. split; [done|].
  pose proof (step_run positional σ [] j js _ l (eq_sym Ej) E) as Hst. cbn in Hst. by rewrite orb_false_r in Hst.
Qed.

Lemma settle_ran σ :
  calm σ → jobs σ = [] →
  ∃ σ', rtc (move positional orderly) σ σ' ∧ calm σ' ∧ jobs σ' = [] ∧ ran σ' = [] ∧ recs σ' = recs σ.
Proof.
  remember (ran σ) as rs eqn:Er. revert σ Er. induction rs as [|[t len] rs IH]; intros σ Er Hσ Hj.
  { by exists σ. }
  destruct Hσ as [[Hf Hl] Hh].
  set (σ1 := mkSys (finish_pwrite t len (wal σ)) (jobs σ) rs (recs σ) (fenced σ) (lost σ)).
  destruct (IH σ1) as (σ' & Hrun & Hσ' & Hrest); [done| |done|].
  { repeat split; [done..|]. unfold σ1, finish_pwrite. cbn. destruct (len =? 0); [done|].
    unfold healthy. cbn. by rewrite commit_sink. }
  exists σ'. split; [|done]. eapply rtc_l; [|exact Hrun]. exists ActFinish. split; [done|].
  apply (step_finish positional σ [] t len rs). done.
Qed.

(** Running the tickets, committing them and flushing is always possible and
    brings the watermark to the frontier. *)
Lemma settles σ s torn D :
  sys_inv positional D s torn σ → fits (recs σ) → calm σ →
  ∃ σ', rtc (move positional orderly) σ σ' ∧ recs σ' = recs σ ∧ unfailed σ' ∧
    jobs σ' = [] ∧ ran σ' = [] ∧ no_frame (wal σ') ∧ unstaged (wal σ').
Proof.
  intros Hi Hfits Hσ. destruct (settle_jobs σ Hσ) as (σ1 & R1 & Hσ1 & J1 & E1).
  destruct (settle_ran σ1 Hσ1 J1) as (σ2 & R2 & [[Hf2 Hl2] Hh2] & J2 & N2 & E2).
  destruct (flush_succeeds (wal σ2) Hh2) as (l & E & Hh3).
  assert (recs σ2 = recs σ) as Erecs by congruence.
  destruct (run_inv _ _ _ _ _ σ2 Hi) as (s2 & torn2 & Hi2); [by etrans|by rewrite Erecs|].
  destruct (keeps_flush _ _ (inflight (wal σ2)) s2 torn2 σ2 (Ok tt) l Hi2 Hf2) as [_ Hd]; [by rewrite Erecs|done|done|].
  destruct (Hd eq_refl) as [[Hno _] Hun].
  exists (mkSys l (jobs σ2) (ran σ2) (recs σ2) false (lost σ2)). split; [|by repeat split].
  etrans; [exact R1|]. etrans; [exact R2|]. apply rtc_once. exists ActFlush. split; [done|].
  by apply (step_flush positional σ2 (Ok tt) l).
Qed.
End settle.

(** * Claims *)

(** C1: the sync barrier. In a run of the log in which no write failed and no
    job was dropped, whose callers are [orderly] and whose records are readable
    ([log_readable]) and fit 64-bit offsets, a successful [sync_data] makes all
    records handed to the log so far durable, however they got there (encoded,
    appended, staged or ticketed). A crash right after it leaves a file from
    which recovery returns exactly those records; a crash after any further
    orderly calls, failed ones included, leaves a file whose recovery yields
    those records first. *)
Theorem sync_recovers_all `{Crc32c} positional σ l :
  reachable positional orderly σ → fits (recs σ) → log_readable (recs σ) →
  fenced σ = false → lost σ = false → sync_data_inner (wal σ) = Some (Ok tt, l) →
  (∀ f sched, crash_image (w_sink (writer l)) f →
     ∃ r, collect_all (reader_new (mkSrc f sched)) = Some (Ok (recs σ), r)) ∧
  (∀ σ' f sched, rtc (move positional orderly) (mkSys l (jobs σ) (ran σ) (recs σ) false false) σ' →
     fits (recs σ') → crash_image (w_sink (writer (wal σ'))) f →
     ∃ more err r, collect_prefix_all (reader_new (mkSrc f sched)) = Some (recs σ ++ more, err, r)).
Proof. apply sync_recovered. Qed.

(** C2: what the watermark means while the machine is up. In any orderly run,
    whichever writes failed, were dropped or are still in flight, the first [k]
    records, readable and with frames that end at or below the drained watermark
    [position], are what recovery of the file as it is at that moment yields
    first, in the order of the log. *)
Theorem watermark_recovered `{Crc32c} positional σ k fs o sched :
  reachable positional orderly σ → fits (recs σ) →
  layout 0 (take k (recs σ)) fs o → frames_readable fs →
  zlen (frames_bytes fs) ≤ position (writer (wal σ)) →
  ∃ more err r, collect_prefix_all (reader_new (mkSrc (file (writer (wal σ))) sched)) =
    Some (take k (recs σ) ++ more, err, r).
Proof.
  intros Hr Hfits Hk Hrd Hpos. destruct (reachable_inv _ _ Hr Hfits) as (s & torn & Hi).
  destruct (inv_watermark _ _ _ _ _ _ _ _ Hi Hk Hpos) as [tail ->].
  by eapply layout_recovers_prefix.
Qed.

(** C33: the watermark does not stall. From any state of an orderly run in
    which nothing failed, if the sink answers the calls still to come, the
    tickets can be run and committed and the log flushed, by steps that are all
    enabled, and then the watermark is the reservation frontier and the file is
    the layout of all records handed to the log. In whatever other order the
    pending writes complete, as long as nothing fails, the watermark is the
    frontier once none is left. *)
Theorem watermark_reaches_frontier `{Crc32c} positional σ :
  reachable positional orderly σ → fits (recs σ) → fenced σ = false → lost σ = false →
  (sk_script (w_sink (writer (wal σ))) = [] →
   ∃ σ' o, rtc (move positional orderly) σ σ' ∧ recs σ' = recs σ ∧ jobs σ' = [] ∧ ran σ' = [] ∧
     position (writer (wal σ')) = reserved_to (writer (wal σ')) ∧
     append_records 0 (recs σ) [] = Some (o, file (writer (wal σ')))) ∧
  (∀ σ', rtc (move positional orderly) σ σ' → fits (recs σ') → fenced σ' = false → lost σ' = false →
     jobs σ' = [] → ran σ' = [] → staged_span (writer (wal σ')) = [] →
     position (writer (wal σ')) = reserved_to (writer (wal σ'))).
Proof.
  intros Hr Hfits Hnf Hnl. destruct (reachable_inv _ _ Hr Hfits) as (s & torn & Hi). split.
  - intros Hsc. destruct (settles _ _ _ _ _ Hi Hfits ltac:(by repeat split))
      as (σ' & Hrun & Er & [Hf Hl] & Hj & Hn & Hno & Hun).
    destruct (run_inv _ _ _ _ _ _ Hi Hrun) as (s' & torn' & Hi'); [by rewrite Er|].
    rewrite (inv_torn _ _ _ _ _ Hi' Hf Hl) in Hi'. pose proof (inv_framed _ _ _ _ _ Hi') as Hfr.
    rewrite Hf, Er in Hfr. unfold framed in Hfr. rewrite Hno, app_nil_r in Hfr.
    eexists σ', _. split_and!; [done..|by eapply inv_frontier|].
    by rewrite (inv_complete _ _ _ _ Hi' Hj Hun).
  - intros σ' Hrun Hfits' Hf Hl Hj Hn Hun. destruct (run_inv _ _ _ _ _ _ Hi Hrun Hfits') as (s' & torn' & Hi').
    rewrite (inv_torn _ _ _ _ _ Hi' Hf Hl) in Hi'. by eapply inv_frontier.
Qed.

(** * Running the system *)

#[export] Instance orderly_dec σ a : Decision (orderly σ a).
Proof. unfold orderly, no_frame, unstaged. destruct a; apply _. Defined.

(** The steps as an executable schedule. *)
Inductive Event :=
| EvEncode (ops : list WriteOp)
| EvWrite (lone : bool)
| EvTake
| EvPreframed (op : WriteOp)
| EvRun (i : nat)
| EvFinish (i : nat).

Definition act_of (e : Event) : Act :=
  match e with
  | EvEncode _ => ActEncode
  | EvWrite _ => ActWrite
  | EvTake => ActTake
  | EvPreframed _ => ActPreframed
  | EvRun _ => ActRun
  | EvFinish _ => ActFinish
  end.

Definition exec `{Crc32c} (e : Event) (σ : Sys) : option Sys :=
  match e with
  | EvEncode ops =>
      if fenced σ then None else
      enc ← encode_ops ops [];
      match encode_write_op_batches [ops] (wal σ) with
      | Some (Ok _, l) => Some (mkSys l (jobs σ) (ran σ) (recs σ ++ [enc]) false (lost σ))
      | _ => None
      end
  | EvWrite lone =>
      if fenced σ then None else
      '(r, l) ← write_pending_inner lone (wal σ);
      Some (mkSys l (jobs σ) (ran σ) (recs σ) (is_err r) (lost σ))
  | EvTake =>
      if fenced σ then None else
      '(r, l) ← take_pwrite_job true (wal σ);
      Some (mkSys l (match r with Ok j => option_list j | Err _ => [] end ++ jobs σ) (ran σ) (recs σ)
              (is_err r) (lost σ))
  | EvPreframed op =>
      if fenced σ then None else
      rec ← encode_one_op_full_detached op; enc ← encode_ops [op] [];
      match take_preframed_pwrite_job true rec (wal σ) with
      | Some (Ok j, l) => Some (mkSys l (option_list j ++ jobs σ) (ran σ)
          (recs σ ++ match j with Some _ => [enc] | None => [] end) false (lost σ))
      | _ => None
      end
  | EvRun i =>
      j ← jobs σ !! i; '(r, l) ← run_job j (wal σ);
      Some (mkSys l (take i (jobs σ) ++ drop (S i) (jobs σ))
        (match r with Ok tl => tl :: ran σ | Err _ => ran σ end) (recs σ) (fenced σ) (lost σ || is_err r))
  | EvFinish i =>
      '(t, len) ← ran σ !! i;
      Some (mkSys (finish_pwrite t len (wal σ)) (jobs σ) (take i (ran σ) ++ drop (S i) (ran σ))
              (recs σ) (fenced σ) (lost σ))
  end.

Lemma exec_step `{Crc32c} e σ σ' : exec e σ = Some σ' → step true σ (act_of e) σ'.
Proof.
  destruct e as [ops|lone| |op|i|i]; cbn [exec act_of]; intros E.
  - destruct (fenced σ) eqn:Ef; [done|]. destruct (encode_ops ops []) as [enc|] eqn:Ee; [|done].
    cbn [mbind option_bind] in E. destruct (encode_write_op_batches _ _) as [[[n|]l]|] eqn:Eb; [|done..].
    injection E as <-. eapply step_encode; [done| |exact Eb]. by repeat constructor.
  - destruct (fenced σ) eqn:Ef; [done|]. destruct (write_pending_inner _ _) as [[r l]|] eqn:Ew; [|done].
    injection E as <-. by eapply step_write.
  - destruct (fenced σ) eqn:Ef; [done|]. destruct (take_pwrite_job _ _) as [[r l]|] eqn:Et; [|done].
    injection E as <-. by apply step_take.
  - destruct (fenced σ) eqn:Ef; [done|]. destruct (encode_one_op_full_detached op) as [rec|] eqn:Ed; [|done].
    cbn [mbind option_bind] in E. destruct (encode_ops [op] []) as [enc|] eqn:Ee; [|done].
    destruct (take_preframed_pwrite_job _ _ _) as [[[j|]l]|] eqn:Et; [|done..].
    injection E as <-. by eapply step_take_preframed.
  - destruct (jobs σ !! i) as [j|] eqn:Ej; [|done]. cbn [mbind option_bind] in E.
    destruct (run_job j (wal σ)) as [[r l]|] eqn:Er; [|done]. injection E as <-.
    eapply step_run; [|done]. by rewrite take_drop_middle.
  - destruct (ran σ !! i) as [[t len]|] eqn:Ej; [|done]. injection E as <-.
    eapply step_finish. by rewrite take_drop_middle.
Qed.

(** A schedule under a discipline: it stops at a step that breaks it. *)
Definition exec_all `{Crc32c} (ok : Sys → Act → Prop) `{∀ σ a, Decision (ok σ a)} (es : list Event) (σ : Sys)
    : option Sys :=
  foldl (λ acc e, σ ← acc; if decide (ok σ (act_of e)) then exec e σ else None) (Some σ) es.

Lemma exec_all_run `{Crc32c} ok `{∀ σ a, Decision (ok σ a)} es σ σ' :
  exec_all ok es σ = Some σ' → rtc (move true ok) σ σ'.
Proof.
  unfold exec_all. revert σ. induction es as [|e es IH]; cbn [foldl]; intros σ E; [by injection E as <-|].
  cbn [mbind option_bind] in E. case_decide as Ho.
  1: destruct (exec e σ) as [σ1|] eqn:E1.
  1: { eapply rtc_l; [|by apply IH]. exists (act_of e). split; [done|by apply exec_step]. }
  all: exfalso; clear -E; induction es as [|e' es IH]; [done|by apply IH].
Qed.

Lemma exec_reachable `{Crc32c} ok `{∀ σ a, Decision (ok σ a)} es script m want σ :
  exec_all ok es (initial true script m want) = Some σ → reachable true ok σ.
Proof. intros E. exists script, m, want. by eapply exec_all_run. Qed.

#[export] Instance anything_dec σ a : Decision (anything σ a).
Proof. left. exact I. Defined.

(** Two tickets, written and committed in the opposite order of their offsets. *)
Definition demo_events : list Event :=
  [EvEncode [op_put 1 [x61] (mkBytes 7 [x70])]; EvTake; EvEncode [op_put 2 [x62] (mkBytes 8 [x71; x71])];
   EvTake; EvRun 0; EvFinish 0; EvRun 0; EvFinish 0].

Definition run_from `{Crc32c} (ok : Sys → Act → Prop) `{∀ σ a, Decision (ok σ a)} (script : list Outcome)
    (es : list Event) : Sys :=
  default (initial true script 65536 true) (exec_all ok es (initial true script 65536 true)).

Lemma run_from_reachable `{Crc32c} ok `{∀ σ a, Decision (ok σ a)} script es :
  bool_decide (is_Some (exec_all ok es (initial true script 65536 true))) = true →
  reachable true ok (run_from ok script es).
Proof.
  intros [σ E]%bool_decide_eq_true. unfold run_from. rewrite E. by eapply exec_reachable.
Qed.

Definition demo : Sys := @run_from crc32c_bitwise orderly _ [] demo_events.
(** The same, stopped when only the second ticket is committed. *)
Definition demo_midway : Sys := @run_from crc32c_bitwise orderly _ [] (take 6 demo_events).

Lemma demo_reachable : @reachable crc32c_bitwise true orderly demo.
Proof. apply (@run_from_reachable crc32c_bitwise orderly). vm_compute. reflexivity. Qed.

Lemma demo_midway_reachable : @reachable crc32c_bitwise true orderly demo_midway.
Proof. apply (@run_from_reachable crc32c_bitwise orderly). vm_compute. reflexivity. Qed.

Definition demo_fs : list Frame := mkFrame 0 RFull <$> recs demo.

Lemma demo_layout : layout 0 (recs demo) demo_fs 63%nat.
Proof.
  pose proof BLOCK_SIZE_val. unfold demo_fs.
  assert (∃ a b, recs demo = [a; b] ∧ length a = 24%nat ∧ length b = 25%nat) as (a & b & -> & Ha & Hb)
    by (eexists _, _; split; [vm_compute; reflexivity|split; vm_compute; reflexivity]).
  cbn [fmap list_fmap]. apply layout_full; [unfold HEADER_SIZE; lia|].
  apply layout_full; [unfold HEADER_SIZE; lia|]. unfold HEADER_SIZE. rewrite Ha, Hb.
  apply layout_nil. lia.
Qed.

Lemma demo_readable : @frames_readable crc32c_bitwise demo_fs.
Proof.
  let x := eval vm_compute in demo_fs in change demo_fs with x.
  repeat constructor; vm_compute; discriminate.
Qed.

Lemma demo_log_readable : @log_readable crc32c_bitwise (recs demo).
Proof. exists demo_fs, 63%nat. split; [exact demo_layout|exact demo_readable]. Qed.

Lemma demo_fits : @fits crc32c_bitwise (recs demo).
Proof. apply (@fits_layout crc32c_bitwise _ demo_fs 63%nat demo_layout). vm_compute. discriminate. Qed.

Lemma watermark_recovered_witness :
  position (writer (wal demo)) = 63 ∧
  ∃ more err r, @collect_prefix_all crc32c_bitwise
      (reader_new (mkSrc (file (writer (wal demo))) [3%nat])) = Some (take 2 (recs demo) ++ more, err, r).
Proof.
  split; [vm_compute; reflexivity|].
  exact (@watermark_recovered crc32c_bitwise true demo 2 demo_fs 63%nat [3%nat]
           demo_reachable demo_fits demo_layout demo_readable ltac:(vm_compute; discriminate)).
Defined.

Definition demo_synced : Wal :=
  match sync_data_inner (wal demo) with Some (_, l) => l | None => wal demo end.

(** The synced log, and the log after one more record is encoded and written
    without a sync. *)
Definition demo_after : Sys := mkSys demo_synced (jobs demo) (ran demo) (recs demo) false false.
Definition demo_later : Sys :=
  default demo_after
    (@exec_all crc32c_bitwise orderly _ [EvEncode [op_put 3 [x63] (mkBytes 9 [x72])]; EvWrite true] demo_after).

Lemma sync_recovers_all_witness :
  sync_data_inner (wal demo) = Some (Ok tt, demo_synced) ∧
  (∃ r, @collect_all crc32c_bitwise (reader_new (mkSrc (sk_file (w_sink (writer demo_synced))) [])) =
     Some (Ok (recs demo), r)) ∧
  (∃ more err r, @collect_prefix_all crc32c_bitwise
     (reader_new (mkSrc (take 70 (sk_file (w_sink (writer (wal demo_later))))) [])) =
     Some (recs demo ++ more, err, r)).
Proof.
  assert (sync_data_inner (wal demo) = Some (Ok tt, demo_synced)) as E by (vm_compute; reflexivity).
  split; [exact E|].
  destruct (@sync_recovers_all crc32c_bitwise true demo demo_synced demo_reachable demo_fits
              demo_log_readable eq_refl eq_refl E) as [H1 H2]. split.
  - apply H1. split; [vm_compute; discriminate|]. intros i b Hb _. exact Hb.
  - apply (H2 demo_later).
    + apply (@exec_all_run crc32c_bitwise orderly _ [EvEncode [op_put 3 [x63] (mkBytes 9 [x72])]; EvWrite true]).
      vm_compute. reflexivity.
    + apply (@fits_computed crc32c_bitwise _ 94 (sk_file (w_sink (writer (wal demo_later)))));
        vm_compute; [reflexivity|discriminate].
    + split; [vm_compute; discriminate|]. intros i b Hb Hcl.
      destruct (decide (i < 63)%nat) as [Hi|Hi]; [by rewrite lookup_take_lt by lia|]. exfalso.
      apply lookup_lt_Some in Hb. assert (length (sk_file (w_sink (writer (wal demo_later)))) = 94%nat) as Hl
        by (vm_compute; reflexivity). rewrite Hl in Hb.
      assert (sk_dirty (w_sink (writer (wal demo_later))) = [(63, 94)]) as Hd by (vm_compute; reflexivity).
      rewrite Hd in Hcl. apply Forall_cons in Hcl as [Hcl _]. apply Hcl. cbn. lia.
Defined.

Lemma watermark_reaches_frontier_witness :
  position (writer (wal demo_midway)) = 0 ∧ reserved_to (writer (wal demo_midway)) = 63 ∧
  ∃ σ' o, rtc (@move crc32c_bitwise true orderly) demo_midway σ' ∧ recs σ' = recs demo_midway ∧ jobs σ' = [] ∧
    ran σ' = [] ∧ position (writer (wal σ')) = reserved_to (writer (wal σ')) ∧
    @append_records crc32c_bitwise 0 (recs demo_midway) [] = Some (o, file (writer (wal σ'))).
Proof.
  split; [vm_compute; reflexivity|]. split; [vm_compute; reflexivity|].
  apply (@watermark_reaches_frontier crc32c_bitwise true demo_midway demo_midway_reachable demo_fits
           eq_refl eq_refl). vm_compute. reflexivity.
Defined.

(** * What the discipline and the absence of failures are needed for

    [take_pwrite_job] and [take_preframed_pwrite_job] do not check [orderly];
    in these runs of the same steps every call returns [Ok], so every writer is
    told its record is in the log. *)

Definition race_op (k : Z) (v : list byte) : WriteOp := op_put k [x61] (mkBytes 7 v).

(** What a recovery of the file returns. *)
Definition recovered (l : Wal) : option (Result CoreError (list (list byte))) :=
  fst <$> @collect_all crc32c_bitwise (reader_new (mkSrc (file (writer l)) [])).

Definition synced_of (σ : Sys) : option Wal :=
  match sync_data_inner (wal σ) with Some (Ok _, l) => Some l | _ => None end.

(** Writer A stages, B takes and completes a ticket, A stages again, then the
    log is synced. *)
Definition staged_race : Sys :=
  @run_from crc32c_bitwise anything _ []
    [EvEncode [race_op 1 [x70]]; EvWrite false; EvEncode [race_op 2 [x71]]; EvTake; EvRun 0; EvFinish 0;
     EvEncode [race_op 3 [x72]]; EvWrite false].

(** Recovery then finds the first and the third record and no error: the bytes
    of the acknowledged second record were overwritten by the drain of the
    staged buffer, which no longer is one span. *)
Theorem staged_drain_overwrites_ticket :
  @reachable crc32c_bitwise true anything staged_race ∧
  fenced staged_race = false ∧ lost staged_race = false ∧
  ∃ e1 e2 e3, recs staged_race = [e1; e2; e3] ∧
    (l ← synced_of staged_race; recovered l) = Some (Ok [e1; e3]).
Proof.
  split; [|split_and!; [vm_compute; reflexivity..|]].
  - apply (@run_from_reachable crc32c_bitwise anything). vm_compute. reflexivity.
  - eexists _, _, _. split; [vm_compute; reflexivity|vm_compute; reflexivity].
Qed.

(** A leader encodes a batch that straddles a block boundary; before it takes
    its ticket, another writer's pre-framed record takes one. *)
Definition preframed_race_events : list Event :=
  [EvEncode [race_op 1 (replicate (BLOCK_SIZE - 90) x70)]; EvWrite true;
   EvEncode [race_op 2 (replicate 100 x71)]; EvPreframed (race_op 3 [x72]); EvTake;
   EvRun 1; EvFinish 0; EvRun 0; EvFinish 0].
Definition preframed_race : Sys := @run_from crc32c_bitwise anything _ [] preframed_race_events.

(** All three writers and the sync were told [Ok], the watermark is at the
    frontier, and strict recovery stops with an orphan fragment: the frames are
    laid out for another order than the one their tickets fix. *)
Theorem preframed_ticket_overtakes_frame :
  @reachable crc32c_bitwise true anything preframed_race ∧
  fenced preframed_race = false ∧ lost preframed_race = false ∧
  (position (writer (wal preframed_race)) =? reserved_to (writer (wal preframed_race))) = true ∧
  (l ← synced_of preframed_race; recovered l) =
    Some (Err (Internal [Lit "WAL orphan "; Lit "Last"; Lit " fragment at offset "; Num 32876])).
Proof.
  split; [|split_and!; vm_compute; reflexivity].
  apply (@run_from_reachable crc32c_bitwise anything). vm_compute. reflexivity.
Qed.

(** A ticket whose write fails; the single-operation path reports the error
    and goes on, so the next writer's record lands past the gap. The first two
    outcomes are the preallocation of a new log. *)
Definition failed_ticket_events : list Event :=
  [EvEncode [race_op 1 [x70]]; EvTake; EvRun 0; EvEncode [race_op 2 [x71]]; EvTake; EvRun 0; EvFinish 0].
Definition failed_ticket : Sys :=
  @run_from crc32c_bitwise orderly _ [IoOk; IoOk; IoErr 0] failed_ticket_events.

(** The second record was acknowledged and synced, and recovery, strict or
    keeping the prefix, returns nothing: it meets the gap first. *)
Theorem record_after_failed_ticket_lost :
  @reachable crc32c_bitwise true orderly failed_ticket ∧
  fenced failed_ticket = false ∧ lost failed_ticket = true ∧ length (recs failed_ticket) = 2%nat ∧
  (l ← synced_of failed_ticket; recovered l) = Some (Err (WalZeroHeader 0)) ∧
  (l ← synced_of failed_ticket;
   fst <$> @collect_prefix_all crc32c_bitwise (reader_new (mkSrc (file (writer l)) []))) =
    Some ([], Some (WalZeroHeader 0)).
Proof.
  split; [|split_and!; vm_compute; reflexivity].
  apply (@run_from_reachable crc32c_bitwise orderly). vm_compute. reflexivity.
Qed.
