(* ===== verification/Bloom.v ===== *)
(** Bloom filters of tables: [bloom_kernel.rs] and [filter_partition_kernel.rs].

    A filter is one bit array, or [nparts] of them selected by the first hash.
    The builder's partitions live in [loaded]; a frozen or decoded filter keeps
    their encodings and decodes a partition when it is first probed (the cell
    that remembers the decoded value is left out: it only holds what decoding
    gives). An index out of range is a panic ([None]). *)

From S2P Require Import Prelude.

Local Open Scope Z_scope.

(** * Sizes *)

Definition FILTER_PART_MAGIC : Z := 0xFFFFFFFE.
Definition DEFAULT_BITS_PER_KEY : Z := 10.
Definition MAX_K : Z := 30.

Definition bits_per_key_for_run (n_keys : Z) : Z :=
  if n_keys =? 0 then DEFAULT_BITS_PER_KEY
  else if n_keys <? 4096 then 16
  else if n_keys <? 65536 then 12
  else DEFAULT_BITS_PER_KEY.

(** [u64::div_ceil]. *)
Definition div_ceil (a b : Z) : Z := (a + b - 1) / b.

Definition bloom_header_ok (nbits k nbytes residual : Z) : bool :=
  (1 <=? k) && (k <=? MAX_K) && (div_ceil nbits 8 <=? nbytes) && (nbytes <=? residual).

(** [usize] is 64 bits wide. *)
Definition saturating_product (a b : Z) : Z :=
  if negb (b =? 0) && (U64_MAX / b <? a) then U64_MAX else a * b.
Definition at_least_64 (x : Z) : Z := if x <? 64 then 64 else x.
Definition cap_u32 (x : Z) : Z := if U32_MAX <? x then U32_MAX else x.

Definition k_from_bits_per_key (bits_per_key : Z) : Z :=
  let raw := if U64_MAX / 69 <? bits_per_key then 30 else bits_per_key * 69 / 100 in
  if raw <? 1 then 1 else if 30 <? raw then 30 else raw.

Definition nbytes_for_nbits (nbits : Z) : Z := (nbits + 7) / 8.

(** [filter_partition_kernel::filter_nparts] *)
Definition filter_nparts (n_keys : Z) : Z := if n_keys <? 4 then 1 else 4.

(** * Bits and hashes *)

Definition bit_index (bit : Z) : nat := if U32_MAX <? bit then 0 else Z.to_nat bit.

Definition wrap64 (z : Z) : Z := z mod 2 ^ 64.

(** [nbits] is positive wherever this is called. *)
Definition probe_bit (h1 h2 i nbits : Z) : Z := wrap64 (h1 + wrap64 (i * h2)) mod nbits.

Definition bit_mask (i : nat) : Z := Z.shiftl 1 (Z.of_nat (i mod 8)).

Definition set_bit (bits : list byte) (i : nat) : option (list byte) :=
  b ← bits !! (i / 8)%nat;
  Some (<[(i / 8)%nat := Z2b (Z.lor (b2Z b) (bit_mask i))]> bits).

Definition test_bit (bits : list byte) (i : nat) : option bool :=
  b ← bits !! (i / 8)%nat; Some (negb (Z.land (b2Z b) (bit_mask i) =? 0)).

Definition FNV_PRIME : Z := 0x0100000001b3.

Definition fnv_step (h : Z) (b : byte) : Z := wrap64 (Z.lxor h (b2Z b) * FNV_PRIME).

Definition hash_pair (key : list byte) : Z * Z :=
  let h1 := foldl fnv_step 0xcbf29ce484222325 key in
  let h2 := foldl fnv_step 0x9e3779b97f4a7c15 key in
  (h1, if h2 =? 0 then 0x9e3779b97f4a7c15 else h2).

(** * One partition *)

Record Mono := mkMono { m_bits : list byte; m_nbits : Z; m_k : Z }.

Definition mono_always_true : Mono := mkMono [] 0 0.
Definition mono_active (m : Mono) : bool :=
  (0 <? m_nbits m) && (0 <? m_k m) && negb (length (m_bits m) =? 0)%nat.

(** [with_capacity] *)
Definition mono_with_capacity (n_keys bits_per_key : Z) : Mono :=
  if (n_keys =? 0) || (bits_per_key =? 0) then mono_always_true
  else
    let nbits := cap_u32 (at_least_64 (saturating_product n_keys bits_per_key)) in
    mkMono (replicate (Z.to_nat (nbytes_for_nbits nbits)) x00) nbits (k_from_bits_per_key bits_per_key).

(** The loop of [insert_prehashed] from probe [i], [n] probes left. *)
Fixpoint set_probes (n : nat) (i h1 h2 nbits : Z) (bits : list byte) : option (list byte) :=
  match n with
  | O => Some bits
  | S n =>
      bits ← set_bit bits (bit_index (probe_bit h1 h2 i nbits));
      set_probes n (i + 1) h1 h2 nbits bits
  end.

(** [insert_prehashed] on one partition. *)
Definition mono_insert (h1 h2 : Z) (m : Mono) : option Mono :=
  if negb (mono_active m) then Some m
  else
    bits ← set_probes (Z.to_nat (m_k m)) 0 h1 h2 (m_nbits m) (m_bits m);
    Some (mkMono bits (m_nbits m) (m_k m)).

(** The loop of [may_contain_with_hashes]. *)
Fixpoint test_probes (n : nat) (i h1 h2 nbits : Z) (bits : list byte) : option bool :=
  match n with
  | O => Some true
  | S n =>
      match test_bit bits (bit_index (probe_bit h1 h2 i nbits)) with
      | None => None
      | Some true => test_probes n (i + 1) h1 h2 nbits bits
      | Some false => Some false
      end
  end.

Definition mono_may_contain (h1 h2 : Z) (m : Mono) : option bool :=
  if negb (mono_active m) then Some true
  else test_probes (Z.to_nat (m_k m)) 0 h1 h2 (m_nbits m) (m_bits m).

(** [encode] of one partition. *)
Definition mono_encode (m : Mono) : list byte :=
  to_le 4 (m_nbits m) ++ to_le 4 (m_k m) ++ to_le 4 (u32_or_max (length (m_bits m))) ++ m_bits m.

Inductive BloomError := TooShort (n : nat) | BitsTruncated | HeaderInvalid (nbits k nbytes : Z)
  | PartsBad (nparts : Z) | PartsTruncated | PartTruncated.

(** The header fields of an encoded filter. *)
Definition bloom_fields (buf : list byte) : Z * Z * Z :=
  (from_le (take 4 buf), from_le (take 4 (drop 4 buf)), from_le (take 4 (drop 8 buf))).

(** [decode_mono] *)
Definition decode_mono (buf : list byte) : Result BloomError Mono :=
  if (length buf =? 0)%nat then Ok mono_always_true
  else if (length buf <? 12)%nat then Err (TooShort (length buf))
  else
    let '(nbits, k, nbytes) := bloom_fields buf in
    if (length buf <? 12 + Z.to_nat nbytes)%nat then Err BitsTruncated
    else if (nbits =? 0) || (k =? 0) || (nbytes =? 0) then Ok mono_always_true
    else if negb (bloom_header_ok nbits k nbytes (Z.of_nat (length buf - 12))) then
      Err (HeaderInvalid nbits k nbytes)
    else Ok (mkMono (take (Z.to_nat nbytes) (drop 12 buf)) nbits k).

(** * Filters *)

Record BloomFilter := mkBloom {
  bf_mono : Mono;
  nparts : Z;
  encoded_parts : list (list byte);
  loaded : list (option Mono);
  (** [parts_once]: how many once-cells there are; a cell decodes its part. *)
  parts_once : nat
}.

Definition of_mono (m : Mono) (np : Z) : BloomFilter := mkBloom m np [] [] 0.
Definition always_true : BloomFilter := of_mono mono_always_true 0.

Definition is_active (f : BloomFilter) : bool :=
  if 1 <? nparts f then true else mono_active (bf_mono f).

Definition with_capacity (n_keys bits_per_key : Z) : BloomFilter :=
  if (n_keys =? 0) || (bits_per_key =? 0) then always_true
  else of_mono (mono_with_capacity n_keys bits_per_key) 1.

Definition with_partitions (n_keys bits_per_key np : Z) : BloomFilter :=
  if np <=? 1 then with_capacity n_keys bits_per_key
  else
    let per := n_keys / np + 1 in
    mkBloom mono_always_true np []
      (replicate (Z.to_nat np) (Some (mono_with_capacity per bits_per_key))) 0.

Definition partition_index (h1 np : Z) : nat := if np <=? 1 then 0 else Z.to_nat (h1 mod np).

(** [insert] *)
Definition bloom_insert (key : list byte) (f : BloomFilter) : option BloomFilter :=
  let '(h1, h2) := hash_pair key in
  if 1 <? nparts f then
    let i := partition_index h1 (nparts f) in
    match loaded f !! i with
    | Some (Some p) =>
        p ← mono_insert h1 h2 p;
        Some (mkBloom (bf_mono f) (nparts f) (encoded_parts f) (<[i := Some p]> (loaded f)) (parts_once f))
    | _ => Some f
    end
  else
    m ← mono_insert h1 h2 (bf_mono f);
    Some (mkBloom m (nparts f) (encoded_parts f) (loaded f) (parts_once f)).

Definition decoded_or_true (raw : list byte) : Mono :=
  match decode_mono raw with Ok m => m | Err _ => mono_always_true end.

(** [may_contain_part_with_hashes]: from a once-cell, from the builder, or from
    the encoded part. *)
Definition may_contain_part (h1 h2 : Z) (f : BloomFilter) : option bool :=
  let i := partition_index h1 (nparts f) in
  if (i <? parts_once f)%nat then
    mono_may_contain h1 h2 (decoded_or_true (default [] (encoded_parts f !! i)))
  else
    match mjoin (loaded f !! i) with
    | Some p => mono_may_contain h1 h2 p
    | None =>
        match encoded_parts f !! i with
        | None => Some true
        | Some raw => mono_may_contain h1 h2 (decoded_or_true raw)
        end
    end.

Definition may_contain_with_hashes (h1 h2 : Z) (f : BloomFilter) : option bool :=
  if 1 <? nparts f then may_contain_part h1 h2 f else mono_may_contain h1 h2 (bf_mono f).

Definition may_contain (key : list byte) (f : BloomFilter) : option bool :=
  let '(h1, h2) := hash_pair key in may_contain_with_hashes h1 h2 f.

(** A length-prefixed part. *)
Definition part_bytes (enc : list byte) : list byte := to_le 4 (Z.of_nat (length enc)) ++ enc.

Definition encode_partitioned (f : BloomFilter) : list byte :=
  let body :=
    if (length (loaded f) =? 0)%nat then concat (part_bytes <$> encoded_parts f)
    else concat ((λ p, part_bytes (from_option mono_encode [] p)) <$> loaded f) in
  to_le 4 FILTER_PART_MAGIC ++ to_le 4 (nparts f) ++ to_le 4 (u32_or_max (length body)) ++ body.

(** [encode] *)
Definition bloom_encode (f : BloomFilter) : list byte :=
  if 1 <? nparts f then encode_partitioned f else mono_encode (bf_mono f).

Fixpoint read_parts (n : nat) (body : list byte) : Result BloomError (list (list byte)) :=
  match n with
  | O => Ok []
  | S n =>
      if (length body <? 4)%nat then Err PartsTruncated
      else
        let len := Z.to_nat (from_le (take 4 body)) in
        let body := drop 4 body in
        if (length body <? len)%nat then Err PartTruncated
        else let? ps := read_parts n (drop len body) in Ok (take len body :: ps)
  end.

Definition decode_partitioned (body : list byte) (np : Z) : Result BloomError BloomFilter :=
  if (np <=? 1) || (64 <? np) then Err (PartsBad np)
  else
    let? ps := read_parts (Z.to_nat np) body in
    Ok (mkBloom mono_always_true np ps (replicate (Z.to_nat np) None) (Z.to_nat np)).

(** [decode] *)
Definition bloom_decode (buf : list byte) : Result BloomError BloomFilter :=
  if (length buf =? 0)%nat then Ok always_true
  else if (length buf <? 12)%nat then Err (TooShort (length buf))
  else
    let '(nbits, k, nbytes) := bloom_fields buf in
    if (length buf <? 12 + Z.to_nat nbytes)%nat then Err BitsTruncated
    else if nbits =? FILTER_PART_MAGIC then decode_partitioned (take (Z.to_nat nbytes) (drop 12 buf)) k
    else if (nbits =? 0) || (k =? 0) || (nbytes =? 0) then Ok always_true
    else if negb (bloom_header_ok nbits k nbytes (Z.of_nat (length buf - 12))) then
      Err (HeaderInvalid nbits k nbytes)
    else Ok (of_mono (mkMono (take (Z.to_nat nbytes) (drop 12 buf)) nbits k) 1).

(** [freeze_partitions] *)
Definition freeze_partitions (f : BloomFilter) : BloomFilter :=
  if nparts f <=? 1 then f
  else
    let enc :=
      if (length (encoded_parts f) =? Z.to_nat (nparts f))%nat then encoded_parts f
      else from_option mono_encode [] <$> loaded f in
    mkBloom mono_always_true (nparts f) enc [] (Z.to_nat (nparts f)).

(** * Bit arrays *)

Lemma byte_bit_or (b : byte) j k :
  (j < 8)%nat → (k < 8)%nat →
  Z.testbit (b2Z (Z2b (Z.lor (b2Z b) (Z.shiftl 1 (Z.of_nat j))))) (Z.of_nat k) =
    Z.testbit (b2Z b) (Z.of_nat k) || (j =? k)%nat.
Proof.
  intros Hj Hk. rewrite b2Z_Z2b. replace 256 with (2 ^ 8) by done.
  rewrite Z.mod_pow2_bits_low by lia. rewrite Z.lor_spec, Z.shiftl_spec by lia. f_equal.
  destruct (Nat.eqb_spec j k) as [->|Hne]; [by rewrite Z.sub_diag|].
  destruct (decide (Z.of_nat k < Z.of_nat j)); [by apply Z.testbit_neg_r; lia|].
  change 1 with (2 ^ 0). apply Z.pow2_bits_false. lia.
Qed.

Lemma test_mask (z : Z) j : 0 ≤ z → negb (Z.land z (Z.shiftl 1 (Z.of_nat j)) =? 0) = Z.testbit z (Z.of_nat j).
Proof.
  intros Hz. destruct (Z.testbit z (Z.of_nat j)) eqn:E.
  - apply negb_true_iff, Z.eqb_neq. intros H0. apply (f_equal (λ x, Z.testbit x (Z.of_nat j))) in H0.
    rewrite Z.land_spec, Z.shiftl_spec, Z.sub_diag, E, Z.testbit_0_l in H0 by lia. done.
  - apply negb_false_iff, Z.eqb_eq. apply Z.bits_inj_0. intros n.
    destruct (decide (0 ≤ n)); [|by rewrite Z.testbit_neg_r by lia].
    rewrite Z.land_spec, Z.shiftl_spec by lia. destruct (decide (n = Z.of_nat j)) as [->|Hne].
    { by rewrite E. }
    destruct (decide (n < Z.of_nat j)); [by rewrite (Z.testbit_neg_r 1), andb_false_r by lia|].
    change 1 with (2 ^ 0). rewrite (Z.pow2_bits_false 0) by lia. by rewrite andb_false_r.
Qed.

(** Setting a bit sets it and clears none. *)
Lemma set_bit_ok bits i :
  (i < 8 * length bits)%nat →
  ∃ bits', set_bit bits i = Some bits' ∧ length bits' = length bits ∧
    ∀ j, test_bit bits' j = (λ b, b || (j =? i)%nat) <$> test_bit bits j.
Proof.
  intros Hi. unfold set_bit.
  assert (i / 8 < length bits)%nat as Hlt by (apply Nat.Div0.div_lt_upper_bound; lia).
  destruct (lookup_lt_is_Some_2 bits (i / 8)%nat Hlt) as [b Hb]. rewrite Hb. cbn [mbind option_bind].
  eexists. split; [reflexivity|]. split; [by rewrite length_insert|]. intros j. unfold test_bit, bit_mask.
  pose proof (Nat.mod_upper_bound i 8 ltac:(lia)). pose proof (Nat.mod_upper_bound j 8 ltac:(lia)).
  destruct (decide (j / 8 = i / 8)%nat) as [E|E].
  - rewrite E, list_lookup_insert_eq, Hb by done. cbn [mbind option_bind]. unfold fmap, option_fmap, option_map. f_equal.
    rewrite !test_mask by apply b2Z_range. rewrite byte_bit_or by done. f_equal.
    apply eq_bool_prop_intro. rewrite !Is_true_true, !Nat.eqb_eq.
    pose proof (Nat.div_mod_eq i 8). pose proof (Nat.div_mod_eq j 8). split; intros; [lia|by subst].
  - rewrite list_lookup_insert_ne by done. destruct (bits !! (j / 8)%nat) as [b'|]; [|done]. cbn.
    f_equal. rewrite (proj2 (Nat.eqb_neq j i)); [by rewrite orb_false_r|]. by intros ->.
Qed.

(** * One partition: no false negatives *)

Definition mono_wf (m : Mono) : Prop :=
  1 ≤ m_nbits m ≤ U32_MAX ∧ 1 ≤ m_k m ≤ MAX_K ∧
  Z.of_nat (length (m_bits m)) = nbytes_for_nbits (m_nbits m).

Lemma nbytes_bound nbits : 1 ≤ nbits ≤ U32_MAX → 1 ≤ nbytes_for_nbits nbits ≤ 2 ^ 29 ∧ nbits ≤ 8 * nbytes_for_nbits nbits.
Proof.
  unfold nbytes_for_nbits, U32_MAX. intros H.
  pose proof (Z.div_mod (nbits + 7) 8 ltac:(lia)). pose proof (Z.mod_pos_bound (nbits + 7) 8 ltac:(lia)). lia.
Qed.

Lemma mono_wf_active m : mono_wf m → mono_active m = true.
Proof.
  intros (H1 & H2 & H3). unfold mono_active. pose proof (nbytes_bound _ H1).
  rewrite (proj2 (Z.ltb_lt _ _)), (proj2 (Z.ltb_lt _ _)) by lia. cbn.
  rewrite (proj2 (Nat.eqb_neq _ _)); [done|lia].
Qed.

Lemma probe_in_range h1 h2 i nbits :
  1 ≤ nbits ≤ U32_MAX → 0 ≤ probe_bit h1 h2 i nbits < nbits ∧
  bit_index (probe_bit h1 h2 i nbits) = Z.to_nat (probe_bit h1 h2 i nbits).
Proof.
  intros Hn. assert (0 ≤ probe_bit h1 h2 i nbits < nbits) as Hp by (apply Z.mod_pos_bound; lia).
  split; [done|]. unfold bit_index. rewrite (proj2 (Z.ltb_ge _ _)) by lia. done.
Qed.

(** [keeps_bits b b']: every bit set in [b] is set in [b']. *)
Definition keeps_bits (bits bits' : list byte) : Prop :=
  length bits' = length bits ∧ ∀ j, test_bit bits j = Some true → test_bit bits' j = Some true.

#[export] Instance keeps_bits_preorder : PreOrder keeps_bits.
Proof. split; [by split|]. intros x y z [L1 H1] [L2 H2]. split; [congruence|auto]. Qed.

Lemma set_probes_ok n i h1 h2 nbits bits :
  1 ≤ nbits ≤ U32_MAX → Z.of_nat (length bits) = nbytes_for_nbits nbits →
  ∃ bits', set_probes n i h1 h2 nbits bits = Some bits' ∧ keeps_bits bits bits' ∧
    ∀ m, (m < n)%nat → test_bit bits' (bit_index (probe_bit h1 h2 (i + Z.of_nat m) nbits)) = Some true.
Proof.
  intros Hn. revert i bits. induction n as [|n IH]; intros i bits Hl; cbn [set_probes].
  { exists bits. split_and!; [done|done|lia]. }
  pose proof (nbytes_bound _ Hn) as [Hb1 Hb2]. destruct (probe_in_range h1 h2 i nbits Hn) as [Hp Hbi].
  destruct (set_bit_ok bits (bit_index (probe_bit h1 h2 i nbits))) as (b1 & -> & L1 & Ht1); [rewrite Hbi; lia|].
  cbn [mbind option_bind]. destruct (IH (i + 1) b1) as (b2 & -> & [L2 K2] & P2); [by rewrite L1|].
  exists b2. split; [done|]. split; [split; [congruence|]|].
  - intros j Hj. apply K2. rewrite Ht1, Hj. done.
  - intros [|m] Hm.
    + rewrite Z.add_0_r. apply K2. rewrite Ht1.
      destruct (test_bit bits _) as [t|] eqn:E; [by cbn; rewrite Nat.eqb_refl, orb_true_r|].
      exfalso. unfold test_bit in E. destruct (bits !! _) eqn:El; [done|].
      apply lookup_ge_None in El. rewrite Hbi in El.
      assert (Z.to_nat (probe_bit h1 h2 i nbits) / 8 < length bits)%nat; [|lia].
      apply Nat.Div0.div_lt_upper_bound. lia.
    + replace (i + Z.of_nat (S m)) with (i + 1 + Z.of_nat m) by lia. apply P2. lia.
Qed.

Lemma test_probes_ok n i h1 h2 nbits bits :
  (∀ m, (m < n)%nat → test_bit bits (bit_index (probe_bit h1 h2 (i + Z.of_nat m) nbits)) = Some true) →
  test_probes n i h1 h2 nbits bits = Some true.
Proof.
  revert i. induction n as [|n IH]; intros i Hp; [done|]. cbn [test_probes].
  pose proof (Hp 0%nat ltac:(lia)) as H0. rewrite Z.add_0_r in H0. rewrite H0. apply IH.
  intros m Hm. replace (i + 1 + Z.of_nat m) with (i + Z.of_nat (S m)) by lia. apply Hp. lia.
Qed.

(** [m] has the key of hashes [h]: all its probes are set. *)
Definition mono_has (h : Z * Z) (m : Mono) : Prop :=
  ∀ j, (j < Z.to_nat (m_k m))%nat →
    test_bit (m_bits m) (bit_index (probe_bit h.1 h.2 (Z.of_nat j) (m_nbits m))) = Some true.

Lemma mono_insert_ok h m :
  mono_wf m → ∃ m', mono_insert h.1 h.2 m = Some m' ∧ mono_wf m' ∧ mono_has h m' ∧
    ∀ h', mono_has h' m → mono_has h' m'.
Proof.
  intros Hw. pose proof Hw as (H1 & H2 & H3). unfold mono_insert. rewrite mono_wf_active by done. cbn [negb].
  destruct (set_probes_ok (Z.to_nat (m_k m)) 0 h.1 h.2 (m_nbits m) (m_bits m) H1 H3) as (b & -> & [L K] & P).
  eexists. split; [reflexivity|]. split; [by split_and!; cbn; rewrite ?L; try lia|].
  split; [intros j Hj; cbn in *; by apply (P j)|]. intros h' Hh j Hj. apply K, Hh, Hj.
Qed.

Lemma mono_has_may_contain h m : mono_wf m → mono_has h m → mono_may_contain h.1 h.2 m = Some true.
Proof.
  intros Hw Hh. unfold mono_may_contain. rewrite mono_wf_active by done. cbn [negb].
  apply test_probes_ok. intros j Hj. rewrite Z.add_0_l. by apply Hh.
Qed.

Lemma mono_with_capacity_wf n bpk : 0 < n → 1 ≤ bpk → mono_wf (mono_with_capacity n bpk).
Proof.
  intros Hn Hb. unfold mono_with_capacity.
  rewrite (proj2 (Z.eqb_neq n 0)), (proj2 (Z.eqb_neq bpk 0)) by lia. cbn [orb].
  set (nbits := cap_u32 _). assert (1 ≤ nbits ≤ U32_MAX) as Hnb.
  { unfold nbits. generalize (saturating_product n bpk). intros x. unfold cap_u32.
    assert (64 ≤ at_least_64 x) by (unfold at_least_64; destruct (Z.ltb_spec x 64); lia).
    unfold U32_MAX. destruct (Z.ltb_spec 4294967295 (at_least_64 x)); lia. }
  pose proof (nbytes_bound _ Hnb). split_and!; cbn; [lia|lia| | |].
  - unfold k_from_bits_per_key. generalize (if U64_MAX / 69 <? bpk then 30 else bpk * 69 / 100). intros r.
    destruct (Z.ltb_spec r 1), (Z.ltb_spec 30 r); lia.
  - unfold k_from_bits_per_key. generalize (if U64_MAX / 69 <? bpk then 30 else bpk * 69 / 100). intros r.
    unfold MAX_K. destruct (Z.ltb_spec r 1), (Z.ltb_spec 30 r); lia.
  - rewrite length_replicate. lia.
Qed.

(** A partition is well formed, or the filter that rejects nothing. *)
Definition mono_ok (m : Mono) : Prop := mono_wf m ∨ m = mono_always_true.
Definition mono_holds (h : Z * Z) (m : Mono) : Prop := mono_has h m ∨ m = mono_always_true.

Lemma mono_insert_holds h m :
  mono_ok m → ∃ m', mono_insert h.1 h.2 m = Some m' ∧ mono_ok m' ∧ mono_holds h m' ∧
    m_nbits m' = m_nbits m ∧ ∀ h', mono_holds h' m → mono_holds h' m'.
Proof.
  intros [Hw| ->]; [|eexists; split_and!; [reflexivity|by right|by right|done|done]].
  destruct (mono_insert_ok h m Hw) as (m' & E & Hw' & Hh & Hk). exists m'.
  split_and!; [done|by left|by left| |].
  - unfold mono_insert in E. rewrite mono_wf_active in E by done. cbn [negb] in E.
    destruct (set_probes _ _ _ _ _ _); [|done]. by injection E as <-.
  - intros h' [Hh'| ->]; [left; auto|]. destruct Hw as (H1 & _). cbn in H1. lia.
Qed.

Lemma mono_holds_may_contain h m :
  mono_ok m → mono_holds h m → mono_may_contain h.1 h.2 m = Some true.
Proof.
  intros [Hw| ->] Hh; [|done]. destruct Hh as [Hh| ->]; [by apply mono_has_may_contain|done].
Qed.

Lemma mono_with_capacity_ok n bpk : 0 ≤ n → 1 ≤ bpk → mono_ok (mono_with_capacity n bpk).
Proof.
  intros Hn Hb. destruct (decide (n = 0)) as [->|]; [by right|]. left. apply mono_with_capacity_wf; lia.
Qed.

(** Encoding one partition. *)
Lemma mono_ok_length m : mono_ok m → Z.of_nat (length (m_bits m)) ≤ 2 ^ 29.
Proof. intros [(H1 & _ & H3)| ->]; [|done]. pose proof (nbytes_bound _ H1). lia. Qed.

Lemma length_mono_encode m : length (mono_encode m) = (12 + length (m_bits m))%nat.
Proof. unfold mono_encode. len. Qed.

Lemma mono_encode_fields m rest :
  mono_ok m → bloom_fields (mono_encode m ++ rest) = (m_nbits m, m_k m, Z.of_nat (length (m_bits m))) ∧
    drop 12 (mono_encode m ++ rest) = m_bits m ++ rest.
Proof.
  intros Hm. pose proof (mono_ok_length m Hm) as Hl.
  assert (0 ≤ m_nbits m < 256 ^ Z.of_nat 4 ∧ 0 ≤ m_k m < 256 ^ Z.of_nat 4) as [Hn Hk].
  { change (256 ^ Z.of_nat 4) with 4294967296. destruct Hm as [(H1 & H2 & _)| ->]; [|done].
    unfold U32_MAX, MAX_K in *. lia. }
  unfold bloom_fields, mono_encode. set (nb := u32_or_max _).
  assert (nb = Z.of_nat (length (m_bits m))) as Hnb by (unfold nb, u32_or_max, U32_MAX; lia).
  rewrite <-!(assoc_L (++)).
  rewrite take_to_le, drop_to_le, take_to_le.
  rewrite (drop_to_le_add 4 4), drop_to_le, take_to_le, !from_le_to_le by done.
  rewrite Hnb, from_le_to_le by (change (256 ^ Z.of_nat 4) with 4294967296; lia). split; [done|].
  by rewrite (drop_to_le_add 4 8), (drop_to_le_add 4 4), drop_to_le.
Qed.

Lemma header_ok_wf m : mono_wf m →
  bloom_header_ok (m_nbits m) (m_k m) (Z.of_nat (length (m_bits m))) (Z.of_nat (length (m_bits m))) = true.
Proof.
  intros (H1 & H2 & H3). unfold bloom_header_ok. rewrite H3. unfold div_ceil, nbytes_for_nbits.
  replace (m_nbits m + 8 - 1) with (m_nbits m + 7) by lia. unfold MAX_K in *.
  rewrite !(proj2 (Z.leb_le _ _)) by lia. done.
Qed.

Lemma decode_mono_encode m : mono_ok m → decode_mono (mono_encode m) = Ok m.
Proof.
  intros Hm. pose proof (length_mono_encode m) as Hl.
  destruct (mono_encode_fields m [] Hm) as [Hf Hd]. rewrite !app_nil_r in *.
  unfold decode_mono. rewrite Hl. cbn [Nat.eqb Nat.add]. rewrite (proj2 (Nat.ltb_ge _ 12)) by lia.
  rewrite Hf, Nat2Z.id, Hd. rewrite (proj2 (Nat.ltb_ge _ _)) by lia.
  destruct Hm as [Hw| ->]; [|done]. pose proof Hw as (H1 & H2 & H3). pose proof (nbytes_bound _ H1).
  rewrite !(proj2 (Z.eqb_neq _ 0)) by lia. cbn [orb].
  replace (S (S (S (S (S (S (S (S (S (S (S (S (length (m_bits m))))))))))))) - 12)%nat
    with (length (m_bits m)) by lia.
  rewrite header_ok_wf by done. cbn [negb]. rewrite take_ge by lia. by destruct m.
Qed.

(** * Filters: no false negatives *)

(** A filter under construction into which [keys] were inserted. *)
Definition builder_ok (keys : list (list byte)) (f : BloomFilter) : Prop :=
  parts_once f = 0%nat ∧ encoded_parts f = [] ∧
  if decide (nparts f ≤ 1) then
    loaded f = [] ∧ mono_ok (bf_mono f) ∧ m_nbits (bf_mono f) ≠ FILTER_PART_MAGIC ∧
    ∀ key, key ∈ keys → mono_holds (hash_pair key) (bf_mono f)
  else
    nparts f ≤ 7 ∧ length (loaded f) = Z.to_nat (nparts f) ∧
    (∀ i p, loaded f !! i = Some p → ∃ m, p = Some m ∧ mono_ok m) ∧
    ∀ key, key ∈ keys → ∀ m,
      loaded f !! partition_index (hash_pair key).1 (nparts f) = Some (Some m) → mono_holds (hash_pair key) m.

Lemma hash_pair_nonneg key : 0 ≤ (hash_pair key).1.
Proof.
  unfold hash_pair. cbn. induction key as [|b key IH] using rev_ind; [done|].
  rewrite foldl_app. cbn. unfold fnv_step, wrap64. apply Z.mod_pos_bound. lia.
Qed.

Lemma partition_index_lt key np :
  1 < np → (partition_index (hash_pair key).1 np < Z.to_nat np)%nat.
Proof.
  intros Hn. unfold partition_index. rewrite (proj2 (Z.leb_gt _ _)) by lia.
  pose proof (Z.mod_pos_bound (hash_pair key).1 np ltac:(lia)). lia.
Qed.

Lemma builder_start n bpk np :
  0 ≤ n → 1 ≤ bpk → 0 ≤ np ≤ 7 →
  (np ≤ 1 → n * bpk < FILTER_PART_MAGIC) → builder_ok [] (with_partitions n bpk np).
Proof.
  intros Hn Hb Hnp Hsmall. unfold with_partitions. destruct (Z.leb_spec np 1) as [Hle|Hgt].
  - unfold with_capacity. rewrite (proj2 (Z.eqb_neq bpk 0)) by lia. rewrite orb_false_r.
    destruct (Z.eqb_spec n 0) as [->|Hne]; (split; [done|]; split; [done|]); cbn.
    { split_and!; [done|by right|done|set_solver]. }
    split_and!; [done|by apply mono_with_capacity_ok| |set_solver].
    unfold mono_with_capacity. rewrite (proj2 (Z.eqb_neq n 0)), (proj2 (Z.eqb_neq bpk 0)) by lia. cbn.
    specialize (Hsmall Hle). unfold saturating_product. rewrite (proj2 (Z.eqb_neq bpk 0)) by lia. cbn.
    unfold FILTER_PART_MAGIC in *. assert (n * bpk / bpk ≤ U64_MAX / bpk).
    { apply Z.div_le_mono; [lia|]. unfold U64_MAX. lia. }
    rewrite Z.div_mul in H by lia. rewrite (proj2 (Z.ltb_ge _ _)) by lia.
    unfold at_least_64, cap_u32, U32_MAX.
    destruct (Z.ltb_spec (n * bpk) 64); [done|]. rewrite (proj2 (Z.ltb_ge _ _)) by lia. lia.
  - split; [done|]. split; [done|]. cbn. rewrite decide_False by lia.
    split_and!; [lia|by rewrite length_replicate| |set_solver].
    intros i p [-> _]%lookup_replicate. eexists. split; [done|]. apply mono_with_capacity_ok; [|lia].
    pose proof (Z.div_pos n np ltac:(lia) ltac:(lia)). lia.
Qed.

Lemma builder_insert keys key f :
  builder_ok keys f → ∃ f', bloom_insert key f = Some f' ∧ builder_ok (key :: keys) f'.
Proof.
  intros (Ho & He & Hf). unfold bloom_insert. destruct (hash_pair key) as [h1 h2] eqn:Eh.
  destruct (Z.ltb_spec 1 (nparts f)) as [Hgt|Hle].
  - rewrite decide_False in Hf by lia. destruct Hf as (H7 & Hl & Hok & Hk).
    pose proof (partition_index_lt key (nparts f) Hgt) as Hi. rewrite Eh in Hi. cbn in Hi.
    set (i := partition_index h1 (nparts f)) in *.
    destruct (lookup_lt_is_Some_2 (loaded f) i ltac:(lia)) as [p Hp].
    destruct (Hok i p Hp) as (m & -> & Hm). rewrite Hp.
    destruct (mono_insert_holds (h1, h2) m Hm) as (m' & E & Hm' & Hh & _ & Hkeep). cbn in E. rewrite E.
    cbn [mbind option_bind]. eexists. split; [reflexivity|].
    split; [done|]. split; [done|]. cbn [nparts loaded]. rewrite decide_False by lia.
    split_and!; [done|by rewrite length_insert| |].
    + intros j p. destruct (decide (j = i)) as [->|Hne].
      * rewrite list_lookup_insert_eq by lia. intros [= <-]. eauto.
      * rewrite list_lookup_insert_ne by done. apply Hok.
    + intros k Hin m0. destruct (decide (partition_index (hash_pair k).1 (nparts f) = i)) as [Ei|Ei].
      * rewrite Ei, list_lookup_insert_eq by lia. intros [= <-].
        apply elem_of_cons in Hin as [->|Hin]; [by rewrite Eh|]. apply Hkeep, (Hk k Hin). by rewrite Ei.
      * rewrite list_lookup_insert_ne by done. apply elem_of_cons in Hin as [->|Hin]; [|by apply Hk].
        rewrite Eh in Ei. by destruct Ei.
  - rewrite decide_True in Hf by done. destruct Hf as (Hl & Hm & Hmag & Hk).
    destruct (mono_insert_holds (h1, h2) _ Hm) as (m' & E & Hm' & Hh & Hnb & Hkeep). cbn in E. rewrite E.
    cbn [mbind option_bind]. eexists. split; [reflexivity|].
    split; [done|]. split; [done|]. cbn [nparts loaded bf_mono]. rewrite decide_True by done.
    split_and!; [done|done|congruence|].
    intros k [->|Hin]%elem_of_cons; [by rewrite Eh|]. by apply Hkeep, Hk.
Qed.

(** Probing a filter: what answers for a key. *)
Definition answers (key : list byte) (f : BloomFilter) : Prop := may_contain key f = Some true.

Lemma builder_answers keys f key : builder_ok keys f → key ∈ keys → answers key f.
Proof.
  intros (Ho & He & Hf) Hin. unfold answers, may_contain, may_contain_with_hashes.
  destruct (hash_pair key) as [h1 h2] eqn:Eh. destruct (Z.ltb_spec 1 (nparts f)) as [Hgt|Hle].
  - rewrite decide_False in Hf by lia. destruct Hf as (H7 & Hl & Hok & Hk). unfold may_contain_part.
    rewrite Ho. cbn [Nat.ltb Nat.leb].
    pose proof (partition_index_lt key (nparts f) Hgt) as Hi. rewrite Eh in Hi. cbn in Hi.
    destruct (lookup_lt_is_Some_2 (loaded f) (partition_index h1 (nparts f)) ltac:(lia)) as [p Hp].
    destruct (Hok _ p Hp) as (m & -> & Hm). rewrite Hp. cbn.
    specialize (Hk key Hin m). rewrite Eh in Hk. by apply (mono_holds_may_contain (h1, h2)), Hk.
  - rewrite decide_True in Hf by done. destruct Hf as (Hl & Hm & Hmag & Hk).
    specialize (Hk key Hin). rewrite Eh in Hk. by apply (mono_holds_may_contain (h1, h2)).
Qed.

(** Parts that decode back to the builder's partitions. *)
Lemma parts_answer keys f parts once key :
  builder_ok keys f → 1 < nparts f → parts = from_option mono_encode [] <$> loaded f →
  once = Z.to_nat (nparts f) → key ∈ keys → ∀ l,
  answers key (mkBloom mono_always_true (nparts f) parts l once).
Proof.
  intros (Ho & He & Hf) Hgt -> -> Hin l. rewrite decide_False in Hf by lia.
  destruct Hf as (H7 & Hl & Hok & Hk). unfold answers, may_contain, may_contain_with_hashes.
  destruct (hash_pair key) as [h1 h2] eqn:Eh. cbn [nparts]. rewrite (proj2 (Z.ltb_lt _ _)) by done.
  unfold may_contain_part. cbn [nparts parts_once encoded_parts].
  pose proof (partition_index_lt key (nparts f) Hgt) as Hi. rewrite Eh in Hi. cbn in Hi.
  rewrite (proj2 (Nat.ltb_lt _ _)) by done.
  destruct (lookup_lt_is_Some_2 (loaded f) (partition_index h1 (nparts f)) ltac:(lia)) as [p Hp].
  destruct (Hok _ p Hp) as (m & -> & Hm). rewrite list_lookup_fmap, Hp. cbn.
  unfold decoded_or_true. rewrite decode_mono_encode by done.
  specialize (Hk key Hin m). rewrite Eh in Hk. by apply (mono_holds_may_contain (h1, h2)), Hk.
Qed.

Lemma read_parts_ok parts :
  Forall (λ p, Z.of_nat (length p) ≤ U32_MAX) parts →
  read_parts (length parts) (concat (part_bytes <$> parts)) = Ok parts.
Proof.
  induction 1 as [|p parts Hp _ IH]; [done|]. cbn [length read_parts]. rewrite fmap_cons. cbn [concat].
  set (rest := concat (part_bytes <$> parts)) in *. unfold part_bytes. rewrite <-(assoc_L (++)).
  rewrite (proj2 (Nat.ltb_ge _ 4)) by len. rewrite take_to_le, drop_to_le.
  rewrite from_le_to_le by (change (256 ^ Z.of_nat 4) with 4294967296; unfold U32_MAX in Hp; lia).
  rewrite Nat2Z.id, (proj2 (Nat.ltb_ge _ _)) by len.
  by rewrite drop_app_length, take_app_length, IH.
Qed.

Lemma length_part_bytes p : length (part_bytes p) = (4 + length p)%nat.
Proof. unfold part_bytes. len. Qed.

Lemma concat_parts_length (parts : list (list byte)) b :
  Forall (λ p, (length p ≤ b)%nat) parts →
  (length (concat (part_bytes <$> parts)) ≤ length parts * (4 + b))%nat.
Proof.
  induction 1 as [|p parts Hp _ IH]; [cbn; lia|].
  rewrite fmap_cons. cbn [concat length]. rewrite length_app, length_part_bytes. lia.
Qed.

Lemma partitioned_fields np body rest :
  0 ≤ np ≤ U32_MAX → Z.of_nat (length body) ≤ U32_MAX →
  let buf := to_le 4 FILTER_PART_MAGIC ++ to_le 4 np ++ to_le 4 (u32_or_max (length body)) ++ body ++ rest in
  bloom_fields buf = (FILTER_PART_MAGIC, np, Z.of_nat (length body)) ∧ drop 12 buf = body ++ rest.
Proof.
  intros Hnp Hb. cbv zeta. unfold bloom_fields. rewrite take_to_le, drop_to_le, take_to_le.
  rewrite (drop_to_le_add 4 4), drop_to_le, take_to_le.
  assert (u32_or_max (length body) = Z.of_nat (length body)) as -> by (unfold u32_or_max, U32_MAX in *; lia).
  unfold U32_MAX in *.
  rewrite !from_le_to_le by (change (256 ^ Z.of_nat 4) with 4294967296; unfold FILTER_PART_MAGIC; lia).
  split; [done|]. by rewrite (drop_to_le_add 4 8), (drop_to_le_add 4 4), drop_to_le.
Qed.

(** The partitions of a builder, encoded. *)
Definition parts_of (f : BloomFilter) : list (list byte) := from_option mono_encode [] <$> loaded f.

Lemma parts_of_bound keys f :
  builder_ok keys f → 1 < nparts f →
  length (parts_of f) = Z.to_nat (nparts f) ∧ Forall (λ p, Z.of_nat (length p) ≤ U32_MAX) (parts_of f) ∧
  Z.of_nat (length (concat (part_bytes <$> parts_of f))) ≤ U32_MAX.
Proof.
  intros (_ & _ & Hf) Hgt. rewrite decide_False in Hf by lia. destruct Hf as (H7 & Hl & Hok & _).
  set (b := Z.to_nat 536870912).
  assert (Forall (λ p, (length p ≤ 12 + b)%nat) (parts_of f)) as Hps.
  { apply Forall_forall. intros p (p' & -> & (i & Hi)%list_elem_of_lookup)%list_elem_of_fmap.
    destruct (Hok _ _ Hi) as (m & -> & Hm). cbn. rewrite length_mono_encode.
    pose proof (mono_ok_length m Hm). change (2 ^ 29) with 536870912 in *. lia. }
  pose proof (concat_parts_length _ _ Hps) as Hcl.
  assert (length (parts_of f) = Z.to_nat (nparts f)) as Hlp by (unfold parts_of; by rewrite length_fmap).
  rewrite Hlp in Hcl. unfold U32_MAX. split_and!; [done| |nia].
  eapply Forall_impl; [exact Hps|]. cbn. lia.
Qed.

Lemma encode_partitioned_parts keys f :
  builder_ok keys f → 1 < nparts f →
  encode_partitioned f = to_le 4 FILTER_PART_MAGIC ++ to_le 4 (nparts f) ++
    to_le 4 (u32_or_max (length (concat (part_bytes <$> parts_of f)))) ++ concat (part_bytes <$> parts_of f).
Proof.
  intros (_ & _ & Hf) Hgt. rewrite decide_False in Hf by lia. destruct Hf as (H7 & Hl & _).
  unfold encode_partitioned, parts_of. rewrite (proj2 (Nat.eqb_neq (length (loaded f)) 0)) by lia.
  by rewrite <-list_fmap_compose.
Qed.

Lemma bloom_encode_length keys f :
  builder_ok keys f → Z.of_nat (length (bloom_encode f)) ≤ U32_MAX + 12.
Proof.
  intros Hb. unfold bloom_encode. destruct (Z.ltb_spec 1 (nparts f)) as [Hgt|Hle].
  - rewrite (encode_partitioned_parts _ _ Hb Hgt). destruct (parts_of_bound _ _ Hb Hgt) as (_ & _ & Hl). len.
  - destruct Hb as (_ & _ & Hf). rewrite decide_True in Hf by done. destruct Hf as (_ & Hm & _).
    rewrite length_mono_encode. pose proof (mono_ok_length _ Hm). unfold U32_MAX. lia.
Qed.

(** A builder's encoding decodes to a filter that answers for the same keys. *)
Lemma builder_decode keys f :
  builder_ok keys f → 0 ≤ nparts f →
  ∃ g, bloom_decode (bloom_encode f) = Ok g ∧ is_active g = is_active f ∧ ∀ key, key ∈ keys → answers key g.
Proof.
  intros Hb Hnn. pose proof Hb as (Ho & He & Hf). unfold bloom_encode, bloom_decode.
  destruct (Z.ltb_spec 1 (nparts f)) as [Hgt|Hle].
  - rewrite (encode_partitioned_parts _ _ Hb Hgt). destruct (parts_of_bound _ _ Hb Hgt) as (Hlp & Hps & Hbl).
    rewrite decide_False in Hf by lia. destruct Hf as (H7 & Hl & Hok & Hk).
    set (parts := parts_of f) in *. set (body := concat (part_bytes <$> parts)) in *.
    destruct (partitioned_fields (nparts f) body [] ltac:(unfold U32_MAX; lia) Hbl) as [Hfl Hd].
    rewrite !app_nil_r in *.
    match goal with |- context [(length ?b =? 0)%nat] => set (buf := b) in * end.
    assert (length buf = 12 + length body)%nat as Hbuf by (unfold buf; len).
    rewrite Hbuf. cbn [Nat.eqb Nat.add]. rewrite (proj2 (Nat.ltb_ge _ 12)) by lia.
    rewrite Hfl, Nat2Z.id. rewrite (proj2 (Nat.ltb_ge _ _)) by lia. rewrite Z.eqb_refl, Hd, take_ge by lia.
    unfold decode_partitioned. rewrite (proj2 (Z.leb_gt _ _)), (proj2 (Z.ltb_ge _ _)) by lia. cbn [orb].
    rewrite <-Hlp. unfold body. rewrite read_parts_ok by done.
    cbn [res_bind]. eexists. split; [reflexivity|]. split.
    { unfold is_active. cbn. by rewrite (proj2 (Z.ltb_lt _ _)) by lia. }
    intros key Hin. by apply (parts_answer keys).
  - rewrite decide_True in Hf by done. destruct Hf as (Hl & Hm & Hmag & Hk).
    pose proof (length_mono_encode (bf_mono f)) as Hlen.
    destruct (mono_encode_fields (bf_mono f) [] Hm) as [Hfl Hd]. rewrite !app_nil_r in *.
    rewrite Hlen. cbn [Nat.eqb Nat.add]. rewrite (proj2 (Nat.ltb_ge _ 12)) by lia.
    rewrite Hfl, Nat2Z.id, Hd. rewrite (proj2 (Nat.ltb_ge _ _)) by lia.
    rewrite (proj2 (Z.eqb_neq _ FILTER_PART_MAGIC)) by done.
    assert (∀ g, bf_mono g = bf_mono f → nparts g ≤ 1 → is_active g = is_active f ∧
      ∀ key, key ∈ keys → answers key g) as Hsame.
    { intros g Hg Hng. split.
      - unfold is_active. by rewrite !(proj2 (Z.ltb_ge _ _)), Hg by lia.
      - intros key Hin. unfold answers, may_contain, may_contain_with_hashes.
        destruct (hash_pair key) as [h1 h2] eqn:Eh. rewrite (proj2 (Z.ltb_ge _ _)) by lia. rewrite Hg.
        specialize (Hk key Hin). rewrite Eh in Hk. by apply (mono_holds_may_contain (h1, h2)). }
    destruct Hm as [Hw|Hm].
    + pose proof Hw as (H1 & H2 & H3). pose proof (nbytes_bound _ H1).
      rewrite !(proj2 (Z.eqb_neq _ 0)) by lia. cbn [orb].
      replace (S (S (S (S (S (S (S (S (S (S (S (S (length (m_bits (bf_mono f)))))))))))))) - 12)%nat
        with (length (m_bits (bf_mono f))) by lia.
      rewrite header_ok_wf by done. cbn [negb]. rewrite take_ge by lia.
      eexists. split; [reflexivity|]. apply Hsame; [by destruct (bf_mono f)|done].
    + rewrite Hm. cbn. eexists. split; [reflexivity|]. apply Hsame; [by rewrite Hm|done].
Qed.

Lemma builder_freeze keys f key : builder_ok keys f → key ∈ keys → answers key (freeze_partitions f).
Proof.
  intros Hb Hin. unfold freeze_partitions. destruct (Z.leb_spec (nparts f) 1) as [Hle|Hgt].
  { by eapply builder_answers. }
  pose proof Hb as (Ho & He & Hf). rewrite He. cbn [length].
  rewrite (proj2 (Nat.eqb_neq 0 _)) by lia. by apply (parts_answer keys).
Qed.

Lemma bloom_insert_nparts key f f' : bloom_insert key f = Some f' → nparts f' = nparts f.
Proof.
  unfold bloom_insert. destruct (hash_pair key) as [h1 h2]. destruct (1 <? nparts f).
  - destruct (loaded f !! _) as [[p|]|]; [|by intros [= <-]..]. destruct (mono_insert h1 h2 p); [|done].
    by intros [= <-].
  - destruct (mono_insert h1 h2 (bf_mono f)); [|done]. by intros [= <-].
Qed.

(** ** Probing never panics *)

(** Filters every probe of which stays within the bits. *)
Definition mono_safe (m : Mono) : Prop :=
  m = mono_always_true ∨ 1 ≤ m_nbits m ≤ U32_MAX ∧ m_nbits m ≤ 8 * Z.of_nat (length (m_bits m)).
Definition filter_safe (f : BloomFilter) : Prop :=
  mono_safe (bf_mono f) ∧ ∀ i m, loaded f !! i = Some (Some m) → mono_safe m.

Lemma mono_ok_safe m : mono_ok m → mono_safe m.
Proof.
  intros [(Hn & _ & Hl)| ->]; [right|by left]. pose proof (nbytes_bound _ Hn) as [_ Hb]. split; [done|lia].
Qed.

Lemma mono_total h1 h2 m : mono_safe m → is_Some (mono_may_contain h1 h2 m).
Proof.
  intros [->|[Hn Hl]]; [by eexists|]. unfold mono_may_contain. case_match; [by eexists|].
  generalize (Z.to_nat (m_k m)) 0. intros n. induction n as [|n IH]; intros i; cbn [test_probes]; [by eexists|].
  destruct (probe_in_range h1 h2 i _ Hn) as [Hp Hbi]. unfold test_bit. rewrite Hbi.
  destruct (lookup_lt_is_Some_2 (m_bits m) (Z.to_nat (probe_bit h1 h2 i (m_nbits m)) / 8)) as [b ->].
  { apply Nat.Div0.div_lt_upper_bound. lia. }
  cbn [mbind option_bind]. case_match; [apply IH|by eexists].
Qed.

Lemma header_safe nbits k nbytes residual bits :
  0 ≤ nbits ≤ U32_MAX → (nbits =? 0) || (k =? 0) || (nbytes =? 0) = false →
  negb (bloom_header_ok nbits k nbytes residual) = false → Z.of_nat (length bits) = nbytes →
  mono_safe (mkMono bits nbits k).
Proof.
  rewrite !orb_false_iff, negb_false_iff, !Z.eqb_neq. unfold bloom_header_ok, div_ceil.
  rewrite !andb_true_iff, !Z.leb_le. intros Hn [[H0 _] _] [[_ Hc] _] Hl. right. cbn. split; [lia|].
  pose proof (Z.div_mod (nbits + 8 - 1) 8 ltac:(lia)). pose proof (Z.mod_pos_bound (nbits + 8 - 1) 8 ltac:(lia)). lia.
Qed.

Lemma take4_u32 buf : 0 ≤ from_le (take 4 buf) ≤ U32_MAX.
Proof.
  pose proof (from_le_bound (take 4 buf)) as H. rewrite length_take in H.
  assert (256 ^ Z.of_nat (Nat.min 4 (length buf)) ≤ 256 ^ 4) by (apply Z.pow_le_mono_r; lia).
  change (256 ^ 4) with 4294967296 in *. unfold U32_MAX. lia.
Qed.

Lemma decode_mono_safe raw m : decode_mono raw = Ok m → mono_safe m.
Proof.
  unfold decode_mono, bloom_fields. destruct (length raw =? 0)%nat; [intros [= <-]; by left|].
  destruct (length raw <? 12)%nat; [done|]. destruct (Nat.ltb_spec (length raw) (12 + Z.to_nat (from_le (take 4 (drop 8 raw))))); [done|].
  destruct (_ || _) eqn:E; [intros [= <-]; by left|]. destruct (negb _) eqn:Eh; [done|]. intros [= <-].
  pose proof (take4_u32 (drop 8 raw)). eapply header_safe; [apply take4_u32|exact E|exact Eh|len].
Qed.

Lemma filter_safe_total key f : filter_safe f → is_Some (may_contain key f).
Proof.
  intros [Hm Hl]. unfold may_contain, may_contain_with_hashes. destruct (hash_pair key) as [h1 h2].
  case_match; [|by apply mono_total]. unfold may_contain_part.
  assert (∀ raw, is_Some (mono_may_contain h1 h2 (decoded_or_true raw))) as Hd.
  { intros raw. unfold decoded_or_true. destruct (decode_mono raw) as [m|] eqn:E; [|by eexists].
    apply mono_total. by eapply decode_mono_safe. }
  case_match; [apply Hd|]. destruct (loaded f !! _) as [[q|]|] eqn:E; cbn; [|case_match; [apply Hd|by eexists]..].
  apply mono_total. by eapply Hl.
Qed.

(** Decoding any bytes gives a filter that never panics. *)
Lemma bloom_decode_safe buf g : bloom_decode buf = Ok g → filter_safe g.
Proof.
  unfold bloom_decode, bloom_fields. destruct (length buf =? 0)%nat; [intros [= <-]; split; [by left|done]|].
  destruct (length buf <? 12)%nat; [done|].
  destruct (Nat.ltb_spec (length buf) (12 + Z.to_nat (from_le (take 4 (drop 8 buf))))); [done|].
  destruct (_ =? FILTER_PART_MAGIC).
  - unfold decode_partitioned. destruct (_ || _); [done|]. destruct (read_parts _ _); [|done]. intros [= <-].
    split; [by left|]. cbn. intros i m [? _]%lookup_replicate. done.
  - destruct (_ || _) eqn:E; [intros [= <-]; split; [by left|done]|]. destruct (negb _) eqn:Eh; [done|]. intros [= <-].
    split; [|done]. pose proof (take4_u32 (drop 8 buf)). eapply header_safe; [apply take4_u32|exact E|exact Eh|len].
Qed.

Lemma freeze_safe keys f : builder_ok keys f → filter_safe (freeze_partitions f).
Proof.
  intros (_ & _ & Hf). unfold freeze_partitions. destruct (Z.leb_spec (nparts f) 1) as [Hle|Hgt].
  - rewrite decide_True in Hf by done. destruct Hf as (Hl & Hm & _). split; [by apply mono_ok_safe|]. by rewrite Hl.
  - split; [by left|done].
Qed.

(** A filter being filled with [keys], as the table writer uses it. *)
Definition filling (keys : list (list byte)) (f : BloomFilter) : Prop := builder_ok keys f ∧ 0 ≤ nparts f.

Lemma filling_start n bpk np :
  0 ≤ n → 1 ≤ bpk → 0 ≤ np ≤ 7 → (np ≤ 1 → n * bpk < FILTER_PART_MAGIC) → filling [] (with_partitions n bpk np).
Proof.
  intros Hn Hb Hnp Hs. split; [by apply builder_start|].
  unfold with_partitions, with_capacity. repeat case_match; cbn; lia.
Qed.

Lemma filling_insert keys key f :
  filling keys f → ∃ f', bloom_insert key f = Some f' ∧ filling (key :: keys) f'.
Proof.
  intros [Hb Hn]. destruct (builder_insert keys key f Hb) as (f' & E & Hb'). exists f'. split; [done|].
  split; [done|]. by rewrite (bloom_insert_nparts _ _ _ E).
Qed.

(** What a filled filter answers, in memory, frozen and decoded. *)
Lemma filling_answers keys f :
  filling keys f → ∃ g, bloom_decode (bloom_encode f) = Ok g ∧ is_active g = is_active f ∧
    ∀ key, key ∈ keys → answers key f ∧ answers key (freeze_partitions f) ∧ answers key g.
Proof.
  intros [Hb Hn]. destruct (builder_decode _ _ Hb Hn) as (g & Eg & Ha & Hg). exists g. split; [done|].
  split; [done|]. intros key Hin. split_and!; [by eapply builder_answers|by eapply builder_freeze|by apply Hg].
Qed.

Definition bloom_insert_all (keys : list (list byte)) (f : BloomFilter) : option BloomFilter :=
  foldl (λ acc key, f ← acc; bloom_insert key f) (Some f) keys.

Lemma bloom_insert_all_ok keys done_ f :
  filling done_ f → ∃ f', bloom_insert_all keys f = Some f' ∧ filling (reverse keys ++ done_) f'.
Proof.
  unfold bloom_insert_all. revert done_ f. induction keys as [|k keys IH]; intros done_ f Hb; cbn [foldl].
  { by exists f. }
  destruct (filling_insert done_ k f Hb) as (f1 & E & Hb1).
  cbn [mbind option_bind]. rewrite E. destruct (IH _ _ Hb1) as (f2 & E2 & Hb2).
  exists f2. by rewrite reverse_cons, <-(assoc_L (++)).
Qed.

(** No false negatives. Filling a filter of any of the sizes the table
    writer uses never panics, and every inserted key is reported as possibly
    present by the filter itself, by its frozen form and by what decoding its
    encoding gives, through partitioning, bit arithmetic and the lazy decoding
    of partitions. *)
Theorem bloom_no_false_negatives n bpk np keys :
  0 ≤ n → 1 ≤ bpk → 0 ≤ np ≤ 7 → (np ≤ 1 → n * bpk < FILTER_PART_MAGIC) →
  ∃ f g, bloom_insert_all keys (with_partitions n bpk np) = Some f ∧ bloom_decode (bloom_encode f) = Ok g ∧
    ∀ key, key ∈ keys → may_contain key f = Some true ∧ may_contain key (freeze_partitions f) = Some true ∧
      may_contain key g = Some true.
Proof.
  intros Hn Hb Hnp Hs.
  destruct (bloom_insert_all_ok keys [] _ (filling_start n bpk np Hn Hb Hnp Hs)) as (f & E & Hf).
  rewrite app_nil_r in Hf. destruct (filling_answers _ _ Hf) as (g & Eg & _ & Hk). exists f, g.
  split; [done|]. split; [done|]. intros key Hin. by apply Hk, elem_of_reverse.
Qed.

Lemma bloom_no_false_negatives_witness :
  ∃ f g, bloom_insert_all [[x61]; [x62]; [x63; x64]; []] (with_partitions 4 16 4) = Some f ∧
    bloom_decode (bloom_encode f) = Ok g ∧ may_contain [x62] g = Some true ∧
    may_contain [x7a] g = Some false.
Proof.
  destruct (bloom_no_false_negatives 4 16 4 [[x61]; [x62]; [x63; x64]; []] ltac:(lia) ltac:(lia) ltac:(lia)
    ltac:(lia)) as (f & g & E1 & E2 & Hk).
  exists f, g. split; [exact E1|]. split; [exact E2|]. split; [apply Hk, list_elem_of_In; right; left; reflexivity|].
  vm_compute in E1. injection E1 as <-. vm_compute in E2. injection E2 as <-. vm_compute. reflexivity.
Defined.
