(* ===== verification/SstBlock.v ===== *)
(** Data blocks of a table: [sst/table_kernel.rs] (entry codec with restart
    prefixes, block hash, decoding, point seek inside a block).

    A block is a run of entries in key order. Every sixteenth entry is written
    in full (a restart); the others may share a prefix with the restart's user
    key. A trailer maps hashes of user keys to restarts, so that a point seek
    can skip entries or answer without scanning. *)

From S2P Require Import Prelude ErrorKernel KeyKernel BatchKernel Visibility MemTable Bloom.

Local Open Scope Z_scope.

Definition BLOCK_HASH_MAGIC : Z := 0x0236B0C4.
Definition BLOCK_HASH_FREE : byte := xff.
Definition BLOCK_HASH_CONFLICT : byte := xfe.
Definition BLOCK_RESTART : nat := 16.
Definition ENTRY_TRUNC_FLAG : Z := 0x80000000.

(** [&buf[a..b]] *)
Definition slice (a b : nat) (l : list byte) : list byte := take (b - a) (drop a l).

(** * Writing *)

Fixpoint prefix_shared_len (a b : list byte) : nat :=
  match a, b with
  | x :: a, y :: b => if bool_decide (x = y) then S (prefix_shared_len a b) else 0
  | _, _ => 0
  end.

Definition internal (s : string) : CoreError := Internal [Lit s].

(** [u32::try_from] on a length. *)
Definition try_u32 (n : nat) (msg : string) : Result CoreError Z :=
  if U32_MAX <? Z.of_nat n then Err (internal msg) else Ok (Z.of_nat n).

(** [encode_entry_into_maybe_trunc]: the bytes it appends. *)
Definition encode_entry (ikey : InternalKey) (value : list byte) (restart_uk : option (list byte))
    : Result CoreError (list byte) :=
  let? val_len := try_u32 (length value) "value too large for SST" in
  let full :=
    let? ikey_len := try_u32 (length (user_key ikey) + 8) "internal key too large for SST" in
    Ok (to_le 4 ikey_len ++ encode ikey ++ to_le 4 val_len ++ value) in
  match restart_uk with
  | Some rst =>
      let shared := Nat.min (prefix_shared_len rst (user_key ikey)) 255 in
      if (2 <=? shared)%nat && (shared <? length (user_key ikey))%nat then
        let suffix := drop shared (user_key ikey) in
        let payload := (1 + length suffix + 8)%nat in
        let? n := try_u32 payload "internal key too large for SST" in
        let flag_len := Z.lor ENTRY_TRUNC_FLAG n in
        Ok (to_le 4 flag_len ++ [Z2b (Z.of_nat shared)] ++ suffix ++
            to_be 8 (pack_sequence_and_type (sequence ikey) (kind ikey)) ++ to_le 4 val_len ++ value)
      else full
  | None => full
  end.

(** The bucket a key hashes to. *)
Definition bucket_of (key : list byte) (n_buckets : nat) : nat :=
  Z.to_nat ((hash_pair key).1 mod Z.of_nat n_buckets).

(** One pass of the loop of [append_block_hash]. *)
Definition note_key (n_buckets : nat) (buckets : list byte) (ik : nat * list byte) : list byte :=
  let restart := Z2b (Z.of_nat (ik.1 / BLOCK_RESTART)) in
  let b := bucket_of ik.2 n_buckets in
  match buckets !! b with
  | None => buckets
  | Some v =>
      if bool_decide (v = BLOCK_HASH_FREE) then <[b := restart]> buckets
      else if bool_decide (v = restart) then buckets
      else <[b := BLOCK_HASH_CONFLICT]> buckets
  end.

(** [usize::div_ceil], [clamp]. *)
Definition ceil_div (a b : nat) : nat := ((a + b - 1) / b)%nat.
Definition clamp (x lo hi : nat) : nat := Nat.max lo (Nat.min x hi).

(** [append_block_hash]: the bytes it appends. *)
Definition block_hash_bytes (keys : list (list byte)) : list byte :=
  if batch_is_empty (length keys) then []
  else if (253 <? ceil_div (length keys) BLOCK_RESTART)%nat then []
  else
    let n_buckets := clamp (length keys * 2) 8 4096 in
    let buckets := foldl (note_key n_buckets) (replicate n_buckets BLOCK_HASH_FREE)
                     (imap pair keys) in
    to_le 4 BLOCK_HASH_MAGIC ++ buckets ++ to_le 2 (Z.of_nat n_buckets).

(** * Reading *)

(** [split_block_hash]: the entries and the trailer, when there is one. *)
Definition split_block_hash (plain : list byte) : list byte * option (list byte) :=
  if (length plain <? 14)%nat then (plain, None)
  else
    let n_buckets := Z.to_nat (from_le (drop (length plain - 2) plain)) in
    if (n_buckets <? 8)%nat || (4096 <? n_buckets)%nat then (plain, None)
    else
      let trailer_len := (4 + n_buckets + 2)%nat in
      if (length plain <? trailer_len)%nat then (plain, None)
      else
        let start := (length plain - trailer_len)%nat in
        if negb (from_le (take 4 (drop start plain)) =? BLOCK_HASH_MAGIC) then (plain, None)
        else (take start plain, Some (drop start plain)).

Inductive BlockHashHit := HFree | HConflict | HRestart (r : nat).

Definition block_hash_lookup (trailer uk : list byte) : option BlockHashHit :=
  if (length trailer <? 14)%nat then None
  else
    let n_buckets := Z.to_nat (from_le (drop (length trailer - 2) trailer)) in
    if (n_buckets <? 8)%nat || (4096 <? n_buckets)%nat || negb (4 + n_buckets + 2 =? length trailer)%nat
    then None
    else
      let buckets := slice 4 (4 + n_buckets) trailer in
      v ← buckets !! bucket_of uk n_buckets;
      if bool_decide (v = BLOCK_HASH_FREE) then Some HFree
      else if bool_decide (v = BLOCK_HASH_CONFLICT) then Some HConflict
      else Some (HRestart (Z.to_nat (b2Z v))).

(** [lookup_kernel::prefer_newer_seq] *)
Definition prefer_newer_seq (have_best : bool) (new_seq best_seq : Z) : bool :=
  negb have_best || (best_seq <? new_seq).

Definition look_of (k : ValueType) (v : list byte) : Lookup :=
  match k with Deletion => Deleted | Value => Found v | RangeDeletion => NotFound end.

Definition point := (Z * Lookup)%type.

(** The update of [best] that the seek, the slice scan and the block walk all
    make. *)
Definition keep_best (best : option point) (new : point) : option point :=
  if prefer_newer_seq (if best then true else false) new.1 (from_option fst 0 best) then Some new
  else best.

(** [consider_point]: the new best and whether to stop. *)
Definition consider_point (best : option point) (uk uk' trailer val : list byte) (snapshot : Z)
    : Result CoreError (option point * bool) :=
  match bytes_cmp uk' uk with
  | Lt => Ok (best, false)
  | Gt => Ok (best, true)
  | Eq =>
      let? '(seq, k) := unpack_sequence_and_type (from_be trailer) in
      if negb (bool_decide (k = RangeDeletion)) && (seq <=? snapshot) then
        Ok (keep_best best (seq, look_of k val), false)
      else Ok (best, false)
  end.

Section reading.
Context (path : string).

Definition sst_err (s : string) : CoreError := Internal [Lit s; Lit path].

(** One entry at [pos] as [seek_point_scan] parses it: user key, trailer,
    value, next position and restart key; [None] at the hash magic. *)
Record Parsed := mkParsed {
  pr_uk : list byte; pr_trailer : list byte; pr_val : list byte; pr_next : nat; pr_restart : list byte }.

Definition parse_value (plain : list byte) (body_end : nat) : Result CoreError nat :=
  if (length plain <? body_end + 4)%nat then Err (sst_err "SST block entry truncated in ")
  else
    let val_end := (body_end + 4 + Z.to_nat (from_le (slice body_end (body_end + 4) plain)))%nat in
    if (length plain <? val_end)%nat then Err (sst_err "SST block entry truncated in ") else Ok val_end.

Definition parse_entry (plain : list byte) (pos entry_i : nat) (restart_uk : list byte)
    : Result CoreError (option Parsed) :=
  if (length (drop pos plain) <? 4)%nat then Err (sst_err "SST block entry truncated in ")
  else
    let raw_len := from_le (take 4 (drop pos plain)) in
    if raw_len =? BLOCK_HASH_MAGIC then Ok None
    else
      let pos := (pos + 4)%nat in
      let payload := Z.to_nat (Z.land raw_len (U32_MAX - ENTRY_TRUNC_FLAG)) in
      if negb (Z.land raw_len ENTRY_TRUNC_FLAG =? 0) then
        if (payload <? 9)%nat then Err (sst_err "SST truncated key too short in ")
        else
          let body_end := (pos + payload)%nat in
          if (length plain <? body_end + 4)%nat then Err (sst_err "SST block entry truncated in ")
          else
            let shared := Z.to_nat (from_le (slice pos (pos + 1) plain)) in
            if (length restart_uk <? shared)%nat then Err (sst_err "SST truncated shared past restart in ")
            else
              let uk := take shared restart_uk ++ slice (pos + 1) (body_end - 8) plain in
              let? val_end := parse_value plain body_end in
              Ok (Some (mkParsed uk (slice (body_end - 8) body_end plain)
                          (slice (body_end + 4) val_end plain) val_end restart_uk))
      else
        if (payload <? 8)%nat then Err (sst_err "SST block internal key too short in ")
        else
          let ikey_end := (pos + payload)%nat in
          if (length plain <? ikey_end + 4)%nat then Err (sst_err "SST block entry truncated in ")
          else
            let uk_end := (ikey_end - 8)%nat in
            let restart_uk :=
              if (entry_i mod BLOCK_RESTART =? 0)%nat then slice pos uk_end plain else restart_uk in
            let? val_end := parse_value plain ikey_end in
            Ok (Some (mkParsed (slice pos uk_end plain) (slice uk_end ikey_end plain)
                        (slice (ikey_end + 4) val_end plain) val_end restart_uk)).

(** The loop of [seek_point_scan]; [None]: out of fuel. *)
Fixpoint seek_loop (fuel : nat) (plain uk : list byte) (snapshot : Z) (skip pos entry_i : nat)
    (restart_uk : list byte) (best : option point) : option (Result CoreError (option point)) :=
  match fuel with
  | O => None
  | S n =>
      if (length plain <=? pos)%nat then Some (Ok best)
      else
        match parse_entry plain pos entry_i restart_uk with
        | Err e => Some (Err e)
        | Ok None => Some (Ok best)
        | Ok (Some p) =>
            let considered :=
              if (skip <=? entry_i)%nat then consider_point best uk (pr_uk p) (pr_trailer p) (pr_val p) snapshot
              else Ok (best, false) in
            match considered with
            | Err e => Some (Err e)
            | Ok (best, true) => Some (Ok best)
            | Ok (best, false) => seek_loop n plain uk snapshot skip (pr_next p) (S entry_i) (pr_restart p) best
            end
        end
  end.

(** Every entry has at least a length field, so the block's length bounds the
    passes. The scratch is reused between searches and not cleared: [stale] is
    the restart key an earlier search left in it. *)
Definition seek_point_scan (stale plain uk : list byte) (snapshot : Z) (skip : nat)
    : option (Result CoreError (option point)) :=
  seek_loop (S (length plain)) plain uk snapshot skip 0 0 stale None.

Definition seek_point_from_restart (stale plain uk : list byte) (snapshot : Z) (restart : nat) :=
  seek_point_scan stale plain uk snapshot (restart * BLOCK_RESTART).

(** [seek_point_in_plain_block] *)
Definition seek_point_in_plain_block (stale plain uk : list byte) (snapshot : Z)
    : option (Result CoreError (option point)) :=
  let '(entries_plain, hash_tr) := split_block_hash plain in
  match hash_tr with
  | Some tr =>
      match block_hash_lookup tr uk with
      | Some HFree => Some (Ok None)
      | Some (HRestart r) => seek_point_from_restart stale entries_plain uk snapshot r
      | Some HConflict | None => seek_point_scan stale entries_plain uk snapshot 0
      end
  | None => seek_point_scan stale entries_plain uk snapshot 0
  end.

(** [struct Cursor] *)
Record Cursor := mkCursor { c_data : list byte; c_pos : nat }.

Definition read_slice (len : nat) (c : Cursor) : Result CoreError (list byte * Cursor) :=
  let end_ := (c_pos c + len)%nat in
  if (length (c_data c) <? end_)%nat then
    Err (Internal [Lit "SST truncated: need "; Num (Z.of_nat len); Lit " at "; Num (Z.of_nat (c_pos c))])
  else Ok (slice (c_pos c) end_ (c_data c), mkCursor (c_data c) end_).

Definition read_uint (n : nat) (c : Cursor) : Result CoreError (Z * Cursor) :=
  let? '(s, c) := read_slice n c in Ok (from_le s, c).
Definition read_u32 := read_uint 4.
Definition read_u64 := read_uint 8.

(** [read_entry_maybe_trunc] *)
Definition read_entry (restart_uk : option (list byte)) (c : Cursor) : Result CoreError (entry * Cursor) :=
  let value ikey c :=
    let? '(val_len, c) := read_u32 c in
    let? '(value, c) := read_slice (Z.to_nat val_len) c in
    Ok ((ikey, value), c) in
  let? '(raw_len, c) := read_u32 c in
  if negb (Z.land raw_len ENTRY_TRUNC_FLAG =? 0) then
    let payload := Z.to_nat (Z.land raw_len (U32_MAX - ENTRY_TRUNC_FLAG)) in
    let? '(body, c) := read_slice payload c in
    if batch_is_empty (length body) then Err (internal "truncated SST key empty")
    else if (payload <? 9)%nat then Err (internal "truncated SST key too short")
    else
      let shared := Z.to_nat (from_le (take 1 body)) in
      let suffix := slice 1 (payload - 8) body in
      let trailer := drop (payload - 8) body in
      let rst := default [] restart_uk in
      if (length rst <? shared)%nat then Err (internal "truncated SST shared past restart")
      else
        let? ikey := decode (take shared rst ++ suffix ++ trailer) in
        value ikey c
  else
    let? '(ikey_bytes, c) := read_slice (Z.to_nat raw_len) c in
    let? ikey := decode ikey_bytes in
    value ikey c.

(** The loop of [decode_block_bytes]. *)
Fixpoint decode_entries (fuel : nat) (i : nat) (restart_uk : option (list byte)) (c : Cursor)
    : option (Result CoreError (list entry)) :=
  match fuel with
  | O => None
  | S n =>
      if batch_is_empty (length (c_data c) - c_pos c) then Some (Ok [])
      else
        match read_entry restart_uk c with
        | Err e => Some (Err e)
        | Ok (e, c) =>
            let restart_uk := if (i mod BLOCK_RESTART =? 0)%nat then Some (user_key e.1) else restart_uk in
            match decode_entries n (S i) restart_uk c with
            | None => None
            | Some r => Some (let? es := r in Ok (e :: es))
            end
        end
  end.

(** [decode_block_bytes] once the block is decompressed. *)
Definition decode_plain_block (plain : list byte) : option (Result CoreError (list entry)) :=
  let '(entries_plain, _) := split_block_hash plain in
  decode_entries (S (length entries_plain)) 0 None (mkCursor entries_plain 0).
End reading.

(** [best_point_in_entry_slice]: from the first entry of the key on. *)
Fixpoint best_loop (es : list entry) (uk : list byte) (snapshot : Z) (best : option point) : option point :=
  match es with
  | [] => best
  | (ikey, value) :: es =>
      if negb (bytes_eqb (user_key ikey) uk) then best
      else if bool_decide (kind ikey = RangeDeletion) then best_loop es uk snapshot best
      else
        let best :=
          if sequence ikey <=? snapshot then keep_best best (sequence ikey, look_of (kind ikey) value)
          else best in
        best_loop es uk snapshot best
  end.

(** [slice::partition_point] by binary search returns the length of the prefix
    where the predicate holds, on a slice where it holds on a prefix. *)
Fixpoint partition_point {A} (p : A → bool) (l : list A) : nat :=
  match l with
  | [] => 0
  | x :: l => if p x then S (partition_point p l) else 0
  end.

Definition best_point_in_entry_slice (block : list entry) (uk : list byte) (snapshot : Z) : option point :=
  best_loop (drop (partition_point (λ e, bytes_ltb (user_key e.1) uk) block) block) uk snapshot None.

(** * The format, as a specification *)

(** Entries the format can carry: sequences of 56 bits, keys below 37 MB (a
    length field equal to the hash magic would end the seek) and values below
    4 GB. *)
Definition entry_ok (e : entry) : Prop :=
  0 ≤ sequence e.1 ≤ MAX_SEQUENCE_NUMBER ∧
  Z.of_nat (length (user_key e.1)) + 8 < BLOCK_HASH_MAGIC ∧
  Z.of_nat (length e.2) ≤ U32_MAX.

Definition packed_of (e : entry) : list byte := to_be 8 (pack_sequence_and_type (sequence e.1) (kind e.1)).
Definition value_bytes (e : entry) : list byte := to_le 4 (Z.of_nat (length e.2)) ++ e.2.

Definition full_bytes (e : entry) : list byte :=
  to_le 4 (Z.of_nat (length (user_key e.1) + 8)) ++ user_key e.1 ++ packed_of e ++ value_bytes e.

Definition trunc_bytes (shared : nat) (e : entry) : list byte :=
  to_le 4 (ENTRY_TRUNC_FLAG + Z.of_nat (9 + (length (user_key e.1) - shared))) ++
  [Z2b (Z.of_nat shared)] ++ drop shared (user_key e.1) ++ packed_of e ++ value_bytes e.

(** [shares rst e s]: the truncated form with [s] shared bytes is faithful. *)
Definition shares (rst : list byte) (e : entry) (s : nat) : Prop :=
  (s ≤ 255)%nat ∧ (s ≤ length rst)%nat ∧ (s < length (user_key e.1))%nat ∧
  take s rst = take s (user_key e.1).

Lemma prefix_shared_len_spec a b :
  (prefix_shared_len a b ≤ length a)%nat ∧ ∀ s, (s ≤ prefix_shared_len a b)%nat → take s a = take s b.
Proof.
  revert b. induction a as [|x a IH]; intros [|y b]; cbn [prefix_shared_len].
  1-3: split; [cbn; lia|intros s Hs; by replace s with 0%nat by lia].
  case_bool_decide as E; [subst y|split; [cbn; lia|intros s Hs; by replace s with 0%nat by lia]].
  destruct (IH b) as [Hl Ht]. split; [cbn; lia|]. intros [|s] Hs; [done|]. cbn. f_equal. apply Ht. lia.
Qed.

Lemma trunc_flag_add n : 0 ≤ n < 2 ^ 31 → Z.lor ENTRY_TRUNC_FLAG n = ENTRY_TRUNC_FLAG + n.
Proof.
  intros Hn. change ENTRY_TRUNC_FLAG with (Z.shiftl 1 31). rewrite (lor_shiftl_add 31) by lia. done.
Qed.

Lemma try_u32_ok n msg : Z.of_nat n ≤ U32_MAX → try_u32 n msg = Ok (Z.of_nat n).
Proof. intros H. unfold try_u32. by rewrite (proj2 (Z.ltb_ge _ _)) by done. Qed.

(** What [encode_entry] writes: the full form, or a faithful truncated form. *)
Lemma encode_entry_cases e r :
  entry_ok e →
  encode_entry e.1 e.2 r = Ok (full_bytes e) ∨
  ∃ rst s, r = Some rst ∧ shares rst e s ∧ encode_entry e.1 e.2 r = Ok (trunc_bytes s e).
Proof.
  intros (Hs & Hk & Hv). unfold BLOCK_HASH_MAGIC in Hk. unfold encode_entry.
  rewrite try_u32_ok by done. cbn [res_bind].
  rewrite (try_u32_ok (length (user_key e.1) + 8)) by (unfold U32_MAX; lia). cbn [res_bind].
  assert (to_le 4 (Z.of_nat (length (user_key e.1) + 8)) ++ encode e.1 ++
          to_le 4 (Z.of_nat (length e.2)) ++ e.2 = full_bytes e) as Hfull.
  { unfold full_bytes, encode, encode_into, packed_of, value_bytes. cbn [app]. by rewrite <-!(assoc_L (++)). }
  destruct r as [rst|]; [|left; by rewrite Hfull].
  set (s := Nat.min (prefix_shared_len rst (user_key e.1)) 255).
  destruct ((2 <=? s)%nat && (s <? length (user_key e.1))%nat) eqn:E; [|left; by rewrite Hfull].
  apply andb_prop in E as [E1%Nat.leb_le E2%Nat.ltb_lt].
  destruct (prefix_shared_len_spec rst (user_key e.1)) as [Hl Ht]. right. exists rst, s.
  split; [done|]. split; [split_and!; [lia|lia|done|apply Ht; lia]|].
  rewrite length_drop. rewrite try_u32_ok by (unfold U32_MAX; lia). cbn [res_bind].
  rewrite trunc_flag_add by lia. unfold trunc_bytes, packed_of, value_bytes. do 3 f_equal. lia.
Qed.

(** ** Slices *)

Lemma slice_at a b pre x rest :
  a = length pre → b = (length pre + length x)%nat → slice a b (pre ++ x ++ rest) = x.
Proof.
  intros -> ->. unfold slice. rewrite drop_app_length.
  replace (length pre + length x - length pre)%nat with (length x) by lia. apply take_app_length.
Qed.

Lemma slice_split a b n l : (a + n ≤ b)%nat → slice a b l = slice a (a + n) l ++ slice (a + n) b l.
Proof.
  intros Hle. unfold slice. replace (a + n - a)%nat with n by lia. rewrite <-drop_drop.
  replace (b - a)%nat with (n + (b - (a + n)))%nat by lia. by rewrite take_take_drop.
Qed.

Lemma cursor_slice_at data pre x rest len :
  data = pre ++ x ++ rest → len = length x →
  read_slice len (mkCursor data (length pre)) = Ok (x, mkCursor data (length pre + length x)).
Proof.
  intros Hd ->. unfold read_slice. cbn [c_data c_pos]. rewrite (proj2 (Nat.ltb_ge _ _)) by (rewrite Hd; len).
  rewrite Hd at 1. by rewrite slice_at.
Qed.

Lemma read_uint_at data pre rest n z :
  data = pre ++ to_le n z ++ rest → 0 ≤ z < 256 ^ Z.of_nat n →
  read_uint n (mkCursor data (length pre)) = Ok (z, mkCursor data (length pre + n)).
Proof.
  intros Hd Hz. unfold read_uint. rewrite (cursor_slice_at data pre (to_le n z) rest n Hd) by len.
  cbn [res_bind]. rewrite length_to_le. by rewrite from_le_to_le.
Qed.

Lemma pow256_4 : 256 ^ Z.of_nat 4 = 4294967296.
Proof. done. Qed.

(** ** Length fields *)

Lemma land_trunc_flag n : 0 ≤ n < 2 ^ 31 → Z.land n ENTRY_TRUNC_FLAG = 0.
Proof.
  intros Hn. apply Z.bits_inj'. intros i Hi. rewrite Z.land_spec, Z.testbit_0_l.
  change ENTRY_TRUNC_FLAG with (2 ^ 31). destruct (decide (i = 31)) as [->|].
  - rewrite Z.testbit_odd, Z.shiftr_div_pow2, Z.div_small by lia. done.
  - rewrite Z.pow2_bits_false by lia. by rewrite andb_false_r.
Qed.

Lemma raw_len_full n : 0 ≤ n < 2 ^ 31 →
  Z.land n ENTRY_TRUNC_FLAG = 0 ∧ Z.land n (U32_MAX - ENTRY_TRUNC_FLAG) = n.
Proof.
  intros Hn. split; [by apply land_trunc_flag|]. change (U32_MAX - ENTRY_TRUNC_FLAG) with (Z.ones 31).
  rewrite Z.land_ones, Z.mod_small by lia. done.
Qed.

Lemma raw_len_trunc n : 0 ≤ n < 2 ^ 31 →
  Z.land (ENTRY_TRUNC_FLAG + n) ENTRY_TRUNC_FLAG ≠ 0 ∧
  Z.land (ENTRY_TRUNC_FLAG + n) (U32_MAX - ENTRY_TRUNC_FLAG) = n.
Proof.
  intros Hn. rewrite <-trunc_flag_add by done. split.
  - rewrite Z.land_lor_distr_l, (land_trunc_flag n) by done. done.
  - rewrite Z.land_lor_distr_l. change (U32_MAX - ENTRY_TRUNC_FLAG) with (Z.ones 31).
    rewrite (Z.land_ones n), (Z.mod_small n) by lia. done.
Qed.

(** * One entry, read back *)

Lemma packed_bound e : entry_ok e → 0 ≤ pack_sequence_and_type (sequence e.1) (kind e.1) < 256 ^ Z.of_nat 8.
Proof.
  intros (Hs & _). rewrite pack_eq by done. pose proof (as_u8_range (kind e.1)).
  unfold MAX_SEQUENCE_NUMBER in *. change (256 ^ Z.of_nat 8) with 18446744073709551616.
  change (2 ^ 56) with 72057594037927936 in *. lia.
Qed.

Lemma length_packed e : length (packed_of e) = 8%nat.
Proof. apply length_to_be. Qed.

Lemma decode_packed e : entry_ok e → decode (user_key e.1 ++ packed_of e) = Ok e.1.
Proof. intros (Hs & _). by apply (decode_encode e.1). Qed.

Lemma length_value_bytes e : length (value_bytes e) = (4 + length e.2)%nat.
Proof. unfold value_bytes. len. Qed.

Lemma length_full_bytes e : length (full_bytes e) = (16 + length (user_key e.1) + length e.2)%nat.
Proof. unfold full_bytes. rewrite !length_app, length_value_bytes, length_packed, length_to_le. lia. Qed.

Lemma length_trunc_bytes s e :
  (s < length (user_key e.1))%nat →
  length (trunc_bytes s e) = (17 + (length (user_key e.1) - s) + length e.2)%nat.
Proof.
  intros Hs. unfold trunc_bytes. rewrite !length_app, length_value_bytes, length_packed, length_to_le, length_drop.
  cbn [length]. lia.
Qed.

Lemma entry_value_range e : entry_ok e → 0 ≤ Z.of_nat (length e.2) < 256 ^ Z.of_nat 4.
Proof. rewrite pow256_4. unfold entry_ok, U32_MAX. lia. Qed.

Lemma read_value_at data pre rest e (ikey : InternalKey) :
  data = pre ++ value_bytes e ++ rest → entry_ok e →
  (let? '(val_len, c) := read_uint 4 (mkCursor data (length pre)) in
   let? '(value, c) := read_slice (Z.to_nat val_len) c in
   Ok ((ikey, value), c)) =
  Ok ((ikey, e.2), mkCursor data (length pre + length (value_bytes e))).
Proof.
  intros Hd He. unfold value_bytes in Hd. rewrite <-(assoc_L (++)) in Hd.
  rewrite (read_uint_at data pre (e.2 ++ rest) 4 _ Hd (entry_value_range e He)). cbn [res_bind].
  rewrite Nat2Z.id. replace (length pre + 4)%nat with (length (pre ++ to_le 4 (Z.of_nat (length e.2)))) by len.
  rewrite (cursor_slice_at data _ e.2 rest) by (rewrite ?Hd, <-?(assoc_L (++)); done). cbn [res_bind].
  rewrite length_value_bytes, length_app, length_to_le. do 3 f_equal. lia.
Qed.

Lemma read_full_at data pre rest e restart :
  data = pre ++ full_bytes e ++ rest → entry_ok e →
  read_entry restart (mkCursor data (length pre)) =
    Ok (e, mkCursor data (length pre + length (full_bytes e))).
Proof.
  intros Hd He. pose proof He as (_ & Hk & _). unfold BLOCK_HASH_MAGIC in Hk.
  unfold read_entry. unfold full_bytes in Hd. rewrite <-!(assoc_L (++)) in Hd.
  unfold read_u32. rewrite (read_uint_at data pre _ 4 _ Hd) by (rewrite pow256_4; lia). cbn [res_bind].
  destruct (raw_len_full (Z.of_nat (length (user_key e.1) + 8)) ltac:(lia)) as [Hf _]. rewrite Hf. cbn [Z.eqb negb].
  rewrite Nat2Z.id. set (pre1 := pre ++ to_le 4 (Z.of_nat (length (user_key e.1) + 8))).
  replace (length pre + 4)%nat with (length pre1) by (unfold pre1; len).
  rewrite (cursor_slice_at data pre1 (user_key e.1 ++ packed_of e) (value_bytes e ++ rest))
    by (rewrite ?Hd, ?length_app, ?length_packed; unfold pre1; rewrite <-?(assoc_L (++)); done || lia).
  cbn [res_bind]. rewrite decode_packed by done. cbn [res_bind].
  set (pre2 := pre1 ++ user_key e.1 ++ packed_of e).
  replace (length pre1 + length (user_key e.1 ++ packed_of e))%nat with (length pre2) by (unfold pre2; len).
  rewrite (read_value_at data pre2 rest e e.1) by (rewrite ?Hd; unfold pre2, pre1; rewrite <-?(assoc_L (++)); done).
  rewrite length_full_bytes, length_value_bytes. unfold pre2, pre1.
  rewrite !length_app, length_packed, length_to_le. destruct e. do 3 f_equal. cbn. lia.
Qed.

Lemma read_trunc_at data pre rest e rst s :
  data = pre ++ trunc_bytes s e ++ rest → entry_ok e → shares rst e s →
  read_entry (Some rst) (mkCursor data (length pre)) =
    Ok (e, mkCursor data (length pre + length (trunc_bytes s e))).
Proof.
  intros Hd He (Hs1 & Hs2 & Hs3 & Hs4). pose proof He as (_ & Hk & _). unfold BLOCK_HASH_MAGIC in Hk.
  unfold read_entry. pose proof (length_trunc_bytes s e Hs3) as Hlt.
  unfold trunc_bytes in Hd. rewrite <-!(assoc_L (++)) in Hd.
  set (n := (9 + (length (user_key e.1) - s))%nat) in *.
  unfold read_u32. rewrite (read_uint_at data pre _ 4 _ Hd) by (rewrite pow256_4; unfold ENTRY_TRUNC_FLAG; lia).
  cbn [res_bind]. destruct (raw_len_trunc (Z.of_nat n) ltac:(lia)) as [Hf Hp].
  rewrite (proj2 (Z.eqb_neq _ 0)) by done. cbn [negb]. rewrite Hp, Nat2Z.id.
  set (pre1 := pre ++ to_le 4 (ENTRY_TRUNC_FLAG + Z.of_nat n)).
  set (body := [Z2b (Z.of_nat s)] ++ drop s (user_key e.1) ++ packed_of e).
  assert (length body = n) as Hb by (unfold body; rewrite !length_app, length_packed, length_drop; cbn; lia).
  replace (length pre + 4)%nat with (length pre1) by (unfold pre1; len).
  rewrite (cursor_slice_at data pre1 body (value_bytes e ++ rest))
    by (rewrite ?Hd; unfold pre1, body; rewrite <-?(assoc_L (++)); done).
  cbn [res_bind]. rewrite Hb. unfold batch_is_empty.
  rewrite (proj2 (Nat.eqb_neq n 0)), (proj2 (Nat.ltb_ge n 9)) by lia.
  assert (Z.to_nat (from_le (take 1 body)) = s) as ->.
  { change (take 1 body) with [Z2b (Z.of_nat s)]. rewrite from_le_cons, from_le_nil, b2Z_Z2b_small by lia. lia. }
  change (default [] (Some rst)) with rst. rewrite (proj2 (Nat.ltb_ge _ _)) by done.
  assert (slice 1 (n - 8) body = drop s (user_key e.1)) as ->.
  { unfold body. apply (slice_at _ _ [_]); [done|]. cbn. rewrite length_drop. lia. }
  assert (drop (n - 8) body = packed_of e) as ->.
  { unfold body. rewrite (assoc_L (++)). apply drop_app_length'. rewrite length_app, length_drop. cbn. lia. }
  rewrite Hs4, (assoc_L (++) (take s _)), take_drop, decode_packed by done. cbn [res_bind].
  set (pre2 := pre1 ++ body).
  replace (length pre1 + n)%nat with (length pre2) by (unfold pre2; len).
  rewrite (read_value_at data pre2 rest e e.1)
    by (rewrite ?Hd; unfold pre2, pre1, body; rewrite <-?(assoc_L (++)); done).
  unfold trunc_bytes in Hlt. fold n in Hlt. unfold trunc_bytes. fold n. rewrite Hlt, length_value_bytes.
  unfold pre2, pre1. rewrite !length_app, Hb, length_to_le. destruct e. do 3 f_equal. cbn in *. lia.
Qed.

(** The same entry, as the seek parses it. *)
Lemma parse_value_at path plain pre rest e :
  plain = pre ++ value_bytes e ++ rest → entry_ok e →
  parse_value path plain (length pre) = Ok (length pre + length (value_bytes e))%nat ∧
  slice (length pre + 4) (length pre + length (value_bytes e)) plain = e.2.
Proof.
  intros Hd He. pose proof (length_value_bytes e) as Hv. unfold parse_value.
  rewrite (proj2 (Nat.ltb_ge _ (length pre + 4))) by (rewrite Hd, !length_app; lia).
  assert (slice (length pre) (length pre + 4) plain = to_le 4 (Z.of_nat (length e.2))) as ->.
  { rewrite Hd. unfold value_bytes. rewrite <-(assoc_L (++)). apply slice_at; [done|]. by rewrite length_to_le. }
  rewrite from_le_to_le, Nat2Z.id by (by apply entry_value_range).
  rewrite (proj2 (Nat.ltb_ge _ _)) by (rewrite Hd, !length_app; lia). split; [f_equal; lia|].
  rewrite Hd, Hv. unfold value_bytes. rewrite <-(assoc_L (++)), (assoc_L (++) pre).
  apply slice_at; rewrite length_app, length_to_le; lia.
Qed.

Lemma parse_full_at path plain pre rest e i rst :
  plain = pre ++ full_bytes e ++ rest → entry_ok e →
  parse_entry path plain (length pre) i rst =
    Ok (Some (mkParsed (user_key e.1) (packed_of e) e.2 (length pre + length (full_bytes e))
                (if (i mod BLOCK_RESTART =? 0)%nat then user_key e.1 else rst))).
Proof.
  intros Hd He. pose proof He as (_ & Hk & _). pose proof (length_full_bytes e) as Hlf.
  unfold full_bytes in Hd, Hlf. rewrite <-!(assoc_L (++)) in Hd.
  set (n := Z.of_nat (length (user_key e.1) + 8)) in *.
  set (pre1 := pre ++ to_le 4 n). assert (length pre1 = length pre + 4)%nat as Hp1 by (unfold pre1; len).
  set (pre2 := pre1 ++ user_key e.1). assert (length pre2 = length pre + 4 + length (user_key e.1))%nat as Hp2
    by (unfold pre2; len).
  set (pre3 := pre2 ++ packed_of e). assert (length pre3 = length pre2 + 8)%nat as Hp3
    by (unfold pre3; rewrite length_app, length_packed; lia).
  assert (plain = pre1 ++ user_key e.1 ++ packed_of e ++ value_bytes e ++ rest) as D1
    by (rewrite Hd; unfold pre1; by rewrite <-!(assoc_L (++))).
  assert (plain = pre2 ++ packed_of e ++ value_bytes e ++ rest) as D2
    by (rewrite D1; unfold pre2; by rewrite <-!(assoc_L (++))).
  assert (plain = pre3 ++ value_bytes e ++ rest) as D3
    by (rewrite D2; unfold pre3; by rewrite <-!(assoc_L (++))).
  unfold parse_entry. unfold BLOCK_HASH_MAGIC in *.
  assert (drop (length pre) plain = to_le 4 n ++ user_key e.1 ++ packed_of e ++ value_bytes e ++ rest) as Hdr
    by (rewrite Hd; apply drop_app_length).
  rewrite Hdr, take_to_le, from_le_to_le by (rewrite pow256_4; unfold n; lia).
  rewrite (proj2 (Nat.ltb_ge _ 4)) by (rewrite length_app, length_to_le; lia).
  rewrite (proj2 (Z.eqb_neq n _)) by (unfold n; lia).
  destruct (raw_len_full n ltac:(unfold n; lia)) as [-> ->]. cbn [Z.eqb negb].
  unfold n at 1. rewrite Nat2Z.id. rewrite (proj2 (Nat.ltb_ge _ 8)) by lia.
  assert (length plain = length pre + (16 + length (user_key e.1) + length e.2) + length rest)%nat as Hlp.
  { rewrite Hd, !length_app in *. lia. }
  rewrite (proj2 (Nat.ltb_ge (length plain) _)) by (unfold n; rewrite ?Nat2Z.id; lia).
  replace (length pre + 4 + Z.to_nat n)%nat with (length pre3) by (unfold n; rewrite Nat2Z.id; lia).
  replace (length pre3 - 8)%nat with (length pre2) by lia.
  replace (length pre + 4)%nat with (length pre1) by lia.
  assert (slice (length pre1) (length pre2) plain = user_key e.1) as ->.
  { rewrite D1. apply slice_at; [done|lia]. }
  assert (slice (length pre2) (length pre3) plain = packed_of e) as ->.
  { rewrite D2. apply slice_at; [done|rewrite length_packed; lia]. }
  destruct (parse_value_at path plain pre3 rest e D3 He) as [-> Hsl].
  cbn [res_bind]. rewrite Hsl, length_value_bytes, length_full_bytes. do 3 f_equal. lia.
Qed.

Lemma parse_trunc_at path plain pre rest e i rst s :
  plain = pre ++ trunc_bytes s e ++ rest → entry_ok e → shares rst e s →
  parse_entry path plain (length pre) i rst =
    Ok (Some (mkParsed (user_key e.1) (packed_of e) e.2 (length pre + length (trunc_bytes s e)) rst)).
Proof.
  intros Hd He (Hs1 & Hs2 & Hs3 & Hs4). pose proof He as (_ & Hk & _).
  pose proof (length_trunc_bytes s e Hs3) as Hlt. unfold trunc_bytes in Hd, Hlt. rewrite <-!(assoc_L (++)) in Hd.
  set (m := (9 + (length (user_key e.1) - s))%nat) in *. set (n := ENTRY_TRUNC_FLAG + Z.of_nat m) in *.
  set (sb := [Z2b (Z.of_nat s)]) in *. set (suffix := drop s (user_key e.1)) in *.
  assert (length suffix = length (user_key e.1) - s)%nat as Hls by (unfold suffix; len).
  set (pre1 := pre ++ to_le 4 n). assert (length pre1 = length pre + 4)%nat as Hp1 by (unfold pre1; len).
  set (pre2 := pre1 ++ sb). assert (length pre2 = length pre1 + 1)%nat as Hp2 by (unfold pre2, sb; len).
  set (pre3 := pre2 ++ suffix). assert (length pre3 = length pre2 + length suffix)%nat as Hp3
    by (unfold pre3; len).
  set (pre4 := pre3 ++ packed_of e). assert (length pre4 = length pre3 + 8)%nat as Hp4
    by (unfold pre4; rewrite length_app, length_packed; lia).
  assert (plain = pre1 ++ sb ++ suffix ++ packed_of e ++ value_bytes e ++ rest) as D1
    by (rewrite Hd; unfold pre1; by rewrite <-!(assoc_L (++))).
  assert (plain = pre2 ++ suffix ++ packed_of e ++ value_bytes e ++ rest) as D2
    by (rewrite D1; unfold pre2; by rewrite <-!(assoc_L (++))).
  assert (plain = pre3 ++ packed_of e ++ value_bytes e ++ rest) as D3
    by (rewrite D2; unfold pre3; by rewrite <-!(assoc_L (++))).
  assert (plain = pre4 ++ value_bytes e ++ rest) as D4
    by (rewrite D3; unfold pre4; by rewrite <-!(assoc_L (++))).
  unfold parse_entry. unfold BLOCK_HASH_MAGIC in *.
  assert (drop (length pre) plain = to_le 4 n ++ sb ++ suffix ++ packed_of e ++ value_bytes e ++ rest) as Hdr
    by (rewrite Hd; apply drop_app_length).
  rewrite Hdr, take_to_le, from_le_to_le by (rewrite pow256_4; unfold n, ENTRY_TRUNC_FLAG; lia).
  rewrite (proj2 (Nat.ltb_ge _ 4)) by (rewrite length_app, length_to_le; lia).
  rewrite (proj2 (Z.eqb_neq n _)) by (unfold n, ENTRY_TRUNC_FLAG; lia).
  destruct (raw_len_trunc (Z.of_nat m) ltac:(lia)) as [Hf Hp]. fold n in Hf, Hp.
  rewrite (proj2 (Z.eqb_neq _ 0)) by done. cbn [negb]. rewrite Hp, Nat2Z.id.
  rewrite (proj2 (Nat.ltb_ge m 9)) by lia.
  replace (length pre + 4 + m)%nat with (length pre4) by lia.
  replace (length pre4 - 8)%nat with (length pre3) by lia.
  replace (length pre + 4)%nat with (length pre1) by lia.
  rewrite (proj2 (Nat.ltb_ge (length plain) _)) by (rewrite D4, !length_app, length_value_bytes; lia).
  rewrite <-Hp2.
  assert (slice (length pre1) (length pre2) plain = sb) as ->
    by (rewrite D1; apply slice_at; [done|rewrite Hp2; done]).
  assert (Z.to_nat (from_le sb) = s) as ->
    by (unfold sb; rewrite from_le_cons, from_le_nil, b2Z_Z2b_small by lia; lia).
  rewrite (proj2 (Nat.ltb_ge _ _)) by done.
  assert (slice (length pre2) (length pre3) plain = suffix) as -> by (rewrite D2; apply slice_at; [done|lia]).
  assert (slice (length pre3) (length pre4) plain = packed_of e) as ->
    by (rewrite D3; apply slice_at; [done|rewrite length_packed; lia]).
  destruct (parse_value_at path plain pre4 rest e D4 He) as [-> Hsl]. cbn [res_bind]. rewrite Hsl.
  unfold suffix. rewrite Hs4, take_drop, length_value_bytes, length_trunc_bytes by done. do 3 f_equal. lia.
Qed.

(** * A run of entries *)

(** The restart argument the writer passes for entry [i], and the restart key
    afterwards. *)
Definition restart_arg (i : nat) (rst : list byte) : option (list byte) :=
  if (i mod BLOCK_RESTART =? 0)%nat then None else Some rst.
Definition restart_next (i : nat) (rst : list byte) (e : entry) : list byte :=
  if (i mod BLOCK_RESTART =? 0)%nat then user_key e.1 else rst.

Definition entry_bytes (e : entry) (r : option (list byte)) : list byte :=
  match encode_entry e.1 e.2 r with Ok b => b | Err _ => [] end.

Fixpoint run_bytes (i : nat) (rst : list byte) (es : list entry) : list byte :=
  match es with
  | [] => []
  | e :: es => entry_bytes e (restart_arg i rst) ++ run_bytes (S i) (restart_next i rst e) es
  end.

Definition keys_of (es : list entry) : list (list byte) := (λ e, user_key e.1) <$> es.

(** A block as the writer leaves it before compression. *)
Definition block_bytes (es : list entry) : list byte :=
  run_bytes 0 [] es ++ block_hash_bytes (keys_of es).

Lemma entry_bytes_length e r : entry_ok e → (16 ≤ length (entry_bytes e r))%nat.
Proof.
  intros He. unfold entry_bytes. destruct (encode_entry_cases e r He) as [->|(rst & s & _ & (_ & _ & Hs & _) & ->)].
  - rewrite length_full_bytes. lia.
  - rewrite length_trunc_bytes by done. lia.
Qed.

(** Either reader recovers the entry written at a position. *)
Lemma read_entry_at data pre rest e i rst ropt :
  data = pre ++ entry_bytes e (restart_arg i rst) ++ rest → entry_ok e →
  (restart_arg i rst = Some rst → ropt = Some rst) →
  read_entry ropt (mkCursor data (length pre)) =
    Ok (e, mkCursor data (length pre + length (entry_bytes e (restart_arg i rst)))).
Proof.
  intros Hd He Hr. unfold entry_bytes in *.
  destruct (encode_entry_cases e (restart_arg i rst) He) as [E|(rst' & s & Er & Hsh & E)]; rewrite E in *.
  - by eapply read_full_at.
  - assert (rst' = rst) as ->.
    { unfold restart_arg in Er. destruct (_ =? 0)%nat; [done|]. by injection Er as ->. }
    rewrite Hr by done. by eapply read_trunc_at.
Qed.

Lemma parse_entry_at path plain pre rest e i rst :
  plain = pre ++ entry_bytes e (restart_arg i rst) ++ rest → entry_ok e →
  parse_entry path plain (length pre) i rst =
    Ok (Some (mkParsed (user_key e.1) (packed_of e) e.2
                (length pre + length (entry_bytes e (restart_arg i rst))) (restart_next i rst e))).
Proof.
  intros Hd He. unfold entry_bytes, restart_next in *.
  destruct (encode_entry_cases e (restart_arg i rst) He) as [E|(rst' & s & Er & Hsh & E)]; rewrite E in *.
  - by eapply parse_full_at.
  - unfold restart_arg in Er. destruct (i mod BLOCK_RESTART =? 0)%nat; [done|]. injection Er as ->.
    by eapply parse_trunc_at.
Qed.

Lemma decode_entries_ok fuel data pre i rst es ropt :
  data = pre ++ run_bytes i rst es → Forall entry_ok es → (length es < fuel)%nat →
  (restart_arg i rst = Some rst → ropt = Some rst) →
  decode_entries fuel i ropt (mkCursor data (length pre)) = Some (Ok es).
Proof.
  revert pre i rst es ropt. induction fuel as [|n IH]; intros pre i rst es ropt Hd He Hf Hr; [lia|].
  cbn [decode_entries c_data c_pos]. destruct es as [|e es]; cbn [run_bytes length] in *.
  { rewrite Hd, app_nil_r, Nat.sub_diag. done. }
  apply Forall_cons in He as [He Hes]. pose proof (entry_bytes_length e (restart_arg i rst) He).
  unfold batch_is_empty. rewrite (proj2 (Nat.eqb_neq _ 0)) by (rewrite Hd; len).
  rewrite (read_entry_at data pre _ e i rst ropt Hd He Hr).
  rewrite <-length_app. rewrite (IH _ (S i) (restart_next i rst e) es); [done|by rewrite Hd, (assoc_L (++))|done|lia|].
  unfold restart_arg, restart_next. destruct (S i mod BLOCK_RESTART =? 0)%nat; [done|].
  destruct (i mod BLOCK_RESTART =? 0)%nat eqn:E; [done|]. intros _. apply Hr. unfold restart_arg. by rewrite E.
Qed.

(** * The hash trailer *)

Lemma ceil_div_bound a b : (0 < b)%nat → (ceil_div a b ≤ 253 → a ≤ 253 * b)%nat.
Proof.
  unfold ceil_div. intros Hb Hc. pose proof (Nat.div_mod_eq (a + b - 1) b).
  pose proof (Nat.mod_upper_bound (a + b - 1) b ltac:(lia)). nia.
Qed.

Lemma note_key_length n bs ik : length (note_key n bs ik) = length bs.
Proof. unfold note_key. repeat case_match; by rewrite ?length_insert. Qed.

Lemma note_keys_length n bs iks : length (foldl (note_key n) bs iks) = length bs.
Proof. revert bs. induction iks as [|ik iks IH]; intros bs; [done|]. cbn. by rewrite IH, note_key_length. Qed.

Lemma bucket_of_lt key n : (0 < n)%nat → (bucket_of key n < n)%nat.
Proof.
  intros Hn. unfold bucket_of. pose proof (Z.mod_pos_bound (hash_pair key).1 (Z.of_nat n) ltac:(lia)). lia.
Qed.

(** What a bucket tells about the keys noted so far. *)
Definition bucket_sound (n : nat) (iks : list (nat * list byte)) (bs : list byte) : Prop :=
  length bs = n ∧
  ∀ i k, (i, k) ∈ iks → ∃ v, bs !! bucket_of k n = Some v ∧ v ≠ BLOCK_HASH_FREE ∧
    (v = BLOCK_HASH_CONFLICT ∨ v = Z2b (Z.of_nat (i / BLOCK_RESTART))).

Lemma restart_byte i : (i / BLOCK_RESTART ≤ 253)%nat →
  Z2b (Z.of_nat (i / BLOCK_RESTART)) ≠ BLOCK_HASH_FREE ∧ Z2b (Z.of_nat (i / BLOCK_RESTART)) ≠ BLOCK_HASH_CONFLICT ∧
  b2Z (Z2b (Z.of_nat (i / BLOCK_RESTART))) = Z.of_nat (i / BLOCK_RESTART).
Proof.
  intros Hi. assert (b2Z (Z2b (Z.of_nat (i / BLOCK_RESTART))) = Z.of_nat (i / BLOCK_RESTART)) as E
    by (apply b2Z_Z2b_small; lia).
  split_and!; [| |done]; intros H; rewrite H in E;
    [change (b2Z BLOCK_HASH_FREE) with 255 in E|change (b2Z BLOCK_HASH_CONFLICT) with 254 in E]; lia.
Qed.

Lemma note_key_sound n iks bs i k :
  (0 < n)%nat → bucket_sound n iks bs → (i / BLOCK_RESTART ≤ 253)%nat →
  bucket_sound n ((i, k) :: iks) (note_key n bs (i, k)).
Proof.
  intros Hn [Hl Hb] Hi. destruct (restart_byte i Hi) as (R1 & R2 & _). split; [by rewrite note_key_length|].
  pose proof (bucket_of_lt k n Hn) as Hlt. unfold note_key. cbn [fst snd].
  set (r := Z2b (Z.of_nat (i / BLOCK_RESTART))) in *. set (b := bucket_of k n) in *.
  destruct (lookup_lt_is_Some_2 bs b ltac:(lia)) as [v Hv]. rewrite Hv.
  intros i' k' Hin. destruct (decide (bucket_of k' n = b)) as [Eb|Eb].
  - rewrite Eb. apply elem_of_cons in Hin as [[= -> ->]|Hin].
    + case_bool_decide; [exists r; rewrite list_lookup_insert_eq by lia; auto|].
      case_bool_decide; [exists v; subst; auto|].
      exists BLOCK_HASH_CONFLICT. rewrite list_lookup_insert_eq by lia. by split_and!; [|discriminate|left].
    + destruct (Hb i' k' Hin) as (v' & Hv' & F & C). rewrite Eb, Hv in Hv'. injection Hv' as <-.
      case_bool_decide; [done|]. case_bool_decide; [by exists v|].
      exists BLOCK_HASH_CONFLICT. rewrite list_lookup_insert_eq by lia. by split_and!; [|discriminate|left].
  - apply elem_of_cons in Hin as [[= -> ->]|Hin]; [done|]. destruct (Hb i' k' Hin) as (v' & Hv' & F & C).
    exists v'. split; [|done]. repeat case_bool_decide; by rewrite ?list_lookup_insert_ne.
Qed.

Lemma note_keys_sound n iks done_ bs :
  (0 < n)%nat → bucket_sound n done_ bs → Forall (λ ik, (ik.1 / BLOCK_RESTART ≤ 253)%nat) iks →
  bucket_sound n (reverse iks ++ done_) (foldl (note_key n) bs iks).
Proof.
  intros Hn. revert done_ bs. induction iks as [|[i k] iks IH]; intros done_ bs Hb Hi; [done|].
  apply Forall_cons in Hi as [Hi His]. cbn [foldl]. rewrite reverse_cons, <-(assoc_L (++)).
  apply IH; [|done]. by apply note_key_sound.
Qed.

Definition hash_buckets (keys : list (list byte)) : list byte :=
  let n := clamp (length keys * 2) 8 4096 in
  foldl (note_key n) (replicate n BLOCK_HASH_FREE) (imap pair keys).

Lemma elem_of_imap_pair {A} (l : list A) i x : (i, x) ∈ imap pair l ↔ l !! i = Some x.
Proof.
  rewrite list_elem_of_lookup. setoid_rewrite list_lookup_imap. split.
  - intros [j Hj]. destruct (l !! j) as [y|] eqn:E; [|done]. cbn in Hj. by simplify_eq.
  - intros E. exists i. by rewrite E.
Qed.

Lemma clamp_range x : (8 ≤ clamp x 8 4096 ≤ 4096)%nat.
Proof. unfold clamp. lia. Qed.

Lemma hash_buckets_sound keys :
  (length keys ≤ 253 * BLOCK_RESTART)%nat →
  bucket_sound (clamp (length keys * 2) 8 4096) (imap pair keys) (hash_buckets keys).
Proof.
  intros Hl. unfold hash_buckets. pose proof (clamp_range (length keys * 2)) as Hc.
  set (n := clamp _ _ _) in *.
  destruct (note_keys_sound n (imap pair keys) [] (replicate n BLOCK_HASH_FREE)) as [H1 H2]; [lia| | |].
  - split; [by rewrite length_replicate|]. intros i k ?%not_elem_of_nil. done.
  - apply Forall_forall. intros [i k] Hin%elem_of_imap_pair. apply lookup_lt_Some in Hin. cbn [fst].
    apply Nat.Div0.div_le_upper_bound. unfold BLOCK_RESTART in *. lia.
  - split; [done|]. intros i k Hin. apply H2. rewrite app_nil_r. by apply elem_of_reverse.
Qed.

Lemma block_hash_bytes_eq keys :
  keys ≠ [] → (length keys ≤ 253 * BLOCK_RESTART)%nat →
  block_hash_bytes keys =
    to_le 4 BLOCK_HASH_MAGIC ++ hash_buckets keys ++ to_le 2 (Z.of_nat (clamp (length keys * 2) 8 4096)).
Proof.
  intros Hne Hl. unfold block_hash_bytes, batch_is_empty.
  rewrite (proj2 (Nat.eqb_neq (length keys) 0)) by (by destruct keys).
  rewrite (proj2 (Nat.ltb_ge _ _)); [done|]. unfold ceil_div, BLOCK_RESTART in *.
  apply Nat.lt_succ_r, Nat.Div0.div_lt_upper_bound. lia.
Qed.

Lemma hash_buckets_length keys : length (hash_buckets keys) = clamp (length keys * 2) 8 4096.
Proof. unfold hash_buckets. by rewrite note_keys_length, length_replicate. Qed.

(** The trailer is found where the writer put it. *)
Lemma split_block_hash_ok run keys :
  keys ≠ [] → (length keys ≤ 253 * BLOCK_RESTART)%nat →
  split_block_hash (run ++ block_hash_bytes keys) = (run, Some (block_hash_bytes keys)).
Proof.
  intros Hne Hl. pose proof (clamp_range (length keys * 2)) as Hc. rewrite block_hash_bytes_eq by done.
  pose proof (hash_buckets_length keys) as Hb. set (n := clamp _ _ _) in *. set (bs := hash_buckets keys) in *.
  set (tr := to_le 4 BLOCK_HASH_MAGIC ++ bs ++ to_le 2 (Z.of_nat n)).
  assert (length tr = 6 + n)%nat as Ht by (unfold tr; len).
  unfold split_block_hash. rewrite (proj2 (Nat.ltb_ge _ 14)) by len.
  assert (drop (length (run ++ tr) - 2) (run ++ tr) = to_le 2 (Z.of_nat n)) as ->.
  { unfold tr. rewrite !(assoc_L (++)). apply drop_app_length'. len. }
  rewrite from_le_to_le, Nat2Z.id by (change (256 ^ Z.of_nat 2) with 65536; lia).
  rewrite (proj2 (Nat.ltb_ge n 8)), (proj2 (Nat.ltb_ge 4096 n)) by lia. cbn [orb].
  rewrite (proj2 (Nat.ltb_ge _ _)) by len.
  replace (length (run ++ tr) - (4 + n + 2))%nat with (length run) by len.
  rewrite drop_app_length, take_app_length. unfold tr at 1. rewrite take_to_le.
  rewrite from_le_to_le by (rewrite pow256_4; unfold BLOCK_HASH_MAGIC; lia). rewrite Z.eqb_refl. done.
Qed.

(** What the trailer answers for a key. *)
Lemma block_hash_lookup_ok keys uk :
  keys ≠ [] → (length keys ≤ 253 * BLOCK_RESTART)%nat →
  match block_hash_lookup (block_hash_bytes keys) uk with
  | Some HFree => uk ∉ keys
  | Some (HRestart r) => ∀ i, keys !! i = Some uk → (r * BLOCK_RESTART ≤ i)%nat
  | Some HConflict | None => True
  end.
Proof.
  intros Hne Hl. pose proof (clamp_range (length keys * 2)) as Hc.
  destruct (hash_buckets_sound keys Hl) as [Hb Hs]. rewrite block_hash_bytes_eq by done.
  set (n := clamp _ _ _) in *. set (bs := hash_buckets keys) in *.
  unfold block_hash_lookup. rewrite (proj2 (Nat.ltb_ge _ 14)) by len.
  set (tr := to_le 4 BLOCK_HASH_MAGIC ++ bs ++ to_le 2 (Z.of_nat n)).
  assert (length tr = 6 + n)%nat as Ht by (unfold tr; len).
  assert (drop (length tr - 2) tr = to_le 2 (Z.of_nat n)) as ->.
  { unfold tr. rewrite !(assoc_L (++)). apply drop_app_length'. len. }
  rewrite from_le_to_le, Nat2Z.id by (change (256 ^ Z.of_nat 2) with 65536; lia).
  rewrite (proj2 (Nat.ltb_ge n 8)), (proj2 (Nat.ltb_ge 4096 n)) by lia. cbn [orb].
  rewrite (proj2 (Nat.eqb_eq _ _)) by lia. cbn [negb].
  assert (slice 4 (4 + n) tr = bs) as -> by (unfold tr; apply slice_at; [by rewrite length_to_le|len]).
  pose proof (bucket_of_lt uk n ltac:(lia)) as Hlt.
  destruct (lookup_lt_is_Some_2 bs (bucket_of uk n) ltac:(lia)) as [v Hv]. rewrite Hv.
  cbn [mbind option_bind]. case_bool_decide as Ef.
  { intros [i Hi]%list_elem_of_lookup. destruct (Hs i uk) as (v' & Hv' & F & _); [by apply elem_of_imap_pair|].
    congruence. }
  case_bool_decide as Ec; [done|]. intros i Hi.
  destruct (Hs i uk) as (v' & Hv' & F & [C|C]); [by apply elem_of_imap_pair|congruence|].
  assert (v = Z2b (Z.of_nat (i / BLOCK_RESTART))) as -> by congruence.
  apply lookup_lt_Some in Hi. destruct (restart_byte i) as (_ & _ & ->).
  { apply Nat.Div0.div_le_upper_bound. unfold BLOCK_RESTART in *. lia. }
  rewrite Nat2Z.id. pose proof (Nat.Div0.mul_div_le i BLOCK_RESTART). lia.
Qed.

(** * Point seeks against their reference *)

Definition point_of (e : entry) : point := (sequence e.1, look_of (kind e.1) e.2).

(** The entry is a point version of [uk] visible at the snapshot. *)
Definition visible_point (uk : list byte) (snapshot : Z) (e : entry) : bool :=
  bytes_eqb (user_key e.1) uk && negb (bool_decide (kind e.1 = RangeDeletion)) && (sequence e.1 <=? snapshot).

(** The reference: the first visible point version in key order. *)
Definition point_ref (es : list entry) (uk : list byte) (snapshot : Z) : option point :=
  point_of <$> head (filter (λ e, visible_point uk snapshot e = true) es).

(** Entries in the order a table keeps them. *)
Definition sorted_entries (es : list entry) : Prop := StronglySorted ikey_le es.*1.

Lemma sorted_entries_cons e es :
  sorted_entries (e :: es) ↔ (∀ e', e' ∈ es → ikey_le e.1 e'.1) ∧ sorted_entries es.
Proof.
  unfold sorted_entries. cbn [fmap list_fmap]. split.
  - inversion 1 as [|? ? Hs Hf]; subst. split; [|done]. intros e' Hin.
    rewrite Forall_forall in Hf. apply Hf. apply list_elem_of_fmap. by exists e'.
  - intros [Hf Hs]. constructor; [done|]. apply Forall_forall.
    intros k (e' & -> & Hin)%list_elem_of_fmap. by apply Hf.
Qed.

Lemma sorted_entries_app es es' :
  sorted_entries (es ++ es') → sorted_entries es ∧ sorted_entries es' ∧
  ∀ e e', e ∈ es → e' ∈ es' → ikey_le e.1 e'.1.
Proof.
  induction es as [|x es IH]; cbn [app]; intros Hs; [split_and!; [constructor|done|set_solver]|].
  apply sorted_entries_cons in Hs as [Hx Hs]. destruct (IH Hs) as (H1 & H2 & H3).
  split_and!; [apply sorted_entries_cons; set_solver|done|].
  intros e e' [->|He]%elem_of_cons He'; [apply Hx; set_solver|by apply H3].
Qed.

Lemma ikey_le_seq a b : ikey_le a b → user_key a = user_key b → sequence b ≤ sequence a.
Proof.
  unfold ikey_le. intros Hle Hu. destruct (decide (sequence b ≤ sequence a)); [done|].
  exfalso. apply Hle. apply ikey_lt_iff. right. split; [done|]. left. lia.
Qed.

(** One entry of the walk: skip, note or stop. *)
Definition note_point (uk : list byte) (snapshot : Z) (best : option point) (e : entry) : option point :=
  if visible_point uk snapshot e then keep_best best (point_of e) else best.

Lemma keep_best_older b e : sequence e.1 ≤ b.1 → keep_best (Some b) (point_of e) = Some b.
Proof. intros H. unfold keep_best, prefer_newer_seq. cbn. by rewrite (proj2 (Z.ltb_ge _ _)) by done. Qed.

Lemma visible_point_key uk snap e : visible_point uk snap e = true → user_key e.1 = uk.
Proof. unfold visible_point. rewrite !andb_true_iff, bytes_eqb_spec. naive_solver. Qed.

(** Folding the update over sorted entries finds the reference. *)
Lemma note_points_found es uk snap b :
  (∀ e, e ∈ es → user_key e.1 = uk → sequence e.1 ≤ b.1) →
  foldl (note_point uk snap) (Some b) es = Some b.
Proof.
  induction es as [|e es IH]; intros Hle; [done|]. cbn [foldl]. unfold note_point at 2.
  destruct (visible_point uk snap e) eqn:E; [|by apply IH; set_solver].
  rewrite keep_best_older; [by apply IH; set_solver|]. apply Hle; [set_solver|by apply visible_point_key in E].
Qed.

Lemma note_points_ref es uk snap :
  sorted_entries es → foldl (note_point uk snap) None es = point_ref es uk snap.
Proof.
  unfold point_ref. induction es as [|e es IH]; intros Hs; [done|]. apply sorted_entries_cons in Hs as [Hle Hs].
  cbn [foldl]. rewrite filter_cons. unfold note_point at 2.
  destruct (visible_point uk snap e) eqn:E; [|rewrite decide_False by congruence; by apply IH].
  rewrite decide_True by done. cbn. apply note_points_found. intros e' Hin Hk. cbn.
  apply ikey_le_seq; [by apply Hle|]. apply visible_point_key in E. congruence.
Qed.

Lemma visible_point_other uk snap e : user_key e.1 ≠ uk → visible_point uk snap e = false.
Proof.
  intros Hne. unfold visible_point. destruct (bytes_eqb _ _) eqn:E; [|done]. by apply bytes_eqb_spec in E.
Qed.

Lemma note_points_none es uk snap best :
  (∀ e, e ∈ es → user_key e.1 ≠ uk) → foldl (note_point uk snap) best es = best.
Proof.
  revert best. induction es as [|e es IH]; intros best Hk; [done|]. cbn [foldl]. unfold note_point at 2.
  rewrite visible_point_other by (apply Hk; set_solver). apply IH. set_solver.
Qed.

Lemma consider_entry best uk snap e :
  entry_ok e →
  consider_point best uk (user_key e.1) (packed_of e) e.2 snap =
    Ok (note_point uk snap best e, match bytes_cmp (user_key e.1) uk with Gt => true | _ => false end).
Proof.
  intros He. unfold consider_point, note_point. destruct (bytes_cmp (user_key e.1) uk) eqn:Ec.
  - apply bytes_cmp_eq in Ec. unfold packed_of. rewrite from_be_to_be by (by apply packed_bound).
    rewrite unpack_pack by apply He. cbn [res_bind]. unfold visible_point.
    rewrite (proj2 (bytes_eqb_spec _ _) Ec). cbn [andb]. by destruct (negb _ && _).
  - rewrite visible_point_other; [done|]. intros E. by rewrite E, bytes_cmp_refl in Ec.
  - rewrite visible_point_other; [done|]. intros E. by rewrite E, bytes_cmp_refl in Ec.
Qed.

(** The seek loop over a run of entries, from any entry on. *)
Lemma seek_loop_ok path fuel plain pre uk snap skip i rst es best :
  plain = pre ++ run_bytes i rst es → Forall entry_ok es → sorted_entries es → (length es < fuel)%nat →
  (∀ j e, es !! j = Some e → user_key e.1 = uk → (skip ≤ i + j)%nat) →
  seek_loop path fuel plain uk snap skip (length pre) i rst best =
    Some (Ok (foldl (note_point uk snap) best es)).
Proof.
  revert pre i rst es best. induction fuel as [|n IH]; intros pre i rst es best Hd He Hs Hf Hskip; [lia|].
  cbn [seek_loop]. destruct es as [|e es]; cbn [run_bytes length foldl] in *.
  { rewrite Hd, app_nil_r. by rewrite (proj2 (Nat.leb_le _ _)). }
  apply Forall_cons in He as [He Hes]. apply sorted_entries_cons in Hs as [Hle Hs].
  pose proof (entry_bytes_length e (restart_arg i rst) He).
  rewrite (proj2 (Nat.leb_gt _ _)) by (rewrite Hd; len).
  rewrite (parse_entry_at path plain pre _ e i rst Hd He). cbn [pr_uk pr_trailer pr_val pr_next pr_restart].
  assert (∀ best', seek_loop path n plain uk snap skip
      (length pre + length (entry_bytes e (restart_arg i rst))) (S i) (restart_next i rst e) best' =
    Some (Ok (foldl (note_point uk snap) best' es))) as Hnext.
  { intros best'. rewrite <-length_app. apply IH; [by rewrite Hd, (assoc_L (++))|done|done|lia|].
    intros j e' Hj Hk. specialize (Hskip (S j) e' Hj Hk). lia. }
  destruct (Nat.leb_spec skip i) as [Hsi|Hsi].
  - rewrite consider_entry by done. destruct (bytes_cmp (user_key e.1) uk) eqn:Ec; [apply Hnext|apply Hnext|].
    rewrite note_points_none; [done|]. intros e' Hin Hk. apply Hle in Hin.
    apply ikey_le_user in Hin. apply Hin. rewrite Hk. by apply bytes_lt_cmp_gt.
  - unfold note_point at 2. rewrite visible_point_other; [apply Hnext|]. intros Hk.
    specialize (Hskip 0%nat e eq_refl Hk). lia.
Qed.

Lemma run_bytes_length i rst es : Forall entry_ok es → (16 * length es ≤ length (run_bytes i rst es))%nat.
Proof.
  revert i rst. induction es as [|e es IH]; intros i rst He; [done|]. cbn [run_bytes length].
  apply Forall_cons in He as [He Hes]. pose proof (entry_bytes_length e (restart_arg i rst) He).
  specialize (IH (S i) (restart_next i rst e) Hes). rewrite length_app. lia.
Qed.

Lemma run_bytes_start rst rst' es : run_bytes 0 rst es = run_bytes 0 rst' es.
Proof. by destruct es. Qed.

Lemma seek_scan_ok path stale es uk snap skip :
  Forall entry_ok es → sorted_entries es → (∀ j e, es !! j = Some e → user_key e.1 = uk → (skip ≤ j)%nat) →
  seek_point_scan path stale (run_bytes 0 [] es) uk snap skip = Some (Ok (point_ref es uk snap)).
Proof.
  intros He Hs Hskip. unfold seek_point_scan. rewrite (seek_loop_ok path _ _ [] uk snap skip 0 stale es);
    [by rewrite note_points_ref|apply run_bytes_start|done|done| |by intros j e; apply Hskip].
  pose proof (run_bytes_length 0 [] es He). lia.
Qed.

(** A block a trailer was written for. *)
Definition block_ok (es : list entry) : Prop :=
  es ≠ [] ∧ Forall entry_ok es ∧ sorted_entries es ∧ (length es ≤ 253 * BLOCK_RESTART)%nat.

Lemma keys_of_split es run :
  block_ok es → split_block_hash (run ++ block_hash_bytes (keys_of es)) = (run, Some (block_hash_bytes (keys_of es))).
Proof.
  intros (Hne & _ & _ & Hl). apply split_block_hash_ok; [by destruct es|]. unfold keys_of. by rewrite length_fmap.
Qed.

Lemma decode_block_ok es : block_ok es → decode_plain_block (block_bytes es) = Some (Ok es).
Proof.
  intros Hb. pose proof Hb as (Hne & He & _). unfold decode_plain_block, block_bytes. rewrite keys_of_split by done.
  eapply (decode_entries_ok _ _ [] 0 []); [done|done| |done].
  pose proof (run_bytes_length 0 [] es He). lia.
Qed.

Lemma seek_block_ok path stale es uk snap :
  block_ok es → seek_point_in_plain_block path stale (block_bytes es) uk snap = Some (Ok (point_ref es uk snap)).
Proof.
  intros Hb. pose proof Hb as (Hne & He & Hs & Hl). unfold seek_point_in_plain_block, block_bytes.
  rewrite keys_of_split by done.
  assert (keys_of es ≠ [] ∧ (length (keys_of es) ≤ 253 * BLOCK_RESTART)%nat) as [Hkn Hkl]
    by (unfold keys_of; rewrite length_fmap; by destruct es).
  pose proof (block_hash_lookup_ok (keys_of es) uk Hkn Hkl) as Hlk.
  destruct (block_hash_lookup _ uk) as [[| |r]|].
  - do 2 f_equal. unfold point_ref. rewrite list_filter_nil; [done|]. intros e Hin Hv. apply Hlk, list_elem_of_fmap.
    exists e. split; [|done]. symmetry. by eapply visible_point_key.
  - apply seek_scan_ok; [done|done|lia].
  - unfold seek_point_from_restart. apply seek_scan_ok; [done|done|].
    intros j e Hj Hk. apply Hlk. unfold keys_of. rewrite list_lookup_fmap, Hj. cbn. by rewrite Hk.
  - apply seek_scan_ok; [done|done|lia].
Qed.

(** The decoded block, searched by [best_point_in_entry_slice]. *)
Lemma partition_drop {A} (p : A → bool) l : ∃ pre, l = pre ++ drop (partition_point p l) l ∧ Forall (λ x, p x = true) pre ∧
  ∀ x rest, drop (partition_point p l) l = x :: rest → p x = false.
Proof.
  induction l as [|a l (pre & E & Hf & Hx)]; [by exists []|]. cbn [partition_point].
  destruct (p a) eqn:Ep; [|exists []; split_and!; [done|constructor|intros x r [= -> _]; done]].
  exists (a :: pre). cbn [drop]. split_and!; [cbn; by rewrite <-E|by constructor|done].
Qed.

Lemma best_loop_fold es uk snap best :
  sorted_entries es → (∀ e, e ∈ es → ¬ bytes_lt (user_key e.1) uk) →
  best_loop es uk snap best = foldl (note_point uk snap) best es.
Proof.
  revert best. induction es as [|[k v] es IH]; intros best Hs Hge; [done|]. cbn [best_loop foldl].
  apply sorted_entries_cons in Hs as [Hle Hs].
  assert (∀ b, best_loop es uk snap b = foldl (note_point uk snap) b es) as IH' by (intros; apply IH; set_solver).
  unfold note_point at 2, visible_point. cbn [fst snd].
  destruct (bytes_eqb (user_key k) uk) eqn:E; cbn [negb andb].
  - case_bool_decide; cbn [negb andb]; [apply IH'|]. destruct (sequence k <=? snap); apply IH'.
  - rewrite note_points_none; [done|]. intros e' Hin Hk. specialize (Hle e' Hin). apply ikey_le_user in Hle.
    cbn in Hle. assert (¬ bytes_lt (user_key k) uk) as Hk' by (apply (Hge (k, v)); set_solver).
    rewrite Hk in Hle. destruct (bytes_trichotomy (user_key k) uk) as [|[Eq|]]; [done| |done].
    by rewrite (proj2 (bytes_eqb_spec _ _) Eq) in E.
Qed.

Lemma best_point_ref es uk snap : sorted_entries es → best_point_in_entry_slice es uk snap = point_ref es uk snap.
Proof.
  intros Hs. unfold best_point_in_entry_slice. set (p := λ e : entry, bytes_ltb (user_key e.1) uk).
  destruct (partition_drop p es) as (pre & E & Hf & Hx). set (tl := drop _ es) in *.
  rewrite E in Hs. destruct (sorted_entries_app _ _ Hs) as (_ & Ht & _).
  rewrite best_loop_fold; [|done|].
  - rewrite <-note_points_ref by (by rewrite E). rewrite E, foldl_app. f_equal. symmetry.
    apply note_points_none. intros e Hin Hk. rewrite Forall_forall in Hf. apply Hf in Hin.
    unfold p in Hin. apply bytes_ltb_spec in Hin. rewrite Hk in Hin. by apply (irreflexivity bytes_lt) in Hin.
  - intros e Hin Hlt. destruct tl as [|x rest] eqn:Et; [by apply not_elem_of_nil in Hin|].
    specialize (Hx x rest eq_refl). unfold p in Hx. apply sorted_entries_cons in Ht as [Hle _].
    assert (¬ bytes_lt (user_key x.1) uk) as Hnx by (intros H%bytes_ltb_spec; congruence).
    apply elem_of_cons in Hin as [->|Hin]; [done|]. apply Hle, ikey_le_user in Hin.
    apply Hnx. eapply bytes_le_lt_trans; [exact Hin|done].
Qed.

(** The two ways of looking a key up in a data block agree. On the image of a block (the delta-encoded entries of a
    sorted run followed by the hash trailer), [decode_plain_block] returns exactly the entries, and the in-place search
    [seek_point_in_plain_block], which goes through the hash trailer to a restart point, never builds the entries and
    may stop early, answers, whatever an earlier search left in the reused scratch, what [best_point_in_entry_slice] finds by binary search in the decoded entries: the newest
    point version of the key at or below the snapshot. *)
Theorem block_seek_equiv path stale es uk snap :
  block_ok es →
  ∃ found, decode_plain_block (block_bytes es) = Some (Ok es) ∧
    seek_point_in_plain_block path stale (block_bytes es) uk snap = Some (Ok found) ∧
    best_point_in_entry_slice es uk snap = found ∧ found = point_ref es uk snap.
Proof.
  intros Hb. exists (point_ref es uk snap). pose proof Hb as (_ & _ & Hs & _).
  rewrite decode_block_ok, seek_block_ok, best_point_ref by done. done.
Qed.

Definition sample_block : list entry :=
  [(mkIKey [x61; x62] 9 Value, [x31]); (mkIKey [x61; x62] 4 Deletion, []); (mkIKey [x61; x63] 7 Value, [x32; x33])].

Lemma block_seek_equiv_witness :
  decode_plain_block (block_bytes sample_block) = Some (Ok sample_block) ∧
  seek_point_in_plain_block "a.sst" [x7a] (block_bytes sample_block) [x61; x62] 5 = Some (Ok (Some (4, Deleted))).
Proof.
  destruct (block_seek_equiv "a.sst" [x7a] sample_block [x61; x62] 5) as (found & Hd & Hs & _ & Hf).
  - split; [done|]. split; [repeat constructor; vm_compute; congruence|]. split; [|cbn; lia].
    unfold sorted_entries, sample_block. cbn.
    repeat (constructor; [|repeat constructor; vm_compute; congruence]). constructor.
  - split; [exact Hd|]. rewrite Hs, Hf. vm_compute. reflexivity.
Defined.
