(* ===== verification/SstFile.v ===== *)
(** Table files: [sst/table_kernel.rs] (constants, block images, file checksum,
    header checks), [sst_block_decompression_guard_kernel.rs],
    [sst/scan_kernel.rs] (checksum fate), [sst/magic_kernel.rs] and the resident
    body of [cache_kernel.rs].

    A data block is stored plain (version 3), LZ4-compressed with a checksum
    (version 5) or plain with a checksum (version 6); LZ4 itself is a
    parameter. *)

From S2P Require Import Prelude ErrorKernel KeyKernel BatchKernel WalFormat Visibility MemTable Bloom SstBlock.

Local Open Scope Z_scope.

(** * Computations that may panic

    [None] is a panic (or a loop out of fuel), [Some (Err e)] an error. *)
Abbreviation Comp A := (option (Result CoreError A)).

Definition comp_bind {A B} (r : Comp A) (k : A → Comp B) : Comp B :=
  match r with
  | None => None
  | Some (Err e) => Some (Err e)
  | Some (Ok a) => k a
  end.

Notation "'let!' x := r 'in' k" := (comp_bind r (λ x, k))
  (at level 10, x name, r at level 100, k at level 200) : result_scope.
Notation "'let!' ' p := r 'in' k" := (comp_bind r (λ x, match x with p => k end))
  (at level 10, p pattern, r at level 100, k at level 200) : result_scope.

(** A value that must not be a panic. *)
Definition no_panic {A} (o : option A) : Comp A := Ok <$> o.

(** * The external crates *)

(** [crc32c::crc32c_combine], and what the crate documents: appending is
    incremental, and combining two checksums is the checksum of the
    concatenation. *)
Class Crc32cFile `{Crc32c} := {
  crc32c_combine : Z → Z → nat → Z;
  crc32c_append_app crc a b : 0 ≤ crc ≤ U32_MAX →
    crc32c_append crc (a ++ b) = crc32c_append (crc32c_append crc a) b;
  crc32c_combine_app a b : crc32c_combine (crc32c a) (crc32c b) (length b) = crc32c (a ++ b)
}.

(** [lz4_flex::block]: [compress_into] a buffer of the maximum output size,
    [decompress_into] a buffer of a given size (the bytes written) and
    [uncompressed_size] (the size prefix and the rest). *)
Class Lz4 := {
  lz4_compress : list byte → option (list byte);
  lz4_decompress : list byte → nat → option (list byte);
  lz4_uncompressed_size : list byte → option (Z * list byte)
}.

(** What the crate and the LZ4 block format document: compression into a
    buffer of the maximum size succeeds, decompression inverts it, the size
    prefix is a little-endian [u32], a compressed byte stands for at most 255
    bytes, and the maximum output size is below twice the input. *)
Class Lz4Laws `{Lz4} := {
  lz4_compress_total src : is_Some (lz4_compress src);
  lz4_round_trip src out : lz4_compress src = Some out → lz4_decompress out (length src) = Some src;
  lz4_size_prefix n rest : 0 ≤ n ≤ U32_MAX → lz4_uncompressed_size (to_le 4 n ++ rest) = Some (n, rest);
  lz4_ratio src out : lz4_compress src = Some out → (length src ≤ 255 * length out)%nat;
  lz4_bound src out : lz4_compress src = Some out → (length out ≤ 20 + 2 * length src)%nat
}.

(** * Constants *)

Definition SST_MAGIC : list byte := [x50; x45; x44; x52; x53; x53; x54; x00].
Lemma length_SST_MAGIC : length SST_MAGIC = 8%nat.
Proof. done. Qed.
#[export] Hint Rewrite length_SST_MAGIC : lens.

Definition SST_VERSION_V1 : Z := 1.
Definition SST_VERSION_V2 : Z := 2.
Definition SST_VERSION_V3 : Z := 3.
Definition SST_VERSION_V4 : Z := 4.
Definition SST_VERSION : Z := 5.
Definition SST_VERSION_V6 : Z := 6.
Definition BLOCK_TARGET : Z := 4096.
Definition MAX_SST_ENTRIES : Z := 64 * 1024 * 1024.
Definition MIN_ENCODED_ENTRY : Z := 8.
Definition BULK_SST_HEADER_LEN : nat := 40.
Definition SST_LEGACY_NO_CRC_MAX : nat := 32.

(** [block_target]: the environment may override the target. *)
Definition block_target (override : option Z) : Z :=
  match override with
  | None => BLOCK_TARGET
  | Some b => Z.max 1024 (Z.min b 262144)
  end.

(** [magic_kernel::sst_magic_is_pedra] *)
Definition sst_magic_is_pedra (header : list byte) : bool :=
  (length SST_MAGIC <=? length header)%nat && bytes_eqb (take (length SST_MAGIC) header) SST_MAGIC.

(** * Size checks of the header *)

Definition check_sst_entry_count (path : string) (n : Z) (file_len : nat) (compressed_blocks : bool)
    : Result CoreError unit :=
  if MAX_SST_ENTRIES <? n then
    Err (Internal [Lit "SST entry count "; Num n; Lit " exceeds MAX_SST_ENTRIES ("; Num MAX_SST_ENTRIES;
                   Lit ") in "; Lit path])
  else if negb compressed_blocks then
    let max_by_size := Z.of_nat file_len / MIN_ENCODED_ENTRY + 1 in
    if max_by_size <? n then
      Err (Internal [Lit "SST entry count "; Num n; Lit " impossible for file size "; Num (Z.of_nat file_len);
                     Lit " in "; Lit path])
    else Ok tt
  else Ok tt.

Definition check_sst_block_count (path : string) (num_blocks : Z) (file_len : nat) : Result CoreError unit :=
  let max_blocks := Z.of_nat file_len / 16 + 1 in
  if (max_blocks <? num_blocks) || (MAX_SST_ENTRIES <? num_blocks) then
    Err (Internal [Lit "SST block count "; Num num_blocks; Lit " impossible for file size ";
                   Num (Z.of_nat file_len); Lit " in "; Lit path])
  else Ok tt.

(** * The decompression guard *)

Definition DEFAULT_MAX_UNCOMPRESSED_BLOCK_SIZE : Z := 64 * 1024 * 1024.
Definition DEFAULT_MAX_EXPANSION_RATIO : Z := 256.
Definition MIN_BYTES_FOR_EXPANSION_CHECK : Z := 64.

Record BlockDecompressionGuardConfig := mkGuard {
  max_uncompressed_bytes : Z; max_expansion_ratio : Z; verify_crc : bool }.
Definition guard_default : BlockDecompressionGuardConfig :=
  mkGuard DEFAULT_MAX_UNCOMPRESSED_BLOCK_SIZE DEFAULT_MAX_EXPANSION_RATIO true.

Inductive DecompressionGuardError :=
| TruncatedCrc (actual_len : Z)
| CrcMismatch (stored computed : Z)
| ExceedsMaxUncompressedSize (declared limit : Z)
| ExpansionRatioExplosion (declared compressed ratio max_ratio : Z)
| MalformedRestartArray (reason : string)
| VarintOverflow
| DecompressionFailed (msg : Message).

(** [Display] *)
Definition guard_msg (e : DecompressionGuardError) : Message :=
  match e with
  | TruncatedCrc n => [Lit "SST block truncated for CRC trailer: "; Num n; Lit " bytes"]
  | CrcMismatch s c => [Lit "SST block CRC mismatch: stored="; Num s; Lit ", computed="; Num c]
  | ExceedsMaxUncompressedSize d l => [Lit "SST block uncompressed size "; Num d; Lit " exceeds limit "; Num l]
  | ExpansionRatioExplosion d c r m =>
      [Lit "SST block expansion ratio "; Num r; Lit "x (declared "; Num d; Lit ", compressed "; Num c;
       Lit ") exceeds ceiling "; Num m; Lit "x"]
  | MalformedRestartArray r => [Lit "SST block malformed restart array: "; Lit r]
  | VarintOverflow => [Lit "SST block varint overflow or invalid continuation"]
  | DecompressionFailed m => Lit "SST block decompression failed: " :: m
  end.

Section codec.
Context `{CC : Crc32c, CF : !Crc32cFile, LZ : Lz4}.

Definition inspect_lz4_size (body : list byte) (config : BlockDecompressionGuardConfig)
    : Result DecompressionGuardError (Z * list byte) :=
  match lz4_uncompressed_size body with
  | None => Err (DecompressionFailed [Lit "Invalid LZ4 size header: "])
  | Some (size, input) =>
      if max_uncompressed_bytes config <? size then
        Err (ExceedsMaxUncompressedSize size (max_uncompressed_bytes config))
      else
        let compressed := Z.of_nat (length body) in
        let ratio := size / compressed in
        if (MIN_BYTES_FOR_EXPANSION_CHECK <=? compressed) && (max_expansion_ratio config <? ratio) then
          Err (ExpansionRatioExplosion size compressed ratio (max_expansion_ratio config))
        else Ok (size, input)
  end.

(** [decompress_lz4_into]: the bytes left in the scratch buffer. *)
Definition decompress_lz4_into (body : list byte) (config : BlockDecompressionGuardConfig)
    : Result DecompressionGuardError (list byte) :=
  let? '(size, input) := inspect_lz4_size body config in
  match lz4_decompress input (Z.to_nat size) with
  | None => Err (DecompressionFailed [Lit "LZ4 decompression error: "])
  | Some out =>
      if negb (Z.of_nat (length out) =? size) then
        Err (DecompressionFailed [Lit "Decompressed size mismatch: wrote "; Num (Z.of_nat (length out));
                                  Lit ", expected "; Num size])
      else Ok out
  end.

(** * Block images *)

Definition sst_block_crc_ok (stored computed : Z) : bool := crc_match_ok stored computed.

Definition split_block_crc (path : string) (raw : list byte) : Result CoreError (list byte) :=
  if (length raw <? 4)%nat then Err (sst_err path "SST block CRC truncated in ")
  else
    let body := take (length raw - 4) raw in
    let stored := from_le (drop (length raw - 4) raw) in
    if negb (sst_block_crc_ok stored (crc32c body)) then Err (sst_err path "SST block CRC mismatch in ")
    else Ok body.

(** The decompression both readers do, with the error they map it to. *)
Definition plain_of_body (path : string) (compressed : bool) (body : list byte) : Result CoreError (list byte) :=
  if compressed then
    match decompress_lz4_into body guard_default with
    | Ok plain => Ok plain
    | Err e => Err (Internal (Lit "SST lz4 decompress failed in " :: Lit path :: Lit ": " :: guard_msg e))
    end
  else Ok body.

Definition decode_block_bytes (path : string) (raw : list byte) (compressed_blocks block_crc : bool)
    : Comp (list entry) :=
  let! raw := Some (if block_crc then split_block_crc path raw else Ok raw) in
  let! plain := Some (plain_of_body path compressed_blocks raw) in
  decode_plain_block plain.

Definition seek_point_in_block_body (path : string) (body : list byte) (compressed : bool)
    (uk : list byte) (snapshot : Z) : Comp (option point) :=
  let! plain := Some (plain_of_body path compressed body) in
  seek_point_in_plain_block path [] plain uk snapshot.

Definition seek_point_in_block_image (path : string) (raw : list byte) (compressed : bool)
    (uk : list byte) (snapshot : Z) : Comp (option point) :=
  let! body := Some (split_block_crc path raw) in
  seek_point_in_block_body path body compressed uk snapshot.

(** * The file checksum *)

Definition v6_file_crc (head : list byte) : option Z :=
  if (length head <? BULK_SST_HEADER_LEN)%nat then None
  else if negb (from_le (slice 8 12 head) =? SST_VERSION_V6) then None
  else
    let data_len := from_le (slice 32 40 head) in
    let tail_off := Z.of_nat BULK_SST_HEADER_LEN + data_len in
    if (U64_MAX <? tail_off) || (Z.of_nat (length head) <? tail_off) then None
    else
      let hdr_crc := crc32c (take BULK_SST_HEADER_LEN head) in
      let tail := drop (Z.to_nat tail_off) head in
      Some (crc32c_combine hdr_crc (crc32c tail) (length tail)).

Inductive SstCrcFate := StripTrailer | WholeBuffer | Reject.

Definition sst_crc_fate (stored computed : Z) (buf_len : nat) : SstCrcFate :=
  if crc_match_ok stored computed then StripTrailer
  else if (buf_len <? SST_LEGACY_NO_CRC_MAX)%nat then WholeBuffer
  else Reject.

Definition crc_stripped_body (path : string) (buf : list byte) : Result CoreError (list byte) :=
  if (12 <=? length buf)%nat && bytes_eqb (take (length SST_MAGIC) buf) SST_MAGIC then
    let head := take (length buf - 4) buf in
    let stored := from_le (drop (length buf - 4) buf) in
    let? computed :=
      if (12 <=? length head)%nat && (from_le (slice 8 12 head) =? SST_VERSION_V6) then
        match v6_file_crc head with
        | None => Err (sst_err path "SST v6 CRC range invalid in ")
        | Some c => Ok c
        end
      else Ok (crc32c head) in
    match sst_crc_fate stored computed (length buf) with
    | StripTrailer => Ok head
    | WholeBuffer => Ok buf
    | Reject =>
        Err (Internal [Lit "SST file CRC mismatch in "; Lit path; Lit " (stored "; Num stored;
                       Lit ", computed "; Num computed; Lit ")"])
    end
  else Ok buf.
End codec.

(** * The resident body *)

Record ResidentBody := mkBody { img : list byte; verified : option (list Z) }.

Definition from_image (i : list byte) : ResidentBody := mkBody i None.
Definition body_empty : ResidentBody := mkBody [] None.

Definition is_verified (b : ResidentBody) (bi : nat) : bool :=
  match verified b with
  | None => false
  | Some bits =>
      (bi / 64 <? length bits)%nat &&
      negb (Z.land (default 0 (bits !! (bi / 64)%nat)) (Z.shiftl 1 (Z.of_nat (bi mod 64))) =? 0)
  end.

Definition mark_verified (b : ResidentBody) (bi block_count : nat) : ResidentBody :=
  let bits := default (replicate (ceil_div block_count 64) 0) (verified b) in
  let bits :=
    if (bi / 64 <? length bits)%nat then
      <[(bi / 64)%nat := Z.lor (default 0 (bits !! (bi / 64)%nat)) (Z.shiftl 1 (Z.of_nat (bi mod 64)))]> bits
    else bits in
  mkBody (img b) (Some bits).

(** * Concrete parameters, for examples *)

(** A polynomial checksum and a store-only codec: the laws above can hold. *)
Definition poly_mod : Z := 4294967291.
Definition poly_append (crc : Z) (data : list byte) : Z :=
  foldl (λ c b, (c * 256 + b2Z b) mod poly_mod) (crc mod poly_mod) data.

Lemma poly_append_range crc data : 0 ≤ poly_append crc data < poly_mod.
Proof.
  unfold poly_append. induction data as [|b data _] using rev_ind; [apply Z.mod_pos_bound; done|].
  rewrite foldl_app. apply Z.mod_pos_bound. done.
Qed.

Definition poly_crc : Crc32c.
Proof.
  refine {| crc32c_append := poly_append |}. intros crc data. pose proof (poly_append_range crc data).
  unfold poly_mod, U32_MAX in *. lia.
Defined.

Lemma poly_append_shift c data :
  poly_append c data = (c * 256 ^ Z.of_nat (length data) + poly_append 0 data) mod poly_mod.
Proof.
  unfold poly_append. rewrite Z.mod_0_l by done. induction data as [|b data IH] using rev_ind.
  - change (256 ^ Z.of_nat (length [])) with 1. cbn. by rewrite Z.mul_1_r, Z.add_0_r.
  - rewrite !foldl_app, length_app, Nat2Z.inj_add, Z.pow_add_r by lia. cbn [foldl length]. rewrite IH.
    change (256 ^ Z.of_nat 1) with 256. set (x := foldl _ 0 data).
    rewrite Z.add_mod_idemp_r by done. rewrite <-Z.add_mod_idemp_l, Z.mul_mod_idemp_l, Z.add_mod_idemp_l by done.
    f_equal. ring.
Qed.

Definition poly_file : @Crc32cFile poly_crc.
Proof.
  refine {| crc32c_combine := λ a b n, (a * 256 ^ Z.of_nat n + b) mod poly_mod |}.
  - intros crc a b _. cbn. unfold poly_append at 1. rewrite foldl_app. fold (poly_append crc a).
    unfold poly_append at 2. f_equal. symmetry. apply Z.mod_small, poly_append_range.
  - intros a b. unfold crc32c. cbn. unfold poly_append at 3. rewrite foldl_app. fold (poly_append 0 a).
    rewrite <-poly_append_shift. unfold poly_append at 1. f_equal. apply Z.mod_small, poly_append_range.
Defined.

Definition store_lz4 : Lz4 := {|
  lz4_compress src := Some src;
  lz4_decompress body n := if (length body =? n)%nat then Some body else None;
  lz4_uncompressed_size body := if (length body <? 4)%nat then None else Some (from_le (take 4 body), drop 4 body)
|}.

Definition store_laws : @Lz4Laws store_lz4.
Proof.
  split; cbn [lz4_compress lz4_decompress lz4_uncompressed_size store_lz4].
  - by eexists.
  - intros src out [= <-]. by rewrite Nat.eqb_refl.
  - intros n rest Hn. rewrite (proj2 (Nat.ltb_ge _ _)) by len.
    rewrite take_app_length', drop_app_length' by len. rewrite from_le_to_le; [done|].
    change (256 ^ Z.of_nat 4) with 4294967296. unfold U32_MAX in Hn. lia.
  - intros src out [= <-]. lia.
  - intros src out [= <-]. lia.
Defined.
