(* ===== verification/SstTable.v ===== *)
(** Writing and opening tables: [sst/table_kernel.rs], the writer
    [write_sst_try_sorted_body] with its block flush, the index acceleration,
    and [decode] of every file version.

    The environment (file creation, writes, the sync) enters as the outcome of
    each call; an [lz4_flex] error, a bloom panic and every error of the source
    is a result of the functions below. *)

From S2P Require Import Prelude ErrorKernel KeyKernel BatchKernel WalFormat Visibility MemTable Bloom SstBlock SstFile.

Local Open Scope Z_scope.

(** * The block index *)

Record BlockHandle := mkHandle { h_offset : Z; h_length : Z; h_first : list byte; h_p8 : Z }.

Definition set_p8 (p8 : Z) (h : BlockHandle) : BlockHandle := mkHandle (h_offset h) (h_length h) (h_first h) p8.
Definition move_handle (d : Z) (h : BlockHandle) : BlockHandle :=
  mkHandle (h_offset h + d) (h_length h) (h_first h) (h_p8 h).

(** [p8_window]: eight bytes of the key from [cp], zero padded. *)
Definition p8_window (key : list byte) (cp : nat) : Z :=
  let w := take 8 (drop cp key) in
  from_be (w ++ replicate (8 - length w) x00).

(** [windows(2)] with the running minimum of common prefixes. *)
Fixpoint min_shared (cp : option nat) (keys : list (list byte)) : option nat :=
  match keys with
  | a :: ((b :: _) as keys) =>
      let n := prefix_shared_len a b in
      min_shared (Some (from_option (Nat.min n) n cp)) keys
  | _ => cp
  end.

(** [derive_index_accel]: the common prefix length and the index with its
    windows. *)
Definition derive_index_accel (index : list BlockHandle) : nat * list BlockHandle :=
  let cp := default 0%nat (min_shared None (h_first <$> index)) in
  (cp, (λ h, set_p8 (p8_window (h_first h) cp) h) <$> index).

(** * Tables *)

Record SstTable := mkTable {
  t_path : string;
  t_payload : ResidentBody;
  t_payload_len : nat;
  t_compressed_blocks : bool;
  t_block_crc : bool;
  t_entries : option (list entry);
  t_range_tombstones : list entry;
  t_num_entries : Z;
  t_tombstone_count : Z;
  t_max_sequence : Z;
  t_index : list BlockHandle;
  t_key_cp : nat;
  t_bloom : BloomFilter;
  t_smallest_user_key : option (list byte);
  t_largest_user_key : option (list byte)
}.

Definition is_tombstone (k : ValueType) : bool := bool_decide (k = Deletion) || bool_decide (k = RangeDeletion).

Section tables.
Context `{CC : Crc32c, CF : !Crc32cFile, LZ : Lz4}.

(** * The writer *)

(** What [flush_block] reads and writes. *)
Record Flush := mkFlush {
  w_data : list byte; w_block_buf : list byte; w_first : option (list byte); w_index : list BlockHandle;
  w_policy_compress : bool; w_policy_decided : bool; w_scratch : list byte }.

Definition lz4_into (src : list byte) : Result CoreError (list byte) :=
  let? n := try_u32 (length src) "SST block too large" in
  match lz4_compress src with
  | None => Err (internal "lz4 compress failed")
  | Some out => Ok (to_le 4 n ++ out)
  end.

(** The first block decides whether the table compresses. *)
Definition decide_policy (w : Flush) : Result CoreError Flush :=
  if w_policy_decided w then Ok w
  else if w_policy_compress w then
    let? s := lz4_into (w_block_buf w) in
    let pc := (length s * 10 <? length (w_block_buf w) * 9)%nat in
    Ok (mkFlush (w_data w) (w_block_buf w) (w_first w) (w_index w) pc true (if pc then s else []))
  else Ok (mkFlush (w_data w) (w_block_buf w) (w_first w) (w_index w) false true (w_scratch w)).

Definition take_first (w : Flush) : Result CoreError (list byte) :=
  match w_first w with
  | None => Err (internal "block missing first key")
  | Some f => Ok f
  end.

Definition flush_block (w : Flush) : Result CoreError Flush :=
  if batch_is_empty (length (w_block_buf w)) then Ok w
  else
    let? w := decide_policy w in
    let offset := Z.of_nat (length (w_data w)) in
    if w_policy_compress w then
      let? s := if batch_is_empty (length (w_scratch w)) then lz4_into (w_block_buf w) else Ok (w_scratch w) in
      let s := s ++ to_le 4 (crc32c s) in
      let? length_ := try_u32 (length s) "SST block too large" in
      let? first := take_first w in
      Ok (mkFlush (w_data w ++ s) [] None (w_index w ++ [mkHandle offset length_ first 0]) true true [])
    else
      let raw := w_block_buf w in
      let? length_ := try_u32 (length raw) "SST block too large" in
      let? first := take_first w in
      Ok (mkFlush (w_data w ++ raw) [] None (w_index w ++ [mkHandle offset length_ first 0]) false true (w_scratch w)).

(** The locals of the entry loop. *)
Record Builder := mkBuilder {
  b_flush : Flush;
  b_bloom : BloomFilter;
  b_max_sequence : Z;
  b_n_entries : Z;
  b_prev_ikey : option InternalKey;
  b_smallest : option (list byte);
  b_range_tombstones : list entry;
  b_tombstone_count : Z;
  b_block_user_keys : list (list byte);
  b_restart_uk : option (list byte);
  b_entry_i : nat
}.

Definition with_buf (w : Flush) (buf : list byte) (first : option (list byte)) : Flush :=
  mkFlush (w_data w) buf first (w_index w) (w_policy_compress w) (w_policy_decided w) (w_scratch w).

(** The block part of one pass: encode, cut the block when it outgrows the
    target at a new user key, encode again. Returns the flush state, the keys
    of the open block, the restart key and the entry's position. *)
Definition place_entry (target : Z) (b : Builder) (same_user : bool) (ikey : InternalKey) (value : list byte)
    : Result CoreError (Flush * list (list byte) * option (list byte) * nat) :=
  let w := b_flush b in
  let uk := user_key ikey in
  let '(w, restart_uk, entry_i) :=
    if batch_is_empty (length (w_block_buf w)) then (with_buf w (w_block_buf w) (Some uk), Some uk, 0%nat)
    else (w, b_restart_uk b, b_entry_i b) in
  let restart := if (entry_i mod BLOCK_RESTART =? 0)%nat then None else restart_uk in
  let pre := w_block_buf w in
  let? bytes := encode_entry ikey value restart in
  if negb same_user && (target <? Z.of_nat (length (pre ++ bytes))) && negb (batch_is_empty (length pre)) then
    let? w := flush_block (with_buf w (pre ++ block_hash_bytes (b_block_user_keys b)) (w_first w)) in
    let? bytes := encode_entry ikey value None in
    Ok (with_buf w (w_block_buf w ++ bytes) (Some uk), [uk], Some uk, 0%nat)
  else
    Ok (with_buf w (pre ++ bytes) (w_first w), b_block_user_keys b ++ [uk], restart_uk, entry_i).

Definition saw_user (b : Builder) (uk : list byte) : bool :=
  match b_prev_ikey b with
  | None => false
  | Some p => bytes_eqb (user_key p) uk
  end.

(** One pass of the entry loop. *)
Definition add_entry (path : string) (target : Z) (bloom_active : bool) (b : Builder) (e : entry) : Comp Builder :=
  let '(ikey, value) := e in
  if match b_prev_ikey b with Some prev => ikey_ltb ikey prev | None => false end then
    Some (Err (sst_err path "SST entries not sorted in "))
  else
    let uk := user_key ikey in
    let same_user := saw_user b uk in
    let! bloom := no_panic (if negb same_user && bloom_active then bloom_insert uk (b_bloom b) else Some (b_bloom b)) in
    let! '(w, keys, restart_uk, entry_i) := Some (place_entry target b same_user ikey value) in
    Some (Ok (mkBuilder w bloom (Z.max (b_max_sequence b) (sequence ikey)) (sat_add (b_n_entries b) 1)
      (Some ikey) (match b_smallest b with None => Some uk | s => s end)
      (if bool_decide (kind ikey = RangeDeletion) then b_range_tombstones b ++ [(ikey, value)]
       else b_range_tombstones b)
      (if is_tombstone (kind ikey) then sat_add (b_tombstone_count b) 1 else b_tombstone_count b)
      keys (if (entry_i mod BLOCK_RESTART =? 0)%nat then Some uk else restart_uk) (S entry_i))).

(** The entry loop; an item may be the error of its source. *)
Fixpoint add_entries (path : string) (target : Z) (bloom_active : bool) (b : Builder)
    (items : list (Result CoreError entry)) : Comp Builder :=
  match items with
  | [] => Some (Ok b)
  | item :: items =>
      let! e := Some item in
      let! b := add_entry path target bloom_active b e in
      add_entries path target bloom_active b items
  end.

(** The largest user key, counting the ends of range tombstones. *)
Definition raise_largest (largest : option (list byte)) (t : entry) : option (list byte) :=
  match largest with
  | None => Some t.2
  | Some hi => if bytes_ltb hi t.2 then Some t.2 else Some hi
  end.

Definition handle_bytes (h : BlockHandle) : Result CoreError (list byte) :=
  let? kl := try_u32 (length (h_first h)) "user key too large" in
  Ok (to_le 8 (h_offset h) ++ to_le 4 (h_length h) ++ to_le 4 kl ++ h_first h).

Fixpoint index_bytes (index : list BlockHandle) : Result CoreError (list byte) :=
  match index with
  | [] => Ok []
  | h :: index =>
      let? a := handle_bytes h in
      let? rest := index_bytes index in
      Ok (a ++ rest)
  end.

Definition BLOOM_CAP_MAX : Z := 2097152.

Definition new_bloom (bloom_hint : Z) : BloomFilter :=
  let cap := Z.min bloom_hint BLOOM_CAP_MAX in
  if bloom_hint =? 0 then always_true
  else with_partitions cap (bits_per_key_for_run cap) (filter_nparts cap).

Definition file_header (version n max_sequence num_blocks data_len : Z) : list byte :=
  SST_MAGIC ++ to_le 4 version ++ to_le 8 n ++ to_le 8 max_sequence ++ to_le 4 num_blocks ++ to_le 8 data_len.

(** What the environment answers to [create], [write_all] and [sync_data]. *)
Record EnvOutcome := mkEnv { env_create : Result CoreError unit; env_write : Result CoreError unit;
                             env_sync : Result CoreError unit }.
Definition env_ok : EnvOutcome := mkEnv (Ok tt) (Ok tt) (Ok tt).

(** [PEDRA_LZ4_PROBE=0] skips the probe; [PEDRA_BLOCK_TARGET] moves the
    target. *)
Record WriterEnv := mkWriterEnv { probe_off : bool; target_override : option Z }.

Definition start_builder (we : WriterEnv) (bloom : BloomFilter) (compress : bool) : Builder :=
  mkBuilder (mkFlush [] [] None [] compress (negb compress || probe_off we) []) bloom 0 0 None None [] 0 [] None 0.

(** The image of the file, and the table over it, once the entries are in. *)
Definition finish_table (path : string) (b : Builder) : Result CoreError (list byte * SstTable) :=
  let largest := foldl raise_largest (user_key <$> b_prev_ikey b) (b_range_tombstones b) in
  let w := b_flush b in
  let? w := flush_block (with_buf w (w_block_buf w ++ block_hash_bytes (b_block_user_keys b)) (w_first w)) in
  let '(key_cp, index) := derive_index_accel (w_index w) in
  let bloom := if b_n_entries b =? 0 then always_true else b_bloom b in
  let version := if w_policy_compress w then SST_VERSION else SST_VERSION_V3 in
  let? num_blocks := try_u32 (length index) "too many SST blocks" in
  let header := file_header version (b_n_entries b) (b_max_sequence b) num_blocks (Z.of_nat (length (w_data w))) in
  let index := move_handle (Z.of_nat (length header)) <$> index in
  let? ib := index_bytes index in
  let bb := bloom_encode bloom in
  let bloom := freeze_partitions bloom in
  let file_crc := crc32c_append (crc32c_append (crc32c_append (crc32c header) (w_data w)) ib) bb in
  let payload := header ++ w_data w ++ ib ++ bb in
  Ok (payload ++ to_le 4 file_crc,
      mkTable path (from_image payload) (length payload) (w_policy_compress w) (w_policy_compress w) None
        (b_range_tombstones b) (b_n_entries b) (b_tombstone_count b) (b_max_sequence b) index key_cp bloom
        (b_smallest b) largest).

(** [write_sst_try_sorted_body]: the file written and the table returned. *)
Definition write_sst_try_sorted_body (we : WriterEnv) (env : EnvOutcome) (path : string)
    (items : list (Result CoreError entry)) (bloom_hint : Z) (sync compress : bool)
    : Comp (list byte * SstTable) :=
  let bloom := new_bloom bloom_hint in
  let! b := add_entries path (block_target (target_override we)) (is_active bloom)
              (start_builder we bloom compress) items in
  let! '(image, t) := Some (finish_table path b) in
  let! _ := Some (env_create env) in
  let! _ := Some (env_write env) in
  let! _ := Some (if sync then env_sync env else Ok tt) in
  Some (Ok (image, t)).

(** * Opening *)

Definition decode_block_from_payload (path : string) (buf : list byte) (h : BlockHandle)
    (compressed_blocks block_crc : bool) : Comp (list entry) :=
  let end_ := h_offset h + h_length h in
  if U64_MAX <? end_ then Some (Err (internal "block length overflow"))
  else if Z.of_nat (length buf) <? end_ then Some (Err (sst_err path "block past EOF in "))
  else decode_block_bytes path (slice (Z.to_nat (h_offset h)) (Z.to_nat end_) buf) compressed_blocks block_crc.

(** The index read back. *)
Fixpoint read_index (n : nat) (ic : Cursor) : Result CoreError (list BlockHandle * Cursor) :=
  match n with
  | O => Ok ([], ic)
  | S n =>
      let? '(block_off, ic) := read_u64 ic in
      let? '(block_len, ic) := read_u32 ic in
      let? '(key_len, ic) := read_u32 ic in
      let? '(first_user_key, ic) := read_slice (Z.to_nat key_len) ic in
      let? '(rest, ic) := read_index n ic in
      Ok (mkHandle block_off block_len first_user_key 0 :: rest, ic)
  end.

(** The locals of the entry scan of [decode_v2_or_v3]. *)
Record Scan := mkScan {
  sc_range_tombstones : list entry; sc_tombstone_count : Z; sc_smallest : option (list byte);
  sc_largest : option (list byte); sc_n : Z; sc_last : option InternalKey }.
Definition scan_start : Scan := mkScan [] 0 None None 0 None.

Definition scan_entry (path : string) (s : Scan) (e : entry) : Result CoreError Scan :=
  let '(ikey, value) := e in
  if match sc_last s with Some prev => ikey_ltb ikey prev | None => false end then
    Err (sst_err path "SST entries not sorted in ")
  else
    let uk := user_key ikey in
    let smallest := match sc_smallest s with None => Some uk | x => x end in
    let largest :=
      if bool_decide (kind ikey = RangeDeletion) && bytes_ltb uk value then Some value else Some uk in
    Ok (mkScan (if bool_decide (kind ikey = RangeDeletion) then sc_range_tombstones s ++ [(ikey, value)]
                else sc_range_tombstones s)
          (if is_tombstone (kind ikey) then sc_tombstone_count s + 1 else sc_tombstone_count s)
          smallest largest (sc_n s + 1) (Some ikey)).

Fixpoint scan_entries (path : string) (s : Scan) (es : list entry) : Result CoreError Scan :=
  match es with
  | [] => Ok s
  | e :: es => let? s := scan_entry path s e in scan_entries path s es
  end.

Fixpoint scan_blocks (path : string) (buf : list byte) (compressed_blocks block_crc : bool) (s : Scan)
    (index : list BlockHandle) : Comp Scan :=
  match index with
  | [] => Some (Ok s)
  | h :: index =>
      let! block := decode_block_from_payload path buf h compressed_blocks block_crc in
      let! s := Some (scan_entries path s block) in
      scan_blocks path buf compressed_blocks block_crc s index
  end.

(** The entries of every block. *)
Fixpoint read_blocks (path : string) (buf : list byte) (compressed_blocks block_crc : bool)
    (index : list BlockHandle) : Comp (list entry) :=
  match index with
  | [] => Some (Ok [])
  | h :: index =>
      let! block := decode_block_from_payload path buf h compressed_blocks block_crc in
      let! rest := read_blocks path buf compressed_blocks block_crc index in
      Some (Ok (block ++ rest))
  end.

(** The loop of [rebuild_bloom]: consecutive equal keys are inserted once. *)
Fixpoint insert_users (last : option (list byte)) (keys : list (list byte)) (f : BloomFilter) : option BloomFilter :=
  match keys with
  | [] => Some f
  | uk :: keys =>
      if bool_decide (last = Some uk) then insert_users last keys f
      else f ← bloom_insert uk f; insert_users (Some uk) keys f
  end.

Definition rebuild_bloom (es : list entry) : option BloomFilter :=
  let n := Z.of_nat (length es) in
  if batch_is_empty (length es) then Some always_true
  else
    f ← insert_users None (keys_of es) (with_partitions n (bits_per_key_for_run n) (filter_nparts n));
    Some (freeze_partitions f).

Definition bloom_msg (e : BloomError) : Message :=
  match e with
  | TooShort n => [Lit "bloom too short: "; Num (Z.of_nat n); Lit " bytes"]
  | BitsTruncated => [Lit "bloom bits truncated"]
  | HeaderInvalid nbits k nbytes =>
      [Lit "bloom header invalid: nbits "; Num nbits; Lit " k "; Num k; Lit " nbytes "; Num nbytes;
       Lit " (max k "; Num MAX_K; Lit ")"]
  | PartsBad nparts => [Lit "partitioned bloom nparts "; Num nparts]
  | PartsTruncated => [Lit "partitioned bloom truncated"]
  | PartTruncated => [Lit "partitioned bloom part truncated"]
  end.

Definition decode_v2_or_v3 (path : string) (buf : list byte) (c : Cursor)
    (expect_bloom compressed_blocks block_crc : bool) : Comp SstTable :=
  let! '(n, c) := Some (read_u64 c) in
  let! _ := Some (check_sst_entry_count path n (length buf) compressed_blocks) in
  let! '(max_sequence, c) := Some (read_u64 c) in
  let! '(num_blocks, c) := Some (read_u32 c) in
  let! _ := Some (check_sst_block_count path num_blocks (length buf)) in
  let! '(data_len, c) := Some (read_u64 c) in
  let data_end := Z.of_nat (c_pos c) + data_len in
  if U64_MAX <? data_end then Some (Err (internal "SST data overflow"))
  else if Z.of_nat (length buf) <? data_end then Some (Err (sst_err path "SST data extends past file in "))
  else
    let! '(index, ic) := Some (read_index (Z.to_nat num_blocks) (mkCursor (drop (Z.to_nat data_end) buf) 0)) in
    let! bloom := Some (
      if expect_bloom then
        match bloom_decode (drop (Z.to_nat data_end + c_pos ic) buf) with
        | Ok f => Ok f
        | Err e => Err (Internal (Lit "SST bloom in " :: Lit path :: Lit ": " :: bloom_msg e))
        end
      else if negb (batch_is_empty (length (c_data ic) - c_pos ic)) then
        Err (sst_err path "trailing index bytes in SST ")
      else Ok always_true) in
    let! s := scan_blocks path buf compressed_blocks block_crc scan_start index in
    if negb (sc_n s =? n) then
      Some (Err (Internal [Lit "SST entry count mismatch: header "; Num n; Lit ", decoded "; Num (sc_n s)]))
    else
      let! bloom :=
        if is_active bloom then Some (Ok bloom)
        else
          let! all := read_blocks path buf compressed_blocks block_crc index in
          no_panic (rebuild_bloom all) in
      let '(key_cp, index) := derive_index_accel index in
      Some (Ok (mkTable path (from_image buf) (length buf) compressed_blocks block_crc None
        (sc_range_tombstones s) n (sc_tombstone_count s) max_sequence index key_cp bloom
        (sc_smallest s) (sc_largest s))).

(** Version 1: all entries inline, read eagerly. *)
Fixpoint read_entries (n : nat) (c : Cursor) : Result CoreError (list entry * Cursor) :=
  match n with
  | O => Ok ([], c)
  | S n =>
      let? '(e, c) := read_entry None c in
      let? '(es, c) := read_entries n c in
      Ok (e :: es, c)
  end.

Fixpoint ensure_sorted (path : string) (es : list entry) : Result CoreError unit :=
  match es with
  | a :: ((b :: _) as es) =>
      if ikey_ltb b.1 a.1 then Err (sst_err path "SST entries not sorted in ") else ensure_sorted path es
  | _ => Ok tt
  end.

Definition user_key_bounds (es : list entry) : option (list byte) * option (list byte) :=
  match es, last es with
  | first :: _, Some l =>
      (Some (user_key first.1),
       foldl (λ hi e, if bool_decide (kind e.1 = RangeDeletion) then raise_largest hi e else hi)
         (Some (user_key l.1)) es)
  | _, _ => (None, None)
  end.

Definition from_eager_entries (path : string) (es : list entry) (max_sequence : Z) (index : list BlockHandle)
    (bloom : BloomFilter) (payload : list byte) (compressed_blocks block_crc : bool) : SstTable :=
  let '(smallest, largest) := user_key_bounds es in
  let '(key_cp, index) := derive_index_accel index in
  mkTable path (from_image payload) (length payload) compressed_blocks block_crc (Some es)
    (filter (λ e, kind e.1 = RangeDeletion) es) (Z.of_nat (length es))
    (Z.of_nat (length (filter (λ e, is_tombstone (kind e.1) = true) es))) max_sequence index key_cp bloom
    smallest largest.

Definition max_sequence_of (es : list entry) : Z := foldl (λ m e, Z.max m (sequence e.1)) 0 es.

Definition decode_v1 (path : string) (file_len : nat) (c : Cursor) : Result CoreError SstTable :=
  let? '(n, c) := read_u64 c in
  let? _ := check_sst_entry_count path n file_len false in
  let? '(es, c) := read_entries (Z.to_nat n) c in
  let? '(file_max, c) := read_u64 c in
  let max_sequence := if negb (n =? 0) then Z.max (max_sequence_of es) file_max else file_max in
  if negb (batch_is_empty (length (c_data c) - c_pos c)) then Err (sst_err path "trailing bytes in SST ")
  else
    let? _ := ensure_sorted path es in
    Ok (from_eager_entries path es max_sequence [] always_true [] false false).

(** [SstTable::decode], on the bytes of the file. *)
Definition sst_decode (path : string) (buf : list byte) : Comp SstTable :=
  let! payload := Some (crc_stripped_body path buf) in
  let! '(magic, c) := Some (read_slice 8 (mkCursor payload 0)) in
  if negb (sst_magic_is_pedra magic) then
    Some (Err (Internal [Lit "bad SST magic in "; Lit path; Lit ": not a Pedra SST (C++ Rocks directory is not drop-in; use `pedra migrate-from-rocks`)"]))
  else
    let! '(version, c) := Some (read_u32 c) in
    if version =? SST_VERSION_V1 then Some (decode_v1 path (length payload) c)
    else if version =? SST_VERSION_V2 then decode_v2_or_v3 path payload c false false false
    else if version =? SST_VERSION_V3 then decode_v2_or_v3 path payload c true false false
    else if version =? SST_VERSION_V4 then decode_v2_or_v3 path payload c true true false
    else if version =? SST_VERSION then decode_v2_or_v3 path payload c true true true
    else if version =? SST_VERSION_V6 then decode_v2_or_v3 path payload c true false true
    else Some (Err (Internal [Lit "unsupported SST version "; Num version; Lit " in "; Lit path])).
End tables.
