(* ===== verification/SstWrite.v ===== *)
(** The table writer against its specification: the entries are cut into
    blocks by [cut]; the file is a header, the images of the blocks one after
    the other, an index entry per block and the filter. *)

From S2P Require Import Prelude ErrorKernel KeyKernel BatchKernel WalFormat Visibility MemTable Bloom SstBlock SstFile SstTable.

Local Open Scope Z_scope.

(** * Specification *)

Definition user_of (e : entry) : list byte := user_key e.1.

(** Where blocks are cut: at a new user key that would push the block past the
    target. [open] is the block being filled. *)
Fixpoint cut (target : Z) (open es : list entry) : list (list entry) :=
  match es with
  | [] => match open with [] => [] | _ => [open] end
  | e :: es =>
      if negb (bool_decide (user_of <$> last open = Some (user_of e))) &&
         (target <? Z.of_nat (length (run_bytes 0 [] (open ++ [e])))) && negb (batch_is_empty (length open))
      then open :: cut target [e] es
      else cut target (open ++ [e]) es
  end.

(** What a reader can open: the trailer's limit on entries and the guard's
    limit on bytes. *)
Definition block_fits (blk : list entry) : Prop :=
  (length blk ≤ 253 * BLOCK_RESTART)%nat ∧ Z.of_nat (length (block_bytes blk)) ≤ DEFAULT_MAX_UNCOMPRESSED_BLOCK_SIZE.

Definition first_of (blk : list entry) : list byte := from_option user_of [] (head blk).

(** The counters a table keeps about its entries. *)
Definition range_dels (es : list entry) : list entry := filter (λ e, kind e.1 = RangeDeletion) es.
Definition tombs_in (es : list entry) : Z := Z.of_nat (length (filter (λ e, is_tombstone (kind e.1) = true) es)).

Section writer.
Context `{CC : Crc32c, CF : !Crc32cFile, LZ : Lz4}.

(** The bytes a block is stored as. *)
Definition block_image (pc : bool) (blk : list entry) (s : list byte) : Prop :=
  if pc then
    ∃ out, lz4_compress (block_bytes blk) = Some out ∧
      s = (to_le 4 (Z.of_nat (length (block_bytes blk))) ++ out) ++
          to_le 4 (crc32c (to_le 4 (Z.of_nat (length (block_bytes blk))) ++ out))
  else s = block_bytes blk.

(** Blocks laid out from offset [base], with their handles. *)
Fixpoint laid (pc : bool) (base : Z) (blks : list (list entry)) (index : list BlockHandle) (data : list byte) : Prop :=
  match blks, index with
  | [], [] => data = []
  | blk :: blks, h :: index =>
      ∃ s rest, data = s ++ rest ∧ block_image pc blk s ∧ h_offset h = base ∧
        h_length h = Z.of_nat (length s) ∧ Z.of_nat (length s) ≤ U32_MAX ∧ h_first h = first_of blk ∧
        laid pc (base + Z.of_nat (length s)) blks index rest
  | _, _ => False
  end.

Lemma laid_snoc pc base blks index data blk s h :
  laid pc base blks index data → block_image pc blk s → h_offset h = base + Z.of_nat (length data) →
  h_length h = Z.of_nat (length s) → Z.of_nat (length s) ≤ U32_MAX → h_first h = first_of blk →
  laid pc base (blks ++ [blk]) (index ++ [h]) (data ++ s).
Proof.
  revert base index data. induction blks as [|b blks IH]; intros base [|h0 index] data Hl Hi Ho Hn Hs Hf;
    cbn [laid app] in *; [|done|done|].
  - subst data. exists s, []. rewrite app_nil_r. split_and!; [done|done|cbn in Ho; lia|done|done|done|done].
  - destruct Hl as (s0 & rest & -> & H1 & H2 & H3 & H4 & H5 & H6).
    exists s0, (rest ++ s). rewrite <-(assoc_L (++)). split_and!; try done.
    apply IH; [done|done|rewrite length_app in Ho; lia|done|done|done].
Qed.

(** Handles may move and get their windows. *)
Lemma laid_move pc base d f blks index data :
  (∀ h, h_offset (f h) = h_offset h + d ∧ h_length (f h) = h_length h ∧ h_first (f h) = h_first h) →
  laid pc base blks index data → laid pc (base + d) blks (f <$> index) data.
Proof.
  intros Hf. revert base index data. induction blks as [|b blks IH]; intros base [|h index] data Hl;
    cbn [laid fmap list_fmap] in *; [done|done|done|].
  destruct Hl as (s & rest & -> & H1 & H2 & H3 & H4 & H5 & H6). destruct (Hf h) as (E1 & E2 & E3).
  exists s, rest. split_and!; [done|done|congruence|congruence|done|congruence|].
  replace (base + d + Z.of_nat (length s)) with (base + Z.of_nat (length s) + d) by lia. by apply IH.
Qed.

Lemma laid_length pc base blks index data : laid pc base blks index data → length index = length blks.
Proof.
  revert base index data. induction blks as [|b blks IH]; intros base [|h index] data Hl; cbn [laid] in *;
    [done|done|done|]. destruct Hl as (s & rest & _ & _ & _ & _ & _ & _ & Hl). cbn. f_equal. by eapply IH.
Qed.

(** ** Flushing a block *)

(** The restart key after a run. *)
Fixpoint restart_of (i : nat) (rst : list byte) (es : list entry) : list byte :=
  match es with
  | [] => rst
  | e :: es => restart_of (S i) (restart_next i rst e) es
  end.

Lemma run_bytes_app i rst es es' :
  run_bytes i rst (es ++ es') = run_bytes i rst es ++ run_bytes (i + length es) (restart_of i rst es) es'.
Proof.
  revert i rst. induction es as [|e es IH]; intros i rst; cbn [app run_bytes length restart_of].
  { by rewrite Nat.add_0_r. }
  rewrite IH, <-(assoc_L (++)). do 3 f_equal. lia.
Qed.

Lemma restart_of_snoc i rst es e : restart_of i rst (es ++ [e]) = restart_next (i + length es) (restart_of i rst es) e.
Proof.
  revert i rst. induction es as [|x es IH]; intros i rst; cbn [app length restart_of]; [by rewrite Nat.add_0_r|].
  rewrite IH. f_equal. lia.
Qed.

Lemma block_bytes_nonempty blk : blk ≠ [] → Forall entry_ok blk → (16 ≤ length (block_bytes blk))%nat.
Proof.
  intros Hne Hf. destruct blk as [|e blk]; [done|]. apply Forall_cons in Hf as [He _].
  unfold block_bytes. cbn [run_bytes]. rewrite !length_app. pose proof (entry_bytes_length e (restart_arg 0 []) He). lia.
Qed.

(** A flush state between blocks. *)
Definition flush_inv (blks : list (list entry)) (w : Flush) : Prop :=
  laid (w_policy_compress w) 0 blks (w_index w) (w_data w) ∧ w_scratch w = [] ∧
  (w_policy_decided w = false → blks = []).

Context `{LL : !Lz4Laws}.

Definition lz4_image (src out : list byte) : list byte := to_le 4 (Z.of_nat (length src)) ++ out.

Lemma lz4_into_ok src : Z.of_nat (length src) ≤ DEFAULT_MAX_UNCOMPRESSED_BLOCK_SIZE →
  ∃ out, lz4_compress src = Some out ∧ lz4_into src = Ok (lz4_image src out) ∧
    length (lz4_image src out) ≠ 0%nat ∧ Z.of_nat (length (lz4_image src out) + 4) ≤ U32_MAX.
Proof using LL.
  unfold DEFAULT_MAX_UNCOMPRESSED_BLOCK_SIZE. intros Hl. destruct (lz4_compress_total src) as [out E].
  pose proof (lz4_bound _ _ E). assert (length (lz4_image src out) = 4 + length out)%nat as Hlen by (unfold lz4_image; len).
  exists out. rewrite Hlen. split_and!; [done| |lia|unfold U32_MAX; lia].
  unfold lz4_into. rewrite try_u32_ok by (unfold U32_MAX; lia). cbn [res_bind]. by rewrite E.
Qed.

(** The policy is decided by the first block and then stays. *)
Lemma decide_policy_ok blks w out :
  flush_inv blks w → lz4_into (w_block_buf w) = Ok (lz4_image (w_block_buf w) out) →
  ∃ pc s, decide_policy w = Ok (mkFlush (w_data w) (w_block_buf w) (w_first w) (w_index w) pc true s) ∧
    laid pc 0 blks (w_index w) (w_data w) ∧ (s = [] ∨ pc = true ∧ s = lz4_image (w_block_buf w) out).
Proof.
  intros (Hl & Hs & Hd) Ei. unfold decide_policy. destruct w as [data buf first index pc dec scratch]. cbn in *. subst scratch.
  destruct dec; [by exists pc, []; split_and!; [|done|left]|].
  specialize (Hd eq_refl). subst blks. destruct index as [|]; [|done].
  destruct pc; [|by exists false, []; split_and!; [| |left]].
  rewrite Ei. cbn [res_bind]. eexists _, _. split; [done|]. split; [done|]. case_match; [by right|by left].
Qed.

(** The block the writer closes, whatever the policy decides. *)
Lemma flush_block_ok blks w blk :
  flush_inv blks w → blk ≠ [] → Forall entry_ok blk → block_fits blk →
  w_block_buf w = block_bytes blk → w_first w = Some (first_of blk) →
  ∃ w', flush_block w = Ok w' ∧ flush_inv (blks ++ [blk]) w' ∧ w_block_buf w' = [].
Proof using LL.
  intros Hw Hne He [_ Hfit] Hb Hf. pose proof (block_bytes_nonempty blk Hne He) as H16.
  destruct (lz4_into_ok (block_bytes blk) Hfit) as (out & Eo & Ei & Hz0 & Hz).
  unfold DEFAULT_MAX_UNCOMPRESSED_BLOCK_SIZE in Hfit. rewrite <-Hb in Ei.
  destruct (decide_policy_ok blks w out Hw Ei) as (pc & s & Ed & Hl & Hs).
  unfold flush_block. rewrite Hb. unfold batch_is_empty. rewrite (proj2 (Nat.eqb_neq _ 0)) by lia.
  rewrite Ed. cbn [res_bind w_data w_block_buf w_first w_index w_policy_compress w_scratch].
  unfold take_first. cbn [w_first]. rewrite Hf. rewrite Hb in *. set (z := lz4_image (block_bytes blk) out) in *.
  assert (∀ img, block_image pc blk img → Z.of_nat (length img) ≤ U32_MAX → flush_inv (blks ++ [blk])
    (mkFlush (w_data w ++ img) [] None (w_index w ++ [mkHandle (Z.of_nat (length (w_data w)))
       (Z.of_nat (length img)) (first_of blk) 0]) pc true [])) as Hclose.
  { intros img Hi Hn. split_and!; [|done|done]. cbn.
    apply laid_snoc; [done|done|cbn; lia|done|done|done]. }
  destruct pc.
  - assert ((if (length s =? 0)%nat then lz4_into (block_bytes blk) else Ok s) = Ok z) as Es.
    { destruct Hs as [->|[_ ->]]; [done|]. by rewrite (proj2 (Nat.eqb_neq _ 0)) by done. }
    rewrite Es. cbn [res_bind]. rewrite try_u32_ok by len. cbn [res_bind].
    eexists. split; [done|]. split; [|done]. apply Hclose; [by exists out|len].
  - destruct Hs as [->|[? _]]; [|done]. rewrite try_u32_ok by (unfold U32_MAX; lia). cbn [res_bind].
    eexists. split; [done|]. split; [|done]. apply Hclose; [done|unfold U32_MAX; lia].
Qed.

(** ** One entry *)

(** The block being filled. *)
Definition open_inv (open : list entry) (b : Builder) : Prop :=
  w_block_buf (b_flush b) = run_bytes 0 [] open ∧ b_block_user_keys b = keys_of open ∧
  b_entry_i b = length open ∧ Forall entry_ok open ∧
  (open ≠ [] → w_first (b_flush b) = Some (first_of open) ∧ b_restart_uk b = Some (restart_of 0 [] open)).

Lemma encode_entry_bytes e r : entry_ok e → encode_entry e.1 e.2 r = Ok (entry_bytes e r).
Proof.
  intros He. unfold entry_bytes. by destruct (encode_entry_cases e r He) as [->|(? & ? & _ & _ & ->)].
Qed.

Lemma first_of_snoc open e : open ≠ [] → first_of (open ++ [e]) = first_of open.
Proof. by destruct open. Qed.

Lemma run_bytes_empty es : Forall entry_ok es → batch_is_empty (length (run_bytes 0 [] es)) = batch_is_empty (length es).
Proof.
  unfold batch_is_empty. destruct es as [|e es]; [done|]. intros [He _]%Forall_cons. cbn [run_bytes length].
  pose proof (entry_bytes_length e (restart_arg 0 []) He). rewrite length_app.
  by rewrite !(proj2 (Nat.eqb_neq _ 0)) by lia.
Qed.

(** What one pass does to the blocks. *)
Definition placed_as (blks : list (list entry)) (open : list entry)
    (r : Flush * list (list byte) * option (list byte) * nat) : Prop :=
  let '(w, keys, restart_uk, i) := r in
  ∃ pre e, open = pre ++ [e] ∧ flush_inv blks w ∧ w_block_buf w = run_bytes 0 [] open ∧ keys = keys_of open ∧
    i = length pre ∧ Forall entry_ok open ∧ w_first w = Some (first_of open) ∧
    (restart_uk = Some (restart_of 0 [] pre) ∨ pre = []).

Lemma flush_inv_buf blks w buf first : flush_inv blks (with_buf w buf first) ↔ flush_inv blks w.
Proof. done. Qed.

Lemma place_entry_ok target blks open b e same rest :
  flush_inv blks (b_flush b) → open_inv open b → entry_ok e →
  (open ≠ [] → same = bool_decide (user_of <$> last open = Some (user_of e))) →
  Forall block_fits (cut target open (e :: rest)) →
  ∃ r blks' open', place_entry target b same e.1 e.2 = Ok r ∧ placed_as blks' open' r ∧
    concat blks' ++ open' = concat blks ++ open ++ [e] ∧
    (Forall (λ blk, blk ≠ []) blks → Forall (λ blk, blk ≠ []) blks') ∧
    ∃ new, blks' = blks ++ new ∧ cut target open (e :: rest) = new ++ cut target open' rest.
Proof using LL.
  intros Hw (Hbuf & Hkeys & Hi & Hes & Hopen) He Hsame Hfit. unfold place_entry. cbn [cut] in *.
  rewrite Hbuf, run_bytes_empty by done. destruct open as [|x open].
  - cbn [length batch_is_empty Nat.eqb with_buf w_block_buf]. cbn [run_bytes app Nat.modulo Nat.divmod fst Nat.sub Nat.eqb].
    rewrite encode_entry_bytes by done. cbn [res_bind]. rewrite andb_false_r in *.
    eexists _, blks, [e]. split; [done|]. split_and!; [|done|done|exists []; by rewrite app_nil_r, andb_false_r].
    exists [], e. rewrite Hkeys. cbn. rewrite app_nil_r. split_and!; try done; [by constructor|by right].
  - set (op := x :: open) in *. assert (op ≠ []) as Hne by done. destruct (Hopen Hne) as [Hf Hr].
    rewrite Hsame by done. change (batch_is_empty (length op)) with false in *. cbn [negb] in *.
    rewrite Hi, Hr, Hbuf, run_bytes_empty by done. change (batch_is_empty (length op)) with false.
    rewrite encode_entry_bytes by done. cbn [res_bind negb].
    assert (run_bytes 0 [] op ++ entry_bytes e (if (length op mod BLOCK_RESTART =? 0)%nat then None
      else Some (restart_of 0 [] op)) = run_bytes 0 [] (op ++ [e])) as Hrun.
    { rewrite run_bytes_app. cbn [run_bytes Nat.add]. by rewrite app_nil_r. }
    rewrite Hrun. set (c := negb _ && _ && true) in *. destruct c.
    + apply Forall_cons in Hfit as [Hfo _].
      edestruct (flush_block_ok blks (with_buf (b_flush b) (run_bytes 0 [] op ++ block_hash_bytes (b_block_user_keys b))
        (w_first (b_flush b))) op) as (w' & -> & Hw' & Hb'); [done|done|done|done|by cbn; rewrite Hkeys|done|].
      cbn [res_bind]. rewrite Hb', encode_entry_bytes by done. cbn [res_bind app]. eexists _, (blks ++ [op]), [e]. split; [done|].
      split_and!; [|by rewrite concat_app, <-(assoc_L (++)); cbn; rewrite app_nil_r
                   |intros; apply Forall_app; by repeat constructor|by exists [op]].
      exists [], e. cbn. rewrite app_nil_r. split_and!; try done; [by constructor|by right].
    + eexists _, blks, (op ++ [e]). split; [done|]. split_and!; [|done|done|exists []; by rewrite app_nil_r].
      exists op, e. split_and!; try done.
      * rewrite Hkeys. unfold keys_of. by rewrite fmap_app.
      * apply Forall_app. split; [done|]. by constructor.
      * by left.
Qed.

(** ** The entry loop *)

(** What the builder knows about the entries seen so far. *)
Definition meta_inv (seen : list entry) (b : Builder) : Prop :=
  b_max_sequence b = max_sequence_of seen ∧ b_n_entries b = Z.of_nat (length seen) ∧
  b_prev_ikey b = fst <$> last seen ∧ b_smallest b = user_of <$> head seen ∧
  b_range_tombstones b = range_dels seen ∧ b_tombstone_count b = tombs_in seen.

Definition bloom_inv (bloom0 : BloomFilter) (seen : list entry) (f : BloomFilter) : Prop :=
  if is_active bloom0 then ∃ ks, filling ks f ∧ ∀ e, e ∈ seen → user_of e ∈ ks else f = bloom0.

Definition builder_inv (bloom0 : BloomFilter) (seen : list entry) (b : Builder) (blks : list (list entry))
    (open : list entry) : Prop :=
  flush_inv blks (b_flush b) ∧ open_inv open b ∧ concat blks ++ open = seen ∧ (open = [] → seen = []) ∧
  Forall (λ blk, blk ≠ []) blks ∧ meta_inv seen b ∧ bloom_inv bloom0 seen (b_bloom b).

Lemma max_sequence_of_snoc es e : max_sequence_of (es ++ [e]) = Z.max (max_sequence_of es) (sequence e.1).
Proof. unfold max_sequence_of. by rewrite foldl_app. Qed.

Lemma range_dels_snoc es e :
  range_dels (es ++ [e]) = if bool_decide (kind e.1 = RangeDeletion) then range_dels es ++ [e] else range_dels es.
Proof.
  unfold range_dels. rewrite filter_app. case_bool_decide.
  - by rewrite filter_cons_True.
  - rewrite filter_cons_False by done. by rewrite app_nil_r.
Qed.

Lemma tombs_in_snoc es e : tombs_in (es ++ [e]) = if is_tombstone (kind e.1) then tombs_in es + 1 else tombs_in es.
Proof.
  unfold tombs_in. rewrite filter_app, length_app. destruct (is_tombstone (kind e.1)) eqn:E.
  - rewrite filter_cons_True by done. cbn. lia.
  - rewrite filter_cons_False by congruence. cbn. lia.
Qed.

Lemma tombs_in_range es : 0 ≤ tombs_in es ≤ Z.of_nat (length es).
Proof. unfold tombs_in. pose proof (length_filter (λ e, is_tombstone (kind e.1) = true) es). lia. Qed.

Lemma last_seen_open (blks : list (list entry)) open : open ≠ [] → last (concat blks ++ open) = last open.
Proof. intros Hne. rewrite last_app. destruct (last open) eqn:E; [done|]. by apply last_None in E. Qed.

Lemma bloom_step bloom0 seen f e :
  bloom_inv bloom0 seen f →
  let same := bool_decide (user_of <$> last seen = Some (user_of e)) in
  ∃ f', (if negb same && is_active bloom0 then bloom_insert (user_of e) f else Some f) = Some f' ∧
    bloom_inv bloom0 (seen ++ [e]) f'.
Proof.
  intros Hb same. unfold bloom_inv in *. destruct (is_active bloom0) eqn:Ea; [|exists f; by rewrite andb_false_r].
  destruct Hb as (ks & Hf & Hk). rewrite andb_true_r. unfold same. case_bool_decide as E; cbn [negb].
  - exists f. split; [done|]. exists ks. split; [done|]. intros e' [Hin|Hin]%elem_of_app; [by apply Hk|].
    apply list_elem_of_singleton in Hin as ->. destruct (last seen) as [l|] eqn:El; [|done]. injection E as <-.
    apply Hk. by eapply last_Some_elem_of.
  - destruct (filling_insert ks (user_of e) f Hf) as (f' & Ef & Hf'). exists f'. split; [done|].
    exists (user_of e :: ks). split; [done|].
    intros e' [Hin|Hin]%elem_of_app; [right; by apply Hk|]. apply list_elem_of_singleton in Hin as ->. left.
Qed.

Lemma saw_user_spec seen b e :
  b_prev_ikey b = fst <$> last seen → saw_user b (user_of e) = bool_decide (user_of <$> last seen = Some (user_of e)).
Proof.
  intros Hp. unfold saw_user. rewrite Hp. destruct (last seen) as [l|]; cbn; [|done].
  unfold bytes_eqb. apply bool_decide_ext. unfold user_of. split; congruence.
Qed.

Lemma add_entry_ok path target bloom0 seen b blks open e rest :
  builder_inv bloom0 seen b blks open → entry_ok e → sorted_entries (seen ++ [e]) →
  Z.of_nat (length seen) < U64_MAX → Forall block_fits (cut target open (e :: rest)) →
  ∃ b' blks' open', add_entry path target (is_active bloom0) b e = Some (Ok b') ∧
    builder_inv bloom0 (seen ++ [e]) b' blks' open' ∧
    ∃ new, blks' = blks ++ new ∧ cut target open (e :: rest) = new ++ cut target open' rest.
Proof using LL.
  intros (Hw & Ho & Hcat & Hnil & Hbl & (Mx & Mn & Mp & Ms & Mr & Mt) & Hb) He Hs Hn Hfit.
  unfold add_entry. destruct e as [ikey value]. rewrite Mp.
  assert (match fst <$> last seen with Some prev => ikey_ltb ikey prev | None => false end = false) as ->.
  { destruct (last seen) as [l|] eqn:El; [|done]. cbn. apply not_true_iff_false. rewrite ikey_ltb_spec.
    apply sorted_entries_app in Hs as (_ & _ & Hs). apply (Hs l (ikey, value)); [by apply last_Some_elem_of|set_solver]. }
  change (user_key ikey) with (user_of (ikey, value)). rewrite (saw_user_spec seen b (ikey, value) Mp).
  destruct (bloom_step bloom0 seen (b_bloom b) (ikey, value) Hb) as (f' & Ef & Hf').
  rewrite Ef. cbn [no_panic comp_bind fmap option_fmap option_map].
  destruct (place_entry_ok target blks open b (ikey, value)
    (bool_decide (user_of <$> last seen = Some (user_of (ikey, value)))) rest Hw Ho He) as (r & blks' & open' & Ep & Hpl & Hc & Hne' & Hcut).
  { intros Hne. by rewrite <-Hcat, last_seen_open by done. }
  { done. }
  cbn [fst snd] in Ep. rewrite Ep. destruct r as [[[w keys] restart_uk] i].
  destruct Hpl as (pre & e' & -> & Pw & Pb & Pk & Pi & Pe & Pf & Pr). cbn [comp_bind].
  eexists _, blks', (pre ++ [e']). split; [done|]. split; [|done].
  split_and!; [done| |rewrite Hc, (assoc_L (++)), Hcat; done|by destruct pre|by apply Hne'| |done].
  - split_and!; [done|done|cbn [b_entry_i]; rewrite Pi; len|done|]. intros _. split; [done|]. cbn [b_restart_uk].
    assert (e' = (ikey, value)) as -> by (rewrite !(assoc_L (++)) in Hc; by apply app_inj_tail in Hc as [_ ->]).
    rewrite restart_of_snoc, Pi. cbn [Nat.add]. unfold restart_next.
    destruct (length pre mod BLOCK_RESTART =? 0)%nat eqn:Em; [done|].
    destruct Pr as [->| ->]; [done|by cbn in Em].
  - unfold meta_inv. cbn [b_max_sequence b_n_entries b_prev_ikey b_smallest b_range_tombstones b_tombstone_count].
    rewrite max_sequence_of_snoc, range_dels_snoc, tombs_in_snoc, last_snoc. cbn [fst snd].
    pose proof (tombs_in_range seen). unfold sat_add.
    split_and!; [by rewrite Mx|rewrite Mn; len|done| |by rewrite Mr|rewrite Mt; destruct (is_tombstone _); lia].
    rewrite Ms. by destruct seen.
Qed.

Lemma add_entries_ok path target bloom0 es seen b blks open :
  builder_inv bloom0 seen b blks open → Forall entry_ok es → sorted_entries (seen ++ es) →
  Z.of_nat (length (seen ++ es)) ≤ U64_MAX → Forall block_fits (cut target open es) →
  ∃ b' blks' open', add_entries path target (is_active bloom0) b (Ok <$> es) = Some (Ok b') ∧
    builder_inv bloom0 (seen ++ es) b' blks' open' ∧ blks ++ cut target open es = blks' ++ cut target open' [].
Proof using LL.
  revert seen b blks open. induction es as [|e es IH]; intros seen b blks open Hb He Hs Hn Hfit.
  { exists b, blks, open. by rewrite app_nil_r. }
  apply Forall_cons in He as [He Hes]. rewrite (app_assoc seen [e] es : seen ++ e :: es = _) in *.
  destruct (add_entry_ok path target bloom0 seen b blks open e es) as (b1 & blks1 & open1 & E & Hb1 & new & -> & Hc);
    [done|done| | |done|].
  { by apply sorted_entries_app in Hs as (Hs & _). }
  { rewrite !length_app in Hn. cbn in Hn. lia. }
  rewrite Hc in Hfit |- *. apply Forall_app in Hfit as [_ Hfit].
  destruct (IH _ _ _ _ Hb1 Hes Hs Hn Hfit) as (b2 & blks2 & open2 & E2 & Hb2 & Hc2).
  exists b2, blks2, open2. split_and!; [|done|by rewrite (assoc_L (++))].
  cbn [fmap list_fmap add_entries comp_bind]. rewrite E. done.
Qed.

(** ** The file *)

Definition handle_enc (h : BlockHandle) : list byte :=
  to_le 8 (h_offset h) ++ to_le 4 (h_length h) ++ to_le 4 (Z.of_nat (length (h_first h))) ++ h_first h.

Lemma index_bytes_ok index :
  Forall (λ h, Z.of_nat (length (h_first h)) ≤ U32_MAX) index → index_bytes index = Ok (concat (handle_enc <$> index)).
Proof.
  induction 1 as [|h index Hh _ IH]; [done|]. cbn [index_bytes fmap list_fmap concat].
  unfold handle_bytes. rewrite try_u32_ok by done. cbn [res_bind]. by rewrite IH.
Qed.

Definition accel_ok (cp : nat) (index : list BlockHandle) : Prop :=
  cp = default 0%nat (min_shared None (h_first <$> index)) ∧
  Forall (λ h, h_p8 h = p8_window (h_first h) cp) index.

Lemma derive_index_accel_ok index :
  let '(cp, index') := derive_index_accel index in
  accel_ok cp index' ∧ h_first <$> index' = h_first <$> index.
Proof.
  unfold derive_index_accel. set (cp := default 0%nat _).
  assert (∀ l : list BlockHandle, h_first <$> ((λ h, set_p8 (p8_window (h_first h) cp) h) <$> l) = h_first <$> l) as Hf.
  { intros l. rewrite <-list_fmap_compose. by apply list_fmap_ext. }
  split; [|apply Hf]. split; [by rewrite Hf|]. apply Forall_forall. intros h (h' & -> & _)%list_elem_of_fmap. done.
Qed.

Lemma accel_ok_move d cp index : accel_ok cp index → accel_ok cp (move_handle d <$> index).
Proof.
  intros [Hc Hp]. assert (h_first <$> (move_handle d <$> index) = h_first <$> index) as Hf.
  { rewrite <-list_fmap_compose. by apply list_fmap_ext. }
  split; [by rewrite Hf|]. apply Forall_forall. intros h (h' & -> & Hin)%list_elem_of_fmap.
  rewrite Forall_forall in Hp. exact (Hp h' Hin).
Qed.

(** The bytes of a table file, before its checksum. *)
Definition sst_payload (pc : bool) (es : list entry) (nblocks : nat) (data : list byte) (index : list BlockHandle)
    (f : BloomFilter) : list byte :=
  file_header (if pc then SST_VERSION else SST_VERSION_V3) (Z.of_nat (length es)) (max_sequence_of es)
    (Z.of_nat nblocks) (Z.of_nat (length data)) ++ data ++ concat (handle_enc <$> index) ++ bloom_encode f.

(** A filter that answers for the entries, or that readers know to ignore. *)
Definition bloom_final (es : list entry) (f : BloomFilter) : Prop :=
  ∃ ks, filling ks f ∧ (is_active f = true → ∀ e, e ∈ es → user_of e ∈ ks).

Definition largest_of (es : list entry) : option (list byte) :=
  foldl raise_largest (user_of <$> last es) (range_dels es).

(** What the writer leaves: the image and the table over it. *)
Definition written_as (path : string) (es : list entry) (blks : list (list entry)) (image : list byte) (t : SstTable) : Prop :=
  ∃ pc data index cp f,
    laid pc 40 blks index data ∧ accel_ok cp index ∧ bloom_final es f ∧
    let payload := sst_payload pc es (length blks) data index f in
    image = payload ++ to_le 4 (crc32c payload) ∧
    t = mkTable path (from_image payload) (length payload) pc pc None (range_dels es) (Z.of_nat (length es))
          (tombs_in es) (max_sequence_of es) index cp (freeze_partitions f) (user_of <$> head es) (largest_of es).

Lemma length_file_header v n m k d : length (file_header v n m k d) = 40%nat.
Proof. unfold file_header. by rewrite !length_app, !length_to_le. Qed.

Lemma laid_first pc base blks index data : laid pc base blks index data → h_first <$> index = first_of <$> blks.
Proof.
  revert base index data. induction blks as [|b blks IH]; intros base [|h index] data Hl; cbn [laid] in *;
    [done|done|done|]. destruct Hl as (s & rest & _ & _ & _ & _ & _ & Hf & Hl). cbn. rewrite Hf. f_equal. by eapply IH.
Qed.

Lemma first_of_in blk : blk ≠ [] → ∃ e, e ∈ blk ∧ first_of blk = user_of e.
Proof. destruct blk as [|e blk]; [done|]. exists e. split; [left|done]. Qed.

(** The last block is flushed, if there is one. *)
Lemma last_flush_ok bloom0 es b blks open target :
  builder_inv bloom0 es b blks open → Forall block_fits (cut target open []) →
  ∃ w, flush_block (with_buf (b_flush b) (w_block_buf (b_flush b) ++ block_hash_bytes (b_block_user_keys b))
         (w_first (b_flush b))) = Ok w ∧ flush_inv (blks ++ cut target open []) w ∧
       Forall (λ blk, blk ≠ []) (blks ++ cut target open []) ∧ concat (blks ++ cut target open []) = es.
Proof using LL.
  intros (Hw & (Hbuf & Hk & Hi & He & Ho) & Hc & Hn & Hbl & _) Hfit. rewrite Hbuf, Hk.
  cbn [cut] in *. destruct open as [|x open].
  - exists (with_buf (b_flush b) [] (w_first (b_flush b))). rewrite !app_nil_r in *. done.
  - apply Forall_cons in Hfit as [Hfit _]. destruct (Ho ltac:(done)) as [Hf _].
    destruct (flush_block_ok blks (with_buf (b_flush b) (block_bytes (x :: open)) (w_first (b_flush b))) (x :: open))
      as (w' & E & Hw' & _); [done..|]. exists w'. split_and!; [done|done| |].
    + apply Forall_app. split; [done|by repeat constructor].
    + rewrite concat_app. cbn. by rewrite app_nil_r.
Qed.

Lemma filling_always_true : filling [] always_true.
Proof. apply (filling_start 0 1 0); unfold FILTER_PART_MAGIC; lia. Qed.

Lemma bits_per_key_pos n : 1 ≤ bits_per_key_for_run n ≤ 64.
Proof. unfold bits_per_key_for_run. repeat case_match; unfold DEFAULT_BITS_PER_KEY; lia. Qed.

Lemma filling_for_run n : 0 ≤ n → filling [] (with_partitions n (bits_per_key_for_run n) (filter_nparts n)).
Proof.
  intros Hn. pose proof (bits_per_key_pos n). apply filling_start; unfold filter_nparts; [lia|lia| |];
    destruct (Z.ltb_spec n 4); unfold FILTER_PART_MAGIC; nia.
Qed.

Lemma new_bloom_filling hint : 0 ≤ hint → filling [] (new_bloom hint).
Proof.
  intros Hh. unfold new_bloom, BLOOM_CAP_MAX. destruct (hint =? 0); [apply filling_always_true|].
  apply filling_for_run. lia.
Qed.

Lemma bloom_inv_final bloom0 es f :
  filling [] bloom0 → bloom_inv bloom0 es f → bloom_final es f.
Proof.
  unfold bloom_inv, bloom_final. intros H0. destruct (is_active bloom0) eqn:Ea.
  - intros (ks & Hf & Hk). by exists ks.
  - intros ->. exists []. split; [done|]. congruence.
Qed.

Lemma crc32c_app3 a b c d :
  crc32c_append (crc32c_append (crc32c_append (crc32c a) b) c) d = crc32c (a ++ b ++ c ++ d).
Proof using CF. unfold crc32c. by rewrite !crc32c_append_app by (done || apply crc32c_append_u32). Qed.

Lemma finish_table_ok path target bloom0 es b blks open :
  builder_inv bloom0 es b blks open → filling [] bloom0 → Forall entry_ok es →
  Z.of_nat (length es) ≤ MAX_SST_ENTRIES → Forall block_fits (cut target open []) →
  ∃ image t, finish_table path b = Ok (image, t) ∧ written_as path es (blks ++ cut target open []) image t ∧
    Forall (λ blk, blk ≠ []) (blks ++ cut target open []) ∧ concat (blks ++ cut target open []) = es.
Proof using CF LL.
  intros Hb H0 He Hn Hfit. pose proof Hb as (_ & _ & _ & _ & _ & (Mx & Mn & Mp & Ms & Mr & Mt) & Hbl).
  destruct (last_flush_ok _ _ _ _ _ _ Hb Hfit) as (w & Ew & (Hl & _ & _) & Hne & Hcat).
  set (all := blks ++ cut target open []) in *. unfold finish_table. rewrite Ew. cbn [res_bind].
  pose proof (derive_index_accel_ok (w_index w)) as Ha. destruct (derive_index_accel (w_index w)) as [cp index] eqn:Ed.
  destruct Ha as [Ha Hfirst]. set (pc := w_policy_compress w) in *.
  assert (laid pc 40 all (move_handle 40 <$> index) (w_data w)) as Hl'.
  { unfold derive_index_accel in Ed. injection Ed as Ecp <-. rewrite <-list_fmap_compose. 
    by apply (laid_move pc 0 40). }
  pose proof (laid_length _ _ _ _ _ Hl') as Hlen. rewrite length_fmap in Hlen.
  assert (length all ≤ length es)%nat as Hall.
  { rewrite <-Hcat. clear -Hne. induction Hne as [|blk l Hb _ IH]; [done|]. cbn. rewrite length_app.
    destruct blk; [done|]. cbn. lia. }
  unfold MAX_SST_ENTRIES in Hn. rewrite try_u32_ok by (unfold U32_MAX; lia). cbn [res_bind].
  rewrite length_file_header. change (Z.of_nat 40) with 40.
  rewrite index_bytes_ok.
  2: { apply Forall_forall. intros h Hh. apply (list_elem_of_fmap_2 h_first) in Hh.
       rewrite (laid_first _ _ _ _ _ Hl') in Hh. apply list_elem_of_fmap in Hh as (blk & -> & Hblk).
       rewrite Forall_forall in Hne. destruct (first_of_in blk (Hne _ Hblk)) as (e & Hin & ->).
       rewrite Forall_forall in He. destruct (He e) as (_ & Hk & _).
       { rewrite <-Hcat. apply elem_of_concat. eauto. }
       unfold BLOCK_HASH_MAGIC, user_of, U32_MAX in *. lia. }
  cbn [res_bind]. rewrite crc32c_app3.
  eexists _, _. split; [done|]. split_and!; [|done|done].
  exists pc, (w_data w), (move_handle 40 <$> index), cp, (if b_n_entries b =? 0 then always_true else b_bloom b).
  split_and!; [done|by apply accel_ok_move| |split].
  - rewrite Mn. destruct (Z.eqb_spec (Z.of_nat (length es)) 0) as [E|E].
    + destruct es; [|done]. exists []. split; [apply filling_always_true|set_solver].
    + by eapply bloom_inv_final.
  - unfold sst_payload. rewrite Hlen, Mn, Mx. done.
  - unfold sst_payload. rewrite Hlen, Mn, Mx, Mr, Mt, Ms, Mp. unfold largest_of, user_of. do 2 f_equal.
    by destruct (last es).
Qed.

(** The writer, on sorted entries whose blocks a reader accepts. *)
Lemma write_sst_ok we path es hint sync compress :
  let target := block_target (target_override we) in
  Forall entry_ok es → sorted_entries es → Z.of_nat (length es) ≤ MAX_SST_ENTRIES → 0 ≤ hint →
  Forall block_fits (cut target [] es) →
  ∃ image t, write_sst_try_sorted_body we env_ok path (Ok <$> es) hint sync compress = Some (Ok (image, t)) ∧
    written_as path es (cut target [] es) image t ∧
    Forall (λ blk, blk ≠ []) (cut target [] es) ∧ concat (cut target [] es) = es.
Proof using CF LL.
  intros target He Hs Hn Hh Hfit. unfold write_sst_try_sorted_body. fold target.
  set (bloom := new_bloom hint). pose proof (new_bloom_filling hint Hh) as Hb0. fold bloom in Hb0.
  assert (builder_inv bloom [] (start_builder we bloom compress) [] []) as Hb.
  { split_and!; [done| |done|done|constructor| |].
    - by split_and!; [| | |constructor|].
    - done.
    - unfold bloom_inv. case_match; [|done]. exists []. split; [done|set_solver]. }
  destruct (add_entries_ok path target bloom es [] _ [] [] Hb He Hs) as (b & blks & open & -> & Hb' & Hc);
    [unfold MAX_SST_ENTRIES, U64_MAX in *; cbn; lia|done|].
  cbn [app] in Hb', Hc. rewrite Hc in Hfit. apply Forall_app in Hfit as [_ Hfit].
  destruct (finish_table_ok path target bloom es b blks open Hb' Hb0 He Hn Hfit) as (image & t & E & Hw & Hne & Hcat).
  cbn [comp_bind]. rewrite E. cbn [comp_bind env_ok env_create env_write env_sync]. exists image, t.
  rewrite Hc. split_and!; [by destruct sync|done|done|done].
Qed.
End writer.
