(* ===== verification/SstOpen.v ===== *)
(** Opening what the writer wrote.

    [table_ok es blks t]: the table [t] represents the entries [es] in the
    blocks [blks]. The table the writer returns and the table read back from
    its file both represent the entries written. *)

From S2P Require Import Prelude ErrorKernel KeyKernel BatchKernel WalFormat Visibility MemTable Bloom SstBlock SstFile SstTable SstWrite.

Local Open Scope Z_scope.

Section opening.
Context `{CC : Crc32c, CF : !Crc32cFile, LZ : Lz4}.

(** * What a table promises its readers *)

(** What a stored block decompresses to, and what a seek in it finds. *)
Definition seekable (path : string) (raw : list byte) (pc crc : bool) (blk : list entry) : Prop :=
  ∃ body plain, (if crc then split_block_crc path raw else Ok raw) = Ok body ∧
    (if crc then plain_of_body path pc body else Ok body) = Ok plain ∧
    ∀ stale uk snap, seek_point_in_plain_block path stale plain uk snap = Some (Ok (point_ref blk uk snap)).

(** A block stored at a handle's place: it decodes to its entries and a seek in
    it finds what a search of the entries finds. *)
Definition stored (path : string) (p : list byte) (pc crc : bool) (h : BlockHandle) (blk : list entry) : Prop :=
  0 ≤ h_offset h ∧ 0 ≤ h_length h ∧ h_offset h + h_length h ≤ Z.of_nat (length p) ∧ Z.of_nat (length p) ≤ U64_MAX ∧
  let raw := slice (Z.to_nat (h_offset h)) (Z.to_nat (h_offset h + h_length h)) p in
  decode_block_bytes path raw pc crc = Some (Ok blk) ∧ seekable path raw pc crc blk.

(** [table_ok p es blks t]: the body [p] of the file of [t] holds the blocks
    [blks] of the entries [es]. *)
Record table_ok (p : list byte) (es : list entry) (blks : list (list entry)) (t : SstTable) : Prop := {
  tk_cat : concat blks = es;
  tk_ne : Forall (λ blk, blk ≠ []) blks;
  tk_sorted : sorted_entries es;
  tk_first : h_first <$> t_index t = first_of <$> blks;
  tk_accel : accel_ok (t_key_cp t) (t_index t);
  tk_offsets : StronglySorted (λ h h', h_offset h < h_offset h') (t_index t);
  tk_body : p ≠ [] ∧ t_payload_len t = length p;
  tk_blocks i h blk : t_index t !! i = Some h → blks !! i = Some blk →
    stored (t_path t) p (t_compressed_blocks t) (t_block_crc t) h blk;
  tk_entries : t_entries t = None;
  tk_bloom e : e ∈ es → answers (user_of e) (t_bloom t);
  tk_safe : filter_safe (t_bloom t);
  tk_rts : t_range_tombstones t = range_dels es;
  tk_n : t_num_entries t = Z.of_nat (length es);
  tk_tombs : t_tombstone_count t = tombs_in es;
  tk_max : t_max_sequence t = max_sequence_of es;
  tk_smallest : t_smallest_user_key t = user_of <$> head es;
  tk_largest : match t_largest_user_key t with
               | None => es = []
               | Some hi => ∀ e, e ∈ es → ¬ bytes_lt hi (user_of e)
               end
}.

Lemma tk_index_length p es blks t : table_ok p es blks t → length (t_index t) = length blks.
Proof. intros Ht. rewrite <-(length_fmap h_first), (tk_first _ _ _ _ Ht). by rewrite length_fmap. Qed.

(** * Block images *)

Context `{LL : !Lz4Laws}.

Lemma split_block_crc_ok path body : split_block_crc path (body ++ to_le 4 (crc32c body)) = Ok body.
Proof.
  unfold split_block_crc. rewrite (proj2 (Nat.ltb_ge _ 4)) by len.
  replace (length (body ++ to_le 4 (crc32c body)) - 4)%nat with (length body) by len.
  rewrite take_app_length, drop_app_length. pose proof (crc32c_append_u32 0 body) as Hc.
  rewrite from_le_to_le by (rewrite pow256_4; unfold crc32c, U32_MAX in *; lia).
  unfold sst_block_crc_ok, crc_match_ok. by rewrite Z.eqb_refl.
Qed.

(** The decompression guard admits every block the writer compresses. *)
Lemma decompress_image blk out :
  block_fits blk → lz4_compress (block_bytes blk) = Some out →
  decompress_lz4_into (lz4_image (block_bytes blk) out) guard_default = Ok (block_bytes blk).
Proof using LL.
  intros [_ Hfit] Eo. pose proof (lz4_ratio _ _ Eo) as Hr. unfold decompress_lz4_into, inspect_lz4_size, lz4_image.
  set (n := Z.of_nat (length (block_bytes blk))) in *.
  rewrite lz4_size_prefix by (unfold U32_MAX, DEFAULT_MAX_UNCOMPRESSED_BLOCK_SIZE in *; lia).
  cbn [guard_default max_uncompressed_bytes max_expansion_ratio]. rewrite (proj2 (Z.ltb_ge _ _)) by done.
  set (c := Z.of_nat (length (to_le 4 n ++ out))).
  assert (n / c ≤ 256) as Hq.
  { assert (c = 4 + Z.of_nat (length out)) as Hc by (unfold c; len). apply Z.lt_succ_r, Z.div_lt_upper_bound; lia. }
  rewrite (proj2 (Z.ltb_ge DEFAULT_MAX_EXPANSION_RATIO _)) by (unfold DEFAULT_MAX_EXPANSION_RATIO; lia).
  rewrite andb_false_r. cbn [res_bind]. unfold n. rewrite Nat2Z.id, (lz4_round_trip _ _ Eo), Z.eqb_refl. done.
Qed.

Definition blocks_sound (blks : list (list entry)) : Prop :=
  Forall (λ blk, block_ok blk ∧ block_fits blk) blks.

Lemma image_plain path pc blk s :
  block_fits blk → block_image pc blk s →
  ∃ body, (if pc then split_block_crc path s else Ok s) = Ok body ∧ plain_of_body path pc body = Ok (block_bytes blk).
Proof using LL.
  intros Hfit Hi. destruct pc; [|by exists s; cbn in *; subst s].
  destruct Hi as (out & Eo & ->). exists (lz4_image (block_bytes blk) out). split; [apply split_block_crc_ok|].
  cbn. by rewrite decompress_image.
Qed.

Lemma image_decodes path pc blk s :
  block_ok blk → block_fits blk → block_image pc blk s →
  decode_block_bytes path s pc pc = Some (Ok blk) ∧ seekable path s pc pc blk.
Proof using LL.
  intros Hok Hfit Hi. destruct (image_plain path pc blk s Hfit Hi) as (body & Eb & Ep). split.
  - unfold decode_block_bytes. rewrite Eb. cbn [comp_bind]. rewrite Ep. cbn [comp_bind]. by apply decode_block_ok.
  - exists body, (block_bytes blk). split_and!; [done|by destruct pc|]. intros. by apply seek_block_ok.
Qed.

Lemma laid_stored path pc base blks index data pre post :
  laid pc base blks index data → blocks_sound blks → base = Z.of_nat (length pre) →
  Z.of_nat (length (pre ++ data ++ post)) ≤ U64_MAX →
  ∀ i h blk, index !! i = Some h → blks !! i = Some blk → stored path (pre ++ data ++ post) pc pc h blk.
Proof using LL.
  revert base index data pre. induction blks as [|b blks IH]; intros base [|h0 index] data pre Hl Hs Hb Hlen i h blk Hi Hk;
    cbn [laid] in Hl; try done.
  destruct Hl as (s & rest & -> & Him & Ho & Hn & Hu & _ & Hl). apply Forall_cons in Hs as [[Hok Hfit] Hs].
  destruct i as [|i].
  - injection Hi as ->. injection Hk as ->. rewrite <-(assoc_L (++)) in *. unfold stored. rewrite Ho, Hn, Hb.
    replace (slice _ _ _) with s by (symmetry; apply slice_at; lia).
    destruct (image_decodes path pc blk s Hok Hfit Him) as (D1 & D2).
    split_and!; [lia|lia|rewrite !length_app; lia|done..].
  - cbn in Hi, Hk. replace (pre ++ (s ++ rest) ++ post) with ((pre ++ s) ++ rest ++ post) in * by (by rewrite !(assoc_L (++))).
    eapply (IH _ index rest); [exact Hl|done|rewrite length_app; lia|done|done|done].
Qed.

Lemma stored_decodes path p pc crc h blk :
  stored path p pc crc h blk → decode_block_from_payload path p h pc crc = Some (Ok blk).
Proof.
  intros (H1 & H2 & H3 & H4 & Hd & _). unfold decode_block_from_payload.
  by rewrite !(proj2 (Z.ltb_ge _ _)) by lia.
Qed.

(** * Reading the file back *)

(** Handles a file can hold. *)
Definition handle_ok (h : BlockHandle) : Prop :=
  0 ≤ h_offset h ≤ U64_MAX ∧ 0 ≤ h_length h ≤ U32_MAX ∧ Z.of_nat (length (h_first h)) ≤ U32_MAX.

Lemma pow256_8 : 256 ^ Z.of_nat 8 = 18446744073709551616.
Proof. done. Qed.

Lemma read_uint_pos data pre rest n z pos :
  data = pre ++ to_le n z ++ rest → pos = length pre → 0 ≤ z < 256 ^ Z.of_nat n →
  read_uint n (mkCursor data pos) = Ok (z, mkCursor data (pos + n)).
Proof. intros Hd -> Hz. by eapply read_uint_at. Qed.

Lemma read_slice_pos data pre x rest n pos :
  data = pre ++ x ++ rest → pos = length pre → n = length x →
  read_slice n (mkCursor data pos) = Ok (x, mkCursor data (pos + n)).
Proof. intros Hd -> ->. by eapply cursor_slice_at. Qed.

Lemma read_index_ok index data pre rest pos :
  data = pre ++ concat (handle_enc <$> index) ++ rest → pos = length pre → Forall handle_ok index →
  read_index (length index) (mkCursor data pos) =
    Ok (set_p8 0 <$> index, mkCursor data (pos + length (concat (handle_enc <$> index)))).
Proof.
  revert pre pos. induction index as [|h index IH]; intros pre pos Hd Hp Hf.
  { cbn. by rewrite Nat.add_0_r. }
  apply Forall_cons in Hf as [(Ho & Hl & Hk) Hf]. cbn [fmap list_fmap concat length read_index] in *.
  unfold handle_enc at 1 in Hd. unfold U64_MAX, U32_MAX in *. unfold read_u64, read_u32.
  rewrite <-!(assoc_L (++)) in Hd.
  rewrite (read_uint_pos data _ _ _ _ _ Hd) by (rewrite ?pow256_8; lia). cbn [res_bind].
  rewrite (app_assoc _ (to_le 8 _)) in Hd.
  rewrite (read_uint_pos data _ _ _ _ _ Hd) by (rewrite ?pow256_4; len). cbn [res_bind].
  rewrite (app_assoc _ (to_le 4 (h_length h))) in Hd.
  rewrite (read_uint_pos data _ _ _ _ _ Hd) by (rewrite ?pow256_4; len). cbn [res_bind].
  rewrite (app_assoc _ (to_le 4 (Z.of_nat (length (h_first h))))) in Hd.
  rewrite (read_slice_pos data _ _ _ _ _ Hd) by len. cbn [res_bind].
  rewrite (app_assoc _ (h_first h)) in Hd.
  rewrite (IH _ _ Hd) by (try done; len). cbn [res_bind]. do 3 f_equal. unfold handle_enc at 2. len.
Qed.

(** The bound the reopened table computes from its last entry alone. *)
Definition reopened_bound (e : entry) : list byte :=
  if bool_decide (kind e.1 = RangeDeletion) && bytes_ltb (user_of e) e.2 then e.2 else user_of e.

Definition scan_of (es : list entry) : Scan :=
  mkScan (range_dels es) (tombs_in es) (user_of <$> head es) (reopened_bound <$> last es)
    (Z.of_nat (length es)) (fst <$> last es).

Lemma scan_entry_ok path es e :
  sorted_entries (es ++ [e]) → scan_entry path (scan_of es) e = Ok (scan_of (es ++ [e])).
Proof.
  intros Hs. destruct e as [ikey value]. unfold scan_entry, scan_of.
  cbn [sc_last sc_smallest sc_largest sc_n sc_range_tombstones sc_tombstone_count].
  assert (match fst <$> last es with Some prev => ikey_ltb ikey prev | None => false end = false) as ->.
  { destruct (last es) as [l|] eqn:El; [|done]. cbn. apply not_true_iff_false. rewrite ikey_ltb_spec.
    apply sorted_entries_app in Hs as (_ & _ & Hs). apply (Hs l (ikey, value)); [by apply last_Some_elem_of|by apply list_elem_of_singleton]. }
  rewrite range_dels_snoc, tombs_in_snoc, last_snoc. cbn [fst snd fmap option_fmap option_map].
  unfold reopened_bound, user_of. cbn [fst snd]. do 2 f_equal; [by destruct es|by case_match|len].
Qed.

Lemma scan_entries_ok path seen es :
  sorted_entries (seen ++ es) → scan_entries path (scan_of seen) es = Ok (scan_of (seen ++ es)).
Proof.
  revert seen. induction es as [|e es IH]; intros seen Hs; [by rewrite app_nil_r|]. cbn [scan_entries].
  rewrite (app_assoc seen [e] es : seen ++ e :: es = _) in *.
  rewrite scan_entry_ok by (by apply sorted_entries_app in Hs as (? & _)). cbn [res_bind]. by apply IH.
Qed.

(** Every handle of a suffix of the index decodes to its block. *)
Definition all_decode (path : string) (p : list byte) (pc crc : bool) (index : list BlockHandle)
    (blks : list (list entry)) : Prop :=
  Forall2 (λ h blk, decode_block_from_payload path p h pc crc = Some (Ok blk)) index blks.

Lemma all_decode_p8 path p pc crc index blks :
  all_decode path p pc crc index blks → all_decode path p pc crc (set_p8 0 <$> index) blks.
Proof. intros Hd. apply Forall2_fmap_l. by eapply Forall2_impl; [exact Hd|]. Qed.

Lemma scan_blocks_ok path p pc crc index blks seen :
  all_decode path p pc crc index blks → sorted_entries (seen ++ concat blks) →
  scan_blocks path p pc crc (scan_of seen) index = Some (Ok (scan_of (seen ++ concat blks))).
Proof.
  intros Hd. revert seen. induction Hd as [|h blk index blks Hh _ IH]; intros seen Hs; cbn [scan_blocks concat] in *.
  { by rewrite app_nil_r. }
  rewrite Hh. cbn [comp_bind]. rewrite (assoc_L (++)) in *.
  rewrite scan_entries_ok by (by apply sorted_entries_app in Hs as (? & _)). cbn [comp_bind]. by apply IH.
Qed.

Lemma read_blocks_ok path p pc crc index blks :
  all_decode path p pc crc index blks → read_blocks path p pc crc index = Some (Ok (concat blks)).
Proof.
  induction 1 as [|h blk index blks Hh _ IH]; [done|]. cbn [read_blocks]. rewrite Hh. cbn [comp_bind].
  rewrite IH. done.
Qed.

(** Filters rebuilt from the entries answer for them. *)
Lemma insert_users_ok keys last_ ks f :
  filling ks f → (∀ u, last_ = Some u → u ∈ ks) →
  ∃ f' ks', insert_users last_ keys f = Some f' ∧ filling ks' f' ∧ ∀ k, k ∈ keys ++ ks → k ∈ ks'.
Proof.
  revert last_ ks f. induction keys as [|uk keys IH]; intros last_ ks f Hf Hl; cbn [insert_users app].
  { by exists f, ks. }
  case_bool_decide as E.
  - destruct (IH last_ ks f Hf Hl) as (f' & ks' & E' & Hf' & Hk). exists f', ks'. split_and!; [done|done|].
    intros k [->|Hin]%elem_of_cons; [|by apply Hk]. apply Hk, elem_of_app. right. by apply Hl.
  - destruct (filling_insert ks uk f Hf) as (f1 & E1 & Hf1). rewrite E1. cbn [mbind option_bind].
    destruct (IH (Some uk) (uk :: ks) f1 Hf1) as (f' & ks' & E' & Hf' & Hk); [intros u [= ->]; left|].
    exists f', ks'. split_and!; [done|done|]. intros k [->|Hin]%elem_of_cons; apply Hk; [apply elem_of_app; right; left|].
    apply elem_of_app in Hin as [Hin|Hin]; apply elem_of_app; [by left|right; by right].
Qed.

Lemma rebuild_bloom_ok es :
  ∃ f, rebuild_bloom es = Some f ∧ filter_safe f ∧ ∀ e, e ∈ es → answers (user_of e) f.
Proof.
  unfold rebuild_bloom, batch_is_empty. destruct (Nat.eqb_spec (length es) 0) as [E|E].
  { exists always_true. split; [done|]. split; [split; [by left|done]|]. destruct es; [|done]. intros e Hin. by apply not_elem_of_nil in Hin. }
  destruct (insert_users_ok (keys_of es) None [] _ (filling_for_run (Z.of_nat (length es)) ltac:(lia)))
    as (f & ks & -> & Hf & Hk); [done|].
  exists (freeze_partitions f). split; [done|]. split; [eapply freeze_safe, Hf|]. intros e Hin.
  destruct (filling_answers _ _ Hf) as (g & _ & _ & Ha). apply Ha, Hk. rewrite app_nil_r.
  by apply list_elem_of_fmap_2.
Qed.

(** * The whole file *)

Lemma crc_stripped_ok path payload :
  (12 ≤ length payload)%nat → take 8 payload = SST_MAGIC → from_le (slice 8 12 payload) ≠ SST_VERSION_V6 →
  crc_stripped_body path (payload ++ to_le 4 (crc32c payload)) = Ok payload.
Proof.
  intros Hl Hm Hv. unfold crc_stripped_body. set (buf := payload ++ _).
  assert (length buf = length payload + 4)%nat as Hb by (unfold buf; len).
  assert (take (length SST_MAGIC) buf = SST_MAGIC) as -> by (unfold buf; rewrite take_app_le by (cbn; lia); done).
  rewrite (proj2 (Nat.leb_le 12 _)) by lia. rewrite (proj2 (bytes_eqb_spec _ _)) by done. cbn [andb].
  replace (length buf - 4)%nat with (length payload) by lia. unfold buf. rewrite take_app_length, drop_app_length.
  rewrite (proj2 (Z.eqb_neq _ _) Hv), andb_false_r. cbn [res_bind].
  pose proof (crc32c_append_u32 0 payload) as Hc.
  rewrite from_le_to_le by (rewrite pow256_4; unfold crc32c, U32_MAX in *; lia).
  unfold sst_crc_fate, crc_match_ok. by rewrite Z.eqb_refl.
Qed.

Lemma laid_bounds pc base blks index data :
  laid pc base blks index data →
  Forall (λ h, base ≤ h_offset h ∧ 0 ≤ h_length h ≤ U32_MAX ∧ h_offset h ≤ base + Z.of_nat (length data)) index ∧
  Z.of_nat (length data) ≤ Z.of_nat (length blks) * U32_MAX.
Proof.
  revert base index data. induction blks as [|b blks IH]; intros base [|h index] data Hl; cbn [laid] in Hl; try done.
  { subst data. split; [constructor|done]. }
  destruct Hl as (s & rest & -> & _ & Ho & Hn & Hu & _ & Hl). destruct (IH _ _ _ Hl) as [Hf Hd].
  rewrite length_app. split; [|cbn [length]; lia]. constructor; [lia|].
  eapply Forall_impl; [exact Hf|]. cbn. intros x Hx. lia.
Qed.

Lemma laid_offsets pc base blks index data :
  laid pc base blks index data → Forall (λ blk, blk ≠ []) blks → Forall (Forall entry_ok) blks →
  StronglySorted (λ h h', h_offset h < h_offset h') index.
Proof.
  revert base index data. induction blks as [|b blks IH]; intros base [|h index] data Hl Hne He; cbn [laid] in Hl; try done.
  { constructor. }
  destruct Hl as (s & rest & -> & Hi & Ho & Hn & Hu & _ & Hl). apply Forall_cons in Hne as [Hb Hne].
  apply Forall_cons in He as [Hbe He]. constructor; [by eapply IH|].
  destruct (laid_bounds _ _ _ _ _ Hl) as [Hf _]. eapply Forall_impl; [exact Hf|]. cbn. intros x Hx.
  assert (length s ≠ 0%nat); [|lia]. destruct pc; [destruct Hi as (out & _ & ->); len|].
  cbn in Hi. subst s. pose proof (block_bytes_nonempty b Hb Hbe). lia.
Qed.

Lemma laid_plain_length base blks index data :
  laid false base blks index data → Forall (Forall entry_ok) blks → (16 * length (concat blks) ≤ length data)%nat.
Proof.
  revert base index data. induction blks as [|b blks IH]; intros base [|h index] data Hl He; cbn [laid] in Hl; try done.
  { cbn. lia. }
  destruct Hl as (s & rest & -> & -> & _ & _ & _ & _ & Hl). apply Forall_cons in He as [Hb He].
  specialize (IH _ _ _ Hl He). cbn [concat]. unfold block_bytes. rewrite !length_app.
  pose proof (run_bytes_length 0 [] b Hb). lia.
Qed.

Lemma index_bytes_length (index : list BlockHandle) : (16 * length index ≤ length (concat (handle_enc <$> index)))%nat.
Proof. induction index as [|h index IH]; [cbn; lia|]. cbn [fmap list_fmap concat length]. unfold handle_enc at 1. len. Qed.

Lemma handle_keys_length (index : list BlockHandle) b :
  Forall (λ h, (length (h_first h) ≤ b)%nat) index →
  (length (concat (handle_enc <$> index)) ≤ length index * (16 + b))%nat.
Proof.
  induction 1 as [|h index Hh _ IH]; [cbn; lia|]. cbn [fmap list_fmap concat length]. unfold handle_enc at 1. len.
Qed.

Lemma max_sequence_of_bound es : Forall entry_ok es → 0 ≤ max_sequence_of es ≤ MAX_SEQUENCE_NUMBER.
Proof.
  induction es as [|e es IH] using rev_ind; [done|]. intros [Hes [He _]%Forall_cons]%Forall_app.
  rewrite max_sequence_of_snoc. destruct He as [He _]. specialize (IH Hes). lia.
Qed.

(** A file as the writer lays it out. *)
Section layout.
Context (path : string) (es : list entry) (blks : list (list entry)) (pc : bool) (data : list byte)
  (index : list BlockHandle) (cp : nat) (f : BloomFilter).
Context (Hlaid : laid pc 40 blks index data) (Haccel : accel_ok cp index) (Hbloom : bloom_final es f).
Context (Hsound : blocks_sound blks) (Hcat : concat blks = es) (Hsorted : sorted_entries es)
  (Hn : Z.of_nat (length es) ≤ MAX_SST_ENTRIES).

Let payload := sst_payload pc es (length blks) data index f.

Lemma layout_entries_ok : Forall entry_ok es ∧ Forall (Forall entry_ok) blks ∧ Forall (λ blk, blk ≠ []) blks.
Proof using Hcat Hsound.
  assert (Forall (Forall entry_ok) blks) as Hb.
  { eapply Forall_impl; [exact Hsound|]. by intros blk [(_ & He & _) _]. }
  split_and!; [|done|eapply Forall_impl; [exact Hsound|]; by intros blk [[? _] _]].
  rewrite <-Hcat. apply Forall_forall. intros e (blk & Hblk & Hin)%elem_of_concat.
  rewrite Forall_forall in Hb. specialize (Hb _ Hblk). rewrite Forall_forall in Hb. by apply Hb.
Qed.

Lemma layout_blocks_le : (length blks ≤ length es)%nat.
Proof using Hcat Hsound.
  destruct layout_entries_ok as (_ & _ & Hne). rewrite <-Hcat. clear -Hne.
  induction Hne as [|blk l Hb _ IH]; [done|]. cbn. rewrite length_app. destruct blk; [done|]. cbn. lia.
Qed.

Lemma layout_first_short : Forall (λ h, (length (h_first h) ≤ Z.to_nat BLOCK_HASH_MAGIC)%nat) index.
Proof using Hcat Hlaid Hsound.
  destruct layout_entries_ok as (_ & Hb & Hne). apply Forall_forall. intros h Hh.
  apply (list_elem_of_fmap_2 h_first) in Hh. rewrite (laid_first _ _ _ _ _ Hlaid) in Hh.
  apply list_elem_of_fmap in Hh as (blk & -> & Hblk). rewrite Forall_forall in Hne, Hb.
  destruct (first_of_in blk (Hne _ Hblk)) as (e & Hin & ->). specialize (Hb _ Hblk).
  rewrite Forall_forall in Hb. destruct (Hb _ Hin) as (_ & Hk & _). unfold user_of. lia.
Qed.

Lemma layout_index_ok : length index = length blks ∧ Forall handle_ok index ∧
  Z.of_nat (length data) ≤ 2 ^ 58 ∧ Z.of_nat (length (concat (handle_enc <$> index))) ≤ 2 ^ 58.
Proof using Hcat Hlaid Hn Hsound.
  pose proof (laid_length _ _ _ _ _ Hlaid) as Hl. pose proof layout_blocks_le as Hle.
  destruct (laid_bounds _ _ _ _ _ Hlaid) as [Hf Hd]. pose proof layout_first_short as Hs.
  pose proof (handle_keys_length _ _ Hs) as Hk. unfold MAX_SST_ENTRIES in Hn.
  change BLOCK_HASH_MAGIC with 37138628 in *. unfold U32_MAX in Hd.
  split_and!; [done| |lia|nia]. unfold handle_ok, U32_MAX, U64_MAX.
  apply Forall_forall. intros h Hin. rewrite Forall_forall in Hf, Hs. specialize (Hf _ Hin). specialize (Hs _ Hin).
  unfold U32_MAX in Hf. lia.
Qed.

Lemma layout_payload_length : Z.of_nat (length payload) ≤ U64_MAX ∧
  (40 + length data + length (concat (handle_enc <$> index)) ≤ length payload)%nat.
Proof using Hbloom Hcat Hlaid Hn Hsound.
  destruct layout_index_ok as (_ & _ & Hd & Hi). destruct Hbloom as (ks & [Hb _] & _).
  pose proof (bloom_encode_length _ _ Hb). unfold payload, sst_payload. rewrite !length_app, length_file_header.
  unfold U64_MAX, U32_MAX in *. lia.
Qed.

Lemma layout_decodes : all_decode path payload pc pc index blks.
Proof using Hbloom Hcat Hlaid Hn Hsound LL.
  destruct layout_index_ok as (Hl & _). apply Forall2_same_length_lookup. split; [done|].
  intros i h blk Hh Hb. apply stored_decodes. eapply (laid_stored _ _ 40); [exact Hlaid|done| |apply layout_payload_length|done|done].
  by rewrite length_file_header.
Qed.

Lemma layout_counts_ok :
  check_sst_entry_count path (Z.of_nat (length es)) (length payload) pc = Ok tt ∧
  check_sst_block_count path (Z.of_nat (length blks)) (length payload) = Ok tt.
Proof using Hbloom Hcat Hlaid Hn Hsound.
  destruct layout_payload_length as [_ Hp]. destruct layout_index_ok as (Hl & _).
  pose proof (index_bytes_length index) as Hi. pose proof layout_blocks_le. split.
  - unfold check_sst_entry_count. rewrite (proj2 (Z.ltb_ge _ _)) by done. destruct pc; [done|]. cbn [negb].
    destruct layout_entries_ok as (_ & He & _).
    pose proof (laid_plain_length _ _ _ _ Hlaid He) as H16. rewrite Hcat in H16.
    rewrite (proj2 (Z.ltb_ge _ _)); [done|]. unfold MIN_ENCODED_ENTRY.
    apply Z.le_trans with (Z.of_nat (length payload) / 8); [apply Z.div_le_lower_bound; lia|lia].
  - unfold check_sst_block_count. rewrite !(proj2 (Z.ltb_ge _ _)); [done|lia|].
    apply Z.le_trans with (Z.of_nat (length payload) / 16); [apply Z.div_le_lower_bound; lia|lia].
Qed.

Lemma derive_again : derive_index_accel (set_p8 0 <$> index) = (cp, index).
Proof using Haccel.
  destruct Haccel as [Hcp Hp]. unfold derive_index_accel.
  assert (h_first <$> (set_p8 0 <$> index) = h_first <$> index) as ->.
  { rewrite <-list_fmap_compose. by apply list_fmap_ext. }
  rewrite <-Hcp. f_equal. rewrite <-list_fmap_compose. transitivity (id <$> index); [|by rewrite list_fmap_id].
  apply list_fmap_ext. intros i h Hi. rewrite Forall_forall in Hp. cbn.
  rewrite <-(Hp h) by (by eapply list_elem_of_lookup_2). by destruct h.
Qed.

(** The table [decode] returns for the payload. *)
Definition reopened (g : BloomFilter) : SstTable :=
  mkTable path (from_image payload) (length payload) pc pc None (range_dels es) (Z.of_nat (length es))
    (tombs_in es) (max_sequence_of es) index cp g (user_of <$> head es) (reopened_bound <$> last es).

Lemma layout_bloom : ∃ g0 g, bloom_decode (bloom_encode f) = Ok g0 ∧
  (if is_active g0 then Some (Ok g0) else let! all := Some (Ok es) in no_panic (rebuild_bloom all)) = Some (Ok g) ∧
  filter_safe g ∧ ∀ e, e ∈ es → answers (user_of e) g.
Proof using Hbloom.
  destruct Hbloom as (ks & Hf & Hk). destruct (filling_answers _ _ Hf) as (g0 & Eg & Ha & Hg).
  exists g0. destruct (is_active g0) eqn:Ei.
  - exists g0. split_and!; [done|done|by eapply bloom_decode_safe|]. intros e He. apply Hg. apply Hk; [by rewrite <-Ha|done].
  - destruct (rebuild_bloom_ok es) as (g & E & Hr). exists g. split_and!; [done| |apply Hr|apply Hr]. cbn. by rewrite E.
Qed.

Let version : Z := if pc then SST_VERSION else SST_VERSION_V3.

Lemma payload_fields : payload = SST_MAGIC ++ to_le 4 version ++ to_le 8 (Z.of_nat (length es)) ++
  to_le 8 (max_sequence_of es) ++ to_le 4 (Z.of_nat (length blks)) ++ to_le 8 (Z.of_nat (length data)) ++
  data ++ concat (handle_enc <$> index) ++ bloom_encode f.
Proof. unfold payload, sst_payload, file_header. by rewrite <-!(assoc_L (++)). Qed.

Lemma layout_body : ∃ g, decode_v2_or_v3 path payload (mkCursor payload 12) true pc pc = Some (Ok (reopened g)) ∧
  filter_safe g ∧ ∀ e, e ∈ es → answers (user_of e) g.
Proof using Haccel Hbloom Hcat Hlaid Hn Hsorted Hsound LL.
  destruct layout_bloom as (g0 & g & Eg0 & Eg & Hg). exists g. split; [|done].
  destruct layout_index_ok as (Hl & Hhok & Hdl & _). destruct layout_payload_length as [Hpl Hpl'].
  destruct layout_counts_ok as [Hc1 Hc2]. destruct layout_entries_ok as (Hes & _).
  pose proof (max_sequence_of_bound es Hes) as Hmax. pose proof layout_blocks_le as Hble. pose proof payload_fields as Hd.
  unfold MAX_SST_ENTRIES, MAX_SEQUENCE_NUMBER in *. rewrite (app_assoc SST_MAGIC) in Hd.
  unfold decode_v2_or_v3, read_u64, read_u32.
  rewrite (read_uint_pos payload _ _ _ _ _ Hd) by (rewrite ?pow256_8; len). cbn [comp_bind].
  rewrite Hc1. cbn [comp_bind]. rewrite (app_assoc _ (to_le 8 (Z.of_nat (length es)))) in Hd.
  rewrite (read_uint_pos payload _ _ _ _ _ Hd) by (rewrite ?pow256_8; len). cbn [comp_bind].
  rewrite (app_assoc _ (to_le 8 (max_sequence_of es))) in Hd.
  rewrite (read_uint_pos payload _ _ _ _ _ Hd) by (rewrite ?pow256_4; len). cbn [comp_bind].
  rewrite Hc2. cbn [comp_bind]. rewrite (app_assoc _ (to_le 4 (Z.of_nat (length blks)))) in Hd.
  rewrite (read_uint_pos payload _ _ _ _ _ Hd) by (rewrite ?pow256_8; len). cbn [comp_bind c_pos].
  rewrite (app_assoc _ (to_le 8 (Z.of_nat (length data)))) in Hd.
  rewrite (proj2 (Z.ltb_ge U64_MAX _)), (proj2 (Z.ltb_ge _ (_ + Z.of_nat (length data)))) by lia.
  replace (Z.to_nat (Z.of_nat (12 + 8 + 8 + 4 + 8) + Z.of_nat (length data))) with (40 + length data)%nat by lia.
  assert (∀ k, drop (40 + length data + k) payload = drop k (concat (handle_enc <$> index) ++ bloom_encode f)) as Hdrop.
  { intros k. rewrite Hd, (app_assoc _ data), <-drop_drop. f_equal. apply drop_app_length'. len. }
  rewrite Nat2Z.id, <-Hl. rewrite <-(Nat.add_0_r (40 + length data)). rewrite Hdrop, drop_0.
  rewrite (read_index_ok index _ [] _ 0) by done. cbn [comp_bind c_pos Nat.add].
  replace (S _) with (40 + length data + length (concat (handle_enc <$> index)))%nat by lia.
  rewrite Hdrop, drop_app_length, Eg0. cbn [comp_bind].
  change scan_start with (scan_of []). rewrite (scan_blocks_ok _ _ _ _ _ blks []).
  2: by apply all_decode_p8, layout_decodes.
  2: by rewrite Hcat.
  cbn [comp_bind app]. rewrite Hcat. cbn [sc_n scan_of]. rewrite Z.eqb_refl. cbn [negb].
  rewrite (read_blocks_ok _ _ _ _ _ blks) by (by apply all_decode_p8, layout_decodes).
  rewrite Hcat, Eg. cbn [comp_bind]. by rewrite derive_again.
Qed.

Lemma version_range : 0 ≤ version < 256 ^ Z.of_nat 4 ∧ version ≠ SST_VERSION_V6.
Proof. unfold version. by case pc. Qed.

Lemma layout_strips : crc_stripped_body path (payload ++ to_le 4 (crc32c payload)) = Ok payload.
Proof.
  pose proof payload_fields as Hd. destruct version_range as [Hv Hv6]. apply crc_stripped_ok.
  - rewrite Hd, !length_app. len.
  - rewrite Hd. apply take_app_length'. done.
  - by rewrite Hd, slice_at, from_le_to_le.
Qed.

Lemma layout_opens : ∃ g, sst_decode path (payload ++ to_le 4 (crc32c payload)) = Some (Ok (reopened g)) ∧
  filter_safe g ∧ ∀ e, e ∈ es → answers (user_of e) g.
Proof using Haccel Hbloom Hcat Hlaid Hn Hsorted Hsound LL.
  destruct layout_body as (g & Eb & Hg). exists g. split; [|done]. pose proof payload_fields as Hd.
  destruct version_range as [Hv _]. unfold sst_decode. rewrite layout_strips.
  cbn [comp_bind]. rewrite (read_slice_pos payload [] SST_MAGIC _ 8 0 Hd) by done. cbn [comp_bind Nat.add].
  change (negb (sst_magic_is_pedra SST_MAGIC)) with false. cbn [negb]. unfold read_u32.
  rewrite (read_uint_pos payload SST_MAGIC _ 4 version 8 Hd) by done. cbn [comp_bind Nat.add].
  rewrite <-Eb. unfold version. by case pc.
Qed.

(** Both views of the file represent the entries. *)
Lemma layout_table_ok g largest :
  filter_safe g → (∀ e, e ∈ es → answers (user_of e) g) →
  match largest with None => es = [] | Some hi => ∀ e, e ∈ es → ¬ bytes_lt hi (user_of e) end →
  table_ok payload es blks (mkTable path (from_image payload) (length payload) pc pc None (range_dels es)
    (Z.of_nat (length es)) (tombs_in es) (max_sequence_of es) index cp g (user_of <$> head es) largest).
Proof using Haccel Hbloom Hcat Hlaid Hn Hsorted Hsound LL.
  intros Hsafe Hg Hhi. destruct layout_payload_length as [Hpl Hpl']. destruct layout_entries_ok as (_ & Heo & Hne).
  constructor; try done; cbn [t_index t_payload t_path t_compressed_blocks t_block_crc from_image img].
  - by eapply laid_first.
  - by eapply laid_offsets.
  - intros i h blk Hh Hb. eapply (laid_stored _ _ 40); [exact Hlaid|done| |exact Hpl|done|done].
    by rewrite length_file_header.
Qed.
End layout.

(** The largest keys: both bound every entry. *)
Lemma sorted_le_last es e l : sorted_entries es → e ∈ es → last es = Some l → ¬ bytes_lt (user_of l) (user_of e).
Proof.
  intros Hs Hin Hl. apply last_Some in Hl as [pre ->]. apply sorted_entries_app in Hs as (_ & _ & Hs).
  apply elem_of_app in Hin as [Hin|Hin%list_elem_of_singleton].
  - apply ikey_le_user, Hs; [done|by apply list_elem_of_singleton].
  - subst e. apply (irreflexivity bytes_lt).
Qed.

Lemma raise_largest_ge largest ts hi u :
  largest = Some hi → ¬ bytes_lt hi u → ∃ hi', foldl raise_largest largest ts = Some hi' ∧ ¬ bytes_lt hi' u.
Proof.
  revert largest hi. induction ts as [|t ts IH]; intros largest hi -> Hu; cbn [foldl raise_largest]; [by exists hi|].
  destruct (bytes_ltb hi t.2) eqn:E; [|by eapply IH]. apply bytes_ltb_spec in E. eapply IH; [done|].
  intros Hlt. apply Hu. by transitivity t.2.
Qed.

Lemma largest_of_bounds es : sorted_entries es →
  match largest_of es with None => es = [] | Some hi => ∀ e, e ∈ es → ¬ bytes_lt hi (user_of e) end.
Proof.
  intros Hs. unfold largest_of. destruct (last es) as [l|] eqn:El.
  2: { apply last_None in El. by subst es. }
  assert (∀ e, e ∈ es → ∃ hi', foldl raise_largest (user_of <$> Some l) (range_dels es) = Some hi' ∧ ¬ bytes_lt hi' (user_of e)) as Hall.
  { intros e Hin. eapply raise_largest_ge; [done|]. by eapply sorted_le_last. }
  destruct (Hall l) as (hi & E & _); [by eapply last_Some_elem_of|]. rewrite E.
  intros e Hin. destruct (Hall e Hin) as (hi' & E' & Hlt). by simplify_eq.
Qed.

Lemma reopened_bounds es : sorted_entries es →
  match reopened_bound <$> last es with None => es = [] | Some hi => ∀ e, e ∈ es → ¬ bytes_lt hi (user_of e) end.
Proof.
  intros Hs. destruct (last es) as [l|] eqn:El; cbn; [|by apply last_None in El].
  intros e Hin Hlt. apply (sorted_le_last _ _ _ Hs Hin El). unfold reopened_bound in Hlt.
  destruct (bool_decide _ && bytes_ltb (user_of l) l.2) eqn:E; [|done].
  apply andb_prop in E as [_ E%bytes_ltb_spec]. by transitivity l.2.
Qed.

Lemma freeze_answers es f : bloom_final es f → ∀ e, e ∈ es → answers (user_of e) (freeze_partitions f).
Proof.
  intros (ks & Hf & Hk) e Hin. destruct (filling_answers _ _ Hf) as (g & _ & _ & Ha).
  destruct (is_active f) eqn:Ei; [by apply Ha, Hk|].
  unfold is_active in Ei. destruct (Z.ltb_spec 1 (nparts f)); [done|].
  unfold freeze_partitions. rewrite (proj2 (Z.leb_le _ _)) by done.
  unfold answers, may_contain, may_contain_with_hashes. destruct (hash_pair (user_of e)) as [h1 h2].
  rewrite (proj2 (Z.ltb_ge _ _)) by done. unfold mono_may_contain. by rewrite Ei.
Qed.

(** The blocks a cut of good entries makes are good. *)
Lemma cut_sound target es :
  Forall entry_ok es → sorted_entries es → Forall (λ blk, blk ≠ []) (cut target [] es) →
  concat (cut target [] es) = es → Forall block_fits (cut target [] es) → blocks_sound (cut target [] es).
Proof.
  intros He Hs Hne Hcat Hfit. apply Forall_forall. intros blk Hin. rewrite Forall_forall in Hne, Hfit. rewrite Forall_forall in He.
  specialize (Hne _ Hin). specialize (Hfit _ Hin). split; [|done].
  apply list_elem_of_split in Hin as (l1 & l2 & E). rewrite E, concat_app in Hcat. cbn [concat] in Hcat.
  rewrite <-Hcat in Hs, He. apply sorted_entries_app in Hs as (_ & Hs & _). apply sorted_entries_app in Hs as (Hs & _).
  split_and!; [done| |done|by destruct Hfit].
  apply Forall_forall. intros e Hin. apply He. rewrite !elem_of_app. by right; left.
Qed.

(** Writing and reading back. *)
Lemma write_open_ok we path es hint sync compress :
  let blks := cut (block_target (target_override we)) [] es in
  Forall entry_ok es → sorted_entries es → Z.of_nat (length es) ≤ MAX_SST_ENTRIES → 0 ≤ hint →
  Forall block_fits blks →
  ∃ image t t', write_sst_try_sorted_body we env_ok path (Ok <$> es) hint sync compress = Some (Ok (image, t)) ∧
    sst_decode path image = Some (Ok t') ∧ table_ok (img (t_payload t)) es blks t ∧ table_ok (img (t_payload t)) es blks t' ∧
    crc_stripped_body path image = Ok (img (t_payload t)) ∧ take (length (img (t_payload t))) image = img (t_payload t) ∧
    t_path t = path ∧ t_path t' = path ∧ t_index t' = t_index t ∧ t_key_cp t' = t_key_cp t ∧ t_payload t' = t_payload t ∧
    t_compressed_blocks t' = t_compressed_blocks t ∧
    t_largest_user_key t = largest_of es ∧ t_largest_user_key t' = reopened_bound <$> last es.
Proof using CF LL.
  intros blks He Hs Hn Hh Hfit.
  destruct (write_sst_ok we path es hint sync compress He Hs Hn Hh Hfit) as (image & t & E & Hw & Hne & Hcat).
  destruct Hw as (pc & data & index & cp & f & Hl & Ha & Hb & -> & ->).
  pose proof (cut_sound _ _ He Hs Hne Hcat Hfit) as Hso.
  destruct (layout_opens path es _ pc data index cp f Hl Ha Hb Hso Hcat Hs Hn) as (g & Eo & Hsafe & Hg).
  eexists _, _, _. split; [exact E|]. split; [exact Eo|].
  split_and!; try done; cbn [t_payload from_image img]; [| |apply layout_strips|apply take_app_length];
    unfold reopened; apply layout_table_ok; try done;
    [destruct Hb as (ks & [Hf _] & _); by eapply freeze_safe|by apply freeze_answers|by apply largest_of_bounds
    |by apply reopened_bounds].
Qed.
End opening.
