(* ===== verification/SstRead.v ===== *)
(** Reading tables: [sst/table_kernel.rs], point lookups through the filter,
    the index, the block hash and the raw-block cache, resident or from the
    file; materialization; range deletions.

    A table's body may be resident or not, and reads may load it, mark blocks
    as verified or fill the thread's raw-block cache: these are threaded
    through the reads. The answers of the payload pool ([can_admit], eviction
    after [register]) and of the file system are inputs. *)

From S2P Require Import Prelude ErrorKernel KeyKernel BatchKernel WalFormat Visibility MemTable Bloom SstBlock SstFile SstTable SstWrite SstOpen.

Local Open Scope Z_scope.

(** * The raw-block cache *)

Module RawBlockCache.
Definition RAW_BLOCK_CACHE_CAP : nat := Z.to_nat 4096.

Record t := mk {
  map : gmap (Z * Z) (list byte * Z);
  order : list ((Z * Z) * Z);
  epoch : Z
}.
Definition new : t := mk ∅ [] 0.

Definition get (c : t) (key : Z * Z) : option (list byte) * t :=
  match map c !! key with
  | None => (None, c)
  | Some (val, _) =>
      let ep := wrap64 (epoch c + 1) in
      (Some val, mk (<[key := (val, ep)]> (map c)) (order c ++ [(key, ep)]) ep)
  end.

(** The eviction loop: stale entries of the order queue are dropped without
    removing a block. *)
Fixpoint evict (m : gmap (Z * Z) (list byte * Z)) (order : list ((Z * Z) * Z))
    : gmap (Z * Z) (list byte * Z) * list ((Z * Z) * Z) :=
  if (RAW_BLOCK_CACHE_CAP <=? size m)%nat then
    match order with
    | [] => (m, [])
    | (old, old_ep) :: order =>
        let m :=
          match m !! old with
          | Some (_, e) => if e =? old_ep then base.delete old m else m
          | None => m
          end in
        evict m order
    end
  else (m, order).

Definition insert (c : t) (key : Z * Z) (img : list byte) : t :=
  let ep := wrap64 (epoch c + 1) in
  match map c !! key with
  | Some _ => mk (<[key := (img, ep)]> (map c)) (order c ++ [(key, ep)]) ep
  | None =>
      let '(m, order) := evict (map c) (order c) in
      mk (<[key := (img, ep)]> m) (order ++ [(key, ep)]) ep
  end.
End RawBlockCache.

(** * Files and the payload pool *)

(** The kit of a registered table: its file source and what the pool answers. *)
Record Kit := mkKit {
  k_read_all : Result CoreError (list byte);
  k_read_range : Z → Z → Result CoreError (list byte);
  k_can_admit : bool;
  k_evicts : bool
}.

(** The file under the table's path, and its kit. *)
Record Files := mkFiles { on_disk : Result CoreError (list byte); kit : option Kit }.

Definition MAX_POINT_PROMOTE_BYTES : Z := Z.shiftl 32 20.

Section reads.
Context `{CC : Crc32c, CF : !Crc32cFile, LZ : Lz4}.

Definition is_lazy (t : SstTable) : bool := negb (batch_is_empty (length (t_index t))).
Definition resident (b : ResidentBody) : bool := negb (batch_is_empty (length (img b))).

Definition drift (t : SstTable) (s : string) (body : list byte) : CoreError :=
  Internal [Lit "SST "; Lit (t_path t); Lit s; Num (Z.of_nat (length body)); Lit " != "; Num (Z.of_nat (t_payload_len t))].

(** [ensure_payload]: the body, and the slot after the load and the pool's
    possible eviction. *)
Definition ensure_payload (t : SstTable) (k : Kit) (b : ResidentBody) : ResidentBody * Result CoreError (list byte) :=
  if resident b then (b, Ok (img b))
  else
    match (let? buf := k_read_all k in crc_stripped_body (t_path t) buf) with
    | Err e => (b, Err e)
    | Ok body =>
        if negb (length body =? t_payload_len t)%nat then (b, Err (drift t " payload length drift on reload: " body))
        else (if k_evicts k then body_empty else from_image body, Ok body)
    end.

Definition ensure_payload_from_path (t : SstTable) (fs : Files) (b : ResidentBody)
    : ResidentBody * Result CoreError (list byte) :=
  if resident b then (b, Ok (img b))
  else
    match (let? buf := on_disk fs in crc_stripped_body (t_path t) buf) with
    | Err e => (b, Err e)
    | Ok body =>
        if negb (t_payload_len t =? 0)%nat && negb (length body =? t_payload_len t)%nat then
          (b, Err (drift t " payload length drift on path reload: " body))
        else (from_image body, Ok body)
    end.

(** [try_promote_payload] *)
Definition try_promote_payload (t : SstTable) (fs : Files) (b : ResidentBody) : ResidentBody * Result CoreError bool :=
  if resident b then (b, Ok true)
  else if MAX_POINT_PROMOTE_BYTES <? Z.of_nat (t_payload_len t) then (b, Ok false)
  else
    match kit fs with
    | None => (b, Ok false)
    | Some k =>
        if negb (k_can_admit k) then (b, Ok false)
        else
          match ensure_payload t k b with
          | (b, Err e) => (b, Err e)
          | (b, Ok _) => (b, Ok (resident b))
          end
    end.

(** [decode_block], [decode_block_on_file] *)
Definition decode_block_on_file (t : SstTable) (fs : Files) (h : BlockHandle) (b : ResidentBody)
    : ResidentBody * Comp (list entry) :=
  let from '(b, r) :=
    (b, let! payload := Some r in
        decode_block_from_payload (t_path t) payload h (t_compressed_blocks t) (t_block_crc t)) in
  match kit fs with
  | None => from (ensure_payload_from_path t fs b)
  | Some k =>
      if t_block_crc t then
        (b, let! raw := Some (k_read_range k (h_offset h) (h_length h)) in
            decode_block_bytes (t_path t) raw (t_compressed_blocks t) true)
      else from (ensure_payload t k b)
  end.

Definition decode_block (t : SstTable) (fs : Files) (bi : nat) (b : ResidentBody) : ResidentBody * Comp (list entry) :=
  match t_index t !! bi with
  | None =>
      (b, Some (Err (Internal [Lit "SST block index "; Num (Z.of_nat bi); Lit " out of range in "; Lit (t_path t)])))
  | Some h =>
      if resident b then
        (b, decode_block_from_payload (t_path t) (img b) h (t_compressed_blocks t) (t_block_crc t))
      else decode_block_on_file t fs h b
  end.

(** The blocks in order, each through [decode_block]. *)
Fixpoint decode_blocks (t : SstTable) (fs : Files) (bis : list nat) (b : ResidentBody)
    : ResidentBody * Comp (list entry) :=
  match bis with
  | [] => (b, Some (Ok []))
  | bi :: bis =>
      match decode_block t fs bi b with
      | (b, Some (Ok block)) =>
          let '(b, rest) := decode_blocks t fs bis b in
          (b, let! rest := rest in Some (Ok (block ++ rest)))
      | (b, r) => (b, r)
      end
  end.

(** [materialize_entries], with the entries cache as state. *)
Definition materialize_entries (t : SstTable) (fs : Files) (b : ResidentBody)
    : ResidentBody * option (list entry) * Comp (list entry) :=
  match t_entries t with
  | Some es => (b, Some es, Some (Ok es))
  | None =>
      let '(b, all) :=
        if batch_is_empty (length (t_index t)) then
          (b, if t_num_entries t =? 0 then Some (Ok [])
              else Some (Err (Internal [Lit "SST "; Lit (t_path t); Lit " has no entries cache and no index"])))
        else
          let '(b, out) := decode_blocks t fs (seq 0 (length (t_index t))) b in
          (b, let! out := out in
              if negb (Z.of_nat (length out) =? t_num_entries t) then
                Some (Err (Internal [Lit "SST entry count mismatch on materialize: header "; Num (t_num_entries t);
                                     Lit ", got "; Num (Z.of_nat (length out)); Lit " in "; Lit (t_path t)]))
              else Some (Ok out)) in
      (b, match all with Some (Ok es) => Some es | _ => None end, all)
  end.

(** * Point lookups *)

Definition handle_before (t8 : Z) (uk : list byte) (h : BlockHandle) : bool :=
  (h_p8 h <? t8) || ((h_p8 h =? t8) && bytes_ltb (h_first h) uk).

(** [blocks_for_point]: the block numbers. *)
Definition blocks_for_point (t : SstTable) (uk : list byte) : list nat :=
  if batch_is_empty (length (t_index t)) then []
  else
    let t8 := p8_window uk (t_key_cp t) in
    let ge := partition_point (handle_before t8 uk) (t_index t) in
    let start := (ge - 1)%nat in
    let end_ := (ge + partition_point (λ h, negb (bytes_ltb uk (h_first h))) (drop ge (t_index t)))%nat in
    seq start (end_ - start).

(** The best version over the blocks; a block that does not load is skipped. *)
Fixpoint best_over (t : SstTable) (fs : Files) (uk : list byte) (snapshot : Z) (bis : list nat) (best : option point)
    (b : ResidentBody) : ResidentBody * option (option point) :=
  match bis with
  | [] => (b, Some best)
  | bi :: bis =>
      match decode_block t fs bi b with
      | (b, None) => (b, None)
      | (b, Some (Err _)) => best_over t fs uk snapshot bis best b
      | (b, Some (Ok block)) =>
          let best :=
            match best_point_in_entry_slice block uk snapshot with
            | None => best
            | Some p => keep_best best p
            end in
          best_over t fs uk snapshot bis best b
      end
  end.

(** [point_in_blocks] with [decode_block] as the loader. *)
Definition point_in_blocks (t : SstTable) (fs : Files) (uk : list byte) (snapshot : Z) (b : ResidentBody)
    : ResidentBody * option (option point) :=
  if negb (is_lazy t) then
    let '(b, _, r) := materialize_entries t fs b in
    (b, match r with
        | None => None
        | Some (Err _) => Some None
        | Some (Ok block) => Some (best_point_in_entry_slice block uk snapshot)
        end)
  else best_over t fs uk snapshot (blocks_for_point t uk) None b.

(** Outside the table's key bounds? *)
Definition out_of_bounds (t : SstTable) (uk : list byte) : bool :=
  match t_smallest_user_key t, t_largest_user_key t with
  | Some lo, Some hi => bytes_ltb uk lo || bytes_ltb hi uk
  | _, _ => false
  end.

Definition has_range_tombstones (t : SstTable) : bool := negb (batch_is_empty (length (t_range_tombstones t))).

(** [point_at]; [None] outside is a panic of the filter. *)
Definition point_at (t : SstTable) (fs : Files) (uk : list byte) (snapshot : Z) (b : ResidentBody)
    : ResidentBody * option (option point) :=
  if out_of_bounds t uk then (b, Some None)
  else
    match may_contain uk (t_bloom t) with
    | None => (b, None)
    | Some false => (b, Some None)
    | Some true => point_in_blocks t fs uk snapshot b
    end.

Definition key_may_match (t : SstTable) (uk : list byte) : option bool :=
  if out_of_bounds t uk then Some false else may_contain uk (t_bloom t).

(** [get_entry]: the upper bound is not consulted. *)
Definition get_entry (t : SstTable) (fs : Files) (uk : list byte) (snapshot : Z) (b : ResidentBody)
    : ResidentBody * option (option point) :=
  if match t_smallest_user_key t, t_largest_user_key t with
     | Some lo, Some _ => bytes_ltb uk lo
     | _, _ => false
     end then (b, Some None)
  else
    match may_contain uk (t_bloom t) with
    | None => (b, None)
    | Some m => if m || has_range_tombstones t then point_in_blocks t fs uk snapshot b else (b, Some None)
    end.

(** [range_deleted] *)
Definition range_deleted (t : SstTable) (uk : list byte) (point_seq snapshot : Z) : bool :=
  existsb (λ e, negb (snapshot <? sequence e.1) && (point_seq <? sequence e.1) &&
                negb (bytes_ltb uk (user_key e.1)) && bytes_ltb uk e.2) (t_range_tombstones t).

(** [get] *)
Definition get (t : SstTable) (fs : Files) (uk : list byte) (snapshot : Z) (b : ResidentBody)
    : ResidentBody * option Lookup :=
  let '(b, r) := get_entry t fs uk snapshot b in
  (b, r ← r;
      Some (match r with
            | Some (seq, Found v) => if range_deleted t uk seq snapshot then Deleted else Found v
            | Some (_, Deleted) => Deleted
            | Some (_, NotFound) | None => if range_deleted t uk 0 snapshot then Deleted else NotFound
            end)).

(** * The seeking lookup *)

(** What a seek threads: the body and the thread's cache. *)
Record Seek := mkSeek { sk_body : ResidentBody; sk_cache : RawBlockCache.t }.

Definition note_found (best found : option point) : option point :=
  match found with None => best | Some p => keep_best best p end.

Definition past_eof (t : SstTable) : CoreError := sst_err (t_path t) "SST block past EOF in ".

(** The scratch of a search is reused: [stale i] is the restart key it holds when
    block [i] is searched, left there by any earlier search. *)
Context (stale : nat → list byte).

(** A block served from the file. [path_id] is the hash of the path. *)
Definition seek_from_file (bi : nat) (t : SstTable) (fs : Files) (path_id : Z) (h : BlockHandle) (uk : list byte) (snapshot : Z)
    (s : Seek) : Seek * Comp (option point) :=
  let end_ := h_offset h + h_length h in
  match kit fs with
  | None =>
      let '(b, r) := ensure_payload_from_path t fs (sk_body s) in
      (mkSeek b (sk_cache s),
       let! payload := Some r in
       if U64_MAX <? end_ then Some (Err (internal "SST block length overflow"))
       else if Z.of_nat (length payload) <? end_ then Some (Err (past_eof t))
       else seek_point_in_block_image (t_path t) (slice (Z.to_nat (h_offset h)) (Z.to_nat end_) payload)
              (t_compressed_blocks t) uk snapshot)
  | Some k =>
      let key := (path_id, h_offset h) in
      let '(cached, cache) := RawBlockCache.get (sk_cache s) key in
      match cached with
      | Some plain => (mkSeek (sk_body s) cache, seek_point_in_plain_block (t_path t) (stale bi) plain uk snapshot)
      | None =>
          match (let? raw := k_read_range k (h_offset h) (h_length h) in
                 let? body := split_block_crc (t_path t) raw in
                 plain_of_body (t_path t) (t_compressed_blocks t) body) with
          | Err e => (mkSeek (sk_body s) cache, Some (Err e))
          | Ok plain =>
              (mkSeek (sk_body s) (RawBlockCache.insert cache key plain),
               seek_point_in_plain_block (t_path t) (stale bi) plain uk snapshot)
          end
      end
  end.

(** One block of a table with block checksums. *)
Definition seek_crc_block (t : SstTable) (fs : Files) (path_id : Z) (bi : nat) (h : BlockHandle) (uk : list byte)
    (snapshot : Z) (s : Seek) : Seek * Comp (option point) :=
  let p := img (sk_body s) in
  if batch_is_empty (length p) then seek_from_file bi t fs path_id h uk snapshot s
  else
    let end_ := h_offset h + h_length h in
    if U64_MAX <? end_ then (s, Some (Err (internal "SST block length overflow")))
    else if Z.of_nat (length p) <? end_ then (s, Some (Err (past_eof t)))
    else
      let raw := slice (Z.to_nat (h_offset h)) (Z.to_nat end_) p in
      if is_verified (sk_body s) bi then
        (s, if (length raw <? 4)%nat then Some (Err (sst_err (t_path t) "SST block CRC truncated in "))
            else seek_point_in_block_body (t_path t) (take (length raw - 4) raw) (t_compressed_blocks t) uk snapshot)
      else
        match seek_point_in_block_image (t_path t) raw (t_compressed_blocks t) uk snapshot with
        | Some (Ok found) =>
            (mkSeek (mark_verified (sk_body s) bi (length (t_index t))) (sk_cache s), Some (Ok found))
        | r => (s, r)
        end.

(** The loop over the blocks of a checksummed table. *)
Fixpoint seek_crc_blocks (t : SstTable) (fs : Files) (path_id : Z) (uk : list byte) (snapshot : Z) (bis : list nat)
    (best : option point) (s : Seek) : Seek * Comp (option point) :=
  match bis with
  | [] => (s, Some (Ok best))
  | bi :: bis =>
      match t_index t !! bi with
      | None => seek_crc_blocks t fs path_id uk snapshot bis best s
      | Some h =>
          match seek_crc_block t fs path_id bi h uk snapshot s with
          | (s, Some (Ok found)) => seek_crc_blocks t fs path_id uk snapshot bis (note_found best found) s
          | (s, r) => (s, r)
          end
      end
  end.

(** The loop over the blocks of a resident plain table; a block past the end is
    skipped. *)
Fixpoint seek_plain_blocks (t : SstTable) (p : list byte) (uk : list byte) (snapshot : Z) (bis : list nat)
    (best : option point) : Comp (option point) :=
  match bis with
  | [] => Some (Ok best)
  | bi :: bis =>
      match t_index t !! bi with
      | None => seek_plain_blocks t p uk snapshot bis best
      | Some h =>
          let end_ := h_offset h + h_length h in
          if U64_MAX <? end_ then Some (Err (internal "SST block length overflow"))
          else if Z.of_nat (length p) <? end_ then seek_plain_blocks t p uk snapshot bis best
          else
            let! found := seek_point_in_plain_block (t_path t) (stale bi) (slice (Z.to_nat (h_offset h)) (Z.to_nat end_) p) uk snapshot in
            seek_plain_blocks t p uk snapshot bis (note_found best found)
      end
  end.

(** [point_at_seeking_with_hashes], on the key's hashes. *)
Definition point_at_seeking (t : SstTable) (fs : Files) (path_id : Z) (uk : list byte) (snapshot : Z) (s : Seek)
    : Seek * Comp (option point) :=
  let '(h1, h2) := hash_pair uk in
  let keep b := mkSeek b (sk_cache s) in
  if out_of_bounds t uk then (s, Some (Ok None))
  else
    match may_contain_with_hashes h1 h2 (t_bloom t) with
    | None => (s, None)
    | Some false => (s, Some (Ok None))
    | Some true =>
        if negb (is_lazy t) then
          let '(b, _, r) := materialize_entries t fs (sk_body s) in
          (keep b, let! block := r in Some (Ok (best_point_in_entry_slice block uk snapshot)))
        else if negb (t_block_crc t) then
          if resident (sk_body s) then
            (s, seek_plain_blocks t (img (sk_body s)) uk snapshot (blocks_for_point t uk) None)
          else
            let '(b, r) := point_in_blocks t fs uk snapshot (sk_body s) in
            (keep b, Ok <$> r)
        else
          let '(b, r) := if resident (sk_body s) then (sk_body s, Ok true) else try_promote_payload t fs (sk_body s) in
          match r with
          | Err e => (keep b, Some (Err e))
          | Ok _ => seek_crc_blocks t fs path_id uk snapshot (blocks_for_point t uk) None (keep b)
          end
    end.
End reads.

(** * The raw-block cache is bounded and coherent *)

Section raw_cache.
Import RawBlockCache.

(** A thread's history of cache calls. *)
Inductive cache_op := CGet (key : Z * Z) | CPut (key : Z * Z) (v : list byte).

Definition cache_step (c : RawBlockCache.t) (o : cache_op) : RawBlockCache.t :=
  match o with
  | CGet key => (RawBlockCache.get c key).2
  | CPut key v => RawBlockCache.insert c key v
  end.
Definition cache_run (ops : list cache_op) : RawBlockCache.t := foldl cache_step new ops.

(** The last block put under a key. *)
Definition last_put (ops : list cache_op) (key : Z * Z) : option (list byte) :=
  foldl (λ acc o, match o with CPut k v => if bool_decide (k = key) then Some v else acc | CGet _ => acc end) None ops.

(** Every cached block has its queue entry. *)
Definition queued (m : gmap (Z * Z) (list byte * Z)) (order : list ((Z * Z) * Z)) : Prop :=
  ∀ k v e, m !! k = Some (v, e) → (k, e) ∈ order.

Lemma evict_ok m order : queued m order →
  let r := evict m order in queued r.1 r.2 ∧ r.1 ⊆ m ∧ (size r.1 < RAW_BLOCK_CACHE_CAP)%nat.
Proof.
  revert m. induction order as [|[old ep] order IH]; intros m Hq; cbn [evict];
    destruct (Nat.leb_spec RAW_BLOCK_CACHE_CAP (size m)) as [Hle|Hlt]; try done.
  - assert (m = ∅) as ->.
    { apply map_empty. intros k. destruct (m !! k) as [[v e]|] eqn:E; [|done]. by apply Hq, not_elem_of_nil in E. }
    rewrite map_size_empty in Hle. vm_compute in Hle. lia.
  - set (m' := match m !! old with Some (_, e) => _ | None => m end).
    assert (m' ⊆ m) as Hsub.
    { unfold m'. destruct (m !! old) as [[v e]|]; [|done]. case_match; [apply delete_subseteq|done]. }
    assert (queued m' order) as Hq'.
    { intros k v e Hk. pose proof (lookup_weaken _ _ _ _ Hk Hsub) as Hm. specialize (Hq k v e Hm).
      apply elem_of_cons in Hq as [[= -> ->]|Hq]; [|done]. exfalso. unfold m' in Hk. rewrite Hm, Z.eqb_refl in Hk.
      by rewrite lookup_delete_eq in Hk. }
    destruct (IH m' Hq') as (H1 & H2 & H3). split_and!; [done|by etransitivity|done].
Qed.

Definition cache_inv (ops : list cache_op) (c : RawBlockCache.t) : Prop :=
  queued (map c) (order c) ∧ (size (map c) ≤ RAW_BLOCK_CACHE_CAP)%nat ∧
  ∀ k v e, map c !! k = Some (v, e) → last_put ops k = Some v.

(** Storing under a key over a part of the map. *)
Lemma cache_store_inv ops o c m order key v ep ep' :
  cache_inv ops c → queued m order → m ⊆ map c → (∀ k, last_put (ops ++ [o]) k = last_put ops k ∨ k = key) →
  last_put (ops ++ [o]) key = Some v → (size (<[key := (v, ep)]> m) ≤ RAW_BLOCK_CACHE_CAP)%nat →
  cache_inv (ops ++ [o]) (mk (<[key := (v, ep)]> m) (order ++ [(key, ep)]) ep').
Proof.
  intros (_ & _ & Hl) Hq Hsub Hsame Hkey Hs. split_and!; [|done|]; intros k v' e; cbn;
    (destruct (decide (k = key)) as [->|Hne]; [rewrite lookup_insert_eq; intros [= <- <-]|rewrite lookup_insert_ne by done; intros Hk]).
  - apply elem_of_app. right. by apply list_elem_of_singleton.
  - apply elem_of_app. left. by eapply Hq.
  - done.
  - destruct (Hsame k) as [->| ->]; [|done]. eapply Hl. by eapply lookup_weaken.
Qed.

Lemma cache_step_inv ops c o : cache_inv ops c → cache_inv (ops ++ [o]) (cache_step c o).
Proof.
  intros Hc. pose proof Hc as (Hq & Hs & Hl).
  assert (∀ key k, last_put (ops ++ [CGet key]) k = last_put ops k) as Hget by (intros; unfold last_put; by rewrite foldl_app).
  assert (∀ key v k, last_put (ops ++ [CPut key v]) k = if bool_decide (key = k) then Some v else last_put ops k) as Hput
    by (intros; unfold last_put; by rewrite foldl_app).
  destruct o as [key|key v]; cbn [cache_step].
  - unfold RawBlockCache.get. destruct (map c !! key) as [[val ep]|] eqn:E; cbn [snd].
    + eapply cache_store_inv; [done|done|done|by left|rewrite Hget; by eapply Hl|].
      by rewrite map_size_insert_Some by (by eexists).
    + split_and!; [done|done|]. intros k v e Hk. rewrite Hget. by eapply Hl.
  - assert (∀ k, last_put (ops ++ [CPut key v]) k = last_put ops k ∨ k = key) as Hsame.
    { intros k. rewrite Hput. case_bool_decide; [by right|by left]. }
    assert (last_put (ops ++ [CPut key v]) key = Some v) as Hkey by (rewrite Hput; by case_bool_decide).
    unfold RawBlockCache.insert. destruct (map c !! key) as [x|] eqn:E.
    + eapply cache_store_inv; [done|done|done|done|done|]. by rewrite map_size_insert_Some by (by eexists).
    + destruct (evict_ok _ _ Hq) as (Q & S & N). destruct (evict (map c) (order c)) as [m order]. cbn in *.
      eapply cache_store_inv; [done|done|done|done|done|]. rewrite map_size_insert_None; [lia|].
      destruct (m !! key) as [y|] eqn:Ey; [|done]. by rewrite (lookup_weaken _ _ _ _ Ey S) in E.
Qed.

Lemma cache_run_inv ops : cache_inv ops (cache_run ops).
Proof.
  unfold cache_run. induction ops as [|o ops IH] using rev_ind.
  - split_and!; [intros k v e Hk; cbn in Hk; by rewrite lookup_empty in Hk|cbn; rewrite map_size_empty; lia|].
    intros k v e Hk. cbn in Hk. by rewrite lookup_empty in Hk.
  - rewrite foldl_app. by apply cache_step_inv.
Qed.

(** The raw-block cache is bounded and coherent. After any sequence of
    lookups and inserts it holds at most its capacity, a lookup returns only the
    block last inserted under its key, and a block just inserted is found. *)
Theorem raw_cache_bounded ops :
  (size (map (cache_run ops)) ≤ RAW_BLOCK_CACHE_CAP)%nat ∧
  (∀ key v, (RawBlockCache.get (cache_run ops) key).1 = Some v → last_put ops key = Some v) ∧
  (∀ key v, (RawBlockCache.get (cache_run (ops ++ [CPut key v])) key).1 = Some v).
Proof.
  destruct (cache_run_inv ops) as (_ & Hs & Hl). split_and!; [done| |].
  - intros key v. unfold RawBlockCache.get. destruct (map (cache_run ops) !! key) as [[val e]|] eqn:E; cbn; [|done].
    intros [= <-]. by eapply Hl.
  - intros key v. unfold cache_run. rewrite foldl_app. cbn [foldl cache_step]. fold (cache_run ops).
    unfold RawBlockCache.insert, RawBlockCache.get. destruct (map (cache_run ops) !! key) as [x|].
    + cbn [map]. by rewrite lookup_insert_eq.
    + destruct (evict _ _) as [m order]. cbn [map]. by rewrite lookup_insert_eq.
Qed.

(** The queue, unlike the map, is not bounded: each hit appends an entry and
    nothing removes entries while the map is below its capacity. *)
Theorem raw_cache_queue_grows c key v e n :
  map c !! key = Some (v, e) →
  length (order (foldl cache_step c (replicate n (CGet key)))) = (length (order c) + n)%nat.
Proof.
  revert c v e. induction n as [|n IH]; intros c v e Hm; [cbn; lia|]. cbn [replicate foldl cache_step].
  unfold RawBlockCache.get at 1. rewrite Hm. cbn [snd]. erewrite IH; [|cbn; by rewrite lookup_insert_eq]. cbn. len.
Qed.
End raw_cache.
