(* ===== verification/SstLookup.v ===== *)
(** Lookups in a table are lookups in its entries.

    For a table that represents entries [es] (in the sense of [table_ok]), every
    lookup path (the decoded blocks, the seek through the block hash, resident
    or not, with or without verified blocks, through the raw-block cache) finds
    the first visible point version of the key in [es]. *)

From S2P Require Import Prelude ErrorKernel KeyKernel BatchKernel WalFormat Visibility MemTable Bloom SstBlock SstFile SstTable SstWrite SstOpen SstRead.

Local Open Scope Z_scope.

(** * The index window *)

(** The big-endian value of the first [n] bytes, zero padded. *)
Fixpoint win (n : nat) (l : list byte) : Z :=
  match n with
  | O => 0
  | S n => match l with [] => 0 | x :: l => b2Z x * 256 ^ Z.of_nat n + win n l end
  end.

Lemma from_be_zeros n : from_be (replicate n x00) = 0.
Proof. induction n as [|n IH]; [done|]. cbn [replicate]. rewrite from_be_cons, IH. cbn. lia. Qed.

Lemma win_from_be n l : from_be (take n l ++ replicate (n - length (take n l)) x00) = win n l.
Proof.
  revert l. induction n as [|n IH]; intros l; [done|]. destruct l as [|x l].
  - cbn [take length win app Nat.sub]. apply from_be_zeros.
  - cbn [take length win app Nat.sub]. rewrite from_be_cons, IH. do 3 f_equal. rewrite length_app, length_replicate, length_take. lia.
Qed.

Lemma p8_window_win key cp : p8_window key cp = win 8 (drop cp key).
Proof. apply (win_from_be 8). Qed.

Lemma win_range n l : 0 ≤ win n l < 256 ^ Z.of_nat n.
Proof.
  revert l. induction n as [|n IH]; intros l; [cbn; lia|]. rewrite Nat2Z.inj_succ, Z.pow_succ_r by lia.
  destruct l as [|x l]; cbn [win]; [lia|]. specialize (IH l). pose proof (b2Z_range x). nia.
Qed.

Lemma win_mono n a b : ¬ bytes_lt b a → win n a ≤ win n b.
Proof.
  revert a b. induction n as [|n IH]; intros a b Hle; [done|].
  destruct a as [|x a]; [cbn [win]; pose proof (win_range (S n) b); cbn [win] in *; lia|].
  destruct b as [|y b]; [by destruct Hle|]. cbn [win]. unfold bytes_lt in Hle. cbn [bytes_cmp] in Hle.
  pose proof (win_range n a). pose proof (win_range n b). pose proof (b2Z_range x). pose proof (b2Z_range y).
  destruct (Z.compare_spec (b2Z y) (b2Z x)) as [E|E|E]; [|done|nia].
  rewrite E. specialize (IH a b Hle). lia.
Qed.

(** * The common prefix of the index *)

Lemma min_shared_spec acc keys cp :
  min_shared acc keys = Some cp →
  from_option (λ c, (cp ≤ c)%nat) True acc ∧ ∀ a b, a ∈ keys → b ∈ keys → take cp a = take cp b.
Proof.
  revert acc. induction keys as [|x keys IH]; intros acc E; cbn [min_shared] in E.
  { subst acc. split; [cbn; lia|]. intros a b Ha. by apply not_elem_of_nil in Ha. }
  destruct keys as [|y keys].
  { subst acc. split; [cbn; lia|]. by intros a b ->%list_elem_of_singleton ->%list_elem_of_singleton. }
  apply IH in E as [Hc Hk]. cbn in Hc. destruct (prefix_shared_len_spec x y) as [_ Ht].
  assert (cp ≤ prefix_shared_len x y ∧ from_option (λ c, cp ≤ c) True acc)%nat as [Hxy Hacc]
    by (destruct acc; cbn in *; lia).
  split; [done|]. assert (∀ b, b ∈ y :: keys → take cp x = take cp b) as Hx.
  { intros b Hb. rewrite (Ht cp Hxy). apply Hk; [left|done]. }
  intros a b [->|Ha]%elem_of_cons [->|Hb]%elem_of_cons; [done|by apply Hx|symmetry; by apply Hx|by apply Hk].
Qed.

Lemma accel_common cp index : accel_ok cp index →
  ∀ h h', h ∈ index → h' ∈ index → take cp (h_first h) = take cp (h_first h').
Proof.
  intros [-> _] h h' Hh Hh'. destruct (min_shared None (h_first <$> index)) as [cp|] eqn:E; cbn; [|done].
  apply min_shared_spec in E as [_ E]. apply E; by apply list_elem_of_fmap_2.
Qed.

Lemma bytes_cmp_shared c a b : bytes_cmp (c ++ a) (c ++ b) = bytes_cmp a b.
Proof. induction c as [|x c IH]; [done|]. cbn. by rewrite Z.compare_refl. Qed.

Lemma bytes_cmp_take n a b :
  take n a ≠ take n b → bytes_cmp a b = bytes_cmp (take n a) (take n b).
Proof.
  revert a b. induction n as [|n IH]; intros [|x a] [|y b] Hne; try done. cbn in Hne |- *.
  destruct (Z.compare_spec (b2Z x) (b2Z y)) as [E|E|E]; [|done|done]. apply b2Z_inj in E. subst y.
  apply IH. congruence.
Qed.

(** Windows order keys that agree before them. *)
Lemma p8_le cp a b : take cp a = take cp b → ¬ bytes_lt b a → p8_window a cp ≤ p8_window b cp.
Proof.
  intros Ht Hle. rewrite !p8_window_win. apply win_mono. intros Hlt. apply Hle. unfold bytes_lt in *.
  by rewrite <-(take_drop cp a), <-(take_drop cp b), Ht, bytes_cmp_shared.
Qed.

(** With the target's prefix, the accelerated test is the plain comparison. *)
Lemma handle_before_spec cp h uk :
  h_p8 h = p8_window (h_first h) cp → take cp (h_first h) = take cp uk →
  handle_before (p8_window uk cp) uk h = bytes_ltb (h_first h) uk.
Proof.
  intros Hp Ht. unfold handle_before. rewrite Hp. apply eq_true_iff_eq.
  rewrite orb_true_iff, andb_true_iff, Z.ltb_lt, Z.eqb_eq, bytes_ltb_spec. split.
  - intros [Hlt|[_ Hlt]]; [|done]. destruct (bytes_trichotomy (h_first h) uk) as [?|[E|Hgt]]; [done| |].
    + rewrite E in Hlt. lia.
    + pose proof (p8_le cp uk (h_first h) (eq_sym Ht)) as Hle.
      assert (¬ bytes_lt (h_first h) uk) as Hn by (intros ?; by apply (irreflexivity bytes_lt uk); etrans).
      specialize (Hle Hn). lia.
  - intros Hlt. pose proof (p8_le cp (h_first h) uk Ht) as Hle.
    assert (¬ bytes_lt uk (h_first h)) as Hn by (intros ?; by apply (irreflexivity bytes_lt uk); etrans).
    specialize (Hle Hn). destruct (decide (p8_window (h_first h) cp = p8_window uk cp)); [by right|left; lia].
Qed.

(** * Which blocks a key can be in *)

Lemma partition_point_spec {A} (f : A → bool) l :
  (partition_point f l ≤ length l)%nat ∧
  (∀ k x, (k < partition_point f l)%nat → l !! k = Some x → f x = true) ∧
  (∀ x, l !! partition_point f l = Some x → f x = false).
Proof.
  induction l as [|a l (Hl & Hk & Hx)]; [split_and!; [done|intros; cbn in *; lia|done]|]. cbn [partition_point].
  destruct (f a) eqn:E.
  - split_and!; [cbn; lia| |done]. intros [|k] x Hlt Hx'; cbn in Hx'; [congruence|]. apply (Hk k); [lia|done].
  - split_and!; [lia|intros; lia|]. intros x [= <-]. done.
Qed.

(** The file system answers reads of the table's file with its bytes; the
    pool's answers are free. *)
Definition serves (image : list byte) (fs : Files) : Prop :=
  on_disk fs = Ok image ∧
  ∀ k, kit fs = Some k → k_read_all k = Ok image ∧
    ∀ off len, 0 ≤ off → 0 ≤ len → off + len ≤ Z.of_nat (length image) →
      k_read_range k off len = Ok (slice (Z.to_nat off) (Z.to_nat (off + len)) image).

Section blocks.
Context `{CC : Crc32c, CF : !Crc32cFile, LZ : Lz4}.
Context (p : list byte) (es : list entry) (blks : list (list entry)) (t : SstTable) (Ht : table_ok p es blks t).

(** Entries of an earlier block come before those of a later one. *)
Lemma blocks_order i j b b' e e' :
  blks !! i = Some b → blks !! j = Some b' → (i < j)%nat → e ∈ b → e' ∈ b' → ikey_le e.1 e'.1.
Proof using Ht.
  pose proof (tk_sorted _ _ _ _ Ht) as Hs. rewrite <-(tk_cat _ _ _ _ Ht) in Hs. clear Ht.
  revert i j. induction blks as [|b0 l IH]; intros i j Hi Hj Hij He He'; [done|].
  cbn [concat] in Hs. apply sorted_entries_app in Hs as (_ & Hs & Hle). destruct j as [|j]; [lia|]. cbn in Hj.
  destruct i as [|i]; cbn in Hi.
  - injection Hi as ->. apply Hle; [done|]. apply elem_of_concat. exists b'. split; [|done]. by eapply list_elem_of_lookup_2.
  - apply (IH Hs i j); [done|done|lia|done|done].
Qed.

Lemma index_block i h : t_index t !! i = Some h → ∃ b, blks !! i = Some b ∧ b ≠ [] ∧ h_first h = first_of b.
Proof using Ht.
  intros Hi. pose proof (tk_first _ _ _ _ Ht) as Hf.
  assert ((h_first <$> t_index t) !! i = Some (h_first h)) as Hl by (by rewrite list_lookup_fmap, Hi).
  rewrite Hf, list_lookup_fmap in Hl. destruct (blks !! i) as [b|] eqn:Eb; [|done]. injection Hl as Hl.
  exists b. split_and!; [done| |done]. pose proof (tk_ne _ _ _ _ Ht) as Hne. rewrite Forall_lookup in Hne. by eapply Hne.
Qed.

Lemma block_index i b : blks !! i = Some b → ∃ h, t_index t !! i = Some h.
Proof using Ht.
  intros Hb. apply lookup_lt_is_Some_2. rewrite (tk_index_length _ _ _ _ Ht). by eapply lookup_lt_Some.
Qed.

Lemma block_sorted i b : blks !! i = Some b → sorted_entries b.
Proof using Ht.
  intros Hi. pose proof (tk_sorted _ _ _ _ Ht) as Hs. rewrite <-(tk_cat _ _ _ _ Ht) in Hs.
  apply list_elem_of_split_length in Hi as (l1 & l2 & -> & _). rewrite concat_app in Hs. cbn [concat] in Hs.
  apply sorted_entries_app in Hs as (_ & Hs & _). by apply sorted_entries_app in Hs as (Hs & _).
Qed.

(** The first key of a block is at most its keys; of a later block, at least. *)
Lemma first_le i b e : blks !! i = Some b → e ∈ b → ¬ bytes_lt (user_of e) (first_of b).
Proof using Ht.
  intros Hi He. pose proof (block_sorted i b Hi) as Hs. destruct b as [|x b]; [by apply not_elem_of_nil in He|].
  apply elem_of_cons in He as [->|He]; [apply (irreflexivity bytes_lt)|].
  apply sorted_entries_cons in Hs as [Hs _]. by apply ikey_le_user, Hs.
Qed.

Lemma first_later i j b h e : blks !! i = Some b → t_index t !! j = Some h → (i < j)%nat → e ∈ b →
  ¬ bytes_lt (h_first h) (user_of e).
Proof using Ht.
  intros Hi Hj Hij He. destruct (index_block j h Hj) as (b' & Hb' & Hne & ->).
  destruct (first_of_in b' Hne) as (e' & Hin & ->). by apply ikey_le_user, (blocks_order i j b b').
Qed.

Lemma firsts_sorted i j h h' : t_index t !! i = Some h → t_index t !! j = Some h' → (i ≤ j)%nat →
  ¬ bytes_lt (h_first h') (h_first h).
Proof using Ht.
  intros Hi Hj Hij. destruct (decide (i = j)) as [->|].
  { simplify_eq. apply (irreflexivity bytes_lt). }
  destruct (index_block i h Hi) as (b & Hb & Hne & ->). destruct (first_of_in b Hne) as (e & Hin & ->).
  eapply first_later; [done|done|lia|done].
Qed.

(** The accelerated test holds on a prefix of the index, so that the binary
    search of [partition_point] and the scan agree. *)
Lemma handle_before_prefix uk i j h h' :
  t_index t !! i = Some h → t_index t !! j = Some h' → (i ≤ j)%nat →
  handle_before (p8_window uk (t_key_cp t)) uk h' = true → handle_before (p8_window uk (t_key_cp t)) uk h = true.
Proof using Ht.
  intros Hi Hj Hij. pose proof (firsts_sorted _ _ _ _ Hi Hj Hij) as Hle.
  pose proof (tk_accel _ _ _ _ Ht) as Ha. pose proof (accel_common _ _ Ha h h' ltac:(by eapply list_elem_of_lookup_2)
    ltac:(by eapply list_elem_of_lookup_2)) as Hc. destruct Ha as [_ Hp]. rewrite Forall_lookup in Hp.
  pose proof (p8_le _ _ _ Hc Hle) as Hp8. rewrite <-(Hp _ _ Hi), <-(Hp _ _ Hj) in Hp8.
  unfold handle_before. rewrite !orb_true_iff, !andb_true_iff, !Z.ltb_lt, !Z.eqb_eq, !bytes_ltb_spec.
  intros [H1|[H1 H2]]; [left; lia|]. destruct (decide (h_p8 h = h_p8 h')) as [E|E]; [right|left; lia].
  split; [lia|]. by eapply bytes_le_lt_trans.
Qed.

(** No block that holds the key is missed. *)
Lemma blocks_for_point_covers uk i b e : blks !! i = Some b → e ∈ b → user_of e = uk → i ∈ blocks_for_point t uk.
Proof using Ht.
  intros Hi He <-. destruct (block_index i b Hi) as [h Hh].
  destruct (index_block i h Hh) as (b' & Hb' & _ & Hf). rewrite Hi in Hb'. injection Hb' as <-.
  pose proof (first_le i b e Hi He) as Hle. rewrite <-Hf in Hle.
  unfold blocks_for_point, batch_is_empty. pose proof (lookup_lt_Some _ _ _ Hh) as Hlt.
  rewrite (proj2 (Nat.eqb_neq _ 0)) by lia. set (uk := user_of e) in *.
  set (P := handle_before (p8_window uk (t_key_cp t)) uk). set (Q := λ h, negb (bytes_ltb uk (h_first h))).
  destruct (partition_point_spec P (t_index t)) as (Hg1 & Hg2 & Hg3). set (ge := partition_point P (t_index t)) in *.
  destruct (partition_point_spec Q (drop ge (t_index t))) as (_ & _ & Hq). set (q := partition_point Q _) in *.
  assert (ge ≤ S i)%nat as Hge.
  { destruct (decide (ge ≤ S i)%nat); [done|]. exfalso.
    destruct (lookup_lt_is_Some_2 (t_index t) (S i) ltac:(lia)) as [h' Hh'].
    pose proof (first_later i (S i) b h' e Hi Hh' ltac:(lia) He) as Hlater. fold uk in Hlater.
    specialize (Hg2 (S i) h' ltac:(lia) Hh'). pose proof (tk_accel _ _ _ _ Ht) as Ha.
    pose proof (accel_common _ _ Ha h h' ltac:(by eapply list_elem_of_lookup_2) ltac:(by eapply list_elem_of_lookup_2)) as Hc.
    destruct Ha as [_ Hp]. rewrite Forall_lookup in Hp.
    destruct (decide (take (t_key_cp t) (h_first h) = take (t_key_cp t) uk)) as [E|E].
    - unfold P in Hg2. rewrite (handle_before_spec _ _ _ (Hp _ _ Hh')) in Hg2 by congruence.
      by apply bytes_ltb_spec in Hg2.
    - apply Hlater. unfold bytes_lt. rewrite (bytes_cmp_take (t_key_cp t)), <-Hc, <-bytes_cmp_take by congruence.
      destruct (bytes_trichotomy (h_first h) uk) as [?|[E'|?]]; [done|by rewrite E' in E|done]. }
  assert (i < ge + q)%nat as Hend.
  { destruct (decide (i < ge + q)%nat); [done|]. exfalso.
    destruct (lookup_lt_is_Some_2 (t_index t) (ge + q) ltac:(lia)) as [h' Hh'].
    specialize (Hq h'). rewrite lookup_drop in Hq. specialize (Hq Hh'). unfold Q in Hq.
    apply negb_false_iff, bytes_ltb_spec in Hq. pose proof (firsts_sorted _ _ _ _ Hh' Hh ltac:(lia)) as Hfs.
    apply Hle. by eapply bytes_lt_le_trans. }
  apply elem_of_seq. lia.
Qed.

(** ** The best version over the blocks *)

Lemma point_ref_app a b uk snap :
  point_ref (a ++ b) uk snap = match point_ref a uk snap with Some x => Some x | None => point_ref b uk snap end.
Proof. unfold point_ref. rewrite filter_app. by destruct (filter _ a). Qed.

Lemma point_ref_none a uk snap : (∀ e, e ∈ a → user_of e ≠ uk) → point_ref a uk snap = None.
Proof.
  intros Hn. unfold point_ref. rewrite list_filter_nil; [done|]. intros e Hin Hv. apply (Hn e Hin).
  by eapply visible_point_key.
Qed.

Lemma point_ref_some a uk snap x : point_ref a uk snap = Some x → ∃ e, e ∈ a ∧ visible_point uk snap e = true ∧ x = point_of e.
Proof.
  unfold point_ref. destruct (filter _ a) as [|e l] eqn:E; [done|]. cbn. intros [= <-]. exists e.
  assert (e ∈ filter (λ e, visible_point uk snap e = true) a) as Hin by (rewrite E; left).
  by apply list_elem_of_filter in Hin as [Hv Hin].
Qed.

Lemma note_found_app a b uk snap :
  sorted_entries (a ++ b) → note_found (point_ref a uk snap) (point_ref b uk snap) = point_ref (a ++ b) uk snap.
Proof.
  intros Hs. rewrite point_ref_app. destruct (point_ref a uk snap) as [x|] eqn:Ea; destruct (point_ref b uk snap) as [y|] eqn:Eb;
    cbn; try done.
  apply point_ref_some in Ea as (e & He & Hv & ->). apply point_ref_some in Eb as (e' & He' & Hv' & ->).
  apply keep_best_older. apply ikey_le_seq.
  - apply sorted_entries_app in Hs as (_ & _ & Hs). by apply Hs.
  - apply visible_point_key in Hv, Hv'. congruence.
Qed.

Definition fold_ref (uk : list byte) (snap : Z) (bis : list nat) (best : option point) : option point :=
  foldl (λ best i, note_found best (b ← blks !! i; point_ref b uk snap)) best bis.

Lemma fold_ref_seq uk snap a n : (a + n ≤ length blks)%nat →
  fold_ref uk snap (seq a n) (point_ref (concat (take a blks)) uk snap) = point_ref (concat (take (a + n) blks)) uk snap.
Proof using Ht.
  revert a. induction n as [|n IH]; intros a Hle; [by rewrite Nat.add_0_r|]. cbn [seq].
  destruct (lookup_lt_is_Some_2 blks a ltac:(lia)) as [b Hb]. unfold fold_ref. cbn [foldl]. rewrite Hb. cbn [mbind option_bind].
  assert (concat (take (S a) blks) = concat (take a blks) ++ b) as Ec.
  { rewrite (take_S_r _ _ _ Hb), concat_app. cbn. by rewrite app_nil_r. }
  rewrite note_found_app, <-Ec.
  - replace (a + S n)%nat with (S a + n)%nat by lia. apply IH. lia.
  - pose proof (tk_sorted _ _ _ _ Ht) as Hs. rewrite <-(tk_cat _ _ _ _ Ht), <-(take_drop (S a) blks), concat_app, Ec in Hs.
    by apply sorted_entries_app in Hs as (Hs & _).
Qed.

Lemma blocks_for_point_seq uk : ∃ a n, blocks_for_point t uk = seq a n ∧ (a + n ≤ length blks)%nat.
Proof using Ht.
  unfold blocks_for_point. rewrite <-(tk_index_length _ _ _ _ Ht). case_match; [by exists 0%nat, 0%nat; split; [|lia]|].
  eexists _, _. split; [done|]. set (P := handle_before _ _). destruct (partition_point_spec P (t_index t)) as (Hg & _).
  set (ge := partition_point P (t_index t)) in *. set (Q := λ h, _).
  destruct (partition_point_spec Q (drop ge (t_index t))) as (Hq & _). rewrite length_drop in Hq. lia.
Qed.

Lemma outside_none uk snap l :
  (∀ b, b ∈ l → ∃ i, blks !! i = Some b ∧ i ∉ blocks_for_point t uk) → point_ref (concat l) uk snap = None.
Proof using Ht.
  intros Hl. apply point_ref_none. intros e (b & Hb & He)%elem_of_concat Hk.
  destruct (Hl b Hb) as (i & Hi & Hn). apply Hn. by eapply blocks_for_point_covers.
Qed.

Lemma fold_ref_all uk snap : fold_ref uk snap (blocks_for_point t uk) None = point_ref es uk snap.
Proof using Ht.
  destruct (blocks_for_point_seq uk) as (a & n & E & Hle).
  assert (point_ref (concat (take a blks)) uk snap = None) as Hpre.
  { apply outside_none. intros b (i & Hi)%list_elem_of_lookup. apply lookup_take_Some in Hi as [Hi Hlt]. exists i.
    split; [done|]. rewrite E, elem_of_seq. lia. }
  assert (point_ref (concat (drop (a + n) blks)) uk snap = None) as Hpost.
  { apply outside_none. intros b (i & Hi)%list_elem_of_lookup. rewrite lookup_drop in Hi. exists (a + n + i)%nat.
    split; [done|]. rewrite E, elem_of_seq. lia. }
  rewrite E, <-Hpre, fold_ref_seq by done.
  assert (es = concat (take (a + n) blks) ++ concat (drop (a + n) blks)) as ->.
  { by rewrite <-concat_app, take_drop, (tk_cat _ _ _ _ Ht). }
  rewrite point_ref_app, Hpost. by case_match.
Qed.

(** * Loading *)

(** The file under the path, whose body is [p], is what the file system serves. *)
Record files_ok (image : list byte) (fs : Files) : Prop := {
  fo_strip : crc_stripped_body (t_path t) image = Ok p;
  fo_prefix : take (length p) image = p;
  fo_serves : serves image fs
}.

Context (image : list byte) (fs : Files) (Hfs : files_ok image fs).

(** The slot holds the body or nothing. *)
Definition body_ok (b : ResidentBody) : Prop := img b = p ∨ img b = [].

Lemma resident_body b : body_ok b → if resident b then img b = p else img b = [].
Proof using Ht.
  intros Hb. unfold resident, batch_is_empty. destruct (tk_body _ _ _ _ Ht) as [Hp _].
  destruct Hb as [->| ->]; [|done]. by destruct p.
Qed.

Lemma ensure_payload_ok k b : kit fs = Some k → body_ok b →
  ∃ b', ensure_payload t k b = (b', Ok p) ∧ body_ok b'.
Proof using Ht Hfs.
  intros Hk Hb. unfold ensure_payload. pose proof (resident_body b Hb) as Hr. destruct (resident b).
  { exists b. by rewrite Hr. }
  destruct (proj2 (fo_serves _ _ Hfs) k Hk) as [-> _]. cbn [res_bind]. rewrite (fo_strip _ _ Hfs), (proj2 (tk_body _ _ _ _ Ht)), Nat.eqb_refl.
  cbn [negb]. eexists. split; [done|]. destruct (k_evicts k); [by right|by left].
Qed.

Lemma ensure_payload_from_path_ok b : body_ok b → ∃ b', ensure_payload_from_path t fs b = (b', Ok p) ∧ body_ok b'.
Proof using Ht Hfs.
  intros Hb. unfold ensure_payload_from_path. pose proof (resident_body b Hb) as Hr. destruct (resident b).
  { exists b. by rewrite Hr. }
  rewrite (proj1 (fo_serves _ _ Hfs)). cbn [res_bind]. rewrite (fo_strip _ _ Hfs), (proj2 (tk_body _ _ _ _ Ht)), Nat.eqb_refl.
  cbn [negb]. rewrite andb_false_r. eexists. split; [done|]. by left.
Qed.

Lemma try_promote_payload_ok b : body_ok b → ∃ b' r, try_promote_payload t fs b = (b', Ok r) ∧ body_ok b'.
Proof using Ht Hfs.
  intros Hb. unfold try_promote_payload. repeat (case_match; [by eauto|]). destruct (kit fs) as [k|] eqn:Ek; [|by eauto].
  case_match; [by eauto|]. destruct (ensure_payload_ok k b Ek Hb) as (b' & -> & Hb'). eauto.
Qed.

Lemma slice_take a b n (l : list byte) : (b ≤ n)%nat → slice a b (take n l) = slice a b l.
Proof. intros Hle. unfold slice. rewrite skipn_firstn_comm, take_take. f_equal. lia. Qed.

(** The bytes of a stored block, read from the file. *)
Lemma read_range_ok k h b : kit fs = Some k → stored (t_path t) p (t_compressed_blocks t) (t_block_crc t) h b →
  k_read_range k (h_offset h) (h_length h) = Ok (slice (Z.to_nat (h_offset h)) (Z.to_nat (h_offset h + h_length h)) p).
Proof using Hfs.
  intros Hk (H1 & H2 & H3 & _). destruct (proj2 (fo_serves _ _ Hfs) k Hk) as [_ ->]; [|done|done|].
  - by rewrite <-(slice_take _ _ (length p)), (fo_prefix _ _ Hfs) by lia.
  - rewrite <-(fo_prefix _ _ Hfs), length_take in H3. lia.
Qed.

Lemma decode_stored_block i blk b : blks !! i = Some blk → body_ok b →
  ∃ b', decode_block t fs i b = (b', Some (Ok blk)) ∧ body_ok b'.
Proof using Ht Hfs.
  intros Hi Hb. destruct (block_index i blk Hi) as [h Hh]. pose proof (tk_blocks _ _ _ _ Ht i h blk Hh Hi) as Hst.
  pose proof (stored_decodes _ _ _ _ _ _ Hst) as Hd. unfold decode_block. rewrite Hh.
  pose proof (resident_body b Hb) as Hr. destruct (resident b) eqn:Er.
  { exists b. by rewrite Hr, Hd. }
  unfold decode_block_on_file. destruct (kit fs) as [k|] eqn:Ek.
  - destruct (t_block_crc t) eqn:Ec.
    + exists b. split; [|done]. rewrite (read_range_ok k h blk Ek); [|by rewrite Ec]. cbn [comp_bind].
      by destruct Hst as (_ & _ & _ & _ & -> & _).
    + destruct (ensure_payload_ok k b Ek Hb) as (b' & -> & Hb'). exists b'. cbn [comp_bind]. by rewrite Hd.
  - destruct (ensure_payload_from_path_ok b Hb) as (b' & -> & Hb'). exists b'. cbn [comp_bind]. by rewrite Hd.
Qed.

Lemma decode_blocks_ok a n b : (a + n ≤ length blks)%nat → body_ok b →
  ∃ b', decode_blocks t fs (seq a n) b = (b', Some (Ok (concat (take n (drop a blks))))) ∧ body_ok b'.
Proof using Ht Hfs.
  revert a b. induction n as [|n IH]; intros a b Hle Hb; [by exists b|]. cbn [seq decode_blocks].
  destruct (lookup_lt_is_Some_2 blks a ltac:(lia)) as [blk Hblk].
  destruct (decode_stored_block a blk b Hblk Hb) as (b1 & -> & Hb1). destruct (IH (S a) b1 ltac:(lia) Hb1) as (b2 & -> & Hb2).
  exists b2. split; [|done]. cbn [comp_bind]. by rewrite (drop_S _ _ _ Hblk).
Qed.

Lemma materialize_ok b : body_ok b →
  ∃ b', materialize_entries t fs b = (b', Some es, Some (Ok es)) ∧ body_ok b'.
Proof using Ht Hfs.
  intros Hb. unfold materialize_entries, batch_is_empty. rewrite (tk_entries _ _ _ _ Ht), (tk_n _ _ _ _ Ht).
  rewrite (tk_index_length _ _ _ _ Ht). pose proof (tk_cat _ _ _ _ Ht) as Hcat. destruct (Nat.eqb_spec (length blks) 0) as [E|E].
  - destruct blks; [|done]. cbn in Hcat. subst es. by exists b.
  - destruct (decode_blocks_ok 0 (length blks) b ltac:(lia) Hb) as (b' & -> & Hb').
    rewrite drop_0, take_ge, Hcat by lia. cbn [comp_bind]. rewrite Z.eqb_refl. by exists b'.
Qed.

(** * Decoded lookups *)

Lemma best_over_ok uk snap bis best b : Forall (λ i, (i < length blks)%nat) bis → body_ok b →
  ∃ b', best_over t fs uk snap bis best b = (b', Some (fold_ref uk snap bis best)) ∧ body_ok b'.
Proof using Ht Hfs.
  intros Hbis. revert best b. induction Hbis as [|i bis Hi _ IH]; intros best b Hb; [by exists b|].
  cbn [best_over]. destruct (lookup_lt_is_Some_2 blks i Hi) as [blk Hblk].
  destruct (decode_stored_block i blk b Hblk Hb) as (b1 & -> & Hb1).
  rewrite best_point_ref by (by eapply block_sorted). unfold fold_ref. cbn [foldl]. rewrite Hblk. cbn [mbind option_bind].
  apply IH; [done|..]. 
Qed.

Lemma blocks_for_point_lt uk : Forall (λ i, (i < length blks)%nat) (blocks_for_point t uk).
Proof using Ht.
  destruct (blocks_for_point_seq uk) as (a & n & -> & Hle). apply Forall_forall. intros i Hi%elem_of_seq. lia.
Qed.

Lemma point_in_blocks_ok uk snap b : body_ok b →
  ∃ b', point_in_blocks t fs uk snap b = (b', Some (point_ref es uk snap)) ∧ body_ok b'.
Proof using Ht Hfs.
  intros Hb. unfold point_in_blocks. destruct (negb (is_lazy t)).
  - destruct (materialize_ok b Hb) as (b' & -> & Hb'). exists b'. split; [|done].
    by rewrite best_point_ref by apply (tk_sorted _ _ _ _ Ht).
  - destruct (best_over_ok uk snap (blocks_for_point t uk) None b (blocks_for_point_lt uk) Hb) as (b' & -> & Hb').
    exists b'. by rewrite fold_ref_all.
Qed.

(** The guards never hide a key that is there. *)
Lemma below_smallest uk snap lo : t_smallest_user_key t = Some lo → bytes_lt uk lo → point_ref es uk snap = None.
Proof using Ht.
  intros Hlo Hlt. apply point_ref_none. intros e He Hk. rewrite (tk_smallest _ _ _ _ Ht) in Hlo.
  pose proof (tk_sorted _ _ _ _ Ht) as Hs. destruct es as [|x l]; [done|]. injection Hlo as <-. subst uk.
  apply elem_of_cons in He as [->|He]; [by apply (irreflexivity bytes_lt) in Hlt|].
  apply sorted_entries_cons in Hs as [Hs _]. by apply (ikey_le_user _ _ (Hs e He)).
Qed.

Lemma out_of_bounds_none uk snap : out_of_bounds t uk = true → point_ref es uk snap = None.
Proof using Ht.
  unfold out_of_bounds. destruct (t_smallest_user_key t) as [lo|] eqn:Elo; [|done].
  pose proof (tk_largest _ _ _ _ Ht) as Hhi. destruct (t_largest_user_key t) as [hi|]; [|done].
  intros [Hlt%bytes_ltb_spec|Hlt%bytes_ltb_spec]%orb_true_iff; [by eapply below_smallest|].
  apply point_ref_none. intros e He <-. by apply (Hhi e He).
Qed.

Lemma filtered_none uk snap : may_contain uk (t_bloom t) = Some false → point_ref es uk snap = None.
Proof using Ht.
  intros Hm. apply point_ref_none. intros e He <-. pose proof (tk_bloom _ _ _ _ Ht e He) as Ha.
  unfold answers in Ha. congruence.
Qed.

Lemma bloom_total uk : ∃ m, may_contain uk (t_bloom t) = Some m.
Proof using Ht. destruct (filter_safe_total uk _ (tk_safe _ _ _ _ Ht)) as [m ->]. eauto. Qed.

Lemma point_at_ok uk snap b : body_ok b →
  ∃ b', point_at t fs uk snap b = (b', Some (point_ref es uk snap)) ∧ body_ok b'.
Proof using Ht Hfs.
  intros Hb. unfold point_at. destruct (out_of_bounds t uk) eqn:Eo.
  { exists b. by rewrite (out_of_bounds_none _ snap Eo). }
  destruct (bloom_total uk) as [[] Em]; rewrite Em; [by apply point_in_blocks_ok|].
  exists b. by rewrite (filtered_none _ snap Em).
Qed.

Lemma get_entry_ok uk snap b : body_ok b →
  ∃ b', get_entry t fs uk snap b = (b', Some (point_ref es uk snap)) ∧ body_ok b'.
Proof using Ht Hfs.
  intros Hb. unfold get_entry. destruct (bloom_total uk) as [m Em]. rewrite Em.
  destruct (t_smallest_user_key t) as [lo|] eqn:Elo.
  2: { destruct m; [by apply point_in_blocks_ok|]. cbn [orb]. destruct (has_range_tombstones t); [by apply point_in_blocks_ok|].
       exists b. by rewrite (filtered_none _ snap Em). }
  destruct (match t_largest_user_key t with Some _ => bytes_ltb uk lo | None => false end) eqn:El.
  { exists b. rewrite (below_smallest _ snap lo); [done|done|]. destruct (t_largest_user_key t); [|done]. by apply bytes_ltb_spec. }
  destruct m; [by apply point_in_blocks_ok|]. cbn [orb]. destruct (has_range_tombstones t); [by apply point_in_blocks_ok|].
  exists b. by rewrite (filtered_none _ snap Em).
Qed.

(** * Seeking lookups *)

(** What the raw-block cache holds of this table. *)
Definition cache_ok (path_id : Z) (c : RawBlockCache.t) : Prop :=
  ∀ i h blk plain ep, t_index t !! i = Some h → blks !! i = Some blk →
    RawBlockCache.map c !! (path_id, h_offset h) = Some (plain, ep) →
    ∀ stale uk snap, seek_point_in_plain_block (t_path t) stale plain uk snap = Some (Ok (point_ref blk uk snap)).

Definition seek_ok (path_id : Z) (s : Seek) : Prop := body_ok (sk_body s) ∧ cache_ok path_id (sk_cache s).

Lemma cache_get_ok path_id c key v c' :
  cache_ok path_id c → RawBlockCache.get c key = (v, c') →
  cache_ok path_id c' ∧ ∀ plain, v = Some plain → ∃ ep, RawBlockCache.map c !! key = Some (plain, ep).
Proof.
  intros Hc. unfold RawBlockCache.get. destruct (RawBlockCache.map c !! key) as [[val ep]|] eqn:E; intros [= <- <-];
    [|split; [done|intros ? ?; discriminate]].
  split; [|intros plain [= <-]; eauto]. intros i h blk plain ep' Hi Hb. cbn.
  destruct (decide ((path_id, h_offset h) = key)) as [<-|Hne].
  - rewrite lookup_insert_eq. intros [= <- <-]. exact (Hc i h blk val ep Hi Hb E).
  - rewrite lookup_insert_ne by done. exact (Hc i h blk plain ep' Hi Hb).
Qed.

Lemma evict_sub m order : (RawBlockCache.evict m order).1 ⊆ m.
Proof.
  revert m. induction order as [|[old ep] order IH]; intros m; cbn [RawBlockCache.evict]; case_match; try done.
  etransitivity; [apply IH|]. destruct (m !! old) as [[v e]|]; [|done]. case_match; [apply delete_subseteq|done].
Qed.

Lemma offsets_inj i j h h' : t_index t !! i = Some h → t_index t !! j = Some h' → h_offset h = h_offset h' → i = j.
Proof using Ht.
  intros Hi Hj E. pose proof (tk_offsets _ _ _ _ Ht) as Hs.
  destruct (decide (i < j)%nat); [pose proof (sorted_lookup _ _ _ _ _ _ Hs l Hi Hj) as Hlt; cbn in Hlt; lia|].
  destruct (decide (j < i)%nat); [pose proof (sorted_lookup _ _ _ _ _ _ Hs l Hj Hi) as Hlt; cbn in Hlt; lia|lia].
Qed.

Lemma cache_insert_ok path_id c i h blk plain :
  cache_ok path_id c → t_index t !! i = Some h → blks !! i = Some blk →
  (∀ stale uk snap, seek_point_in_plain_block (t_path t) stale plain uk snap = Some (Ok (point_ref blk uk snap))) →
  cache_ok path_id (RawBlockCache.insert c (path_id, h_offset h) plain).
Proof using Ht.
  intros Hc Hi Hb Hp. 
  assert (∀ m ep order e', m ⊆ RawBlockCache.map c →
    cache_ok path_id (RawBlockCache.mk (<[(path_id, h_offset h) := (plain, ep)]> m) order e')) as Hnew.
  { intros m ep order e' Hsub j h' blk' plain' ep' Hj Hb'. cbn.
    destruct (decide ((path_id, h_offset h') = (path_id, h_offset h))) as [E|Hne].
    - rewrite E, lookup_insert_eq. intros [= <- <-]. injection E as E.
      pose proof (offsets_inj _ _ _ _ Hj Hi E). by simplify_eq.
    - rewrite lookup_insert_ne by done. intros Hm. eapply Hc; [done|done|]. by eapply lookup_weaken. }
  unfold RawBlockCache.insert. case_match; [by apply Hnew|].
  pose proof (evict_sub (RawBlockCache.map c) (RawBlockCache.order c)) as Hs.
  destruct (RawBlockCache.evict _ _) as [m order]. by apply Hnew.
Qed.

Lemma stored_raw i h blk : t_index t !! i = Some h → blks !! i = Some blk →
  0 ≤ h_offset h ∧ h_offset h + h_length h ≤ U64_MAX ∧ h_offset h + h_length h ≤ Z.of_nat (length p) ∧
  seekable (t_path t) (slice (Z.to_nat (h_offset h)) (Z.to_nat (h_offset h + h_length h)) p)
    (t_compressed_blocks t) (t_block_crc t) blk.
Proof using Ht. intros Hi Hb. destruct (tk_blocks _ _ _ _ Ht i h blk Hi Hb) as (? & ? & ? & ? & _ & ?). split_and!; [lia..|done]. Qed.

Lemma seekable_image path raw pc blk uk snap :
  seekable path raw pc true blk → seek_point_in_block_image path raw pc uk snap = Some (Ok (point_ref blk uk snap)).
Proof.
  intros (body & plain & E1 & E2 & Hs). unfold seek_point_in_block_image, seek_point_in_block_body.
  rewrite E1. cbn [comp_bind]. rewrite E2. cbn [comp_bind]. apply Hs.
Qed.

Lemma split_block_crc_inv path raw body :
  split_block_crc path raw = Ok body → (length raw <? 4)%nat = false ∧ body = take (length raw - 4) raw.
Proof. unfold split_block_crc. repeat case_match; try done. by intros [= <-]. Qed.

Lemma seek_from_file_ok stale path_id i h blk uk snap s :
  t_block_crc t = true → t_index t !! i = Some h → blks !! i = Some blk → seek_ok path_id s →
  ∃ s', seek_from_file stale i t fs path_id h uk snap s = (s', Some (Ok (point_ref blk uk snap))) ∧ seek_ok path_id s'.
Proof using Ht Hfs.
  intros Hcrc Hi Hb [Hbody Hcache]. destruct (stored_raw i h blk Hi Hb) as (_ & He1 & He2 & Hsk). rewrite Hcrc in Hsk.
  unfold seek_from_file. destruct (kit fs) as [k|] eqn:Ek.
  - destruct (RawBlockCache.get (sk_cache s) (path_id, h_offset h)) as [v c'] eqn:Eg.
    destruct (cache_get_ok _ _ _ _ _ Hcache Eg) as [Hc' Hv]. destruct v as [plain|].
    + destruct (Hv plain eq_refl) as [ep Hm]. rewrite (Hcache i h blk plain ep Hi Hb Hm). eexists. split; [done|]. by split.
    + rewrite (read_range_ok k h blk Ek) by (by eapply tk_blocks). cbn [res_bind].
      destruct Hsk as (body & plain & E1 & E2 & Hs). rewrite E1. cbn [res_bind]. rewrite E2.
      eexists. split; [by rewrite Hs|]. split; [done|]. by eapply cache_insert_ok.
  - destruct (ensure_payload_from_path_ok (sk_body s) Hbody) as (b' & -> & Hb'). cbn [comp_bind].
    rewrite !(proj2 (Z.ltb_ge _ _)) by lia. rewrite (seekable_image _ _ _ _ _ _ Hsk). eexists. split; [done|]. by split.
Qed.

Lemma seek_crc_block_ok stale path_id i h blk uk snap s :
  t_block_crc t = true → t_index t !! i = Some h → blks !! i = Some blk → seek_ok path_id s →
  ∃ s', seek_crc_block stale t fs path_id i h uk snap s = (s', Some (Ok (point_ref blk uk snap))) ∧ seek_ok path_id s'.
Proof using Ht Hfs.
  intros Hcrc Hi Hb Hs. pose proof Hs as [Hbody Hcache]. unfold seek_crc_block.
  pose proof (resident_body _ Hbody) as Hr. unfold resident in Hr. destruct (batch_is_empty (length (img (sk_body s)))); cbn [negb] in Hr.
  { by apply (seek_from_file_ok _ _ i). }
  destruct (stored_raw i h blk Hi Hb) as (_ & He1 & He2 & Hsk). rewrite Hcrc in Hsk. rewrite Hr.
  rewrite !(proj2 (Z.ltb_ge _ _)) by lia. set (raw := slice _ _ p) in *. destruct (is_verified (sk_body s) i).
  - exists s. split; [|done]. destruct Hsk as (body & plain & E1 & E2 & Hp).
    destruct (split_block_crc_inv _ _ _ E1) as [-> ->]. unfold seek_point_in_block_body. rewrite E2. cbn [comp_bind]. by rewrite Hp.
  - rewrite (seekable_image _ _ _ _ _ _ Hsk). eexists. split; [done|]. split; [|done]. by left.
Qed.

Lemma seek_crc_blocks_ok stale path_id uk snap bis best s :
  t_block_crc t = true → Forall (λ i, (i < length blks)%nat) bis → seek_ok path_id s →
  ∃ s', seek_crc_blocks stale t fs path_id uk snap bis best s = (s', Some (Ok (fold_ref uk snap bis best))) ∧ seek_ok path_id s'.
Proof using Ht Hfs.
  intros Hcrc Hbis. revert best s. induction Hbis as [|i bis Hi _ IH]; intros best s Hs; [by exists s|].
  cbn [seek_crc_blocks]. destruct (lookup_lt_is_Some_2 blks i Hi) as [blk Hblk]. destruct (block_index i blk Hblk) as [h Hh].
  rewrite Hh. destruct (seek_crc_block_ok stale path_id i h blk uk snap s Hcrc Hh Hblk Hs) as (s1 & -> & Hs1).
  unfold fold_ref. cbn [foldl]. rewrite Hblk. cbn [mbind option_bind]. by apply IH.
Qed.

Lemma seek_plain_blocks_ok stale uk snap bis best :
  t_block_crc t = false → Forall (λ i, (i < length blks)%nat) bis →
  seek_plain_blocks stale t p uk snap bis best = Some (Ok (fold_ref uk snap bis best)).
Proof using Ht.
  intros Hcrc Hbis. revert best. induction Hbis as [|i bis Hi _ IH]; intros best; [done|].
  cbn [seek_plain_blocks]. destruct (lookup_lt_is_Some_2 blks i Hi) as [blk Hblk]. destruct (block_index i blk Hblk) as [h Hh].
  rewrite Hh. destruct (stored_raw i h blk Hh Hblk) as (_ & He1 & He2 & (body & plain & E1 & E2 & Hs)).
  rewrite Hcrc in E1, E2. injection E1 as <-. injection E2 as <-. rewrite !(proj2 (Z.ltb_ge _ _)) by lia.
  rewrite Hs. cbn [comp_bind]. unfold fold_ref. cbn [foldl]. rewrite Hblk. cbn [mbind option_bind]. by apply IH.
Qed.

Lemma point_at_seeking_ok stale path_id uk snap s : seek_ok path_id s →
  ∃ s', point_at_seeking stale t fs path_id uk snap s = (s', Some (Ok (point_ref es uk snap))) ∧ seek_ok path_id s'.
Proof using Ht Hfs.
  intros Hs. pose proof Hs as [Hbody Hcache]. unfold point_at_seeking.
  destruct (bloom_total uk) as [m Em]. unfold may_contain in Em. destruct (hash_pair uk) as [h1 h2] eqn:Eh.
  destruct (out_of_bounds t uk) eqn:Eo; [exists s; by rewrite (out_of_bounds_none _ snap Eo)|].
  rewrite Em. destruct m.
  2: { exists s. rewrite (filtered_none _ snap); [done|]. unfold may_contain. by rewrite Eh. }
  pose proof (resident_body _ Hbody) as Hr. pose proof (blocks_for_point_lt uk) as Hlt.
  destruct (negb (is_lazy t)).
  { destruct (materialize_ok _ Hbody) as (b' & -> & Hb'). exists (mkSeek b' (sk_cache s)). split; [|by split]. cbn [comp_bind].
    by rewrite best_point_ref by apply (tk_sorted _ _ _ _ Ht). }
  destruct (t_block_crc t) eqn:Ec; cbn [negb].
  - assert (∃ b' r, (if resident (sk_body s) then (sk_body s, Ok true) else try_promote_payload t fs (sk_body s)) = (b', Ok r)
      ∧ body_ok b') as (b' & r & -> & Hb').
    { destruct (resident (sk_body s)); [by eauto|by apply try_promote_payload_ok]. }
    destruct (seek_crc_blocks_ok stale path_id uk snap (blocks_for_point t uk) None (mkSeek b' (sk_cache s)) Ec Hlt) as (s' & -> & Hs');
      [by split|]. exists s'. by rewrite fold_ref_all.
  - destruct (resident (sk_body s)) eqn:Er.
    + exists s. split; [|done]. by rewrite Hr, seek_plain_blocks_ok, fold_ref_all.
    + destruct (point_in_blocks_ok uk snap _ Hbody) as (b' & -> & Hb'). eexists. split; [done|]. by split.
Qed.

(** * Visibility *)

Lemma table_range_deleted uk s snap : range_deleted t uk s snap = true ↔ hidden es snap uk s.
Proof using Ht.
  unfold range_deleted, hidden. rewrite (tk_rts _ _ _ _ Ht), existsb_exists. split.
  - intros ([k v] & Hin & Hc). apply list_elem_of_In, list_elem_of_filter in Hin as [Hk Hin]. exists k, v.
    rewrite !andb_true_iff, !negb_true_iff, Z.ltb_ge, Z.ltb_lt in Hc. cbn in *. destruct Hc as [[[H1 H2] H3] H4].
    split_and!; [done|done|done|done|]. unfold range_tombstone_covers. rewrite andb_true_iff. split; [|done].
    apply bytes_leb_spec. intros Hlt%bytes_ltb_spec. congruence.
  - intros (k & v & Hin & Hk & H1 & H2 & Hc). exists (k, v). split; [by apply list_elem_of_In, list_elem_of_filter|].
    unfold range_tombstone_covers in Hc. apply andb_true_iff in Hc as [Hc1 Hc2]. cbn.
    rewrite (proj2 (Z.ltb_ge _ _)), (proj2 (Z.ltb_lt _ _)), Hc2 by done. rewrite andb_true_r. cbn.
    apply negb_true_iff, not_true_iff_false. rewrite bytes_ltb_spec. by apply bytes_leb_spec.
Qed.

Lemma sorted_entries_filter (P : entry → Prop) `{∀ e, Decision (P e)} l : sorted_entries l → sorted_entries (filter P l).
Proof.
  induction l as [|e l IH]; intros Hs; [done|]. apply sorted_entries_cons in Hs as [Hle Hs]. rewrite filter_cons.
  case_decide; [|by apply IH]. apply sorted_entries_cons. split; [|by apply IH].
  intros e' [_ Hin]%list_elem_of_filter. by apply Hle.
Qed.

(** The reference point is the newest candidate. *)
Lemma point_ref_newest (l : list entry) uk snap : sorted_entries l →
  match point_ref l uk snap with
  | None => ∀ e, ¬ candidate l snap uk e
  | Some x => ∃ e, x = point_of e ∧ candidate l snap uk e ∧ ∀ e', candidate l snap uk e' → ¬ ikey_lt e'.1 e.1
  end.
Proof.
  intros Hs. assert (∀ e, e ∈ filter (λ e, visible_point uk snap e = true) l ↔ candidate l snap uk e) as Hf.
  { intros e. rewrite list_elem_of_filter. unfold visible_point, candidate.
    rewrite !andb_true_iff, bytes_eqb_spec, negb_true_iff, bool_decide_eq_false, Z.leb_le. naive_solver. }
  unfold point_ref. assert (sorted_entries (filter (λ e, visible_point uk snap e = true) l)) as Hsf by (by apply sorted_entries_filter).
  destruct (filter _ l) as [|e l'] eqn:E; cbn.
  - intros e He%Hf. by apply not_elem_of_nil in He.
  - exists e. split; [done|]. split; [apply Hf; left|]. intros e' [->|He']%Hf%elem_of_cons; [apply (irreflexivity ikey_lt)|].
    apply sorted_entries_cons in Hsf as [Hsf _]. by apply Hsf.
Qed.

Lemma point_ref_candidate uk snap :
  match point_ref es uk snap with
  | None => ∀ e, ¬ candidate es snap uk e
  | Some x => ∃ e, x = point_of e ∧ candidate es snap uk e ∧ ∀ e', candidate es snap uk e' → ¬ ikey_lt e'.1 e.1
  end.
Proof using Ht. apply point_ref_newest, (tk_sorted _ _ _ _ Ht). Qed.

(** Distinct versions have distinct internal keys. *)
Definition distinct_keys (l : list entry) : Prop := ∀ e e', e ∈ l → e' ∈ l → e.1 = e'.1 → e = e'.

Lemma distinct_keys_NoDup l : NoDup l.*1 → distinct_keys l.
Proof.
  intros Hn e e' (i & Hi)%list_elem_of_lookup (j & Hj)%list_elem_of_lookup E.
  assert (i = j) as ->; [|congruence]. apply (NoDup_lookup _ _ _ e.1 Hn); rewrite list_lookup_fmap; [by rewrite Hi|by rewrite Hj, E].
Qed.

Lemma get_ok uk snap b : body_ok b →
  ∃ b' look, get t fs uk snap b = (b', Some look) ∧ body_ok b' ∧
    (distinct_keys es → ∀ v, look = Found v ↔ reads es snap uk v).
Proof using Ht Hfs.
  intros Hb. unfold get. destruct (get_entry_ok uk snap b Hb) as (b' & -> & Hb'). eexists b', _. split; [done|].
  split; [done|]. intros Hd v. pose proof (point_ref_candidate uk snap) as Hp. destruct (point_ref es uk snap) as [x|].
  - destruct Hp as (e & -> & Hc & Hmin).
    assert (∀ v, reads es snap uk v → e.2 = v ∧ kind e.1 = Value ∧ ¬ hidden es snap uk (sequence e.1)) as Hr.
    { intros v' (e0 & Hc0 & <- & Hk & Hmin0 & Hh). assert (e0.1 = e.1) as Ek.
      { specialize (Hmin e0 Hc0). specialize (Hmin0 e Hc). destruct (ikey_trichotomy e0.1 e.1) as [|[]]; done. }
      assert (e0 = e) as -> by (apply Hd; [apply Hc0|apply Hc|done]). done. }
    unfold point_of, look_of. destruct (kind e.1) eqn:Ek; [| |by destruct Hc as (_ & _ & Hk & _)].
    all: split; [intros Hf|intros (<- & Hval & Hh)%Hr]; try done.
    + destruct (range_deleted t uk (sequence e.1) snap) eqn:Er; [done|]. injection Hf as <-.
      exists e. split_and!; [done|done|done|done|]. intros Hh%table_range_deleted. congruence.
    + destruct (range_deleted t uk (sequence e.1) snap) eqn:Er; [|done]. by apply table_range_deleted in Er.
  - split; [by case_match|]. intros (e & Hc & _). by apply Hp in Hc.
Qed.
End blocks.

(** * Written and reopened tables *)

Section tables.
Context `{CC : Crc32c, CF : !Crc32cFile, LZ : Lz4, LL : !Lz4Laws}.

(** Entries the writer can store and a reader accepts back. *)
Record sst_input (we : WriterEnv) (es : list entry) (hint : Z) : Prop := {
  si_entries : Forall entry_ok es;
  si_sorted : sorted_entries es;
  si_count : Z.of_nat (length es) ≤ MAX_SST_ENTRIES;
  si_hint : 0 ≤ hint;
  si_blocks : Forall block_fits (cut (block_target (target_override we)) [] es)
}.

(** The table is the writer's, or the one read back from the file. *)
Definition table_of (we : WriterEnv) (path : string) (es : list entry) (hint : Z) (sync compress : bool)
    (image : list byte) (t : SstTable) : Prop :=
  ∃ t0, write_sst_try_sorted_body we env_ok path (Ok <$> es) hint sync compress = Some (Ok (image, t0)) ∧
    (t = t0 ∨ sst_decode path image = Some (Ok t)).

Lemma table_of_ok we path es hint sync compress image t fs :
  sst_input we es hint → table_of we path es hint sync compress image t → serves image fs →
  let p := img (t_payload t) in
  table_ok p es (cut (block_target (target_override we)) [] es) t ∧ files_ok p t image fs.
Proof using CF LL.
  intros [He Hs Hn Hh Hf] (t0 & Ew & Ht) Hsv.
  destruct (write_open_ok we path es hint sync compress He Hs Hn Hh Hf)
    as (image' & t1 & t' & Ew' & Eo & Ht1 & Ht' & Hst & Hpre & P1 & P2 & _ & _ & Hpl & _).
  rewrite Ew in Ew'. injection Ew' as <- <-. rewrite Eo in Ht. cbn zeta.
  destruct Ht as [->|[= <-]]; [|rewrite Hpl]; (split; [done|]); split; [by rewrite P1|done|done|by rewrite P2|done|done].
Qed.

Lemma body_ok_start t : body_ok (img (t_payload t)) (t_payload t).
Proof. by left. Qed.

Lemma cache_ok_start t blks path_id : cache_ok blks t path_id RawBlockCache.new.
Proof. intros i h blk plain ep _ _ Hm. cbn in Hm. by rewrite lookup_empty in Hm. Qed.

(** C17: a table survives the round trip through its file. For sorted entries
    within the format's limits the writer succeeds whatever its compression
    policy, bloom hint and sync option; opening the file it wrote succeeds and
    gives a table with the same index, counts, range tombstones and maximum
    sequence, and both tables materialize exactly the entries written, in
    order. The upper key bound does not survive: the writer's table bounds the
    keys and the ends of all range tombstones, the reopened one only the last
    entry. *)
Theorem sst_round_trip we path es hint sync compress :
  sst_input we es hint →
  ∃ image t t', write_sst_try_sorted_body we env_ok path (Ok <$> es) hint sync compress = Some (Ok (image, t)) ∧
    sst_decode path image = Some (Ok t') ∧
    (∀ t0, t0 = t ∨ t0 = t' →
       (materialize_entries t0 (mkFiles (Ok image) None) (t_payload t0)).2 = Some (Ok es) ∧
       t_index t0 = t_index t ∧ t_num_entries t0 = Z.of_nat (length es) ∧ t_max_sequence t0 = max_sequence_of es ∧
       t_range_tombstones t0 = range_dels es ∧ t_tombstone_count t0 = tombs_in es ∧
       t_smallest_user_key t0 = user_of <$> head es) ∧
    t_largest_user_key t = largest_of es ∧ t_largest_user_key t' = reopened_bound <$> last es.
Proof using CF LL.
  intros Hi. pose proof Hi as [He Hs Hn Hh Hf].
  destruct (write_open_ok we path es hint sync compress He Hs Hn Hh Hf)
    as (image & t & t' & Ew & Eo & _ & _ & _ & _ & _ & _ & Hidx & _ & _ & _ & Hlg).
  exists image, t, t'. split; [done|]. split; [done|]. split; [|done]. intros t0 Ht0.
  assert (table_of we path es hint sync compress image t0) as Hof by (exists t; destruct Ht0 as [->| ->]; auto).
  destruct (table_of_ok we path es hint sync compress image t0 (mkFiles (Ok image) None) Hi Hof) as [Ht Hfs]; [done|].
  destruct (materialize_ok _ _ _ _ Ht _ _ Hfs _ (body_ok_start t0)) as (b' & -> & _).
  destruct Ht. split_and!; try done. by destruct Ht0 as [->| ->].
Qed.

(** C16: every lookup path of a table is a lookup in its entries. For a table
    just written or reopened, any key and snapshot, the decoding lookup
    [point_at], [get_entry], and the seeking lookup (block hash, restarts,
    verified bits, decompression, raw-block cache) return the first point
    version of the key visible in the entries written, and never an error or a
    panic: whether the body is resident or not, whatever the pool admits or
    evicts in between, and whatever lookups ran before (their effects keep the
    body and cache states the statement starts from). Key bounds, filter and
    accelerated index never lose a key. *)
Theorem sst_lookup_correct we path es hint sync compress image t fs uk snap :
  sst_input we es hint → table_of we path es hint sync compress image t → serves image fs →
  let p := img (t_payload t) in
  let blks := cut (block_target (target_override we)) [] es in
  (∀ b, body_ok p b →
     (∃ b', point_at t fs uk snap b = (b', Some (point_ref es uk snap)) ∧ body_ok p b') ∧
     (∃ b', get_entry t fs uk snap b = (b', Some (point_ref es uk snap)) ∧ body_ok p b')) ∧
  (∀ stale path_id s, seek_ok p blks t path_id s →
     ∃ s', point_at_seeking stale t fs path_id uk snap s = (s', Some (Ok (point_ref es uk snap))) ∧
       seek_ok p blks t path_id s') ∧
  body_ok p (t_payload t) ∧ (∀ path_id, seek_ok p blks t path_id (mkSeek (t_payload t) RawBlockCache.new)).
Proof using CF LL.
  intros Hi Hof Hsv p blks. destruct (table_of_ok we path es hint sync compress image t fs Hi Hof Hsv) as [Ht Hfs].
  split_and!; [| |by left|intros; split; [by left|apply cache_ok_start]].
  - intros b Hb. split; [by eapply point_at_ok|by eapply get_entry_ok].
  - intros stale path_id s Hs. by eapply point_at_seeking_ok.
Qed.

(** A table read shows what is visible. On a written or reopened table whose
    versions are distinct, [get] finds a value exactly when the visibility rule
    (newest version at the snapshot, not hidden by a newer range deletion) shows
    that value in the entries. *)
Theorem sst_get_reads we path es hint sync compress image t fs uk snap b v :
  sst_input we es hint → table_of we path es hint sync compress image t → serves image fs →
  distinct_keys es → body_ok (img (t_payload t)) b →
  ∃ look, (get t fs uk snap b).2 = Some look ∧ (look = Found v ↔ reads es snap uk v).
Proof using CF LL.
  intros Hi Hof Hsv Hd Hb. destruct (table_of_ok we path es hint sync compress image t fs Hi Hof Hsv) as [Ht Hfs].
  destruct (get_ok _ _ _ _ Ht _ _ Hfs uk snap b Hb) as (b' & look & -> & _ & Hl). exists look. split; [done|].
  by apply Hl.
Qed.
End tables.

(** ** Witnesses *)

#[local] Existing Instance poly_crc.
#[local] Existing Instance poly_file.
#[local] Existing Instance store_lz4.
#[local] Existing Instance store_laws.

(** Two blocks, several versions, a tombstone and a range tombstone; stored
    with block checksums. *)
Definition sample_entries : list entry :=
  [(mkIKey [x61] 5 Value, [x31]); (mkIKey [x61] 3 Deletion, []);
   (mkIKey [x61; x62; x63] 4 RangeDeletion, [x63]); (mkIKey [x61; x62; x63] 2 Value, replicate (Z.to_nat 1200) x32);
   (mkIKey [x62] 6 Value, [x33])].
Definition sample_env : WriterEnv := mkWriterEnv true (Some 1024).

Lemma sample_input : sst_input sample_env sample_entries 3.
Proof.
  split; [|  |done|done|].
  - repeat constructor; vm_compute; congruence.
  - unfold sorted_entries, sample_entries. cbn.
    repeat (constructor; [|repeat constructor; vm_compute; congruence]). constructor.
  - replace (cut _ [] sample_entries) with [take 4 sample_entries; drop 4 sample_entries] by (vm_compute; reflexivity).
    repeat constructor; vm_compute; congruence.
Qed.

Lemma sample_serves image : serves image (mkFiles (Ok image) None).
Proof. by split. Qed.

Lemma sst_round_trip_witness :
  ∃ image t', sst_decode "a.sst" image = Some (Ok t') ∧ t_num_entries t' = 5 ∧
    (materialize_entries t' (mkFiles (Ok image) None) (t_payload t')).2 = Some (Ok sample_entries).
Proof.
  destruct (sst_round_trip sample_env "a.sst" sample_entries 3 true true sample_input) as (image & t & t' & _ & Eo & Hb & _).
  exists image, t'. split; [exact Eo|]. destruct (Hb t' (or_intror eq_refl)) as (Hm & _ & Hn & _).
  split; [exact Hn|exact Hm].
Defined.

Lemma sst_lookup_correct_witness :
  ∃ image t s, table_of sample_env "a.sst" sample_entries 3 true true image t ∧
    point_at_seeking (λ _, [x7a]) t (mkFiles (Ok image) None) 7 [x62] 10 (mkSeek (t_payload t) RawBlockCache.new) =
      (s, Some (Ok (Some (6, Found [x33])))).
Proof.
  destruct sample_input as [He Hs Hn Hh Hf].
  destruct (write_open_ok sample_env "a.sst" sample_entries 3 true true He Hs Hn Hh Hf) as (image & t & t' & Ew & Eo & _).
  assert (table_of sample_env "a.sst" sample_entries 3 true true image t') as Hof by (exists t; auto).
  destruct (sst_lookup_correct _ _ _ _ _ _ image t' _ [x62] 10 sample_input Hof (sample_serves image)) as (_ & Hsk & _ & H0).
  destruct (Hsk (λ _, [x7a]) 7 _ (H0 7)) as (s' & E & _). exists image, t', s'. split; [exact Hof|].
  rewrite E. vm_compute. reflexivity.
Defined.

Lemma sst_get_reads_witness :
  ∃ image t look, table_of sample_env "a.sst" sample_entries 3 true true image t ∧
    (get t (mkFiles (Ok image) None) [x61; x62; x63] 10 (t_payload t)).2 = Some look ∧
    (look = Found [x32] ↔ reads sample_entries 10 [x61; x62; x63] [x32]).
Proof.
  destruct sample_input as [He Hs Hn Hh Hf].
  destruct (write_open_ok sample_env "a.sst" sample_entries 3 true true He Hs Hn Hh Hf) as (image & t & t' & Ew & Eo & _).
  assert (table_of sample_env "a.sst" sample_entries 3 true true image t') as Hof by (exists t; auto).
  assert (distinct_keys sample_entries) as Hd.
  { apply distinct_keys_NoDup. apply (bool_decide_unpack (NoDup _) (dec := NoDup_dec _)). vm_compute. exact I. }
  destruct (sst_get_reads _ _ _ _ _ _ image t' _ [x61; x62; x63] 10 (t_payload t') [x32] sample_input Hof
    (sample_serves image) Hd (body_ok_start t')) as (look & E & Hl).
  exists image, t', look. split; [exact Hof|]. split; [exact E|exact Hl].
Defined.
