(* ===== verification/SstScan.v ===== *)
(** Iterating over tables: [sst/table_kernel.rs] ([SstInternalStream],
    [iter_internal_between]), [sst/scan_kernel.rs] (which files a scan reads) and [sample_span_splits] of
    [db_kernel.rs] (how a parallel merge cuts the key space). *)

From S2P Require Import Prelude ErrorKernel KeyKernel BatchKernel WalFormat Visibility StreamMerge MemTable Bloom SstBlock SstFile SstTable SstWrite SstOpen SstRead SstLookup.

Local Open Scope Z_scope.

(** * [scan_kernel.rs] *)

Definition tombstone_reaches_window (t_start t_end : list byte) (start end_ : Bound) : bool :=
  let reaches_start :=
    match start with
    | Unbounded => true
    | Included s | Excluded s => bytes_ltb s t_end
    end in
  let starts_before_end :=
    match end_ with
    | Unbounded => true
    | Included e => bytes_leb t_start e
    | Excluded e => bytes_ltb t_start e
    end in
  reaches_start && starts_before_end.

Definition point_bounds_overlap (smallest largest : option (list byte)) (start end_ : Bound) : bool :=
  match smallest, largest with
  | Some lo, Some hi =>
      let file_before_end :=
        match end_ with
        | Unbounded => true
        | Included e => bytes_leb lo e
        | Excluded e => bytes_ltb lo e
        end in
      let file_after_start :=
        match start with
        | Unbounded => true
        | Included s => bytes_leb s hi
        | Excluded s => bytes_ltb s hi
        end in
      file_before_end && file_after_start
  | _, _ => true
  end.

Definition scan_reads_file (smallest largest : option (list byte)) (tombs : list (list byte * list byte))
    (start end_ : Bound) : bool :=
  if point_bounds_overlap smallest largest start end_ then true
  else existsb (λ t, tombstone_reaches_window t.1 t.2 start end_) tombs.

(** * The merge input stream *)

Record SstInternalStream := mkStream {
  st_block_i : nat;
  st_block : option (list entry);
  st_entry_i : nat;
  st_failed : bool;
  st_hi_excl : option (list byte)
}.

(** [iter_internal_between] *)
Definition iter_internal_between (t : SstTable) (lo hi_excl : option (list byte)) : SstInternalStream :=
  let block_i :=
    match lo with
    | None => 0%nat
    | Some lo => partition_point (λ h, bytes_ltb (h_first h) lo) (t_index t)
    end in
  mkStream block_i None 0 false hi_excl.

Definition iter_internal_streaming (t : SstTable) : SstInternalStream := iter_internal_between t None None.

Section streams.
Context `{CC : Crc32c, CF : !Crc32cFile, LZ : Lz4}.

Definition fail_stream (st : SstInternalStream) : SstInternalStream :=
  mkStream (st_block_i st) (st_block st) (st_entry_i st) true (st_hi_excl st).

(** The entry the current block offers. *)
Definition st_current (st : SstInternalStream) : option entry :=
  block ← st_block st; block !! st_entry_i st.

(** The loop of [next_entry]; [None]: out of fuel, or a panic of a load. *)
Fixpoint stream_loop (fuel : nat) (t : SstTable) (fs : Files) (st : SstInternalStream) (b : ResidentBody)
    : ResidentBody * SstInternalStream * Comp (option entry) :=
  match fuel with
  | O => (b, st, None)
  | S n =>
      match st_current st with
      | Some (k, v) =>
          if match st_hi_excl st with Some hi => bytes_leb hi (user_key k) | None => false end then
            (b, fail_stream st, Some (Ok None))
          else
            (b, mkStream (st_block_i st) (st_block st) (S (st_entry_i st)) false (st_hi_excl st), Some (Ok (Some (k, v))))
      | None =>
          if negb (is_lazy t) then
            match st_block st with
            | Some _ => (b, st, Some (Ok None))
            | None =>
                let '(b, _, r) := materialize_entries t fs b in
                let entries_cloned := match r with Some (Ok es) => es | _ => [] end in
                stream_loop n t fs (mkStream (st_block_i st) (Some entries_cloned) 0 false (st_hi_excl st)) b
            end
          else if (length (t_index t) <=? st_block_i st)%nat then (b, st, Some (Ok None))
          else
            match decode_block t fs (st_block_i st) b with
            | (b, Some (Ok decoded)) =>
                stream_loop n t fs (mkStream (S (st_block_i st)) (Some decoded) 0 false (st_hi_excl st)) b
            | (b, Some (Err e)) => (b, fail_stream st, Some (Err e))
            | (b, None) => (b, st, None)
            end
      end
  end.

(** [next_entry]: a pass without a result consumes a block. *)
Definition next_entry (t : SstTable) (fs : Files) (st : SstInternalStream) (b : ResidentBody)
    : ResidentBody * SstInternalStream * Comp (option entry) :=
  if st_failed st then (b, st, Some (Ok None))
  else stream_loop (S (S (S (length (t_index t) - st_block_i st)))) t fs st b.

(** What a merge reads from the stream: [next_entry] until it ends; [None]
    beyond [n] entries. *)
Fixpoint drain (n : nat) (t : SstTable) (fs : Files) (st : SstInternalStream) (b : ResidentBody)
    : option (Result CoreError (list entry)) :=
  match n with
  | O => None
  | S n =>
      match next_entry t fs st b with
      | (_, _, None) => None
      | (_, _, Some (Err e)) => Some (Err e)
      | (_, _, Some (Ok None)) => Some (Ok [])
      | (b, st, Some (Ok (Some e))) =>
          let! rest := drain n t fs st b in Some (Ok (e :: rest))
      end
  end.
End streams.

(** * Cutting the key space *)

Definition block_first_user_keys (t : SstTable) : list (list byte) := h_first <$> t_index t.

(** [sort_unstable] and [dedup] on byte strings. *)
Fixpoint insert_sorted (k : list byte) (l : list (list byte)) : list (list byte) :=
  match l with
  | [] => [k]
  | x :: l => if bytes_leb k x then k :: x :: l else x :: insert_sorted k l
  end.
Definition sort_keys (l : list (list byte)) : list (list byte) := foldr insert_sorted [] l.
Fixpoint dedup (l : list (list byte)) : list (list byte) :=
  match l with
  | a :: ((b :: _) as l) => if bytes_eqb a b then dedup l else a :: dedup l
  | l => l
  end.

(** [sample_span_splits] *)
Definition sample_span_splits (tables : list SstTable) (parts : nat) : list (list byte) :=
  let keys := dedup (sort_keys (tables ≫= block_first_user_keys)) in
  if (length keys <? parts)%nat then []
  else (λ i, default [] (keys !! Nat.min (length keys * i / parts) (length keys - 1))) <$> seq 1 (parts - 1).

(** The half-open spans of a parallel merge. *)
Fixpoint spans_from (lo : option (list byte)) (splits : list (list byte)) : list (option (list byte) * option (list byte)) :=
  match splits with
  | [] => [(lo, None)]
  | s :: splits => (lo, Some s) :: spans_from (Some s) splits
  end.
Definition merge_spans (splits : list (list byte)) := spans_from None splits.

(** * What the streams yield *)

Definition below (hi : option (list byte)) (e : entry) : bool :=
  match hi with Some hi => bytes_ltb (user_of e) hi | None => true end.
Definition from (lo : option (list byte)) (e : entry) : bool :=
  match lo with Some lo => bytes_leb lo (user_of e) | None => true end.

Fixpoint upto (hi : option (list byte)) (l : list entry) : list entry :=
  match l with
  | [] => []
  | e :: l => if below hi e then e :: upto hi l else []
  end.

Lemma upto_filter hi l : sorted_entries l → upto hi l = filter (λ e, below hi e = true) l.
Proof.
  induction l as [|e l IH]; intros Hs; [done|]. apply sorted_entries_cons in Hs as [Hle Hs]. cbn [upto].
  rewrite filter_cons. destruct (below hi e) eqn:E; [rewrite decide_True by done; by rewrite IH|].
  rewrite decide_False by congruence. rewrite list_filter_nil; [done|]. intros e' Hin Hb.
  unfold below in *. destruct hi as [hi|]; [|done].
  apply bytes_ltb_spec in Hb. apply not_true_iff_false in E. apply E, bytes_ltb_spec.
  eapply bytes_le_lt_trans; [|exact Hb]. by apply ikey_le_user, Hle.
Qed.

Section table_streams.
Context `{CC : Crc32c, CF : !Crc32cFile, LZ : Lz4}.
Context (p : list byte) (es : list entry) (blks : list (list entry)) (t : SstTable) (Ht : table_ok p es blks t).
Context (image : list byte) (fs : Files) (Hfs : files_ok p t image fs).

(** What is left of a stream. *)
Definition rest_of (st : SstInternalStream) : list entry :=
  drop (st_entry_i st) (default [] (st_block st)) ++ concat (drop (st_block_i st) blks).

Lemma not_lazy_empty : is_lazy t = false → blks = [].
Proof using Ht.
  unfold is_lazy, batch_is_empty. rewrite (tk_index_length _ _ _ _ Ht). destruct blks; [done|]. cbn. done.
Qed.

Lemma st_current_rest st : match st_current st with
  | Some e => ∃ l, drop (st_entry_i st) (default [] (st_block st)) = e :: l ∧ l = drop (S (st_entry_i st)) (default [] (st_block st))
  | None => drop (st_entry_i st) (default [] (st_block st)) = []
  end.
Proof.
  unfold st_current. destruct (st_block st) as [blk|]; cbn; [|by rewrite drop_nil].
  destruct (blk !! st_entry_i st) as [e|] eqn:E; [|by apply drop_ge, lookup_ge_None].
  eexists. split; [by apply drop_S|done].
Qed.

Lemma stream_loop_ok fuel st b :
  body_ok p b → st_failed st = false → (length blks - st_block_i st + (if st_block st then 1 else 2) < fuel)%nat →
  match rest_of st with
  | [] => ∃ b' st', stream_loop fuel t fs st b = (b', st', Some (Ok None)) ∧ body_ok p b'
  | e :: l =>
      if below (st_hi_excl st) e then
        ∃ b' st', stream_loop fuel t fs st b = (b', st', Some (Ok (Some e))) ∧ body_ok p b' ∧ st_failed st' = false ∧
          st_hi_excl st' = st_hi_excl st ∧ rest_of st' = l
      else ∃ b' st', stream_loop fuel t fs st b = (b', st', Some (Ok None)) ∧ body_ok p b'
  end.
Proof using Ht Hfs.
  revert st b. induction fuel as [|n IH]; intros st b Hb Hf Hfuel; [lia|]. cbn [stream_loop].
  pose proof (st_current_rest st) as Hc. destruct (st_current st) as [[k v]|].
  - destruct Hc as (l & E & El). unfold rest_of at 1. rewrite E. cbn [app].
    assert (match st_hi_excl st with Some hi => bytes_leb hi (user_key k) | None => false end = negb (below (st_hi_excl st) (k, v))) as ->.
    { unfold below, user_of. cbn. destruct (st_hi_excl st) as [hi|]; [|done]. apply eq_true_iff_eq.
      rewrite negb_true_iff, bytes_leb_spec, <-not_true_iff_false, bytes_ltb_spec. done. }
    destruct (below (st_hi_excl st) (k, v)); cbn [negb]; [|by eexists _, _].
    eexists b, _. split_and!; [done|done|done|done|]. unfold rest_of. cbn. by rewrite <-El.
  - unfold rest_of at 1. rewrite Hc. cbn [app]. destruct (is_lazy t) eqn:Elazy; cbn [negb].
    + rewrite (tk_index_length _ _ _ _ Ht). destruct (Nat.leb_spec (length blks) (st_block_i st)) as [Hge|Hlt].
      { rewrite drop_ge by done. by eexists _, _. }
      destruct (lookup_lt_is_Some_2 blks (st_block_i st) Hlt) as [blk Hblk].
      destruct (decode_stored_block _ _ _ _ Ht _ _ Hfs _ blk b Hblk Hb) as (b1 & -> & Hb1).
      specialize (IH (mkStream (S (st_block_i st)) (Some blk) 0 false (st_hi_excl st)) b1 Hb1 eq_refl).
      cbn [st_block_i st_block st_hi_excl] in IH. rewrite (drop_S _ _ _ Hblk). cbn [concat].
      apply IH. destruct (st_block st); lia.
    + rewrite (not_lazy_empty Elazy), drop_nil. cbn [concat]. destruct (st_block st) as [blk|]; [by eexists _, _|].
      destruct (materialize_ok _ _ _ _ Ht _ _ Hfs b Hb) as (b1 & -> & Hb1).
      assert (es = []) as Ees by (rewrite <-(tk_cat _ _ _ _ Ht), (not_lazy_empty Elazy); done).
      specialize (IH (mkStream (st_block_i st) (Some []) 0 false (st_hi_excl st)) b1 Hb1 eq_refl).
      unfold rest_of in IH. cbn [st_block_i st_block st_hi_excl st_entry_i default from_option id drop app] in IH.
      rewrite (not_lazy_empty Elazy) in IH at 2. rewrite drop_nil in IH. rewrite Ees. apply IH. lia.
Qed.

Lemma drain_ok n st b :
  body_ok p b → st_failed st = false → (length (rest_of st) < n)%nat →
  drain n t fs st b = Some (Ok (upto (st_hi_excl st) (rest_of st))).
Proof using Ht Hfs.
  revert st b. induction n as [|n IH]; intros st b Hb Hf Hn; [lia|]. cbn [drain]. unfold next_entry. rewrite Hf.
  pose proof (stream_loop_ok (S (S (S (length (t_index t) - st_block_i st)))) st b Hb Hf) as Hl.
  rewrite (tk_index_length _ _ _ _ Ht) in Hl |- *. specialize (Hl ltac:(destruct (st_block st); lia)).
  destruct (rest_of st) as [|e l] eqn:Er; [by destruct Hl as (b' & st' & -> & _)|]. cbn [upto].
  destruct (below (st_hi_excl st) e); [|by destruct Hl as (b' & st' & -> & _)].
  destruct Hl as (b' & st' & -> & Hb' & Hf' & Hhi & Hr). rewrite IH; [|done|done|rewrite Hr; cbn in Hn; lia].
  cbn [comp_bind]. by rewrite Hhi, Hr.
Qed.

(** The stream of a span, in terms of blocks. *)
Lemma between_ok lo hi b n :
  body_ok p b → (length es < n)%nat →
  let k := st_block_i (iter_internal_between t lo hi) in
  drain n t fs (iter_internal_between t lo hi) b = Some (Ok (filter (λ e, below hi e = true) (concat (drop k blks)))).
Proof using Ht Hfs.
  intros Hb Hn k. pose proof (tk_sorted _ _ _ _ Ht) as Hs. rewrite <-(tk_cat _ _ _ _ Ht), <-(take_drop k blks), concat_app in Hs, Hn.
  apply sorted_entries_app in Hs as (_ & Hs & _). rewrite length_app in Hn.
  assert (rest_of (iter_internal_between t lo hi) = concat (drop k blks)) as Hr by done.
  rewrite drain_ok; [|done|done|rewrite Hr; lia]. by rewrite Hr, upto_filter.
Qed.

(** Blocks the lower bound skips are those that start below it. *)
Lemma between_skips lo hi i h : t_index t !! i = Some h →
  (i < st_block_i (iter_internal_between t (Some lo) hi))%nat ↔ bytes_lt (h_first h) lo.
Proof using Ht.
  intros Hi. cbn [iter_internal_between st_block_i]. set (P := λ h, bytes_ltb (h_first h) lo).
  destruct (partition_point_spec P (t_index t)) as (_ & Hlt & Hge). split.
  - intros Hk. apply bytes_ltb_spec. by eapply Hlt.
  - intros Hf. destruct (decide (i < partition_point P (t_index t))%nat) as [|Hn]; [done|]. exfalso.
    destruct (lookup_lt_is_Some_2 (t_index t) (partition_point P (t_index t))) as [h' Hh'].
    { pose proof (lookup_lt_Some _ _ _ Hi). lia. }
    specialize (Hge h' Hh'). unfold P in Hge. apply not_true_iff_false in Hge. apply Hge, bytes_ltb_spec.
    eapply bytes_le_lt_trans; [|exact Hf]. eapply (firsts_sorted _ _ _ _ Ht); [exact Hh'|exact Hi|lia].
Qed.

(** Without a straddling block, a span's stream is the span. *)
Lemma between_span lo hi b n :
  body_ok p b → (length es < n)%nat →
  (∀ blk e, blk ∈ blks → e ∈ blk → bytes_lt (first_of blk) lo → bytes_lt (user_of e) lo) →
  drain n t fs (iter_internal_between t (Some lo) hi) b =
    Some (Ok (filter (λ e, from (Some lo) e && below hi e = true) es)).
Proof using Ht Hfs.
  intros Hb Hn Hst. rewrite between_ok by done. set (k := st_block_i _).
  rewrite <-(tk_cat _ _ _ _ Ht) at 1. rewrite <-(take_drop k blks) at 2. rewrite concat_app, filter_app. do 2 f_equal.
  rewrite (list_filter_nil _ (concat (take k blks))); cbn [app].
  - apply list_filter_ext_in. intros e (blk & Hblk & He)%elem_of_concat. rewrite andb_true_iff. split; [|by intros []].
    intros Hbel. split; [|done]. apply list_elem_of_lookup in Hblk as [i Hi]. rewrite lookup_drop in Hi.
    cbn. apply bytes_leb_spec. intros Hlt. destruct (block_index _ _ _ _ Ht _ _ Hi) as [h Hh].
    destruct (index_block _ _ _ _ Ht _ _ Hh) as (blk' & Hi' & _ & Hf). simplify_eq.
    assert (k + i < k)%nat; [|lia]. apply (between_skips lo hi _ h Hh). rewrite Hf.
    eapply bytes_le_lt_trans; [|exact Hlt]. by eapply (first_le _ _ _ _ Ht).
  - intros e (blk & Hblk & He)%elem_of_concat. rewrite andb_true_iff. intros [Hfrom _].
    cbn in Hfrom. apply bytes_leb_spec in Hfrom. apply Hfrom. apply list_elem_of_lookup in Hblk as [i Hi].
    apply lookup_take_Some in Hi as [Hi Hik]. apply (Hst blk e); [by eapply list_elem_of_lookup_2|done|].
    destruct (block_index _ _ _ _ Ht _ _ Hi) as [h Hh]. destruct (index_block _ _ _ _ Ht _ _ Hh) as (blk' & Hi' & _ & Hf).
    simplify_eq. rewrite <-Hf. by apply (between_skips lo hi i h Hh).
Qed.

(** With one, its entries at or above the bound are in neither span. *)
Lemma straddle_lost lo hi b n i blk e :
  body_ok p b → (length es < n)%nat → NoDup es →
  blks !! i = Some blk → e ∈ blk → bytes_lt (first_of blk) lo → ¬ bytes_lt (user_of e) lo →
  ∃ l1 l2, drain n t fs (iter_internal_between t None (Some lo)) b = Some (Ok l1) ∧
    drain n t fs (iter_internal_between t (Some lo) hi) b = Some (Ok l2) ∧ e ∉ l1 ∧ e ∉ l2.
Proof using Ht Hfs.
  intros Hb Hn Hnd Hi He Hf Hlo. eexists _, _. split; [by apply between_ok|]. split; [by apply between_ok|]. split.
  - rewrite list_elem_of_filter. cbn. rewrite bytes_ltb_spec. by intros [? _].
  - rewrite list_elem_of_filter. intros [_ Hin]. set (k := st_block_i _) in *.
    destruct (block_index _ _ _ _ Ht _ _ Hi) as [h Hh]. destruct (index_block _ _ _ _ Ht _ _ Hh) as (blk' & Hi' & _ & Hf').
    simplify_eq. rewrite <-Hf' in Hf. apply (between_skips lo hi i h Hh) in Hf. fold k in Hf.
    rewrite <-(tk_cat _ _ _ _ Ht), <-(take_drop k blks), concat_app in Hnd. apply NoDup_app in Hnd as (_ & Hd & _).
    apply (Hd e); [|done]. apply elem_of_concat. exists blk. split; [|done]. apply list_elem_of_lookup. exists i.
    by apply lookup_take_Some.
Qed.
End table_streams.

Section span_claims.
Context `{CC : Crc32c, CF : !Crc32cFile, LZ : Lz4, LL : !Lz4Laws}.

(** The input stream of a merge yields the table. For a table written or
    reopened, resident or not, the stream a merge reads ends after yielding, in
    order and without error, exactly the entries below its upper bound; and with
    a lower bound exactly the entries of the half-open span, provided no block
    straddles the bound. *)
Theorem stream_yields_table we path es hint sync compress image t fs lo hi b n :
  sst_input we es hint → table_of we path es hint sync compress image t → serves image fs →
  body_ok (img (t_payload t)) b → (length es < n)%nat →
  (∀ l blk e, lo = Some l → blk ∈ cut (block_target (target_override we)) [] es → e ∈ blk →
     bytes_lt (first_of blk) l → bytes_lt (user_of e) l) →
  drain n t fs (iter_internal_between t lo hi) b = Some (Ok (filter (λ e, from lo e && below hi e = true) es)).
Proof using CF LL.
  intros Hin Hof Hsv Hb Hn Hst. destruct (table_of_ok we path es hint sync compress image t fs Hin Hof Hsv) as [Ht Hfs].
  destruct lo as [lo|].
  - eapply between_span; [done|done|done|done|]. intros blk e. by apply Hst.
  - rewrite (between_ok _ _ _ _ Ht _ _ Hfs None hi b n Hb Hn). cbn [st_block_i iter_internal_between].
    by rewrite drop_0, (tk_cat _ _ _ _ Ht).
Qed.

(** C36: a parallel merge loses keys at its split points. A split key that falls
    inside a block of some input table (split keys are first keys of the blocks
    of any of the tables, see the example below) cuts that table's entries
    between the split key and the end of the block out of both spans: neither
    the stream below the split nor the stream from the split yields them. *)
Theorem span_split_drops_key we path es hint sync compress image t fs lo hi b n blk e :
  sst_input we es hint → table_of we path es hint sync compress image t → serves image fs →
  body_ok (img (t_payload t)) b → (length es < n)%nat → NoDup es →
  blk ∈ cut (block_target (target_override we)) [] es → e ∈ blk →
  bytes_lt (first_of blk) lo → ¬ bytes_lt (user_of e) lo →
  ∃ l1 l2, drain n t fs (iter_internal_between t None (Some lo)) b = Some (Ok l1) ∧
    drain n t fs (iter_internal_between t (Some lo) hi) b = Some (Ok l2) ∧ e ∈ es ∧ e ∉ l1 ∧ e ∉ l2.
Proof using CF LL.
  intros Hin Hof Hsv Hb Hn Hnd (i & Hi)%list_elem_of_lookup He Hf Hlo.
  destruct (table_of_ok we path es hint sync compress image t fs Hin Hof Hsv) as [Ht Hfs].
  destruct (straddle_lost _ _ _ _ Ht _ _ Hfs lo hi b n i blk e Hb Hn Hnd Hi He Hf Hlo) as (l1 & l2 & E1 & E2 & H1 & H2).
  exists l1, l2. split_and!; try done. rewrite <-(tk_cat _ _ _ _ Ht). apply elem_of_concat. exists blk.
  split; [by eapply list_elem_of_lookup_2|done].
Qed.
End span_claims.

(** Two tables, one with blocks from "a" and "b", one with a block from "ab":
    the split of a merge in two parts is "ab", inside the first table's block. *)
Example split_inside_block t1 t2 :
  block_first_user_keys t1 = [[x61]; [x62]] → block_first_user_keys t2 = [[x61; x62]] →
  merge_spans (sample_span_splits [t1; t2] 2) = [(None, Some [x61; x62]); (Some [x61; x62], None)].
Proof. intros E1 E2. unfold sample_span_splits, mbind. cbn. rewrite E1, E2. vm_compute. reflexivity. Qed.

#[local] Existing Instance poly_crc.
#[local] Existing Instance poly_file.
#[local] Existing Instance store_lz4.
#[local] Existing Instance store_laws.

Lemma sample_table : ∃ image t, table_of sample_env "a.sst" sample_entries 3 true true image t.
Proof.
  destruct sample_input as [He Hs Hn Hh Hf].
  destruct (write_open_ok sample_env "a.sst" sample_entries 3 true true He Hs Hn Hh Hf) as (image & t & t' & Ew & Eo & _).
  exists image, t'. exists t. auto.
Qed.

Lemma stream_yields_table_witness :
  ∃ image t, drain 6 t (mkFiles (Ok image) None) (iter_internal_between t (Some [x62]) None) (t_payload t) =
    Some (Ok [(mkIKey [x62] 6 Value, [x33])]).
Proof.
  destruct sample_table as (image & t & Hof). exists image, t.
  rewrite (stream_yields_table _ _ _ _ _ _ image t _ (Some [x62]) None (t_payload t) 6 sample_input Hof
    (sample_serves image) (body_ok_start t)).
  - vm_compute. reflexivity.
  - vm_compute. lia.
  - intros l blk e [= <-]. replace (cut _ [] sample_entries) with [take 4 sample_entries; drop 4 sample_entries] by (vm_compute; reflexivity).
    intros [->|[->|Hin%not_elem_of_nil]%elem_of_cons]%elem_of_cons; [| |done].
    + unfold sample_entries. cbn [take]. intros He _.
      repeat (apply elem_of_cons in He as [->|He]; [vm_compute; reflexivity|]). by apply not_elem_of_nil in He.
    + intros _ Hlt. vm_compute in Hlt. discriminate Hlt.
Defined.

Lemma span_split_drops_key_witness :
  ∃ image t l1 l2,
    drain 6 t (mkFiles (Ok image) None) (iter_internal_between t None (Some [x61; x62])) (t_payload t) = Some (Ok l1) ∧
    drain 6 t (mkFiles (Ok image) None) (iter_internal_between t (Some [x61; x62]) None) (t_payload t) = Some (Ok l2) ∧
    (mkIKey [x61; x62; x63] 4 RangeDeletion, [x63]) ∈ sample_entries ∧
    (mkIKey [x61; x62; x63] 4 RangeDeletion, [x63]) ∉ l1 ∧ (mkIKey [x61; x62; x63] 4 RangeDeletion, [x63]) ∉ l2.
Proof.
  destruct sample_table as (image & t & Hof). exists image, t.
  apply (span_split_drops_key sample_env "a.sst" sample_entries 3 true true image t _ [x61; x62] None (t_payload t) 6
    (take 4 sample_entries)); [apply sample_input|exact Hof|apply sample_serves|apply body_ok_start|vm_compute; lia| | | | |].
  - apply (NoDup_fmap_1 fst). apply (bool_decide_unpack (NoDup _) (dec := NoDup_dec _)). vm_compute. exact I.
  - replace (cut _ [] sample_entries) with [take 4 sample_entries; drop 4 sample_entries] by (vm_compute; reflexivity). left.
  - right. right. left.
  - vm_compute. reflexivity.
  - vm_compute. discriminate.
Defined.
