(* ===== verification/SstRange.v ===== *)
(** Range collection from a table ([sst/table_kernel.rs]:
    [blocks_overlapping_range], [entries_in_user_range_capped]) and its
    equivalence with filtering the table's entries. *)

From S2P Require Import Prelude SliceOps ErrorKernel KeyKernel BatchKernel WalFormat Visibility Bloom SstBlock SstFile SstTable SstWrite SstOpen SstRead SstLookup SstScan.

Local Open Scope Z_scope.

(** * The blocks of a range *)

Fixpoint overlap_loop (largest : option (list byte)) (start end_ : Bound) (hs : list BlockHandle) (i : nat) : list nat :=
  match hs with
  | [] => []
  | h :: hs =>
      if negb (user_key_in_range (h_first h) Unbounded end_) then []
      else
        let ends_after_start :=
          match start with
          | Unbounded => true
          | Included s =>
              match hs with
              | n :: _ => bytes_leb s (h_first n)
              | [] => from_option (bytes_leb s) true largest
              end
          | Excluded s =>
              match hs with
              | n :: _ => bytes_ltb s (h_first n)
              | [] => from_option (bytes_ltb s) true largest
              end
          end in
        let rest := overlap_loop largest start end_ hs (S i) in
        if ends_after_start then i :: rest else rest
  end.

Definition start_block (t : SstTable) (start : Bound) : nat :=
  match start with
  | Unbounded => 0
  | Included s | Excluded s => partition_point (λ h, bytes_ltb (h_first h) s) (t_index t) - 1
  end.

Definition blocks_overlapping_range (t : SstTable) (start end_ : Bound) : list nat :=
  if batch_is_empty (length (t_index t)) then []
  else overlap_loop (t_largest_user_key t) start end_ (drop (start_block t start) (t_index t)) (start_block t start).

(** * Collection *)

(** The locals of the loop. *)
Record Cap := mkCap { cp_out : list entry; cp_users : nat; cp_last : option (list byte); cp_stop : bool }.
Definition cap_push (c : Cap) (e : entry) : Cap := mkCap (cp_out c ++ [e]) (cp_users c) (cp_last c) (cp_stop c).

Fixpoint push_points (max_user_keys : option nat) (start end_ : Bound) (block : list entry) (c : Cap) : Cap :=
  match block with
  | [] => c
  | e :: block =>
      if bool_decide (kind e.1 = RangeDeletion) then push_points max_user_keys start end_ block c
      else if user_key_in_range (user_key e.1) start end_ then
        match max_user_keys with
        | None => push_points max_user_keys start end_ block (cap_push c e)
        | Some max =>
            if bool_decide (cp_last c = Some (user_key e.1)) then push_points max_user_keys start end_ block (cap_push c e)
            else if (max <=? cp_users c)%nat then mkCap (cp_out c) (cp_users c) (cp_last c) true
            else push_points max_user_keys start end_ block
                   (cap_push (mkCap (cp_out c) (S (cp_users c)) (Some (user_key e.1)) (cp_stop c)) e)
        end
      else push_points max_user_keys start end_ block c
  end.

Section ranges.
Context `{CC : Crc32c, CF : !Crc32cFile, LZ : Lz4}.

(** A block that does not load is skipped. *)
Fixpoint collect_blocks (t : SstTable) (fs : Files) (max_user_keys : option nat) (start end_ : Bound) (bis : list nat) (c : Cap)
    (b : ResidentBody) : ResidentBody * option Cap :=
  match bis with
  | [] => (b, Some c)
  | bi :: bis =>
      if cp_stop c then (b, Some c)
      else
        match decode_block t fs bi b with
        | (b, None) => (b, None)
        | (b, Some (Err _)) => collect_blocks t fs max_user_keys start end_ bis c b
        | (b, Some (Ok block)) => collect_blocks t fs max_user_keys start end_ bis (push_points max_user_keys start end_ block c) b
        end
  end.

Definition ikey_cmp_entry (a b : entry) : comparison := ikey_cmp a.1 b.1.

Definition entries_in_user_range_capped (t : SstTable) (fs : Files) (start end_ : Bound) (max_user_keys : option nat)
    (b : ResidentBody) : ResidentBody * option (list entry) :=
  let tomb_pairs := (λ e : entry, (user_key e.1, e.2)) <$> t_range_tombstones t in
  if negb (scan_reads_file (t_smallest_user_key t) (t_largest_user_key t) tomb_pairs start end_) then (b, Some [])
  else if is_lazy t then
    let '(b, c) := collect_blocks t fs max_user_keys start end_ (blocks_overlapping_range t start end_)
                     (mkCap (t_range_tombstones t) 0 None false) b in
    (b, c ← c; Some (sort_by ikey_cmp_entry (cp_out c)))
  else
    let '(b, _, r) := materialize_entries t fs b in
    (b, r ← r;
        let all := match r with Ok es => es | Err _ => [] end in
        Some (filter (λ e : entry, kind e.1 = RangeDeletion ∨ user_key_in_range (user_key e.1) start end_ = true) all)).

Definition entries_in_user_range (t : SstTable) (fs : Files) (start end_ : Bound) (b : ResidentBody)
    : ResidentBody * option (list entry) :=
  entries_in_user_range_capped t fs start end_ None b.
End ranges.

(** * Lemmas *)

Definition in_window (start end_ : Bound) (e : entry) : Prop := kind e.1 ≠ RangeDeletion ∧ user_key_in_range (user_key e.1) start end_ = true.
#[global] Instance in_window_dec start end_ e : Decision (in_window start end_ e) := _.

(** [start] lets a block through whose next block, or last key, is [hi]. *)
Definition reaches (start : Bound) (hi : option (list byte)) : bool :=
  match start with
  | Unbounded => true
  | Included s => from_option (bytes_leb s) true hi
  | Excluded s => from_option (bytes_ltb s) true hi
  end.

Lemma overlap_loop_cons largest start end_ h hs i :
  overlap_loop largest start end_ (h :: hs) i =
    if user_key_in_range (h_first h) Unbounded end_ then
      (if reaches start (match hs with n :: _ => Some (h_first n) | [] => largest end) then [i] else []) ++
      overlap_loop largest start end_ hs (S i)
    else [].
Proof.
  cbn [overlap_loop]. destruct (user_key_in_range _ _ _); [|done]. cbn [negb]. unfold reaches.
  destruct start; try done; destruct hs; cbn; by case_match.
Qed.

Lemma overlap_loop_range largest start end_ hs i :
  StronglySorted lt (overlap_loop largest start end_ hs i) ∧
  ∀ j, j ∈ overlap_loop largest start end_ hs i → (i ≤ j < i + length hs)%nat.
Proof.
  revert i. induction hs as [|h hs IH]; intros i; [split; [constructor|by intros j Hj%not_elem_of_nil]|].
  rewrite overlap_loop_cons. destruct (user_key_in_range _ _ _); [|split; [constructor|by intros j Hj%not_elem_of_nil]].
  destruct (IH (S i)) as [Hs Hr]. cbn [length]. destruct (reaches _ _); cbn [app].
  - split; [constructor; [done|apply Forall_forall; intros j Hj%Hr; lia]|]. intros j [->|Hj%Hr]%elem_of_cons; lia.
  - split; [done|]. intros j Hj%Hr. lia.
Qed.

Lemma overlap_loop_covers largest start end_ hs i j :
  (j < length hs)%nat → (∀ k h, (k ≤ j)%nat → hs !! k = Some h → user_key_in_range (h_first h) Unbounded end_ = true) →
  reaches start (match hs !! S j with Some n => Some (h_first n) | None => largest end) = true →
  (i + j)%nat ∈ overlap_loop largest start end_ hs i.
Proof.
  revert i j. induction hs as [|h hs IH]; intros i j Hj Hk Hr; [cbn in Hj; lia|]. rewrite overlap_loop_cons, (Hk 0%nat h) by (done || lia).
  apply elem_of_app. destruct j as [|j].
  - left. rewrite Nat.add_0_r. change ((h :: hs) !! 1%nat) with (hs !! 0%nat) in Hr.
    assert (match hs with n :: _ => Some (h_first n) | [] => largest end = match hs !! 0%nat with Some n => Some (h_first n) | None => largest end) as -> by (by destruct hs).
    rewrite Hr. left.
  - right. replace (i + S j)%nat with (S i + j)%nat by lia. apply IH; [cbn in Hj; lia| |done].
    intros k h' Hkj Hk'. apply (Hk (S k)); [lia|done].
Qed.

(** Sorted block numbers that leave out only blocks without an entry of [P]. *)
Lemma selected_blocks {A} (P : A → Prop) `{∀ x, Decision (P x)} (blks : list (list A)) bis :
  StronglySorted lt bis → Forall (λ i, (i < length blks)%nat) bis →
  (∀ i blk x, blks !! i = Some blk → x ∈ blk → P x → i ∈ bis) →
  filter P (concat ((λ i, default [] (blks !! i)) <$> bis)) = filter P (concat blks).
Proof.
  revert bis. induction blks as [|blk blks IH]; intros bis Hs Hlt Hc.
  { destruct bis as [|i bis]; [done|]. apply Forall_cons in Hlt as [Hlt _]. cbn in Hlt. lia. }
  assert (∀ bis', StronglySorted lt bis' → (∀ i, i ∈ bis' → (0 < i)%nat) → StronglySorted lt (pred <$> bis')) as Hpred.
  { clear. induction 1 as [|i l Hl IH Hi]; [constructor|]. intros Hpos. cbn. constructor; [apply IH; set_solver|].
    apply Forall_fmap. apply Forall_forall. intros j Hj. pose proof (proj1 (Forall_forall _ _) Hi j Hj). specialize (Hpos i ltac:(left)). destruct i as [|i], j as [|j]; cbn in *; try lia. }
  assert (∀ bis', StronglySorted lt bis' → Forall (λ i, (i < S (length blks))%nat) bis' → (∀ i, i ∈ bis' → (0 < i)%nat) →
    (∀ i b x, blks !! i = Some b → x ∈ b → P x → S i ∈ bis') →
    filter P (concat ((λ i, default [] ((blk :: blks) !! i)) <$> bis')) = filter P (concat blks)) as Hrest.
  { intros bis' Hs' Hlt' Hpos Hc'. rewrite <-(IH (pred <$> bis')); [|by apply Hpred| |].
    - f_equal. f_equal. rewrite <-list_fmap_compose. apply list_fmap_ext. intros k i Hk. apply list_elem_of_lookup_2, Hpos in Hk. by destruct i; [lia|].
    - apply Forall_fmap, Forall_forall. intros i Hi. pose proof (proj1 (Forall_forall _ _) Hlt' i Hi). specialize (Hpos i Hi). destruct i; cbn in *; lia.
    - intros i b x Hb Hx HP. change i with (pred (S i)). apply list_elem_of_fmap_2. by eapply Hc'. }
  cbn [concat]. rewrite filter_app. destruct bis as [|[|i] bis].
  - rewrite (list_filter_nil P blk); [|intros x Hx HP; by apply (Hc 0%nat blk x eq_refl Hx), not_elem_of_nil in HP].
    cbn. rewrite <-(Hrest []); [done|constructor|constructor|by intros i Hi%not_elem_of_nil|]. intros i b x Hb Hx HP. by apply (Hc (S i) b x).
  - cbn. rewrite filter_app. f_equal. apply StronglySorted_inv in Hs as [Hs Hi]. apply Hrest; [done|by apply Forall_cons in Hlt as [_ ?]| |].
    + intros j Hj. apply (proj1 (Forall_forall _ _) Hi j Hj).
    + intros j b x Hb Hx HP. specialize (Hc (S j) b x Hb Hx HP). by apply elem_of_cons in Hc as [?|?].
  - rewrite (list_filter_nil P blk).
    + apply Hrest; [done|done| |].
      * intros j Hj. apply elem_of_cons in Hj as [->|Hj]; [lia|]. apply StronglySorted_inv in Hs as [_ Hi]. pose proof (proj1 (Forall_forall _ _) Hi j Hj). lia.
      * intros j b x Hb Hx HP. by apply (Hc (S j) b x).
    + intros x Hx HP. specialize (Hc 0%nat blk x eq_refl Hx HP). apply elem_of_cons in Hc as [?|Hc]; [done|].
      apply StronglySorted_inv in Hs as [_ Hi]. pose proof (proj1 (Forall_forall _ _) Hi 0%nat Hc). lia.
Qed.

(** Without a cap the loop keeps the points of the window. *)
Lemma push_points_all start end_ block c :
  push_points None start end_ block c = mkCap (cp_out c ++ filter (in_window start end_) block) (cp_users c) (cp_last c) (cp_stop c).
Proof.
  revert c. induction block as [|e block IH]; intros c; cbn [push_points]; [destruct c; cbn; by rewrite app_nil_r|].
  rewrite filter_cons. case_decide as Hw.
  - destruct Hw as [Hk Hu]. rewrite bool_decide_eq_false_2 by done. rewrite Hu, IH. cbn. by rewrite <-app_assoc.
  - destruct (bool_decide_reflect (kind e.1 = RangeDeletion)) as [|Hk]; [apply IH|].
    destruct (user_key_in_range _ _ _) eqn:Eu; [by destruct Hw|apply IH].
Qed.

Section range_table.
Context `{CC : Crc32c, CF : !Crc32cFile, LZ : Lz4, LL : !Lz4Laws}.
Context (p : list byte) (es : list entry) (blks : list (list entry)) (t : SstTable) (Ht : table_ok p es blks t).
Context (image : list byte) (fs : Files) (Hfs : files_ok p t image fs).

Lemma in_range_end k start end_ : user_key_in_range k start end_ = true → user_key_in_range k Unbounded end_ = true.
Proof. unfold user_key_in_range. by intros [_ ?]%andb_true_iff. Qed.

Lemma in_range_end_le a b end_ : ¬ bytes_lt b a → user_key_in_range b Unbounded end_ = true → user_key_in_range a Unbounded end_ = true.
Proof.
  intros Hle. unfold user_key_in_range. cbn. destruct end_ as [|e|e]; [done|rewrite !bytes_leb_spec|rewrite !bytes_ltb_spec].
  - intros H Hlt. apply H. by eapply bytes_lt_le_trans.
  - intros H. by eapply bytes_le_lt_trans.
Qed.

Lemma in_range_reaches k start end_ hi : user_key_in_range k start end_ = true → (∀ h, hi = Some h → ¬ bytes_lt h k) → reaches start hi = true.
Proof.
  unfold user_key_in_range, reaches. intros [Hs _]%andb_true_iff Hle. destruct start as [|s|s]; [done|..]; destruct hi as [h|]; try done; cbn; specialize (Hle h eq_refl).
  - apply bytes_leb_spec. apply bytes_leb_spec in Hs. intros Hlt. apply Hs. by eapply bytes_le_lt_trans.
  - apply bytes_ltb_spec. apply bytes_ltb_spec in Hs. by eapply bytes_lt_le_trans.
Qed.

(** No block with an entry of the window is left out. *)
Lemma overlapping_covers start end_ i blk e : blks !! i = Some blk → e ∈ blk → user_key_in_range (user_of e) start end_ = true →
  i ∈ blocks_overlapping_range t start end_.
Proof using Ht.
  intros Hi He Hr. destruct (block_index _ _ _ _ Ht i blk Hi) as [h Hh]. pose proof (lookup_lt_Some _ _ _ Hh) as Hlt.
  unfold blocks_overlapping_range, batch_is_empty. rewrite (proj2 (Nat.eqb_neq _ 0)) by lia.
  assert (start_block t start ≤ i)%nat as Hst.
  { assert (∀ s, ¬ bytes_lt (user_of e) s → (partition_point (λ h, bytes_ltb (h_first h) s) (t_index t) - 1 ≤ i)%nat) as Hs.
    { intros s Hs. set (P := λ h, bytes_ltb (h_first h) s). destruct (partition_point_spec P (t_index t)) as (Hl & Hb & _).
      destruct (decide (S i < partition_point P (t_index t))%nat) as [Hp|]; [exfalso|lia].
      destruct (lookup_lt_is_Some_2 (t_index t) (S i) ltac:(lia)) as [h' Hh']. specialize (Hb (S i) h' Hp Hh'). apply bytes_ltb_spec in Hb.
      apply (first_later _ _ _ _ Ht i (S i) blk h' e Hi Hh' ltac:(lia) He).
      destruct (bytes_trichotomy (h_first h') (user_of e)) as [?|[E|Hgt]]; [done|by rewrite <-E in Hs|]. exfalso. apply Hs. by etrans. }
    unfold user_key_in_range in Hr. apply andb_true_iff in Hr as [Hr _]. unfold start_block. destruct start as [|s|s]; [lia|..]; apply Hs.
    - by apply bytes_leb_spec.
    - apply bytes_ltb_spec in Hr. intros Hc. apply (irreflexivity bytes_lt s). by etrans. }
  set (a := start_block t start) in *. replace i with (a + (i - a))%nat by lia. apply overlap_loop_covers.
  - rewrite length_drop. lia.
  - intros k h' Hk Hh'. rewrite lookup_drop in Hh'. apply (in_range_end_le _ (user_of e)); [|by eapply in_range_end].
    intros Hc. pose proof (firsts_sorted _ _ _ _ Ht _ _ _ _ Hh' Hh ltac:(lia)) as Hf.
    destruct (index_block _ _ _ _ Ht i h Hh) as (b' & Hb' & _ & Ef). rewrite Hi in Hb'. injection Hb' as <-.
    apply (first_le _ _ _ _ Ht i blk e Hi He). rewrite <-Ef. by eapply bytes_lt_le_trans.
  - apply (in_range_reaches (user_of e) start end_); [done|]. intros hi. rewrite lookup_drop. replace (a + S (i - a))%nat with (S i) by lia.
    destruct (t_index t !! S i) as [n|] eqn:En.
    + intros [= <-]. apply (first_later _ _ _ _ Ht i (S i) blk n e Hi En ltac:(lia) He).
    + intros E. pose proof (tk_largest _ _ _ _ Ht) as Hlg. rewrite E in Hlg. apply Hlg. rewrite <-(tk_cat _ _ _ _ Ht). apply elem_of_concat.
      exists blk. split; [by eapply list_elem_of_lookup_2|done].
Qed.

Lemma collect_blocks_ok start end_ bis c b : Forall (λ i, (i < length blks)%nat) bis → cp_stop c = false → body_ok p b →
  ∃ b', collect_blocks t fs None start end_ bis c b =
      (b', Some (mkCap (cp_out c ++ filter (in_window start end_) (concat ((λ i, default [] (blks !! i)) <$> bis))) (cp_users c) (cp_last c) false)) ∧
    body_ok p b'.
Proof using Ht Hfs.
  intros Hbis. revert c b. induction Hbis as [|i bis Hi _ IH]; intros c b Hst Hb; cbn [collect_blocks fmap list_fmap concat].
  { exists b. split; [|done]. destruct c. cbn in *. by rewrite app_nil_r, Hst. }
  rewrite Hst. destruct (lookup_lt_is_Some_2 blks i Hi) as [blk Hblk].
  destruct (decode_stored_block _ _ _ _ Ht _ _ Hfs i blk b Hblk Hb) as (b1 & -> & Hb1).
  destruct (IH (push_points None start end_ blk c) b1) as (b' & E & Hb'); [by rewrite push_points_all|done|].
  exists b'. split; [|done]. rewrite E, push_points_all, Hblk. cbn. by rewrite filter_app, app_assoc.
Qed.

Definition keeps (start end_ : Bound) (e : entry) : Prop := kind e.1 = RangeDeletion ∨ user_key_in_range (user_key e.1) start end_ = true.
#[local] Instance keeps_dec start end_ e : Decision (keeps start end_ e) := _.

Lemma keeps_perm start end_ l : filter (keeps start end_) l ≡ₚ range_dels l ++ filter (in_window start end_) l.
Proof.
  induction l as [|e l IH]; [done|]. unfold range_dels in *. rewrite !filter_cons.
  repeat case_decide; unfold keeps, in_window in *; try (exfalso; tauto); rewrite IH; try done. apply Permutation_middle.
Qed.

Lemma ikey_le_cmp a b : ikey_le a b ↔ ikey_cmp a b ≠ Gt.
Proof. unfold ikey_le, ikey_lt. rewrite (ikey_cmp_antisym a b). by destruct (ikey_cmp a b). Qed.

Lemma sort_keeps start end_ l : sorted_entries l → distinct_keys l →
  sort_by ikey_cmp_entry (range_dels l ++ filter (in_window start end_) l) = filter (keeps start end_) l.
Proof.
  intros Hs Hd. assert (StronglySorted (not_after ikey_cmp_entry) (filter (keeps start end_) l)) as Hk.
  { apply (sorted_entries_filter (keeps start end_)) in Hs. unfold sorted_entries in Hs. revert Hs. generalize (filter (keeps start end_) l).
    intros l'. induction l' as [|e l' IH]; [constructor|]. cbn. intros [Hs He]%StronglySorted_inv. constructor; [by apply IH|].
    apply Forall_forall. intros e' He'. assert (ikey_le e.1 e'.1) as Hle by (apply (proj1 (Forall_forall _ _) He); by apply list_elem_of_fmap_2).
    by apply ikey_le_cmp. }
  apply (StronglySorted_unique_strong (not_after ikey_cmp_entry)); [|apply sort_by_sorted| |].
  - intros x y Hx Hy Hxy Hyx. rewrite sort_by_perm, <-keeps_perm in Hx. apply list_elem_of_filter in Hx as [_ Hx], Hy as [_ Hy].
    apply Hd; [done|done|]. apply ikey_cmp_eq. unfold not_after, ikey_cmp_entry in *. rewrite ikey_cmp_antisym in Hyx. by destruct (ikey_cmp x.1 y.1).
  - intros a b. apply ikey_cmp_antisym.
  - intros a b c Hab%ikey_le_cmp Hbc%ikey_le_cmp. apply ikey_le_cmp. by eapply ikey_le_trans.
  - done.
  - rewrite sort_by_perm. by rewrite keeps_perm.
Qed.

Lemma entries_in_user_range_ok start end_ b : distinct_keys es → body_ok p b →
  ∃ b', entries_in_user_range t fs start end_ b =
      (b', Some (if scan_reads_file (t_smallest_user_key t) (t_largest_user_key t)
                      ((λ e : entry, (user_key e.1, e.2)) <$> t_range_tombstones t) start end_
                 then filter (keeps start end_) es else [])) ∧ body_ok p b'.
Proof using Ht Hfs.
  intros Hd Hb. unfold entries_in_user_range, entries_in_user_range_capped. destruct (scan_reads_file _ _ _ _ _); cbn [negb]; [|by exists b].
  destruct (is_lazy t).
  - destruct (overlap_loop_range (t_largest_user_key t) start end_ (drop (start_block t start) (t_index t)) (start_block t start)) as [Hs Hr].
    assert (StronglySorted lt (blocks_overlapping_range t start end_) ∧ Forall (λ i, (i < length blks)%nat) (blocks_overlapping_range t start end_)) as [Hs' Hv].
    { unfold blocks_overlapping_range. destruct (batch_is_empty _); [split; constructor|]. split; [done|]. apply Forall_forall. intros i Hi%Hr.
      rewrite length_drop, (tk_index_length _ _ _ _ Ht) in Hi. lia. }
    destruct (collect_blocks_ok start end_ _ (mkCap (t_range_tombstones t) 0 None false) b Hv eq_refl Hb) as (b' & -> & Hb').
    exists b'. split; [|done]. cbn [mbind option_bind cp_out]. do 2 f_equal. rewrite selected_blocks; [|done|done|].
    + by rewrite (tk_cat _ _ _ _ Ht), (tk_rts _ _ _ _ Ht), sort_keeps by (done || apply (tk_sorted _ _ _ _ Ht)).
    + intros i blk e Hi He [_ Hu]. by eapply overlapping_covers.
  - destruct (materialize_ok _ _ _ _ Ht _ _ Hfs b Hb) as (b' & -> & Hb'). by exists b'.
Qed.

(** A file that is not read has no key in the window. *)
Lemma bounds_miss start end_ e : point_bounds_overlap (t_smallest_user_key t) (t_largest_user_key t) start end_ = false → e ∈ es →
  user_key_in_range (user_of e) start end_ = false.
Proof using Ht.
  intros Hno He. apply not_true_iff_false. intros Hr. apply not_true_iff_false in Hno. apply Hno. unfold point_bounds_overlap.
  pose proof (tk_smallest _ _ _ _ Ht) as Hlo. pose proof (tk_largest _ _ _ _ Ht) as Hhi. pose proof (tk_sorted _ _ _ _ Ht) as Hs.
  destruct es as [|x l]; [by apply not_elem_of_nil in He|]. rewrite Hlo. cbn. destruct (t_largest_user_key t) as [hi|]; [|done].
  apply andb_true_iff. split.
  - apply (in_range_end_le (user_of x) (user_of e)); [|by eapply in_range_end]. apply sorted_entries_cons in Hs as [Hs _].
    apply elem_of_cons in He as [->|He]; [apply (irreflexivity bytes_lt)|]. by apply ikey_le_user, Hs.
  - change (reaches start (Some hi) = true). eapply in_range_reaches; [exact Hr|]. intros h [= <-]. by apply Hhi.
Qed.
End range_table.

Lemma keeps_reads es start end_ snap k v : user_key_in_range k start end_ = true →
  reads (filter (keeps start end_) es) snap k v ↔ reads es snap k v.
Proof.
  intros Hk. assert (∀ e, candidate (filter (keeps start end_) es) snap k e ↔ candidate es snap k e) as Hc.
  { intros e. unfold candidate. rewrite list_elem_of_filter. split; [naive_solver|]. intros (He & Hu & Hkd & Hs). split_and!; try done. right. by rewrite Hu. }
  assert (∀ s, hidden (filter (keeps start end_) es) snap k s ↔ hidden es snap k s) as Hh.
  { intros s. unfold hidden. split; intros (rk & rv & He & Hkd & H); exists rk, rv; (split; [|done]).
    - by apply list_elem_of_filter in He as [_ ?].
    - apply list_elem_of_filter. split; [by left|done]. }
  unfold reads. setoid_rewrite Hc. by setoid_rewrite Hh.
Qed.

Section range_claims.
Context `{CC : Crc32c, CF : !Crc32cFile, LZ : Lz4, LL : !Lz4Laws}.

(** C26: collecting a range from a table reads the range. For a table written or
    reopened, resident or not, and any bounds, [entries_in_user_range] (file
    bounds, binary search of the index, block window, checksums, sort) returns
    the point entries of the window exactly as they stand in the table, and a
    visible range read of what it returns, at any snapshot, is the visible range
    read of the whole table: range tombstones that start outside the window are
    kept, and a file that is skipped has nothing to add. *)
Theorem range_collect_reads we path es hint sync compress image t fs start end_ b snap :
  sst_input we es hint → table_of we path es hint sync compress image t → serves image fs →
  distinct_keys es → body_ok (img (t_payload t)) b →
  ∃ b' out, entries_in_user_range t fs start end_ b = (b', Some out) ∧ body_ok (img (t_payload t)) b' ∧
    filter (in_window start end_) out = filter (in_window start end_) es ∧
    visible_range out snap start end_ = visible_range es snap start end_.
Proof using CF LL.
  intros Hi Hof Hsv Hd Hb. destruct (table_of_ok we path es hint sync compress image t fs Hi Hof Hsv) as [Ht Hfs].
  destruct (entries_in_user_range_ok _ _ _ _ Ht _ _ Hfs start end_ b Hd Hb) as (b' & -> & Hb'). eexists b', _. split; [done|]. split; [done|].
  assert (coherent es) as Hc by (intros k v v' Hv Hv'; specialize (Hd _ _ Hv Hv' eq_refl); by injection Hd).
  destruct (scan_reads_file _ _ _ _ _) eqn:Er.
  - split.
    + rewrite list_filter_filter_l; [done|]. intros e [_ He]. by right.
    + eapply (range_result_unique es snap start end_); [|by apply visible_range_result].
      destruct (visible_range_result (filter (keeps start end_) es) snap start end_) as [[Hs Hm] _].
      { intros k v v' Hv%list_elem_of_filter Hv'%list_elem_of_filter. destruct Hv, Hv'. by eapply Hc. }
      split; [done|]. intros k v. rewrite Hm. split; intros [Hk Hr]; (split; [done|]); by apply (keeps_reads es start end_ snap k v Hk).
  - unfold scan_reads_file in Er. destruct (point_bounds_overlap _ _ _ _) eqn:Eb; [done|].
    assert (∀ e, e ∈ es → user_key_in_range (user_of e) start end_ = false) as Hno by (intros e He; by eapply bounds_miss).
    split.
    + symmetry. apply list_filter_nil. intros e He [_ Hu]. specialize (Hno e He). unfold user_of in Hno. congruence.
    + eapply (range_result_unique es snap start end_); [|by apply visible_range_result]. split; [vm_compute; constructor|]. intros k v. split.
      * intros Hin. by apply not_elem_of_nil in Hin.
      * intros [Hk (e & (He & Hu & _) & _)]. specialize (Hno e He). unfold user_of in Hno. congruence.
Qed.
End range_claims.

#[local] Existing Instance poly_crc.
#[local] Existing Instance poly_file.
#[local] Existing Instance store_lz4.
#[local] Existing Instance store_laws.

Lemma sample_keys_distinct : distinct_keys sample_entries.
Proof.
  intros e e' He He' E. unfold sample_entries in He, He'.
  repeat (apply elem_of_cons in He as [->|He]; [repeat (apply elem_of_cons in He' as [->|He']; [first [reflexivity|discriminate E]|]); by apply not_elem_of_nil in He'|]).
  by apply not_elem_of_nil in He.
Qed.

(** From [b], behind the range tombstone's start. *)
Lemma range_collect_reads_witness :
  ∃ image t b' out, table_of sample_env "a.sst" sample_entries 3 true true image t ∧
    entries_in_user_range t (mkFiles (Ok image) None) (Included [x62]) Unbounded (t_payload t) = (b', Some out) ∧
    visible_range out 10 (Included [x62]) Unbounded = visible_range sample_entries 10 (Included [x62]) Unbounded.
Proof.
  destruct sample_input as [He Hs Hn Hh Hf].
  destruct (write_open_ok sample_env "a.sst" sample_entries 3 true true He Hs Hn Hh Hf) as (image & t & t' & Ew & Eo & _).
  assert (table_of sample_env "a.sst" sample_entries 3 true true image t') as Hof by (exists t; auto).
  destruct (range_collect_reads _ _ _ _ _ _ image t' (mkFiles (Ok image) None) (Included [x62]) Unbounded (t_payload t') 10 sample_input Hof
    (sample_serves image) sample_keys_distinct (body_ok_start t')) as (b' & out & E & _ & _ & Hv).
  exists image, t', b', out. split; [exact Hof|]. split; [exact E|exact Hv].
Defined.
