(* ===== verification/TableMerge.v ===== *)
(** Merging tables: [db_kernel.rs], [write_merged_tables_span] and
    [write_merged_tables], the body of every compaction. The tables are read as
    streams, merged, collected, optionally filtered, and written out again in
    chunks cut at user keys; each chunk is written under a temporary name and
    renamed.

    A directory maps file names (a number and whether the name is the temporary
    one) to contents. What the environment answers to each call is an input; the
    registration of tables with the payload pool, heap trimming, diagnostics and
    the directory sync (whose result is discarded) are left out. *)

From stdpp Require Import pretty.
From S2P Require Import Prelude ErrorKernel KeyKernel BatchKernel WalFormat Visibility CompactGc GcStream CompactFilter MemTable Bloom SstBlock SstFile SstTable SstWrite SstOpen SstRead SstLookup SstScan.

Local Open Scope Z_scope.

(** * Sources as the results of their [next_entry] calls *)

(** [KwayInternalMerge] as a [CompactSource], read to its end; [None]: out of
    fuel. An error is the last item. *)
Fixpoint kway_items (fuel : nat) (k : KwayInternalMerge) : option Stream :=
  match fuel with
  | O => None
  | S n =>
      match kway_next k with
      | None => None
      | Some (Err x, _) => Some [Err x]
      | Some (Ok None, _) => Some []
      | Some (Ok (Some e), k) => cons (Ok e) <$> kway_items n k
      end
  end.

(** [GcMergeSource] the same way. *)
Fixpoint gc_items (fuel : nat) (g : GcMergeSource) : option Stream :=
  match fuel with
  | O => None
  | S n =>
      match gc_next g with
      | None => None
      | Some (Err x, _) => Some [Err x]
      | Some (Ok None, _) => Some []
      | Some (Ok (Some e), g) => cons (Ok e) <$> gc_items n g
      end
  end.

(** * Chunks *)

(** [merged_entry_bytes] *)
Definition merged_entry_bytes (e : entry) : Z := Z.of_nat (length (user_key e.1) + length e.2 + 24).

(** The iterator handed to the writer of one chunk: entries until the source
    ends or fails, or the chunk is full at a new user key. Returns the items,
    the last user key, and what is left of the source ([None]: it ended); an
    entry that was peeked is left. [room]: another chunk may follow. *)
Fixpoint take_chunk (split_target : Z) (room : bool) (last_user : option (list byte)) (acc : Z) (items : Stream)
    : Stream * option (list byte) * option Stream :=
  match items with
  | [] => ([], last_user, None)
  | Err x :: items => ([Err x], last_user, Some items)
  | Ok e :: items' =>
      let user_changed := match last_user with Some u => negb (bytes_eqb u (user_of e)) | None => false end in
      if compact_should_split_at acc split_target && room && user_changed then ([], last_user, Some items)
      else
        let '(chunk, last_user, rest) :=
          take_chunk split_target room (Some (user_of e)) (sat_add acc (merged_entry_bytes e)) items' in
        (Ok e :: chunk, last_user, rest)
  end.

(** ** Files *)

Abbreviation FileName := (Z * bool)%type.
Definition sst_name (num : Z) : FileName := (num, false).
Definition tmp_name (num : Z) : FileName := (num, true).
Abbreviation Directory := (gmap (Z * bool) (list byte)).

(** [dir.join(format!("{num:06}.sst"))], or with [.tmp]. *)
Definition pad6 (s : string) : string :=
  String.append (String.concat "" (replicate (6 - String.length s) "0"%string)) s.
Definition file_path (dir : string) (f : FileName) : string :=
  String.append dir (String.append "/" (String.append (pad6 (pretty f.1)) (if f.2 then ".sst.tmp" else ".sst"))).

(** What the environment does for one chunk: the writer's calls, what a failed
    write leaves under the temporary name, the rename. *)
Record ChunkEnv := mkChunkEnv { ce_env : EnvOutcome; ce_left : option (list byte); ce_rename : Result CoreError unit }.
Definition chunk_env_ok : ChunkEnv := mkChunkEnv env_ok None (Ok tt).

(** [let _ = env.remove_file(..)]: whether the removal of a file succeeds. *)
Definition remove_file (rm : FileName → bool) (d : Directory) (f : FileName) : Directory :=
  if rm f then base.delete f d else d.
Definition remove_outputs (rm : FileName → bool) (d : Directory) (nums : list Z) : Directory :=
  foldl (λ d n, remove_file rm d (sst_name n)) d nums.

(** [with_path] *)
Definition with_path (t : SstTable) (path : string) : SstTable :=
  mkTable path (t_payload t) (t_payload_len t) (t_compressed_blocks t) (t_block_crc t) (t_entries t)
    (t_range_tombstones t) (t_num_entries t) (t_tombstone_count t) (t_max_sequence t) (t_index t) (t_key_cp t)
    (t_bloom t) (t_smallest_user_key t) (t_largest_user_key t).

Section merge.
Context `{CC : Crc32c, CF : !Crc32cFile, LZ : Lz4}.

(** A table with what its reads depend on. *)
Record OpenTable := mkOpen { ot_table : SstTable; ot_files : Files; ot_body : ResidentBody }.

(** [SstInternalStream] as a source. *)
Fixpoint stream_items (fuel : nat) (t : SstTable) (fs : Files) (st : SstInternalStream) (b : ResidentBody)
    : option Stream :=
  match fuel with
  | O => None
  | S n =>
      match next_entry t fs st b with
      | (_, _, None) => None
      | (_, _, Some (Err x)) => Some [Err x]
      | (_, _, Some (Ok None)) => Some []
      | (b, st, Some (Ok (Some e))) => cons (Ok e) <$> stream_items n t fs st b
      end
  end.

Definition table_items (fuel : nat) (lo hi : option (list byte)) (o : OpenTable) : option Stream :=
  stream_items fuel (ot_table o) (ot_files o) (iter_internal_between (ot_table o) lo hi) (ot_body o).

Section span.
Context (we : WriterEnv) (dir : string) (rm : FileName → bool).

(** One pass of the chunk loop: write under the temporary name, then
    [finish_merged_chunk_on]. *)
Definition write_chunk (ce : ChunkEnv) (bloom_hint num : Z) (items : Stream) (d : Directory)
    : Directory * Comp SstTable :=
  match write_sst_try_sorted_body we (ce_env ce) (file_path dir (tmp_name num)) items bloom_hint true true with
  | None => (d, None)
  | Some (Err x) =>
      let d := match ce_left ce with Some part => <[tmp_name num := part]> d | None => d end in
      (remove_file rm d (tmp_name num), Some (Err x))
  | Some (Ok (image, t)) =>
      let d := <[tmp_name num := image]> d in
      match ce_rename ce with
      | Err x => (d, Some (Err x))
      | Ok _ =>
          (<[sst_name num := image]> (base.delete (tmp_name num) d),
           Some (Ok (with_path t (file_path dir (sst_name num)))))
      end
  end.

(** The chunk loop; [out] holds the finished chunks with their numbers. *)
Fixpoint chunk_loop (fuel : nat) (envs : nat → ChunkEnv) (first : Z) (bloom_hint split_target : Z) (budget : nat)
    (last_user : option (list byte)) (items : Stream) (out : list (Z * SstTable)) (d : Directory)
    : Directory * Comp (list (Z * SstTable)) :=
  match fuel with
  | O => (d, None)
  | S n =>
      let room := (length out + 1 <? budget)%nat in
      let '(chunk, last_user, rest) := take_chunk split_target room last_user 0 items in
      let num := first + Z.of_nat (length out) in
      match write_chunk (envs (length out)) bloom_hint num chunk d with
      | (d, None) => (d, None)
      | (d, Some (Err x)) => (remove_outputs rm d out.*1, Some (Err x))
      | (d, Some (Ok t)) =>
          let out := out ++ [(num, t)] in
          match rest with
          | None => (d, Some (Ok out))
          | Some items => chunk_loop n envs first bloom_hint split_target budget last_user items out d
          end
      end
  end.

(** [write_merged_tables_span] *)
Definition write_merged_tables_span (fuel : nat) (envs : nat → ChunkEnv) (first : Z) (tables : list OpenTable)
    (gc : CompactGcOptions) (split_target : Z) (budget : nat) (lo hi : option (list byte))
    (filter : option (list byte → list byte → CompactFilterDecision)) (d : Directory)
    : Directory * Comp (list (Z * SstTable)) :=
  let bloom_hint := foldr (λ o n, t_num_entries (ot_table o) + n) 0 tables in
  if batch_is_empty (length tables) then (d, Some (Ok []))
  else
    match mapM (table_items fuel lo hi) tables with
    | None => (d, None)
    | Some streams =>
        match from_streams streams with
        | Err x => (d, Some (Err x))
        | Ok merge =>
            match (if requests_gc gc then gc_items fuel (gc_source_new merge gc) else kway_items fuel merge) with
            | None => (d, None)
            | Some items =>
                let items := match filter with Some f => filter_items f None false items | None => items end in
                chunk_loop fuel envs first bloom_hint split_target budget None items [] d
            end
        end
    end.

(** [write_merged_tables] *)
Definition write_merged_tables (fuel : nat) (envs : nat → ChunkEnv) (first : Z) (tables : list OpenTable)
    (gc : CompactGcOptions) (split_target : Z) (budget : nat)
    (filter : option (list byte → list byte → CompactFilterDecision)) (d : Directory) :=
  write_merged_tables_span fuel envs first tables gc split_target budget None None filter d.
End span.
End merge.

(** * Lemmas *)

(** ** Sources that do not fail *)

Lemma kway_items_ok k l fuel : yields k l → (length l < fuel)%nat → kway_items fuel k = Some (Ok <$> l).
Proof.
  intros Hy. revert fuel. induction Hy as [k k' Hn|k e k' l Hn Hy IH]; intros [|n] Hf; cbn in Hf; try lia;
    cbn [kway_items]; rewrite Hn; [done|]. by rewrite IH by lia.
Qed.

Lemma gc_items_ok fuel g l :
  kway_inv (g_merge g) → yields (g_merge g) l → (length (gc_rest g l) < fuel)%nat →
  gc_items fuel g = Some (Ok <$> gc_rest g l).
Proof.
  revert g l. induction fuel as [|n IH]; intros g l Hinv Hy Hf; [lia|]. cbn [gc_items].
  destruct (gc_loop_ok (kway_size (g_merge g) + 3) g l Hinv Hy) as (r & g' & Hr & Hst).
  { pose proof (yields_length _ _ Hinv Hy). lia. }
  unfold gc_next. rewrite Hr. destruct r as [e|]; cbn in Hst.
  - destruct Hst as (l' & Hgc & Hinv' & Hy' & Heq). rewrite Heq in Hf |- *. cbn in Hf.
    by rewrite (IH g' l') by (done || lia).
  - by rewrite Hst.
Qed.

Definition ok_stream (es : list entry) : Stream := Ok <$> es.

Lemma oks_ok_stream (l : list entry) : oks (ok_stream l) = l.
Proof. induction l as [|e l IH]; [done|]. unfold oks in *. cbn. by f_equal. Qed.

Lemma join_oks (ess : list (list entry)) : mjoin (oks <$> (ok_stream <$> ess)) = concat ess.
Proof.
  induction ess as [|es ess IH]; [done|]. cbn. rewrite oks_ok_stream. f_equal. exact IH.
Qed.

Lemma no_errors_ok (ess : list (list entry)) x : ¬ errors_in (ok_stream <$> ess) x.
Proof.
  intros (s & (es & -> & _)%list_elem_of_fmap & Hx). unfold ok_stream in Hx. apply list_elem_of_fmap in Hx as (e & He & _). done.
Qed.

Lemma sorted_strict es : sorted_entries es → NoDup es.*1 → StronglySorted ikey_lt es.*1.
Proof.
  unfold sorted_entries. generalize es.*1. induction 1 as [|k ks Hs IH Hf]; intros Hnd; [constructor|].
  apply NoDup_cons in Hnd as [Hni Hnd]. constructor; [by apply IH|]. apply Forall_forall. intros k' Hk'.
  rewrite Forall_forall in Hf. specialize (Hf k' Hk'). destruct (ikey_trichotomy k k') as [|[->|Hgt]]; [done..|].
  by apply Hf in Hgt.
Qed.

Lemma strict_sorted (l : list entry) : StronglySorted ikey_lt l.*1 → sorted_entries l.
Proof. intros Hs. by apply ikey_lt_le_sorted. Qed.

Lemma nodup_coherent (l : list entry) : NoDup l.*1 → coherent l.
Proof.
  intros Hnd x v v' Hv Hv'. apply list_elem_of_lookup in Hv as [i Hi], Hv' as [j Hj].
  assert (i = j) as ->; [|congruence].
  apply (NoDup_lookup _ i j x Hnd); by rewrite list_lookup_fmap, ?Hi, ?Hj.
Qed.

(** The merged, collected entries of sorted sources without a common version. *)
Definition merged_entries (gc : CompactGcOptions) (ess : list (list entry)) (l : list entry) : Prop :=
  if requests_gc gc then l = gc_compact_entries (concat ess) gc
  else StronglySorted ikey_lt l.*1 ∧ ∀ e, e ∈ l ↔ e ∈ concat ess.

Lemma concat_part (ess : list (list entry)) es : es ∈ ess → NoDup (concat ess).*1 → NoDup es.*1.
Proof.
  intros (a & b & ->)%list_elem_of_split. rewrite concat_app. cbn [concat]. rewrite !fmap_app.
  intros (_ & _ & (Hn & _)%NoDup_app)%NoDup_app. done.
Qed.

Lemma gc_compact_entries_sub entries gc e : coherent entries → e ∈ gc_compact_entries entries gc → e ∈ entries.
Proof.
  intros Hc. destruct (gc_compact_entries_result entries gc Hc) as (points & _ & Hp & Hres).
  rewrite (Hres e). intros [[He _]|He%kept_versions_sub].
  - by apply list_elem_of_filter in He as [_ ?].
  - apply list_elem_of_filter in He as [_ He]. by apply Hp in He as [? _].
Qed.

Lemma merged_items fuel gc ess :
  Forall sorted_entries ess → NoDup (concat ess).*1 → (length (concat ess) < fuel)%nat →
  ∃ merge l, from_streams (ok_stream <$> ess) = Ok merge ∧ merged_entries gc ess l ∧
    StronglySorted ikey_lt l.*1 ∧ (∀ e, e ∈ l → e ∈ concat ess) ∧ (length l ≤ length (concat ess))%nat ∧
    (if requests_gc gc then gc_items fuel (gc_source_new merge gc) else kway_items fuel merge) = Some (ok_stream l).
Proof.
  intros Hs Hnd Hf. pose proof (nodup_coherent _ Hnd) as Hc.
  assert (∀ s, s ∈ ok_stream <$> ess → StronglySorted ikey_lt (oks s).*1) as Hsort.
  { intros s (es & -> & Hin)%list_elem_of_fmap. rewrite oks_ok_stream. rewrite Forall_forall in Hs.
    apply sorted_strict; [by apply Hs|by eapply concat_part]. }
  destruct (from_streams_yields (ok_stream <$> ess) Hsort (no_errors_ok ess)) as (k & l & Hk & Hinv & Hy & _ & Hl & Hm);
    [by rewrite join_oks|].
  rewrite join_oks in Hm.
  assert (length l = length (concat ess)) as Hlen.
  { apply Permutation_length, NoDup_Permutation; [|by eapply NoDup_fmap_1|done]. by apply sorted_keys_nodup. }
  exists k. unfold merged_entries. destruct (requests_gc gc).
  - exists (gc_compact_entries (concat ess) gc). split; [done|]. split; [done|]. split; [by apply gc_compact_entries_sorted|].
    split; [intros e; by apply gc_compact_entries_sub|].
    assert (gc_rest (gc_source_new k gc) l = gc_compact_entries (concat ess) gc) as Hr by (by apply gc_result_fold).
    assert (length (gc_rest (gc_source_new k gc) l) ≤ length l)%nat as Hfl by apply (gc_fold_length gc [] [] l).
    split; [rewrite <-Hr; lia|]. rewrite (gc_items_ok _ (gc_source_new k gc) l), Hr; [done|done|done|lia].
  - exists l. split; [done|]. split; [done|]. split; [done|]. split; [apply Hm|]. split; [lia|]. apply kway_items_ok; [done|lia].
Qed.

(** ** Chunks *)

Lemma user_le_of_sorted es a b i j : sorted_entries es → es !! i = Some a → es !! j = Some b → (i ≤ j)%nat →
  ¬ bytes_lt (user_of b) (user_of a).
Proof.
  intros Hs Hi Hj Hij. destruct (decide (i = j)) as [->|Hne].
  - simplify_eq. apply (irreflexivity bytes_lt).
  - unfold sorted_entries in Hs. eapply ikey_le_user. eapply (sorted_lookup ikey_le es.*1 i j); [done|lia| |];
      rewrite list_lookup_fmap, ?Hi, ?Hj; done.
Qed.

(** Chunks cut a sorted run at a change of user key. *)
Lemma cut_users c rest : sorted_entries (c ++ rest) →
  (∀ a b, last c = Some a → head rest = Some b → user_of a ≠ user_of b) →
  ∀ a b, a ∈ c → b ∈ rest → bytes_lt (user_of a) (user_of b).
Proof.
  intros Hs Hne a b [i Hi]%list_elem_of_lookup [j Hj]%list_elem_of_lookup.
  destruct rest as [|h rest]; [done|]. destruct (last c) as [z|] eqn:Hz; [|by apply last_None in Hz as ->].
  specialize (Hne z h eq_refl eq_refl).
  assert (¬ bytes_lt (user_of z) (user_of a)) as H1.
  { rewrite last_lookup in Hz. pose proof (lookup_lt_Some _ _ _ Hi).
    eapply (user_le_of_sorted (c ++ h :: rest) a z i (pred (length c))); [done|rewrite lookup_app_l; done| |lia].
    rewrite lookup_app_l by lia. done. }
  assert (¬ bytes_lt (user_of h) (user_of z)) as H2.
  { rewrite last_lookup in Hz. pose proof (lookup_lt_Some _ _ _ Hz).
    eapply (user_le_of_sorted (c ++ h :: rest) z h (pred (length c)) (length c)); [done| | |lia].
    - rewrite lookup_app_l by lia. done.
    - by rewrite list_lookup_middle. }
  assert (¬ bytes_lt (user_of b) (user_of h)) as H3.
  { eapply (user_le_of_sorted (c ++ h :: rest) h b (length c) (length c + j)); [done|by rewrite list_lookup_middle| |lia].
    rewrite lookup_app_r by lia. by replace (length c + j - length c)%nat with j by lia. }
  assert (bytes_lt (user_of z) (user_of h)) as Hlt by (destruct (bytes_trichotomy (user_of z) (user_of h)) as [|[|]]; done).
  eapply bytes_le_lt_trans; [exact H1|]. eapply bytes_lt_le_trans; [exact Hlt|done].
Qed.

Lemma take_chunk_ok target room lu acc es :
  ∃ c rest lu' r, take_chunk target room lu acc (ok_stream es) = (ok_stream c, lu', r) ∧ es = c ++ rest ∧
    lu' = match last c with Some z => Some (user_of z) | None => lu end ∧
    (rest = [] ∧ r = None ∨
     room = true ∧ r = Some (ok_stream rest) ∧ rest ≠ [] ∧ (acc < target → c ≠ []) ∧
     ∀ b, head rest = Some b → lu' ≠ Some (user_of b)).
Proof.
  revert lu acc. induction es as [|e es IH]; intros lu acc.
  { exists [], [], lu, None. split_and!; try done. by left. }
  cbn [ok_stream fmap list_fmap take_chunk]. unfold compact_should_split_at.
  destruct ((target <=? acc) && room && _) eqn:E.
  - exists [], (e :: es), lu, (Some (ok_stream (e :: es))). split_and!; try done. right.
    apply andb_true_iff in E as [[Et Er]%andb_true_iff Eu]. apply Z.leb_le in Et.
    split_and!; try done; [lia|]. intros b [= <-]. destruct lu as [u|]; [|done]. intros [= ->].
    by rewrite (proj2 (bytes_eqb_spec _ _) eq_refl) in Eu.
  - destruct (IH (Some (user_of e)) (sat_add acc (merged_entry_bytes e))) as (c & rest & lu' & r & Et & -> & Hlu & Hr).
    exists (e :: c), rest, lu', r. unfold ok_stream in Et |- *. rewrite Et. split_and!; try done.
    + rewrite Hlu. rewrite last_cons. by destruct (last c).
    + destruct Hr as [|(? & ? & ? & _ & ?)]; [by left|right; by split_and!].
Qed.

(** ** Writing *)

Section merge_proofs.
Context `{CC : Crc32c, CF : !Crc32cFile, LZ : Lz4, LL : !Lz4Laws}.

(** A successful write does not depend on the path but for the table's own. *)
Lemma add_entries_path path path' target active b items b' :
  add_entries path target active b items = Some (Ok b') → add_entries path' target active b items = Some (Ok b').
Proof.
  revert b. induction items as [|item items IH]; intros b; [done|]. cbn [add_entries].
  destruct item as [e|]; cbn [comp_bind]; [|done].
  destruct (add_entry path target active b e) as [[b1|]|] eqn:E; cbn [comp_bind]; try done.
  assert (add_entry path' target active b e = Some (Ok b1)) as ->.
  { revert E. unfold add_entry. destruct e as [ikey value]. by destruct (match b_prev_ikey b with Some _ => _ | None => _ end). }
  cbn [comp_bind]. apply IH.
Qed.

Lemma finish_table_path path path' b image t :
  finish_table path b = Ok (image, t) → finish_table path' b = Ok (image, with_path t path').
Proof.
  unfold finish_table. destruct (flush_block _) as [w|]; cbn [res_bind]; [|done].
  destruct (derive_index_accel (w_index w)) as [cp index].
  destruct (try_u32 _ _) as [n|]; cbn [res_bind]; [|done].
  destruct (index_bytes _) as [ib|]; cbn [res_bind]; [|done]. by intros [= <- <-].
Qed.

Lemma write_path we path path' items hint sync compress image t :
  write_sst_try_sorted_body we env_ok path items hint sync compress = Some (Ok (image, t)) →
  write_sst_try_sorted_body we env_ok path' items hint sync compress = Some (Ok (image, with_path t path')).
Proof.
  unfold write_sst_try_sorted_body. destruct (add_entries path _ _ _ _) as [[b|]|] eqn:E; cbn [comp_bind]; try done.
  apply (add_entries_path path path') in E as ->. cbn [comp_bind].
  destruct (finish_table path b) as [[image' t']|] eqn:Ef; cbn [comp_bind]; [|done].
  rewrite (finish_table_path path path' _ _ _ Ef). cbn [comp_bind]. destruct sync; cbn [comp_bind env_sync env_ok]; by intros [= -> ->].
Qed.

Context (we : WriterEnv) (dir : string) (rm : FileName → bool).

(** The chunk under [num] is a table of [es]. *)
Definition chunk_at (hint : Z) (d : Directory) (nt : Z * SstTable) (es : list entry) : Prop :=
  ∃ image, d !! sst_name nt.1 = Some image ∧ sst_input we es hint ∧
    table_of we (file_path dir (sst_name nt.1)) es hint true true image nt.2.

Definition env_works (ce : ChunkEnv) : Prop := ce_env ce = env_ok ∧ ce_rename ce = Ok tt.

Lemma write_chunk_ok ce hint num es d :
  env_works ce → sst_input we es hint →
  ∃ d' t, write_chunk we dir rm ce hint num (ok_stream es) d = (d', Some (Ok t)) ∧ chunk_at hint d' (num, t) es ∧
    ∀ f, f ≠ sst_name num → f ≠ tmp_name num → d' !! f = d !! f.
Proof using CF LL.
  intros [He Hr] Hi. pose proof Hi as [H1 H2 H3 H4 H5].
  destruct (write_open_ok we (file_path dir (tmp_name num)) es hint true true H1 H2 H3 H4 H5) as (image & t & _ & Ew & _).
  unfold write_chunk, ok_stream. rewrite He, Ew, Hr. eexists _, _. split; [reflexivity|]. split.
  - exists image. cbn [fst snd]. split; [apply lookup_insert_eq|]. split; [done|].
    exists (with_path t (file_path dir (sst_name num))). split; [|by left]. by eapply write_path.
  - intros f Hf Hf'. rewrite lookup_insert_ne by done. rewrite lookup_delete_ne by done. by rewrite lookup_insert_ne.
Qed.

Definition separated (chunks : list (list entry)) : Prop :=
  StronglySorted (λ c c', ∀ a b : entry, a ∈ c → b ∈ c' → bytes_lt (user_of a) (user_of b)) chunks.

(** Every piece of a chunking can be written. *)
Definition segments_fit (es : list entry) (hint : Z) : Prop :=
  ∀ pre c post, es = pre ++ c ++ post → sst_input we c hint.

Definition numbered (first : Z) (out : list (Z * SstTable)) : Prop :=
  ∀ i nt, out !! i = Some nt → nt.1 = first + Z.of_nat i.

Lemma chunk_loop_ok fuel envs first hint target budget lu es out d :
  (∀ i, env_works (envs i)) → 0 < target → sorted_entries es → segments_fit es hint → (length es < fuel)%nat →
  numbered first out →
  ∃ d' new chunks, chunk_loop we dir rm fuel envs first hint target budget lu (ok_stream es) out d =
      (d', Some (Ok (out ++ new))) ∧
    Forall2 (chunk_at hint d') new chunks ∧ concat chunks = es ∧ separated chunks ∧ numbered first (out ++ new) ∧
    (length (out ++ new) ≤ Nat.max (S (length out)) budget)%nat ∧ new ≠ [] ∧
    ∀ f, f.1 < first + Z.of_nat (length out) → d' !! f = d !! f.
Proof using CF LL.
  intros Henv Ht. revert lu es out d. induction fuel as [|n IH]; intros lu es out d Hs Hseg Hf Hnum; [lia|].
  cbn [chunk_loop]. set (room := (length out + 1 <? budget)%nat).
  destruct (take_chunk_ok target room lu 0 es) as (c & rest & lu' & r & -> & -> & Hlu & Hr).
  set (num := first + Z.of_nat (length out)).
  destruct (write_chunk_ok (envs (length out)) hint num c d) as (d1 & t & -> & Hc & Hd1);
    [apply Henv|by apply (Hseg [] c rest)|].
  assert (numbered first (out ++ [(num, t)])) as Hnum1.
  { intros i nt Hi. apply lookup_app_Some in Hi as [Hi|[Hi Hl]]; [by apply Hnum|].
    apply list_lookup_singleton_Some in Hl as [Hz <-]. cbn. unfold num. lia. }
  destruct Hr as [[-> ->]|(Hroom & -> & Hne & Hc0 & Hb)].
  - exists d1, [(num, t)], [c]. rewrite app_nil_r. split; [done|]. split; [by repeat constructor|].
    cbn [concat]. rewrite app_nil_r. split; [done|]. split; [repeat constructor|]. split; [done|].
    split; [rewrite length_app; cbn; lia|]. split; [done|]. intros f Hlt. apply Hd1; intros ->; cbn in Hlt; lia.
  - specialize (Hc0 Ht). destruct (sorted_entries_app _ _ Hs) as (_ & Hsr & _).
    destruct (IH lu' rest (out ++ [(num, t)]) d1) as (d' & new & chunks & E & H1 & H2 & H3 & H4 & H5 & H6 & H7); [done| | |done|].
    + intros pre c' post ->. apply (Hseg (c ++ pre) c' post). by rewrite <-(assoc_L (++)).
    + destruct c; [done|]. cbn in Hf. rewrite length_app in Hf. lia.
    + exists d', ((num, t) :: new), (c :: chunks). rewrite E, <-(assoc_L (++)). split; [done|].
      rewrite length_app in H7. cbn in H7. split.
      { constructor; [|done]. destruct Hc as (image & Him & Hc). exists image. split; [|done].
        rewrite H7; [done|]. unfold num. cbn. lia. }
      cbn [concat]. split; [by rewrite H2|]. split.
      { constructor; [done|]. apply Forall_forall. intros c' Hc' a b Ha Hb'.
        eapply (cut_users c rest); [done| |done|].
        - intros z y Hz Hy. rewrite Hz in Hlu. subst lu'. intros Heq. apply (Hb y Hy). by rewrite Heq.
        - rewrite <-H2. apply elem_of_concat. by exists c'. }
      split; [by rewrite <-(assoc_L (++)) in H4|]. split; [|split; [done|]].
      * rewrite !length_app in H5. rewrite length_app. cbn [length] in *.
        unfold room in Hroom. apply Nat.ltb_lt in Hroom. lia.
      * intros f Hlt. rewrite H7 by lia. apply Hd1; intros ->; cbn in Hlt; unfold num in Hlt; lia.
Qed.

(** ** Reading the inputs *)

(** An open table, written or reopened, that holds [es]. *)
Definition table_holds (o : OpenTable) (es : list entry) : Prop :=
  ∃ we path hint sync compress image, sst_input we es hint ∧
    table_of we path es hint sync compress image (ot_table o) ∧ serves image (ot_files o) ∧
    body_ok (img (t_payload (ot_table o))) (ot_body o).

Lemma drain_items n t fs st b l : drain n t fs st b = Some (Ok l) → stream_items n t fs st b = Some (ok_stream l).
Proof.
  revert st b l. induction n as [|n IH]; intros st b l; [done|]. cbn [drain stream_items].
  destruct (next_entry t fs st b) as [[b' st'] [[[e|]|]|]]; try done; [|by intros [= <-]].
  destruct (drain n t fs st' b') as [[l'|]|] eqn:E; cbn [comp_bind]; try done. intros [= <-].
  by rewrite (IH _ _ _ E).
Qed.

Lemma table_items_ok o es fuel : table_holds o es → (length es < fuel)%nat →
  table_items fuel None None o = Some (ok_stream es) ∧ t_num_entries (ot_table o) = Z.of_nat (length es) ∧
  sorted_entries es ∧ Forall entry_ok es.
Proof using CF LL.
  intros (we' & path & hint & sync & compress & image & Hi & Hof & Hsv & Hb) Hf.
  destruct (table_of_ok we' path es hint sync compress image (ot_table o) (ot_files o) Hi Hof Hsv) as [Ht Hfs].
  split; [|split; [apply (tk_n _ _ _ _ Ht)|split; [apply (si_sorted _ _ _ Hi)|apply (si_entries _ _ _ Hi)]]].
  apply drain_items. rewrite (between_ok _ _ _ _ Ht _ _ Hfs None None _ fuel Hb Hf).
  cbn [st_block_i iter_internal_between]. rewrite drop_0, (tk_cat _ _ _ _ Ht). f_equal. f_equal.
  clear. induction es as [|e es IH]; [done|]. rewrite filter_cons_True by done. by rewrite IH.
Qed.

(** A merge of tables that hold [ess]. *)
Lemma merge_tables_ok fuel envs first tables ess gc target budget d :
  Forall2 table_holds tables ess → tables ≠ [] → NoDup (concat ess).*1 → (length (concat ess) < fuel)%nat →
  (∀ i, env_works (envs i)) → 0 < target →
  (∀ l, merged_entries gc ess l → segments_fit l (Z.of_nat (length (concat ess)))) →
  ∃ d' outs chunks l, write_merged_tables we dir rm fuel envs first tables gc target budget None d = (d', Some (Ok outs)) ∧
    merged_entries gc ess l ∧ concat chunks = l ∧
    Forall2 (chunk_at (Z.of_nat (length (concat ess))) d') outs chunks ∧ separated chunks ∧
    numbered first outs ∧ (length outs ≤ Nat.max 1 budget)%nat ∧ ∀ f, f.1 < first → d' !! f = d !! f.
Proof using CF LL.
  intros Hh Hne Hnd Hf Henv Ht Hseg.
  assert (mapM (table_items fuel None None) tables = Some (ok_stream <$> ess) ∧ Forall sorted_entries ess ∧
          foldr (λ o n, t_num_entries (ot_table o) + n) 0 tables = Z.of_nat (length (concat ess))) as (Em & Hs & Eh).
  { clear Hseg Hnd Hne. induction Hh as [|o es tables ess Ho Hh IH]; [by split_and!|]. cbn [concat] in Hf. rewrite length_app in Hf.
    destruct (table_items_ok o es fuel Ho) as (E1 & E2 & E3 & _); [lia|]. destruct IH as (I1 & I2 & I3); [lia|].
    split; [|split].
    - cbn [mapM]. rewrite E1. cbn [mbind option_bind]. rewrite I1. done.
    - by constructor.
    - cbn [foldr concat]. rewrite I3, E2, length_app. lia. }
  destruct (merged_items fuel gc ess Hs Hnd Hf) as (merge & l & Ef & Hl & Hsl & Hsub & Hlen & Ei).
  unfold write_merged_tables, write_merged_tables_span. rewrite Eh.
  assert (batch_is_empty (length tables) = false) as -> by (by destruct tables).
  rewrite Em, Ef, Ei. specialize (Hseg l Hl).
  destruct (chunk_loop_ok fuel envs first (Z.of_nat (length (concat ess))) target budget None l [] d)
    as (d' & new & chunks & E & H1 & H2 & H3 & H4 & H5 & _ & H7); [done|done|by apply strict_sorted|done|lia|done|].
  exists d', new, chunks, l. rewrite E. cbn [app] in *. split_and!; try done. intros f Hlt. apply H7. cbn. lia.
Qed.
End merge_proofs.

(** ** Small runs fit *)

Definition weight (es : list entry) : nat :=
  foldr (λ e n, 17 + length (user_key e.1) + length e.2 + n)%nat 0%nat es.

Lemma weight_app a b : weight (a ++ b) = (weight a + weight b)%nat.
Proof. unfold weight. induction a as [|e a IH]; [done|]. cbn [app foldr]. rewrite IH. lia. Qed.

Lemma entry_bytes_weight e r : entry_ok e → (length (entry_bytes e r) ≤ 17 + length (user_key e.1) + length e.2)%nat.
Proof.
  intros He. unfold entry_bytes. destruct (encode_entry_cases e r He) as [->|(rst & s & _ & (_ & _ & Hs & _) & ->)].
  - rewrite length_full_bytes. lia.
  - rewrite length_trunc_bytes by done. lia.
Qed.

Lemma run_bytes_weight i rst es : Forall entry_ok es → (length (run_bytes i rst es) ≤ weight es)%nat.
Proof.
  revert i rst. induction es as [|e es IH]; intros i rst He; [done|]. apply Forall_cons in He as [He Hes].
  cbn [run_bytes weight foldr]. rewrite length_app. pose proof (entry_bytes_weight e (restart_arg i rst) He).
  specialize (IH (S i) (restart_next i rst e) Hes). unfold weight in IH. lia.
Qed.

Lemma block_hash_bytes_bound keys : (length (block_hash_bytes keys) ≤ 4102)%nat.
Proof.
  destruct keys as [|k keys]; [cbn; lia|].
  destruct (decide (length (k :: keys) ≤ 253 * BLOCK_RESTART)%nat) as [Hl|Hl].
  - rewrite block_hash_bytes_eq by done. rewrite !length_app, hash_buckets_length, !length_to_le.
    pose proof (clamp_range (length (k :: keys) * 2)). lia.
  - unfold block_hash_bytes. case_match; [cbn; lia|]. case_match; [cbn; lia|]. exfalso. apply Hl.
    apply ceil_div_bound; [unfold BLOCK_RESTART; lia|]. by apply Nat.ltb_ge.
Qed.

Lemma cut_concat target open es : concat (cut target open es) = open ++ es.
Proof.
  revert open. induction es as [|e es IH]; intros open; cbn [cut].
  - destruct open; cbn; by rewrite ?app_nil_r.
  - destruct (negb _ && _ && _); cbn [concat]; rewrite IH; [done|]. by rewrite <-(assoc_L (++)).
Qed.

Lemma light_segments we es hint :
  Forall entry_ok es → sorted_entries es → 0 ≤ hint → (length es ≤ 4048)%nat →
  Z.of_nat (weight es) + 4102 ≤ DEFAULT_MAX_UNCOMPRESSED_BLOCK_SIZE → segments_fit we es hint.
Proof.
  intros He Hs Hh Hl Hw pre c post ->. apply Forall_app in He as [_ [He _]%Forall_app].
  apply sorted_entries_app in Hs as (_ & (Hs & _ & _)%sorted_entries_app & _).
  rewrite !length_app in Hl. rewrite !weight_app in Hw.
  split; [done|done|unfold MAX_SST_ENTRIES; lia|done|]. apply Forall_forall. intros blk Hb.
  pose proof (cut_concat (block_target (target_override we)) [] c) as Hc. cbn [app] in Hc.
  apply list_elem_of_split in Hb as (l1 & l2 & E). rewrite E, concat_app in Hc. cbn [concat] in Hc.
  rewrite <-Hc in Hl, Hw, He. rewrite !length_app in Hl. rewrite !weight_app in Hw.
  apply Forall_app in He as [_ [He _]%Forall_app]. split; [unfold BLOCK_RESTART; lia|].
  unfold block_bytes. rewrite length_app. pose proof (run_bytes_weight 0 [] blk He).
  pose proof (block_hash_bytes_bound (keys_of blk)). lia.
Qed.

(** ** Clean-up after a failure *)

Lemma remove_outputs_lookup d nums f :
  remove_outputs (λ _, true) d nums !! f = if decide (f ∈ sst_name <$> nums) then None else d !! f.
Proof.
  revert d. induction nums as [|n nums IH]; intros d.
  { unfold remove_outputs. cbn. case_decide as H; [by apply not_elem_of_nil in H|done]. }
  change (remove_outputs (λ _, true) d (n :: nums)) with
    (remove_outputs (λ _, true) (remove_file (λ _, true) d (sst_name n)) nums).
  rewrite IH. unfold remove_file. destruct (decide (f = sst_name n)) as [->|Hne].
  - rewrite lookup_delete_eq. rewrite (decide_True (P := sst_name n ∈ sst_name <$> n :: nums)) by left. by case_decide.
  - rewrite lookup_delete_ne by done. cbn [fmap list_fmap].
    destruct (decide (f ∈ sst_name <$> nums)) as [H|H].
    + by rewrite (decide_True (P := f ∈ sst_name n :: _)) by (by right).
    + rewrite (decide_False (P := f ∈ sst_name n :: _)); [done|]. by intros [|]%elem_of_cons.
Qed.

(** The directory has the outputs more than it started with. *)
Definition only_outputs (first : Z) (d0 d : Directory) (out : list (Z * SstTable)) : Prop :=
  (∀ f : FileName, first ≤ f.1 → d0 !! f = None) ∧ Forall (λ nt : Z * SstTable, first ≤ nt.1) out ∧
  ∀ f, f ∉ sst_name <$> out.*1 → d !! f = d0 !! f.

Section cleanup.
Context `{CC : Crc32c, CF : !Crc32cFile, LZ : Lz4}.
Context (we : WriterEnv) (dir : string).

Lemma write_chunk_grows ce hint num items d first d0 out d' t :
  only_outputs first d0 d out → first ≤ num →
  write_chunk we dir (λ _, true) ce hint num items d = (d', Some (Ok t)) →
  only_outputs first d0 d' (out ++ [(num, t)]).
Proof.
  intros (Hf & Hn & Hd) Hnum. unfold write_chunk.
  destruct (write_sst_try_sorted_body _ _ _ _ _ _ _) as [[[image t0]|]|]; [|done..].
  destruct (ce_rename ce); [|done]. intros [= <- <-]. split; [done|]. split; [by apply Forall_app_2; [|constructor]|].
  intros f. rewrite !fmap_app. intros [Hni Hne]%not_elem_of_app.
  rewrite lookup_insert_ne by (intros <-; apply Hne; left).
  destruct (decide (f = tmp_name num)) as [->|Ht].
  - rewrite lookup_delete_eq. symmetry. by apply Hf.
  - rewrite lookup_delete_ne, lookup_insert_ne by done. by apply Hd.
Qed.

Lemma write_chunk_fails ce hint num items d first d0 out d' x :
  only_outputs first d0 d out → first ≤ num →
  write_chunk we dir (λ _, true) ce hint num items d = (d', Some (Err x)) →
  ∀ f, f ∉ sst_name <$> out.*1 → f ≠ tmp_name num ∨ ce_rename ce = Ok tt → d' !! f = d0 !! f.
Proof.
  intros (Hf & _ & Hd) Hnum. unfold write_chunk.
  destruct (write_sst_try_sorted_body _ _ _ _ _ _ _) as [[[image t0]|x0]|]; [| |done].
  - destruct (ce_rename ce) as [[]|]; [done|]. intros [= <- <-] f Hni [Ht|?]; [|done].
    rewrite lookup_insert_ne by done. by apply Hd.
  - intros [= <- <-] f Hni _. unfold remove_file. destruct (decide (f = tmp_name num)) as [->|Ht].
    + rewrite lookup_delete_eq. symmetry. by apply Hf.
    + rewrite lookup_delete_ne by done. rewrite <-(Hd f Hni). destruct (ce_left ce); [|done]. by rewrite lookup_insert_ne.
Qed.

Lemma chunk_loop_cleans fuel envs first hint target budget lu items out d d0 d' x :
  only_outputs first d0 d out →
  chunk_loop we dir (λ _, true) fuel envs first hint target budget lu items out d = (d', Some (Err x)) →
  ∀ f, f.2 = false ∨ (∀ i, ce_rename (envs i) = Ok tt) → d' !! f = d0 !! f.
Proof.
  revert lu items out d. induction fuel as [|n IH]; intros lu items out d Ho; [done|]. cbn [chunk_loop].
  destruct (take_chunk _ _ _ _ _) as [[chunk lu'] rest]. set (num := first + Z.of_nat (length out)).
  destruct (write_chunk we dir _ _ _ _ _ _) as [d1 [[t|x1]|]] eqn:E; [|  |done].
  - apply (write_chunk_grows _ _ _ _ _ first d0 out) in E; [|done|lia]. destruct rest as [items'|]; [|done].
    by apply IH.
  - intros [= <- <-] f Hf. rewrite remove_outputs_lookup. case_decide as Hin.
    + destruct Ho as (Hfr & Hn & _). symmetry. apply Hfr. apply list_elem_of_fmap in Hin as (m & -> & Hm).
      apply list_elem_of_fmap in Hm as (nt & -> & Hnt). rewrite Forall_forall in Hn. by apply Hn.
    + eapply write_chunk_fails; [done| |exact E|done|]; [lia|].
      destruct Hf as [Hf|Hf]; [left; by intros ->|right; apply Hf].
Qed.
End cleanup.

(** * Properties *)

Section merge_claims.
Context `{CC : Crc32c, CF : !Crc32cFile, LZ : Lz4, LL : !Lz4Laws}.

Lemma reads_ext l l' s uk v : (∀ e, e ∈ l ↔ e ∈ l') → reads l s uk v ↔ reads l' s uk v.
Proof. intros He. unfold reads, candidate, hidden. by setoid_rewrite He. Qed.

Lemma merged_reads gc ess l rest s uk v :
  coherent (concat ess) → merged_entries gc ess l → gc_admits gc (concat ess) s →
  (bottommost gc = true → nothing_below (concat ess) rest) →
  reads (l ++ rest) s uk v ↔ reads (concat ess ++ rest) s uk v.
Proof.
  intros Hc Hl Hadm Hb. unfold merged_entries in Hl. destruct (requests_gc gc).
  - subst l. destruct (gc_compact_entries_result (concat ess) gc Hc) as (points & Hs & Hp & Hres). by eapply reads_iff.
  - apply reads_ext. intros e. by rewrite !elem_of_app, (proj2 Hl e).
Qed.

(** C13: a compaction changes no read it must preserve. Merging tables that hold
    [ess] (written or reopened, resident or on disk) over the full key span and
    without a compaction filter, when every call of the environment succeeds and
    each output fits the table format, ends and leaves one file per chunk,
    numbered from [first], each a table of its chunk under its final name, at
    most the budget of them, no user key in two chunks, and no file below [first]
    touched. Let [rest] be what all the other layers hold, with nothing older of
    the keys the inputs write when the merge is told that it is bottommost: what
    a read at an admitted snapshot sees over the chunks and [rest] is what it saw
    over the inputs and [rest]. *)
Theorem merge_preserves_reads we dir rm fuel envs first tables ess gc target budget d :
  Forall2 table_holds tables ess → tables ≠ [] → NoDup (concat ess).*1 → (length (concat ess) < fuel)%nat →
  (∀ i, env_works (envs i)) → 0 < target →
  (∀ l, merged_entries gc ess l → segments_fit we l (Z.of_nat (length (concat ess)))) →
  ∃ d' outs chunks,
    write_merged_tables we dir rm fuel envs first tables gc target budget None d = (d', Some (Ok outs)) ∧
    Forall2 (chunk_at we dir (Z.of_nat (length (concat ess))) d') outs chunks ∧ separated chunks ∧
    numbered first outs ∧ (length outs ≤ Nat.max 1 budget)%nat ∧ (∀ f, f.1 < first → d' !! f = d !! f) ∧
    ∀ rest s uk v, gc_admits gc (concat ess) s → (bottommost gc = true → nothing_below (concat ess) rest) →
      reads (concat chunks ++ rest) s uk v ↔ reads (concat ess ++ rest) s uk v.
Proof using CF LL.
  intros Hh Hne Hnd Hf Henv Ht Hseg.
  destruct (merge_tables_ok we dir rm fuel envs first tables ess gc target budget d Hh Hne Hnd Hf Henv Ht Hseg)
    as (d' & outs & chunks & l & E & Hl & <- & H1 & H2 & H3 & H4 & H5).
  exists d', outs, chunks. split_and!; try done. intros rest s uk v. apply merged_reads; [by apply nodup_coherent|done].
Qed.

(** C31: a compaction that fails leaves nothing behind. Whatever fails (reading an
    input, encoding, a write, a rename), if files can be removed then after an
    error every table name of the directory is as before, outputs already
    renamed included; and when it was not a rename that failed, the whole
    directory is as before. *)
Theorem merge_error_cleans we dir fuel envs first tables gc target budget lo hi filter d d' x :
  (∀ f : FileName, first ≤ f.1 → d !! f = None) →
  write_merged_tables_span we dir (λ _, true) fuel envs first tables gc target budget lo hi filter d =
    (d', Some (Err x)) →
  (∀ n, d' !! sst_name n = d !! sst_name n) ∧ ((∀ i, ce_rename (envs i) = Ok tt) → d' = d).
Proof.
  intros Hf. unfold write_merged_tables_span. case_match; [done|]. case_match; [|done].
  case_match; [|intros [= <- _]; done]. case_match; [|done]. intros E.
  assert (only_outputs first d d []) as Ho by (by split_and!).
  pose proof (chunk_loop_cleans _ _ _ _ _ _ _ _ _ _ _ _ _ _ _ Ho E) as Hc. split.
  - intros n. apply Hc. by left.
  - intros Hr. apply map_eq. intros f. apply Hc. by right.
Qed.
End merge_claims.

#[local] Existing Instance poly_crc.
#[local] Existing Instance poly_file.
#[local] Existing Instance store_lz4.
#[local] Existing Instance store_laws.

Lemma sample_nodup : NoDup (concat [sample_entries]).*1.
Proof. apply (bool_decide_unpack (NoDup _) (dec := NoDup_dec _)). vm_compute. exact I. Qed.

(** A merge of one table that keeps only the newest versions drops the old
    deletion and keeps what a read sees. *)
Lemma merge_preserves_reads_witness :
  ∃ tables d' outs chunks,
    write_merged_tables sample_env "db" (λ _, true) 9 (λ _, chunk_env_ok) 7 tables latest_only 100 4 None ∅ = (d', Some (Ok outs)) ∧
    Forall2 (chunk_at sample_env "db" 5 d') outs chunks ∧
    reads (concat chunks) 6 [x61] [x31] ∧ ¬ reads (concat chunks) 6 [x61; x62; x63] (replicate (Z.to_nat 1200) x32).
Proof.
  destruct sample_table as (image & t & Hof). exists [mkOpen t (mkFiles (Ok image) None) (t_payload t)].
  destruct (merge_preserves_reads sample_env "db" (λ _, true) 9 (λ _, chunk_env_ok) 7 [mkOpen t (mkFiles (Ok image) None) (t_payload t)]
    [sample_entries] latest_only 100 4 ∅) as (d' & outs & chunks & E & Hc & _ & _ & _ & _ & Hr).
  - constructor; [|constructor]. exists sample_env, "a.sst"%string, 3, true, true, image.
    split; [apply sample_input|]. split; [exact Hof|]. split; [apply sample_serves|apply body_ok_start].
  - done.
  - exact sample_nodup.
  - vm_compute. lia.
  - done.
  - done.
  - intros l Hl. unfold merged_entries in Hl. cbn [requests_gc latest_only keep_only_latest orb] in Hl.
    assert (l = gc_compact_entries (concat [sample_entries]) latest_only) as -> by exact Hl.
    destruct sample_input as [He Hs Hn Hh Hf].
    assert (∀ e, e ∈ gc_compact_entries (concat [sample_entries]) latest_only → e ∈ sample_entries) as Hsub.
    { intros e Hin. change sample_entries with (concat [sample_entries]). eapply gc_compact_entries_sub; [|exact Hin].
      apply nodup_coherent, sample_nodup. }
    apply light_segments.
    + apply Forall_forall. intros e Hin. rewrite Forall_forall in He. apply He, Hsub, Hin.
    + apply strict_sorted, gc_compact_entries_sorted; [|apply nodup_coherent]; exact sample_nodup.
    + done.
    + vm_compute. lia.
    + vm_compute. congruence.
  - exists d', outs, chunks. split; [exact E|]. split; [exact Hc|].
    assert (gc_admits latest_only (concat [sample_entries]) 6) as Hadm.
    { split; repeat constructor; vm_compute; congruence. }
    assert (∀ uk v, reads (concat chunks) 6 uk v ↔ reads (concat [sample_entries]) 6 uk v) as Hr'.
    { intros uk v. pose proof (Hr [] 6 uk v Hadm ltac:(discriminate)) as Hu. rewrite !app_nil_r in Hu. exact Hu. }
    split; [apply Hr'|rewrite Hr'].
    + exists (mkIKey [x61] 5 Value, [x31]). split; [split_and!; [left|done|done|done]|]. split; [done|]. split; [done|]. split.
      * intros e (He & Hu & _) Hlt. unfold sample_entries in He. cbn [concat app] in He.
        repeat (apply elem_of_cons in He as [->|He]; [vm_compute in Hlt; discriminate Hlt|]). by apply not_elem_of_nil in He.
      * intros (k & v & Hin & Hk & _ & Hlt & Hcov). unfold sample_entries in Hin. cbn [concat app] in Hin.
        repeat (apply elem_of_cons in Hin as [[= -> ->]|Hin]; [first [discriminate Hk|vm_compute in Hlt; discriminate Hlt|vm_compute in Hcov; discriminate Hcov]|]).
        by apply not_elem_of_nil in Hin.
    + intros (e & (He & Hu & _) & Hv & Hk & _ & Hh). apply Hh. exists (mkIKey [x61; x62; x63] 4 RangeDeletion), [x63].
      unfold sample_entries in He. cbn [concat app] in He.
      repeat (apply elem_of_cons in He as [->|He]; [first [discriminate Hu|discriminate Hk|
        split; [right; right; left|]; split; [done|]; split; [done|]; split; [done|]; vm_compute; reflexivity]|]).
      by apply not_elem_of_nil in He.
Defined.

(** A compaction whose second chunk cannot be written removes the first. *)
Definition second_fails (i : nat) : ChunkEnv :=
  match i with O => chunk_env_ok | _ => mkChunkEnv (mkEnv (Err Io) (Ok tt) (Ok tt)) (Some [x00]) (Ok tt) end.

Definition two_entries : list entry := [(mkIKey [x61] 5 Value, [x31]); (mkIKey [x62] 6 Value, [x33])].
Definition two_tables : list OpenTable :=
  match write_sst_try_sorted_body sample_env env_ok "a.sst" (Ok <$> two_entries) 2 true true with
  | Some (Ok (image, t)) => [mkOpen t (mkFiles (Ok image) None) (t_payload t)]
  | _ => []
  end.

Lemma merge_error_cleans_witness :
  let run := write_merged_tables_span sample_env "db" (λ _, true) 9 second_fails 7 two_tables (mkGc 0 false None false)
               1 4 None None None ∅ in
  run.2 = Some (Err Io) ∧ run.1 = ∅.
Proof.
  cbv zeta. assert (H : (write_merged_tables_span sample_env "db" (λ _, true) 9 second_fails 7 two_tables
    (mkGc 0 false None false) 1 4 None None None ∅).2 = Some (Err Io)) by (vm_compute; reflexivity).
  destruct (write_merged_tables_span _ _ _ _ _ _ _ _ _ _ _ _ _ _) as [d' r] eqn:E. cbn in H. subst r. split; [done|].
  destruct (merge_error_cleans sample_env "db" 9 second_fails 7 two_tables (mkGc 0 false None false) 1 4 None None None ∅ d' Io)
    as [_ Hd]; [done|exact E|]. apply Hd. by intros [|i].
Defined.
