(* ===== verification/Flush.v ===== *)
(** Flushing a memtable to a level-0 table: [write_l0_sst] and
    [write_l0_sst_for_family] ([sst/table_kernel.rs]), [write_imm_l0_file] and
    [write_imm_l0_file_for_family] ([db_kernel.rs]). The table is written
    without a file sync under a temporary name, renamed, and the directory is
    synced when the database is. Diagnostics are left out. *)

From S2P Require Import Prelude ErrorKernel KeyKernel BatchKernel WalFormat Visibility CompactGc OrdMap MemTable MemFamily MemRead MemIter Bloom SstBlock SstFile SstTable SstWrite SstOpen SstRead SstLookup SstScan TableMerge.

Local Open Scope Z_scope.

(** [MemTable::iter_internal], collected. *)
Definition iter_internal (m : MemTable) : option (list entry) :=
  it ← iter_internal_iter m Unbounded Unbounded; iter_drain (iter_fuel m) it.

(** [SstTable::with_cf] on the family name. *)
Definition with_cf (old cf : list byte) : list byte := if (length cf =? 0)%nat then old else cf.

(** What the environment does in a flush: the calls of a chunk, then
    [sync_dir]. *)
Record FlushEnv := mkFlushEnv { fe_chunk : ChunkEnv; fe_sync_dir : Result CoreError unit }.
Definition flush_env_ok : FlushEnv := mkFlushEnv chunk_env_ok (Ok tt).

(** [dir_sync_plan] *)
Inductive DirSyncPlan := SyncDirNow | SkipDirSync.
Definition dir_sync_required (sync : bool) : bool := sync.
Definition dir_sync_plan (sync : bool) : DirSyncPlan :=
  if dir_sync_required sync then SyncDirNow else SkipDirSync.

Section flush.
Context `{CC : Crc32c, CF : !Crc32cFile, LZ : Lz4}.
Context (we : WriterEnv).

(** [write_l0_sst]; [None] is a panic of the iterator. *)
Definition write_l0_sst (env : EnvOutcome) (path : string) (mem : MemTable) (sync : bool)
    : Comp (list byte * SstTable) :=
  match iter_internal mem with
  | None => None
  | Some items => write_sst_try_sorted_body we env path (Ok <$> items) (entries mem) sync true
  end.

(** [write_l0_sst_for_family], with the family of the table. *)
Definition write_l0_sst_for_family (env : EnvOutcome) (path : string) (mem : MemTable) (family : list byte) (sync : bool)
    : Comp (list byte * SstTable * list byte) :=
  match iter_internal mem with
  | None => None
  | Some items =>
      let items := filter (λ e : entry, key_in_cf_family (user_key e.1) family = true) items in
      let! '(image, t) := write_sst_try_sorted_body we env path (Ok <$> items) (entries mem) sync true in
      Some (Ok (image, t, with_cf [] family))
  end.

Context (dir : string) (rm : FileName → bool).

(** What both flushes do with a finished temporary file. *)
Definition install_l0 (fe : FlushEnv) (sync : bool) (num : Z) (image : list byte) (d : Directory)
    : Directory * Result CoreError unit :=
  match ce_rename (fe_chunk fe) with
  | Err x => (d, Err x)
  | Ok _ =>
      (<[sst_name num := image]> (base.delete (tmp_name num) d),
       match dir_sync_plan sync with SyncDirNow => fe_sync_dir fe | SkipDirSync => Ok tt end)
  end.

(** What a failed write leaves, less the files the flush removes. *)
Definition abandon_l0 (fe : FlushEnv) (num : Z) (d : Directory) : Directory :=
  let d := match ce_left (fe_chunk fe) with Some part => <[tmp_name num := part]> d | None => d end in
  remove_file rm (remove_file rm d (tmp_name num)) (sst_name num).

Definition write_imm_l0_file (fe : FlushEnv) (sync : bool) (imm : MemTable) (num : Z) (d : Directory)
    : Directory * Comp (SstTable * Z * string) :=
  match write_l0_sst (ce_env (fe_chunk fe)) (file_path dir (tmp_name num)) imm false with
  | None => (d, None)
  | Some (Err x) => (abandon_l0 fe num d, Some (Err x))
  | Some (Ok (image, t)) =>
      let d := <[tmp_name num := image]> d in
      let final_path := file_path dir (sst_name num) in
      let '(d, r) := install_l0 fe sync num image d in
      (d, Some (let? _ := r in Ok (with_path t final_path, num, final_path)))
  end.

Definition write_imm_l0_file_for_family (fe : FlushEnv) (sync : bool) (imm : MemTable) (num : Z) (family : list byte)
    (d : Directory) : Directory * Comp (option (SstTable * list byte * Z * string)) :=
  match write_l0_sst_for_family (ce_env (fe_chunk fe)) (file_path dir (tmp_name num)) imm family false with
  | None => (d, None)
  | Some (Err x) => (abandon_l0 fe num d, Some (Err x))
  | Some (Ok (image, t, cf)) =>
      let d := <[tmp_name num := image]> d in
      if batch_is_empty (Z.to_nat (t_num_entries t)) then (remove_file rm d (tmp_name num), Some (Ok None))
      else
        let final_path := file_path dir (sst_name num) in
        let '(d, r) := install_l0 fe sync num image d in
        (d, Some (let? _ := r in Ok (Some (with_path t final_path, with_cf cf family, num, final_path))))
  end.
End flush.

(** * Lemmas *)

Lemma in_range_all l : in_range_entries Unbounded Unbounded l = l.
Proof. induction l as [|e l IH]; [done|]. unfold in_range_entries in *. rewrite filter_cons_True by done. by rewrite IH. Qed.

(** The iteration of a table whose map holds one version per key, or whose tail
    is spilled. *)
Lemma iter_internal_ok m : mem_ok m → tail m = [] ∨ single_range m Unbounded Unbounded →
  ∃ l, iter_internal m = Some l ∧ StronglySorted ikey_lt l.*1 ∧ l ≡ₚ mem_entries m.
Proof.
  intros Hm Hone. unfold iter_internal.
  destruct (iter_internal_iter m Unbounded Unbounded) as [it|] eqn:E.
  - destruct (iter_internal_iter_ok m Unbounded Unbounded it Hm Hone E) as (l & Hl & Hs & Hp).
    rewrite in_range_all in Hp. by exists l.
  - exfalso. revert E. unfold iter_internal_iter, iter_internal_range_cursor. cbn. by case_match.
Qed.

Lemma mem_get_reads m uk s v : mem_ok m → proper_ranges (mem_entries m) →
  MemRead.get m uk s = Found v ↔ reads (mem_entries m) s uk v.
Proof.
  intros Hm Hp. rewrite <-lookup_log_reads by (done || apply Hm). unfold MemRead.get. rewrite get_entry_contents by done.
  destruct (lookup_log _ uk s) as [[n look]|]; [|naive_solver]. split; [intros ->; by exists n|by intros [n' [= -> ->]]].
Qed.

Section flush_proofs.
Context `{CC : Crc32c, CF : !Crc32cFile, LZ : Lz4, LL : !Lz4Laws}.
Context (we : WriterEnv) (dir : string) (rm : FileName → bool).

(** The environment's calls succeed. *)
Definition flush_works (fe : FlushEnv) : Prop := env_works (fe_chunk fe) ∧ fe_sync_dir fe = Ok tt.

(** A file and its table hold [es]. *)
Definition holds_file (d : Directory) (num : Z) (t : SstTable) (es : list entry) (hint : Z) : Prop :=
  ∃ image, d !! sst_name num = Some image ∧ d !! tmp_name num = None ∧
    table_of we (file_path dir (sst_name num)) es hint false true image t.

Lemma install_ok fe sync num image d : flush_works fe →
  install_l0 fe sync num image d = (<[sst_name num := image]> (base.delete (tmp_name num) d), Ok tt).
Proof. intros [[_ Hr] Hs]. unfold install_l0. rewrite Hr, Hs. by case_match. Qed.

Lemma installed_holds num image t es hint d :
  write_sst_try_sorted_body we env_ok (file_path dir (tmp_name num)) (Ok <$> es) hint false true = Some (Ok (image, t)) →
  holds_file (<[sst_name num := image]> (base.delete (tmp_name num) (<[tmp_name num := image]> d))) num
    (with_path t (file_path dir (sst_name num))) es hint.
Proof.
  intros Ew. exists image. split; [apply lookup_insert_eq|]. split; [rewrite lookup_insert_ne by done; apply lookup_delete_eq|].
  exists (with_path t (file_path dir (sst_name num))). split; [by eapply write_path|by left].
Qed.

Lemma write_imm_ok fe sync m num d l :
  flush_works fe → iter_internal m = Some l → sst_input we l (entries m) →
  ∃ d' t, write_imm_l0_file we dir rm fe sync m num d = (d', Some (Ok (t, num, file_path dir (sst_name num)))) ∧
    holds_file d' num t l (entries m) ∧ ∀ f, f ≠ sst_name num → f ≠ tmp_name num → d' !! f = d !! f.
Proof using CF LL.
  intros Hw Hit [H1 H2 H3 H4 H5].
  destruct (write_open_ok we (file_path dir (tmp_name num)) l (entries m) false true H1 H2 H3 H4 H5) as (image & t & _ & Ew & _).
  unfold write_imm_l0_file, write_l0_sst. rewrite Hit. destruct Hw as [[He Hr] Hs]. rewrite He, Ew.
  rewrite install_ok by done. cbn [res_bind]. eexists _, _. split; [reflexivity|]. split; [by apply installed_holds|].
  intros f Hf Hf'. rewrite lookup_insert_ne by done. rewrite lookup_delete_ne by done. by rewrite lookup_insert_ne.
Qed.

(** A table of the entries of a memtable answers as the memtable does. *)
Lemma table_get_mem m l hint path sync image t fs b uk s v :
  mem_ok m → proper_ranges (mem_entries m) → StronglySorted ikey_lt l.*1 → l ≡ₚ mem_entries m →
  sst_input we l hint → table_of we path l hint sync true image t → serves image fs → body_ok (img (t_payload t)) b →
  ∃ b' look, SstRead.get t fs uk s b = (b', Some look) ∧ (look = Found v ↔ MemRead.get m uk s = Found v).
Proof using CF LL.
  intros Hm Hp Hs Hperm Hi Hof Hsv Hb.
  destruct (table_of_ok we path l hint sync true image t fs Hi Hof Hsv) as [Ht Hfs].
  destruct (get_ok _ _ _ _ Ht _ _ Hfs uk s b Hb) as (b' & look & -> & _ & Hl). exists b', look. split; [done|].
  rewrite Hl by (by apply distinct_keys_NoDup, sorted_keys_nodup_keys). rewrite mem_get_reads by done.
  apply reads_ext. intros e. by rewrite Hperm.
Qed.

(** C14: a flush changes no read. Flushing a memtable whose spilled part has one
    version per key (or whose tail is spilled) and whose range deletions end after
    they start, when the environment's calls succeed and the entries fit the table
    format, ends with the table under its final name and no temporary file;
    the file opens; and for every key and snapshot a read of the table, as
    written or as reopened, resident or not, finds a value exactly when the
    memtable does. *)
Theorem flush_preserves_reads fe sync m num d :
  flush_works fe → mem_ok m → proper_ranges (mem_entries m) → tail m = [] ∨ single_range m Unbounded Unbounded →
  (∀ l, StronglySorted ikey_lt l.*1 → l ≡ₚ mem_entries m → sst_input we l (entries m)) →
  let path := file_path dir (sst_name num) in
  ∃ d' t image t', write_imm_l0_file we dir rm fe sync m num d = (d', Some (Ok (t, num, path))) ∧
    d' !! sst_name num = Some image ∧ d' !! tmp_name num = None ∧ sst_decode path image = Some (Ok t') ∧
    ∀ u fs b uk s v, u = t ∨ u = t' → serves image fs → body_ok (img (t_payload u)) b →
      ∃ b' look, SstRead.get u fs uk s b = (b', Some look) ∧ (look = Found v ↔ MemRead.get m uk s = Found v).
Proof using CF LL.
  intros Hw Hm Hp Hone Hfit path. destruct (iter_internal_ok m Hm Hone) as (l & Hit & Hs & Hperm).
  specialize (Hfit l Hs Hperm). destruct (write_imm_ok fe sync m num d l Hw Hit Hfit) as (d' & t & E & (image & H1 & H2 & Hof) & _).
  pose proof Hfit as [I1 I2 I3 I4 I5].
  destruct (write_open_ok we path l (entries m) false true I1 I2 I3 I4 I5) as (image' & t0 & t' & Ew & Eo & _).
  assert (image' = image) as -> by (destruct Hof as (? & Ew' & _); fold path in Ew'; congruence).
  exists d', t, image, t'. split_and!; try done. intros u fs b uk s v Hu Hsv Hb.
  eapply (table_get_mem m l (entries m) path false image u); try done.
  destruct Hu as [->| ->]; [done|]. exists t0. auto.
Qed.

(** A flush that fails to write leaves nothing behind: whatever the failed
    write left, when files can be removed and the number is fresh the directory
    is as before. *)
Theorem flush_error_cleans fe sync m num d x :
  (∀ f, rm f = true) → d !! sst_name num = None → d !! tmp_name num = None →
  write_l0_sst we (ce_env (fe_chunk fe)) (file_path dir (tmp_name num)) m false = Some (Err x) →
  write_imm_l0_file we dir rm fe sync m num d = (d, Some (Err x)).
Proof.
  intros Hr H1 H2 E. unfold write_imm_l0_file. rewrite E. f_equal. unfold abandon_l0, remove_file. rewrite !Hr.
  rewrite (delete_id (base.delete _ _)).
  - case_match; [by rewrite delete_insert_id|by apply delete_id].
  - rewrite lookup_delete_ne by done. case_match; [by rewrite lookup_insert_ne|done].
Qed.

(** A family flush writes the family's entries, or no file. For a memtable as
    above and any family, when the environment's calls succeed, either no
    version of the memtable is in the family and the flush answers nothing, with
    the directory as before when the temporary file can be removed; or the new
    table holds exactly the memtable's versions in the family, under the final
    name, with the family's name. *)
Theorem family_flush_holds fe sync m num family d :
  flush_works fe → mem_ok m → tail m = [] ∨ single_range m Unbounded Unbounded →
  rm (tmp_name num) = true → d !! tmp_name num = None → family ≠ [] →
  (∀ l, StronglySorted ikey_lt l.*1 → l ⊆ mem_entries m → sst_input we l (entries m)) →
  (write_imm_l0_file_for_family we dir rm fe sync m num family d = (d, Some (Ok None)) ∧
     ∀ e, e ∈ mem_entries m → key_in_cf_family (user_key e.1) family = false) ∨
  (∃ d' t l, write_imm_l0_file_for_family we dir rm fe sync m num family d =
       (d', Some (Ok (Some (t, family, num, file_path dir (sst_name num))))) ∧
     l ≠ [] ∧ holds_file d' num t l (entries m) ∧ StronglySorted ikey_lt l.*1 ∧
     ∀ e, e ∈ l ↔ e ∈ mem_entries m ∧ key_in_cf_family (user_key e.1) family = true).
Proof using CF LL.
  intros Hw Hm Hone Hrm Hd Hfam Hfit. destruct (iter_internal_ok m Hm Hone) as (l & Hit & Hs & Hperm).
  set (l' := filter (λ e : entry, key_in_cf_family (user_key e.1) family = true) l).
  assert (∀ e, e ∈ l' ↔ e ∈ mem_entries m ∧ key_in_cf_family (user_key e.1) family = true) as Hl'.
  { intros e. unfold l'. rewrite list_elem_of_filter, Hperm. tauto. }
  assert (StronglySorted ikey_lt l'.*1) as Hs' by (by apply sorted_lt_filter).
  assert (sst_input we l' (entries m)) as Hin by (apply Hfit; [done|]; intros e He; by apply Hl').
  pose proof Hin as [H1 H2 H3 H4 H5]. pose proof Hw as [[He _] _].
  destruct (write_open_ok we (file_path dir (tmp_name num)) l' (entries m) false true H1 H2 H3 H4 H5) as (image & t & t' & Ew & Eo & _).
  assert (t_num_entries t = Z.of_nat (length l')) as Hn.
  { destruct (table_of_ok we (file_path dir (tmp_name num)) l' (entries m) false true image t (mkFiles (Ok image) None) Hin) as [Ht _].
    - by exists t; split; [|left].
    - done.
    - apply (tk_n _ _ _ _ Ht). }
  unfold write_imm_l0_file_for_family, write_l0_sst_for_family. rewrite Hit, He. fold l'. rewrite Ew. cbn [comp_bind].
  rewrite Hn, Nat2Z.id. unfold with_cf. destruct family as [|c family]; [done|]. cbn [length Nat.eqb].
  destruct l' as [|e l''] eqn:El.
  - left. cbn. unfold remove_file. rewrite Hrm. rewrite delete_insert_id by done. split; [done|].
    intros e Hin'. apply not_true_iff_false. intros Hk. by apply (not_elem_of_nil e), Hl'.
  - right. cbn [batch_is_empty length Nat.eqb]. rewrite install_ok by done. cbn [res_bind].
    eexists _, _, (e :: l''). split; [reflexivity|]. split; [done|]. split; [by apply installed_holds|]. done.
Qed.

(** C37: a flush loses keys behind a spilled key with several versions. When the
    first key of the memtable's map has several versions and writes follow in
    the tail, the table the flush installs holds that key's versions and the
    tail, and nothing of the other keys of the map. *)
Theorem flush_loses_keys fe sync m num d uk vs rest :
  flush_works fe → mem_ok m → map m = (uk, Many vs) :: rest → vs ≠ [] → tail m ≠ [] →
  (∀ v w, v ∈ vs → w ∈ tail m → ikey_lt v.1 w.1) →
  sst_input we (vs ++ sort_entries (tail m)) (entries m) →
  ∃ d' t, write_imm_l0_file we dir rm fe sync m num d = (d', Some (Ok (t, num, file_path dir (sst_name num)))) ∧
    holds_file d' num t (vs ++ sort_entries (tail m)) (entries m) ∧
    ∀ e, e ∈ bindings rest → e ∈ mem_entries m ∧ e ∉ vs ++ sort_entries (tail m).
Proof using CF LL.
  intros Hw Hm Hmap Hvs Ht Hlt Hin.
  destruct (multi_version_key_ends_scan m Unbounded Unbounded uk vs rest) as (it & Eit & Hl); [|done|done|done| |].
  { rewrite <-Hmap. clear. induction (map m) as [|kv l IH]; [done|]. unfold om_range in *.
    rewrite filter_cons_True by done. by rewrite IH. }
  { intros v w Hv Hw' _. by apply Hlt. }
  rewrite in_range_all in Hl.
  destruct (write_imm_ok fe sync m num d (vs ++ sort_entries (tail m))) as (d' & t & E & Hh & _); [done| |done|].
  { unfold iter_internal. rewrite Eit. done. }
  exists d', t. split; [done|]. split; [done|]. intros e He.
  assert (mem_entries m = vs ++ bindings rest ++ tail m) as Hme.
  { unfold mem_entries. change (map_entries m) with (bindings (map m)). rewrite Hmap.
    change (bindings ((uk, Many vs) :: rest)) with (vs ++ bindings rest). by rewrite <-app_assoc. }
  split; [rewrite Hme; set_solver|]. pose proof (uniq_keys _ (mo_uniq m Hm)) as Hnd. rewrite Hme in Hnd.
  apply (NoDup_fmap_1 fst) in Hnd. apply NoDup_app in Hnd as (_ & Hd1 & (_ & Hd2 & _)%NoDup_app).
  rewrite elem_of_app, sort_entries_perm. intros [Hv|Hv]; [apply (Hd1 e Hv); set_solver|by apply (Hd2 e)].
Qed.
End flush_proofs.

(** ** Witnesses *)

#[local] Existing Instance poly_crc.
#[local] Existing Instance poly_file.
#[local] Existing Instance store_lz4.
#[local] Existing Instance store_laws.

(** Entries of a small table fit. *)
Lemma light_input we l hint :
  Forall entry_ok l → StronglySorted ikey_lt l.*1 → 0 ≤ hint → (length l ≤ 4048)%nat →
  Z.of_nat (weight l) + 4102 ≤ DEFAULT_MAX_UNCOMPRESSED_BLOCK_SIZE → sst_input we l hint.
Proof.
  intros H1 H2 H3 H4 H5. apply (light_segments we l hint) with (pre := []) (post := []); [done|by apply strict_sorted|done..|].
  by rewrite app_nil_r.
Qed.

Lemma weight_perm l l' : l ≡ₚ l' → weight l = weight l'.
Proof. unfold weight. induction 1; cbn [foldr] in *; lia. Qed.

(** The entries of a table are in bounds and few. *)
Definition light_mem (m : MemTable) : bool :=
  forallb (λ e : entry, (0 <=? sequence e.1) && (sequence e.1 <=? MAX_SEQUENCE_NUMBER) &&
    (Z.of_nat (length (user_key e.1)) + 8 <? BLOCK_HASH_MAGIC) && (Z.of_nat (length e.2) <=? U32_MAX)) (mem_entries m) &&
  (0 <=? entries m) && (length (mem_entries m) <=? 4048)%nat &&
  (Z.of_nat (weight (mem_entries m)) + 4102 <=? DEFAULT_MAX_UNCOMPRESSED_BLOCK_SIZE).

Lemma light_mem_entries m : light_mem m = true → Forall entry_ok (mem_entries m) ∧ 0 ≤ entries m ∧
  (length (mem_entries m) ≤ 4048)%nat ∧ Z.of_nat (weight (mem_entries m)) + 4102 ≤ DEFAULT_MAX_UNCOMPRESSED_BLOCK_SIZE.
Proof.
  unfold light_mem. rewrite !andb_true_iff, forallb_forall. intros [[[H1 H2] H3] H4]. split_and!; [|lia|by apply Nat.leb_le|lia].
  apply Forall_forall. intros e He. apply list_elem_of_In, H1 in He. unfold entry_ok. lia.
Qed.

Lemma light_mem_fits we m l : light_mem m = true → StronglySorted ikey_lt l.*1 → l ⊆+ mem_entries m → sst_input we l (entries m).
Proof.
  intros (H1 & H2 & H3 & H4)%light_mem_entries Hs Hsub. pose proof (submseteq_length _ _ Hsub) as Hlen.
  assert (weight l ≤ weight (mem_entries m))%nat as Hw.
  { apply submseteq_Permutation in Hsub as [k Hk]. rewrite (weight_perm _ _ Hk), weight_app. lia. }
  apply light_input; [|done|done|lia|lia]. rewrite Forall_forall in *. intros e He. apply H1. by eapply elem_of_submseteq.
Qed.

Lemma family_mem_single : single_range family_mem Unbounded Unbounded.
Proof.
  intros uk vers Hin _. revert Hin. vm_compute. intros Hin.
  repeat (apply elem_of_cons in Hin as [[= -> ->]|Hin]; [exact I|]). by apply not_elem_of_nil in Hin.
Qed.

Lemma family_mem_proper : proper_ranges (mem_entries family_mem).
Proof.
  intros e He Hk. revert He.
  match goal with |- e ∈ ?l → _ => let l' := eval vm_compute in l in change l with l' end. intros He.
  repeat (apply elem_of_cons in He as [->|He]; [first [discriminate Hk|reflexivity]|]). by apply not_elem_of_nil in He.
Qed.

Lemma flush_preserves_reads_witness :
  ∃ d' t image t', write_imm_l0_file sample_env "db" (λ _, true) flush_env_ok true family_mem 7 ∅ =
      (d', Some (Ok (t, 7, file_path "db" (sst_name 7)))) ∧
    d' !! sst_name 7 = Some image ∧ sst_decode (file_path "db" (sst_name 7)) image = Some (Ok t') ∧
    (∃ b', SstRead.get t' (mkFiles (Ok image) None) [x66; x00; x65] 4 (t_payload t') = (b', Some (Found [x34]))).
Proof.
  destruct (flush_preserves_reads sample_env "db" (λ _, true) flush_env_ok true family_mem 7 ∅)
    as (d' & t & image & t' & E & H1 & _ & Eo & Hr).
  - done.
  - apply family_mem_ok.
  - apply family_mem_proper.
  - right. apply family_mem_single.
  - intros l Hs Hp. apply light_mem_fits; [vm_compute; reflexivity|exact Hs|by rewrite Hp].
  - exists d', t, image, t'. split; [exact E|]. split; [exact H1|]. split; [exact Eo|].
    destruct (Hr t' (mkFiles (Ok image) None) (t_payload t') [x66; x00; x65] 4 [x34]) as (b' & look & Eg & Hl);
      [by right|apply sample_serves|apply body_ok_start|].
    assert (look = Found [x34]) as -> by (apply Hl; vm_compute; reflexivity). by exists b'.
Defined.

Lemma flush_error_cleans_witness :
  write_imm_l0_file sample_env "db" (λ _, true)
    (mkFlushEnv (mkChunkEnv (mkEnv (Ok tt) (Err Io) (Ok tt)) (Some [x00]) (Ok tt)) (Ok tt)) true family_mem 7 ∅ = (∅, Some (Err Io)).
Proof. apply flush_error_cleans; [done|done|done|vm_compute; reflexivity]. Defined.

Lemma family_flush_holds_witness :
  ∃ d' t l, write_imm_l0_file_for_family sample_env "db" (λ _, true) flush_env_ok true family_mem 7 [x66] ∅ =
      (d', Some (Ok (Some (t, [x66], 7, file_path "db" (sst_name 7))))) ∧ l ≠ [] ∧
    holds_file sample_env "db" d' 7 t l 4.
Proof.
  destruct (family_flush_holds sample_env "db" (λ _, true) flush_env_ok true family_mem 7 [x66] ∅)
    as [[_ Hno]|(d' & t & l & E & Hne & Hh & _)]; [done|apply family_mem_ok|right; apply family_mem_single|done|done|done| | |].
  - intros l Hs Hsub. apply light_mem_fits; [vm_compute; reflexivity|exact Hs|].
    apply NoDup_submseteq; [|exact Hsub]. by eapply (NoDup_fmap_1 fst), sorted_keys_nodup_keys.
  - specialize (Hno (mkIKey [x66; x00; x65] 4 Value, [x34])).
    assert (key_in_cf_family [x66; x00; x65] [x66] = false) as Hc; [|vm_compute in Hc; discriminate Hc].
    apply Hno. apply (bool_decide_unpack _). vm_compute. exact I.
  - exists d', t, l. auto.
Defined.

Lemma spilled_mem_ok : mem_ok spilled_mem.
Proof.
  unfold spilled_mem, put.
  apply insert_ok; [apply spill_ok; apply insert_ok; [apply insert_ok; [apply insert_ok; [apply mem_new_ok| |]| |]| |]| |];
    try (vm_compute; discriminate);
    match goal with |- fresh_id _ ?l => let l' := eval vm_compute in l in change l with l' end;
    intros x Hx; repeat (apply elem_of_cons in Hx as [->|Hx]; [done|]); by apply not_elem_of_nil in Hx.
Qed.

Lemma flush_loses_keys_witness :
  MemRead.get spilled_mem [x62] 4 = Found [x33] ∧
  ∃ d' t l, write_imm_l0_file sample_env "db" (λ _, true) flush_env_ok true spilled_mem 7 ∅ =
      (d', Some (Ok (t, 7, file_path "db" (sst_name 7)))) ∧
    holds_file sample_env "db" d' 7 t l 4 ∧ (mkIKey [x62] 3 Value, [x33]) ∉ l.
Proof.
  split; [vm_compute; reflexivity|].
  set (vs := [(mkIKey [x61] 2 Value, [x32]); (mkIKey [x61] 1 Value, [x31])]).
  destruct (flush_loses_keys sample_env "db" (λ _, true) flush_env_ok true spilled_mem 7 ∅ [x61] vs
    [([x62], One (mkIKey [x62] 3 Value, [x33]))]) as (d' & t & E & Hh & Hl).
  - done.
  - apply spilled_mem_ok.
  - vm_compute. reflexivity.
  - done.
  - vm_compute. discriminate.
  - intros v w Hv Hw. change (tail spilled_mem) with [(mkIKey [x63] 4 Value, [x34])] in Hw.
    apply list_elem_of_singleton in Hw as ->.
    apply elem_of_cons in Hv as [->|[->|Hv]%elem_of_cons]; [reflexivity|reflexivity|by apply not_elem_of_nil in Hv].
  - apply light_mem_fits; [vm_compute; reflexivity| |].
    + replace (vs ++ sort_entries (tail spilled_mem)) with (vs ++ [(mkIKey [x63] 4 Value, [x34])]) by (vm_compute; reflexivity).
      repeat (constructor; [|repeat constructor]). constructor.
    + apply (bool_decide_unpack _). vm_compute. exact I.
  - exists d', t, (vs ++ sort_entries (tail spilled_mem)). split; [exact E|]. split; [exact Hh|].
    apply Hl. apply (bool_decide_unpack _). vm_compute. exact I.
Defined.
