(* ===== verification/Manifest.v ===== *)
(** The manifest: [manifest_mod_kernel.rs]. A version set lists the live tables
    with their levels and families; it is stored whole in a checksummed file
    [MANIFEST-nnnnnn] that the file [CURRENT] names. This file holds the codecs;
    [ManifestStore] holds the commit protocol. *)

From S2P Require Import Prelude Text ErrorKernel WalFormat SstFile.

Local Open Scope Z_scope.

Definition CURRENT_FILE : text := lit "CURRENT".
Definition CURRENT_TMP : text := lit "CURRENT.tmp".
Definition MANIFEST_PREFIX : text := lit "MANIFEST-".
Definition MAGIC : list byte := [x50; x44; x42; x4d].
Definition FORMAT_VERSION_V1 : Z := 1.
Definition FORMAT_VERSION_V2 : Z := 2.
Definition FORMAT_VERSION_V3 : Z := 3.
Definition FORMAT_VERSION_V4 : Z := 4.
Definition FORMAT_VERSION : Z := 5.

Record VersionSet := mkVersionSet {
  next_file_num : Z;
  sst_file_nums : list Z;
  sst_levels : list Z;
  manifest_file_num : Z;
  vlog_use_new : bool;
  earliest_readable_seq : Z;
  sst_cfs : list text
}.

Definition vs_empty : VersionSet := mkVersionSet 1 [] [] 0 false 0 [].

Definition manifest_name (num : Z) : text := MANIFEST_PREFIX ++ fmt_06 num.
Definition sst_file_name (num : Z) : text := fmt_06 num ++ lit ".sst".

(** Pad to a length with a default, then cut to it. *)
Definition resize_to {A} (n : nat) (d : A) (l : list A) : list A := take n (l ++ replicate (n - length l) d).

Definition normalize_cfs (vs : VersionSet) : VersionSet :=
  mkVersionSet (next_file_num vs) (sst_file_nums vs) (sst_levels vs) (manifest_file_num vs) (vlog_use_new vs)
    (earliest_readable_seq vs) (resize_to (length (sst_file_nums vs)) [] (sst_cfs vs)).

Definition normalize_levels (vs : VersionSet) : VersionSet :=
  normalize_cfs (mkVersionSet (next_file_num vs) (sst_file_nums vs) (resize_to (length (sst_file_nums vs)) 0 (sst_levels vs))
    (manifest_file_num vs) (vlog_use_new vs) (earliest_readable_seq vs) (sst_cfs vs)).

(** * Encoding *)

(** [u16::try_from(len).unwrap_or(u16::MAX)] bytes of a name, with the length
    in front. *)
Definition name_bytes (name : list byte) : list byte :=
  let len := Z.min (Z.of_nat (length name)) U16_MAX in
  to_le 2 len ++ take (Z.to_nat len) name.

Definition payload_bytes (vs : VersionSet) : list byte :=
  let n := length (sst_file_nums vs) in
  MAGIC ++ to_le 4 FORMAT_VERSION ++ to_le 8 (next_file_num vs) ++ to_le 8 (manifest_file_num vs) ++ to_le 4 (u32_or_max n) ++
  (seq 0 n ≫= λ i, to_le 8 (default 0 (sst_file_nums vs !! i)) ++ to_le 4 (default 0 (sst_levels vs !! i))) ++
  [if vlog_use_new vs then x01 else x00] ++ to_le 8 (earliest_readable_seq vs) ++
  (seq 0 n ≫= λ i, name_bytes (default [] (as_bytes <$> sst_cfs vs !! i))).

Definition encode `{Crc32c} (vs : VersionSet) : list byte :=
  let buf := payload_bytes vs in buf ++ to_le 4 (crc32c buf).

(** * Decoding *)

Definition corrupt {A} (msg : string) : Result CoreError A := Err (CorruptManifest [Lit msg]).

Definition le_uint (width : nat) (buf : list byte) (off : nat) : Result CoreError Z :=
  if (off + width <=? length buf)%nat then Ok (from_le (take width (drop off buf))) else corrupt "truncated".
Definition le_u32 := le_uint 4.
Definition le_u64 := le_uint 8.

(** Lengths of the fixed layouts of versions 1 to 4. *)
Definition exactly (payload : list byte) (need : nat) : Result CoreError unit :=
  if (length payload <? need)%nat then corrupt "truncated file list"
  else if negb (length payload =? need)%nat then corrupt "trailing garbage before CRC"
  else Ok tt.

(** File numbers alone (version 1), and with levels (versions 2 to 4). *)
Fixpoint read_nums (payload : list byte) (off n : nat) : Result CoreError (list Z) :=
  match n with
  | O => Ok []
  | S n => let? num := le_u64 payload off in let? nums := read_nums payload (off + 8) n in Ok (num :: nums)
  end.

Fixpoint read_files (payload : list byte) (base n : nat) : Result CoreError (list Z * list Z) :=
  match n with
  | O => Ok ([], [])
  | S n =>
      let? num := le_u64 payload base in let? level := le_u32 payload (base + 8) in
      let? '(nums, levels) := read_files payload (base + 12) n in Ok (num :: nums, level :: levels)
  end.

(** Version 5: the same list, each entry checked before it is read. *)
Fixpoint read_files_checked (payload : list byte) (off n : nat) : Result CoreError (list Z * list Z) :=
  match n with
  | O => Ok ([], [])
  | S n =>
      if (length payload <? off + 12)%nat then corrupt "truncated file list"
      else
        let? num := le_u64 payload off in let? level := le_u32 payload (off + 8) in
        let? '(nums, levels) := read_files_checked payload (off + 12) n in Ok (num :: nums, level :: levels)
  end.

(** Family names; the offset after the last one. [None]: an index out of range. *)
Fixpoint read_cfs (payload : list byte) (off n : nat) : Comp (list text * nat) :=
  match n with
  | O => Some (Ok ([], off))
  | S n =>
      if (length payload <? off + 2)%nat then Some (corrupt "truncated cf names")
      else
        match payload !! off, payload !! (off + 1)%nat with
        | Some a, Some b =>
            let len := Z.to_nat (from_le [a; b]) in
            let off := (off + 2)%nat in
            if (length payload <? off + len)%nat then Some (corrupt "truncated cf name")
            else
              let name := from_utf8_lossy (take len (drop off payload)) in
              let! '(names, off) := read_cfs payload (off + len) n in
              Some (Ok (name :: names, off))
        | _, _ => None
        end
  end.

Definition flag_at (payload : list byte) (off : nat) : option bool :=
  b ← payload !! off; Some (negb (b2Z b =? 0)).

Section decode.
Context (payload : list byte) (next_num manifest_num : Z) (n : nat).

Definition decode_v1 : Comp VersionSet :=
  let! _ := Some (exactly payload (28 + n * 8)) in
  let! nums := Some (read_nums payload 28 n) in
  Some (Ok (mkVersionSet next_num nums (replicate n 0) manifest_num false 0 (replicate n []))).

Definition decode_v2 : Comp VersionSet :=
  let! _ := Some (exactly payload (28 + n * 12)) in
  let! '(nums, levels) := Some (read_files payload 28 n) in
  Some (Ok (mkVersionSet next_num nums levels manifest_num false 0 (replicate n []))).

Definition decode_v3 : Comp VersionSet :=
  let! _ := Some (exactly payload (28 + n * 12 + 1)) in
  let! '(nums, levels) := Some (read_files payload 28 n) in
  match flag_at payload (28 + n * 12) with
  | None => None
  | Some flag => Some (Ok (mkVersionSet next_num nums levels manifest_num flag 0 (replicate n [])))
  end.

Definition decode_v4 : Comp VersionSet :=
  let! _ := Some (exactly payload (28 + n * 12 + 1 + 8)) in
  let! '(nums, levels) := Some (read_files payload 28 n) in
  let flag_off := (28 + n * 12)%nat in
  match flag_at payload flag_off with
  | None => None
  | Some flag =>
      let! earliest := Some (le_u64 payload (flag_off + 1)) in
      Some (Ok (mkVersionSet next_num nums levels manifest_num flag earliest (replicate n [])))
  end.

Definition decode_v5 : Comp VersionSet :=
  let! '(nums, levels) := Some (read_files_checked payload 28 n) in
  let off := (28 + n * 12)%nat in
  if (length payload <? off + 1 + 8)%nat then Some (corrupt "truncated file list")
  else
    match flag_at payload off with
    | None => None
    | Some flag =>
        let! earliest := Some (le_u64 payload (off + 1)) in
        let! '(names, off) := read_cfs payload (off + 9) n in
        if negb (length payload =? off)%nat then Some (corrupt "trailing garbage before CRC")
        else Some (Ok (mkVersionSet next_num nums levels manifest_num flag earliest names))
    end.
End decode.

Definition decode `{Crc32c} (buf : list byte) : Comp VersionSet :=
  if (length buf <? 32)%nat then Some (corrupt "too short")
  else
    let payload := take (length buf - 4) buf in
    let stored := from_le (drop (length buf - 4) buf) in
    let computed := crc32c payload in
    if negb (crc_match_ok stored computed)
    then Some (Err (CorruptManifest [Lit "CRC mismatch: stored "; Num stored; Lit ", computed "; Num computed]))
    else if negb (bool_decide (take 4 payload = MAGIC)) then Some (corrupt "bad magic")
    else
      let! version := Some (le_u32 payload 4) in
      let! next_num := Some (le_u64 payload 8) in
      let! manifest_num := Some (le_u64 payload 16) in
      let! n := Some (le_u32 payload 24) in
      if 1000000 <? n then Some (Err (CorruptManifest [Lit "implausible SST count "; Num n]))
      else
        let n := Z.to_nat n in
        if version =? FORMAT_VERSION_V1 then decode_v1 payload next_num manifest_num n
        else if version =? FORMAT_VERSION_V2 then decode_v2 payload next_num manifest_num n
        else if version =? FORMAT_VERSION_V3 then decode_v3 payload next_num manifest_num n
        else if version =? FORMAT_VERSION_V4 then decode_v4 payload next_num manifest_num n
        else if version =? FORMAT_VERSION then decode_v5 payload next_num manifest_num n
        else Some (Err (CorruptManifest [Lit "unsupported version "; Num version])).

(** * The pointer file *)

(** What [store] writes into [CURRENT]. *)
Definition current_text (name : text) (crc : Z) : text := name ++ [10] ++ fmt_08x crc ++ [10].

Definition parse_current_pointer (t : text) : Result CoreError (text * option Z) :=
  let ls := lines (trim t) in
  let name := trim (default [] (head ls)) in
  if bool_decide (name = []) then corrupt "empty CURRENT"
  else if negb (text_starts_with name MANIFEST_PREFIX) || contains_char name 47 || contains_char name 92 || contains_char name 0
  then Err (CorruptManifest [Lit "bad CURRENT contents: "; Str name])
  else
    match trim <$> ls !! 1%nat with
    | None | Some [] => Ok (name, None)
    | Some hex =>
        match from_str_radix 16 U32_MAX hex with
        | None => Err (CorruptManifest [Lit "CURRENT crc not hex: "; Str hex])
        | Some v => Ok (name, Some v)
        end
    end.

(** * Names *)

(** [Path::extension] of a file name: what follows the last dot, unless that
    dot starts the name. *)
Definition after_last_dot (name : text) : option text :=
  let r := reverse name in
  match list_find (λ c, c = 46) r with
  | None => None
  | Some (i, _) => if (S i =? length name)%nat then None else Some (reverse (take i r))
  end.

Definition lower (c : Z) : Z := if (65 <=? c) && (c <=? 90) then c + 32 else c.

Definition is_tmp_name (name : text) : bool :=
  match after_last_dot name with
  | None => false
  | Some ext => bool_decide (lower <$> ext = lit "tmp")
  end.

Definition is_ascii_digit (c : Z) : bool := (48 <=? c) && (c <=? 57).

Definition parse_sst_name (name : text) : option Z :=
  stem ← strip_suffix name (lit ".sst");
  if bool_decide (stem = []) || negb (forallb is_ascii_digit stem) then None
  else from_str_radix 10 U64_MAX stem.

(** * Lemmas *)

(** ** Reading what was written *)

Lemma le_uint_at w pre z post : 0 ≤ z < 256 ^ Z.of_nat w → le_uint w (pre ++ to_le w z ++ post) (length pre) = Ok z.
Proof.
  intros Hz. unfold le_uint. rewrite !length_app, length_to_le.
  rewrite (proj2 (Nat.leb_le _ _)) by lia. rewrite drop_app_length, take_app_length' by (by rewrite length_to_le).
  by rewrite from_le_to_le.
Qed.

Lemma le_uint_at' w pre z post buf off :
  buf = pre ++ to_le w z ++ post → off = length pre → 0 ≤ z < 256 ^ Z.of_nat w → le_uint w buf off = Ok z.
Proof. intros -> ->. apply le_uint_at. Qed.

Lemma lookup_seq_resize {A} (n : nat) (d : A) (l : list A) : (λ i, default d (l !! i)) <$> seq 0 n = resize_to n d l.
Proof.
  apply list_eq. intros i. rewrite list_lookup_fmap. unfold resize_to. destruct (decide (i < n)%nat) as [Hi|Hi].
  - rewrite lookup_seq_lt, lookup_take_lt by lia. cbn. destruct (l !! i) as [x|] eqn:E.
    + by rewrite (lookup_app_l_Some _ _ _ _ E).
    + apply lookup_ge_None in E. rewrite lookup_app_r by done. rewrite lookup_replicate_2 by lia. done.
  - rewrite lookup_seq_ge, lookup_take_ge by lia. done.
Qed.

(** A number list with its levels fits the widths. *)
Definition file_ok (vs : VersionSet) (i : nat) : Prop :=
  0 ≤ default 0 (sst_file_nums vs !! i) ≤ U64_MAX ∧ 0 ≤ default 0 (sst_levels vs !! i) ≤ U32_MAX.

Lemma read_files_at vs payload pre post i n :
  (∀ j, (i ≤ j < i + n)%nat → file_ok vs j) →
  payload = pre ++ (seq i n ≫= λ i, to_le 8 (default 0 (sst_file_nums vs !! i)) ++ to_le 4 (default 0 (sst_levels vs !! i))) ++ post →
  read_files_checked payload (length pre) n =
    Ok ((λ i, default 0 (sst_file_nums vs !! i)) <$> seq i n, (λ i, default 0 (sst_levels vs !! i)) <$> seq i n).
Proof.
  revert payload pre i. induction n as [|n IH]; intros payload pre i Hok ->; [done|]. cbn [seq mbind list_bind read_files_checked fmap list_fmap].
  destruct (Hok i) as [H1 H2]; [lia|]. unfold U64_MAX, U32_MAX in *.
  set (a := to_le 8 _). set (b := to_le 4 _). set (rest := seq (S i) n ≫= _).
  rewrite (proj2 (Nat.ltb_ge _ _)) by (rewrite !length_app; unfold a, b; rewrite !length_to_le; lia).
  unfold le_u64, le_u32. rewrite (le_uint_at' 8 pre (default 0 (sst_file_nums vs !! i)) (b ++ rest ++ post))
    by (rewrite <-?app_assoc; done || lia). cbn [res_bind].
  rewrite (le_uint_at' 4 (pre ++ a) (default 0 (sst_levels vs !! i)) (rest ++ post)); [|by rewrite <-!app_assoc| |lia]; cycle 1.
  { rewrite length_app. unfold a. rewrite length_to_le. lia. }
  cbn [res_bind]. replace (length pre + 12)%nat with (length (pre ++ a ++ b)) by (rewrite !length_app; unfold a, b; rewrite !length_to_le; lia).
  rewrite (IH _ (pre ++ a ++ b) (S i)); [done|intros j Hj; apply Hok; lia|]. by rewrite <-!app_assoc.
Qed.

(** A family name that encodes in at most [u16::MAX] bytes. *)
Definition cf_ok (name : text) : Prop := Forall is_char name ∧ Z.of_nat (length (as_bytes name)) ≤ U16_MAX.

Lemma cf_ok_nil : cf_ok [].
Proof. by split; [constructor|]. Qed.

Lemma read_cfs_at (cfs : list text) payload pre post i n :
  Forall cf_ok cfs →
  payload = pre ++ (seq i n ≫= λ i, name_bytes (default [] (as_bytes <$> cfs !! i))) ++ post →
  read_cfs payload (length pre) n = Some (Ok ((λ i, default [] (cfs !! i)) <$> seq i n, (length payload - length post)%nat)).
Proof.
  intros Hok. revert payload pre i. induction n as [|n IH]; intros payload pre i ->.
  { cbn [seq mbind list_bind read_cfs app fmap list_fmap]. do 4 f_equal. rewrite length_app. lia. }
  cbn [seq mbind list_bind read_cfs fmap list_fmap]. set (nm := default [] (cfs !! i)).
  assert (default [] (as_bytes <$> cfs !! i) = as_bytes nm) as -> by (unfold nm; by destruct (cfs !! i)).
  assert (cf_ok nm) as [Hc Hl].
  { unfold nm. destruct (cfs !! i) as [x|] eqn:E; [|apply cf_ok_nil]. cbn. eapply Forall_lookup_1; done. }
  set (rest := seq (S i) n ≫= _). unfold name_bytes. rewrite Z.min_l, Nat2Z.id, take_ge by lia.
  set (len := Z.of_nat (length (as_bytes nm))) in *. unfold U16_MAX in Hl.
  assert (∃ a b, to_le 2 len = [a; b]) as (a & b & Eab) by (by eexists _, _).
  assert (from_le [a; b] = len) as Hfl by (rewrite <-Eab; apply from_le_to_le; lia).
  rewrite Eab. cbn [app]. rewrite <-!app_assoc. cbn [app].
  rewrite (proj2 (Nat.ltb_ge _ _)) by (rewrite length_app; cbn [length]; lia).
  rewrite list_lookup_middle by done. rewrite (lookup_app_r pre) by lia. replace (length pre + 1 - length pre)%nat with 1%nat by lia.
  cbn [lookup list_lookup]. rewrite Hfl. unfold len. rewrite Nat2Z.id.
  rewrite (proj2 (Nat.ltb_ge _ _)) by (rewrite length_app; cbn [length]; rewrite length_app; lia).
  replace (length pre + 2 + length (as_bytes nm))%nat with (length (pre ++ a :: b :: as_bytes nm)) by (rewrite length_app; cbn; lia).
  rewrite (IH _ (pre ++ a :: b :: as_bytes nm) (S i)); [|by rewrite <-!app_assoc].
  cbn [comp_bind]. do 4 f_equal. replace (length pre + 2)%nat with (length (pre ++ [a; b])) by (rewrite length_app; cbn; lia).
  change (pre ++ a :: b :: as_bytes nm ++ rest ++ post) with (pre ++ [a; b] ++ as_bytes nm ++ rest ++ post).
  rewrite app_assoc, drop_app_length, take_app_length. by apply from_utf8_lossy_as_bytes.
Qed.

Definition seq_files (vs : VersionSet) (n : nat) : list byte :=
  seq 0 n ≫= λ i, to_le 8 (default 0 (sst_file_nums vs !! i)) ++ to_le 4 (default 0 (sst_levels vs !! i)).

Lemma length_seq_files vs n : length (seq_files vs n) = (n * 12)%nat.
Proof.
  unfold seq_files. assert (∀ i, length (seq i n ≫= λ i, to_le 8 (default 0 (sst_file_nums vs !! i)) ++
    to_le 4 (default 0 (sst_levels vs !! i))) = (n * 12)%nat) as H; [|apply H].
  induction n as [|n IH]; intros i; [done|]. cbn [seq mbind list_bind]. rewrite !length_app, !length_to_le, IH. lia.
Qed.

(** What the encoder can represent. *)
Record vs_ok (vs : VersionSet) : Prop := {
  vo_count : Z.of_nat (length (sst_file_nums vs)) ≤ 1000000;
  vo_next : 0 ≤ next_file_num vs ≤ U64_MAX;
  vo_manifest : 0 ≤ manifest_file_num vs ≤ U64_MAX;
  vo_earliest : 0 ≤ earliest_readable_seq vs ≤ U64_MAX;
  vo_nums : Forall (λ z, 0 ≤ z ≤ U64_MAX) (sst_file_nums vs);
  vo_levels : Forall (λ z, 0 ≤ z ≤ U32_MAX) (sst_levels vs);
  vo_cfs : Forall cf_ok (sst_cfs vs)
}.

Lemma default_range l i m : 0 ≤ m → Forall (λ z, 0 ≤ z ≤ m) l → 0 ≤ default 0 (l !! i) ≤ m.
Proof. intros Hm Hf. destruct (l !! i) as [z|] eqn:E; cbn; [|lia]. by eapply (Forall_lookup_1 _ _ _ _ Hf). Qed.

Lemma vs_ok_file vs i : vs_ok vs → file_ok vs i.
Proof. intros H. split; apply default_range; try done; apply H. Qed.

Section round_trip.
Context `{CC : Crc32c} (vs : VersionSet) (Hvs : vs_ok vs).
Local Abbreviation n := (length (sst_file_nums vs)).
Local Abbreviation P := (payload_bytes vs).

Lemma decode_v5_payload :
  decode_v5 P (next_file_num vs) (manifest_file_num vs) n = Some (Ok (normalize_levels vs)).
Proof using Hvs.
  set (hd := MAGIC ++ to_le 4 FORMAT_VERSION ++ to_le 8 (next_file_num vs) ++ to_le 8 (manifest_file_num vs) ++ to_le 4 (u32_or_max n)).
  set (flag := if vlog_use_new vs then x01 else x00). set (er := to_le 8 (earliest_readable_seq vs)).
  set (names := seq 0 n ≫= λ i, name_bytes (default [] (as_bytes <$> sst_cfs vs !! i))).
  assert (P = hd ++ seq_files vs n ++ flag :: er ++ names) as EP by (unfold payload_bytes, hd; rewrite <-!app_assoc; done).
  assert (length hd = 28%nat) as Hhd by (unfold hd; rewrite !length_app, !length_to_le; done).
  assert (length (hd ++ seq_files vs n) = 28 + n * 12)%nat as Hoff by (rewrite length_app, Hhd, length_seq_files; done).
  unfold decode_v5. rewrite <-Hhd at 1. rewrite (read_files_at vs P hd (flag :: er ++ names) 0 n); [|intros; by apply vs_ok_file|by rewrite EP].
  cbn [comp_bind]. rewrite (proj2 (Nat.ltb_ge _ _)); cycle 1.
  { rewrite EP, app_assoc, length_app, Hoff. cbn [length]. rewrite length_app. unfold er. rewrite length_to_le. lia. }
  assert (flag_at P (28 + n * 12) = Some (vlog_use_new vs)) as ->.
  { unfold flag_at. rewrite EP, app_assoc, list_lookup_middle by done. cbn. unfold flag. by destruct (vlog_use_new vs). }
  unfold le_u64. rewrite (le_uint_at' 8 ((hd ++ seq_files vs n) ++ [flag]) (earliest_readable_seq vs) names); cycle 1.
  { rewrite EP, <-!app_assoc. done. }
  { rewrite length_app, Hoff. done. }
  { pose proof (vo_earliest vs Hvs). unfold U64_MAX in *. lia. }
  cbn [comp_bind]. replace (28 + n * 12 + 9)%nat with (length ((hd ++ seq_files vs n) ++ flag :: er))
    by (rewrite length_app, Hoff; cbn [length]; unfold er; rewrite length_to_le; lia).
  rewrite (read_cfs_at (sst_cfs vs) P _ [] 0 n); [|apply Hvs|rewrite EP, app_nil_r, <-!app_assoc; done].
  cbn [comp_bind length]. rewrite Nat.sub_0_r, Nat.eqb_refl. cbn [negb].
  rewrite !lookup_seq_resize. do 2 f_equal. unfold normalize_levels, normalize_cfs. cbn. f_equal.
  unfold resize_to. rewrite Nat.sub_diag. cbn. by rewrite app_nil_r, take_ge.
Qed.

Lemma decode_encode_vs : decode (encode vs) = Some (Ok (normalize_levels vs)).
Proof using Hvs.
  unfold encode, decode. set (p := payload_bytes vs).
  assert (∃ tl, p = MAGIC ++ to_le 4 FORMAT_VERSION ++ to_le 8 (next_file_num vs) ++ to_le 8 (manifest_file_num vs) ++ to_le 4 (u32_or_max n) ++ tl) as [tl Ep].
  { eexists. unfold p, payload_bytes. reflexivity. }
  assert (28 ≤ length p)%nat as Hlen by (rewrite Ep, !length_app, !length_to_le; cbn; lia).
  rewrite length_app, length_to_le, (proj2 (Nat.ltb_ge _ _)) by lia.
  replace (length p + 4 - 4)%nat with (length p) by lia. rewrite take_app_length, drop_app_length.
  pose proof (crc32c_append_u32 0 p) as Hcrc. fold (crc32c p) in Hcrc. unfold U32_MAX in Hcrc.
  rewrite from_le_to_le by lia. unfold crc_match_ok. rewrite Z.eqb_refl. cbn [negb].
  rewrite bool_decide_eq_true_2 by (by rewrite Ep). cbn [negb].
  pose proof (vo_next vs Hvs). pose proof (vo_manifest vs Hvs). pose proof (vo_count vs Hvs). unfold U64_MAX in *.
  assert (u32_or_max n = Z.of_nat n) as En by (unfold u32_or_max, U32_MAX; lia).
  unfold le_u32, le_u64.
  assert (le_uint 4 p 4 = Ok FORMAT_VERSION) as ->
    by (eapply (le_uint_at' 4 MAGIC); [exact Ep|done|unfold FORMAT_VERSION; lia]).
  assert (le_uint 8 p 8 = Ok (next_file_num vs)) as ->
    by (eapply (le_uint_at' 8 (MAGIC ++ to_le 4 FORMAT_VERSION)); [rewrite Ep, <-!app_assoc; reflexivity|done|lia]).
  assert (le_uint 8 p 16 = Ok (manifest_file_num vs)) as ->
    by (eapply (le_uint_at' 8 (MAGIC ++ to_le 4 FORMAT_VERSION ++ to_le 8 (next_file_num vs)));
        [rewrite Ep, <-!app_assoc; reflexivity|done|lia]).
  assert (le_uint 4 p 24 = Ok (u32_or_max n)) as ->
    by (eapply (le_uint_at' 4 (MAGIC ++ to_le 4 FORMAT_VERSION ++ to_le 8 (next_file_num vs) ++ to_le 8 (manifest_file_num vs)));
        [rewrite Ep, <-!app_assoc; reflexivity|done|rewrite En; lia]).
  cbn [comp_bind]. rewrite En, (proj2 (Z.ltb_ge _ _)) by lia. rewrite Nat2Z.id. cbn. apply decode_v5_payload.
Qed.
End round_trip.

(** ** The pointer file *)

(** Letters, digits and the hyphen. *)
Definition plain (c : Z) : Prop := c = 45 ∨ 48 ≤ c ≤ 57 ∨ 65 ≤ c ≤ 90 ∨ 97 ≤ c ≤ 122.

Lemma plain_not_space c : plain c → is_whitespace c = false.
Proof. unfold plain, is_whitespace. lia. Qed.

Lemma plain_is_char c : plain c → is_char c.
Proof. unfold plain, is_char. lia. Qed.

Lemma digits_plain width fuel base n :
  1 < base ≤ 36 → 0 ≤ n → Forall plain (pad_zero width (digit_char <$> digits fuel base n)).
Proof.
  intros Hb Hn. unfold pad_zero. apply Forall_app. split.
  - apply Forall_replicate. unfold plain. lia.
  - apply Forall_fmap. eapply Forall_impl; [apply digits_bound; lia|]. intros d Hd. cbn in Hd. unfold compose, plain, digit_char. destruct (Z.ltb_spec d 10); lia.
Qed.

Lemma manifest_name_plain num : 0 ≤ num → Forall plain (manifest_name num).
Proof.
  intros Hn. unfold manifest_name. apply Forall_app. split; [|by apply digits_plain].
  change MANIFEST_PREFIX with [77; 65; 78; 73; 70; 69; 83; 84; 45]. unfold plain. repeat (constructor; [lia|]). constructor.
Qed.

Lemma fmt_08x_plain n : 0 ≤ n → Forall plain (fmt_08x n).
Proof. intros. by apply digits_plain. Qed.

Lemma trim_start_plain c t : plain c → trim_start (c :: t) = c :: t.
Proof. intros H. cbn. by rewrite plain_not_space. Qed.

Lemma trim_plain t : Forall plain t → trim t = t.
Proof.
  intros Ht. assert (∀ t, Forall plain t → trim_start t = t) as Hs.
  { intros [|c u] Hu; [done|]. apply Forall_cons in Hu as [Hc _]. by apply trim_start_plain. }
  unfold trim, trim_end. rewrite (Hs t) by done. rewrite Hs by (by apply Forall_reverse). apply reverse_involutive.
Qed.

Lemma split_lines_plain cur t rest : Forall plain t → split_lines cur (t ++ rest) = split_lines (cur ++ t) rest.
Proof.
  intros Ht. revert cur. induction Ht as [|c t Hc Ht IH]; intros cur; [by rewrite app_nil_r|]. cbn [app split_lines].
  destruct (Z.eqb_spec c 10) as [->|_]; [unfold plain in Hc; lia|]. rewrite IH. by rewrite <-app_assoc.
Qed.

Lemma lines_two a b : Forall plain a → Forall plain b → b ≠ [] → lines (a ++ [10] ++ b) = [a; b].
Proof.
  intros Ha Hb Hne. unfold lines. rewrite split_lines_plain by done. cbn [app split_lines Z.eqb Pos.eqb]. f_equal.
  - destruct (reverse a) as [|c r] eqn:E; [done|]. assert (plain c) as Hc.
    { apply Forall_reverse in Ha. rewrite E in Ha. by apply Forall_cons in Ha as [? _]. }
    assert (c ≠ 13) as Hn by (unfold plain in Hc; lia). destruct c as [|c|c]; try done. do 4 (destruct c as [c|c|]; try done).
  - rewrite <-(app_nil_r b) at 1. rewrite split_lines_plain by done. cbn. by rewrite bool_decide_eq_false_2.
Qed.

Lemma plain_contains t c : Forall plain t → ¬ plain c → contains_char t c = false.
Proof.
  intros Ht Hc. unfold contains_char. apply not_true_iff_false. rewrite existsb_exists. intros (x & Hx & ->%Z.eqb_eq).
  apply Hc. rewrite Forall_forall in Ht. apply Ht. by apply list_elem_of_In.
Qed.

Lemma fmt_08x_parse crc : 0 ≤ crc ≤ U32_MAX → from_str_radix 16 U32_MAX (fmt_08x crc) = Some crc.
Proof. intros H. apply from_str_radix_padded; unfold U32_MAX in *; lia. Qed.

Lemma fmt_06_parse num : 0 ≤ num ≤ U64_MAX → from_str_radix 10 U64_MAX (fmt_06 num) = Some num.
Proof. intros H. apply from_str_radix_padded; unfold U64_MAX in *; lia. Qed.

Lemma fmt_06_inj a b : 0 ≤ a ≤ U64_MAX → 0 ≤ b ≤ U64_MAX → fmt_06 a = fmt_06 b → a = b.
Proof. intros Ha Hb H%(f_equal (from_str_radix 10 U64_MAX)). rewrite !fmt_06_parse in H by done. by injection H. Qed.

Lemma fmt_ne width fuel base n : (0 < fuel)%nat → pad_zero width (digit_char <$> digits fuel base n) ≠ [].
Proof. intros Hf [_ H%fmap_nil_inv]%app_nil. by apply digits_ne in H. Qed.

Lemma trim_current num crc : 0 ≤ num → 0 ≤ crc →
  trim (current_text (manifest_name num) crc) = manifest_name num ++ [10] ++ fmt_08x crc.
Proof.
  intros Hn Hc. pose proof (manifest_name_plain num Hn) as Hp. pose proof (fmt_08x_plain crc Hc) as Hx.
  assert (fmt_08x crc ≠ []) as Hne by (apply fmt_ne; lia). assert (manifest_name num ≠ []) as Hmn by done.
  unfold current_text. unfold trim, trim_end. set (m := manifest_name num) in *. destruct m as [|c m]; [done|].
  pose proof (proj1 (proj1 (Forall_cons _ _ _) Hp)). cbn [app]. rewrite trim_start_plain by done.
  change (c :: m ++ 10 :: fmt_08x crc ++ [10]) with ((c :: m) ++ [10] ++ fmt_08x crc ++ [10]). rewrite !app_assoc, reverse_app.
  change (trim_start (reverse [10] ++ reverse (((c :: m) ++ [10]) ++ fmt_08x crc))) with (trim_start (reverse (((c :: m) ++ [10]) ++ fmt_08x crc))).
  rewrite reverse_app. apply Forall_reverse in Hx. destruct (reverse (fmt_08x crc)) as [|d u] eqn:E.
  { apply (f_equal reverse) in E. rewrite reverse_involutive in E. done. }
  apply Forall_cons in Hx as [Hd _]. rewrite <-app_comm_cons, trim_start_plain by done.
  rewrite app_comm_cons, <-E, <-reverse_app, reverse_involutive. by rewrite <-app_assoc.
Qed.

Lemma parse_current_text num crc :
  0 ≤ num → 0 ≤ crc ≤ U32_MAX →
  parse_current_pointer (current_text (manifest_name num) crc) = Ok (manifest_name num, Some crc).
Proof.
  intros Hn Hc. pose proof (manifest_name_plain num Hn) as Hp. pose proof (fmt_08x_plain crc ltac:(lia)) as Hx.
  assert (fmt_08x crc ≠ []) as Hne by (apply fmt_ne; lia). pose proof (trim_current num crc Hn ltac:(lia)) as Et.
  unfold parse_current_pointer. rewrite Et, lines_two by done. cbn [head default lookup list_lookup fmap option_fmap option_map from_option id].
  rewrite !trim_plain by done. rewrite bool_decide_eq_false_2 by done.
  assert (text_starts_with (manifest_name num) MANIFEST_PREFIX = true) as -> by (apply bool_decide_eq_true_2; apply take_app_length).
  rewrite !plain_contains by (done || (unfold plain; lia)). cbn [negb orb].
  destruct (fmt_08x crc) as [|c u] eqn:E; [done|]. rewrite <-E, fmt_08x_parse by done. done.
Qed.

(** ** What decoding accepts *)

Lemma le_uint_range w buf off z : le_uint w buf off = Ok z → 0 ≤ z < 256 ^ Z.of_nat w.
Proof.
  unfold le_uint. destruct (Nat.leb_spec (off + w) (length buf)) as [H|]; [|done]. intros [= <-].
  pose proof (from_le_bound (take w (drop off buf))) as Hb. rewrite length_take, length_drop in Hb.
  by rewrite Nat.min_l in Hb by lia.
Qed.

(** Numbers and levels of the same count, in range. *)
Definition lists_ok (n : nat) (nums levels : list Z) : Prop :=
  length nums = n ∧ length levels = n ∧ Forall (λ z, 0 ≤ z ≤ U64_MAX) nums ∧ Forall (λ z, 0 ≤ z ≤ U32_MAX) levels.

Lemma read_nums_shape payload off n nums : read_nums payload off n = Ok nums → lists_ok n nums (replicate n 0).
Proof.
  assert (∀ off nums, read_nums payload off n = Ok nums → length nums = n ∧ Forall (λ z, 0 ≤ z ≤ U64_MAX) nums) as H.
  { induction n as [|n IH]; intros o l; cbn [read_nums]; [by intros [= <-]|].
    destruct (le_u64 payload o) as [z|] eqn:Ez; [|done]. cbn [res_bind]. destruct (read_nums payload (o + 8) n) as [zs|] eqn:E; [|done].
    intros [= <-]. apply IH in E as [Hl Hf]. apply le_uint_range in Ez. split; [cbn; lia|]. constructor; [unfold U64_MAX; lia|done]. }
  intros [Hl Hf]%H. split_and!; [done|by rewrite length_replicate|done|]. apply Forall_replicate. unfold U32_MAX. lia.
Qed.

Lemma lists_ok_cons n nums levels a b :
  0 ≤ a < 256 ^ 8 → 0 ≤ b < 256 ^ 4 → lists_ok n nums levels → lists_ok (S n) (a :: nums) (b :: levels).
Proof.
  intros Ha Hb (H1 & H2 & H3 & H4). split_and!; [cbn; lia|cbn; lia|..]; (constructor; [|done]); unfold U64_MAX, U32_MAX; lia.
Qed.

Lemma read_files_shape payload off n nums levels : read_files payload off n = Ok (nums, levels) → lists_ok n nums levels.
Proof.
  revert off nums levels. induction n as [|n IH]; intros o l k; cbn [read_files]; [by intros [= <- <-]; split_and!|].
  destruct (le_u64 payload o) as [a|] eqn:Ea; [|done]. destruct (le_u32 payload (o + 8)) as [b|] eqn:Eb; [|done]. cbn [res_bind].
  destruct (read_files payload (o + 12) n) as [[zs ls]|] eqn:E; [|done]. intros [= <- <-].
  apply le_uint_range in Ea, Eb. apply lists_ok_cons; [done|done|by eapply IH].
Qed.

Lemma read_files_checked_shape payload off n nums levels :
  read_files_checked payload off n = Ok (nums, levels) → lists_ok n nums levels.
Proof.
  revert off nums levels. induction n as [|n IH]; intros o l k; cbn [read_files_checked]; [by intros [= <- <-]; split_and!|].
  case_match; [done|].
  destruct (le_u64 payload o) as [a|] eqn:Ea; [|done]. destruct (le_u32 payload (o + 8)) as [b|] eqn:Eb; [|done]. cbn [res_bind].
  destruct (read_files_checked payload (o + 12) n) as [[zs ls]|] eqn:E; [|done]. intros [= <- <-].
  apply le_uint_range in Ea, Eb. apply lists_ok_cons; [done|done|by eapply IH].
Qed.

Lemma read_cfs_shape payload off n :
  ∃ r, read_cfs payload off n = Some r ∧ ∀ names off', r = Ok (names, off') → length names = n.
Proof.
  revert off. induction n as [|n IH]; intros o; cbn [read_cfs]; [eexists; split; [done|]; by intros ? ? [= <- _]|].
  destruct (Nat.ltb_spec (length payload) (o + 2)); [by eexists|].
  destruct (lookup_lt_is_Some_2 payload o) as [a ->]; [lia|]. destruct (lookup_lt_is_Some_2 payload (o + 1)) as [b ->]; [lia|].
  case_match; [by eexists|]. destruct (IH (o + 2 + Z.to_nat (from_le [a; b]))%nat) as (r & -> & Hr).
  destruct r as [[names off']|x]; cbn; eexists; (split; [done|]); [|done]. intros ? ? [= <- _]. cbn. by rewrite (Hr names off').
Qed.

(** A version set as decoding returns it. *)
Record vs_shape (vs : VersionSet) : Prop := {
  sh_count : Z.of_nat (length (sst_file_nums vs)) ≤ 1000000;
  sh_levels : length (sst_levels vs) = length (sst_file_nums vs);
  sh_cfs : length (sst_cfs vs) = length (sst_file_nums vs);
  sh_nums_range : Forall (λ z, 0 ≤ z ≤ U64_MAX) (sst_file_nums vs);
  sh_levels_range : Forall (λ z, 0 ≤ z ≤ U32_MAX) (sst_levels vs);
  sh_scalars : 0 ≤ next_file_num vs ≤ U64_MAX ∧ 0 ≤ manifest_file_num vs ≤ U64_MAX ∧ 0 ≤ earliest_readable_seq vs ≤ U64_MAX
}.

Lemma shape_of n a b nums levels flag er names :
  Z.of_nat n ≤ 1000000 → 0 ≤ a < 256 ^ 8 → 0 ≤ b < 256 ^ 8 → 0 ≤ er < 256 ^ 8 → lists_ok n nums levels → length names = n →
  vs_shape (mkVersionSet a nums levels b flag er names).
Proof.
  intros Hn Ha Hb He (H1 & H2 & H3 & H4) Hc. split; cbn; [lia|lia|lia|done|done|unfold U64_MAX; lia].
Qed.

(** The result of a decoder: it is one, and if it is a version set, that has the
    shape. *)
Definition shaped (r : Comp VersionSet) : Prop := ∃ x, r = Some x ∧ ∀ vs, x = Ok vs → vs_shape vs.

Lemma shaped_err x : shaped (Some (Err x)).
Proof. by eexists. Qed.

Lemma exactly_length payload need u : exactly payload need = Ok u → length payload = need.
Proof. unfold exactly, corrupt. case_match; [done|]. destruct (Nat.eqb_spec (length payload) need); done. Qed.

Lemma flag_at_some payload off : (off < length payload)%nat → ∃ f, flag_at payload off = Some f.
Proof. intros H. unfold flag_at. destruct (lookup_lt_is_Some_2 _ _ H) as [b ->]. by eexists. Qed.

Section decoders.
Context (payload : list byte) (a b : Z) (n : nat).
Context (Ha : 0 ≤ a < 256 ^ 8) (Hb : 0 ≤ b < 256 ^ 8) (Hn : Z.of_nat n ≤ 1000000).

Lemma decode_v1_shaped : shaped (decode_v1 payload a b n).
Proof using Ha Hb Hn.
  unfold decode_v1. destruct (exactly _ _); [|apply shaped_err]. cbn [comp_bind].
  destruct (read_nums payload 28 n) as [nums|] eqn:E; [|apply shaped_err]. eexists. split; [done|]. intros vs [= <-].
  apply read_nums_shape in E. apply (shape_of n); try done. by rewrite length_replicate.
Qed.

Lemma decode_v2_shaped : shaped (decode_v2 payload a b n).
Proof using Ha Hb Hn.
  unfold decode_v2. destruct (exactly _ _); [|apply shaped_err]. cbn [comp_bind].
  destruct (read_files payload 28 n) as [[nums levels]|] eqn:E; [|apply shaped_err]. eexists. split; [done|]. intros vs [= <-].
  apply read_files_shape in E. apply (shape_of n); try done. by rewrite length_replicate.
Qed.

Lemma decode_v3_shaped : shaped (decode_v3 payload a b n).
Proof using Ha Hb Hn.
  unfold decode_v3. destruct (exactly _ _) as [u|] eqn:El; [|apply shaped_err]. apply exactly_length in El. cbn [comp_bind].
  destruct (read_files payload 28 n) as [[nums levels]|] eqn:E; [|apply shaped_err]. cbn [comp_bind].
  destruct (flag_at_some payload (28 + n * 12)) as [f ->]; [lia|]. eexists. split; [done|]. intros vs [= <-].
  apply read_files_shape in E. apply (shape_of n); try done. by rewrite length_replicate.
Qed.

Lemma decode_v4_shaped : shaped (decode_v4 payload a b n).
Proof using Ha Hb Hn.
  unfold decode_v4. destruct (exactly _ _) as [u|] eqn:El; [|apply shaped_err]. apply exactly_length in El. cbn [comp_bind].
  destruct (read_files payload 28 n) as [[nums levels]|] eqn:E; [|apply shaped_err]. cbn [comp_bind].
  destruct (flag_at_some payload (28 + n * 12)) as [f ->]; [lia|].
  destruct (le_u64 payload _) as [er|] eqn:Er; [|apply shaped_err]. eexists. split; [done|]. intros vs [= <-].
  apply read_files_shape in E. apply le_uint_range in Er. apply (shape_of n); try done. by rewrite length_replicate.
Qed.

Lemma decode_v5_shaped : shaped (decode_v5 payload a b n).
Proof using Ha Hb Hn.
  unfold decode_v5. destruct (read_files_checked payload 28 n) as [[nums levels]|] eqn:E; [|apply shaped_err]. cbn [comp_bind].
  destruct (Nat.ltb_spec (length payload) (28 + n * 12 + 1 + 8)); [apply shaped_err|].
  destruct (flag_at_some payload (28 + n * 12)) as [f ->]; [lia|].
  destruct (le_u64 payload _) as [er|] eqn:Er; [|apply shaped_err]. cbn [comp_bind].
  destruct (read_cfs_shape payload (28 + n * 12 + 9) n) as ([[names off]|] & -> & Hr); [|apply shaped_err]. cbn [comp_bind].
  case_match; [apply shaped_err|]. eexists. split; [done|]. intros vs [= <-].
  apply read_files_checked_shape in E. apply le_uint_range in Er. apply (shape_of n); try done. by eapply Hr.
Qed.
End decoders.

Lemma decode_shaped `{Crc32c} buf : shaped (decode buf).
Proof.
  unfold decode. case_match; [apply shaped_err|]. case_match; [apply shaped_err|]. case_match; [apply shaped_err|].
  destruct (le_u32 _ 4) as [v|]; [|apply shaped_err]. cbn [comp_bind].
  destruct (le_u64 _ 8) as [a|] eqn:Ea; [|apply shaped_err]. cbn [comp_bind]. apply le_uint_range in Ea.
  destruct (le_u64 _ 16) as [b|] eqn:Eb; [|apply shaped_err]. cbn [comp_bind]. apply le_uint_range in Eb.
  destruct (le_u32 _ 24) as [n|] eqn:En; [|apply shaped_err]. cbn [comp_bind]. apply le_uint_range in En.
  destruct (Z.ltb_spec 1000000 n); [apply shaped_err|]. assert (Z.of_nat (Z.to_nat n) ≤ 1000000) as Hn by lia.
  repeat (case_match; [by auto using decode_v1_shaped, decode_v2_shaped, decode_v3_shaped, decode_v4_shaped, decode_v5_shaped|]).
  apply shaped_err.
Qed.

(** * Claims *)

(** C29: a manifest reads back as it was written: decoding the encoding of any
    version set in the format's bounds gives it back, with the level and family
    lists brought to the length of the file list. *)
Theorem manifest_round_trip `{Crc32c} vs : vs_ok vs → decode (encode vs) = Some (Ok (normalize_levels vs)).
Proof. apply decode_encode_vs. Qed.

(** C30: decoding a manifest is safe on every input: it never indexes out of range,
    and what it accepts, in any of the five format versions, has as many levels
    and families as files, at most a million of them, and every number in the
    range of its type. *)
Theorem manifest_decode_shape `{Crc32c} buf :
  ∃ r, decode buf = Some r ∧ ∀ vs, r = Ok vs → vs_shape vs.
Proof. apply decode_shaped. Qed.

Lemma manifest_round_trip_witness :
  let vs := mkVersionSet 9 [7; 8] [1] 3 true 5 [lit "default"; [233]] in
  @decode poly_crc (@encode poly_crc vs) = Some (Ok (mkVersionSet 9 [7; 8] [1; 0] 3 true 5 [lit "default"; [233]])).
Proof.
  cbv zeta. rewrite (@manifest_round_trip poly_crc); [vm_compute; reflexivity|].
  split; cbn [sst_file_nums next_file_num manifest_file_num earliest_readable_seq sst_levels sst_cfs];
    [vm_compute; congruence| | | | | |]; unfold U64_MAX, U32_MAX; try lia; try (repeat constructor; lia).
  constructor; [|constructor; [|constructor]]; (split; [|vm_compute; congruence]);
    apply Forall_forall; intros c Hc; unfold is_char; vm_compute in Hc.
  - repeat (apply elem_of_cons in Hc as [->|Hc]; [lia|]). by apply not_elem_of_nil in Hc.
  - repeat (apply elem_of_cons in Hc as [->|Hc]; [lia|]). by apply not_elem_of_nil in Hc.
Defined.
