(* ===== verification/ManifestStore.v ===== *)
(** Storing and loading the manifest: [store], [install_next], [load],
    [cleanup_tmp_files] and [gc_orphan_ssts] of [manifest_mod_kernel.rs], as
    programs over the environment. A new version set is written to a new
    manifest file and committed by renaming a new [CURRENT] over the old one; the
    directory is synced after each of the two renames, so that a crash cannot
    bring back the new pointer without the new manifest. The counter of stores is
    left out. *)

From S2P Require Import Prelude Text ErrorKernel EnvModel WalFormat SstFile Manifest.

Local Open Scope Z_scope.

Section store.
Context `{CC : Crc32c}.
Context (dir : Path).

(** [for name in names { if .. { let _ = env.remove_file(..) } }] *)
Fixpoint remove_matching (kill : text → bool) (names : list text) {A} (k : Prog A) : Prog A :=
  match names with
  | [] => k
  | name :: names =>
      if kill name then do! _ := ERemoveFile (dir ++ [name]) in remove_matching kill names k
      else remove_matching kill names k
  end.

(** The manifests a commit removes. *)
Definition stale_manifest (man_name name : text) : bool :=
  text_starts_with name MANIFEST_PREFIX && negb (bool_decide (name = man_name)) && negb (is_tmp_name name).

(** [store] after the commit: the old manifests go unless the directory sync
    failed. *)
Definition after_commit (man_name : text) (unsynced : bool) : Prog (Result CoreError unit) :=
  let finish := Ret (if unsynced then Err ManifestCommittedUnsynced else Ok tt) in
  if unsynced then finish
  else
    do! names := EReadDirNames dir in
    match names with
    | Ok names => remove_matching (stale_manifest man_name) names finish
    | Err _ => finish
    end.

(** [store] from the pointer file on. *)
Definition store_current (man_name : text) (payload : list byte) (sync : bool) : Prog (Result CoreError unit) :=
  let cur_tmp := dir ++ [CURRENT_TMP] in
  let hex := as_bytes (fmt_08x (crc32c payload) ++ [10]) in
  do? _ := ECreate cur_tmp in
  do? _ := EWriteAll cur_tmp 0 (as_bytes man_name) in
  do? _ := EWriteAll cur_tmp (length (as_bytes man_name)) (as_bytes [10]) in
  do? _ := EWriteAll cur_tmp (length (as_bytes man_name) + 1) hex in
  do? _ := ESyncData cur_tmp in
  do? _ := ERename cur_tmp (dir ++ [CURRENT_FILE]) in
  if sync then
    do! r := ESyncDir dir in
    after_commit man_name (match r with Err _ => true | Ok _ => false end)
  else after_commit man_name false.

Definition store (vs : VersionSet) (sync : bool) : Prog (Result CoreError unit) :=
  let man_name := manifest_name (manifest_file_num vs) in
  let man_tmp := dir ++ [man_name ++ lit ".tmp"] in
  let man_final := dir ++ [man_name] in
  let payload := encode vs in
  do? _ := ECreate man_tmp in
  do? _ := EWriteAll man_tmp 0 payload in
  do? _ := ESyncData man_tmp in
  do? _ := ERename man_tmp man_final in
  if sync then do? _ := ESyncDir dir in store_current man_name payload sync
  else store_current man_name payload sync.

(** [install_next]: the version set with its new number, and the store. *)
Definition next_manifest (vs : VersionSet) : VersionSet :=
  mkVersionSet (next_file_num vs) (sst_file_nums vs) (sst_levels vs) (Z.max (sat_add (manifest_file_num vs) 1) 1)
    (vlog_use_new vs) (earliest_readable_seq vs) (sst_cfs vs).
Definition install_next (vs : VersionSet) (sync : bool) : VersionSet * Prog (Result CoreError unit) :=
  let vs := next_manifest vs in (vs, store vs sync).

(** [load]; [None] is a panic of [decode]. *)
Definition load : Prog (Comp (option VersionSet)) :=
  let current_path := dir ++ [CURRENT_FILE] in
  do! there := EExists current_path in
  if negb there then Ret (Some (Ok None))
  else
    do! r := EOpenRead current_path in
    match r with
    | Err _ => Ret (Some (Err Io))
    | Ok _ =>
        do! r := EReadToEnd current_path in
        match (match r with Ok data => from_utf8 data | Err _ => None end) with
        | None => Ret (Some (Err (CorruptManifest [Lit "read CURRENT: "])))
        | Some t =>
            if bool_decide (trim t = []) then Ret (Some (Ok None))
            else
              match parse_current_pointer t with
              | Err x => Ret (Some (Err x))
              | Ok (name, crc) =>
                  let path := dir ++ [name] in
                  do! there := EExists path in
                  if negb there then Ret (Some (Err (CorruptManifest [Lit "CURRENT points to missing "; Str name])))
                  else
                    do! r := EOpenRead path in
                    match r with
                    | Err _ => Ret (Some (Err Io))
                    | Ok _ =>
                        do! r := EReadToEnd path in
                        match r with
                        | Err _ => Ret (Some (Err Io))
                        | Ok buf =>
                            if (match crc with Some expect => negb (crc_match_ok (crc32c buf) expect) | None => false end)
                            then Ret (Some (Err (CorruptManifest [Lit "CURRENT crc mismatch for "; Str name])))
                            else Ret (let! vs := decode buf in Some (Ok (Some vs)))
                        end
                    end
              end
        end
    end.

(** [cleanup_tmp_files] and [gc_orphan_ssts] *)
Definition ends_with (name p : text) : bool := match strip_suffix name p with Some _ => true | None => false end.

Definition is_stray_tmp (name : text) : bool :=
  ends_with name (lit ".sst.tmp") || bool_decide (name = CURRENT_TMP) ||
  text_starts_with name MANIFEST_PREFIX && is_tmp_name name.

Definition cleanup_tmp_files : Prog (Result CoreError unit) :=
  do! there := EExists dir in
  if negb there then Ret (Ok tt)
  else
    do! names := EReadDirNames dir in
    match names with
    | Err _ => Ret (Err Io)
    | Ok names => remove_matching is_stray_tmp names (Ret (Ok tt))
    end.

Definition is_orphan (live : list Z) (name : text) : bool :=
  match parse_sst_name name with Some n => negb (bool_decide (n ∈ live)) | None => false end.

Definition gc_orphan_ssts (live : list Z) : Prog (Result CoreError unit) :=
  do! there := EExists dir in
  if negb there then Ret (Ok tt)
  else
    do! names := EReadDirNames dir in
    match names with
    | Err _ => Ret (Err Io)
    | Ok names =>
        let removed_any := existsb (is_orphan live) names in
        remove_matching (is_orphan live) names
          (if removed_any then do! _ := ESyncDir dir in Ret (Ok tt) else Ret (Ok tt))
    end.
End store.

(** * The committed version *)

Section committed.
Context `{CC : Crc32c}.
Context (dir : Path).

(** The bytes of the pointer file and the two files of a committed version. *)
Definition pointer_bytes (vs : VersionSet) : list byte :=
  as_bytes (current_text (manifest_name (manifest_file_num vs)) (crc32c (encode vs))).

Definition current_path : Path := dir ++ [CURRENT_FILE].
Definition manifest_path (vs : VersionSet) : Path := dir ++ [manifest_name (manifest_file_num vs)].

(** The files, all synced, commit [st]; [None]: nothing committed yet. *)
Definition committed (m : FileMap) (st : option VersionSet) : Prop :=
  match st with
  | None => m !! current_path = None
  | Some vs => m !! current_path = Some (mkFile (pointer_bytes vs) []) ∧ m !! manifest_path vs = Some (mkFile (encode vs) [])
  end.

(** ** Names *)


Lemma manifest_not_current num : manifest_name num ≠ CURRENT_FILE ∧ manifest_name num ≠ CURRENT_TMP ∧
  manifest_name num ++ lit ".tmp" ≠ CURRENT_FILE ∧ manifest_name num ++ lit ".tmp" ≠ CURRENT_TMP.
Proof. done. Qed.



(** ** What keeps a version committed *)





(** ** Writing a fresh file *)






End committed.

(** * The commit protocol *)

Section protocol.
Context `{CC : Crc32c}.
Context (dir : Path) (old : option VersionSet) (vs : VersionSet).
Context (Hnum : 0 ≤ manifest_file_num vs ≤ U64_MAX).
Context (Hold : ∀ o, old = Some o → 0 ≤ manifest_file_num o ≤ U64_MAX ∧ manifest_file_num o ≠ manifest_file_num vs).

Local Abbreviation man_name := (manifest_name (manifest_file_num vs)).
Local Abbreviation man_tmp := (dir ++ [man_name ++ lit ".tmp"]).
Local Abbreviation cur_tmp := (dir ++ [CURRENT_TMP]).















End protocol.

(** * Loading what is committed *)

Section loading.
Context `{CC : Crc32c}.
Context (dir : Path).




End loading.

(** * Cleaning the directory *)

Section cleaning.
Context (dir : Path).

(** Every path whose name is not killed keeps its file, synced perhaps. *)
Definition kept (kill : text → bool) (m m' : FileMap) : Prop :=
  ∀ p, (∀ name, p = dir ++ [name] → kill name = false) → m' !! p = m !! p ∨ m' !! p = promote <$> m !! p.

Lemma kept_refl kill m : kept kill m m.
Proof. intros p _. by left. Qed.

Lemma promote_twice f : promote (promote f) = promote f.
Proof. unfold promote. cbn. by rewrite app_nil_r. Qed.

Lemma kept_promoted kill m m' m'' : kept kill m m' → some_promoted m' m'' → kept kill m m''.
Proof.
  intros Hk Hp p Hn. destruct (Hp p) as [-> | ->], (Hk p Hn) as [-> | ->]; auto.
  right. rewrite <-option_fmap_compose. destruct (m !! p) as [f|]; [|done]. cbn. by rewrite promote_twice.
Qed.

(** The files of a disk are kept. *)
Definition keeps (kill : text → bool) (m : FileMap) (d : Disk) : Prop := kept kill m (d_files d).

Lemma remove_matching_kept (kill : text → bool) (names : list text) {A : Type} (Q : A → Disk → Prop) k d m0 :
  keeps kill m0 d → (∀ d', keeps kill m0 d' → wp (keeps kill m0) Q k d') → wp (keeps kill m0) Q (remove_matching dir kill names k) d.
Proof.
  intros Hk Hq. revert d Hk. induction names as [|name names IH]; intros d Hk; cbn [remove_matching]; [by apply Hq|].
  destruct (kill name) eqn:Ek; [|by apply IH]. split; [done|]. unfold keeps in *.
  intros d' [u|[]] [Hs _]; cbn in Hs; apply IH; rewrite Hs; [|done].
  intros p Hn. rewrite lookup_delete_ne; [by apply Hk|]. intros <-. specialize (Hn name eq_refl). congruence.
Qed.

Lemma gc_orphans_kept live d :
  wp (keeps (is_orphan live) (d_files d)) (λ _, keeps (is_orphan live) (d_files d)) (gc_orphan_ssts dir live) d.
Proof.
  pose proof (kept_refl (is_orphan live) (d_files d)) as Hr. set (m := d_files d) in *. unfold gc_orphan_ssts, keeps. split; [done|].
  intros d1 b [[E1 _] _]. fold m in E1. destruct b; cbn [negb]; [|by rewrite E1 || (split; by rewrite E1)].
  split; [by rewrite E1|]. intros d2 names [[E2 _] _]. rewrite E1 in E2. destruct names as [names|[]]; [|by split; rewrite E2].
  apply remove_matching_kept; [unfold keeps; by rewrite E2|]. intros d' Hk. case_match; [|done]. split; [done|]. intros d3 r [Hs _].
  pose proof (kept_promoted _ _ _ _ Hk Hs). done.
Qed.

Lemma cleanup_kept d : wp (keeps is_stray_tmp (d_files d)) (λ _, keeps is_stray_tmp (d_files d)) (cleanup_tmp_files dir) d.
Proof.
  pose proof (kept_refl is_stray_tmp (d_files d)) as Hr. set (m := d_files d) in *. unfold cleanup_tmp_files, keeps. split; [done|].
  intros d1 b [[E1 _] _]. fold m in E1. destruct b; cbn [negb]; [|split; by rewrite E1].
  split; [by rewrite E1|]. intros d2 names [[E2 _] _]. rewrite E1 in E2. destruct names as [names|[]]; [|by split; rewrite E2].
  apply remove_matching_kept; [unfold keeps; by rewrite E2|done].
Qed.

Lemma strip_suffix_app a b : strip_suffix (a ++ b) b = Some a.
Proof.
  unfold strip_suffix. rewrite length_app. replace (length a + length b - length b)%nat with (length a) by lia.
  rewrite drop_app_length, take_app_length, bool_decide_eq_true_2 by done. by rewrite (proj2 (Nat.leb_le _ _)) by lia.
Qed.

Lemma fmt_06_digits n : 0 ≤ n → Forall (λ c, 48 ≤ c ≤ 57) (fmt_06 n).
Proof.
  intros Hn. unfold fmt_06, pad_zero. apply Forall_app. split; [apply Forall_replicate; lia|]. apply Forall_fmap.
  eapply Forall_impl; [apply digits_bound; lia|]. intros d Hd. cbn in *. unfold digit_char. destruct (Z.ltb_spec d 10); lia.
Qed.

Lemma parse_sst_file_name n : 0 ≤ n ≤ U64_MAX → parse_sst_name (sst_file_name n) = Some n.
Proof.
  intros Hn. unfold parse_sst_name, sst_file_name. rewrite strip_suffix_app. cbn [mbind option_bind].
  rewrite bool_decide_eq_false_2 by (apply fmt_ne; lia). assert (forallb is_ascii_digit (fmt_06 n) = true) as ->; [|by apply fmt_06_parse].
  apply forallb_forall. intros c Hc%list_elem_of_In. pose proof (fmt_06_digits n ltac:(lia)) as Hd. rewrite Forall_forall in Hd.
  specialize (Hd c Hc). cbn in Hd. unfold is_ascii_digit. lia.
Qed.

(** The name of a table is not a stray temporary file. *)
Lemma live_not_stray n : 0 ≤ n → is_stray_tmp (sst_file_name n) = false.
Proof.
  intros Hn. unfold is_stray_tmp, sst_file_name. pose proof (fmt_06_digits n Hn) as Hd.
  assert (fmt_06 n ≠ []) as Hne by (apply fmt_ne; lia). set (a := fmt_06 n) in *. clearbody a.
  assert (ends_with (a ++ lit ".sst") (lit ".sst.tmp") = false) as ->.
  { unfold ends_with, strip_suffix. case_bool_decide as E; [|done]. exfalso. apply (f_equal last) in E.
    assert (last (drop (length (a ++ lit ".sst") - length (lit ".sst.tmp")) (a ++ lit ".sst")) = Some 116) as E'; [|rewrite E' in E; done].
    rewrite drop_app_le by (rewrite length_app; change (length (lit ".sst")) with 4%nat; change (length (lit ".sst.tmp")) with 8%nat; lia).
    by rewrite last_app. }
  assert (bool_decide (a ++ lit ".sst" = CURRENT_TMP) = false) as ->.
  { apply bool_decide_eq_false_2. intros E. apply (f_equal last) in E. rewrite last_app in E. done. }
  cbn [orb]. apply andb_false_iff. left. apply bool_decide_eq_false_2. intros E. apply (f_equal head) in E.
  destruct a as [|c a]; [done|]. apply Forall_cons in Hd as [Hc _]. cbn in E, Hc. injection E as ->. lia.
Qed.

(** The names of the committed files are neither stray nor orphans. *)
Lemma dot_free_no_ext t : Forall plain t → is_tmp_name t = false.
Proof.
  intros Ht. unfold is_tmp_name, after_last_dot. destruct (list_find _ (reverse t)) as [[i c]|] eqn:E; [|done]. exfalso.
  apply list_find_Some in E as (Hl & -> & _). apply list_elem_of_lookup_2, elem_of_reverse in Hl. rewrite ?reverse_involutive in Hl.
  rewrite Forall_forall in Ht. specialize (Ht 46 Hl). unfold plain in Ht. lia.
Qed.

Lemma plain_no_suffix t p : Forall plain t → 46 ∈ p → strip_suffix t p = None.
Proof.
  intros Ht Hp. unfold strip_suffix. case_bool_decide as E; [|done]. exfalso. rewrite <-E in Hp.
  rewrite Forall_forall in Ht. assert (46 ∈ t) as Hin by (rewrite <-(take_drop (length t - length p) t); set_solver).
  specialize (Ht 46 Hin). unfold plain in Ht. lia.
Qed.

Lemma plain_safe t live : Forall plain t → is_stray_tmp t = false ∧ is_orphan live t = false.
Proof.
  intros Ht. split.
  - unfold is_stray_tmp, ends_with. rewrite plain_no_suffix by (done || (vm_compute; set_solver)).
    rewrite dot_free_no_ext, andb_false_r by done. cbn. apply orb_false_iff. split; [|done]. apply bool_decide_eq_false_2. intros ->.
    rewrite Forall_forall in Ht. assert (46 ∈ CURRENT_TMP) as Hin by (apply (bool_decide_unpack _); vm_compute; exact I).
    specialize (Ht 46 Hin). unfold plain in Ht. lia.
  - unfold is_orphan, parse_sst_name. rewrite plain_no_suffix; [done|done|]. apply (bool_decide_unpack _). vm_compute. exact I.
Qed.
End cleaning.

Section claims.
Context `{CC : Crc32c}.


(** C27: cleaning up at open removes nothing that is in use. Whatever calls of
    [cleanup_tmp_files] or of [gc_orphan_ssts] fail and wherever the run stops,
    the committed version stays committed, and every table in the live list
    keeps its file and its bytes. *)
Theorem cleanup_keeps_live dir st live d (prog : Prog (Result CoreError unit)) d' n :
  committed dir (d_files d) st → (∀ vs, st = Some vs → 0 ≤ manifest_file_num vs) → n ∈ live → 0 ≤ n ≤ U64_MAX →
  runs (cleanup_tmp_files dir) d prog d' ∨ runs (gc_orphan_ssts dir live) d prog d' →
  committed dir (d_files d') st ∧
  logical <$> d_files d' !! (dir ++ [sst_file_name n]) = logical <$> d_files d !! (dir ++ [sst_file_name n]).
Proof.
  intros Hc Hst Hn Hr Hruns. set (m := d_files d) in *. set (m' := d_files d').
  assert (∃ kill, kept dir kill m m' ∧ (∀ t, Forall plain t → kill t = false) ∧ kill (sst_file_name n) = false) as (kill & Hk & Hp & Hs).
  { destruct Hruns as [H|H].
    - exists is_stray_tmp. split; [exact (wp_inv _ _ _ _ (wp_runs _ _ _ _ _ _ (cleanup_kept dir d) H))|]. split; [intros t Ht; by apply (plain_safe t [])|].
      apply live_not_stray. lia.
    - exists (is_orphan live). split; [exact (wp_inv _ _ _ _ (wp_runs _ _ _ _ _ _ (gc_orphans_kept dir live d) H))|]. split; [intros t Ht; by apply (plain_safe t live)|].
      unfold is_orphan. rewrite parse_sst_file_name by done. by rewrite bool_decide_eq_true_2. }
  assert (∀ name, kill name = false → m' !! (dir ++ [name]) = m !! (dir ++ [name]) ∨
                                      m' !! (dir ++ [name]) = promote <$> m !! (dir ++ [name])) as Hname.
  { intros name Hf. apply Hk. intros name' E. apply app_inj_tail in E as [_ ->]. done. }
  assert (∀ name data, kill name = false → m !! (dir ++ [name]) = Some (mkFile data []) → m' !! (dir ++ [name]) = Some (mkFile data [])) as Hsync.
  { intros name data Hf Hm. destruct (Hname name Hf) as [-> | ->]; rewrite Hm; [done|]. unfold promote. cbn. by rewrite app_nil_r. }
  assert (kill CURRENT_FILE = false) as Hcur.
  { apply Hp. change CURRENT_FILE with [67; 85; 82; 82; 69; 78; 84]. unfold plain. repeat (constructor; [lia|]). constructor. }
  split.
  - destruct st as [vs|]; unfold committed in *.
    + destruct Hc as [H1 H2]. split; apply Hsync; try done. apply Hp, manifest_name_plain. by apply Hst.
    + destruct (Hname CURRENT_FILE Hcur) as [E|E]; unfold current_path in *; by rewrite E, Hc.
  - destruct (Hname _ Hs) as [-> | ->]; [done|]. rewrite <-option_fmap_compose. destruct (m !! _) as [f|]; [|done]. cbn.
    f_equal. unfold logical, promote. cbn. by rewrite app_nil_r.
Qed.
End claims.

(** ** Witnesses *)

Definition sample_dir : Path := [lit "db"].
Definition sample_vs : VersionSet := mkVersionSet 9 [7; 8] [1; 0] 3 true 5 [lit "default"; []].


#[local] Existing Instance poly_crc.


(** Without [sync] the guarantee does not hold for a crash: the new pointer can
    survive and the new manifest's entry not. *)
Definition unsynced_store : Image := (recording_run (store sample_dir sample_vs false) recording_new).1.
Definition dangling : FileMap := delete (manifest_path sample_dir sample_vs) (files unsynced_store).

Lemma unsynced_store_can_dangle :
  ∃ d', runs (store sample_dir sample_vs false) (mkDisk ∅ []) (Ret (Ok tt)) d' ∧ crashed d' dangling ∧
    ∃ e, (recording_run (load sample_dir) (set_files unsynced_store dangling)).2 = Some (Err (CorruptManifest e)).
Proof.
  destruct (recording_run (store sample_dir sample_vs false) recording_new) as [i r] eqn:E.
  assert (r = Ok tt) as -> by (change r with ((i, r).2); rewrite <-E; vm_compute; reflexivity).
  assert (i = unsynced_store) as -> by (unfold unsynced_store; by rewrite E).
  assert (∀ p f, files unsynced_store !! p = Some f → pending f = []) as Hsy.
  { assert (Forall (λ kv, pending kv.2 = []) (map_to_list (files unsynced_store))) as HF
      by (apply (bool_decide_unpack _); vm_compute; exact I).
    intros p f Hf. apply elem_of_map_to_list in Hf. rewrite Forall_forall in HF. exact (HF (p, f) Hf). }
  pose proof (recording_undo_runs _ recording_new unsynced_store (Ok tt) [] eq_refl E) as [Hr _].
  set (u := recording_undo _ recording_new []) in Hr.
  assert ((manifest_path sample_dir sample_vs, None) ∈ u) as Hu by (apply (bool_decide_unpack _); vm_compute; exact I).
  exists (mkDisk (files unsynced_store) u). split; [exact Hr|]. split.
  - intros p. destruct (decide (p = manifest_path sample_dir sample_vs)) as [->|Hne].
    + exists None. split; [by right|]. cbn. unfold dangling. apply lookup_delete_eq.
    + exists (files unsynced_store !! p). split; [by left|]. unfold dangling. rewrite lookup_delete_ne by done.
      destruct (files unsynced_store !! p) as [f|] eqn:Ef; [|done]. exists (length (durable f)). unfold logical.
      pose proof (Hsy p f Ef) as Hp. destruct f as [du pe]. cbn in *. subst pe. rewrite app_nil_r, take_ge by done. split; [|done].
      unfold crash_legal. by rewrite Nat.leb_refl.
  - eexists. vm_compute. reflexivity.
Qed.

(** The committed version and table 7 survive the collection of orphans, a table
    not in the list does not. *)
Definition sample_files : FileMap :=
  <[sample_dir ++ [sst_file_name 7] := mkFile [x01] []]> (<[sample_dir ++ [sst_file_name 6] := mkFile [x02] []]>
    (files (recording_run (store sample_dir sample_vs true) recording_new).1)).

Definition sample_image : Image := mkImage sample_files {[sample_dir]} None Honest.

Lemma cleanup_keeps_live_witness :
  let m := files (recording_run (gc_orphan_ssts sample_dir [7; 8]) sample_image).1 in
  committed sample_dir m (Some sample_vs) ∧ logical <$> m !! (sample_dir ++ [sst_file_name 7]) = Some [x01] ∧
  m !! (sample_dir ++ [sst_file_name 6]) = None.
Proof.
  cbv zeta. destruct (recording_run (gc_orphan_ssts sample_dir [7; 8]) sample_image) as [i r] eqn:E.
  destruct (recording_run_runs _ sample_image i r [] eq_refl E) as (u & Hr & _).
  destruct (cleanup_keeps_live sample_dir (Some sample_vs) [7; 8] (mkDisk sample_files []) (Ret r) (mkDisk (files i) u) 7) as [Hc Hl].
  - split; vm_compute; reflexivity.
  - intros vs [= <-]. done.
  - left.
  - vm_compute. split; congruence.
  - right. exact Hr.
  - cbn [fst]. split; [exact Hc|]. cbn [d_files] in Hl. split; [rewrite Hl|change i with ((i, r).1); rewrite <-E]; vm_compute; reflexivity.
Defined.
