(* ===== verification/BulkRun.v ===== *)
(** Bulk runs ([bulk_run_kernel.rs]) and the writes that fill them
    ([db_kernel.rs], [absorb_mem_family_into_run] and [bulk_append_puts]): the
    in-memory sorted arrays of a family routed past the memtable.

    [None] is an index out of range. Reserving capacity and the thread-local
    scratch of the key sort are left out. *)

From S2P Require Import Prelude SliceOps BulkIngest ErrorKernel KeyKernel WalFormat ValueLog Visibility MemTable MemFamily MemRead Flush.

Local Open Scope Z_scope.

Record BulkRun := mkRun {
  r_keys : list (list byte);
  r_vals : list (list byte);
  r_seqs : list Z;
  r_kinds : list ValueType;
  r_bytes : Z;
  r_is_sorted : bool
}.

Definition run_default : BulkRun := mkRun [] [] [] [] 0 true.

Definition push_with_kind (r : BulkRun) (key val : list byte) (seq : Z) (kind : ValueType) : BulkRun :=
  let sorted := r_is_sorted r && negb (from_option (bytes_ltb key) false (last (r_keys r))) in
  mkRun (r_keys r ++ [key]) (r_vals r ++ [val]) (r_seqs r ++ [seq]) (r_kinds r ++ [kind])
    (sat_add (sat_add (sat_add (r_bytes r) (Z.of_nat (length key))) (Z.of_nat (length val))) 8) sorted.
Definition push (r : BulkRun) (key val : list byte) (seq : Z) : BulkRun := push_with_kind r key val seq Value.

(** [v[i]] for each index in turn. *)
Definition gather {A} (l : list A) (idx : list nat) : option (list A) := mapM (λ i, l !! i) idx.
Definition key_order (keys : list (list byte)) (a b : nat) : comparison :=
  bytes_cmp (default [] (keys !! a)) (default [] (keys !! b)).

Definition run_sort (r : BulkRun) : option BulkRun :=
  if r_is_sorted r || (length (r_keys r) <=? 1)%nat
  then Some (mkRun (r_keys r) (r_vals r) (r_seqs r) (r_kinds r) (r_bytes r) true)
  else
    let idx := sort_by (key_order (r_keys r)) (seq 0 (length (r_keys r))) in
    keys ← gather (r_keys r) idx; vals ← gather (r_vals r) idx; seqs ← gather (r_seqs r) idx; kinds ← gather (r_kinds r) idx;
    Some (mkRun keys vals seqs kinds (r_bytes r) true).

Definition run_lookup (r : BulkRun) (key : list byte) (snapshot : Z) : option Lookup :=
  match binary_search_by (key_at key) (r_keys r) with
  | Err _ => Some NotFound
  | Ok i =>
      n ← r_seqs r !! i;
      if snapshot <? n then Some NotFound
      else match default Value (r_kinds r !! i) with
           | Value => v ← r_vals r !! i; Some (Found v)
           | Deletion => Some Deleted
           | RangeDeletion => Some NotFound
           end
  end.

Definition has_write_after (r : BulkRun) (key : list byte) (snapshot : Z) : option bool :=
  if r_is_sorted r then
    match binary_search_by (key_at key) (r_keys r) with
    | Err _ => Some false
    | Ok i => n ← r_seqs r !! i; Some (snapshot <? n)
    end
  else Some (existsb (λ kn, bytes_eqb kn.1 key && (snapshot <? kn.2)) (zip (r_keys r) (r_seqs r))).

(** The downward loop of [last_visible_under_prefix]. *)
Fixpoint last_loop (r : BulkRun) (prefix : list byte) (snapshot : Z) (n : nat) : option (option (list byte)) :=
  match n with
  | O => Some None
  | S i =>
      k ← r_keys r !! i;
      if negb (starts_with k prefix) then
        if bytes_ltb k prefix then Some None else last_loop r prefix snapshot i
      else
        s ← r_seqs r !! i;
        if s <=? snapshot then Some (Some k) else last_loop r prefix snapshot i
  end.
Definition run_last_visible_under_prefix (r : BulkRun) (prefix : list byte) (snapshot : Z) (hi : option (list byte))
    : option (option (list byte)) :=
  let n := length (r_keys r) in
  if (n =? 0)%nat then Some None
  else
    let end_idx := match hi with Some h => either_index (binary_search_by (key_at h) (r_keys r)) | None => n end in
    last_loop r prefix snapshot end_idx.

(** The entry at an index, as [iter_range] builds it. *)
Definition run_entry (r : BulkRun) (i : nat) : option entry :=
  n ← r_seqs r !! i; k ← r_keys r !! i; v ← r_vals r !! i;
  Some (mkIKey k n (default Value (r_kinds r !! i)), v).

Definition start_index (keys : list (list byte)) (start : Bound) : nat :=
  match start with
  | Unbounded => 0
  | Included s => either_index (binary_search_by (key_at s) keys)
  | Excluded s => match binary_search_by (key_at s) keys with Ok i => S i | Err i => i end
  end.
Definition end_index (keys : list (list byte)) (end_ : Bound) : nat :=
  match end_ with
  | Unbounded => length keys
  | Included e => match binary_search_by (key_at e) keys with Ok i => S i | Err i => i end
  | Excluded e => either_index (binary_search_by (key_at e) keys)
  end.
Definition iter_range (r : BulkRun) (start end_ : Bound) (snapshot : Z) : option (list entry) :=
  let hi := Nat.min (end_index (r_keys r) end_) (length (r_keys r)) in
  let lo := Nat.min (start_index (r_keys r) start) hi in
  es ← mapM (run_entry r) (seq lo (hi - lo)); Some (filter (λ e : entry, sequence e.1 ≤ snapshot) es).

(** [sort_bulk_key_vals]; the order of the unstable sort is given by [perm],
    any order of the indices. *)
Definition sort_bulk_key_vals (perm : list nat) (keys vals : list (list byte)) : option (list (list byte) * list (list byte)) :=
  if (length keys <? 2)%nat then Some (keys, vals)
  else if windows_all bytes_ltb keys then Some (keys, vals)
  else ks ← gather keys perm; vs ← gather vals perm; Some (ks, vs).

(** What [sort_unstable_by] promises of its order. *)
Definition sorts (keys : list (list byte)) (perm : list nat) : Prop :=
  perm ≡ₚ seq 0 (length keys) ∧ StronglySorted (not_after (key_order keys)) perm.

(** * Filling runs *)

(** [absorb_mem_family_into_run], the loop. *)
Fixpoint absorb_rows (r : BulkRun) (last_key : option (list byte)) (rows : list entry) : BulkRun :=
  match rows with
  | [] => r
  | (ik, v) :: rows =>
      if bool_decide (last_key = Some (user_key ik)) then absorb_rows r last_key rows
      else absorb_rows (push_with_kind r (user_key ik) v (sequence ik) (kind ik)) (Some (user_key ik)) rows
  end.

(** The part of the database the bulk writes change. *)
Record BulkState := mkBulk {
  b_mem : MemTable;
  bulk_runs : gmap Family BulkRun;
  parked_bulk : list (Family * BulkRun);
  next_seq : Z;
  walless_seq_high : Z;
  bytes_ingested : Z
}.

Definition absorb_mem_family_into_run (b : BulkState) (family : Family) : option BulkState :=
  let '(rest, taken) := take_family (b_mem b) family in
  if entries taken =? 0 then Some (mkBulk rest (bulk_runs b) (parked_bulk b) (next_seq b) (walless_seq_high b) (bytes_ingested b))
  else
    rows ← iter_internal taken;
    let run := absorb_rows (default run_default (bulk_runs b !! family)) None rows in
    Some (mkBulk rest (<[family := run]> (bulk_runs b)) (parked_bulk b) (next_seq b) (walless_seq_high b) (bytes_ingested b)).

(** The loop of [bulk_append_puts]. *)
Fixpoint append_loop (r : BulkRun) (ingested seq : Z) (kvs : list (list byte * list byte)) : BulkRun * Z :=
  match kvs with
  | [] => (r, ingested)
  | (k, v) :: kvs =>
      let v := escape_inline_value v in
      append_loop (push r k v seq) (sat_add ingested (Z.of_nat (length v))) (seq + 1) kvs
  end.

Definition seq_exhausted (seq max : Z) : bool := max <? seq.

(** [bulk_append_puts]; [cap] is [bulk_chunk_cap]. [fetch_add] wraps. *)
Definition bulk_append_puts (cap : option Z) (perm : list nat) (b : BulkState) (family : Family)
    (keys vals : list (list byte)) (pre_sorted : bool) : option (BulkState * Result CoreError unit) :=
  let n := Z.of_nat (length keys) in
  if n =? 0 then Some (b, Ok tt)
  else
    '(keys, vals) ← (if pre_sorted then Some (keys, vals) else sort_bulk_key_vals perm keys vals);
    let seq0 := next_seq b in
    let last_ := sat_add seq0 (sat_sub n 1) in
    if seq_exhausted last_ MAX_ASSIGNABLE_SEQUENCE_NUMBER then Some (b, Err (Internal [Lit "sequence number space exhausted"]))
    else
      let '(run, ingested) := append_loop (default run_default (bulk_runs b !! family)) (bytes_ingested b) seq0 (zip keys vals) in
      let next := (seq0 + n) mod 2 ^ 64 in
      let high := Z.max (walless_seq_high b) last_ in
      let over := match cap with Some c => c <=? r_bytes run | None => false end in
      if over then
        run ← (if r_is_sorted run then Some run else run_sort run);
        Some (mkBulk (b_mem b) (base.delete family (bulk_runs b)) (parked_bulk b ++ [(family, run)]) next high ingested, Ok tt)
      else Some (mkBulk (b_mem b) (<[family := run]> (bulk_runs b)) (parked_bulk b) next high ingested, Ok tt).

(** * What a run holds *)

Definition ukey (e : entry) : list byte := user_key e.1.

(** The run's arrays are the entries, in order. *)
Record represents (r : BulkRun) (es : list entry) : Prop := {
  rp_keys : r_keys r = ukey <$> es;
  rp_vals : r_vals r = snd <$> es;
  rp_seqs : r_seqs r = (λ e : entry, sequence e.1) <$> es;
  rp_kinds : r_kinds r = (λ e : entry, kind e.1) <$> es
}.

(** One entry per key, keys ascending. *)
Definition strict (es : list entry) : Prop := StronglySorted bytes_lt (ukey <$> es).

(** A sorted run. *)
Definition run_ok (r : BulkRun) (es : list entry) : Prop := represents r es ∧ strict es ∧ r_is_sorted r = true.

Lemma strict_at es i j e e' : strict es → es !! i = Some e → es !! j = Some e' → ukey e = ukey e' → i = j.
Proof.
  intros Hs%strict_nodup Hi Hj E. eapply (NoDup_lookup _ _ _ (ukey e) Hs); rewrite list_lookup_fmap; [by rewrite Hi|by rewrite Hj, E].
Qed.

Lemma strict_inj es e e' : strict es → e ∈ es → e' ∈ es → ukey e = ukey e' → e = e'.
Proof.
  intros Hs (i & Hi)%list_elem_of_lookup (j & Hj)%list_elem_of_lookup E.
  pose proof (strict_at _ _ _ _ _ Hs Hi Hj E) as ->. congruence.
Qed.

Section reads.
Context (r : BulkRun) (es : list entry) (Hr : represents r es) (Hs : strict es).

Lemma run_at i e : es !! i = Some e →
  r_keys r !! i = Some (ukey e) ∧ r_vals r !! i = Some e.2 ∧ r_seqs r !! i = Some (sequence e.1) ∧ r_kinds r !! i = Some (kind e.1).
Proof using Hr. destruct Hr as [-> -> -> ->]. intros Hi. by rewrite !list_lookup_fmap, Hi. Qed.

Lemma key_lookup_entry i k : r_keys r !! i = Some k → ∃ e, es !! i = Some e ∧ ukey e = k.
Proof using Hr. rewrite (rp_keys _ _ Hr), list_lookup_fmap. destruct (es !! i) as [e|]; [|done]. intros [= <-]. by exists e. Qed.

Lemma keys_strict : StronglySorted bytes_lt (r_keys r).
Proof using Hr Hs. by rewrite (rp_keys _ _ Hr). Qed.

(** The search finds the key's only entry. *)
Lemma search_entry uk :
  match binary_search_by (key_at uk) (r_keys r) with
  | Ok i => ∃ e, es !! i = Some e ∧ e ∈ es ∧ ukey e = uk ∧ ∀ e', e' ∈ es → ukey e' = uk → e' = e
  | Err _ => ∀ e, e ∈ es → ukey e ≠ uk
  end.
Proof using Hr Hs.
  pose proof (search_key_ok uk (r_keys r) keys_strict) as H. destruct (binary_search_by _ _) as [i|i].
  - destruct (key_lookup_entry i uk H) as (e & Hi & E). exists e. split; [done|]. pose proof (list_elem_of_lookup_2 _ _ _ Hi) as Hin.
    split; [done|]. split; [done|]. intros e' He' E'. apply (strict_inj es); [done|done|done|congruence].
  - intros e He E. destruct H as [H _]. apply H. rewrite (rp_keys _ _ Hr), <-E. by apply list_elem_of_fmap_2.
Qed.

Lemma run_lookup_ok uk s : ∃ look, run_lookup r uk s = Some look ∧
  (∀ v, look = Found v ↔ ∃ n, n ≤ s ∧ (mkIKey uk n Value, v) ∈ es) ∧
  (look = Deleted ↔ ∃ n v, n ≤ s ∧ (mkIKey uk n Deletion, v) ∈ es).
Proof using Hr Hs.
  unfold run_lookup. pose proof (search_entry uk) as H. destruct (binary_search_by _ _) as [i|i].
  2: { exists NotFound. split; [done|]. split; [intros v|]; (split; [done|]); intros (n & H'); [destruct H' as [_ H']|destruct H' as (v & _ & H')]; by apply H in H'. }
  destruct H as (e & Hi & He & E & Huniq). destruct (run_at i e Hi) as (_ & -> & -> & ->). cbn.
  assert (∀ n k v, (mkIKey uk n k, v) ∈ es → e = (mkIKey uk n k, v)) as Hu by (intros n k v Hin; symmetry; by apply Huniq).
  destruct (Z.ltb_spec s (sequence e.1)) as [Hlt|Hle].
  { exists NotFound. split; [done|]. split; [intros v|]; (split; [done|]).
    - intros (n & Hn & ->%Hu). cbn in Hlt. lia.
    - intros (n & v & Hn & ->%Hu). cbn in Hlt. lia. }
  destruct e as [[k n ty] v0]. cbn in *. unfold ukey in E. cbn in E. subst k.
  exists (match ty with Value => Found v0 | Deletion => Deleted | RangeDeletion => NotFound end).
  split; [by destruct ty|]. split; [intros v|]; (split; [|intros Hx]).
  - destruct ty; try done. intros [= <-]. by exists n.
  - destruct Hx as (n' & _ & Hin%Hu). by simplify_eq.
  - destruct ty; try done. intros _. by exists n, v0.
  - destruct Hx as (n' & v & _ & Hin%Hu). by simplify_eq.
Qed.

Lemma has_write_after_ok uk s : ∃ b, has_write_after r uk s = Some b ∧
  (b = true ↔ ∃ e, e ∈ es ∧ ukey e = uk ∧ s < sequence e.1).
Proof using Hr Hs.
  unfold has_write_after. destruct (r_is_sorted r).
  - pose proof (search_entry uk) as H. destruct (binary_search_by _ _) as [i|i].
    + destruct H as (e & Hi & He & E & Huniq). destruct (run_at i e Hi) as (_ & _ & -> & _). cbn. eexists. split; [done|].
      rewrite Z.ltb_lt. split; [by exists e|]. intros (e' & He' & E' & Hlt). by rewrite <-(Huniq e' He' E').
    + exists false. split; [done|]. split; [done|]. intros (e & He & E & _). by apply H in E.
  - eexists. split; [done|]. destruct Hr as [-> _ -> _]. rewrite existsb_exists. split.
    + intros ([k n] & Hin & Hc). apply list_elem_of_In, list_elem_of_lookup in Hin as (i & Hi). cbn [fst snd] in Hc.
      apply andb_true_iff in Hc as [->%bytes_eqb_spec Hlt%Z.ltb_lt].
      rewrite lookup_zip_with_Some in Hi. destruct Hi as (k' & n' & [= -> ->] & Hk & Hn). rewrite list_lookup_fmap in Hk. rewrite list_lookup_fmap in Hn.
      destruct (es !! i) as [e|] eqn:Ei; [|done]. cbn in *. simplify_eq. exists e. split; [by eapply list_elem_of_lookup_2|done].
    + intros (e & He & E & Hlt). exists (uk, sequence e.1). split.
      * apply list_elem_of_In. apply list_elem_of_lookup in He as (i & Hi). apply list_elem_of_lookup. exists i.
        rewrite lookup_zip_with_Some. exists uk, (sequence e.1). rewrite !list_lookup_fmap, Hi. cbn. by rewrite E.
      * cbn. rewrite (proj2 (bytes_eqb_spec _ _) eq_refl). by apply Z.ltb_lt.
Qed.

(** ** Ranges *)

Lemma run_entry_ok i : run_entry r i = es !! i.
Proof using Hr.
  unfold run_entry. destruct (es !! i) as [e|] eqn:Hi.
  - destruct (run_at i e Hi) as (-> & -> & -> & ->). cbn. by destruct e as [[]].
  - destruct Hr as [_ _ -> _]. by rewrite list_lookup_fmap, Hi.
Qed.

Lemma mapM_slice lo n : (lo + n ≤ length es)%nat → mapM (run_entry r) (seq lo n) = Some (take n (drop lo es)).
Proof using Hr.
  revert lo. induction n as [|n IH]; intros lo Hn; [done|]. cbn [seq mapM]. rewrite run_entry_ok.
  destruct (lookup_lt_is_Some_2 es lo) as [e He]; [lia|]. rewrite He. cbn [mbind option_bind]. rewrite IH by lia. cbn.
  rewrite (drop_S es e lo He). done.
Qed.
End reads.

(** Where the keys lie around a search. *)
Lemma search_sides uk keys j k : StronglySorted bytes_lt keys → keys !! j = Some k →
  match binary_search_by (key_at uk) keys with
  | Ok i => bytes_cmp k uk = Nat.compare j i
  | Err i => bytes_cmp k uk = if (j <? i)%nat then Lt else Gt
  end.
Proof.
  intros Hs Hj. pose proof (search_key_ok uk keys Hs) as Hk. pose proof (binary_search_ok (key_at uk) keys (key_at_monotone uk keys Hs)) as Hb.
  destruct (binary_search_by _ _) as [i|i].
  - destruct (Nat.compare_spec j i) as [->|Hlt|Hlt].
    + rewrite Hk in Hj. injection Hj as <-. apply bytes_cmp_refl.
    + exact (sorted_lookup _ _ _ _ _ _ Hs Hlt Hj Hk).
    + apply bytes_lt_cmp_gt. exact (sorted_lookup _ _ _ _ _ _ Hs Hlt Hk Hj).
  - destruct Hb as (_ & Hlo & Hhi). destruct (Nat.ltb_spec j i); [by eapply Hlo|by eapply Hhi].
Qed.

Lemma start_index_ok keys start j k : StronglySorted bytes_lt keys → keys !! j = Some k →
  (j < start_index keys start)%nat ↔ user_key_in_range k start Unbounded = false.
Proof.
  intros Hs Hj. unfold start_index, user_key_in_range. rewrite andb_true_r. destruct start as [|s|s]; [by split; [intros ?%Nat.nlt_0_r|]|..];
    pose proof (search_sides s keys j k Hs Hj) as H; pose proof (bytes_cmp_antisym k s) as Ha;
    destruct (binary_search_by _ _) as [i|i]; cbn; unfold bytes_leb, bytes_ltb; rewrite Ha, H;
    [destruct (Nat.compare_spec j i)|destruct (Nat.ltb_spec j i)|destruct (Nat.compare_spec j i)|destruct (Nat.ltb_spec j i)]; cbn; split; intros; try done; lia.
Qed.

Lemma end_index_ok keys end_ j k : StronglySorted bytes_lt keys → keys !! j = Some k →
  (j < end_index keys end_)%nat ↔ user_key_in_range k Unbounded end_ = true.
Proof.
  intros Hs Hj. unfold end_index, user_key_in_range. cbn [andb]. destruct end_ as [|s|s].
  { split; [done|]. intros _. by eapply lookup_lt_Some. }
  all: pose proof (search_sides s keys j k Hs Hj) as H;
    destruct (binary_search_by _ _) as [i|i]; cbn; unfold bytes_leb, bytes_ltb; rewrite H;
    [destruct (Nat.compare_spec j i)|destruct (Nat.ltb_spec j i)]; cbn; split; intros; try done; lia.
Qed.

Lemma in_range_split k start end_ :
  user_key_in_range k start end_ = user_key_in_range k start Unbounded && user_key_in_range k Unbounded end_.
Proof. unfold user_key_in_range. by rewrite andb_true_r. Qed.

(** A filter that keeps a window of positions. *)
Lemma filter_window {A} (P : A → Prop) `{∀ x, Decision (P x)} (l : list A) lo hi : (lo ≤ hi ≤ length l)%nat →
  (∀ j x, l !! j = Some x → P x ↔ (lo ≤ j < hi)%nat) → filter P l = take (hi - lo) (drop lo l).
Proof.
  intros Hb HP. rewrite <-(take_drop lo l) at 1. rewrite <-(take_drop (hi - lo) (drop lo l)) at 1. rewrite !filter_app.
  rewrite (list_filter_nil _ (take lo l)), (list_filter_nil _ (drop (hi - lo) (drop lo l))).
  - rewrite app_nil_r. cbn. assert (∀ k, Forall P k → filter P k = k) as Hall.
    { intros k. induction 1 as [|x k Hx _ IH]; [done|]. by rewrite filter_cons_True, IH. }
    apply Hall, Forall_lookup. intros i x Hx. rewrite lookup_take_Some, lookup_drop in Hx. destruct Hx as [Hx Hi]. apply (HP (lo + i)%nat); [done|lia].
  - intros x (i & Hx)%list_elem_of_lookup HPx. rewrite !lookup_drop in Hx. apply (HP (lo + (hi - lo + i))%nat) in Hx as Hiff. apply Hiff in HPx. lia.
  - intros x (i & Hx)%list_elem_of_lookup HPx. rewrite lookup_take_Some in Hx. destruct Hx as [Hx Hi]. apply (HP i x Hx) in HPx. lia.
Qed.

Lemma iter_range_ok r es start end_ s : represents r es → strict es →
  iter_range r start end_ s =
    Some (filter (λ e : entry, sequence e.1 ≤ s) (filter (λ e : entry, user_key_in_range (ukey e) start end_ = true) es)).
Proof.
  intros Hr Hs. unfold iter_range. pose proof (keys_strict r es Hr Hs) as Hk.
  assert (length (r_keys r) = length es) as Hlen by (by rewrite (rp_keys _ _ Hr), length_fmap).
  set (hi := Nat.min (end_index (r_keys r) end_) _). set (lo := Nat.min (start_index (r_keys r) start) hi).
  rewrite (mapM_slice r es Hr) by lia. cbn. do 2 f_equal. symmetry. apply filter_window; [lia|].
  intros j e Hj. assert (r_keys r !! j = Some (ukey e)) as Hkj by (by apply (run_at r es)).
  rewrite in_range_split, andb_true_iff, <-(end_index_ok _ _ _ _ Hk Hkj), <-not_false_iff_true, <-(start_index_ok _ _ _ _ Hk Hkj).
  apply lookup_lt_Some in Hj. lia.
Qed.

(** ** The last key under a prefix *)

Lemma starts_with_ge k p : starts_with k p = true → ¬ bytes_lt k p.
Proof.
  unfold starts_with. rewrite bool_decide_eq_true. intros E. rewrite <-(take_drop (length p) k), E. generalize (drop (length p) k) as t.
  clear E. intros t. unfold bytes_lt. induction p as [|x p IH]; cbn; [by destruct t|]. by rewrite Z.compare_refl.
Qed.

(** A visible entry under the prefix. *)
Definition under (prefix : list byte) (s : Z) (e : entry) : Prop := starts_with (ukey e) prefix = true ∧ sequence e.1 ≤ s.

Lemma last_loop_ok r es prefix s n : represents r es → strict es → (n ≤ length es)%nat →
  ∃ res, last_loop r prefix s n = Some res ∧
    match res with
    | Some k => ∃ i e, (i < n)%nat ∧ es !! i = Some e ∧ ukey e = k ∧ under prefix s e ∧
                  ∀ j e', (i < j < n)%nat → es !! j = Some e' → ¬ under prefix s e'
    | None => ∀ j e, (j < n)%nat → es !! j = Some e → ¬ under prefix s e
    end.
Proof.
  intros Hr Hs. induction n as [|n IH]; intros Hn; [exists None; split; [done|]; intros; lia|]. cbn [last_loop].
  destruct (lookup_lt_is_Some_2 es n) as [e He]; [lia|]. destruct (run_at r es Hr n e He) as (-> & _ & -> & _). cbn [mbind option_bind].
  destruct (IH ltac:(lia)) as (res & Hres & Hspec).
  assert (¬ under prefix s e → last_loop r prefix s n = Some res ∧ match res with
    | Some k => ∃ i e, (i < S n)%nat ∧ es !! i = Some e ∧ ukey e = k ∧ under prefix s e ∧ ∀ j e', (i < j < S n)%nat → es !! j = Some e' → ¬ under prefix s e'
    | None => ∀ j e, (j < S n)%nat → es !! j = Some e → ¬ under prefix s e end) as Hskip.
  { intros Hne. split; [done|]. destruct res as [k|].
    - destruct Hspec as (i & e' & Hi & He' & Hk & Hu & Hmax). exists i, e'. split; [lia|]. split_and!; [done|done|done|].
      intros j e'' Hj Hj'. destruct (decide (j = n)) as [->|]; [congruence|]. apply (Hmax j); [lia|done].
    - intros j e' Hj Hj'. destruct (decide (j = n)) as [->|]; [congruence|]. apply (Hspec j); [lia|done]. }
  destruct (starts_with (ukey e) prefix) eqn:Est; cbn [negb].
  - destruct (Z.leb_spec (sequence e.1) s).
    + exists (Some (ukey e)). split; [done|]. exists n, e. split; [lia|]. split_and!; [done|done|by split|]. intros; lia.
    + exists res. apply Hskip. intros [_ ?]. lia.
  - destruct (bytes_ltb (ukey e) prefix) eqn:El.
    + exists None. split; [done|]. intros j e' Hj Hj' [Hst _]. apply bytes_ltb_spec in El. apply (starts_with_ge _ _ Hst).
      destruct (decide (j = n)) as [->|]; [by simplify_eq|]. transitivity (ukey e); [|done].
      eapply (sorted_lookup bytes_lt (ukey <$> es) j n); [done|lia|by rewrite list_lookup_fmap, Hj'|by rewrite list_lookup_fmap, He].
    + exists res. apply Hskip. intros [? _]. congruence.
Qed.

(** The greatest visible key under the prefix and below the bound. *)
Definition last_under (es : list entry) (prefix : list byte) (s : Z) (hi : option (list byte)) (k : list byte) : Prop :=
  let below (x : list byte) := match hi with Some h => bytes_lt x h | None => True end in
  (∃ e, e ∈ es ∧ ukey e = k ∧ under prefix s e ∧ below k) ∧
  ∀ e, e ∈ es → under prefix s e → below (ukey e) → ¬ bytes_lt k (ukey e).

Lemma run_last_ok r es prefix s hi : represents r es → strict es →
  ∃ res, run_last_visible_under_prefix r prefix s hi = Some res ∧
    match res with
    | Some k => last_under es prefix s hi k
    | None => ∀ e, e ∈ es → under prefix s e → match hi with Some h => ¬ bytes_lt (ukey e) h | None => False end
    end.
Proof.
  intros Hr Hs. unfold run_last_visible_under_prefix. pose proof (keys_strict r es Hr Hs) as Hk.
  assert (length (r_keys r) = length es) as Hlen by (by rewrite (rp_keys _ _ Hr), length_fmap). rewrite Hlen.
  destruct (Nat.eqb_spec (length es) 0) as [H0|H0]; [apply nil_length_inv in H0 as ->; exists None; split; [done|]; by intros e ?%not_elem_of_nil|].
  set (n := match hi with Some h => either_index _ | None => length es end).
  assert ((n ≤ length es)%nat ∧ ∀ j e, es !! j = Some e → (j < n)%nat ↔ match hi with Some h => bytes_lt (ukey e) h | None => True end) as [Hn Hidx].
  { unfold n. destruct hi as [h|]; [|split; [done|]; intros j e ?%lookup_lt_Some; done]. split.
    - pose proof (search_key_ok h (r_keys r) Hk) as Hx. destruct (binary_search_by _ _); cbn; [apply lookup_lt_Some in Hx; lia|lia].
    - intros j e He. assert (r_keys r !! j = Some (ukey e)) as Hkj by (by apply (run_at r es)).
      pose proof (end_index_ok (r_keys r) (Excluded h) j (ukey e) Hk Hkj) as Hend. unfold end_index, user_key_in_range in Hend. cbn in Hend.
      by rewrite Hend, bytes_ltb_spec. }
  destruct (last_loop_ok r es prefix s n Hr Hs Hn) as (res & Hres & Hspec). exists res. split; [done|]. destruct res as [k|].
  - destruct Hspec as (i & e & Hi & He & <- & Hu & Hmax). split.
    + exists e. split; [by eapply list_elem_of_lookup_2|]. split_and!; [done|done|]. by apply (Hidx i e He).
    + intros e' (j & Hj)%list_elem_of_lookup Hu' Hb Hlt. apply (Hmax j e'); [|done|done]. split; [|by apply (Hidx j e' Hj)].
      destruct (decide (i < j)%nat) as [|Hge]; [done|]. exfalso. destruct (decide (i = j)) as [->|]; [rewrite He in Hj; injection Hj as <-; by apply (irreflexivity bytes_lt (ukey e))|].
      assert (bytes_lt (ukey e') (ukey e)) as Hc.
      { eapply (sorted_lookup bytes_lt (ukey <$> es) j i); [done|lia|by rewrite list_lookup_fmap, Hj|by rewrite list_lookup_fmap, He]. }
      apply (irreflexivity bytes_lt (ukey e)). by etrans.
  - intros e (j & Hj)%list_elem_of_lookup Hu. specialize (Hspec j e). destruct hi as [h|]; [intros Hb|]; apply Hspec; try done; by apply (Hidx j e Hj).
Qed.

(** * Filling a run *)

Definition push_entry (r : BulkRun) (e : entry) : BulkRun := push_with_kind r (ukey e) e.2 (sequence e.1) (kind e.1).

Lemma push_entries_represents r es new : represents r es → represents (foldl push_entry r new) (es ++ new).
Proof.
  revert r es. induction new as [|e new IH]; intros r es [Hk Hv Hn Ht]; [by rewrite app_nil_r|]. cbn.
  rewrite cons_middle, app_assoc. apply IH. split; cbn; by rewrite ?Hk, ?Hv, ?Hn, ?Ht, fmap_app.
Qed.

Lemma strict_app_inv es new : strict (es ++ new) → strict es ∧ strict new ∧ ∀ e e', e ∈ es → e' ∈ new → bytes_lt (ukey e) (ukey e').
Proof.
  unfold strict. rewrite fmap_app. induction es as [|e es IH]; cbn.
  - intros Hs. split; [constructor|]. split; [done|]. by intros e e' ?%not_elem_of_nil.
  - intros [Hs He]%StronglySorted_inv. destruct (IH Hs) as (H1 & H2 & H3). apply Forall_app in He as [He1 He2]. split; [by constructor|].
    split; [done|]. intros x y [->|Hx]%elem_of_cons Hy; [|by apply H3]. rewrite Forall_forall in He2. by apply He2, list_elem_of_fmap_2.
Qed.

Lemma strict_app es new : strict es → strict new → (∀ e e', e ∈ es → e' ∈ new → bytes_lt (ukey e) (ukey e')) → strict (es ++ new).
Proof.
  unfold strict. rewrite fmap_app. induction es as [|e es IH]; cbn; [done|]. intros [Hs He]%StronglySorted_inv Hn Hlt.
  constructor; [apply IH; [done|done|intros; apply Hlt; [by right|done]]|]. apply Forall_app. split; [done|].
  apply Forall_forall. intros k (e' & -> & He')%list_elem_of_fmap. apply Hlt; [left|done].
Qed.

Lemma push_entries_ok r es new : run_ok r es → strict (es ++ new) → run_ok (foldl push_entry r new) (es ++ new).
Proof.
  intros (Hr & Hs & Hf) Hn. split; [by apply push_entries_represents|]. split; [done|].
  revert r es Hr Hs Hf Hn. induction new as [|e new IH]; intros r es Hr Hs Hf Hn; [done|]. cbn.
  rewrite cons_middle, app_assoc in Hn. destruct (strict_app_inv _ _ Hn) as (Hs' & _ & _).
  apply (IH _ (es ++ [e])); [|done| |done]; [by apply (push_entries_represents r es [e])|].
  cbn. rewrite Hf. cbn. apply negb_true_iff. rewrite (rp_keys _ _ Hr). destruct (last (ukey <$> es)) as [k|] eqn:El; [|done]. cbn.
  apply last_Some in El as (l' & El). apply not_true_iff_false. rewrite bytes_ltb_spec. intros Hc.
  destruct (strict_app_inv es [e] Hs') as (_ & _ & Hlt). assert (k ∈ ukey <$> es) as (e0 & -> & He0)%list_elem_of_fmap by (rewrite El; set_solver).
  apply (irreflexivity bytes_lt (ukey e)). etrans; [exact Hc|]. apply Hlt; [done|left].
Qed.

Lemma run_default_ok : run_ok run_default [].
Proof. split; [by split|]. split; [constructor|done]. Qed.

(** The entries [bulk_append_puts] makes. *)
Fixpoint put_entries (seq : Z) (kvs : list (list byte * list byte)) : list entry :=
  match kvs with
  | [] => []
  | (k, v) :: kvs => (mkIKey k seq Value, escape_inline_value v) :: put_entries (seq + 1) kvs
  end.

Lemma append_loop_run r ingested seq kvs : (append_loop r ingested seq kvs).1 = foldl push_entry r (put_entries seq kvs).
Proof. revert r ingested seq. induction kvs as [|[k v] kvs IH]; intros r ingested seq; [done|]. cbn. by rewrite IH. Qed.

Lemma absorb_rows_run r lk rows : absorb_rows r lk rows = foldl push_entry r (newest lk rows).
Proof.
  revert r lk. induction rows as [|[ik v] rows IH]; intros r lk; [done|]. cbn. case_bool_decide; by rewrite IH.
Qed.

Lemma put_entries_keys seq kvs : ukey <$> put_entries seq kvs = kvs.*1.
Proof. revert seq. induction kvs as [|[k v] kvs IH]; intros seq; [done|]. cbn. by rewrite IH. Qed.

Lemma put_entries_at seq kvs i k v : kvs !! i = Some (k, v) →
  put_entries seq kvs !! i = Some (mkIKey k (seq + Z.of_nat i) Value, escape_inline_value v).
Proof.
  revert seq i. induction kvs as [|[k' v'] kvs IH]; intros seq [|i]; try done; cbn.
  - intros [= -> ->]. by rewrite Z.add_0_r.
  - intros Hi. etrans; [exact (IH (seq + 1) i Hi)|]. do 3 f_equal. lia.
Qed.

(** ** Sorting the keys of a batch *)

Lemma gather_lookup {A} (l k : list A) idx : gather l idx = Some k → ∀ i, k !! i = j ← idx !! i; l !! j.
Proof.
  unfold gather. intros H%mapM_Some. induction H as [|j x idx k Hx _ IH]; intros i; [done|]. destruct i as [|i]; cbn; [by rewrite Hx|apply IH].
Qed.

Lemma gather_total {A} (l : list A) idx : Forall (λ i, (i < length l)%nat) idx → ∃ k, gather l idx = Some k.
Proof.
  unfold gather. induction 1 as [|i idx Hi _ (k & IH)]; [by exists []|]. destruct (lookup_lt_is_Some_2 l i Hi) as [x Hx].
  exists (x :: k). cbn. rewrite Hx. cbn. by rewrite IH.
Qed.

Lemma gather_perm {A} (l k : list A) idx : gather l idx = Some k → idx ≡ₚ seq 0 (length l) → k ≡ₚ l.
Proof.
  intros Hg Hp. assert (Some <$> k = (λ i, l !! i) <$> idx) as Hm.
  { unfold gather in Hg. apply mapM_Some in Hg. clear Hp. induction Hg as [|j x idx k Hx _ IH]; [done|]. cbn. by rewrite Hx, IH. }
  assert (Some <$> k ≡ₚ Some <$> l) as Hs.
  { rewrite Hm, Hp. clear. assert ((λ i, l !! i) <$> seq 0 (length l) = Some <$> l) as ->; [|done].
    apply list_eq. intros i. rewrite !list_lookup_fmap. destruct (decide (i < length l)%nat).
    - rewrite lookup_seq_lt by done. cbn. by destruct (lookup_lt_is_Some_2 l i) as [x ->].
    - rewrite lookup_seq_ge, lookup_ge_None_2 by lia. done. }
  assert (∀ m : list A, m = omap id (Some <$> m)) as Ho by (intros m; induction m as [|x m IH]; cbn; congruence).
  by rewrite (Ho k), (Ho l), Hs.
Qed.

Lemma gather_zip {A B} (l : list A) (l' : list B) k k' idx : length l = length l' → gather l idx = Some k → gather l' idx = Some k' →
  gather (zip l l') idx = Some (zip k k').
Proof.
  intros Hlen. unfold gather. revert k k'. induction idx as [|i idx IH]; intros k k'; cbn [mapM]; [by intros [= <-] [= <-]|].
  destruct (l !! i) as [x|] eqn:Ex; [|done]. destruct (l' !! i) as [y|] eqn:Ey; [|done]. cbn.
  destruct (mapM (λ i, l !! i) idx) as [k0|]; [|done]. destruct (mapM (λ i, l' !! i) idx) as [k1|]; [|done]. cbn. intros [= <-] [= <-].
  rewrite lookup_zip_with, Ex, Ey. cbn. by rewrite (IH k0 k1).
Qed.

Lemma sort_bulk_ok perm keys vals : sorts keys perm → length keys = length vals → NoDup keys →
  ∃ ks vs, sort_bulk_key_vals perm keys vals = Some (ks, vs) ∧ StronglySorted bytes_lt ks ∧ length ks = length vs ∧ zip ks vs ≡ₚ zip keys vals.
Proof.
  intros [Hp Hso] Hlen Hnd. unfold sort_bulk_key_vals. destruct (Nat.ltb_spec (length keys) 2).
  { exists keys, vals. split_and!; try done. destruct keys as [|a [|b keys]]; [repeat constructor..|cbn in *; lia]. }
  destruct (windows_all bytes_ltb keys) eqn:Ew.
  { exists keys, vals. split_and!; try done. apply (windows_all_sorted bytes_ltb bytes_lt); [apply bytes_ltb_spec|done]. }
  assert (Forall (λ i, (i < length keys)%nat) perm) as Hin.
  { rewrite Hp. apply Forall_forall. intros i Hi%elem_of_seq. lia. }
  destruct (gather_total keys perm Hin) as [ks Hks]. destruct (gather_total vals perm) as [vs Hvs]; [by rewrite <-Hlen|].
  rewrite Hks, Hvs. exists ks, vs. split; [done|].
  assert (length ks = length perm ∧ length vs = length perm) as [Hk Hv] by (split; symmetry; by eapply length_mapM).
  split; [|split; [lia|]].
  - assert (StronglySorted (not_after bytes_cmp) ks) as Hs.
    { clear Hin Hvs Hp Hv. unfold gather in Hks. apply mapM_Some in Hks. induction Hks as [|i k perm ks Hi Hks IH]; [constructor|].
      apply StronglySorted_inv in Hso as [Hso Hlt]. constructor; [by apply IH; [|cbn in Hk; lia]|]. apply Forall_forall. intros k' Hk'.
      apply list_elem_of_lookup in Hk' as (j & Hj). destruct (Forall2_lookup_r _ _ _ _ _ Hks Hj) as (i' & Hi' & Hki').
      rewrite Forall_forall in Hlt. specialize (Hlt i' (list_elem_of_lookup_2 _ _ _ Hi')). unfold not_after, key_order in Hlt.
      by rewrite Hi, Hki' in Hlt. }
    assert (NoDup ks) as Hnk by (by rewrite (gather_perm _ _ _ Hks Hp)).
    clear -Hs Hnk. induction Hs as [|k ks Hs IH Hk]; [constructor|]. apply NoDup_cons in Hnk as [Hn Hnk]. constructor; [by apply IH|].
    apply Forall_forall. intros k' Hk'. rewrite Forall_forall in Hk. specialize (Hk k' Hk'). unfold not_after in Hk. rewrite bytes_lt_cmp_gt in Hk.
    destruct (bytes_trichotomy k k') as [|[->|]]; done.
  - apply (gather_perm _ _ perm); [by apply gather_zip|]. by rewrite length_zip_with, <-Hlen, Nat.min_id.
Qed.

(** * Properties *)

(** Reads of a sorted bulk run are exact. On a run of distinct ascending
    keys, the point lookup finds the key's entry when the snapshot shows it
    (value, deletion, or nothing), the write test tells whether the key has a
    write after the snapshot, the range iterator yields the visible entries of
    the range in order, and the prefix search returns the greatest visible key
    under the prefix below the bound; none of them indexes out of range. *)
Theorem bulk_reads_exact r es uk s start end_ prefix hi :
  run_ok r es →
  (∃ look, run_lookup r uk s = Some look ∧
     (∀ v, look = Found v ↔ ∃ n, n ≤ s ∧ (mkIKey uk n Value, v) ∈ es) ∧
     (look = Deleted ↔ ∃ n v, n ≤ s ∧ (mkIKey uk n Deletion, v) ∈ es)) ∧
  (∃ b, has_write_after r uk s = Some b ∧ (b = true ↔ ∃ e, e ∈ es ∧ user_key e.1 = uk ∧ s < sequence e.1)) ∧
  iter_range r start end_ s =
    Some (filter (λ e : entry, sequence e.1 ≤ s) (filter (λ e : entry, user_key_in_range (user_key e.1) start end_ = true) es)) ∧
  ∃ res, run_last_visible_under_prefix r prefix s hi = Some res ∧
    match res with
    | Some k => last_under es prefix s hi k
    | None => ∀ e, e ∈ es → under prefix s e → match hi with Some h => ¬ bytes_lt (user_key e.1) h | None => False end
    end.
Proof.
  intros (Hr & Hs & _). split; [by apply run_lookup_ok|]. split; [by apply has_write_after_ok|].
  split; [by apply iter_range_ok|by apply run_last_ok].
Qed.

(** The run a family has, empty when it has none. *)
Definition family_run (b : BulkState) (f : Family) (es : list entry) : Prop :=
  match bulk_runs b !! f with Some r => run_ok r es | None => es = [] end.

(** C21: a bulk append extends the run. For distinct keys above the keys of the
    family's run (what the latch grants), the batch gets the next sequence
    numbers in key order, its values are escaped, and the run with the new
    entries behind the old ones stays sorted: it is the family's live run, or
    the last parked one when it reached the chunk size. Other families keep
    their runs; the sequence counter moves by the size of the batch. *)
Theorem bulk_append_exact cap perm b f es keys vals pre_sorted :
  family_run b f es → sorts keys perm → length keys = length vals → NoDup keys → keys ≠ [] →
  (pre_sorted = true → StronglySorted bytes_lt keys) →
  (∀ e k, e ∈ es → k ∈ keys → bytes_lt (user_key e.1) k) →
  0 ≤ next_seq b → next_seq b + Z.of_nat (length keys) - 1 ≤ MAX_ASSIGNABLE_SEQUENCE_NUMBER →
  ∃ b' kvs run, bulk_append_puts cap perm b f keys vals pre_sorted = Some (b', Ok tt) ∧
    kvs ≡ₚ zip keys vals ∧ StronglySorted bytes_lt kvs.*1 ∧
    run_ok run (es ++ put_entries (next_seq b) kvs) ∧ next_seq b' = next_seq b + Z.of_nat (length keys) ∧
    ((bulk_runs b' !! f = Some run ∧ parked_bulk b' = parked_bulk b) ∨
     (bulk_runs b' !! f = None ∧ parked_bulk b' = parked_bulk b ++ [(f, run)])) ∧
    (∀ g, g ≠ f → bulk_runs b' !! g = bulk_runs b !! g) ∧ b_mem b' = b_mem b.
Proof.
  intros Hrun Hso Hlen Hnd Hne Hpre Habove H0 Hmax. unfold bulk_append_puts.
  assert (length keys ≠ 0%nat) as Hl0 by (by destruct keys). rewrite (proj2 (Z.eqb_neq _ _)) by lia.
  assert (∃ ks vs, (if pre_sorted then Some (keys, vals) else sort_bulk_key_vals perm keys vals) = Some (ks, vs) ∧
    StronglySorted bytes_lt ks ∧ length ks = length vs ∧ zip ks vs ≡ₚ zip keys vals) as (ks & vs & -> & Hks & Hkl & Hperm).
  { destruct pre_sorted; [|by apply sort_bulk_ok]. exists keys, vals. split; [done|]. split; [by apply Hpre|done]. }
  cbn [mbind option_bind]. unfold seq_exhausted, sat_add, sat_sub.
  rewrite (proj2 (Z.ltb_ge _ _)) by (unfold U64_MAX, MAX_ASSIGNABLE_SEQUENCE_NUMBER, MAX_SEQUENCE_NUMBER in *; lia).
  assert ((zip ks vs).*1 = ks) as Hfst by (apply fst_zip; lia).
  destruct (append_loop _ _ _ (zip ks vs)) as [run ingested] eqn:Eap.
  assert (run = foldl push_entry (default run_default (bulk_runs b !! f)) (put_entries (next_seq b) (zip ks vs))) as Erun.
  { by rewrite <-append_loop_run with (ingested := bytes_ingested b), Eap. }
  assert (run_ok run (es ++ put_entries (next_seq b) (zip ks vs))) as Hok.
  { rewrite Erun. apply push_entries_ok.
    - unfold family_run in Hrun. destruct (bulk_runs b !! f) as [r|]; [done|]. subst es. apply run_default_ok.
    - apply strict_app; [unfold family_run in Hrun; destruct (bulk_runs b !! f); [apply Hrun|subst; constructor]| |].
      + unfold strict. by rewrite put_entries_keys, Hfst.
      + intros e e' He He'. apply (list_elem_of_fmap_2 ukey) in He'. rewrite put_entries_keys in He'. apply Habove; [done|].
        assert (keys = (zip keys vals).*1) as -> by (symmetry; apply fst_zip; lia). by rewrite <-Hperm. }
  pose proof Hok as (_ & _ & Hsorted). rewrite Hsorted. rewrite Z.mod_small by (unfold MAX_ASSIGNABLE_SEQUENCE_NUMBER, MAX_SEQUENCE_NUMBER in *; lia).
  destruct (match cap with Some c => c <=? r_bytes run | None => false end); cbn [mbind option_bind].
  all: eexists _, (zip ks vs), run; split; [done|]; split; [done|]; split; [by rewrite Hfst|]; split; [done|]; split; [done|]; cbn; split; [|split; [|done]].
  - right. by rewrite lookup_delete_eq.
  - intros g Hg. by rewrite lookup_delete_ne.
  - left. by rewrite lookup_insert_eq.
  - intros g Hg. by rewrite lookup_insert_ne.
Qed.

(** ** Absorbing a memtable *)

Lemma recount_tail_field m : tail (recount m) = tail m.
Proof. unfold recount. by destruct (recount_tail _ _ _ _). Qed.

Lemma move_span_tail pfx ms : tail (move_span pfx ms).2 = tail ms.2.
Proof. unfold move_span. destruct ms as [m t]. by case_match. Qed.

Lemma take_family_tail m f : tail (take_family m f).2 = [].
Proof.
  unfold take_family. case_match.
  - unfold take_family_contiguous. repeat case_match; simplify_eq; cbn; try done.
    match goal with H : move_span ?p ?ms = (_, ?t) |- tail ?t = [] => pose proof (move_span_tail p ms) as Ht; rewrite H in Ht; exact Ht end.
  - repeat case_match; rewrite ?move_span_tail; cbn; by rewrite ?recount_tail_field.
Qed.

(** A row of the newest versions is what a read of the latest state returns,
    when no range is deleted. *)
Lemma newest_rows_reads l rows uk s v : uniq l → newest_rows l rows →
  (∀ e, e ∈ l → sequence e.1 ≤ s ∧ kind e.1 ≠ RangeDeletion) →
  reads l s uk v ↔ ∃ n, n ≤ s ∧ (mkIKey uk n Value, v) ∈ rows.
Proof.
  intros Hu (Hs & Hrow & Hall) Hk. split.
  - intros (e & (He & Eu & _ & Hle) & <- & Ekind & Hmin & _). destruct (Hall e He) as (r & Hr & Er).
    destruct (Hrow r Hr) as [Hin Hfirst]. destruct (Hk r Hin) as [Hrs Hrk].
    assert (¬ ikey_lt r.1 e.1) as H1 by (apply Hmin; split_and!; [done|congruence|done|done]).
    assert (¬ ikey_lt e.1 r.1) as H2 by (by apply Hfirst).
    assert (r = e) as ->.
    { apply (uniq_same l); [done|done|done|done|]. destruct (ikey_trichotomy r.1 e.1) as [|[E|]]; [done|by rewrite E|done]. }
    exists (sequence e.1). split; [done|]. by destruct e as [[u n k] w]; cbn in *; subst.
  - intros (n & Hn & Hr). destruct (Hrow _ Hr) as [Hin Hfirst]. exists (mkIKey uk n Value, v). split; [split_and!; done|].
    split; [done|]. split; [done|]. split.
    + intros e' (He' & Eu & _). apply Hfirst; [done|]. by rewrite Eu.
    + intros (k & w & Hkw & Hrd & _). by destruct (Hk _ Hkw).
Qed.

(** Absorbing a family moves its memtable into a run. When the family has
    no run yet, its versions leave the memtable, the rest stays, and the run
    holds the newest version of every key, sorted; when none of the versions is
    a range deletion, a lookup in the run at a snapshot that sees them all
    returns what the memtable's versions read. *)
Theorem absorb_exact b f rest taken :
  mem_ok (b_mem b) → bulk_runs b !! f = None → take_family (b_mem b) f = (rest, taken) →
  ∃ b' es, absorb_mem_family_into_run b f = Some b' ∧ b_mem b' = rest ∧
    split_by (λ k, key_in_cf_family k f) (b_mem b) rest taken ∧
    family_run b' f es ∧ newest_rows (mem_entries taken) es ∧
    (∀ r uk s v, bulk_runs b' !! f = Some r → (∀ e, e ∈ mem_entries taken → sequence e.1 ≤ s ∧ kind e.1 ≠ RangeDeletion) →
       run_lookup r uk s = Some (Found v) ↔ reads (mem_entries taken) s uk v) ∧
    (∀ g, g ≠ f → bulk_runs b' !! g = bulk_runs b !! g).
Proof.
  intros Hm Hno Etake. pose proof (take_family_ok (b_mem b) f Hm) as Hsplit. pose proof (take_family_tail (b_mem b) f) as Htail.
  unfold absorb_mem_family_into_run. rewrite Etake in *. cbn in Htail.
  pose proof Hsplit as (_ & Ht & _ & _). destruct (Z.eqb_spec (entries taken) 0) as [E0|E0].
  - assert (mem_entries taken = []) as Enil.
    { destruct (mo_counts taken Ht) as [Hn _ _]. rewrite E0 in Hn. apply nil_length_inv. lia. }
    eexists _, []. split; [done|]. split; [done|]. split; [done|]. split; [unfold family_run; cbn; by rewrite Hno|].
    rewrite Enil. split; [|split; [cbn; by rewrite Hno|done]]. split; [constructor|]. split; intros e He; by apply not_elem_of_nil in He.
  - destruct (iter_internal_ok taken Ht (or_introl Htail)) as (rows & Erows & Hsorted & Hperm). rewrite Erows. cbn [mbind option_bind].
    assert (newest_rows (mem_entries taken) (newest None rows)) as Hnew.
    { destruct (newest_rows_sorted rows (ikey_lt_le_sorted _ Hsorted)) as (H1 & H2 & H3). split; [done|]. split.
      - intros r Hr. destruct (H2 r Hr) as [Hin Hf]. rewrite <-Hperm. split; [done|]. intros e He. apply Hf. by rewrite Hperm.
      - intros e He. apply H3. by rewrite Hperm. }
    assert (run_ok (absorb_rows (default run_default (bulk_runs b !! f)) None rows) (newest None rows)) as Hok.
    { rewrite Hno, absorb_rows_run. apply (push_entries_ok run_default []); [apply run_default_ok|]. apply Hnew. }
    eexists _, _. split; [done|]. cbn. split; [done|]. split; [done|]. rewrite !lookup_insert_eq. split; [unfold family_run; cbn; rewrite lookup_insert_eq; exact Hok|].
    split; [done|]. split; [|intros g Hg; by rewrite lookup_insert_ne].
    intros r uk s v [= <-] Hall. destruct (run_lookup_ok _ _ (proj1 Hok) (proj1 (proj2 Hok)) uk s) as (look & -> & Hf & _).
    rewrite (newest_rows_reads _ _ _ _ _ (mo_uniq _ Ht) Hnew Hall), <-Hf. split; [by intros [= ->]|by intros ->].
Qed.

(** A run filled out of order loses keys. The latched path appends its span
    as it came although the latch admits up to eight inversions; the run then
    notes that it is unsorted, but the point lookup searches it all the same:
    of the keys [m], [a], [b] put in one span, [m] is not found. The latch
    routes this very span in bulk. *)
Theorem unsorted_run_misses_key :
  let span := [[x6d]; [x61]; [x62]] in
  let latch := run ((λ i, ObsFamily [x64] [(true, [Z2b (50 + Z.of_nat i)])] None) <$> seq 0 8) in
  (observe_latched_span latch [x64] span).2 = Bulk ∧
  ∃ b' r, bulk_append_puts None [] (mkBulk mem_new ∅ [] 1 0 0) [x64] span [[x31]; [x32]; [x33]] true = Some (b', Ok tt) ∧
    bulk_runs b' !! [x64] = Some r ∧ r_is_sorted r = false ∧ run_lookup r [x6d] 10 = Some NotFound ∧
    run_lookup r [x61] 10 = Some (Found [x32]).
Proof. split; [vm_compute; reflexivity|]. eexists _, _. split; [vm_compute; reflexivity|]. split; [vm_compute; reflexivity|]. vm_compute. done. Qed.

(** ** Witnesses *)

Definition sample_rows : list entry :=
  [(mkIKey [x61] 3 Value, [x31]); (mkIKey [x61; x62] 1 Deletion, []); (mkIKey [x62] 4 Value, [x32])].
Definition sample_run : BulkRun := foldl push_entry run_default sample_rows.

Lemma sample_run_ok : run_ok sample_run sample_rows.
Proof.
  apply (push_entries_ok run_default []); [apply run_default_ok|]. unfold strict. cbn.
  repeat (constructor; [|repeat constructor; vm_compute; congruence]). constructor.
Qed.

Lemma bulk_reads_exact_witness :
  run_lookup sample_run [x62] 9 = Some (Found [x32]) ∧ run_lookup sample_run [x61; x62] 2 = Some Deleted.
Proof.
  split.
  - destruct (bulk_reads_exact sample_run sample_rows [x62] 9 Unbounded Unbounded [] None sample_run_ok) as ((look & E & Hf & _) & _).
    rewrite E. f_equal. apply Hf. exists 4. split; [vm_compute; discriminate|]. right. right. left.
  - destruct (bulk_reads_exact sample_run sample_rows [x61; x62] 2 Unbounded Unbounded [] None sample_run_ok) as ((look & E & _ & Hd) & _).
    rewrite E. f_equal. apply Hd. exists 1, []. split; [vm_compute; discriminate|]. right. left.
Defined.

Lemma bulk_append_exact_witness :
  ∃ b' kvs run, bulk_append_puts (Some 64) [1; 0]%nat (mkBulk mem_new {[ [x64] := sample_run ]} [] 7 0 0) [x64] [[x7a]; [x79]] [[x01]; []] false = Some (b', Ok tt) ∧
    run_ok run (sample_rows ++ put_entries 7 kvs) ∧ next_seq b' = 9.
Proof.
  destruct (bulk_append_exact (Some 64) [1; 0]%nat (mkBulk mem_new {[ [x64] := sample_run ]} [] 7 0 0) [x64] sample_rows [[x7a]; [x79]] [[x01]; []] false)
    as (b' & kvs & run & E & _ & _ & Hok & Hn & _).
  - unfold family_run. cbn. exact sample_run_ok.
  - split; [apply Permutation_swap|]. constructor; [repeat constructor|]. constructor; [vm_compute; discriminate|constructor].
  - reflexivity.
  - constructor; [by intros [=]%list_elem_of_singleton|]. apply NoDup_singleton.
  - discriminate.
  - discriminate.
  - intros e k He Hk. apply elem_of_cons in Hk as [->|Hk]; [|apply list_elem_of_singleton in Hk as ->];
      (apply elem_of_cons in He as [->|He]; [vm_compute; reflexivity|]; apply elem_of_cons in He as [->|He]; [vm_compute; reflexivity|];
       apply list_elem_of_singleton in He as ->; vm_compute; reflexivity).
  - vm_compute. discriminate.
  - vm_compute. discriminate.
  - exists b', kvs, run. split; [exact E|]. split; [exact Hok|exact Hn].
Defined.

Definition sample_family : MemTable := put (delete (put mem_new [x64; x00; x61] 1 [x31]) [x64; x00; x62] 2) [x65; x00; x61] 3 [x33].
Lemma sample_family_ok : mem_ok sample_family.
Proof.
  assert (mem_reach sample_family [(mkIKey [x64; x00; x61] 1 Value, [x31]); (mkIKey [x64; x00; x62] 2 Deletion, []); (mkIKey [x65; x00; x61] 3 Value, [x33])] 0) as Hr.
  { apply (reach_insert _ [_; _] 0); [apply (reach_insert _ [_] 0); [apply (reach_insert _ [] 0); [constructor| |]| |]| |];
      try (vm_compute; discriminate);
      intros x Hx; repeat (apply elem_of_cons in Hx as [->|Hx]; [done|]); by apply not_elem_of_nil in Hx. }
  by destruct (mem_reach_sim _ _ _ Hr).
Qed.

Definition sample_bulk : BulkState := mkBulk sample_family ∅ [] 4 0 0.

Lemma sample_taken_points e : e ∈ mem_entries (take_family (b_mem sample_bulk) [x64]).2 → sequence e.1 ≤ 9 ∧ kind e.1 ≠ RangeDeletion.
Proof.
  intros He. vm_compute in He. repeat (apply elem_of_cons in He as [->|He]; [vm_compute; split; discriminate|]).
  by apply not_elem_of_nil in He.
Qed.

Lemma sample_has_run b' : absorb_mem_family_into_run sample_bulk [x64] = Some b' → is_Some (bulk_runs b' !! [x64]).
Proof. intros E. vm_compute in E. injection E as <-. vm_compute. by eexists. Qed.

Lemma absorb_exact_witness :
  ∃ rest taken b' r, take_family (b_mem sample_bulk) [x64] = (rest, taken) ∧
    absorb_mem_family_into_run sample_bulk [x64] = Some b' ∧ bulk_runs b' !! [x64] = Some r ∧
    (run_lookup r [x64; x00; x61] 9 = Some (Found [x31]) ↔ reads (mem_entries taken) 9 [x64; x00; x61] [x31]).
Proof.
  destruct (take_family (b_mem sample_bulk) [x64]) as [rest taken] eqn:Et.
  destruct (absorb_exact sample_bulk [x64] rest taken sample_family_ok eq_refl Et) as (b' & es & E & _ & _ & _ & _ & Hl & _).
  destruct (sample_has_run b' E) as [r Er]. exists rest, taken, b', r. split; [reflexivity|]. split; [exact E|]. split; [exact Er|].
  apply (Hl r [x64; x00; x61] 9 [x31] Er). intros e He. apply (sample_taken_points e). rewrite Et. exact He.
Defined.
