(* ===== verification/DbLookup.v ===== *)
(** The database's point lookup ([db_kernel.rs], [lookup]): memtable layers,
    bulk runs, then the table runs, newest first, with the order of the tables
    ([rebuild_sst_order], [rebuild_sst_runs], [probe_order_kernel.rs]) and the
    predicates of [lookup_kernel.rs].

    The tables are read through the class [SstReader]; [SstReads] is what the
    lookup relies on, and [DbTables] discharges it for [SstTable]s that share a
    raw-block cache. Counters are left out; [None] is
    a panic or the fail-stop of a corrupt block. *)

From S2P Require Import Prelude SliceOps BulkIngest ErrorKernel KeyKernel BatchKernel WalFormat Visibility OrdMap MemIndex MemTable MemFamily MemRead Bloom SstBlock SstFile SstTable SstWrite SstOpen SstRead SstLookup Flush BulkRun.

Local Open Scope Z_scope.

(** * [lookup_kernel.rs] *)

Definition snap_is_empty (seq : Z) : bool := seq =? 0.
Definition snap_below_watermark (seq earliest : Z) : bool := seq <? earliest.
Definition mem_point_decides (has_point : bool) : bool := has_point.
Definition prefer_newer_seq (have_best : bool) (new_seq best_seq : Z) : bool := negb have_best || (best_seq <? new_seq).
Inductive PointTombstonePlan := ValueVisible | ShadowedDeleted.
Definition point_tombstone_plan (range_hidden : bool) : PointTombstonePlan :=
  if range_hidden then ShadowedDeleted else ValueVisible.

(** * Tables *)

(** What the database calls on a table. *)
Class SstReader (T St : Type) := {
  smallest_user_key : T → option (list byte);
  largest_user_key : T → option (list byte);
  range_tombstones_of : T → list entry;
  point_at_seeking_with_hashes : T → list byte → Z → St → St * Comp (option point)
}.

(** What it relies on: a table that [holds] entries answers lookups from them
    in every state the reads keep, and its bounds and tombstones are theirs. *)
Class SstReads (T St : Type) `{SstReader T St} := {
  holds : T → list entry → Prop;
  readable : St → Prop;
  holds_sorted t es : holds t es → sorted_entries es;
  holds_smallest t es : holds t es → smallest_user_key t = user_of <$> head es;
  holds_largest t es : holds t es →
    match largest_user_key t with None => es = [] | Some hi => ∀ e, e ∈ es → ¬ bytes_lt hi (user_of e) end;
  holds_tombs t es : holds t es → range_tombstones_of t = range_dels es;
  holds_point t es uk snap st : holds t es → readable st →
    ∃ st', point_at_seeking_with_hashes t uk snap st = (st', Some (Ok (point_ref es uk snap))) ∧ readable st'
}.

(** ** Order and runs *)

(** [Ord] of [Option<&[u8]>]. *)
Definition opt_cmp (a b : option (list byte)) : comparison :=
  match a, b with
  | None, None => Eq
  | None, Some _ => Lt
  | Some _, None => Gt
  | Some a, Some b => bytes_cmp a b
  end.

(** [run_pairwise_disjoint_los] *)
Definition run_pairwise_disjoint_los (los his : list (list byte)) : bool :=
  let n := Nat.min (length los) (length his) in
  (2 <=? n)%nat &&
  forallb (λ i, match his !! (i - 1)%nat, los !! i with Some h, Some l => bytes_ltb h l | _, _ => false end) (seq 1 (n - 1)).

Record SstRun := mkSstRun {
  run_level : Z;
  tables_newest_first : list nat;
  disjoint_by_lo : option (list nat);
  run_has_range_tombstones : bool
}.

Section db.
Context {T St : Type} `{SR : SstReader T St}.

Definition lo_of (ssts : list T) (i : nat) : option (list byte) := t ← ssts !! i; smallest_user_key t.
Definition hi_of (ssts : list T) (i : nat) : option (list byte) := t ← ssts !! i; largest_user_key t.

Definition disjoint_sorted_by_lo (ssts : list T) (newest_first : list nat) : option (list nat) :=
  if (length newest_first <? 2)%nat then None
  else if negb (forallb (λ i, bool_decide (is_Some (lo_of ssts i)) && bool_decide (is_Some (hi_of ssts i))) newest_first) then None
  else
    let by_lo := sort_by (λ a b, opt_cmp (lo_of ssts a) (lo_of ssts b)) newest_first in
    los ← mapM (lo_of ssts) by_lo; his ← mapM (hi_of ssts) by_lo;
    if negb (run_pairwise_disjoint_los los his) then None else Some by_lo.

Definition level_of (levels : list Z) (i : nat) : Z := default 0 (levels !! i).

(** [rebuild_sst_order], the order of the indices. *)
Definition order_cmp (levels : list Z) (a b : nat) : comparison :=
  match level_of levels a ?= level_of levels b with Eq => Nat.compare b a | o => o end.
Definition sst_indices_newest_first (levels : list Z) (n : nat) : list nat := sort_by (order_cmp levels) (seq 0 n).

Definition sst_has_range_tombstones (t : T) : bool := negb (length (range_tombstones_of t) =? 0)%nat.

(** [rebuild_sst_runs]: consecutive indices of a level, then the run's summary. *)
Definition add_to_runs (levels : list Z) (runs : list (Z * list nat)) (i : nat) : list (Z * list nat) :=
  let level := level_of levels i in
  match reverse runs with
  | (l, ids) :: rest => if l =? level then reverse rest ++ [(l, ids ++ [i])] else runs ++ [(level, [i])]
  | [] => [(level, [i])]
  end.
Definition finish_run (ssts : list T) (r : Z * list nat) : SstRun :=
  mkSstRun r.1 r.2 (disjoint_sorted_by_lo ssts r.2)
    (existsb (λ i, from_option sst_has_range_tombstones false (ssts !! i)) r.2).
Definition rebuild_sst_runs (ssts : list T) (levels : list Z) : list SstRun :=
  finish_run ssts <$> foldl (add_to_runs levels) [] (sst_indices_newest_first levels (length ssts)).

(** * The database *)

Record Db := mkDb {
  d_live : MemTable;
  d_imm : option MemTable;
  d_pin : option MemTable;
  d_parked : list MemTable;
  d_retired_pending : list MemTable;
  d_retired_fold : MemTable;
  d_physical_cfs : list Family;
  d_bulk_runs : gmap Family BulkRun;
  d_parked_bulk : list (Family * BulkRun);
  d_bulk_encodings : list (Z * Family * BulkRun);
  d_ssts : list T;
  d_sst_runs : list SstRun
}.

(** [MemLayerSet::iter] over [mem_layers]. *)
Definition mem_layers (d : Db) : list MemTable :=
  d_live d :: option_list (d_imm d) ++ option_list (d_pin d) ++ reverse (d_parked d) ++ reverse (d_retired_pending d) ++
  (if entries (d_retired_fold d) =? 0 then [] else [d_retired_fold d]).

(** [cf_prefix] and [bulk_family_of_key]. *)
Definition bulk_family_of_key (d : Db) (key : list byte) : Family :=
  let p := cf_prefix key in
  if (length (d_physical_cfs d) =? 0)%nat || (length p =? 0)%nat then DEFAULT
  else if bool_decide (p ∈ d_physical_cfs d) then p else DEFAULT.

(** [SstTable::collect_range_tombstones] *)
Definition sst_collect (t : T) (snapshot : Z) : list RangeTombstone :=
  omap (λ e : entry, if snapshot <? sequence e.1 then None else Some (tomb_of e)) (range_tombstones_of t).

(** What the lookup has found so far. *)
Record Best := mkBest { best_point_seq : option Z; best_point : Lookup; range_tombs : list RangeTombstone }.

Definition scan_mem_for_lookup (m : MemTable) (key : list byte) (snapshot : Z) (b : Best) : Best :=
  let tombs := mem_collect_range_tombstones m snapshot (range_tombs b) in
  match MemRead.get_entry m key snapshot with
  | Some (seq, look) =>
      if prefer_newer_seq (bool_decide (is_Some (best_point_seq b))) seq (default 0 (best_point_seq b))
      then mkBest (Some seq) look tombs else mkBest (best_point_seq b) (best_point b) tombs
  | None => mkBest (best_point_seq b) (best_point b) tombs
  end.

(** The loop over the memtable layers: an answer, or the tombstones. *)
Fixpoint lookup_mem (layers : list MemTable) (key : list byte) (snapshot : Z) (b : Best) : Result Lookup Best :=
  match layers with
  | [] => Ok b
  | m :: layers =>
      let b := scan_mem_for_lookup m key snapshot b in
      if mem_point_decides (bool_decide (is_Some (best_point_seq b))) then
        let seq := default 0 (best_point_seq b) in
        Err (match best_point b, point_tombstone_plan (Visibility.range_deleted key seq (range_tombs b)) with
             | Found _, ShadowedDeleted => Deleted
             | other, _ => other
             end)
      else lookup_mem layers key snapshot b
  end.

(** [check_run] *)
Definition check_run (key : list byte) (snapshot : Z) (tombs : list RangeTombstone) (r : BulkRun) : option (option Lookup) :=
  match run_lookup r key snapshot with
  | None => None
  | Some NotFound => Some None
  | Some (Found v) => Some (Some (if Visibility.range_deleted key 0 tombs then Deleted else Found v))
  | Some Deleted => Some (Some Deleted)
  end.

(** The bulk runs of the key's family, in the order they are asked. *)
Definition bulk_layers (d : Db) (key : list byte) : list BulkRun :=
  let fam := bulk_family_of_key d key in
  option_list (d_bulk_runs d !! fam) ++
  (filter (λ fr : Family * BulkRun, fr.1 = fam) (d_parked_bulk d)).*2 ++
  (filter (λ nfr : Z * Family * BulkRun, nfr.1.2 = fam) (d_bulk_encodings d)).*2.

Fixpoint lookup_bulk (runs : list BulkRun) (key : list byte) (snapshot : Z) (tombs : list RangeTombstone) : option (option Lookup) :=
  match runs with
  | [] => Some None
  | r :: runs =>
      match check_run key snapshot tombs r with
      | None => None
      | Some (Some res) => Some (Some res)
      | Some None => lookup_bulk runs key snapshot tombs
      end
  end.

(** The closure [probe]. *)
Definition probe (t : T) (key : list byte) (snapshot : Z) (st : St) : St * option (option point) :=
  if match smallest_user_key t, largest_user_key t with
     | Some lo, Some hi => bytes_ltb key lo || bytes_ltb hi key
     | _, _ => false
     end then (st, Some None)
  else
    match point_at_seeking_with_hashes t key snapshot st with
    | (st, Some (Ok r)) => (st, Some r)
    | (st, _) => (st, None)
    end.

Fixpoint probe_tables (ssts : list T) (idx : list nat) (key : list byte) (snapshot : Z) (st : St) : St * option (option point) :=
  match idx with
  | [] => (st, Some None)
  | i :: idx =>
      match ssts !! i with
      | None => (st, None)
      | Some t =>
          match probe t key snapshot st with
          | (st, Some None) => probe_tables ssts idx key snapshot st
          | r => r
          end
      end
  end.

(** One run: its tombstones, then its tables; the table that may cover the key
    when the run is disjoint. *)
Definition run_tombs (ssts : list T) (r : SstRun) (snapshot : Z) : option (list RangeTombstone) :=
  if run_has_range_tombstones r then
    ls ← mapM (λ i, (λ t, sst_collect t snapshot) <$> ssts !! i) (tables_newest_first r); Some (concat ls)
  else Some [].
Definition probe_run (ssts : list T) (r : SstRun) (key : list byte) (snapshot : Z) (st : St) : St * option (option point) :=
  match disjoint_by_lo r with
  | Some by_lo =>
      let p := partition_point (λ i, match lo_of ssts i with Some lo => bytes_leb lo key | None => false end) by_lo in
      if (0 <? p)%nat then probe_tables ssts (option_list (by_lo !! (p - 1)%nat)) key snapshot st else (st, Some None)
  | None => probe_tables ssts (tables_newest_first r) key snapshot st
  end.

Fixpoint lookup_runs (ssts : list T) (runs : list SstRun) (key : list byte) (snapshot : Z) (tombs : list RangeTombstone) (st : St)
    : St * option (option point * list RangeTombstone) :=
  match runs with
  | [] => (st, Some (None, tombs))
  | r :: runs =>
      match run_tombs ssts r snapshot with
      | None => (st, None)
      | Some more =>
          let tombs := tombs ++ more in
          match probe_run ssts r key snapshot st with
          | (st, None) => (st, None)
          | (st, Some (Some p)) => (st, Some (Some p, tombs))
          | (st, Some None) => lookup_runs ssts runs key snapshot tombs st
          end
      end
  end.

(** The final match. *)
Definition finish_lookup (key : list byte) (found : option point) (tombs : list RangeTombstone) : Lookup :=
  match found with
  | Some (seq, Found v) =>
      match point_tombstone_plan (Visibility.range_deleted key seq tombs) with ValueVisible => Found v | ShadowedDeleted => Deleted end
  | Some (_, Deleted) => Deleted
  | Some (_, NotFound) | None => if Visibility.range_deleted key 0 tombs then Deleted else NotFound
  end.

Definition db_lookup (d : Db) (key : list byte) (snapshot : Z) (st : St) : St * option Lookup :=
  match lookup_mem (mem_layers d) key snapshot (mkBest None NotFound []) with
  | Err look => (st, Some look)
  | Ok b =>
      match lookup_bulk (bulk_layers d key) key snapshot (range_tombs b) with
      | None => (st, None)
      | Some (Some look) => (st, Some look)
      | Some None =>
          match lookup_runs (d_ssts d) (d_sst_runs d) key snapshot (range_tombs b) st with
          | (st, None) => (st, None)
          | (st, Some (found, tombs)) => (st, Some (finish_lookup key found tombs))
          end
      end
  end.
End db.
Arguments Db : clear implicits.

(** * Layers *)

(** The write of the entry covers the key. *)
Definition covers_key (key : list byte) (e : entry) : Prop := write_op_covers_key (kind e.1) (user_key e.1) e.2 key = true.

(** Every write that covers the key is newer in [a] than in [b]. *)
Definition newer_than (key : list byte) (a b : list entry) : Prop :=
  ∀ x y, x ∈ a → y ∈ b → covers_key key x → covers_key key y → sequence y.1 < sequence x.1.

(** The layers in the order they are asked, newest first for the key. *)
Definition recent (key : list byte) (layers : list (list entry)) : Prop := StronglySorted (newer_than key) layers.

(** The layer decides nothing: its versions of the key are hidden in it. *)
Definition missed (key : list byte) (snap : Z) (l : list entry) : Prop :=
  ∀ e, candidate l snap key e → hidden l snap key (sequence e.1).

Definition newest_in (l : list entry) (snap : Z) (key : list byte) (e : entry) : Prop :=
  candidate l snap key e ∧ ∀ e', candidate l snap key e' → ¬ ikey_lt e'.1 e.1.

Lemma candidate_covers l snap key e : candidate l snap key e → covers_key key e.
Proof.
  intros (_ & E & Hk & _). unfold covers_key, write_op_covers_key. destruct (kind e.1); try done; by apply bytes_eqb_spec.
Qed.

Lemma tomb_covers_key key e : kind e.1 = RangeDeletion → covers_key key e ↔ range_tombstone_covers (user_key e.1) e.2 key = true.
Proof. intros Hk. unfold covers_key, write_op_covers_key. by rewrite Hk. Qed.

Lemma newer_ikey (a b : entry) : user_key a.1 = user_key b.1 → sequence a.1 < sequence b.1 → ikey_lt b.1 a.1.
Proof. intros E Hlt. apply ikey_lt_iff. right. split; [done|]. by left. Qed.

Lemma elem_concat_app (e : entry) A l B : e ∈ concat (A ++ l :: B) ↔ e ∈ concat A ∨ e ∈ l ∨ e ∈ concat B.
Proof. rewrite concat_app. cbn. by rewrite !elem_of_app. Qed.

Lemma recent_split key A l B : recent key (A ++ l :: B) →
  (∀ x y, x ∈ concat A → y ∈ l ++ concat B → covers_key key x → covers_key key y → sequence y.1 < sequence x.1) ∧
  newer_than key l (concat B).
Proof.
  unfold recent. induction A as [|a A IH]; cbn.
  - intros [_ Hl]%StronglySorted_inv. split; [by intros x y Hx%not_elem_of_nil|]. rewrite Forall_forall in Hl.
    intros x y Hx (b & Hb & Hy)%elem_of_concat. by apply (Hl b Hb).
  - intros [Hs Ha]%StronglySorted_inv. destruct (IH Hs) as [H1 H2]. split; [|done]. rewrite Forall_forall in Ha.
    intros x y [Hx|Hx]%elem_of_app Hy; [|by apply H1]. apply elem_of_app in Hy as [Hy|(b & Hb & Hy)%elem_of_concat].
    + apply (Ha l); [set_solver|done|done].
    + apply (Ha b); [set_solver|done|done].
Qed.

Lemma candidate_sub l l' snap key e : (∀ x, x ∈ l → x ∈ l') → candidate l snap key e → candidate l' snap key e.
Proof. intros Hs (He & H). split; [by apply Hs|done]. Qed.

Lemma hidden_sub l l' snap key n : (∀ x, x ∈ l → x ∈ l') → hidden l snap key n → hidden l' snap key n.
Proof. intros Hs (k & v & Hin & H). exists k, v. split; [by apply Hs|done]. Qed.

Lemma range_deleted_iff key n T : Visibility.range_deleted key n T = true ↔ ∃ t, t ∈ T ∧ covers t key = true ∧ n < rt_sequence t.
Proof.
  unfold Visibility.range_deleted. rewrite existsb_exists. split.
  - intros (t & Ht%list_elem_of_In & [Hc Hn%Z.ltb_lt]%andb_true_iff). by exists t.
  - intros (t & Ht%list_elem_of_In & Hc & Hn%Z.ltb_lt). exists t. split; [done|]. by rewrite Hc, Hn.
Qed.

Lemma tombs_hidden l snap key n t : tombs_of l snap t → covers t key = true → n < rt_sequence t → hidden l snap key n.
Proof. intros ([k v] & He & Hk & Hs & ->) Hc Hn. exists k, v. by split_and!. Qed.

Lemma hidden_tombs l snap key n : hidden l snap key n → ∃ t, tombs_of l snap t ∧ covers t key = true ∧ n < rt_sequence t.
Proof. intros (k & v & Hin & Hk & Hs & Hn & Hc). exists (tomb_of (k, v)). split; [by exists (k, v)|done]. Qed.

(** The first layer that decides: what the tombstones so far leave of its newest
    version is what the whole database reads. *)
Lemma answer_reads key snap A l B e (Ts : list RangeTombstone) v :
  recent key (A ++ l :: B) → Forall (missed key snap) A → distinct_keys l → newest_in l snap key e →
  (∀ t, tombs_of (concat A ++ l) snap t → t ∈ Ts) → (∀ t, t ∈ Ts → tombs_of (concat (A ++ l :: B)) snap t) →
  reads (concat (A ++ l :: B)) snap key v ↔ kind e.1 = Value ∧ e.2 = v ∧ Visibility.range_deleted key (sequence e.1) Ts = false.
Proof.
  intros Hrec Hmiss Hd [He Hmin] Hlow Hup. destruct (recent_split _ _ _ _ Hrec) as [HA HB].
  assert (∀ e0, candidate (concat A) snap key e0 → hidden (concat A) snap key (sequence e0.1)) as HAm.
  { intros e0 (Hin & Hc). apply elem_of_concat in Hin as (a & Ha & Hin). rewrite Forall_forall in Hmiss.
    eapply hidden_sub; [|apply (Hmiss a Ha e0); by split]. intros x Hx. apply elem_of_concat. by exists a. }
  assert (∀ c, candidate (concat A) snap key c → Visibility.range_deleted key (sequence e.1) Ts = true) as Hover.
  { intros c Hc. destruct (hidden_tombs _ _ _ _ (HAm c Hc)) as (t & Ht & Hcov & Hn). apply range_deleted_iff. exists t.
    split; [apply Hlow; destruct Ht as (x & Hx & H); exists x; split; [set_solver|done]|]. split; [done|].
    assert (sequence e.1 < sequence c.1); [|lia]. apply HA; [apply Hc|apply elem_of_app; left; apply He|by eapply candidate_covers..]. }
  split.
  - intros (e0 & He0 & <- & Hk0 & Hmin0 & Hh0).
    assert (¬ ∃ c, candidate (concat A) snap key c) as HnoA.
    { intros (c & Hc). destruct He0 as (Hin & Hrest). apply elem_concat_app in Hin as [Hin|Hin].
      - apply Hh0. eapply hidden_sub; [|apply HAm; by split]. intros x Hx. apply elem_concat_app. by left.
      - apply (Hmin0 c); [eapply candidate_sub; [|exact Hc]; intros x Hx; apply elem_concat_app; by left|].
        apply newer_ikey; [destruct Hc as (_ & -> & _); by destruct Hrest as (-> & _)|].
        apply HA; [apply Hc|by apply elem_of_app|by eapply candidate_covers|by eapply (candidate_covers (l ++ concat B)); split; [apply elem_of_app|]]. }
    assert (e0 = e) as ->.
    { destruct He0 as (Hin & Hrest). apply elem_concat_app in Hin as [Hin|[Hin|Hin]].
      - destruct HnoA. exists e0. by split.
      - apply Hd; [done|apply He|]. assert (¬ ikey_lt e0.1 e.1) by (apply Hmin; by split).
        assert (¬ ikey_lt e.1 e0.1) by (apply Hmin0; eapply candidate_sub; [|exact He]; intros x Hx; apply elem_concat_app; by right; left).
        by destruct (ikey_trichotomy e0.1 e.1) as [|[]].
      - exfalso. apply (Hmin0 e); [eapply candidate_sub; [|exact He]; intros x Hx; apply elem_concat_app; by right; left|].
        apply newer_ikey; [destruct He as (_ & -> & _); by destruct Hrest as (-> & _)|].
        apply HB; [apply He|done|by eapply candidate_covers|by eapply (candidate_covers (concat B)); split]. }
    split; [done|]. split; [done|]. apply not_true_iff_false. rewrite range_deleted_iff. intros (t & Ht & Hc & Hn).
    apply Hh0. eapply tombs_hidden; [by apply Hup|done|done].
  - intros (Hk & <- & Hrd). exists e. assert (∀ x, x ∈ l → x ∈ concat (A ++ l :: B)) as Hsub by (intros x Hx; apply elem_concat_app; by right; left).
    split; [by eapply candidate_sub|]. split; [done|]. split; [done|]. split.
    + intros e' (Hin & Hrest) Hc. apply elem_concat_app in Hin as [Hin|[Hin|Hin]].
      * rewrite (Hover e') in Hrd; [done|by split].
      * apply (Hmin e'); [by split|done].
      * assert (ikey_lt e.1 e'.1) as Hc'.
        { apply newer_ikey; [destruct He as (_ & -> & _); by destruct Hrest as (-> & _)|].
          apply HB; [apply He|done|by eapply candidate_covers|by eapply (candidate_covers (concat B)); split]. }
        apply (irreflexivity ikey_lt e.1). by etrans.
    + intros (t & Ht & Hc & Hn)%hidden_tombs. destruct Ht as (x & Hx & Hkx & Hsx & ->). apply elem_concat_app in Hx.
      assert (x ∈ concat A ++ l → False) as Hcontra.
      { intros Hin. apply not_true_iff_false in Hrd. apply Hrd, range_deleted_iff. exists (tomb_of x). split; [apply Hlow; by exists x|done]. }
      destruct Hx as [Hx|[Hx|Hx]]; [apply Hcontra, elem_of_app; by left|apply Hcontra, elem_of_app; by right|].
      assert (sequence x.1 < sequence e.1); [|cbn in Hn; lia]. apply HB; [apply He|done|by eapply candidate_covers|]. by apply tomb_covers_key.
Qed.

Lemma none_reads key snap L v : Forall (missed key snap) L → ¬ reads (concat L) snap key v.
Proof.
  intros Hm (e & (Hin & Hrest) & _ & _ & _ & Hh). apply Hh. apply elem_of_concat in Hin as (l & Hl & Hin). rewrite Forall_forall in Hm.
  eapply hidden_sub; [|apply (Hm l Hl e); by split]. intros x Hx. apply elem_of_concat. by exists l.
Qed.

(** ** Memtable layers *)

Lemma fold_push_tombs (start : Version → list byte) snapshot (vs : list Version) out t :
  t ∈ foldl (λ out (v : Version), if bool_decide (kind v.1 ≠ RangeDeletion) || (snapshot <? sequence v.1) then out
                      else out ++ [mkTomb (start v) v.2 (sequence v.1)]) out vs ↔
  t ∈ out ∨ ∃ v, v ∈ vs ∧ kind v.1 = RangeDeletion ∧ sequence v.1 ≤ snapshot ∧ t = mkTomb (start v) v.2 (sequence v.1).
Proof.
  revert out. induction vs as [|v vs IH]; intros out; cbn.
  { split; [by left|]. intros [|(v & Hv & _)]; [done|by apply not_elem_of_nil in Hv]. }
  rewrite IH. case_bool_decide as Hk; cbn; [|destruct (Z.ltb_spec snapshot (sequence v.1))].
  3: rewrite elem_of_app, list_elem_of_singleton.
  all: setoid_rewrite elem_of_cons; naive_solver lia.
Qed.

Lemma fold_map_tombs snapshot (kvs : list (list byte * Versions)) out t :
  t ∈ foldl (λ out kv, foldl (λ out (v : Version), if bool_decide (kind v.1 ≠ RangeDeletion) || (snapshot <? sequence v.1) then out
                      else out ++ [mkTomb kv.1 v.2 (sequence v.1)]) out (vers_list kv.2)) out kvs ↔
  t ∈ out ∨ ∃ kv v, kv ∈ kvs ∧ v ∈ vers_list kv.2 ∧ kind v.1 = RangeDeletion ∧ sequence v.1 ≤ snapshot ∧ t = mkTomb kv.1 v.2 (sequence v.1).
Proof.
  revert out. induction kvs as [|kv kvs IH]; intros out; cbn.
  { split; [by left|]. intros [|(kv & v & Hv & _)]; [done|by apply not_elem_of_nil in Hv]. }
  rewrite IH, (fold_push_tombs (λ _, kv.1)). setoid_rewrite elem_of_cons. naive_solver.
Qed.

Lemma mem_collect_ok m snap out t : mem_ok m →
  t ∈ mem_collect_range_tombstones m snap out ↔ t ∈ out ∨ tombs_of (mem_entries m) snap t.
Proof.
  intros Hm. unfold mem_collect_range_tombstones, tombs_of. destruct (Z.eqb_spec (range_tombstones m) 0) as [H0|H0].
  - split; [by left|]. intros [|(e & Hin & Hk & _)]; [done|]. exfalso.
    pose proof (ct_rds _ _ (mo_counts m Hm)) as Hr. rewrite H0 in Hr. unfold rd_count in Hr.
    assert (e ∈ filter (λ e, is_rd e = true) (mem_entries m)) as Hf.
    { apply list_elem_of_filter. split; [|done]. unfold is_rd. by rewrite bool_decide_eq_true_2. }
    destruct (filter _ _); [by apply not_elem_of_nil in Hf|cbn [length] in Hr; lia].
  - rewrite (fold_push_tombs (λ v, user_key v.1)), fold_map_tombs. split.
    + intros [[Ht|(kv & v & Hkv & Hv & Hk & Hs & ->)]|(v & Hv & Hk & Hs & ->)]; [by left|right; exists v|right; exists v].
      * destruct kv as [uk vers]. assert (user_key v.1 = uk) as <- by (by apply (vo_user _ _ (mo_vers m (mo_map m Hm) _ _ Hkv))).
        split; [|done]. apply elem_of_app. left. apply elem_of_bindings. by eexists _, _.
      * split; [|done]. apply elem_of_app. by right.
    + intros [Ht|(e & [Hin|Hin]%elem_of_app & Hk & Hs & ->)]; [by left; left| |by right; exists e].
      left. right. apply elem_of_bindings in Hin as (uk & vers & Hb & Hin). exists (uk, vers), e. split_and!; try done. cbn.
      assert (user_key e.1 = uk) as <- by (by apply (vo_user _ _ (mo_vers m (mo_map m Hm) _ _ Hb) e)). done.
Qed.

(** A layer the memtable read can serve. *)
Definition mem_layer_ok (m : MemTable) : Prop := mem_ok m ∧ proper_ranges (mem_entries m).

Lemma uniq_distinct l : uniq l → distinct_keys l.
Proof. intros Hu e e' He He' E. apply (uniq_same l); [done|done|done|by rewrite E|by rewrite E]. Qed.

(** What the memtable's answer says about its layer. *)
Lemma mem_point m key snap : mem_layer_ok m →
  match MemRead.get_entry m key snap with
  | None => missed key snap (mem_entries m)
  | Some (n, look) => ∃ e, newest_in (mem_entries m) snap key e ∧ n = sequence e.1 ∧
      ∀ v, look = Found v ↔ kind e.1 = Value ∧ e.2 = v ∧ ¬ hidden (mem_entries m) snap key (sequence e.1)
  end.
Proof.
  intros [Hm Hp]. rewrite get_entry_contents by done. pose proof (mo_uniq m Hm) as Hu. unfold lookup_log.
  pose proof (scan_newest_ok (mem_entries m) key snap Hu) as Hs. destruct (scan_newest _ key snap) as [e|]; cbn [mbind option_bind].
  2: { intros c (Hin & Ek & _ & Hle). specialize (Hs c Hin Ek). lia. }
  destruct Hs as (Hin & Hk & Hle & Hmax).
  assert (kind e.1 ≠ RangeDeletion → newest_in (mem_entries m) snap key e) as Hnew.
  { intros Hkind. split; [by split_and!|]. intros e' (Hin' & Hk' & _ & Hle') [Hc|[_ [Hc|[Hc Hc']]]]%ikey_lt_iff.
    - rewrite Hk, Hk' in Hc. by apply bytes_lt_irrefl in Hc.
    - specialize (Hmax e' Hin' Hk' Hle'). lia.
    - assert (e' = e) as -> by (apply (uniq_same (mem_entries m)); [done..|congruence|done]). lia. }
  destruct (kind e.1) eqn:Ekind.
  - exists e. split; [by apply Hnew|]. split; [done|]. intros v. split; [done|]. intros (Hc & _). congruence.
  - exists e. split; [by apply Hnew|]. split; [done|]. intros v. rewrite <-collect_hidden. rewrite Ekind.
    destruct (Visibility.range_deleted key (sequence e.1) _); naive_solver.
  - intros c (Hcin & Hck & Hckind & Hcle). destruct e as [k w]. exists k, w. cbn in *. split_and!; try done.
    + specialize (Hmax c Hcin Hck Hcle). cbn in Hmax. destruct (decide (sequence c.1 = sequence k)) as [E|]; [|lia].
      assert (c = (k, w)) as -> by (apply (uniq_same (mem_entries m)); [done..|cbn; congruence|done]). done.
    + specialize (Hp (k, w) Hin Ekind). cbn in Hp. unfold range_tombstone_covers. rewrite Hk in *. apply andb_true_iff.
      split; [apply bytes_leb_spec, bytes_lt_irrefl|by apply bytes_ltb_spec].
Qed.

(** The loop over the layers. [B] is what lies below them. *)
Lemma lookup_mem_ok layers key snap A (Ts : list RangeTombstone) B : Forall mem_layer_ok layers →
  recent key (A ++ (mem_entries <$> layers) ++ B) → Forall (missed key snap) A →
  (∀ t, t ∈ Ts ↔ tombs_of (concat A) snap t) →
  match lookup_mem layers key snap (mkBest None NotFound Ts) with
  | Err look => ∀ v, look = Found v ↔ reads (concat (A ++ (mem_entries <$> layers) ++ B)) snap key v
  | Ok b => Forall (missed key snap) (mem_entries <$> layers) ∧ (∀ t, t ∈ range_tombs b ↔ tombs_of (concat (A ++ (mem_entries <$> layers))) snap t)
  end.
Proof.
  revert A Ts. induction layers as [|m layers IH]; intros A Ts Hok Hrec Hmiss HT; cbn [lookup_mem].
  { split; [constructor|]. cbn. by rewrite app_nil_r. }
  apply Forall_cons in Hok as [Hm Hok]. cbn in Hrec. unfold scan_mem_for_lookup. cbn [best_point_seq best_point range_tombs].
  set (T1 := mem_collect_range_tombstones m snap Ts).
  assert (∀ t, t ∈ T1 ↔ tombs_of (concat A ++ mem_entries m) snap t) as HT1.
  { intros t. unfold T1. rewrite mem_collect_ok by apply Hm. rewrite HT. unfold tombs_of.
    split; [intros [(x & Hx & H)|(x & Hx & H)]; exists x; (split; [set_solver|done])|].
    intros (x & [Hx|Hx]%elem_of_app & H); [left|right]; by exists x. }
  pose proof (mem_point m key snap Hm) as Hp. destruct (MemRead.get_entry m key snap) as [[n look]|]; cbn.
  - destruct Hp as (e & Hnew & -> & Hlook). intros v. fold (Visibility.range_deleted key (sequence e.1) T1).
    rewrite (answer_reads key snap A (mem_entries m) ((mem_entries <$> layers) ++ B) e T1 v); try done.
    + assert (hidden (mem_entries m) snap key (sequence e.1) → Visibility.range_deleted key (sequence e.1) T1 = true) as Hh.
      { intros (t & Ht & Hc & Hn)%hidden_tombs. apply range_deleted_iff. exists t. split; [|done]. apply HT1.
        destruct Ht as (x & Hx & H). exists x. split; [set_solver|done]. }
      unfold point_tombstone_plan. destruct (Visibility.range_deleted key (sequence e.1) T1) eqn:Erd.
      * split; [by destruct look|]. by intros (_ & _ & ?).
      * split.
        -- intros Hl. assert (look = Found v) as Hf%Hlook by (by destruct look). naive_solver.
        -- intros (Hk & Hv & _). assert (look = Found v) as ->; [|done]. apply Hlook. split_and!; [done|done|]. intros Hc%Hh. congruence.
    + apply uniq_distinct, Hm.
    + intros t Ht. by apply HT1.
    + intros t Ht%HT1. destruct Ht as (x & Hx & H). exists x. split; [|done]. apply elem_concat_app. apply elem_of_app in Hx. tauto.
  - specialize (IH (A ++ [mem_entries m]) T1 Hok). rewrite <-!app_assoc in IH. cbn in IH.
    assert (concat (A ++ [mem_entries m]) = concat A ++ mem_entries m) as Ec by (rewrite concat_app; cbn; by rewrite app_nil_r).
    specialize (IH Hrec ltac:(apply Forall_app; by split; [|constructor]) ltac:(intros t; by rewrite Ec)).
    destruct (lookup_mem layers key snap _) as [b|look]; [|done].
    destruct IH as [H1 H2]. split; [by constructor|done].
Qed.

(** ** Bulk runs *)

Definition bulk_layer_ok (r : BulkRun) (es : list entry) : Prop :=
  run_ok r es ∧ ∀ e, e ∈ es → kind e.1 ≠ RangeDeletion ∧ 0 ≤ sequence e.1.

Lemma strict_distinct es : strict es → distinct_keys es.
Proof. intros Hs e e' He He' E. apply (strict_inj es); [done..|]. unfold ukey. by rewrite E. Qed.

Lemma strict_newest es snap key e : strict es → candidate es snap key e → newest_in es snap key e.
Proof.
  intros Hs Hc. split; [done|]. intros e' Hc'. assert (e' = e) as ->; [|apply (irreflexivity ikey_lt)].
  apply (strict_inj es); [done|apply Hc'|apply Hc|]. unfold ukey. destruct Hc as (_ & -> & _). by destruct Hc' as (_ & -> & _).
Qed.

(** A key's version in the run, when the newer tombstones are all newer. *)
Lemma bulk_answer key snap A es B Ts e v : recent key (A ++ es :: B) → Forall (missed key snap) A → strict es →
  (∀ x, x ∈ es → kind x.1 ≠ RangeDeletion ∧ 0 ≤ sequence x.1) → candidate es snap key e →
  (∀ t, t ∈ Ts ↔ tombs_of (concat A) snap t) →
  reads (concat (A ++ es :: B)) snap key v ↔ kind e.1 = Value ∧ e.2 = v ∧ Visibility.range_deleted key 0 Ts = false.
Proof.
  intros Hrec Hmiss Hs Hk Hc HT.
  assert (∀ t, tombs_of (concat A ++ es) snap t ↔ tombs_of (concat A) snap t) as Hno.
  { intros t. split; intros (x & Hx & Hrd & H); exists x; (split; [|done]); [|set_solver].
    apply elem_of_app in Hx as [|Hx]; [done|]. by destruct (Hk x Hx). }
  rewrite (answer_reads key snap A es B e Ts v); [|done|done|by apply strict_distinct|by apply strict_newest|by intros t Ht%Hno%HT|].
  2: { intros t (x & Hx & H)%HT. exists x. split; [|done]. apply elem_concat_app. by left. }
  assert (Visibility.range_deleted key (sequence e.1) Ts = Visibility.range_deleted key 0 Ts) as ->; [|done].
  destruct (recent_split _ _ _ _ Hrec) as [HA _]. apply eq_true_iff_eq. rewrite !range_deleted_iff.
  destruct (Hk e (proj1 Hc)) as [_ Hpos]. split; intros (t & Ht & Hcov & Hn); exists t; (split; [done|]); (split; [done|]); [lia|].
  apply HT in Ht as (x & Hx & Hrd & _ & ->). apply HA; [done|apply elem_of_app; left; apply Hc|by apply tomb_covers_key|by eapply candidate_covers].
Qed.

Lemma lookup_bulk_ok runs bes key snap A Ts B : Forall2 bulk_layer_ok runs bes →
  recent key (A ++ bes ++ B) → Forall (missed key snap) A → (∀ t, t ∈ Ts ↔ tombs_of (concat A) snap t) →
  match lookup_bulk runs key snap Ts with
  | None => False
  | Some (Some look) => ∀ v, look = Found v ↔ reads (concat (A ++ bes ++ B)) snap key v
  | Some None => Forall (missed key snap) bes ∧ ∀ t, t ∈ Ts ↔ tombs_of (concat (A ++ bes)) snap t
  end.
Proof.
  intros Hok. revert A. induction Hok as [|r es runs bes [Hrun Hk] Hok IH]; intros A Hrec Hmiss HT; cbn [lookup_bulk].
  { split; [constructor|]. by rewrite app_nil_r. }
  cbn in Hrec. pose proof Hrun as (Hr & Hs & _). destruct (run_lookup_ok r es Hr Hs key snap) as (look & Hl & Hf & Hd). unfold check_run. rewrite Hl.
  assert (∀ n ty w, (mkIKey key n ty, w) ∈ es → n ≤ snap → candidate es snap key (mkIKey key n ty, w)) as Hcand.
  { intros n ty w Hin Hn. split_and!; [done|done|by apply (Hk (mkIKey key n ty, w))|done]. }
  destruct look as [w| |].
  - destruct (proj1 (Hf w) eq_refl) as (n & Hn & Hin). intros v.
    rewrite (bulk_answer key snap A es (bes ++ B) Ts (mkIKey key n Value, w) v) by (done || by apply Hcand). cbn.
    fold (Visibility.range_deleted key 0 Ts). destruct (Visibility.range_deleted key 0 Ts); naive_solver.
  - destruct (proj1 Hd eq_refl) as (n & w & Hn & Hin). intros v.
    rewrite (bulk_answer key snap A es (bes ++ B) Ts (mkIKey key n Deletion, w) v) by (done || by apply Hcand). naive_solver.
  - assert (∀ e, ¬ candidate es snap key e) as Hno.
    { intros [[u n ty] w] (Hin & <- & Hty & Hle). cbn in *. destruct ty; [|..|done].
      - assert (NotFound = Deleted); [|done]. apply Hd. by exists n, w.
      - assert (NotFound = Found w); [|done]. apply Hf. by exists n. }
    assert (missed key snap es) as Hmes by (intros e He; by apply Hno in He).
    assert (∀ t, t ∈ Ts ↔ tombs_of (concat (A ++ [es])) snap t) as HT'.
    { intros t. rewrite HT, concat_app. cbn. rewrite app_nil_r. split; intros (x & Hx & Hrd & H); exists x; (split; [|done]); [set_solver|].
      apply elem_of_app in Hx as [|Hx]; [done|]. by destruct (Hk x Hx). }
    specialize (IH (A ++ [es])). rewrite <-!app_assoc in IH. cbn in IH.
    specialize (IH Hrec ltac:(apply Forall_app; by split; [|constructor]) HT').
    destruct (lookup_bulk runs key snap Ts) as [[look|]|]; [done| |done]. destruct IH as [H1 H2]. split; [by constructor|done].
Qed.

(** ** Table runs *)

Section runs.
Context {T St : Type} `{SR : SstReader T St, RD : !SstReads T St}.

Lemma bounds_none t es key snap : holds t es →
  match smallest_user_key t, largest_user_key t with
  | Some lo, Some hi => bytes_ltb key lo || bytes_ltb hi key
  | _, _ => false
  end = true → point_ref es key snap = None.
Proof.
  intros Ht. pose proof (holds_sorted t es Ht) as Hs. rewrite (holds_smallest t es Ht). pose proof (holds_largest t es Ht) as Hhi.
  destruct es as [|x es]; [done|]. cbn. destruct (largest_user_key t) as [hi|]; [|done].
  intros [Hlt%bytes_ltb_spec|Hlt%bytes_ltb_spec]%orb_true_iff; apply point_ref_none; intros e He <-; [|by apply (Hhi e He)].
  apply elem_of_cons in He as [->|He]; [by apply (irreflexivity bytes_lt) in Hlt|].
  apply sorted_entries_cons in Hs as [Hs _]. by apply (ikey_le_user _ _ (Hs e He)).
Qed.

Lemma probe_ok t es key snap st : holds t es → readable st →
  ∃ st', probe t key snap st = (st', Some (point_ref es key snap)) ∧ readable st'.
Proof.
  intros Ht Hst. unfold probe. destruct (match smallest_user_key t with Some _ => _ | None => _ end) eqn:E.
  - exists st. by rewrite (bounds_none t es key snap Ht E).
  - destruct (holds_point t es key snap st Ht Hst) as (st' & -> & Hst'). by exists st'.
Qed.

Context (ssts : list T) (tes : list (list entry)) (Hh : Forall2 holds ssts tes).

Definition lay (i : nat) : list entry := default [] (tes !! i).

Lemma table_at i : (i < length tes)%nat → ∃ t, ssts !! i = Some t ∧ holds t (lay i).
Proof using Hh.
  intros Hi. destruct (lookup_lt_is_Some_2 tes i Hi) as [es Hes]. destruct (Forall2_lookup_r _ _ _ _ _ Hh Hes) as (t & Ht & Hhold).
  exists t. unfold lay. by rewrite Hes.
Qed.

Definition valid (idx : list nat) : Prop := Forall (λ i, (i < length tes)%nat) idx.

(** The first table with an answer. *)
Definition first_hit (idx : list nat) (key : list byte) (snap : Z) (res : option point) : Prop :=
  match res with
  | None => ∀ i, i ∈ idx → point_ref (lay i) key snap = None
  | Some p => ∃ pre i post, idx = pre ++ i :: post ∧ (∀ j, j ∈ pre → point_ref (lay j) key snap = None) ∧ point_ref (lay i) key snap = Some p
  end.

Lemma probe_tables_ok idx key snap st : valid idx → readable st →
  ∃ st' res, probe_tables ssts idx key snap st = (st', Some res) ∧ readable st' ∧ first_hit idx key snap res.
Proof using Hh.
  intros Hv. revert st. induction Hv as [|i idx Hi _ IH]; intros st Hst; cbn [probe_tables].
  { exists st, None. split; [done|]. split; [done|]. by intros i Hi%not_elem_of_nil. }
  destruct (table_at i Hi) as (t & -> & Hhold). destruct (probe_ok t _ key snap st Hhold Hst) as (st1 & -> & Hst1).
  destruct (point_ref (lay i) key snap) as [p|] eqn:Ep.
  - exists st1, (Some p). split; [done|]. split; [done|]. exists [], i, idx. split; [done|]. split; [|done]. by intros j Hj%not_elem_of_nil.
  - destruct (IH st1 Hst1) as (st' & res & -> & Hst' & Hfh). exists st', res. split; [done|]. split; [done|]. destruct res as [p|].
    + destruct Hfh as (pre & j & post & -> & Hpre & Hj). exists (i :: pre), j, post. split; [done|]. split; [|done].
      intros k [->|Hk]%elem_of_cons; [done|by apply Hpre].
    + intros k [->|Hk]%elem_of_cons; [done|by apply Hfh].
Qed.

(** A disjoint run: at most the probed table holds the key. *)
Lemma opt_cmp_anti a b : opt_cmp b a = CompOpp (opt_cmp a b).
Proof. destruct a, b; try done. apply bytes_cmp_antisym. Qed.

Lemma opt_cmp_trans a b c : opt_cmp a b ≠ Gt → opt_cmp b c ≠ Gt → opt_cmp a c ≠ Gt.
Proof.
  destruct a as [a|], b as [b|], c as [c|]; try done. cbn. rewrite !bytes_lt_cmp_gt. intros H1 H2 Hc.
  destruct (bytes_trichotomy a b) as [Hl|[->|]]; [|done..]. apply H2. by etrans.
Qed.

Lemma disjoint_ok tnf by_lo : disjoint_sorted_by_lo ssts tnf = Some by_lo →
  by_lo ≡ₚ tnf ∧ (∀ a i, by_lo !! a = Some i → ∃ lo hi, lo_of ssts i = Some lo ∧ hi_of ssts i = Some hi) ∧
  (∀ a b i j lo lo', (a < b)%nat → by_lo !! a = Some i → by_lo !! b = Some j → lo_of ssts i = Some lo → lo_of ssts j = Some lo' → ¬ bytes_lt lo' lo) ∧
  (∀ a i j hi lo, by_lo !! a = Some i → by_lo !! S a = Some j → hi_of ssts i = Some hi → lo_of ssts j = Some lo → bytes_lt hi lo).
Proof.
  unfold disjoint_sorted_by_lo. destruct (_ <? _)%nat; [done|]. destruct (forallb _ tnf); [|done]. cbn [negb].
  set (cmp := λ a b, opt_cmp (lo_of ssts a) (lo_of ssts b)). set (bl := sort_by cmp tnf).
  destruct (mapM (lo_of ssts) bl) as [los|] eqn:Elo; [|done]. destruct (mapM (hi_of ssts) bl) as [his|] eqn:Ehi; [|done]. cbn.
  destruct (run_pairwise_disjoint_los los his) eqn:Ed; [|done]. intros [= <-].
  assert (∀ a i, bl !! a = Some i → los !! a = lo_of ssts i ∧ his !! a = hi_of ssts i ∧ is_Some (lo_of ssts i) ∧ is_Some (hi_of ssts i)) as Hat.
  { intros a i Hi. apply mapM_Some in Elo, Ehi. destruct (Forall2_lookup_l _ _ _ _ _ Elo Hi) as (lo & Hlo & E1).
    destruct (Forall2_lookup_l _ _ _ _ _ Ehi Hi) as (hi & Hhi & E2). rewrite Hlo, Hhi, E1, E2. by eauto. }
  assert (length los = length bl ∧ length his = length bl) as [Hll Hlh] by (split; symmetry; by eapply length_mapM).
  split; [apply sort_by_perm|]. split; [|split].
  - intros a i Hi. destruct (Hat a i Hi) as (_ & _ & [lo ?] & [hi ?]). by eauto.
  - intros a b i j lo lo' Hab Hi Hj Hlo Hlo'.
    assert (StronglySorted (not_after cmp) bl) as Hs by (apply sort_by_sorted; [intros; apply opt_cmp_anti|intros x y z; apply opt_cmp_trans]).
    pose proof (sorted_lookup _ _ _ _ _ _ Hs Hab Hi Hj) as Hc. unfold not_after, cmp in Hc. rewrite Hlo, Hlo' in Hc. cbn in Hc. by rewrite bytes_lt_cmp_gt in Hc.
  - intros a i j hi lo Hi Hj Hhi Hlo. unfold run_pairwise_disjoint_los in Ed. apply andb_true_iff in Ed as [_ Ed]. rewrite forallb_forall in Ed.
    destruct (Hat a i Hi) as (_ & Ea & _). destruct (Hat (S a) j Hj) as (Eb & _). rewrite Hhi in Ea. rewrite Hlo in Eb.
    specialize (Ed (S a)). replace (S a - 1)%nat with a in Ed by lia. rewrite Ea, Eb in Ed. apply bytes_ltb_spec, Ed.
    apply list_elem_of_In, elem_of_seq. apply lookup_lt_Some in Hj. lia.
Qed.

(** A table whose bounds leave out the key. *)
Lemma bounds_outside_none i key snap lo hi : (i < length tes)%nat → lo_of ssts i = Some lo → hi_of ssts i = Some hi →
  bytes_lt key lo ∨ bytes_lt hi key → point_ref (lay i) key snap = None.
Proof using Hh.
  intros Hi Hlo Hhi Hout. destruct (table_at i Hi) as (t & Et & Hhold). unfold lo_of, hi_of in *. rewrite Et in *. cbn in *.
  apply (bounds_none t); [done|]. rewrite Hlo, Hhi. apply orb_true_iff. by rewrite !bytes_ltb_spec.
Qed.

Lemma probe_disjoint_ok tnf by_lo key snap st : valid tnf → disjoint_sorted_by_lo ssts tnf = Some by_lo → readable st →
  let p := partition_point (λ i, match lo_of ssts i with Some lo => bytes_leb lo key | None => false end) by_lo in
  ∃ st' res, (if (0 <? p)%nat then probe_tables ssts (option_list (by_lo !! (p - 1)%nat)) key snap st else (st, Some None)) = (st', Some res) ∧
    readable st' ∧ first_hit tnf key snap res.
Proof using Hh.
  intros Hv Hdis Hst p. destruct (disjoint_ok tnf by_lo Hdis) as (Hperm & Hsome & Hlos & Hnext).
  assert (valid by_lo) as Hvb by (unfold valid; by rewrite Hperm).
  destruct (partition_point_spec (λ i, match lo_of ssts i with Some lo => bytes_leb lo key | None => false end) by_lo) as (Hlen & Hbelow & Hstop).
  fold p in Hlen, Hbelow, Hstop.
  assert (∀ b j, by_lo !! b = Some j → b ≠ (p - 1)%nat ∨ p = 0%nat → point_ref (lay j) key snap = None) as Hother.
  { intros b j Hj Hb. destruct (Hsome b j Hj) as (lo & hi & Hlo & Hhi). assert (j < length tes)%nat as Hjl by (by apply (Forall_lookup_1 _ _ _ _ Hvb Hj)).
    apply (bounds_outside_none j key snap lo hi); [done|done|done|]. destruct (decide (p ≤ b)%nat) as [Hpb|Hpb].
    - left. destruct (lookup_lt_is_Some_2 by_lo p) as [q Hq]; [apply lookup_lt_Some in Hj; lia|]. destruct (Hsome p q Hq) as (loq & _ & Hloq & _).
      specialize (Hstop q Hq). cbn in Hstop. rewrite Hloq in Hstop. apply bytes_leb_false in Hstop.
      destruct (decide (p = b)) as [<-|]; [congruence|]. apply (bytes_lt_le_trans _ loq); [done|]. apply (Hlos p b q j); [lia|done..].
    - right. assert (S b < p)%nat as Hsb by lia. destruct (lookup_lt_is_Some_2 by_lo (S b)) as [q Hq]; [lia|]. destruct (Hsome _ q Hq) as (loq & _ & Hloq & _).
      specialize (Hbelow (S b) q Hsb Hq). cbn in Hbelow. rewrite Hloq in Hbelow. apply bytes_leb_spec in Hbelow.
      apply (bytes_lt_le_trans _ loq); [exact (Hnext b j q hi loq Hj Hq Hhi Hloq)|done]. }
  assert (∀ i, i ∈ tnf → ∃ b, by_lo !! b = Some i) as Hfind by (intros i Hi; rewrite <-Hperm in Hi; by apply list_elem_of_lookup in Hi).
  destruct (Nat.ltb_spec 0 p) as [Hp|Hp].
  - destruct (lookup_lt_is_Some_2 by_lo (p - 1)) as [q Hq]; [lia|]. rewrite Hq. cbn [option_list].
    destruct (probe_tables_ok [q] key snap st) as (st' & res & E & Hst' & Hfh); [constructor; [by apply (Forall_lookup_1 _ _ _ _ Hvb Hq)|constructor]|done|].
    exists st', res. split; [done|]. split; [done|].
    assert (∀ i, i ∈ tnf → i ≠ q → point_ref (lay i) key snap = None) as Hne.
    { intros i Hi Hiq. destruct (Hfind i Hi) as (b & Hb). apply (Hother b); [done|]. left. intros ->. congruence. }
    destruct res as [pt|].
    + destruct Hfh as (pre & i & post & Eq & _ & Hpt). assert (i = q) as ->.
      { destruct pre as [|x pre]; [by injection Eq as <- _|]. injection Eq as _ Eq. by destruct pre. }
      assert (q ∈ tnf) as Hqin by (rewrite <-Hperm; by eapply list_elem_of_lookup_2). apply list_elem_of_split_l in Hqin as (l1 & l2 & -> & Hnot).
      exists l1, q, l2. split; [done|]. split; [|done]. intros j Hj. apply Hne; [set_solver|]. by intros ->.
    + intros i Hi. destruct (decide (i = q)) as [->|]; [apply Hfh; left|by apply Hne].
  - exists st, None. split; [done|]. split; [done|]. intros i Hi. destruct (Hfind i Hi) as (b & Hb). apply (Hother b); [done|]. right. lia.
Qed.

Lemma probe_run_ok level tnf key snap st : valid tnf → readable st →
  ∃ st' res, probe_run ssts (finish_run ssts (level, tnf)) key snap st = (st', Some res) ∧ readable st' ∧ first_hit tnf key snap res.
Proof using Hh.
  intros Hv Hst. unfold probe_run, finish_run. cbn [disjoint_by_lo tables_newest_first fst snd].
  destruct (disjoint_sorted_by_lo ssts tnf) as [by_lo|] eqn:E; [by apply (probe_disjoint_ok tnf by_lo)|by apply probe_tables_ok].
Qed.

(** The tombstones of a run. *)
Lemma sst_collect_ok t es snap x : holds t es → x ∈ sst_collect t snap ↔ tombs_of es snap x.
Proof.
  intros Hhold. unfold sst_collect. rewrite (holds_tombs t es Hhold), list_elem_of_omap. unfold range_dels, tombs_of.
  setoid_rewrite list_elem_of_filter. split.
  - intros (e & [Hk Hin] & Hs). destruct (Z.ltb_spec snap (sequence e.1)); [done|]. injection Hs as <-. by exists e.
  - intros (e & Hin & Hk & Hs & ->). exists e. split; [done|]. by rewrite (proj2 (Z.ltb_ge _ _)).
Qed.

Lemma run_tombs_ok level tnf snap : valid tnf →
  ∃ more, run_tombs ssts (finish_run ssts (level, tnf)) snap = Some more ∧ ∀ x, x ∈ more ↔ ∃ i, i ∈ tnf ∧ tombs_of (lay i) snap x.
Proof using Hh.
  intros Hv. unfold run_tombs, finish_run. cbn [run_has_range_tombstones tables_newest_first fst snd].
  destruct (existsb _ tnf) eqn:Ee.
  - clear Ee. assert (∃ ls, mapM (λ i, (λ t, sst_collect t snap) <$> ssts !! i) tnf = Some ls ∧
      ∀ x, x ∈ concat ls ↔ ∃ i, i ∈ tnf ∧ tombs_of (lay i) snap x) as (ls & -> & Hls); [|by exists (concat ls)].
    induction Hv as [|i tnf Hi _ (ls & IH & Hls)]; [exists []; split; [done|]; intros x; split; [by intros ?%not_elem_of_nil|intros (i & Hi & _); by apply not_elem_of_nil in Hi]|].
    destruct (table_at i Hi) as (t & Et & Hhold). exists (sst_collect t snap :: ls). cbn [mapM]. rewrite Et. cbn [fmap option_fmap option_map mbind option_bind].
    rewrite IH. split; [done|]. intros x. cbn [concat]. rewrite elem_of_app, (sst_collect_ok t _ snap x Hhold), Hls. setoid_rewrite elem_of_cons. naive_solver.
  - exists []. split; [done|]. intros x. split; [by intros ?%not_elem_of_nil|]. intros (i & Hi & e & He & Hk & _). exfalso.
    apply not_true_iff_false in Ee. apply Ee, existsb_exists. exists i. split; [by apply list_elem_of_In|].
    destruct (table_at i) as (t & -> & Hhold); [by apply (proj1 (Forall_forall _ _) Hv)|]. cbn. unfold sst_has_range_tombstones.
    rewrite (holds_tombs t _ Hhold). assert (e ∈ range_dels (lay i)) as Hin by (by apply list_elem_of_filter).
    by destruct (range_dels (lay i)); [apply not_elem_of_nil in Hin|].
Qed.

(** The runs together: where the answer was found, and the tombstones seen. *)
Definition runs_hit (idx : list nat) (key : list byte) (snap : Z) (found : option point) (Ts : list RangeTombstone) : Prop :=
  match found with
  | None => ∀ i, i ∈ idx → point_ref (lay i) key snap = None ∧ ∀ x, tombs_of (lay i) snap x → x ∈ Ts
  | Some p => ∃ pre i post, idx = pre ++ i :: post ∧ (∀ j, j ∈ pre → point_ref (lay j) key snap = None) ∧
      point_ref (lay i) key snap = Some p ∧ ∀ j x, j ∈ pre ++ [i] → tombs_of (lay j) snap x → x ∈ Ts
  end.

Lemma lookup_runs_ok rs key snap Ts st : Forall (λ r : Z * list nat, valid r.2) rs → readable st →
  ∃ st' found Ts', lookup_runs ssts (finish_run ssts <$> rs) key snap Ts st = (st', Some (found, Ts')) ∧ readable st' ∧
    runs_hit (concat rs.*2) key snap found Ts' ∧ (∀ x, x ∈ Ts → x ∈ Ts') ∧
    (∀ x, x ∈ Ts' → x ∈ Ts ∨ ∃ i, i ∈ concat rs.*2 ∧ tombs_of (lay i) snap x).
Proof using Hh.
  intros Hv. revert Ts st. induction Hv as [|[level tnf] rs Hr _ IH]; intros Ts st Hst; cbn [fmap list_fmap lookup_runs concat].
  { exists st, None, Ts. split; [done|]. split; [done|]. split; [by intros i Hi%not_elem_of_nil|]. split; [done|by left]. }
  destruct (run_tombs_ok level tnf snap Hr) as (more & -> & Hmore). destruct (probe_run_ok level tnf key snap st Hr Hst) as (st1 & res & -> & Hst1 & Hfh).
  cbn [snd] in *. destruct res as [p|].
  - exists st1, (Some p), (Ts ++ more). split; [done|]. split; [done|]. split; [|split; [set_solver|]].
    + destruct Hfh as (pre & i & post & -> & Hpre & Hp). exists pre, i, (post ++ concat rs.*2). split; [by rewrite <-app_assoc|]. split; [done|].
      split; [done|]. intros j x Hj Hx. apply elem_of_app. right. apply Hmore. exists j. split; [set_solver|done].
    + intros x [Hx|(i & Hi & Hx)%Hmore]%elem_of_app; [by left|right; exists i; set_solver].
  - destruct (IH (Ts ++ more) st1 Hst1) as (st' & found & Ts' & -> & Hst' & Hhit & Hsub & Hsup). exists st', found, Ts'. split; [done|]. split; [done|].
    assert (∀ j x, j ∈ tnf → tombs_of (lay j) snap x → x ∈ Ts') as Hrun by (intros j x Hj Hx; apply Hsub, elem_of_app; right; apply Hmore; by exists j).
    split; [|split; [set_solver|]].
    + destruct found as [p|].
      * destruct Hhit as (pre & i & post & E & Hpre & Hp & Htomb). exists (tnf ++ pre), i, post. rewrite E. split; [by rewrite <-app_assoc|]. split_and!; [|done|].
        -- intros j [Hj|Hj]%elem_of_app; [by apply Hfh|by apply Hpre].
        -- intros j x Hj Hx. rewrite <-app_assoc in Hj. apply elem_of_app in Hj as [Hj|Hj]; [by eapply Hrun|by eapply Htomb].
      * intros i [Hi|Hi]%elem_of_app; [|by apply Hhit]. split; [by apply Hfh|]. intros x. by apply Hrun.
    + intros x [[Hx|(i & Hi & Hx)%Hmore]%elem_of_app|(i & Hi & Hx)]%Hsup; [by left|right; exists i; set_solver..].
Qed.
End runs.

(** The runs list the tables in order. *)
Lemma add_to_runs_concat levels runs i : concat (add_to_runs levels runs i).*2 = concat runs.*2 ++ [i].
Proof.
  unfold add_to_runs. destruct (reverse runs) as [|[l ids] rest] eqn:E.
  { apply (f_equal reverse) in E. rewrite reverse_involutive in E. by subst. }
  apply (f_equal reverse) in E. rewrite reverse_involutive, reverse_cons in E. subst runs.
  case_match; rewrite !fmap_app, !concat_app; cbn; by rewrite ?app_nil_r, ?app_assoc.
Qed.

Lemma runs_concat levels order : concat (foldl (add_to_runs levels) [] order).*2 = order.
Proof.
  induction order as [|i order IH] using rev_ind; [done|]. rewrite foldl_app. cbn [foldl]. by rewrite add_to_runs_concat, IH.
Qed.

(** * The lookup *)

Section lookup.
Context {T St : Type} `{SR : SstReader T St, RD : !SstReads T St}.

(** The database's parts hold what they should: memtables that satisfy their
    invariant, sorted bulk runs without range deletions, tables that hold their
    entries, and the runs rebuilt from the levels. *)
Record db_ok (d : Db T) (levels : list Z) (key : list byte) (bes tes : list (list entry)) : Prop := {
  do_mem : Forall mem_layer_ok (mem_layers d);
  do_bulk : Forall2 bulk_layer_ok (bulk_layers d key) bes;
  do_tables : Forall2 holds (d_ssts d) tes;
  do_distinct : Forall distinct_keys tes;
  do_runs : d_sst_runs d = rebuild_sst_runs (d_ssts d) levels
}.

(** The layers in lookup order. *)
Definition db_layers (d : Db T) (levels : list Z) (bes tes : list (list entry)) : list (list entry) :=
  (mem_entries <$> mem_layers d) ++ bes ++ (lay tes <$> sst_indices_newest_first levels (length (d_ssts d))).

Lemma order_valid levels n (tes : list (list entry)) : n = length tes → valid tes (sst_indices_newest_first levels n).
Proof.
  intros ->. unfold valid, sst_indices_newest_first. rewrite sort_by_perm. apply Forall_forall. intros i Hi%elem_of_seq. lia.
Qed.

Lemma lay_distinct tes i : Forall distinct_keys tes → distinct_keys (lay tes i).
Proof. intros Hd. unfold lay. destruct (tes !! i) eqn:E; [by apply (Forall_lookup_1 _ _ _ _ Hd E)|]. by intros e e' He%not_elem_of_nil. Qed.

(** A table without a visible version misses. *)
Lemma point_none_missed l key snap : sorted_entries l → point_ref l key snap = None → missed key snap l.
Proof. intros Hs E e He. pose proof (point_ref_newest l key snap Hs) as H. rewrite E in H. by apply H in He. Qed.

Lemma point_some_newest l key snap p : sorted_entries l → point_ref l key snap = Some p → ∃ e, newest_in l snap key e ∧ p = point_of e.
Proof. intros Hs E. pose proof (point_ref_newest l key snap Hs) as H. rewrite E in H. destruct H as (e & -> & Hc & Hm). by exists e. Qed.

(** C8: a point lookup reads the visible value. For a database whose layers,
    in the order the lookup asks them (live, immutable, pinned, parked and
    retired memtables, the bulk runs of the key's family, the tables by level
    and then newest first), hold newer writes of the key first, the lookup
    neither panics nor fails, and it finds a value exactly when the visibility
    rule over all entries of all layers reads that value: stopping at the first
    layer with a version, the key bounds, the binary search in disjoint runs
    and the tombstones collected on the way lose nothing. The bulk runs are
    strictly sorted and the range deletions of the memtables end after they
    start; see [unsorted_run_misses_key] and [empty_range_hides_key] for what
    happens otherwise. *)
Theorem db_lookup_correct d levels key bes tes snap st :
  db_ok d levels key bes tes → recent key (db_layers d levels bes tes) → readable st →
  ∃ st' look, db_lookup d key snap st = (st', Some look) ∧ readable st' ∧
    ∀ v, look = Found v ↔ reads (concat (db_layers d levels bes tes)) snap key v.
Proof.
  intros [Hmem Hbulk Htab Hdist Hruns] Hrec Hst. unfold db_lookup, db_layers in *. set (M := mem_entries <$> mem_layers d) in *.
  set (order := sst_indices_newest_first levels (length (d_ssts d))) in *.
  assert (valid tes order) as Hval by (apply order_valid; by eapply Forall2_length).
  pose proof (lookup_mem_ok (mem_layers d) key snap [] [] (bes ++ (lay tes <$> order)) Hmem Hrec (Forall_nil_2 _)) as Hm. cbn [app] in Hm.
  specialize (Hm ltac:(intros t; split; [by intros ?%not_elem_of_nil|intros (x & Hx & _); by apply not_elem_of_nil in Hx])).
  destruct (lookup_mem _ _ _ _) as [b|look]; [|by exists st, look]. destruct Hm as [HmM HTM]. fold M in HmM, HTM.
  pose proof (lookup_bulk_ok (bulk_layers d key) bes key snap M (range_tombs b) (lay tes <$> order) Hbulk Hrec HmM HTM) as Hb.
  destruct (lookup_bulk _ _ _ _) as [[look|]|]; [by exists st, look| |done]. destruct Hb as [Hmb HTb].
  rewrite Hruns. unfold rebuild_sst_runs. fold order.
  destruct (lookup_runs_ok (d_ssts d) tes Htab (foldl (add_to_runs levels) [] order) key snap (range_tombs b) st) as (st' & found & Ts & -> & Hst' & Hhit & Hsub & Hsup).
  { apply Forall_forall. intros r Hr. apply Forall_forall. intros i Hi. apply (proj1 (Forall_forall _ _) Hval).
    rewrite <-(runs_concat levels order). apply elem_of_concat. exists r.2. split; [by apply list_elem_of_fmap_2|done]. }
  { done. }
  rewrite runs_concat in Hhit, Hsup. exists st', (finish_lookup key found Ts). split; [done|]. split; [done|]. intros v.
  assert (∀ i, i ∈ order → sorted_entries (lay tes i)) as Hsort.
  { intros i Hi. destruct (table_at (d_ssts d) tes Htab i) as (t & _ & Hhold); [by apply (proj1 (Forall_forall _ _) Hval)|]. by eapply holds_sorted. }
  rewrite (app_assoc M bes). destruct found as [p|].
  - destruct Hhit as (pre & i & post & Eo & Hpre & Hp & Htomb). rewrite Eo, fmap_app, app_assoc, fmap_cons.
    rewrite Eo, (app_assoc M), fmap_app, app_assoc, fmap_cons in Hrec.
    destruct (point_some_newest (lay tes i) key snap p) as (e & Hnew & ->); [apply Hsort; rewrite Eo; set_solver|done|].
    rewrite (answer_reads key snap _ (lay tes i) _ e Ts v Hrec).
    + cbn. pose proof Hnew as [(_ & _ & Hk & _) _]. destruct (kind e.1) eqn:Ek; [| |done]; cbn; [naive_solver|].
      unfold point_tombstone_plan. fold (Visibility.range_deleted key (sequence e.1) Ts). destruct (Visibility.range_deleted key (sequence e.1) Ts); naive_solver.
    + rewrite !Forall_app. split; [by split|]. apply Forall_fmap, Forall_forall. intros j Hj. apply point_none_missed; [apply Hsort; rewrite Eo; set_solver|by apply Hpre].
    + by apply lay_distinct.
    + done.
    + intros t (x & Hx & H). apply elem_of_app in Hx as [Hx|Hx].
      * rewrite concat_app in Hx. apply elem_of_app in Hx as [Hx|(l & (j & -> & Hj)%list_elem_of_fmap & Hx)%elem_of_concat];
          [apply Hsub, HTb; by exists x|]. apply (Htomb j); [set_solver|by exists x].
      * apply (Htomb i); [set_solver|by exists x].
    + intros t Ht. rewrite <-fmap_cons, <-app_assoc, <-fmap_app, <-Eo. apply Hsup in Ht as [(x & Hx & H)%HTb|(j & Hj & x & Hx & H)]; exists x; (split; [|done]).
      * rewrite concat_app. set_solver.
      * rewrite concat_app. apply elem_of_app. right. apply elem_of_concat. exists (lay tes j). split; [by apply list_elem_of_fmap_2|done].
  - unfold finish_lookup. split; [by destruct (Visibility.range_deleted key 0 Ts)|]. intros Hr. exfalso. revert Hr. apply none_reads. rewrite !Forall_app.
    split; [by split|]. apply Forall_fmap, Forall_forall. intros j Hj. apply point_none_missed; [by apply Hsort|by apply Hhit].
Qed.
End lookup.
