(* ===== verification/OccProbe.v ===== *)
(** The conflict probes of optimistic transactions ([db_kernel.rs]:
    [key_has_write_after], [range_has_write_after]): has a key, or a range, been
    written after a snapshot? They ask the staged writes, the memtable layers,
    the tables and the bulk runs, over the table interface of [DbLookup]. *)

From S2P Require Import Prelude SliceOps BulkIngest ErrorKernel KeyKernel BatchKernel WalFormat Visibility OrdMap MemIndex MemTable MemFamily MemRead MemIter Bloom SstBlock SstFile SstTable SstWrite SstOpen SstRead SstLookup SstScan SstRange Flush BulkRun DbLookup.

Local Open Scope Z_scope.

(** A write sequenced in the WAL and not yet applied. *)
Record UnappliedOp := mkUnapplied { u_seq : Z; u_kind : ValueType; u_key : list byte; u_end : list byte }.
Definition un_entry (u : UnappliedOp) : entry := (mkIKey (u_key u) (u_seq u) (u_kind u), u_end u).

(** What the probes call on a table, besides [SstReader]. *)
Class SstProber (T St : Type) := {
  table_point_at : T → list byte → Z → St → St * option (option point);
  table_max_sequence : T → Z;
  table_overlaps : T → Bound → Bound → bool;
  table_range : T → Bound → Bound → St → St * option (list entry)
}.

Class SstProbes (T St : Type) `{SR : SstReader T St, !SstReads T St, SP : !SstProber T St} := {
  probes_point t es uk snap st : holds t es → readable st →
    ∃ st', table_point_at t uk snap st = (st', Some (point_ref es uk snap)) ∧ readable st';
  probes_max t es e : holds t es → e ∈ es → sequence e.1 ≤ table_max_sequence t;
  probes_overlap t es start end_ e : holds t es → table_overlaps t start end_ = false → e ∈ es →
    user_key_in_range (user_of e) start end_ = false;
  probes_range t es start end_ st : holds t es → distinct_keys es → readable st →
    ∃ st' out, table_range t start end_ st = (st', Some out) ∧ readable st' ∧
      (∀ e, e ∈ out → e ∈ es ∧ (kind e.1 = RangeDeletion ∨ in_window start end_ e)) ∧ (∀ e, e ∈ es → in_window start end_ e → e ∈ out)
}.

(** * A key *)

Definition tombs_after (tombs : list RangeTombstone) (key : list byte) (snapshot : Z) : bool :=
  existsb (λ t, (snapshot <? rt_sequence t) && write_op_covers_key RangeDeletion (rt_start t) (rt_end t) key) tombs.

Definition newer_point {A : Type} (found : option (Z * A)) (snapshot : Z) : bool :=
  match found with Some (seq, _) => snapshot <? seq | None => false end.

Definition mem_has_range_tombstones (m : MemTable) : bool := negb (range_tombstones m =? 0).

Definition mem_key_after (m : MemTable) (key : list byte) (snapshot : Z) : bool :=
  newer_point (MemRead.get_entry m key MAX_SEQUENCE_NUMBER) snapshot ||
  (mem_has_range_tombstones m && tombs_after (mem_collect_range_tombstones m MAX_SEQUENCE_NUMBER []) key snapshot).

Definition unapplied_key_after (unapplied : list UnappliedOp) (key : list byte) (snapshot : Z) : bool :=
  existsb (λ u, negb (u_seq u <=? snapshot) && write_op_covers_key (u_kind u) (u_key u) (u_end u) key) unapplied.

Fixpoint bulk_key_after (runs : list BulkRun) (key : list byte) (snapshot : Z) : option bool :=
  match runs with
  | [] => Some false
  | r :: runs =>
      match has_write_after r key snapshot with
      | None => None
      | Some true => Some true
      | Some false => bulk_key_after runs key snapshot
      end
  end.

Section probes.
Context {T St : Type} `{SR : SstReader T St, SP : !SstProber T St}.

Fixpoint ssts_key_after (ssts : list T) (key : list byte) (snapshot : Z) (st : St) : St * option bool :=
  match ssts with
  | [] => (st, Some false)
  | t :: ssts =>
      match table_point_at t key MAX_SEQUENCE_NUMBER st with
      | (st, None) => (st, None)
      | (st, Some found) =>
          if newer_point found snapshot then (st, Some true)
          else if negb (sst_has_range_tombstones t) then ssts_key_after ssts key snapshot st
          else if tombs_after (sst_collect t MAX_SEQUENCE_NUMBER) key snapshot then (st, Some true)
          else ssts_key_after ssts key snapshot st
      end
  end.

Definition key_has_write_after (unapplied : list UnappliedOp) (d : Db T) (key : list byte) (snapshot : Z) (st : St) : St * option bool :=
  if unapplied_key_after unapplied key snapshot then (st, Some true)
  else if existsb (λ m, mem_key_after m key snapshot) (mem_layers d) then (st, Some true)
  else
    match ssts_key_after (d_ssts d) key snapshot st with
    | (st, Some false) => (st, bulk_key_after (bulk_layers d key) key snapshot)
    | r => r
    end.

(** * A range *)

Definition unapplied_range_after (unapplied : list UnappliedOp) (start end_ : list byte) (snapshot : Z) : bool :=
  existsb (λ u, negb (u_seq u <=? snapshot) &&
    if bool_decide (u_kind u = RangeDeletion) then bytes_ltb (u_key u) end_ && bytes_ltb start (u_end u)
    else bytes_leb start (u_key u) && bytes_ltb (u_key u) end_) unapplied.

Definition tombs_overlap (tombs : list RangeTombstone) (start end_ : list byte) (snapshot : Z) : bool :=
  existsb (λ t, (snapshot <? rt_sequence t) && bytes_ltb (rt_start t) end_ && bytes_ltb start (rt_end t)) tombs.

Definition any_newer (l : list entry) (snapshot : Z) : bool := existsb (λ e : entry, snapshot <? sequence e.1) l.

Definition mem_range_after (m : MemTable) (start end_ : list byte) (snapshot : Z) : option bool :=
  if mem_has_range_tombstones m && tombs_overlap (mem_collect_range_tombstones m MAX_SEQUENCE_NUMBER []) start end_ snapshot then Some true
  else
    it ← iter_internal_iter m (Included start) (Excluded end_);
    l ← iter_drain (iter_fuel m) it;
    Some (any_newer l snapshot).

Fixpoint mems_range_after (layers : list MemTable) (start end_ : list byte) (snapshot : Z) : option bool :=
  match layers with
  | [] => Some false
  | m :: layers =>
      match mem_range_after m start end_ snapshot with
      | Some false => mems_range_after layers start end_ snapshot
      | r => r
      end
  end.

Fixpoint ssts_range_after (ssts : list T) (start end_ : list byte) (snapshot : Z) (st : St) : St * option bool :=
  match ssts with
  | [] => (st, Some false)
  | t :: ssts =>
      if sst_has_range_tombstones t && tombs_overlap (sst_collect t MAX_SEQUENCE_NUMBER) start end_ snapshot then (st, Some true)
      else if negb (table_overlaps t (Included start) (Excluded end_)) then ssts_range_after ssts start end_ snapshot st
      else if table_max_sequence t <=? snapshot then ssts_range_after ssts start end_ snapshot st
      else
        match table_range t (Included start) (Excluded end_) st with
        | (st, None) => (st, None)
        | (st, Some l) => if any_newer l snapshot then (st, Some true) else ssts_range_after ssts start end_ snapshot st
        end
  end.

Definition range_has_write_after (unapplied : list UnappliedOp) (d : Db T) (start end_ : list byte) (snapshot : Z) (st : St)
    : St * option bool :=
  if bytes_leb end_ start then (st, Some false)
  else if unapplied_range_after unapplied start end_ snapshot then (st, Some true)
  else
    match mems_range_after (mem_layers d) start end_ snapshot with
    | Some false => ssts_range_after (d_ssts d) start end_ snapshot st
    | r => (st, r)
    end.
End probes.

(** * What a key probe sees *)

(** Some entry written after the snapshot covers the key. *)
Definition written_after (key : list byte) (snap : Z) (l : list entry) : Prop :=
  ∃ e, e ∈ l ∧ snap < sequence e.1 ∧ covers_key key e.

Lemma written_after_app key snap a b : written_after key snap (a ++ b) ↔ written_after key snap a ∨ written_after key snap b.
Proof. unfold written_after. setoid_rewrite elem_of_app. naive_solver. Qed.

Lemma written_after_nil key snap : ¬ written_after key snap [].
Proof. by intros (e & He%not_elem_of_nil & _). Qed.

(** Writes that do not cover a key leave its reads as they are. *)
Lemma reads_unmoved H W snap now k v :
  ¬ written_after k snap H → (∀ e, e ∈ W → ¬ covers_key k e) → (∀ e, e ∈ H → sequence e.1 ≤ now) → snap ≤ now →
  reads (H ++ W) now k v ↔ reads H snap k v.
Proof.
  intros Hno HW Hnow Hle.
  assert (∀ e, e ∈ H ++ W → covers_key k e → e ∈ H ∧ sequence e.1 ≤ snap) as Hcov.
  { intros e [He|He]%elem_of_app Hc; [|by apply HW in He]. split; [done|]. destruct (decide (snap < sequence e.1)); [|lia]. destruct Hno. by exists e. }
  assert (∀ e, candidate (H ++ W) now k e ↔ candidate H snap k e) as Hc.
  { intros e. split.
    - intros Hcand. pose proof (candidate_covers _ _ _ _ Hcand) as Hk. destruct Hcand as (He & Hu & Hkd & _). destruct (Hcov e He Hk). by split_and!.
    - intros (He & Hu & Hkd & Hs). split_and!; [set_solver|done|done|lia]. }
  assert (∀ s, hidden (H ++ W) now k s ↔ hidden H snap k s) as Hh.
  { intros s. split; intros (rk & rv & He & Hkd & Hs & Hlt & Hr); exists rk, rv.
    - destruct (Hcov (rk, rv) He) as [? ?]; [by apply tomb_covers_key|]. by split_and!.
    - split_and!; [set_solver|done|lia|done|done]. }
  unfold reads. setoid_rewrite Hc. by setoid_rewrite Hh.
Qed.

Definition below_max (l : list entry) : Prop := ∀ e, e ∈ l → sequence e.1 ≤ MAX_SEQUENCE_NUMBER.

Lemma tombs_after_ok l tombs key snap : below_max l → (∀ t, t ∈ tombs ↔ tombs_of l MAX_SEQUENCE_NUMBER t) →
  tombs_after tombs key snap = true ↔ ∃ e, e ∈ l ∧ kind e.1 = RangeDeletion ∧ snap < sequence e.1 ∧ covers_key key e.
Proof.
  intros Hmax Ht. unfold tombs_after. rewrite existsb_exists. split.
  - intros (t & (e & He & Hk & _ & ->)%list_elem_of_In%Ht & [Hs%Z.ltb_lt Hc]%andb_true_iff). exists e. unfold covers_key. rewrite Hk. by cbn in *.
  - intros (e & He & Hk & Hs & Hc). exists (tomb_of e). unfold covers_key in Hc. rewrite Hk in Hc. split.
    + apply list_elem_of_In, Ht. exists e. split_and!; try done. by apply Hmax.
    + cbn [tomb_of rt_sequence rt_start rt_end]. by rewrite Hc, (proj2 (Z.ltb_lt _ _) Hs).
Qed.

(** A layer's answer: the newest point, or else its tombstones. *)
Lemma layer_written l key snap (point tombs : bool) : below_max l →
  (tombs = true ↔ ∃ e, e ∈ l ∧ kind e.1 = RangeDeletion ∧ snap < sequence e.1 ∧ covers_key key e) →
  (point = true → ∃ e, candidate l MAX_SEQUENCE_NUMBER key e ∧ snap < sequence e.1) →
  (∀ e, candidate l MAX_SEQUENCE_NUMBER key e → snap < sequence e.1 → point = true ∨ tombs = true) →
  point || tombs = true ↔ written_after key snap l.
Proof.
  intros Hmax Ht Hp Hc. rewrite orb_true_iff. split.
  - intros [(e & Hcand & Hs)%Hp|(e & He & _ & Hs & Hcov)%Ht]; exists e; [|done]. split; [apply Hcand|]. split; [done|].
    by eapply candidate_covers.
  - intros (e & He & Hs & Hcov). destruct (decide (kind e.1 = RangeDeletion)) as [Hk|Hk].
    + right. apply Ht. by exists e.
    + apply (Hc e); [|done]. split; [done|]. split; [|by split; [|apply Hmax]].
      unfold covers_key, write_op_covers_key in Hcov. by destruct (kind e.1); try done; apply bytes_eqb_spec in Hcov.
Qed.

Lemma mem_key_after_ok m key snap : mem_layer_ok m → below_max (mem_entries m) →
  mem_key_after m key snap = true ↔ written_after key snap (mem_entries m).
Proof.
  intros Hm Hmax. pose proof Hm as [Hok _].
  assert (mem_has_range_tombstones m && tombs_after (mem_collect_range_tombstones m MAX_SEQUENCE_NUMBER []) key snap =
          tombs_after (mem_collect_range_tombstones m MAX_SEQUENCE_NUMBER []) key snap) as Eh.
  { unfold mem_has_range_tombstones, mem_collect_range_tombstones. by destruct (range_tombstones m =? 0). }
  unfold mem_key_after. rewrite Eh. pose proof (tombs_after_ok (mem_entries m) _ key snap Hmax
    (λ t, iff_trans (mem_collect_ok m MAX_SEQUENCE_NUMBER [] t Hok) (conj (λ H, match H with or_introl H => False_rect _ (not_elem_of_nil _ H) | or_intror H => H end) (@or_intror _ _)))) as Ht.
  pose proof (mem_point m key MAX_SEQUENCE_NUMBER Hm) as Hp. apply layer_written; [done|done|..].
  - destruct (MemRead.get_entry m key MAX_SEQUENCE_NUMBER) as [[n look]|]; [|done]. destruct Hp as (e & [Hc _] & -> & _).
    cbn. intros Hlt%Z.ltb_lt. by exists e.
  - intros e Hc Hs. destruct (MemRead.get_entry m key MAX_SEQUENCE_NUMBER) as [[n look]|]; cbn.
    + left. destruct Hp as (e' & [Hc' Hnew] & -> & _). apply Z.ltb_lt. pose proof (ikey_le_seq e'.1 e.1 (Hnew e Hc)) as Hle.
      destruct Hc as (_ & E & _), Hc' as (_ & E' & _). rewrite E, E' in Hle. specialize (Hle eq_refl). lia.
    + right. apply Ht. destruct (Hp e Hc) as (k & v & Hin & Hk & _ & Hlt & Hcov). exists (k, v). split_and!; try done; [cbn; lia|].
      by apply tomb_covers_key.
Qed.

Lemma bulk_key_after_ok runs bes key snap : Forall2 bulk_layer_ok runs bes →
  ∃ b, bulk_key_after runs key snap = Some b ∧ (b = true ↔ written_after key snap (concat bes)).
Proof.
  induction 1 as [|r es runs bes [(Hr & Hs & _) Hk] _ (b & IH & Hb)]; cbn [bulk_key_after concat].
  { exists false. split; [done|]. split; [done|]. by intros ?%written_after_nil. }
  destruct (has_write_after_ok r es Hr Hs key snap) as (b0 & -> & Hb0).
  assert (b0 = true ↔ written_after key snap es) as Hw.
  { rewrite Hb0. unfold written_after, covers_key, write_op_covers_key. split; intros (e & He & H1 & H2); exists e; destruct (Hk e He) as [Hkd _]; (split; [done|]).
    - split; [done|]. destruct (kind e.1); try done; by apply bytes_eqb_spec.
    - split; [|done]. destruct (kind e.1); try done; by apply bytes_eqb_spec. }
  destruct b0; [exists true|exists b]; (split; [done|]); rewrite written_after_app; naive_solver.
Qed.

(** The table part of the layers, in whatever order. *)
Lemma elem_ordered levels (tes : list (list entry)) n e : n = length tes →
  e ∈ concat (lay tes <$> sst_indices_newest_first levels n) ↔ e ∈ concat tes.
Proof.
  intros ->. rewrite !elem_of_concat. setoid_rewrite list_elem_of_fmap. unfold sst_indices_newest_first. setoid_rewrite sort_by_perm. setoid_rewrite elem_of_seq. split.
  - intros (l & (i & -> & Hi) & He). unfold lay in He. destruct (tes !! i) as [l|] eqn:E; [|by apply not_elem_of_nil in He].
    exists l. split; [by eapply list_elem_of_lookup_2|done].
  - intros (l & (i & Hi)%list_elem_of_lookup & He). exists l. split; [|done]. exists i. unfold lay. rewrite Hi. split; [done|]. apply lookup_lt_Some in Hi. lia.
Qed.

Lemma existsb_mem_after layers key snap : Forall mem_layer_ok layers → below_max (concat (mem_entries <$> layers)) →
  existsb (λ m, mem_key_after m key snap) layers = true ↔ written_after key snap (concat (mem_entries <$> layers)).
Proof.
  intros Hm Hmax. induction Hm as [|m layers Hm _ IH]; cbn [existsb fmap list_fmap concat].
  { split; [done|]. by intros ?%written_after_nil. }
  cbn [fmap list_fmap concat] in Hmax. rewrite orb_true_iff, written_after_app, mem_key_after_ok, IH; [done|..|done|]; intros e He; apply Hmax, elem_of_app; [by right|by left].
Qed.

Lemma unapplied_key_after_ok unapplied key snap :
  unapplied_key_after unapplied key snap = true ↔ written_after key snap (un_entry <$> unapplied).
Proof.
  unfold unapplied_key_after, written_after. rewrite existsb_exists. setoid_rewrite list_elem_of_fmap. setoid_rewrite <-list_elem_of_In.
  setoid_rewrite andb_true_iff. setoid_rewrite negb_true_iff. setoid_rewrite Z.leb_gt. unfold covers_key. split.
  - intros (u & Hu & Hs & Hc). exists (un_entry u). split; [by exists u|done].
  - intros (e & (u & -> & Hu) & Hs & Hc). by exists u.
Qed.

Section key_probe.
Context {T St : Type} `{SR : SstReader T St, RD : !SstReads T St, SP : !SstProber T St, PR : !SstProbes T St}.

Lemma ssts_key_after_ok ssts tes key snap st : Forall2 holds ssts tes → Forall below_max tes → readable st →
  ∃ st' b, ssts_key_after ssts key snap st = (st', Some b) ∧ readable st' ∧ (b = true ↔ written_after key snap (concat tes)).
Proof using PR.
  intros Hh. revert st. induction Hh as [|t es ssts tes Ht _ IH]; intros st Hm Hst; cbn [ssts_key_after concat].
  { exists st, false. split; [done|]. split; [done|]. split; [done|]. by intros ?%written_after_nil. }
  apply Forall_cons in Hm as [Hmax Hm]. destruct (probes_point t es key MAX_SEQUENCE_NUMBER st Ht Hst) as (st1 & -> & Hst1).
  pose proof (tombs_after_ok es (sst_collect t MAX_SEQUENCE_NUMBER) key snap Hmax (λ x, sst_collect_ok t es _ x Ht)) as Htb.
  pose proof (point_ref_newest es key MAX_SEQUENCE_NUMBER (holds_sorted t es Ht)) as Hp.
  assert (newer_point (point_ref es key MAX_SEQUENCE_NUMBER) snap || tombs_after (sst_collect t MAX_SEQUENCE_NUMBER) key snap = true ↔ written_after key snap es) as Hw.
  { apply layer_written; [done|done|..].
    - destruct (point_ref _ _ _) as [[n look]|]; [|done]. destruct Hp as (e & E & Hc & _). unfold point_of in E. injection E as -> _.
      cbn. intros Hlt%Z.ltb_lt. by exists e.
    - intros e Hc Hs. left. destruct (point_ref _ _ _) as [[n look]|]; cbn.
      + destruct Hp as (e' & E & Hc' & Hnew). injection E as -> _. apply Z.ltb_lt. pose proof (ikey_le_seq e'.1 e.1 (Hnew e Hc)) as Hle.
        destruct Hc as (_ & E & _), Hc' as (_ & E' & _). rewrite E, E' in Hle. specialize (Hle eq_refl). lia.
      + by apply Hp in Hc. }
  setoid_rewrite written_after_app. destruct (newer_point _ snap); cbn [orb] in Hw; [exists st1, true; split; [done|]; split; [done|]; naive_solver|].
  destruct (sst_has_range_tombstones t) eqn:Eh; cbn [negb].
  - destruct (tombs_after _ _ _); [exists st1, true; split; [done|]; split; [done|]; naive_solver|].
    destruct (IH st1 Hm Hst1) as (st' & b & -> & Hst' & Hb). exists st', b. split; [done|]. split; [done|]. rewrite Hb. naive_solver.
  - assert (tombs_after (sst_collect t MAX_SEQUENCE_NUMBER) key snap = false) as Hno.
    { unfold sst_has_range_tombstones in Eh. apply negb_false_iff, Nat.eqb_eq, nil_length_inv in Eh. unfold sst_collect. by rewrite Eh. }
    rewrite Hno in Hw. destruct (IH st1 Hm Hst1) as (st' & b & -> & Hst' & Hb). exists st', b. split; [done|]. split; [done|]. rewrite Hb. naive_solver.
Qed.

Lemma key_probe_ok unapplied d levels key bes tes snap st :
  db_ok d levels key bes tes → below_max (concat (db_layers d levels bes tes)) → readable st →
  ∃ st' b, key_has_write_after unapplied d key snap st = (st', Some b) ∧ readable st' ∧
    (b = true ↔ ∃ e, e ∈ (un_entry <$> unapplied) ++ concat (db_layers d levels bes tes) ∧ snap < sequence e.1 ∧ covers_key key e).
Proof using PR.
  intros [Hmem Hbulk Htab _ _] Hmax Hst. unfold db_layers in *. rewrite !concat_app in *.
  assert (∀ e, e ∈ concat (lay tes <$> sst_indices_newest_first levels (length (d_ssts d))) ↔ e ∈ concat tes) as Hord
    by (intros e; apply elem_ordered; by eapply Forall2_length).
  assert ((∃ e, e ∈ (un_entry <$> unapplied) ++ concat (mem_entries <$> mem_layers d) ++ concat bes ++
                  concat (lay tes <$> sst_indices_newest_first levels (length (d_ssts d))) ∧ snap < sequence e.1 ∧ covers_key key e) ↔
    written_after key snap (un_entry <$> unapplied) ∨ written_after key snap (concat (mem_entries <$> mem_layers d)) ∨
    written_after key snap (concat bes) ∨ written_after key snap (concat tes)) as Hw.
  { rewrite <-!written_after_app. unfold written_after. setoid_rewrite elem_of_app. setoid_rewrite elem_of_app. setoid_rewrite elem_of_app. by setoid_rewrite Hord. }
  setoid_rewrite Hw.
  assert (below_max (concat (mem_entries <$> mem_layers d))) as Hmm by (intros e He; apply Hmax, elem_of_app; by left).
  assert (Forall below_max tes) as Hmt.
  { apply Forall_forall. intros l Hl e He. apply Hmax. rewrite !elem_of_app. right. right. apply Hord, elem_of_concat. by exists l. }
  pose proof (unapplied_key_after_ok unapplied key snap) as Hu. pose proof (existsb_mem_after _ key snap Hmem Hmm) as Hm.
  unfold key_has_write_after. destruct (unapplied_key_after _ _ _); [exists st, true; split; [done|]; split; [done|]; tauto|].
  destruct (existsb _ _); [exists st, true; split; [done|]; split; [done|]; tauto|].
  destruct (ssts_key_after_ok (d_ssts d) tes key snap st Htab Hmt Hst) as (st' & b & -> & Hst' & Hb).
  destruct (bulk_key_after_ok (bulk_layers d key) bes key snap Hbulk) as (b2 & Eb & Hb2).
  destruct b; [exists st', true; split; [done|]; split; [done|]; tauto|]. rewrite Eb. exists st', b2. split; [done|]. split; [done|].
  assert (¬ false = true) by done. tauto.
Qed.
(** C19: the conflict probe of a key is exact. For a database whose memtables,
    bulk runs and tables hold their entries, [key_has_write_after] answers, in
    every state of the caches and without a panic, whether some write sequenced
    after the snapshot covers the key: a put, a deletion or a range deletion, in
    the staged writes whose log record is still being synced, in any memtable
    layer, bulk run or table. Asking each layer only for its newest point and
    its tombstones misses nothing. The bulk runs are strictly sorted and the
    range deletions of the memtables end after they start: see
    [empty_range_hides_write]. *)
Theorem key_probe_exact unapplied d levels key bes tes snap st :
  db_ok d levels key bes tes → below_max (concat (db_layers d levels bes tes)) → readable st →
  ∃ st' b, key_has_write_after unapplied d key snap st = (st', Some b) ∧ readable st' ∧
    (b = true ↔ ∃ e, e ∈ (un_entry <$> unapplied) ++ concat (db_layers d levels bes tes) ∧ snap < sequence e.1 ∧ covers_key key e).
Proof using PR. apply key_probe_ok. Qed.
End key_probe.

(** * What a range probe sees *)

(** The write touches [start, end). *)
Definition touches_range (start end_ : list byte) (e : entry) : Prop :=
  match kind e.1 with
  | RangeDeletion => bytes_lt (user_key e.1) end_ ∧ bytes_lt start e.2
  | _ => user_key_in_range (user_key e.1) (Included start) (Excluded end_) = true
  end.

Definition range_written (start end_ : list byte) (snap : Z) (l : list entry) : Prop :=
  ∃ e, e ∈ l ∧ snap < sequence e.1 ∧ touches_range start end_ e.

Lemma tombs_overlap_ok l tombs start end_ snap e : below_max l → (∀ t, t ∈ tombs ↔ tombs_of l MAX_SEQUENCE_NUMBER t) →
  tombs_overlap tombs start end_ snap = false → e ∈ l → snap < sequence e.1 → kind e.1 = RangeDeletion → ¬ touches_range start end_ e.
Proof.
  intros Hmax Ht Hno He Hs Hk. unfold touches_range. rewrite Hk. intros [H1 H2]. apply not_true_iff_false in Hno. apply Hno, existsb_exists.
  exists (tomb_of e). split; [apply list_elem_of_In, Ht; exists e; split_and!; try done; by apply Hmax|]. cbn.
  by rewrite (proj2 (Z.ltb_lt _ _) Hs), (proj2 (bytes_ltb_spec _ _) H1), (proj2 (bytes_ltb_spec _ _) H2).
Qed.

(** Something was written after the snapshot: into the range, or a range
    deletion, of which a table's scan also sees the ones outside. *)
Definition newer_in (start end_ : list byte) (snap : Z) (l : list entry) : Prop :=
  ∃ e, e ∈ l ∧ snap < sequence e.1 ∧ (touches_range start end_ e ∨ kind e.1 = RangeDeletion).

Lemma tombs_overlap_newer l tombs start end_ snap : (∀ t, t ∈ tombs ↔ tombs_of l MAX_SEQUENCE_NUMBER t) →
  tombs_overlap tombs start end_ snap = true → newer_in start end_ snap l.
Proof.
  intros Ht (t & (e & He & Hk & _ & ->)%list_elem_of_In%Ht & [[Hs%Z.ltb_lt _]%andb_true_iff _]%andb_true_iff)%existsb_exists. exists e. auto.
Qed.

Lemma any_newer_true l start end_ snap :
  (∀ e, e ∈ l → kind e.1 = RangeDeletion ∨ user_key_in_range (user_key e.1) (Included start) (Excluded end_) = true) →
  any_newer l snap = true → newer_in start end_ snap l.
Proof.
  intros Hl (e & He%list_elem_of_In & Hs%Z.ltb_lt)%existsb_exists. exists e. split; [done|]. split; [done|].
  destruct (Hl e He) as [?|Hr]; [by right|]. unfold touches_range. destruct (kind e.1); auto.
Qed.

Lemma newer_in_sub start end_ snap (l l' : list entry) : newer_in start end_ snap l → (∀ e, e ∈ l → e ∈ l') → newer_in start end_ snap l'.
Proof. intros (e & He & Hs) Hsub. exists e. auto. Qed.

(** A range probe's answer about the entries it asks. *)
Definition range_answer (start end_ : list byte) (snap : Z) (l : list entry) (b : bool) : Prop :=
  (b = false → ¬ range_written start end_ snap l) ∧ (b = true → newer_in start end_ snap l).

Lemma any_newer_false l snap e : any_newer l snap = false → e ∈ l → ¬ snap < sequence e.1.
Proof.
  intros Hno He Hlt. apply not_true_iff_false in Hno. apply Hno, existsb_exists. exists e. split; [by apply list_elem_of_In|by apply Z.ltb_lt].
Qed.

(** The merged iteration of a memtable is complete: see [multi_version_key_ends_scan]. *)
Definition iterable (m : MemTable) (start end_ : list byte) : Prop :=
  tail m = [] ∨ single_range m (Included start) (Excluded end_).

Lemma mem_range_after_ok m start end_ snap : mem_layer_ok m → below_max (mem_entries m) → iterable m start end_ → bytes_lt start end_ →
  ∃ b, mem_range_after m start end_ snap = Some b ∧ range_answer start end_ snap (mem_entries m) b.
Proof.
  intros [Hok _] Hmax Hit Hlt. unfold mem_range_after.
  assert (∀ t, t ∈ mem_collect_range_tombstones m MAX_SEQUENCE_NUMBER [] ↔ tombs_of (mem_entries m) MAX_SEQUENCE_NUMBER t) as Hcol.
  { intros t. rewrite mem_collect_ok by done. split; [|by right]. by intros [?%not_elem_of_nil|]. }
  assert (mem_has_range_tombstones m && tombs_overlap (mem_collect_range_tombstones m MAX_SEQUENCE_NUMBER []) start end_ snap =
          tombs_overlap (mem_collect_range_tombstones m MAX_SEQUENCE_NUMBER []) start end_ snap) as ->.
  { unfold mem_has_range_tombstones, mem_collect_range_tombstones. by destruct (range_tombstones m =? 0). }
  destruct (tombs_overlap _ _ _ _) eqn:Et; [exists true; split; [done|]; split; [done|]; intros _; by eapply tombs_overlap_newer|].
  destruct (iter_internal_iter m (Included start) (Excluded end_)) as [it|] eqn:Ei.
  - destruct (iter_internal_iter_ok m _ _ it Hok Hit Ei) as (l & El & _ & Hp). cbn [mbind option_bind]. rewrite El. cbn [mbind option_bind].
    eexists. split; [done|]. split.
    2: { assert (∀ e, e ∈ l → user_key_in_range (user_key e.1) (Included start) (Excluded end_) = true ∧ e ∈ mem_entries m) as Hin.
         { intros e He. rewrite Hp in He. by apply list_elem_of_filter in He. }
         intros Hn%(any_newer_true _ start end_); [|intros e He; right; by apply Hin]. eapply newer_in_sub; [exact Hn|]. intros e He. by apply Hin. }
    intros Hno (e & He & Hs & Htouch). destruct (decide (kind e.1 = RangeDeletion)) as [Hk|Hk].
    + by eapply (tombs_overlap_ok (mem_entries m)).
    + apply (any_newer_false l snap e Hno); [|done]. rewrite Hp. apply list_elem_of_filter. split; [|done].
      unfold touches_range in Htouch. by destruct (kind e.1).
  - exfalso. revert Ei. unfold iter_internal_iter, iter_internal_range_cursor. cbn [bounds_cross].
    assert (bytes_ltb end_ start = false) as ->; [|cbn; by case_match]. apply not_true_iff_false. rewrite bytes_ltb_spec. intros Hc. apply (irreflexivity bytes_lt start). by etrans.
Qed.

Lemma mems_range_after_ok layers start end_ snap :
  Forall (λ m, mem_layer_ok m ∧ below_max (mem_entries m) ∧ iterable m start end_) layers → bytes_lt start end_ →
  ∃ b, mems_range_after layers start end_ snap = Some b ∧ range_answer start end_ snap (concat (mem_entries <$> layers)) b.
Proof.
  intros Hl Hlt. induction Hl as [|m layers (Hm & Hmax & Hit) _ (b & IH & Hb & Hn)]; cbn [mems_range_after fmap list_fmap concat].
  { exists false. split; [done|]. split; [|done]. by intros _ (e & He%not_elem_of_nil & _). }
  destruct (mem_range_after_ok m start end_ snap Hm Hmax Hit Hlt) as (b0 & -> & Hb0 & Hn0).
  destruct b0; [exists true; split; [done|]; split; [done|]; intros _; eapply newer_in_sub; [by apply Hn0|intros e He; apply elem_of_app; by left]|].
  exists b. split; [done|]. split; [|intros Eb; eapply newer_in_sub; [by apply Hn|intros e He; apply elem_of_app; by right]]. intros Eb (e & [He|He]%elem_of_app & H); [apply (Hb0 eq_refl); by exists e|apply (Hb Eb); by exists e].
Qed.

Section range_probe.
Context {T St : Type} `{SR : SstReader T St, RD : !SstReads T St, SP : !SstProber T St, PR : !SstProbes T St}.

Lemma ssts_range_after_ok ssts tes start end_ snap st : Forall2 holds ssts tes → Forall below_max tes → Forall distinct_keys tes → readable st →
  ∃ st' b, ssts_range_after ssts start end_ snap st = (st', Some b) ∧ readable st' ∧ range_answer start end_ snap (concat tes) b.
Proof using PR.
  intros Hh. revert st. induction Hh as [|t es ssts tes Ht _ IH]; intros st Hm Hd Hst; cbn [ssts_range_after concat].
  { exists st, false. split; [done|]. split; [done|]. split; [|done]. by intros _ (e & He%not_elem_of_nil & _). }
  apply Forall_cons in Hm as [Hmax Hm], Hd as [Hdis Hd].
  assert (∀ st1, readable st1 → tombs_overlap (sst_collect t MAX_SEQUENCE_NUMBER) start end_ snap = false →
    (∀ e, e ∈ es → in_window (Included start) (Excluded end_) e → ¬ snap < sequence e.1) →
    ∃ st' b, ssts_range_after ssts start end_ snap st1 = (st', Some b) ∧ readable st' ∧ range_answer start end_ snap (es ++ concat tes) b) as Hgo.
  { intros st1 Hst1 Hno Hpts. destruct (IH st1 Hm Hd Hst1) as (st' & b & -> & Hst' & Hb & Hn). exists st', b. split; [done|]. split; [done|].
    split; [|intros Eb; eapply newer_in_sub; [by apply Hn|intros e He; apply elem_of_app; by right]]. intros Eb (e & [He|He]%elem_of_app & Hs & Htouch); [|apply (Hb Eb); by exists e]. destruct (decide (kind e.1 = RangeDeletion)) as [Hk|Hk].
    - by apply (tombs_overlap_ok es (sst_collect t MAX_SEQUENCE_NUMBER) start end_ snap e Hmax (λ x, sst_collect_ok t es _ x Ht) Hno He Hs Hk).
    - apply (Hpts e He); [|done]. split; [done|]. unfold touches_range in Htouch. by destruct (kind e.1). }
  destruct (sst_has_range_tombstones t && _) eqn:Et.
  { exists st, true. split; [done|]. split; [done|]. split; [done|]. intros _. apply andb_true_iff in Et as [_ Et].
    eapply newer_in_sub; [eapply (tombs_overlap_newer es), Et; intros x; by apply sst_collect_ok|intros e He; apply elem_of_app; by left]. }
  assert (tombs_overlap (sst_collect t MAX_SEQUENCE_NUMBER) start end_ snap = false) as Hno.
  { apply andb_false_iff in Et as [Et|?]; [|done]. unfold sst_has_range_tombstones in Et. apply negb_false_iff, Nat.eqb_eq, nil_length_inv in Et.
    unfold sst_collect. by rewrite Et. }
  destruct (table_overlaps t _ _) eqn:Eo; cbn [negb].
  2: { apply Hgo; [done|done|]. intros e He [_ Hr]. pose proof (probes_overlap t es _ _ e Ht Eo He). unfold user_of in *. congruence. }
  destruct (Z.leb_spec (table_max_sequence t) snap) as [Hle|Hgt].
  { apply Hgo; [done|done|]. intros e He _. pose proof (probes_max t es e Ht He). lia. }
  destruct (probes_range t es (Included start) (Excluded end_) st Ht Hdis Hst) as (st1 & out & -> & Hst1 & Hsub & Hall).
  destruct (any_newer out snap) eqn:Ea.
  { exists st1, true. split; [done|]. split; [done|]. split; [done|]. intros _. eapply newer_in_sub; [apply (any_newer_true out); [|done]; intros e He; destruct (Hsub e He) as [_ [?|[_ ?]]]; auto|intros e He; apply elem_of_app; left; by apply Hsub]. } apply Hgo; [done|done|]. intros e He Hw. eapply any_newer_false; [exact Ea|]. by apply Hall.
Qed.

(** The range probe of a database whose memtables iterate completely: it answers, and [false] means that no staged, memtable or table
    write after the snapshot touches the range, [true] that something was written
    there after the snapshot, or a range deletion anywhere. Bulk rows are not
    asked. *)
Lemma range_probe_safe unapplied d levels key bes tes start end_ snap st :
  db_ok d levels key bes tes → below_max (concat (db_layers d levels [] tes)) → Forall (λ m, iterable m start end_) (mem_layers d) →
  bytes_lt start end_ → readable st →
  ∃ st' b, range_has_write_after unapplied d start end_ snap st = (st', Some b) ∧ readable st' ∧
    range_answer start end_ snap ((un_entry <$> unapplied) ++ concat (db_layers d levels [] tes)) b.
Proof using PR.
  intros [Hmem _ Htab Hdis _] Hmax Hit Hlt Hst. unfold db_layers in *. rewrite !concat_app in *. cbn [concat app] in *.
  assert (∀ e, e ∈ concat (lay tes <$> sst_indices_newest_first levels (length (d_ssts d))) ↔ e ∈ concat tes) as Hord
    by (intros e; apply elem_ordered; by eapply Forall2_length).
  unfold range_has_write_after. assert (bytes_leb end_ start = false) as -> by (apply not_true_iff_false; rewrite bytes_leb_spec; tauto).
  destruct (unapplied_range_after _ _ _ _) eqn:Eu.
  { exists st, true. split; [done|]. split; [done|]. split; [done|]. intros _. apply existsb_exists in Eu as (u & Hu%list_elem_of_In & Hc).
    apply andb_true_iff in Hc as [Hs%negb_true_iff%Z.leb_gt Hc]. exists (un_entry u). split; [apply elem_of_app; left; by apply list_elem_of_fmap_2|]. split; [done|].
    unfold touches_range. cbn. destruct (u_kind u); cbn in Hc; [left; exact Hc|left; exact Hc|by right]. }
  destruct (mems_range_after_ok (mem_layers d) start end_ snap) as (b0 & -> & Hb0 & Hn0); [|done|].
  { apply Forall_forall. intros m Hm. split_and!; [by apply (proj1 (Forall_forall _ _) Hmem)| |by apply (proj1 (Forall_forall _ _) Hit)].
    intros e He. apply Hmax, elem_of_app. left. apply elem_of_concat. exists (mem_entries m). split; [by apply list_elem_of_fmap_2|done]. }
  destruct b0; [exists st, true; split; [done|]; split; [done|]; split; [done|]; intros _; eapply newer_in_sub; [by apply Hn0|intros e He; rewrite !elem_of_app; right; by left]|].
  destruct (ssts_range_after_ok (d_ssts d) tes start end_ snap st Htab) as (st' & b & -> & Hst' & Hb & Hn); [|done|done|].
  { apply Forall_forall. intros l Hl e He. apply Hmax, elem_of_app. right. apply Hord, elem_of_concat. by exists l. }
  exists st', b. split; [done|]. split; [done|].
  split; [|intros Eb; eapply newer_in_sub; [by apply Hn|]; intros e He; rewrite !elem_of_app; right; right; by apply Hord].
  intros Eb (e & [He|[He|He]%elem_of_app]%elem_of_app & Hs & Htouch).
  - apply list_elem_of_fmap in He as (u & -> & Hu). apply not_true_iff_false in Eu. apply Eu, existsb_exists. exists u. split; [by apply list_elem_of_In|].
    unfold touches_range in Htouch. cbn in *. rewrite (proj2 (Z.leb_gt _ _) Hs). cbn. destruct (u_kind u); cbn.
    + apply andb_true_iff in Htouch as [H1 H2]. by rewrite H1, H2.
    + apply andb_true_iff in Htouch as [H1 H2]. by rewrite H1, H2.
    + destruct Htouch as [H1 H2]. by rewrite (proj2 (bytes_ltb_spec _ _) H1), (proj2 (bytes_ltb_spec _ _) H2).
  - apply (Hb0 eq_refl). by exists e.
  - apply (Hb Eb). exists e. split; [by apply Hord|done].
Qed.
End range_probe.

(** ** Where the range probe is blind *)

Definition bulk_only_run : BulkRun := push run_default [x62] [x31] 5.

(** The range probe does not ask the bulk runs. A put that went into a bulk
    run after the snapshot is a conflict for its key, but the probe of a range
    around the key answers that nothing was written: an optimistic range
    deletion is accepted over it. *)
Theorem range_probe_misses_bulk (T St : Type) `{SR : SstReader T St, SP : !SstProber T St} (st : St) :
  let d : Db T := mkDb mem_new None None [] [] mem_new [] {[ DEFAULT := bulk_only_run ]} [] [] [] [] in
  range_has_write_after [] d [x61] [x63] 1 st = (st, Some false) ∧ key_has_write_after [] d [x62] 1 st = (st, Some true).
Proof. split; vm_compute; reflexivity. Qed.

(** An empty range deletion, which the write group admits, stands before the put
    at its start key in the memtable's order: the newest point is not found, and
    the probe misses the put. *)
Theorem empty_range_hides_write (T St : Type) `{SR : SstReader T St, SP : !SstProber T St} (st : St) :
  let m := insert (put mem_new [x61] 6 [x31]) (mkIKey [x61] 7 RangeDeletion) [x61] in
  let d : Db T := mkDb m None None [] [] mem_new [] ∅ [] [] [] [] in
  (mkIKey [x61] 6 Value, [x31]) ∈ mem_entries m ∧ key_has_write_after [] d [x61] 5 st = (st, Some false).
Proof.
  split; [|vm_compute; reflexivity]. apply (bool_decide_unpack _). vm_compute. exact I.
Qed.
