(* ===== verification/PointCache.v ===== *)
(** The cache of latest point answers ([cache_kernel.rs]: [AnswerCache],
    [PointCache]) and the protocol that keeps it current ([db_kernel.rs]:
    [note_dirty_points], [invalidate_read_answers], [publish_sequence],
    [get_after_point_miss], the cached branch of [get_at]; [lookup_kernel.rs]:
    [point_cache_validity]).

    A reader that holds no lock checks the published sequence before and after
    its probe. The protocol is a step relation in which such a reader may look at
    any moment, also inside a publication: [double_check_sound] shows that what
    it accepts is the value at its snapshot, as long as fills and publications
    exclude each other, which the database's lock does when the publisher holds
    it for writing. [fill_inside_publish_is_stale] shows what the publisher that
    holds it for reading risks. *)

From S2P Require Import Prelude KeyKernel BatchKernel Visibility DbLookup OccProbe.

Local Open Scope Z_scope.

(** * [FxHasher] *)

Definition FX_SEED : Z := 0x517cc1b727220a95.
Definition u64 (z : Z) : Z := z mod 2 ^ 64.
Definition rotate_left5 (h : Z) : Z := Z.lor (u64 (Z.shiftl h 5)) (Z.shiftr h 59).
Definition fx_combine (h word : Z) : Z := u64 (Z.lxor (rotate_left5 h) word * FX_SEED).

Fixpoint fx_write_bytes (h : Z) (l : list byte) : Z :=
  match l with [] => h | b :: l => fx_write_bytes (fx_combine h (b2Z b)) l end.

(** Eight bytes at a time, then four, then one. *)
Fixpoint fx_write (h : Z) (l : list byte) : Z :=
  match l with
  | b0 :: b1 :: b2 :: b3 :: b4 :: b5 :: b6 :: b7 :: rest => fx_write (fx_combine h (from_le [b0; b1; b2; b3; b4; b5; b6; b7])) rest
  | b0 :: b1 :: b2 :: b3 :: rest => fx_write_bytes (fx_combine h (from_le [b0; b1; b2; b3])) rest
  | _ => fx_write_bytes h l
  end.

(** * [AnswerCache] *)

Definition ANSWER_CACHE_SHARDS : nat := 16.

Record Shard (V : Type) := mkShard {
  sh_map : gmap (list byte) (Z * Z * V);
  sh_order : list (list byte * Z);
  sh_capacity : nat;
  sh_gen : Z;
  sh_epoch : Z
}.
Arguments mkShard {V} _ _ _ _ _.
Arguments sh_map {V} _.
Arguments sh_order {V} _.
Arguments sh_capacity {V} _.
Arguments sh_gen {V} _.
Arguments sh_epoch {V} _.

(** Sixteen shards and their frozen flags. *)
Record AnswerCache (V : Type) := mkCache { ac_shards : list (Shard V); ac_frozen : list bool }.
Arguments mkCache {V} _ _.
Arguments ac_shards {V} _.
Arguments ac_frozen {V} _.

Section cache.
Context {V : Type}.

Definition cache_new (capacity : nat) : AnswerCache V :=
  let per_shard := if (capacity =? 0)%nat then 0%nat else Nat.max (capacity / ANSWER_CACHE_SHARDS) 1 in
  mkCache (replicate ANSWER_CACHE_SHARDS (mkShard ∅ [] per_shard 0 0)) (replicate ANSWER_CACHE_SHARDS false).

Definition shard_index (key : list byte) : nat := Z.to_nat (fx_write 0 key mod Z.of_nat ANSWER_CACHE_SHARDS).

(** [shard_index] is below the number of shards: the default is never used. *)
Definition shard (c : AnswerCache V) (i : nat) : Shard V := default (mkShard ∅ [] 0 0 0) (ac_shards c !! i).
Definition frozen (c : AnswerCache V) (i : nat) : bool := default false (ac_frozen c !! i).

Definition cache_get (c : AnswerCache V) (key : list byte) : option V :=
  let g := shard c (shard_index key) in
  if (sh_capacity g =? 0)%nat then None
  else match sh_map g !! key with
       | Some (gen, _, v) => if gen =? sh_gen g then Some v else None
       | None => None
       end.

Definition cache_insert (c : AnswerCache V) (key : list byte) (value : V) : AnswerCache V :=
  let idx := shard_index key in
  if frozen c idx then c
  else
    let g := shard c idx in
    if (sh_capacity g =? 0)%nat then c
    else
      match sh_map g !! key with
      | Some (_, epoch, _) =>
          mkCache (<[idx := mkShard (<[key := (sh_gen g, epoch, value)]> (sh_map g)) (sh_order g) (sh_capacity g) (sh_gen g) (sh_epoch g)]> (ac_shards c)) (ac_frozen c)
      | None =>
          if (sh_capacity g <=? size (sh_map g))%nat then mkCache (ac_shards c) (<[idx := true]> (ac_frozen c))
          else
            mkCache (<[idx := mkShard (<[key := (sh_gen g, sh_epoch g, value)]> (sh_map g)) (sh_order g ++ [(key, sh_epoch g)])
                                      (sh_capacity g) (sh_gen g) (u64 (sh_epoch g + 1))]> (ac_shards c)) (ac_frozen c)
      end.

(** A bumped generation makes every entry miss; the map is walked only when
    the generation wraps. *)
Definition clear_shard (g : Shard V) : Shard V :=
  let gen := u64 (sh_gen g + 1) in
  if gen =? 0 then mkShard ∅ [] (sh_capacity g) 1 (sh_epoch g)
  else mkShard (sh_map g) (sh_order g) (sh_capacity g) gen (sh_epoch g).
Definition cache_clear (c : AnswerCache V) : AnswerCache V :=
  mkCache (clear_shard <$> ac_shards c) ((λ _, false) <$> ac_frozen c).

Definition drop_key (g : Shard V) (key : list byte) : Shard V :=
  mkShard (delete key (sh_map g)) (sh_order g) (sh_capacity g) (sh_gen g) (sh_epoch g).

Definition invalidate_many (c : AnswerCache V) (keys : list (list byte)) : AnswerCache V :=
  mkCache (imap (λ idx g, foldl drop_key g (filter (λ k, shard_index k = idx) keys)) (ac_shards c))
          (foldl (λ f k, <[shard_index k := false]> f) (ac_frozen c) keys).

Definition cache_is_empty (c : AnswerCache V) : bool := forallb (λ g, (size (sh_map g) =? 0)%nat) (ac_shards c).

(** ** Laws *)

(** No entry carries a generation of the future. *)
Definition shard_ok (g : Shard V) : Prop :=
  0 ≤ sh_gen g < 2 ^ 64 ∧ ∀ k gen ep v, sh_map g !! k = Some (gen, ep, v) → gen ≤ sh_gen g.
Record cache_ok (c : AnswerCache V) : Prop := {
  ck_length : length (ac_shards c) = ANSWER_CACHE_SHARDS;
  ck_shards : Forall shard_ok (ac_shards c)
}.

Lemma shard_index_lt key : (shard_index key < ANSWER_CACHE_SHARDS)%nat.
Proof. unfold shard_index, ANSWER_CACHE_SHARDS. pose proof (Z.mod_pos_bound (fx_write 0 key) 16). lia. Qed.

Lemma cache_new_ok capacity : cache_ok (cache_new capacity).
Proof. split; [done|]. apply Forall_replicate. split; [done|]. intros k gen ep v H. cbn in H. by rewrite lookup_empty in H. Qed.

Lemma shard_lookup c key : cache_ok c → ac_shards c !! shard_index key = Some (shard c (shard_index key)).
Proof.
  intros [Hl _]. unfold shard. destruct (ac_shards c !! shard_index key) eqn:E; [done|]. apply lookup_ge_None in E. pose proof (shard_index_lt key). lia.
Qed.

Lemma shard_at c key : cache_ok c → shard_ok (shard c (shard_index key)).
Proof. intros Hc. by apply (Forall_lookup_1 _ _ _ _ (ck_shards c Hc) (shard_lookup c key Hc)). Qed.

(** Replacing a shard. *)
Lemma set_shard_ok c i g fr : cache_ok c → shard_ok g → cache_ok (mkCache (<[i := g]> (ac_shards c)) fr).
Proof. intros [Hl Hs] Hg. split; cbn; [by rewrite length_insert|by apply Forall_insert]. Qed.

Lemma get_other_shard c i g fr key : shard_index key ≠ i → cache_get (mkCache (<[i := g]> (ac_shards c)) fr) key = cache_get c key.
Proof. intros Hne. unfold cache_get, shard. cbn [ac_shards]. by rewrite list_lookup_insert_ne. Qed.

Lemma get_same_shard c key k' g fr : cache_ok c → shard_index k' = shard_index key →
  shard (mkCache (<[shard_index key := g]> (ac_shards c)) fr) (shard_index k') = g.
Proof. intros Hc ->. unfold shard. cbn [ac_shards]. rewrite list_lookup_insert_eq; [done|]. eapply lookup_lt_Some, shard_lookup, Hc. Qed.

(** An entry of the current generation put into a shard. *)
Lemma cache_store_ok c key value order epoch cap_epoch fr : cache_ok c →
  let idx := shard_index key in let g := shard c idx in
  let c' := mkCache (<[idx := mkShard (<[key := (sh_gen g, epoch, value)]> (sh_map g)) order (sh_capacity g) (sh_gen g) cap_epoch]> (ac_shards c)) fr in
  cache_ok c' ∧ (∀ k' v', cache_get c' k' = Some v' → (k' = key ∧ v' = value) ∨ cache_get c k' = Some v') ∧
  (sh_capacity g ≠ 0%nat → cache_get c' key = Some value).
Proof.
  intros Hc idx g c'. subst c' idx. destruct (shard_at c key Hc) as [Hg He]. split_and!.
  - apply set_shard_ok; [done|]. split; [done|]. cbn. intros k gen ep v [[<- [= <- _ _]]|[_ H]]%lookup_insert_Some; [done|by apply (He k gen ep v)].
  - intros k' v'. destruct (decide (shard_index k' = shard_index key)) as [Ei|Hne]; [|intros H; right; by rewrite get_other_shard in H].
    unfold cache_get at 1. rewrite get_same_shard by done. cbn [sh_capacity sh_map sh_gen]. unfold cache_get. rewrite Ei. fold g.
    destruct (sh_capacity g =? 0)%nat; [done|]. destruct (decide (k' = key)) as [->|Hk].
    + rewrite lookup_insert_eq, Z.eqb_refl. intros [= ->]. by left.
    + rewrite lookup_insert_ne by done. by right.
  - intros Hcap. unfold cache_get. rewrite get_same_shard by done. cbn. rewrite (proj2 (Nat.eqb_neq _ _) Hcap), lookup_insert_eq. by rewrite Z.eqb_refl.
Qed.

(** An insertion adds its own answer, or nothing. *)
Lemma insert_get c key value : cache_ok c →
  cache_ok (cache_insert c key value) ∧
  ∀ k' v', cache_get (cache_insert c key value) k' = Some v' → (k' = key ∧ v' = value) ∨ cache_get c k' = Some v'.
Proof.
  intros Hc. unfold cache_insert. destruct (frozen _ _); [auto|]. destruct (sh_capacity _ =? 0)%nat; [auto|].
  destruct (sh_map _ !! key) as [[[gen ep] v]|]; [|destruct (_ <=? _)%nat].
  - edestruct (cache_store_ok c key value) as (H1 & H2 & _); [done|]. split; [exact H1|exact H2].
  - split; [|by right]. by destruct Hc.
  - edestruct (cache_store_ok c key value) as (H1 & H2 & _); [done|]. split; [exact H1|exact H2].
Qed.

Lemma clear_shard_ok g : shard_ok g → shard_ok (clear_shard g) ∧ ∀ k gen ep v, sh_map (clear_shard g) !! k = Some (gen, ep, v) → gen ≠ sh_gen (clear_shard g).
Proof.
  intros [Hg He]. unfold clear_shard, u64. destruct (Z.eqb_spec ((sh_gen g + 1) mod 2 ^ 64) 0) as [E|E].
  - split; [split; [done|]|]; intros k gen ep v H; cbn in H; by rewrite lookup_empty in H.
  - assert (sh_gen g + 1 < 2 ^ 64) as Hlt.
    { destruct (decide (sh_gen g + 1 = 2 ^ 64)) as [E'|]; [|lia]. by rewrite E', Z_mod_same_full in E. }
    rewrite Z.mod_small in * by lia. split; [split; cbn; [lia|]|]; cbn; intros k gen ep v H; specialize (He k gen ep v H); lia.
Qed.

Lemma clear_get c : cache_ok c → cache_ok (cache_clear c) ∧ ∀ k, cache_get (cache_clear c) k = None.
Proof.
  intros Hc. pose proof Hc as [Hl Hs]. split.
  - split; cbn; [by rewrite length_fmap|]. apply Forall_fmap. eapply Forall_impl; [exact Hs|]. intros g Hg. by apply clear_shard_ok.
  - intros k. assert (shard (cache_clear c) (shard_index k) = clear_shard (shard c (shard_index k))) as Es.
    { unfold shard at 1. cbn [cache_clear ac_shards]. by rewrite list_lookup_fmap, (shard_lookup c k Hc). }
    unfold cache_get. rewrite Es. destruct (sh_capacity _ =? 0)%nat; [done|]. destruct (sh_map _ !! k) as [[[gen ep] v]|] eqn:E; [|done].
    by rewrite (proj2 (Z.eqb_neq _ _) (proj2 (clear_shard_ok _ (shard_at c k Hc)) k gen ep v E)).
Qed.

Lemma drop_keys g keys : shard_ok g →
  shard_ok (foldl drop_key g keys) ∧ sh_gen (foldl drop_key g keys) = sh_gen g ∧ sh_capacity (foldl drop_key g keys) = sh_capacity g ∧
  ∀ k x, sh_map (foldl drop_key g keys) !! k = Some x → k ∉ keys ∧ sh_map g !! k = Some x.
Proof.
  revert g. induction keys as [|k0 keys IH]; intros g Hg; cbn [foldl]; [split_and!; try done; intros k x Hx; split; [by apply not_elem_of_nil|done]|].
  destruct (IH (drop_key g k0)) as (H1 & H2 & H3 & H4).
  { destruct Hg as [Hg He]. split; [done|]. cbn. intros k gen ep v [_ H]%lookup_delete_Some. by apply (He k gen ep v). }
  split_and!; [done|done|done|]. intros k x Hx. destruct (H4 k x Hx) as [Hn H]. cbn in H. apply lookup_delete_Some in H as [Hne H]. split; [|done].
  rewrite not_elem_of_cons. by split; [intros ->|].
Qed.

Lemma invalidate_get c keys : cache_ok c →
  cache_ok (invalidate_many c keys) ∧ ∀ k v, cache_get (invalidate_many c keys) k = Some v → k ∉ keys ∧ cache_get c k = Some v.
Proof.
  intros Hc. pose proof Hc as [Hl Hs]. split.
  - split; cbn; [by rewrite length_imap|]. apply Forall_lookup. intros i g. rewrite list_lookup_imap. destruct (ac_shards c !! i) as [g0|] eqn:E; [|done].
    cbn. intros [= <-]. by apply drop_keys, (Forall_lookup_1 _ _ _ _ Hs E).
  - intros k v. assert (shard (invalidate_many c keys) (shard_index k) =
      foldl drop_key (shard c (shard_index k)) (filter (λ k', shard_index k' = shard_index k) keys)) as Es.
    { unfold shard at 1. cbn [invalidate_many ac_shards]. by rewrite list_lookup_imap, (shard_lookup c k Hc). }
    unfold cache_get at 1. rewrite Es.
    destruct (drop_keys (shard c (shard_index k)) (filter (λ k', shard_index k' = shard_index k) keys) (shard_at c k Hc)) as (_ & Eg & Ec & Hk).
    rewrite Eg, Ec. unfold cache_get. destruct (sh_capacity _ =? 0)%nat; [done|]. destruct (sh_map (foldl _ _ _) !! k) as [[[gen ep] x]|] eqn:E; [|done].
    destruct (Hk k _ E) as [Hn ->]. intros H. split; [|done]. intros Hin. apply Hn, list_elem_of_filter. by split.
Qed.

Lemma empty_get c k : cache_ok c → cache_is_empty c = true → cache_get c k = None.
Proof.
  intros Hc He. unfold cache_is_empty in He. rewrite forallb_forall in He. unfold cache_get.
  specialize (He _ (proj1 (list_elem_of_In _ _) (list_elem_of_lookup_2 _ _ _ (shard_lookup c k Hc)))). apply Nat.eqb_eq, map_size_empty_iff in He.
  destruct (sh_capacity _ =? 0)%nat; [done|]. rewrite He. by rewrite lookup_empty.
Qed.
End cache.

(** * The protocol *)

(** The answers, the keys written since the last publication, and the published
    sequence; the count cache and the epochs of thread-local answers, which the
    same calls reset, are left out. *)
Record ReadCaches := mkRC { rc_cache : AnswerCache (option (list byte)); rc_dirty : list (list byte); rc_reset : bool; rc_published : Z }.

(** The writes are the entries they leave; [count_empty] says whether the count
    cache is empty. *)
Definition note_dirty_points (s : ReadCaches) (count_empty : bool) (ops : list entry) : ReadCaches :=
  if (32 <=? length ops)%nat || existsb (λ e : entry, bool_decide (kind e.1 = RangeDeletion)) ops
  then mkRC (rc_cache s) [] true (rc_published s)
  else if negb (length ops =? 1)%nat && cache_is_empty (rc_cache s) && count_empty then s
  else mkRC (rc_cache s) (rc_dirty s ++ ((λ e : entry, user_key e.1) <$> ops)) (rc_reset s) (rc_published s).

Definition invalidate_read_answers (s : ReadCaches) : ReadCaches :=
  let keys := rc_dirty s in
  let c := if rc_reset s || (32 <? length keys)%nat || (length keys =? 0)%nat then cache_clear (rc_cache s) else invalidate_many (rc_cache s) keys in
  mkRC c [] false (rc_published s).

(** The compare-and-exchange loop of [publish_sequence], after it invalidated:
    the published sequence only grows. *)
Definition publish_cas (seq : Z) (s : ReadCaches) : ReadCaches :=
  mkRC (rc_cache s) (rc_dirty s) (rc_reset s) (if rc_published s <? seq then seq else rc_published s).

Inductive PointCachePlan := CacheCurrent | PublishAdvanced.
Definition point_cache_validity (published_seq answer_seq : Z) : PointCachePlan :=
  if published_seq =? answer_seq then CacheCurrent else PublishAdvanced.

(** The end of [get_after_point_miss]: [got] was looked up at [snap]. *)
Definition fill (snap : Z) (key : list byte) (got : option (list byte)) (s : ReadCaches) : ReadCaches :=
  match point_cache_validity (rc_published s) snap with
  | CacheCurrent => mkRC (cache_insert (rc_cache s) key got) (rc_dirty s) (rc_reset s) (rc_published s)
  | PublishAdvanced => s
  end.

(** What a reader without the lock loads, in this order: the published
    sequence, the cached answer, the published sequence. *)
Record CacheLook := mkLook { cl_before : Z; cl_hit : option (option (list byte)); cl_after : Z }.

(** The cached branch of [get_at]. *)
Definition double_checked (snap : Z) (l : CacheLook) : option (option (list byte)) :=
  match point_cache_validity (cl_before l) snap with
  | CacheCurrent =>
      match cl_hit l with
      | Some v => match point_cache_validity (cl_after l) snap with CacheCurrent => Some v | PublishAdvanced => None end
      | None => None
      end
  | PublishAdvanced => None
  end.

(** ** Steps *)

Inductive Phase := Free | Applied (top : Z) | Invalidated (top : Z).
Record Sys := mkSys { sy_hist : list entry; sy_rc : ReadCaches; sy_phase : Phase }.

(** The lookup's answer. *)
Definition answers (H : list entry) (snap : Z) (key : list byte) (got : option (list byte)) : Prop := ∀ v, got = Some v ↔ reads H snap key v.

(** A writer applies its batches, drops the answers they touch and publishes;
    [exclusive] says that it holds the database's lock for writing, so that no
    reader fills the cache meanwhile. A reader's lookup and fill happen under
    the lock held for reading. *)
Inductive cstep (exclusive : bool) : Sys → Sys → Prop :=
| cs_fill σ key got :
    (exclusive = true → sy_phase σ = Free) → answers (sy_hist σ) (rc_published (sy_rc σ)) key got →
    cstep exclusive σ (mkSys (sy_hist σ) (fill (rc_published (sy_rc σ)) key got (sy_rc σ)) (sy_phase σ))
| cs_apply σ (batches : list (bool * list entry)) top :
    sy_phase σ = Free → Forall (λ e : entry, rc_published (sy_rc σ) < sequence e.1 ≤ top) (concat batches.*2) →
    cstep exclusive σ (mkSys (sy_hist σ ++ concat batches.*2) (foldl (λ s b, note_dirty_points s b.1 b.2) (sy_rc σ) batches) (Applied top))
| cs_invalidate σ top : sy_phase σ = Applied top → cstep exclusive σ (mkSys (sy_hist σ) (invalidate_read_answers (sy_rc σ)) (Invalidated top))
| cs_cas σ top : sy_phase σ = Invalidated top → cstep exclusive σ (mkSys (sy_hist σ) (publish_cas top (sy_rc σ)) Free)
| cs_evict σ :
    cstep exclusive σ (mkSys (sy_hist σ) (mkRC (cache_clear (rc_cache (sy_rc σ))) (rc_dirty (sy_rc σ)) (rc_reset (sy_rc σ)) (rc_published (sy_rc σ))) (sy_phase σ)).

(** A database just opened. *)
Definition opened (capacity : nat) (H : list entry) (published : Z) : Sys := mkSys H (mkRC (cache_new capacity) [] false published) Free.

(** ** The invariant *)

Record current (σ : Sys) : Prop := {
  cu_ok : cache_ok (rc_cache (sy_rc σ));
  cu_hist e : e ∈ sy_hist σ → sequence e.1 ≤ match sy_phase σ with Free => rc_published (sy_rc σ) | Applied top | Invalidated top => Z.max (rc_published (sy_rc σ)) top end;
  cu_hits k v : cache_get (rc_cache (sy_rc σ)) k = Some v → answers (sy_hist σ) (rc_published (sy_rc σ)) k v;
  cu_notes : match sy_phase σ with
    | Applied _ => ∀ k v, cache_get (rc_cache (sy_rc σ)) k = Some v →
        rc_reset (sy_rc σ) = true ∨ rc_dirty (sy_rc σ) = [] ∨ k ∈ rc_dirty (sy_rc σ) ∨ ¬ written_after k (rc_published (sy_rc σ)) (sy_hist σ)
    | Free => rc_dirty (sy_rc σ) = [] ∧ rc_reset (sy_rc σ) = false
    | Invalidated _ => (rc_dirty (sy_rc σ) = [] ∧ rc_reset (sy_rc σ) = false) ∧
        ∀ k v, cache_get (rc_cache (sy_rc σ)) k = Some v → ¬ written_after k (rc_published (sy_rc σ)) (sy_hist σ)
    end
}.

Lemma opened_current capacity H p : (∀ e, e ∈ H → sequence e.1 ≤ p) → current (opened capacity H p).
Proof.
  intros Hp. split; [apply cache_new_ok|done| |done]. intros k v Hg. cbn in Hg. rewrite empty_get in Hg; [done|apply cache_new_ok|done].
Qed.

Lemma answers_above H W snap k got : (∀ e, e ∈ W → snap < sequence e.1) → answers (H ++ W) snap k got ↔ answers H snap k got.
Proof.
  intros HW. assert (∀ v, reads (H ++ W) snap k v ↔ reads H snap k v) as Hr; [|unfold answers; by setoid_rewrite Hr].
  assert (∀ e, sequence e.1 ≤ snap → e ∈ H ++ W ↔ e ∈ H) as Hin.
  { intros e He. rewrite elem_of_app. split; [|by left]. intros [?|Hw%HW]; [done|lia]. }
  assert (∀ e, candidate (H ++ W) snap k e ↔ candidate H snap k e) as Hc.
  { intros e. unfold candidate. split; intros (H1 & H2 & H3 & H4); by rewrite (Hin e H4) in *. }
  intros v. unfold reads. setoid_rewrite Hc. apply exist_proper. intros e. unfold hidden.
  assert ((∃ rk rv, (rk, rv) ∈ H ++ W ∧ kind rk = RangeDeletion ∧ sequence rk ≤ snap ∧ sequence e.1 < sequence rk ∧ range_tombstone_covers (user_key rk) rv k = true) ↔
          (∃ rk rv, (rk, rv) ∈ H ∧ kind rk = RangeDeletion ∧ sequence rk ≤ snap ∧ sequence e.1 < sequence rk ∧ range_tombstone_covers (user_key rk) rv k = true)) as ->; [|done].
  split; intros (rk & rv & Hi & H2 & H3 & H4); exists rk, rv; by rewrite (Hin (rk, rv) H3) in *.
Qed.

(** After its batches, the writer knows every key it wrote, or clears. *)
Lemma notes_ok batches s E :
  rc_reset s = true ∨ cache_is_empty (rc_cache s) = true ∨ Forall (λ e : entry, kind e.1 ≠ RangeDeletion ∧ user_key e.1 ∈ rc_dirty s) E →
  let s' := foldl (λ s b, note_dirty_points s b.1 b.2) s batches in
  rc_cache s' = rc_cache s ∧ rc_published s' = rc_published s ∧
  (rc_reset s' = true ∨ cache_is_empty (rc_cache s) = true ∨ Forall (λ e : entry, kind e.1 ≠ RangeDeletion ∧ user_key e.1 ∈ rc_dirty s') (E ++ concat batches.*2)).
Proof.
  revert s E. induction batches as [|[ce ops] batches IH]; intros s E HE; [by rewrite app_nil_r|]. cbn [foldl fmap list_fmap concat fst snd].
  assert (rc_cache (note_dirty_points s ce ops) = rc_cache s ∧ rc_published (note_dirty_points s ce ops) = rc_published s) as [Ec Ep].
  { unfold note_dirty_points. by repeat case_match. }
  specialize (IH (note_dirty_points s ce ops) (E ++ ops)). rewrite <-Ec, <-Ep, app_assoc. apply IH. clear IH. rewrite Ec. unfold note_dirty_points.
  destruct (_ || _) eqn:Ef; [by left|]. destruct (negb _ && _ && _) eqn:Ee.
  { right; left. apply andb_true_iff in Ee as [[_ Ee]%andb_true_iff _]. done. }
  cbn. destruct HE as [?|[?|HE]]; [by left|by right; left|]. right; right. apply Forall_app. split.
  - eapply Forall_impl; [exact HE|]. intros e [? ?]. split; [done|]. apply elem_of_app. by left.
  - apply orb_false_iff in Ef as [_ Ef]. apply Forall_forall. intros e He. split.
    + intros Hk. apply not_true_iff_false in Ef. apply Ef, existsb_exists. exists e. split; [by apply list_elem_of_In|by apply bool_decide_eq_true].
    + apply elem_of_app. right. by apply (list_elem_of_fmap_2 (λ e : entry, user_key e.1)).
Qed.

Lemma fill_current σ key got : sy_phase σ = Free → answers (sy_hist σ) (rc_published (sy_rc σ)) key got → current σ →
  current (mkSys (sy_hist σ) (fill (rc_published (sy_rc σ)) key got (sy_rc σ)) (sy_phase σ)).
Proof.
  intros Hph Hans [Hok Hh Hhits Hn]. unfold fill, point_cache_validity. rewrite Z.eqb_refl. rewrite Hph in *. destruct (insert_get (rc_cache (sy_rc σ)) key got Hok) as [Hok' Hget].
  split; cbn; [done|done| |done]. intros k v [[-> ->]|Hg]%Hget; [done|by apply Hhits].
Qed.

Lemma apply_current σ (batches : list (bool * list entry)) top :
  sy_phase σ = Free → Forall (λ e : entry, rc_published (sy_rc σ) < sequence e.1 ≤ top) (concat batches.*2) → current σ →
  current (mkSys (sy_hist σ ++ concat batches.*2) (foldl (λ s b, note_dirty_points s b.1 b.2) (sy_rc σ) batches) (Applied top)).
Proof.
  intros Hph HW [Hok Hh Hhits Hn]. rewrite Hph in *. rewrite Forall_forall in HW.
  destruct (notes_ok batches (sy_rc σ) [] (or_intror (or_intror (Forall_nil_2 _)))) as (Ec & Ep & Hd). split; cbn.
  - by rewrite Ec.
  - rewrite Ep. intros e [He|He]%elem_of_app; [specialize (Hh e He)|specialize (HW e He)]; lia.
  - rewrite Ec, Ep. intros k v Hg. apply answers_above; [|by apply Hhits]. intros e He. by apply HW.
  - rewrite Ec, Ep. intros k v Hg. destruct Hd as [?|[He|Hd]]; [by left| |].
    + by rewrite empty_get in Hg.
    + destruct (decide (k ∈ rc_dirty (foldl (λ s b, note_dirty_points s b.1 b.2) (sy_rc σ) batches))) as [|Hk]; [auto|]. do 3 right. intros (e & [He|He]%elem_of_app & Hs & Hc).
      * specialize (Hh e He). lia.
      * apply Hk. cbn in Hd. rewrite Forall_forall in Hd. destruct (Hd e He) as [Hkd Hin]. unfold covers_key, write_op_covers_key in Hc.
        destruct (kind e.1); try done; by apply bytes_eqb_spec in Hc as <-.
Qed.

Lemma invalidate_current σ top : sy_phase σ = Applied top → current σ →
  current (mkSys (sy_hist σ) (invalidate_read_answers (sy_rc σ)) (Invalidated top)).
Proof.
  intros Hph [Hok Hh Hhits Hn]. rewrite Hph in *. unfold invalidate_read_answers.
  destruct (rc_reset (sy_rc σ) || (32 <? length (rc_dirty (sy_rc σ)))%nat || (length (rc_dirty (sy_rc σ)) =? 0)%nat) eqn:E.
  - destruct (clear_get (rc_cache (sy_rc σ)) Hok) as [Hok' Hno]. split; cbn; [done|done|..].
    + intros k v Hg. by rewrite Hno in Hg.
    + split; [done|]. intros k v Hg. by rewrite Hno in Hg.
  - destruct (invalidate_get (rc_cache (sy_rc σ)) (rc_dirty (sy_rc σ)) Hok) as [Hok' Hsub]. split; cbn; [done|done|..].
    + intros k v [_ Hg]%Hsub. by apply Hhits.
    + split; [done|]. intros k v [Hnk Hg]%Hsub. destruct (Hn k v Hg) as [Hr|[Hr|[Hr|Hr]]]; [| |done|done]; rewrite Hr in E; cbn in E; by rewrite ?orb_true_r in E.
Qed.

Lemma cas_current σ top : sy_phase σ = Invalidated top → current σ → current (mkSys (sy_hist σ) (publish_cas top (sy_rc σ)) Free).
Proof.
  intros Hph [Hok Hh Hhits Hn]. rewrite Hph in *. destruct Hn as [Hd Hn].
  assert (rc_published (publish_cas top (sy_rc σ)) = Z.max (rc_published (sy_rc σ)) top) as Ep by (cbn; case_match; lia).
  split; cbn [sy_rc sy_phase sy_hist]; [done|by rewrite Ep| |done]. rewrite Ep. intros k v Hg w. rewrite <-(app_nil_r (sy_hist σ)).
  rewrite (reads_unmoved (sy_hist σ) [] (rc_published (sy_rc σ))); [by apply (Hhits k v Hg)|by apply (Hn k v)|by intros e ?%not_elem_of_nil|done|lia].
Qed.

Lemma step_current σ σ' : cstep true σ σ' → current σ → current σ'.
Proof.
  intros [? ? ? Hph|?|? ?|? ?|?] Hc; [by apply fill_current; [apply Hph|..]|by apply apply_current|by eapply invalidate_current|by eapply cas_current|].
  destruct Hc as [Hok Hh Hhits Hn]. destruct (clear_get (rc_cache (sy_rc σ0)) Hok) as [Hok' Hno]. split; cbn; [done|done|intros k v Hg; by rewrite Hno in Hg|].
  destruct (sy_phase σ0); [done|intros k v Hg; by rewrite Hno in Hg|]. destruct Hn as [Hd _]. split; [done|]. intros k v Hg. by rewrite Hno in Hg.
Qed.

(** The published sequence grows, and the history only above it. *)
Definition grows (σ σ' : Sys) : Prop :=
  rc_published (sy_rc σ) ≤ rc_published (sy_rc σ') ∧
  ∃ W, sy_hist σ' = sy_hist σ ++ W ∧ ∀ e, e ∈ W → rc_published (sy_rc σ) < sequence e.1.

#[global] Instance grows_preorder : PreOrder grows.
Proof.
  split; [intros σ; split; [done|]; exists []; rewrite app_nil_r; split; [done|by intros e ?%not_elem_of_nil]|].
  intros a b c [H1 (W1 & E1 & HW1)] [H2 (W2 & E2 & HW2)]. split; [lia|]. exists (W1 ++ W2). rewrite E2, E1, app_assoc. split; [done|].
  intros e [He|He]%elem_of_app; [by apply HW1|]. specialize (HW2 e He). lia.
Qed.

Lemma step_grows exclusive σ σ' : cstep exclusive σ σ' → grows σ σ'.
Proof.
  assert (∀ σ rc ph, rc_published (sy_rc σ) ≤ rc_published rc → grows σ (mkSys (sy_hist σ) rc ph)) as Hsame.
  { intros σ0 rc ph Hle. split; [done|]. exists []. cbn. rewrite app_nil_r. split; [done|by intros e ?%not_elem_of_nil]. }
  intros [σ0 key got _ _|σ0 batches top Hph HW|σ0 top _|σ0 top _|σ0]; try (apply Hsame; cbn; done).
  - apply Hsame. unfold fill, point_cache_validity. by rewrite Z.eqb_refl.
  - destruct (notes_ok batches (sy_rc σ0) [] (or_intror (or_intror (Forall_nil_2 _)))) as (_ & Ep & _). split; cbn; [by rewrite Ep|].
    eexists. split; [done|]. intros e He. rewrite Forall_forall in HW. by apply HW.
  - apply Hsame. cbn. case_match; lia.
Qed.

Lemma run_grows exclusive σ σ' : rtc (cstep exclusive) σ σ' → grows σ σ'.
Proof. induction 1 as [|a b c Hs _ IH]; [done|]. etrans; [by eapply step_grows|done]. Qed.

Lemma run_current σ σ' : rtc (cstep true) σ σ' → current σ → current σ'.
Proof. induction 1 as [|a b c Hs _ IH]; [done|]. intros Hc. by eapply IH, step_current. Qed.

(** C11: a cached answer is the current one. Let fills, write groups, their
    publications and evictions follow one another in any order from an opened
    database, each publisher holding the database's lock for writing, and let a
    reader that holds no lock load the published sequence, the cache and the
    published sequence again at any three moments, also inside a publication.
    Every answer in the cache is at every moment the visible value, or absence,
    at the published sequence; and when both loads equal the reader's snapshot,
    the answer it accepts is the value at its snapshot, in the history as it was
    before the loads and as it is after them. *)
Theorem double_check_sound capacity H p σ1 σ2 σ3 snap key v :
  (∀ e, e ∈ H → sequence e.1 ≤ p) →
  rtc (cstep true) (opened capacity H p) σ1 → rtc (cstep true) σ1 σ2 → rtc (cstep true) σ2 σ3 →
  (∀ k w, cache_get (rc_cache (sy_rc σ1)) k = Some w → answers (sy_hist σ1) (rc_published (sy_rc σ1)) k w) ∧
  (double_checked snap (mkLook (rc_published (sy_rc σ1)) (cache_get (rc_cache (sy_rc σ2)) key) (rc_published (sy_rc σ3))) = Some v →
   answers (sy_hist σ1) snap key v ∧ answers (sy_hist σ3) snap key v).
Proof.
  intros Hp H1 H2 H3. pose proof (run_current _ _ H1 (opened_current capacity H p Hp)) as Hc1. pose proof (run_current _ _ H2 Hc1) as Hc2. split; [apply Hc1|].
  destruct (run_grows _ _ _ H2) as [Hle1 (W1 & E1 & HW1)], (run_grows _ _ _ H3) as [Hle2 (W2 & E2 & HW2)].
  unfold double_checked, point_cache_validity. cbn [cl_before cl_hit cl_after]. destruct (Z.eqb_spec (rc_published (sy_rc σ1)) snap) as [<-|]; [|done].
  destruct (cache_get _ key) as [w|] eqn:Eg; [|done]. destruct (Z.eqb_spec (rc_published (sy_rc σ3)) (rc_published (sy_rc σ1))) as [E3|]; [|done]. intros [= ->].
  pose proof (cu_hits σ2 Hc2 key v Eg) as Ha. assert (rc_published (sy_rc σ2) = rc_published (sy_rc σ1)) as Es by lia. rewrite Es in *. split.
  - rewrite E1 in Ha. by apply answers_above in Ha.
  - rewrite E2. by apply answers_above.
Qed.

(** ** A publisher that holds the lock for reading *)

Lemma cache_insert_room c key value : @cache_ok (option (list byte)) c → frozen c (shard_index key) = false →
  sh_capacity (shard c (shard_index key)) ≠ 0%nat → sh_map (shard c (shard_index key)) = ∅ → cache_get (cache_insert c key value) key = Some value.
Proof.
  intros Hc Hf Hcap Hm. unfold cache_insert. rewrite Hf, (proj2 (Nat.eqb_neq _ _) Hcap), Hm, lookup_empty, map_size_empty.
  rewrite (proj2 (Nat.leb_gt _ _)) by lia. rewrite <-Hm. by apply (cache_store_ok c key value).
Qed.

Lemma fresh_reads H p key new : (∀ e, e ∈ H → sequence e.1 ≤ p) → reads (H ++ [(mkIKey key (p + 1) Value, new)]) (p + 1) key new.
Proof.
  intros Hp. exists (mkIKey key (p + 1) Value, new). split; [split_and!; [apply elem_of_app; right; left|done|done|done]|]. split; [done|]. split; [done|]. split.
  - intros e ([He|He]%elem_of_app & Hu & _ & _).
    + specialize (Hp e He). rewrite ikey_lt_iff. cbn. intros [Hlt|[_ [Hlt|[Heq _]]]]; [|lia|lia]. rewrite Hu in Hlt. by apply (irreflexivity bytes_lt) in Hlt.
    + apply list_elem_of_singleton in He as ->. apply (irreflexivity ikey_lt).
  - intros (rk & rv & Hin & Hk & Hs & Hlt & _). cbn in Hlt. lia.
Qed.

(** C39: a fill inside a publication leaves a stale answer. The publisher of the
    asynchronous one-write commit holds the database's lock only for reading, so
    a reader may fill the cache between the invalidation and the publication of
    the new sequence: the published sequence still is the one its answer was
    looked up at, and the fill is admitted. For every cache that is not
    disabled, every history, key and new value, this run ends with the new
    sequence published, the new value visible at it, and the old answer in the
    cache, where the double check accepts it. *)
Theorem fill_inside_publish_is_stale capacity H p key old new :
  capacity ≠ 0%nat → (∀ e, e ∈ H → sequence e.1 ≤ p) → answers H p key old →
  ∃ σ, rtc (cstep false) (opened capacity H p) σ ∧ sy_phase σ = Free ∧ rc_published (sy_rc σ) = p + 1 ∧
    reads (sy_hist σ) (p + 1) key new ∧
    double_checked (p + 1) (mkLook (rc_published (sy_rc σ)) (cache_get (rc_cache (sy_rc σ)) key) (rc_published (sy_rc σ))) = Some old.
Proof.
  intros Hcap Hp Hold. set (op := (mkIKey key (p + 1) Value, new) : entry). set (c := invalidate_many (cache_new (V := option (list byte)) capacity) [key]).
  destruct (invalidate_get (cache_new (V := option (list byte)) capacity) [key] (cache_new_ok _)) as [Hc _]. fold c in Hc.
  exists (mkSys (H ++ [op]) (mkRC (cache_insert c key old) [] false (p + 1)) Free). split; [|split; [done|]; split; [done|]; split; [by apply fresh_reads|]].
  - eapply rtc_l; [apply (cs_apply false (opened capacity H p) [(true, [op])] (p + 1)); [done|]; repeat constructor; cbn; lia|].
    eapply rtc_l; [by apply cs_invalidate|]. cbn [sy_hist sy_rc opened concat fmap list_fmap snd fst app foldl].
    assert (invalidate_read_answers (note_dirty_points (mkRC (cache_new capacity) [] false p) true [op]) = mkRC c [] false p) as -> by reflexivity.
    eapply rtc_l; [apply (cs_fill false _ key old); [done|]; apply answers_above; [|done]; intros e ->%list_elem_of_singleton; cbn; lia|].
    cbn [sy_hist sy_rc sy_phase rc_published]. assert (fill p key old (mkRC c [] false p) = mkRC (cache_insert c key old) [] false p) as ->.
    { unfold fill, point_cache_validity. cbn [rc_published]. by rewrite Z.eqb_refl. }
    assert (mkRC (cache_insert c key old) [] false (p + 1) = publish_cas (p + 1) (mkRC (cache_insert c key old) [] false p)) as ->.
    { unfold publish_cas. cbn [rc_published]. by rewrite (proj2 (Z.ltb_lt _ _)) by lia. }
    apply rtc_once. by apply (cs_cas false (mkSys (H ++ [op]) (mkRC (cache_insert c key old) [] false p) (Invalidated (p + 1)))).
  - cbn. unfold double_checked, point_cache_validity. cbn. rewrite Z.eqb_refl.
    assert (ac_shards c !! shard_index key = Some (drop_key (mkShard ∅ [] (Nat.max (capacity / ANSWER_CACHE_SHARDS) 1) 0 0) key)) as Es.
    { unfold c, invalidate_many, cache_new. cbn [ac_shards]. rewrite list_lookup_imap, lookup_replicate_2 by apply shard_index_lt.
      cbn [fmap option_fmap option_map]. rewrite filter_cons_True by done. by destruct capacity. }
    rewrite cache_insert_room; [done|done|..].
    + unfold frozen, c, invalidate_many, cache_new. cbn [ac_frozen foldl]. rewrite list_lookup_insert_eq; [done|]. rewrite length_replicate. apply shard_index_lt.
    + unfold shard. rewrite Es. cbn. lia.
    + unfold shard. rewrite Es. cbn. apply delete_empty.
Qed.

(** ** Witnesses *)

Definition one_put : list entry := [(mkIKey [x61] 1 Value, [x31])].

Lemma one_put_low e : e ∈ one_put → sequence e.1 ≤ 1.
Proof. by intros ->%list_elem_of_singleton. Qed.

Lemma one_put_answer : answers one_put 1 [x61] (Some [x31]).
Proof.
  assert (reads one_put 1 [x61] [x31]) as Hr by (apply (fresh_reads [] 0); by intros e ?%not_elem_of_nil).
  intros v. split; [by intros [= <-]|]. by intros (e & (->%list_elem_of_singleton & _) & <- & _).
Qed.

(** A cached [a] survives a write of [b], also while it is being published. *)
Lemma double_check_sound_witness :
  ∃ σ2 σ3, rtc (cstep true) (opened 16 one_put 1) σ2 ∧ rtc (cstep true) σ2 σ3 ∧ sy_phase σ3 = Invalidated 2 ∧
    double_checked 1 (mkLook 1 (cache_get (rc_cache (sy_rc σ3)) [x61]) 1) = Some (Some [x31]) ∧ answers (sy_hist σ3) 1 [x61] (Some [x31]).
Proof.
  set (b := (mkIKey [x62] 2 Value, [x32]) : entry). set (σ0 := opened 16 one_put 1).
  set (σ2 := mkSys one_put (fill 1 [x61] (Some [x31]) (sy_rc σ0)) Free).
  set (σ3 := mkSys (one_put ++ [b]) (invalidate_read_answers (note_dirty_points (sy_rc σ2) true [b])) (Invalidated 2)).
  assert (rtc (cstep true) σ0 σ2) as H2 by (apply rtc_once; apply (cs_fill true σ0 [x61] (Some [x31])); [done|exact one_put_answer]).
  assert (rtc (cstep true) σ2 σ3) as H3.
  { eapply rtc_l; [apply (cs_apply true σ2 [(true, [b])] 2); [done|]; repeat constructor; vm_compute; discriminate|]. apply rtc_once. by apply cs_invalidate. }
  exists σ2, σ3. split; [exact H2|]. split; [exact H3|]. split; [reflexivity|]. split; [vm_compute; reflexivity|].
  destruct (double_check_sound 16 one_put 1 σ2 σ3 σ3 1 [x61] (Some [x31]) one_put_low H2 H3 (rtc_refl _ _)) as (_ & Hd).
  apply Hd. vm_compute. reflexivity.
Defined.

Lemma fill_inside_publish_is_stale_witness :
  ∃ σ, reads (sy_hist σ) 2 [x61] [x32] ∧
    double_checked 2 (mkLook (rc_published (sy_rc σ)) (cache_get (rc_cache (sy_rc σ)) [x61]) (rc_published (sy_rc σ))) = Some (Some [x31]).
Proof.
  destruct (fill_inside_publish_is_stale 16 one_put 1 [x61] (Some [x31]) [x32]) as (σ & _ & _ & _ & Hr & Hd);
    [discriminate|exact one_put_low|exact one_put_answer|]. exists σ. split; [exact Hr|exact Hd].
Defined.
