(* ===== verification/DbTables.v ===== *)
(** The tables of the database behind the lookup's interface: [SstTable]s, each
    with its file and its body slot, that share one raw-block cache. A lookup in
    one table touches only that table's cache entries, so every table stays
    readable; this discharges [SstReads] and closes the lookup theorem of
    [DbLookup] over the table reader of [SstRead]. *)

From S2P Require Import Prelude SliceOps BulkIngest ErrorKernel KeyKernel BatchKernel WalFormat Visibility OrdMap MemIndex MemTable MemFamily MemRead Bloom SstBlock SstFile SstTable SstWrite SstOpen SstRead SstLookup SstScan SstRange Flush BulkRun DbLookup OccProbe.

Local Open Scope Z_scope.

(** * State *)

(** A table of the list: its metadata, its file, the hash of its path (the
    cache's key) and its body slot. *)
Record DbTable := mkDbTable { dt_table : SstTable; dt_files : Files; dt_id : Z; dt_slot : nat }.

(** What reads change: the body slots and the raw-block cache. *)
Record IoState := mkIo { io_bodies : list ResidentBody; io_cache : RawBlockCache.t }.

(** * Frames *)

(** Entries of other tables are as before, or evicted. *)
Definition cache_frame (id : Z) (c c' : RawBlockCache.t) : Prop :=
  ∀ k v ep, k.1 ≠ id → RawBlockCache.map c' !! k = Some (v, ep) → ∃ ep', RawBlockCache.map c !! k = Some (v, ep').

#[global] Instance cache_frame_preorder id : PreOrder (cache_frame id).
Proof.
  split; [intros c k v ep _ H; by eauto|]. intros a b c H1 H2 k v ep Hk Hc. destruct (H2 k v ep Hk Hc) as [ep' Hb]. by apply (H1 k v ep').
Qed.

Lemma get_frame id off c : cache_frame id c (RawBlockCache.get c (id, off)).2.
Proof.
  unfold RawBlockCache.get. destruct (RawBlockCache.map c !! _) as [[v0 ep0]|]; [|done]. intros k v ep Hk. cbn.
  rewrite lookup_insert_ne; [by eauto|]. by intros <-.
Qed.

Lemma insert_frame id off plain c : cache_frame id c (RawBlockCache.insert c (id, off) plain).
Proof.
  intros k v ep Hk. assert ((id, off) ≠ k) as Hne by (by intros <-). unfold RawBlockCache.insert. case_match; cbn.
  - rewrite lookup_insert_ne by done. by eauto.
  - pose proof (evict_sub (RawBlockCache.map c) (RawBlockCache.order c)) as Hs. destruct (RawBlockCache.evict _ _) as [m order]. cbn in *.
    rewrite lookup_insert_ne by done. intros Hm. exists ep. by eapply lookup_weaken.
Qed.

Section seeks.
Context `{CC : Crc32c, CF : !Crc32cFile, LZ : Lz4} (stale : nat → list byte).

Lemma seek_from_file_frame bi t fs id h uk snap s :
  cache_frame id (sk_cache s) (sk_cache (seek_from_file stale bi t fs id h uk snap s).1).
Proof.
  unfold seek_from_file. destruct (kit fs) as [k|]; [|by destruct (ensure_payload_from_path _ _ _)].
  pose proof (get_frame id (h_offset h) (sk_cache s)) as Hg. destruct (RawBlockCache.get _ _) as [[plain|] c]; [done|].
  case_match; [|done]. cbn in *. etrans; [exact Hg|apply insert_frame].
Qed.

Lemma seek_crc_block_frame t fs id bi h uk snap s :
  cache_frame id (sk_cache s) (sk_cache (seek_crc_block stale t fs id bi h uk snap s).1).
Proof. unfold seek_crc_block. case_match; [apply seek_from_file_frame|]. by repeat case_match. Qed.

Lemma seek_crc_blocks_frame t fs id uk snap bis best s :
  cache_frame id (sk_cache s) (sk_cache (seek_crc_blocks stale t fs id uk snap bis best s).1).
Proof.
  revert best s. induction bis as [|bi bis IH]; intros best s; cbn [seek_crc_blocks]; [done|].
  destruct (t_index t !! bi) as [h|]; [|apply IH]. pose proof (seek_crc_block_frame t fs id bi h uk snap s) as Hf.
  destruct (seek_crc_block _ _ _ _ _ _ _ _ _) as [s1 [[found|e]|]]; [|done..]. etrans; [exact Hf|apply IH].
Qed.

Lemma point_at_seeking_frame t fs id uk snap s :
  cache_frame id (sk_cache s) (sk_cache (point_at_seeking stale t fs id uk snap s).1).
Proof.
  unfold point_at_seeking. destruct (hash_pair uk). case_match; [done|]. case_match; [|done]. case_match; [|done].
  case_match; [by destruct (materialize_entries _ _ _) as [[? ?] ?]|]. case_match.
  { case_match; [done|]. by destruct (point_in_blocks _ _ _ _ _). }
  destruct (if resident _ then _ else _) as [body r]. destruct r; [|done]. etrans; [|apply seek_crc_blocks_frame]. done.
Qed.

Lemma cache_ok_frame blks t id id' c c' : id ≠ id' → cache_frame id c c' → cache_ok blks t id' c → cache_ok blks t id' c'.
Proof.
  intros Hne Hf Hc i h blk plain ep Hi Hb Hm. destruct (Hf (id', h_offset h) plain ep (λ E, Hne (eq_sym E)) Hm) as [ep' Hm']. exact (Hc i h blk plain ep' Hi Hb Hm').
Qed.

(** * The reader *)

Definition seek_table (t : DbTable) (uk : list byte) (snap : Z) (st : IoState) : IoState * Comp (option point) :=
  match io_bodies st !! dt_slot t with
  | None => (st, None)
  | Some b =>
      let '(s, r) := point_at_seeking stale (dt_table t) (dt_files t) (dt_id t) uk snap (mkSeek b (io_cache st)) in
      (mkIo (<[dt_slot t := sk_body s]> (io_bodies st)) (sk_cache s), r)
  end.

#[global] Instance table_reader : SstReader DbTable IoState := {|
  smallest_user_key t := t_smallest_user_key (dt_table t);
  largest_user_key t := t_largest_user_key (dt_table t);
  range_tombstones_of t := t_range_tombstones (dt_table t);
  point_at_seeking_with_hashes := seek_table
|}.

(** The tables of a database and what they hold: each is a table of its entries
    over its file, and no two share a slot or a path hash. *)
Record TableSpec := mkSpec { ts_table : DbTable; ts_entries : list entry; ts_blocks : list (list entry); ts_body : list byte; ts_image : list byte }.

Record spec_ok (s : TableSpec) : Prop := {
  so_table : table_ok (ts_body s) (ts_entries s) (ts_blocks s) (dt_table (ts_table s));
  so_files : files_ok (ts_body s) (dt_table (ts_table s)) (ts_image s) (dt_files (ts_table s))
}.

Record catalog_ok (cat : list TableSpec) : Prop := {
  co_specs : Forall spec_ok cat;
  co_slots : NoDup ((λ s, dt_slot (ts_table s)) <$> cat);
  co_ids : NoDup ((λ s, dt_id (ts_table s)) <$> cat)
}.

(** A slot holds its table's body or nothing, the cache only its blocks. *)
Definition spec_readable (st : IoState) (s : TableSpec) : Prop :=
  ∃ b, io_bodies st !! dt_slot (ts_table s) = Some b ∧ body_ok (ts_body s) b ∧
    cache_ok (ts_blocks s) (dt_table (ts_table s)) (dt_id (ts_table s)) (io_cache st).

Context `{LL : !Lz4Laws} (cat : list TableSpec) (Hcat : catalog_ok cat).

Lemma nodup_fmap_inj {A B : Type} (f : A → B) l x y : NoDup (f <$> l) → x ∈ l → y ∈ l → f x = f y → x = y.
Proof.
  intros Hn (i & Hi)%list_elem_of_lookup (j & Hj)%list_elem_of_lookup E.
  assert (i = j) as <-; [|congruence]. eapply NoDup_lookup; [exact Hn|by rewrite list_lookup_fmap, Hi|by rewrite list_lookup_fmap, Hj, E].
Qed.

Lemma seek_table_ok s uk snap st : s ∈ cat → Forall (spec_readable st) cat →
  ∃ st', seek_table (ts_table s) uk snap st = (st', Some (Ok (point_ref (ts_entries s) uk snap))) ∧ Forall (spec_readable st') cat.
Proof using Hcat LL CF.
  intros Hin Hr. pose proof (proj1 (Forall_forall _ _) (co_specs _ Hcat) s Hin) as [Ht Hf]. pose proof (proj1 (Forall_forall _ _) Hr s Hin) as (b & Hb & Hbo & Hc).
  unfold seek_table. rewrite Hb. set (sk := mkSeek b (io_cache st)).
  pose proof (point_at_seeking_frame (dt_table (ts_table s)) (dt_files (ts_table s)) (dt_id (ts_table s)) uk snap sk) as Hfr.
  destruct (point_at_seeking_ok _ _ _ _ Ht _ _ Hf stale (dt_id (ts_table s)) uk snap sk (conj Hbo Hc)) as (s' & E & Hbo' & Hc').
  rewrite E in *. eexists. split; [done|]. apply Forall_forall. intros y Hy. unfold spec_readable. cbn [io_bodies io_cache].
  destruct (decide (dt_slot (ts_table y) = dt_slot (ts_table s))) as [Es|Hne].
  - rewrite (nodup_fmap_inj (λ s, dt_slot (ts_table s)) cat y s (co_slots _ Hcat) Hy Hin Es).
    exists (sk_body s'). split; [|done]. apply list_lookup_insert_eq. by eapply lookup_lt_Some.
  - pose proof (proj1 (Forall_forall _ _) Hr y Hy) as (by_ & Hby & Hyo & Hyc). exists by_. split; [|split; [done|]].
    + by rewrite list_lookup_insert_ne.
    + eapply cache_ok_frame; [|exact Hfr|exact Hyc]. intros Ei. apply Hne. by rewrite (nodup_fmap_inj (λ s, dt_id (ts_table s)) cat y s (co_ids _ Hcat) Hy Hin (eq_sym Ei)).
Qed.

(** The tables of the catalog keep the lookup's contract. *)
#[global, refine] Instance catalog_reads : SstReads DbTable IoState := {|
  holds t es := ∃ s, s ∈ cat ∧ ts_table s = t ∧ ts_entries s = es;
  readable st := Forall (spec_readable st) cat
|}.
Proof using Hcat LL CF.
  all: assert (∀ s, s ∈ cat → table_ok (ts_body s) (ts_entries s) (ts_blocks s) (dt_table (ts_table s))) as Hok
    by (intros s Hs; apply so_table, (proj1 (Forall_forall _ _) (co_specs _ Hcat) s Hs)).
  - intros t es (s & Hs & <- & <-). apply (tk_sorted _ _ _ _ (Hok s Hs)).
  - intros t es (s & Hs & <- & <-). apply (tk_smallest _ _ _ _ (Hok s Hs)).
  - intros t es (s & Hs & <- & <-). apply (tk_largest _ _ _ _ (Hok s Hs)).
  - intros t es (s & Hs & <- & <-). apply (tk_rts _ _ _ _ (Hok s Hs)).
  - intros t es uk snap st (s & Hs & <- & <-) Hst. by apply seek_table_ok.
Defined.

(** ** The probes *)

Definition with_body {A : Type} (t : DbTable) (st : IoState) (f : ResidentBody → ResidentBody * option A) : IoState * option A :=
  match io_bodies st !! dt_slot t with
  | None => (st, None)
  | Some b => let '(b, r) := f b in (mkIo (<[dt_slot t := b]> (io_bodies st)) (io_cache st), r)
  end.

#[global] Instance table_prober : SstProber DbTable IoState := {|
  table_point_at t uk snap st := with_body t st (SstRead.point_at (dt_table t) (dt_files t) uk snap);
  table_max_sequence t := t_max_sequence (dt_table t);
  table_overlaps t start end_ := point_bounds_overlap (t_smallest_user_key (dt_table t)) (t_largest_user_key (dt_table t)) start end_;
  table_range t start end_ st := with_body t st (entries_in_user_range (dt_table t) (dt_files t) start end_)
|}.

Lemma with_body_ok {A : Type} s st (f : ResidentBody → ResidentBody * option A) r : s ∈ cat → Forall (spec_readable st) cat →
  (∀ b, body_ok (ts_body s) b → ∃ b', f b = (b', r) ∧ body_ok (ts_body s) b') →
  ∃ st', with_body (ts_table s) st f = (st', r) ∧ Forall (spec_readable st') cat.
Proof using Hcat.
  intros Hin Hr Hf. pose proof (proj1 (Forall_forall _ _) Hr s Hin) as (b & Hb & Hbo & _). unfold with_body. rewrite Hb.
  destruct (Hf b Hbo) as (b' & -> & Hbo'). eexists. split; [done|]. apply Forall_forall. intros y Hy.
  pose proof (proj1 (Forall_forall _ _) Hr y Hy) as (by_ & Hby & Hyo & Hyc). unfold spec_readable. cbn [io_bodies io_cache].
  destruct (decide (dt_slot (ts_table y) = dt_slot (ts_table s))) as [Es|Hne].
  - assert (y = s) as -> by (by apply (nodup_fmap_inj (λ s, dt_slot (ts_table s)) cat y s (co_slots _ Hcat) Hy Hin)).
    exists b'. split; [|done]. apply list_lookup_insert_eq. by eapply lookup_lt_Some.
  - exists by_. by rewrite list_lookup_insert_ne.
Qed.

Lemma max_sequence_of_le es e : e ∈ es → sequence e.1 ≤ max_sequence_of es.
Proof.
  induction es as [|x es IH] using rev_ind; [by intros ?%not_elem_of_nil|]. rewrite max_sequence_of_snoc, elem_of_app, list_elem_of_singleton.
  intros [He| ->]; [specialize (IH He)|]; lia.
Qed.

#[global] Instance catalog_probes : SstProbes DbTable IoState.
Proof using Hcat LL CF.
  assert (∀ s, s ∈ cat → spec_ok s) as Hok by (by apply Forall_forall, co_specs).
  split.
  - intros t es uk snap st (s & Hs & <- & <-) Hst. destruct (Hok s Hs) as [Ht Hf]. apply with_body_ok; [done|done|].
    intros b Hb. exact (point_at_ok _ _ _ _ Ht _ _ Hf uk snap b Hb).
  - intros t es e (s & Hs & <- & <-) He. cbn. rewrite (tk_max _ _ _ _ (so_table _ (Hok s Hs))). by apply max_sequence_of_le.
  - intros t es start end_ e (s & Hs & <- & <-) Ho He. exact (bounds_miss _ _ _ _ (so_table _ (Hok s Hs)) start end_ e Ho He).
  - intros t es start end_ st (s & Hs & <- & <-) Hd Hst. destruct (Hok s Hs) as [Ht Hf].
    edestruct (with_body_ok s st (entries_in_user_range (dt_table (ts_table s)) (dt_files (ts_table s)) start end_)) as (st' & E & Hst'); [done|done| |].
    { intros b Hb. exact (entries_in_user_range_ok _ _ _ _ Ht _ _ Hf start end_ b Hd Hb). }
    eexists st', _. split; [exact E|]. split; [exact Hst'|]. destruct (scan_reads_file _ _ _ _ _) eqn:Er.
    + split.
      { intros e [Hk He]%list_elem_of_filter. split; [done|]. destruct (decide (kind e.1 = RangeDeletion)); [by left|]. right. by destruct Hk. }
      intros e He [_ Hw]. apply list_elem_of_filter. split; [by right|done].
    + split; [by intros e ?%not_elem_of_nil|]. intros e He [_ Hw]. unfold scan_reads_file in Er. destruct (point_bounds_overlap _ _ _ _) eqn:Eb; [done|].
      pose proof (bounds_miss _ _ _ _ Ht start end_ e Eb He) as Hno. unfold user_of in Hno. congruence.
Defined.
End seeks.

(** ** Witness of the lookup theorem *)

#[local] Existing Instance poly_crc.
#[local] Existing Instance poly_file.
#[local] Existing Instance store_lz4.
#[local] Existing Instance store_laws.

(** A database with a memtable, a bulk run and one table file. *)
Definition sample_live : MemTable := put mem_new [x63] 9 [x38].
Definition sample_bulk_rows : list entry := [(mkIKey [x61] 8 Value, [x37])].
Definition sample_bulk_run : BulkRun := foldl push_entry run_default sample_bulk_rows.
Definition db_over (t : SstTable) (image : list byte) : Db DbTable :=
  let ts := [mkDbTable t (mkFiles (Ok image) None) 7 0] in
  mkDb sample_live None None [] [] mem_new [] {[ DEFAULT := sample_bulk_run ]} [] [] ts (rebuild_sst_runs (SR := table_reader (λ _, [])) ts [1]).

Lemma sample_live_ok : mem_layer_ok sample_live.
Proof.
  split; [apply insert_ok; [apply mem_new_ok|intros x Hx; by apply not_elem_of_nil in Hx|vm_compute; discriminate]|].
  intros e He. vm_compute in He. by apply list_elem_of_singleton in He as ->.
Qed.

Lemma sample_bulk_layer : bulk_layer_ok sample_bulk_run sample_bulk_rows.
Proof.
  split; [|by intros e ->%list_elem_of_singleton]. apply (push_entries_ok run_default []); [apply run_default_ok|].
  unfold strict. cbn. repeat constructor.
Qed.

Lemma sample_recent : recent [x62] [mem_entries sample_live; sample_bulk_rows; sample_entries].
Proof.
  assert (∀ l e, e ∈ l → l = mem_entries sample_live ∨ l = sample_bulk_rows → ¬ covers_key [x62] e) as Hno.
  { intros l e He [-> | ->]; [vm_compute in He|]; by apply list_elem_of_singleton in He as ->. }
  repeat (constructor; [|repeat (constructor; [intros x y Hx _ Hc; by destruct (Hno _ x Hx (ltac:(auto)))|]); constructor]). constructor.
Qed.

Lemma sample_catalog image t : table_of sample_env "a.sst" sample_entries 3 true true image t →
  catalog_ok [mkSpec (mkDbTable t (mkFiles (Ok image) None) 7 0) sample_entries (cut (block_target (target_override sample_env)) [] sample_entries) (img (t_payload t)) image].
Proof.
  intros Hof. destruct (table_of_ok sample_env "a.sst" sample_entries 3 true true image t (mkFiles (Ok image) None) sample_input Hof (sample_serves image)) as [Ht Hf].
  split; [constructor; [by split|constructor]|apply NoDup_singleton..].
Qed.

Lemma sample_reads : reads (concat [mem_entries sample_live; sample_bulk_rows; sample_entries]) 10 [x62] [x33].
Proof.
  set (l := concat _). assert (l = (mkIKey [x63] 9 Value, [x38]) :: (mkIKey [x61] 8 Value, [x37]) :: sample_entries) as -> by (vm_compute; reflexivity).
  exists (mkIKey [x62] 6 Value, [x33]). split; [split; [do 6 right; left|done]|]. split; [done|]. split; [done|]. split.
  - intros e (He & Hu & _). unfold sample_entries in He.
    repeat (apply elem_of_cons in He as [->|He]; [first [discriminate Hu|vm_compute; discriminate]|]). by apply not_elem_of_nil in He.
  - intros (k & v & He & Hk & Hs & Hlt & _). unfold sample_entries in He. cbn in Hlt.
    repeat (apply elem_of_cons in He as [[= -> ->]|He]; [first [discriminate Hk|cbn in Hlt; lia]|]). by apply not_elem_of_nil in He.
Qed.

Lemma db_lookup_correct_witness :
  ∃ image t st, table_of sample_env "a.sst" sample_entries 3 true true image t ∧
    db_lookup (SR := table_reader (λ _, [])) (db_over t image) [x62] 10 (mkIo [t_payload t] RawBlockCache.new) = (st, Some (Found [x33])).
Proof.
  destruct sample_input as [He Hs Hn Hh Hf].
  destruct (write_open_ok sample_env "a.sst" sample_entries 3 true true He Hs Hn Hh Hf) as (image & t & t' & Ew & Eo & _).
  assert (table_of sample_env "a.sst" sample_entries 3 true true image t') as Hof by (exists t; auto).
  pose proof (sample_catalog image t' Hof) as Hcat.
  destruct (db_lookup_correct (RD := catalog_reads (λ _, []) _ Hcat) (db_over t' image) [1] [x62] [sample_bulk_rows] [sample_entries] 10
    (mkIo [t_payload t'] RawBlockCache.new)) as (st & look & E & _ & Hl).
  - split; [constructor; [apply sample_live_ok|constructor]|constructor; [apply sample_bulk_layer|constructor]| |
      constructor; [apply sample_keys_distinct|constructor]|reflexivity].
    constructor; [|constructor]. eexists. split; [left|split; reflexivity].
  - exact sample_recent.
  - constructor; [|constructor]. exists (t_payload t'). split; [reflexivity|]. split; [apply body_ok_start|apply cache_ok_start].
  - exists image, t', st. split; [exact Hof|]. rewrite E. f_equal. f_equal. apply Hl. apply sample_reads.
Defined.

Lemma sample_below_max image t : below_max (concat (db_layers (db_over t image) [1] [sample_bulk_rows] [sample_entries])).
Proof.
  assert (concat (db_layers (db_over t image) [1] [sample_bulk_rows] [sample_entries]) =
    (mkIKey [x63] 9 Value, [x38]) :: (mkIKey [x61] 8 Value, [x37]) :: sample_entries) as -> by (vm_compute; reflexivity).
  intros e He. unfold sample_entries in He. repeat (apply elem_of_cons in He as [->|He]; [vm_compute; discriminate|]). by apply not_elem_of_nil in He.
Qed.

Lemma key_probe_exact_witness :
  ∃ image t st, table_of sample_env "a.sst" sample_entries 3 true true image t ∧
    key_has_write_after (SR := table_reader (λ _, [])) [mkUnapplied 20 Value [x7a] []] (db_over t image) [x62] 5 (mkIo [t_payload t] RawBlockCache.new) = (st, Some true).
Proof.
  destruct sample_input as [He Hs Hn Hh Hf].
  destruct (write_open_ok sample_env "a.sst" sample_entries 3 true true He Hs Hn Hh Hf) as (image & t & t' & Ew & Eo & _).
  assert (table_of sample_env "a.sst" sample_entries 3 true true image t') as Hof by (exists t; auto).
  pose proof (sample_catalog image t' Hof) as Hcat.
  destruct (key_probe_exact (PR := catalog_probes (λ _, []) _ Hcat) [mkUnapplied 20 Value [x7a] []] (db_over t' image) [1] [x62] [sample_bulk_rows] [sample_entries] 5
    (mkIo [t_payload t'] RawBlockCache.new)) as (st & b & E & _ & Hb).
  - split; [constructor; [apply sample_live_ok|constructor]|constructor; [apply sample_bulk_layer|constructor]| |
      constructor; [apply sample_keys_distinct|constructor]|reflexivity].
    constructor; [|constructor]. eexists. split; [left|split; reflexivity].
  - apply sample_below_max.
  - constructor; [|constructor]. exists (t_payload t'). split; [reflexivity|]. split; [apply body_ok_start|apply cache_ok_start].
  - exists image, t', st. split; [exact Hof|]. rewrite E. f_equal. f_equal. apply Hb. exists (mkIKey [x62] 6 Value, [x33]).
    split; [apply elem_of_app; right; do 6 right; left|]. split; [reflexivity|vm_compute; reflexivity].
Defined.
