(* ===== verification/Occ.v ===== *)
(** Optimistic transactions: the validation of a write group
    ([concurrent_kernel.rs]: [validate_occ_accumulated], the check of
    [lone_commit]), the commit kernel ([group_commit_kernel.rs]: [occ_conflict],
    [occ_batch_plan]) and the client object ([occ_kernel.rs]:
    [OccTransaction]), with the theorem that accepted transactions are
    serializable in commit order.

    Validation asks the database through a [Guard], the answers a [&Db] gives
    under the write lock. [db_guard] is the guard the probes of [OccProbe] make,
    and the theorems are about it; [guard_ok] collects what its probes guarantee. *)

From S2P Require Import Prelude SliceOps BulkIngest ErrorKernel KeyKernel BatchKernel WalFormat Visibility OrdMap MemIndex MemTable MemFamily MemRead Bloom SstBlock SstFile SstTable SstWrite SstOpen SstRead SstLookup SstScan SstRange Flush BulkRun DbLookup OccProbe PointCache DbTables.

Local Open Scope Z_scope.

(** * [group_commit_kernel.rs] *)

Definition occ_conflict (snap last_seq : Z) (touched : bool) : bool := (snap <? last_seq) && touched.

Record OccRead := mkOccRead { or_snap : Z; or_touched : bool }.

Definition group_validate (reads : list OccRead) (last_seq : Z) : list bool :=
  (λ r, occ_conflict (or_snap r) last_seq (or_touched r)) <$> reads.

Inductive OccMemberFate := FateOk | FateTooOld | FateConflict.

Definition occ_member_fate (too_old conflict : bool) : OccMemberFate :=
  if too_old then FateTooOld else if conflict then FateConflict else FateOk.

(** Over the common length. *)
Definition occ_batch_plan (too_old : list bool) (reads : list OccRead) (last_seq : Z) : list OccMemberFate :=
  zip_with (λ old r, occ_member_fate old (occ_conflict (or_snap r) last_seq (or_touched r))) too_old reads.

(** * Write groups *)

Inductive BatchOp :=
| OpPut (key value : list byte)
| OpDelete (key : list byte)
| OpDeleteRange (start end_ : list byte).

(** The reply channel of a member is left out. *)
Record PendingWrite := mkPending {
  pw_ops : list BatchOp;
  pw_do_sync : bool;
  pw_submit_active : Z;
  pw_occ : option (Z * list (list byte));
  pw_occ_err : option CoreError
}.

(** What validation asks the database under the write lock. *)
Record Guard := mkGuard {
  g_earliest_readable_seq : Z;
  g_last_sequence : Z;
  g_key_has_write_after : list byte → Z → bool;
  g_range_has_write_after : list byte → list byte → Z → bool
}.

Definition ensure_snapshot_readable (g : Guard) (snap : Z) : Result CoreError unit :=
  if snap_below_watermark snap (g_earliest_readable_seq g) then Err (SnapshotTooOld snap (g_earliest_readable_seq g)) else Ok tt.

(** The accepted writes of the group so far. *)
Record Accepted := mkAcc { accepted_keys : gset (list byte); accepted_ranges : list (list byte * list byte) }.
Definition no_accepted : Accepted := mkAcc ∅ [].

Definition note_op (acc : Accepted) (op : BatchOp) : Accepted :=
  match op with
  | OpPut key _ | OpDelete key => mkAcc ({[ key ]} ∪ accepted_keys acc) (accepted_ranges acc)
  | OpDeleteRange s e => mkAcc (accepted_keys acc) (accepted_ranges acc ++ [(s, e)])
  end.
Definition note_ops (acc : Accepted) (ops : list BatchOp) : Accepted := foldl note_op acc ops.

(** Step 2: against the committed state. *)
Definition op_written_after (g : Guard) (snap : Z) (op : BatchOp) : bool :=
  match op with
  | OpPut key _ | OpDelete key => g_key_has_write_after g key snap
  | OpDeleteRange s e => g_range_has_write_after g s e snap
  end.

(** Step 3: against the group's accepted writes. *)
Definition key_hit (acc : Accepted) (k : list byte) : bool :=
  bool_decide (k ∈ accepted_keys acc) || existsb (λ r : list byte * list byte, bytes_leb r.1 k && bytes_ltb k r.2) (accepted_ranges acc).

Definition op_hit (acc : Accepted) (op : BatchOp) : bool :=
  match op with
  | OpPut key _ | OpDelete key => key_hit acc key
  | OpDeleteRange s e =>
      existsb (λ k, bytes_leb s k && bytes_ltb k e) (elements (accepted_keys acc)) ||
      existsb (λ r : list byte * list byte, bytes_ltb r.1 e && bytes_ltb s r.2) (accepted_ranges acc)
  end.

Definition refuse (p : PendingWrite) (e : CoreError) : PendingWrite :=
  mkPending [] (pw_do_sync p) (pw_submit_active p) (pw_occ p) (Some e).

(** One member; [None] is a failed assertion. *)
Definition validate_member (g : Guard) (p : PendingWrite) (acc : Accepted) : option (PendingWrite * Accepted) :=
  match pw_occ p with
  | None => Some (p, note_ops acc (pw_ops p))
  | Some (snap, keys) =>
      match ensure_snapshot_readable g snap with
      | Err e => Some (refuse p e, acc)
      | Ok _ =>
          let touched := existsb (λ k, g_key_has_write_after g k snap) keys || existsb (op_written_after g snap) (pw_ops p) in
          let last_seq := g_last_sequence g in
          let conflict_pred := occ_conflict snap last_seq touched in
          match
            match head (occ_batch_plan [false] [mkOccRead snap touched] last_seq) with
            | Some FateConflict => if conflict_pred then Some true else None
            | _ => Some touched
            end
          with
          | None => None
          | Some conflict =>
              let conflict := if conflict then true else existsb (key_hit acc) keys in
              let conflict := if conflict then true else existsb (op_hit acc) (pw_ops p) in
              if conflict then Some (refuse p TransactionConflict, acc) else Some (p, note_ops acc (pw_ops p))
          end
      end
  end.

Fixpoint validate_occ_accumulated (g : Guard) (batch : list PendingWrite) (acc : Accepted) : option (list PendingWrite * Accepted) :=
  match batch with
  | [] => Some ([], acc)
  | p :: batch =>
      match validate_member g p acc with
      | None => None
      | Some (p, acc) =>
          match validate_occ_accumulated g batch acc with
          | None => None
          | Some (batch, acc) => Some (p :: batch, acc)
          end
      end
  end.

Definition validate_occ_batch (g : Guard) (batch : list PendingWrite) : option (list PendingWrite) :=
  fst <$> validate_occ_accumulated g batch no_accepted.

(** The check a lone commit makes of its transaction. *)
Definition lone_validate (g : Guard) (ops : list BatchOp) (occ : option (Z * list (list byte))) : option (Result CoreError unit) :=
  match occ with
  | None => Some (Ok tt)
  | Some (snap, keys) =>
      match ensure_snapshot_readable g snap with
      | Err e => Some (Err e)
      | Ok _ =>
          let last_seq := g_last_sequence g in
          let touched := existsb (λ k, g_key_has_write_after g k snap) keys || existsb (op_written_after g snap) ops in
          let conflict := occ_conflict snap last_seq touched in
          match head (occ_batch_plan [false] [mkOccRead snap touched] last_seq) with
          | Some FateConflict => if conflict then Some (Err TransactionConflict) else None
          | _ => if conflict then None else Some (Ok tt)
          end
      end
  end.

(** * The transaction object *)

Inductive Stage := StagePut (v : list byte) | StageDelete.
Definition stage_value (s : Stage) : option (list byte) := match s with StagePut v => Some v | StageDelete => None end.

(** The ordered set and map of [OccTransaction]; the handle of the database is
    an argument of the operations. *)
Record OccTransaction := mkTx {
  tx_snapshot : Z;
  tx_floor_id : Z;
  tx_read_set : list (list byte * unit);
  tx_staging : list (list byte * Stage);
  tx_finished : bool
}.

Definition tx_new (snapshot floor_id : Z) : OccTransaction := mkTx snapshot floor_id [] [] false.
Definition ensure_open (t : OccTransaction) : Result CoreError unit := if tx_finished t then Err TransactionFinished else Ok tt.

Definition add_read (t : OccTransaction) (key : list byte) : OccTransaction :=
  mkTx (tx_snapshot t) (tx_floor_id t) (om_insert key tt (tx_read_set t)) (tx_staging t) (tx_finished t).
Definition add_stage (t : OccTransaction) (key : list byte) (s : Stage) : OccTransaction :=
  mkTx (tx_snapshot t) (tx_floor_id t) (tx_read_set t) (om_insert key s (tx_staging t)) (tx_finished t).

Definition tx_observe (t : OccTransaction) (key : list byte) : OccTransaction := if tx_finished t then t else add_read t key.

(** [get_at] is what the database answers at the snapshot, [look] what the reads
    of the published sequence and of the point cache return. *)
Definition tx_get (get_at : Z → list byte → Result CoreError (option (list byte))) (look : CacheLook) (t : OccTransaction) (key : list byte)
    : OccTransaction * Result CoreError (option (list byte)) :=
  let t := add_read t key in
  (t, match om_get key (tx_staging t) with
      | Some s => Ok (stage_value s)
      | None =>
          if tx_snapshot t =? 0 then Ok None
          else
            let cached :=
              if cl_before look =? tx_snapshot t then
                match cl_hit look with
                | Some v => if cl_after look =? tx_snapshot t then Some v else None
                | None => None
                end
              else None in
            match cached with
            | Some v => Ok v
            | None => get_at (tx_snapshot t) key
            end
      end).

Definition tx_put (t : OccTransaction) (key value : list byte) : OccTransaction * Result CoreError unit :=
  match ensure_open t with Err e => (t, Err e) | Ok _ => (add_stage t key (StagePut value), Ok tt) end.
Definition tx_delete (t : OccTransaction) (key : list byte) : OccTransaction * Result CoreError unit :=
  match ensure_open t with Err e => (t, Err e) | Ok _ => (add_stage t key StageDelete, Ok tt) end.

Definition staged_entries (t : OccTransaction) : list (list byte * option (list byte)) := (λ ks : list byte * Stage, (ks.1, stage_value ks.2)) <$> tx_staging t.

Definition stage_op (ks : list byte * Stage) : BatchOp :=
  match ks.2 with StagePut v => OpPut ks.1 v | StageDelete => OpDelete ks.1 end.

(** What a commit does: it ends at once, or submits a member to the write group. *)
Inductive Commit := Done (r : Result CoreError unit) | Submit (p : PendingWrite).

Definition commit_with (g : Guard) (t : OccTransaction) (do_sync : bool) (active : Z) : Commit :=
  match ensure_open t with
  | Err e => Done (Err e)
  | Ok _ =>
      match tx_staging t with
      | [] =>
          match tx_read_set t with
          | [] => Done (Ok tt)
          | _ =>
              match ensure_snapshot_readable g (tx_snapshot t) with
              | Err e => Done (Err e)
              | Ok _ =>
                  if negb (g_last_sequence g =? tx_snapshot t) &&
                     existsb (λ k, g_key_has_write_after g k (tx_snapshot t)) (tx_read_set t).*1
                  then Done (Err TransactionConflict) else Done (Ok tt)
              end
          end
      | _ => Submit (mkPending (stage_op <$> tx_staging t) do_sync active (Some (tx_snapshot t, (tx_read_set t).*1)) None)
      end
  end.

Definition tx_abort (t : OccTransaction) : OccTransaction := mkTx (tx_snapshot t) (tx_floor_id t) [] [] true.

(** * Footprints *)

(** The write covers a key, or meets a range. *)
Definition op_covers (k : list byte) (op : BatchOp) : Prop :=
  match op with
  | OpPut key _ | OpDelete key => key = k
  | OpDeleteRange s e => ¬ bytes_lt k s ∧ bytes_lt k e
  end.

Definition op_meets (s e : list byte) (op : BatchOp) : Prop :=
  match op with
  | OpPut key _ | OpDelete key => ¬ bytes_lt key s ∧ bytes_lt key e
  | OpDeleteRange s' e' => bytes_lt s' e ∧ bytes_lt s e'
  end.

Definition overlap (op earlier : BatchOp) : Prop :=
  match op with
  | OpPut key _ | OpDelete key => op_covers key earlier
  | OpDeleteRange s e => op_meets s e earlier
  end.

#[global] Instance op_covers_dec k op : Decision (op_covers k op).
Proof. destruct op; cbn; apply _. Defined.
#[global] Instance op_meets_dec s e op : Decision (op_meets s e op).
Proof. destruct op; cbn; apply _. Defined.
#[global] Instance overlap_dec op earlier : Decision (overlap op earlier).
Proof. destruct op; cbn; apply _. Defined.

(** The entry a write leaves, at whatever sequence; a put may store an escaped
    value or a reference into the value log. *)
Definition writes_of (op : BatchOp) (e : entry) : Prop :=
  match op with
  | OpPut key _ => user_key e.1 = key ∧ kind e.1 = Value
  | OpDelete key => user_key e.1 = key ∧ kind e.1 = Deletion
  | OpDeleteRange s en => user_key e.1 = s ∧ kind e.1 = RangeDeletion ∧ e.2 = en
  end.

Lemma writes_cover op e k : writes_of op e → covers_key k e ↔ op_covers k op.
Proof.
  unfold covers_key, write_op_covers_key, range_tombstone_covers. destruct op as [key v|key|s en]; cbn.
  - intros [-> ->]. apply bytes_eqb_spec.
  - intros [-> ->]. apply bytes_eqb_spec.
  - intros (-> & -> & ->). by rewrite andb_true_iff, bytes_leb_spec, bytes_ltb_spec.
Qed.

Lemma writes_meet op e s en : writes_of op e → touches_range s en e ↔ op_meets s en op.
Proof.
  unfold touches_range, user_key_in_range. destruct op as [key v|key|s' e']; cbn.
  - intros [-> ->]. by rewrite andb_true_iff, bytes_leb_spec, bytes_ltb_spec.
  - intros [-> ->]. by rewrite andb_true_iff, bytes_leb_spec, bytes_ltb_spec.
  - by intros (-> & -> & ->).
Qed.

(** The accepted sets answer for the accepted writes. *)
Definition acc_ok (acc : Accepted) (ops : list BatchOp) : Prop :=
  (∀ k, key_hit acc k = true ↔ ∃ op, op ∈ ops ∧ op_covers k op) ∧
  (∀ s e, op_hit acc (OpDeleteRange s e) = true ↔ ∃ op, op ∈ ops ∧ op_meets s e op).

Lemma no_accepted_ok : acc_ok no_accepted [].
Proof. split; intros; (split; [done|]); by intros (op & Hop%not_elem_of_nil & _). Qed.

Lemma key_hit_iff acc k : key_hit acc k = true ↔ k ∈ accepted_keys acc ∨ ∃ r, r ∈ accepted_ranges acc ∧ ¬ bytes_lt k r.1 ∧ bytes_lt k r.2.
Proof.
  unfold key_hit. rewrite orb_true_iff, bool_decide_eq_true, existsb_exists. setoid_rewrite <-list_elem_of_In. setoid_rewrite andb_true_iff.
  setoid_rewrite bytes_leb_spec. by setoid_rewrite bytes_ltb_spec.
Qed.

Lemma range_hit_iff acc s e : op_hit acc (OpDeleteRange s e) = true ↔
  (∃ k, k ∈ accepted_keys acc ∧ ¬ bytes_lt k s ∧ bytes_lt k e) ∨ ∃ r, r ∈ accepted_ranges acc ∧ bytes_lt r.1 e ∧ bytes_lt s r.2.
Proof.
  cbn. rewrite orb_true_iff, !existsb_exists. setoid_rewrite <-list_elem_of_In. setoid_rewrite andb_true_iff. setoid_rewrite elem_of_elements.
  setoid_rewrite bytes_leb_spec. by setoid_rewrite bytes_ltb_spec.
Qed.

Lemma key_hit_note acc op k : key_hit (note_op acc op) k = true ↔ key_hit acc k = true ∨ op_covers k op.
Proof.
  rewrite !key_hit_iff. destruct op as [key v|key|s e]; cbn [note_op accepted_keys accepted_ranges op_covers].
  1,2: rewrite elem_of_union, elem_of_singleton; naive_solver.
  setoid_rewrite elem_of_app. setoid_rewrite list_elem_of_singleton. naive_solver.
Qed.

Lemma range_hit_note acc op s e : op_hit (note_op acc op) (OpDeleteRange s e) = true ↔ op_hit acc (OpDeleteRange s e) = true ∨ op_meets s e op.
Proof.
  rewrite !range_hit_iff. destruct op as [key v|key|s' e']; cbn [note_op accepted_keys accepted_ranges op_meets].
  1,2: setoid_rewrite elem_of_union; setoid_rewrite elem_of_singleton; naive_solver.
  setoid_rewrite elem_of_app. setoid_rewrite list_elem_of_singleton. naive_solver.
Qed.

Lemma note_op_ok acc ops op : acc_ok acc ops → acc_ok (note_op acc op) (ops ++ [op]).
Proof.
  intros [Hk Hr]. split; intros; rewrite ?key_hit_note, ?range_hit_note, ?Hk, ?Hr; setoid_rewrite elem_of_app; setoid_rewrite list_elem_of_singleton; naive_solver.
Qed.

Lemma note_ops_ok acc ops new : acc_ok acc ops → acc_ok (note_ops acc new) (ops ++ new).
Proof.
  revert acc ops. induction new as [|op new IH]; intros acc ops Ha; [by rewrite app_nil_r|]. cbn. rewrite cons_middle, app_assoc.
  by apply IH, note_op_ok.
Qed.

Lemma op_hit_iff acc ops op : acc_ok acc ops → op_hit acc op = true ↔ ∃ earlier, earlier ∈ ops ∧ overlap op earlier.
Proof. intros [Hk Hr]. destruct op; [apply Hk|apply Hk|apply Hr]. Qed.

Lemma existsb_false_iff {A : Type} (f : A → bool) l : existsb f l = false ↔ ∀ x, x ∈ l → f x = false.
Proof.
  rewrite <-not_true_iff_false, existsb_exists. setoid_rewrite <-list_elem_of_In. setoid_rewrite <-not_true_iff_false. naive_solver.
Qed.

(** * Members *)

(** The member survives validation behind the accepted writes [ops]. *)
Definition admitted (g : Guard) (ops : list BatchOp) (p : PendingWrite) : Prop :=
  match pw_occ p with
  | None => True
  | Some (snap, keys) =>
      g_earliest_readable_seq g ≤ snap ∧
      (∀ k, k ∈ keys → g_key_has_write_after g k snap = false ∧ ∀ op, op ∈ ops → ¬ op_covers k op) ∧
      (∀ op, op ∈ pw_ops p → op_written_after g snap op = false ∧ ∀ earlier, earlier ∈ ops → ¬ overlap op earlier)
  end.

Definition refusal (g : Guard) (p : PendingWrite) : CoreError :=
  match pw_occ p with
  | Some (snap, _) => if snap <? g_earliest_readable_seq g then SnapshotTooOld snap (g_earliest_readable_seq g) else TransactionConflict
  | None => TransactionConflict
  end.

(** The plan of the commit kernel never disagrees with the probes. *)
Lemma plan_conflict snap touched last_seq :
  match head (occ_batch_plan [false] [mkOccRead snap touched] last_seq) with
  | Some FateConflict => if occ_conflict snap last_seq touched then Some true else None
  | _ => Some touched
  end = Some touched.
Proof. cbn. unfold occ_member_fate, occ_conflict. destruct (snap <? last_seq), touched; done. Qed.

Lemma validate_member_ok g p acc ops : acc_ok acc ops →
  ∃ p' acc', validate_member g p acc = Some (p', acc') ∧ acc_ok acc' (ops ++ pw_ops p') ∧
    ((p' = p ∧ admitted g ops p) ∨ (p' = refuse p (refusal g p) ∧ ¬ admitted g ops p)).
Proof.
  intros Ha. unfold validate_member, admitted, refusal, ensure_snapshot_readable, snap_below_watermark. destruct (pw_occ p) as [[snap keys]|].
  2: { exists p, (note_ops acc (pw_ops p)). split; [done|]. split; [by apply note_ops_ok|by left]. }
  destruct (Z.ltb_spec snap (g_earliest_readable_seq g)) as [Hold|Hnew].
  { eexists _, acc. split; [done|]. split; [by rewrite app_nil_r|]. right. split; [done|]. intros [H _]. lia. }
  rewrite plan_conflict. set (c := existsb _ keys || existsb _ (pw_ops p)).
  destruct (if if c then true else existsb (key_hit acc) keys then true else existsb (op_hit acc) (pw_ops p)) eqn:Ec.
  - eexists _, acc. split; [done|]. split; [by rewrite app_nil_r|]. right. split; [done|]. intros (_ & Hk & Ho). apply not_false_iff_true in Ec. apply Ec.
    assert (c = false) as -> by (apply orb_false_iff; rewrite !existsb_false_iff; naive_solver).
    assert (existsb (key_hit acc) keys = false) as ->.
    { apply existsb_false_iff. intros k Hin. apply not_true_iff_false. rewrite (proj1 Ha). intros (op & Hop & Hc). by apply (proj2 (Hk k Hin) op). }
    apply existsb_false_iff. intros op Hin. apply not_true_iff_false. rewrite (op_hit_iff acc ops) by done. intros (op' & Hop & Hc). by apply (proj2 (Ho op Hin) op').
  - eexists p, _. split; [done|]. split; [by apply note_ops_ok|]. left. split; [done|]. split; [done|].
    destruct c eqn:Ecc; [done|]. destruct (existsb (key_hit acc) keys) eqn:Ek; [done|].
    apply orb_false_iff in Ecc as [E1 E2]. rewrite existsb_false_iff in E1. rewrite existsb_false_iff in E2.
    rewrite existsb_false_iff in Ek. rewrite existsb_false_iff in Ec. split.
    + intros k Hin. split; [by apply E1|]. intros op Hop Hc. specialize (Ek k Hin). apply not_true_iff_false in Ek. apply Ek, (proj1 Ha). by exists op.
    + intros op Hin. split; [by apply E2|]. intros op' Hop Hc. specialize (Ec op Hin). apply not_true_iff_false in Ec. apply Ec, (op_hit_iff acc ops); [done|]. by exists op'.
Qed.

(** The fates of a batch, each behind the writes accepted before it. *)
Fixpoint fates (g : Guard) (ops : list BatchOp) (batch out : list PendingWrite) : Prop :=
  match batch, out with
  | [], [] => True
  | p :: batch, p' :: out =>
      ((p' = p ∧ admitted g ops p) ∨ (p' = refuse p (refusal g p) ∧ ¬ admitted g ops p)) ∧ fates g (ops ++ pw_ops p') batch out
  | _, _ => False
  end.

Lemma validate_ok g batch acc ops : acc_ok acc ops →
  ∃ out acc', validate_occ_accumulated g batch acc = Some (out, acc') ∧ acc_ok acc' (ops ++ concat (pw_ops <$> out)) ∧ fates g ops batch out.
Proof.
  revert acc ops. induction batch as [|p batch IH]; intros acc ops Ha; cbn [validate_occ_accumulated].
  { exists [], acc. split; [done|]. by rewrite app_nil_r. }
  destruct (validate_member_ok g p acc ops Ha) as (p' & acc1 & -> & Ha1 & Hf). destruct (IH acc1 _ Ha1) as (out & acc' & -> & Ha' & Hfs).
  exists (p' :: out), acc'. split; [done|]. cbn. by rewrite app_assoc.
Qed.

Lemma fates_at g ops batch out i p' : fates g ops batch out → out !! i = Some p' →
  ∃ p, batch !! i = Some p ∧
    ((p' = p ∧ admitted g (ops ++ concat (pw_ops <$> take i out)) p) ∨
     (p' = refuse p (refusal g p) ∧ ¬ admitted g (ops ++ concat (pw_ops <$> take i out)) p)).
Proof.
  revert ops batch out. induction i as [|i IH]; intros ops [|p batch] [|q out]; try done; cbn.
  - intros [Hf _] [= <-]. exists p. by rewrite app_nil_r.
  - intros [_ Hfs] Hi. destruct (IH _ _ _ Hfs Hi) as (p0 & Hp0 & H). exists p0. by rewrite app_assoc.
Qed.

(** * Serializability *)

(** What the guard's answers say of the committed history [H], staged writes
    included. The range probe does not see the writes of [B], and answers for
    the ranges that are [whole]. *)
Record guard_ok (g : Guard) (H B : list entry) (whole : list byte → list byte → Prop) : Prop := {
  gk_key k snap : g_key_has_write_after g k snap = true ↔ written_after k snap H;
  gk_range s e snap x : bytes_lt s e → whole s e → g_range_has_write_after g s e snap = false →
    x ∈ H → snap < sequence x.1 → touches_range s e x → x ∈ B;
  gk_range_true s e snap : (bytes_lt s e → whole s e) → g_range_has_write_after g s e snap = true → newer_in s e snap H;
  gk_last e : e ∈ H → sequence e.1 ≤ g_last_sequence g
}.

Lemma written_after_extend k snap H W : ¬ written_after k snap H → (∀ e, e ∈ W → ¬ covers_key k e) → ¬ written_after k snap (H ++ W).
Proof. intros Hn HW (e & [He|He]%elem_of_app & Hs & Hc); [apply Hn; by exists e|by apply HW in He]. Qed.

(** The entries of the writes accepted before a member. *)
Definition written_by (ops : list BatchOp) (W : list entry) : Prop := ∀ e, e ∈ W → ∃ op, op ∈ ops ∧ writes_of op e.

(** An admitted member sees at its commit what it saw at its snapshot. *)
Lemma admitted_stable g H B whole ops W p snap keys now :
  guard_ok g H B whole → written_by ops W → admitted g ops p → pw_occ p = Some (snap, keys) →
  (∀ e, e ∈ H → sequence e.1 ≤ now) → snap ≤ now →
  (∀ k v, k ∈ keys → reads (H ++ W) now k v ↔ reads H snap k v) ∧
  (∀ k v, OpPut k v ∈ pw_ops p ∨ OpDelete k ∈ pw_ops p → ¬ written_after k snap (H ++ W)) ∧
  (∀ s e x, OpDeleteRange s e ∈ pw_ops p → bytes_lt s e → whole s e → x ∈ H ++ W → snap < sequence x.1 → touches_range s e x → x ∈ B).
Proof.
  intros Hg HW Hadm Hocc Hnow Hle. unfold admitted in Hadm. rewrite Hocc in Hadm. destruct Hadm as (_ & Hk & Ho).
  assert (∀ k, (∀ op, op ∈ ops → ¬ op_covers k op) → ∀ e, e ∈ W → ¬ covers_key k e) as Hfree.
  { intros k Hn e He Hc. destruct (HW e He) as (op & Hop & Hw). apply (Hn op Hop). by apply (writes_cover op e k Hw). }
  assert (∀ k, g_key_has_write_after g k snap = false → ¬ written_after k snap H) as Hquiet.
  { intros k E Hw. apply (gk_key _ _ _ _ Hg) in Hw. congruence. }
  split; [|split].
  - intros k v Hin. destruct (Hk k Hin) as [E Hn]. by apply reads_unmoved; [apply Hquiet|apply Hfree|..].
  - intros k v [Hin|Hin]; destruct (Ho _ Hin) as [E Hn]; (apply written_after_extend; [by apply Hquiet|by apply Hfree]).
  - intros s en e Hin Hlt Hwh [He|He]%elem_of_app Hs Ht; destruct (Ho _ Hin) as [E Hn].
    + by apply (gk_range _ _ _ _ Hg s en snap e Hlt Hwh E).
    + exfalso. destruct (HW e He) as (op & Hop & Hw). apply (Hn op Hop). by apply (writes_meet op e s en Hw).
Qed.

Lemma fates_length g ops batch out : fates g ops batch out → length out = length batch.
Proof. revert ops out. induction batch as [|p batch IH]; intros ops [|q out]; try done. cbn. intros [_ Hf]. f_equal. by eapply IH. Qed.

(** The cause of a refusal. *)
Lemma refused_cause g H B whole ops q snap keys :
  guard_ok g H B whole → pw_occ q = Some (snap, keys) → ¬ admitted g ops q → g_earliest_readable_seq g ≤ snap →
  (∀ s e, OpDeleteRange s e ∈ pw_ops q → bytes_lt s e → whole s e) →
  (∃ k, (k ∈ keys ∨ (∃ v, OpPut k v ∈ pw_ops q) ∨ OpDelete k ∈ pw_ops q) ∧ (written_after k snap H ∨ ∃ op, op ∈ ops ∧ op_covers k op)) ∨
  ∃ s e, OpDeleteRange s e ∈ pw_ops q ∧ (newer_in s e snap H ∨ ∃ op, op ∈ ops ∧ op_meets s e op).
Proof.
  intros Hg Eo Hadm Hge Hwh. unfold admitted in Hadm. rewrite Eo in Hadm.
  destruct (decide (Exists (λ k, g_key_has_write_after g k snap = true ∨ Exists (op_covers k) ops) keys)) as [Hx|Hx].
  { apply Exists_exists in Hx as (k & Hk & Hx). left. exists k. split; [by left|]. rewrite <-(gk_key _ _ _ _ Hg). destruct Hx as [?|(op & ? & ?)%Exists_exists]; eauto. }
  destruct (decide (Exists (λ op, op_written_after g snap op = true ∨ Exists (overlap op) ops) (pw_ops q))) as [Hy|Hy].
  - apply Exists_exists in Hy as (op & Hop & Hy). rewrite Exists_exists in Hy. destruct op as [k v|k|s en].
    + left. exists k. split; [eauto|]. by rewrite <-(gk_key _ _ _ _ Hg).
    + left. exists k. split; [eauto|]. by rewrite <-(gk_key _ _ _ _ Hg).
    + right. exists s, en. split; [done|]. destruct Hy as [Hy|?]; [left|by right]. apply (gk_range_true _ _ _ _ Hg); [by apply Hwh|done].
  - exfalso. apply Hadm. split; [done|]. rewrite <-Forall_Exists_neg, Forall_forall in Hx. rewrite <-Forall_Exists_neg, Forall_forall in Hy. split.
    + intros k Hk. specialize (Hx k Hk). rewrite Exists_exists in Hx. split; [apply not_true_iff_false; tauto|]. intros op Hop Hc. apply Hx. right. by exists op.
    + intros op Hop. specialize (Hy op Hop). rewrite Exists_exists in Hy. split; [apply not_true_iff_false; tauto|]. intros op' Hop' Hc. apply Hy. right. by exists op'.
Qed.

Lemma touched_last g H B whole snap keys ops : guard_ok g H B whole →
  (∀ s e, OpDeleteRange s e ∈ ops → bytes_lt s e → whole s e) →
  existsb (λ k, g_key_has_write_after g k snap) keys || existsb (op_written_after g snap) ops = true → snap < g_last_sequence g.
Proof.
  intros Hg Hwh. assert (∀ k, g_key_has_write_after g k snap = true → snap < g_last_sequence g) as Hkey.
  { intros k (e & He & Hs & _)%(gk_key _ _ _ _ Hg). pose proof (gk_last _ _ _ _ Hg e He). lia. }
  rewrite orb_true_iff, !existsb_exists. intros [(k & _ & Hk)|(op & Hin%list_elem_of_In & Hop)]; [by apply (Hkey k)|].
  destruct op as [| |s e]; [by eapply Hkey|by eapply Hkey|].
  destruct (gk_range_true _ _ _ _ Hg s e snap (Hwh s e Hin) Hop) as (x & Hx & Hs & _). pose proof (gk_last _ _ _ _ Hg x Hx). lia.
Qed.

(** A lone commit and a group of one decide alike. The check of a sequential
    client, which trusts the commit kernel's plan, accepts and refuses the same
    transactions with the same errors as the validation of a write group does
    for a member alone, and neither fails an assertion. *)
Lemma lone_agrees_with_group g H B whole ops occ do_sync active :
  guard_ok g H B whole → (∀ s e, OpDeleteRange s e ∈ ops → bytes_lt s e → whole s e) →
  ∃ p, validate_occ_batch g [mkPending ops do_sync active occ None] = Some [p] ∧
    lone_validate g ops occ = Some (match pw_occ_err p with Some e => Err e | None => Ok tt end).
Proof.
  intros Hg Hwh. unfold validate_occ_batch, validate_occ_accumulated, validate_member, lone_validate. cbn [pw_occ pw_ops].
  destruct occ as [[snap keys]|]; [|by eexists]. unfold ensure_snapshot_readable. destruct (snap_below_watermark _ _); [by eexists|].
  rewrite plan_conflict. pose proof (touched_last g H B whole snap keys ops Hg Hwh) as Hlast. cbn [occ_batch_plan zip_with head or_snap or_touched].
  unfold occ_member_fate, occ_conflict. destruct (_ || _) eqn:Et.
  - rewrite (proj2 (Z.ltb_lt _ _) (Hlast eq_refl)). by eexists.
  - rewrite andb_false_r. assert (existsb (key_hit no_accepted) keys = false) as -> by (by apply existsb_false_iff).
    assert (existsb (op_hit no_accepted) ops = false) as ->; [|by eexists]. apply existsb_false_iff. by intros [].
Qed.

(** * Transactions *)

(** The client's calls. *)
Inductive TxCall := CallGet (k : list byte) | CallObserve (k : list byte) | CallPut (k v : list byte) | CallDelete (k : list byte).

(** A call, and what a read finds in the point cache at that moment. *)
Definition call (get_at : Z → list byte → Result CoreError (option (list byte))) (t : OccTransaction) (c : TxCall * CacheLook)
    : OccTransaction * option (Result CoreError (option (list byte))) :=
  match c.1 with
  | CallGet k => let '(t, r) := tx_get get_at c.2 t k in (t, Some r)
  | CallObserve k => (tx_observe t k, None)
  | CallPut k v => ((tx_put t k v).1, None)
  | CallDelete k => ((tx_delete t k).1, None)
  end.

(** The transaction after the calls, and what its reads returned. *)
Fixpoint calls (get_at : Z → list byte → Result CoreError (option (list byte))) (t : OccTransaction) (cs : list (TxCall * CacheLook))
    : OccTransaction * list (option (Result CoreError (option (list byte)))) :=
  match cs with
  | [] => (t, [])
  | c :: cs => let '(t, r) := call get_at t c in let '(t, rs) := calls get_at t cs in (t, r :: rs)
  end.

Lemma om_keys_insert {V : Type} (k : list byte) (v : V) m k' : k' ∈ (om_insert k v m).*1 ↔ k' = k ∨ k' ∈ m.*1.
Proof.
  induction m as [|[k0 v0] m IH]; cbn [om_insert]; [cbn; rewrite list_elem_of_singleton; set_solver|].
  destruct (kcmp k k0) eqn:E; rewrite !fmap_cons, !elem_of_cons; cbn [fst].
  - apply kcmp_eq in E as ->. naive_solver.
  - naive_solver.
  - rewrite IH. naive_solver.
Qed.

(** Reads are recorded, whatever follows. *)
Lemma call_read_set get_at t c k :
  k ∈ (tx_read_set t).*1 ∨ c.1 = CallGet k → k ∈ (tx_read_set (call get_at t c).1).*1.
Proof.
  unfold call. destruct c.1; cbn; unfold tx_observe, tx_put, tx_delete, ensure_open; try destruct (tx_finished t); cbn; rewrite ?om_keys_insert; naive_solver.
Qed.

Lemma calls_read_set get_at t cs k : k ∈ (tx_read_set t).*1 ∨ CallGet k ∈ cs.*1 → k ∈ (tx_read_set (calls get_at t cs).1).*1.
Proof.
  revert t. induction cs as [|c cs IH]; intros t Hk; cbn [calls]; [destruct Hk as [?|?%not_elem_of_nil]; done|].
  pose proof (call_read_set get_at t c k) as Hc. destruct (call get_at t c) as [t1 r]. specialize (IH t1).
  destruct (calls get_at t1 cs) as [t2 rs]. apply IH. rewrite fmap_cons, elem_of_cons in Hk. cbn in Hc. naive_solver.
Qed.

Lemma call_floor get_at t c : tx_snapshot (call get_at t c).1 = tx_snapshot t ∧ (tx_finished t = false → tx_finished (call get_at t c).1 = false).
Proof. unfold call. destruct c.1; cbn; unfold tx_observe, tx_put, tx_delete, ensure_open; by destruct (tx_finished t) eqn:E. Qed.

Lemma calls_floor get_at t cs : tx_snapshot (calls get_at t cs).1 = tx_snapshot t ∧ (tx_finished t = false → tx_finished (calls get_at t cs).1 = false).
Proof.
  revert t. induction cs as [|c cs IH]; intros t; [done|]. cbn [calls]. destruct (call_floor get_at t c) as [Es Ef].
  destruct (call get_at t c) as [t1 r]. specialize (IH t1). destruct (calls get_at t1 cs). cbn in *. destruct IH as [-> IH]. auto.
Qed.

(** ** What a transaction reads *)

(** The database answers reads at [snap] from the history [H]. *)
Definition db_answers (get_at : Z → list byte → Result CoreError (option (list byte))) (H : list entry) (snap : Z) : Prop :=
  ∀ k, ∃ got, get_at snap k = Ok got ∧ answers H snap k got.

(** A cached answer that passes the double check is the value at the snapshot:
    the conclusion of [double_check_sound]. *)
Definition cache_honest (H : list entry) (snap : Z) (c : TxCall * CacheLook) : Prop :=
  match c.1 with CallGet k => ∀ v, double_checked snap c.2 = Some v → answers H snap k v | _ => True end.

Definition positive (H : list entry) : Prop := ∀ e, e ∈ H → 0 < sequence e.1.

Lemma tx_get_value get_at look t key H :
  db_answers get_at H (tx_snapshot t) → cache_honest H (tx_snapshot t) (CallGet key, look) → positive H →
  ∃ got, (tx_get get_at look t key).2 = Ok got ∧
    match om_get key (tx_staging t) with Some s => got = stage_value s | None => answers H (tx_snapshot t) key got end.
Proof.
  intros Hdb Hc Hpos. unfold tx_get. cbn [tx_staging tx_snapshot add_read snd]. destruct (om_get key _) as [s|]; [by eexists|].
  destruct (Z.eqb_spec (tx_snapshot t) 0) as [E0|_].
  - exists None. split; [done|]. rewrite E0. intros v. split; [done|]. intros (e & (He & _ & _ & Hs) & _). specialize (Hpos e He). lia.
  - destruct (Hdb key) as (got & -> & Hans). unfold cache_honest, double_checked, point_cache_validity in Hc. cbn in Hc.
    destruct (cl_before look =? _); [|by eexists]. destruct (cl_hit look); [|by eexists]. destruct (cl_after look =? _); [|by eexists]. eauto.
Qed.

(** Two transactions that differ in their snapshots only. *)
Definition same_tx (t1 t2 : OccTransaction) : Prop :=
  tx_read_set t1 = tx_read_set t2 ∧ tx_staging t1 = tx_staging t2 ∧ tx_finished t1 = tx_finished t2.

Lemma call_agree get1 get2 H1 H2 t1 t2 c look1 look2 :
  same_tx t1 t2 → db_answers get1 H1 (tx_snapshot t1) → db_answers get2 H2 (tx_snapshot t2) → positive H1 → positive H2 →
  cache_honest H1 (tx_snapshot t1) (c, look1) → cache_honest H2 (tx_snapshot t2) (c, look2) →
  (∀ k, c = CallGet k → ∀ v, reads H1 (tx_snapshot t1) k v ↔ reads H2 (tx_snapshot t2) k v) →
  same_tx (call get1 t1 (c, look1)).1 (call get2 t2 (c, look2)).1 ∧ (call get1 t1 (c, look1)).2 = (call get2 t2 (c, look2)).2.
Proof.
  intros (Er & Es & Ef) Hd1 Hd2 Hp1 Hp2 Hc1 Hc2 Hr. unfold call, same_tx. destruct c as [k|k|k v|k]; cbn [fst snd].
  - destruct (tx_get_value get1 look1 t1 k H1 Hd1 Hc1 Hp1) as (g1 & E1 & A1), (tx_get_value get2 look2 t2 k H2 Hd2 Hc2 Hp2) as (g2 & E2 & A2).
    assert (g1 = g2) as ->.
    { rewrite Es in A1. destruct (om_get k _); [by rewrite A1, A2|]. apply option_eq. intros v. by rewrite (A1 v), (A2 v), (Hr k eq_refl v). }
    unfold tx_get in *. cbn [snd fst] in *. rewrite E1, E2. cbn. by rewrite Er, Es, Ef.
  - unfold tx_observe. rewrite <-Ef. destruct (tx_finished t1) eqn:E; cbn; by rewrite ?Er, ?Es, ?Ef, ?E.
  - unfold tx_put, ensure_open. rewrite <-Ef. destruct (tx_finished t1) eqn:E; cbn; by rewrite ?Er, ?Es, ?Ef, ?E.
  - unfold tx_delete, ensure_open. rewrite <-Ef. destruct (tx_finished t1) eqn:E; cbn; by rewrite ?Er, ?Es, ?Ef, ?E.
Qed.

(** Histories that agree on what is read give the same run. *)
Lemma calls_agree get1 get2 H1 H2 t1 t2 cs1 cs2 :
  same_tx t1 t2 → cs1.*1 = cs2.*1 → db_answers get1 H1 (tx_snapshot t1) → db_answers get2 H2 (tx_snapshot t2) → positive H1 → positive H2 →
  Forall (cache_honest H1 (tx_snapshot t1)) cs1 → Forall (cache_honest H2 (tx_snapshot t2)) cs2 →
  (∀ k, CallGet k ∈ cs1.*1 → ∀ v, reads H1 (tx_snapshot t1) k v ↔ reads H2 (tx_snapshot t2) k v) →
  same_tx (calls get1 t1 cs1).1 (calls get2 t2 cs2).1 ∧ (calls get1 t1 cs1).2 = (calls get2 t2 cs2).2.
Proof.
  revert t1 t2 cs2. induction cs1 as [|[c look1] cs1 IH]; intros t1 t2 [|[c' look2] cs2] Ht E Hd1 Hd2 Hp1 Hp2 Hc1 Hc2 Hr; try done.
  cbn in E. injection E as <- E. apply Forall_cons in Hc1 as [Hh1 Hc1], Hc2 as [Hh2 Hc2]. cbn [calls].
  destruct (call_agree get1 get2 H1 H2 t1 t2 c look1 look2) as [Ht' Er]; try done.
  { intros k ->. apply Hr. left. }
  pose proof (call_floor get1 t1 (c, look1)) as [Es1 _]. pose proof (call_floor get2 t2 (c, look2)) as [Es2 _].
  destruct (call get1 t1 (c, look1)) as [u1 r1], (call get2 t2 (c, look2)) as [u2 r2]. cbn [fst snd] in *. subst r2.
  specialize (IH u1 u2 cs2 Ht' E). rewrite Es1, Es2 in IH. destruct IH as [Hs Hl]; try done.
  { intros k Hk. apply Hr. by right. }
  destruct (calls get1 u1 cs1), (calls get2 u2 cs2). cbn in *. by rewrite Hl.
Qed.

(** * The database as a guard *)

Section db_guard.
Context {T St : Type} `{SR : SstReader T St, RD : !SstReads T St, SP : !SstProber T St, PR : !SstProbes T St}.

(** The answers of the probes; a panic of a probe ends the commit. *)
Definition db_guard (unapplied : list UnappliedOp) (d : Db T) (earliest last_seq : Z) (st : St) : Guard :=
  mkGuard earliest last_seq (λ k snap, default true (key_has_write_after unapplied d k snap st).2)
    (λ s e snap, default true (range_has_write_after unapplied d s e snap st).2).

(** The staged writes, the bulk rows, and the entries of memtables and tables. *)
Definition db_history (unapplied : list UnappliedOp) (d : Db T) (levels : list Z) (bulk : list entry) (tes : list (list entry)) : list entry :=
  (un_entry <$> unapplied) ++ bulk ++ concat (db_layers d levels [] tes).

(** The memtables, tables and bulk runs of the database hold their entries;
    [bulk] are the rows of the bulk runs, each in the runs of its key's family. *)
Record committed (unapplied : list UnappliedOp) (d : Db T) (levels : list Z) (bulk : list entry) (tes : list (list entry)) (last_seq : Z) : Prop := {
  cm_layers key : ∃ bes, db_ok d levels key bes tes ∧ (∀ e, e ∈ concat bes → e ∈ bulk) ∧ (∀ e, e ∈ bulk → user_key e.1 = key → e ∈ concat bes);
  cm_bulk e : e ∈ bulk → kind e.1 ≠ RangeDeletion;
  cm_max : below_max (bulk ++ concat (db_layers d levels [] tes));
  cm_last e : e ∈ db_history unapplied d levels bulk tes → sequence e.1 ≤ last_seq
}.

(** The memtables iterate over the range completely. *)
Definition whole (d : Db T) (s e : list byte) : Prop := Forall (λ m, iterable m s e) (mem_layers d).

Lemma elem_layers (d : Db T) levels bes tes e : e ∈ concat (db_layers d levels bes tes) ↔ e ∈ concat bes ∨ e ∈ concat (db_layers d levels [] tes).
Proof. unfold db_layers. rewrite !concat_app, !elem_of_app. cbn. rewrite elem_of_nil. tauto. Qed.

Lemma db_guard_ok unapplied d levels bulk tes earliest last_seq st :
  committed unapplied d levels bulk tes last_seq → readable st →
  guard_ok (db_guard unapplied d earliest last_seq st) (db_history unapplied d levels bulk tes) bulk (whole d).
Proof using PR.
  intros [Hlay Hpt Hmax Hlast] Hst.
  assert (below_max (concat (db_layers d levels [] tes))) as Hmax' by (intros e He; apply Hmax, elem_of_app; by right).
  assert (∀ s e snap, bytes_lt s e → whole d s e → ∃ b, (range_has_write_after unapplied d s e snap st).2 = Some b ∧
    range_answer s e snap ((un_entry <$> unapplied) ++ concat (db_layers d levels [] tes)) b) as Hrange.
  { intros s e snap Hlt Hwh. destruct (Hlay s) as (bes & Hd & _). destruct (range_probe_safe unapplied d levels s bes tes s e snap st Hd Hmax' Hwh Hlt Hst) as (st' & b & -> & _ & Hb). by exists b. }
  split; cbn.
  - intros k snap. destruct (Hlay k) as (bes & Hd & Hin & Hout). destruct (key_probe_ok unapplied d levels k bes tes snap st Hd) as (st' & b & -> & _ & Hb).
    { intros e [He|He]%elem_layers; [apply Hmax, elem_of_app; left; by apply Hin|by apply Hmax']. }
    { done. }
    cbn. rewrite Hb. unfold db_history, written_after. split; intros (e & He & Hs & Hc); exists e; (split; [|done]).
    + rewrite elem_of_app, elem_layers in He. rewrite !elem_of_app. destruct He as [?|[He|?]]; [by left|right; left; by apply Hin|by right; right].
    + rewrite !elem_of_app in He. rewrite elem_of_app, elem_layers. destruct He as [?|[He|?]]; [by left| |by right; right]. right. left. apply Hout; [done|].
      unfold covers_key, write_op_covers_key in Hc. specialize (Hpt e He). destruct (kind e.1); try done; by apply bytes_eqb_spec in Hc.
  - intros s e snap x Hlt Hwh. destruct (Hrange s e snap Hlt Hwh) as (b & -> & Hb & _). cbn. intros -> Hx Hs Ht.
    unfold db_history in Hx. rewrite !elem_of_app in Hx. destruct (decide (x ∈ bulk)) as [|Hn]; [done|]. exfalso. apply (Hb eq_refl). exists x. split; [|done]. rewrite elem_of_app. tauto.
  - intros s e snap Hwh. destruct (bytes_leb e s) eqn:El; [unfold range_has_write_after; by rewrite El|].
    assert (bytes_lt s e) as Hlt by (apply not_true_iff_false in El; rewrite bytes_leb_spec in El; destruct (decide (bytes_lt s e)); tauto).
    destruct (Hrange s e snap Hlt (Hwh Hlt)) as (b & -> & _ & Hn). cbn. intros ->. eapply newer_in_sub; [by apply Hn|].
    intros x. unfold db_history. rewrite !elem_of_app. tauto.
  - done.
Qed.

(** ** Properties *)

Context (unapplied : list UnappliedOp) (d : Db T) (levels : list Z) (bulk : list entry) (tes : list (list entry)) (earliest last_seq : Z) (st : St).
Hypothesis (Hcm : committed unapplied d levels bulk tes last_seq).
Hypothesis (Hst : readable st).
Local Notation g := (db_guard unapplied d earliest last_seq st).
Local Notation H := (db_history unapplied d levels bulk tes).

(** C9: accepted transactions are serializable in commit order. Take a database
    whose memtables, bulk runs and tables hold their entries, in any state of its
    caches, and the probes it answers validation with. For every batch of
    members, optimistic or raw, validation ends without a failed assertion. A
    member it accepts, with snapshot and read set, commits behind the history [H]
    (the staged writes included) and the entries [W] the members accepted before
    it in the same group leave, at whatever sequences: every key it read still
    has, at its commit point, exactly the value it had at the snapshot; no key it
    puts or deletes was written after the snapshot (no lost update); and what
    was written after the snapshot into a range it deletes, if the memtables
    iterate over the range completely, can only be a row of a bulk run, which the
    range probe does not ask ([range_probe_misses_bulk]). *)
Theorem occ_serializable batch :
  Forall (λ p, pw_occ_err p = None) batch →
  ∃ out, validate_occ_batch g batch = Some out ∧ length out = length batch ∧
    ∀ i p snap keys W now, out !! i = Some p → pw_occ p = Some (snap, keys) → pw_occ_err p = None →
      written_by (concat (pw_ops <$> take i out)) W → (∀ e, e ∈ H → sequence e.1 ≤ now) → snap ≤ now →
      batch !! i = Some p ∧
      (∀ k v, k ∈ keys → reads (H ++ W) now k v ↔ reads H snap k v) ∧
      (∀ k v, OpPut k v ∈ pw_ops p ∨ OpDelete k ∈ pw_ops p → ¬ written_after k snap (H ++ W)) ∧
      (∀ s e x, OpDeleteRange s e ∈ pw_ops p → bytes_lt s e → whole d s e →
         x ∈ H ++ W → snap < sequence x.1 → touches_range s e x → x ∈ bulk).
Proof using PR Hcm Hst.
  intros Hfresh. pose proof (db_guard_ok unapplied d levels bulk tes earliest last_seq st Hcm Hst) as Hg.
  destruct (validate_ok g batch no_accepted [] no_accepted_ok) as (out & acc & E & _ & Hf).
  exists out. unfold validate_occ_batch. rewrite E. split; [done|]. split; [by eapply fates_length|].
  intros i p snap keys W now Hi Hocc Herr HW Hnow Hle. destruct (fates_at g [] batch out i p Hf Hi) as (q & Hq & [[-> Hadm]|[-> _]]); [|done].
  split; [done|]. by eapply admitted_stable.
Qed.

(** C32: a transaction is refused only for cause. A member of the batch that
    validation refuses keeps no write; it is optimistic; its error is
    [SnapshotTooOld] exactly when history behind its snapshot was dropped, and
    otherwise [TransactionConflict]. A conflict names its cause, when the
    memtables iterate completely over the ranges the member deletes: a key it
    read or writes that was written after its snapshot or by a member accepted
    before it; or, for a range it deletes, a write after the snapshot that
    touches the range or is a range deletion (the scan of a table also returns
    the range deletions outside), or a write of a member accepted before it into
    the range. *)
Theorem occ_refused_for_cause batch out i p e :
  Forall (λ p, pw_occ_err p = None) batch → validate_occ_batch g batch = Some out → out !! i = Some p → pw_occ_err p = Some e →
  pw_ops p = [] ∧ ∃ q snap keys, batch !! i = Some q ∧ pw_occ q = Some (snap, keys) ∧
    let before := concat (pw_ops <$> take i out) in
    (e = SnapshotTooOld snap earliest ∧ snap < earliest ∨
     e = TransactionConflict ∧ earliest ≤ snap ∧
       ((∀ s en, OpDeleteRange s en ∈ pw_ops q → bytes_lt s en → whole d s en) →
        (∃ k, (k ∈ keys ∨ (∃ v, OpPut k v ∈ pw_ops q) ∨ OpDelete k ∈ pw_ops q) ∧
          ((∃ x, x ∈ H ∧ snap < sequence x.1 ∧ covers_key k x) ∨ ∃ op, op ∈ before ∧ op_covers k op)) ∨
        ∃ s en, OpDeleteRange s en ∈ pw_ops q ∧
          ((∃ x, x ∈ H ∧ snap < sequence x.1 ∧ (touches_range s en x ∨ kind x.1 = RangeDeletion)) ∨ ∃ op, op ∈ before ∧ op_meets s en op))).
Proof using PR Hcm Hst.
  intros Hfresh Ev Hi Herr. pose proof (db_guard_ok unapplied d levels bulk tes earliest last_seq st Hcm Hst) as Hg.
  destruct (validate_ok g batch no_accepted [] no_accepted_ok) as (out' & acc & E & _ & Hf).
  unfold validate_occ_batch in Ev. rewrite E in Ev. injection Ev as ->.
  destruct (fates_at g [] batch out i p Hf Hi) as (q & Hq & [[-> _]|[-> Hadm]]).
  { rewrite (Forall_lookup_1 _ _ _ _ Hfresh Hq) in Herr. done. }
  split; [done|]. cbn in Herr. injection Herr as <-. destruct (pw_occ q) as [[snap keys]|] eqn:Eo; [|unfold admitted in Hadm; by rewrite Eo in Hadm].
  exists q, snap, keys. split; [done|]. split; [done|]. unfold refusal. rewrite Eo. cbn [g_earliest_readable_seq db_guard].
  destruct (Z.ltb_spec snap earliest) as [Hlt|Hge]; [by left|right]. split; [done|]. split; [done|]. intros Hwh. by apply (refused_cause g H bulk (whole d)).
Qed.

Lemma submitted_occ get_at snap floor cs do_sync active p :
  commit_with g (calls get_at (tx_new snap floor) cs).1 do_sync active = Submit p →
  pw_occ p = Some (snap, (tx_read_set (calls get_at (tx_new snap floor) cs).1).*1).
Proof.
  destruct (calls_floor get_at (tx_new snap floor) cs) as [Es Ef]. unfold commit_with, ensure_open. set (t := (calls _ _ _).1) in *. rewrite (Ef eq_refl).
  destruct (tx_staging t) as [|x l]; [|intros [= <-]; cbn; by rewrite Es]. destruct (tx_read_set t); [done|]. destruct (ensure_snapshot_readable _ _); [|done]. by destruct (negb _ && _).
Qed.

(** C10: a committed transaction ran as if alone. Let a client call get, put,
    delete and observe in any order on a transaction at a snapshot, each get
    answered from the staged writes, from the point cache when the published
    sequence equals the snapshot before and after the probe, or by the database
    at the snapshot; and let it submit the transaction. If validation accepts it
    anywhere in a group, then the same calls made by a transaction whose snapshot
    is the commit point, behind the history and the writes accepted before it,
    return the same values, record the same reads and stage the same writes: the
    transaction could have run there in one step. The answers the cache gives
    are assumed to be what [double_check_sound] proves of them, and the answers
    of the database to be the visible values at the snapshot. *)
Theorem transaction_serializable batch out i p get1 get2 snap floor cs1 cs2 do_sync active W now :
  Forall (λ p, pw_occ_err p = None) batch → validate_occ_batch g batch = Some out →
  commit_with g (calls get1 (tx_new snap floor) cs1).1 do_sync active = Submit p →
  batch !! i = Some p → option_map pw_occ_err (out !! i) = Some None →
  written_by (concat (pw_ops <$> take i out)) W → positive (H ++ W) → (∀ e, e ∈ H → sequence e.1 ≤ now) → snap ≤ now →
  db_answers get1 H snap → Forall (cache_honest H snap) cs1 →
  db_answers get2 (H ++ W) now → Forall (cache_honest (H ++ W) now) cs2 → cs1.*1 = cs2.*1 →
  same_tx (calls get1 (tx_new snap floor) cs1).1 (calls get2 (tx_new now floor) cs2).1 ∧
  (calls get1 (tx_new snap floor) cs1).2 = (calls get2 (tx_new now floor) cs2).2.
Proof using PR Hcm Hst.
  intros Hfresh Ev Hsub Hp Hacc HW Hpos Hnow Hle Hd1 Hc1 Hd2 Hc2 Ecs. destruct (out !! i) as [p'|] eqn:Ei; [|done]. injection Hacc as Herr.
  pose proof (db_guard_ok unapplied d levels bulk tes earliest last_seq st Hcm Hst) as Hg.
  destruct (validate_ok g batch no_accepted [] no_accepted_ok) as (out' & acc & E & _ & Hf).
  unfold validate_occ_batch in Ev. rewrite E in Ev. injection Ev as ->.
  destruct (fates_at g [] batch out i p' Hf Ei) as (q & Hq & [[-> Hadm]|[-> _]]); [|done]. rewrite Hp in Hq. injection Hq as <-.
  destruct (admitted_stable g H bulk (whole d) _ W p snap _ now Hg HW Hadm (submitted_occ _ _ _ _ _ _ _ Hsub) Hnow Hle) as (Hr & _).
  apply (calls_agree get1 get2 H (H ++ W)); try done.
  - intros e He. apply Hpos, elem_of_app. by left.
  - intros k Hk v. symmetry. apply Hr. apply calls_read_set. by right.
Qed.

(** A transaction that only read commits without a write: what it observed is
    still what the history shows. *)
Lemma read_only_stable t do_sync active k v :
  tx_finished t = false → tx_staging t = [] → commit_with g t do_sync active = Done (Ok tt) → k ∈ (tx_read_set t).*1 →
  tx_snapshot t ≤ last_seq → reads H last_seq k v ↔ reads H (tx_snapshot t) k v.
Proof using PR Hcm Hst.
  pose proof (db_guard_ok unapplied d levels bulk tes earliest last_seq st Hcm Hst) as Hg.
  intros Hf Hs Hc Hk Hle. unfold commit_with, ensure_open in Hc. rewrite Hf, Hs in Hc. destruct (tx_read_set t) as [|x l]; [by apply not_elem_of_nil in Hk|].
  destruct (ensure_snapshot_readable _ _); [|done]. rewrite <-(app_nil_r H) at 1. apply reads_unmoved; [|by intros e ?%not_elem_of_nil|apply (gk_last _ _ _ _ Hg)|done].
  intros Hw. destruct (negb _ && _) eqn:E; [done|]. apply andb_false_iff in E as [E|E].
  - apply negb_false_iff, Z.eqb_eq in E. destruct Hw as (e & He & Hlt & _). pose proof (gk_last _ _ _ _ Hg e He). lia.
  - rewrite existsb_false_iff in E. apply (gk_key _ _ _ _ Hg) in Hw. rewrite E in Hw; done.
Qed.
End db_guard.

(** ** Witnesses *)

#[local] Existing Instance poly_crc.
#[local] Existing Instance poly_file.
#[local] Existing Instance store_lz4.
#[local] Existing Instance store_laws.

(** Reads of a history of single puts. *)
Lemma reads_values l s k v : Forall (λ e : entry, kind e.1 = Value ∧ sequence e.1 ≤ s) l → NoDup ((λ e : entry, user_key e.1) <$> l) →
  reads l s k v ↔ ∃ e, e ∈ l ∧ user_key e.1 = k ∧ e.2 = v.
Proof.
  intros Hall Hnd. rewrite Forall_forall in Hall. split; [intros (e & (He & Hu & _) & Hv & _); by exists e|].
  intros (e & He & Hu & Hv). destruct (Hall e He) as [Hk Hs]. exists e. split; [by split_and!; [..|rewrite Hk|]|]. split; [done|]. split; [done|]. split.
  - intros e' (He' & Hu' & _) Hlt. apply list_elem_of_lookup in He as (i & Hi), He' as (j & Hj).
    assert (i = j) as <- by (eapply NoDup_lookup; [exact Hnd|by rewrite list_lookup_fmap, Hi|rewrite list_lookup_fmap, Hj; cbn; congruence]).
    rewrite Hi in Hj. injection Hj as <-. by apply (irreflexivity ikey_lt) in Hlt.
  - intros (rk & rv & Hr & Hkd & _). destruct (Hall _ Hr) as [Hc _]. cbn in Hc. congruence.
Qed.

Definition sample_view (l : list entry) (k : list byte) : option (list byte) := snd <$> find (λ e : entry, bytes_eqb (user_key e.1) k) l.

Lemma sample_view_answers l s k : Forall (λ e : entry, kind e.1 = Value ∧ sequence e.1 ≤ s) l → NoDup ((λ e : entry, user_key e.1) <$> l) →
  answers l s k (sample_view l k).
Proof.
  intros Hall Hnd v. rewrite reads_values by done. clear Hall. unfold sample_view. induction l as [|e l IH]; cbn.
  - split; [done|]. by intros (e & He%not_elem_of_nil & _).
  - apply NoDup_cons in Hnd as [Hni Hnd]. specialize (IH Hnd). setoid_rewrite elem_of_cons. destruct (bytes_eqb (user_key e.1) k) eqn:E; cbn.
    + apply bytes_eqb_spec in E. split; [intros [= <-]; exists e; auto|]. intros (e' & [->|He'] & Hu & <-); [done|]. destruct Hni. rewrite E, <-Hu. by apply (list_elem_of_fmap_2 (λ e : entry, user_key e.1)).
    + rewrite IH. split; [intros (e' & ? & ? & ?); eauto|]. intros (e' & [->|He'] & Hu & Hv); [|eauto]. rewrite (proj2 (bytes_eqb_spec _ _) Hu) in E. done.
Qed.

(** A database with [a] at 1 in its memtable and [b] at 2 in a bulk run. *)
Definition sample_mem : MemTable := put mem_new [x61] 1 [x31].
Definition sample_run : BulkRun := push run_default [x62] [x32] 2.
Definition sample_rows : list entry := [(mkIKey [x62] 2 Value, [x32])].
Definition sample_db : Db DbTable :=
  mkDb sample_mem None None [] [] mem_new [] {[ DEFAULT := sample_run ]} [] [] [] (rebuild_sst_runs (SR := table_reader (λ _, [])) [] []).
Definition sample_io : IoState := mkIo [] RawBlockCache.new.
Definition sample_guard : Guard := db_guard (SR := table_reader (λ _, [])) [] sample_db 1 2 sample_io.
Definition sample_history : list entry := [(mkIKey [x62] 2 Value, [x32]); (mkIKey [x61] 1 Value, [x31])].

Lemma empty_catalog : catalog_ok [].
Proof. by split; [|apply NoDup_nil_2..]. Qed.

Lemma sample_history_ok : db_history [] sample_db [] sample_rows [] = sample_history.
Proof. vm_compute. reflexivity. Qed.

Lemma sample_history_all (P : entry → Prop) : P (mkIKey [x62] 2 Value, [x32]) → P (mkIKey [x61] 1 Value, [x31]) → ∀ e, e ∈ sample_history → P e.
Proof. intros H1 H2 e [->|[->|He%not_elem_of_nil]%elem_of_cons]%elem_of_cons; done. Qed.

Lemma sample_committed : committed (RD := catalog_reads (λ _, []) [] empty_catalog) [] sample_db [] sample_rows [] 2.
Proof.
  assert (mem_layer_ok sample_mem) as Hm.
  { split; [apply insert_ok; [apply mem_new_ok|intros x Hx; by apply not_elem_of_nil in Hx|vm_compute; discriminate]|].
    intros e He. vm_compute in He. by apply list_elem_of_singleton in He as ->. }
  assert (bulk_layer_ok sample_run sample_rows) as Hb.
  { split; [|by intros e ->%list_elem_of_singleton]. apply (push_entries_ok run_default [] sample_rows); [apply run_default_ok|]. unfold strict. cbn. repeat constructor. }
  split.
  - intros key. exists [sample_rows]. split; [|split; [by intros e He|by intros e He _]].
    split; [by constructor|by constructor|constructor|constructor|reflexivity].
  - by intros e ->%list_elem_of_singleton.
  - intros e He. assert (e ∈ sample_history) as He' by (rewrite <-sample_history_ok; exact He). clear He; revert e He'. by apply sample_history_all.
  - intros e. rewrite sample_history_ok. revert e. by apply sample_history_all.
Qed.

(** A raw put of [c]; a transaction that read [b] at 2 and puts [d]; one that
    read [b] at 1, and one that read [c] at 2. *)
Definition sample_tx : PendingWrite := mkPending [OpPut [x64] [x34]] true 1 (Some (2, [[x62]; [x64]])) None.
Definition sample_batch : list PendingWrite :=
  [mkPending [OpPut [x63] [x33]] true 1 None None; sample_tx;
   mkPending [OpPut [x65] []] true 1 (Some (1, [[x62]])) None; mkPending [OpDelete [x66]] true 1 (Some (2, [[x63]])) None].
Definition sample_out : list PendingWrite :=
  [mkPending [OpPut [x63] [x33]] true 1 None None; sample_tx;
   mkPending [] true 1 (Some (1, [[x62]])) (Some TransactionConflict); mkPending [] true 1 (Some (2, [[x63]])) (Some TransactionConflict)].
Definition sample_after : list entry := [(mkIKey [x63] 3 Value, [x33])].

Lemma sample_fresh : Forall (λ p, pw_occ_err p = None) sample_batch.
Proof. repeat constructor. Qed.

Lemma sample_validated : validate_occ_batch sample_guard sample_batch = Some sample_out.
Proof. vm_compute. reflexivity. Qed.

Lemma sample_written : written_by (concat (pw_ops <$> take 1 sample_out)) sample_after.
Proof. intros e ->%list_elem_of_singleton. exists (OpPut [x63] [x33]). split; [left|done]. Qed.

Lemma sample_below e : e ∈ db_history [] sample_db [] sample_rows [] → sequence e.1 ≤ 3.
Proof. rewrite sample_history_ok. revert e. by apply sample_history_all. Qed.

Lemma sample_io_readable : readable (SstReads := catalog_reads (λ _, []) [] empty_catalog) sample_io.
Proof. constructor. Qed.

Lemma occ_serializable_witness :
  reads (sample_history ++ sample_after) 3 [x62] [x32] ↔ reads sample_history 2 [x62] [x32].
Proof.
  destruct (occ_serializable (PR := catalog_probes (λ _, []) [] empty_catalog) [] sample_db [] sample_rows [] 1 2 sample_io sample_committed sample_io_readable
    sample_batch sample_fresh) as (out & E & _ & H).
  change (db_guard [] sample_db 1 2 sample_io) with sample_guard in E. rewrite sample_validated in E. injection E as <-.
  destruct (H 1%nat sample_tx 2 [[x62]; [x64]] sample_after 3) as (_ & Hr & _);
    [reflexivity|reflexivity|reflexivity|exact sample_written|exact sample_below|lia|]. rewrite sample_history_ok in Hr. apply Hr. left.
Defined.

Lemma occ_refused_for_cause_witness :
  ∃ q snap keys, sample_batch !! 2%nat = Some q ∧ pw_occ q = Some (snap, keys) ∧ 1 ≤ snap.
Proof.
  destruct (occ_refused_for_cause (PR := catalog_probes (λ _, []) [] empty_catalog) [] sample_db [] sample_rows [] 1 2 sample_io sample_committed sample_io_readable
    sample_batch sample_out 2 (mkPending [] true 1 (Some (1, [[x62]])) (Some TransactionConflict)) TransactionConflict
    sample_fresh sample_validated eq_refl eq_refl) as (_ & q & snap & keys & Hq & Ho & [[Hc _]|(_ & Hle & _)]); [discriminate Hc|].
  exists q, snap, keys. split; [exact Hq|]. split; [exact Ho|exact Hle].
Defined.

(** The get of [b] is answered by the cache in the first run, by the database in
    the second. *)
Definition sample_calls (look : CacheLook) : list (TxCall * CacheLook) :=
  [(CallGet [x62], look); (CallPut [x64] [x34], mkLook 0 None 0); (CallGet [x64], mkLook 2 None 2)].
Definition sample_get (l : list entry) (snap : Z) (k : list byte) : Result CoreError (option (list byte)) := Ok (sample_view l k).

Lemma sample_answers : (∀ k, answers sample_history 2 k (sample_view sample_history k)) ∧
  ∀ k, answers (sample_history ++ sample_after) 3 k (sample_view (sample_history ++ sample_after) k).
Proof.
  split; intros k; apply sample_view_answers.
  - repeat constructor; vm_compute; discriminate.
  - vm_compute. repeat (constructor; [set_solver|]). constructor.
  - repeat constructor; vm_compute; discriminate.
  - vm_compute. repeat (constructor; [set_solver|]). constructor.
Qed.

Lemma transaction_serializable_witness :
  (calls (sample_get sample_history) (tx_new 2 7) (sample_calls (mkLook 2 (Some (Some [x32])) 2))).2 =
  (calls (sample_get (sample_history ++ sample_after)) (tx_new 3 7) (sample_calls (mkLook 3 None 3))).2.
Proof.
  apply (transaction_serializable (PR := catalog_probes (λ _, []) [] empty_catalog) [] sample_db [] sample_rows [] 1 2 sample_io sample_committed sample_io_readable
    sample_batch sample_out 1 sample_tx (sample_get sample_history) (sample_get (sample_history ++ sample_after)) 2 7
    (sample_calls (mkLook 2 (Some (Some [x32])) 2)) (sample_calls (mkLook 3 None 3)) true 1 sample_after 3);
    [exact sample_fresh|exact sample_validated|vm_compute; reflexivity|reflexivity|reflexivity|exact sample_written| |exact sample_below|lia|..]; try rewrite sample_history_ok.
  - intros e [He|He]%elem_of_app; [revert e He; by apply sample_history_all|by apply list_elem_of_singleton in He as ->].
  - intros k. exists (sample_view sample_history k). split; [reflexivity|apply sample_answers].
  - apply Forall_cons. split; [intros v [= <-]; apply (proj1 sample_answers [x62])|]. apply Forall_cons. split; [exact I|]. apply Forall_singleton. intros v [=].
  - intros k. exists (sample_view (sample_history ++ sample_after) k). split; [reflexivity|apply sample_answers].
  - apply Forall_cons. split; [intros v [=]|]. apply Forall_cons. split; [exact I|]. apply Forall_singleton. intros v [=].
  - reflexivity.
Defined.
