(* ===== verification/GroupCommit.v ===== *)
(** Group commit ([db_kernel.rs], [group_commit] and what it calls): many client
    batches, one frame of the write-ahead log, at most one barrier.

    A group is started (sequences assigned, large values spilled, records
    encoded into the pending frame), may absorb batches that arrive meanwhile,
    and is finished: value log, write-ahead log, barrier if one batch asked for
    it, and only then the memtable and the published sequence. The write-ahead
    log, the value log and the memtable are those of [WalWriter], [Spill] and
    [MemBulk]; an operation is [None] where the code panics. *)

From S2P Require Import Prelude Text ErrorKernel KeyKernel BatchKernel WalFormat WalFragment ValueLog Spill Visibility MemTable MemBulk WalWriter WalLog WalReader WalRecovery WalSource WalSystem OrdMap OccProbe Occ.

Local Open Scope Z_scope.

(** * State *)

(** The fields of [Db] a commit works on; [c_rest] is the rest of the engine. *)
Record CommitDb (X : Type) := mkCdb {
  c_next_seq : Z;
  c_published : Z;
  c_fenced : bool;
  c_wal : Wal;
  c_spill : Spill;
  c_mem : MemTable;
  c_unapplied : list UnappliedOp;
  c_ingested : Z;
  c_wal_bytes : Z;
  c_syncs : Z;
  c_rest : X
}.
Arguments mkCdb {X}.
Arguments c_next_seq {X}.
Arguments c_published {X}.
Arguments c_fenced {X}.
Arguments c_wal {X}.
Arguments c_spill {X}.
Arguments c_mem {X}.
Arguments c_unapplied {X}.
Arguments c_ingested {X}.
Arguments c_wal_bytes {X}.
Arguments c_syncs {X}.
Arguments c_rest {X}.

(** What the rest of the engine does during a commit: admission (which may
    reclaim space or flush before it answers), the ingest latch, the change
    feed, the read caches and the flush a full memtable triggers. Nothing is
    assumed of it. [buffer] is the address of the value stored at a sequence:
    clients may share buffers between operations. *)
Class Engine (X : Type) := {
  ensure_disk_pressure_admitted : CommitDb X → CommitDb X * Result CoreError unit;
  ensure_write_admitted : CommitDb X → CommitDb X * Result CoreError unit;
  observe_bulk_batch : list BatchOp → CommitDb X → X;
  feed_changes : list (list WriteOp) → X → X;
  persist_changelog : X → X;
  note_dirty_points : list WriteOp → X → X;
  invalidate_read_answers : Z → X → X;
  auto_flush : CommitDb X → CommitDb X;
  to_string : CoreError → text;
  buffer : Z → Z
}.

(** [GroupInFlight] *)
Abbreviation Member := (nat * list WriteOp * Z)%type.
Record Group := mkGroup {
  g_results : list (option (Result CoreError Z));
  g_pending : list Member;
  g_appended : list Member;
  g_any_sync : bool;
  g_next_i : nat;
  g_failed : bool
}.

Section group.
Context {X : Type} `{CC : Crc32c, EN : Engine X}.

Definition set_next_seq (n : Z) (d : CommitDb X) : CommitDb X :=
  mkCdb n (c_published d) (c_fenced d) (c_wal d) (c_spill d) (c_mem d) (c_unapplied d) (c_ingested d) (c_wal_bytes d) (c_syncs d) (c_rest d).
Definition set_published (n : Z) (d : CommitDb X) : CommitDb X :=
  mkCdb (c_next_seq d) n (c_fenced d) (c_wal d) (c_spill d) (c_mem d) (c_unapplied d) (c_ingested d) (c_wal_bytes d) (c_syncs d) (c_rest d).
Definition set_fenced (d : CommitDb X) : CommitDb X :=
  mkCdb (c_next_seq d) (c_published d) true (c_wal d) (c_spill d) (c_mem d) (c_unapplied d) (c_ingested d) (c_wal_bytes d) (c_syncs d) (c_rest d).
Definition set_wal (l : Wal) (d : CommitDb X) : CommitDb X :=
  mkCdb (c_next_seq d) (c_published d) (c_fenced d) l (c_spill d) (c_mem d) (c_unapplied d) (c_ingested d) (c_wal_bytes d) (c_syncs d) (c_rest d).
Definition set_spill (s : Spill) (d : CommitDb X) : CommitDb X :=
  mkCdb (c_next_seq d) (c_published d) (c_fenced d) (c_wal d) s (c_mem d) (c_unapplied d) (c_ingested d) (c_wal_bytes d) (c_syncs d) (c_rest d).
Definition set_mem (m : MemTable) (d : CommitDb X) : CommitDb X :=
  mkCdb (c_next_seq d) (c_published d) (c_fenced d) (c_wal d) (c_spill d) m (c_unapplied d) (c_ingested d) (c_wal_bytes d) (c_syncs d) (c_rest d).
Definition set_unapplied (u : list UnappliedOp) (d : CommitDb X) : CommitDb X :=
  mkCdb (c_next_seq d) (c_published d) (c_fenced d) (c_wal d) (c_spill d) (c_mem d) u (c_ingested d) (c_wal_bytes d) (c_syncs d) (c_rest d).
Definition set_ingested (n : Z) (d : CommitDb X) : CommitDb X :=
  mkCdb (c_next_seq d) (c_published d) (c_fenced d) (c_wal d) (c_spill d) (c_mem d) (c_unapplied d) n (c_wal_bytes d) (c_syncs d) (c_rest d).
Definition set_wal_bytes (n : Z) (d : CommitDb X) : CommitDb X :=
  mkCdb (c_next_seq d) (c_published d) (c_fenced d) (c_wal d) (c_spill d) (c_mem d) (c_unapplied d) (c_ingested d) n (c_syncs d) (c_rest d).
Definition note_wal_sync (d : CommitDb X) : CommitDb X :=
  mkCdb (c_next_seq d) (c_published d) (c_fenced d) (c_wal d) (c_spill d) (c_mem d) (c_unapplied d) (c_ingested d) (c_wal_bytes d) (c_syncs d + 1) (c_rest d).
Definition set_rest (x : X) (d : CommitDb X) : CommitDb X :=
  mkCdb (c_next_seq d) (c_published d) (c_fenced d) (c_wal d) (c_spill d) (c_mem d) (c_unapplied d) (c_ingested d) (c_wal_bytes d) (c_syncs d) x.

(** * Sequences *)

Definition last_sequence (d : CommitDb X) : Z := sat_sub (c_next_seq d) 1.

(** [fence_admission_plan] and [ensure_not_fenced]. *)
Inductive FenceAdmission := AdmitOps | RefuseFenced.
Definition fence_admission_plan (durability_fenced : bool) : FenceAdmission := if durability_fenced then RefuseFenced else AdmitOps.
Definition ensure_not_fenced (d : CommitDb X) : Result CoreError unit :=
  match fence_admission_plan (c_fenced d) with RefuseFenced => Err DurabilityFenced | AdmitOps => Ok tt end.

Definition alloc_seq (d : CommitDb X) : CommitDb X * Result CoreError Z :=
  let seq := c_next_seq d in
  if (MAX_ASSIGNABLE_SEQUENCE_NUMBER <? seq) then (d, Err (Internal [Lit "sequence number space exhausted"]))
  else (set_next_seq (seq + 1) d, Ok seq).

(** The value stored for an operation: spilled, or inline and escaped. *)
Definition stored_value (spill : bool) (value : list byte) (d : CommitDb X) : option (CommitDb X * Result CoreError (list byte)) :=
  if spill then '(s, r) ← maybe_spill_large_value value (c_spill d); Some (set_spill s d, r)
  else Some (d, Ok (escape_inline_value value)).

(** The loop of [prepare_write_ops_spill]. *)
Fixpoint prepare_loop (spill : bool) (ops : list BatchOp) (records : list WriteOp) (d : CommitDb X)
    : option (CommitDb X * Result CoreError (list WriteOp)) :=
  match ops with
  | [] => Some (d, Ok records)
  | op :: ops =>
      match alloc_seq d with
      | (d, Err e) => Some (d, Err e)
      | (d, Ok seq) =>
          match op with
          | OpPut key value =>
              '(d, r) ← stored_value spill value d;
              match r with
              | Err e => Some (d, Err e)
              | Ok stored =>
                  let d := set_ingested (sat_add (c_ingested d) (Z.of_nat (length value))) d in
                  prepare_loop spill ops (records ++ [op_put seq key (mkBytes (buffer seq) stored)]) d
              end
          | OpDelete key => prepare_loop spill ops (records ++ [op_delete seq key]) d
          | OpDeleteRange start end_ =>
              prepare_loop spill ops (records ++ [op_delete_range seq start (mkBytes (buffer seq) end_)]) d
          end
      end
  end.

Definition prepare_write_ops_spill (batch : list BatchOp) (spill : bool) (d : CommitDb X)
    : option (CommitDb X * Result CoreError (list WriteOp * Z)) :=
  match ensure_not_fenced d with
  | Err e => Some (d, Err e)
  | Ok _ =>
      let seq_checkpoint := c_next_seq d in
      '(d, r) ← prepare_loop spill batch [] d;
      match r with
      | Err e => Some (set_next_seq seq_checkpoint d, Err e)
      | Ok records =>
          if batch_is_empty (length records) then Some (d, Ok (records, last_sequence d))
          else
            let records := share_consecutive_equal_values records in
            Some (d, Ok (records, from_option op_sequence (last_sequence d) (last records)))
      end
  end.
Definition prepare_write_ops (batch : list BatchOp) := prepare_write_ops_spill batch true.

(** [publish_sequence]; the samples kept for a time horizon are left out. *)
Definition publish_sequence (seq : Z) (d : CommitDb X) : CommitDb X :=
  let d := set_rest (invalidate_read_answers seq (c_rest d)) d in
  if c_published d <? seq then set_published seq d else d.

(** * The group *)

(** [wal_sync_required], [group_batch_sync_plan], [fence_publish_seq] *)
Definition wal_sync_required (client_set client_sync db_sync : bool) : bool := if client_set then client_sync else db_sync.
Inductive GroupSyncPlan := BatchForcesSync | BatchRidesGroup.
Definition group_batch_sync_plan (client_sync : bool) : GroupSyncPlan := if client_sync then BatchForcesSync else BatchRidesGroup.
Definition fence_publish_seq (member_seqs : list Z) : Z := foldl (λ best s, if best <? s then s else best) 0 member_seqs.

(** [GroupInFlight]'s methods. *)
Definition group_needs_sync (g : Group) : bool :=
  wal_sync_required true (g_any_sync g) false && negb (g_failed g) && negb (batch_is_empty (length (g_appended g))).
Definition max_appended_seq (g : Group) : Z := fence_publish_seq (snd <$> g_appended g).

Definition index (m : Member) : nat := m.1.1.
Definition member_ops (m : Member) : list WriteOp := m.1.2.

(** [results[*i] = Some(r)] for every member; the indices are in range
    ([start_ok] below). *)
Definition set_results (ms : list Member) (r : Result CoreError Z) (results : list (option (Result CoreError Z))) :=
  foldl (λ rs m, <[index m := Some r]> rs) results ms.
Definition finish_group_results (results : list (option (Result CoreError Z))) : list (Result CoreError Z) :=
  default (Err (Internal [Lit "group commit missing result"])) <$> results.

Definition failed_with (prefix : string) (e : CoreError) : Result CoreError Z := Err (Internal [Lit prefix; Str (to_string e)]).
Definition fail_sync (g : Group) (e : CoreError) : list (Result CoreError Z) :=
  finish_group_results (set_results (g_appended g) (failed_with "group wal sync failed: " e) (g_results g)).
Definition fail_io (g : Group) (e : CoreError) : list (Result CoreError Z) :=
  finish_group_results (set_results (g_appended g ++ g_pending g) (failed_with "group wal write/sync failed: " e) (g_results g)).

(** [group_admit]: the first error answers every batch. *)
Definition admit_error (e : CoreError) : CoreError :=
  match e with
  | WriteStall _ _ | WriteStallMem _ _ | DiskPressure _ _ => e
  | _ => Internal [Str (to_string e)]
  end.
Definition group_admit (n : nat) (d : CommitDb X) : CommitDb X * Result (list (Result CoreError Z)) unit :=
  match ensure_disk_pressure_admitted d with
  | (d, Err (DiskPressure available need)) => (d, Err (replicate n (Err (DiskPressure available need))))
  | (d, _) =>
      match ensure_write_admitted d with
      | (d, Ok _) => (d, Ok tt)
      | (d, Err e) => (d, Err (replicate n (Err (admit_error e))))
      end
  end.

(** [group_prepare] *)
Definition prepare_batch (g : Group) (i : nat) (ops : list BatchOp) (do_sync : bool) (d : CommitDb X) : option (Group * CommitDb X) :=
  let answer r := mkGroup (<[i := Some r]> (g_results g)) (g_pending g) (g_appended g) (g_any_sync g) (g_next_i g) (g_failed g) in
  if batch_is_empty (length ops) then Some (answer (Ok (last_sequence d)), d)
  else
    let d := set_rest (observe_bulk_batch ops d) d in
    '(d, r) ← prepare_write_ops ops d;
    match r with
    | Err e => Some (answer (Err e), d)
    | Ok (write_ops, last_seq) =>
        let any_sync := match group_batch_sync_plan do_sync with BatchForcesSync => true | BatchRidesGroup => g_any_sync g end in
        Some (mkGroup (g_results g) (g_pending g ++ [(i, write_ops, last_seq)]) (g_appended g) any_sync (g_next_i g) (g_failed g), d)
    end.
Fixpoint group_prepare (g : Group) (batches : list (list BatchOp * bool)) (i : nat) (d : CommitDb X) : option (Group * CommitDb X) :=
  match batches with
  | [] => Some (g, d)
  | (ops, do_sync) :: batches => '(g, d) ← prepare_batch g i ops do_sync d; group_prepare g batches (S i) d
  end.

(** [group_append_ops]: the members move from pending to appended. *)
Definition fail_pending (g : Group) (r : Result CoreError Z) : Group :=
  mkGroup (set_results (g_pending g) r (g_results g)) [] (g_appended g) (g_any_sync g) (g_next_i g) true.
Definition group_append_ops (g : Group) (d : CommitDb X) : option (Group * CommitDb X) :=
  if g_failed g || batch_is_empty (length (g_pending g)) then Some (g, d)
  else
    match ensure_not_fenced d with
    | Err e => Some (fail_pending g (failed_with "group wal append failed: " e), d)
    | Ok _ =>
        '(r, l) ← encode_write_op_batches (member_ops <$> g_pending g) (c_wal d);
        let d := set_wal l d in
        match r with
        | Ok n =>
            Some (mkGroup (g_results g) [] (g_appended g ++ g_pending g) (g_any_sync g) (g_next_i g) (g_failed g),
                  set_wal_bytes (sat_add (c_wal_bytes d) n) d)
        | Err e => Some (fail_pending g (failed_with "group wal append failed: " e), d)
        end
    end.

Definition prepare_vlog (do_sync : bool) (d : CommitDb X) : CommitDb X * Result CoreError unit :=
  let '(s, r) := vlog_prepare_wal do_sync (c_spill d) in (set_spill s d, r).

Definition group_start (batches : list (list BatchOp * bool)) (d : CommitDb X)
    : option (CommitDb X * Result (list (Result CoreError Z)) Group) :=
  let n := length batches in
  let g := mkGroup (replicate n None) [] [] false n false in
  if batch_is_empty n then Some (d, Ok g)
  else
    match group_admit n d with
    | (d, Err results) => Some (d, Err results)
    | (d, Ok _) =>
        '(g, d) ← group_prepare g batches 0 d;
        match prepare_vlog (g_any_sync g) d with
        | (d, Err e) => Some (d, Err (replicate n (failed_with "vlog flush failed: " e)))
        | (d, Ok _) => '(g, d) ← group_append_ops g d; Some (d, Ok g)
        end
    end.

Definition group_absorb (g : Group) (batches : list (list BatchOp * bool)) (d : CommitDb X) : option (CommitDb X * Group) :=
  if g_failed g || batch_is_empty (length batches) then Some (d, g)
  else
    let base := g_next_i g in
    let g := mkGroup (g_results g ++ replicate (length batches) None) (g_pending g) (g_appended g) (g_any_sync g)
               (base + length batches) (g_failed g) in
    '(g, d) ← group_prepare g batches base d;
    match prepare_vlog (g_any_sync g) d with
    | (d, Err e) => Some (d, fail_pending g (failed_with "vlog flush failed: " e))
    | (d, Ok _) => '(g, d) ← group_append_ops g d; Some (d, g)
    end.

(** [wal_sync_group] *)
Definition wal_sync_group (d : CommitDb X) : option (CommitDb X * Result CoreError unit) :=
  match ensure_not_fenced d with
  | Err e => Some (d, Err e)
  | Ok _ =>
      '(r, l) ← sync_data_inner (c_wal d);
      let d := set_wal l d in
      match wal_commit_plan true (is_err r), r with
      | AppendSyncFence, Err e => Some (set_fenced d, Err e)
      | AppendSyncFence, Ok _ => None
      | _, _ => Some (note_wal_sync d, Ok tt)
      end
  end.

(** [stage_unapplied] and [unstage_unapplied]. *)
Definition unapplied_of (op : WriteOp) : UnappliedOp :=
  mkUnapplied (op_sequence op) (op_kind op) (op_key op) (default [] (write_op_range_end (op_kind op) (as_ref (op_value op)))).
Definition stage_unapplied (g : Group) (d : CommitDb X) : CommitDb X :=
  set_unapplied (c_unapplied d ++ (unapplied_of <$> concat (member_ops <$> g_appended g))) d.
Definition unstage_unapplied (g : Group) (d : CommitDb X) : CommitDb X :=
  if batch_is_empty (length (c_unapplied d)) then d
  else
    let seqs := op_sequence <$> concat (member_ops <$> g_appended g) in
    if bool_decide (seqs = []) then d
    else set_unapplied (filter (λ u, u_seq u ∉ seqs) (c_unapplied d)) d.

(** [apply_ops_owned]; the hint is the length of the vector. *)
Definition op_entry (op : WriteOp) : InternalKey * list byte := (mkIKey (op_key op) (op_sequence op) (op_kind op), as_ref (op_value op)).
Definition apply_ops_owned (m : MemTable) (ops : list WriteOp) : MemTable := insert_many m (op_entry <$> ops) (length ops).

Definition apply_member (st : list (option (Result CoreError Z)) * CommitDb X) (m : Member) : list (option (Result CoreError Z)) * CommitDb X :=
  let '(results, d) := st in
  let d := set_rest (note_dirty_points (member_ops m) (c_rest d)) d in
  (<[index m := Some (Ok m.2)]> results, set_mem (apply_ops_owned (c_mem d) (member_ops m)) d).

Definition changelog_durable_commit_fate (client_set client_sync db_sync : bool) : bool :=
  if client_set then client_sync else db_sync.

(** [group_apply]: the state with the members applied, and the flush that ends
    it. *)
Definition group_apply_mem (g : Group) (d : CommitDb X) : list (option (Result CoreError Z)) * CommitDb X :=
  let d := set_rest (feed_changes (member_ops <$> g_appended g) (c_rest d)) d in
  let d := if changelog_durable_commit_fate true (g_any_sync g) false then set_rest (persist_changelog (c_rest d)) d else d in
  foldl apply_member (g_results g, d) (g_appended g).
Definition group_apply (g : Group) (d : CommitDb X) : CommitDb X * list (Result CoreError Z) :=
  let d := unstage_unapplied g d in
  if g_failed g then
    (d, finish_group_results (foldl (λ rs m, match rs !! index m with
                                             | Some None => <[index m := Some (Err (Internal [Lit "group wal append failed"]))]> rs
                                             | _ => rs
                                             end) (g_results g) (g_appended g)))
  else if batch_is_empty (length (g_appended g)) then (d, finish_group_results (g_results g))
  else let '(results, d) := group_apply_mem g d in (auto_flush d, finish_group_results results).

(** The log's part of [group_finish]. *)
Definition group_log (need_sync : bool) (d : CommitDb X) : option (CommitDb X * Result CoreError unit) :=
  match wal_commit_plan need_sync false with
  | AppendApplyOk =>
      '(r, l) ← write_pending_frame (c_wal d);
      let d := set_wal l d in
      Some (match r with Err e => (set_fenced d, Err e) | Ok _ => (d, Ok tt) end)
  | AppendSyncApplyOk | AppendSyncFence => wal_sync_group d
  end.

Definition group_finish (g : Group) (d : CommitDb X) : option (CommitDb X * list (Result CoreError Z)) :=
  match prepare_vlog (group_needs_sync g) d with
  | (d, Err e) => Some (set_fenced d, fail_sync g e)
  | (d, Ok _) =>
      '(d, r) ← group_log (group_needs_sync g) d;
      match r with
      | Err e => Some (d, fail_sync g e)
      | Ok _ => let '(d, results) := group_apply g d in Some (publish_sequence (max_appended_seq g) d, results)
      end
  end.

Definition group_commit (batches : list (list BatchOp * bool)) (d : CommitDb X) : option (CommitDb X * list (Result CoreError Z)) :=
  '(d, r) ← group_start batches d;
  match r with
  | Ok g => group_finish g d
  | Err results => Some (d, results)
  end.
End group.

(** * Sequences are assigned in order *)

Section lemmas.
Context {X : Type} `{CC : Crc32c, EN : Engine X}.
Implicit Types (d : CommitDb X).

(** [w] is the record of [op] at sequence [seq]. *)
Definition op_of (op : BatchOp) (seq : Z) (w : WriteOp) : Prop :=
  op_sequence w = seq ∧
  match op with
  | OpPut key value => op_kind w = Value ∧ op_key w = key ∧ stores value (as_ref (op_value w))
  | OpDelete key => op_kind w = Deletion ∧ op_key w = key ∧ as_ref (op_value w) = []
  | OpDeleteRange start end_ => op_kind w = RangeDeletion ∧ op_key w = start ∧ as_ref (op_value w) = end_
  end.

(** The records of a batch, at consecutive sequences. *)
Fixpoint assigned (seq : Z) (ops : list BatchOp) (ws : list WriteOp) : Prop :=
  match ops, ws with
  | [], [] => True
  | op :: ops, w :: ws => op_of op seq w ∧ assigned (seq + 1) ops ws
  | _, _ => False
  end.

(** Preparing touches the counter, the value log and the rest of the engine. *)
Definition untouched d d' : Prop :=
  c_published d' = c_published d ∧ c_fenced d' = c_fenced d ∧ c_wal d' = c_wal d ∧ c_mem d' = c_mem d ∧
  c_unapplied d' = c_unapplied d.

#[export] Instance untouched_po : PreOrder untouched.
Proof. split; [by intros d|]. unfold untouched. intros d1 d2 d3. intuition congruence. Qed.

Lemma assigned_length seq ops ws : assigned seq ops ws → length ws = length ops.
Proof. revert seq ws. induction ops as [|op ops IH]; intros seq [|w ws] H; try done. cbn. f_equal. by eapply IH, H. Qed.

Lemma assigned_snoc seq ops ws op w :
  assigned seq ops ws → op_of op (seq + Z.of_nat (length ops)) w → assigned seq (ops ++ [op]) (ws ++ [w]).
Proof.
  revert seq ws. induction ops as [|o ops IH]; intros seq [|w' ws] H Hw; try done; cbn in *.
  - by rewrite Z.add_0_r in Hw.
  - split; [tauto|]. apply IH; [tauto|]. by replace (seq + 1 + Z.of_nat (length ops)) with (seq + Z.of_nat (S (length ops))) by lia.
Qed.

Lemma assigned_eq seq ops ws ws' : Forall2 op_eq ws ws' → assigned seq ops ws → assigned seq ops ws'.
Proof.
  intros Hall. revert seq ops. induction Hall as [|w w' ws ws' (H1 & H2 & H3 & H4) _ IH]; intros seq [|op ops] H; try done.
  destruct H as [Ho H]. split; [|by apply IH]. unfold op_of in *. rewrite <-H1, <-H2, <-H3, <-H4. done.
Qed.

Lemma assigned_seqs seq ops ws : assigned seq ops ws → op_sequence <$> ws = seqZ seq (Z.of_nat (length ops)).
Proof.
  revert seq ws. induction ops as [|op ops IH]; intros seq [|w ws] H; try done. destruct H as [[Hs _] H].
  rewrite fmap_cons, (IH _ _ H), Hs. cbn [length]. rewrite (seqZ_cons seq) by lia. f_equal. f_equal; lia.
Qed.

Lemma assigned_last seq ops ws n : ops ≠ [] → assigned seq ops ws → from_option op_sequence n (last ws) = seq + Z.of_nat (length ops) - 1.
Proof.
  revert seq ws. induction ops as [|op ops IH]; intros seq [|w ws] Hne H; try done. destruct H as [[Hs _] H].
  destruct ops as [|op' ops]; [destruct ws; [cbn; lia|done]|]. destruct ws as [|w' ws]; [done|].
  change (last (w :: w' :: ws)) with (last (w' :: ws)). rewrite (IH _ _ ltac:(done) H). cbn [length]. lia.
Qed.

Lemma stored_value_ok (spill : bool) value d :
  ∃ d' r, stored_value spill value d = Some (d', r) ∧ untouched d d' ∧ c_next_seq d' = c_next_seq d ∧ (∀ st, r = Ok st → stores value st).
Proof.
  unfold stored_value. destruct spill.
  - destruct (maybe_spill_total value (c_spill d)) as [[s r] E]. rewrite E. eexists _, _. split; [done|]. split_and!; try done.
    intros st ->. by eapply maybe_spill_stores.
  - eexists _, _. split; [done|]. split; [done|]. split; [done|]. intros st [= <-]. by left.
Qed.

Lemma prepare_loop_ok spill ops done_ ws d :
  assigned (c_next_seq d - Z.of_nat (length done_)) done_ ws →
  ∃ d' r, prepare_loop spill ops ws d = Some (d', r) ∧ untouched d d' ∧
    ∀ ws', r = Ok ws' → assigned (c_next_seq d - Z.of_nat (length done_)) (done_ ++ ops) ws' ∧
      c_next_seq d' = c_next_seq d + Z.of_nat (length ops).
Proof.
  revert done_ ws d. induction ops as [|op ops IH]; intros done_ ws d Hws; cbn [prepare_loop].
  { eexists _, _. split; [done|]. split; [done|]. intros ws' [= <-]. rewrite app_nil_r. split; [done|]. cbn. lia. }
  unfold alloc_seq. destruct (_ <? _); [by eexists _, _|]. set (d1 := set_next_seq _ d).
  assert (∀ d2 w, untouched d d2 → c_next_seq d2 = c_next_seq d + 1 → op_of op (c_next_seq d) w →
    ∃ d' r, prepare_loop spill ops (ws ++ [w]) d2 = Some (d', r) ∧ untouched d d' ∧
      ∀ ws', r = Ok ws' → assigned (c_next_seq d - Z.of_nat (length done_)) (done_ ++ op :: ops) ws' ∧
        c_next_seq d' = c_next_seq d + Z.of_nat (length (op :: ops))) as Hnext.
  { intros d2 w Hu Hn Hw. destruct (IH (done_ ++ [op]) (ws ++ [w]) d2) as (d' & r & E & Hu' & Hr).
    { rewrite Hn, length_app. cbn [length]. replace (_ - _) with (c_next_seq d - Z.of_nat (length done_)) by lia.
      apply assigned_snoc; [done|]. by replace (_ + _) with (c_next_seq d) by lia. }
    eexists _, _. split; [exact E|]. split; [by etrans|]. intros ws' ->. destruct (Hr ws' eq_refl) as [Ha Hs].
    rewrite <-app_assoc, length_app, Hn in Ha. cbn [length app] in *. split; [|lia].
    by replace (c_next_seq d + 1 - Z.of_nat (length done_ + 1)) with (c_next_seq d - Z.of_nat (length done_)) in Ha by lia. }
  destruct op as [key value|key|start end_].
  - destruct (stored_value_ok spill value d1) as (d2 & r & -> & Hu & Hn & Hst). cbn [mbind option_bind].
    destruct r as [st|e]; [|eexists _, _; split; [done|]; split; [by etrans; [|exact Hu]|done]].
    apply Hnext; [by etrans; [|exact Hu]|done|]. split; [done|]. by auto.
  - by apply Hnext.
  - by apply Hnext.
Qed.

Lemma share_op_eq ws : Forall2 op_eq ws (share_consecutive_equal_values ws).
Proof. destruct ws as [|w ws]; [constructor|]. constructor; [done|apply share_from_op_eq]. Qed.

(** A batch is prepared whole, at the next sequences, or not at all. *)
Lemma prepare_ok batch d :
  batch ≠ [] → ∃ d' r, prepare_write_ops batch d = Some (d', r) ∧ untouched d d' ∧
    match r with
    | Err _ => c_next_seq d' = c_next_seq d
    | Ok (ws, last_) => c_fenced d = false ∧ assigned (c_next_seq d) batch ws ∧
        last_ = c_next_seq d + Z.of_nat (length batch) - 1 ∧ c_next_seq d' = c_next_seq d + Z.of_nat (length batch)
    end.
Proof.
  intros Hne. unfold prepare_write_ops, prepare_write_ops_spill, ensure_not_fenced.
  destruct (c_fenced d) eqn:Hf; cbn [fence_admission_plan]; [by eexists _, _|].
  destruct (prepare_loop_ok true batch [] [] d) as (d' & r & E & Hu & Hr); [done|]. rewrite E. cbn [mbind option_bind].
  destruct r as [ws|e]; [|by eexists _, _]. destruct (Hr ws eq_refl) as [Ha Hn]. rewrite Z.sub_0_r in Ha. cbn [app] in Ha.
  assert (batch_is_empty (length ws) = false) as ->.
  { rewrite (assigned_length _ _ _ Ha). by destruct batch. }
  eexists _, _. split; [done|]. split; [done|]. cbn. apply (assigned_eq _ _ _ _ (share_op_eq ws)) in Ha.
  split_and!; [done|done|by apply assigned_last|done].
Qed.

(** * The members of a group *)

(** Members, in the order of their batches, at consecutive sequences from [s] to
    before [s']; none below index [i]. *)
Inductive queue (batches : list (list BatchOp * bool)) : nat → Z → list Member → Z → Prop :=
| queue_nil i s : queue batches i s [] s
| queue_cons i s j b sync ws rest s' :
    (i ≤ j)%nat → batches !! j = Some (b, sync) → b ≠ [] → assigned s b ws →
    queue batches (S j) (s + Z.of_nat (length b)) rest s' →
    queue batches i s ((j, ws, s + Z.of_nat (length b) - 1) :: rest) s'.

Lemma queue_weaken batches i i' s ms s' : (i' ≤ i)%nat → queue batches i s ms s' → queue batches i' s ms s'.
Proof. intros Hi H. inversion H; subst; [constructor|]. econstructor; [|done..]. lia. Qed.

Lemma queue_more batches more i s ms s' : queue batches i s ms s' → queue (batches ++ more) i s ms s'.
Proof. induction 1 as [|i s j b sync ws rest s' Hi Hb Hne Ha _ IH]; [constructor|]. econstructor; [done| |done..]. by apply lookup_app_l_Some. Qed.

Lemma queue_bound batches i s ms s' m : queue batches i s ms s' → m ∈ ms → (i ≤ index m < length batches)%nat.
Proof.
  induction 1 as [|i s j b sync ws rest s' Hi Hb Hne Ha _ IH]; [by intros ?%not_elem_of_nil|].
  intros [->|Hm]%elem_of_cons; [|specialize (IH Hm); lia]. split; [done|]. by eapply lookup_lt_Some.
Qed.

Lemma queue_app batches i k s1 s2 s3 ms ms' :
  queue batches i s1 ms s2 → (∀ m, m ∈ ms → (index m < k)%nat) → (i ≤ k)%nat → queue batches k s2 ms' s3 → queue batches i s1 (ms ++ ms') s3.
Proof.
  induction 1 as [i s|i s j b sync ws rest s' Hi Hb Hne Ha _ IH]; cbn [app]; intros Hk Hik Hq.
  - by eapply queue_weaken.
  - econstructor; [done..|]. apply IH; [|specialize (Hk _ (list_elem_of_here _ _)); cbn in Hk; lia|done].
    intros m Hm. apply Hk. by right.
Qed.

Lemma queue_nodup batches i s ms s' : queue batches i s ms s' → NoDup (index <$> ms).
Proof.
  induction 1 as [|i s j b sync ws rest s' Hi Hb Hne Ha Hq IH]; [constructor|]. cbn. constructor; [|done].
  intros (m & Hj & Hm)%list_elem_of_fmap. apply (queue_bound _ _ _ _ _ _ Hq) in Hm. cbn in *. lia.
Qed.

(** A batch below [i] has been answered (and then only an empty one with
    success) or is a member; the others have not been looked at. *)
Record settled (batches : list (list BatchOp * bool)) (i : nat) (results : list (option (Result CoreError Z))) (ms : list Member) : Prop := {
  st_length : length results = length batches;
  st_members m : m ∈ ms → (index m < i)%nat;
  st_later j : (i ≤ j < length batches)%nat → results !! j = Some None;
  st_seen j b sync : (j < i)%nat → batches !! j = Some (b, sync) →
    (j ∈ index <$> ms ∧ results !! j = Some None) ∨
    (j ∉ index <$> ms ∧ ∃ r, results !! j = Some (Some r) ∧ (is_err r = false → b = []))
}.

Lemma settled_answer batches i results ms r b sync :
  settled batches i results ms → batches !! i = Some (b, sync) → (is_err r = false → b = []) →
  settled batches (S i) (<[i := Some r]> results) ms.
Proof.
  intros [Hl Hm Hlat Hs] Hb Hr. pose proof (lookup_lt_Some _ _ _ Hb) as Hlt. split.
  - by rewrite length_insert.
  - intros m Hin. specialize (Hm m Hin). lia.
  - intros j Hj. rewrite list_lookup_insert_ne by lia. apply Hlat. lia.
  - intros j b' sync' Hj Hb'. destruct (decide (j = i)) as [->|Hne].
    + right. split; [|exists r; rewrite list_lookup_insert_eq by lia; split; [done|]; naive_solver].
      intros (m & Hi & Hin)%list_elem_of_fmap. specialize (Hm m Hin). lia.
    + rewrite list_lookup_insert_ne by done. apply (Hs j b' sync'); [lia|done].
Qed.

Lemma settled_member batches i results ms m :
  settled batches i results ms → index m = i → settled batches (S i) results (ms ++ [m]).
Proof.
  intros [Hl Hm Hlat Hs] Hi. split.
  - done.
  - intros m' [Hin| ->%list_elem_of_singleton]%elem_of_app; [specialize (Hm m' Hin)|]; lia.
  - intros j Hj. apply Hlat. lia.
  - intros j b sync Hj Hb. rewrite fmap_app, elem_of_app. cbn [fmap list_fmap]. rewrite list_elem_of_singleton.
    destruct (decide (j = i)) as [->|Hne].
    + left. split; [by right|]. apply Hlat. split; [done|]. by eapply lookup_lt_Some.
    + destruct (Hs j b sync ltac:(lia) Hb) as [[? ?]|[? ?]]; [left; by auto|right]. split; [|done]. intros [?|?]; congruence.
Qed.

(** Whether a member asked for the barrier. *)
Definition asked (batches : list (list BatchOp * bool)) (ms : list Member) : bool :=
  existsb (λ m : Member, from_option snd false (batches !! index m)) ms.

Lemma asked_app batches ms ms' : asked batches (ms ++ ms') = asked batches ms || asked batches ms'.
Proof. apply existsb_app. Qed.

(** A group whose batches below [i] have been prepared. *)
Record group_ok (batches : list (list BatchOp * bool)) (i : nat) (s0 : Z) (g : Group) d : Prop := {
  go_settled : settled batches i (g_results g) (g_appended g ++ g_pending g);
  go_queue : queue batches 0 s0 (g_appended g ++ g_pending g) (c_next_seq d);
  go_sync : g_any_sync g = asked batches (g_appended g ++ g_pending g);
  go_next : g_next_i g = length batches;
  go_failed : g_failed g = false;
  go_fence : g_appended g ++ g_pending g ≠ [] → c_fenced d = false
}.

Lemma group_prepare_ok all g i s0 d :
  group_ok all i s0 g d → (i ≤ length all)%nat →
  ∃ g' d', group_prepare g (drop i all) i d = Some (g', d') ∧ group_ok all (length all) s0 g' d' ∧ untouched d d' ∧
    g_appended g' = g_appended g.
Proof.
  remember (length all - i)%nat as k eqn:Ek. revert g i d Ek. induction k as [|k IH]; intros g i d Ek Hg Hi.
  { rewrite drop_ge by lia. eexists _, _. split; [done|]. by replace (length all) with i by lia. }
  destruct (lookup_lt_is_Some_2 all i ltac:(lia)) as [[b sync] Hb]. rewrite (drop_S _ _ _ Hb). cbn [group_prepare].
  assert (∃ g1 d1, prepare_batch g i b sync d = Some (g1, d1) ∧ group_ok all (S i) s0 g1 d1 ∧ untouched d d1 ∧
    g_appended g1 = g_appended g) as (g1 & d1 & -> & Hg1 & Hu1 & Ha1).
  { destruct Hg as [Hs Hq Hsy Hn Hf Hfe]. unfold prepare_batch. destruct b as [|op b]; cbn [length batch_is_empty Nat.eqb].
    - eexists _, _. split; [done|]. split; [|done]. split; cbn; try done. by eapply settled_answer.
    - set (d0 := set_rest _ d). destruct (prepare_ok (op :: b) d0 ltac:(done)) as (d1 & r & E & Hu & Hr). rewrite E. cbn [mbind option_bind].
      destruct r as [[ws last_]|e].
      + destruct Hr as (Hnf & Has & -> & Hn'). eexists _, _. split; [done|]. split; [|done]. split; cbn -[asked]; rewrite ?app_assoc.
        * by eapply settled_member.
        * eapply queue_app; [exact Hq|apply (st_members _ _ _ _ Hs)|lia|].
          change (c_next_seq d0) with (c_next_seq d) in *. rewrite Hn'. by apply (queue_cons all i _ i (op :: b) sync); [..|constructor].
        * rewrite asked_app, Hsy. unfold asked at 3. cbn [existsb index fst]. rewrite Hb. cbn. destruct sync; cbn; by rewrite ?orb_true_r, ?orb_false_r.
        * done.
        * done.
        * intros _. destruct Hu as (_ & -> & _). done.
      + eexists _, _. split; [done|]. split; [|done]. split; cbn; try done.
        * by eapply settled_answer.
        * by rewrite Hr.
        * intros Hne. destruct Hu as (_ & -> & _). by apply Hfe. }
  cbn [mbind option_bind]. destruct (IH g1 (S i) d1) as (g' & d' & E & Hg' & Hu' & Ha'); [lia|done|lia|].
  eexists _, _. split; [exact E|]. split; [done|]. split; [by etrans|congruence].
Qed.

(** * Answers *)

(** No batch with operations was acknowledged. *)
Definition refused (batches : list (list BatchOp * bool)) (results : list (Result CoreError Z)) : Prop :=
  ∀ j b sync s, batches !! j = Some (b, sync) → results !! j = Some (Ok s) → b = [].

(** The members were acknowledged with their last sequence, and no other batch
    with operations was. *)
Definition acknowledged (batches : list (list BatchOp * bool)) (ms : list Member) (results : list (Result CoreError Z)) : Prop :=
  ∀ j b sync, batches !! j = Some (b, sync) →
    (∃ ws s, (j, ws, s) ∈ ms ∧ results !! j = Some (Ok s)) ∨
    (j ∉ index <$> ms ∧ ∃ r, results !! j = Some r ∧ (is_err r = false → b = [])).

Lemma length_set_results ms r results : length (set_results ms r results) = length results.
Proof. unfold set_results. revert results. induction ms as [|m ms IH]; intros results; [done|]. cbn [foldl]. by rewrite IH, length_insert. Qed.

Lemma set_results_lookup ms r results j :
  set_results ms r results !! j = if decide (j ∈ index <$> ms ∧ (j < length results)%nat) then Some (Some r) else results !! j.
Proof.
  revert results. induction ms as [|m ms IH]; intros results; cbn [set_results foldl fmap list_fmap].
  { rewrite decide_False; [done|]. by intros [?%not_elem_of_nil _]. }
  change (foldl _ ?x ms) with (set_results ms r x). rewrite IH, length_insert.
  destruct (decide (j ∈ index <$> ms ∧ (j < length results)%nat)) as [[Hin Hlt]|Hn].
  { rewrite decide_True; [done|]. split; [by right|done]. }
  destruct (decide (j = index m)) as [->|Hne].
  - destruct (decide (index m < length results)%nat) as [Hlt|Hge].
    + rewrite list_lookup_insert_eq by done. rewrite decide_True; [done|]. split; [by left|done].
    + rewrite decide_False by (intros [_ ?]; lia). by rewrite list_insert_ge by lia.
  - rewrite list_lookup_insert_ne by done. rewrite decide_False; [done|]. intros [[?|?]%elem_of_cons ?]; tauto.
Qed.

Lemma settled_refused batches results ms r :
  settled batches (length batches) results ms → is_err r = true → refused batches (finish_group_results (set_results ms r results)).
Proof.
  intros [Hl Hm _ Hs] Hr j b sync s Hb E. pose proof (lookup_lt_Some _ _ _ Hb) as Hlt. unfold finish_group_results in E.
  rewrite list_lookup_fmap, set_results_lookup in E. destruct (Hs j b sync Hlt Hb) as [[Hin Hj]|[Hin (r' & Hj & Hr')]].
  - rewrite decide_True in E by (split; [done|lia]). cbn in E. by destruct r.
  - rewrite decide_False, Hj in E by tauto. injection E as ->. by apply Hr'.
Qed.

Lemma replicate_refused batches n r : is_err r = true → refused batches (replicate n r).
Proof. intros Hr j b sync s _ [<- _]%lookup_replicate. done. Qed.

(** What applying the members leaves. *)
Lemma apply_members ms results d :
  NoDup (index <$> ms) → (∀ m, m ∈ ms → (index m < length results)%nat) →
  let '(results', d') := foldl apply_member (results, d) ms in
  length results' = length results ∧
  (∀ j ws s, (j, ws, s) ∈ ms → results' !! j = Some (Some (Ok s))) ∧
  (∀ j, j ∉ index <$> ms → results' !! j = results !! j) ∧
  c_mem d' = foldl apply_ops_owned (c_mem d) (member_ops <$> ms) ∧ c_published d' = c_published d ∧ c_fenced d' = c_fenced d ∧
  c_wal d' = c_wal d ∧ c_spill d' = c_spill d ∧ c_unapplied d' = c_unapplied d ∧ c_next_seq d' = c_next_seq d.
Proof.
  revert results d. induction ms as [|m ms IH]; intros results d Hnd Hlt; cbn [foldl fmap list_fmap].
  { split_and!; try done. by intros j ws s ?%not_elem_of_nil. }
  cbn in Hnd. apply NoDup_cons in Hnd as [Hni Hnd]. unfold apply_member at 2.
  set (d1 := set_mem _ _). specialize (IH (<[index m:=Some (Ok m.2)]> results) d1 Hnd).
  destruct (foldl apply_member _ ms) as [results' d'] eqn:E. destruct IH as (Hl & Hin & Hout & Hm & Hrest).
  { intros m' Hm'. rewrite length_insert. apply Hlt. by right. }
  rewrite length_insert in Hl. split_and!; try done; try apply Hrest.
  - intros j ws s [E'|Hj]%elem_of_cons; [|by eapply Hin]. subst m. rewrite Hout by done. cbn.
    apply list_lookup_insert_eq. apply (Hlt (j, ws, s)). by left.
  - intros j [Hne Hj]%not_elem_of_cons. rewrite Hout by done. by apply list_lookup_insert_ne.
Qed.

(** * Starting and finishing a group *)

Definition block_ok d : Prop := (block_offset (writer (c_wal d)) ≤ BLOCK_SIZE)%nat.

(** Encoding the pending members moves them to the log's frame. *)
Lemma append_ops_ok batches s0 g d :
  group_ok batches (length batches) s0 g d → block_ok d →
  ∃ g' d' n l, group_append_ops g d = Some (g', d') ∧ group_ok batches (length batches) s0 g' d' ∧ g_pending g' = [] ∧
    encode_write_op_batches (member_ops <$> g_pending g) (c_wal d) = Some (Ok n, l) ∧
    untouched (set_wal l d) d' ∧ c_spill d' = c_spill d ∧ g_appended g' = g_appended g ++ g_pending g.
Proof.
  intros [Hs Hq Hsy Hn Hf Hfe] Hb. unfold group_append_ops. rewrite Hf. cbn [orb].
  destruct (encode_batches_ok (member_ops <$> g_pending g) (c_wal d) Hb) as (n & encs & o & x & _ & _ & E).
  destruct (g_pending g) as [|m ms] eqn:Ep.
  { cbn in *. rewrite app_nil_r. eexists g, d, 0, _. split; [done|]. split; [split; rewrite ?Ep, ?app_nil_r in *; done|].
    split_and!; try done. }
  cbn [length batch_is_empty Nat.eqb]. unfold ensure_not_fenced. rewrite Hfe by (by destruct (g_appended g)). cbn [fence_admission_plan].
  rewrite E. cbn [mbind option_bind]. eexists _, _, _, _. split; [done|]. split_and!; try done.
  split; cbn -[asked]; rewrite ?app_nil_r, <-?Ep, ?Ep; try done.
Qed.

Lemma prepare_vlog_ok do_sync d d' r :
  prepare_vlog do_sync d = (d', r) → untouched d d' ∧ c_next_seq d' = c_next_seq d ∧
  (r = Ok tt → flushed_out (c_spill d') ∧ (do_sync = true → synced_out (c_spill d'))).
Proof.
  unfold prepare_vlog. destruct (vlog_prepare_wal _ _) as [s r'] eqn:E. intros [= <- <-]. split_and!; try done.
  intros ->. by eapply prepare_drains.
Qed.

Lemma group_ok_carry batches i s0 g d d' :
  group_ok batches i s0 g d → c_next_seq d' = c_next_seq d → c_fenced d' = c_fenced d → group_ok batches i s0 g d'.
Proof. intros [Hs Hq Hsy Hn Hf Hfe] E1 E2. split; rewrite ?E1, ?E2; done. Qed.

Lemma start_ok batches d d0 :
  batches ≠ [] → group_admit (length batches) d = (d0, Ok tt) → block_ok d0 →
  ∃ d1 r, group_start batches d = Some (d1, r) ∧
    c_mem d1 = c_mem d0 ∧ c_published d1 = c_published d0 ∧ c_fenced d1 = c_fenced d0 ∧ c_unapplied d1 = c_unapplied d0 ∧
    match r with
    | Err results => c_wal d1 = c_wal d0 ∧ ∃ e, results = replicate (length batches) (Err e)
    | Ok g => group_ok batches (length batches) (c_next_seq d0) g d1 ∧ g_pending g = [] ∧
        ∃ n, encode_write_op_batches (member_ops <$> g_appended g) (c_wal d0) = Some (Ok n, c_wal d1)
    end.
Proof.
  intros Hne Had Hb. unfold group_start. assert (batch_is_empty (length batches) = false) as -> by (by destruct batches).
  rewrite Had. set (g0 := mkGroup _ _ _ _ _ _).
  assert (group_ok batches 0 (c_next_seq d0) g0 d0) as Hg0.
  { split; cbn; try done; [|constructor]. split.
    - apply length_replicate.
    - by intros m ?%not_elem_of_nil.
    - intros j Hj. apply lookup_replicate_2. lia.
    - intros j b sync Hj. lia. }
  destruct (group_prepare_ok batches g0 0 _ d0 Hg0 ltac:(lia)) as (g1 & d1 & E1 & Hg1 & (U1 & U2 & U3 & U4 & U5) & Ha).
  rewrite drop_0 in E1. rewrite E1. cbn [mbind option_bind].
  destruct (prepare_vlog (g_any_sync g1) d1) as [d2 [[]|e]] eqn:E2; destruct (prepare_vlog_ok _ _ _ _ E2) as ((V1 & V2 & V3 & V4 & V5) & Vn & Vf).
  2:{ eexists _, _. split; [done|]. split_and!; [congruence..|by eexists]. }
  assert (block_ok d2) as Hb2 by (unfold block_ok; by rewrite V3, U3).
  destruct (append_ops_ok batches _ g1 d2 (group_ok_carry _ _ _ _ _ _ Hg1 Vn V2) Hb2)
    as (g3 & d3 & n & l & -> & Hg3 & Hp & Eenc & (W1 & W2 & W3 & W4 & W5) & Hsp & Ha3).
  cbn [mbind option_bind]. eexists _, _. split; [done|]. cbn in *. split_and!; [congruence..|done|done|].
  exists n. rewrite Ha3, Ha. cbn. by rewrite <-U3, <-V3, W3.
Qed.

(** ** Absorbing batches *)

Lemma asked_more batches more i s ms s' : queue batches i s ms s' → asked (batches ++ more) ms = asked batches ms.
Proof.
  intros Hq. unfold asked.
  assert (∀ m, m ∈ ms → (batches ++ more) !! index m = batches !! index m) as Hl.
  { intros m Hm. apply lookup_app_l. apply (queue_bound _ _ _ _ _ _ Hq Hm). }
  clear Hq. induction ms as [|m ms IH]; [done|]. cbn [existsb]. rewrite Hl by by left. f_equal. apply IH. intros m' Hm'. apply Hl. by right.
Qed.

Lemma settled_more batches more results ms :
  settled batches (length batches) results ms →
  settled (batches ++ more) (length batches) (results ++ replicate (length more) None) ms.
Proof.
  intros [Hl Hm _ Hs]. split.
  - by rewrite !length_app, length_replicate, Hl.
  - done.
  - intros j Hj. rewrite length_app in Hj. rewrite lookup_app_r by lia. apply lookup_replicate_2. lia.
  - intros j b sync Hj Hb. rewrite lookup_app_l in Hb by done. rewrite lookup_app_l by lia. by apply (Hs j b sync).
Qed.

(** No batch with operations has been answered with success. *)
Definition no_success (batches : list (list BatchOp * bool)) (results : list (option (Result CoreError Z))) : Prop :=
  ∀ j b sync s, batches !! j = Some (b, sync) → results !! j = Some (Some (Ok s)) → b = [].

Lemma settled_fail_pending batches results ms ms' r :
  settled batches (length batches) results ms → ms' ⊆ ms → is_err r = true → no_success batches (set_results ms' r results).
Proof.
  intros Hs Hsub Hr j b sync s Hb E. rewrite set_results_lookup in E. case_decide; [by simplify_eq|].
  destruct (st_seen _ _ _ _ Hs j b sync (lookup_lt_Some _ _ _ Hb) Hb) as [[_ Hj]|(_ & r' & Hj & Hr')]; [congruence|].
  rewrite Hj in E. injection E as ->. by apply Hr'.
Qed.

(** A group that absorbs more batches without a failure is the group of all of
    them; a failure leaves the log and the members already framed as they are. *)
Lemma group_absorb_ok batches more s0 g d :
  group_ok batches (length batches) s0 g d → g_pending g = [] → block_ok d → more ≠ [] →
  ∃ d' g', group_absorb g more d = Some (d', g') ∧
    (g_failed g' = true ∧ untouched d d' ∧ g_appended g' = g_appended g ∧ no_success (batches ++ more) (g_results g') ∨
     group_ok (batches ++ more) (length (batches ++ more)) s0 g' d' ∧ g_pending g' = [] ∧
     ∃ new n, g_appended g' = g_appended g ++ new ∧ encode_write_op_batches (member_ops <$> new) (c_wal d) = Some (Ok n, c_wal d')).
Proof.
  intros [Hs Hq Hsy Hn Hf Hfe] Hp Hb Hne. unfold group_absorb. rewrite Hf, Hn. cbn [orb].
  assert (batch_is_empty (length more) = false) as -> by (by destruct more). rewrite Hp in *. rewrite app_nil_r in *.
  set (g0 := mkGroup _ _ _ _ _ _).
  assert (group_ok (batches ++ more) (length batches) s0 g0 d) as Hg0.
  { split; cbn -[asked]; rewrite ?app_nil_r; try done.
    - by apply settled_more.
    - by apply queue_more.
    - by erewrite asked_more.
    - by rewrite length_app. }
  destruct (group_prepare_ok _ g0 _ _ d Hg0) as (g1 & d1 & E1 & Hg1 & Hu & Ha); [rewrite length_app; lia|].
  pose proof Hu as (_ & U2 & U3 & _).
  rewrite drop_app_length in E1. rewrite E1. cbn [mbind option_bind].
  destruct (prepare_vlog (g_any_sync g1) d1) as [d2 [[]|e]] eqn:E2; destruct (prepare_vlog_ok _ _ _ _ E2) as (Hv & Vn & _);
    pose proof Hv as (_ & V2 & V3 & _).
  2:{ eexists _, _. split; [done|]. left. split_and!; [done|by etrans|by cbn; rewrite Ha|].
      eapply settled_fail_pending; [apply Hg1|set_solver|done]. }
  assert (block_ok d2) as Hb2 by (unfold block_ok; by rewrite V3, U3).
  destruct (append_ops_ok _ _ g1 d2 (group_ok_carry _ _ _ _ _ _ Hg1 Vn V2) Hb2)
    as (g3 & d3 & n & l & -> & Hg3 & Hp3 & Eenc & (_ & _ & W3 & _) & _ & Ha3).
  cbn [mbind option_bind]. eexists _, _. split; [done|]. right. split; [done|]. split; [done|].
  exists (g_pending g1), n. cbn in *. by rewrite Ha3, Ha, <-U3, <-V3, W3.
Qed.

Lemma needs_sync_asked batches s0 g d :
  group_ok batches (length batches) s0 g d → g_pending g = [] → group_needs_sync g = asked batches (g_appended g).
Proof.
  intros [_ _ Hsy _ Hf _] Hp. unfold group_needs_sync, wal_sync_required. rewrite Hsy, Hf, Hp, app_nil_r.
  destruct (g_appended g); [done|]. by rewrite !andb_true_r.
Qed.

(** The publish of the group's watermark. *)
Lemma publish_max seq d : c_published (publish_sequence seq d) = Z.max (c_published d) seq.
Proof. unfold publish_sequence. cbn. destruct (Z.ltb_spec (c_published d) seq); cbn; lia. Qed.

Lemma fence_publish_ge seqs s : s ∈ seqs → s ≤ fence_publish_seq seqs.
Proof.
  unfold fence_publish_seq. generalize 0 as best.
  induction seqs as [|x seqs IH]; intros best; [by intros ?%not_elem_of_nil|].
  assert (∀ best, best ≤ foldl (λ best s, if best <? s then s else best) best seqs) as Hge'.
  { clear. induction seqs as [|x seqs IH]; intros best; cbn; [done|]. etrans; [|apply IH]. destruct (Z.ltb_spec best x); lia. }
  intros [->|Hin]%elem_of_cons; cbn; [|by apply IH]. etrans; [|apply Hge']. destruct (Z.ltb_spec best x); lia.
Qed.

(** Applying an unfailed group. *)
Lemma group_apply_ok batches s0 g d :
  group_ok batches (length batches) s0 g d → g_pending g = [] →
  ∃ d2 results, group_apply g d = (if batch_is_empty (length (g_appended g)) then d2 else auto_flush d2, results) ∧
    length results = length batches ∧ acknowledged batches (g_appended g) results ∧
    c_mem d2 = foldl apply_ops_owned (c_mem d) (member_ops <$> g_appended g) ∧ c_published d2 = c_published d ∧
    c_fenced d2 = c_fenced d ∧ c_wal d2 = c_wal d ∧ c_spill d2 = c_spill d.
Proof.
  intros [Hs Hq Hsy Hn Hf Hfe] Hp. rewrite Hp, app_nil_r in *. unfold group_apply. rewrite Hf.
  set (d1 := unstage_unapplied g d).
  assert (c_mem d1 = c_mem d ∧ c_published d1 = c_published d ∧ c_fenced d1 = c_fenced d ∧ c_wal d1 = c_wal d ∧ c_spill d1 = c_spill d)
    as (U1 & U2 & U3 & U4 & U5) by (unfold d1, unstage_unapplied; by repeat case_match).
  destruct Hs as [Hl Hm _ Hseen]. unfold finish_group_results.
  destruct (g_appended g) as [|m0 ms0] eqn:Ea; cbn [length batch_is_empty Nat.eqb].
  { eexists _, _. split; [done|]. rewrite length_fmap. split_and!; try done. intros j b sync Hb.
    destruct (Hseen j b sync (lookup_lt_Some _ _ _ Hb) Hb) as [[[]%not_elem_of_nil _]|(? & r & Hj & Hr)]. right.
    split; [done|]. exists r. by rewrite list_lookup_fmap, Hj. }
  unfold group_apply_mem. rewrite Ea. set (ms := m0 :: ms0) in *. set (d3 := if (_ : bool) then _ else _).
  assert (c_mem d3 = c_mem d1 ∧ c_published d3 = c_published d1 ∧ c_fenced d3 = c_fenced d1 ∧ c_wal d3 = c_wal d1 ∧ c_spill d3 = c_spill d1)
    as (V1 & V2 & V3 & V4 & V5) by (unfold d3; by case_match).
  pose proof (apply_members ms (g_results g) d3 (queue_nodup _ _ _ _ _ Hq)) as Happ.
  destruct (foldl apply_member (g_results g, d3) ms) as [results' d2]. destruct Happ as (Al & Ain & Aout & Am & A1 & A2 & A3 & A4 & _).
  { intros m Hin. rewrite Hl. by apply Hm. }
  eexists _, _. split; [done|]. rewrite length_fmap. split_and!; try congruence.
  intros j b sync Hb. rewrite list_lookup_fmap.
  destruct (Hseen j b sync (lookup_lt_Some _ _ _ Hb) Hb) as [[Hin _]|[Hni (r & Hj & Hr)]].
  - left. apply list_elem_of_fmap in Hin as ([[j' ws] s] & -> & Hin). exists ws, s. split; [done|].
    cbn [index fst]. by rewrite (Ain _ _ _ Hin).
  - right. split; [done|]. exists r. by rewrite Aout, Hj.
Qed.

(** The log operation a group ends with. *)
Definition log_step (sync : bool) : WalOp unit := if sync then sync_data_inner else write_pending_frame.

Lemma finish_ok batches s0 g d :
  group_ok batches (length batches) s0 g d → g_pending g = [] → inflight (c_wal d) = 0%nat →
  ∃ d' results, group_finish g d = Some (d', results) ∧ length results = length batches ∧
    (refused batches results ∧ c_fenced d' = true ∧ c_mem d' = c_mem d ∧ c_published d' = c_published d ∨
     acknowledged batches (g_appended g) results ∧ ∃ d2,
       d' = publish_sequence (max_appended_seq g) (if batch_is_empty (length (g_appended g)) then d2 else auto_flush d2) ∧
       c_mem d2 = foldl apply_ops_owned (c_mem d) (member_ops <$> g_appended g) ∧ c_published d2 = c_published d ∧ c_fenced d2 = c_fenced d ∧
       flushed_out (c_spill d2) ∧ (asked batches (g_appended g) = true → synced_out (c_spill d2)) ∧
       log_step (asked batches (g_appended g)) (c_wal d) = Some (Ok tt, c_wal d2)).
Proof.
  intros Hg Hp Hinf. pose proof (needs_sync_asked _ _ _ _ Hg Hp) as Ens. unfold group_finish. rewrite Ens.
  set (sync := asked batches (g_appended g)) in *.
  assert (∀ e, length (fail_sync g e) = length batches ∧ refused batches (fail_sync g e)) as Hfail.
  { intros e. pose proof (go_settled _ _ _ _ _ Hg) as Hs. rewrite Hp, app_nil_r in Hs. split; [|by apply settled_refused].
    unfold fail_sync, finish_group_results. rewrite length_fmap, length_set_results. apply Hs. }
  destruct (prepare_vlog sync d) as [d1 [[]|e]] eqn:E1; destruct (prepare_vlog_ok _ _ _ _ E1) as ((V1 & V2 & V3 & V4 & V5) & Vn & Vf).
  2:{ eexists _, _. split; [done|]. split; [apply Hfail|]. left. split; [apply Hfail|]. done. }
  destruct (Vf eq_refl) as [Vfl Vsy]. pose proof (group_ok_carry _ _ _ _ _ _ Hg Vn V2) as Hg1.
  assert (∃ d2 r, group_log sync d1 = Some (d2, r) ∧ c_mem d2 = c_mem d1 ∧ c_published d2 = c_published d1 ∧ c_next_seq d2 = c_next_seq d1 ∧ c_spill d2 = c_spill d1 ∧
      match r with
      | Ok _ => c_fenced d2 = c_fenced d1 ∧ log_step sync (c_wal d1) = Some (Ok tt, c_wal d2)
      | Err _ => c_fenced d2 = true
      end) as (d2 & r & -> & Wm & Wp & Wn & Ws & Wr).
  { unfold log_step, group_log. destruct sync eqn:Esy; cbn.
    - unfold wal_sync_group, ensure_not_fenced. assert (c_fenced d1 = false) as Hnf.
      { apply (go_fence _ _ _ _ _ Hg1). rewrite Hp, app_nil_r. unfold sync in Esy. by destruct (g_appended g). }
      rewrite Hnf. cbn [fence_admission_plan]. destruct (sync_total (c_wal d1)) as [[r l] E]; [by rewrite V3|]. rewrite E. cbn [mbind option_bind].
      destruct r as [[]|e]; cbn; by eexists _, _.
    - destruct (write_pending_total (c_wal d1)) as [[r l] E]. rewrite E. cbn [mbind option_bind].
      destruct r as [[]|e]; cbn; by eexists _, _. }
  cbn [mbind option_bind]. destruct r as [[]|e].
  2:{ eexists _, _. split; [done|]. split; [apply Hfail|]. left. split; [apply Hfail|]. split_and!; congruence. }
  destruct Wr as [Wf Wl]. destruct (group_apply_ok batches s0 g d2) as (d3 & results & -> & Rl & Ra & Rm & Rp & Rf & Rw & Rs);
    [by eapply group_ok_carry|done|].
  eexists _, _. split; [done|]. split; [done|]. right. split; [done|]. exists d3.
  rewrite Rs, Ws, Rw, <-V3. split_and!; try done; congruence.
Qed.

(** Finishing a failed group writes the frame all the same; unless that fails
    too, nothing is fenced. *)
Lemma finish_failed batches g d d' results :
  g_failed g = true → no_success batches (g_results g) → group_finish g d = Some (d', results) → c_fenced d' = false →
  refused batches results ∧ c_mem d' = c_mem d ∧ c_published d' = Z.max (c_published d) (max_appended_seq g) ∧
  write_pending_frame (c_wal d) = Some (Ok tt, c_wal d').
Proof.
  intros Hf Hns E Hnf. unfold group_finish, group_needs_sync in E. rewrite Hf, andb_false_r in E. cbn [andb negb] in E.
  destruct (prepare_vlog false d) as [d1 [[]|e]] eqn:E1; destruct (prepare_vlog_ok _ _ _ _ E1) as ((V1 & V2 & V3 & V4 & V5) & _).
  2:{ injection E as <- _. done. }
  unfold group_log in E. cbn [wal_commit_plan] in E. rewrite V3 in E.
  destruct (write_pending_frame (c_wal d)) as [[[[]|e] l]|] eqn:Ew; cbn [mbind option_bind] in E; [|injection E as <- _; done|done].
  unfold group_apply in E. rewrite Hf in E. cbn in E. injection E as <- <-.
  set (d2 := unstage_unapplied g (set_wal l d1)).
  assert (c_mem d2 = c_mem d1 ∧ c_published d2 = c_published d1 ∧ c_wal d2 = l) as (U1 & U2 & U3)
    by (unfold d2, unstage_unapplied; by repeat case_match).
  assert (c_mem (publish_sequence (max_appended_seq g) d2) = c_mem d2 ∧ c_wal (publish_sequence (max_appended_seq g) d2) = c_wal d2)
    as [P1 P2] by (unfold publish_sequence; by repeat case_match).
  rewrite publish_max, P1, P2, U1, U2, U3, V1, V4. split_and!; try done.
  intros j b sync s Hb Ej. unfold finish_group_results in Ej. rewrite list_lookup_fmap in Ej.
  match type of Ej with default _ <$> ?x !! j = _ => destruct (x !! j) as [[r|]|] eqn:El end; cbn in Ej; [|done..].
  injection Ej as ->. apply (Hns j b sync s Hb). clear -El. revert El. generalize (g_results g).
  induction (g_appended g) as [|m ms IH]; intros rs El; [done|]. cbn [foldl] in El. apply IH in El.
  case_match eqn:Em; [|done]. case_match; [done|]. subst. destruct (decide (index m = j)) as [<-|Hne].
  - rewrite list_lookup_insert_eq in El by (by eapply lookup_lt_Some). done.
  - by rewrite list_lookup_insert_ne in El.
Qed.

(** * What the memtable holds afterwards *)

Definition member_entries (ms : list Member) : list entry := op_entry <$> concat (member_ops <$> ms).

Lemma bump_cf_sorted cf uk n add : om_sorted cf → om_sorted (bump_cf_bytes_map cf uk n add).
Proof. intros Hs. unfold bump_cf_bytes_map. repeat case_match; auto; by apply om_insert_sorted. Qed.

Lemma bump_span_cf m uk k : cf_bytes (bump_span m uk k) = cf_bytes m.
Proof. unfold bump_span. by repeat case_match. Qed.

Lemma insert_cf_sorted m k v : om_sorted (cf_bytes m) → om_sorted (cf_bytes (insert m k v)).
Proof.
  intros Hs. unfold insert, replace_last, insert_fresh, tail_append.
  repeat case_match; cbn; rewrite ?bump_span_cf; cbn; by apply bump_cf_sorted.
Qed.

(** A memtable whose invariant and family accounts are in order. *)
Definition table_ok (m : MemTable) : Prop := mem_ok m ∧ om_sorted (cf_bytes m).

Lemma insert_many_entries m items hint :
  table_ok m → uniq (mem_entries m ++ items) → total_bytes (mem_entries m ++ items) ≤ U64_MAX →
  table_ok (insert_many m items hint) ∧ mem_entries (insert_many m items hint) = mem_entries m ++ items.
Proof.
  intros [Hm Hcf] Hu Hb. rewrite insert_many_ok by done. revert m Hm Hcf Hu Hb.
  induction items as [|[k v] items IH]; intros m Hm Hcf Hu Hb; cbn [foldl fst snd].
  { by rewrite app_nil_r. }
  assert (mem_entries m ++ (k, v) :: items = (mem_entries m ++ [(k, v)]) ++ items) as E by (by rewrite <-app_assoc).
  rewrite E in *. pose proof (total_bytes_length items). rewrite total_bytes_app in Hb.
  destruct (insert_ok m k v Hm) as [Hm' He].
  - intros x Hx Hk Hs. unfold uniq in Hu. rewrite !fmap_app in Hu. apply NoDup_app in Hu as (Hu & _ & _).
    apply NoDup_app in Hu as (_ & Hd & _). apply (Hd (user_key x.1, sequence x.1));
      [by apply (list_elem_of_fmap_2 (λ e : entry, (user_key e.1, sequence e.1)))|]. rewrite Hk, Hs. cbn. by left.
  - rewrite total_bytes_app, total_bytes_cons in Hb. change (total_bytes []) with 0 in Hb. lia.
  - rewrite <-He in *. apply IH; [done|by apply insert_cf_sorted|done|]. by rewrite total_bytes_app.
Qed.

Lemma members_entries ms m :
  table_ok m → uniq (mem_entries m ++ member_entries ms) → total_bytes (mem_entries m ++ member_entries ms) ≤ U64_MAX →
  table_ok (foldl apply_ops_owned m (member_ops <$> ms)) ∧
  mem_entries (foldl apply_ops_owned m (member_ops <$> ms)) = mem_entries m ++ member_entries ms.
Proof.
  unfold member_entries. revert m. induction ms as [|x ms IH]; intros m Hm Hu Hb; cbn [fmap list_fmap foldl concat] in *.
  { by rewrite app_nil_r. }
  rewrite fmap_app, app_assoc in *.
  pose proof (total_bytes_length (op_entry <$> concat (member_ops <$> ms))) as Hge.
  destruct (insert_many_entries m (op_entry <$> member_ops x) (length (member_ops x)) Hm) as [Hm' He].
  { eapply uniq_sub; [exact Hu|]. by apply submseteq_inserts_r. }
  { rewrite total_bytes_app in Hb. lia. }
  unfold apply_ops_owned at 2 4. rewrite <-He in *. by apply IH.
Qed.

(** The sequences of a queue are consecutive. *)
Lemma queue_seqs batches i s ms s' :
  queue batches i s ms s' → s ≤ s' ∧ op_sequence <$> concat (member_ops <$> ms) = seqZ s (s' - s).
Proof.
  induction 1 as [i s|i s j b sync ws rest s' Hi Hb Hne Ha _ [Hle IH]].
  - split; [done|]. by rewrite Z.sub_diag.
  - split; [lia|]. cbn [fmap list_fmap concat member_ops fst snd]. rewrite fmap_app, (assigned_seqs _ _ _ Ha).
    replace (s' - s) with (Z.of_nat (length b) + (s' - (s + Z.of_nat (length b)))) by lia.
    rewrite seqZ_app by lia. by f_equal.
Qed.

Lemma queue_fresh batches i s ms s' l :
  queue batches i s ms s' → uniq l → (∀ e, e ∈ l → sequence e.1 < s) → uniq (l ++ member_entries ms).
Proof.
  intros Hq Hu Hlt. destruct (queue_seqs _ _ _ _ _ Hq) as [Hle Hseq]. unfold uniq, member_entries in *.
  rewrite fmap_app, <-list_fmap_compose. apply NoDup_app. split; [done|]. split.
  - intros x (e & -> & He)%list_elem_of_fmap (op & [= _ Es] & Hop)%list_elem_of_fmap. specialize (Hlt e He).
    assert (op_sequence op ∈ op_sequence <$> concat (member_ops <$> ms)) as Hin by (by apply list_elem_of_fmap_2).
    rewrite Hseq, elem_of_seqZ in Hin. lia.
  - apply (NoDup_fmap_1 snd). rewrite <-list_fmap_compose.
    assert ((op_sequence <$> concat (member_ops <$> ms)) = snd ∘ ((λ e : entry, (user_key e.1, sequence e.1)) ∘ op_entry) <$> concat (member_ops <$> ms))
      as <- by (by apply list_fmap_ext).
    rewrite Hseq. apply NoDup_seqZ.
Qed.

Lemma log_block_ok positional σ d : reachable positional orderly σ → fits (recs σ) → fenced σ = false → wal σ = c_wal d → block_ok d.
Proof.
  intros Hr Hf Hnf Hw. destruct (reachable_inv _ _ Hr Hf) as (st & torn & Hi). pose proof (inv_framed _ _ _ _ _ Hi) as H.
  rewrite Hnf in H. unfold block_ok. rewrite <-Hw. by eapply framed_block.
Qed.

Lemma encode_inflight batches l n l' : encode_write_op_batches batches l = Some (Ok n, l') → inflight l' = inflight l.
Proof.
  unfold encode_write_op_batches. case_match; [by intros [= _ <-]|]. intros E.
  destruct (foldl _ _ batches) as [[[n' o] buf]|]; [|done]. by injection E as _ <-.
Qed.
End lemmas.

(** * Properties *)

Section props.
Context {X : Type} `{CC : Crc32c, EN : Engine X}.

(** C4: a group commit is all or nothing per batch, and returns. From an
    admitted state whose log can be reached and has no write in flight,
    [group_commit] answers every batch; either no batch with operations is
    acknowledged and memtable and published sequence stay as they were, or the
    acknowledged batches are, in the order given, at consecutive sequences from
    the next one, the memtable is the old one followed by exactly their
    operations before the closing flush, nothing of their large values is left
    unwritten, and everything acknowledged is published. *)
Theorem group_commit_atomic positional σ (d d0 : CommitDb X) batches :
  batches ≠ [] → group_admit (length batches) d = (d0, Ok tt) →
  reachable positional orderly σ → fits (recs σ) → fenced σ = false → wal σ = c_wal d0 → inflight (c_wal d0) = 0%nat →
  table_ok (c_mem d0) → (∀ e, e ∈ mem_entries (c_mem d0) → sequence e.1 < c_next_seq d0) →
  ∃ d' results, group_commit batches d = Some (d', results) ∧ length results = length batches ∧
    (refused batches results ∧ c_mem d' = c_mem d0 ∧ c_published d' = c_published d0 ∨
     ∃ ms s' d2, queue batches 0 (c_next_seq d0) ms s' ∧ acknowledged batches ms results ∧
       d' = publish_sequence (fence_publish_seq (snd <$> ms)) (if batch_is_empty (length ms) then d2 else auto_flush d2) ∧
       (∀ m, m ∈ ms → m.2 ≤ c_published d') ∧ flushed_out (c_spill d2) ∧
       (total_bytes (mem_entries (c_mem d0) ++ member_entries ms) ≤ U64_MAX →
        mem_entries (c_mem d2) = mem_entries (c_mem d0) ++ member_entries ms ∧ table_ok (c_mem d2))).
Proof.
  intros Hne Had Hr Hfits Hnf Hw Hinf Ht Hlt. unfold group_commit.
  destruct (start_ok batches d d0 Hne Had (log_block_ok _ _ _ Hr Hfits Hnf Hw)) as (d1 & r & -> & Sm & Sp & Sf & Su & Sr).
  cbn [mbind option_bind]. destruct r as [g|results].
  2:{ destruct Sr as (_ & e & ->). eexists _, _. split; [done|]. rewrite length_replicate. split; [done|]. left.
      split; [by apply replicate_refused|by split]. }
  destruct Sr as (Hg & Hp & n & Henc). apply encode_inflight in Henc. rewrite Hinf in Henc.
  destruct (finish_ok _ _ _ _ Hg Hp Henc) as (d' & results & -> & Hl & Hout). eexists _, _. split; [done|]. split; [done|].
  destruct Hout as [(? & _ & ? & ?)|(Hack & d2 & Ed & Em & _ & _ & Hfl & _ & _)]; [left; split_and!; [done|congruence..]|right].
  pose proof (go_queue _ _ _ _ _ Hg) as Hq. rewrite Hp, app_nil_r in Hq. eexists _, _, d2.
  split; [exact Hq|]. split; [done|]. split; [exact Ed|]. split_and!; [|done|].
  - intros m Hm. rewrite Ed, publish_max. etrans; [apply (fence_publish_ge (snd <$> g_appended g))|unfold max_appended_seq; lia].
    by apply list_elem_of_fmap_2.
  - intros Hroom. rewrite Em, Sm. apply and_comm. apply members_entries; [done| |done].
    eapply queue_fresh; [done|apply Ht|done].
Qed.

(** What an acknowledged batch that asked for the barrier leaves. *)
Lemma commit_synced positional σ (d d0 d' : CommitDb X) batches results j b s :
  group_admit (length batches) d = (d0, Ok tt) →
  reachable positional orderly σ → fits (recs σ) → fenced σ = false → lost σ = false → wal σ = c_wal d0 → inflight (c_wal d0) = 0%nat →
  group_commit batches d = Some (d', results) → batches !! j = Some (b, true) → b ≠ [] → results !! j = Some (Ok s) →
  ∃ ms s' d2 encs, queue batches 0 (c_next_seq d0) ms s' ∧ acknowledged batches ms results ∧
    d' = publish_sequence (fence_publish_seq (snd <$> ms)) (auto_flush d2) ∧ flushed_out (c_spill d2) ∧ synced_out (c_spill d2) ∧
    c_mem d2 = foldl apply_ops_owned (c_mem d0) (member_ops <$> ms) ∧
    Forall2 (λ m enc, encode_ops (member_ops m) [] = Some enc ∧
      ∀ heap, record_fits (member_ops m) → ptr_coherent (member_ops m) →
        ∃ ops, decode_record heap enc = Ok ops ∧ Forall2 op_eq (member_ops m) ops) ms encs ∧
    ∃ l, let σ1 := mkSys l (jobs σ) (ran σ) (recs σ ++ encs) false false in
      reachable positional orderly σ1 ∧ sync_data_inner l = Some (Ok tt, c_wal d2).
Proof.
  intros Had Hr Hfits Hnf Hnl Hw Hinf Hc Hb Hne Hok. unfold group_commit in Hc.
  assert (block_ok d0) as Hblk by (by eapply log_block_ok).
  destruct (start_ok batches d d0 ltac:(by destruct batches) Had Hblk) as (d1 & r & Es & Sm & _ & _ & _ & Sr).
  rewrite Es in Hc. cbn [mbind option_bind] in Hc. destruct r as [g|results'].
  2:{ destruct Sr as (_ & e & ->). injection Hc as <- <-. by apply lookup_replicate in Hok as [? _]. }
  destruct Sr as (Hg & Hp & n & Henc). pose proof (encode_inflight _ _ _ _ Henc) as Hinf1. rewrite Hinf in Hinf1.
  destruct (finish_ok _ _ _ _ Hg Hp Hinf1) as (d3 & results3 & Ef & _ & Hout). rewrite Ef in Hc. injection Hc as -> ->.
  destruct Hout as [(Href & _)|(Hack & d2 & Ed & Em & _ & _ & Hfl & Hsy & Hlog)]; [by destruct Hne; eapply Href|].
  set (ms := g_appended g) in *. pose proof (go_queue _ _ _ _ _ Hg) as Hq. rewrite Hp, app_nil_r in Hq.
  assert (∃ ws, (j, ws, s) ∈ ms) as [ws Hin].
  { destruct (Hack j b true Hb) as [(ws & s2 & Hin & Hj)|(_ & r & Hj & Hr')]; [|by rewrite Hok in Hj; simplify_eq; destruct Hne; apply Hr'].
    exists ws. by simplify_eq. }
  assert (asked batches ms = true) as Hask.
  { unfold asked. apply existsb_exists. exists (j, ws, s). split; [by apply list_elem_of_In|]. cbn [index fst]. by rewrite Hb. }
  assert (batch_is_empty (length ms) = false) as Hms by (by destruct ms as [|]; [apply not_elem_of_nil in Hin|]).
  rewrite Hms in Ed. rewrite Hask in *.
  destruct (encode_batches_ok (member_ops <$> ms) (c_wal d0) Hblk) as (n' & encs & o & x & Hencs & _ & _).
  exists ms, (c_next_seq d1), d2, encs. split; [done|]. split; [done|]. split; [done|]. split; [done|]. split; [by apply Hsy|].
  split; [by rewrite Em, Sm|]. split.
  - apply Forall2_fmap_l in Hencs. eapply Forall2_impl; [exact Hencs|]. cbv beta. intros m enc He. split; [done|].
    intros heap Hfit Hco. destruct (decode_encode_ops (member_ops m) [] heap Hfit Hco) as (enc' & ops & He' & _ & Hd & Hall).
    rewrite app_nil_l, He in He'. injection He' as ->. by exists ops.
  - exists (c_wal d1). split; [|exact Hlog]. eapply reachable_move; [exact Hr|]. exists ActEncode. split; [done|].
    pose proof (step_encode positional σ (member_ops <$> ms) encs n (c_wal d1) Hnf Hencs) as Hst.
    rewrite Hnl in Hst. apply Hst. by rewrite Hw.
Qed.

(** C3: an acknowledged synchronous batch is durable. Let the log be in a state
    of an orderly run in which no write failed and none is in flight, and let a
    batch that asked for the barrier be acknowledged. Then, as long as the log's
    records are readable and fit its offsets, a crash right after the barrier
    leaves a log from which recovery returns exactly the earlier records and one
    record per acknowledged batch, and a crash after any further orderly calls
    leaves one whose recovery yields these first; each record decodes to the
    operations that were applied; the value log was written and synced. *)
Theorem group_commit_durable positional σ (d d0 d' : CommitDb X) batches results j b s :
  group_admit (length batches) d = (d0, Ok tt) →
  reachable positional orderly σ → fits (recs σ) → fenced σ = false → lost σ = false → wal σ = c_wal d0 → inflight (c_wal d0) = 0%nat →
  group_commit batches d = Some (d', results) → batches !! j = Some (b, true) → b ≠ [] → results !! j = Some (Ok s) →
  ∃ ms s' d2 encs, queue batches 0 (c_next_seq d0) ms s' ∧ acknowledged batches ms results ∧
    d' = publish_sequence (fence_publish_seq (snd <$> ms)) (auto_flush d2) ∧ flushed_out (c_spill d2) ∧ synced_out (c_spill d2) ∧
    Forall2 (λ m enc, encode_ops (member_ops m) [] = Some enc ∧
      ∀ heap, record_fits (member_ops m) → ptr_coherent (member_ops m) →
        ∃ ops, decode_record heap enc = Ok ops ∧ Forall2 op_eq (member_ops m) ops) ms encs ∧
    (fits (recs σ ++ encs) → log_readable (recs σ ++ encs) →
     (∀ f sched, crash_image (w_sink (writer (c_wal d2))) f →
        ∃ r, collect_all (reader_new (mkSrc f sched)) = Some (Ok (recs σ ++ encs), r)) ∧
     (∀ σ' f sched, rtc (move positional orderly) (mkSys (c_wal d2) (jobs σ) (ran σ) (recs σ ++ encs) false false) σ' →
        fits (recs σ') → crash_image (w_sink (writer (wal σ'))) f →
        ∃ more err r, collect_prefix_all (reader_new (mkSrc f sched)) = Some (recs σ ++ encs ++ more, err, r))).
Proof.
  intros Had Hr Hfits Hnf Hnl Hw Hinf Hc Hb Hne Hok.
  destruct (commit_synced _ _ _ _ _ _ _ _ _ _ Had Hr Hfits Hnf Hnl Hw Hinf Hc Hb Hne Hok)
    as (ms & s' & d2 & encs & Hq & Ha & Ed & Hf & Hs & _ & Henc & l & Hr1 & Hsync).
  exists ms, s', d2, encs. split_and!; try done. intros Hfits1 Hrd.
  destruct (sync_recovered positional _ _ Hr1 Hfits1 Hrd eq_refl eq_refl Hsync) as [H1 H2].
  split; [exact H1|]. intros σ' f sched Hrun Hf' Hcr.
  destruct (H2 σ' f sched Hrun Hf' Hcr) as (more & err & r & E). cbn [recs] in E. rewrite <-(assoc_L (++)) in E.
  by exists more, err, r.
Qed.

(** C38: a refused batch comes back. A group is started on a log of an orderly
    run without failures, and its records are in the log's frame; it absorbs more
    batches and their value-log barrier fails. If finishing the group does not
    fail too (no fence), then every batch with operations, of the group and of
    the absorbed ones, is answered with an error and none is in the memtable, but
    the published sequence covers the group's members, and once the log is next
    synced a crash leaves a file from which recovery returns their records (for
    records that are readable and fit). *)
Theorem absorb_failure_commits_refused positional σ (d d0 d1 : CommitDb X) g d2 g2 d3 batches more results :
  batches ≠ [] → more ≠ [] → group_admit (length batches) d = (d0, Ok tt) →
  reachable positional orderly σ → fits (recs σ) → fenced σ = false → lost σ = false → wal σ = c_wal d0 →
  group_start batches d = Some (d1, Ok g) → group_absorb g more d1 = Some (d2, g2) → g_failed g2 = true →
  group_finish g2 d2 = Some (d3, results) → c_fenced d3 = false →
  ∃ s' encs, queue batches 0 (c_next_seq d0) (g_appended g) s' ∧
    Forall2 (λ m enc, encode_ops (member_ops m) [] = Some enc) (g_appended g) encs ∧
    refused (batches ++ more) results ∧ c_mem d3 = c_mem d0 ∧
    c_published d3 = Z.max (c_published d0) (max_appended_seq g) ∧
    ∀ l f sched, sync_data_inner (c_wal d3) = Some (Ok tt, l) → fits (recs σ ++ encs) → log_readable (recs σ ++ encs) →
      crash_image (w_sink (writer l)) f →
      ∃ r, collect_all (reader_new (mkSrc f sched)) = Some (Ok (recs σ ++ encs), r).
Proof.
  intros Hne Hmore Had Hr Hfits Hnf Hnl Hw Es Ea Hfail Ef Hnf3.
  assert (block_ok d0) as Hblk by (by eapply log_block_ok).
  destruct (start_ok batches d d0 Hne Had Hblk) as (d1' & r & Es' & Sm & Sp & _ & _ & Sr).
  rewrite Es in Es'. injection Es' as <- <-. destruct Sr as (Hg & Hp & n & Henc).
  destruct (encode_batches_ok (member_ops <$> g_appended g) (c_wal d0) Hblk) as (n' & encs & o & x & Hencs & Hx & Henc').
  rewrite Henc in Henc'. injection Henc' as <- Hwal1.
  assert (block_ok d1) as Hblk1.
  { unfold block_ok. rewrite Hwal1. cbn. by destruct (append_records_prefix _ encs [] Hblk) as (? & ? & ? & _ & ?); simplify_eq. }
  destruct (group_absorb_ok batches more _ g d1 Hg Hp Hblk1 Hmore) as (d2' & g2' & Ea' & [(_ & Hu & Hap & Hns)|(Hg2 & _)]);
    rewrite Ea in Ea'; injection Ea' as <- <-; [|by rewrite (go_failed _ _ _ _ _ Hg2) in Hfail].
  destruct Hu as (U1 & _ & U3 & U4 & _).
  destruct (finish_failed _ _ _ _ _ Hfail Hns Ef Hnf3) as (Href & Hm & Hpub & Hwr).
  pose proof (go_queue _ _ _ _ _ Hg) as Hq. rewrite Hp, app_nil_r in Hq.
  exists (c_next_seq d1), encs. split; [exact Hq|]. split; [by apply Forall2_fmap_l in Hencs|].
  split; [done|]. split; [congruence|]. split; [rewrite Hpub, U1, Sp; unfold max_appended_seq; by rewrite Hap|].
  intros l f sched Hsync Hfits1 Hrd Hcr.
  set (σ1 := mkSys (c_wal d1) (jobs σ) (ran σ) (recs σ ++ encs) false (lost σ)).
  set (σ2 := mkSys (c_wal d3) (jobs σ) (ran σ) (recs σ ++ encs) false (lost σ)).
  assert (reachable positional orderly σ2) as Hr2.
  { apply (reachable_move _ _ σ1).
    - eapply reachable_move; [exact Hr|]. exists ActEncode. split; [done|].
      eapply step_encode; [done|exact Hencs|]. by rewrite Hw.
    - exists ActWrite. split; [done|]. apply (step_write positional σ1 false (Ok tt)); [done|]. cbn. by rewrite <-U3. }
  by apply (proj1 (sync_recovered positional σ2 l Hr2 Hfits1 Hrd eq_refl Hnl Hsync)).
Qed.

(** A group that has absorbed later arrivals without a failure commits as the
    group of all its batches: all members acknowledged and applied behind the
    old memtable, or nothing. *)
Theorem absorbed_group_atomic batches more s0 g (d : CommitDb X) :
  group_ok batches (length batches) s0 g d → g_pending g = [] → block_ok d → inflight (c_wal d) = 0%nat → more ≠ [] →
  ∃ d1 g1, group_absorb g more d = Some (d1, g1) ∧
    (g_failed g1 = true ∨ ∃ d' results, group_finish g1 d1 = Some (d', results) ∧ length results = length (batches ++ more) ∧
      (refused (batches ++ more) results ∧ c_mem d' = c_mem d1 ∨
       acknowledged (batches ++ more) (g_appended g1) results ∧
       ∃ d2, d' = publish_sequence (max_appended_seq g1) (if batch_is_empty (length (g_appended g1)) then d2 else auto_flush d2) ∧
         c_mem d2 = foldl apply_ops_owned (c_mem d1) (member_ops <$> g_appended g1))).
Proof.
  intros Hg Hp Hb Hinf Hne. destruct (group_absorb_ok _ _ _ _ _ Hg Hp Hb Hne) as (d1 & g1 & E & Hout). exists d1, g1. split; [done|].
  destruct Hout as [(? & _)|(Hg1 & Hp1 & new & n & _ & Henc)]; [by left|right].
  apply encode_inflight in Henc. rewrite Hinf in Henc.
  destruct (finish_ok _ _ _ _ Hg1 Hp1 Henc) as (d' & results & Ef & Hl & Hres). exists d', results. split; [done|]. split; [done|].
  destruct Hres as [(? & _ & ? & _)|(? & d2 & ? & ? & _)]; [by left|right]. split; [done|]. by exists d2.
Qed.
End props.

(** ** Witnesses *)

(** An engine that admits everything and does nothing else. *)
Definition idle_engine : Engine unit := {|
  ensure_disk_pressure_admitted d := (d, Ok tt);
  ensure_write_admitted d := (d, Ok tt);
  observe_bulk_batch _ _ := tt;
  feed_changes _ _ := tt;
  persist_changelog _ := tt;
  note_dirty_points _ _ := tt;
  invalidate_read_answers _ _ := tt;
  auto_flush d := d;
  to_string _ := lit "error";
  buffer seq := seq + 1
|}.

(** A fresh database on a fresh log, with values of a byte or more spilled when
    [large], and a script for the value log. *)
Definition fresh_db (large : bool) (script : list VIo) : CommitDb unit :=
  mkCdb 1 0 false (wal (initial true [] 0 false)) (mkSpill None (if large then Some 1 else None) None false 0 script)
    mem_new [] 0 0 0 tt.

Definition sample_batches : list (list BatchOp * bool) :=
  [([OpPut [x61] [x31]; OpDelete [x62]], true); ([], false); ([OpPut [x63] [x32]], false)].

Definition commit_answers (r : option (CommitDb unit * list (Result CoreError Z))) : option (list (Result CoreError Z)) := snd <$> r.

Lemma fresh_table : table_ok mem_new.
Proof. split; [apply mem_new_ok|constructor]. Qed.

Lemma fresh_reach : @reachable crc32c_bitwise true orderly (initial true [] 0 false).
Proof. by exists [], 0, false. Qed.

Lemma fresh_fits : @fits crc32c_bitwise [].
Proof. intros o x [= <- <-]. vm_compute. discriminate. Qed.

Lemma group_commit_atomic_witness :
  commit_answers (group_commit (CC := crc32c_bitwise) (EN := idle_engine) sample_batches (fresh_db true [])) = Some [Ok 2; Ok 2; Ok 3] ∧
  ∃ d' results, group_commit (CC := crc32c_bitwise) (EN := idle_engine) sample_batches (fresh_db true []) = Some (d', results) ∧ length results = 3%nat.
Proof.
  split; [vm_compute; reflexivity|].
  destruct (group_commit_atomic (CC := crc32c_bitwise) (EN := idle_engine) true (initial true [] 0 false) (fresh_db true []) (fresh_db true []) sample_batches)
    as (d' & results & E & Hl & _); [discriminate|reflexivity|exact fresh_reach|exact fresh_fits|reflexivity|reflexivity|reflexivity|exact fresh_table| |].
  - intros e He. by apply not_elem_of_nil in He.
  - exists d', results. split; [exact E|exact Hl].
Defined.

(** The records recovery finds in the log's file, decoded. *)
Definition recovered_ops (d : CommitDb unit) : option (list (Result CoreError (list WriteOp))) :=
  match collect_all (H := crc32c_bitwise) (reader_new (mkSrc (file (writer (c_wal d))) [])) with
  | Some (Ok rs, _) => Some (decode_record 100 <$> rs)
  | _ => None
  end.
Definition ops_keys (r : Result CoreError (list WriteOp)) : list (list byte * Z) :=
  match r with Ok ops => (λ o, (op_key o, op_sequence o)) <$> ops | Err _ => [] end.
Definition recovered_keys (d : CommitDb unit) : option (list (list (list byte * Z))) := option_map (fmap (M := list) ops_keys) (recovered_ops d).

Lemma group_commit_durable_witness :
  ∃ d' ms encs, group_commit (CC := crc32c_bitwise) (EN := idle_engine) sample_batches (fresh_db true []) = Some (d', [Ok 2; Ok 2; Ok 3]) ∧
    recovered_keys d' = Some [[([x61], 1); ([x62], 2)]; [([x63], 3)]] ∧
    acknowledged sample_batches ms [Ok 2; Ok 2; Ok 3] ∧ Forall2 (λ m enc, encode_ops (member_ops m) [] = Some enc) ms encs.
Proof.
  destruct (group_commit (CC := crc32c_bitwise) (EN := idle_engine) sample_batches (fresh_db true [])) as [[d' results]|] eqn:E;
    [|vm_compute in E; discriminate].
  assert (results = [Ok 2; Ok 2; Ok 3]) as Er by (apply (f_equal commit_answers) in E; vm_compute in E; by injection E as <-).
  assert (recovered_keys d' = Some [[([x61], 1); ([x62], 2)]; [([x63], 3)]]) as Ek.
  { apply (f_equal (λ r, p ← r; recovered_keys p.1)) in E. cbn [mbind option_bind fst] in E. rewrite <-E. vm_compute. reflexivity. }
  rewrite Er in E.
  destruct (group_commit_durable (CC := crc32c_bitwise) (EN := idle_engine) true (initial true [] 0 false) (fresh_db true []) (fresh_db true []) d'
    sample_batches [Ok 2; Ok 2; Ok 3] 0 [OpPut [x61] [x31]; OpDelete [x62]] 2) as (ms & s' & d2 & encs & Hq & Hack & _ & _ & _ & Hall & _);
    [reflexivity|exact fresh_reach|exact fresh_fits|reflexivity|reflexivity|reflexivity|reflexivity|exact E|reflexivity|discriminate|reflexivity|].
  exists d', ms, encs. split; [by rewrite Er|]. split; [exact Ek|]. split; [exact Hack|].
  eapply Forall2_impl; [exact Hall|]. intros m enc [He _]. exact He.
Defined.

(** The barrier of the value log fails. *)
Definition vio_no_barrier : VIo := mkVio (λ _, None) (Ok tt) WriteOk WriteOk (Err Io) append_io_ok.

Definition refused_start := group_start (CC := crc32c_bitwise) (EN := idle_engine) [([OpPut [x61] [x31]], true)]
  (fresh_db true [vio_ok; vio_ok; vio_ok; vio_no_barrier]).

Lemma absorb_failure_commits_refused_witness :
  ∃ d1 g d2 g2 d3 e1 e2, refused_start = Some (d1, Ok g) ∧
    group_absorb (CC := crc32c_bitwise) (EN := idle_engine) g [([OpPut [x62] [x32]], true)] d1 = Some (d2, g2) ∧
    group_finish (EN := idle_engine) g2 d2 = Some (d3, [Err e1; Err e2]) ∧
    c_mem d3 = mem_new ∧ c_published d3 = 1 ∧ recovered_keys d3 = Some [[([x61], 1)]].
Proof.
  unfold refused_start. do 7 eexists. split; [vm_compute; reflexivity|]. split; [vm_compute; reflexivity|].
  match goal with |- group_finish ?g ?d = _ ∧ _ => set (g2 := g); set (d2 := d) end.
  split; [vm_compute; reflexivity|].
  match goal with |- c_mem ?d = _ ∧ _ => set (d3 := d) end.
  destruct (absorb_failure_commits_refused (CC := crc32c_bitwise) (EN := idle_engine) true (initial true [] 0 false)
    (fresh_db true [vio_ok; vio_ok; vio_ok; vio_no_barrier]) (fresh_db true [vio_ok; vio_ok; vio_ok; vio_no_barrier])
    _ _ d2 g2 d3 [([OpPut [x61] [x31]], true)] [([OpPut [x62] [x32]], true)] _
    ltac:(discriminate) ltac:(discriminate) eq_refl fresh_reach fresh_fits eq_refl eq_refl eq_refl
    ltac:(vm_compute; reflexivity) ltac:(vm_compute; reflexivity) eq_refl ltac:(vm_compute; reflexivity) eq_refl)
    as (ms' & encs & _ & _ & _ & Hm & Hp & _).
  split; [exact Hm|]. split; [rewrite Hp; vm_compute; reflexivity|vm_compute; reflexivity].
Defined.
