(* ===== verification/DbOpen.v ===== *)
(** Opening a database ([db_open_kernel.rs]): the replay of archived segments
    and of the write-ahead log into a fresh memtable, the decisions a damaged
    log meets ([wal/reopen_kernel.rs], [corrupt_kernel.rs]), the repair and the
    cut of its tail, and the next sequence.

    The tables, the change feed and the value log are opened elsewhere: the
    highest sequences of the tables are inputs. *)

From S2P Require Import Prelude Text ErrorKernel KeyKernel BatchKernel WalFormat WalFragment WalReader WalRecovery ValueLog Spill Visibility MemTable MemBulk OrdMap WalWriter WalLog WalSystem OccProbe Occ GroupCommit.

Local Open Scope Z_scope.

(** * Decisions *)

Inductive OpenWalHeadPlan := HeadSkip | EmptyTiny | RecoverSpan.
Definition TINY_WAL_EMPTY_MAX : Z := 64.
Definition torn_head_is_empty_log (len tiny_max : Z) : bool := len <? tiny_max.
Definition open_wal_head_plan (wal_exists truncated_zero : bool) (wal_len : Z) : OpenWalHeadPlan :=
  if negb wal_exists then HeadSkip
  else if truncated_zero && torn_head_is_empty_log wal_len TINY_WAL_EMPTY_MAX then EmptyTiny
  else RecoverSpan.

Inductive ReopenDamage := NoDamage | TruncatedHead | TruncatedTail | CrcDamage | ZeroHeader | ResyncDamage.
Inductive ReopenOutcome := ServeAll | ServePrefixReport | RefuseOpen.
Definition reopen_outcome (damage : ReopenDamage) (point_in_time escalated : bool) : ReopenOutcome :=
  match damage with
  | NoDamage => ServeAll
  | _ => if point_in_time && negb escalated then ServePrefixReport else RefuseOpen
  end.

Inductive PitResyncRewritePlan := RewriteWalFromPrefix | KeepRecoveredPrefix.
Definition pit_resync_rewrite_plan (is_resync : bool) : PitResyncRewritePlan :=
  if is_resync then RewriteWalFromPrefix else KeepRecoveredPrefix.
Definition torn_tail_needs_cut (len last_good : Z) : bool := last_good <? len.

(** [cf_family_of] *)
Definition cf_family_of (user_key : list byte) : text :=
  match list_find (λ b, b = x00) user_key with
  | Some (S i, _) => from_utf8_lossy (take (S i) user_key)
  | _ => lit "default"
  end.

Record RecoveryReport := mkReport { rep_kind : string; corrupt_offset : Z; good_through_offset : Z; discarded_bytes : Z }.

(** What the open is given: the recovery mode, the answers of the corruption
    journal ([record_event]), the outcomes of the writes of a repair and of its
    rename, and of the cut of the tail. *)
Record OpenIo := mkOpenIo {
  point_in_time : bool;
  record_event : string → Z → Result CoreError Z;
  repair_script : list Outcome;
  repair_rename : Result CoreError unit;
  cut_sync : Result CoreError unit
}.

Definition CORRUPTION_ESCALATION_EVENTS : Z := 3.
Definition escalate_or_fail (io : OpenIo) (kind : string) (offset : Z) (original : CoreError) : CoreError :=
  match record_event io kind offset with
  | Ok events => if CORRUPTION_ESCALATION_EVENTS <=? events then CorruptionEscalated events CORRUPTION_ESCALATION_EVENTS else original
  | Err _ => original
  end.
Definition is_escalated (e : CoreError) : bool := match e with CorruptionEscalated _ _ => true | _ => false end.

Section open_db.
Context `{CC : Crc32c} (sched : list nat) (heap : Z).

(** * Reading the log *)

(** [recover_span_on] and [recover_prefix_span_on]. *)
Definition recover_span_on (file : list byte) : option (Result CoreError (list (list byte) * Z * option Z)) :=
  '(r, rd) ← collect_all (reader_new (mkSrc file sched));
  Some (match r with Ok records => Ok (records, last_good_offset rd, resync_origin rd) | Err e => Err e end).
Definition recover_prefix_span_on (file : list byte) : option (list (list byte) * Z * option CoreError * option Z) :=
  '(records, err, rd) ← collect_prefix_all (reader_new (mkSrc file sched));
  Some (records, last_good_offset rd, err, resync_origin rd).

Abbreviation Span := (list (list byte) * Z * option RecoveryReport)%type.

(** The arm of a damage: refuse, or serve the decoded prefix with a report. *)
Definition damaged (io : OpenIo) (file : list byte) (kind : string) (damage : ReopenDamage) (offset : Z) (e : CoreError)
    : option (Result CoreError Span) :=
  let escalated := escalate_or_fail io kind offset e in
  match reopen_outcome damage (point_in_time io) (is_escalated escalated) with
  | ServePrefixReport =>
      '(records, last_good, _, _) ← recover_prefix_span_on file;
      Some (Ok (records, last_good, Some (mkReport kind offset last_good (sat_sub (zlen file) last_good))))
  | _ => Some (Err escalated)
  end.

(** The records to replay and the offset behind them. *)
Definition read_log (io : OpenIo) (file : list byte) : option (Result CoreError Span) :=
  r ← recover_span_on file;
  match r with
  | Ok (records, last_good, Some origin) =>
      damaged io file "resync" ResyncDamage origin (Internal [Lit "WAL resync skipped damaged region mid-log"])
  | Ok (records, last_good, None) => Some (Ok (records, last_good, None))
  | Err (Truncated 0) =>
      match open_wal_head_plan true true (zlen file) with
      | EmptyTiny | HeadSkip => Some (Ok ([], 0, None))
      | RecoverSpan => damaged io file "truncated_head" TruncatedHead 0 (Truncated 0)
      end
  | Err (Truncated offset) => damaged io file "truncated_tail" TruncatedTail offset (Truncated offset)
  | Err (Crc offset expected found) => damaged io file "crc" CrcDamage offset (Crc offset expected found)
  | Err (WalZeroHeader offset) => damaged io file "zero_header" ZeroHeader offset (WalZeroHeader offset)
  | Err e => Some (Err e)
  end.

(** * Repair and replay *)

(** A log rewritten from the recovered records, synced and renamed into place. *)
Fixpoint append_all (records : list (list byte)) : WalOp unit :=
  match records with
  | [] => λ l, Some (Ok tt, l)
  | raw :: records => wal_bind (append_record raw) (λ _, append_all records)
  end.
Definition rewrite_log (io : OpenIo) (records : list (list byte)) : option (Result CoreError (list byte)) :=
  '(r, l) ← wal_bind (append_all records) (λ _, sync_data_inner) (create_on (fresh_sink (repair_script io)) 0 true false);
  Some (match r with
        | Err e => Err e
        | Ok _ => let? _ := repair_rename io in Ok (WalWriter.file (writer l))
        end).
Definition is_resync (report : option RecoveryReport) : bool :=
  match report with Some r => String.eqb (rep_kind r) "resync" | None => false end.

(** [apply_record] *)
Definition apply_record (m : MemTable) (ops : list WriteOp) : MemTable := apply_ops_owned m ops.
Definition max_seq_with (max_seq : Z) (ops : list WriteOp) : Z := from_option (Z.max max_seq) max_seq (max_sequence ops).

Fixpoint replay (records : list (list byte)) (m : MemTable) (max_seq : Z) : Result CoreError (MemTable * Z) :=
  match records with
  | [] => Ok (m, max_seq)
  | raw :: records =>
      let? ops := decode_record heap raw in
      replay records (apply_record m ops) (max_seq_with max_seq ops)
  end.

(** The log of an existing database: read, repaired, replayed and cut. *)
Record Opened := mkOpened { o_mem : MemTable; o_max_seq : Z; o_file : option (list byte); o_report : option RecoveryReport }.
Definition open_log (io : OpenIo) (file : list byte) (m : MemTable) (max_seq : Z) : option (Result CoreError Opened) :=
  r ← read_log io file;
  match r with
  | Err e => Some (Err e)
  | Ok (records, last_good, report) =>
      repaired ← (match pit_resync_rewrite_plan (is_resync report) with
                  | RewriteWalFromPrefix => rewrite_log io records
                  | KeepRecoveredPrefix => Some (Ok file)
                  end);
      Some (let? file := repaired in
            let? '(m, max_seq) := replay records m max_seq in
            if torn_tail_needs_cut (zlen file) last_good then
              let? _ := cut_sync io in Ok (mkOpened m max_seq (Some (take (Z.to_nat last_good) file)) report)
            else Ok (mkOpened m max_seq (Some file) report))
  end.
Definition open_wal (io : OpenIo) (wal : option (list byte)) (m : MemTable) (max_seq : Z) : option (Result CoreError Opened) :=
  match open_wal_head_plan (bool_decide (is_Some wal)) false 0, wal with
  | (EmptyTiny | RecoverSpan), Some file => open_log io file m max_seq
  | _, _ => Some (Ok (mkOpened m max_seq wal None))
  end.

(** * Archived segments *)

(** [floors] is the highest sequence published for each family. *)
Record Archive := mkArchive { a_mem : MemTable; a_max_seq : Z; a_seen : Z; a_replayed : bool }.
Definition above_floor (floors : gmap text Z) (op : WriteOp) : bool :=
  default 0 (floors !! cf_family_of (op_key op)) <? op_sequence op.
Fixpoint replay_archive (floors : gmap text Z) (records : list (list byte)) (a : Archive) : Result CoreError Archive :=
  match records with
  | [] => Ok a
  | raw :: records =>
      let? ops := decode_record heap raw in
      let seen := max_seq_with (a_seen a) ops in
      let data_ops := filter (λ op, above_floor floors op = true) ops in
      replay_archive floors records
        (if batch_is_empty (length data_ops) then mkArchive (a_mem a) (a_max_seq a) seen (a_replayed a)
         else mkArchive (apply_ops_owned (a_mem a) data_ops) (max_seq_with (a_max_seq a) ops) seen true)
  end.
Fixpoint open_archives (io : OpenIo) (display : nat → CoreError → Message) (floors : gmap text Z) (slot : nat) (segments : list (list byte)) (a : Archive)
    : option (Result CoreError Archive) :=
  match segments with
  | [] => Some (Ok a)
  | file :: segments =>
      r ← recover_span_on file;
      match r with
      | Err e => Some (Err (escalate_or_fail io "arch" 0 (Internal (display slot e))))
      | Ok (records, _, _) =>
          match replay_archive floors records a with
          | Err e => Some (Err e)
          | Ok a => open_archives io display floors (S slot) segments a
          end
      end
  end.

(** Whether the segments stay after the open. *)
Definition keep_wal_archives (segments : list (list byte)) (manifest_floor : Z) (a : Archive) : bool :=
  negb (length segments =? 0)%nat && ((manifest_floor <? a_seen a) || a_replayed a).

(** * The open *)

Definition next_sequence (max_seq archive_max_seq_seen earliest_readable_seq : Z) : Result CoreError Z :=
  let next_seq := Z.max (sat_add (Z.max (Z.max max_seq archive_max_seq_seen) earliest_readable_seq) 1) 1 in
  if MAX_ASSIGNABLE_SEQUENCE_NUMBER <? next_seq then Err (Internal [Lit "sequence number space exhausted"]) else Ok next_seq.

Record OpenDb := mkOpenDb { od_log : Opened; od_next_seq : Z; od_keep_archives : bool }.
Definition open_data (io : OpenIo) (display : nat → CoreError → Message) (floors : gmap text Z) (manifest_floor earliest_readable_seq : Z)
    (segments : list (list byte)) (wal : option (list byte)) : option (Result CoreError OpenDb) :=
  r ← open_archives io display floors 0 segments (mkArchive mem_new manifest_floor 0 false);
  match r with
  | Err e => Some (Err e)
  | Ok a =>
      r ← open_wal io wal (a_mem a) (a_max_seq a);
      Some (let? o := r in
            let? next_seq := next_sequence (o_max_seq o) (a_seen a) earliest_readable_seq in
            Ok (mkOpenDb o next_seq (keep_wal_archives segments manifest_floor a)))
  end.
End open_db.

(** * Lemmas *)

Section lemmas.
Context `{CC : Crc32c}.

(** A record of the log and the operations it encodes. *)
Definition encodes (ops : list WriteOp) (enc : list byte) : Prop :=
  encode_ops ops [] = Some enc ∧ record_fits ops ∧ ptr_coherent ops.

Lemma op_eq_entry ops ops' : Forall2 op_eq ops ops' → op_entry <$> ops = op_entry <$> ops'.
Proof.
  induction 1 as [|o o' ops ops' (H1 & H2 & H3 & H4) _ IH]; [done|]. cbn. rewrite IH. f_equal. unfold op_entry. by rewrite H1, H2, H3, H4.
Qed.

Lemma op_eq_max ops ops' n : Forall2 op_eq ops ops' → max_seq_with n ops = max_seq_with n ops'.
Proof.
  intros Hall. unfold max_seq_with, max_sequence. f_equal. generalize (@None Z).
  induction Hall as [|o o' ops ops' (_ & H2 & _) _ IH]; intros acc; [done|]. cbn. rewrite H2. apply IH.
Qed.

Lemma encodes_decode heap ops enc :
  encodes ops enc → ∃ ops', decode_record heap enc = Ok ops' ∧ op_entry <$> ops' = op_entry <$> ops ∧
    ∀ n, max_seq_with n ops' = max_seq_with n ops.
Proof.
  intros (He & Hf & Hc). destruct (decode_encode_ops ops [] heap Hf Hc) as (enc' & ops' & He' & _ & Hd & Hall).
  rewrite app_nil_l, He in He'. injection He' as <-. exists ops'. split; [done|].
  split; [symmetry; by apply op_eq_entry|]. intros n. symmetry. by apply op_eq_max.
Qed.

(** The replay appends the operations of the records, in order. *)
Lemma replay_ok heap opss encs m n :
  Forall2 encodes opss encs → table_ok m → uniq (mem_entries m ++ (op_entry <$> concat opss)) →
  total_bytes (mem_entries m ++ (op_entry <$> concat opss)) ≤ U64_MAX →
  ∃ m', replay heap encs m n = Ok (m', foldl max_seq_with n opss) ∧ table_ok m' ∧
    mem_entries m' = mem_entries m ++ (op_entry <$> concat opss).
Proof.
  intros Hall. revert m n. induction Hall as [|ops enc opss encs He _ IH]; intros m n Hm Hu Hb; cbn [replay foldl concat].
  { exists m. by rewrite app_nil_r. }
  destruct (encodes_decode heap _ _ He) as (ops' & Hd & Hent & Hmax). rewrite Hd. cbn [res_bind].
  rewrite Hmax. cbn [concat] in Hu, Hb. rewrite fmap_app in *. rewrite app_assoc in *. rewrite <-Hent in *.
  pose proof (total_bytes_length (op_entry <$> concat opss)) as Hge.
  destruct (insert_many_entries m (op_entry <$> ops') (length ops') Hm) as [Hm' He'].
  { eapply uniq_sub; [exact Hu|]. by apply submseteq_inserts_r. }
  { rewrite total_bytes_app in Hb. lia. }
  unfold apply_record, apply_ops_owned. rewrite <-He' in *. by apply IH.
Qed.

Lemma max_sequence_ge ops op : op ∈ ops → ∃ x, max_sequence ops = Some x ∧ op_sequence op ≤ x.
Proof.
  unfold max_sequence. generalize (@None Z) as acc.
  assert (∀ l acc x, acc = Some x → ∃ y, foldl (λ m o, Some (match m with None => op_sequence o | Some x => Z.max x (op_sequence o) end)) acc l = Some y ∧ x ≤ y) as Hge.
  { induction l as [|o l IH]; intros acc x ->; cbn; [by exists x|].
    destruct (IH (Some (Z.max x (op_sequence o))) _ eq_refl) as (y & E & Hy). exists y. split; [done|lia]. }
  induction ops as [|o ops IH]; intros acc; [by intros ?%not_elem_of_nil|]. intros [->|Hin]%elem_of_cons; [|by apply IH].
  cbn. destruct (Hge ops _ (match acc with None => op_sequence o | Some x => Z.max x (op_sequence o) end) eq_refl) as (y & E & Hy). exists y. split; [exact E|]. destruct acc; lia.
Qed.

Lemma max_seq_ge n opss : n ≤ foldl max_seq_with n opss ∧ ∀ op, op ∈ concat opss → op_sequence op ≤ foldl max_seq_with n opss.
Proof.
  revert n. induction opss as [|ops opss IH]; intros n; cbn [foldl concat]; [split; [done|by intros ? ?%not_elem_of_nil]|].
  destruct (IH (max_seq_with n ops)) as [H1 H2].
  assert (n ≤ max_seq_with n ops) as Hn by (unfold max_seq_with; destruct (max_sequence ops); cbn; lia).
  split; [lia|]. intros op [Hin|Hin]%elem_of_app; [|by apply H2]. destruct (max_sequence_ge _ _ Hin) as (x & E & Hx).
  etrans; [|exact H1]. unfold max_seq_with. rewrite E. cbn. lia.
Qed.

Lemma max_seq_le n opss bound : n ≤ bound → (∀ op, op ∈ concat opss → op_sequence op ≤ bound) → foldl max_seq_with n opss ≤ bound.
Proof.
  revert n. induction opss as [|ops opss IH]; intros n Hn Hb; cbn [foldl]; [done|]. apply IH; [|intros op Hop; apply Hb; cbn; set_solver].
  unfold max_seq_with, max_sequence.
  assert (∀ acc, (∀ x, acc = Some x → x ≤ bound) → (∀ op, op ∈ ops → op_sequence op ≤ bound) →
    from_option (Z.max n) n (foldl (λ m o, Some (match m with None => op_sequence o | Some x => Z.max x (op_sequence o) end)) acc ops) ≤ bound) as Hf.
  { clear IH Hb. induction ops as [|o ops IH]; intros acc Hacc Hops; cbn.
    - destruct acc as [x|]; cbn; [|done]. specialize (Hacc x eq_refl). lia.
    - apply IH; [|intros op Hop; apply Hops; by right]. intros x [= <-]. pose proof (Hops o (list_elem_of_here _ _)).
      destruct acc as [y|]; [|done]. specialize (Hacc y eq_refl). lia. }
  apply Hf; [done|]. intros op Hop. apply Hb. cbn. set_solver.
Qed.
End lemmas.

(** * Properties *)

Section props.
Context `{CC : Crc32c}.

Lemma read_log_sound sched io encs fs o zeros :
  layout 0 encs fs o → frames_readable fs →
  read_log sched io (frames_bytes fs ++ replicate zeros x00) = Some (Ok (encs, zlen (frames_bytes fs), None)).
Proof.
  intros Hl Hrd. destruct (layout_recovers encs fs o sched zeros Hl Hrd) as (rd & E & Hg & Ho & _).
  unfold read_log, recover_span_on. rewrite E. cbn [mbind option_bind]. rewrite Ho, Hg. reflexivity.
Qed.

Lemma next_sequence_ok n earliest :
  0 ≤ n < MAX_ASSIGNABLE_SEQUENCE_NUMBER → 0 ≤ earliest < MAX_ASSIGNABLE_SEQUENCE_NUMBER →
  next_sequence n 0 earliest = Ok (Z.max n earliest + 1).
Proof.
  intros Hn He. unfold next_sequence, sat_add. unfold MAX_ASSIGNABLE_SEQUENCE_NUMBER, MAX_SEQUENCE_NUMBER, U64_MAX in *.
  rewrite (proj2 (Z.ltb_ge _ _)) by lia. f_equal. lia.
Qed.

Lemma cut_zeros (f : list byte) zeros io m n report : cut_sync io = Ok tt →
  (if torn_tail_needs_cut (zlen (f ++ replicate zeros x00)) (zlen f)
   then let? _ := cut_sync io in Ok (mkOpened m n (Some (take (Z.to_nat (zlen f)) (f ++ replicate zeros x00))) report)
   else Ok (mkOpened m n (Some (f ++ replicate zeros x00)) report)) = Ok (E := CoreError) (mkOpened m n (Some f) report).
Proof.
  intros ->. unfold torn_tail_needs_cut, zlen. rewrite length_app, length_replicate, Nat2Z.id, take_app_length. cbn [res_bind].
  destruct (Z.ltb_spec (Z.of_nat (length f)) (Z.of_nat (length f + zeros))) as [Hz|Hz]; [done|].
  assert (zeros = 0%nat) as -> by lia. by rewrite app_nil_r.
Qed.

Lemma open_log_step sched heap io file records last_good m n :
  read_log sched io file = Some (Ok (records, last_good, None)) →
  open_log sched heap io file m n =
    Some (let? '(m, n) := replay heap records m n in
          if torn_tail_needs_cut (zlen file) last_good then
            let? _ := cut_sync io in Ok (mkOpened m n (Some (take (Z.to_nat last_good) file)) None)
          else Ok (mkOpened m n (Some file) None)).
Proof. unfold open_log. intros ->. reflexivity. Qed.

Lemma open_wal_some sched heap io file m n : open_wal sched heap io (Some file) m n = open_log sched heap io file m n.
Proof. unfold open_wal. generalize (open_log sched heap io file m n). intros r. reflexivity. Qed.

(** Without archives, for any log [F]. *)
Lemma open_with sched heap io display floors floor earliest (F : MemTable → Z → option (Result CoreError Opened)) :
  (r ← open_archives sched heap io display floors 0 [] (mkArchive mem_new floor 0 false);
   match r with
   | Err e => Some (Err e)
   | Ok a =>
       r ← F (a_mem a) (a_max_seq a);
       Some (let? o := r in
             let? next_seq := next_sequence (o_max_seq o) (a_seen a) earliest in
             Ok (mkOpenDb o next_seq (keep_wal_archives [] floor a)))
   end) =
  (r ← F mem_new floor;
   Some (let? o := r in let? next_seq := next_sequence (o_max_seq o) 0 earliest in Ok (mkOpenDb o next_seq false))).
Proof. reflexivity. Qed.

Lemma open_data_step sched heap io display floors floor earliest file :
  open_data sched heap io display floors floor earliest [] (Some file) =
    (r ← open_wal sched heap io (Some file) mem_new floor;
     Some (let? o := r in let? next_seq := next_sequence (o_max_seq o) 0 earliest in Ok (mkOpenDb o next_seq false))).
Proof. exact (open_with sched heap io display floors floor earliest (open_wal sched heap io (Some file))). Qed.

(** A sound log is replayed whole. Whatever the recovery mode and the way the
    file is read, a log that holds the records of [opss], with or without zeros
    behind them, opens without a report into a memtable of exactly their
    operations, is cut to the records, and the next sequence is above
    everything recovered and everything in the tables. *)
Lemma open_sound sched heap io display floors floor earliest opss encs fs o zeros :
  Forall2 encodes opss encs → layout 0 encs fs o → frames_readable fs → cut_sync io = Ok tt →
  uniq (op_entry <$> concat opss) → total_bytes (op_entry <$> concat opss) ≤ U64_MAX →
  0 ≤ floor < MAX_ASSIGNABLE_SEQUENCE_NUMBER → 0 ≤ earliest < MAX_ASSIGNABLE_SEQUENCE_NUMBER →
  (∀ op, op ∈ concat opss → op_sequence op < MAX_ASSIGNABLE_SEQUENCE_NUMBER) →
  ∃ od, open_data sched heap io display floors floor earliest [] (Some (frames_bytes fs ++ replicate zeros x00)) = Some (Ok od) ∧
    mem_entries (o_mem (od_log od)) = op_entry <$> concat opss ∧ table_ok (o_mem (od_log od)) ∧
    o_file (od_log od) = Some (frames_bytes fs) ∧ o_report (od_log od) = None ∧ od_keep_archives od = false ∧
    floor < od_next_seq od ∧ earliest < od_next_seq od ∧ ∀ op, op ∈ concat opss → op_sequence op < od_next_seq od.
Proof.
  intros Henc Hl Hrd Hcut Hu Hb Hfl Hea Hseq.
  destruct (replay_ok heap opss encs mem_new floor Henc fresh_table Hu Hb) as (m' & Hrep & Hm & He).
  destruct (max_seq_ge floor opss) as [Hn Hop]. set (n := foldl max_seq_with floor opss) in *.
  assert (n < MAX_ASSIGNABLE_SEQUENCE_NUMBER) as Hlt.
  { assert (n ≤ MAX_ASSIGNABLE_SEQUENCE_NUMBER - 1); [|lia]. apply max_seq_le; [lia|]. intros op Hin. specialize (Hseq op Hin). lia. }
  exists (mkOpenDb (mkOpened m' n (Some (frames_bytes fs)) None) (Z.max n earliest + 1) false). split.
  - rewrite open_data_step, open_wal_some, (open_log_step _ _ _ _ _ _ _ _ (read_log_sound _ _ _ _ _ _ Hl Hrd)).
    rewrite Hrep. cbn [res_bind]. rewrite cut_zeros by done. cbn [mbind option_bind res_bind o_max_seq].
    rewrite next_sequence_ok by lia. reflexivity.
  - cbn [od_log o_mem o_file o_report od_keep_archives od_next_seq]. split_and!; try done; try lia.
    intros op Hin. specialize (Hop op Hin). lia.
Qed.

(** C5: a committed group survives a crash. Let the log be in a state of an
    orderly run in which no write failed and none is in flight, and hold the
    operations of the memtable (so nothing was flushed or archived yet); let a
    batch that asked for the barrier be acknowledged. If the machine crashes
    before the closing flush, then opening the database on what the crash left of
    the log, with or without zeros behind it, ends without a report in a memtable
    with exactly the entries of the memtable that was lost, and hands out only
    newer sequences. The records have to be readable ([log_readable]), fit the
    log's offsets and the record format, and leave sequences to hand out. *)
Theorem commit_survives_crash {X : Type} `{EN : Engine X} positional σ (d d0 d' : CommitDb X) batches results j b s hist
    sched heap io display floors floor earliest zeros :
  group_admit (length batches) d = (d0, Ok tt) →
  reachable positional orderly σ → fits (recs σ) → fenced σ = false → lost σ = false → wal σ = c_wal d0 → inflight (c_wal d0) = 0%nat →
  Forall2 encodes hist (recs σ) → mem_entries (c_mem d0) = op_entry <$> concat hist →
  table_ok (c_mem d0) → (∀ e, e ∈ mem_entries (c_mem d0) → sequence e.1 < c_next_seq d0) →
  group_commit batches d = Some (d', results) → batches !! j = Some (b, true) → b ≠ [] → results !! j = Some (Ok s) →
  cut_sync io = Ok tt → 0 ≤ floor < MAX_ASSIGNABLE_SEQUENCE_NUMBER → 0 ≤ earliest < MAX_ASSIGNABLE_SEQUENCE_NUMBER →
  ∃ ms d2, acknowledged batches ms results ∧ d' = publish_sequence (fence_publish_seq (snd <$> ms)) (auto_flush d2) ∧
    ((∀ m, m ∈ ms → record_fits (member_ops m) ∧ ptr_coherent (member_ops m)) →
     total_bytes (mem_entries (c_mem d0) ++ member_entries ms) ≤ U64_MAX →
     (∀ e, e ∈ mem_entries (c_mem d0) ++ member_entries ms → sequence e.1 < MAX_ASSIGNABLE_SEQUENCE_NUMBER) →
     ∀ encs f, Forall2 (λ m enc, encode_ops (member_ops m) [] = Some enc) ms encs →
     fits (recs σ ++ encs) → log_readable (recs σ ++ encs) → crash_image (w_sink (writer (c_wal d2))) f →
     ∃ od, open_data sched heap io display floors floor earliest [] (Some (f ++ replicate zeros x00)) = Some (Ok od) ∧
       mem_entries (o_mem (od_log od)) = mem_entries (c_mem d2) ∧ mem_entries (c_mem d2) = mem_entries (c_mem d0) ++ member_entries ms ∧
       o_report (od_log od) = None ∧
       (∀ e, e ∈ mem_entries (c_mem d2) → sequence e.1 < od_next_seq od) ∧ floor < od_next_seq od).
Proof.
  intros Had Hr Hfits Hnf Hnl Hw Hinf Hhist Hmem Ht Hlt Hc Hb Hne Hok Hcut Hfl Hea.
  destruct (commit_synced _ _ _ _ _ _ _ _ _ _ Had Hr Hfits Hnf Hnl Hw Hinf Hc Hb Hne Hok)
    as (ms & s' & d2 & encs' & Hq & Hack & Ed & _ & _ & Em & Henc' & l & Hr1 & Hsync).
  exists ms, d2. split; [done|]. split; [done|]. intros Hms Hroom Hmax encs f Henc Hfits1 (fs & o & Hl & Hrd) Hcr.
  assert (encs' = encs) as ->.
  { clear -Henc Henc'. revert encs Henc. induction Henc' as [|m e' ms' es' [He' _] _ IH]; intros encs Henc; inversion Henc; subst; [done|].
    f_equal; [congruence|]. by apply IH. }
  destruct (sync_layout positional _ fs o _ Hr1 Hl Hfits1 eq_refl eq_refl Hsync) as (Hfile & Hclean & _).
  apply (crash_clean _ _ Hclean) in Hcr as ->. unfold WalWriter.file in Hfile. rewrite Hfile.
  assert (uniq (mem_entries (c_mem d0) ++ member_entries ms)) as Hu by (eapply queue_fresh; [done|apply Ht|done]).
  destruct (members_entries ms (c_mem d0) Ht Hu Hroom) as [Ht2 He2]. rewrite <-Em in He2, Ht2.
  assert (op_entry <$> concat (hist ++ (member_ops <$> ms)) = mem_entries (c_mem d0) ++ member_entries ms) as Eall.
  { rewrite concat_app, fmap_app, <-Hmem. done. }
  destruct (open_sound sched heap io display floors floor earliest (hist ++ (member_ops <$> ms)) (recs σ ++ encs) fs o zeros)
    as (od & Hod & Hme & _ & _ & Hrep & _ & Hnf' & _ & Hns); try done; rewrite ?Eall; try done.
  - apply Forall2_app; [done|]. apply Forall2_fmap_l. clear -Henc Hms. induction Henc as [|m e ms es He _ IH]; [constructor|].
    constructor; [split; [done|]; apply Hms; by left|]. apply IH. intros m' Hm'. apply Hms. by right.
  - intros op Hin. apply (Hmax (op_entry op)). rewrite <-Eall. by apply list_elem_of_fmap_2.
  - exists od. rewrite Hme, He2, Eall. split_and!; try done. intros e. rewrite <-Eall.
    intros (op & -> & Hop)%list_elem_of_fmap. by apply Hns.
Qed.

(** C28: damage never costs the records before it. Take the bytes the writer
    lays out for readable records, followed by anything (a torn or damaged rest
    of the log, garbage). If reading the log at an open ends in success, whatever
    the recovery mode, the answers of the corruption journal and the way the file
    is read, then the records to replay start with all of them, in order; and in
    the mode that refuses damage no report is made. Whether damage in the rest is
    reported is not claimed: [unanchored_resync_is_silent] below. *)
Theorem open_serves_intact_prefix sched io recs o bytes tail records last_good report :
  append_records 0 recs [] = Some (o, bytes) → log_readable recs →
  read_log sched io (bytes ++ tail) = Some (Ok (records, last_good, report)) →
  recs `prefix_of` records ∧ (point_in_time io = false → report = None).
Proof.
  intros Ha (fs & o' & Hl & Hrd).
  destruct (append_records_layout 0 recs [] ltac:(lia)) as (fs' & o2 & Ha' & Hl' & _).
  destruct (layout_functional _ _ _ _ _ _ Hl Hl') as [-> ->]. rewrite Ha in Ha'. injection Ha' as -> ->. cbn [app].
  destruct (layout_recovers_prefix recs fs' o2 sched tail Hl' Hrd) as (more & err & rd & E).
  pose proof (layout_truncated_late recs fs' o2 sched tail) as Hlate.
  set (file := frames_bytes fs' ++ tail) in *. unfold read_log, recover_span_on, collect_all. rewrite E. cbn [mbind option_bind].
  assert (∀ kind damage offset e, damage ≠ NoDamage → damaged sched io file kind damage offset e = Some (Ok (records, last_good, report)) →
    recs `prefix_of` records ∧ (point_in_time io = false → report = None)) as Hd.
  { intros kind damage offset e Hne. unfold damaged, reopen_outcome, recover_prefix_span_on. rewrite E.
    destruct (point_in_time io); cbn [andb]; [|by destruct damage].
    destruct damage; try done; (destruct (is_escalated _); cbn [negb mbind option_bind]; [done|]);
      (intros [= <- <- <-]; split; [by eexists|done]). }
  destruct err as [e|].
  - destruct e as [|?|off|off| | | | | | | | | | | | | | | | | | | | |]; try done; try (by apply Hd).
    destruct off as [|p|p]; try (by apply Hd).
    unfold open_wal_head_plan, torn_head_is_empty_log. cbn [negb andb]. destruct (_ <? _); [|by apply Hd].
    intros [= <- <- <-]. split; [|done].
    destruct recs as [|r recs]; [done|]. exfalso. specialize (Hlate _ _ _ Hl' Hrd E).
    pose proof (layout_length _ _ _ _ Hl') as Hlen. cbn in Hlen. lia.
  - destruct (resync_origin rd) as [origin|]; [by apply Hd|]. intros [= <- <- <-]. split; [by eexists|done].
Qed.
End props.

(** ** Witnesses *)

(** Refuse damage; a file system without failures and an empty journal. *)
Definition fail_closed : OpenIo := mkOpenIo false (λ _ _, Ok 1) [] (Ok tt) (Ok tt).

Definition log_of (r : option (CommitDb unit * list (Result CoreError Z))) : list byte :=
  match r with Some (d, _) => WalWriter.file (writer (c_wal d)) | None => [] end.

(** What an open of the file serves: keys and sequences, the log afterwards, the
    report and the next sequence. *)
Definition served (r : option (Result CoreError OpenDb)) : option (list (list byte * Z) * option (list byte) * option RecoveryReport * Z) :=
  match r with
  | Some (Ok od) => Some ((λ e : entry, (user_key e.1, sequence e.1)) <$> mem_entries (o_mem (od_log od)), o_file (od_log od), o_report (od_log od), od_next_seq od)
  | _ => None
  end.
Definition reopen (file : list byte) :=
  served (open_data (CC := crc32c_bitwise) [] 100 fail_closed (λ _ _, []) ∅ 0 0 [] (Some file)).

Definition sample_commit := group_commit (CC := crc32c_bitwise) (EN := idle_engine) sample_batches (fresh_db false []).

Lemma commit_survives_crash_witness :
  reopen (log_of sample_commit) = Some ([([x61], 1); ([x62], 2); ([x63], 3)], Some (log_of sample_commit), None, 4) ∧
  ∃ d' ms, sample_commit = Some (d', [Ok 2; Ok 2; Ok 3]) ∧ acknowledged sample_batches ms [Ok 2; Ok 2; Ok 3].
Proof.
  split; [vm_compute; reflexivity|]. unfold sample_commit.
  destruct (group_commit (CC := crc32c_bitwise) (EN := idle_engine) sample_batches (fresh_db false [])) as [[d' results]|] eqn:E;
    [|vm_compute in E; discriminate].
  assert (results = [Ok 2; Ok 2; Ok 3]) as Er by (apply (f_equal commit_answers) in E; vm_compute in E; by injection E as <-).
  rewrite Er in *.
  destruct (commit_survives_crash (CC := crc32c_bitwise) (EN := idle_engine) true (initial true [] 0 false) (fresh_db false []) (fresh_db false []) d'
    sample_batches [Ok 2; Ok 2; Ok 3] 0 [OpPut [x61] [x31]; OpDelete [x62]] 2 [] [] 100 fail_closed (λ _ _, []) ∅ 0 0 0)
    as (ms & d2 & Hack & _);
    [reflexivity|exact fresh_reach|exact fresh_fits|reflexivity|reflexivity|reflexivity|reflexivity|constructor|reflexivity|exact fresh_table| |exact E|
     reflexivity|discriminate|reflexivity|reflexivity|vm_compute; split; [discriminate|reflexivity]|vm_compute; split; [discriminate|reflexivity]|].
  - intros e He. exfalso. exact (not_elem_of_nil e He).
  - exists d', ms. split; [reflexivity|exact Hack].
Defined.

(** The same log with its second record cut. *)
Definition torn_commit : list byte := take (length (log_of sample_commit) - 3) (log_of sample_commit).
Definition first_record : list (list byte) :=
  match collect_all (H := crc32c_bitwise) (reader_new (mkSrc (log_of sample_commit) [])) with
  | Some (Ok rs, _) => take 1 rs
  | _ => []
  end.

(** Serve the prefix. *)
Definition serve_prefix : OpenIo := mkOpenIo true (λ _ _, Ok 1) [] (Ok tt) (Ok tt).

Lemma first_record_layout : layout 0 first_record (mkFrame 0 RFull <$> first_record) 49%nat.
Proof.
  pose proof BLOCK_SIZE_val. assert (∃ a, first_record = [a] ∧ length a = 42%nat) as (a & -> & Ha)
    by (eexists; split; vm_compute; reflexivity).
  cbn [fmap list_fmap]. apply layout_full; [unfold HEADER_SIZE; lia|]. unfold HEADER_SIZE. rewrite Ha. apply layout_nil. lia.
Qed.

Lemma first_record_readable : log_readable (H := crc32c_bitwise) first_record.
Proof.
  exists (mkFrame 0 RFull <$> first_record), 49%nat. split; [exact first_record_layout|].
  let x := eval vm_compute in (mkFrame 0 RFull <$> first_record) in change (mkFrame 0 RFull <$> first_record) with x.
  repeat constructor; vm_compute; discriminate.
Qed.

Lemma open_serves_intact_prefix_witness :
  ∃ bytes tail records last_good report, torn_commit = bytes ++ tail ∧
    read_log (CC := crc32c_bitwise) [] serve_prefix torn_commit = Some (Ok (records, last_good, report)) ∧
    first_record `prefix_of` records.
Proof.
  assert (∃ bytes, append_records (H := crc32c_bitwise) 0 first_record [] = Some (49%nat, bytes) ∧ bytes = take 49 torn_commit)
    as (bytes & Hb & Et) by (eexists; split; vm_compute; reflexivity).
  assert (∃ records last_good report, read_log (CC := crc32c_bitwise) [] serve_prefix torn_commit =
    Some (Ok (records, last_good, report))) as (records & last_good & report & E) by (do 3 eexists; vm_compute; reflexivity).
  exists bytes, (drop 49 torn_commit), records, last_good, report.
  assert (torn_commit = bytes ++ drop 49 torn_commit) as Es by (by rewrite Et, take_drop).
  split; [exact Es|]. split; [exact E|]. rewrite Es in E.
  exact (proj1 (open_serves_intact_prefix (CC := crc32c_bitwise) [] serve_prefix first_record 49%nat bytes (drop 49 torn_commit)
           records last_good report Hb first_record_readable E)).
Defined.

(** ** Damage that no recovery mode sees *)

(** A first commit of one small put; then one byte of the log, in the length of
    its only record, is damaged. *)
Definition first_commit := group_commit (CC := crc32c_bitwise) (EN := idle_engine) [([OpPut [x61] [x31]], true)] (fresh_db false []).
Definition damaged_log : list byte := <[5%nat := x01]> (log_of first_commit).

(** The walk skips over the damaged record byte by byte and reaches the end of
    the log without finding another: it returns no record, no error and no resync
    origin, so that the mode that refuses damage opens the database empty and
    without a report, cuts the log to nothing, and hands out the sequence of the
    lost, acknowledged put again. *)
Theorem unanchored_resync_is_silent :
  commit_answers first_commit = Some [Ok 1] ∧
  reopen (log_of first_commit) = Some ([([x61], 1)], Some (log_of first_commit), None, 2) ∧
  ('(r, rd) ← collect_all (H := crc32c_bitwise) (reader_new (mkSrc damaged_log [])); Some (r, resync_origin rd)) = Some (Ok [], None) ∧
  reopen damaged_log = Some ([], Some [], None, 1).
Proof. split; [vm_compute; reflexivity|]. split_and!; vm_compute; reflexivity. Qed.
